(* ===== verification/_CoqProject ===== *)
-Q . S2P
Prelude.v
Ints.v
BTree.v
Rvl.v
Text.v
EntityPathPart.v
EntityPath.v
ParsePath.v
EntityPathFilter.v
EntityPathFilterSpec.v
TimeInt.v
TimeRange.v
Tuid.v
Deque.v
Arrow.v
ArrowRef.v
Column.v
Chunk.v
ChunkSlice.v
ChunkSort.v
ChunkMerge.v
ChunkQuery.v
Lineage.v
StoreStats.v
ChunkIndex.v
ChunkStore.v
StoreGc.v
StoreWrites.v
StoreFrame.v
StoreInvariant.v
StoreGcSpec.v
StoreInsertion.v
StoreStatic.v
StoreSplits.v
StoreJournal.v
StoreQueries.v
QueryCache.v
QueryCacheSpec.v
RangeCacheSpec.v
QueryCacheJournal.v
QueryCacheAnswers.v
CrateVersion.v
DlrFrames.v
DlrDecoder.v
DlrDecoderSpec.v
DlrStream.v
DlrEncoder.v
DlrEncoderSpec.v
DlrReader.v
DlrReaderSpec.v
PendingRow.v
PendingRowSpec.v
ChunkBuilder.v
Batcher.v
BatcherSpec.v
Examples.v
StoreExamples.v
QueryCacheExamples.v
BatcherExamples.v
DlrExamples.v
