(* ===== verification/Prelude.v ===== *)
(** * Dalaran's time-series store, verified

    Dalaran logs columns of component data against times.  The unit of storage is the chunk
    ([crates/store/dl_chunk]): a table of one entity whose rows have a unique row id, a time
    on each of the chunk's timelines, and a possibly null list of values for each component.
    A chunk without timelines is static: its data holds at all times.  The chunk store
    ([crates/store/dl_chunk_store]) keeps chunks in memory and indexes them by entity,
    timeline, component and time; a query first asks the indices for the relevant chunks,
    then slices, filters, sorts and merges those.  This library models that path from the
    integers up, and proves that the operations on chunks are the list operations they stand
    for on the chunks' rows, that the indices find every chunk a query needs, that insertion and
    garbage collection keep the store's maps, indices, lineages, reference counts and statistics
    in step, and that a latest-at query finds the latest of all the rows that were logged,
    however their chunks were split and compacted on the way in.  Rows become chunks in a builder or
    in the batcher, a thread that groups what is logged: no row is lost there.  The query engine
    ([crates/store/dl_query]) keeps what queries found in caches, which the store's events
    invalidate; queries through the caches are shown to answer as the store would.  Data is
    addressed by entity paths, which users type, and select with filters: the syntax of both
    is modelled, with the round trips of printing and parsing and the meaning of filters.  Two
    formats are modelled down to their bytes: the log format
    ([crates/store/dl_log_encoding]), with the encoder of streams, the decoder that is fed
    pieces of them and the readers that go by positions, and RVL, a codec of depth images.

    ** The files, and the code they model

    All sources are under [crates/].

    - [Prelude]: this file; outcomes of functions that can panic, results, sorting,
      searching, gathering and masking of lists.  The standard library's [partition_point],
      stable [sort_by], [min_by_key] and [max_by_key] are here.
    - [Ints]: machine integers in [Z], [utils/dl_int/src/saturating_cast.rs].
    - [TimeInt]: [store/dl_log_types/src/index/non_min_i64.rs] and [time_int.rs]: a time is
      an [i64], with [i64::MIN] standing for static data.
    - [TimeRange]: [index/absolute_time_range.rs], and the ranges relative to the time cursor
      in [store/dl_types_core/src/datatypes/time_range_boundary_ext.rs], [time_range_ext.rs].
    - [Tuid]: [utils/dl_tuid/src/lib.rs], [store/dl_types_core/src/row_id.rs], [chunk_id.rs].
    - [Deque]: [store/dl_log_types/src/vec_deque_ext.rs].
    - [Arrow]: the interface of the [arrow] crate (not part of the repository) as classes:
      the operations the store calls, and the laws its documentation states; and
      [utils/dl_arrow_util/src/arrays.rs] on top of it.  [ArrowRef] is an instance with
      concrete functions, which shows that the laws can hold together and on which every
      theorem is evaluated.
    - [Column]: the component columns and time columns of [store/dl_chunk/src/chunk.rs],
      with the time column's parts of [slice.rs], [merge.rs] and [shuffle.rs].
    - [Chunk]: the rest of [chunk.rs]: accessors, copies, event counts, sanity checks,
      constructors; and the rows of a chunk.
    - [ChunkSlice]: [slice.rs] and [split.rs].
    - [ChunkSort]: [shuffle.rs] and [Chunk::from_auto_row_ids].
    - [ChunkMerge]: [merge.rs].
    - [ChunkQuery]: [latest_at.rs], [range.rs], [unit_chunk.rs].
    - [PendingRow], [PendingRowSpec]: the upper half of [batcher.rs]: logged rows and the chunks
      made of a batch of them, with [index/time_cell.rs] and [time_point.rs] of
      [store/dl_log_types].  [Batcher], [BatcherSpec]: the lower half, the batching thread as a
      function of the events it takes from its channels.  [ChunkBuilder]: [builder.rs].
    - [ChunkIndex]: [ChunkIdSetPerTime] of [store/dl_chunk_store/src/store.rs], its update in
      [writes.rs] and the searches [latest_at] and [range] of [query.rs].
    - [Lineage]: [lineage.rs], and its bookkeeping in [writes.rs]: what a chunk was split or
      compacted from, with reference counts.  [StoreStats]: [stats.rs].
    - [ChunkStore]: the state and configuration of [store.rs], the queries of [query.rs] on it,
      and the scopes of [insert_chunk_impl] in [writes.rs] that index a temporal chunk.
    - [StoreGc]: [gc.rs], and the search for the chunks furthest from a time of [query.rs].
    - [StoreWrites]: [writes.rs] and [drop_time_range.rs], and what an insertion reports of
      [events.rs].
    - [StoreInvariant]: the invariant of the store ([store_ok]), and that removals keep it;
      [StoreGcSpec]: the contracts of removals and collection.
    - [StoreInsertion], [StoreStatic], [StoreSplits]: that insertion keeps the invariant, for a
      chunk that is stored as it is or compacted, that overwrites static chunks, that is split.
    - [StoreJournal]: the states that insertions and collections reach, as a step relation, and
      latest-at queries on them; [StoreQueries]: range queries and steps in time on them.
    - [StoreFrame]: what writes leave as it is: static chunks and lineages are only added to, no
      manifest appears.
    - [QueryCache]: [store/dl_query/src/cache.rs], [latest_at.rs], [range.rs] and
      [latest_all.rs]: the caches by key, the queries through them with the clears of the
      entity and its ancestors, the invalidation by events.
    - [QueryCacheSpec], [RangeCacheSpec]: when one cache is in step with the store, and that its
      queries keep it so; [QueryCacheJournal]: that the events of each change to the store
      keep all caches in step, and the states that insertions, collections and queries
      reach; [QueryCacheAnswers]: what queries answer in them.
    - [Text]: UTF-8, hexadecimal and decimal numbers, and the character classes of the standard
      library; [BTree]: [BTreeMap] as a sorted association list, for keys with an order that
      is not that of [Z].
    - [EntityPathPart], [EntityPath]: [store/dl_log_types/src/path/entity_path_part.rs] and
      [entity_path.rs]; [ParsePath]: [parse_path.rs], [data_path.rs], [component_path.rs],
      [instance.rs] and the cache of [entity_path.rs] that parsing goes through.
    - [EntityPathFilter]: [entity_path_filter.rs]; [EntityPathFilterSpec]: its meaning.
    - [Rvl]: [utils/dl_rvl/src/lib.rs], with the encoder of its tests.
    - [CrateVersion]: [build/dl_build_info/src/crate_version.rs], the versions that the log format
      carries.
    - [DlrFrames]: [store/dl_log_encoding/src/dlr/frames.rs] and [errors.rs], with
      [utils/dl_span/src/lib.rs]: the frames of a stream.  [DlrDecoder]: [decoder/state_machine.rs],
      [iterator.rs] and [mod.rs], with [log_msg.rs], over an interface of sources of bytes and one of
      entry points; [DlrDecoderSpec]: the decoder over a source without chunks, which the buffer of
      chunks implements.  [DlrStream]: [stream.rs], the asynchronous form of the iterator.  [DlrEncoder]: [encoder.rs]; [DlrEncoderSpec]: what is encoded is decoded.
    - [DlrReader]: [utils/dl_async/src/read_at.rs], and [footer_reader.rs], [fingerprint.rs] and
      [chunk_reader.rs], against positional reads; [DlrReaderSpec]: what they find in bytes in
      memory ([bytes_hold]) and in files whose reads may be short ([file_holds]).
    - [Examples], [StoreExamples], [QueryCacheExamples], [BatcherExamples], [DlrExamples]: concrete chunks, stores and
      runs, and the theorems applied to them.

    Each source file's functions are in a Module of the type's name, one definition per
    function, under the source's names; loops over local variables are [Fixpoint]s of their
    own next to the function.  [self] stays the first argument.

    ** Conventions

    A function that can panic returns [outcome]; [Result] is [result] and [Option] is
    [option].  Two classes carry the build: [debug_assertions] (which also turns overflow
    checks on, and runs [sanity_check] at the end of most operations) and [very_strict], the
    environment variable that turns warnings about unsorted chunks into panics; theorems
    about panics assume the default, [very_strict = false], and hold in debug and release
    builds unless they say otherwise.  What the code reads from the outside is an argument:
    the clock, the random seed, the iteration order of a [HashMap] ([HashOrder]), and the fresh
    ids [ChunkId::new()] draws ([new_id], or a function from what the draw is for: for the
    caches, from the key, the chunk and the step).  [IntMap], [BTreeMap] and [BTreeSet] are [gmap]
    and [gset], listed in key order where the code iterates in order.  The [arrow] crate and
    the measured heap sizes ([Chunk.SizeBytes], [QueryCache.TotalSize]) are parameters, and so are
    the hashes of paths and strings ([PathHash], [StringHash]: numbers of any size, so that a theorem
    can assume that the paths it is about do not collide), the order of path parts of the
    [natord] crate ([NaturalOrder], with its laws in [NaturalOrderLaws]), the Unicode tables of
    the standard library ([UnicodeTables]), the data type of an array ([DataTypes]), the hashes by
    which rows are grouped ([BatchHashes]), the traversal order of an [IntMap] where it shows
    ([IntMapOrder]), the sizes of rows ([RowSize]) and the deserialization of clears ([ClearCodec]).  Of
    the log format the parameters are the version of the build ([LocalVersion]), the hash of the
    [xxhash] crate ([Xxh32]), the messages of the [prost] crate with their codec ([Protos],
    [ProtosLaws]: what is encoded is decoded), and, as an interface, the messages of the application
    level with the builder of manifests ([Application], [DecoderEntrypoint], [Metadata]), the reads
    of the file system ([FileSystem]), the [sha2] crate ([Sha256]) and the decoding of one chunk.  Locks
    are not modelled: a query or an update of a cache is one step.  The channels of the
    batcher are the list of events its thread takes, in any interleaving.  Floating point is
    [spec_float] of the standard library, at 24 or 53 bits.  The offsets of list arrays are natural
    numbers: that no list array has more than [i32::MAX] values is an assumption.

    Loops over lists are structural.  These functions take fuel:
    - the binary search of a sorted chunk's row ids ([Chunk.bsearch_loop]) halves its window,
      and the splitting loop ([ChunkSlice.ChunkSplit.split_loop]) makes at least one row of
      progress: the number of rows is enough ([cell_spec], [split_chunk_if_needed_spec]);
    - splitting what was split ([StoreWrites.split_rounds]): each round but the last has more
      pieces, and there are no more than rows ([split_recursively_spec]);
    - the worklist that drops lineage references ([Lineage.drop_fuel], computed from the
      entries): [drop_lineage_reference_spec] says that it ends;
    - the recursions on lineage, which follow parents, and the walk along compactions
      ([Lineage.follow_compactions]), which leads to newer chunks: the number of entries
      ([find_roots_spec], [descends_from_spec], and the invariant [store_ok]);
    - the recursion of [insert_chunk_impl] on the pieces of a split is one level deep, since
      what was split is not split again ([insert_chunk_spec]).
    - a variable-length integer of RVL ([Rvl.VLE_FUEL]): the shift grows by three and is refused
      above 32, so eleven nibbles are enough; the loop over the image makes progress on the
      pixels ([rvl_decode_spec]).  Slices out of range, reads of too few bytes, allocations
      above the limit, and arithmetic that a debug build checks are panics there;
    - the tokenizers of paths and filters ([ParsePath.tokenize_loop],
      [EntityPathFilter.split_loop]) consume a byte a turn ([tokenize_by_spec],
      [split_whitespace_smart_spec]).
    - the decoder of the log format ([Decoder.try_read_fuel], [DecoderIterator.collect_fuel]): a
      step reads bytes, or goes to a state of lower rank ([Decoder.measure]); [decoder_terminates]
      says that it is enough for any reader; awaiting an item of the asynchronous stream
      ([DecoderStream.next_fuel]) takes an event of the reader at every poll ([stream_spec]);
    - the readers of files: [File.read_loop] and [RrdFingerprint.hash_loop] read a byte at least a
      turn ([file_holds], [fingerprint_spec]); the scan of metadata ([RrdMetadata.scan_loop]) reads
      sixteen, but can go back in a build without overflow checks ([legacy_scan_termination]).
    Running out is [None], [Done None] or [Panic], which the theorems exclude.

    ** The theorems

    Everything about chunks is stated on [Chunk.rows], the list of a chunk's rows (row id,
    times, cells), and on [Chunk.chunk_wf], the invariant that [sanity_check] tests in a
    debug build: [sanity_check_spec] shows that it tests exactly that, and that a cached heap
    size, if there is one, is right.

    The store is described by [store_ok st cs pending] of [StoreInvariant]: the indices of [st]
    represent the chunks [cs], in memory or known from a manifest; the maps of chunks and of
    row ids agree; every reference count is the number of references; statistics are the sums
    over the chunks in memory.

    - What was logged: [journal_latest_at_spec], [journal_range_spec], [journal_next_prev_spec]
      and [journal_spec], for any sequence of insertions, and [reachable_spec] for insertions
      and collections.
    - Caches: [cached_latest_at_spec] and [cached_range_spec], for any interleaving of insertions,
      collections, queries and collections of the caches, each change of the store followed by
      its events; [on_events_spec] for what one batch of events does.
    - Rows to chunks: [many_into_chunks_spec] (the chunks of a batch hold its rows, no other, and
      are no longer than allowed but for one row), [batcher_spec] (whatever the events, what was
      logged is sent or pending), [batcher_flush_spec] (flushes, and two ticks, send everything),
      [quiet_entity_starves] (where ticks do not), [builder_spec].
    - The log format: [encode_decode_roundtrip] (files of the encoder, one after the other and
      cut in any pieces, are decoded to their messages), [concatenated_streams_spec] (the same for
      streams with and without footers, with the manifests), [decoder_chunking] (what is decoded
      depends on the bytes alone), [decoder_terminates], [stream_spec] (the asynchronous stream is
      the iterator), [frames_roundtrip] and [crate_version_roundtrip], and the lemmas
      [stream_footer_decode_spec] and [encoder_span_spec].
    - Its readers: [read_chunks_spec] (chunks are those of their own slices of the file, however
      reads are coalesced), [read_footer_spec] (the footer of one stream, and what goes wrong with
      several), [legacy_metadata_spec] and [legacy_scan_termination] (files without footers), and the
      lemma [fingerprint_spec].
    - Insertion: [insert_chunk_spec], and the lemmas [insert_chunk_refused_spec] for the chunks
      that change nothing and [split_recursively_spec].
    - Collection: [gc_spec] and [gc_everything_spec], and the lemmas [remove_chunks_deep_spec],
      [gc_find_candidates_spec], [find_temporal_chunks_furthest_from_spec].
    - Lineage, as lemmas: [drop_lineage_reference_spec], [insert_lineage_if_missing_spec],
      [find_roots_spec], [descends_from_spec].
    - Queries through the store, as lemmas: [index_latest_at_spec] says what the search of an index
      returns; [store_latest_at_spec] joins the correctness of the indices with that
      of a chunk's own latest-at query.
    - Queries on a chunk: [latest_at_temporal_spec] and [range_temporal_spec], for sorted and
      unsorted chunks, and the lemma [latest_at_static_spec].
    - Chunks: [concat_and_sort_spec], [sanity_check_spec]; as lemmas [split_chunk_if_needed_spec],
      [sort_by_row_ids_spec], [sorted_by_timeline_spec], [from_auto_row_ids_spec],
      [row_sliced_spec], [filtered_spec], [densified_spec], [taken_spec],
      [deduped_latest_on_index_spec], [cell_spec], and [time_range_per_component_spec] (what
      chunks are indexed under).
    - Paths: [entity_path_roundtrip] and [data_path_roundtrip], with the lemma [part_roundtrip], say
      exactly which parts and paths survive printing and parsing; also the lemmas
      [tokenize_by_spec], [parse_forgiving_cached], [path_hierarchy_spec], [path_walk_spec].
    - Filters: [most_specific_match_spec] (the rule that decides, against a reference that walks
      up from the path), [is_superset_of_spec], [is_anything_in_subtree_included_spec],
      [remove_subtree_spec], and the lemmas [evaluate_spec], [split_whitespace_smart_spec].
    - RVL: [rvl_roundtrip], [rvl_decode_spec], and the lemma [rvl_parse_spec].
    - Identifiers, times and arrays: [tuid_new_increasing]; as lemmas [time_arith_spec],
      [id_formats_roundtrip], [range_lattice_spec], [pad_list_array_spec].
    - Lemmas say where the code departs from its documentation, or fails on a boundary:
      [row_id_range_per_component_swapped], [index_latest_at_limits],
      [pad_list_array_back_misaligns], [closest_multiple_of_overflows],
      [range_without_timeline_spec], [handle_pending_retains], [vle_overflow_unnoticed],
      [mixed_types_dropped], [doubled_component_moves], [parts_without_digits], [wrapped_number],
      [announced_length], [legacy_end], [undecodable_footer], [two_footers].

    A chunk caches its heap size once it is asked for ([Chunk.measured]), and the copies that
    shuffling makes keep the cached size, which [sanity_check] compares with a new measure in a
    debug build.  Theorems on such copies assume that the comparison cannot fail ([sturdy]: the
    size is not cached, or it is right and the same for any order of the rows); in a release build
    every chunk is [sturdy].  The store measures each chunk that it inserts, and [store_ok] says
    that all chunks in memory are measured; theorems on queries ask that they be sturdy
    ([sturdy_store]).  Theorems on merging assume that the columns to pad are compact
    ([ChunkMerge.pads_well]), which [pad_list_array_back_misaligns] shows to be needed; so do those
    on insertions, of a chunk and those in memory that it may be compacted with ([compacts]).  Queries that compare row ids assume that no row id is [RowId::ZERO], with which
    the code's loops start.

    Insertion theorems take chunks that are not in the store yet, under ids that nothing in it
    mentions, or that a manifest announced; in a debug build they allow a panic on a counter
    that overflows ([safe]).

    The theorems on caches assume that the store knows no manifest (every chunk is in memory or
    gone), that chunks in memory are sturdy ([sturdy_store]), and that the indices asked have
    intervals that fit in [i64] ([short_index]: a column without any value is indexed with a
    longer one, see [index_latest_at_limits]), both at the query and at those before it; the
    queried components have no static data.  Those on queries of a store without caches make the
    same two assumptions where they need them, of the store and the index that are asked.
    Clears are found among the entities that events have marked: [QueryCache::clear] forgets
    the marks, so [cached_latest_at_spec] is about states reached without it, and
    [cached_range_spec] about all.

    The theorems on batches assume that rows with the same hashes fit in one chunk ([compatible]),
    which [compatible_intro] derives from hashes that do not collide and components of one data
    type each; and that the sizes of all rows add up to a [u64].

    The theorems on the log format are about messages of the transport level, and assume that the
    version of the build fits in its bytes and is not zero ([local_ok]), that readers do not fail
    ([clean]) and that a file is no longer than [isize::MAX]; memory does not run out.  Those on
    readers by positions are about readers that hold some bytes ([holds]).

    ** Not modelled

    In the store: the schema and the entity tree, the numbering of events and the subscribers,
    which are computed from the differences that writes return; the queries on the schema.
    Modelled without theorems: [drop_time_range], [drop_entity_path] and [insert_dlr_manifest];
    the insertion theorem does not cover a chunk that is logged again while pieces it was split
    into are still in memory.  In the chunk crate: the handles, hooks and environment
    variables of the batcher, transport and the typed iterators; the parts that serialize or
    deserialize components.  In the query engine: locks, the
    accessors of results that deserialize, [range_zip] (generated), dataframe queries.  Of
    entity paths: short display names, natural ordering and [serde].  Of the
    log format: manifests, but for the columns that say where chunks are, and the
    conversions between messages of the transport level and the application, which go through
    Arrow's IPC format, lz4 and Protobuf.  Elsewhere in the repository: the viewer, the network
    services, the importers and code generation, which use this core.  Formatting for debug, profiling and logging are left out
    everywhere. *)

From stdpp Require Export base tactics list numbers option strings gmap sorting.
From Stdlib Require Export ZArith Lia.


Open Scope Z_scope.

(** [ints] proves range facts, [dal] rewrites with the defining equations of the
    library's list functions. *)
Create HintDb ints discriminated.
Create Rewrite HintDb dal.

(** ** Outcomes

    A Rust function that can panic returns an [outcome]: [Done v] for a normal
    return and [Panic] for a panic ([unwrap] on [None], an out-of-bounds index,
    an arithmetic overflow in a build with overflow checks). *)

Inductive outcome (A : Type) : Type :=
| Done (a : A)
| Panic.
Arguments Done {A} a.
Arguments Panic {A}.

#[export] Instance outcome_ret : MRet outcome := fun A a => Done a.
#[export] Instance outcome_bind : MBind outcome := fun A B f o =>
  match o with Done a => f a | Panic => Panic end.
#[export] Instance outcome_fmap : FMap outcome := fun A B f o =>
  match o with Done a => Done (f a) | Panic => Panic end.

Definition is_done {A} (o : outcome A) : bool :=
  match o with Done _ => true | Panic => false end.

(** [Option::unwrap]. *)
Definition unwrap {A} (o : option A) : outcome A :=
  match o with Some a => Done a | None => Panic end.

(** [Result<A, E>]. *)
Inductive result (A E : Type) : Type :=
| Ok (a : A)
| Err (e : E).
Arguments Ok {A E} a.
Arguments Err {A E} e.

#[export] Instance result_bind {E} : MBind (fun A => result A E) := fun A B f r =>
  match r with Ok a => f a | Err e => Err e end.

Definition is_ok {A E} (r : result A E) : bool :=
  match r with Ok _ => true | Err _ => false end.

(** [Option::ok_or]. *)
Definition ok_or {A E} (o : option A) (e : E) : result A E :=
  match o with Some a => Ok a | None => Err e end.

(** ** Slices

    [windows_all le l] is [l.windows(2).all(|w| le w[0] w[1])], the test the
    code uses everywhere for "is this column sorted". *)

Fixpoint windows_all {A} (le : A -> A -> bool) (l : list A) : bool :=
  match l with
  | x :: ((y :: _) as tl) => le x y && windows_all le tl
  | _ => true
  end.

(** [slice::partition_point]: the length of the prefix on which the predicate
    holds.  The standard library specifies it on partitioned slices only. *)
Fixpoint partition_point {A} (p : A -> bool) (l : list A) : nat :=
  match l with
  | [] => 0
  | x :: tl => if p x then S (partition_point p tl) else 0
  end.

(** [Iterator::min] and [Iterator::max] over a total order given as a boolean
    comparison: [min] keeps the first of several equal minima, [max] the last of
    several equal maxima. *)
Fixpoint iter_min {A} (le : A -> A -> bool) (l : list A) : option A :=
  match l with
  | [] => None
  | x :: tl =>
      match iter_min le tl with
      | None => Some x
      | Some m => Some (if le x m then x else m)
      end
  end.

Fixpoint iter_max {A} (le : A -> A -> bool) (l : list A) : option A :=
  match l with
  | [] => None
  | x :: tl =>
      match iter_max le tl with
      | None => Some x
      | Some m => Some (if le x m then m else x)
      end
  end.

(** [slice::sort] and [sort_by]: a stable sort. *)
Fixpoint insert_by {A} (le : A -> A -> bool) (x : A) (l : list A) : list A :=
  match l with
  | [] => [x]
  | y :: tl => if le x y then x :: l else y :: insert_by le x tl
  end.

Fixpoint sort_by {A} (le : A -> A -> bool) (l : list A) : list A :=
  match l with
  | [] => []
  | x :: tl => insert_by le x (sort_by le tl)
  end.

(** ** Total preorders given by boolean comparisons *)

Class TotalPreorder {A} (le : A -> A -> bool) : Prop := {
  le_trans x y z : le x y = true -> le y z = true -> le x z = true;
  le_total x y : le x y = true \/ le y x = true;
}.

(** A comparison read off a [Z]-valued key, and the lexicographic combination. *)
#[export] Instance key_preorder {A} (key : A -> Z) : TotalPreorder (fun x y => key x <=? key y).
Proof. split; intros *; rewrite !Z.leb_le; lia. Qed.

Definition lex_le {A} (le1 le2 : A -> A -> bool) (x y : A) : bool :=
  le1 x y && (negb (le1 y x) || le2 x y).

#[export] Instance lex_preorder {A} (le1 le2 : A -> A -> bool) :
  TotalPreorder le1 -> TotalPreorder le2 -> TotalPreorder (lex_le le1 le2).
Proof.
  intros H1 H2. unfold lex_le. split.
  - intros x y z. rewrite !andb_true_iff, !orb_true_iff, !negb_true_iff.
    intros [Hxy Hxy'] [Hyz Hyz']. split; [by apply (le_trans x y z)|].
    destruct (le1 z x) eqn:E; [right|by left].
    assert (le1 y x = true) by (by apply (le_trans y z x)).
    assert (le1 z y = true) by (by apply (le_trans z x y)).
    destruct Hxy' as [?|?], Hyz' as [?|?]; try congruence. by apply (le_trans x y z).
  - intros x y. destruct (le1 x y) eqn:E1, (le1 y x) eqn:E2; simpl; [apply le_total|by left|by right|].
    destruct (@le_total _ le1 H1 x y); congruence.
Qed.

Lemma le_refl {A} (le : A -> A -> bool) `{TotalPreorder A le} x : le x x = true.
Proof. by destruct (le_total x x). Qed.

Lemma le_false {A} (le : A -> A -> bool) `{TotalPreorder A le} x y :
  le x y = false -> le y x = true.
Proof. intros E. destruct (le_total x y); congruence. Qed.

Abbreviation sorted_by le := (StronglySorted (fun x y => le x y = true)).

Section Sorting.

Context {A : Type} (le : A -> A -> bool) `{!TotalPreorder le}.
Implicit Types (x y : A) (l k : list A).

Lemma windows_all_sorted l : windows_all le l = true <-> sorted_by le l.
Proof.
  induction l as [|x l IH]; [by split; constructor|].
  destruct l as [|y l].
  - split; [by repeat constructor|done].
  - change (windows_all le (x :: y :: l)) with (le x y && windows_all le (y :: l)).
    rewrite andb_true_iff, IH. split.
    + intros [Hxy Hs]. constructor; [done|]. constructor; [done|].
      inversion_clear Hs as [|? ? _ Hf]. eapply Forall_impl; [exact Hf|].
      intros z Hz. by apply (le_trans x y z).
    + intros Hs. inversion_clear Hs as [|? ? Hs' Hf]. by inversion_clear Hf.
Qed.

Lemma sorted_lookup l i j x y : sorted_by le l -> (i <= j)%nat ->
  l !! i = Some x -> l !! j = Some y -> le x y = true.
Proof.
  intros Hs. revert i j. induction Hs as [|z l Hs IH Hf]; intros i j Hij Hi Hj; [done|].
  destruct i as [|i], j as [|j]; simpl in *; try lia.
  - simplify_eq. by apply le_refl.
  - simplify_eq. rewrite Forall_forall in Hf. apply Hf. by apply list_elem_of_lookup_2 in Hj.
  - apply (IH i j); done || lia.
Qed.

Lemma insert_by_perm x l : insert_by le x l ≡ₚ x :: l.
Proof.
  induction l as [|y l IH]; simpl; [done|]. destruct (le x y); [done|].
  rewrite IH. by constructor.
Qed.

Lemma sort_by_perm l : sort_by le l ≡ₚ l.
Proof. induction l as [|x l IH]; simpl; [done|]. by rewrite insert_by_perm, IH. Qed.

Lemma insert_by_sorted x l : sorted_by le l -> sorted_by le (insert_by le x l).
Proof.
  induction 1 as [|y l Hs IH Hf]; simpl; [by repeat constructor|].
  destruct (le x y) eqn:E.
  - constructor; [by constructor|]. constructor; [done|].
    eapply Forall_impl; [exact Hf|]. intros z Hz. by apply (le_trans x y z).
  - constructor; [done|]. rewrite insert_by_perm. constructor; [by apply le_false|done].
Qed.

Lemma sort_by_sorted l : sorted_by le (sort_by le l).
Proof. induction l; simpl; [constructor|by apply insert_by_sorted]. Qed.

Lemma sort_by_id l : sorted_by le l -> sort_by le l = l.
Proof.
  induction 1 as [|x l Hs IH Hf]; simpl; [done|]. rewrite IH.
  destruct l as [|y l]; [done|]. simpl.
  inversion Hf as [|? ? Hxy _]; subst. by rewrite Hxy.
Qed.

(** Stability: elements that compare equal keep their order. *)
Lemma insert_by_filter (P : A -> Prop) `{!forall x, Decision (P x)} x l :
  (P x -> forall y, y ∈ l -> P y -> le x y = true) ->
  filter P (insert_by le x l) = filter P (x :: l).
Proof.
  induction l as [|y l IH]; simpl; intros HP; [done|].
  destruct (le x y) eqn:E; [done|].
  rewrite filter_cons, IH by (intros; apply HP; set_solver).
  rewrite !filter_cons. destruct (decide (P x)) as [Hx|Hx], (decide (P y)) as [Hy|Hy]; try done.
  exfalso. assert (le x y = true) by (apply HP; set_solver). congruence.
Qed.

Lemma sort_by_stable (P : A -> Prop) `{!forall x, Decision (P x)} l :
  (forall x y, P x -> P y -> le x y = true) -> filter P (sort_by le l) = filter P l.
Proof.
  intros HP. induction l as [|x l IH]; [done|]. cbn [sort_by].
  rewrite insert_by_filter by naive_solver. rewrite !filter_cons. by rewrite IH.
Qed.

End Sorting.

(** ** [partition_point], [iter_min] and [iter_max] *)

Section Searching.

Context {A : Type}.
Implicit Types (x y : A) (l : list A) (p : A -> bool).

Lemma partition_point_le p l : (partition_point p l <= length l)%nat.
Proof. induction l as [|x l IH]; simpl; [lia|]. destruct (p x); simpl; lia. Qed.

(** On a partitioned slice the partition point separates the two parts. *)
Lemma partition_point_spec p l i x :
  (forall j k y z, (j <= k)%nat -> l !! j = Some y -> l !! k = Some z -> p z = true -> p y = true) ->
  l !! i = Some x -> (i < partition_point p l)%nat <-> p x = true.
Proof.
  revert i. induction l as [|y l IH]; intros i Hp Hi; [done|]. simpl.
  destruct i as [|i]; simpl in Hi.
  - simplify_eq. destruct (p x); split; try lia; done.
  - destruct (p y) eqn:E.
    + rewrite <- Nat.succ_lt_mono. apply IH; [|done].
      intros j k u v Hjk Hj Hk. apply (Hp (S j) (S k)); done || lia.
    + split; [lia|]. intros Hx. rewrite (Hp 0%nat (S i) y x) in E; done || lia.
Qed.

Lemma partition_point_sorted (le : A -> A -> bool) `{!TotalPreorder le} p l i x :
  sorted_by le l -> (forall y z, le y z = true -> p z = true -> p y = true) ->
  l !! i = Some x -> (i < partition_point p l)%nat <-> p x = true.
Proof.
  intros Hs Hp. apply partition_point_spec. intros j k y z Hjk Hj Hk.
  apply Hp. by apply (sorted_lookup le l j k).
Qed.

Lemma iter_min_None (le : A -> A -> bool) l : iter_min le l = None <-> l = [].
Proof. destruct l as [|x l]; simpl; [done|]. by destruct (iter_min le l). Qed.

Lemma iter_max_None (le : A -> A -> bool) l : iter_max le l = None <-> l = [].
Proof. destruct l as [|x l]; simpl; [done|]. by destruct (iter_max le l). Qed.

Context (le : A -> A -> bool) `{!TotalPreorder le}.

Lemma iter_min_Some l m : iter_min le l = Some m -> m ∈ l /\ Forall (fun x => le m x = true) l.
Proof.
  revert m. induction l as [|x l IH]; intros m; simpl; [done|].
  destruct (iter_min le l) as [n|] eqn:E.
  - destruct (IH n eq_refl) as [Hn Hf]. intros [= <-]. destruct (le x n) eqn:Ex.
    + split; [by left|]. constructor; [by apply le_refl|].
      eapply Forall_impl; [exact Hf|]. intros z Hz. by apply (le_trans x n z).
    + split; [by right|]. constructor; [by apply le_false|done].
  - apply iter_min_None in E as ->. intros [= <-].
    split; [by left|]. constructor; [by apply le_refl|done].
Qed.

Lemma iter_max_Some l m : iter_max le l = Some m -> m ∈ l /\ Forall (fun x => le x m = true) l.
Proof.
  revert m. induction l as [|x l IH]; intros m; simpl; [done|].
  destruct (iter_max le l) as [n|] eqn:E.
  - destruct (IH n eq_refl) as [Hn Hf]. intros [= <-]. destruct (le x n) eqn:Ex.
    + split; [by right|]. constructor; done.
    + split; [by left|]. constructor; [by apply le_refl|].
      eapply Forall_impl; [exact Hf|]. intros z Hz. by apply (le_trans z n x), le_false.
  - apply iter_max_None in E as ->. intros [= <-].
    split; [by left|]. constructor; [by apply le_refl|done].
Qed.

End Searching.

(** ** Selecting rows *)

(** The elements of [l] whose flag in [m] is set. *)
Fixpoint mask {A} (m : list bool) (l : list A) : list A :=
  match m, l with
  | b :: m, x :: l => if b then x :: mask m l else mask m l
  | _, _ => []
  end.

Lemma mask_map {A B} (f : A -> B) m l : f <$> mask m l = mask m (f <$> l).
Proof. revert l. induction m as [|b m IH]; intros [|x l]; try done. destruct b; csimpl; by rewrite IH. Qed.

Lemma mask_all {A} (l : list A) : mask (replicate (length l) true) l = l.
Proof. induction l as [|x l IH]; simpl; congruence. Qed.

Lemma length_mask {A} m (l : list A) : length m = length l ->
  length (mask m l) = length (List.filter id m).
Proof.
  revert l. induction m as [|b m IH]; intros [|x l]; try done. simpl. intros [= Hl].
  destruct b; simpl; rewrite IH by done; done.
Qed.

Lemma elem_of_mask {A} m (l : list A) x : x ∈ mask m l <-> exists i, m !! i = Some true /\ l !! i = Some x.
Proof.
  revert l. induction m as [|b m IH]; intros [|y l]; simpl.
  1-3: split; [set_solver|]; intros (i & Hm & Hl); destruct i; done.
  split.
  - intros Hx. assert ((b = true /\ x = y) \/ x ∈ mask m l) as [[-> ->]|Hin]
      by (destruct b; set_solver).
    + by exists 0%nat.
    + apply IH in Hin as (i & ? & ?). by exists (S i).
  - intros ([|i] & Hm & Hl); simpl in *; simplify_eq.
    + by left.
    + assert (x ∈ mask m l) by (apply IH; eauto). destruct b; set_solver.
Qed.

(** Selecting by mask or by slice keeps an order. *)
Lemma sorted_mask {A} (le : A -> A -> bool) m l : sorted_by le l -> sorted_by le (mask m l).
Proof.
  intros Hs. revert m. induction Hs as [|x l Hs IH Hf]; intros [|b m]; simpl; try constructor.
  destruct b; [|done]. constructor; [done|].
  rewrite Forall_forall in Hf |- *. intros y (i & _ & Hy)%elem_of_mask.
  apply Hf. by apply list_elem_of_lookup_2 in Hy.
Qed.

Lemma sorted_take {A} (le : A -> A -> bool) n l : sorted_by le l -> sorted_by le (take n l).
Proof.
  intros Hs. revert n. induction Hs as [|x l Hs IH Hf]; intros [|n]; simpl; try constructor; [done|].
  by apply Forall_take.
Qed.

Lemma sorted_drop {A} (le : A -> A -> bool) n l : sorted_by le l -> sorted_by le (drop n l).
Proof.
  intros Hs. revert n. induction Hs as [|x l Hs IH Hf]; intros [|n]; simpl; try constructor; done.
Qed.

Lemma sorted_filter {A} (R : A -> A -> Prop) (P : A -> Prop) `{!forall x, Decision (P x)} l :
  StronglySorted R l -> StronglySorted R (filter P l).
Proof.
  induction 1 as [|x l Hs IH Hf]; [constructor|]. rewrite filter_cons. case_decide; [|done].
  constructor; [done|]. rewrite Forall_forall in *. intros y [_ Hy]%list_elem_of_filter. by apply Hf.
Qed.

Lemma sorted_app {A} (R : A -> A -> Prop) l k : StronglySorted R (l ++ k) <->
  StronglySorted R l /\ StronglySorted R k /\ forall x y, x ∈ l -> y ∈ k -> R x y.
Proof.
  split.
  - intros Hs. induction l as [|z l IH]; [split_and!; [constructor|done|set_solver]|].
    inversion_clear Hs as [|? ? Hs' Hf]. rewrite Forall_app in Hf. destruct Hf as [Hf1 Hf2].
    destruct (IH Hs') as (H1 & H2 & H3). split_and!; [by constructor|done|].
    intros x y [->|Hx]%elem_of_cons Hy; [|by apply H3]. rewrite Forall_forall in Hf2. by apply Hf2.
  - intros (H1 & H2 & H3). induction H1 as [|z l Hs IH Hf]; [done|]. simpl. constructor.
    + apply IH. intros x y Hx. apply H3. by right.
    + apply Forall_app. split; [done|]. apply Forall_forall. intros y. apply H3. by left.
Qed.

Lemma sorted_intro {A} (R : A -> A -> Prop) l :
  (forall i j x y, (i < j)%nat -> l !! i = Some x -> l !! j = Some y -> R x y) ->
  StronglySorted R l.
Proof.
  induction l as [|x l IH]; intros HR; constructor.
  - apply IH. intros i j y z Hij Hi Hj. by apply (HR (S i) (S j)); [lia|..].
  - apply Forall_lookup. intros j y Hj. by apply (HR 0%nat (S j)); [lia|..].
Qed.

(** The elements at the given indices, [None] when one is out of range. *)
Definition gather {A} (l : list A) (idx : list Z) : option (list A) :=
  mapM (fun i => if decide (0 <= i) then l !! Z.to_nat i else None) idx.

#[export] Instance nat_leb_preorder : TotalPreorder Nat.leb.
Proof. split; intros *; rewrite !Nat.leb_le; lia. Qed.

(** The elements at the given positions, [None] when one is out of range. Every way of
    selecting rows is an instance, with its own list of positions. *)
Definition pick {A} (l : list A) (js : list nat) : option (list A) := mapM (fun j => l !! j) js.

Section Pick.

Context {A : Type}.
Implicit Types l ys : list A.

Lemma pick_lookup l js ys i j : pick l js = Some ys -> js !! i = Some j -> ys !! i = l !! j.
Proof.
  intros Hp Hi. apply mapM_Some_1 in Hp.
  destruct (Forall2_lookup_l _ _ _ _ _ Hp Hi) as (y & Hy & Hj). congruence.
Qed.

Lemma pick_length l js ys : pick l js = Some ys -> length ys = length js.
Proof. intros Hp%mapM_Some_1. symmetry. by apply Forall2_length in Hp. Qed.

Lemma pick_range l js ys j : pick l js = Some ys -> j ∈ js -> (j < length l)%nat.
Proof.
  intros Hp (i & Hi)%list_elem_of_lookup_1. apply mapM_Some_1 in Hp.
  destruct (Forall2_lookup_l _ _ _ _ _ Hp Hi) as (y & _ & Hj). by apply lookup_lt_Some in Hj.
Qed.

Lemma pick_intro l js ys : length ys = length js ->
  (forall i j, js !! i = Some j -> ys !! i = l !! j) -> pick l js = Some ys.
Proof.
  intros Hl Hi. apply mapM_Some, Forall2_same_length_lookup_2; [done|].
  intros i j y Hj Hy. by rewrite <- (Hi i j Hj).
Qed.

Lemma pick_in_range l js : Forall (fun j => (j < length l)%nat) js -> exists ys, pick l js = Some ys.
Proof.
  intros Hf. apply mapM_is_Some_2. eapply Forall_impl; [exact Hf|].
  intros j Hj. by apply lookup_lt_is_Some.
Qed.

Lemma pick_seq l o n : (o + n <= length l)%nat -> pick l (seq o n) = Some (take n (drop o l)).
Proof.
  intros Hn. apply pick_intro; [rewrite length_take, length_drop, length_seq; lia|].
  intros i j [-> Hi]%lookup_seq. by rewrite lookup_take_lt, lookup_drop.
Qed.

Lemma pick_all l : pick l (seq 0 (length l)) = Some l.
Proof. rewrite pick_seq by lia. by rewrite drop_0, take_ge. Qed.

Lemma pick_mask l m : length m = length l ->
  pick l (mask m (seq 0 (length l))) = Some (mask m l).
Proof.
  intros Hm. assert (forall k, length (drop k l) = length m ->
    pick l (mask m (seq k (length m))) = Some (mask m (drop k l))) as Hk.
  { clear Hm. induction m as [|b m IH]; intros k Hk; [done|].
    destruct (drop k l) as [|x tl] eqn:Ed; [done|].
    assert (drop (S k) l = tl) as Htl by (rewrite <- Nat.add_1_r, <- drop_drop, Ed; done).
    assert (l !! k = Some x) as Hx by (rewrite <- (Nat.add_0_r k), <- lookup_drop, Ed; done).
    simpl in Hk. specialize (IH (S k)). rewrite Htl in IH. specialize (IH ltac:(lia)).
    simpl. destruct b; [|done]. unfold pick in *. simpl. rewrite Hx. simpl. by rewrite IH. }
  rewrite <- Hm. rewrite Hk; [done|by rewrite drop_0].
Qed.

Lemma pick_gather l idx ys : gather l idx = Some ys -> pick l (Z.to_nat <$> idx) = Some ys.
Proof.
  intros Hg. apply mapM_Some_1 in Hg. apply mapM_Some, Forall2_fmap_l.
  eapply Forall2_impl; [exact Hg|]. intros i y Hy. simpl in Hy. by case_decide.
Qed.

Lemma gather_pick l js ys : pick l js = Some ys -> gather l (Z.of_nat <$> js) = Some ys.
Proof.
  intros Hp. apply mapM_Some_1 in Hp. apply mapM_Some, Forall2_fmap_l.
  eapply Forall2_impl; [exact Hp|]. intros i y Hy. simpl.
  by rewrite decide_True, Nat2Z.id by lia.
Qed.

Lemma pick_elem l js ys y : pick l js = Some ys -> y ∈ ys -> y ∈ l.
Proof.
  intros Hp (i & Hi)%list_elem_of_lookup_1. apply mapM_Some_1 in Hp.
  destruct (Forall2_lookup_r _ _ _ _ _ Hp Hi) as (j & _ & Hj). by apply list_elem_of_lookup_2 in Hj.
Qed.

Lemma pick_permutation l js : js ≡ₚ seq 0 (length l) ->
  exists ys, pick l js = Some ys /\ ys ≡ₚ l.
Proof.
  intros Hp. destruct (pick_in_range l js) as [ys Hys].
  { apply Forall_forall. intros j Hj. rewrite Hp in Hj. apply elem_of_seq in Hj. lia. }
  exists ys. split; [done|].
  assert (ys = omap (fun j => l !! j) js) as ->.
  { clear Hp. unfold pick in Hys. revert ys Hys.
    induction js as [|j js IH]; intros ys Hys; simpl in Hys; [by injection Hys as <-|]. simpl.
    destruct (l !! j) as [x|]; [|done]. simpl in Hys.
    destruct (mapM _ js) as [zs|]; [|done]. injection Hys as <-. by rewrite (IH zs). }
  rewrite Hp. clear. induction l as [|x l IH]; [done|]. simpl. constructor.
  rewrite <- IH at 2. rewrite <- fmap_S_seq. generalize (seq 0 (length l)). intros js.
  induction js as [|j js IHl]; csimpl; [done|]. destruct (l !! j); [constructor|]; exact IHl.
Qed.

End Pick.

Lemma pick_fmap {A B} (f : A -> B) (l : list A) js ys :
  pick l js = Some ys -> pick (f <$> l) js = Some (f <$> ys).
Proof.
  intros Hp. apply pick_intro; [by rewrite length_fmap, (pick_length _ _ _ Hp)|].
  intros i j Hi. by rewrite !list_lookup_fmap, (pick_lookup _ _ _ _ _ Hp Hi).
Qed.

Lemma mask_filter {A} (P : A -> Prop) `{!forall x, Decision (P x)} m (l : list A) :
  length m = length l ->
  (forall i b x, m !! i = Some b -> l !! i = Some x -> b = true <-> P x) ->
  mask m l = filter P l.
Proof.
  revert l. induction m as [|b m IH]; intros [|x l] Hl HP; simplify_eq/=; [done|].
  rewrite filter_cons, (IH l) by (done || (intros i; apply (HP (S i)))).
  pose proof (HP 0%nat b x eq_refl eq_refl).
  destruct b; [rewrite decide_True by naive_solver|rewrite decide_False by naive_solver]; done.
Qed.

Lemma sorted_gather {A} (le : A -> A -> bool) `{!TotalPreorder le} (l ys : list A) idx :
  sorted_by le l -> gather l idx = Some ys -> StronglySorted Z.le idx -> sorted_by le ys.
Proof.
  intros Hs Hg Hi. apply sorted_intro. intros i j x y Hij Hx Hy. apply mapM_Some_1 in Hg.
  destruct (Forall2_lookup_r _ _ _ _ _ Hg Hx) as (a & Ha & Hax).
  destruct (Forall2_lookup_r _ _ _ _ _ Hg Hy) as (b & Hb & Hby). simpl in Hax, Hby.
  case_decide; [|done]. case_decide; [|done].
  assert (a <= b) as Hab.
  { clear -Hi Hij Ha Hb. revert i j Hij Ha Hb. induction Hi as [|z idx Hi IH Hf]; intros i j Hij Ha Hb; [done|].
    destruct i as [|i], j as [|j]; simpl in *; try lia.
    - simplify_eq. rewrite Forall_forall in Hf. apply Hf. by apply list_elem_of_lookup_2 in Hb.
    - apply (IH i j); done || lia. }
  apply (sorted_lookup le l (Z.to_nat a) (Z.to_nat b)); done || lia.
Qed.

(** Keep the last element of each run of consecutive equal keys. *)
Fixpoint dedup_latest {A} (key : A -> Z) (l : list A) : list A :=
  match l with
  | [] => []
  | x :: tl =>
      match tl with
      | y :: _ => if key x =? key y then dedup_latest key tl else x :: dedup_latest key tl
      | [] => [x]
      end
  end.

(** ** Sorting by a key *)

#[export] Instance comap_preorder {A B} (f : A -> B) (le : B -> B -> bool) :
  TotalPreorder le -> TotalPreorder (fun x y => le (f x) (f y)).
Proof. intros Hle. split; [intros x y z; apply le_trans|intros x y; apply le_total]. Qed.

Lemma elem_of_insert_by {A} (le : A -> A -> bool) x y l : y ∈ insert_by le x l <-> y = x \/ y ∈ l.
Proof.
  induction l as [|z l IH]; simpl; [set_solver|]. destruct (le x z); set_solver.
Qed.

Lemma elem_of_sort_by {A} (le : A -> A -> bool) y l : y ∈ sort_by le l <-> y ∈ l.
Proof.
  induction l as [|x l IH]; simpl; [done|]. rewrite elem_of_insert_by, IH. set_solver.
Qed.

Lemma sort_by_fmap {A B} (f : A -> B) (leA : A -> A -> bool) (leB : B -> B -> bool) l :
  (forall x y, x ∈ l -> y ∈ l -> leA x y = leB (f x) (f y)) ->
  f <$> sort_by leA l = sort_by leB (f <$> l).
Proof.
  induction l as [|x l IH]; intros Hle; [done|].
  rewrite fmap_cons. cbn [sort_by]. rewrite <- IH by set_solver.
  assert (forall y, y ∈ sort_by leA l -> leA x y = leB (f x) (f y)) as Hx.
  { intros y Hy%elem_of_sort_by. apply Hle; set_solver. }
  clear IH Hle. induction (sort_by leA l) as [|y k IHk]; [done|]. simpl.
  rewrite Hx by set_solver. destruct (leB (f x) (f y)); [done|]. csimpl.
  rewrite IHk by (intros; apply Hx; set_solver). done.
Qed.

(** The stable sort of the positions by the elements there picks the stable sort. *)
Lemma pick_sort_by {A} (le : A -> A -> bool) (le_pos : nat -> nat -> bool) (l : list A) :
  (forall i j x y, l !! i = Some x -> l !! j = Some y -> le_pos i j = le x y) ->
  pick l (sort_by le_pos (seq 0 (length l))) = Some (sort_by le l).
Proof.
  intros Hle.
  set (leo := fun o p : option A => match o, p with Some x, Some y => le x y | _, _ => true end).
  assert ((fun i => l !! i) <$> sort_by le_pos (seq 0 (length l)) = Some <$> sort_by le l) as E.
  { rewrite (sort_by_fmap Some le leo) by done. rewrite (sort_by_fmap (fun i => l !! i) le_pos leo).
    - f_equal. apply list_eq. intros i. rewrite !list_lookup_fmap.
      destruct (decide (i < length l)%nat) as [Hi|Hi].
      + rewrite lookup_seq_lt by done. simpl. destruct (lookup_lt_is_Some_2 l i Hi) as [x ->]. done.
      + rewrite lookup_seq_ge, lookup_ge_None_2 by lia. done.
    - intros i j [_ Hi]%elem_of_seq [_ Hj]%elem_of_seq.
      destruct (lookup_lt_is_Some_2 l i) as [x Hx]; [lia|].
      destruct (lookup_lt_is_Some_2 l j) as [y Hy]; [lia|].
      unfold leo. rewrite Hx, Hy. by apply Hle. }
  apply pick_intro.
  - apply (f_equal length) in E. by rewrite !length_fmap in E.
  - intros i j Hi. apply (f_equal (lookup i)) in E.
    rewrite !list_lookup_fmap, Hi in E. simpl in E. destruct (l !! j) as [x|];
      destruct (sort_by le l !! i) as [y|]; simpl in E; congruence.
Qed.

Lemma sort_by_positions_perm (le_pos : nat -> nat -> bool) n : sort_by le_pos (seq 0 n) ≡ₚ seq 0 n.
Proof.
  induction (seq 0 n) as [|i l IH]; [done|]. simpl. rewrite <- IH at 2.
  generalize (sort_by le_pos l). clear. intros l. induction l as [|j l IH]; simpl; [done|].
  destruct (le_pos i j); [done|]. rewrite IH. apply Permutation_swap.
Qed.

(** A sort whose comparison may panic. *)
Fixpoint try_insert_by {A} (le : A -> A -> outcome bool) (x : A) (l : list A) : outcome (list A) :=
  match l with
  | [] => Done [x]
  | y :: tl =>
      b ← le x y;
      if b : bool then Done (x :: l) else tl ← try_insert_by le x tl; Done (y :: tl)
  end.

Fixpoint try_sort_by {A} (le : A -> A -> outcome bool) (l : list A) : outcome (list A) :=
  match l with
  | [] => Done []
  | x :: tl => tl ← try_sort_by le tl; try_insert_by le x tl
  end.

Lemma try_sort_by_Done {A} (le : A -> A -> outcome bool) (le' : A -> A -> bool) l :
  (forall x y, x ∈ l -> y ∈ l -> le x y = Done (le' x y)) ->
  try_sort_by le l = Done (sort_by le' l).
Proof.
  induction l as [|x l IH]; intros Hle; [done|]. simpl. rewrite IH by set_solver.
  cbn [mbind outcome_bind].
  assert (forall y, y ∈ sort_by le' l -> le x y = Done (le' x y)) as Hx.
  { intros y Hy%elem_of_sort_by. apply Hle; set_solver. }
  clear IH Hle. induction (sort_by le' l) as [|y k IHk]; [done|]. simpl.
  rewrite Hx by set_solver. cbn [mbind outcome_bind]. destruct (le' x y); [done|].
  rewrite IHk; [done|]. intros; apply Hx; set_solver.
Qed.

Lemma elem_of_filter_bool {A} (p : A -> bool) l x : x ∈ List.filter p l <-> x ∈ l /\ p x = true.
Proof. by rewrite !list_elem_of_In, filter_In. Qed.

(** [Iterator::take_while]. *)
Fixpoint take_while {A} (p : A -> bool) (l : list A) : list A :=
  match l with
  | [] => []
  | x :: l => if p x then x :: take_while p l else []
  end.

(** On a list whose elements beyond the first failure all fail, it is a filter. *)
Lemma elem_of_take_while {A} (p : A -> bool) (l : list A) x :
  StronglySorted (fun y z => p z = true -> p y = true) l ->
  x ∈ take_while p l <-> x ∈ l /\ p x = true.
Proof.
  induction 1 as [|y l Hs IH Hf]; simpl; [set_solver|]. destruct (p y) eqn:E.
  - rewrite !elem_of_cons, IH. naive_solver.
  - split; [set_solver|]. intros [[->|Hx]%elem_of_cons Hp]; [congruence|].
    rewrite Forall_forall in Hf. specialize (Hf x Hx Hp). congruence.
Qed.

(** ** Cutting a sorted list at two bounds *)

Section Cut.

Context {A : Type} (key : A -> Z) (lo hi : Z).
Implicit Types l before inside after : list A.

Lemma partition_point_fmap {B} (f : A -> B) p l :
  partition_point p (f <$> l) = partition_point (fun x => p (f x)) l.
Proof. induction l as [|x l IH]; [done|]. rewrite fmap_cons. simpl. by rewrite IH. Qed.

(** A list sorted by [key], cut below [lo] and above [hi]. *)
Lemma cut_sorted l : lo <= hi -> sorted_by (fun x y => key x <=? key y) l ->
  exists before inside after, l = before ++ inside ++ after
    /\ Forall (fun x => key x < lo) before
    /\ Forall (fun x => lo <= key x <= hi) inside
    /\ Forall (fun x => hi < key x) after
    /\ partition_point (fun x => key x <? lo) l = length before
    /\ partition_point (fun x => key x <=? hi) l = (length before + length inside)%nat.
Proof.
  intros Hlh. induction 1 as [|x l Hs IH Hf]; [by exists [], [], []|].
  destruct IH as (b & m & a & -> & Hb & Hm & Ha & H1 & H2). simpl. rewrite Forall_forall in Hf.
  destruct (Z.ltb_spec (key x) lo).
  - exists (x :: b), m, a. rewrite (proj2 (Z.leb_le (key x) hi)) by lia. rewrite H1, H2.
    split_and!; try done; by constructor.
  - destruct b as [|y b].
    2:{ apply Forall_cons in Hb as [Hy _]. specialize (Hf y ltac:(left)). lia. }
    destruct (Z.leb_spec (key x) hi).
    + exists [], (x :: m), a. rewrite H2. split_and!; try done. constructor; [lia|done].
    + destruct m as [|y m].
      2:{ apply Forall_cons in Hm as [Hy _]. specialize (Hf y ltac:(left)). lia. }
      exists [], [], (x :: a). split_and!; try done. by constructor.
Qed.

Lemma take_drop_inside before inside after :
  take (length before + length inside - length before) (drop (length before) (before ++ inside ++ after))
    = inside.
Proof. rewrite drop_app_length. replace (_ + _ - _)%nat with (length inside) by lia. apply take_app_length. Qed.

(** One more element on either side, when there is one. *)
Lemma take_drop_extended before inside after n : (length (before ++ inside ++ after) <= n)%nat ->
  take (Nat.min n (length before + length inside + 1) - (length before - 1))
      (drop (length before - 1) (before ++ inside ++ after))
    = option_list (last before) ++ inside ++ option_list (head after).
Proof.
  rewrite !length_app. intros Hn. destruct before as [|z before _] using rev_ind.
  - simpl. rewrite drop_0, Nat.sub_0_r. destruct after as [|y after].
    + simpl in *. rewrite app_nil_r, take_ge; [done|lia].
    + simpl in *. replace (Nat.min n (length inside + 1)) with (length (inside ++ [y]))
        by (rewrite length_app; simpl; lia).
      by rewrite (cons_middle y inside after), (assoc_L (++)), take_app_length.
  - rewrite last_snoc, <- app_assoc, length_app in *. simpl in *.
    replace (length before + 1 - 1)%nat with (length before) by lia.
    rewrite drop_app_length. destruct after as [|y after].
    + simpl in *. rewrite !app_nil_r, take_ge; [done|simpl; lia].
    + simpl in *. replace (Nat.min n (length before + 1 + length inside + 1) - length before)%nat
        with (length (z :: inside ++ [y])) by (simpl; rewrite length_app; simpl; lia).
      assert (z :: inside ++ y :: after = (z :: inside ++ [y]) ++ after) as ->
        by (simpl; by rewrite <- app_assoc).
      apply take_app_length.
Qed.

End Cut.


(** *** Maps filled key by key *)

Section Entries.

Context `{Countable K} {A B : Type} (f : K -> A -> option B -> B).

Lemma foldl_entry_lookup (l : list (K * A)) (m : gmap K B) k : NoDup l.*1 ->
  foldl (fun m '(k, a) => <[k := f k a (m !! k)]> m) m l !! k
  = match (list_to_map l : gmap K A) !! k with Some a => Some (f k a (m !! k)) | None => m !! k end.
Proof.
  revert m. induction l as [|[k' a] l IH]; intros m Hnd; [by rewrite list_to_map_nil, lookup_empty|].
  apply NoDup_cons in Hnd as [Hn Hnd]. cbn [foldl]. rewrite IH, list_to_map_cons by done.
  destruct (decide (k = k')) as [->|Hne].
  - rewrite (not_elem_of_list_to_map_1 l k') by done. by rewrite !lookup_insert_eq.
  - by rewrite !lookup_insert_ne.
Qed.

End Entries.
