(* ===== verification/Ints.v ===== *)
(** * Machine integers

    Rust's fixed-width integers as [Z] with their ranges, wrap-around and
    saturating operations written out, and [dl_int]'s saturating casts. *)

From S2P Require Import Prelude.

Definition i64_min : Z := -9223372036854775808.
Definition i64_max : Z := 9223372036854775807.
Definition u64_max : Z := 18446744073709551615.
Definition u128_max : Z := 340282366920938463463374607431768211455.

#[global] Arguments i64_min : simpl never.
#[global] Arguments i64_max : simpl never.
#[global] Arguments u64_max : simpl never.
#[global] Arguments u128_max : simpl never.

Definition is_i64 (z : Z) : Prop := i64_min <= z <= i64_max.
Definition is_u64 (z : Z) : Prop := 0 <= z <= u64_max.

(** Two's complement reduction to 64 bits. *)
Definition wrap_i64 (z : Z) : Z := (z + 2 ^ 63) mod 2 ^ 64 - 2 ^ 63.
Definition wrap_u64 (z : Z) : Z := z mod 2 ^ 64.

Definition sat_i64 (z : Z) : Z := Z.max i64_min (Z.min i64_max z).

Definition saturating_add (a b : Z) : Z := sat_i64 (a + b).
Definition saturating_sub (a b : Z) : Z := sat_i64 (a - b).
Definition saturating_mul (a b : Z) : Z := sat_i64 (a * b).

(** [i64::abs_diff], a [u64]. *)
Definition abs_diff (a b : Z) : Z := Z.abs (a - b).

(** [i64::midpoint]: [(a + b) / 2] computed in a wide type, rounded towards zero. *)
Definition midpoint (a b : Z) : Z := Z.quot (a + b) 2.

#[export] Instance is_i64_dec z : Decision (is_i64 z).
Proof. unfold is_i64; apply _. Defined.
#[export] Instance is_u64_dec z : Decision (is_u64 z).
Proof. unfold is_u64; apply _. Defined.

(** The plain operators [+], [*], unary [-] on [i64]: an overflow panics in a build
    with overflow checks (debug) and wraps in a build without (release). *)
Definition arith_i64 (overflow_checks : bool) (z : Z) : outcome Z :=
  if decide (is_i64 z) then Done z
  else if overflow_checks then Panic else Done (wrap_i64 z).

Definition arith_u64 (overflow_checks : bool) (z : Z) : outcome Z :=
  if decide (is_u64 z) then Done z
  else if overflow_checks then Panic else Done (wrap_u64 z).

(** Linear arithmetic with the width constants unfolded. *)
Ltac int_lia :=
  unfold is_i64, is_u64, saturating_add, saturating_sub, saturating_mul, sat_i64,
    abs_diff, i64_min, i64_max, u64_max, u128_max in *; lia.

Lemma is_i64_sat z : is_i64 (sat_i64 z).
Proof. int_lia. Qed.

Lemma sat_i64_id z : is_i64 z -> sat_i64 z = z.
Proof. int_lia. Qed.

Lemma wrap_i64_range z : is_i64 (wrap_i64 z).
Proof.
  unfold wrap_i64, is_i64, i64_min, i64_max.
  pose proof (Z.mod_pos_bound (z + 2 ^ 63) (2 ^ 64) ltac:(lia)). lia.
Qed.

Lemma wrap_i64_id z : is_i64 z -> wrap_i64 z = z.
Proof.
  unfold wrap_i64, is_i64, i64_min, i64_max. intros H.
  rewrite Z.mod_small by lia. lia.
Qed.

Lemma midpoint_between a b : Z.min a b <= midpoint a b <= Z.max a b.
Proof.
  unfold midpoint. Z.to_euclidean_division_equations. lia.
Qed.

(** [v ^ i64::MIN] on an [i64]: flips the sign bit. *)
Lemma lxor_i64_min_nonneg v : 0 <= v <= i64_max -> Z.lxor v i64_min = v + i64_min.
Proof.
  intros Hv. rewrite Z.add_nocarry_lxor; [done|].
  change i64_min with (Z.lnot (Z.ones 63)). rewrite <- Z.ldiff_land.
  destruct (decide (v = 0)) as [->|]; [done|].
  apply Z.ldiff_ones_r_low; [int_lia|].
  apply Z.log2_lt_pow2; int_lia.
Qed.

Lemma lxor_i64_min v : is_i64 v ->
  Z.lxor v i64_min = if decide (0 <= v) then v + i64_min else v - i64_min.
Proof.
  intros Hv. case_decide; [apply lxor_i64_min_nonneg; int_lia|].
  replace v with (Z.lxor (v - i64_min) i64_min) at 1.
  - by rewrite Z.lxor_assoc, Z.lxor_nilpotent, Z.lxor_0_r.
  - rewrite lxor_i64_min_nonneg by int_lia. lia.
Qed.

Lemma lxor_i64_min_range v : is_i64 v -> is_i64 (Z.lxor v i64_min).
Proof. intros Hv. rewrite lxor_i64_min by done. case_decide; int_lia. Qed.

Lemma lxor_i64_min_involutive v : Z.lxor (Z.lxor v i64_min) i64_min = v.
Proof. by rewrite Z.lxor_assoc, Z.lxor_nilpotent, Z.lxor_0_r. Qed.

Lemma lxor_i64_min_zero v : Z.lxor v i64_min = 0 <-> v = i64_min.
Proof. split; [apply Z.lxor_eq|intros ->; apply Z.lxor_nilpotent]. Qed.

#[export] Hint Resolve is_i64_sat wrap_i64_range lxor_i64_min_range : ints.

(** ** Saturating casts

    [dl_int/src/saturating_cast.rs]: the twelve integer types and the conversions that
    clamp.  [usize] and [isize] are 64 bits wide. *)

Inductive int_ty := I8 | I16 | I32 | I64 | I128 | Isize | U8 | U16 | U32 | U64 | U128 | Usize.

Definition ty_signed (t : int_ty) : bool :=
  match t with I8 | I16 | I32 | I64 | I128 | Isize => true | _ => false end.

Definition ty_bits (t : int_ty) : Z :=
  match t with
  | I8 | U8 => 8 | I16 | U16 => 16 | I32 | U32 => 32
  | I64 | U64 | Isize | Usize => 64 | I128 | U128 => 128
  end.

Definition ty_min (t : int_ty) : Z := if ty_signed t then - 2 ^ (ty_bits t - 1) else 0.
Definition ty_max (t : int_ty) : Z :=
  if ty_signed t then 2 ^ (ty_bits t - 1) - 1 else 2 ^ ty_bits t - 1.
Definition in_ty (t : int_ty) (z : Z) : Prop := ty_min t <= z <= ty_max t.

(** The standard library's [TryFrom] between integer types. *)
Definition int_try_from (dst : int_ty) (src : Z) : option Z :=
  if (ty_min dst <=? src) && (src <=? ty_max dst) then Some src else None.

Definition saturating_from (src_ty dst : int_ty) (src : Z) : Z :=
  if ty_signed src_ty
  then default (if src <? 0 then ty_min dst else ty_max dst) (int_try_from dst src)
  else default (ty_max dst) (int_try_from dst src).

Definition saturating_cast (src_ty dst : int_ty) (self : Z) : Z := saturating_from src_ty dst self.

Lemma saturating_cast_clamp src_ty dst z : in_ty src_ty z ->
  saturating_cast src_ty dst z = Z.max (ty_min dst) (Z.min (ty_max dst) z).
Proof.
  intros Hz. unfold saturating_cast, saturating_from, int_try_from.
  assert (ty_min dst <= 0 < ty_max dst) by (destruct dst; vm_compute; split; congruence).
  assert (ty_signed src_ty = false -> 0 <= z).
  { intros E. unfold in_ty, ty_min in Hz. rewrite E in Hz. lia. }
  destruct (Z.leb_spec (ty_min dst) z), (Z.leb_spec z (ty_max dst)), (Z.ltb_spec z 0),
    (ty_signed src_ty); simpl; naive_solver lia.
Qed.

(** A saturating cast is the clamp of the value to the destination's range, whatever the
    two types, and so is the identity whenever the value fits. *)
Lemma saturating_cast_spec src_ty dst z : in_ty src_ty z ->
  in_ty dst (saturating_cast src_ty dst z)
  /\ (in_ty dst z -> saturating_cast src_ty dst z = z)
  /\ forall w, in_ty dst w -> Z.abs (saturating_cast src_ty dst z - z) <= Z.abs (w - z).
Proof.
  intros Hz. rewrite saturating_cast_clamp by done.
  assert (ty_min dst <= ty_max dst) by (destruct dst; vm_compute; congruence).
  unfold in_ty. split_and!; intros; lia.
Qed.

Lemma saturating_cast_spec_witness :
  in_ty I8 (saturating_cast U16 I8 300)
  /\ (in_ty I8 300 -> saturating_cast U16 I8 300 = 300)
  /\ forall w, in_ty I8 w -> Z.abs (saturating_cast U16 I8 300 - 300) <= Z.abs (w - 300).
Proof. apply (saturating_cast_spec U16 I8 300). vm_compute. split; discriminate. Defined.

Lemma wrap_u64_id z : is_u64 z -> wrap_u64 z = z.
Proof. unfold is_u64, wrap_u64, u64_max. intros. apply Z.mod_small. lia. Qed.

Lemma arith_u64_done b z : is_u64 z -> arith_u64 b z = Done z.
Proof. intros Hz. unfold arith_u64. by rewrite decide_True. Qed.
