(* ===== verification/BTree.v ===== *)
(** * Ordered maps

    The Standard Library's [BTreeMap] as its entries in key order, over a comparison that
    need not be equality: keys that compare equal are one key, and [insert] on a present key
    replaces the value and keeps the old key. *)

From S2P Require Import Prelude.

(** What [Ord] promises. *)
Class OrdLaws {K} (cmp : K -> K -> comparison) := {
  cmp_refl x : cmp x x = Eq;
  cmp_antisym x y : cmp y x = CompOpp (cmp x y);
  cmp_trans x y z : cmp x y = Lt -> cmp y z = Lt -> cmp x z = Lt;
  cmp_eq_l x y z : cmp x y = Eq -> cmp x z = cmp y z;
}.

Section BTree.
Context {K V : Type} (cmp : K -> K -> comparison) `{!OrdLaws cmp}.

Definition same_key (x y : K) : bool := match cmp x y with Eq => true | _ => false end.

Fixpoint btree_insert (k : K) (v : V) (m : list (K * V)) : list (K * V) :=
  match m with
  | [] => [(k, v)]
  | (k', v') :: m' =>
    match cmp k k' with
    | Lt => (k, v) :: m
    | Eq => (k', v) :: m'
    | Gt => (k', v') :: btree_insert k v m'
    end
  end.

Fixpoint btree_get (k : K) (m : list (K * V)) : option V :=
  match m with
  | [] => None
  | (k', v') :: m => if same_key k k' then Some v' else btree_get k m
  end.

(** [entry(k).or_insert(v)]. *)
Definition btree_or_insert (k : K) (v : V) (m : list (K * V)) : list (K * V) :=
  match btree_get k m with Some _ => m | None => btree_insert k v m end.

(** [extend] and [collect]: one insertion after the other. *)
Definition btree_extend (m : list (K * V)) (entries : list (K * V)) : list (K * V) :=
  foldl (fun m e => btree_insert e.1 e.2 m) m entries.
Definition btree_collect (entries : list (K * V)) : list (K * V) := btree_extend [] entries.

Definition key_lt (a b : K * V) : Prop := cmp a.1 b.1 = Lt.
Definition btree_ok (m : list (K * V)) : Prop := StronglySorted key_lt m.

Lemma same_key_true x y : same_key x y = true <-> cmp x y = Eq.
Proof. unfold same_key. by destruct (cmp x y). Qed.

Lemma same_key_refl x : same_key x x = true.
Proof. apply same_key_true, cmp_refl. Qed.

Lemma cmp_eq_sym x y : cmp x y = Eq -> cmp y x = Eq.
Proof. intros E. by rewrite cmp_antisym, E. Qed.

Lemma cmp_eq_r x y z : cmp x y = Eq -> cmp z x = cmp z y.
Proof. intros E. rewrite (cmp_antisym x z), (cmp_antisym y z). by rewrite (cmp_eq_l _ _ z E). Qed.

Lemma cmp_gt x y : cmp x y = Gt -> cmp y x = Lt.
Proof. intros E. by rewrite cmp_antisym, E. Qed.

Lemma same_key_l x y z : same_key x y = true -> same_key x z = same_key y z.
Proof. rewrite same_key_true. unfold same_key. intros E. by rewrite (cmp_eq_l _ _ z E). Qed.

Lemma same_key_sym x y : same_key x y = same_key y x.
Proof. unfold same_key. rewrite (cmp_antisym y x). by destruct (cmp y x). Qed.

Lemma btree_insert_Forall (P : K * V -> Prop) k v m :
  Forall P m -> (forall k', same_key k k' = true -> P (k', v)) -> Forall P (btree_insert k v m).
Proof.
  intros Hm Hk. induction Hm as [|[k' v'] m Hx Hm IH]; simpl.
  - repeat constructor. apply Hk, same_key_refl.
  - destruct (cmp k k') eqn:E; constructor; try done.
    + apply Hk. by apply same_key_true.
    + apply Hk, same_key_refl.
    + by constructor.
Qed.

Lemma btree_insert_ok k v m : btree_ok m -> btree_ok (btree_insert k v m).
Proof.
  unfold btree_ok. induction 1 as [|[k' v'] m Hm IH Hall]; simpl; [by repeat constructor|].
  destruct (cmp k k') eqn:E.
  - by constructor.
  - constructor; [by constructor|]. constructor; [done|].
    eapply Forall_impl; [done|]. intros [k2 v2] H2. unfold key_lt in *. simpl in *. by eapply cmp_trans.
  - constructor; [done|]. apply btree_insert_Forall; [done|]. intros k2 H2.
    apply same_key_true in H2. unfold key_lt. simpl. rewrite <- (cmp_eq_r _ _ k' H2). by apply cmp_gt.
Qed.

Lemma btree_extend_ok m entries : btree_ok m -> btree_ok (btree_extend m entries).
Proof.
  unfold btree_extend. revert m. induction entries as [|e es IH]; intros m Hm; simpl; [done|].
  by apply IH, btree_insert_ok.
Qed.

Lemma btree_collect_ok entries : btree_ok (btree_collect entries).
Proof. apply btree_extend_ok. constructor. Qed.

Lemma btree_or_insert_ok k v m : btree_ok m -> btree_ok (btree_or_insert k v m).
Proof. unfold btree_or_insert. case_match; [done|]. apply btree_insert_ok. Qed.

Lemma btree_filter_ok (P : K * V -> Prop) `{!forall x, Decision (P x)} m :
  btree_ok m -> btree_ok (filter P m).
Proof.
  unfold btree_ok. induction 1 as [|e m Hm IH Hall]; [constructor|].
  rewrite filter_cons. case_decide; [|done]. constructor; [done|].
  apply Forall_forall. intros x Hx. rewrite Forall_forall in Hall. apply Hall.
  by apply list_elem_of_filter in Hx as [_ ?].
Qed.

(** The finite map an ordered map denotes. *)
Lemma btree_get_insert k k0 v m :
  btree_get k0 (btree_insert k v m) = if same_key k0 k then Some v else btree_get k0 m.
Proof.
  induction m as [|[k' v'] m IH]; simpl; [done|]. destruct (cmp k k') eqn:E; simpl.
  - apply same_key_true in E. rewrite (same_key_sym k0 k'), (same_key_sym k0 k).
    rewrite <- (same_key_l _ _ k0 E). by destruct (same_key k k0).
  - done.
  - rewrite IH. destruct (same_key k0 k') eqn:E1; [|done].
    destruct (same_key k0 k) eqn:E2; [|done]. apply same_key_true in E1, E2.
    rewrite <- (cmp_eq_l _ _ k' E2), E1 in E. done.
Qed.

Lemma btree_get_or_insert k k0 v m :
  btree_get k0 (btree_or_insert k v m)
  = match btree_get k0 m with
    | Some v0 => Some v0
    | None => if same_key k0 k then Some v else None
    end.
Proof.
  unfold btree_or_insert.
  assert (same_key k0 k = true -> btree_get k0 m = btree_get k m) as Hsame.
  { intros E. induction m as [|[k' v'] m IH]; simpl; [done|].
    rewrite (same_key_l _ _ k' E). by destruct (same_key k k'). }
  destruct (btree_get k m) eqn:E.
  - destruct (btree_get k0 m) eqn:E0; [done|]. destruct (same_key k0 k); [|done].
    by specialize (Hsame eq_refl).
  - rewrite btree_get_insert. destruct (same_key k0 k); [|by destruct (btree_get k0 m)].
    by rewrite (Hsame eq_refl).
Qed.

Lemma btree_get_Some k v m : btree_ok m ->
  btree_get k m = Some v <-> exists k', (k', v) ∈ m /\ same_key k k' = true.
Proof.
  induction 1 as [|[k1 v1] m Hm IH Hall]; simpl.
  { split; [done|]. intros (k' & Hin & _). by apply elem_of_nil in Hin. }
  destruct (same_key k k1) eqn:E.
  - split.
    + intros [= ->]. exists k1. split; [by left|done].
    + intros (k' & Hin & Hk). apply elem_of_cons in Hin as [[= -> ->]|Hin]; [done|].
      rewrite Forall_forall in Hall. specialize (Hall _ Hin). unfold key_lt in Hall. simpl in Hall.
      apply same_key_true in E, Hk. rewrite <- (cmp_eq_l _ _ k' E), Hk in Hall. done.
  - rewrite IH. split; intros (k' & Hin & Hk); exists k'; (split; [|done]).
    + by right.
    + apply elem_of_cons in Hin as [[= -> ->]|]; [congruence|done].
Qed.

Lemma btree_get_None k m : btree_get k m = None <-> forall k' v, (k', v) ∈ m -> same_key k k' = false.
Proof.
  induction m as [|[k1 v1] m IH]; simpl.
  { split; [|done]. intros _ k' v Hin. by apply elem_of_nil in Hin. }
  destruct (same_key k k1) eqn:E.
  - split; [done|]. intros H. rewrite (H k1 v1) in E; [done|by left].
  - rewrite IH. split.
    + intros H k' v Hin. apply elem_of_cons in Hin as [[= -> ->]|Hin]; [done|by eapply H].
    + intros H k' v Hin. apply (H k' v). by right.
Qed.

Lemma btree_get_filter (P : K -> Prop) `{!forall x, Decision (P x)} k m :
  (forall k', same_key k k' = true -> P k' <-> P k) ->
  btree_get k (filter (fun e => P e.1) m) = if decide (P k) then btree_get k m else None.
Proof.
  intros HP. induction m as [|[k1 v1] m IH]; simpl; [by case_decide|].
  rewrite filter_cons. simpl. destruct (decide (P k1)) as [H1|H1]; simpl.
  - destruct (same_key k k1) eqn:E; [|done]. by rewrite decide_True by (by apply (HP k1 E)).
  - rewrite IH. destruct (same_key k k1) eqn:E; [|done].
    destruct (decide (P k)) as [Hk|]; [|done]. by apply (HP k1 E) in Hk.
Qed.
End BTree.
