(* ===== verification/Rvl.v ===== *)
(** * The RVL depth codec

    [src/crates/utils/dl_rvl/src/lib.rs]: the decoder of ROS2 [compressedDepth] RVL
    payloads (run lengths and variable-length integers over a stream of nibbles), with
    the header parser and the dequantisation, and the encoder the crate's tests keep.
    Bytes and machine words are [Z]; [f32] is the Standard Library's [spec_float] at
    binary32 precision.  The state of the decoder is the code's struct; its meaning is the
    list of nibbles still to come ([stream]), and the lemmas about the decoder are stated
    on that list. *)

From S2P Require Import Prelude Ints.
From Stdlib Require Import SpecFloat.

(** ** Machine words of the codec *)

Definition wrap_u32 (z : Z) : Z := z mod 2 ^ 32.
Definition wrap_i32 (z : Z) : Z := (z + 2 ^ 31) mod 2 ^ 32 - 2 ^ 31.

(** [a << b] on [u32]: the bits shifted past the top are lost. *)
Definition shl_u32 (a b : Z) : Z := wrap_u32 (Z.shiftl a b).

Definition is_u32 (z : Z) : Prop := 0 <= z < 2 ^ 32.
Definition is_u16 (z : Z) : Prop := 0 <= z < 2 ^ 16.
Definition is_byte (z : Z) : Prop := 0 <= z < 256.

#[export] Instance is_u32_dec z : Decision (is_u32 z).
Proof. unfold is_u32; apply _. Defined.
#[export] Instance is_u16_dec z : Decision (is_u16 z).
Proof. unfold is_u16; apply _. Defined.
#[export] Instance is_byte_dec z : Decision (is_byte z).
Proof. unfold is_byte; apply _. Defined.

(** ** What can panic

    Indexing, allocation and (in a build with overflow checks) arithmetic are checked:
    each check that fails is a [Panic].  A build without overflow checks wraps instead;
    since no check ever fails ([rvl_decode_spec]) the two builds agree. *)

Definition usize_add (a b : nat) : outcome nat :=
  if u64_max <? Z.of_nat a + Z.of_nat b then Panic else Done (a + b)%nat.
(** [a - b] on [usize] and [u8]. *)
Definition unsigned_sub (a b : nat) : outcome nat :=
  if (a <? b)%nat then Panic else Done (a - b)%nat.
Definition u32_add (a b : Z) : outcome Z :=
  if 2 ^ 32 <=? a + b then Panic else Done (a + b).
(** [a << b] with a shift that is not a constant. *)
Definition shl_u32_checked (a b : Z) : outcome Z :=
  if (0 <=? b) && (b <? 32) then Done (shl_u32 a b) else Panic.

(** The elements of [data] from [a] to [b], and [&data[a..b]]. *)
Definition range {A} (data : list A) (a b : nat) : list A := take (b - a) (drop a data).
Definition slice {A} (data : list A) (a b : nat) : outcome (list A) :=
  if (a <=? b)%nat && (b <=? length data)%nat then Done (range data a b) else Panic.

(** [LittleEndian::read_u32], which asks for four bytes, and [u32::to_le_bytes]. *)
Definition from_le_bytes (b : list Z) : Z :=
  match b with
  | b0 :: b1 :: b2 :: b3 :: _ => b0 + 256 * b1 + 65536 * b2 + 16777216 * b3
  | _ => 0
  end.
Definition read_u32 (b : list Z) : outcome Z :=
  if (length b <? 4)%nat then Panic else Done (from_le_bytes b).
Definition to_le_bytes (w : Z) : list Z :=
  [w mod 256; w / 256 mod 256; w / 65536 mod 256; w / 16777216 mod 256].

(** [vec![x; n]] and [Vec::with_capacity(n)] for elements of [size] bytes: more than
    [isize::MAX] bytes is a capacity overflow. *)
Definition with_capacity (size n : nat) : outcome () :=
  if i64_max <? Z.of_nat size * Z.of_nat n then Panic else Done ().

(** [r?] in a function that can panic, and in one that has a loop: the bounded loops
    return [None] when their fuel runs out. *)
#[local] Notation "'let!' x ':=' r 'in' k" :=
  (match r with Panic => Panic | Done (Err e) => Done (Err e) | Done (Ok x) => k end)
  (at level 200, x pattern, right associativity, only parsing).
#[local] Notation "'let*' x ':=' r 'in' k" :=
  (match r with
   | None => None
   | Some Panic => Some Panic
   | Some (Done (Err e)) => Some (Done (Err e))
   | Some (Done (Ok x)) => k
   end) (at level 200, x pattern, right associativity, only parsing).
(** A checked operation in a function that has a loop. *)
#[local] Notation "'let^' x ':=' r 'in' k" :=
  (match r with Panic => Some Panic | Done x => k end)
  (at level 200, x pattern, right associativity, only parsing).

(** ** Binary32 *)

Notation f32 := spec_float.

(** [f32::from_bits]; the payload of a NaN is not kept. *)
Definition f32_from_bits (z : Z) : f32 :=
  let s := 2 ^ 31 <=? z in
  let e := z / 2 ^ 23 mod 256 in
  let m := z mod 2 ^ 23 in
  if e =? 255 then if m =? 0 then S754_infinity s else S754_nan
  else if e =? 0 then
    match m with Zpos p => S754_finite s p (-149) | _ => S754_zero s end
  else match m + 2 ^ 23 with Zpos p => S754_finite s p (e - 150) | _ => S754_zero s end.

Definition read_f32 (b : list Z) : outcome f32 := f32_from_bits <$> read_u32 b.
Definition f32_div : f32 -> f32 -> f32 := SFdiv 24 128.
Definition f32_sub : f32 -> f32 -> f32 := SFsub 24 128.
(** [value as f32] for a [u16]. *)
Definition u16_as_f32 (v : Z) : f32 := binary_normalize 24 128 v 0 false.
(** [a != 0.0]: true of a NaN. *)
Definition f32_ne_zero (a : f32) : bool := negb (SFeqb a (S754_zero false)).

(** ** The header *)

Definition CONFIG_HEADER_SIZE : nat := 12.
Definition RESOLUTION_HEADER_SIZE : nat := 8.
Definition MAX_DECODED_PIXELS : Z := 67108864.

Inductive RvlDecodeError :=
| MissingHeader
| MissingResolution
| ZeroResolution
| ResolutionOverflow
| ResolutionTooLarge (width height : Z)
| PayloadLengthMismatch (width height : Z)
| TooManyZeros
| TooManyNonZeros
| NoProgress
| ValueOutOfRange (value : Z)
| UnexpectedEof
| ValueOverflow.

Record RosRvlMetadata := mkMetadata {
  width : Z;
  height : Z;
  depth_quant_a : f32;
  depth_quant_b : f32;
  payload_offset : nat;
  num_pixels : nat;
}.

Definition payload (self : RosRvlMetadata) (bytes : list Z) : result (list Z) RvlDecodeError :=
  if (payload_offset self <=? length bytes)%nat then Ok (drop (payload_offset self) bytes)
  else Err UnexpectedEof.

Definition has_quantization (self : RosRvlMetadata) : bool := f32_ne_zero (depth_quant_a self).

Definition parse (data : list Z) : outcome (result RosRvlMetadata RvlDecodeError) :=
  if (length data <=? CONFIG_HEADER_SIZE)%nat then Done (Err MissingHeader) else
  config ← slice data 0 CONFIG_HEADER_SIZE;
  let quant_offset := 4%nat in
  qa ← slice config quant_offset (quant_offset + 4) ≫= read_f32;
  qb ← slice config (quant_offset + 4) (quant_offset + 8) ≫= read_f32;
  if (length data <? CONFIG_HEADER_SIZE + RESOLUTION_HEADER_SIZE)%nat
  then Done (Err MissingResolution) else
  let resolution_offset := CONFIG_HEADER_SIZE in
  w ← slice data resolution_offset (resolution_offset + 4) ≫= read_u32;
  h ← slice data (resolution_offset + 4) (resolution_offset + 8) ≫= read_u32;
  if (w =? 0) || (h =? 0) then Done (Err ZeroResolution) else
  let offset := (CONFIG_HEADER_SIZE + RESOLUTION_HEADER_SIZE)%nat in
  if u64_max <? w * h then Done (Err ResolutionOverflow) else
  let n := w * h in
  if MAX_DECODED_PIXELS <? n then Done (Err (ResolutionTooLarge w h)) else
  if (length data <? offset)%nat then Done (Err (PayloadLengthMismatch w h)) else
  Done (Ok (mkMetadata w h qa qb offset (Z.to_nat n))).

(** ** The decoder *)

Record RvlDecoder := mkDecoder {
  input : list Z;
  offset : nat;
  word : Z;
  nibbles_remaining : nat;
}.

Definition new_decoder (input : list Z) : RvlDecoder := mkDecoder input 0 0 0.

Definition next_nibble (self : RvlDecoder) : outcome (result (Z * RvlDecoder) RvlDecodeError) :=
  let! self :=
    if (nibbles_remaining self =? 0)%nat then
      end_ ← usize_add (offset self) 4;
      if (length (input self) <? end_)%nat then Done (Err UnexpectedEof) else
      word ← slice (input self) (offset self) end_ ≫= read_u32;
      Done (Ok (mkDecoder (input self) end_ word 8))
    else Done (Ok self) in
  let nibble := Z.shiftr (Z.land (word self) 4026531840) 28 in
  nibbles_remaining ← unsigned_sub (nibbles_remaining self) 1;
  Done (Ok (nibble,
    mkDecoder (input self) (offset self) (shl_u32 (word self) 4) nibbles_remaining)).

(** The loop of [decode_vle], from the state ([value], [shift]); [fuel] bounds the
    iterations, [None] is running out of it. *)
Fixpoint decode_vle_loop (fuel : nat) (value shift : Z) (self : RvlDecoder)
    : option (outcome (result (Z * RvlDecoder) RvlDecodeError)) :=
  match fuel with
  | O => None
  | S fuel =>
    let* (nibble, self) := Some (next_nibble self) in
    let^ bits := shl_u32_checked (Z.land nibble 7) shift in
    let value := Z.lor value bits in
    if Z.land nibble 8 =? 0 then Some (Done (Ok (value, self)))
    else
      let^ shift := u32_add shift 3 in
      if 32 <=? shift then Some (Done (Err ValueOverflow))
      else decode_vle_loop fuel value shift self
  end.

(** [decode_vle]: eleven iterations take [shift] past 32 ([decode_vle_total]). *)
Definition VLE_FUEL : nat := 11.
Definition decode_vle (self : RvlDecoder)
    : option (outcome (result (Z * RvlDecoder) RvlDecodeError)) :=
  decode_vle_loop VLE_FUEL 0 0 self.

(** The indices [output.iter_mut().skip(at).take(n)] visits. *)
Definition iter_indices (output : list Z) (at_ n : nat) : list nat :=
  take n (drop at_ (seq 0 (length output))).

Definition fill_zeros (idx : list nat) (output : list Z) : list Z :=
  foldl (fun out i => <[i := 0]> out) output idx.

(** [(positive >> 1) ^ -(positive & 1)]; the negation is of 0 or 1. *)
Definition zigzag_decode (positive : Z) : Z :=
  Z.lxor (Z.shiftr positive 1) (- Z.land positive 1).

(** The loop over a run of non-zero pixels; [wrapping_add] never panics. *)
Fixpoint decode_deltas (idx : list nat) (previous : Z) (output : list Z) (self : RvlDecoder)
    : option (outcome (result (Z * list Z * RvlDecoder) RvlDecodeError)) :=
  match idx with
  | [] => Some (Done (Ok (previous, output, self)))
  | i :: idx =>
    let* (v, self) := decode_vle self in
    let delta := zigzag_decode (wrap_i32 v) in
    let previous := wrap_i32 (previous + delta) in
    if (previous <? 0) || (65535 <? previous) then Some (Done (Err (ValueOutOfRange previous)))
    else decode_deltas idx previous (<[i := previous]> output) self
  end.

Fixpoint decode_into_loop (fuel : nat) (remaining write_index : nat) (previous : Z)
    (output : list Z) (self : RvlDecoder)
    : option (outcome (result (list Z * RvlDecoder) RvlDecodeError)) :=
  match remaining with
  | O => Some (Done (Ok (output, self)))
  | _ =>
    match fuel with
    | O => None
    | S fuel =>
      let* (zeros, self) := decode_vle self in
      if Z.of_nat remaining <? zeros then Some (Done (Err TooManyZeros)) else
      let zeros := Z.to_nat zeros in
      let output := fill_zeros (iter_indices output write_index zeros) output in
      let^ write_index := usize_add write_index zeros in
      let^ remaining := unsigned_sub remaining zeros in
      let* (nonzeros, self) := decode_vle self in
      if Z.of_nat remaining <? nonzeros then Some (Done (Err TooManyNonZeros)) else
      let nonzeros := Z.to_nat nonzeros in
      if (zeros =? 0)%nat && (nonzeros =? 0)%nat then Some (Done (Err NoProgress)) else
      let* (previous, output, self) :=
        decode_deltas (iter_indices output write_index nonzeros) previous output self in
      let^ write_index := usize_add write_index nonzeros in
      let^ remaining := unsigned_sub remaining nonzeros in
      decode_into_loop fuel remaining write_index previous output self
    end
  end.

(** [decode_into]: every turn of the loop writes a pixel ([decode_into_loop_spec]). *)
Definition decode_into (self : RvlDecoder) (output : list Z)
    : option (outcome (result (list Z * RvlDecoder) RvlDecodeError)) :=
  decode_into_loop (length output) (length output) 0 0 output self.

Definition decode_rvl_without_quantization (data : list Z) (metadata : RosRvlMetadata)
    : option (outcome (result (list Z) RvlDecodeError)) :=
  let* p := Some (Done (payload metadata data)) in
  let^ _ := with_capacity 2 (num_pixels metadata) in
  let* (disparity, _) := decode_into (new_decoder p) (replicate (num_pixels metadata) 0) in
  Some (Done (Ok disparity)).

Definition dequantize (metadata : RosRvlMetadata) (value : Z) : f32 :=
  if has_quantization metadata then
    if value =? 0 then S754_nan
    else f32_div (depth_quant_a metadata) (f32_sub (u16_as_f32 value) (depth_quant_b metadata))
  else u16_as_f32 value.

Definition decode_rvl_with_quantization (data : list Z) (metadata : RosRvlMetadata)
    : option (outcome (result (list f32) RvlDecodeError)) :=
  let* disparity := decode_rvl_without_quantization data metadata in
  let^ _ := with_capacity 4 (length disparity) in
  Some (Done (Ok (map (dequantize metadata) disparity))).

(** ** The encoder of the crate's tests *)

Record Encoder := mkEncoder {
  buffer : list Z;
  eword : Z;
  nibbles_written : nat;
}.

Definition new_encoder : Encoder := mkEncoder [] 0 0.

Definition push_nibble (self : Encoder) (nibble : Z) : Encoder :=
  let w := Z.lor (shl_u32 (eword self) 4) nibble in
  let n := S (nibbles_written self) in
  if (n =? 8)%nat then mkEncoder (buffer self ++ to_le_bytes w) 0 0
  else mkEncoder (buffer self) w n.

Fixpoint encode_vle_loop (fuel : nat) (self : Encoder) (value : Z) : option Encoder :=
  match fuel with
  | O => None
  | S fuel =>
    let nibble := Z.land value 7 in
    let value := Z.shiftr value 3 in
    let nibble := if negb (value =? 0) then Z.lor nibble 8 else nibble in
    let self := push_nibble self nibble in
    if value =? 0 then Some self else encode_vle_loop fuel self value
  end.

Definition encode_vle (self : Encoder) (value : Z) : option Encoder :=
  encode_vle_loop VLE_FUEL self value.

Definition finish (self : Encoder) : list Z :=
  if (0 <? nibbles_written self)%nat then
    let remaining := (8 - nibbles_written self)%nat in
    buffer self ++ to_le_bytes (shl_u32 (eword self) (4 * Z.of_nat remaining))
  else buffer self.

(** [while index < values.len() && p(values[index]) { index += 1 }], from [index]. *)
Fixpoint scan_while (p : Z -> bool) (fuel : nat) (values : list Z) (index : nat) : nat :=
  match fuel with
  | O => index
  | S fuel =>
    match values !! index with
    | Some v => if p v then scan_while p fuel values (S index) else index
    | None => index
    end
  end.

(** [((delta << 1) ^ (delta >> 31)) as u32]. *)
Definition zigzag_encode (delta : Z) : Z :=
  wrap_u32 (Z.lxor (wrap_i32 (Z.shiftl delta 1)) (Z.shiftr delta 31)).

Fixpoint encode_deltas (self : Encoder) (previous : Z) (values : list Z) : option (Encoder * Z) :=
  match values with
  | [] => Some (self, previous)
  | value :: values =>
    self ← encode_vle self (zigzag_encode (value - previous));
    encode_deltas self value values
  end.

Fixpoint encode_loop (fuel : nat) (self : Encoder) (index : nat) (previous : Z) (values : list Z)
    : option Encoder :=
  if (length values <=? index)%nat then Some self else
  match fuel with
  | O => None
  | S fuel =>
    let zero_start := index in
    let index := scan_while (fun v => v =? 0) (length values) values index in
    self ← encode_vle self (wrap_u32 (Z.of_nat (index - zero_start)));
    let nonzero_start := index in
    let index := scan_while (fun v => negb (v =? 0)) (length values) values index in
    self ← encode_vle self (wrap_u32 (Z.of_nat (index - nonzero_start)));
    '(self, previous) ← encode_deltas self previous (range values nonzero_start index);
    encode_loop fuel self index previous values
  end.

Definition encode_rvl (values : list Z) : option (list Z) :=
  finish <$> encode_loop (length values) new_encoder 0 0 values.

(** [build_depth_message]; the quantisation parameters are given by their bits.  The
    assertion on the number of values is [Panic]. *)
Definition build_depth_message (w h : Z) (disparity : list Z) (qa qb : Z) : outcome (list Z) :=
  if negb (w * h =? Z.of_nat (length disparity)) then Panic else
  match encode_rvl disparity with
  | None => Panic
  | Some compressed =>
    Done (to_le_bytes 0 ++ to_le_bytes qa ++ to_le_bytes qb ++ to_le_bytes w ++ to_le_bytes h
          ++ compressed)
  end.

(** ** The stream of nibbles

    [nibbles n w] is the last [n] base-16 digits of [w], most significant first. *)

Fixpoint nibbles (n : nat) (w : Z) : list Z :=
  match n with O => [] | S n => (w / 16 ^ Z.of_nat n mod 16) :: nibbles n w end.

Fixpoint input_nibbles (bytes : list Z) : list Z :=
  match bytes with
  | b0 :: b1 :: b2 :: b3 :: rest => nibbles 8 (from_le_bytes [b0; b1; b2; b3]) ++ input_nibbles rest
  | _ => []
  end.

(** The nibbles [next_nibble] has yet to return: those left in the word, then the input's. *)
Definition stream (d : RvlDecoder) : list Z :=
  nibbles (nibbles_remaining d) (word d / 16 ^ (8 - Z.of_nat (nibbles_remaining d)))
    ++ input_nibbles (drop (offset d) (input d)).

Definition wf_decoder (d : RvlDecoder) : Prop :=
  (nibbles_remaining d <= 8)%nat /\ is_u32 (word d) /\ Forall is_byte (input d) /\
  (offset d <= length (input d))%nat /\ Z.of_nat (length (input d)) <= i64_max.

(** The grammar the decoder implements, on the list of nibbles: a variable-length integer
    of at most [k] octal digits, lowest first, the high bit of a nibble saying that
    another follows; ... *)
Fixpoint vle_ref (k : nat) (ns : list Z) : result (Z * list Z) RvlDecodeError :=
  match k with
  | O => Err ValueOverflow
  | S k =>
    match ns with
    | [] => Err UnexpectedEof
    | x :: ns =>
      if x <? 8 then Ok (x, ns)
      else
        match vle_ref k ns with
        | Ok (v, ns) => Ok (x - 8 + 8 * v, ns)
        | Err e => Err e
        end
    end
  end.

(** ... a run of [n] deltas, each relative to the last non-zero pixel; ... *)
Fixpoint deltas_ref (n : nat) (previous : Z) (ns : list Z)
    : result (list Z * Z * list Z) RvlDecodeError :=
  match n with
  | O => Ok ([], previous, ns)
  | S n =>
    match vle_ref VLE_FUEL ns with
    | Err e => Err e
    | Ok (v, ns) =>
      let pixel := wrap_i32 (previous + zigzag_decode (wrap_i32 (wrap_u32 v))) in
      if (pixel <? 0) || (65535 <? pixel) then Err (ValueOutOfRange pixel)
      else
        match deltas_ref n pixel ns with
        | Err e => Err e
        | Ok (pixels, previous, ns) => Ok (pixel :: pixels, previous, ns)
        end
    end
  end.

(** ... and the image: a run of zeros, a run of non-zeros, until all pixels are written. *)
Fixpoint image_ref (fuel remaining : nat) (previous : Z) (ns : list Z)
    : result (list Z) RvlDecodeError :=
  match remaining, fuel with
  | O, _ => Ok []
  | _, O => Err NoProgress
  | _, S fuel =>
    match vle_ref VLE_FUEL ns with
    | Err e => Err e
    | Ok (zeros, ns) =>
      let zeros := wrap_u32 zeros in
      if Z.of_nat remaining <? zeros then Err TooManyZeros else
      match vle_ref VLE_FUEL ns with
      | Err e => Err e
      | Ok (nonzeros, ns) =>
        let nonzeros := wrap_u32 nonzeros in
        if Z.of_nat remaining - zeros <? nonzeros then Err TooManyNonZeros else
        if (zeros =? 0) && (nonzeros =? 0) then Err NoProgress else
        match deltas_ref (Z.to_nat nonzeros) previous ns with
        | Err e => Err e
        | Ok (pixels, previous, ns) =>
          match image_ref fuel (remaining - Z.to_nat zeros - Z.to_nat nonzeros) previous ns with
          | Err e => Err e
          | Ok rest => Ok (replicate (Z.to_nat zeros) 0 ++ pixels ++ rest)
          end
        end
      end
    end
  end.

(** ** Lemmas on words and nibbles *)

Lemma wrap_u32_range z : is_u32 (wrap_u32 z).
Proof. unfold is_u32, wrap_u32. apply Z.mod_pos_bound. lia. Qed.

Lemma wrap_u32_id z : is_u32 z -> wrap_u32 z = z.
Proof. unfold is_u32, wrap_u32. intros. by apply Z.mod_small. Qed.

Lemma wrap_i32_range z : - 2 ^ 31 <= wrap_i32 z < 2 ^ 31.
Proof. unfold wrap_i32. pose proof (Z.mod_pos_bound (z + 2 ^ 31) (2 ^ 32)). lia. Qed.

Lemma wrap_i32_id z : - 2 ^ 31 <= z < 2 ^ 31 -> wrap_i32 z = z.
Proof. unfold wrap_i32. intros. rewrite Z.mod_small by lia. lia. Qed.

#[export] Hint Resolve wrap_u32_range : ints.

Lemma pow16_pos n : 0 <= n -> 0 < 16 ^ n.
Proof. intros. apply Z.pow_pos_nonneg; lia. Qed.

Lemma nibbles_range n w : Forall (fun x => 0 <= x < 16) (nibbles n w).
Proof. induction n; simpl; constructor; [apply Z.mod_pos_bound; lia|done]. Qed.

Lemma input_nibbles_range bytes : Forall (fun x => 0 <= x < 16) (input_nibbles bytes).
Proof.
  enough (forall n, (length bytes <= n)%nat -> Forall (fun x => 0 <= x < 16) (input_nibbles bytes))
    by eauto.
  intros n. revert bytes. induction n as [|n IH]; intros [|b0 [|b1 [|b2 [|b3 rest]]]] Hn;
    try (by constructor); try (simpl in Hn; lia).
  cbn [input_nibbles]. apply Forall_app. split; [apply nibbles_range|apply IH; simpl in Hn; lia].
Qed.

Lemma nibbles_mod n w : nibbles n (w mod 16 ^ Z.of_nat n) = nibbles n w.
Proof.
  enough (forall m, (n <= m)%nat -> nibbles n (w mod 16 ^ Z.of_nat m) = nibbles n w) by eauto.
  induction n as [|n IH]; intros m Hm; [done|]. simpl. rewrite IH by lia. f_equal.
  replace (16 ^ Z.of_nat m) with (16 ^ Z.of_nat n * (16 * 16 ^ (Z.of_nat m - Z.of_nat n - 1))).
  2: { rewrite <- (Z.pow_succ_r 16 (_ - _ - 1)) by lia. rewrite <- Z.pow_add_r by lia.
       f_equal; lia. }
  pose proof (pow16_pos (Z.of_nat n) ltac:(lia)).
  pose proof (pow16_pos (Z.of_nat m - Z.of_nat n - 1) ltac:(lia)).
  rewrite Z.rem_mul_r, Z.mul_comm, Z.div_add, Z.div_small by (try apply Z.mod_pos_bound; lia).
  rewrite Z.rem_mul_r by lia. rewrite Z.add_0_l, Z.mul_comm, Z.mod_add by lia.
  by rewrite Z.mod_mod by lia.
Qed.

Lemma nibbles_snoc n w x : 0 <= x < 16 -> nibbles (S n) (16 * w + x) = nibbles n w ++ [x].
Proof.
  intros Hx. induction n as [|n IH].
  - simpl. rewrite Z.div_1_r, Z.add_comm, Z.mul_comm, Z.mod_add, Z.mod_small by lia. done.
  - change (nibbles (S (S n)) ?a) with ((a / 16 ^ Z.of_nat (S n) mod 16) :: nibbles (S n) a).
    rewrite IH. cbn [nibbles app]. f_equal. f_equal.
    rewrite Nat2Z.inj_succ, Z.pow_succ_r by lia.
    rewrite <- Z.div_div by (try apply pow16_pos; lia).
    f_equal. rewrite Z.add_comm, Z.mul_comm, Z.div_add, Z.div_small by lia. lia.
Qed.

(** The top nibble of the word, and the word shifted. *)
Lemma nibbles_word n w : is_u32 w -> (n < 8)%nat ->
  nibbles (S n) (w / 16 ^ (8 - Z.of_nat (S n)))
  = w / 2 ^ 28 :: nibbles n (shl_u32 w 4 / 16 ^ (8 - Z.of_nat n)).
Proof.
  intros Hw Hn. unfold is_u32 in Hw. cbn [nibbles]. f_equal.
  - rewrite Z.div_div by (try apply pow16_pos; lia).
    rewrite <- Z.pow_add_r by lia. replace (8 - Z.of_nat (S n) + Z.of_nat n) with 7 by lia.
    apply Z.mod_small. split; [apply Z.div_pos; lia|apply Z.div_lt_upper_bound; lia].
  - rewrite <- (nibbles_mod n (w / _)). f_equal.
    unfold shl_u32, wrap_u32. rewrite Z.shiftl_mul_pow2 by lia.
    replace (2 ^ 32) with (16 ^ (8 - Z.of_nat n) * 16 ^ Z.of_nat n)
      by (rewrite <- Z.pow_add_r by lia; by replace (8 - Z.of_nat n + Z.of_nat n) with 8 by lia).
    pose proof (pow16_pos (8 - Z.of_nat n) ltac:(lia)).
    pose proof (pow16_pos (Z.of_nat n) ltac:(lia)).
    pose proof (pow16_pos (8 - Z.of_nat (S n)) ltac:(lia)).
    rewrite Z.rem_mul_r, (Z.mul_comm (16 ^ (8 - _))), Z.div_add by lia.
    rewrite (Z.div_small (_ mod _)) by (apply Z.mod_pos_bound; lia). rewrite Z.add_0_l. f_equal.
    replace (8 - Z.of_nat n) with (Z.succ (8 - Z.of_nat (S n))) by lia.
    rewrite Z.pow_succ_r by lia. change (2 ^ 4) with 16.
    rewrite (Z.mul_comm 16), Z.div_mul_cancel_r by lia. done.
Qed.

Lemma top_nibble w : is_u32 w -> Z.shiftr (Z.land w 4026531840) 28 = w / 2 ^ 28.
Proof.
  intros Hw. rewrite Z.shiftr_land. change (Z.shiftr 4026531840 28) with (Z.ones 4).
  rewrite Z.land_ones, Z.shiftr_div_pow2 by lia. apply Z.mod_small. unfold is_u32 in Hw.
  split; [apply Z.div_pos; lia|apply Z.div_lt_upper_bound; lia].
Qed.

Lemma from_le_bytes_range b : Forall is_byte b -> is_u32 (from_le_bytes b).
Proof.
  unfold is_u32. destruct b as [|b0 [|b1 [|b2 [|b3 b]]]]; try (simpl; lia).
  intros H. decompose_Forall_hyps. unfold is_byte in *. simpl. lia.
Qed.

Lemma read_to_le_bytes w rest : is_u32 w -> from_le_bytes (to_le_bytes w ++ rest) = w.
Proof.
  unfold is_u32, to_le_bytes. intros Hw. simpl. Z.to_euclidean_division_equations. lia.
Qed.

Lemma to_le_bytes_bytes w : Forall is_byte (to_le_bytes w).
Proof. unfold to_le_bytes, is_byte. repeat constructor; apply Z.mod_pos_bound; lia. Qed.

(** ** The decoder refines the grammar *)

Lemma input_nibbles_reload bytes : (4 <= length bytes)%nat ->
  input_nibbles bytes = nibbles 8 (from_le_bytes (take 4 bytes)) ++ input_nibbles (drop 4 bytes).
Proof. destruct bytes as [|b0 [|b1 [|b2 [|b3 rest]]]]; simpl; intros; try lia. done. Qed.

Lemma input_nibbles_short bytes : (length bytes < 4)%nat -> input_nibbles bytes = [].
Proof. destruct bytes as [|b0 [|b1 [|b2 [|b3 rest]]]]; simpl; intros; try lia; done. Qed.

(** The checks that hold. *)
Lemma usize_add_ok a b : Z.of_nat (a + b) <= u64_max -> usize_add a b = Done (a + b)%nat.
Proof. intros. unfold usize_add. destruct (Z.ltb_spec u64_max (Z.of_nat a + Z.of_nat b)); [lia|done]. Qed.

Lemma unsigned_sub_ok a b : (b <= a)%nat -> unsigned_sub a b = Done (a - b)%nat.
Proof. intros. unfold unsigned_sub. destruct (Nat.ltb_spec a b); [lia|done]. Qed.

Lemma slice_ok {A} (data : list A) a b : (a <= b)%nat -> (b <= length data)%nat ->
  slice data a b = Done (range data a b).
Proof.
  intros. unfold slice. destruct (Nat.leb_spec a b), (Nat.leb_spec b (length data)); try lia. done.
Qed.

Lemma length_range {A} (data : list A) a b : (b <= length data)%nat ->
  length (range data a b) = (b - a)%nat.
Proof. intros. unfold range. rewrite length_take, length_drop. lia. Qed.

Lemma slice_u32_ok data a : (a + 4 <= length data)%nat ->
  slice data a (a + 4) ≫= read_u32 = Done (from_le_bytes (range data a (a + 4))).
Proof.
  intros. rewrite slice_ok by lia. unfold mbind, outcome_bind, read_u32.
  rewrite length_range by lia. destruct (Nat.ltb_spec (a + 4 - a) 4); [lia|done].
Qed.

Lemma shl_u32_checked_ok a b : 0 <= b < 32 -> shl_u32_checked a b = Done (shl_u32 a b).
Proof.
  intros. unfold shl_u32_checked. destruct (Z.leb_spec 0 b), (Z.ltb_spec b 32); try lia. done.
Qed.

Lemma with_capacity_ok size n : Z.of_nat size * Z.of_nat n <= i64_max -> with_capacity size n = Done ().
Proof. intros. unfold with_capacity. destruct (Z.ltb_spec i64_max (Z.of_nat size * Z.of_nat n)); [lia|done]. Qed.

(** [next_nibble] takes the head of the stream. *)
Lemma next_nibble_spec d : wf_decoder d ->
  match stream d with
  | [] => next_nibble d = Done (Err UnexpectedEof)
  | x :: ns => exists d', next_nibble d = Done (Ok (x, d')) /\ wf_decoder d' /\ stream d' = ns
  end.
Proof.
  destruct d as [inp off w n]. intros (Hn & Hw & Hinp & Hoff & Hmax). unfold next_nibble, stream. simpl in *.
  assert (Htake : forall w n, is_u32 w -> (S n <= 8)%nat ->
    nibbles (S n) (w / 16 ^ (8 - Z.of_nat (S n)))
    = Z.shiftr (Z.land w 4026531840) 28 :: nibbles n (shl_u32 w 4 / 16 ^ (8 - Z.of_nat n))).
  { intros. rewrite top_nibble by done. by apply nibbles_word. }
  destruct n as [|n].
  - unfold i64_max in Hmax. rewrite usize_add_ok by (unfold u64_max; lia). simpl.
    destruct (Nat.ltb_spec (length inp) (off + 4)) as [E|E].
    + by rewrite input_nibbles_short by (rewrite length_drop; lia).
    + rewrite input_nibbles_reload by (rewrite length_drop; lia).
      pose proof (slice_u32_ok inp off E) as Eu. unfold mbind in Eu |- *. rewrite Eu. clear Eu.
      rewrite drop_drop. unfold range. replace (off + 4 - off)%nat with 4%nat by lia.
      set (w' := from_le_bytes _). assert (is_u32 w').
      { by apply from_le_bytes_range, Forall_take, Forall_drop. }
      replace (nibbles 8 w') with (nibbles 8 (w' / 16 ^ (8 - Z.of_nat 8))) by (by rewrite Z.div_1_r).
      rewrite Htake by (done || lia). cbn [app outcome_bind].
      eexists. split; [reflexivity|]. split; [|done].
      split_and!; simpl; try done; try lia. apply wrap_u32_range.
  - rewrite Htake by done. cbn [app Nat.eqb].
    rewrite unsigned_sub_ok by (simpl; lia). cbn [mbind outcome_bind].
    eexists. split; [reflexivity|].
    split; [|simpl; by rewrite Nat.sub_0_r].
    split_and!; simpl; try done; try lia. apply wrap_u32_range.
Qed.

Lemma stream_range d : Forall (fun x => 0 <= x < 16) (stream d).
Proof. apply Forall_app; split; [apply nibbles_range|apply input_nibbles_range]. Qed.

(** The bits a nibble adds are above those already there. *)
Lemma or_shifted value shift x :
  0 <= shift < 32 -> 0 <= value < 2 ^ shift -> 0 <= x ->
  Z.lor value (shl_u32 x shift) = wrap_u32 (value + 2 ^ shift * x).
Proof.
  intros Hs Hv Hx. unfold shl_u32, wrap_u32.
  rewrite <- (Z.mod_small value (2 ^ 32)) at 1 by
    (assert (2 ^ shift < 2 ^ 32) by (apply Z.pow_lt_mono_r; lia); lia).
  rewrite <- !Z.land_ones, <- Z.land_lor_distr_l by lia. f_equal.
  rewrite Z.shiftl_mul_pow2, (Z.mul_comm x) by lia.
  rewrite <- Z.lxor_lor, Z.add_nocarry_lxor; [done| |]; apply Z.bits_inj'; intros i Hi;
    rewrite Z.land_spec, Z.bits_0, (Z.mul_comm _ x), <- Z.shiftl_mul_pow2, Z.shiftl_spec by lia;
    (destruct (decide (i < shift)); [by rewrite (Z.testbit_neg_r x), andb_false_r by lia|]);
    (rewrite <- (Z.mod_small value (2 ^ shift)), Z.mod_pow2_bits_high by lia; done).
Qed.

Lemma land_7 x : Z.land x 7 = x mod 8.
Proof. change 7 with (Z.ones 3). by rewrite Z.land_ones. Qed.

Lemma land_8 x : 0 <= x < 16 -> Z.land x 8 = if x <? 8 then 0 else 8.
Proof.
  intros H. assert (x ∈ (Z.of_nat <$> seq 0 16)) as Hx.
  { apply list_elem_of_fmap. exists (Z.to_nat x). split; [lia|]. apply elem_of_seq. lia. }
  simpl in Hx. rewrite !elem_of_cons, elem_of_nil in Hx. naive_solver.
Qed.

Lemma vle_ref_nonneg k ns v ns' :
  Forall (fun x => 0 <= x < 16) ns -> vle_ref k ns = Ok (v, ns') -> 0 <= v.
Proof.
  revert ns v. induction k as [|k IH]; intros [|x ns] v Hns H; simpl in H; try done.
  inversion Hns; subst. destruct (Z.ltb_spec x 8); [injection H as <- <-; lia|].
  destruct (vle_ref k ns) as [[v' ns'']|] eqn:E; [|done]. injection H as <- <-.
  specialize (IH _ _ H3 E). lia.
Qed.

Lemma decode_vle_loop_spec k value shift d :
  wf_decoder d -> (0 < k)%nat -> shift = 33 - 3 * Z.of_nat k -> 0 <= shift ->
  0 <= value < 2 ^ shift ->
  match vle_ref k (stream d) with
  | Err e => decode_vle_loop k value shift d = Some (Done (Err e))
  | Ok (v, ns) => exists d', wf_decoder d' /\ stream d' = ns /\
      decode_vle_loop k value shift d = Some (Done (Ok (wrap_u32 (value + 2 ^ shift * v), d')))
  end.
Proof.
  revert value shift d. induction k as [|k IH]; intros value shift d Hd Hk Hs Hs0 Hv; [lia|].
  cbn [decode_vle_loop vle_ref].
  pose proof (next_nibble_spec d Hd) as Hnext. pose proof (stream_range d) as Hrange.
  destruct (stream d) as [|x ns] eqn:Es; [by rewrite Hnext|].
  destruct Hnext as (d' & -> & Hd' & Hs'). inversion Hrange as [|? ? Hx Hns]; subst x0 l.
  cbv iota. rewrite shl_u32_checked_ok by lia. cbv iota beta zeta.
  rewrite land_8, land_7, or_shifted by (try done; try lia; apply Z.mod_pos_bound; lia).
  destruct (Z.ltb_spec x 8).
  - rewrite Z.eqb_refl. exists d'. rewrite (Z.mod_small x) by lia. done.
  - change (8 =? 0) with false. cbv iota. unfold u32_add.
    destruct (Z.leb_spec (2 ^ 32) (shift + 3)); [lia|].
    destruct k as [|k].
    { simpl. subst shift. done. }
    destruct (Z.leb_spec 32 (shift + 3)); [lia|].
    assert (Hx8 : x mod 8 = x - 8) by (Z.to_euclidean_division_equations; lia).
    assert (Hpow : 2 ^ (shift + 3) = 2 ^ shift * 8) by (by rewrite Z.pow_add_r by lia).
    assert (Hlt : 0 <= value + 2 ^ shift * (x mod 8) < 2 ^ (shift + 3)) by (rewrite Hx8; nia).
    assert (Hsm : wrap_u32 (value + 2 ^ shift * (x mod 8)) = value + 2 ^ shift * (x mod 8)).
    { apply wrap_u32_id. unfold is_u32.
      assert (2 ^ (shift + 3) <= 2 ^ 32) by (apply Z.pow_le_mono_r; lia). lia. }
    rewrite Hsm.
    specialize (IH (value + 2 ^ shift * (x mod 8)) (shift + 3) d' Hd' ltac:(lia) ltac:(lia)
      ltac:(lia) Hlt). rewrite Hs' in IH.
    destruct (vle_ref (S k) ns) as [[v ns']|e]; [|done].
    destruct IH as (d'' & Hd'' & Hs'' & ->). exists d''. split; [done|]. split; [done|].
    do 5 f_equal. rewrite Hpow, Hx8. lia.
Qed.

Lemma decode_vle_spec d : wf_decoder d ->
  match vle_ref VLE_FUEL (stream d) with
  | Err e => decode_vle d = Some (Done (Err e))
  | Ok (v, ns) => exists d', wf_decoder d' /\ stream d' = ns /\
      decode_vle d = Some (Done (Ok (wrap_u32 v, d')))
  end.
Proof.
  intros Hd. unfold decode_vle.
  pose proof (decode_vle_loop_spec VLE_FUEL 0 0 d Hd ltac:(unfold VLE_FUEL; lia) eq_refl
    ltac:(lia) ltac:(lia)) as H.
  destruct (vle_ref VLE_FUEL (stream d)) as [[v ns]|e]; [|done].
  destruct H as (d' & ? & ? & ->). exists d'. split_and!; try done. do 5 f_equal. lia.
Qed.

(** Pixels written at consecutive indices. *)
Lemma iter_indices_seq output at_ n : (at_ + n <= length output)%nat ->
  iter_indices output at_ n = seq at_ n.
Proof.
  intros H. unfold iter_indices. rewrite drop_seq, take_seq. f_equal; lia.
Qed.

Lemma fill_zeros_spec n pre l post : length l = n ->
  fill_zeros (seq (length pre) n) (pre ++ l ++ post) = pre ++ replicate n 0 ++ post.
Proof.
  revert pre l. induction n as [|n IH]; intros pre [|x l] Hl; simpl in *; try lia; [done|].
  rewrite insert_app_r_alt, Nat.sub_diag by lia. simpl.
  specialize (IH (pre ++ [0]) l ltac:(lia)).
  rewrite length_app, Nat.add_1_r, <- !app_assoc in IH. exact IH.
Qed.

Lemma decode_deltas_spec n pre l post previous d : wf_decoder d -> length l = n ->
  match deltas_ref n previous (stream d) with
  | Err e => decode_deltas (seq (length pre) n) previous (pre ++ l ++ post) d = Some (Done (Err e))
  | Ok (pixels, previous', ns) => exists d', wf_decoder d' /\ stream d' = ns /\ length pixels = n /\
      decode_deltas (seq (length pre) n) previous (pre ++ l ++ post) d
      = Some (Done (Ok (previous', pre ++ pixels ++ post, d')))
  end.
Proof.
  revert pre l previous d. induction n as [|n IH]; intros pre [|x l] previous d Hd Hl;
    simpl in Hl; try lia; [by exists d|].
  cbn [seq decode_deltas deltas_ref].
  pose proof (decode_vle_spec d Hd) as Hv.
  destruct (vle_ref VLE_FUEL (stream d)) as [[v ns]|e]; [|by rewrite Hv].
  destruct Hv as (d' & Hd' & Hs' & ->). set (p := wrap_i32 _).
  destruct ((p <? 0) || (65535 <? p)); [done|].
  rewrite insert_app_r_alt, Nat.sub_diag by lia. simpl.
  specialize (IH (pre ++ [p]) l p d' Hd' ltac:(lia)).
  rewrite length_app, Nat.add_1_r, <- app_assoc, Hs' in IH. cbn [app] in IH.
  destruct (deltas_ref n p ns) as [[[pixels q] ns']|e]; [|exact IH].
  destruct IH as (d'' & ? & ? & ? & IH). exists d''. split_and!; simpl; try done; [lia|].
  rewrite IH, <- app_assoc. done.
Qed.

Lemma decode_into_loop_spec fuel pre l previous d : wf_decoder d -> (length l <= fuel)%nat ->
  Z.of_nat (length (pre ++ l)) <= u64_max ->
  match image_ref fuel (length l) previous (stream d) with
  | Err e => decode_into_loop fuel (length l) (length pre) previous (pre ++ l) d = Some (Done (Err e))
  | Ok pixels => length pixels = length l /\
      exists d', decode_into_loop fuel (length l) (length pre) previous (pre ++ l) d
                 = Some (Done (Ok (pre ++ pixels, d')))
  end.
Proof.
  revert pre l previous d. induction fuel as [|fuel IH]; intros pre l previous d Hd Hl Hmax.
  { destruct l; simpl in *; [|lia]. split; [done|]. by exists d. }
  cbn [decode_into_loop image_ref].
  destruct (length l) as [|n] eqn:En; [destruct l; [|done]; split; [done|]; by exists d|].
  pose proof (decode_vle_spec d Hd) as Hv.
  destruct (vle_ref VLE_FUEL (stream d)) as [[z ns]|e]; [|by rewrite Hv].
  destruct Hv as (d1 & Hd1 & Hs1 & ->).
  pose proof (wrap_u32_range z) as Hz. set (z' := wrap_u32 z) in *. unfold is_u32 in Hz.
  destruct (Z.ltb_spec (Z.of_nat (S n)) z'); [done|].
  set (zn := Z.to_nat z'). assert (zn <= S n)%nat by lia.
  rewrite iter_indices_seq by (rewrite length_app; lia).
  rewrite length_app, En in Hmax.
  rewrite usize_add_ok, unsigned_sub_ok by lia. cbv iota beta.
  rewrite <- (take_drop zn l), fill_zeros_spec by (rewrite length_take; lia).
  pose proof (decode_vle_spec d1 Hd1) as Hv. rewrite Hs1 in Hv.
  destruct (vle_ref VLE_FUEL ns) as [[nz ns']|e]; [|by rewrite Hv].
  destruct Hv as (d2 & Hd2 & Hs2 & ->).
  pose proof (wrap_u32_range nz) as Hnz. set (nz' := wrap_u32 nz) in *. unfold is_u32 in Hnz.
  replace (Z.of_nat (S n - zn)) with (Z.of_nat (S n) - z') by lia.
  destruct (Z.ltb_spec (Z.of_nat (S n) - z') nz'); [done|].
  set (nzn := Z.to_nat nz').
  replace ((zn =? 0)%nat && (nzn =? 0)%nat) with ((z' =? 0) && (nz' =? 0)).
  2: { subst zn nzn. f_equal; [destruct (Z.eqb_spec z' 0), (Nat.eqb_spec (Z.to_nat z') 0)
         |destruct (Z.eqb_spec nz' 0), (Nat.eqb_spec (Z.to_nat nz') 0)]; lia. }
  destruct ((z' =? 0) && (nz' =? 0)) eqn:Eprog; [done|].
  rewrite iter_indices_seq by (rewrite !length_app, length_replicate, length_drop; lia).
  pose proof (decode_deltas_spec nzn (pre ++ replicate zn 0) (take nzn (drop zn l))
    (drop nzn (drop zn l)) previous d2 Hd2) as Hdel.
  rewrite length_take, length_drop, Hs2 in Hdel. specialize (Hdel ltac:(lia)).
  rewrite length_app, length_replicate, <- app_assoc, take_drop in Hdel.
  destruct (deltas_ref nzn previous ns') as [[[pixels q] ns'']|e]; [|by rewrite Hdel].
  destruct Hdel as (d3 & Hd3 & Hs3 & Hpix & ->).
  assert (~ (zn = 0%nat /\ nzn = 0%nat)).
  { apply andb_false_iff in Eprog. rewrite !Z.eqb_neq in Eprog. lia. }
  specialize (IH (pre ++ replicate zn 0 ++ pixels) (drop nzn (drop zn l)) q d3 Hd3).
  rewrite !length_app, !length_drop, length_replicate, Hpix, Hs3, En in IH.
  specialize (IH ltac:(lia) ltac:(lia)).
  rewrite usize_add_ok, unsigned_sub_ok by lia. cbv iota beta.
  replace (length pre + zn + nzn)%nat with (length pre + (zn + nzn))%nat by lia.
  do 2 rewrite <- app_assoc in IH.
  rewrite <- ?app_assoc.
  destruct (image_ref fuel (S n - zn - nzn) q ns'') as [rest|e]; [|exact IH].
  destruct IH as (Hrest & d4 & ->).
  split; [rewrite !length_app, length_replicate; lia|]. exists d4. by rewrite <- !app_assoc.
Qed.

Lemma stream_new bytes : stream (new_decoder bytes) = input_nibbles bytes.
Proof. done. Qed.

(** The image a payload denotes. *)
Definition image_of (n : nat) (bytes : list Z) : result (list Z) RvlDecodeError :=
  image_ref n n 0 (input_nibbles bytes).

Lemma decode_rvl_ok data m : Forall is_byte data -> Z.of_nat (length data) <= i64_max ->
  2 * Z.of_nat (num_pixels m) <= i64_max ->
  decode_rvl_without_quantization data m
  = Some (Done (match payload m data with
                | Err e => Err e
                | Ok p => image_of (num_pixels m) p
                end)).
Proof.
  intros Hdata Hlen Hn. unfold decode_rvl_without_quantization, image_of.
  destruct (payload m data) as [p|e] eqn:Ep; [|done].
  rewrite with_capacity_ok by lia.
  assert (wf_decoder (new_decoder p)) as Hwf.
  { unfold payload in Ep. case_match; [|done]. injection Ep as <-.
    split_and!; simpl; rewrite ?length_drop; try (unfold is_u32; lia). by apply Forall_drop. }
  pose proof (decode_into_loop_spec (num_pixels m) [] (replicate (num_pixels m) 0) 0 _ Hwf) as H.
  cbn [app] in H. rewrite length_replicate in H. unfold i64_max in Hn.
  specialize (H ltac:(lia) ltac:(unfold u64_max; lia)).
  rewrite stream_new in H. cbn [length app] in H. unfold decode_into. rewrite length_replicate.
  destruct (image_ref _ _ _ _) as [pixels|e]; [|by rewrite H].
  destruct H as (_ & d' & ->). done.
Qed.

(** ** The encoder writes what the grammar reads *)

Definition written (e : Encoder) : list Z :=
  input_nibbles (buffer e) ++ nibbles (nibbles_written e) (eword e).

Definition wf_encoder (e : Encoder) : Prop :=
  (nibbles_written e < 8)%nat /\ 0 <= eword e < 16 ^ Z.of_nat (nibbles_written e) /\
  (exists k, length (buffer e) = (4 * k)%nat) /\ Forall is_byte (buffer e).

Lemma input_nibbles_app k b1 b2 : length b1 = (4 * k)%nat ->
  input_nibbles (b1 ++ b2) = input_nibbles b1 ++ input_nibbles b2.
Proof.
  revert b1. induction k as [|k IH]; intros b1 Hk; [by destruct b1|].
  destruct b1 as [|x0 [|x1 [|x2 [|x3 b1]]]]; simpl in Hk; try lia.
  change ((x0 :: x1 :: x2 :: x3 :: b1) ++ b2) with (x0 :: x1 :: x2 :: x3 :: (b1 ++ b2)).
  cbn [input_nibbles]. rewrite IH by lia. by rewrite app_assoc.
Qed.

Lemma input_nibbles_word w : is_u32 w -> input_nibbles (to_le_bytes w) = nibbles 8 w.
Proof.
  intros Hw. pose proof (read_to_le_bytes w [] Hw) as E. rewrite app_nil_r in E.
  unfold to_le_bytes in *. cbn [input_nibbles]. by rewrite E, app_nil_r.
Qed.

Lemma push_word w n x : 0 <= w < 16 ^ Z.of_nat n -> (n < 8)%nat -> 0 <= x < 16 ->
  Z.lor (shl_u32 w 4) x = 16 * w + x /\ 0 <= 16 * w + x < 16 ^ Z.of_nat (S n).
Proof.
  intros Hw Hn Hx. rewrite Nat2Z.inj_succ, Z.pow_succ_r by lia. split; [|nia].
  assert (16 * 16 ^ Z.of_nat n <= 2 ^ 32).
  { rewrite <- Z.pow_succ_r by lia. change (2 ^ 32) with (16 ^ 8). apply Z.pow_le_mono_r; lia. }
  unfold shl_u32. rewrite Z.shiftl_mul_pow2 by lia. change (2 ^ 4) with 16.
  rewrite wrap_u32_id by (unfold is_u32; lia).
  rewrite Z.lor_comm. pose proof (or_shifted x 4 w ltac:(lia) ltac:(lia) ltac:(lia)) as E.
  unfold shl_u32 in E. rewrite Z.shiftl_mul_pow2 in E by lia. change (2 ^ 4) with 16 in E.
  rewrite !wrap_u32_id in E by (unfold is_u32; lia). rewrite E. lia.
Qed.

Lemma push_nibble_spec e x : wf_encoder e -> 0 <= x < 16 ->
  wf_encoder (push_nibble e x) /\ written (push_nibble e x) = written e ++ [x].
Proof.
  destruct e as [buf w n]. intros (Hn & Hw & [k Hk] & Hb) Hx. simpl in *.
  unfold push_nibble, written. cbn [eword nibbles_written buffer].
  destruct (push_word w n x Hw Hn Hx) as [-> Hr].
  destruct (Nat.eqb_spec (S n) 8) as [E|E].
  - assert (is_u32 (16 * w + x)) by (rewrite E in Hr; exact Hr).
    split.
    { split_and!; simpl; [lia..| |].
      - exists (S k). rewrite length_app, Hk. simpl. lia.
      - apply Forall_app. split; [done|apply to_le_bytes_bytes]. }
    cbn [eword nibbles_written buffer].
    rewrite (input_nibbles_app k), input_nibbles_word, app_nil_r by done.
    rewrite <- E, nibbles_snoc, app_assoc by done. done.
  - split; [split_and!; simpl; try done; [lia|lia|lia|by exists k]|].
    cbn [eword nibbles_written buffer]. rewrite nibbles_snoc by done. by rewrite app_assoc.
Qed.

(** The nibbles pushed by an encoding step are those the grammar reads back. *)
Lemma encode_vle_loop_spec fuel e v : wf_encoder e -> 0 <= v < 8 ^ Z.of_nat fuel ->
  (0 < fuel)%nat ->
  exists e' ns, encode_vle_loop fuel e v = Some e' /\ wf_encoder e' /\
    written e' = written e ++ ns /\ (length ns <= fuel)%nat /\ forall rest, vle_ref fuel (ns ++ rest) = Ok (v, rest).
Proof.
  revert e v. induction fuel as [|fuel IH]; intros e v He Hv Hf; [lia|].
  cbn [encode_vle_loop]. rewrite land_7, Z.shiftr_div_pow2 by lia. change (2 ^ 3) with 8.
  rewrite Nat2Z.inj_succ, Z.pow_succ_r in Hv by lia.
  assert (Hm : 0 <= v mod 8 < 8) by (apply Z.mod_pos_bound; lia).
  destruct (Z.eqb_spec (v / 8) 0) as [E|E].
  - destruct (push_nibble_spec e (v mod 8) He ltac:(lia)) as [He' Hw'].
    exists (push_nibble e (v mod 8)), [v mod 8]. split_and!; try done; try (simpl; lia). intros rest.
    simpl. destruct (Z.ltb_spec (v mod 8) 8); [|lia]. do 2 f_equal.
    Z.to_euclidean_division_equations. lia.
  - assert (Hor : Z.lor (v mod 8) 8 = v mod 8 + 8).
    { pose proof (or_shifted (v mod 8) 3 1 ltac:(lia) ltac:(lia) ltac:(lia)) as Eo.
      change (shl_u32 1 3) with 8 in Eo. rewrite Eo. apply wrap_u32_id. unfold is_u32. lia. }
    cbn [negb]. rewrite Hor.
    destruct (push_nibble_spec e (v mod 8 + 8) He ltac:(lia)) as [He' Hw'].
    assert (0 <= v / 8) by (apply Z.div_pos; lia).
    assert (Hlt : v / 8 < 8 ^ Z.of_nat fuel) by (apply Z.div_lt_upper_bound; lia).
    assert (0 < fuel)%nat.
    { destruct fuel; [|lia]. change (8 ^ Z.of_nat 0) with 1 in Hlt. lia. }
    destruct (IH _ (v / 8) He' ltac:(lia) ltac:(done)) as (e' & ns & -> & He'' & Hw'' & Hns & Href).
    exists e', ((v mod 8 + 8) :: ns). split_and!; try done.
    { by rewrite Hw'', Hw', <- app_assoc. }
    { simpl. lia. }
    intros rest. cbn [app vle_ref]. destruct (Z.ltb_spec (v mod 8 + 8) 8); [lia|].
    rewrite Href. do 2 f_equal. Z.to_euclidean_division_equations. lia.
Qed.

Lemma encode_vle_spec e v : wf_encoder e -> is_u32 v ->
  exists e' ns, encode_vle e v = Some e' /\ wf_encoder e' /\
    written e' = written e ++ ns /\ (length ns <= 11)%nat /\ forall rest, vle_ref VLE_FUEL (ns ++ rest) = Ok (v, rest).
Proof.
  unfold is_u32. intros He Hv. apply encode_vle_loop_spec; [done| |unfold VLE_FUEL; lia].
  change (8 ^ Z.of_nat VLE_FUEL) with 8589934592. lia.
Qed.

Lemma zigzag_encode_spec delta : -65536 < delta < 65536 ->
  zigzag_encode delta = if delta <? 0 then - 2 * delta - 1 else 2 * delta.
Proof.
  intros Hd. unfold zigzag_encode. rewrite Z.shiftl_mul_pow2, Z.shiftr_div_pow2 by lia.
  rewrite wrap_i32_id by lia. destruct (Z.ltb_spec delta 0).
  - replace (delta / 2 ^ 31) with (-1) by (Z.to_euclidean_division_equations; lia).
    rewrite Z.lxor_m1_r. replace (Z.lnot (delta * 2 ^ 1)) with (-2 * delta - 1) by (unfold Z.lnot; lia).
    apply wrap_u32_id. unfold is_u32. lia.
  - rewrite (Z.div_small delta) by lia. rewrite Z.lxor_0_r.
    replace (2 * delta) with (delta * 2 ^ 1) by lia. apply wrap_u32_id. unfold is_u32. lia.
Qed.

Lemma zigzag_roundtrip delta : -65536 < delta < 65536 ->
  is_u32 (zigzag_encode delta) /\ zigzag_decode (wrap_i32 (zigzag_encode delta)) = delta.
Proof.
  intros Hd. rewrite zigzag_encode_spec by done. unfold is_u32.
  assert (Hl : forall p, Z.land p 1 = p mod 2) by (intros; change 1 with (Z.ones 1); by rewrite Z.land_ones).
  destruct (Z.ltb_spec delta 0); (split; [lia|]); unfold zigzag_decode;
    rewrite wrap_i32_id, Hl, Z.shiftr_div_pow2 by lia; change (2 ^ 1) with 2.
  - replace ((-2 * delta - 1) mod 2) with 1 by (Z.to_euclidean_division_equations; lia).
    change (- (1)) with (-1). rewrite Z.lxor_m1_r. unfold Z.lnot.
    Z.to_euclidean_division_equations. lia.
  - replace (2 * delta mod 2) with 0 by (Z.to_euclidean_division_equations; lia).
    change (- 0) with 0. rewrite Z.lxor_0_r. Z.to_euclidean_division_equations. lia.
Qed.

#[local] Arguments vle_ref : simpl never.
#[local] Arguments VLE_FUEL : simpl never.

Lemma encode_deltas_spec e previous values : wf_encoder e -> is_u16 previous ->
  Forall is_u16 values ->
  exists e' ns previous', encode_deltas e previous values = Some (e', previous') /\
    wf_encoder e' /\ is_u16 previous' /\ written e' = written e ++ ns /\
    (length ns <= 11 * length values)%nat /\
    forall rest, deltas_ref (length values) previous (ns ++ rest) = Ok (values, previous', rest).
Proof.
  intros He Hp Hv. revert e previous He Hp.
  induction Hv as [|v values Hv Hvs IH]; intros e previous He Hp.
  { exists e, [], previous. by rewrite app_nil_r. }
  unfold is_u16 in Hp, Hv. destruct (zigzag_roundtrip (v - previous) ltac:(lia)) as [Hzr Hz].
  destruct (encode_vle_spec e _ He Hzr) as (e1 & ns1 & E1 & He1 & Hw1 & Hl1 & Href1).
  destruct (IH e1 v He1 Hv) as (e2 & ns2 & q & E2 & He2 & Hq & Hw2 & Hl2 & Href2).
  exists e2, (ns1 ++ ns2), q. cbn [encode_deltas]. rewrite E1. simpl. rewrite E2.
  split_and!; try done. { by rewrite Hw2, Hw1, app_assoc. }
  { rewrite length_app. simpl. lia. }
  intros rest. cbn [length deltas_ref]. rewrite <- app_assoc, Href1, wrap_u32_id, Hz by done.
  replace (previous + (v - previous)) with v by lia. rewrite wrap_i32_id by lia.
  destruct (Z.ltb_spec v 0), (Z.ltb_spec 65535 v); try lia. simpl. by rewrite Href2.
Qed.

Lemma length_nibbles n w : length (nibbles n w) = n.
Proof. induction n as [|n IH]; simpl; [done|by rewrite IH]. Qed.

Lemma length_input_nibbles k b : length b = (4 * k)%nat ->
  length (input_nibbles b) = (2 * length b)%nat.
Proof.
  revert b. induction k as [|k IH]; intros b Hk; [by destruct b|].
  destruct b as [|b0 [|b1 [|b2 [|b3 b]]]]; simpl in Hk; try lia.
  cbn [input_nibbles]. rewrite length_app, length_nibbles, IH by lia. simpl. lia.
Qed.

Lemma length_finish e : wf_encoder e -> (length (finish e) <= length (written e) + 4)%nat.
Proof.
  intros (Hn & _ & [k Hk] & _). unfold written, finish.
  rewrite length_app, length_nibbles, (length_input_nibbles k) by done.
  destruct (Nat.ltb_spec 0 (nibbles_written e)); rewrite ?length_app; simpl; lia.
Qed.

Lemma finish_spec e : wf_encoder e ->
  Forall is_byte (finish e) /\ exists pad, input_nibbles (finish e) = written e ++ pad.
Proof.
  destruct e as [buf w n]. intros (Hn & Hw & [k Hk] & Hb). unfold finish, written. simpl in *.
  destruct (Nat.ltb_spec 0 n).
  - split; [apply Forall_app; split; [done|apply to_le_bytes_bytes]|].
    set (w' := shl_u32 w (4 * Z.of_nat (8 - n))).
    assert (Hw' : w' = 16 ^ Z.of_nat (8 - n) * w).
    { unfold w', shl_u32. rewrite Z.shiftl_mul_pow2, Z.pow_mul_r by lia. change (2 ^ 4) with 16.
      rewrite Z.mul_comm. apply wrap_u32_id. unfold is_u32.
      change (2 ^ 32) with (16 ^ 8). replace 8 with (Z.of_nat (8 - n) + Z.of_nat n) by lia.
      rewrite Z.pow_add_r by lia. pose proof (pow16_pos (Z.of_nat (8 - n)) ltac:(lia)). nia. }
    assert (is_u32 w') by apply wrap_u32_range.
    rewrite (input_nibbles_app k), input_nibbles_word by done. rewrite Hw'.
    assert (Hpad : forall m, (m <= 8)%nat -> exists pad,
      nibbles (m + n) (16 ^ Z.of_nat m * w) = nibbles n w ++ pad).
    { clear. induction m as [|m IH]; intros Hm; [exists []; by rewrite app_nil_r, Z.mul_1_l|].
      destruct IH as [pad IH]; [lia|]. exists (pad ++ [0]).
      rewrite Nat2Z.inj_succ, Z.pow_succ_r by lia.
      replace (16 * 16 ^ Z.of_nat m * w) with (16 * (16 ^ Z.of_nat m * w) + 0) by lia.
      change (S m + n)%nat with (S (m + n)). rewrite nibbles_snoc, IH by lia.
      by rewrite app_assoc. }
    destruct (Hpad (8 - n)%nat ltac:(lia)) as [pad Hp]. exists pad.
    replace (8 - n + n)%nat with 8%nat in Hp by lia. by rewrite Hp, app_assoc.
  - split; [done|]. exists []. replace n with 0%nat by lia. simpl. by rewrite !app_nil_r.
Qed.

Lemma scan_while_spec p fuel values index : (index <= length values)%nat ->
  (length values - index <= fuel)%nat ->
  exists n, scan_while p fuel values index = (index + n)%nat /\ (index + n <= length values)%nat /\
    Forall (fun v => p v = true) (take n (drop index values)) /\
    match values !! (index + n)%nat with Some v => p v = false | None => True end.
Proof.
  revert index. induction fuel as [|fuel IH]; intros index Hi Hf; cbn [scan_while].
  { exists 0%nat. rewrite Nat.add_0_r. rewrite (lookup_ge_None_2 values) by lia.
    split_and!; try done; lia. }
  destruct (values !! index) as [v|] eqn:E.
  - destruct (p v) eqn:Ep.
    + pose proof (lookup_lt_Some _ _ _ E).
      destruct (IH (S index) ltac:(lia) ltac:(lia)) as (n & -> & Hle & Hall & Hend).
      exists (S n). replace (index + S n)%nat with (S index + n)%nat by lia.
      split_and!; try done. rewrite (drop_S _ _ _ E). simpl. by constructor.
    + exists 0%nat. rewrite Nat.add_0_r, E. split_and!; try done; lia.
  - exists 0%nat. rewrite Nat.add_0_r, E. split_and!; try done; lia.
Qed.

Lemma replicate_zeros l : Forall (fun v => (v =? 0) = true) l -> l = replicate (length l) 0.
Proof. induction 1 as [|v l Hv _ IH]; simpl; [done|]. apply Z.eqb_eq in Hv. by rewrite <- IH, Hv. Qed.

Lemma encode_loop_spec fuel e index previous values :
  wf_encoder e -> is_u16 previous -> Forall is_u16 values -> Z.of_nat (length values) < 2 ^ 32 ->
  (index <= length values)%nat -> (length values - index <= fuel)%nat ->
  exists e' ns, encode_loop fuel e index previous values = Some e' /\ wf_encoder e' /\
    written e' = written e ++ ns /\ (length ns <= 33 * (length values - index))%nat /\
    forall rest, image_ref fuel (length values - index) previous (ns ++ rest)
                 = Ok (drop index values).
Proof.
  intros He Hp Hvs Hlen. revert e index previous He Hp.
  induction fuel as [|fuel IH]; intros e index previous He Hp Hi Hf; cbn [encode_loop].
  { destruct (Nat.leb_spec (length values) index); [|lia]. exists e, [].
    rewrite app_nil_r. split_and!; try done; [simpl; lia|]. intros rest.
    rewrite drop_ge by lia. by replace (length values - index)%nat with 0%nat by lia. }
  destruct (Nat.leb_spec (length values) index) as [Hge|Hlt].
  { exists e, []. rewrite app_nil_r. split_and!; try done; [simpl; lia|]. intros rest.
    rewrite drop_ge by lia. by replace (length values - index)%nat with 0%nat by lia. }
  destruct (scan_while_spec (fun v => v =? 0) (length values) values index ltac:(lia) ltac:(lia))
    as (nz & -> & Hnz & Hzeros & Hendz).
  set (i1 := (index + nz)%nat) in *.
  destruct (scan_while_spec (fun v => negb (v =? 0)) (length values) values i1 ltac:(lia) ltac:(lia))
    as (nn & -> & Hnn & Hnonz & Hendn).
  replace (i1 - index)%nat with nz by lia. replace (i1 + nn - i1)%nat with nn by lia.
  destruct (encode_vle_spec e _ He (wrap_u32_range (Z.of_nat nz))) as (e1 & ns1 & E1 & He1 & Hw1 & L1 & R1).
  rewrite E1. simpl.
  destruct (encode_vle_spec e1 _ He1 (wrap_u32_range (Z.of_nat nn))) as (e2 & ns2 & E2 & He2 & Hw2 & L2 & R2).
  rewrite E2. simpl.
  assert (Hsl : range values i1 (i1 + nn) = take nn (drop i1 values)).
  { unfold range. f_equal. lia. }
  destruct (encode_deltas_spec e2 previous (take nn (drop i1 values)) He2 Hp)
    as (e3 & ns3 & q & E3 & He3 & Hq & Hw3 & L3 & R3).
  { by apply Forall_take, Forall_drop. }
  rewrite Hsl, E3. simpl.
  assert (Hprog : (nz + nn <> 0)%nat).
  { intros E0. assert (nz = 0%nat) by lia. assert (nn = 0%nat) by lia.
    assert (i1 = index) as Ei by lia. replace (i1 + nn)%nat with index in Hendn by lia.
    rewrite Ei in Hendz.
    destruct (lookup_lt_is_Some_2 values index Hlt) as [v Ev]. rewrite Ev in Hendz, Hendn.
    by rewrite Hendz in Hendn. }
  destruct (IH e3 (i1 + nn)%nat q He3 Hq ltac:(lia) ltac:(lia)) as (e4 & ns4 & E4 & He4 & Hw4 & L4 & R4).
  exists e4, (ns1 ++ ns2 ++ ns3 ++ ns4). split_and!; try done.
  { by rewrite Hw4, Hw3, Hw2, Hw1, <- !app_assoc. }
  { rewrite !length_app. rewrite length_take, length_drop in L3. lia. }
  intros rest. rewrite !wrap_u32_id in R1, R2 by (unfold is_u32; lia).
  rewrite length_take, length_drop, Nat.min_l in R3 by lia.
  cbn [image_ref]. destruct (length values - index)%nat as [|m] eqn:Em; [lia|].
  rewrite <- !app_assoc, R1, wrap_u32_id by (unfold is_u32; lia).
  destruct (Z.ltb_spec (Z.of_nat (S m)) (Z.of_nat nz)); [lia|].
  rewrite R2, wrap_u32_id by (unfold is_u32; lia).
  destruct (Z.ltb_spec (Z.of_nat (S m) - Z.of_nat nz) (Z.of_nat nn)); [lia|].
  destruct (Z.eqb_spec (Z.of_nat nz) 0), (Z.eqb_spec (Z.of_nat nn) 0); try lia; cbn [andb];
    rewrite !Nat2Z.id, R3;
    replace (S m - nz - nn)%nat with (length values - (i1 + nn))%nat by lia;
    rewrite R4; f_equal;
    rewrite <- (take_drop nz (drop index values)) at 1;
    rewrite (replicate_zeros _ Hzeros), length_take, length_drop, Nat.min_l by lia;
    rewrite drop_drop; fold i1; f_equal;
    by rewrite <- (drop_drop values), take_drop.
Qed.

Lemma encode_rvl_spec values : Forall is_u16 values -> Z.of_nat (length values) < 2 ^ 32 ->
  exists bytes, encode_rvl values = Some bytes /\ Forall is_byte bytes /\
    (length bytes <= 33 * length values + 4)%nat /\
    image_of (length values) bytes = Ok values.
Proof.
  intros Hv Hlen. unfold encode_rvl, image_of.
  assert (He : wf_encoder new_encoder) by (split_and!; simpl; try lia; [by exists 0%nat|done]).
  destruct (encode_loop_spec (length values) new_encoder 0 0 values He) as (e & ns & -> & He' & Hw & L & R);
    try done; try lia.
  destruct (finish_spec e He') as [Hb [pad Hpad]].
  exists (finish e). split_and!; try done.
  { pose proof (length_finish e He') as Hf. rewrite Hw in Hf. simpl in Hf. lia. }
  rewrite Hpad, Hw. cbn [app written new_encoder input_nibbles buffer nibbles nibbles_written].
  rewrite Nat.sub_0_r in R. apply R.
Qed.

(** ** The header *)

Lemma range_bytes data a b : Forall is_byte data -> Forall is_byte (range data a b).
Proof. intros. by apply Forall_take, Forall_drop. Qed.

(** The resolution fields, as the header stores them. *)
Definition header_u32 (data : list Z) (at_ : nat) : Z := from_le_bytes (range data at_ (at_ + 4)).

Lemma header_u32_range data at_ : Forall is_byte data -> is_u32 (header_u32 data at_).
Proof. intros. by apply from_le_bytes_range, range_bytes. Qed.

Lemma range_take (data : list Z) a b n : (b <= n)%nat -> range (take n data) a b = range data a b.
Proof. intros. unfold range. rewrite skipn_firstn_comm, take_take. f_equal. lia. Qed.

Lemma parse_ok data : Forall is_byte data ->
  parse data =
    Done (let w := header_u32 data 12 in let h := header_u32 data 16 in
     if (length data <=? 12)%nat then Err MissingHeader
     else if (length data <? 20)%nat then Err MissingResolution
     else if (w =? 0) || (h =? 0) then Err ZeroResolution
     else if MAX_DECODED_PIXELS <? w * h then Err (ResolutionTooLarge w h)
     else Ok (mkMetadata w h (f32_from_bits (header_u32 data 4)) (f32_from_bits (header_u32 data 8))
                20 (Z.to_nat (w * h)))).
Proof.
  intros Hd. unfold parse.
  change CONFIG_HEADER_SIZE with 12%nat. change RESOLUTION_HEADER_SIZE with 8%nat.
  destruct (Nat.leb_spec (length data) 12); [done|].
  rewrite (slice_ok data 0) by lia. cbn [mbind outcome_bind].
  assert (Hconf : forall a, (a + 4 <= 12)%nat ->
    slice (range data 0 12) a (a + 4) ≫= read_f32 = Done (f32_from_bits (header_u32 data a))).
  { intros a Ha. pose proof (slice_u32_ok (range data 0 12) a) as E.
    rewrite length_range in E by lia. specialize (E ltac:(lia)). unfold read_f32.
    rewrite slice_ok in E |- * by (rewrite ?length_range; lia). cbn [mbind outcome_bind] in *.
    rewrite E. unfold header_u32. cbn [fmap outcome_fmap]. do 3 f_equal.
    unfold range at 2. rewrite drop_0. by rewrite range_take by lia. }
  pose proof (Hconf 4%nat ltac:(lia)) as H4. pose proof (Hconf 8%nat ltac:(lia)) as H8.
  cbn [mbind Nat.add] in H4, H8 |- *. rewrite H4, H8. cbn [outcome_bind].
  destruct (Nat.ltb_spec (length data) 20); [done|].
  pose proof (slice_u32_ok data 12 ltac:(lia)) as H12.
  pose proof (slice_u32_ok data 16 ltac:(lia)) as H16.
  cbn [mbind Nat.add] in H12, H16. rewrite H12, H16. cbn [mbind outcome_bind]. cbn zeta.
  change (from_le_bytes (range data 12 16)) with (header_u32 data 12).
  change (from_le_bytes (range data 16 20)) with (header_u32 data 16).
  pose proof (header_u32_range data 12 Hd) as Hw. pose proof (header_u32_range data 16 Hd) as Hh.
  destruct ((header_u32 data 12 =? 0) || (header_u32 data 16 =? 0)); [done|].
  unfold is_u32 in *.
  destruct (Z.ltb_spec u64_max (header_u32 data 12 * header_u32 data 16)) as [Hov|];
    [unfold u64_max in Hov; nia|]. by destruct (MAX_DECODED_PIXELS <? _).
Qed.

Lemma header_lookup (pre : list Z) w rest at_ : length pre = at_ -> is_u32 w ->
  header_u32 (pre ++ to_le_bytes w ++ rest) at_ = w.
Proof.
  intros <- Hw. unfold header_u32, range. rewrite drop_app_length.
  replace (length pre + 4 - length pre)%nat with 4%nat by lia.
  transitivity (from_le_bytes (to_le_bytes w ++ [])); [done|by apply read_to_le_bytes].
Qed.

Lemma build_parse w h disparity qa qb compressed :
  is_u32 w -> is_u32 h -> is_u32 qa -> is_u32 qb -> Forall is_byte compressed ->
  0 < w * h <= MAX_DECODED_PIXELS ->
  encode_rvl disparity = Some compressed -> w * h = Z.of_nat (length disparity) ->
  exists data m, build_depth_message w h disparity qa qb = Done data /\ Forall is_byte data /\
    length data = (20 + length compressed)%nat /\ parse data = Done (Ok m) /\ payload m data = Ok compressed /\
    m = mkMetadata w h (f32_from_bits qa) (f32_from_bits qb) 20 (length disparity).
Proof.
  intros Hw Hh Hqa Hqb Hc Hwh Henc Hlen. unfold build_depth_message.
  rewrite Hlen, Z.eqb_refl, Henc. cbn [negb].
  set (data := to_le_bytes 0 ++ _).
  assert (Hbytes : Forall is_byte data) by (unfold data; rewrite !Forall_app; split_and!; auto using to_le_bytes_bytes).
  exists data, (mkMetadata w h (f32_from_bits qa) (f32_from_bits qb) 20 (length disparity)).
  do 3 (split; [done|]). rewrite parse_ok by done.
  assert (header_u32 data 12 = w) as ->.
  { apply (header_lookup (to_le_bytes 0 ++ to_le_bytes qa ++ to_le_bytes qb) w
      (to_le_bytes h ++ compressed)); done. }
  assert (header_u32 data 16 = h) as ->.
  { apply (header_lookup (to_le_bytes 0 ++ to_le_bytes qa ++ to_le_bytes qb ++ to_le_bytes w) h
      compressed); done. }
  assert (header_u32 data 4 = qa) as ->.
  { apply (header_lookup (to_le_bytes 0) qa (to_le_bytes qb ++ to_le_bytes w ++ to_le_bytes h
      ++ compressed)); done. }
  assert (header_u32 data 8 = qb) as ->.
  { apply (header_lookup (to_le_bytes 0 ++ to_le_bytes qa) qb (to_le_bytes w ++ to_le_bytes h
      ++ compressed)); done. }
  assert (length data = (20 + length compressed)%nat) as -> by done.
  cbn zeta. destruct (Nat.leb_spec (20 + length compressed) 12); [lia|].
  destruct (Nat.ltb_spec (20 + length compressed) 20); [lia|].
  destruct (Z.eqb_spec w 0); [lia|]. destruct (Z.eqb_spec h 0); [lia|]. cbn [orb].
  destruct (Z.ltb_spec MAX_DECODED_PIXELS (w * h)); [lia|].
  split; [by rewrite Hlen, Nat2Z.id|]. split; done.
Qed.

(** ** Properties *)

(** C20. An image of [u16] depths encoded by the crate's encoder is decoded to itself: the
    header parses to the dimensions and quantisation parameters written, the raw decoder
    returns exactly the pixels, and the public decoder their dequantised values (for a zero
    parameter the pixels themselves, zeros included). *)
Theorem rvl_roundtrip w h disparity qa qb :
  is_u32 w -> is_u32 h -> is_u32 qa -> is_u32 qb -> Forall is_u16 disparity ->
  w * h = Z.of_nat (length disparity) -> 0 < w * h <= MAX_DECODED_PIXELS ->
  exists data m,
    build_depth_message w h disparity qa qb = Done data /\ parse data = Done (Ok m) /\
    width m = w /\ height m = h /\ num_pixels m = length disparity /\
    depth_quant_a m = f32_from_bits qa /\ depth_quant_b m = f32_from_bits qb /\
    decode_rvl_without_quantization data m = Some (Done (Ok disparity)) /\
    decode_rvl_with_quantization data m
    = Some (Done (Ok (if f32_ne_zero (f32_from_bits qa)
                then map (fun v => if v =? 0 then S754_nan
                                   else f32_div (f32_from_bits qa)
                                          (f32_sub (u16_as_f32 v) (f32_from_bits qb))) disparity
                else map u16_as_f32 disparity))).
Proof.
  intros Hw Hh Hqa Hqb Hd Hlen Hmax. unfold MAX_DECODED_PIXELS in Hmax.
  destruct (encode_rvl_spec disparity Hd ltac:(lia)) as (bytes & Henc & Hb & Hbytes & Himg).
  destruct (build_parse w h disparity qa qb bytes) as (data & m & Hbuild & Hdata & Hdl & Hp & Hpay & Hm); try done.
  exists data, m. assert (Hdec : decode_rvl_without_quantization data m = Some (Done (Ok disparity))).
  { rewrite decode_rvl_ok, Hpay by (subst m; simpl; unfold i64_max; done || lia).
    subst m. cbn [num_pixels]. by rewrite Himg. }
  unfold decode_rvl_with_quantization. rewrite Hdec, with_capacity_ok by (unfold i64_max; lia).
  subst m. split_and!; try done.
  unfold dequantize, has_quantization. cbn [depth_quant_a depth_quant_b].
  by destruct (f32_ne_zero (f32_from_bits qa)).
Qed.

Lemma rvl_roundtrip_witness :
  exists data m, build_depth_message 5 1 [0; 1200; 1201; 0; 800] 0 0 = Done data /\
    parse data = Done (Ok m) /\ decode_rvl_without_quantization data m = Some (Done (Ok [0; 1200; 1201; 0; 800])).
Proof.
  destruct (rvl_roundtrip 5 1 [0; 1200; 1201; 0; 800] 0 0) as (data & m & ? & ? & _ & _ & _ & _ & _ & ? & _);
    try (unfold is_u32, MAX_DECODED_PIXELS; lia); try reflexivity.
  { repeat constructor; unfold is_u16; lia. }
  exists data, m. split; [assumption|split; assumption].
Defined.

Lemma deltas_ref_pixels n previous ns pixels q ns' :
  deltas_ref n previous ns = Ok (pixels, q, ns') -> Forall is_u16 pixels.
Proof.
  revert previous ns pixels. induction n as [|n IH]; intros previous ns pixels H; simpl in H.
  { injection H as <- <- <-. constructor. }
  destruct (vle_ref VLE_FUEL ns) as [[v ns1]|]; [|done].
  set (p := wrap_i32 _) in H.
  destruct (Z.ltb_spec p 0); [done|]. destruct (Z.ltb_spec 65535 p); [done|]. cbn [orb] in H.
  destruct (deltas_ref n p ns1) as [[[pixels' q'] ns2]|] eqn:E; [|done].
  injection H as <- <- <-. constructor; [unfold is_u16; lia|eauto].
Qed.

Lemma image_ref_pixels fuel n previous ns pixels :
  image_ref fuel n previous ns = Ok pixels -> Forall is_u16 pixels.
Proof.
  revert n previous ns pixels. induction fuel as [|fuel IH]; intros [|n] previous ns pixels H;
    cbn [image_ref] in H; try (injection H as <-; constructor); [done|].
  repeat (case_match; try done). injection H as <-.
  rewrite !Forall_app. split_and!; [|by eapply deltas_ref_pixels|by eapply IH].
  apply Forall_replicate. unfold is_u16. lia.
Qed.

Lemma deltas_ref_length n previous ns pixels q ns' :
  deltas_ref n previous ns = Ok (pixels, q, ns') -> length pixels = n.
Proof.
  revert previous ns pixels. induction n as [|n IH]; intros previous ns pixels H; simpl in H.
  { by injection H as <- <- <-. }
  destruct (vle_ref VLE_FUEL ns) as [[v ns1]|]; [|done]. case_match; [done|].
  destruct (deltas_ref n _ ns1) as [[[px' q'] ns'']|] eqn:E; [|done].
  injection H as <- <- <-. simpl. f_equal. eauto.
Qed.

Lemma image_ref_length fuel n previous ns pixels : (n <= fuel)%nat ->
  image_ref fuel n previous ns = Ok pixels -> length pixels = n.
Proof.
  revert n previous ns pixels. induction fuel as [|fuel IH]; intros [|n] previous ns pixels Hf H;
    cbn [image_ref] in H; try (by injection H as <-); try lia.
  destruct (vle_ref VLE_FUEL ns) as [[z ns1]|]; [|done].
  pose proof (wrap_u32_range z) as Hz. unfold is_u32 in Hz.
  destruct (Z.ltb_spec (Z.of_nat (S n)) (wrap_u32 z)); [done|].
  destruct (vle_ref VLE_FUEL ns1) as [[nz ns2]|]; [|done].
  pose proof (wrap_u32_range nz) as Hnz. unfold is_u32 in Hnz.
  destruct (Z.ltb_spec (Z.of_nat (S n) - wrap_u32 z) (wrap_u32 nz)); [done|].
  destruct ((wrap_u32 z =? 0) && (wrap_u32 nz =? 0)) eqn:Ep; [done|].
  destruct (deltas_ref (Z.to_nat (wrap_u32 nz)) previous ns2) as [[[px q] ns3]|] eqn:Ed; [|done].
  pose proof (deltas_ref_length _ _ _ _ _ _ Ed) as Hpx.
  apply andb_false_iff in Ep. rewrite !Z.eqb_neq in Ep.
  case_match eqn:Er; [|done]. injection H as <-. apply IH in Er; [|lia].
  rewrite !length_app, length_replicate, Hpx, Er. lia.
Qed.

(** C35. No input makes the decoder panic: every slice it takes is inside the data, every shift
    below 32, every sum and difference of indices in range, and both loops end.  The parser
    returns an error or metadata whose image can be allocated; with such metadata the
    decoder's result is that of the format's grammar on the nibble stream (the word register,
    the in-place writes and the fuel are invisible): an error, or [num_pixels] values, each
    a [u16], and the public decoder returns the same error or their dequantised values.
    Assumed of the data, besides being bytes: a slice is at most [isize::MAX] bytes long, as
    in every Rust program. *)
Theorem rvl_decode_spec data :
  Forall is_byte data -> Z.of_nat (length data) <= i64_max ->
  (exists r, parse data = Done r /\
     forall m, r = Ok m -> 4 * Z.of_nat (num_pixels m) <= i64_max) /\
  forall m, 4 * Z.of_nat (num_pixels m) <= i64_max ->
  exists r, decode_rvl_without_quantization data m = Some (Done r) /\
    r = match payload m data with
        | Err e => Err e
        | Ok p => image_ref (num_pixels m) (num_pixels m) 0 (input_nibbles p)
        end /\
    match r with
    | Ok pixels => length pixels = num_pixels m /\ Forall is_u16 pixels /\
        decode_rvl_with_quantization data m = Some (Done (Ok (map (dequantize m) pixels)))
    | Err e => decode_rvl_with_quantization data m = Some (Done (Err e))
    end.
Proof.
  intros Hd Hlen. split.
  - rewrite parse_ok by done. eexists. split; [done|]. intros m Hm. cbn zeta in Hm.
    repeat case_match; try discriminate Hm. injection Hm as <-. cbn [num_pixels].
    unfold MAX_DECODED_PIXELS, i64_max in *. lia.
  - intros m Hm. eexists. split; [by apply decode_rvl_ok; try lia|]. split; [done|].
    unfold decode_rvl_with_quantization. rewrite decode_rvl_ok by (done || lia).
    destruct (payload m data) as [p|]; [|done].
    destruct (image_of (num_pixels m) p) as [pixels|] eqn:E; [|done].
    assert (length pixels = num_pixels m) as Hpix by (by eapply image_ref_length).
    rewrite with_capacity_ok by lia. split_and!; [done|by eapply image_ref_pixels|done].
Qed.

Lemma rvl_decode_spec_witness :
  decode_rvl_without_quantization [17; 17; 17; 17] (mkMetadata 2 1 S754_nan S754_nan 0 2)
  = Some (Done (Err (ValueOutOfRange (-1)))).
Proof.
  destruct (rvl_decode_spec [17; 17; 17; 17]) as [_ H];
    [repeat constructor; unfold is_byte; lia|unfold i64_max; simpl; lia|].
  destruct (H (mkMetadata 2 1 S754_nan S754_nan 0 2)) as (r & Hr & E & _);
    [unfold i64_max; simpl; lia|].
  rewrite Hr, E. vm_compute. reflexivity.
Defined.

(** The header parser, on every branch: the two length errors, a zero dimension, more
    than [MAX_DECODED_PIXELS] pixels, else the metadata read at the fixed offsets.  A parsed
    header describes at least one pixel and at most 2^26, and its payload is in the data; the
    overflow and payload-length errors are never returned. *)
Lemma rvl_parse_spec data : Forall is_byte data ->
  parse data =
    Done (let w := header_u32 data 12 in let h := header_u32 data 16 in
     if (length data <=? 12)%nat then Err MissingHeader
     else if (length data <? 20)%nat then Err MissingResolution
     else if (w =? 0) || (h =? 0) then Err ZeroResolution
     else if MAX_DECODED_PIXELS <? w * h then Err (ResolutionTooLarge w h)
     else Ok (mkMetadata w h (f32_from_bits (header_u32 data 4)) (f32_from_bits (header_u32 data 8))
                20 (Z.to_nat (w * h)))) /\
  (forall m, parse data = Done (Ok m) ->
     payload m data = Ok (drop 20 data) /\ (0 < num_pixels m)%nat /\
     Z.of_nat (num_pixels m) = width m * height m /\ width m * height m <= MAX_DECODED_PIXELS).
Proof.
  intros Hd. rewrite parse_ok by done. split; [done|]. cbn zeta. intros m H.
  destruct (Nat.leb_spec (length data) 12); [done|].
  destruct (Nat.ltb_spec (length data) 20); [done|].
  destruct (Z.eqb_spec (header_u32 data 12) 0); [done|].
  destruct (Z.eqb_spec (header_u32 data 16) 0); [done|]. cbn [orb] in H.
  destruct (Z.ltb_spec MAX_DECODED_PIXELS (header_u32 data 12 * header_u32 data 16)); [done|].
  injection H as <-. unfold payload. cbn [payload_offset num_pixels width height].
  destruct (Nat.leb_spec 20 (length data)); [|lia].
  pose proof (header_u32_range data 12 Hd) as Hw. pose proof (header_u32_range data 16 Hd) as Hh.
  unfold is_u32 in *. split_and!; [done|nia|nia|done].
Qed.

Lemma rvl_parse_spec_witness :
  parse [0;0;0;0; 0;0;0;0; 0;0;0;0; 2;0;0;0; 3;0;0;0]
  = Done (Ok (mkMetadata 2 3 (S754_zero false) (S754_zero false) 20 6)).
Proof.
  destruct (rvl_parse_spec [0;0;0;0; 0;0;0;0; 0;0;0;0; 2;0;0;0; 3;0;0;0]) as [E _];
    [repeat constructor; unfold is_byte; lia|].
  rewrite E. vm_compute. reflexivity.
Defined.

(** An eleven-digit integer whose top digit does not fit is truncated, not rejected: digits
    7 × 11 denote 2^33 - 1, and the decoder returns 2^32 - 1 instead of [ValueOverflow]. *)
Example vle_overflow_unnoticed :
  vle_ref 11 (replicate 10 15 ++ [7]) = Ok (8589934591, []) /\
  match decode_vle (new_decoder (to_le_bytes 4294967295 ++ to_le_bytes 4285530112)) with
  | Some (Done (Ok (v, _))) => v = 4294967295
  | _ => False
  end.
Proof. vm_compute. split; reflexivity. Qed.
