(* ===== verification/Text.v ===== *)
(** * Characters and strings

    The parts of Rust's [char], [str] and integer formatting and parsing that the path
    code uses.  A [char] is its code point, a string the list of its characters, and
    [as_bytes] its UTF-8 encoding.  The Unicode tables are an interface
    ([UnicodeTables]): the code relies on them only through [char::is_alphanumeric], whose
    ASCII part is fixed by its documentation. *)

From S2P Require Import Prelude Ints.

Notation char := Z (only parsing).

(** A string literal of ASCII characters. *)
Definition ascii_code (a : Ascii.ascii) : Z := Z.of_N (Ascii.N_of_ascii a).
Definition lit (s : string) : list char := ascii_code <$> String.list_ascii_of_string s.

(** Unicode scalar values; [char::from_u32]. *)
Definition is_char (c : Z) : bool :=
  ((0 <=? c) && (c <? 55296)) || ((57344 <=? c) && (c <? 1114112)).
Definition char_from_u32 (n : Z) : option char := if is_char n then Some n else None.

(** [char::is_ascii_punctuation]. *)
Definition is_ascii_punctuation (c : char) : bool :=
  ((33 <=? c) && (c <=? 47)) || ((58 <=? c) && (c <=? 64)) || ((91 <=? c) && (c <=? 96))
  || ((123 <=? c) && (c <=? 126)).

Definition is_ascii_alphanumeric (c : char) : bool :=
  ((48 <=? c) && (c <=? 57)) || ((65 <=? c) && (c <=? 90)) || ((97 <=? c) && (c <=? 122)).

(** [char::is_whitespace]: the characters with the Unicode property [White_Space]. *)
Definition is_whitespace (c : char) : bool :=
  ((9 <=? c) && (c <=? 13)) || (c =? 32) || (c =? 133) || (c =? 160) || (c =? 5760)
  || ((8192 <=? c) && (c <=? 8202)) || (c =? 8232) || (c =? 8233) || (c =? 8239)
  || (c =? 8287) || (c =? 12288).

(** [char::is_alphanumeric], whatever the version of the Unicode tables. *)
Class UnicodeTables := {
  is_alphanumeric : char -> bool;
  is_alphanumeric_ascii c : 0 <= c < 128 -> is_alphanumeric c = is_ascii_alphanumeric c;
}.

(** A concrete table for the examples: ASCII and the Latin letters up to U+024F. *)
Definition latin_alphanumeric (c : char) : bool :=
  is_ascii_alphanumeric c || ((192 <=? c) && (c <? 592) && negb (c =? 215) && negb (c =? 247)).
Definition latin_tables : UnicodeTables.
Proof.
  refine {| is_alphanumeric := latin_alphanumeric |}.
  intros c Hc. unfold latin_alphanumeric.
  replace (192 <=? c) with false by (symmetry; apply Z.leb_gt; lia). simpl. apply orb_false_r.
Defined.

(** ** UTF-8 *)

Definition encode_utf8 (c : char) : list Z :=
  if c <? 128 then [c]
  else if c <? 2048 then [192 + c / 64; 128 + c mod 64]
  else if c <? 65536 then [224 + c / 4096; 128 + c / 64 mod 64; 128 + c mod 64]
  else [240 + c / 262144; 128 + c / 4096 mod 64; 128 + c / 64 mod 64; 128 + c mod 64].

Definition len_utf8 (c : char) : nat := length (encode_utf8 c).

Definition as_bytes (s : list char) : list Z := s ≫= encode_utf8.

(** [str::len]: the number of bytes. *)
Definition str_len (s : list char) : nat := length (as_bytes s).

(** The character a sequence of bytes starts with: the length is given by the first byte,
    and the bytes must be the encoding of the scalar value they spell. *)
Definition decode_candidate (bytes : list Z) : Z :=
  match bytes with
  | b0 :: bs =>
    if b0 <? 128 then b0
    else if b0 <? 224 then
      match bs with b1 :: _ => (b0 - 192) * 64 + (b1 - 128) | _ => -1 end
    else if b0 <? 240 then
      match bs with
      | b1 :: b2 :: _ => (b0 - 224) * 4096 + (b1 - 128) * 64 + (b2 - 128)
      | _ => -1
      end
    else
      match bs with
      | b1 :: b2 :: b3 :: _ =>
        (b0 - 240) * 262144 + (b1 - 128) * 4096 + (b2 - 128) * 64 + (b3 - 128)
      | _ => -1
      end
  | [] => -1
  end.

Definition decode_utf8 (bytes : list Z) : option char :=
  let c := decode_candidate bytes in
  if is_char c && bool_decide (take (len_utf8 c) bytes = encode_utf8 c) then Some c else None.

(** [std::str::from_utf8]. *)
Fixpoint from_utf8_loop (fuel : nat) (bytes : list Z) : option (list char) :=
  match bytes, fuel with
  | [], _ => Some []
  | _, O => None
  | _, S fuel =>
    c ← decode_utf8 bytes;
    s ← from_utf8_loop fuel (drop (len_utf8 c) bytes);
    Some (c :: s)
  end.
Definition from_utf8 (bytes : list Z) : option (list char) := from_utf8_loop (length bytes) bytes.

Lemma encode_utf8_length c : (1 <= length (encode_utf8 c) <= 4)%nat.
Proof. unfold encode_utf8. repeat case_match; simpl; lia. Qed.

Lemma decode_encode_utf8 c bytes : is_char c = true ->
  decode_utf8 (encode_utf8 c ++ bytes) = Some c.
Proof.
  intros Hc.
  assert (decode_candidate (encode_utf8 c ++ bytes) = c) as E.
  { unfold is_char in Hc. rewrite orb_true_iff, !andb_true_iff, !Z.leb_le, !Z.ltb_lt in Hc.
    unfold encode_utf8. destruct (Z.ltb_spec c 128); [simpl; destruct (Z.ltb_spec c 128); lia|].
    destruct (Z.ltb_spec c 2048); [|destruct (Z.ltb_spec c 65536)]; cbn [app decode_candidate];
      repeat match goal with |- context [?a <? ?b] => destruct (Z.ltb_spec a b) end;
      Z.to_euclidean_division_equations; lia. }
  unfold decode_utf8. rewrite E, Hc. unfold len_utf8. rewrite take_app_length.
  by rewrite bool_decide_true.
Qed.

Lemma as_bytes_app s1 s2 : as_bytes (s1 ++ s2) = as_bytes s1 ++ as_bytes s2.
Proof. apply bind_app. Qed.

Lemma from_utf8_loop_as_bytes fuel s : Forall (fun c => is_char c = true) s ->
  (length (as_bytes s) <= fuel)%nat -> from_utf8_loop fuel (as_bytes s) = Some s.
Proof.
  intros Hs. revert fuel. induction Hs as [|c s Hc _ IH]; intros fuel Hf; [by destruct fuel|].
  change (as_bytes (c :: s)) with (encode_utf8 c ++ as_bytes s) in *.
  rewrite length_app in Hf. pose proof (encode_utf8_length c).
  destruct fuel as [|fuel]; [lia|].
  assert (forall f b, b <> [] -> from_utf8_loop (S f) b
    = (c ← decode_utf8 b; s ← from_utf8_loop f (drop (len_utf8 c) b); Some (c :: s))) as E
    by (by intros f [|]).
  rewrite E by (destruct (encode_utf8 c); [simpl in *; lia|done]).
  rewrite decode_encode_utf8 by done. simpl. unfold len_utf8. rewrite drop_app_length.
  by rewrite IH by lia.
Qed.

Lemma from_utf8_as_bytes s : Forall (fun c => is_char c = true) s ->
  from_utf8 (as_bytes s) = Some s.
Proof. intros. by apply from_utf8_loop_as_bytes. Qed.

(** ** Numbers in text *)

(** [char::to_digit]. *)
Definition to_digit (radix : Z) (c : char) : option Z :=
  let d :=
    if (48 <=? c) && (c <=? 57) then Some (c - 48)
    else if (97 <=? c) && (c <=? 122) then Some (c - 87)
    else if (65 <=? c) && (c <=? 90) then Some (c - 55)
    else None in
  match d with Some d => if d <? radix then Some d else None | None => None end.

Fixpoint from_digits (radix max : Z) (value : Z) (s : list char) : option Z :=
  match s with
  | [] => Some value
  | c :: s =>
    match to_digit radix c with
    | None => None
    | Some d =>
      let value := value * radix + d in
      if max <? value then None else from_digits radix max value s
    end
  end.

(** [u32::from_str_radix] and [u64::from_str]: an optional [+], then at least one digit. *)
Definition from_str_radix (radix max : Z) (s : list char) : option Z :=
  match s with
  | [] => None
  | [43] => None
  | 43 :: s => from_digits radix max 0 s
  | _ => from_digits radix max 0 s
  end.
Definition u64_from_str (s : list char) : option Z := from_str_radix 10 u64_max s.

(** A digit of [{}] or [{:X}]. *)
Definition digit (d : Z) : char := if d <? 10 then 48 + d else 55 + d.

Fixpoint fmt_digits (fuel : nat) (radix n : Z) (acc : list char) : list char :=
  match fuel with
  | O => acc
  | S fuel =>
    let acc := digit (n mod radix) :: acc in
    if n / radix =? 0 then acc else fmt_digits fuel radix (n / radix) acc
  end.

(** [{}] on a [u64] (at most 20 digits) and [{:04X}] on a [u32] (at most 8). *)
Definition fmt_u64 (n : Z) : list char := fmt_digits 20 10 n [].
Definition fmt_04X (n : Z) : list char :=
  let s := fmt_digits 8 16 n [] in replicate (4 - length s) 48 ++ s.

Lemma to_digit_digit radix d : radix <= 36 -> 0 <= d < radix -> to_digit radix (digit d) = Some d.
Proof.
  intros Hr Hd. unfold to_digit, digit.
  destruct (Z.ltb_spec d 10).
  - rewrite (proj2 (Z.leb_le 48 (48 + d))), (proj2 (Z.leb_le (48 + d) 57)) by lia. simpl.
    rewrite (proj2 (Z.ltb_lt _ _)) by lia. f_equal. lia.
  - rewrite (proj2 (Z.leb_gt (55 + d) 57)), andb_false_r by lia.
    rewrite (proj2 (Z.leb_gt 97 (55 + d))) by lia. simpl.
    rewrite (proj2 (Z.leb_le 65 (55 + d))), (proj2 (Z.leb_le (55 + d) 90)) by lia. simpl.
    rewrite (proj2 (Z.ltb_lt _ _)) by lia. f_equal. lia.
Qed.

Lemma fmt_digits_app fuel radix n acc : fmt_digits fuel radix n acc = fmt_digits fuel radix n [] ++ acc.
Proof.
  revert n acc. induction fuel as [|fuel IH]; intros n acc; simpl; [done|].
  case_match; [done|]. rewrite IH, (IH _ [_]), <- app_assoc. done.
Qed.

Lemma from_digits_app radix max v s1 s2 :
  from_digits radix max v (s1 ++ s2) = (v ← from_digits radix max v s1; from_digits radix max v s2).
Proof.
  revert v. induction s1 as [|c s1 IH]; intros v; simpl; [done|].
  destruct (to_digit radix c); [|done]. case_match; [done|]. apply IH.
Qed.

(** What is printed parses back. *)
Lemma from_digits_fmt fuel radix max n : 2 <= radix <= 36 -> 0 <= n <= max ->
  n < radix ^ Z.of_nat fuel -> from_digits radix max 0 (fmt_digits fuel radix n []) = Some n.
Proof.
  intros Hr. revert n. induction fuel as [|fuel IH]; intros n Hn Hf.
  { change (radix ^ Z.of_nat 0) with 1 in Hf. simpl. f_equal. lia. }
  rewrite Nat2Z.inj_succ, Z.pow_succ_r in Hf by lia. cbn [fmt_digits].
  pose proof (Z.mod_pos_bound n radix ltac:(lia)).
  destruct (Z.eqb_spec (n / radix) 0) as [E|E].
  - cbn [from_digits]. rewrite to_digit_digit by lia.
    replace (0 * radix + n mod radix) with n by (pose proof (Z.div_mod n radix); lia).
    destruct (Z.ltb_spec max n); [lia|done].
  - rewrite fmt_digits_app, from_digits_app.
    assert (0 <= n / radix <= max).
    { split; [apply Z.div_pos; lia|]. transitivity n; [apply Z.div_le_upper_bound; nia|lia]. }
    rewrite IH by (try done; apply Z.div_lt_upper_bound; lia). simpl.
    rewrite to_digit_digit by lia.
    assert (n / radix * radix + n mod radix = n) as -> by (pose proof (Z.div_mod n radix); lia).
    destruct (Z.ltb_spec max n); [lia|done].
Qed.

Lemma fmt_digits_nonempty fuel radix n acc : fmt_digits (S fuel) radix n acc <> [].
Proof. simpl. case_match; [done|]. rewrite fmt_digits_app. by destruct (fmt_digits _ _ _ _). Qed.

Lemma fmt_digits_length k fuel radix n acc : 2 <= radix -> 0 <= n < radix ^ Z.of_nat k -> (0 < k)%nat ->
  (length (fmt_digits fuel radix n acc) <= k + length acc)%nat.
Proof.
  intros Hr. revert fuel n acc. induction k as [|k IH]; intros fuel n acc Hn Hk; [lia|].
  destruct fuel as [|fuel]; cbn [fmt_digits]; [lia|].
  destruct (Z.eqb_spec (n / radix) 0) as [E|E]; [simpl; lia|].
  rewrite Nat2Z.inj_succ, Z.pow_succ_r in Hn by lia.
  assert (0 <= n / radix < radix ^ Z.of_nat k)
    by (split; [apply Z.div_pos; lia|apply Z.div_lt_upper_bound; lia]).
  destruct k as [|k]; [change (radix ^ Z.of_nat 0) with 1 in *; lia|].
  etrans; [apply IH; lia|simpl; lia].
Qed.

(** Printed digits are digits. *)
Lemma fmt_digits_chars fuel radix n acc (P : char -> Prop) : 0 < radix ->
  (forall d, 0 <= d < radix -> P (digit d)) -> Forall P acc -> Forall P (fmt_digits fuel radix n acc).
Proof.
  intros Hr HP. revert n acc. induction fuel as [|fuel IH]; intros n acc Hacc; simpl; [done|].
  assert (Forall P (digit (n mod radix) :: acc))
    by (constructor; [apply HP, Z.mod_pos_bound; lia|done]).
  case_match; [done|by apply IH].
Qed.

Lemma digit_not_plus d : 0 <= d -> digit d <> 43.
Proof. unfold digit. case_match; [|apply Z.ltb_ge in H]; lia. Qed.

Lemma from_str_radix_digits radix max s : s <> [] -> Forall (fun c => c <> 43) s ->
  from_str_radix radix max s = from_digits radix max 0 s.
Proof.
  intros Hne Hs. destruct s as [|c s]; [done|]. inversion Hs; subst. unfold from_str_radix.
  repeat case_match; congruence.
Qed.

Lemma from_digits_zeros radix max n s : 0 < radix -> 0 <= max ->
  from_digits radix max 0 (replicate n 48 ++ s) = from_digits radix max 0 s.
Proof.
  intros Hr Hm. induction n as [|n IH]; [done|]. cbn [replicate app from_digits].
  assert (to_digit radix 48 = Some 0) as ->.
  { unfold to_digit. change (48 - 48) with 0. simpl. destruct (Z.ltb_spec 0 radix); [done|lia]. }
  change (0 * radix + 0) with 0. destruct (Z.ltb_spec max 0); [lia|apply IH].
Qed.

Lemma u64_from_str_fmt n : is_u64 n -> u64_from_str (fmt_u64 n) = Some n.
Proof.
  intros Hn. unfold u64_from_str, fmt_u64. unfold is_u64, u64_max in *.
  rewrite from_str_radix_digits; [|apply fmt_digits_nonempty|].
  - apply from_digits_fmt; simpl; lia.
  - apply fmt_digits_chars; [lia| |constructor]. intros. apply digit_not_plus. lia.
Qed.
