(* ===== verification/EntityPathPart.v ===== *)
(** * Entity path parts

    [src/crates/store/dl_log_types/src/path/entity_path_part.rs]: a part is an interned
    string, compared by the hash of the interner, which the code takes to be perfect, so
    here a part is its string.  The parsers consume an iterator of characters; a position of
    that iterator is the input with a number of characters still to skip. *)

From S2P Require Import Prelude Ints Text.

Definition RESERVED_NAMESPACE_PREFIX : list char := lit "__".
Definition PROPERTIES_PART : list char := lit "__properties".

Notation EntityPathPart := (list Z) (only parsing).

Inductive PathParseError :=
| EmptyString
| MissingPath
| DoubleSlash
| MissingSlash
| TrailingSlash
| EmptyPart
| BadInstance (s : list char)
| UnexpectedInstance (i : Z)
| UnexpectedComponent (c : list char)
| MissingComponentIdentifier
| InvalidComponentIdentifier
| TrailingColon
| UnknownEscapeSequence (c : char)
| TrailingBackslash
| MissingEscape (c : char)
| InvalidUnicodeEscape (s : list char).

(** Characters the escape syntax names. *)
Definition backslash : char := 92.
Definition c_n : char := 110.
Definition c_r : char := 114.
Definition c_t : char := 116.
Definition c_u : char := 117.
Definition space : char := 32.
Definition c_newline : char := 10.
Definition c_return : char := 13.
Definition c_tab : char := 9.
Definition lbrace : char := 123.
Definition rbrace : char := 125.

(** [matches!(c, '_' | '-' | '.')]. *)
Definition is_plain_punctuation (c : char) : bool := (c =? 95) || (c =? 45) || (c =? 46).

(** The loop of [parse_unicode_escape] over the iterator, [len] bytes read so far. *)
Fixpoint take_unicode_escape (len : nat) (input : list char) : list char :=
  match input with
  | [] => []
  | c :: input =>
    let len := (len + len_utf8 c)%nat in
    if (c =? rbrace) || (len =? 6)%nat then [c] else c :: take_unicode_escape len input
  end.

Definition strip_prefix_char (p : char) (s : list char) : option (list char) :=
  match s with c :: s => if c =? p then Some s else None | [] => None end.
Definition strip_suffix_char (p : char) (s : list char) : option (list char) :=
  match rev s with c :: r => if c =? p then Some (rev r) else None | [] => None end.

(** Also returns the number of characters consumed. *)
Definition parse_unicode_escape (input : list char) : result char (list char) * nat :=
  let all_chars := take_unicode_escape 0 input in
  let r :=
    match strip_prefix_char lbrace all_chars with
    | None => Err all_chars
    | Some chars =>
      match strip_suffix_char rbrace chars with
      | None => Err all_chars
      | Some chars =>
        if negb (str_len chars =? 4)%nat then Err all_chars else
        match from_str_radix 16 4294967295 chars with
        | None => Err all_chars
        | Some num => ok_or (char_from_u32 num) all_chars
        end
      end
    end in
  (r, length all_chars).

Inductive PathWarning := WarnUnknownEscape (c : char) | WarnUnescapedWhitespace.

(** [output.push(c)] before the rest of the output. *)
Definition push {E} (c : char) (r : result (list char) E) : result (list char) E :=
  match r with Ok s => Ok (c :: s) | Err e => Err e end.

Section Parsing.
Context `{U : UnicodeTables}.

(** [escaped_string]. *)
Definition escaped_char (c : char) : list char :=
  if is_alphanumeric c || is_plain_punctuation c then [c]
  else if c =? c_newline then [backslash; c_n]
  else if c =? c_return then [backslash; c_r]
  else if c =? c_tab then [backslash; c_t]
  else if is_ascii_punctuation c || (c =? space) then [backslash; c]
  else [backslash; c_u; lbrace] ++ fmt_04X c ++ [rbrace].

Definition escaped_string (self : EntityPathPart) : list char := self ≫= escaped_char.

(** [parse_strict], with [skip] characters of the input already consumed. *)
Fixpoint parse_strict_from (skip : nat) (input : list char) : result (list char) PathParseError :=
  match input with
  | [] => Ok []
  | c :: rest =>
    match skip with
    | S skip => parse_strict_from skip rest
    | O =>
      if c =? backslash then
        match rest with
        | [] => Err TrailingBackslash
        | c :: after =>
          if c =? c_n then push c_newline (parse_strict_from 1 rest)
          else if c =? c_r then push c_return (parse_strict_from 1 rest)
          else if c =? c_t then push c_tab (parse_strict_from 1 rest)
          else if c =? c_u then
            let (r, n) := parse_unicode_escape after in
            match r with
            | Ok c => push c (parse_strict_from (1 + n) rest)
            | Err s => Err (InvalidUnicodeEscape s)
            end
          else if is_ascii_punctuation c || (c =? space) then push c (parse_strict_from 1 rest)
          else Err (UnknownEscapeSequence c)
        end
      else if is_alphanumeric c || is_plain_punctuation c then push c (parse_strict_from 0 rest)
      else Err (MissingEscape c)
    end
  end.

Definition part_parse_strict (input : list char) : result EntityPathPart PathParseError :=
  parse_strict_from 0 input.

(** [parse_forgiving_with_warning]: the part and the warnings, in order. *)
Fixpoint parse_forgiving_from (skip : nat) (input : list char) : list char * list PathWarning :=
  match input with
  | [] => ([], [])
  | c :: rest =>
    match skip with
    | S skip => parse_forgiving_from skip rest
    | O =>
      let out (cs : list char) (ws : list PathWarning) (r : list char * list PathWarning) :=
        (cs ++ r.1, ws ++ r.2) in
      if c =? backslash then
        match rest with
        | [] => ([backslash], [])
        | c :: after =>
          if c =? c_n then out [c_newline] [] (parse_forgiving_from 1 rest)
          else if c =? c_r then out [c_return] [] (parse_forgiving_from 1 rest)
          else if c =? c_t then out [c_tab] [] (parse_forgiving_from 1 rest)
          else if c =? c_u then
            let (r, n) := parse_unicode_escape after in
            match r with
            | Ok c => out [c] [] (parse_forgiving_from (1 + n) rest)
            | Err s => out ([backslash; c_u] ++ s) [] (parse_forgiving_from (1 + n) rest)
            end
          else if is_ascii_punctuation c || (c =? space) then out [c] [] (parse_forgiving_from 1 rest)
          else out [c] [WarnUnknownEscape c] (parse_forgiving_from 1 rest)
        end
      else out [c] (if is_whitespace c then [WarnUnescapedWhitespace] else [])
             (parse_forgiving_from 0 rest)
    end
  end.

Definition part_parse_forgiving_with_warning (input : list char) : EntityPathPart * list PathWarning :=
  parse_forgiving_from 0 input.
Definition part_parse_forgiving (input : list char) : EntityPathPart :=
  (part_parse_forgiving_with_warning input).1.

(** [Ord for EntityPathPart], over the natural ordering of strings. *)
Definition starts_with_str (prefix s : list char) : bool := bool_decide (take (length prefix) s = prefix).

Definition part_cmp (natural : list char -> list char -> comparison) (a b : EntityPathPart) : comparison :=
  match starts_with_str RESERVED_NAMESPACE_PREFIX a, starts_with_str RESERVED_NAMESPACE_PREFIX b with
  | false, true => Lt
  | true, false => Gt
  | _, _ => natural a b
  end.

(** ** Lemmas *)

(** A character [escaped_string] prints in a way [parse_strict] reads. *)
Definition escapable (c : char) : bool := is_char c && (is_alphanumeric c || (c <? 65536)).

Lemma skip_drop_strict n input : parse_strict_from n input = parse_strict_from 0 (drop n input).
Proof.
  revert n. induction input as [|c input IH]; by intros [|n]; simpl.
Qed.

Lemma skip_drop_forgiving n input : parse_forgiving_from n input = parse_forgiving_from 0 (drop n input).
Proof.
  revert n. induction input as [|c input IH]; by intros [|n]; simpl.
Qed.

Lemma not_alphanumeric_small c : 0 <= c < 128 -> is_ascii_alphanumeric c = false ->
  is_alphanumeric c = false.
Proof. intros Hc E. by rewrite is_alphanumeric_ascii. Qed.

(** The four hexadecimal digits of a character below U+10000. *)
Lemma fmt_04X_spec c : 0 <= c < 65536 ->
  length (fmt_04X c) = 4%nat /\ from_str_radix 16 4294967295 (fmt_04X c) = Some c /\
  Forall (fun d => exists k, 0 <= k < 16 /\ d = digit k) (fmt_04X c).
Proof.
  intros Hc. unfold fmt_04X.
  set (s := fmt_digits 8 16 c []).
  assert (Hs : Forall (fun d => exists k, 0 <= k < 16 /\ d = digit k) s).
  { apply fmt_digits_chars; [lia|eauto|constructor]. }
  assert (length s <= 4)%nat as Hlen.
  { unfold s. cbn [fmt_digits].
    assert (c / 16 / 16 / 16 / 16 = 0) by (Z.to_euclidean_division_equations; lia).
    repeat case_match; simpl; try lia; rewrite ?Z.eqb_neq in *; try lia. }
  assert (Hall : Forall (fun d => exists k, 0 <= k < 16 /\ d = digit k) (replicate (4 - length s) 48 ++ s)).
  { apply Forall_app; split; [|done]. apply Forall_replicate. by exists 0. }
  split_and!; [rewrite length_app, length_replicate; lia| |done].
  rewrite from_str_radix_digits.
  - rewrite from_digits_zeros by lia. apply from_digits_fmt; simpl; lia.
  - intros E. apply app_eq_nil in E as [_ E]. by apply fmt_digits_nonempty in E.
  - eapply Forall_impl; [done|]. intros d (k & Hk & ->). apply digit_not_plus. lia.
Qed.

(** A one-byte character that does not end an escape. *)
Definition escape_digit (d : char) : Prop := len_utf8 d = 1%nat /\ (d =? rbrace) = false.

Lemma digit_escape k : 0 <= k < 16 -> escape_digit (digit k).
Proof.
  intros Hk. unfold escape_digit, len_utf8, encode_utf8, digit, rbrace.
  destruct (Z.ltb_spec k 10); (split; [|lia]); case_match; try done;
    rewrite Z.ltb_ge in *; lia.
Qed.

Lemma take_unicode_escape_app ds len rest : Forall escape_digit ds -> (len + length ds < 6)%nat ->
  take_unicode_escape len (ds ++ rest) = ds ++ take_unicode_escape (len + length ds) rest.
Proof.
  intros Hds. revert len. induction Hds as [|d ds [Hd1 Hd2] _ IH]; intros len Hlen; simpl in *.
  { by rewrite Nat.add_0_r. }
  rewrite Hd1, Hd2. destruct (Nat.eqb_spec (len + 1) 6); [lia|]. cbn [orb].
  rewrite IH by lia. do 3 f_equal. lia.
Qed.

Lemma str_len_digits ds : Forall escape_digit ds -> str_len ds = length ds.
Proof.
  unfold str_len, as_bytes. induction 1 as [|d ds [Hd _] _ IH]; [done|].
  cbn [mbind list_bind]. rewrite length_app, IH. unfold len_utf8 in Hd. rewrite Hd. done.
Qed.

Lemma strip_suffix_snoc p s : strip_suffix_char p (s ++ [p]) = Some s.
Proof. unfold strip_suffix_char. rewrite rev_app_distr. simpl. by rewrite Z.eqb_refl, rev_involutive. Qed.

Lemma parse_unicode_escape_ok c rest : is_char c = true -> c < 65536 ->
  parse_unicode_escape ([lbrace] ++ fmt_04X c ++ [rbrace] ++ rest) = (Ok c, 6%nat).
Proof.
  intros Hc Hlt. assert (0 <= c) by (unfold is_char in Hc; lia).
  destruct (fmt_04X_spec c ltac:(lia)) as (Hlen & Hnum & Hdig).
  assert (Hesc : Forall escape_digit (fmt_04X c)).
  { eapply Forall_impl; [done|]. intros d (k & Hk & ->). by apply digit_escape. }
  unfold parse_unicode_escape.
  assert (take_unicode_escape 0 ([lbrace] ++ fmt_04X c ++ [rbrace] ++ rest)
          = lbrace :: fmt_04X c ++ [rbrace]) as ->.
  { cbn [app take_unicode_escape]. change (0 + len_utf8 lbrace)%nat with 1%nat.
    change ((lbrace =? rbrace) || (1 =? 6)%nat) with false. cbv iota.
    by rewrite take_unicode_escape_app by (done || lia). }
  cbn [strip_prefix_char]. rewrite Z.eqb_refl, strip_suffix_snoc, str_len_digits, Hlen, Hnum by done.
  unfold char_from_u32. rewrite Hc. cbn [Nat.eqb negb ok_or length].
  by rewrite length_app, Hlen.
Qed.

(** Five hexadecimal digits or more: the iterator stops before the closing brace. *)
Lemma fmt_digits_long c : 65536 <= c < 1114112 -> (5 <= length (fmt_digits 8 16 c []))%nat.
Proof.
  intros Hc.
  assert (c / 16 <> 0 /\ c / 16 / 16 <> 0 /\ c / 16 / 16 / 16 <> 0 /\ c / 16 / 16 / 16 / 16 <> 0)
    as (H1 & H2 & H3 & H4) by (split_and!; Z.to_euclidean_division_equations; lia).
  apply Z.eqb_neq in H1, H2, H3, H4. cbn [fmt_digits]. rewrite H1, H2, H3, H4.
  repeat case_match; simpl; lia.
Qed.

Lemma parse_unicode_escape_astral c rest : 65536 <= c < 1114112 ->
  parse_unicode_escape ([lbrace] ++ fmt_04X c ++ [rbrace] ++ rest)
  = (Err (lbrace :: take 5 (fmt_04X c)), 6%nat).
Proof.
  intros Hc. pose proof (fmt_digits_long c Hc) as Hlen.
  assert (fmt_04X c = fmt_digits 8 16 c []) as E.
  { unfold fmt_04X. by replace (4 - length _)%nat with 0%nat by lia. }
  assert (Hesc : Forall escape_digit (fmt_04X c)).
  { rewrite E. apply fmt_digits_chars; [lia|by intros; apply digit_escape|constructor]. }
  rewrite <- E in Hlen. clear E.
  destruct (fmt_04X c) as [|d0 [|d1 [|d2 [|d3 [|d4 ds]]]]]; simpl in Hlen; try lia. clear Hlen.
  assert (H4 : Forall escape_digit [d0; d1; d2; d3]) by (decompose_Forall_hyps; auto 10).
  assert (H5 : escape_digit d4) by (decompose_Forall_hyps; auto).
  unfold parse_unicode_escape.
  assert (take_unicode_escape 0 ([lbrace] ++ (d0 :: d1 :: d2 :: d3 :: d4 :: ds) ++ [rbrace] ++ rest)
          = [lbrace; d0; d1; d2; d3; d4]) as ->.
  { change ([lbrace] ++ (d0 :: d1 :: d2 :: d3 :: d4 :: ds) ++ [rbrace] ++ rest)
      with (lbrace :: ([d0; d1; d2; d3] ++ d4 :: (ds ++ [rbrace] ++ rest))).
    cbn [take_unicode_escape]. change (0 + len_utf8 lbrace)%nat with 1%nat.
    change ((lbrace =? rbrace) || (1 =? 6)%nat) with false. cbv iota.
    rewrite take_unicode_escape_app by (done || (simpl; lia)). cbn [length Nat.add].
    cbn [take_unicode_escape]. rewrite (proj1 H5). simpl. by rewrite orb_true_r. }
  cbn [strip_prefix_char]. rewrite Z.eqb_refl. unfold strip_suffix_char. cbn [rev app].
  by rewrite (proj2 H5).
Qed.

(** ** Escaping and parsing a part *)

Lemma alphanumeric_not_small c : 0 <= c < 128 -> is_ascii_alphanumeric c = false ->
  is_alphanumeric c || is_plain_punctuation c = is_plain_punctuation c.
Proof. intros Hc E. by rewrite is_alphanumeric_ascii, E. Qed.

Lemma escape_app c rest :
  ([backslash; c_u; lbrace] ++ fmt_04X c ++ [rbrace]) ++ rest
  = backslash :: c_u :: ([lbrace] ++ fmt_04X c ++ [rbrace] ++ rest).
Proof. by rewrite <- !app_assoc. Qed.

Lemma parse_strict_u after :
  parse_strict_from 0 (backslash :: c_u :: after)
  = (let (r, n) := parse_unicode_escape after in
     match r with
     | Ok c => push c (parse_strict_from n after)
     | Err s => Err (InvalidUnicodeEscape s)
     end).
Proof. done. Qed.

(** One escaped character is read back as itself, whatever follows. *)
Lemma parse_escaped_char c rest : escapable c = true ->
  parse_strict_from 0 (escaped_char c ++ rest) = push c (parse_strict_from 0 rest).
Proof.
  unfold escapable. rewrite andb_true_iff. intros [Hc He]. unfold escaped_char.
  destruct (is_alphanumeric c || is_plain_punctuation c) eqn:Eplain.
  { cbn [app parse_strict_from]. destruct (Z.eqb_spec c backslash) as [->|].
    - by rewrite alphanumeric_not_small in Eplain by (done || (unfold backslash; lia)).
    - by rewrite Eplain. }
  destruct (Z.eqb_spec c c_newline) as [->|]; [cbn; by rewrite skip_drop_strict|].
  destruct (Z.eqb_spec c c_return) as [->|]; [cbn; by rewrite skip_drop_strict|].
  destruct (Z.eqb_spec c c_tab) as [->|]; [cbn; by rewrite skip_drop_strict|].
  destruct (is_ascii_punctuation c || (c =? space)) eqn:Ep.
  { cbn [app parse_strict_from]. rewrite Z.eqb_refl.
    assert (forall x, x = c_n \/ x = c_r \/ x = c_t \/ x = c_u -> (c =? x) = false) as Hx.
    { intros x Hx. apply Z.eqb_neq. intros ->.
      destruct Hx as [->|[->|[->| ->]]]; done. }
    rewrite !Hx by auto 6. rewrite Ep. by rewrite skip_drop_strict. }
  apply orb_false_iff in Eplain as [Ea _]. rewrite Ea in He. simpl in He. apply Z.ltb_lt in He.
  rewrite escape_app, parse_strict_u. rewrite parse_unicode_escape_ok by done.
  destruct (fmt_04X_spec c ltac:(unfold is_char in Hc; lia)) as (Hlen & _).
  f_equal. rewrite skip_drop_strict. f_equal.
  cbn [app drop]. rewrite drop_app_ge by lia. by rewrite Hlen.
Qed.

(** The others are printed with an escape that is too long to be read. *)
Lemma parse_escaped_astral c rest : is_char c = true -> escapable c = false ->
  parse_strict_from 0 (escaped_char c ++ rest)
  = Err (InvalidUnicodeEscape (lbrace :: take 5 (fmt_04X c))).
Proof.
  unfold escapable. intros Hc. rewrite Hc. simpl. rewrite orb_false_iff, Z.ltb_ge. intros [Ea Hge].
  assert (Hlt : c < 1114112) by (unfold is_char in Hc; lia).
  unfold escaped_char. rewrite Ea.
  assert (is_plain_punctuation c = false) as -> by (unfold is_plain_punctuation; lia).
  assert (forall x, x < 128 -> (c =? x) = false) as Hx by lia.
  rewrite !Hx by (unfold c_newline, c_return, c_tab, space; lia).
  assert (is_ascii_punctuation c = false) as -> by (unfold is_ascii_punctuation; lia).
  cbn [orb].
  rewrite escape_app, parse_strict_u. by rewrite parse_unicode_escape_astral by lia.
Qed.

Lemma escaped_string_cons c s : escaped_string (c :: s) = escaped_char c ++ escaped_string s.
Proof. done. Qed.

Lemma part_roundtrip_ok s : Forall (fun c => is_char c = true) s ->
  part_parse_strict (escaped_string s) = Ok s <-> Forall (fun c => escapable c = true) s.
Proof.
  unfold part_parse_strict. induction 1 as [|c s Hc _ IH]; [by split|].
  rewrite escaped_string_cons, Forall_cons. destruct (escapable c) eqn:E.
  - rewrite parse_escaped_char by done. destruct (parse_strict_from 0 _) as [s'|e].
    + simpl. split; [intros [= ->]; split; [done|by apply IH]|].
      intros [_ Hs]. apply IH in Hs. by injection Hs as ->.
    + split; [done|]. intros [_ Hs]. by apply IH in Hs.
  - rewrite parse_escaped_astral by done. split; [done|]. by intros [? _].
Qed.

(** The forgiving parser agrees with the strict one where that one succeeds. *)
Lemma forgiving_agrees skip input s : parse_strict_from skip input = Ok s ->
  (parse_forgiving_from skip input).1 = s.
Proof.
  revert skip s. induction input as [|c rest IH]; intros [|skip] s Hs; simpl in *;
    try (by injection Hs); [|by apply IH].
  assert (Hpush : forall k (x : char), push x (parse_strict_from k rest) = Ok s ->
    x :: (parse_forgiving_from k rest).1 = s).
  { intros k x Hk. destruct (parse_strict_from k rest) as [s'|] eqn:E; [|done].
    injection Hk as <-. f_equal. by apply IH. }
  destruct (c =? backslash).
  - destruct rest as [|c' after]; [done|].
    repeat (case_match; try done; try by apply Hpush).
    all: by apply (Hpush (S _)).
  - case_match; [|done]. by apply Hpush.
Qed.

(** ** Properties *)

(** Escaping a part and parsing it strictly gives the part back exactly when every
    character is alphanumeric or below U+10000; the others are printed with five or six
    hexadecimal digits, which the parser rejects, and the forgiving parser then returns
    another part. *)
Lemma part_roundtrip s : Forall (fun c => is_char c = true) s ->
  (part_parse_strict (escaped_string s) = Ok s <-> Forall (fun c => escapable c = true) s) /\
  (Forall (fun c => escapable c = true) s -> part_parse_forgiving (escaped_string s) = s) /\
  (Forall (fun c => escapable c = true) s \/
   exists e, part_parse_strict (escaped_string s) = Err (InvalidUnicodeEscape e)).
Proof.
  intros Hs. split; [by apply part_roundtrip_ok|]. split.
  { intros He. by apply forgiving_agrees, part_roundtrip_ok. }
  unfold part_parse_strict. induction Hs as [|c s Hc _ IH]; [by left|].
  rewrite escaped_string_cons. destruct (escapable c) eqn:E.
  - rewrite parse_escaped_char by done. destruct IH as [IH|[e ->]]; [left; by constructor|].
    right. by exists e.
  - right. rewrite parse_escaped_astral by done. eauto.
Qed.
End Parsing.

#[local] Existing Instance latin_tables.

(** ["Hello world!"] and the crab U+1F980, at the Latin tables. *)
Lemma part_roundtrip_witness :
  part_parse_strict (lit "Hello\ world\!") = Ok (lit "Hello world!") /\
  part_parse_strict (escaped_string [129408]) <> Ok [129408].
Proof.
  split.
  - apply (proj1 (part_roundtrip (lit "Hello world!")
      ltac:(repeat constructor))). repeat constructor.
  - intros E. apply (proj1 (part_roundtrip [129408] ltac:(repeat constructor))) in E.
    inversion E. discriminate.
Defined.

(** What the forgiving parser makes of the crab: the nine characters of its escape. *)
Example forgiving_crab :
  part_parse_forgiving (escaped_string [129408])
  = lit "\u{1F980}".
Proof. vm_compute. reflexivity. Qed.
