(* ===== verification/EntityPath.v ===== *)
(** * Entity paths

    [src/crates/store/dl_log_types/src/path/entity_path.rs]: a path is its list of parts
    with a precomputed 64-bit hash.  Equality compares the hashes only, and [starts_with]
    uses them as a shortcut; the hash function (a third-party one) is the interface
    [PathHash], and the theorems say which collision-freedom they need. *)

From S2P Require Import Prelude Ints Text EntityPathPart.

(** [Hash64::hash] of the parts.  The source's is a [u64]; it is any number here, so that the
    theorems may assume that no two paths have the same hash, which of 64 bits can only hold of
    the paths that a program meets. *)
Class PathHash := Hash64_hash : list (list char) -> Z.

Record EntityPath := mkEntityPath {
  hash : Z;
  parts : list (list char);
}.

Section Paths.
Context `{U : UnicodeTables} `{HP : PathHash}.

(** [From<Vec<EntityPathPart>>], the only constructor. *)
Definition from_parts (path : list (list char)) : EntityPath := mkEntityPath (Hash64_hash path) path.

Definition root : EntityPath := from_parts [].
Definition properties : EntityPath := from_parts [PROPERTIES_PART].

(** [PartialEq]. *)
Definition path_eq (a b : EntityPath) : bool := hash a =? hash b.

Definition path_len (self : EntityPath) : nat := length (parts self).
Definition is_root (self : EntityPath) : bool := (path_len self =? 0)%nat.

Definition is_reserved (self : EntityPath) : bool :=
  match parts self with
  | [] => false
  | part :: _ => starts_with_str RESERVED_NAMESPACE_PREFIX part
  end.

(** [zip(self.iter(), prefix.iter()).all(|(a, b)| a == b)]. *)
Definition zip_all_eq (self prefix : list (list char)) : bool :=
  forallb (fun '(a, b) => bool_decide (a = b)) (combine self prefix).

Definition starts_with (self prefix : EntityPath) : bool :=
  if hash self =? hash prefix then true
  else (path_len prefix <=? path_len self)%nat && zip_all_eq (parts self) (parts prefix).

(** [&self.parts[prefix.len()..]] panics when the prefix is longer, which a hash collision
    makes possible. *)
Definition strip_prefix (self prefix : EntityPath) : outcome (option EntityPath) :=
  if starts_with self prefix then
    if (path_len prefix <=? path_len self)%nat
    then Done (Some (from_parts (drop (path_len prefix) (parts self))))
    else Panic
  else Done None.

Definition is_descendant_of (self other : EntityPath) : bool :=
  (path_len other <? path_len self)%nat && zip_all_eq (parts self) (parts other).

Definition is_child_of (self other : EntityPath) : bool :=
  (path_len other + 1 =? path_len self)%nat && zip_all_eq (parts self) (parts other).

Definition is_property (self : EntityPath) : bool := starts_with self properties.

Definition parent (self : EntityPath) : option EntityPath :=
  match path_len self with
  | O => None
  | S n_minus_1 => Some (from_parts (take n_minus_1 (parts self)))
  end.

Definition join (self other : EntityPath) : EntityPath := from_parts (parts self ++ parts other).

Definition incremental_walk (start : option EntityPath) (end_ : EntityPath) : list EntityPath :=
  if match start with None => true | Some start => is_descendant_of end_ start end then
    let first_ind := match start with None => 0%nat | Some start => (path_len start + 1)%nat end in
    (fun i => from_parts (take i (parts end_))) <$> seq first_ind (path_len end_ + 1 - first_ind)
  else [].

Fixpoint common_prefix (a b : list (list char)) : list (list char) :=
  match a, b with
  | x :: a, y :: b => if bool_decide (x = y) then x :: common_prefix a b else []
  | _, _ => []
  end.
Definition common_ancestor (self other : EntityPath) : EntityPath :=
  from_parts (common_prefix (parts self) (parts other)).

Definition common_ancestor_of (entities : list EntityPath) : EntityPath :=
  match entities with
  | [] => root
  | first :: entities => foldl common_ancestor first entities
  end.

(** [Display]. *)
Definition to_string (self : EntityPath) : list char :=
  if is_root self then lit "/" else parts self ≫= (fun comp => lit "/" ++ escaped_string comp).

Definition ui_string (self : EntityPath) : list char :=
  if is_root self then lit "/" else parts self ≫= (fun part => lit "/" ++ part).

(** ** Lemmas *)

(** Every path is built by [from_parts]. *)
Definition wf_path (p : EntityPath) : Prop := hash p = Hash64_hash (parts p).

(** The two paths do not collide. *)
Definition no_collision (a b : EntityPath) : Prop := hash a = hash b -> parts a = parts b.

Lemma wf_from_parts ps : wf_path (from_parts ps).
Proof. done. Qed.

Lemma zip_all_eq_spec self prefix : (length prefix <= length self)%nat ->
  zip_all_eq self prefix = true <-> prefix `prefix_of` self.
Proof.
  unfold zip_all_eq. revert self. induction prefix as [|b prefix IH]; intros [|a self] Hlen;
    simpl in *; try lia; try (split; [intros; apply prefix_nil|done]).
  rewrite andb_true_iff, bool_decide_eq_true, IH by lia. split.
  - intros [-> Hp]. by apply prefix_cons.
  - intros [k Hk]. injection Hk as -> ->. split; [done|by exists k].
Qed.

Lemma starts_with_ok self prefix : wf_path self -> wf_path prefix -> no_collision self prefix ->
  starts_with self prefix = true <-> parts prefix `prefix_of` parts self.
Proof.
  unfold wf_path, no_collision, starts_with, path_len. intros Hs Hp Hc.
  destruct (Z.eqb_spec (hash self) (hash prefix)) as [E|E].
  - rewrite (Hc E). done.
  - rewrite andb_true_iff, Nat.leb_le. split.
    + intros [Hl Hz]. by apply zip_all_eq_spec.
    + intros Hpre. pose proof (prefix_length _ _ Hpre). split; [done|by apply zip_all_eq_spec].
Qed.

Lemma is_descendant_of_ok self other :
  is_descendant_of self other = true <->
  parts other `prefix_of` parts self /\ (length (parts other) < length (parts self))%nat.
Proof.
  unfold is_descendant_of, path_len. rewrite andb_true_iff, Nat.ltb_lt. split.
  - intros [Hl Hz]. split; [by apply zip_all_eq_spec; [lia|]|done].
  - intros [Hp Hl]. split; [done|by apply zip_all_eq_spec; [lia|]].
Qed.

Lemma is_child_of_ok self other :
  is_child_of self other = true <-> exists part, parts self = parts other ++ [part].
Proof.
  unfold is_child_of, path_len. rewrite andb_true_iff, Nat.eqb_eq. split.
  - intros [Hl Hz]. apply zip_all_eq_spec in Hz as [k Hk]; [|lia].
    rewrite Hk, length_app in Hl. destruct k as [|part [|]]; simpl in Hl; try lia. by exists part.
  - intros [part E]. rewrite E, length_app. split; [simpl; lia|].
    apply zip_all_eq_spec; [rewrite length_app; simpl; lia|]. by exists [part].
Qed.

Lemma common_prefix_spec a b :
  common_prefix a b `prefix_of` a /\ common_prefix a b `prefix_of` b /\
  forall c, c `prefix_of` a -> c `prefix_of` b -> c `prefix_of` common_prefix a b.
Proof.
  revert b. induction a as [|x a IH]; intros [|y b]; simpl;
    try (split_and!; try apply prefix_nil; intros c Ha Hb; done).
  case_bool_decide as E.
  - subst y. destruct (IH b) as (Ha & Hb & Hc). split_and!; try by apply prefix_cons.
    intros [|z c] Hca Hcb; [apply prefix_nil|].
    pose proof (prefix_cons_inv_1 _ _ _ _ Hca) as ->.
    apply prefix_cons_inv_2 in Hca, Hcb. by apply prefix_cons, Hc.
  - split_and!; try apply prefix_nil. intros [|z c] Hca Hcb; [apply prefix_nil|].
    apply prefix_cons_inv_1 in Hca, Hcb. congruence.
Qed.

Lemma prefix_of_take (p l : list (list char)) : p `prefix_of` l -> p = take (length p) l.
Proof. intros [k ->]. by rewrite take_app_length. Qed.

Lemma take_child i (l : list (list char)) : (i < length l)%nat ->
  exists part, take (S i) l = take i l ++ [part].
Proof.
  intros Hi. destruct (lookup_lt_is_Some_2 l i Hi) as [x Hx]. exists x. by apply take_S_r.
Qed.

Definition walk_first (start : option EntityPath) : nat :=
  match start with None => 0%nat | Some start => S (path_len start) end.

Lemma incremental_walk_eq start end_ :
  match start with None => True | Some start => is_descendant_of end_ start = true end ->
  incremental_walk start end_
  = (fun i => from_parts (take i (parts end_))) <$>
      seq (walk_first start) (S (path_len end_) - walk_first start).
Proof.
  unfold incremental_walk, walk_first. intros H. destruct start as [start|].
  - rewrite H, !Nat.add_1_r. done.
  - by rewrite Nat.add_1_r.
Qed.

Lemma incremental_walk_elem start end_ p : wf_path p ->
  p ∈ incremental_walk start end_ <->
     parts p `prefix_of` parts end_ /\
     match start with
     | None => True
     | Some start => parts start `prefix_of` parts p /\ parts start <> parts p
     end.
Proof.
  intros Hp. assert (Hp' : p = from_parts (parts p)) by (destruct p; unfold wf_path in Hp; simpl in *; by subst).
  assert (Hin : forall n, p ∈ ((fun i => from_parts (take i (parts end_))) <$>
      seq n (S (path_len end_) - n)) <->
      parts p `prefix_of` parts end_ /\ (n <= length (parts p))%nat).
  { intros n. rewrite list_elem_of_fmap. setoid_rewrite elem_of_seq. unfold path_len. split.
    - intros (i & -> & Hi). simpl. split; [|rewrite length_take; lia].
      exists (drop i (parts end_)). by rewrite take_drop.
    - intros [Hpre Hn]. exists (length (parts p)). rewrite <- (prefix_of_take _ _ Hpre).
      apply prefix_length in Hpre. split; [done|lia]. }
  destruct start as [start|].
  - destruct (is_descendant_of end_ start) eqn:E.
    + rewrite incremental_walk_eq by done. simpl. rewrite Hin. apply is_descendant_of_ok in E as [Es El].
      split; intros [Hpre Hrest]; (split; [done|]); unfold path_len in *.
      * split; [|intros Eq; rewrite Eq in Hrest; lia].
        destruct (prefix_weak_total _ _ _ Es Hpre) as [|[k Hk]]; [done|].
        rewrite Hk, length_app in Hrest. lia.
      * destruct Hrest as [[k Hk] Hne]. rewrite Hk, length_app. destruct k; simpl; [|lia].
        by rewrite app_nil_r in Hk.
    + unfold incremental_walk. rewrite E. split; [by rewrite elem_of_nil|].
      intros [Hpre [Hs Hne]]. exfalso. apply not_true_iff_false in E. apply E, is_descendant_of_ok.
      split; [by etrans|]. destruct Hs as [k Hk]. apply prefix_length in Hpre.
      rewrite Hk, length_app in Hpre. rewrite Hk in Hne. destruct k; simpl in *; [by rewrite app_nil_r in Hne|lia].
  - rewrite incremental_walk_eq by done. etrans; [apply (Hin 0%nat)|]. naive_solver lia.
Qed.

Lemma incremental_walk_step start end_ i p q :
  incremental_walk start end_ !! i = Some p -> incremental_walk start end_ !! S i = Some q ->
  is_child_of q p = true.
Proof.
  assert (Hstep : forall n k, ((fun i => from_parts (take i (parts end_))) <$> seq n k) !! i = Some p ->
    ((fun i => from_parts (take i (parts end_))) <$> seq n k) !! S i = Some q ->
    (n + k <= S (path_len end_))%nat -> is_child_of q p = true).
  { intros n k Hi Hj Hk. rewrite list_lookup_fmap in Hi, Hj.
    apply fmap_Some in Hi as (a & Ha & ->). apply fmap_Some in Hj as (b & Hb & ->).
    apply lookup_seq in Ha as [-> _]. apply lookup_seq in Hb as [-> Hb].
    apply is_child_of_ok. simpl. rewrite Nat.add_succ_r. apply take_child.
    unfold path_len in Hk. lia. }
  unfold incremental_walk. case_match; [|done]. intros Hi Hj. eapply Hstep; eauto.
  apply list_elem_of_lookup_2, list_elem_of_fmap in Hj as (j & _ & Hj%elem_of_seq). lia.
Qed.

Lemma common_ancestor_fold es acc :
  parts (foldl common_ancestor acc es) `prefix_of` parts acc /\
  (forall e, e ∈ es -> parts (foldl common_ancestor acc es) `prefix_of` parts e) /\
  (forall c, c `prefix_of` parts acc -> (forall e, e ∈ es -> c `prefix_of` parts e) ->
     c `prefix_of` parts (foldl common_ancestor acc es)).
Proof.
  revert acc. induction es as [|e es IH]; intros acc; simpl.
  { split_and!; [done|intros e He; by apply elem_of_nil in He|done]. }
  destruct (IH (common_ancestor acc e)) as (H1 & H2 & H3).
  destruct (common_prefix_spec (parts acc) (parts e)) as (Ha & He & Hmax). split_and!.
  - by etrans.
  - intros e' [->|He']%elem_of_cons; [by etrans|by apply H2].
  - intros c Hc Hall. apply H3; [apply Hmax; [done|]|]; [apply Hall; left|].
    intros e' He'. apply Hall. by right.
Qed.

(** ** Properties *)

(** The hierarchy of paths: up to a hash collision between the two paths, [starts_with]
    is the prefix order on the parts; [strip_prefix] does not panic and undoes [join];
    [is_descendant_of] is the strict prefix order and [is_child_of] one step of it;
    [parent] removes the last part, and fails on the root only. *)
Lemma path_hierarchy_spec self other : wf_path self -> wf_path other -> no_collision self other ->
  (starts_with self other = true <-> parts other `prefix_of` parts self) /\
  (forall rest, parts self = parts other ++ rest <->
     strip_prefix self other = Done (Some (from_parts rest)) ) /\
  strip_prefix self other <> Panic /\
  (is_descendant_of self other = true <->
     parts other `prefix_of` parts self /\ parts self <> parts other) /\
  (is_child_of self other = true <-> exists part, parts self = parts other ++ [part]) /\
  (parent self = None <-> parts self = []) /\
  (forall p, parent self = Some p -> wf_path p /\ is_child_of self p = true).
Proof.
  intros Hs Ho Hc. pose proof (starts_with_ok self other Hs Ho Hc) as Hsw.
  split; [done|]. split; [|split; [|split; [|split; [|split]]]].
  - intros rest. unfold strip_prefix, path_len. split.
    + intros E. rewrite (proj2 Hsw) by (rewrite E; by eexists).
      rewrite E, length_app, drop_app_length.
      by rewrite (proj2 (Nat.leb_le _ _)) by lia.
    + destruct (starts_with self other) eqn:E; [|done].
      destruct (proj1 Hsw eq_refl) as [k Ek]. rewrite Ek, length_app, drop_app_length.
      rewrite (proj2 (Nat.leb_le _ _)) by lia. intros [= Hh ->]. done.
  - unfold strip_prefix, path_len. destruct (starts_with self other) eqn:E; [|done].
    pose proof (prefix_length _ _ (proj1 Hsw eq_refl)). by rewrite (proj2 (Nat.leb_le _ _)) by lia.
  - rewrite is_descendant_of_ok. split; intros [Hp Hne]; (split; [done|]).
    + intros E. rewrite E in Hne. lia.
    + destruct Hp as [k Hk]. rewrite Hk, length_app. destruct k; simpl; [|lia].
      by rewrite app_nil_r in Hk.
  - apply is_child_of_ok.
  - unfold parent, path_len. by destruct (parts self).
  - intros p. unfold parent, path_len. destruct (length (parts self)) as [|n] eqn:E; [done|].
    intros [= <-]. split; [done|]. apply is_child_of_ok. simpl.
    destruct (parts self) as [|a ps] eqn:Ep using rev_ind; [done|]. clear IHps.
    rewrite length_app in E. simpl in E. replace n with (length ps) by lia.
    rewrite take_app_length. by exists a.
Qed.

(** The walks up the tree: [incremental_walk] lists, from the child of the start (or the
    root) to the end, every path that is a prefix of the end and below the start, each the
    parent of the next; the common ancestor of a list is a prefix of every member and the
    longest one that is. *)
Lemma path_walk_spec start end_ :
  (forall p, wf_path p -> (p ∈ incremental_walk start end_ <->
     parts p `prefix_of` parts end_ /\
     match start with
     | None => True
     | Some start => parts start `prefix_of` parts p /\ parts start <> parts p
     end)) /\
  (forall i p q, incremental_walk start end_ !! i = Some p ->
     incremental_walk start end_ !! S i = Some q -> is_child_of q p = true) /\
  (forall es, es <> [] ->
     (forall e, e ∈ es -> parts (common_ancestor_of es) `prefix_of` parts e) /\
     (forall c, (forall e, e ∈ es -> c `prefix_of` parts e) -> c `prefix_of` parts (common_ancestor_of es))).
Proof.
  split; [intros p Hp; by apply incremental_walk_elem|]. split; [apply incremental_walk_step|].
  intros [|e es] Hes; [done|]. simpl. destruct (common_ancestor_fold es e) as (H1 & H2 & H3). split.
  - intros e' [->|He]%elem_of_cons; [done|by apply H2].
  - intros c Hc. apply H3; [apply Hc; left|]. intros e' He. apply Hc. by right.
Qed.
End Paths.

#[local] Instance length_hash : PathHash := fun ps => Z.of_nat (length ps).

Lemma path_hierarchy_spec_witness :
  let world := from_parts [lit "world"] in let robot := from_parts [lit "world"; lit "robot"] in
  starts_with robot world = true /\ is_child_of robot world = true.
Proof.
  intros world robot.
  destruct (path_hierarchy_spec robot world eq_refl eq_refl) as (H1 & _ & _ & _ & H5 & _).
  { intros E. discriminate E. }
  split; [apply H1; by exists [lit "robot"]|apply H5; by exists (lit "robot")].
Defined.

Lemma path_walk_spec_witness :
  let world := from_parts [lit "world"] in let robot := from_parts [lit "world"; lit "robot"] in
  robot ∈ incremental_walk (Some world) robot /\
  parts (common_ancestor_of [robot; world]) `prefix_of` parts world.
Proof.
  intros world robot.
  destruct (path_walk_spec (Some world) robot) as (H1 & _ & H3).
  split.
  - apply H1; [reflexivity|]. split; [by exists []|]. split; [by exists [lit "robot"]|discriminate].
  - destruct (H3 [robot; world]) as [Ha _]; [discriminate|]. apply Ha. repeat constructor.
Defined.
