(* ===== verification/ParsePath.v ===== *)
(** * Parsing and printing paths

    [src/crates/store/dl_log_types/src/path/parse_path.rs], with [DataPath] and
    [ComponentPath] of [data_path.rs] and [component_path.rs]: the byte tokenizer, the strict
    parsers, the forgiving parser with its global cache, and the printers. *)

From S2P Require Import Prelude Ints Text EntityPathPart EntityPath.

(** ** Tokens *)

(** The inner loop of [tokenize_by]: the number of bytes before the next special byte that
    does not follow a backslash. *)
Fixpoint scan_token (special_chars : list Z) (is_in_escape : bool) (bytes : list Z) : nat :=
  match bytes with
  | [] => 0
  | b :: bytes =>
    if negb is_in_escape && bool_decide (b ∈ special_chars) then 0
    else S (scan_token special_chars (b =? backslash) bytes)
  end.

(** The outer loop; the fuel is the number of bytes, and every turn takes at least one. *)
Fixpoint tokenize_loop (fuel : nat) (special_chars : list Z) (bytes : list Z) : list (list Z) :=
  match bytes, fuel with
  | [], _ => []
  | _, O => []
  | _, S fuel =>
    let i := scan_token special_chars false bytes in
    let i := if (i =? 0)%nat then 1%nat else i in
    take i bytes :: tokenize_loop fuel special_chars (drop i bytes)
  end.

Definition tokenize_bytes (special_chars bytes : list Z) : list (list Z) :=
  tokenize_loop (length bytes) special_chars bytes.

(** The [unwrap] of [from_utf8] on every token. *)
Fixpoint unwrap_utf8 (tokens : list (list Z)) : outcome (list (list char)) :=
  match tokens with
  | [] => Done []
  | token :: tokens =>
    match from_utf8 token, unwrap_utf8 tokens with
    | Some s, Done ss => Done (s :: ss)
    | _, _ => Panic
    end
  end.

Definition tokenize_by (path : list char) (special_chars : list Z) : outcome (list (list char)) :=
  unwrap_utf8 (tokenize_bytes special_chars (as_bytes path)).

Definition entity_special : list Z := lit "/".
Definition data_special : list Z := lit "/[]:#".
Definition tokenize_entity_path (path : list char) := tokenize_by path entity_special.
Definition tokenize_data_path (path : list char) := tokenize_by path data_special.

Definition slash : list char := lit "/".
Definition colon : list char := lit ":".
Definition lbracket : list char := lit "[".
Definition rbracket : list char := lit "]".

Definition join_tokens (tokens : list (list char)) : list char := concat tokens.

(** [dl_format::format_uint] and [Display for Instance]. *)
Definition THIN_SPACE : char := 8201.
Fixpoint group_thousands (rev_digits : list char) : list char :=
  match rev_digits with
  | a :: b :: c :: rest =>
    a :: b :: c :: match rest with [] => [] | _ => THIN_SPACE :: group_thousands rest end
  | l => l
  end.
Definition add_thousands_separators (number : list char) : list char :=
  rev (group_thousands (rev number)).
Definition format_uint (number : Z) : list char := add_thousands_separators (fmt_u64 number).

Definition instance_ALL : Z := u64_max.

Record DataPath := mkDataPath {
  entity_path : EntityPath;
  dp_instance : option Z;
  dp_component : option (list char);
}.

Section Parse.
Context `{U : UnicodeTables} `{HP : PathHash}.

(** The loop of [entity_path_parts_from_tokens_strict], at [token] with [tokens] after it. *)
Fixpoint parts_loop (token : list char) (tokens : list (list char))
    : result (list (list char)) PathParseError :=
  if bool_decide (token = slash) then Err DoubleSlash else
  match part_parse_strict token with
  | Err e => Err e
  | Ok part =>
    match tokens with
    | [] => Ok [part]
    | next_token :: tokens =>
      if bool_decide (next_token = slash) then
        match tokens with
        | [] => Err TrailingSlash
        | token :: tokens =>
          match parts_loop token tokens with
          | Ok parts => Ok (part :: parts)
          | Err e => Err e
          end
        end
      else Err MissingSlash
    end
  end.

Definition entity_path_parts_from_tokens_strict (tokens : list (list char))
    : result (list (list char)) PathParseError :=
  match tokens with
  | [] => Err MissingPath
  | first :: rest =>
    if bool_decide (first = slash) then
      match rest with
      | [] => Ok []
      | token :: tokens => parts_loop token tokens
      end
    else parts_loop first rest
  end.

(** [iter().position(|token| token == t)]. *)
Definition token_position (t : list char) (tokens : list (list char)) : option nat :=
  fst <$> list_find (fun token => token = t) tokens.

Definition parse_component (tokens : list (list char))
    : result (option (list char) * list (list char)) PathParseError :=
  match token_position colon tokens with
  | None => Ok (None, tokens)
  | Some first_colon =>
    let component_tokens := drop (S first_colon) tokens in
    if match last component_tokens with None => true | Some t => bool_decide (t = colon) end
    then Err TrailingColon
    else
      let field := join_tokens component_tokens in
      (* [ComponentIdentifier::try_new] rejects the empty string *)
      match field with
      | [] => Err InvalidComponentIdentifier
      | _ => Ok (Some field, take first_colon tokens)
      end
  end.

Definition parse_instance (tokens : list (list char))
    : result (option Z * list (list char)) PathParseError :=
  match token_position lbracket tokens with
  | None => Ok (None, tokens)
  | Some bracket =>
    let instance_tokens := drop bracket tokens in
    if negb (length instance_tokens =? 4)%nat || negb (bool_decide (last instance_tokens = Some rbracket))
    then Err (BadInstance (join_tokens instance_tokens))
    else
      let nr := default [] (instance_tokens !! 2%nat) in
      match u64_from_str nr with
      | Some n => Ok (Some n, take bracket tokens)
      | None => Err (BadInstance nr)
      end
  end.

Definition data_path_of_tokens (tokens : list (list char)) : result DataPath PathParseError :=
  match parse_component tokens with
  | Err e => Err e
  | Ok (component, tokens) =>
    match parse_instance tokens with
    | Err e => Err e
    | Ok (instance, tokens) =>
      match entity_path_parts_from_tokens_strict tokens with
      | Err e => Err e
      | Ok parts => Ok (mkDataPath (from_parts parts) instance component)
      end
    end
  end.

(** [DataPath::from_str]. *)
Definition data_path_from_str (path : list char) : outcome (result DataPath PathParseError) :=
  match path with
  | [] => Done (Err EmptyString)
  | _ =>
    match tokenize_data_path path with
    | Panic => Panic
    | Done tokens => Done (data_path_of_tokens tokens)
    end
  end.

(** [EntityPath::parse_strict]. *)
Definition path_parse_strict (input : list char) : outcome (result EntityPath PathParseError) :=
  r ← data_path_from_str input;
  Done match r with
  | Err e => Err e
  | Ok dp =>
    match dp_instance dp, dp_component dp with
    | Some instance, _ => Err (UnexpectedInstance instance)
    | _, Some component => Err (UnexpectedComponent component)
    | _, _ => Ok (entity_path dp)
    end
  end.

(** [ComponentPath::from_str]. *)
Definition component_path_from_str (s : list char)
    : outcome (result (EntityPath * list char) PathParseError) :=
  r ← data_path_from_str s;
  Done match r with
  | Err e => Err e
  | Ok dp =>
    match dp_instance dp, dp_component dp with
    | Some instance, _ => Err (UnexpectedInstance instance)
    | _, None => Err MissingComponentIdentifier
    | _, Some component => Ok (entity_path dp, component)
    end
  end.

(** [EntityPath::parse_forgiving] without the cache: the path and the warnings. *)
Definition path_parse_forgiving_uncached (input : list char) : outcome (EntityPath * list PathWarning) :=
  tokens ← tokenize_entity_path input;
  let parsed := part_parse_forgiving_with_warning <$> filter (fun part => part <> slash) tokens in
  Done (from_parts (parsed.*1), parsed.*2 ≫= id).

(** [Display]. *)
Definition data_path_to_string (self : DataPath) : list char :=
  to_string (entity_path self)
  ++ match dp_instance self with
     | Some instance =>
       if instance =? instance_ALL then [] else lit "[#" ++ format_uint instance ++ rbracket
     | None => []
     end
  ++ match dp_component self with Some component => colon ++ component | None => [] end.
Definition component_path_to_string (self : EntityPath * list char) : list char :=
  to_string self.1 ++ colon ++ self.2.
End Parse.

(** [FORGIVING_PARSE_CACHE], keyed by the hash of the input string. *)
Class StringHash := str_hash : list char -> Z.

Definition path_parse_forgiving `{UnicodeTables, PathHash, StringHash}
    (cache : gmap Z EntityPath) (input : list char) : outcome (EntityPath * gmap Z EntityPath) :=
  let string_hash := str_hash input in
  match cache !! string_hash with
  | Some cached => Done (cached, cache)
  | None =>
    r ← path_parse_forgiving_uncached input;
    Done (r.1, <[string_hash := r.1]> cache)
  end.

(** ** The tokenizer *)

Section Tokenizer.
Variable special : list Z.

Lemma scan_token_le esc l : (scan_token special esc l <= length l)%nat.
Proof.
  revert esc. induction l as [|b l IH]; intros esc; simpl; [lia|].
  case_match; [lia|]. specialize (IH (b =? backslash)). lia.
Qed.

Definition token_length (l : list Z) : nat :=
  let i := scan_token special false l in if (i =? 0)%nat then 1%nat else i.

Lemma token_length_pos l : l <> [] -> (1 <= token_length l <= length l)%nat.
Proof.
  intros Hl. unfold token_length. pose proof (scan_token_le false l).
  destruct (Nat.eqb_spec (scan_token special false l) 0); [|lia].
  destruct l; [done|]. simpl. lia.
Qed.

Lemma tokenize_loop_fuel fuel l : (length l <= fuel)%nat ->
  tokenize_loop fuel special l = tokenize_bytes special l.
Proof.
  unfold tokenize_bytes.
  enough (forall n fuel l, (length l <= n)%nat -> (length l <= fuel)%nat ->
    tokenize_loop fuel special l = tokenize_loop (length l) special l) by eauto.
  clear. induction n as [|n IH]; intros fuel l Hn Hf; [destruct l; [by destruct fuel|simpl in *; lia]|].
  destruct l as [|b l']; [by destruct fuel|]. destruct fuel as [|fuel]; [simpl in Hf; lia|].
  pose proof (token_length_pos (b :: l') ltac:(done)) as Hpos.
  cbn [tokenize_loop length]. fold (token_length (b :: l')). f_equal.
  assert (Hd : (length (drop (token_length (b :: l')) (b :: l')) <= length l')%nat)
    by (rewrite length_drop; cbn [length] in *; lia).
  cbn [length] in *. etrans; [apply IH|symmetry; apply IH]; lia.
Qed.

Lemma tokenize_bytes_step l : l <> [] ->
  tokenize_bytes special l
  = take (token_length l) l :: tokenize_bytes special (drop (token_length l) l).
Proof.
  intros Hl. destruct l as [|b l']; [done|]. unfold tokenize_bytes at 1.
  cbn [length tokenize_loop]. fold (token_length (b :: l')). f_equal.
  apply tokenize_loop_fuel. pose proof (token_length_pos (b :: l') Hl).
  rewrite length_drop. simpl in *. lia.
Qed.

(** Induction along the tokens. *)
Lemma tokenize_ind (P : list Z -> Prop) :
  P [] -> (forall l, l <> [] -> P (drop (token_length l) l) -> P l) -> forall l, P l.
Proof.
  intros H0 Hs l. remember (length l) as n eqn:En. revert l En.
  induction (lt_wf n) as [n _ IH]. intros l ->. destruct l as [|b l']; [done|].
  apply Hs; [done|]. eapply IH; [|reflexivity].
  pose proof (token_length_pos (b :: l') ltac:(done)). rewrite length_drop. simpl in *. lia.
Qed.

(** The tokens are the input, cut up. *)
Lemma join_tokenize l : concat (tokenize_bytes special l) = l.
Proof.
  induction l as [|l Hl IH] using tokenize_ind; [done|].
  rewrite tokenize_bytes_step by done. simpl. rewrite IH. apply take_drop.
Qed.

Lemma tokenize_nonempty l : Forall (fun t => t <> []) (tokenize_bytes special l).
Proof.
  induction l as [|l Hl IH] using tokenize_ind; [constructor|].
  rewrite tokenize_bytes_step by done. constructor; [|done].
  pose proof (token_length_pos l Hl). destruct l; [done|]. destruct (token_length _); [lia|done].
Qed.

(** *** On characters *)

Hypothesis special_ascii : Forall (fun b => 0 <= b < 128) special.

Lemma scan_high esc bs rest : Forall (fun b => 128 <= b) bs -> bs <> [] ->
  scan_token special esc (bs ++ rest) = (length bs + scan_token special false rest)%nat.
Proof.
  intros Hbs. revert esc. induction Hbs as [|b bs Hb Hbs IH]; intros esc Hne; [done|]. simpl.
  rewrite bool_decide_false, andb_false_r.
  2: { intros Hin. rewrite Forall_forall in special_ascii. specialize (special_ascii b Hin). lia. }
  f_equal. assert ((b =? backslash) = false) as -> by (unfold backslash; lia).
  destruct bs; [done|by apply IH].
Qed.

Lemma encode_utf8_high c : 128 <= c -> is_char c = true -> Forall (fun b => 128 <= b) (encode_utf8 c).
Proof.
  intros Hc Hok. unfold is_char in Hok. unfold encode_utf8.
  rewrite (proj2 (Z.ltb_ge c 128)) by lia.
  repeat case_match; repeat constructor; Z.to_euclidean_division_equations; lia.
Qed.

Lemma scan_as_bytes esc s : Forall (fun c => is_char c = true) s ->
  scan_token special esc (as_bytes s) = length (as_bytes (take (scan_token special esc s) s)).
Proof.
  intros Hs. revert esc. induction Hs as [|c s Hc _ IH]; intros esc; [done|].
  change (as_bytes (c :: s)) with (encode_utf8 c ++ as_bytes s).
  destruct (Z.ltb_spec c 128).
  - assert (encode_utf8 c = [c]) as E by (unfold encode_utf8; by rewrite (proj2 (Z.ltb_lt c 128)) by lia).
    rewrite E. simpl. case_match; [done|]. rewrite IH. simpl.
    change (as_bytes (c :: ?l)) with (encode_utf8 c ++ as_bytes l). by rewrite E.
  - pose proof (encode_utf8_length c). rewrite scan_high.
    2: by apply encode_utf8_high. 2: { destruct (encode_utf8 c); [simpl in *; lia|done]. }
    simpl. rewrite bool_decide_false, andb_false_r.
    2: { intros Hin. rewrite Forall_forall in special_ascii. specialize (special_ascii c Hin). lia. }
    assert ((c =? backslash) = false) as -> by (unfold backslash; lia). simpl.
    change (as_bytes (c :: ?l)) with (encode_utf8 c ++ as_bytes l). rewrite length_app, IH. done.
Qed.

Lemma token_length_as_bytes s : s <> [] -> Forall (fun c => is_char c = true) s ->
  token_length (as_bytes s) = length (as_bytes (take (token_length s) s)).
Proof.
  intros Hne Hs. unfold token_length at 1. rewrite scan_as_bytes by done. unfold token_length.
  destruct (Nat.eqb_spec (scan_token special false s) 0) as [E|E].
  - rewrite E. simpl. destruct s as [|c s]; [done|]. simpl in E.
    destruct (bool_decide (c ∈ special)) eqn:Ec; [|done]. apply bool_decide_eq_true in Ec.
    rewrite Forall_forall in special_ascii. specialize (special_ascii c Ec).
    simpl. unfold as_bytes. simpl. rewrite app_nil_r. unfold encode_utf8.
    by rewrite (proj2 (Z.ltb_lt c 128)) by lia.
  - destruct s as [|c s]; [done|]. destruct (scan_token special false (c :: s)) as [|n]; [done|].
    simpl. change (as_bytes (c :: ?l)) with (encode_utf8 c ++ as_bytes l). rewrite length_app.
    pose proof (encode_utf8_length c).
    destruct (Nat.eqb_spec (length (encode_utf8 c) + length (as_bytes (take n s))) 0); lia.
Qed.

Lemma take_as_bytes k s : take (length (as_bytes (take k s))) (as_bytes s) = as_bytes (take k s).
Proof.
  rewrite <- (take_drop k s) at 2. by rewrite as_bytes_app, take_app_length.
Qed.

Lemma drop_as_bytes k s : drop (length (as_bytes (take k s))) (as_bytes s) = as_bytes (drop k s).
Proof.
  rewrite <- (take_drop k s) at 2. by rewrite as_bytes_app, drop_app_length.
Qed.

Lemma tokenize_as_bytes s : Forall (fun c => is_char c = true) s ->
  tokenize_bytes special (as_bytes s) = as_bytes <$> tokenize_bytes special s.
Proof.
  induction s as [|s Hne IH] using tokenize_ind; intros Hs; [done|].
  rewrite (tokenize_bytes_step s) by done. rewrite tokenize_bytes_step.
  2: { destruct s as [|c s]; [done|]. change (as_bytes (c :: s)) with (encode_utf8 c ++ as_bytes s).
       pose proof (encode_utf8_length c). destruct (encode_utf8 c); [simpl in *; lia|done]. }
  rewrite token_length_as_bytes by done.
  rewrite take_as_bytes, drop_as_bytes, fmap_cons. f_equal.
  apply IH. by apply Forall_drop.
Qed.

Lemma unwrap_utf8_as_bytes tokens : Forall (Forall (fun c => is_char c = true)) tokens ->
  unwrap_utf8 (as_bytes <$> tokens) = Done tokens.
Proof.
  induction 1 as [|t tokens Ht _ IH]; [done|]. rewrite fmap_cons. simpl.
  by rewrite from_utf8_as_bytes, IH.
Qed.

(** The tokenizer does not panic, and cuts characters as it cuts bytes. *)
Lemma tokenize_by_ok s : Forall (fun c => is_char c = true) s ->
  tokenize_by s special = Done (tokenize_bytes special s).
Proof.
  intros Hs. unfold tokenize_by. rewrite tokenize_as_bytes by done.
  apply unwrap_utf8_as_bytes. pose proof (join_tokenize s) as E.
  apply Forall_concat. by rewrite E.
Qed.
End Tokenizer.

Lemma data_special_ascii : Forall (fun b => 0 <= b < 128) data_special.
Proof. change data_special with [47; 91; 93; 58; 35]. repeat constructor; lia. Qed.

Lemma entity_special_ascii : Forall (fun b => 0 <= b < 128) entity_special.
Proof. change entity_special with [47]. repeat constructor; lia. Qed.

(** ** Printed paths *)

Section Printed.
Context `{U : UnicodeTables} `{HP : PathHash}.

(** The separators of an entity path, or of a data path. *)
Variable special : list Z.
Hypothesis special_data : special ⊆ data_special.
Hypothesis special_slash : 47 ∈ special.

Notation scan := (scan_token special).
Notation tokens_of := (tokenize_bytes special).

(** The escape flag after a piece of text. *)
Definition flag_after (esc : bool) (s : list char) : bool :=
  match last s with Some c => c =? backslash | None => esc end.

Lemma flag_after_app esc s t : flag_after esc (s ++ t) = flag_after (flag_after esc s) t.
Proof. unfold flag_after. rewrite last_app. by destruct (last t). Qed.

Lemma scan_app esc s t : scan esc s = length s ->
  scan esc (s ++ t) = (length s + scan (flag_after esc s) t)%nat.
Proof.
  revert esc. induction s as [|c s IH]; intros esc Hs; [done|]. simpl in *.
  case_match; [done|]. injection Hs as Hs. rewrite IH by done. f_equal.
  change (c :: s) with ([c] ++ s). by rewrite flag_after_app.
Qed.

Lemma scan_app_full esc s t : scan esc s = length s -> scan (flag_after esc s) t = length t ->
  scan esc (s ++ t) = length (s ++ t).
Proof. intros Hs Ht. by rewrite scan_app, Ht, length_app. Qed.

Lemma special_spec c : c ∈ data_special <-> c = 47 \/ c = 91 \/ c = 93 \/ c = 58 \/ c = 35.
Proof. change data_special with [47; 91; 93; 58; 35]. rewrite !elem_of_cons, elem_of_nil. naive_solver. Qed.

Lemma scan_plain esc s : Forall (fun c => c ∉ data_special) s -> scan esc s = length s.
Proof.
  intros Hs. revert esc. induction Hs as [|c s Hc _ IH]; intros esc; [done|]. simpl.
  rewrite bool_decide_false, andb_false_r by (intros Hin; by apply Hc, special_data). by rewrite IH.
Qed.

Lemma digit_plain k : 0 <= k < 16 -> digit k ∉ data_special.
Proof. intros Hk. rewrite special_spec. unfold digit. case_match; lia. Qed.

Lemma last_04X c : last (escaped_char c) = Some backslash <-> c = backslash.
Proof.
  unfold escaped_char.
  destruct (is_alphanumeric c || is_plain_punctuation c); [simpl; naive_solver|].
  destruct (Z.eqb_spec c c_newline) as [->|]; [done|].
  destruct (Z.eqb_spec c c_return) as [->|]; [done|].
  destruct (Z.eqb_spec c c_tab) as [->|]; [done|].
  destruct (is_ascii_punctuation c || (c =? space)) eqn:E; [simpl; naive_solver|].
  rewrite app_assoc, last_snoc. split; [done|]. intros ->. done.
Qed.

Lemma scan_escape esc x : scan esc [backslash; x] = 2%nat.
Proof.
  cbn [scan_token]. rewrite (bool_decide_false (backslash ∈ special)), andb_false_r; [done|].
  intros Hin. apply special_data, special_spec in Hin. unfold backslash in Hin. lia.
Qed.

Lemma scan_escaped_char esc c : escapable c = true ->
  scan esc (escaped_char c) = length (escaped_char c) /\
  flag_after esc (escaped_char c) = (c =? backslash).
Proof.
  intros He. split.
  - unfold escaped_char. destruct (is_alphanumeric c || is_plain_punctuation c) eqn:Ep.
    { apply scan_plain. constructor; [|constructor]. rewrite special_spec. intros Hc.
      rewrite is_alphanumeric_ascii in Ep by lia.
      unfold is_ascii_alphanumeric, is_plain_punctuation in Ep. lia. }
    do 4 (case_match; [apply scan_escape|]).
    apply scan_plain. rewrite !Forall_app. split_and!;
      [repeat (apply Forall_cons; split; [rewrite special_spec; unfold backslash, c_u, lbrace; lia|]);
       constructor
      | |apply Forall_singleton; rewrite special_spec; unfold rbrace; lia].
    apply orb_false_iff in Ep as [Ea _]. unfold escapable in He. rewrite Ea in He.
    apply andb_true_iff in He as [Hc Hlt]. simpl in Hlt. apply Z.ltb_lt in Hlt.
    unfold is_char in Hc. destruct (fmt_04X_spec c ltac:(lia)) as (_ & _ & Hd).
    eapply Forall_impl; [done|]. intros d (k & Hk & ->). by apply digit_plain.
  - unfold flag_after. destruct (last (escaped_char c)) as [x|] eqn:E.
    + destruct (Z.eqb_spec x backslash) as [->|Hx].
      * apply last_04X in E as ->. done.
      * destruct (Z.eqb_spec c backslash) as [->|]; [|done].
        rewrite (proj2 (last_04X backslash) eq_refl) in E. congruence.
    + apply last_None in E. unfold escaped_char in E. repeat case_match; done.
Qed.

Lemma scan_escaped esc s : Forall (fun c => escapable c = true) s ->
  scan esc (escaped_string s) = length (escaped_string s) /\
  flag_after esc (escaped_string s) = flag_after esc s.
Proof.
  intros Hs. revert esc. induction Hs as [|c s Hc _ IH]; intros esc; [done|].
  rewrite escaped_string_cons. destruct (scan_escaped_char esc c Hc) as [H1 H2].
  destruct (IH (flag_after esc (escaped_char c))) as [H3 H4]. split.
  - by apply scan_app_full.
  - change (c :: s) with ([c] ++ s). rewrite !flag_after_app, H4, H2. done.
Qed.

Lemma escaped_nonempty s : s <> [] -> escaped_string s <> [].
Proof.
  destruct s as [|c s]; [done|]. intros _. rewrite escaped_string_cons.
  unfold escaped_char. repeat case_match; done.
Qed.

(** A token delimited by what follows it. *)
Definition starts_special (l : list char) : Prop :=
  match l with [] => True | c :: _ => c ∈ special end.

Lemma tokens_of_special c l : c ∈ special -> tokens_of (c :: l) = [c] :: tokens_of l.
Proof.
  intros Hc. rewrite tokenize_bytes_step by done. unfold token_length. simpl.
  rewrite bool_decide_true by done. simpl. by rewrite !drop_0.
Qed.

Lemma tokens_of_word s l : s <> [] -> scan false s = length s ->
  starts_special l -> (l = [] \/ flag_after false s = false) -> tokens_of (s ++ l) = s :: tokens_of l.
Proof.
  intros Hne Hs Hl Hf. rewrite tokenize_bytes_step by (by destruct s).
  assert (token_length special (s ++ l) = length s) as ->.
  { unfold token_length. rewrite scan_app by done.
    assert (scan (flag_after false s) l = 0%nat) as ->.
    { destruct l as [|c l]; [done|]. destruct Hf as [|Hf]; [done|]. rewrite Hf. simpl in *.
      by rewrite bool_decide_true. }
    destruct s; [done|]. simpl. lia. }
  by rewrite take_app_length, drop_app_length.
Qed.

Definition part_ok (p : list char) : Prop := p <> [] /\ Forall (fun c => escapable c = true) p.
Definition ends_in_backslash (p : list char) : Prop := last p = Some backslash.

Definition path_tokens (ps : list (list char)) : list (list char) :=
  match ps with [] => [slash] | _ => ps ≫= (fun p => [slash; escaped_string p]) end.

Lemma flag_last p : p <> [] -> ~ ends_in_backslash p -> flag_after false p = false.
Proof.
  unfold flag_after, ends_in_backslash. destruct (last p) as [c|]; [|done]. intros _ Hne.
  apply Z.eqb_neq. congruence.
Qed.

(** The tokens of a printed path, before a suffix. *)
Lemma tokens_of_parts ps suffix : ps <> [] -> Forall part_ok ps -> starts_special suffix ->
  (forall p, p ∈ removelast ps -> ~ ends_in_backslash p) ->
  (suffix = [] \/ forall p, last ps = Some p -> ~ ends_in_backslash p) ->
  tokens_of ((ps ≫= (fun comp => slash ++ escaped_string comp)) ++ suffix)
  = (ps ≫= (fun p => [slash; escaped_string p])) ++ tokens_of suffix.
Proof.
  intros Hne Hps Hsuf. induction Hps as [|p ps [Hp He] Hps IH]; intros Hinit Hlast; [done|].
  cbn [mbind list_bind]. rewrite <- !app_assoc. change (slash ++ ?l) with (47 :: l).
  rewrite tokens_of_special by done.
  destruct (scan_escaped false p He) as [Hscan Hflag].
  assert (Hns : ends_in_backslash p -> ps = [] /\ suffix = []).
  { intros Hb. destruct ps as [|q ps].
    - split; [done|]. destruct Hlast as [|Hl]; [done|]. by exfalso; eapply Hl.
    - exfalso. apply (Hinit p); [|done]. simpl. by left. }
  rewrite tokens_of_word; [|by apply escaped_nonempty|done| |].
  - cbn [app]. do 2 f_equal. destruct ps as [|q ps]; [done|]. apply IH; [done| |].
    + intros r Hr. apply Hinit. simpl. by right.
    + destruct Hlast as [|Hl]; [by left|right]. intros r Hr. apply Hl. done.
  - destruct ps as [|q ps]; done.
  - destruct (decide (ends_in_backslash p)) as [Hb|Hb].
    + left. by destruct (Hns Hb) as [-> ->].
    + right. rewrite Hflag. by apply flag_last.
Qed.
End Printed.

Section Reading.
Context `{U : UnicodeTables} `{HP : PathHash}.

Notation tokens_of := (tokenize_bytes data_special).

(** *** Reading them back *)

Lemma escaped_not_special p c : c ∈ data_special -> part_ok p -> escaped_string p <> [c].
Proof.
  intros Hc [Hp He] E. destruct (scan_escaped data_special ltac:(done) false p He) as [Hs _]. rewrite E in Hs.
  simpl in Hs. by rewrite bool_decide_true in Hs.
Qed.

Lemma parse_escaped_part p : Forall (fun c => escapable c = true) p ->
  part_parse_strict (escaped_string p) = Ok p.
Proof.
  intros He. apply part_roundtrip_ok; [|done]. eapply Forall_impl; [done|].
  intros c Hc. unfold escapable in Hc. by apply andb_true_iff in Hc as [? _].
Qed.

Lemma parts_loop_ok p ps : Forall part_ok (p :: ps) ->
  parts_loop (escaped_string p) (ps ≫= (fun p => [slash; escaped_string p])) = Ok (p :: ps).
Proof.
  revert p. induction ps as [|q ps IH]; intros p Hps; inversion Hps as [|? ? Hp Hps']; subst.
  all: cbn [parts_loop mbind list_bind app]; rewrite bool_decide_false
    by (apply escaped_not_special; [apply special_spec; by left|done]);
    rewrite parse_escaped_part by apply Hp.
  - done.
  - rewrite bool_decide_true by done. by rewrite IH.
Qed.

Lemma path_tokens_ok ps : Forall part_ok ps ->
  entity_path_parts_from_tokens_strict (path_tokens ps) = Ok ps.
Proof.
  intros Hps. destruct ps as [|p ps]; [done|].
  cbn [path_tokens mbind list_bind app entity_path_parts_from_tokens_strict].
  rewrite bool_decide_true by done. by apply parts_loop_ok.
Qed.

Lemma path_tokens_plain ps c : c ∈ data_special -> c <> 47 -> Forall part_ok ps ->
  [c] ∉ path_tokens ps.
Proof.
  intros Hc Hne Hps Hin.
  assert (Hslash : [c] <> slash) by (intros E; change slash with [47] in E; congruence).
  destruct ps as [|p ps]; [by apply list_elem_of_singleton in Hin|].
  apply list_elem_of_bind in Hin as (q & Hin & Hq).
  rewrite Forall_forall in Hps. specialize (Hps q Hq).
  rewrite !elem_of_cons, elem_of_nil in Hin. destruct Hin as [|[E|[]]]; [done|].
  by eapply escaped_not_special.
Qed.

Lemma token_position_None t tokens : t ∉ tokens -> token_position t tokens = None.
Proof.
  intros Ht. unfold token_position. rewrite (proj2 (list_find_None _ _)); [done|].
  apply Forall_forall. by intros x Hx ->.
Qed.

Lemma token_position_Some t pre post : t ∉ pre -> token_position t (pre ++ t :: post) = Some (length pre).
Proof.
  intros Ht. unfold token_position. rewrite list_find_app_r.
  - simpl. rewrite decide_True by done. done.
  - apply list_find_None, Forall_forall. by intros x Hx ->.
Qed.

Lemma parse_component_None tokens : colon ∉ tokens -> parse_component tokens = Ok (None, tokens).
Proof. intros H. unfold parse_component. by rewrite token_position_None. Qed.

Lemma parse_component_Some pre c : colon ∉ pre -> c <> [] -> last c <> Some 58 ->
  parse_component (pre ++ colon :: tokens_of c) = Ok (Some c, pre).
Proof.
  intros Hpre Hne Hlast. unfold parse_component. rewrite token_position_Some by done.
  assert (drop (S (length pre)) (pre ++ colon :: tokens_of c) = tokens_of c) as ->.
  { rewrite cons_middle, app_assoc. apply drop_app_length'. rewrite length_app. simpl. lia. }
  unfold join_tokens. rewrite join_tokenize, take_app_length.
  destruct (last (tokens_of c)) as [t|] eqn:E.
  - rewrite bool_decide_false; [by destruct c|]. intros ->. apply last_Some in E as [l E].
    pose proof (join_tokenize data_special c) as J. rewrite E, concat_app in J. simpl in J.
    rewrite <- J, last_snoc in Hlast. done.
  - apply last_None in E. pose proof (join_tokenize data_special c) as J. by rewrite E in J.
Qed.

Lemma parse_instance_None tokens : lbracket ∉ tokens -> parse_instance tokens = Ok (None, tokens).
Proof. intros H. unfold parse_instance. by rewrite token_position_None. Qed.

Lemma parse_instance_Some pre n : lbracket ∉ pre -> is_u64 n ->
  parse_instance (pre ++ [lbracket; lit "#"; fmt_u64 n; rbracket]) = Ok (Some n, pre).
Proof.
  intros Hpre Hn. unfold parse_instance. rewrite token_position_Some by done.
  rewrite drop_app_length, take_app_length. cbn [length Nat.eqb negb last orb].
  rewrite bool_decide_true by done. simpl. by rewrite u64_from_str_fmt.
Qed.

Definition instance_tokens (i : option Z) : list (list char) :=
  match i with Some n => [lbracket; lit "#"; fmt_u64 n; rbracket] | None => [] end.
Definition component_tokens (c : option (list char)) : list (list char) :=
  match c with Some c => colon :: tokens_of c | None => [] end.

(** What the printer can print so that the parser reads it back. *)
Definition printable (dp : DataPath) : Prop :=
  wf_path (entity_path dp) /\ Forall part_ok (parts (entity_path dp)) /\
  match dp_instance dp with Some n => 0 <= n < 1000 | None => True end /\
  match dp_component dp with
  | Some c => c <> [] /\ Forall (fun c => is_char c = true) c /\ last c <> Some 58
  | None => True
  end /\
  (forall p, p ∈ removelast (parts (entity_path dp)) -> ~ ends_in_backslash p) /\
  (dp_instance dp = None /\ dp_component dp = None \/
   forall p, last (parts (entity_path dp)) = Some p -> ~ ends_in_backslash p).

Lemma format_uint_small n : 0 <= n < 1000 -> format_uint n = fmt_u64 n.
Proof.
  intros Hn. unfold format_uint, add_thousands_separators.
  assert (length (fmt_u64 n) <= 3)%nat as Hl.
  { unfold fmt_u64. etrans; [apply (fmt_digits_length 3); simpl; lia|done]. }
  rewrite <- (rev_involutive (fmt_u64 n)) at 2. f_equal. rewrite <- length_rev in Hl.
  destruct (rev (fmt_u64 n)) as [|a [|b [|c [|d l]]]]; simpl in *; try done. lia.
Qed.

Definition suffix_string (i : option Z) (c : option (list char)) : list char :=
  match i with Some n => [91; 35] ++ fmt_u64 n ++ [93] | None => [] end
  ++ match c with Some c => [58] ++ c | None => [] end.

Lemma fmt_u64_plain n : 0 <= n -> Forall (fun c => c ∉ data_special) (fmt_u64 n) /\
  Forall (fun c => is_char c = true) (fmt_u64 n) /\ ~ ends_in_backslash (fmt_u64 n).
Proof.
  intros Hn.
  assert (Hd : Forall (fun c => exists k, 0 <= k < 10 /\ c = digit k) (fmt_u64 n)).
  { apply fmt_digits_chars; [lia|eauto|constructor]. }
  split_and!.
  - eapply Forall_impl; [done|]. intros c (k & Hk & ->). apply digit_plain. lia.
  - eapply Forall_impl; [done|]. intros c (k & Hk & ->). unfold digit, is_char. case_match; lia.
  - unfold ends_in_backslash. intros E. apply last_Some_elem_of in E.
    rewrite Forall_forall in Hd. destruct (Hd _ E) as (k & Hk & Ek).
    unfold digit, backslash in Ek. case_match; lia.
Qed.

Lemma tokens_of_suffix i c : match i with Some n => 0 <= n | None => True end ->
  starts_special data_special (suffix_string i c) /\
  tokens_of (suffix_string i c) = instance_tokens i ++ component_tokens c.
Proof.
  intros Hi.
  assert (Hc : starts_special data_special (suffix_string None c) /\ tokens_of (suffix_string None c) = component_tokens c).
  { destruct c as [c|]; [|done]. unfold suffix_string. cbn [app].
    split; [apply special_spec; auto|]. rewrite tokens_of_special by (apply special_spec; auto).
    done. }
  destruct i as [n|]; [|exact Hc]. destruct Hc as [Hc1 Hc2].
  destruct (fmt_u64_plain n Hi) as (Hpl & _ & Hnb).
  split; [apply special_spec; auto|].
  assert (suffix_string (Some n) c = 91 :: 35 :: (fmt_u64 n ++ 93 :: suffix_string None c)) as ->.
  { unfold suffix_string. by rewrite <- !app_assoc. }
  rewrite !tokens_of_special by (apply special_spec; auto).
  assert (Hne : fmt_u64 n <> []) by apply fmt_digits_nonempty.
  rewrite tokens_of_word; [|done|by apply scan_plain|apply special_spec; auto
    |right; by apply flag_last].
  rewrite tokens_of_special, Hc2 by (apply special_spec; auto). done.
Qed.

Lemma to_string_parts p : parts p <> [] ->
  to_string p = parts p ≫= (fun comp => slash ++ escaped_string comp).
Proof. intros H. unfold to_string, is_root, path_len. by destruct (parts p). Qed.

Lemma escaped_char_chars c : escapable c = true ->
  Forall (fun c => is_char c = true) (escaped_char c).
Proof.
  unfold escapable. rewrite andb_true_iff. intros [Hc Hsmall]. unfold escaped_char.
  destruct (is_alphanumeric c || is_plain_punctuation c) eqn:Ep; [by repeat constructor|].
  do 4 (case_match; [by repeat constructor|]).
  apply orb_false_iff in Ep as [Ea _]. rewrite Ea in Hsmall. simpl in Hsmall.
  apply Z.ltb_lt in Hsmall. rewrite !Forall_app. split_and!; [by repeat constructor| |by repeat constructor].
  unfold is_char in Hc. destruct (fmt_04X_spec c ltac:(lia)) as (_ & _ & Hd).
  eapply Forall_impl; [done|]. intros d (k & Hk & ->). unfold digit, is_char. case_match; lia.
Qed.

Lemma to_string_chars p : Forall part_ok (parts p) ->
  Forall (fun c => is_char c = true) (to_string p).
Proof.
  intros Hp. destruct (decide (parts p = [])) as [E|E].
  { unfold to_string, is_root, path_len. rewrite E. repeat constructor. }
  rewrite to_string_parts by done. apply Forall_bind. eapply Forall_impl; [done|].
  intros q [_ Hq]. unfold compose. apply Forall_app. split; [repeat constructor|]. apply Forall_bind.
  eapply Forall_impl; [done|]. exact escaped_char_chars.
Qed.

Lemma data_path_to_string_eq dp : match dp_instance dp with Some n => 0 <= n < 1000 | None => True end ->
  data_path_to_string dp
  = to_string (entity_path dp) ++ suffix_string (dp_instance dp) (dp_component dp).
Proof.
  intros Hi. unfold data_path_to_string, suffix_string. f_equal.
  destruct (dp_instance dp) as [n|]; [|done].
  assert ((n =? instance_ALL) = false) as -> by (unfold instance_ALL, u64_max; lia).
  by rewrite format_uint_small.
Qed.

Lemma tokens_of_printed dp : printable dp ->
  tokens_of (data_path_to_string dp)
  = path_tokens (parts (entity_path dp)) ++ instance_tokens (dp_instance dp)
    ++ component_tokens (dp_component dp).
Proof.
  intros (_ & Hps & Hi & Hc & Hinit & Hlast). rewrite data_path_to_string_eq by done.
  destruct (tokens_of_suffix (dp_instance dp) (dp_component dp)) as [Hs1 Hs2].
  { destruct (dp_instance dp); [lia|done]. }
  destruct (decide (parts (entity_path dp) = [])) as [E|E].
  - unfold to_string, is_root, path_len. rewrite E. cbn [length Nat.eqb path_tokens].
    change (lit "/" ++ ?l) with (47 :: l). rewrite tokens_of_special, Hs2 by (by apply special_spec; left).
    done.
  - rewrite to_string_parts by done. rewrite tokens_of_parts; try done.
    + rewrite Hs2. f_equal. by destruct (parts (entity_path dp)).
    + by apply special_spec; left.
    + destruct Hlast as [[-> ->]|Hlast]; [by left|by right].
Qed.

Lemma suffix_chars i c : match i with Some n => 0 <= n | None => True end ->
  match c with Some c => Forall (fun c => is_char c = true) c | None => True end ->
  Forall (fun c => is_char c = true) (suffix_string i c).
Proof.
  intros Hi Hc. unfold suffix_string. apply Forall_app. split.
  - destruct i as [n|]; [|constructor]. destruct (fmt_u64_plain n Hi) as (_ & H & _).
    rewrite !Forall_app. by repeat constructor.
  - destruct c as [c|]; [|constructor]. by constructor.
Qed.

Lemma data_path_roundtrip_ok dp : printable dp ->
  data_path_from_str (data_path_to_string dp) = Done (Ok dp).
Proof.
  intros Hdp. pose proof (tokens_of_printed dp Hdp) as Htok.
  destruct Hdp as (Hwf & Hps & Hi & Hc & _).
  assert (Hchars : Forall (fun c => is_char c = true) (data_path_to_string dp)).
  { rewrite data_path_to_string_eq by done. apply Forall_app. split; [by apply to_string_chars|].
    apply suffix_chars; [destruct (dp_instance dp); [lia|done]|].
    destruct (dp_component dp); [apply Hc|done]. }
  assert (Hne : data_path_to_string dp <> []).
  { intros E. rewrite E in Htok. destruct (parts (entity_path dp)); done. }
  assert (forall c, c = 58 \/ c = 91 -> [c] ∉ path_tokens (parts (entity_path dp))) as Hpl.
  { intros c Hcc. apply path_tokens_plain; [apply special_spec; tauto|lia|done]. }
  unfold data_path_from_str. destruct (data_path_to_string dp) eqn:E; [done|]. rewrite <- E in *. clear E Hne.
  unfold tokenize_data_path. rewrite tokenize_by_ok, Htok by (done || apply data_special_ascii).
  f_equal. unfold data_path_of_tokens.
  assert (Hfmt : forall n, 0 <= n < 1000 -> forall c, c = 58 \/ c = 91 -> [c] <> fmt_u64 n).
  { intros n Hn c Hcc Ef. destruct (fmt_u64_plain n ltac:(lia)) as (Hp & _).
    rewrite <- Ef in Hp. inversion Hp as [|? ? Hx _]. apply Hx, special_spec. lia. }
  assert (Hcolon : colon ∉ path_tokens (parts (entity_path dp)) ++ instance_tokens (dp_instance dp)).
  { rewrite elem_of_app. intros [Hin|Hin]; [by eapply (Hpl 58); [left|]|].
    destruct (dp_instance dp) as [n|]; [|by apply elem_of_nil in Hin].
    unfold instance_tokens in Hin. rewrite !elem_of_cons, elem_of_nil in Hin.
    destruct Hin as [Hx|[Hx|[Hx|[Hx|[]]]]]; try discriminate Hx.
    by eapply (Hfmt n Hi 58); [left|]. }
  assert (parse_component (path_tokens (parts (entity_path dp)) ++ instance_tokens (dp_instance dp)
            ++ component_tokens (dp_component dp))
          = Ok (dp_component dp, path_tokens (parts (entity_path dp)) ++ instance_tokens (dp_instance dp))) as ->.
  { rewrite app_assoc. destruct (dp_component dp) as [c|].
    - apply parse_component_Some; [done|apply Hc|apply Hc].
    - simpl. rewrite app_nil_r. by apply parse_component_None. }
  assert (parse_instance (path_tokens (parts (entity_path dp)) ++ instance_tokens (dp_instance dp))
          = Ok (dp_instance dp, path_tokens (parts (entity_path dp)))) as ->.
  { destruct (dp_instance dp) as [n|].
    - apply parse_instance_Some; [by apply (Hpl 91); right|]. unfold is_u64, u64_max. lia.
    - simpl. rewrite app_nil_r. apply parse_instance_None. by apply (Hpl 91); right. }
  rewrite path_tokens_ok by done. f_equal. destruct dp as [[h ps] i c]. unfold wf_path in Hwf.
  simpl in *. by subst.
Qed.

(** ** Properties *)

(** C21. What [Display] prints for a data path, [from_str] parses back: every path whose parts
    are non-empty with escapable characters, an instance below 1000, and a component that does
    not end with a colon; and no part before a separator may end with a backslash. *)
Theorem data_path_roundtrip dp : printable dp ->
  data_path_from_str (data_path_to_string dp) = Done (Ok dp).
Proof. apply data_path_roundtrip_ok. Qed.

(** C38. [EntityPath::parse_strict] and [parse_forgiving] both read back a printed entity path
    whose parts are non-empty with escapable characters, when no part but the last ends with
    a backslash. *)
Theorem entity_path_roundtrip p : wf_path p -> Forall part_ok (parts p) ->
  (forall q, q ∈ removelast (parts p) -> ~ ends_in_backslash q) ->
  path_parse_strict (to_string p) = Done (Ok p) /\
  fst <$> path_parse_forgiving_uncached (to_string p) = Done p.
Proof.
  intros Hwf Hps Hinit.
  assert (Hdp : printable (mkDataPath p None None)) by (split_and!; try done; by left).
  split.
  { unfold path_parse_strict. pose proof (data_path_roundtrip_ok _ Hdp) as H.
    unfold data_path_to_string in H. simpl in H. rewrite app_nil_r in H. by rewrite H. }
  unfold path_parse_forgiving_uncached, tokenize_entity_path.
  rewrite tokenize_by_ok; [|apply entity_special_ascii|by apply to_string_chars]. simpl.
  assert (forall l, (part_parse_forgiving_with_warning <$> l).*1 = part_parse_forgiving <$> l) as ->
    by (intros l; by rewrite <- list_fmap_compose).
  assert (from_parts (parts p) = p) as Hp by (destruct p; unfold wf_path in Hwf; simpl in *; by subst).
  rewrite <- Hp at 2. do 2 f_equal.
  destruct (decide (parts p = [])) as [E|E].
  { unfold to_string, is_root, path_len. by rewrite E. }
  rewrite to_string_parts by done.
  pose proof (tokens_of_parts entity_special) as T.
  rewrite <- (app_nil_r (parts p ≫= _)), T; try done.
  - simpl. rewrite app_nil_r. clear -Hps. induction Hps as [|q ps Hq _ IH]; [done|].
    cbn [mbind list_bind app]. rewrite filter_cons_False by naive_solver.
    rewrite filter_cons_True.
    2: { apply escaped_not_special; [by apply special_spec; left|done]. }
    rewrite fmap_cons. f_equal; [|exact IH].
    apply forgiving_agrees, parse_escaped_part. apply Hq.
  - intros c Hc. apply special_spec. left. by apply list_elem_of_singleton in Hc.
  - by apply list_elem_of_singleton.
  - by left.
Qed.
End Reading.

(** The byte tokenizer never panics on a string: every token it cuts is valid UTF-8 (the
    [unwrap] is safe), none is empty, and they concatenate to the input; each is a single
    separator or a run that no unescaped separator splits. *)
Lemma tokenize_by_spec path special :
  Forall (fun c => is_char c = true) path -> Forall (fun b => 0 <= b < 128) special ->
  exists tokens, tokenize_by path special = Done tokens /\
    concat tokens = path /\ Forall (fun t => t <> []) tokens /\
    (forall t, t ∈ tokens -> (exists c, t = [c] /\ c ∈ special) \/
                             scan_token special false t = length t).
Proof.
  intros Hp Hs. exists (tokenize_bytes special path). split; [by apply tokenize_by_ok|].
  split; [apply join_tokenize|]. split; [apply tokenize_nonempty|].
  assert (Hscan : forall l esc k, (k <= scan_token special esc l)%nat ->
    scan_token special esc (take k l) = k).
  { clear. induction l as [|b l IH]; intros esc [|k] Hk; simpl in *; try lia.
    destruct (negb esc && bool_decide (b ∈ special)); [lia|]. by rewrite IH by lia. }
  clear Hp. induction path as [|l Hl IH] using (tokenize_ind special); intros t Ht;
    [by apply elem_of_nil in Ht|].
  rewrite tokenize_bytes_step in Ht by done. apply elem_of_cons in Ht as [->|Ht]; [|by apply IH].
  pose proof (token_length_pos special l Hl). unfold token_length in *.
  destruct (Nat.eqb_spec (scan_token special false l) 0) as [E|E].
  - left. destruct l as [|c l]; [done|]. simpl in E. exists c. simpl. rewrite take_0.
    split; [done|]. destruct (bool_decide (c ∈ special)) eqn:Ec; [|done].
    by apply bool_decide_eq_true in Ec.
  - right. rewrite Hscan, length_take by lia. lia.
Qed.

Lemma tokenize_by_spec_witness :
  exists tokens, tokenize_by (lit "/foo/b\/r") entity_special = Done tokens /\
    concat tokens = lit "/foo/b\/r".
Proof.
  destruct (tokenize_by_spec (lit "/foo/b\/r") entity_special) as (tokens & H1 & H2 & _).
  - repeat constructor.
  - apply entity_special_ascii.
  - exists tokens. split; assumption.
Defined.

(** ** The forgiving parser and its cache *)

Section Forgiving.
Context `{U : UnicodeTables} `{HP : PathHash} `{SH : StringHash}.

Lemma parse_forgiving_from_nonempty c rest : (parse_forgiving_from 0 (c :: rest)).1 <> [].
Proof.
  cbn [parse_forgiving_from]. destruct (c =? backslash); [|done].
  destruct rest as [|c' after]; [done|].
  repeat (case_match; try done).
Qed.

Lemma parse_forgiving_uncached_ok s : Forall (fun c => is_char c = true) s ->
  exists p ws, path_parse_forgiving_uncached s = Done (p, ws) /\ wf_path p /\
    Forall (fun part => part <> []) (parts p).
Proof.
  intros Hs. unfold path_parse_forgiving_uncached, tokenize_entity_path.
  rewrite tokenize_by_ok by (done || apply entity_special_ascii). simpl.
  eexists _, _. split; [done|]. split; [done|]. simpl.
  apply Forall_forall. intros part Hin.
  apply list_elem_of_fmap in Hin as ([x ws] & -> & Hin).
  apply list_elem_of_fmap in Hin as (t & E & Hin).
  apply list_elem_of_filter in Hin as [_ Hin].
  pose proof (tokenize_nonempty entity_special s) as Hne. rewrite Forall_forall in Hne.
  specialize (Hne t Hin). destruct t as [|c t]; [done|].
  pose proof (parse_forgiving_from_nonempty c t) as H.
  change (parse_forgiving_from 0 (c :: t)) with (part_parse_forgiving_with_warning (c :: t)) in H.
  by rewrite <- E in H.
Qed.

(** What the cache holds: under the hash of some string, what that string parses to. *)
Definition cache_ok (cache : gmap Z EntityPath) : Prop :=
  forall h p, cache !! h = Some p -> exists s ws, str_hash s = h /\
    Forall (fun c => is_char c = true) s /\ path_parse_forgiving_uncached s = Done (p, ws).

(** The forgiving parser accepts every string, and never with an empty part; and the
    global cache is invisible: whatever strings were parsed before, as long as none of them
    collides with the input, a parse returns what the uncached parser returns, and leaves the
    cache in the same relation. *)
Lemma parse_forgiving_cached cache input :
  cache_ok cache -> Forall (fun c => is_char c = true) input ->
  (forall s, str_hash s = str_hash input -> s = input) ->
  exists p ws cache', path_parse_forgiving_uncached input = Done (p, ws) /\
    path_parse_forgiving cache input = Done (p, cache') /\ cache_ok cache' /\
    wf_path p /\ Forall (fun part => part <> []) (parts p).
Proof.
  intros Hc Hs Hinj. destruct (parse_forgiving_uncached_ok input Hs) as (p & ws & Hp & Hwf & Hne).
  unfold path_parse_forgiving. rewrite Hp. simpl.
  destruct (cache !! str_hash input) as [q|] eqn:E.
  - destruct (Hc _ _ E) as (s & ws' & Hh & _ & Hq). rewrite (Hinj s Hh), Hp in Hq.
    injection Hq as -> ->. by exists q, ws', cache.
  - exists p, ws, (<[str_hash input := p]> cache). split_and!; try done.
    intros h q Hq. apply lookup_insert_Some in Hq as [[<- <-]|[_ Hq]]; [by exists input, ws|].
    by apply Hc.
Qed.
End Forgiving.

(** ** Witnesses and counterexamples *)

#[local] Existing Instance latin_tables.
#[local] Instance one_hash : PathHash := fun _ => 0.
#[local] Instance code_hash : StringHash := fun s => Zpos (encode s).

Lemma data_path_roundtrip_witness :
  data_path_from_str (lit "/world/points[#42]:Points3D:colors")
  = Done (Ok (mkDataPath (from_parts [lit "world"; lit "points"]) (Some 42) (Some (lit "Points3D:colors")))).
Proof.
  pose proof (data_path_roundtrip
    (mkDataPath (from_parts [lit "world"; lit "points"]) (Some 42) (Some (lit "Points3D:colors")))) as H.
  apply H. split; [reflexivity|]. split; [repeat constructor; discriminate|].
  split; [simpl; lia|]. split; [split; [discriminate|split; [repeat constructor|discriminate]]|].
  split.
  - intros p Hp. simpl in Hp. apply list_elem_of_singleton in Hp as ->. discriminate.
  - right. intros p [= <-]. discriminate.
Defined.

Lemma entity_path_roundtrip_witness :
  path_parse_strict (lit "/foo\!/a\\") = Done (Ok (from_parts [lit "foo!"; lit "a\"])).
Proof.
  destruct (entity_path_roundtrip (from_parts [lit "foo!"; lit "a\"])) as [H _].
  - reflexivity.
  - repeat constructor; discriminate.
  - intros q Hq. simpl in Hq. apply list_elem_of_singleton in Hq as ->. discriminate.
  - exact H.
Defined.

Lemma parse_forgiving_cached_witness :
  exists cache', path_parse_forgiving ∅ (lit "//foo bar//") = Done (from_parts [lit "foo bar"], cache').
Proof.
  destruct (parse_forgiving_cached ∅ (lit "//foo bar//")) as (p & ws & cache' & H1 & H2 & _).
  - intros h q Hq. discriminate Hq.
  - repeat constructor.
  - intros s Hs. unfold str_hash, code_hash in Hs. apply (inj encode). congruence.
  - exists cache'. rewrite H2. vm_compute in H1. injection H1 as <- _. reflexivity.
Defined.

(** The tokenizer takes a separator after an escaped backslash for an escaped one: the path
    with the parts [a\] and [b] prints as [/a\\/b], which the strict parser rejects and the
    forgiving one reads as a single part. *)
Example backslash_not_roundtripped :
  let p := from_parts [lit "a\"; lit "b"] in
  to_string p = lit "/a\\/b" /\
  path_parse_strict (to_string p) = Done (Err (MissingEscape 47)) /\
  fst <$> path_parse_forgiving_uncached (to_string p) = Done (from_parts [lit "a\/b"]).
Proof. vm_compute. repeat split. Qed.

(** An instance of four digits or more is printed with a thin space, and not read back. *)
Example instance_not_roundtripped :
  let dp := mkDataPath (from_parts [lit "p"]) (Some 1000) None in
  data_path_to_string dp = lit "/p[#1" ++ [THIN_SPACE] ++ lit "000]" /\
  data_path_from_str (lit "/p[#1000]") = Done (Ok dp) /\
  data_path_from_str (data_path_to_string dp)
  = Done (Err (BadInstance (lit "1" ++ [THIN_SPACE] ++ lit "000"))).
Proof. vm_compute. repeat split. Qed.

(** The [#] of an instance is not checked: any separator will do. *)
Example instance_without_hash :
  data_path_from_str (lit "/p[/7]") = Done (Ok (mkDataPath (from_parts [lit "p"]) (Some 7) None)).
Proof. vm_compute. reflexivity. Qed.

(** A path with an emoji printed to a column is read back as another path. *)
Example emoji_not_roundtripped :
  let p := from_parts [[129408]] in
  path_parse_strict (to_string p) = Done (Err (InvalidUnicodeEscape (lit "{1F980"))) /\
  fst <$> path_parse_forgiving_uncached (to_string p) = Done (from_parts [lit "\u{1F980}"]).
Proof. vm_compute. repeat split. Qed.
