(* ===== verification/EntityPathFilter.v ===== *)
(** * Entity path filters

    [src/crates/store/dl_log_types/src/path/entity_path_filter.rs]: rules that include or
    exclude a path or a subtree, their parsing and resolution, and the queries on a resolved
    filter.  Both kinds of filter are a [BTreeMap] ([BTree]); the order of resolved rules is
    the path order (part by part, over the natural ordering of strings, a third-party
    function behind the interface [NaturalOrder]), a subtree rule before the exact one. *)

From S2P Require Import Prelude Ints BTree Text EntityPathPart EntityPath ParsePath.

(** [natural_ordering::compare], a total order on strings. *)
Class NaturalOrder := natural_compare : list char -> list char -> comparison.

Inductive RuleEffect := Include | Exclude.
#[export] Instance RuleEffect_eq_dec : EqDecision RuleEffect.
Proof. solve_decision. Defined.

(** ** Text helpers of the standard library *)

(** [str::trim]. *)
Fixpoint trim_start (s : list char) : list char :=
  match s with c :: s' => if is_whitespace c then trim_start s' else s | [] => [] end.
Definition trim (s : list char) : list char := rev (trim_start (rev (trim_start s))).

(** [str::strip_suffix] and [str::ends_with]. *)
Definition strip_suffix (suffix s : list char) : option (list char) :=
  let n := (length s - length suffix)%nat in
  if (length suffix <=? length s)%nat && bool_decide (drop n s = suffix) then Some (take n s) else None.
Definition ends_with (suffix s : list char) : bool :=
  match strip_suffix suffix s with Some _ => true | None => false end.

(** [str::replace], [skip] characters of a match still to be dropped. *)
Fixpoint replace_from (pat value : list char) (skip : nat) (s : list char) : list char :=
  match s with
  | [] => []
  | c :: rest =>
    match skip with
    | S skip => replace_from pat value skip rest
    | O =>
      if starts_with_str pat s then value ++ replace_from pat value (length pat - 1) rest
      else c :: replace_from pat value 0 rest
    end
  end.
Definition str_replace (s pat value : list char) : list char := replace_from pat value 0 s.

(** Lexicographic order of slices. *)
Fixpoint list_cmp {A} (cmp : A -> A -> comparison) (a b : list A) : comparison :=
  match a, b with
  | [], [] => Eq
  | [], _ :: _ => Lt
  | _ :: _, [] => Gt
  | x :: a, y :: b => match cmp x y with Eq => list_cmp cmp a b | c => c end
  end.

(** [Ord for String]. *)
Definition str_cmp (a b : list char) : comparison := list_cmp Z.compare (as_bytes a) (as_bytes b).

(** ** Splitting into rules *)

(** [u8::is_ascii_whitespace]. *)
Definition is_ascii_whitespace (b : Z) : bool :=
  (b =? 32) || (b =? 9) || (b =? 10) || (b =? 12) || (b =? 13).

(** The first inner loop: the bytes of the token, and the escape flag at its end. *)
Fixpoint scan_rule (is_in_escape is_include_exclude new_token : bool) (bytes : list Z) : nat * bool :=
  match bytes with
  | [] => (0%nat, is_in_escape)
  | b :: bytes =>
    let is_unescaped_whitespace := negb is_in_escape && is_ascii_whitespace b in
    let is_unescaped_newline := negb is_in_escape && (b =? c_newline) in
    if is_unescaped_newline || (negb is_include_exclude && is_unescaped_whitespace)
    then (0%nat, is_in_escape)
    else
      let '(i, e) :=
        if (b =? 43) || (b =? 45) then scan_rule (b =? backslash) new_token new_token bytes
        else if negb is_unescaped_whitespace then scan_rule (b =? backslash) false false bytes
        else scan_rule (b =? backslash) is_include_exclude new_token bytes in
      (S i, e)
  end.

(** The second: the whitespace after it. *)
Fixpoint skip_whitespace (is_in_escape : bool) (bytes : list Z) : nat :=
  match bytes with
  | [] => 0
  | b :: bytes =>
    if is_in_escape || negb (is_ascii_whitespace b) then 0
    else S (skip_whitespace (b =? backslash) bytes)
  end.

(** The outer loop: every turn consumes a byte, so the fuel is their number. *)
Fixpoint split_loop (fuel : nat) (bytes : list Z) : list (list Z) :=
  match bytes, fuel with
  | [], _ => []
  | _, O => []
  | _, S fuel =>
    let '(i, e) := scan_rule false false true bytes in
    let rest := drop i bytes in
    let tokens := split_loop fuel (drop (skip_whitespace e rest) rest) in
    if (0 <? i)%nat then take i bytes :: tokens else tokens
  end.
Definition split_whitespace_smart (path : list char) : outcome (list (list char)) :=
  unwrap_utf8 (split_loop (length (as_bytes path)) (as_bytes path)).

(** ** Unresolved filters *)

Notation EntityPathRule := (list Z) (only parsing).
Notation EntityPathFilter := (list (list Z * RuleEffect)) (only parsing).

Definition subtree_suffix : list char := lit "/**".

Definition rule_new (expression : list char) : EntityPathRule := trim expression.
Definition include_subtree (rule : EntityPathRule) : bool := ends_with subtree_suffix rule.
Definition rule_exact (path_or_variable : list char) : EntityPathRule := path_or_variable.
Definition rule_including_subtree (path_or_variable : list char) : EntityPathRule :=
  path_or_variable ++ subtree_suffix.

Section Filters.
Context `{U : UnicodeTables} `{HP : PathHash} `{NO : NaturalOrder}.

Definition rule_exact_entity (path : EntityPath) : EntityPathRule := to_string path.
Definition rule_including_entity_subtree (path : EntityPath) : EntityPathRule :=
  rule_including_subtree (to_string path).

Definition parse_rule (line : list char) : EntityPathRule * RuleEffect :=
  let '(effect, path_pattern) :=
    match line with
    | 43 :: rest => (Include, rest)
    | 45 :: rest => (Exclude, rest)
    | _ => (Include, line)
    end in
  (rule_new path_pattern, effect).

Definition from_query_expressions (rules : list (list char)) : EntityPathFilter :=
  btree_collect str_cmp (parse_rule <$> filter (fun line => line <> []) (trim <$> rules)).

Definition filter_parse_forgiving (rules : list char) : outcome EntityPathFilter :=
  from_query_expressions <$> split_whitespace_smart rules.

Definition insert_rule (self : EntityPathFilter) (effect : RuleEffect) (rule : EntityPathRule) :=
  btree_insert str_cmp rule effect self.
Definition filter_all : EntityPathFilter := btree_collect str_cmp [(rule_including_subtree [], Include)].
Definition add_exact (self : EntityPathFilter) (path_or_variable : list char) :=
  btree_insert str_cmp (rule_exact path_or_variable) Include self.
Definition add_exact_entity (self : EntityPathFilter) (path : EntityPath) :=
  btree_insert str_cmp (rule_exact_entity path) Include self.
Definition add_subtree (self : EntityPathFilter) (path_or_variable : list char) :=
  btree_insert str_cmp (rule_including_subtree path_or_variable) Include self.
Definition add_entity_subtree (self : EntityPathFilter) (entity_path : EntityPath) :=
  btree_insert str_cmp (rule_including_entity_subtree entity_path) Include self.
Definition single_filter (path_or_variable : list char) : EntityPathFilter := add_exact [] path_or_variable.
Definition single_entity_filter (entity_path : EntityPath) : EntityPathFilter := add_exact_entity [] entity_path.
Definition subtree_filter (path_or_variable : list char) : EntityPathFilter := add_subtree [] path_or_variable.
Definition subtree_entity_filter (entity_path : EntityPath) : EntityPathFilter := add_entity_subtree [] entity_path.

(** [+=] and [sum]. *)
Definition filter_add_assign (self rhs : EntityPathFilter) : EntityPathFilter := btree_extend str_cmp self rhs.
Definition filter_sum (iter : list EntityPathFilter) : EntityPathFilter := foldl filter_add_assign [] iter.

Definition expression (rule : EntityPathRule) (effect : RuleEffect) : list char :=
  (match effect with Include => lit "+ " | Exclude => lit "- " end) ++ rule.
Definition iter_expressions (self : EntityPathFilter) : list (list char) :=
  (fun e => expression e.1 e.2) <$> self.

(** ** Resolution *)

Record ResolvedEntityPathRule := mkResolved {
  rule : EntityPathRule;
  resolved_path : EntityPath;
}.

Inductive EntityPathFilterError :=
| FilterPathParseError (e : PathParseError)
| UnresolvedSubstitution (s : list char).

(** At most one substitution, of the origin. *)
Definition EntityPathSubs := list (list char * list char).
Definition new_with_origin (origin : EntityPath) : EntityPathSubs := [(lit "origin", to_string origin)].
Definition empty_subs : EntityPathSubs := [].

Definition substitute_variables (rule : EntityPathRule) (subst_env : EntityPathSubs) : list char :=
  foldl (fun expression_sub '(key, value) =>
    str_replace (str_replace expression_sub (lit "$" ++ key) value) (lit "${" ++ key ++ lit "}") value)
    rule subst_env.

(** The text after the first [$], up to whitespace. *)
Fixpoint find_dollar (s : list char) : option (list char) :=
  match s with [] => None | c :: s => if c =? 36 then Some s else find_dollar s end.
Fixpoint until_whitespace (s : list char) : list char :=
  match s with [] => [] | c :: s => if is_whitespace c then [] else c :: until_whitespace s end.

Definition rule_parse_strict (expression : list char) (subst_env : EntityPathSubs)
    : outcome (result ResolvedEntityPathRule EntityPathFilterError) :=
  let rule := rule_new expression in
  let expression_sub := substitute_variables rule subst_env in
  match find_dollar expression_sub with
  | Some rest => Done (Err (UnresolvedSubstitution (until_whitespace rest)))
  | None =>
    if bool_decide (expression_sub = subtree_suffix) then Done (Ok (mkResolved rule root))
    else
      r ← path_parse_strict (default expression_sub (strip_suffix subtree_suffix expression_sub));
      Done match r with
      | Ok path => Ok (mkResolved rule path)
      | Err e => Err (FilterPathParseError e)
      end
  end.

Definition rule_parse_forgiving (expression : list char) (subst_env : EntityPathSubs)
    : outcome ResolvedEntityPathRule :=
  let rule := rule_new expression in
  let expression_sub := substitute_variables rule subst_env in
  if bool_decide (expression_sub = subtree_suffix) then Done (mkResolved rule root)
  else
    r ← path_parse_forgiving_uncached (default expression_sub (strip_suffix subtree_suffix expression_sub));
    Done (mkResolved rule r.1).

(** [Ord for EntityPath] and for resolved rules. *)
Definition path_cmp (a b : EntityPath) : comparison :=
  list_cmp (part_cmp natural_compare) (parts a) (parts b).
Definition bool_cmp (a b : bool) : comparison :=
  match a, b with false, true => Lt | true, false => Gt | _, _ => Eq end.
Definition rule_subtree (self : ResolvedEntityPathRule) : bool := include_subtree (rule self).
Definition rule_cmp (a b : ResolvedEntityPathRule) : comparison :=
  match path_cmp (resolved_path a) (resolved_path b) with
  | Eq => bool_cmp (negb (rule_subtree a)) (negb (rule_subtree b))
  | c => c
  end.
(** [PartialEq]. *)
Definition rule_eq (a b : ResolvedEntityPathRule) : bool :=
  eqb (rule_subtree a) (rule_subtree b) && path_eq (resolved_path a) (resolved_path b).

Definition resolved_exact_entity (path : EntityPath) : ResolvedEntityPathRule :=
  mkResolved (rule_exact_entity path) path.
Definition resolved_including_subtree (entity_path : EntityPath) : ResolvedEntityPathRule :=
  mkResolved (rule_including_entity_subtree entity_path) entity_path.

Notation ResolvedEntityPathFilter := (list (ResolvedEntityPathRule * RuleEffect)) (only parsing).

(** The exclusion of the recording properties every resolution adds. *)
Definition exclude_properties (rules : ResolvedEntityPathFilter) : ResolvedEntityPathFilter :=
  btree_or_insert rule_cmp (resolved_including_subtree properties) Exclude rules.

Fixpoint resolve_rules_forgiving (rules : EntityPathFilter) (subst_env : EntityPathSubs)
    : outcome ResolvedEntityPathFilter :=
  match rules with
  | [] => Done []
  | (rule, effect) :: rules =>
    r ← rule_parse_forgiving rule subst_env;
    rs ← resolve_rules_forgiving rules subst_env;
    Done ((r, effect) :: rs)
  end.

Definition resolve_forgiving (self : EntityPathFilter) (subst_env : EntityPathSubs)
    : outcome ResolvedEntityPathFilter :=
  rules ← resolve_rules_forgiving self subst_env;
  Done (exclude_properties (btree_collect rule_cmp rules)).

Fixpoint resolve_rules_strict (rules : EntityPathFilter) (subst_env : EntityPathSubs)
    : outcome (result ResolvedEntityPathFilter EntityPathFilterError) :=
  match rules with
  | [] => Done (Ok [])
  | (rule, effect) :: rules =>
    r ← rule_parse_strict rule subst_env;
    match r with
    | Err e => Done (Err e)
    | Ok r =>
      rs ← resolve_rules_strict rules subst_env;
      Done match rs with Ok rs => Ok ((r, effect) :: rs) | Err e => Err e end
    end
  end.

Definition resolve_strict (self : EntityPathFilter) (subst_env : EntityPathSubs)
    : outcome (result ResolvedEntityPathFilter EntityPathFilterError) :=
  rules ← resolve_rules_strict self subst_env;
  Done match rules with
  | Ok rules => Ok (exclude_properties (btree_collect rule_cmp rules))
  | Err e => Err e
  end.

Definition resolve_without_substitutions (self : EntityPathFilter) := resolve_forgiving self empty_subs.

(** ** Resolved filters *)

Definition properties_filter : ResolvedEntityPathFilter :=
  btree_collect rule_cmp [(resolved_including_subtree properties, Include)].

Definition unresolved (self : ResolvedEntityPathFilter) : EntityPathFilter :=
  btree_collect str_cmp
    ((fun e => (rule e.1, e.2)) <$>
      filter (fun e => ~ (rule_eq e.1 (resolved_including_subtree properties) = true /\ e.2 = Exclude)) self).

Definition iter_unresolved_expressions_impl (self : ResolvedEntityPathFilter) (with_properties : bool)
    : list (list char) :=
  (fun e => expression (rule e.1) e.2) <$>
    filter (fun e => with_properties = true \/
      ~ (rule e.1 = rule_including_entity_subtree properties /\ e.2 = Exclude)) self.

Definition rule_matches (self : ResolvedEntityPathRule) (path : EntityPath) : bool :=
  if rule_subtree self then starts_with path (resolved_path self)
  else path_eq path (resolved_path self).

(** [iter().rev().find(|(r, _)| r.matches(path))]. *)
Definition find_last_match (self : ResolvedEntityPathFilter) (path : EntityPath)
    : option (ResolvedEntityPathRule * RuleEffect) :=
  snd <$> list_find (fun e => rule_matches e.1 path = true) (rev self).

Definition most_specific_match (self : ResolvedEntityPathFilter) (path : EntityPath) : option RuleEffect :=
  snd <$> find_last_match self path.

Definition filter_matches (self : ResolvedEntityPathFilter) (path : EntityPath) : bool :=
  match default Exclude (most_specific_match self path) with Include => true | Exclude => false end.

Definition matches_exactly (self : ResolvedEntityPathFilter) (entity_path : EntityPath) : bool :=
  existsb (fun e => bool_decide (e.2 = Include) && negb (rule_subtree e.1)
                    && path_eq (resolved_path e.1) entity_path) self.

Definition add_rule (self : ResolvedEntityPathFilter) (effect : RuleEffect) (rule : ResolvedEntityPathRule) :=
  btree_insert rule_cmp rule effect self.

Definition remove_subtree_and_matching_rules (self : ResolvedEntityPathFilter) (entity_path : EntityPath) :=
  let new_exclusion := mkResolved (rule_including_entity_subtree entity_path) entity_path in
  btree_insert rule_cmp new_exclusion Exclude
    (filter (fun e => rule_matches new_exclusion (resolved_path e.1) = false) self).

Definition remove_rule_for (self : ResolvedEntityPathFilter) (entity_path : EntityPath) :=
  filter (fun e => path_eq (resolved_path e.1) entity_path = false) self.

Definition contains_rule_for_exactly (self : ResolvedEntityPathFilter) (entity_path : EntityPath) : bool :=
  existsb (fun e => path_eq (resolved_path e.1) entity_path) self.
Definition is_explicitly_included (self : ResolvedEntityPathFilter) (entity_path : EntityPath) : bool :=
  existsb (fun e => path_eq (resolved_path e.1) entity_path && bool_decide (e.2 = Include)) self.
Definition is_explicitly_excluded (self : ResolvedEntityPathFilter) (entity_path : EntityPath) : bool :=
  existsb (fun e => path_eq (resolved_path e.1) entity_path && bool_decide (e.2 = Exclude)) self.

(** The second loop of [is_anything_in_subtree_included], over the rules from the last. *)
Fixpoint subtree_loop (rules_rev : ResolvedEntityPathFilter) (path : EntityPath) : bool :=
  match rules_rev with
  | [] => false
  | (rule, effect) :: rules_rev =>
    if rule_matches rule path then
      match effect with
      | Include => true
      | Exclude => if rule_subtree rule then false else subtree_loop rules_rev path
      end
    else subtree_loop rules_rev path
  end.

Definition is_anything_in_subtree_included (self : ResolvedEntityPathFilter) (path : EntityPath) : bool :=
  if existsb (fun e => bool_decide (e.2 = Include) && starts_with (resolved_path e.1) path) self then true
  else subtree_loop (rev self) path.

Definition is_superset_of (self other : ResolvedEntityPathFilter) : bool :=
  forallb (fun '(other_rule, other_effect) =>
    match other_effect with
    | Exclude => true
    | Include =>
      match find_last_match self (resolved_path other_rule) with
      | None => false
      | Some (self_rule, Include) => negb (rule_subtree other_rule && negb (rule_subtree self_rule))
      | Some (_, Exclude) => false
      end
    end) other
  && forallb (fun '(self_rule, self_effect) =>
    match self_effect with
    | Include => true
    | Exclude =>
      match find_last_match other (resolved_path self_rule) with
      | Some (_, Include) => false
      | _ => true
      end
    end) self.

Record FilterEvaluation := mkEvaluation {
  subtree_included : bool;
  matches : bool;
  matches_exactly_ : bool;
}.

(** The state of the loop of [evaluate]. *)
Record EvalState := mkEval {
  ev_subtree_included : bool;
  ev_matches_exactly : bool;
  ev_last_match : option (RuleEffect * bool);
  ev_found_include_in_subtree : bool;
}.

Definition evaluate_step (path : EntityPath) (st : EvalState)
    (e : ResolvedEntityPathRule * RuleEffect) : EvalState :=
  let '(rule, effect) := e in
  let found :=
    negb (ev_found_include_in_subtree st) && bool_decide (effect = Include)
    && starts_with (resolved_path rule) path in
  let exact :=
    negb (ev_matches_exactly st) && bool_decide (effect = Include) && negb (rule_subtree rule)
    && path_eq (resolved_path rule) path in
  mkEval (if found then true else ev_subtree_included st)
    (if exact then true else ev_matches_exactly st)
    (if rule_matches rule path then Some (effect, rule_subtree rule) else ev_last_match st)
    (if found then true else ev_found_include_in_subtree st).

Definition evaluate (self : ResolvedEntityPathFilter) (path : EntityPath) : FilterEvaluation :=
  let st := foldl (evaluate_step path) (mkEval false false None false) self in
  let subtree :=
    match ev_last_match st with
    | Some (Include, _) => true
    | Some (Exclude, include_subtree) =>
      if include_subtree && negb (ev_found_include_in_subtree st) then false
      else ev_subtree_included st
    | None => ev_subtree_included st
    end in
  mkEvaluation subtree
    match ev_last_match st with Some (effect, _) => bool_decide (effect = Include) | None => false end
    (ev_matches_exactly st).
End Filters.

Notation ResolvedEntityPathFilter := (list (ResolvedEntityPathRule * RuleEffect)) (only parsing).

(** ** Lemmas on the splitter *)

Lemma high_not_special b : 128 <= b ->
  is_ascii_whitespace b = false /\ (b =? c_newline) = false /\ (b =? 43) = false /\
  (b =? 45) = false /\ (b =? backslash) = false.
Proof. unfold is_ascii_whitespace, c_newline, backslash. lia. Qed.

Lemma scan_rule_high esc inc new bs rest : Forall (fun b => 128 <= b) bs -> bs <> [] ->
  scan_rule esc inc new (bs ++ rest)
  = let '(i, e) := scan_rule false false false rest in ((length bs + i)%nat, e).
Proof.
  intros Hbs. revert esc inc new. induction Hbs as [|b bs Hb Hbs IH]; intros esc inc new Hne; [done|].
  destruct (high_not_special b Hb) as (E1 & E2 & E3 & E4 & E5).
  cbn [app scan_rule]. rewrite E1, E2, E3, E4, E5, !andb_false_r. cbn [orb negb].
  destruct bs as [|b' bs].
  - simpl. by destruct (scan_rule false false false rest).
  - rewrite IH by done. by destruct (scan_rule false false false rest).
Qed.

Lemma encode_utf8_ascii c : c < 128 -> encode_utf8 c = [c].
Proof. intros H. unfold encode_utf8. by rewrite (proj2 (Z.ltb_lt c 128)). Qed.

Lemma as_bytes_cons c s : as_bytes (c :: s) = encode_utf8 c ++ as_bytes s.
Proof. done. Qed.

Lemma scan_rule_as_bytes esc inc new s : Forall (fun c => is_char c = true) s ->
  scan_rule esc inc new (as_bytes s)
  = let '(k, e) := scan_rule esc inc new s in (length (as_bytes (take k s)), e).
Proof.
  intros Hs. revert esc inc new. induction Hs as [|c s Hc _ IH]; intros esc inc new; [done|].
  rewrite as_bytes_cons. destruct (Z.ltb_spec c 128).
  - rewrite encode_utf8_ascii by done. cbn [app scan_rule].
    destruct (negb esc && (c =? c_newline) || negb inc && (negb esc && is_ascii_whitespace c)); [done|].
    rewrite !IH.
    destruct ((c =? 43) || (c =? 45)); [|destruct (negb (negb esc && is_ascii_whitespace c))];
      destruct (scan_rule _ _ _ s); cbn [take]; rewrite as_bytes_cons, encode_utf8_ascii by done; done.
  - pose proof (encode_utf8_length c). rewrite scan_rule_high.
    2: by apply encode_utf8_high. 2: { destruct (encode_utf8 c); [simpl in *; lia|done]. }
    rewrite IH. destruct (high_not_special c ltac:(lia)) as (E1 & E2 & E3 & E4 & E5).
    cbn [scan_rule]. rewrite E1, E2, E3, E4, E5, !andb_false_r. cbn [orb negb].
    destruct (scan_rule false false false s). cbn [take]. by rewrite as_bytes_cons, length_app.
Qed.

Lemma skip_whitespace_as_bytes esc s : Forall (fun c => is_char c = true) s ->
  skip_whitespace esc (as_bytes s) = length (as_bytes (take (skip_whitespace esc s) s)).
Proof.
  intros Hs. revert esc. induction Hs as [|c s Hc _ IH]; intros esc; [done|].
  rewrite as_bytes_cons. destruct (Z.ltb_spec c 128).
  - rewrite encode_utf8_ascii by done. cbn [app skip_whitespace].
    destruct (esc || negb (is_ascii_whitespace c)); [done|]. rewrite IH. cbn [take].
    by rewrite as_bytes_cons, encode_utf8_ascii.
  - destruct (high_not_special c ltac:(lia)) as (E1 & _). cbn [skip_whitespace]. rewrite E1, orb_true_r.
    pose proof (encode_utf8_high c ltac:(lia) Hc) as Hh. pose proof (encode_utf8_length c).
    destruct (encode_utf8 c) as [|b bs]; [simpl in *; lia|]. cbn [app skip_whitespace].
    inversion Hh as [|? ? Hb _]; subst. destruct (high_not_special b Hb) as (Eb & _).
    by rewrite Eb, orb_true_r.
Qed.

Lemma skip_whitespace_filter esc s :
  filter (fun c => is_ascii_whitespace c = false) (take (skip_whitespace esc s) s) = [].
Proof.
  revert esc. induction s as [|c s IH]; intros esc; [done|]. simpl.
  destruct (esc || negb (is_ascii_whitespace c)) eqn:E; [done|]. simpl.
  apply orb_false_iff in E as [_ E]. apply negb_false_iff in E.
  rewrite filter_cons_False by congruence. apply IH.
Qed.

(** A turn of the outer loop makes progress: where the token is empty there is whitespace. *)
Lemma scan_rule_zero c s i e : scan_rule false false true (c :: s) = (i, e) -> i = 0%nat ->
  (0 < skip_whitespace e (c :: s))%nat.
Proof.
  cbn [scan_rule]. intros H ->.
  destruct (negb false && (c =? c_newline) || negb false && (negb false && is_ascii_whitespace c)) eqn:E.
  - injection H as <-. cbn [skip_whitespace orb].
    assert (is_ascii_whitespace c = true) as ->; [|simpl; lia].
    unfold is_ascii_whitespace, c_newline in *. simpl in E. lia.
  - repeat case_match; simplify_eq.
Qed.

Lemma split_loop_as_bytes fuel s : Forall (fun c => is_char c = true) s ->
  (length (as_bytes s) <= fuel)%nat ->
  exists tokens, split_loop fuel (as_bytes s) = as_bytes <$> tokens /\
    Forall (fun t => t <> [] /\ Forall (fun c => is_char c = true) t) tokens /\
    filter (fun c => is_ascii_whitespace c = false) (concat tokens)
    = filter (fun c => is_ascii_whitespace c = false) s.
Proof.
  revert s. induction fuel as [|fuel IH]; intros s Hs Hf.
  { destruct s as [|c s]; [by exists []|]. rewrite as_bytes_cons, length_app in Hf.
    pose proof (encode_utf8_length c). lia. }
  destruct s as [|c s]; [by exists []|].
  assert (Hstep : split_loop (S fuel) (as_bytes (c :: s)) =
    let '(i, e) := scan_rule false false true (as_bytes (c :: s)) in
    let rest := drop i (as_bytes (c :: s)) in
    let tokens := split_loop fuel (drop (skip_whitespace e rest) rest) in
    if (0 <? i)%nat then take i (as_bytes (c :: s)) :: tokens else tokens).
  { rewrite as_bytes_cons. pose proof (encode_utf8_length c).
    destruct (encode_utf8 c); [simpl in *; lia|done]. }
  rewrite Hstep, scan_rule_as_bytes by done. clear Hstep.
  destruct (scan_rule false false true (c :: s)) as [k e] eqn:Escan.
  rewrite drop_as_bytes, take_as_bytes. cbn zeta.
  assert (Hk : Forall (fun c => is_char c = true) (drop k (c :: s))) by by apply Forall_drop.
  rewrite skip_whitespace_as_bytes, drop_as_bytes by done.
  set (n := skip_whitespace e (drop k (c :: s))).
  destruct (IH (drop n (drop k (c :: s)))) as (tokens & Et & Hall & Hfil); [by apply Forall_drop| |].
  { assert (Hlen : length (as_bytes (c :: s)) = (length (as_bytes (take (k + n) (c :: s)))
      + length (as_bytes (drop n (drop k (c :: s)))))%nat).
    { rewrite drop_drop, <- length_app, <- as_bytes_app, take_drop. done. }
    assert (0 < k + n)%nat.
    { destruct (decide (k = 0%nat)) as [Ek|]; [|lia].
      pose proof (scan_rule_zero c s k e Escan Ek) as Hz. subst k.
      change (skip_whitespace e (c :: s)) with n in Hz. lia. }
    destruct (k + n)%nat as [|m]; [lia|]. cbn [take] in Hlen.
    rewrite (as_bytes_cons c (take m s)), length_app in Hlen.
    pose proof (encode_utf8_length c). lia. }
  rewrite Et.
  assert (Hrest : filter (fun c => is_ascii_whitespace c = false) (concat tokens)
    = filter (fun c => is_ascii_whitespace c = false) (drop k (c :: s))).
  { rewrite Hfil. rewrite <- (take_drop n (drop k (c :: s))) at 2.
    rewrite filter_app. unfold n at 2. by rewrite skip_whitespace_filter. }
  destruct k as [|k].
  - exists tokens. simpl. split_and!; [done|done|]. by rewrite Hrest.
  - destruct (Nat.ltb_spec 0 (length (as_bytes (take (S k) (c :: s))))) as [_|Hz].
    2: { cbn [take] in Hz. rewrite as_bytes_cons, length_app in Hz. pose proof (encode_utf8_length c). lia. }
    exists (take (S k) (c :: s) :: tokens). split; [done|]. split.
    + constructor; [|done]. split; [done|]. by apply Forall_take.
    + cbn [concat]. rewrite filter_app, Hrest, <- filter_app, take_drop. done.
Qed.

(** Splitting a text into rules never panics: the splits fall between characters.  No
    token is empty, and no character is lost or moved except the whitespace that separates. *)
Lemma split_whitespace_smart_spec path : Forall (fun c => is_char c = true) path ->
  exists tokens, split_whitespace_smart path = Done tokens /\
    Forall (fun t => t <> []) tokens /\
    filter (fun c => is_ascii_whitespace c = false) (concat tokens)
    = filter (fun c => is_ascii_whitespace c = false) path.
Proof.
  intros Hs. destruct (split_loop_as_bytes (length (as_bytes path)) path Hs ltac:(lia))
    as (tokens & E & Hall & Hfil).
  exists tokens. split; [|split; [|done]].
  - unfold split_whitespace_smart. rewrite E. apply unwrap_utf8_as_bytes.
    eapply Forall_impl; [done|]. by intros t [? ?].
  - eapply Forall_impl; [done|]. by intros t [? ?].
Qed.

Lemma split_whitespace_smart_spec_witness :
  exists tokens, split_whitespace_smart (lit "+ /a  - /b\ c") = Done tokens /\
    tokens = [lit "+ /a"; lit "- /b\ c"].
Proof.
  destruct (split_whitespace_smart_spec (lit "+ /a  - /b\ c")) as (tokens & H & _);
    [repeat constructor|].
  exists tokens. split; [exact H|]. vm_compute in H. injection H as <-. reflexivity.
Defined.
