(* ===== verification/EntityPathFilterSpec.v ===== *)
(** * What a resolved filter selects

    The queries of [EntityPathFilter] against a reference that does not depend on the order
    of the rules: the effect on a path is that of the exact rule for the path, else that of
    the subtree rule of its nearest ancestor that has one ([ref_match]).  The theorems assume
    that the natural ordering is a total order and that the path hash is perfect, as the code
    does. *)

From S2P Require Import Prelude Ints BTree Text EntityPathPart EntityPath ParsePath EntityPathFilter.

(** ** The orders *)

Class NaturalOrderLaws (NO : NaturalOrder) := {
  natural_laws :: OrdLaws natural_compare;
  natural_eq a b : natural_compare a b = Eq -> a = b;
}.

(** [dl_string_interner] and [hash.rs]: the hash is assumed to be perfect. *)
Class PerfectHash (HP : PathHash) := hash_inj a b : Hash64_hash a = Hash64_hash b -> a = b.

Section ListOrder.
Context {A} (cmp : A -> A -> comparison) `{!OrdLaws cmp} (cmp_eq : forall a b, cmp a b = Eq -> a = b).

Lemma list_cmp_eq a b : list_cmp cmp a b = Eq -> a = b.
Proof.
  revert b. induction a as [|x a IH]; intros [|y b]; simpl; try done.
  destruct (cmp x y) eqn:E; try done. intros H. apply cmp_eq in E as ->. by rewrite (IH b H).
Qed.

Lemma list_cmp_refl a : list_cmp cmp a a = Eq.
Proof. induction a as [|x a IH]; simpl; [done|]. by rewrite cmp_refl. Qed.

#[export] Instance list_cmp_laws : OrdLaws (list_cmp cmp).
Proof using All.
  split.
  - apply list_cmp_refl.
  - intros x. induction x as [|a x IH]; intros [|b y]; simpl; try done.
    rewrite (cmp_antisym a b). destruct (cmp a b); simpl; try done.
  - intros x. induction x as [|a x IH]; intros [|b y] [|c z]; simpl; try done.
    destruct (cmp a b) eqn:E1; [apply cmp_eq in E1 as -> | |done].
    + destruct (cmp b c) eqn:E2; [|done|done]. apply IH.
    + intros _. destruct (cmp b c) eqn:E2; [apply cmp_eq in E2 as ->; by rewrite E1| |done].
      intros _. by rewrite (cmp_trans _ _ _ E1 E2).
  - intros x y z H. by apply list_cmp_eq in H as ->.
Qed.

(** A strict prefix comes first. *)
Lemma list_cmp_prefix a x b : list_cmp cmp a (a ++ x :: b) = Lt.
Proof using OrdLaws0. induction a as [|y a IH]; simpl; [done|]. by rewrite cmp_refl. Qed.
End ListOrder.

Section Spec.
Context `{U : UnicodeTables} `{HP : PathHash} `{NO : NaturalOrder} `{!NaturalOrderLaws NO} `{!PerfectHash HP}.

Lemma part_cmp_eq a b : part_cmp natural_compare a b = Eq -> a = b.
Proof. unfold part_cmp. repeat case_match; try done; apply natural_eq. Qed.

#[export] Instance part_cmp_laws : OrdLaws (part_cmp natural_compare).
Proof using All.
  split.
  - intros x. unfold part_cmp. destruct (starts_with_str _ x); apply cmp_refl.
  - intros x y. unfold part_cmp.
    destruct (starts_with_str _ x), (starts_with_str _ y); try done; apply cmp_antisym.
  - intros x y z. unfold part_cmp.
    destruct (starts_with_str _ x), (starts_with_str _ y), (starts_with_str _ z); try done; apply cmp_trans.
  - intros x y z H. by apply part_cmp_eq in H as ->.
Qed.

#[export] Instance path_cmp_laws : OrdLaws path_cmp.
Proof using All.
  pose proof (list_cmp_laws _ part_cmp_eq) as L. unfold path_cmp. split; intros *; apply L.
Qed.

Lemma path_cmp_eq a b : path_cmp a b = Eq <-> parts a = parts b.
Proof.
  unfold path_cmp. split; [apply list_cmp_eq, part_cmp_eq|]. intros ->. apply list_cmp_refl, _.
Qed.

Lemma rule_cmp_eq a b : rule_cmp a b = Eq <->
  parts (resolved_path a) = parts (resolved_path b) /\ rule_subtree a = rule_subtree b.
Proof.
  unfold rule_cmp. rewrite <- path_cmp_eq.
  destruct (path_cmp (resolved_path a) (resolved_path b)); [|naive_solver..].
  destruct (rule_subtree a), (rule_subtree b); simpl; naive_solver.
Qed.

#[export] Instance rule_cmp_laws : OrdLaws rule_cmp.
Proof using All.
  split.
  - intros x. by apply rule_cmp_eq.
  - intros x y. unfold rule_cmp. rewrite (cmp_antisym (resolved_path x)).
    destruct (path_cmp (resolved_path x) (resolved_path y)); simpl; try done.
    by destruct (rule_subtree x), (rule_subtree y).
  - intros x y z. unfold rule_cmp.
    destruct (path_cmp (resolved_path x) (resolved_path y)) eqn:E1; [| |done].
    + rewrite (cmp_eq_l _ _ (resolved_path z) E1).
      destruct (path_cmp (resolved_path y) (resolved_path z)); try done.
      by destruct (rule_subtree x), (rule_subtree y), (rule_subtree z).
    + intros _. destruct (path_cmp (resolved_path y) (resolved_path z)) eqn:E2; [| |done].
      * by rewrite <- (cmp_eq_r path_cmp _ _ (resolved_path x) E2), E1.
      * intros _. by rewrite (cmp_trans _ _ _ E1 E2).
  - intros x y z [Hp Hs]%rule_cmp_eq. unfold rule_cmp. rewrite Hs.
    by rewrite (cmp_eq_l _ _ (resolved_path z) (proj2 (path_cmp_eq _ _) Hp)).
Qed.

(** ** Rules as a finite map *)

Definition wf_filter (f : list (ResolvedEntityPathRule * RuleEffect)) : Prop :=
  btree_ok rule_cmp f /\ Forall (fun e => wf_path (resolved_path e.1)) f.

Definition key_rule (ps : list (list char)) (subtree : bool) : ResolvedEntityPathRule :=
  mkResolved (if subtree then subtree_suffix else []) (from_parts ps).

(** The effect of the rule for a path, for its subtree or for itself. *)
Definition rule_at (f : list (ResolvedEntityPathRule * RuleEffect)) (ps : list (list char)) (subtree : bool)
    : option RuleEffect := btree_get rule_cmp (key_rule ps subtree) f.

(** The subtree rule of the nearest of the first [n] ancestors. *)
Fixpoint ref_up (f : list (ResolvedEntityPathRule * RuleEffect)) (n : nat) (ps : list (list char))
    : option RuleEffect :=
  match rule_at f (take n ps) true with
  | Some e => Some e
  | None => match n with O => None | S n => ref_up f n ps end
  end.

Definition ref_match (f : list (ResolvedEntityPathRule * RuleEffect)) (ps : list (list char))
    : option RuleEffect :=
  match rule_at f ps false with Some e => Some e | None => ref_up f (length ps) ps end.

Lemma key_rule_subtree ps b : rule_subtree (key_rule ps b) = b.
Proof. by destruct b. Qed.

Lemma same_key_rule ps b r :
  same_key rule_cmp (key_rule ps b) r = true <-> parts (resolved_path r) = ps /\ rule_subtree r = b.
Proof. rewrite same_key_true, rule_cmp_eq, key_rule_subtree. simpl. naive_solver. Qed.

Lemma rule_at_Some f ps b e : btree_ok rule_cmp f ->
  rule_at f ps b = Some e <->
  exists r, (r, e) ∈ f /\ parts (resolved_path r) = ps /\ rule_subtree r = b.
Proof.
  intros Hf. unfold rule_at. rewrite (btree_get_Some rule_cmp) by done.
  by setoid_rewrite same_key_rule.
Qed.

Lemma rule_at_entry f r e : btree_ok rule_cmp f -> (r, e) ∈ f ->
  rule_at f (parts (resolved_path r)) (rule_subtree r) = Some e.
Proof. intros Hf Hin. apply rule_at_Some; [done|]. by exists r. Qed.

Lemma ref_up_Some f n ps e : ref_up f n ps = Some e <->
  exists k, (k <= n)%nat /\ rule_at f (take k ps) true = Some e /\
    forall j, (k < j <= n)%nat -> rule_at f (take j ps) true = None.
Proof.
  induction n as [|n IH]; cbn [ref_up].
  - destruct (rule_at f (take 0 ps) true) eqn:E; split.
    + intros [= ->]. exists 0%nat. split_and!; [lia|done|]. intros; lia.
    + intros (k & Hk & H & _). replace k with 0%nat in H by lia. congruence.
    + done.
    + intros (k & Hk & H & _). replace k with 0%nat in H by lia. congruence.
  - destruct (rule_at f (take (S n) ps) true) eqn:E.
    + split.
      * intros [= ->]. exists (S n). split_and!; [lia|done|]. intros; lia.
      * intros (k & Hk & H & Hj). destruct (decide (k = S n)) as [->|]; [congruence|].
        rewrite (Hj (S n)) in E by lia. done.
    + rewrite IH. split; intros (k & Hk & H & Hj); exists k; (split; [|split; [done|]]).
      * lia.
      * intros j Hjn. destruct (decide (j = S n)) as [->|]; [done|]. apply Hj. lia.
      * destruct (decide (k = S n)) as [->|]; [congruence|lia].
      * intros j Hjn. apply Hj. lia.
Qed.

Lemma ref_up_None f n ps : ref_up f n ps = None <->
  forall j, (j <= n)%nat -> rule_at f (take j ps) true = None.
Proof.
  induction n as [|n IH]; cbn [ref_up].
  - destruct (rule_at f (take 0 ps) true) eqn:E; split; try done.
    + intros H. rewrite (H 0%nat) in E by lia. done.
    + intros _ j Hj. by replace j with 0%nat by lia.
  - destruct (rule_at f (take (S n) ps) true) eqn:E.
    + split; [done|]. intros H. rewrite (H (S n)) in E by lia. done.
    + rewrite IH. split; intros H j Hj; [|apply H; lia].
      destruct (decide (j = S n)) as [->|]; [done|]. apply H. lia.
Qed.

(** ** The last matching rule *)

Lemma path_eq_ok a b : wf_path a -> wf_path b -> path_eq a b = true <-> parts a = parts b.
Proof using PerfectHash0.
  unfold wf_path, path_eq. intros -> ->. rewrite Z.eqb_eq. split; [apply hash_inj|by intros ->].
Qed.

Lemma starts_with_wf a b : wf_path a -> wf_path b ->
  starts_with a b = true <-> parts b `prefix_of` parts a.
Proof using PerfectHash0.
  intros Ha Hb. apply starts_with_ok; [done..|]. intros E. apply hash_inj. unfold wf_path in *. congruence.
Qed.

Lemma rule_matches_ok r p : wf_path (resolved_path r) -> wf_path p ->
  rule_matches r p = true <->
  if rule_subtree r then parts (resolved_path r) `prefix_of` parts p
  else parts (resolved_path r) = parts p.
Proof using PerfectHash0.
  intros Hr Hp. unfold rule_matches. destruct (rule_subtree r); [by apply starts_with_wf|].
  rewrite path_eq_ok by done. naive_solver.
Qed.

(** Among rules that match one path, the order is specificity. *)
Definition rank (r : ResolvedEntityPathRule) : nat :=
  (2 * length (parts (resolved_path r)) + if rule_subtree r then 0 else 1)%nat.

Lemma rule_matches_prefix r p : wf_path (resolved_path r) -> wf_path p -> rule_matches r p = true ->
  parts (resolved_path r) `prefix_of` parts p.
Proof using PerfectHash0.
  intros Hr Hp Hm. apply rule_matches_ok in Hm; [|done..].
  destruct (rule_subtree r); [done|by rewrite Hm].
Qed.

Lemma rank_lt p r1 r2 : wf_path p -> wf_path (resolved_path r1) -> wf_path (resolved_path r2) ->
  rule_matches r1 p = true -> rule_matches r2 p = true ->
  rule_cmp r1 r2 = Lt <-> (rank r1 < rank r2)%nat.
Proof using All.
  intros Hp H1 H2 M1 M2.
  assert (Hlt : forall r1 r2, parts (resolved_path r1) `prefix_of` parts p ->
    parts (resolved_path r2) `prefix_of` parts p ->
    (rank r1 < rank r2)%nat -> rule_cmp r1 r2 = Lt).
  { intros a b Ha Hb Hr. unfold rank in Hr. unfold rule_cmp.
    destruct (decide (length (parts (resolved_path a)) = length (parts (resolved_path b)))) as [E|E].
    - assert (parts (resolved_path a) = parts (resolved_path b)) as Eq.
      { rewrite (prefix_of_take _ _ Ha), (prefix_of_take _ _ Hb). by rewrite E. }
      rewrite (proj2 (path_cmp_eq _ _) Eq).
      destruct (rule_subtree a), (rule_subtree b); simpl; try done; lia.
    - assert (length (parts (resolved_path a)) < length (parts (resolved_path b)))%nat
        by (destruct (rule_subtree a), (rule_subtree b); lia).
      assert (exists x k, parts (resolved_path b) = parts (resolved_path a) ++ x :: k) as (x & k & Eb).
      { destruct (prefix_weak_total _ _ _ Ha Hb) as [[k Hk]|[k Hk]].
        - destruct k as [|x k]; [rewrite app_nil_r in Hk; congruence|]. eauto.
        - rewrite Hk, length_app in *. lia. }
      unfold path_cmp. by rewrite Eb, (list_cmp_prefix _). }
  pose proof (rule_matches_prefix _ _ H1 Hp M1). pose proof (rule_matches_prefix _ _ H2 Hp M2).
  split; [|by apply Hlt]. intros E. destruct (Nat.lt_trichotomy (rank r1) (rank r2)) as [?|[Er|Er]]; [done| |].
  - exfalso. assert (rule_cmp r1 r2 = Eq); [|congruence]. apply rule_cmp_eq. unfold rank in Er.
    assert (length (parts (resolved_path r1)) = length (parts (resolved_path r2)) /\
            rule_subtree r1 = rule_subtree r2) as [El Es]
      by (destruct (rule_subtree r1), (rule_subtree r2); split; try done; lia).
    split; [|done]. rewrite (prefix_of_take _ (parts p)) at 1 by done.
    symmetry. rewrite (prefix_of_take _ (parts p)) at 1 by done. by rewrite El.
  - apply Hlt in Er; [|done..]. rewrite cmp_antisym, E in Er. done.
Qed.

(** [find_last_match] in terms of membership. *)
Lemma find_last_cons x f p :
  find_last_match (x :: f) p
  = match find_last_match f p with
    | Some y => Some y
    | None => if rule_matches x.1 p then Some x else None
    end.
Proof.
  unfold find_last_match. simpl.
  destruct (list_find (fun e => rule_matches e.1 p = true) (rev f)) as [[i y]|] eqn:E.
  - by rewrite (list_find_app_l _ _ _ _ _ E).
  - rewrite list_find_app_r by done. simpl.
    case_decide as Hm; [by rewrite Hm|]. apply not_true_is_false in Hm. by rewrite Hm.
Qed.

Lemma find_last_None f p : find_last_match f p = None <->
  forall r e, (r, e) ∈ f -> rule_matches r p = false.
Proof.
  induction f as [|[r0 e0] f IH].
  { split; [intros _ r e H; by apply elem_of_nil in H|done]. }
  rewrite find_last_cons. destruct (find_last_match f p) as [y|].
  - split; [done|]. intros H. destruct IH as [_ IH]. specialize (IH ltac:(intros; eapply H; by right)). done.
  - simpl. destruct IH as [IH _]. specialize (IH eq_refl).
    destruct (rule_matches r0 p) eqn:E.
    + split; [done|]. intros H. rewrite (H r0 e0) in E; [done|by left].
    + split; [|done]. intros _ r e [[= -> ->]|Hin]%elem_of_cons; [done|by eapply IH].
Qed.

Lemma find_last_max f p r e : btree_ok rule_cmp f -> find_last_match f p = Some (r, e) ->
  (r, e) ∈ f /\ rule_matches r p = true /\
  forall r' e', (r', e') ∈ f -> rule_matches r' p = true -> (r', e') = (r, e) \/ rule_cmp r' r = Lt.
Proof.
  induction 1 as [|[r0 e0] f Hf IH Hall]; [done|]. rewrite find_last_cons.
  destruct (find_last_match f p) as [y|] eqn:E.
  - intros [= ->]. destruct (IH eq_refl) as (Hin & Hm & Hmax). split_and!; [by right|done|].
    intros r' e' [[= -> ->]|Hin']%elem_of_cons Hm'; [right|by eapply Hmax].
    rewrite Forall_forall in Hall. exact (Hall _ Hin).
  - simpl. destruct (rule_matches r0 p) eqn:Em; [|done]. intros [= -> ->].
    split_and!; [by left|done|]. intros r' e' [[= -> ->]|Hin']%elem_of_cons Hm'; [by left|].
    rewrite find_last_None in E. by rewrite (E _ _ Hin') in Hm'.
Qed.

Lemma find_last_Some f p r e : wf_filter f -> wf_path p ->
  find_last_match f p = Some (r, e) <->
  (r, e) ∈ f /\ rule_matches r p = true /\
  forall r' e', (r', e') ∈ f -> rule_matches r' p = true -> (rank r' <= rank r)%nat.
Proof using All.
  intros [Hok Hwf] Hp.
  assert (Hrank : forall r e r' e', (r, e) ∈ f -> (r', e') ∈ f -> rule_matches r p = true ->
    rule_matches r' p = true -> rule_cmp r' r = Lt <-> (rank r' < rank r)%nat).
  { intros a x b y Ha Hb Hma Hmb. rewrite Forall_forall in Hwf.
    apply (rank_lt p); try done; [exact (Hwf _ Hb)|exact (Hwf _ Ha)]. }
  split.
  - intros H. destruct (find_last_max f p r e Hok H) as (Hin & Hm & Hmax). split_and!; [done..|].
    intros r' e' Hin' Hm'. destruct (Hmax r' e' Hin' Hm') as [[= -> ->]|Hlt]; [done|].
    apply (Hrank r e r' e') in Hlt; [lia|done..].
  - intros (Hin & Hm & Hmax). destruct (find_last_match f p) as [[r0 e0]|] eqn:E.
    + destruct (find_last_max f p r0 e0 Hok E) as (Hin0 & Hm0 & Hmax0).
      destruct (Hmax0 r e Hin Hm) as [<-|Hlt]; [done|].
      apply (Hrank r0 e0 r e) in Hlt; [|done..]. specialize (Hmax r0 e0 Hin0 Hm0). lia.
    + rewrite find_last_None in E. by rewrite (E r e Hin) in Hm.
Qed.

(** ** The reference *)

Lemma wf_filter_entry f r e : wf_filter f -> (r, e) ∈ f -> wf_path (resolved_path r).
Proof. intros [_ Hwf] Hin. rewrite Forall_forall in Hwf. exact (Hwf _ Hin). Qed.

Lemma prefix_take_iff (q ps : list (list char)) :
  q `prefix_of` ps <-> exists j, (j <= length ps)%nat /\ q = take j ps.
Proof.
  split.
  - intros Hq. exists (length q). split; [by apply prefix_length|by apply prefix_of_take].
  - intros (j & _ & ->). exists (drop j ps). by rewrite take_drop.
Qed.

Lemma most_specific_match_ok f p : wf_filter f -> wf_path p ->
  most_specific_match f p = ref_match f (parts p).
Proof using All.
  intros Hf Hp. pose proof Hf as [Hok _]. unfold most_specific_match.
  destruct (find_last_match f p) as [[r e]|] eqn:E; simpl.
  - apply find_last_Some in E as (Hin & Hm & Hmax); [|done..].
    pose proof (wf_filter_entry f r e Hf Hin) as Hr.
    assert (Hno : forall ps b e', rule_at f ps b = Some e' ->
      (if b then ps `prefix_of` parts p else ps = parts p) ->
      (2 * length ps + (if b then 0 else 1) <= rank r)%nat).
    { intros ps b e' He' Hb. apply rule_at_Some in He' as (r' & Hin' & Hps & Hs); [|done].
      assert (rule_matches r' p = true) as Hm'.
      { apply rule_matches_ok; [by eapply wf_filter_entry|done|]. rewrite Hs, Hps. by destruct b. }
      specialize (Hmax r' e' Hin' Hm'). unfold rank in Hmax at 1. by rewrite Hps, Hs in Hmax. }
    pose proof (rule_at_entry f r e Hok Hin) as He.
    apply rule_matches_ok in Hm; [|done..]. unfold ref_match, rank in *.
    destruct (rule_subtree r).
    + pose proof (prefix_length _ _ Hm) as Hl.
      destruct (rule_at f (parts p) false) as [e'|] eqn:Ex.
      { specialize (Hno _ _ _ Ex eq_refl). cbn iota in Hno. lia. }
      symmetry. apply ref_up_Some. exists (length (parts (resolved_path r))).
      split_and!; [done|by rewrite <- (prefix_of_take _ _ Hm)|].
      intros j Hj. destruct (rule_at f (take j (parts p)) true) as [e'|] eqn:Et; [|done].
      specialize (Hno _ _ _ Et ltac:(apply prefix_take_iff; exists j; split; [lia|done])).
      rewrite length_take in Hno. cbn iota in Hno. lia.
    + rewrite Hm in He. by rewrite He.
  - rewrite find_last_None in E. unfold ref_match.
    assert (Hno : forall ps (b : bool), (if b then ps `prefix_of` parts p else ps = parts p) -> rule_at f ps b = None).
    { intros ps b Hb. destruct (rule_at f ps b) as [e|] eqn:He; [|done].
      apply rule_at_Some in He as (r & Hin & Hps & Hs); [|done].
      assert (rule_matches r p = true); [|by rewrite (E r e Hin) in *].
      apply rule_matches_ok; [by eapply wf_filter_entry|done|]. rewrite Hs, Hps. by destruct b. }
    rewrite (Hno (parts p) false) by done. symmetry. apply ref_up_None. intros j Hj. apply Hno.
    apply prefix_take_iff. by exists j.
Qed.

Definition ref_matches (f : list (ResolvedEntityPathRule * RuleEffect)) (ps : list (list char)) : bool :=
  bool_decide (ref_match f ps = Some Include).

Lemma filter_matches_ok f p : wf_filter f -> wf_path p ->
  filter_matches f p = ref_matches f (parts p).
Proof using All.
  intros Hf Hp. unfold filter_matches, ref_matches. rewrite most_specific_match_ok by done.
  by destruct (ref_match f (parts p)) as [[]|].
Qed.

(** Two filters with the same rules above a path treat it alike. *)
Lemma ref_match_ext f g ps :
  rule_at f ps false = rule_at g ps false ->
  (forall j, (j <= length ps)%nat -> rule_at f (take j ps) true = rule_at g (take j ps) true) ->
  ref_match f ps = ref_match g ps.
Proof.
  intros He Hs. unfold ref_match. rewrite He. destruct (rule_at g ps false); [done|].
  remember (length ps) as n eqn:En. clear En. induction n as [|n IH]; cbn [ref_up].
  - by rewrite Hs by lia.
  - rewrite Hs by lia. destruct (rule_at g (take (S n) ps) true); [done|]. apply IH.
    intros j Hj. apply Hs. lia.
Qed.

(** ** Well-formed filters *)

Lemma btree_insert_elem_path f r e : wf_path (resolved_path r) ->
  Forall (fun x => wf_path (resolved_path x.1)) f ->
  Forall (fun x : ResolvedEntityPathRule * RuleEffect => wf_path (resolved_path x.1)) (btree_insert rule_cmp r e f).
Proof.
  intros Hr Hf. induction Hf as [|[r' e'] f Hx Hf IH]; simpl; [by repeat constructor|].
  destruct (rule_cmp r r'); by repeat constructor.
Qed.

Lemma wf_filter_insert f r e : wf_filter f -> wf_path (resolved_path r) ->
  wf_filter (btree_insert rule_cmp r e f).
Proof using All.
  intros [Hok Hwf] Hr. split; [by apply (btree_insert_ok rule_cmp)|by apply btree_insert_elem_path].
Qed.

Lemma wf_filter_filter (P : ResolvedEntityPathRule * RuleEffect -> Prop) `{!forall x, Decision (P x)} f :
  wf_filter f -> wf_filter (filter P f).
Proof.
  intros [Hok Hwf]. split; [by apply btree_filter_ok|].
  apply Forall_forall. intros x Hx. apply list_elem_of_filter in Hx as [_ Hx].
  rewrite Forall_forall in Hwf. by apply Hwf.
Qed.

Lemma rule_at_insert f r e ps b :
  rule_at (btree_insert rule_cmp r e f) ps b
  = if decide (parts (resolved_path r) = ps /\ rule_subtree r = b) then Some e else rule_at f ps b.
Proof using All.
  unfold rule_at. rewrite (btree_get_insert rule_cmp).
  case_decide as H; [by rewrite (proj2 (same_key_rule ps b r) H)|].
  destruct (same_key rule_cmp (key_rule ps b) r) eqn:E; [|done]. by apply same_key_rule in E.
Qed.

Lemma including_entity_subtree_suffix s : include_subtree (rule_including_subtree s) = true.
Proof.
  unfold include_subtree, rule_including_subtree, ends_with, strip_suffix. rewrite length_app.
  rewrite (proj2 (Nat.leb_le _ _)) by lia.
  replace (length s + length subtree_suffix - length subtree_suffix)%nat with (length s) by lia.
  by rewrite drop_app_length, bool_decide_true.
Qed.

(** Resolution produces well-formed filters. *)
Lemma rule_parse_forgiving_wf s env r : rule_parse_forgiving s env = Done r -> wf_path (resolved_path r).
Proof.
  unfold rule_parse_forgiving. case_bool_decide; [by intros [= <-]|].
  unfold path_parse_forgiving_uncached. destruct (tokenize_entity_path _); [|done]. by intros [= <-].
Qed.

Lemma resolve_forgiving_wf self env f : resolve_forgiving self env = Done f -> wf_filter f.
Proof using All.
  unfold resolve_forgiving. destruct (resolve_rules_forgiving self env) as [rs|] eqn:E; [|done].
  intros [= <-].
  assert (Hrs : Forall (fun e => wf_path (resolved_path e.1)) rs).
  { clear -E. revert rs E. induction self as [|[r e] self IH]; intros rs E; simpl in E.
    { injection E as <-. constructor. }
    destruct (rule_parse_forgiving r env) as [r'|] eqn:Er; [|done]. simpl in E.
    destruct (resolve_rules_forgiving self env) as [rs'|]; [|done]. injection E as <-.
    constructor; [by eapply rule_parse_forgiving_wf|by apply IH]. }
  assert (Hc : wf_filter (btree_collect rule_cmp rs)).
  { unfold btree_collect, btree_extend. assert (H0 : wf_filter []) by (split; constructor).
    revert H0. generalize (@nil (ResolvedEntityPathRule * RuleEffect)).
    clear E. induction Hrs as [|x rs Hx _ IH]; intros m Hm; simpl; [done|]. apply IH, wf_filter_insert; [exact Hm|exact Hx]. }
  unfold exclude_properties, btree_or_insert. case_match; [done|]. by apply wf_filter_insert.
Qed.

(** ** Removing a subtree *)

Lemma remove_subtree_rule_at f e ps b : wf_filter f -> wf_path e ->
  rule_at (remove_subtree_and_matching_rules f e) ps b
  = if decide (parts e = ps /\ b = true) then Some Exclude
    else if decide (parts e `prefix_of` ps) then None else rule_at f ps b.
Proof using All.
  intros Hf He. unfold remove_subtree_and_matching_rules. rewrite rule_at_insert.
  set (new := mkResolved _ e).
  assert (Hsub : rule_subtree new = true) by apply including_entity_subtree_suffix.
  destruct (decide (parts (resolved_path new) = ps /\ rule_subtree new = b)) as [[H1 H2]|Hn].
  { rewrite decide_True; [done|]. split; [done|congruence]. }
  rewrite (decide_False (P := parts e = ps /\ b = true)).
  2: { intros [H1 H2]. apply Hn. split; [done|congruence]. }
  assert (Hmatch : forall p, wf_path p -> rule_matches new p = true <-> parts e `prefix_of` parts p).
  { intros p Hp. rewrite rule_matches_ok by done. by rewrite Hsub. }
  pose proof Hf as [Hok Hwf].
  assert (Hok' : btree_ok rule_cmp (filter (fun x => rule_matches new (resolved_path x.1) = false) f))
    by by apply btree_filter_ok.
  apply option_eq. intros x. rewrite rule_at_Some by done.
  destruct (decide (parts e `prefix_of` ps)) as [Hpre|Hpre].
  - split; [|done]. intros (r & Hin & Hps & Hs). apply list_elem_of_filter in Hin as [Hm Hin]. simpl in Hm.
    assert (rule_matches new (resolved_path r) = true); [|congruence].
    apply Hmatch; [by eapply wf_filter_entry|]. by rewrite Hps.
  - rewrite rule_at_Some by done. split; intros (r & Hin & Hps & Hs); exists r; (split; [|done]).
    + by apply list_elem_of_filter in Hin as [_ ?].
    + apply list_elem_of_filter. split; [|done]. simpl. apply not_true_is_false.
      rewrite Hmatch by (by eapply wf_filter_entry). by rewrite Hps.
Qed.

Lemma remove_subtree_ref f e ps : wf_filter f -> wf_path e ->
  ref_match (remove_subtree_and_matching_rules f e) ps
  = if decide (parts e `prefix_of` ps) then Some Exclude else ref_match f ps.
Proof using All.
  intros Hf He. destruct (decide (parts e `prefix_of` ps)) as [Hpre|Hpre].
  - unfold ref_match. rewrite remove_subtree_rule_at by done.
    rewrite decide_False by naive_solver. rewrite decide_True by done.
    apply ref_up_Some. exists (length (parts e)). split; [by apply prefix_length|]. split.
    + rewrite remove_subtree_rule_at by done. rewrite <- (prefix_of_take _ _ Hpre). by rewrite decide_True.
    + intros j Hj. rewrite remove_subtree_rule_at by done. rewrite decide_False.
      2: { intros [E _]. rewrite E, length_take in Hj. lia. }
      rewrite decide_True; [done|]. apply prefix_take_iff in Hpre as (k & Hk & Ek).
      apply prefix_take_iff. exists k. rewrite Ek in Hj |- *. rewrite !length_take in *.
      split; [lia|]. rewrite take_take. f_equal. lia.
  - apply ref_match_ext.
    + rewrite remove_subtree_rule_at by done. rewrite !decide_False by naive_solver. done.
    + intros j Hj. rewrite remove_subtree_rule_at by done.
      assert (Hnp : ~ parts e `prefix_of` take j ps).
      { intros H. apply Hpre. etrans; [done|]. apply prefix_take_iff. by exists j. }
      rewrite !decide_False; [done|done|]. intros [E _]. apply Hnp. by rewrite E.
Qed.

(** ** Anything in a subtree *)

Lemma fresh_part (f : list (ResolvedEntityPathRule * RuleEffect)) : exists x : list char,
  forall r e, (r, e) ∈ f -> x ∉ parts (resolved_path r).
Proof.
  exists (fresh (f ≫= (fun e => parts (resolved_path e.1)))). intros r e Hin Hx.
  apply (infinite_is_fresh (f ≫= (fun e => parts (resolved_path e.1)))).
  apply list_elem_of_bind. by exists (r, e).
Qed.

Lemma rule_at_fresh f x ps b : btree_ok rule_cmp f ->
  (forall r e, (r, e) ∈ f -> x ∉ parts (resolved_path r)) -> rule_at f (ps ++ [x]) b = None.
Proof.
  intros Hok Hx. destruct (rule_at f (ps ++ [x]) b) as [e|] eqn:E; [|done].
  apply rule_at_Some in E as (r & Hin & Hps & _); [|done]. exfalso. apply (Hx r e Hin).
  rewrite Hps. apply elem_of_app. right. by apply list_elem_of_singleton.
Qed.

(** A child no rule mentions has the effect of the nearest subtree rule. *)
Lemma ref_match_fresh f x ps : btree_ok rule_cmp f ->
  (forall r e, (r, e) ∈ f -> x ∉ parts (resolved_path r)) ->
  ref_match f (ps ++ [x]) = ref_up f (length ps) ps.
Proof.
  intros Hok Hx. unfold ref_match. rewrite rule_at_fresh by done.
  rewrite length_app, Nat.add_1_r. cbn [ref_up].
  rewrite take_ge by (rewrite length_app; simpl; lia). rewrite rule_at_fresh by done.
  assert (H : forall n, (n <= length ps)%nat -> ref_up f n (ps ++ [x]) = ref_up f n ps); [|by apply H].
  induction n as [|n IH]; intros Hn; cbn [ref_up]; rewrite take_app_le by lia; [done|].
  by rewrite IH by lia.
Qed.

(** The rules without the exclusions of a single path. *)
Definition without_exact_excludes (f : list (ResolvedEntityPathRule * RuleEffect)) :=
  filter (fun e => ~ (e.2 = Exclude /\ rule_subtree e.1 = false)) f.

Lemma filter_rev {A} (P : A -> Prop) `{!forall x, Decision (P x)} (l : list A) :
  filter P (rev l) = rev (filter P l).
Proof.
  induction l as [|x l IH]; [done|]. simpl. rewrite filter_app, IH, !filter_cons.
  case_decide; simpl; [done|]. by rewrite filter_nil, app_nil_r.
Qed.

Lemma subtree_loop_eq f p :
  subtree_loop (rev f) p = bool_decide (snd <$> find_last_match (without_exact_excludes f) p = Some Include).
Proof.
  enough (forall l, subtree_loop l p = bool_decide (snd <$> (snd <$> list_find
    (fun e => rule_matches e.1 p = true) (without_exact_excludes l)) = Some Include)) as H.
  { rewrite H. unfold find_last_match, without_exact_excludes. by rewrite filter_rev. }
  induction l as [|[r e] l IH]; [done|]. unfold without_exact_excludes in *. rewrite filter_cons.
  cbn [subtree_loop]. rewrite IH. clear IH. set (fl := filter _ l).
  assert (Hfind : snd <$> (snd <$> list_find (fun e => rule_matches e.1 p = true) ((r, e) :: fl))
    = if rule_matches r p then Some e
      else snd <$> (snd <$> list_find (fun e => rule_matches e.1 p = true) fl)).
  { cbn [list_find fst]. destruct (rule_matches r p); case_decide; try done.
    by destruct (list_find _ fl) as [[]|]. }
  case_decide as Hd; cbn [fst snd] in Hd.
  - rewrite Hfind. destruct (rule_matches r p); [|done]. destruct e; [done|].
    destruct (rule_subtree r); [done|]. by exfalso; apply Hd.
  - destruct (rule_matches r p); [|done]. destruct e; [naive_solver|].
    destruct (rule_subtree r); naive_solver.
Qed.

Lemma without_exact_excludes_at f ps b : btree_ok rule_cmp f ->
  rule_at (without_exact_excludes f) ps b
  = match rule_at f ps b with Some Exclude => if b then Some Exclude else None | o => o end.
Proof using All.
  intros Hok. apply option_eq. intros e.
  assert (Hok' : btree_ok rule_cmp (without_exact_excludes f)) by by apply btree_filter_ok.
  assert (H : rule_at (without_exact_excludes f) ps b = Some e <->
          rule_at f ps b = Some e /\ ~ (e = Exclude /\ b = false)).
  { rewrite !rule_at_Some by done. unfold without_exact_excludes. split.
    - intros (r & Hin & Hps & Hs). apply list_elem_of_filter in Hin as [Hn Hin]. simpl in Hn.
      rewrite Hs in Hn. split; [by exists r|done].
    - intros [(r & Hin & Hps & Hs) Hn]. exists r. split; [|done].
      apply list_elem_of_filter. split; [|done]. simpl. by rewrite Hs. }
  rewrite H. destruct (rule_at f ps b) as [[]|], b, e; naive_solver.
Qed.

Lemma subtree_loop_ok f p : wf_filter f -> wf_path p ->
  subtree_loop (rev f) p
  = bool_decide (rule_at f (parts p) false = Some Include
                 \/ ref_up f (length (parts p)) (parts p) = Some Include).
Proof using All.
  intros Hf Hp. rewrite subtree_loop_eq.
  assert (Hf' : wf_filter (without_exact_excludes f)) by by apply wf_filter_filter.
  pose proof Hf as [Hok _].
  change (snd <$> find_last_match ?g p) with (most_specific_match g p).
  rewrite most_specific_match_ok by done. unfold ref_match.
  assert (ref_up (without_exact_excludes f) (length (parts p)) (parts p)
          = ref_up f (length (parts p)) (parts p)) as ->.
  { generalize (length (parts p)) as n. induction n as [|n IH]; cbn [ref_up];
      rewrite without_exact_excludes_at by done; (destruct (rule_at f _ true) as [[]|]; [done|done|]);
      [done|apply IH]. }
  rewrite without_exact_excludes_at by done.
  apply bool_decide_ext. destruct (rule_at f (parts p) false) as [[]|]; naive_solver.
Qed.

Lemma is_anything_ok f p : wf_filter f -> wf_path p ->
  is_anything_in_subtree_included f p = true <->
  exists q, parts p `prefix_of` q /\ ref_match f q = Some Include.
Proof using All.
  intros Hf Hp. pose proof Hf as [Hok _]. unfold is_anything_in_subtree_included.
  rewrite subtree_loop_ok by done. destruct (fresh_part f) as [x Hx].
  set (above := existsb _ f).
  assert (Habove : above = true <-> exists r, (r, Include) ∈ f /\ parts p `prefix_of` parts (resolved_path r)).
  { unfold above. rewrite existsb_exists. split.
    - intros ([r e] & Hin & H). apply andb_true_iff in H as [He Hs]. simpl in *.
      apply bool_decide_eq_true in He as ->. apply list_elem_of_In in Hin. exists r.
      split; [done|]. apply starts_with_wf in Hs; [done| |done]. by eapply wf_filter_entry.
    - intros (r & Hin & Hpre). exists (r, Include). split; [by apply list_elem_of_In|].
      simpl. apply starts_with_wf; [by eapply wf_filter_entry|done|done]. }
  destruct above; (split; [intros H|intros (q & Hpre & Hq)]); try done.
  - destruct (proj1 Habove eq_refl) as (r & Hin & Hpre). pose proof (rule_at_entry f r Include Hok Hin) as Hat.
    destruct (rule_subtree r) eqn:Es.
    + exists (parts (resolved_path r) ++ [x]). split; [by apply prefix_app_r|].
      rewrite ref_match_fresh by done. destruct (length (parts (resolved_path r))) as [|n] eqn:El; cbn [ref_up].
      * rewrite <- El, take_ge by lia. by rewrite Hat.
      * rewrite <- El, take_ge by lia. by rewrite Hat.
    + exists (parts (resolved_path r)). split; [done|]. unfold ref_match. by rewrite Hat.
  - apply bool_decide_eq_true in H as [H|H].
    + exists (parts p). split; [done|]. unfold ref_match. by rewrite H.
    + exists (parts p ++ [x]). split; [by apply prefix_app_r|]. by rewrite ref_match_fresh.
  - assert (Hno : forall ps b, rule_at f ps b = Some Include -> ~ parts p `prefix_of` ps).
    { intros ps b Hat Hpp. apply rule_at_Some in Hat as (r & Hin & Hps & _); [|done].
      assert (false = true); [|done]. apply Habove. exists r. by rewrite Hps. }
    apply bool_decide_eq_true. right. unfold ref_match in Hq.
    destruct (rule_at f q false) as [e|] eqn:Eq; [injection Hq as ->; by exfalso; eapply Hno|].
    apply ref_up_Some in Hq as (k & Hk & Hat & Hlater).
    assert (Hkp : (k < length (parts p))%nat).
    { destruct (decide (k < length (parts p))%nat) as [|Hge]; [done|]. exfalso.
      eapply Hno; [exact Hat|]. apply prefix_take_iff in Hpre as (j & Hj & Ej).
      rewrite Ej in Hge |- *. rewrite length_take in Hge. apply prefix_take_iff. exists j.
      rewrite length_take, take_take. split; [lia|]. f_equal. lia. }
    pose proof (prefix_length _ _ Hpre) as Hl.
    assert (Htake : forall j, (j <= length (parts p))%nat -> take j (parts p) = take j q).
    { intros j Hj. rewrite (prefix_of_take _ _ Hpre), take_take. f_equal. lia. }
    apply ref_up_Some. exists k. split_and!; [lia|by rewrite Htake by lia|].
    intros j Hj. rewrite Htake by lia. apply Hlater. lia.
Qed.

(** ** Evaluation *)

Lemma evaluate_fold path f st :
  let st' := foldl (evaluate_step path) st f in
  let found := existsb (fun e => bool_decide (e.2 = Include) && starts_with (resolved_path e.1) path) f in
  ev_found_include_in_subtree st' = ev_found_include_in_subtree st || found /\
  ev_subtree_included st' = ev_subtree_included st || (negb (ev_found_include_in_subtree st) && found) /\
  ev_matches_exactly st' = ev_matches_exactly st || matches_exactly f path /\
  ev_last_match st' = match find_last_match f path with
                      | Some (r, e) => Some (e, rule_subtree r)
                      | None => ev_last_match st
                      end.
Proof.
  revert st. induction f as [|[r e] f IH]; intros st; cbn [foldl].
  { simpl. unfold matches_exactly. simpl. by rewrite !orb_false_r, andb_false_r, orb_false_r. }
  specialize (IH (evaluate_step path st (r, e))). cbn zeta in *.
  destruct IH as (H1 & H2 & H3 & H4). rewrite H1, H2, H3, H4. clear H1 H2 H3 H4.
  rewrite find_last_cons. unfold matches_exactly.
  cbn [evaluate_step ev_found_include_in_subtree ev_subtree_included ev_matches_exactly ev_last_match existsb fst snd].
  split_and!.
  - destruct (ev_found_include_in_subtree st), (bool_decide (e = Include)), (starts_with _ _); done.
  - destruct (ev_found_include_in_subtree st), (ev_subtree_included st), (bool_decide (e = Include)),
      (starts_with _ _); simpl; try done; by rewrite ?orb_true_r.
  - destruct (ev_matches_exactly st), (bool_decide (e = Include)), (rule_subtree r), (path_eq _ _); done.
  - destruct (find_last_match f path) as [[]|]; [done|]. by destruct (rule_matches r path).
Qed.

Lemma evaluate_ok f p :
  evaluate f p = mkEvaluation
    (existsb (fun e => bool_decide (e.2 = Include) && starts_with (resolved_path e.1) p) f
     || bool_decide (most_specific_match f p = Some Include))
    (filter_matches f p) (matches_exactly f p).
Proof.
  unfold evaluate, filter_matches, most_specific_match.
  destruct (evaluate_fold p f (mkEval false false None false)) as (H1 & H2 & H3 & H4).
  rewrite H1, H2, H3, H4. simpl. set (found := existsb _ f).
  destruct (find_last_match f p) as [[r []]|]; simpl; f_equal.
  - by rewrite orb_true_r.
  - destruct (rule_subtree r), found; done.
  - by rewrite orb_false_r.
Qed.

(** ** Supersets *)

(** No subtree [self] excludes has its root excluded, alone, by [other]. *)
Definition no_exact_hole (self other : list (ResolvedEntityPathRule * RuleEffect)) : Prop :=
  forall ps, rule_at self ps true = Some Exclude -> rule_at other ps false <> Some Exclude.

Lemma find_last_include f p r : wf_filter f -> wf_path p -> find_last_match f p = Some (r, Include) ->
  ref_match f (parts p) = Some Include.
Proof using All. intros Hf Hp E. rewrite <- most_specific_match_ok by done. unfold most_specific_match. by rewrite E. Qed.

Lemma is_superset_of_ok self other p : wf_filter self -> wf_filter other -> wf_path p ->
  no_exact_hole self other -> is_superset_of self other = true ->
  filter_matches other p = true -> filter_matches self p = true.
Proof using All.
  intros Hs Ho Hp Hhole Hsup Hm.
  apply andb_true_iff in Hsup as [H1 H2]. rewrite forallb_forall in H1, H2.
  unfold filter_matches, most_specific_match in Hm |- *.
  destruct (find_last_match other p) as [[ro []]|] eqn:Eo; try done. clear Hm.
  apply find_last_Some in Eo as (Hino & Hmo & Hmaxo); [|done..].
  pose proof (wf_filter_entry _ _ _ Ho Hino) as Hwo.
  specialize (H1 (ro, Include) ltac:(by apply list_elem_of_In)). simpl in H1.
  destruct (find_last_match self (resolved_path ro)) as [[rs0 []]|] eqn:E0; try done.
  apply find_last_Some in E0 as (Hin0 & Hm0 & Hmax0); [|done..].
  pose proof (wf_filter_entry _ _ _ Hs Hin0) as Hw0.
  pose proof (rule_matches_prefix _ _ Hwo Hp Hmo) as Hpo.
  pose proof (rule_matches_prefix _ _ Hw0 Hwo Hm0) as Hp0.
  (* the rule found for the path of [ro] also matches [p] *)
  assert (Hm0p : rule_matches rs0 p = true).
  { apply rule_matches_ok; [done..|]. apply rule_matches_ok in Hm0, Hmo; [|done..].
    destruct (rule_subtree ro), (rule_subtree rs0); simpl in H1; try done; [by etrans|by etrans|congruence]. }
  destruct (find_last_match self p) as [[rs es]|] eqn:Es; simpl.
  2: { rewrite find_last_None in Es. by rewrite (Es rs0 Include Hin0) in Hm0p. }
  apply find_last_Some in Es as (Hins & Hms & Hmaxs); [|done..].
  pose proof (wf_filter_entry _ _ _ Hs Hins) as Hws.
  destruct es; [done|]. exfalso.
  pose proof (Hmaxs rs0 Include Hin0 Hm0p) as Hrank.
  pose proof (rule_matches_prefix _ _ Hws Hp Hms) as Hps.
  pose proof (rule_at_entry self rs Exclude (proj1 Hs) Hins) as Hats.
  pose proof (rule_at_entry self rs0 Include (proj1 Hs) Hin0) as Hat0.
  (* the excluding rule lies strictly below the path of [ro] *)
  assert (Hbelow : parts (resolved_path ro) `prefix_of` parts (resolved_path rs) /\
                   rule_subtree ro = true).
  { apply rule_matches_ok in Hms, Hmo; [|done..].
    assert (Hnm : rule_matches rs (resolved_path ro) = true -> False).
    { intros Hmro. pose proof (Hmax0 rs Exclude Hins Hmro) as Hle.
      apply rule_matches_prefix in Hmro; [|done..].
      assert (rank rs = rank rs0) as Heq by lia. unfold rank in Heq.
      assert (length (parts (resolved_path rs)) = length (parts (resolved_path rs0)) /\
              rule_subtree rs = rule_subtree rs0) as [El Esub]
        by (destruct (rule_subtree rs), (rule_subtree rs0); split; try done; lia).
      assert (parts (resolved_path rs) = parts (resolved_path rs0)) as Epath.
      { rewrite (prefix_of_take _ _ Hmro), (prefix_of_take _ _ Hp0). by rewrite El. }
      rewrite Epath, Esub in Hats. congruence. }
    destruct (rule_subtree ro) eqn:Ero.
    - split; [|done]. destruct (prefix_weak_total _ _ _ Hpo Hps) as [|Hsp]; [done|].
      destruct (rule_subtree rs) eqn:Ers.
      + exfalso. apply Hnm, rule_matches_ok; [done..|]. by rewrite Ers.
      + rewrite Hms. done.
    - exfalso. apply Hnm, rule_matches_ok; [done..|]. rewrite Hmo. by destruct (rule_subtree rs). }
  destruct Hbelow as [Hbelow Hsub].
  (* [other] excludes the path of the excluding rule *)
  specialize (H2 (rs, Exclude) ltac:(by apply list_elem_of_In)). simpl in H2.
  assert (Hmrs : rule_matches ro (resolved_path rs) = true).
  { apply rule_matches_ok; [done..|]. by rewrite Hsub. }
  destruct (find_last_match other (resolved_path rs)) as [[re []]|] eqn:Ee; [done| |].
  2: { rewrite find_last_None in Ee. by rewrite (Ee ro Include Hino) in Hmrs. }
  apply find_last_Some in Ee as (Hine & Hme & Hmaxe); [|done..].
  pose proof (wf_filter_entry _ _ _ Ho Hine) as Hwe.
  pose proof (Hmaxe ro Include Hino Hmrs) as Hrke.
  pose proof (rule_matches_prefix _ _ Hwe Hws Hme) as Hpe.
  pose proof (rule_at_entry other re Exclude (proj1 Ho) Hine) as Hate.
  pose proof (rule_at_entry other ro Include (proj1 Ho) Hino) as Hato.
  (* if that exclusion applies to [p] it beats the inclusion, else it is the hole *)
  assert (Happly : rule_matches re p = true -> False).
  { intros Hmp. pose proof (Hmaxo re Exclude Hine Hmp) as Hle.
    assert (rank re = rank ro) as Heq by lia. unfold rank in Heq.
    assert (length (parts (resolved_path re)) = length (parts (resolved_path ro)) /\
            rule_subtree re = rule_subtree ro) as [El Esub]
      by (destruct (rule_subtree re), (rule_subtree ro); split; try done; lia).
    assert (parts (resolved_path re) = parts (resolved_path ro)) as Epath.
    { rewrite (prefix_of_take _ _ Hpe), (prefix_of_take _ _ Hbelow). by rewrite El. }
    rewrite Epath, Esub in Hate. congruence. }
  apply rule_matches_ok in Hme, Hms; [|done..].
  destruct (rule_subtree re) eqn:Ere.
  - apply Happly, rule_matches_ok; [done..|]. rewrite Ere. by etrans.
  - destruct (rule_subtree rs) eqn:Ers.
    + apply (Hhole (parts (resolved_path rs)) Hats). by rewrite <- Hme.
    + apply Happly, rule_matches_ok; [done..|]. rewrite Ere. congruence.
Qed.

(** ** Properties *)

(** C29. The effect of a filter on a path is that of the exact rule for the path, if there is
    one, else that of the subtree rule of the nearest ancestor that has one, else none: the
    last matching rule in the order of the map is the most specific one, and [matches] does
    not depend on anything else. *)
Theorem most_specific_match_spec f p : wf_filter f -> wf_path p ->
  most_specific_match f p = ref_match f (parts p) /\
  (filter_matches f p = true <-> ref_match f (parts p) = Some Include).
Proof.
  intros Hf Hp. split; [by apply most_specific_match_ok|].
  rewrite filter_matches_ok by done. unfold ref_matches. by rewrite bool_decide_eq_true.
Qed.

(** C34. Removing a subtree excludes every path in it and changes nothing elsewhere, and
    keeps the filter well formed. *)
Theorem remove_subtree_spec f e p : wf_filter f -> wf_path e -> wf_path p ->
  wf_filter (remove_subtree_and_matching_rules f e) /\
  most_specific_match (remove_subtree_and_matching_rules f e) p
  = if starts_with p e then Some Exclude else most_specific_match f p.
Proof.
  intros Hf He Hp.
  assert (Hf' : wf_filter (remove_subtree_and_matching_rules f e)).
  { apply wf_filter_insert; [by apply wf_filter_filter|done]. }
  split; [done|]. rewrite !most_specific_match_ok, remove_subtree_ref by done.
  pose proof (starts_with_wf p e Hp He) as Hsw.
  case_decide as Hpre; destruct (starts_with p e); naive_solver.
Qed.

(** C33. [is_anything_in_subtree_included] is exact: it says yes if and only if some path at or
    below the given one is included. *)
Theorem is_anything_in_subtree_included_spec f p : wf_filter f -> wf_path p ->
  is_anything_in_subtree_included f p = true <->
  exists q, wf_path q /\ starts_with q p = true /\ filter_matches f q = true.
Proof.
  intros Hf Hp. rewrite is_anything_ok by done. split.
  - intros (q & Hpre & Hq). exists (from_parts q). split; [done|].
    split; [by apply starts_with_wf|]. rewrite filter_matches_ok by done. by apply bool_decide_eq_true.
  - intros (q & Hwq & Hsw & Hm). exists (parts q). split; [by apply starts_with_wf|].
    rewrite filter_matches_ok in Hm by done. by apply bool_decide_eq_true in Hm.
Qed.

(** [evaluate] returns in one pass what the separate queries do, except for the subtree:
    when it says that nothing in the subtree is included although something is, the path
    itself has an exact exclusion, which hides the subtree rule above it. *)
Lemma evaluate_spec f p : wf_filter f -> wf_path p ->
  matches (evaluate f p) = filter_matches f p /\
  matches_exactly_ (evaluate f p) = matches_exactly f p /\
  (subtree_included (evaluate f p) = true -> is_anything_in_subtree_included f p = true) /\
  (subtree_included (evaluate f p) = false -> is_anything_in_subtree_included f p = true ->
     rule_at f (parts p) false = Some Exclude).
Proof.
  intros Hf Hp. rewrite evaluate_ok. cbn [matches matches_exactly_ subtree_included].
  split; [done|]. split; [done|]. unfold is_anything_in_subtree_included.
  rewrite subtree_loop_ok, most_specific_match_ok by done. set (found := existsb _ f).
  destruct found; [done|]. simpl. rewrite bool_decide_eq_true, bool_decide_eq_false. unfold ref_match.
  destruct (rule_at f (parts p) false) as [[]|]; split; try done; rewrite ?bool_decide_eq_true; naive_solver.
Qed.

(** C32. [is_superset_of] is sound when no subtree the first filter excludes has its root
    excluded alone by the second: then whatever the second filter includes, the first does. *)
Theorem is_superset_of_spec self other p : wf_filter self -> wf_filter other -> wf_path p ->
  no_exact_hole self other -> is_superset_of self other = true ->
  filter_matches other p = true -> filter_matches self p = true.
Proof. apply is_superset_of_ok. Qed.

(** Resolution excludes the recording properties: where no rule of the user is at or below
    [/__properties], nothing there is included, and every other path is treated as without
    the added rule; a rule of the user for that subtree is kept. *)
Lemma exclude_properties_spec f p : wf_filter f -> wf_path p ->
  (forall r e, (r, e) ∈ f -> ~ starts_with (resolved_path r) properties = true) ->
  filter_matches (exclude_properties f) p
  = if starts_with p properties then false else filter_matches f p.
Proof.
  intros Hf Hp Hno. pose proof Hf as [Hok Hwf].
  assert (Hat : forall ps b, rule_at (exclude_properties f) ps b
    = match rule_at f ps b with
      | Some e => Some e
      | None => if decide (ps = [PROPERTIES_PART] /\ b = true) then Some Exclude else None
      end).
  { intros ps b. unfold rule_at, exclude_properties. rewrite (btree_get_or_insert rule_cmp).
    destruct (btree_get rule_cmp (key_rule ps b) f); [done|].
    assert (Hk : same_key rule_cmp (key_rule ps b) (resolved_including_subtree properties) = true
                 <-> ps = [PROPERTIES_PART] /\ b = true).
    { rewrite same_key_rule. unfold rule_subtree, resolved_including_subtree, rule_including_entity_subtree.
      cbn [rule resolved_path]. rewrite including_entity_subtree_suffix. simpl. naive_solver. }
    case_decide as Hd; [by rewrite (proj2 Hk Hd)|].
    destruct (same_key rule_cmp (key_rule ps b) (resolved_including_subtree properties)); [|done].
    exfalso. by apply Hd, Hk. }
  assert (Hwf' : wf_filter (exclude_properties f)).
  { unfold exclude_properties, btree_or_insert. case_match; [done|]. by apply wf_filter_insert. }
  assert (Hnone : forall ps b, [PROPERTIES_PART] `prefix_of` ps -> rule_at f ps b = None).
  { intros ps b Hpre. destruct (rule_at f ps b) as [e|] eqn:E; [|done]. exfalso.
    apply rule_at_Some in E as (r & Hin & Hps & _); [|done].
    apply (Hno r e Hin). apply starts_with_wf; [exact (wf_filter_entry f r e Hf Hin)|reflexivity|].
    rewrite Hps. exact Hpre. }
  rewrite !filter_matches_ok by done. unfold ref_matches.
  pose proof (starts_with_wf p properties Hp eq_refl) as Hsw. simpl in Hsw.
  destruct (starts_with p properties).
  - apply bool_decide_eq_false. pose proof (proj1 Hsw eq_refl) as Hpre. unfold ref_match.
    rewrite Hat, (Hnone (parts p)) by done. rewrite decide_False by naive_solver.
    intros Hup. apply ref_up_Some in Hup as (k & Hk & Hatk & Hlater).
    rewrite Hat in Hatk. destruct (decide (k < 1)%nat) as [Hk1|Hk1].
    + pose proof (prefix_length _ _ Hpre) as Hl. simpl in Hl.
      specialize (Hlater (length [PROPERTIES_PART]) ltac:(simpl; lia)). rewrite Hat in Hlater.
      rewrite <- (prefix_of_take [PROPERTIES_PART] (parts p) Hpre) in Hlater.
      rewrite (Hnone [PROPERTIES_PART] true) in Hlater by done. by rewrite decide_True in Hlater.
    + rewrite Hnone in Hatk; [by case_decide|].
      apply prefix_take_iff in Hpre as (j & Hj & Ej). rewrite Ej. apply prefix_take_iff.
      exists j. rewrite length_take, take_take. split; [|f_equal].
      all: assert (j <= 1)%nat by (apply (f_equal length) in Ej; rewrite length_take in Ej; simpl in Ej; lia); lia.
  - assert (Hne : forall q, q `prefix_of` parts p -> q <> [PROPERTIES_PART]).
    { intros q Hq ->. assert (false = true); [by apply Hsw|done]. }
    apply bool_decide_ext. rewrite (ref_match_ext (exclude_properties f) f); [done| |].
    + rewrite Hat. destruct (rule_at f (parts p) false); [done|]. by rewrite decide_False by naive_solver.
    + intros j Hj. rewrite Hat. destruct (rule_at f (take j (parts p)) true); [done|].
      rewrite decide_False; [done|]. intros [E _]. apply (Hne (take j (parts p))); [|done].
      apply prefix_take_iff. by exists j.
Qed.
End Spec.

(** ** Witnesses and counterexamples

    At a lexicographic order of the parts and a hash that is the (injective) numbering of
    lists of strings. *)

#[local] Existing Instance latin_tables.
#[local] Instance code_hash : PathHash := fun ps => Zpos (encode ps).
#[local] Instance lex_order : NaturalOrder := list_cmp Z.compare.

#[local] Instance code_hash_perfect : PerfectHash code_hash.
Proof. intros a b H. unfold Hash64_hash, code_hash in H. apply (inj encode). congruence. Qed.

#[local] Instance Z_compare_laws : OrdLaws Z.compare.
Proof.
  split.
  - apply Z.compare_refl.
  - intros x y. apply Z.compare_antisym.
  - intros x y z. rewrite !Z.compare_lt_iff. lia.
  - intros x y z E. by apply Z.compare_eq in E as ->.
Qed.

#[local] Instance lex_order_laws : NaturalOrderLaws lex_order.
Proof.
  split.
  - exact (list_cmp_laws Z.compare Z.compare_eq).
  - exact (list_cmp_eq Z.compare Z.compare_eq).
Qed.

Definition ex_rule (s : string) (effect : RuleEffect) : list (ResolvedEntityPathRule * RuleEffect) ->
    list (ResolvedEntityPathRule * RuleEffect) :=
  fun f => match rule_parse_forgiving (lit s) [] with Done r => add_rule f effect r | Panic => f end.
Definition ex_path (s : string) : EntityPath :=
  match path_parse_forgiving_uncached (lit s) with Done p => p.1 | Panic => root end.

Lemma ex_wf (f : list (ResolvedEntityPathRule * RuleEffect)) r e :
  wf_filter f -> wf_path (resolved_path r) -> wf_filter (add_rule f e r).
Proof. apply wf_filter_insert. Qed.

(** [+ /world/**], [- /world/car/**], [+ /world/car/driver]. *)
Definition ex_world := ex_rule "/world/**" Include (ex_rule "/world/car/**" Exclude
  (ex_rule "/world/car/driver" Include [])).

Lemma ex_rule_wf s e f : wf_filter f -> wf_filter (ex_rule s e f).
Proof.
  intros Hf. unfold ex_rule. destruct (rule_parse_forgiving (lit s) []) as [r|] eqn:E; [|done].
  apply ex_wf; [done|]. by eapply rule_parse_forgiving_wf.
Qed.

Lemma ex_nil_wf : wf_filter [].
Proof. split; constructor. Qed.

Lemma ex_path_wf s : wf_path (ex_path s).
Proof. unfold ex_path, path_parse_forgiving_uncached. by destruct (tokenize_entity_path (lit s)). Qed.

Lemma ex_world_wf : wf_filter ex_world.
Proof. repeat apply ex_rule_wf. apply ex_nil_wf. Qed.

Lemma most_specific_match_spec_witness :
  filter_matches ex_world (ex_path "/world/car/driver") = true.
Proof.
  apply (most_specific_match_spec ex_world (ex_path "/world/car/driver")
    ex_world_wf (ex_path_wf _)).
  vm_compute. reflexivity.
Defined.

Lemma remove_subtree_spec_witness :
  most_specific_match (remove_subtree_and_matching_rules ex_world (ex_path "/world/car"))
    (ex_path "/world/car/driver") = Some Exclude.
Proof.
  destruct (remove_subtree_spec ex_world (ex_path "/world/car") (ex_path "/world/car/driver")
    ex_world_wf (ex_path_wf _) (ex_path_wf _)) as [_ H].
  rewrite H. vm_compute. reflexivity.
Defined.

Lemma is_anything_in_subtree_included_spec_witness :
  is_anything_in_subtree_included ex_world (ex_path "/world/car") = true.
Proof.
  apply (is_anything_in_subtree_included_spec ex_world (ex_path "/world/car") ex_world_wf (ex_path_wf _)).
  exists (ex_path "/world/car/driver"). split; [apply ex_path_wf|]. vm_compute. split; reflexivity.
Defined.

Lemma exclude_properties_spec_witness :
  filter_matches (exclude_properties (ex_rule "/**" Include [])) (ex_path "/__properties/x") = false.
Proof.
  rewrite (exclude_properties_spec (ex_rule "/**" Include []) (ex_path "/__properties/x")
    (ex_rule_wf _ _ _ ex_nil_wf) (ex_path_wf _)).
  - vm_compute. reflexivity.
  - intros r e Hin. apply list_elem_of_singleton in Hin. injection Hin as -> _. vm_compute. discriminate.
Defined.

(** [+ /world/**], [- /world/car]. *)
Definition ex_hidden := ex_rule "/world/**" Include (ex_rule "/world/car" Exclude []).

Lemma evaluate_spec_witness :
  rule_at ex_hidden (parts (ex_path "/world/car")) false = Some Exclude.
Proof.
  destruct (evaluate_spec ex_hidden (ex_path "/world/car")
    (ex_rule_wf _ _ _ (ex_rule_wf _ _ _ ex_nil_wf)) (ex_path_wf _)) as (_ & _ & _ & H).
  apply H; vm_compute; reflexivity.
Defined.

(** [evaluate] tells the viewer's tree walk to skip [/world/car] and everything below it,
    while [/world/car/driver] matches the filter. *)
Example evaluate_hides_included_children :
  subtree_included (evaluate ex_hidden (ex_path "/world/car")) = false /\
  is_anything_in_subtree_included ex_hidden (ex_path "/world/car") = true /\
  filter_matches ex_hidden (ex_path "/world/car/driver") = true.
Proof. vm_compute. repeat split. Qed.

Definition ex_sub := ex_rule "/a/**" Include (ex_rule "/a/b/**" Exclude []).
Definition ex_other := ex_rule "/a/**" Include (ex_rule "/a/c/**" Exclude (ex_rule "/a/b/**" Exclude [])).

Lemma is_superset_of_spec_witness :
  filter_matches ex_other (ex_path "/a/d") = true /\ filter_matches ex_sub (ex_path "/a/d") = true.
Proof.
  split; [vm_compute; reflexivity|].
  apply (is_superset_of_spec ex_sub ex_other (ex_path "/a/d")).
  - apply ex_rule_wf, ex_rule_wf, ex_nil_wf.
  - apply ex_rule_wf, ex_rule_wf, ex_rule_wf, ex_nil_wf.
  - apply ex_path_wf.
  - intros ps _ H. apply rule_at_Some in H as (r & Hin & _ & Hs);
      [|apply ex_rule_wf, ex_rule_wf, ex_rule_wf, ex_nil_wf].
    apply list_elem_of_In in Hin. vm_compute in Hin.
    destruct Hin as [E|[E|[E|[]]]]; apply (f_equal fst) in E; simpl in E; subst r;
      vm_compute in Hs; discriminate Hs.
  - vm_compute. reflexivity.
  - vm_compute. reflexivity.
Defined.

(** The hole: [+ /a/**, - /a/b/**] claims to be a superset of [+ /a/**, - /a/b], which
    includes [/a/b/c]. *)
Example is_superset_of_unsound :
  let self := ex_rule "/a/**" Include (ex_rule "/a/b/**" Exclude []) in
  let other := ex_rule "/a/**" Include (ex_rule "/a/b" Exclude []) in
  is_superset_of self other = true /\
  filter_matches other (ex_path "/a/b/c") = true /\ filter_matches self (ex_path "/a/b/c") = false.
Proof. vm_compute. repeat split. Qed.

(** Two spellings of one path: the rule that comes last in the text is not the one that
    wins, since unresolved rules are kept in alphabetical order. *)
Example last_rule_does_not_win :
  match (f ← filter_parse_forgiving (lit "- a + /a"); resolve_without_substitutions f) with
  | Done f => filter_matches f (ex_path "/a") = false
  | Panic => False
  end.
Proof. vm_compute. reflexivity. Qed.
