(* ===== verification/TimeInt.v ===== *)
(** * Time points

    [dl_log_types/src/index/non_min_i64.rs] (Module [NonMinI64]) and
    [dl_log_types/src/index/time_int.rs] (Module [TimeInt]).

    [NonMinI64] stores its value xor-ed with [i64::MIN] inside a [NonZeroI64], so that
    [Option<NonMinI64>] is 64 bits wide; the model keeps that representation.  A
    [TimeInt] is such an option, [None] being the time of static data.  The rest of the
    library reasons on [TimeInt.as_i64], which is injective and monotone. *)

From S2P Require Import Prelude Ints.

(** ** NonMinI64 *)

Module NonMinI64.

(** [core::num::NonZeroI64]. *)
Definition is_nonzero_i64 (z : Z) : bool := bool_decide (is_i64 z) && negb (z =? 0).

Definition nonzero_new (z : Z) : option { z | is_nonzero_i64 z = true } :=
  match Bool.bool_dec (is_nonzero_i64 z) true with
  | left H => Some (z ↾ H)
  | right _ => None
  end.

(** [pub struct NonMinI64(NonZeroI64)]. *)
Record t := Wrap { inner : { z | is_nonzero_i64 z = true } }.

Definition new (value : Z) : option t :=
  match nonzero_new (Z.lxor value i64_min) with
  | None => None
  | Some value => Some (Wrap value)
  end.

(** [new_unchecked] is [unsafe]: [None] stands for undefined behaviour, which is what
    calling it on [i64::MIN] is. *)
Definition new_unchecked (value : Z) : option t :=
  match nonzero_new (Z.lxor value i64_min) with
  | None => None
  | Some inner => Some (Wrap inner)
  end.

Definition get (self : t) : Z := Z.lxor (proj1_sig (inner self)) i64_min.

Definition ZERO : t := Wrap (exist _ (Z.lxor 0 i64_min) eq_refl).
Definition ONE : t := Wrap (exist _ (Z.lxor 1 i64_min) eq_refl).
Definition MIN : t := Wrap (exist _ (Z.lxor (i64_min + 1) i64_min) eq_refl).
Definition MAX : t := Wrap (exist _ (Z.lxor i64_max i64_min) eq_refl).

Definition cmp (self other : t) : comparison := get self ?= get other.

Definition saturating_from_i64 (value : Z) : t := default MIN (new value).

Definition saturating_from_u128 (value : Z) : option t :=
  new_unchecked (Z.min value (get MAX)).

Definition midpoint (self rhs : t) : outcome t :=
  unwrap (new (Ints.midpoint (get self) (get rhs))).

(** [impl TryFrom<i64>], whose error carries no data. *)
Definition try_from (value : Z) : result t unit := ok_or (new value) ().

(** [impl Neg]: [Self(-self.0)], the negation of the stored [NonZeroI64].  It cannot
    produce zero, but it overflows when the stored value is [i64::MIN]. *)
Definition neg (overflow_checks : bool) (self : t) : outcome t :=
  z ← arith_i64 overflow_checks (- proj1_sig (inner self));
  Wrap <$> unwrap (nonzero_new z).

(** [impl BitAnd], through [new_unchecked]. *)
Definition bitand (self rhs : t) : option t :=
  new_unchecked (Z.land (get self) (get rhs)).

(** *** Basic facts *)

Lemma is_nonzero_i64_spec z : is_nonzero_i64 z = true <-> is_i64 z /\ z <> 0.
Proof. unfold is_nonzero_i64. rewrite andb_true_iff, bool_decide_eq_true, negb_true_iff, Z.eqb_neq. done. Qed.

Lemma nonzero_new_Some z v : nonzero_new z = Some v <-> proj1_sig v = z.
Proof.
  unfold nonzero_new. destruct (Bool.bool_dec _ _) as [H|H]; split.
  - by intros [= <-].
  - intros <-. f_equal. destruct v as [v Hv]. f_equal. apply Eqdep_dec.UIP_dec, Bool.bool_dec.
  - done.
  - intros <-. by destruct v.
Qed.

Lemma nonzero_new_None z : nonzero_new z = None <-> ~ (is_i64 z /\ z <> 0).
Proof.
  rewrite <- is_nonzero_i64_spec. unfold nonzero_new.
  by destruct (Bool.bool_dec _ _).
Qed.

Lemma get_eq a b : get a = get b -> a = b.
Proof.
  unfold get. intros H. destruct a as [[a Ha]], b as [[b Hb]]; simpl in *.
  assert (a = b) as ->.
  { rewrite <- (lxor_i64_min_involutive a), H. apply lxor_i64_min_involutive. }
  do 2 f_equal. apply Eqdep_dec.UIP_dec, Bool.bool_dec.
Qed.

Lemma get_range n : i64_min < get n <= i64_max.
Proof.
  destruct n as [[z Hz]]; unfold get; simpl.
  destruct (proj1 (is_nonzero_i64_spec z) Hz) as [Hr Hnz].
  pose proof (lxor_i64_min_range z Hr). pose proof (lxor_i64_min_involutive z).
  destruct (decide (Z.lxor z i64_min = i64_min)) as [E|E]; [|int_lia].
  rewrite E, Z.lxor_nilpotent in *. lia.
Qed.

Lemma new_spec v n : is_i64 v -> new v = Some n <-> get n = v.
Proof.
  intros Hv. unfold new, get. split.
  - destruct (nonzero_new _) as [z|] eqn:E; [|done]. intros [= <-]. simpl.
    apply nonzero_new_Some in E as ->. apply lxor_i64_min_involutive.
  - intros H. assert (proj1_sig (inner n) = Z.lxor v i64_min) as H2.
    { rewrite <- H. by rewrite lxor_i64_min_involutive. }
    apply nonzero_new_Some in H2. rewrite H2. by destruct n.
Qed.

Lemma new_None v : is_i64 v -> new v = None <-> v = i64_min.
Proof.
  intros Hv. unfold new. pose proof (lxor_i64_min_range v Hv).
  destruct (nonzero_new _) as [z|] eqn:E.
  - apply nonzero_new_Some in E. destruct z as [z Hz]; simpl in *.
    destruct (proj1 (is_nonzero_i64_spec z) Hz) as [_ Hnz]. split; [done|].
    intros ->. rewrite Z.lxor_nilpotent in E. done.
  - apply nonzero_new_None in E. split; [intros _|done].
    apply (proj1 (lxor_i64_min_zero v)).
    destruct (decide (Z.lxor v i64_min = 0)); naive_solver.
Qed.

Lemma new_is_Some v : is_i64 v -> v <> i64_min -> exists n, new v = Some n /\ get n = v.
Proof.
  intros Hv Hne. destruct (new v) as [n|] eqn:E.
  - exists n. split; [done|]. by apply new_spec.
  - by apply new_None in E.
Qed.

Lemma new_unchecked_new v : new_unchecked v = new v.
Proof. unfold new_unchecked, new. by destruct (nonzero_new _). Qed.

Lemma get_ZERO : get ZERO = 0. Proof. reflexivity. Qed.
Lemma get_ONE : get ONE = 1. Proof. reflexivity. Qed.
Lemma get_MIN : get MIN = i64_min + 1. Proof. reflexivity. Qed.
Lemma get_MAX : get MAX = i64_max. Proof. reflexivity. Qed.

Lemma get_saturating_from_i64 v : is_i64 v -> get (saturating_from_i64 v) = Z.max v (i64_min + 1).
Proof.
  intros Hv. unfold saturating_from_i64. destruct (new v) as [n|] eqn:E; simpl.
  - apply new_spec in E; [|done]. pose proof (get_range n). int_lia.
  - apply new_None in E as ->; [|done]. rewrite get_MIN. int_lia.
Qed.

#[global] Instance t_eq_dec : EqDecision t.
Proof.
  intros a b. destruct (decide (get a = get b)) as [H|H].
  - left. by apply get_eq.
  - right. by intros ->.
Defined.

End NonMinI64.

(** ** TimeInt *)

Module TimeInt.

(** [pub struct TimeInt(Option<NonMinI64>)]. *)
Record t := Wrap { repr : option NonMinI64.t }.

Definition STATIC : t := Wrap None.
Definition MIN : t := Wrap (Some NonMinI64.MIN).
Definition MAX : t := Wrap (Some NonMinI64.MAX).
Definition ZERO : t := Wrap (Some NonMinI64.ZERO).
Definition ONE : t := Wrap (Some NonMinI64.ONE).

#[global] Instance t_eq_dec : EqDecision t.
Proof. solve_decision. Defined.

Definition is_static (self : t) : bool := bool_decide (self = STATIC).

Definition new_temporal (time : Z) : t :=
  match NonMinI64.new time with None => MIN | Some v => Wrap (Some v) end.

Definition from_nanos (nanos : NonMinI64.t) : t := Wrap (Some nanos).

Definition from_millis (millis : NonMinI64.t) : t :=
  new_temporal (saturating_mul (NonMinI64.get millis) 1000000).

Definition from_sequence (sequence : NonMinI64.t) : t := Wrap (Some sequence).

Definition saturated_temporal_i64 (value : Z) : t :=
  Wrap (Some (NonMinI64.saturating_from_i64 value)).

Definition as_i64 (self : t) : Z :=
  match repr self with Some v => NonMinI64.get v | None => i64_min end.

(** The derived [Ord]: [None] before [Some], then by value. *)
Definition cmp (self other : t) : comparison :=
  match repr self, repr other with
  | None, None => Eq
  | None, Some _ => Lt
  | Some _, None => Gt
  | Some a, Some b => NonMinI64.cmp a b
  end.

Definition le (self other : t) : bool := match cmp self other with Gt => false | _ => true end.
Definition lt (self other : t) : bool := match cmp self other with Lt => true | _ => false end.

(** [Ord::max] and [Ord::min]. *)
Definition max (self other : t) : t := if lt other self then self else other.
Definition min (self other : t) : t := if lt other self then other else self.

(** [impl TryFrom<i64>]. *)
Definition try_from (time : Z) : result t unit :=
  match NonMinI64.new time with
  | None => Err ()
  | Some v => Ok (Wrap (Some v))
  end.

(** [saturated_temporal] on the result of the argument's [try_into]. *)
Definition saturated_temporal (value : result t unit) : t :=
  max (match value with Ok v => v | Err _ => MIN end) MIN.

Definition inc (self : t) : t :=
  match repr self with
  | Some v => new_temporal (saturating_add (NonMinI64.get v) 1)
  | None => self
  end.

Definition dec (self : t) : t :=
  match repr self with
  | Some v => new_temporal (Ints.saturating_sub (NonMinI64.get v) 1)
  | None => self
  end.

Definition midpoint (self rhs : t) : outcome t :=
  match repr self, repr rhs with
  | Some lhs, Some rhs => v ← NonMinI64.midpoint lhs rhs; Done (Wrap (Some v))
  | _, _ => Done STATIC
  end.

(** [snap_interval / 2] and [div_euclid] on a positive divisor are [Z.quot] and [Z.div];
    the product is a plain [*], and the [debug_assert!] is active when
    [debug_assertions] is. *)
Definition closest_multiple_of (debug_assertions : bool) (self : t) (snap_interval : Z) : outcome t :=
  if debug_assertions && negb (1 <=? snap_interval) then Panic else
  match repr self with
  | Some v =>
      snapped ← arith_i64 debug_assertions
        (saturating_add (NonMinI64.get v) (Z.quot snap_interval 2) / snap_interval * snap_interval);
      Done (new_temporal snapped)
  | None => Done STATIC
  end.

Definition saturating_sub (self : t) (arg : Z) : t :=
  match repr self with
  | Some v => new_temporal (Ints.saturating_sub (NonMinI64.get v) arg)
  | None => STATIC
  end.

(** [impl From<TimeInt> for NonMinI64]. *)
Definition to_nonmin (self : t) : NonMinI64.t :=
  match repr self with Some v => v | None => NonMinI64.MIN end.

Definition neg (overflow_checks : bool) (self : t) : outcome t :=
  match repr self with
  | Some v => m ← NonMinI64.neg overflow_checks v; Done (Wrap (Some m))
  | None => Done self
  end.

Definition add (self rhs : t) : t :=
  match repr self, repr rhs with
  | Some lhs, Some rhs =>
      Wrap (Some (default NonMinI64.MIN
        (NonMinI64.new (saturating_add (NonMinI64.get lhs) (NonMinI64.get rhs)))))
  | _, _ => Wrap None
  end.

Definition sub (self rhs : t) : t :=
  match repr self, repr rhs with
  | Some lhs, Some rhs =>
      Wrap (Some (default NonMinI64.MIN
        (NonMinI64.new (Ints.saturating_sub (NonMinI64.get lhs) (NonMinI64.get rhs)))))
  | _, _ => Wrap None
  end.

(** *** The embedding in [i64] *)

Lemma as_i64_range a : is_i64 (as_i64 a).
Proof.
  destruct a as [[n|]]; unfold as_i64; simpl; [|int_lia].
  pose proof (NonMinI64.get_range n). int_lia.
Qed.

Lemma as_i64_eq a b : as_i64 a = as_i64 b -> a = b.
Proof.
  destruct a as [[a|]], b as [[b|]]; unfold as_i64; simpl; intros H; [| | |done].
  - by apply NonMinI64.get_eq in H as ->.
  - pose proof (NonMinI64.get_range a). lia.
  - pose proof (NonMinI64.get_range b). lia.
Qed.

Lemma as_i64_inj_iff a b : as_i64 a = as_i64 b <-> a = b.
Proof. split; [apply as_i64_eq|by intros ->]. Qed.

Lemma as_i64_MIN : as_i64 MIN = i64_min + 1. Proof. reflexivity. Qed.
Lemma as_i64_MAX : as_i64 MAX = i64_max. Proof. reflexivity. Qed.
Lemma as_i64_STATIC : as_i64 STATIC = i64_min. Proof. reflexivity. Qed.

Lemma as_i64_static_iff a : a = STATIC <-> as_i64 a = i64_min.
Proof. rewrite <- as_i64_STATIC. symmetry. apply as_i64_inj_iff. Qed.

Lemma as_i64_new_temporal v : is_i64 v -> as_i64 (new_temporal v) = Z.max v (i64_min + 1).
Proof.
  intros Hv. unfold new_temporal. destruct (NonMinI64.new v) as [n|] eqn:E.
  - apply NonMinI64.new_spec in E; [|done]. unfold as_i64; simpl.
    pose proof (NonMinI64.get_range n). lia.
  - apply NonMinI64.new_None in E as ->; [|done]. rewrite as_i64_MIN. lia.
Qed.

(** [new_temporal] clamps whatever [i64] it is given, and is never static. *)
Lemma new_temporal_temporal v : i64_min < as_i64 (new_temporal v).
Proof.
  unfold new_temporal. destruct (NonMinI64.new v) as [n|] eqn:E.
  - unfold as_i64; simpl. pose proof (NonMinI64.get_range n). lia.
  - rewrite as_i64_MIN. lia.
Qed.

Lemma new_temporal_as_i64 a : a <> STATIC -> new_temporal (as_i64 a) = a.
Proof.
  intros Ha. apply as_i64_eq. pose proof (as_i64_range a).
  rewrite as_i64_new_temporal by done.
  assert (as_i64 a <> i64_min) by (by rewrite <- as_i64_static_iff). int_lia.
Qed.

Lemma cmp_as_i64 a b : cmp a b = (as_i64 a ?= as_i64 b).
Proof.
  destruct a as [[a|]], b as [[b|]]; unfold cmp, as_i64, NonMinI64.cmp; cbn [repr]; try done;
    symmetry; [apply Z.compare_gt_iff|apply Z.compare_lt_iff].
  - pose proof (NonMinI64.get_range a). lia.
  - pose proof (NonMinI64.get_range b). lia.
Qed.

Lemma le_as_i64 a b : le a b = (as_i64 a <=? as_i64 b).
Proof. unfold le. rewrite cmp_as_i64. unfold Z.leb. by destruct (_ ?= _). Qed.

Lemma lt_as_i64 a b : lt a b = (as_i64 a <? as_i64 b).
Proof. unfold lt. rewrite cmp_as_i64. unfold Z.ltb. by destruct (_ ?= _). Qed.

Lemma as_i64_max a b : as_i64 (max a b) = Z.max (as_i64 a) (as_i64 b).
Proof. unfold max. rewrite lt_as_i64. destruct (Z.ltb_spec (as_i64 b) (as_i64 a)); lia. Qed.

Lemma as_i64_min a b : as_i64 (min a b) = Z.min (as_i64 a) (as_i64 b).
Proof. unfold min. rewrite lt_as_i64. destruct (Z.ltb_spec (as_i64 b) (as_i64 a)); lia. Qed.

Lemma as_i64_saturated_temporal_Ok a :
  as_i64 (saturated_temporal (Ok a)) = Z.max (as_i64 a) (i64_min + 1).
Proof. unfold saturated_temporal. by rewrite as_i64_max, as_i64_MIN. Qed.

Lemma saturated_temporal_id a : a <> STATIC -> saturated_temporal (Ok a) = a.
Proof.
  intros Ha. apply as_i64_eq. rewrite as_i64_saturated_temporal_Ok.
  pose proof (as_i64_range a).
  assert (as_i64 a <> i64_min) by (by rewrite <- as_i64_static_iff). int_lia.
Qed.

(** Reads a boolean comparison of times as one of integers. *)
Ltac time_lia :=
  rewrite ?le_as_i64, ?lt_as_i64, ?as_i64_max, ?as_i64_min, ?as_i64_MIN, ?as_i64_MAX,
    ?as_i64_STATIC in *;
  rewrite ?andb_true_iff, ?orb_true_iff, ?negb_true_iff, ?Z.leb_le, ?Z.ltb_lt,
    ?Z.leb_gt, ?Z.ltb_ge in *;
  int_lia.

End TimeInt.

(** [TimeInt] as a map key: its [i64] determines it. *)
#[global] Program Instance TimeInt_countable : Countable TimeInt.t :=
  inj_countable' TimeInt.as_i64
    (fun z => if decide (z = i64_min) then TimeInt.STATIC else TimeInt.new_temporal z) _.
Next Obligation.
  intros a. cbn beta. case_decide as H.
  - symmetry. by apply TimeInt.as_i64_static_iff.
  - apply TimeInt.new_temporal_as_i64. by rewrite TimeInt.as_i64_static_iff.
Qed.

(** ** Properties of the operations *)

Section NonMinI64Ops.

Implicit Types a b : NonMinI64.t.

Lemma new_unchecked_spec v : is_i64 v -> v <> i64_min ->
  exists n, NonMinI64.new_unchecked v = Some n /\ NonMinI64.get n = v.
Proof. rewrite NonMinI64.new_unchecked_new. apply NonMinI64.new_is_Some. Qed.

(** Negating the stored representation negates the value, except at zero, whose
    representation is [i64::MIN]: there the negation overflows, which panics in a build
    with overflow checks and returns zero in one without. *)
Lemma nonmin_neg_spec checks a :
  match NonMinI64.neg checks a with
  | Done m => NonMinI64.get m = - NonMinI64.get a /\ (NonMinI64.get a = 0 -> checks = false)
  | Panic => NonMinI64.get a = 0 /\ checks = true
  end.
Proof.
  pose proof (NonMinI64.get_range a) as Hr.
  assert (proj1_sig (NonMinI64.inner a) = Z.lxor (NonMinI64.get a) i64_min) as Hi
    by (unfold NonMinI64.get; by rewrite lxor_i64_min_involutive).
  unfold NonMinI64.neg. rewrite Hi, lxor_i64_min by int_lia.
  set (v := NonMinI64.get a) in *. clearbody v. clear Hi.
  assert (forall m, is_i64 m -> m <> 0 -> Z.lxor m i64_min = - v ->
    match (NonMinI64.Wrap <$> unwrap (NonMinI64.nonzero_new m) : outcome NonMinI64.t) with
    | Done n => NonMinI64.get n = - v
    | Panic => False
    end) as Hm.
  { intros m Hm Hnz Hx. destruct (NonMinI64.nonzero_new m) as [z|] eqn:E.
    - apply NonMinI64.nonzero_new_Some in E. unfold NonMinI64.get; simpl. by rewrite E.
    - by destruct (proj1 (NonMinI64.nonzero_new_None m) E). }
  unfold arith_i64. destruct (decide (v = 0)) as [->|Hv].
  - rewrite (@decide_True _ (0 <= 0)) by lia. change (- (0 + i64_min)) with (i64_max + 1).
    rewrite decide_False by int_lia. destruct checks; [done|].
    change (wrap_i64 (i64_max + 1)) with i64_min. cbn [mbind outcome_bind].
    specialize (Hm i64_min). destruct (NonMinI64.Wrap <$> _); [|exfalso; apply Hm; done || int_lia].
    split; [|done]. apply Hm; done || int_lia.
  - set (m := - (if decide (0 <= v) then v + i64_min else v - i64_min)).
    assert (is_i64 m /\ m <> 0 /\ Z.lxor m i64_min = - v) as (H1 & H2 & H3).
    { subst m. case_decide.
      - rewrite lxor_i64_min by int_lia. rewrite decide_True by int_lia. int_lia.
      - rewrite lxor_i64_min by int_lia. rewrite decide_False by int_lia. int_lia. }
    rewrite decide_True by done. cbn [mbind outcome_bind].
    specialize (Hm m H1 H2 H3). destruct (NonMinI64.Wrap <$> _); [|done]. split; done.
Qed.

(** [BitAnd] calls the unchecked constructor, and is undefined exactly when the two values
    are negative with no common lower bit. *)
Lemma nonmin_bitand_spec a b :
  match NonMinI64.bitand a b with
  | Some m => NonMinI64.get m = Z.land (NonMinI64.get a) (NonMinI64.get b)
  | None => Z.land (NonMinI64.get a) (NonMinI64.get b) = i64_min
  end.
Proof.
  unfold NonMinI64.bitand. rewrite NonMinI64.new_unchecked_new.
  pose proof (NonMinI64.get_range a). pose proof (NonMinI64.get_range b).
  set (x := NonMinI64.get a) in *. set (y := NonMinI64.get b) in *. clearbody x y.
  assert (is_i64 (Z.land x y)) as Hl.
  { assert (forall z, is_i64 z <-> Z.shiftr z 63 = 0 \/ Z.shiftr z 63 = -1) as Hs.
    { intros z. rewrite Z.shiftr_div_pow2 by lia. split.
      - intros. assert (-1 <= z / 2 ^ 63 <= 0); [|lia]. split.
        + apply Z.div_le_lower_bound; int_lia.
        + apply Z.lt_succ_r, Z.div_lt_upper_bound; int_lia.
      - pose proof (Z.div_mod z (2 ^ 63) ltac:(lia)).
        pose proof (Z.mod_pos_bound z (2 ^ 63) ltac:(lia)). int_lia. }
    apply Hs. rewrite Z.shiftr_land.
    destruct (proj1 (Hs x) ltac:(int_lia)) as [->| ->], (proj1 (Hs y) ltac:(int_lia)) as [->| ->]; auto. }
  destruct (NonMinI64.new _) as [m|] eqn:E.
  - by apply NonMinI64.new_spec in E.
  - by apply NonMinI64.new_None in E.
Qed.

Lemma nonmin_midpoint_spec a b :
  exists m, NonMinI64.midpoint a b = Done m
    /\ NonMinI64.get m = Ints.midpoint (NonMinI64.get a) (NonMinI64.get b).
Proof.
  pose proof (NonMinI64.get_range a). pose proof (NonMinI64.get_range b).
  pose proof (midpoint_between (NonMinI64.get a) (NonMinI64.get b)).
  unfold NonMinI64.midpoint.
  destruct (NonMinI64.new_is_Some (Ints.midpoint (NonMinI64.get a) (NonMinI64.get b)))
    as (m & -> & Hm); [int_lia|int_lia|]. by exists m.
Qed.

End NonMinI64Ops.

Section TimeIntOps.

Import TimeInt.
Implicit Types a b : TimeInt.t.

(** The range of temporal times: [i64] without its minimum. *)
Definition clamp_temporal (z : Z) : Z := Z.max (i64_min + 1) (Z.min i64_max z).

Lemma as_i64_default_new v : is_i64 v ->
  as_i64 (Wrap (Some (default NonMinI64.MIN (NonMinI64.new v)))) = Z.max v (i64_min + 1).
Proof. intros Hv. by apply NonMinI64.get_saturating_from_i64. Qed.

Lemma temporal_repr a : a <> STATIC -> exists n, a = Wrap (Some n) /\ as_i64 a = NonMinI64.get n.
Proof. destruct a as [[n|]]; [|done]. intros _. by exists n. Qed.

(** Addition, subtraction, successor, predecessor and subtraction of an [i64]: static
    absorbs, and otherwise the exact integer result is clamped to the temporal range, so that no
    operation on temporal times ever yields the static marker. *)
Lemma time_arith_spec a b (k : Z) : is_i64 k ->
  (a = STATIC \/ b = STATIC -> add a b = STATIC /\ sub a b = STATIC) /\
  (a = STATIC -> inc a = STATIC /\ dec a = STATIC /\ TimeInt.saturating_sub a k = STATIC) /\
  (a <> STATIC -> b <> STATIC ->
     as_i64 (add a b) = clamp_temporal (as_i64 a + as_i64 b)
     /\ as_i64 (sub a b) = clamp_temporal (as_i64 a - as_i64 b)) /\
  (a <> STATIC ->
     as_i64 (inc a) = clamp_temporal (as_i64 a + 1)
     /\ as_i64 (dec a) = clamp_temporal (as_i64 a - 1)
     /\ as_i64 (TimeInt.saturating_sub a k) = clamp_temporal (as_i64 a - k)).
Proof.
  intros Hk. unfold clamp_temporal. split_and!.
  - intros [-> | ->]; [done|]. by destruct a as [[]].
  - by intros ->.
  - intros (n & -> & ->)%temporal_repr (m & -> & ->)%temporal_repr.
    unfold add, sub; cbn [repr]. split; rewrite as_i64_default_new by int_lia; int_lia.
  - intros (n & -> & Hn)%temporal_repr. rewrite Hn.
    unfold inc, dec, TimeInt.saturating_sub; cbn [repr].
    split_and!; rewrite as_i64_new_temporal by int_lia; int_lia.
Qed.

(** Negation of a time: exact on every non-zero temporal time (no overflow, since the
    minimum is excluded), identity on static, and a panic on zero in builds with overflow
    checks. *)
Lemma time_neg_spec checks a :
  match neg checks a with
  | Done m => (a = STATIC -> m = STATIC)
      /\ (a <> STATIC -> as_i64 m = - as_i64 a) /\ (a = ZERO -> checks = false)
  | Panic => a = ZERO /\ checks = true
  end.
Proof.
  destruct a as [[n|]]; unfold neg; cbn [repr]; [|naive_solver].
  pose proof (nonmin_neg_spec checks n) as H.
  destruct (NonMinI64.neg checks n) as [m|]; cbn [mbind outcome_bind].
  - destruct H as [H1 H2]. split_and!; [done|by intros _|].
    intros [= ->]. by apply H2.
  - destruct H as [H1 ->]. split; [|done]. do 2 f_equal. by apply NonMinI64.get_eq.
Qed.

Lemma time_midpoint_spec a b :
  exists m, midpoint a b = Done m
    /\ (a = STATIC \/ b = STATIC -> m = STATIC)
    /\ (a <> STATIC -> b <> STATIC -> as_i64 m = Ints.midpoint (as_i64 a) (as_i64 b)).
Proof.
  destruct a as [[n|]], b as [[m|]]; unfold midpoint; cbn [repr];
    try (exists STATIC; naive_solver).
  destruct (nonmin_midpoint_spec n m) as (k & -> & Hk). cbn [mbind outcome_bind].
  exists (Wrap (Some k)). split_and!; naive_solver.
Qed.

(** *** Snapping to a grid *)

Lemma nearest_multiple v s k : 1 <= s ->
  Z.abs ((v + Z.quot s 2) / s * s - v) <= Z.abs (k * s - v).
Proof.
  intros Hs.
  assert (0 <= 2 * Z.quot s 2 <= s /\ s <= 2 * Z.quot s 2 + 1) as [H1 H2]
    by (Z.to_euclidean_division_equations; lia).
  set (h := Z.quot s 2) in *. clearbody h.
  pose proof (Z.div_mod (v + h) s ltac:(lia)) as E.
  pose proof (Z.mod_pos_bound (v + h) s ltac:(lia)).
  set (q := (v + h) / s) in *. set (r := (v + h) mod s) in *. clearbody q r.
  destruct (Z.lt_trichotomy k q) as [Hk|[->|Hk]]; [|lia|].
  - assert (k * s <= (q - 1) * s) by (apply Z.mul_le_mono_nonneg_r; lia). lia.
  - assert ((q + 1) * s <= k * s) by (apply Z.mul_le_mono_nonneg_r; lia). lia.
Qed.

(** When neither the half-step nor the product leaves [i64], the snapped time is a multiple
    of the interval that no other multiple beats in distance. The two margins are exactly what
    the additions of the code need: half a step above, a step below. *)
Lemma closest_multiple_of_nearest checks a s :
  a <> STATIC -> 1 <= s <= i64_max ->
  i64_min + s <= as_i64 a -> as_i64 a + s / 2 <= i64_max ->
  exists m, closest_multiple_of checks a s = Done m
    /\ (s | as_i64 m)
    /\ forall k, Z.abs (as_i64 m - as_i64 a) <= Z.abs (k * s - as_i64 a).
Proof.
  intros (n & -> & Hn)%temporal_repr Hs Hlo Hhi. rewrite Hn in *.
  unfold closest_multiple_of; cbn [repr].
  rewrite (proj2 (Z.leb_le 1 s)), andb_false_r by lia.
  set (v := NonMinI64.get n) in *. clearbody v.
  rewrite <- Z.quot_div_nonneg in Hhi by lia.
  assert (0 <= 2 * Z.quot s 2 <= s) by (Z.to_euclidean_division_equations; lia).
  replace (saturating_add v (Z.quot s 2)) with (v + Z.quot s 2) by int_lia.
  pose proof (nearest_multiple v s) as Hnear.
  pose proof (Z.div_mod (v + Z.quot s 2) s ltac:(lia)).
  pose proof (Z.mod_pos_bound (v + Z.quot s 2) s ltac:(lia)).
  set (w := (v + Z.quot s 2) / s) in *.
  assert (i64_min < w * s <= i64_max) by int_lia.
  unfold arith_i64. rewrite decide_True by int_lia. cbn [mbind outcome_bind].
  exists (new_temporal (w * s)). rewrite as_i64_new_temporal by int_lia.
  replace (Z.max (w * s) (i64_min + 1)) with (w * s) by lia.
  split_and!; [done|by exists w|]. intros k. apply Hnear. lia.
Qed.

End TimeIntOps.

(** Within one step of the minimum time the product overflows: a build with overflow checks
    panics, and one without snaps the earliest time to one of the latest. *)
Lemma closest_multiple_of_overflows :
  TimeInt.closest_multiple_of true TimeInt.MIN 10 = Panic
  /\ exists m, TimeInt.closest_multiple_of false TimeInt.MIN 10 = Done m
       /\ TimeInt.as_i64 m = i64_max - 1.
Proof. split; [reflexivity|]. eexists. split; reflexivity. Qed.

Lemma time_arith_spec_witness :
  TimeInt.as_i64 (TimeInt.add TimeInt.MAX TimeInt.ONE) = clamp_temporal (i64_max + 1)
  /\ TimeInt.as_i64 (TimeInt.saturating_sub TimeInt.MAX 5) = clamp_temporal (i64_max - 5).
Proof.
  assert (is_i64 5) as H by int_lia.
  destruct (time_arith_spec TimeInt.MAX TimeInt.ONE 5 H) as (_ & _ & H1 & H2).
  split; [apply H1; done|apply H2; done].
Defined.

Lemma closest_multiple_of_nearest_witness :
  exists m, TimeInt.closest_multiple_of true (TimeInt.new_temporal 14) 10 = Done m
    /\ (10 | TimeInt.as_i64 m)
    /\ forall k, Z.abs (TimeInt.as_i64 m - TimeInt.as_i64 (TimeInt.new_temporal 14))
         <= Z.abs (k * 10 - TimeInt.as_i64 (TimeInt.new_temporal 14)).
Proof.
  apply (closest_multiple_of_nearest true (TimeInt.new_temporal 14) 10);
    [done|int_lia|vm_compute; done|vm_compute; done].
Defined.
