(* ===== verification/TimeRange.v ===== *)
(** * Time ranges

    [dl_log_types/src/index/absolute_time_range.rs] (Module [AbsoluteTimeRange]) and the
    cursor-relative ranges of [dl_types_core/src/datatypes/time_range_boundary_ext.rs]
    and [time_int_ext.rs] (Module [TimeRangeBoundary]), which resolve to absolute ones.

    A range denotes the set of times between its inclusive bounds; the lattice operations
    are proved against that set. *)

From S2P Require Import Prelude Ints TimeInt.

Module AbsoluteTimeRange.

Record t := Mk { rmin : TimeInt.t; rmax : TimeInt.t }.

#[global] Instance t_eq_dec : EqDecision t.
Proof. solve_decision. Defined.

Definition EMPTY : t := Mk TimeInt.MAX TimeInt.MIN.
Definition EVERYTHING : t := Mk TimeInt.MIN TimeInt.MAX.

(** The arguments are the results of [try_into]. *)
Definition new (min max : result TimeInt.t unit) : t :=
  let min := TimeInt.saturated_temporal min in
  let max := TimeInt.saturated_temporal max in
  Mk min max.

Definition point (time : result TimeInt.t unit) : t :=
  let time := TimeInt.saturated_temporal time in
  Mk time time.

Definition set_min (self : t) (time : result TimeInt.t unit) : t :=
  Mk (TimeInt.saturated_temporal time) (rmax self).

Definition set_max (self : t) (time : result TimeInt.t unit) : t :=
  Mk (rmin self) (TimeInt.saturated_temporal time).

Definition abs_length (self : t) : Z :=
  abs_diff (TimeInt.as_i64 (rmin self)) (TimeInt.as_i64 (rmax self)).

Definition is_empty (self : t) : bool := TimeInt.lt (rmax self) (rmin self).

Definition center (self : t) : outcome TimeInt.t := TimeInt.midpoint (rmin self) (rmax self).

Definition contains (self : t) (time : TimeInt.t) : bool :=
  TimeInt.le (rmin self) time && TimeInt.le time (rmax self).

Definition contains_range (self other : t) : bool :=
  TimeInt.le (rmin self) (rmin other) && TimeInt.le (rmax other) (rmax self).

Definition intersects (self other : t) : bool :=
  TimeInt.le (rmin self) (rmax other) && TimeInt.le (rmin other) (rmax self).

Definition intersection (self other : t) : option t :=
  if intersects self other
  then Some (Mk (TimeInt.max (rmin self) (rmin other)) (TimeInt.min (rmax self) (rmax other)))
  else None.

Definition union (self other : t) : t :=
  Mk (TimeInt.min (rmin self) (rmin other)) (TimeInt.max (rmax self) (rmax other)).

End AbsoluteTimeRange.

(** ** Cursor-relative ranges

    [dl_types_core::datatypes::TimeInt] is a bare [i64], written [Z] here. *)

Module TimeRangeBoundary.

Inductive t :=
| CursorRelative (time : Z)
| Absolute (time : Z)
| Infinite.

(** [datatypes::TimeInt]'s constants and saturating [+] and [-]. *)
Definition MIN : Z := i64_min + 1.
Definition MAX : Z := i64_max.
Definition add (self rhs : Z) : Z := saturating_add self rhs.
Definition sub (self rhs : Z) : Z := saturating_sub self rhs.

Definition AT_CURSOR : t := CursorRelative 0.

Definition start_boundary_time (self : t) (cursor : Z) : Z :=
  match self with
  | Absolute time => time
  | CursorRelative time => add cursor time
  | Infinite => MIN
  end.

Definition end_boundary_time (self : t) (cursor : Z) : Z :=
  match self with
  | Absolute time => time
  | CursorRelative time => add cursor time
  | Infinite => MAX
  end.

End TimeRangeBoundary.

(** [datatypes::TimeRange]. *)
Record TimeRange := { tr_start : TimeRangeBoundary.t; tr_end : TimeRangeBoundary.t }.

Definition TimeRange_EVERYTHING : TimeRange :=
  {| tr_start := TimeRangeBoundary.Infinite; tr_end := TimeRangeBoundary.Infinite |}.

Definition TimeRange_AT_CURSOR : TimeRange :=
  {| tr_start := TimeRangeBoundary.AT_CURSOR; tr_end := TimeRangeBoundary.AT_CURSOR |}.

(** [-margin] is a plain negation. *)
Definition from_cursor_plus_minus (overflow_checks : bool) (margin : Z) : outcome TimeRange :=
  neg ← arith_i64 overflow_checks (- margin);
  Done {| tr_start := TimeRangeBoundary.CursorRelative neg;
          tr_end := TimeRangeBoundary.CursorRelative margin |}.

(** [From<datatypes::TimeInt> for TimeInt] is [new_temporal], which never fails. *)
Definition from_relative_time_range (range : TimeRange) (cursor : Z) : AbsoluteTimeRange.t :=
  let min := TimeRangeBoundary.start_boundary_time (tr_start range) cursor in
  let max := TimeRangeBoundary.end_boundary_time (tr_end range) cursor in
  let '(min, max) := if max <? min then (max, min) else (min, max) in
  AbsoluteTimeRange.new (Ok (TimeInt.new_temporal min)) (Ok (TimeInt.new_temporal max)).

(** ** Ranges as sets of times *)

(** The set a range denotes. *)
Definition in_range (x : TimeInt.t) (r : AbsoluteTimeRange.t) : Prop :=
  TimeInt.as_i64 (AbsoluteTimeRange.rmin r) <= TimeInt.as_i64 x
    <= TimeInt.as_i64 (AbsoluteTimeRange.rmax r).

(** The invariant of ranges that never include the static marker. *)
Definition temporal_range (r : AbsoluteTimeRange.t) : Prop :=
  AbsoluteTimeRange.rmin r <> TimeInt.STATIC /\ AbsoluteTimeRange.rmax r <> TimeInt.STATIC.

Section Ranges.

Import AbsoluteTimeRange.
Implicit Types r s : AbsoluteTimeRange.t.

Ltac range_solve :=
  unfold in_range, contains, contains_range, intersects, intersection, union, is_empty,
    abs_length in *; cbn [rmin rmax] in *;
  rewrite ?TimeInt.le_as_i64, ?TimeInt.lt_as_i64, ?TimeInt.as_i64_max, ?TimeInt.as_i64_min in *;
  rewrite ?andb_true_iff, ?Z.leb_le, ?Z.ltb_lt in *.

Lemma contains_spec r x : contains r x = true <-> in_range x r.
Proof. range_solve. lia. Qed.

Lemma intersects_spec r s :
  intersects r s = true <->
  TimeInt.as_i64 (rmin r) <= TimeInt.as_i64 (rmax s)
  /\ TimeInt.as_i64 (rmin s) <= TimeInt.as_i64 (rmax r).
Proof. range_solve. lia. Qed.

Lemma is_empty_false r : is_empty r = false <-> in_range (rmin r) r.
Proof. range_solve. destruct (Z.ltb_spec (TimeInt.as_i64 (rmax r)) (TimeInt.as_i64 (rmin r))); split; (done || lia). Qed.

(** The lattice of ranges: [contains] is membership; [is_empty], [intersects] and
    [contains_range] say of the denoted sets that they are empty, meet, and are included (the
    last two for non-empty ranges, which is where they are used); [intersection] is the set
    intersection, and [union] the least range above both arguments. *)
Lemma range_lattice_spec r s :
  (forall x, contains r x = true <-> in_range x r) /\
  (is_empty r = true <-> forall x, ~ in_range x r) /\
  (is_empty r = false -> is_empty s = false ->
     (intersects r s = true <-> exists x, in_range x r /\ in_range x s)
     /\ (contains_range r s = true <-> forall x, in_range x s -> in_range x r)) /\
  (forall x, is_empty r = false -> is_empty s = false ->
     (in_range x r /\ in_range x s <->
      exists i, intersection r s = Some i /\ in_range x i)) /\
  (forall u, is_empty r = false -> is_empty s = false ->
     (contains_range u r = true /\ contains_range u s = true <->
      contains_range u (union r s) = true)).
Proof.
  split_and!.
  - intros x. apply contains_spec.
  - split.
    + intros H x. range_solve. lia.
    + intros H. destruct (is_empty r) eqn:E; [done|].
      destruct (H (rmin r)). by apply is_empty_false.
  - intros Hr%is_empty_false Hs%is_empty_false. split.
    + rewrite intersects_spec. split.
      * intros H. exists (TimeInt.max (rmin r) (rmin s)).
        range_solve. lia.
      * intros (x & H1 & H2). range_solve. lia.
    + split; [intros H x Hx; range_solve; lia|].
      intros H. pose proof (H (rmin s) Hs). pose proof (H (rmax s) ltac:(range_solve; lia)).
      range_solve. lia.
  - intros x Hr%is_empty_false Hs%is_empty_false. unfold intersection.
    destruct (intersects r s) eqn:E.
    + apply intersects_spec in E. split.
      * intros [H1 H2]. eexists. split; [done|]. range_solve. lia.
      * intros (i & [= <-] & H). range_solve. lia.
    + split; [|naive_solver]. intros [H1 H2].
      assert (intersects r s = true) by (range_solve; lia). congruence.
  - intros u _ _. range_solve. lia.
Qed.

Lemma abs_length_range r :
  0 <= abs_length r <= u64_max.
Proof.
  pose proof (TimeInt.as_i64_range (rmin r)). pose proof (TimeInt.as_i64_range (rmax r)).
  unfold abs_length. int_lia.
Qed.

Lemma abs_length_nonempty r : is_empty r = false ->
  abs_length r = TimeInt.as_i64 (rmax r) - TimeInt.as_i64 (rmin r).
Proof. rewrite is_empty_false. unfold in_range, abs_length, abs_diff. lia. Qed.

Lemma saturated_temporal_not_static v : TimeInt.saturated_temporal v <> TimeInt.STATIC.
Proof.
  rewrite TimeInt.as_i64_static_iff. unfold TimeInt.saturated_temporal.
  rewrite TimeInt.as_i64_max, TimeInt.as_i64_MIN. lia.
Qed.

(** Every way to build or update a range through the public constructors keeps the static
    marker out, and so do the lattice operations. *)
Lemma range_temporal_preserved r s a b :
  temporal_range (new a b) /\ temporal_range (point a) /\
  (temporal_range r -> temporal_range (set_min r a) /\ temporal_range (set_max r a)) /\
  (temporal_range r -> temporal_range s ->
     temporal_range (union r s)
     /\ forall i, intersection r s = Some i -> temporal_range i).
Proof.
  pose proof saturated_temporal_not_static as Hst. unfold temporal_range.
  split_and!; try apply Hst.
  { intros [Ha Hb]. split; split; try apply Hst; done. }
  assert (forall a b, a <> TimeInt.STATIC -> b <> TimeInt.STATIC ->
    TimeInt.max a b <> TimeInt.STATIC /\ TimeInt.min a b <> TimeInt.STATIC) as Hm.
  { intros x y Hx Hy. unfold TimeInt.max, TimeInt.min. by destruct (TimeInt.lt y x). }
  intros [H1 H2] [H3 H4]. split.
  - split; by apply Hm.
  - intros i. unfold intersection. destruct (intersects r s); [|done]. intros [= <-].
    split; by apply Hm.
Qed.

(** Resolving a relative range against a cursor always gives a non-empty temporal range
    (reversed bounds are swapped): from the lesser to the greater of the two resolved bounds,
    with [i64::MIN], which stands for static data, read as the earliest time. *)
Lemma from_relative_time_range_spec range cursor :
  is_i64 cursor ->
  is_i64 (TimeRangeBoundary.start_boundary_time (tr_start range) cursor) ->
  is_i64 (TimeRangeBoundary.end_boundary_time (tr_end range) cursor) ->
  let lo := TimeRangeBoundary.start_boundary_time (tr_start range) cursor in
  let hi := TimeRangeBoundary.end_boundary_time (tr_end range) cursor in
  let r := from_relative_time_range range cursor in
  temporal_range r /\ is_empty r = false
  /\ TimeInt.as_i64 (rmin r) = Z.max (Z.min lo hi) (i64_min + 1)
  /\ TimeInt.as_i64 (rmax r) = Z.max (Z.max lo hi) (i64_min + 1).
Proof.
  intros Hc Hlo Hhi lo hi r. subst r. unfold from_relative_time_range.
  fold lo hi in Hlo, Hhi |- *. clearbody lo hi.
  assert (forall a b, is_i64 a -> is_i64 b -> a <= b ->
    let r := new (Ok (TimeInt.new_temporal a)) (Ok (TimeInt.new_temporal b)) in
    temporal_range r /\ is_empty r = false
    /\ TimeInt.as_i64 (rmin r) = Z.max a (i64_min + 1)
    /\ TimeInt.as_i64 (rmax r) = Z.max b (i64_min + 1)) as Hnew.
  { intros a b Ha Hb Hab r. split; [split; apply saturated_temporal_not_static|].
    rewrite is_empty_false. unfold in_range. subst r. cbn [new rmin rmax].
    rewrite !TimeInt.as_i64_saturated_temporal_Ok, !TimeInt.as_i64_new_temporal by done. lia. }
  destruct (Z.ltb_spec hi lo).
  - rewrite (Z.min_r lo hi), (Z.max_l lo hi) by lia. apply Hnew; (done || lia).
  - rewrite (Z.min_l lo hi), (Z.max_r lo hi) by lia. apply Hnew; (done || lia).
Qed.

End Ranges.

Lemma from_relative_time_range_spec_witness :
  AbsoluteTimeRange.is_empty
    (from_relative_time_range
       {| tr_start := TimeRangeBoundary.CursorRelative 5; tr_end := TimeRangeBoundary.Absolute 3 |} 10)
  = false.
Proof.
  apply (from_relative_time_range_spec
    {| tr_start := TimeRangeBoundary.CursorRelative 5; tr_end := TimeRangeBoundary.Absolute 3 |} 10);
    vm_compute; done.
Defined.

#[export] Hint Rewrite contains_spec intersects_spec is_empty_false : dal.
