(* ===== verification/Tuid.v ===== *)
(** * Time-based unique identifiers

    [dl_tuid/src/lib.rs] (Module [Tuid]) and its two newtypes, [RowId]
    ([dl_types_core/src/row_id.rs]) and [ChunkId] ([dl_types_core/src/chunk_id.rs]).

    A TUID is two big-endian byte arrays.  The rest of the library compares row ids
    through [Tuid.as_u128], an order isomorphism from the derived lexicographic order. *)

From stdpp Require Import vector strings.
From Stdlib Require Import Strings.Byte Strings.Ascii.
From S2P Require Import Prelude Ints.

(** ** Byte arrays *)

Module Bytes.

#[global] Instance byte_eq_dec : EqDecision byte := Byte.byte_eq_dec.

Definition to_Z (b : byte) : Z := Z.of_N (Byte.to_N b).
Definition of_Z (z : Z) : byte := default x00 (Byte.of_N (Z.to_N (z mod 256))).

(** [uN::to_be_bytes] and [uN::from_be_bytes] at [n] bytes. *)
Fixpoint to_be_bytes (n : nat) (z : Z) : vec byte n :=
  match n with
  | O => [#]
  | S k => of_Z (Z.shiftr z (8 * Z.of_nat k)) ::: to_be_bytes k z
  end.

Fixpoint from_be_bytes {n : nat} (v : vec byte n) : Z :=
  match v with
  | [#] => 0
  | @vcons _ b k tl => to_Z b * 2 ^ (8 * Z.of_nat k) + from_be_bytes tl
  end.

(** The derived [Ord] of an array: lexicographic. *)
Fixpoint cmp_bytes (l k : list byte) : comparison :=
  match l, k with
  | [], [] => Eq
  | [], _ :: _ => Lt
  | _ :: _, [] => Gt
  | b :: l, c :: k => match to_Z b ?= to_Z c with Eq => cmp_bytes l k | o => o end
  end.
Definition cmp {n} (v w : vec byte n) : comparison := cmp_bytes (vec_to_list v) (vec_to_list w).

Lemma to_Z_range b : 0 <= to_Z b < 256.
Proof. unfold to_Z. pose proof (Byte.to_N_bounded b). lia. Qed.

Lemma to_Z_of_Z z : to_Z (of_Z z) = z mod 256.
Proof.
  unfold to_Z, of_Z. pose proof (Z.mod_pos_bound z 256 ltac:(lia)).
  destruct (Byte.of_N _) as [b|] eqn:E; simpl.
  - apply Byte.to_of_N in E. rewrite E. lia.
  - apply Byte.of_N_None_iff in E. lia.
Qed.

Lemma of_Z_to_Z b : of_Z (to_Z b) = b.
Proof.
  unfold of_Z. pose proof (to_Z_range b). rewrite Z.mod_small by done.
  unfold to_Z. by rewrite N2Z.id, Byte.of_to_N.
Qed.

Lemma to_Z_inj b c : to_Z b = to_Z c -> b = c.
Proof. intros H. by rewrite <- (of_Z_to_Z b), H, of_Z_to_Z. Qed.

Lemma from_be_bytes_range {n} (v : vec byte n) : 0 <= from_be_bytes v < 2 ^ (8 * Z.of_nat n).
Proof.
  induction v as [|b k v IH]; simpl from_be_bytes; [done|].
  pose proof (to_Z_range b). rewrite Nat2Z.inj_succ.
  replace (8 * Z.succ (Z.of_nat k)) with (8 + 8 * Z.of_nat k) by lia.
  rewrite Z.pow_add_r by lia. change (2 ^ 8) with 256. nia.
Qed.

Lemma from_to_be_bytes n z : from_be_bytes (to_be_bytes n z) = z mod 2 ^ (8 * Z.of_nat n).
Proof.
  induction n as [|n IH]; simpl to_be_bytes; cbn [from_be_bytes].
  - change (8 * Z.of_nat 0) with 0. by rewrite Z.mod_1_r.
  - rewrite IH, to_Z_of_Z, Nat2Z.inj_succ, Z.shiftr_div_pow2 by lia.
    replace (8 * Z.succ (Z.of_nat n)) with (8 * Z.of_nat n + 8) by lia.
    rewrite Z.pow_add_r, Z.rem_mul_r by lia. change (2 ^ 8) with 256. lia.
Qed.

Lemma cmp_from_be_bytes {n} (v w : vec byte n) : cmp v w = (from_be_bytes v ?= from_be_bytes w).
Proof.
  unfold cmp. induction v as [|b k v IH]; inv_vec w; [done|]. intros c w.
  simpl vec_to_list. cbn [cmp_bytes from_be_bytes]. rewrite IH.
  pose proof (from_be_bytes_range v). pose proof (from_be_bytes_range w).
  symmetry. destruct (Z.compare_spec (to_Z b) (to_Z c)) as [->|H1|H1].
  - destruct (Z.compare_spec (from_be_bytes v) (from_be_bytes w)) as [H2|H2|H2];
      [apply Z.compare_eq_iff|apply Z.compare_lt_iff|apply Z.compare_gt_iff]; lia.
  - apply Z.compare_lt_iff. nia.
  - apply Z.compare_gt_iff. nia.
Qed.

Lemma from_be_bytes_inj {n} (v w : vec byte n) : from_be_bytes v = from_be_bytes w -> v = w.
Proof.
  induction v as [|b k v IH]; inv_vec w; [done|]. intros c w. cbn [from_be_bytes]. intros H.
  pose proof (from_be_bytes_range v). pose proof (from_be_bytes_range w).
  assert (to_Z b = to_Z c) as ->%to_Z_inj by nia.
  f_equal. apply IH. lia.
Qed.

End Bytes.

(** ** Tuid *)

Module Tuid.

Record t := Mk { time_nanos : vec byte 8; inc_bytes : vec byte 8 }.

#[global] Instance t_eq_dec : EqDecision t.
Proof. solve_decision. Defined.

Definition from_nanos_and_inc (time_nanos inc : Z) : t :=
  Mk (Bytes.to_be_bytes 8 time_nanos) (Bytes.to_be_bytes 8 inc).

Definition ZERO : t := Mk (vreplicate 8 x00) (vreplicate 8 x00).
Definition MAX : t := Mk (Bytes.to_be_bytes 8 u64_max) (Bytes.to_be_bytes 8 u64_max).

Definition from_u128 (id : Z) : t :=
  from_nanos_and_inc (wrap_u64 (Z.shiftr id 64))
    (wrap_u64 (Z.land id (Z.shiftr u128_max 64))).

Definition nanos_since_epoch (self : t) : Z := Bytes.from_be_bytes (time_nanos self).
Definition inc (self : t) : Z := Bytes.from_be_bytes (inc_bytes self).

Definition as_u128 (self : t) : Z :=
  Z.lor (Z.shiftl (nanos_since_epoch self) 64) (inc self).

Definition from_bytes (bytes : vec byte 16) : t := from_u128 (Bytes.from_be_bytes bytes).
Definition as_bytes (self : t) : vec byte 16 := Bytes.to_be_bytes 16 (as_u128 self).

(** The derived [Ord]: [time_nanos], then [inc]. *)
Definition cmp (self other : t) : comparison :=
  match Bytes.cmp (time_nanos self) (time_nanos other) with
  | Eq => Bytes.cmp (inc_bytes self) (inc_bytes other)
  | o => o
  end.

Definition next (self : t) : t :=
  Mk (time_nanos self) (Bytes.to_be_bytes 8 (wrap_u64 (inc self + 1))).

Definition incremented_by (self : t) (n : Z) : t :=
  Mk (time_nanos self) (Bytes.to_be_bytes 8 (wrap_u64 (inc self + n))).

(** [Tuid::new]: the thread-local [LATEST_TUID] is the state, [None] before the first
    call; the clock readings and the random seed are inputs. *)
Definition initial_latest (nanos random : Z) : t :=
  from_nanos_and_inc nanos (Z.land random (Z.lxor u64_max (Z.shiftl 1 63))).

Definition new (debug_assertions : bool) (nanos_init random nanos : Z) (latest_tuid : option t)
    : outcome (t * option t) :=
  let latest := default (initial_latest nanos_init random) latest_tuid in
  inc' ← arith_u64 debug_assertions (inc latest + 1);
  let new := from_nanos_and_inc nanos inc' in
  if debug_assertions && negb (nanos_since_epoch latest <=? nanos_since_epoch new)
  then Panic
  else Done (new, Some new).

(** *** Basic facts *)

Lemma inc_range a : is_u64 (inc a).
Proof. unfold inc. pose proof (Bytes.from_be_bytes_range (inc_bytes a)). int_lia. Qed.

Lemma nanos_range a : is_u64 (nanos_since_epoch a).
Proof. unfold nanos_since_epoch. pose proof (Bytes.from_be_bytes_range (time_nanos a)). int_lia. Qed.

Lemma as_u128_spec a : as_u128 a = nanos_since_epoch a * 2 ^ 64 + inc a.
Proof.
  unfold as_u128. pose proof (inc_range a).
  assert (Z.land (Z.shiftl (nanos_since_epoch a) 64) (inc a) = 0) as Hl.
  { apply Z.bits_inj'. intros i Hi. rewrite Z.land_spec, Z.bits_0.
    destruct (decide (i < 64)); [by rewrite Z.shiftl_spec_low by lia|].
    rewrite (Z.bits_above_log2 (inc a)), andb_false_r; [done|int_lia|].
    destruct (decide (inc a = 0)) as [->|]; [simpl; lia|].
    apply (Z.lt_le_trans _ 64); [apply Z.log2_lt_pow2; int_lia|lia]. }
  rewrite <- Z.lxor_lor by done. rewrite <- Z.add_nocarry_lxor by done.
  by rewrite Z.shiftl_mul_pow2 by lia.
Qed.

Lemma as_u128_range a : 0 <= as_u128 a <= u128_max.
Proof.
  rewrite as_u128_spec. pose proof (inc_range a). pose proof (nanos_range a).
  change u128_max with (u64_max * 2 ^ 64 + u64_max). unfold is_u64 in *. nia.
Qed.

Lemma eq_spec a b : nanos_since_epoch a = nanos_since_epoch b -> inc a = inc b -> a = b.
Proof.
  destruct a, b. unfold nanos_since_epoch, inc; simpl.
  by intros ->%Bytes.from_be_bytes_inj ->%Bytes.from_be_bytes_inj.
Qed.

Lemma as_u128_inj a b : as_u128 a = as_u128 b -> a = b.
Proof.
  rewrite !as_u128_spec. intros H.
  pose proof (inc_range a). pose proof (inc_range b). unfold is_u64, u64_max in *.
  assert (nanos_since_epoch a = nanos_since_epoch b) by nia.
  apply eq_spec; lia.
Qed.

Lemma wrap_u64_range z : is_u64 (wrap_u64 z).
Proof. unfold wrap_u64. pose proof (Z.mod_pos_bound z (2 ^ 64)). int_lia. Qed.

Lemma nanos_from v w : nanos_since_epoch (from_nanos_and_inc v w) = wrap_u64 v.
Proof. unfold nanos_since_epoch, from_nanos_and_inc. cbn [time_nanos]. apply Bytes.from_to_be_bytes. Qed.

Lemma inc_from v w : inc (from_nanos_and_inc v w) = wrap_u64 w.
Proof. unfold inc, from_nanos_and_inc. cbn [inc_bytes]. apply Bytes.from_to_be_bytes. Qed.

Lemma as_u128_from_u128 id : 0 <= id <= u128_max -> as_u128 (from_u128 id) = id.
Proof.
  intros Hid. unfold from_u128. rewrite as_u128_spec, nanos_from, inc_from.
  change (Z.shiftr u128_max 64) with (Z.ones 64). rewrite Z.land_ones, Z.shiftr_div_pow2 by lia.
  unfold wrap_u64. rewrite !Z.mod_mod by lia. unfold u128_max in *.
  rewrite (Z.mod_small (id / 2 ^ 64)); [pose proof (Z.div_mod id (2 ^ 64)); lia|].
  split; [apply Z.div_pos; lia|apply Z.div_lt_upper_bound; lia].
Qed.

Lemma from_u128_as_u128 a : from_u128 (as_u128 a) = a.
Proof. apply as_u128_inj, as_u128_from_u128, as_u128_range. Qed.

Lemma cmp_as_u128 a b : cmp a b = (as_u128 a ?= as_u128 b).
Proof.
  unfold cmp. rewrite !Bytes.cmp_from_be_bytes.
  fold (nanos_since_epoch a) (nanos_since_epoch b) (inc a) (inc b).
  rewrite !as_u128_spec. pose proof (inc_range a). pose proof (inc_range b).
  unfold is_u64, u64_max in *. symmetry.
  destruct (Z.compare_spec (nanos_since_epoch a) (nanos_since_epoch b)) as [->|H1|H1].
  - destruct (Z.compare_spec (inc a) (inc b)) as [H2|H2|H2];
      [apply Z.compare_eq_iff|apply Z.compare_lt_iff|apply Z.compare_gt_iff]; lia.
  - apply Z.compare_lt_iff. nia.
  - apply Z.compare_gt_iff. nia.
Qed.

#[global] Instance t_countable : Countable t := inj_countable' as_u128 from_u128 from_u128_as_u128.

End Tuid.

(** ** The hexadecimal string format *)

Module Hex.

(** [{:016X}] and [{:016x}] on a [u64]: sixteen digits, most significant first. *)
Definition digit_char (upper : bool) (d : Z) : ascii :=
  ascii_of_N (Z.to_N (if d <? 10 then 48 + d else (if upper then 55 else 87) + d)).

Fixpoint fmt_hex (upper : bool) (width : nat) (z : Z) : list ascii :=
  match width with
  | O => []
  | S k => digit_char upper (Z.shiftr z (4 * Z.of_nat k) mod 16) :: fmt_hex upper k z
  end.

Inductive IntErrorKind := Empty | InvalidDigit | PosOverflow.

(** [char::to_digit(16)]. *)
Definition to_digit (c : ascii) : option Z :=
  let n := Z.of_N (N_of_ascii c) in
  if (48 <=? n) && (n <=? 57) then Some (n - 48)
  else if (65 <=? n) && (n <=? 70) then Some (n - 55)
  else if (97 <=? n) && (n <=? 102) then Some (n - 87)
  else None.

(** The loop of [u128::from_str_radix(_, 16)]: [checked_mul], then the digit, then
    [checked_add]; an invalid digit is reported before an overflow of the product. *)
Fixpoint parse_digits (acc : Z) (s : list ascii) : result Z IntErrorKind :=
  match s with
  | [] => Ok acc
  | c :: s =>
      match to_digit c with
      | None => Err InvalidDigit
      | Some d =>
          if u128_max <? acc * 16 then Err PosOverflow
          else if u128_max <? acc * 16 + d then Err PosOverflow
          else parse_digits (acc * 16 + d) s
      end
  end.

Definition u128_from_str_radix_16 (s : list ascii) : result Z IntErrorKind :=
  match s with
  | [] => Err Empty
  | ["+"%char] | ["-"%char] => Err InvalidDigit
  | "+"%char :: s => parse_digits 0 s
  | _ => parse_digits 0 s
  end.

(** [str] ordering: bytewise lexicographic. *)
Fixpoint cmp_str (s t : list ascii) : comparison :=
  match s, t with
  | [], [] => Eq
  | [], _ :: _ => Lt
  | _ :: _, [] => Gt
  | a :: s, b :: t => match (N_of_ascii a ?= N_of_ascii b)%N with Eq => cmp_str s t | o => o end
  end.

(** [str::split_once]. *)
Fixpoint split_once (sep : ascii) (s : list ascii) : option (list ascii * list ascii) :=
  match s with
  | [] => None
  | c :: s =>
      if decide (c = sep) then Some ([], s)
      else match split_once sep s with Some (a, b) => Some (c :: a, b) | None => None end
  end.

(** Facts about one digit, by enumeration. *)
Lemma digit_cases (P : Z -> Prop) :
  Forall P (seqZ 0 16) -> forall d, 0 <= d < 16 -> P d.
Proof. intros H d Hd. rewrite Forall_forall in H. apply H, elem_of_seqZ. lia. Qed.

Lemma to_digit_char upper d : 0 <= d < 16 -> to_digit (digit_char upper d) = Some d.
Proof. revert d. apply digit_cases. destruct upper; repeat constructor. Qed.

Lemma digit_char_code upper d : 0 <= d < 16 ->
  Z.of_N (N_of_ascii (digit_char upper d)) = if d <? 10 then 48 + d else (if upper then 55 else 87) + d.
Proof. revert d. apply digit_cases. destruct upper; repeat constructor. Qed.

Lemma digit_char_cmp upper d e : 0 <= d < 16 -> 0 <= e < 16 ->
  (N_of_ascii (digit_char upper d) ?= N_of_ascii (digit_char upper e))%N = (d ?= e).
Proof.
  intros Hd He. rewrite <- N2Z.inj_compare, !digit_char_code by done.
  destruct (Z.ltb_spec d 10), (Z.ltb_spec e 10), upper, (Z.compare_spec d e);
    apply Z.compare_eq_iff || apply Z.compare_lt_iff || apply Z.compare_gt_iff; lia.
Qed.

Lemma digit_char_separators upper d : 0 <= d < 16 ->
  digit_char upper d <> "_"%char /\ digit_char upper d <> "+"%char /\ digit_char upper d <> "-"%char.
Proof. revert d. apply digit_cases. destruct upper; repeat (constructor; [done|]); constructor. Qed.

Lemma hex_step z k : 0 <= z < 16 ^ Z.of_nat (S k) ->
  Z.shiftr z (4 * Z.of_nat k) mod 16 = z / 16 ^ Z.of_nat k.
Proof.
  intros Hz. rewrite Nat2Z.inj_succ, Z.pow_succ_r in Hz by lia.
  rewrite Z.shiftr_div_pow2, Z.pow_mul_r by lia. change (2 ^ 4) with 16.
  apply Z.mod_small. split; [apply Z.div_pos; lia|apply Z.div_lt_upper_bound; lia].
Qed.

Lemma fmt_hex_mod upper k z : fmt_hex upper k z = fmt_hex upper k (z mod 16 ^ Z.of_nat k).
Proof.
  assert (forall j, (j <= k)%nat -> fmt_hex upper j z = fmt_hex upper j (z mod 16 ^ Z.of_nat k)) as H;
    [|by apply H].
  induction j as [|j IH]; [done|]. intros Hj. simpl. rewrite IH by lia. do 2 f_equal.
  rewrite !Z.shiftr_div_pow2, !Z.pow_mul_r by lia. change (2 ^ 4) with 16.
  replace (Z.of_nat k) with (Z.of_nat j + (1 + Z.of_nat (k - S j))) by lia.
  rewrite Z.pow_add_r, Z.pow_add_r, Z.pow_1_r by lia.
  rewrite (Z.rem_mul_r z (16 ^ Z.of_nat j)) by lia.
  rewrite (Z.mul_comm (16 ^ Z.of_nat j)), Z.div_add by lia.
  rewrite (Z.div_small (z mod _)) by (apply Z.mod_pos_bound; lia).
  rewrite Z.add_0_l, (Z.rem_mul_r _ 16) by lia.
  rewrite (Z.mul_comm 16 (_ mod _)), Z_mod_plus_full. by rewrite Z.mod_mod by lia.
Qed.

Lemma fmt_hex_step upper k z : 0 <= z < 16 ^ Z.of_nat (S k) ->
  fmt_hex upper (S k) z =
    digit_char upper (z / 16 ^ Z.of_nat k) :: fmt_hex upper k (z mod 16 ^ Z.of_nat k).
Proof. intros Hz. cbn [fmt_hex]. by rewrite hex_step, <- fmt_hex_mod by done. Qed.

Lemma hex_digit_range k z : 0 <= z < 16 ^ Z.of_nat (S k) -> 0 <= z / 16 ^ Z.of_nat k < 16.
Proof.
  intros Hz. rewrite Nat2Z.inj_succ, Z.pow_succ_r in Hz by lia.
  split; [apply Z.div_pos; lia|apply Z.div_lt_upper_bound; lia].
Qed.

Lemma length_fmt_hex upper k z : length (fmt_hex upper k z) = k.
Proof. induction k; simpl; congruence. Qed.

Lemma fmt_hex_digits upper k z :
  Forall (fun c => c <> "_"%char /\ c <> "+"%char /\ c <> "-"%char) (fmt_hex upper k z).
Proof.
  induction k; simpl; constructor; [|done].
  apply digit_char_separators, Z.mod_pos_bound. lia.
Qed.

Lemma parse_fmt_hex upper k z acc s : 0 <= z < 16 ^ Z.of_nat k -> 0 <= acc ->
  acc * 16 ^ Z.of_nat k + z <= u128_max ->
  parse_digits acc (fmt_hex upper k z ++ s) = parse_digits (acc * 16 ^ Z.of_nat k + z) s.
Proof.
  revert z acc. induction k as [|k IH]; intros z acc Hz Hacc Hmax.
  - simpl in *. f_equal. lia.
  - rewrite fmt_hex_step by done. cbn [app parse_digits].
    pose proof (hex_digit_range k z Hz) as Hd. rewrite to_digit_char by done.
    pose proof (Z.div_mod z (16 ^ Z.of_nat k) ltac:(lia)) as E.
    pose proof (Z.mod_pos_bound z (16 ^ Z.of_nat k) ltac:(lia)).
    rewrite Nat2Z.inj_succ, Z.pow_succ_r in * by lia.
    assert (1 <= 16 ^ Z.of_nat k) by lia.
    set (d := z / 16 ^ Z.of_nat k) in *. set (r := z mod 16 ^ Z.of_nat k) in *.
    set (p := 16 ^ Z.of_nat k) in *. clearbody d r p. subst z.
    assert (acc * 16 + d <= u128_max) by nia.
    destruct (Z.ltb_spec u128_max (acc * 16)); [lia|].
    destruct (Z.ltb_spec u128_max (acc * 16 + d)); [lia|].
    rewrite IH by nia. f_equal. nia.
Qed.

Lemma cmp_fmt_hex upper k a b s t : 0 <= a < 16 ^ Z.of_nat k -> 0 <= b < 16 ^ Z.of_nat k ->
  cmp_str (fmt_hex upper k a ++ s) (fmt_hex upper k b ++ t) =
    match a ?= b with Eq => cmp_str s t | o => o end.
Proof.
  revert a b. induction k as [|k IH]; intros a b Ha Hb.
  - simpl in *. by replace a with b by lia; rewrite Z.compare_refl.
  - rewrite !fmt_hex_step by done. cbn [app cmp_str].
    rewrite digit_char_cmp, IH by (try apply Z.mod_pos_bound; try apply hex_digit_range; lia || done).
    pose proof (Z.div_mod a (16 ^ Z.of_nat k) ltac:(lia)) as Ea.
    pose proof (Z.mod_pos_bound a (16 ^ Z.of_nat k) ltac:(lia)).
    pose proof (Z.div_mod b (16 ^ Z.of_nat k) ltac:(lia)) as Eb.
    pose proof (Z.mod_pos_bound b (16 ^ Z.of_nat k) ltac:(lia)).
    set (q := a / _) in *. set (r := a mod _) in *. set (q' := b / _) in *. set (r' := b mod _) in *.
    set (p := 16 ^ Z.of_nat k) in *. clearbody q r q' r' p. subst a b. clear Ha Hb.
    destruct (Z.compare_spec q q') as [->|Hq|Hq].
    + by rewrite Z.add_compare_mono_l.
    + rewrite (proj2 (Z.compare_lt_iff _ _)); [done|nia].
    + rewrite (proj2 (Z.compare_gt_iff _ _)); [done|nia].
Qed.

End Hex.

(** ** Formatting and parsing *)

(** [impl Display for Tuid] and [impl FromStr for Tuid]. *)
Definition tuid_to_string (t : Tuid.t) : list ascii :=
  Hex.fmt_hex true 16 (Tuid.nanos_since_epoch t) ++ Hex.fmt_hex false 16 (Tuid.inc t).

Definition tuid_from_str (s : list ascii) : result Tuid.t Hex.IntErrorKind :=
  match Hex.u128_from_str_radix_16 s with
  | Ok id => Ok (Tuid.from_u128 id)
  | Err e => Err e
  end.

(** [InvalidRowIdError] and [InvalidChunkIdError] carry a formatted message, of which the
    model keeps the case. *)
Inductive InvalidIdError :=
| ExpectedPrefix
| InvalidTuid (err : Hex.IntErrorKind).

(** The namespaced formats shared by [RowId] and [ChunkId]. *)
Definition prefixed_to_string (namespace : list ascii) (t : Tuid.t) : list ascii :=
  namespace ++ "_"%char :: tuid_to_string t.

Definition prefixed_from_str (expected : list ascii) (s : list ascii) : result Tuid.t InvalidIdError :=
  let parse tuid_str :=
    match tuid_from_str tuid_str with Ok t => Ok t | Err e => Err (InvalidTuid e) end in
  match Hex.split_once "_"%char s with
  | Some (namespace, tuid_str) =>
      if decide (namespace = expected) then parse tuid_str else Err ExpectedPrefix
  | None => parse s
  end.

Module RowId.

Record t := Wrap { as_tuid : Tuid.t }.

#[global] Instance t_eq_dec : EqDecision t.
Proof. solve_decision. Defined.

Definition ZERO : t := Wrap Tuid.ZERO.
Definition MAX : t := Wrap Tuid.MAX.
Definition next (self : t) : t := Wrap (Tuid.next (as_tuid self)).
Definition incremented_by (self : t) (n : Z) : t := Wrap (Tuid.incremented_by (as_tuid self) n).
Definition from_u128 (id : Z) : t := Wrap (Tuid.from_u128 id).

(** The derived [Ord]. *)
Definition cmp (self other : t) : comparison := Tuid.cmp (as_tuid self) (as_tuid other).
Definition le (self other : t) : bool := match cmp self other with Gt => false | _ => true end.
Definition lt (self other : t) : bool := match cmp self other with Lt => true | _ => false end.

Definition to_string (self : t) : list ascii :=
  prefixed_to_string ["r"; "o"; "w"]%char (as_tuid self).
Definition from_str (s : list ascii) : result t InvalidIdError :=
  match prefixed_from_str ["r"; "o"; "w"]%char s with Ok t => Ok (Wrap t) | Err e => Err e end.

(** The embedding the library reasons on. *)
Definition key (self : t) : Z := Tuid.as_u128 (as_tuid self).

Lemma key_inj a b : key a = key b -> a = b.
Proof. destruct a, b; unfold key; simpl. by intros ->%Tuid.as_u128_inj. Qed.
Lemma key_range a : 0 <= key a <= u128_max.
Proof. apply Tuid.as_u128_range. Qed.
Lemma le_key a b : le a b = (key a <=? key b).
Proof. unfold le, cmp, key, Z.leb. rewrite Tuid.cmp_as_u128. by destruct (_ ?= _). Qed.
Lemma lt_key a b : lt a b = (key a <? key b).
Proof. unfold lt, cmp, key, Z.ltb. rewrite Tuid.cmp_as_u128. by destruct (_ ?= _). Qed.
Lemma key_from_u128 id : 0 <= id <= u128_max -> key (from_u128 id) = id.
Proof. apply Tuid.as_u128_from_u128. Qed.

#[global] Instance t_countable : Countable t.
Proof. apply (inj_countable' as_tuid Wrap). by intros []. Defined.

End RowId.

Module ChunkId.

Record t := Wrap { as_tuid : Tuid.t }.

#[global] Instance t_eq_dec : EqDecision t.
Proof. solve_decision. Defined.

Definition ZERO : t := Wrap Tuid.ZERO.
Definition MAX : t := Wrap Tuid.MAX.
Definition next (self : t) : t := Wrap (Tuid.next (as_tuid self)).
Definition from_u128 (id : Z) : t := Wrap (Tuid.from_u128 id).

(** The derived [Ord]. *)
Definition cmp (self other : t) : comparison := Tuid.cmp (as_tuid self) (as_tuid other).

Definition le (self other : t) : bool := match cmp self other with Gt => false | _ => true end.

Definition to_string (self : t) : list ascii :=
  prefixed_to_string ["c"; "h"; "u"; "n"; "k"]%char (as_tuid self).
Definition from_str (s : list ascii) : result t InvalidIdError :=
  match prefixed_from_str ["c"; "h"; "u"; "n"; "k"]%char s with
  | Ok t => Ok (Wrap t) | Err e => Err e end.

#[global] Instance t_countable : Countable t.
Proof. apply (inj_countable' as_tuid Wrap). by intros []. Defined.

End ChunkId.

(** ** Properties *)

Lemma tuid_from_to_string t : tuid_from_str (tuid_to_string t) = Ok t.
Proof.
  unfold tuid_from_str, tuid_to_string.
  pose proof (Tuid.nanos_range t) as Hn. pose proof (Tuid.inc_range t) as Hi.
  assert (Hex.u128_from_str_radix_16
    (Hex.fmt_hex true 16 (Tuid.nanos_since_epoch t) ++ Hex.fmt_hex false 16 (Tuid.inc t))
    = Ok (Tuid.as_u128 t)) as ->; [|by rewrite Tuid.from_u128_as_u128].
  assert (forall s, (1 < length s)%nat ->
    Forall (fun c => c <> "_"%char /\ c <> "+"%char /\ c <> "-"%char) s ->
    Hex.u128_from_str_radix_16 s = Hex.parse_digits 0 s) as ->.
  { intros s Hl Hs. destruct s as [|c [|d s]]; simpl in Hl; [lia|lia|].
    inversion Hs; subst. unfold Hex.u128_from_str_radix_16.
    destruct c as [[] [] [] [] [] [] [] []]; naive_solver. }
  - rewrite Tuid.as_u128_spec. unfold is_u64, u64_max in *.
    rewrite Hex.parse_fmt_hex by (unfold u128_max in *; lia).
    rewrite <- (app_nil_r (Hex.fmt_hex false 16 _)).
    rewrite Hex.parse_fmt_hex by (unfold u128_max in *; lia). cbn [Hex.parse_digits]. f_equal.
  - rewrite length_app, !Hex.length_fmt_hex. lia.
  - apply Forall_app. split; apply Hex.fmt_hex_digits.
Qed.

Lemma split_once_none s sep : Forall (fun c => c <> sep) s -> Hex.split_once sep s = None.
Proof. induction 1 as [|c s Hc Hs IH]; simpl; [done|]. rewrite decide_False by done. by rewrite IH. Qed.

Lemma split_once_app sep a b : Forall (fun c => c <> sep) a ->
  Hex.split_once sep (a ++ sep :: b) = Some (a, b).
Proof.
  induction 1 as [|c s Hc Hs IH]; simpl; [by rewrite decide_True|].
  rewrite decide_False by done. by rewrite IH.
Qed.

Lemma tuid_to_string_no_separator t : Forall (fun c => c <> "_"%char) (tuid_to_string t).
Proof.
  apply Forall_app. split; eapply Forall_impl; try apply Hex.fmt_hex_digits; naive_solver.
Qed.

Lemma prefixed_roundtrip ns t : Forall (fun c => c <> "_"%char) ns ->
  prefixed_from_str ns (prefixed_to_string ns t) = Ok t
  /\ prefixed_from_str ns (tuid_to_string t) = Ok t.
Proof.
  intros Hns. unfold prefixed_from_str, prefixed_to_string.
  rewrite split_once_app by done. rewrite decide_True by done.
  rewrite split_once_none by apply tuid_to_string_no_separator.
  by rewrite tuid_from_to_string.
Qed.

Lemma prefixed_wrong_namespace ns ns' t : Forall (fun c => c <> "_"%char) ns' -> ns' <> ns ->
  prefixed_from_str ns (prefixed_to_string ns' t) = Err ExpectedPrefix.
Proof.
  intros Hns Hne. unfold prefixed_from_str, prefixed_to_string.
  rewrite split_once_app by done. by rewrite decide_False.
Qed.

(** Byte and string forms of identifiers. [as_bytes]/[from_bytes] and [to_string]/[parse]
    are mutually inverse on identifiers, both forms sort like the identifiers themselves, and an
    id string parses with or without its namespace prefix but never with the other id type's
    prefix. *)
Lemma id_formats_roundtrip (t u : Tuid.t) :
  Tuid.from_bytes (Tuid.as_bytes t) = t
  /\ tuid_from_str (tuid_to_string t) = Ok t
  /\ RowId.from_str (RowId.to_string (RowId.Wrap t)) = Ok (RowId.Wrap t)
  /\ RowId.from_str (tuid_to_string t) = Ok (RowId.Wrap t)
  /\ ChunkId.from_str (ChunkId.to_string (ChunkId.Wrap t)) = Ok (ChunkId.Wrap t)
  /\ RowId.from_str (ChunkId.to_string (ChunkId.Wrap t)) = Err ExpectedPrefix
  /\ ChunkId.from_str (RowId.to_string (RowId.Wrap t)) = Err ExpectedPrefix
  /\ Bytes.cmp (Tuid.as_bytes t) (Tuid.as_bytes u) = Tuid.cmp t u
  /\ Hex.cmp_str (tuid_to_string t) (tuid_to_string u) = Tuid.cmp t u.
Proof.
  assert (Forall (fun c => c <> "_"%char) ["r"; "o"; "w"]%char) as Hrow by (by apply (bool_decide_unpack _)).
  assert (Forall (fun c => c <> "_"%char) ["c"; "h"; "u"; "n"; "k"]%char) as Hchunk by (by apply (bool_decide_unpack _)).
  assert (forall v, Bytes.from_be_bytes (Tuid.as_bytes v) = Tuid.as_u128 v) as Hb.
  { intros v. unfold Tuid.as_bytes. rewrite Bytes.from_to_be_bytes.
    apply Z.mod_small. pose proof (Tuid.as_u128_range v). unfold u128_max in *. lia. }
  split_and!.
  - unfold Tuid.from_bytes. rewrite Hb. apply Tuid.from_u128_as_u128.
  - apply tuid_from_to_string.
  - unfold RowId.from_str, RowId.to_string. cbn [RowId.as_tuid]. by rewrite (proj1 (prefixed_roundtrip _ t Hrow)).
  - unfold RowId.from_str. by rewrite (proj2 (prefixed_roundtrip _ t Hrow)).
  - unfold ChunkId.from_str, ChunkId.to_string. cbn [ChunkId.as_tuid]. by rewrite (proj1 (prefixed_roundtrip _ t Hchunk)).
  - unfold RowId.from_str, ChunkId.to_string. by rewrite prefixed_wrong_namespace.
  - unfold ChunkId.from_str, RowId.to_string. by rewrite prefixed_wrong_namespace.
  - by rewrite Bytes.cmp_from_be_bytes, !Hb, Tuid.cmp_as_u128.
  - unfold tuid_to_string, Tuid.cmp.
    pose proof (Tuid.nanos_range t). pose proof (Tuid.nanos_range u).
    pose proof (Tuid.inc_range t). pose proof (Tuid.inc_range u). unfold is_u64, u64_max in *.
    rewrite Hex.cmp_fmt_hex, !Bytes.cmp_from_be_bytes by lia.
    fold (Tuid.nanos_since_epoch t) (Tuid.nanos_since_epoch u) (Tuid.inc t) (Tuid.inc u).
    destruct (_ ?= _); [|done..].
    rewrite <- (app_nil_r (Hex.fmt_hex false 16 (Tuid.inc t))),
      <- (app_nil_r (Hex.fmt_hex false 16 (Tuid.inc u))), Hex.cmp_fmt_hex by lia.
    by destruct (_ ?= _).
Qed.

Lemma inc_incremented_by t n : Tuid.inc (Tuid.incremented_by t n) = (Tuid.inc t + n) mod 2 ^ 64.
Proof.
  unfold Tuid.incremented_by, Tuid.inc at 1. cbn [Tuid.inc_bytes].
  rewrite Bytes.from_to_be_bytes. unfold wrap_u64. by apply Z.mod_mod.
Qed.

Lemma nanos_incremented_by t n :
  Tuid.nanos_since_epoch (Tuid.incremented_by t n) = Tuid.nanos_since_epoch t.
Proof. done. Qed.

Lemma incremented_by_0 t : Tuid.incremented_by t 0 = t.
Proof.
  apply Tuid.eq_spec; [done|]. rewrite inc_incremented_by, Z.add_0_r.
  pose proof (Tuid.inc_range t). apply Z.mod_small. int_lia.
Qed.

Lemma next_incremented_by t n : Tuid.next (Tuid.incremented_by t n) = Tuid.incremented_by t (n + 1).
Proof.
  change (Tuid.next ?x) with (Tuid.incremented_by x 1).
  apply Tuid.eq_spec; [done|]. rewrite !inc_incremented_by, Zplus_mod_idemp_l. f_equal. lia.
Qed.

Lemma as_u128_incremented_by t n : 0 <= n -> Tuid.inc t + n <= u64_max ->
  Tuid.as_u128 (Tuid.incremented_by t n) = Tuid.as_u128 t + n.
Proof.
  intros Hn Hle. pose proof (Tuid.inc_range t).
  rewrite !Tuid.as_u128_spec, nanos_incremented_by, inc_incremented_by, Z.mod_small by int_lia. lia.
Qed.

(** [incremented_by(n)] is [next] applied [n] times, whatever wraps on the way, and it is
    addition on the 128-bit value as long as the counter half does not overflow. *)
Lemma tuid_incremented_by_spec (t : Tuid.t) (n : nat) :
  Tuid.incremented_by t (Z.of_nat n) = Nat.iter n Tuid.next t
  /\ (Tuid.inc t + Z.of_nat n <= u64_max ->
      Tuid.as_u128 (Tuid.incremented_by t (Z.of_nat n)) = Tuid.as_u128 t + Z.of_nat n).
Proof.
  split; [|intros; apply as_u128_incremented_by; lia].
  induction n as [|n IH]; [apply incremented_by_0|].
  simpl. rewrite <- IH, next_incremented_by. f_equal. lia.
Qed.

Lemma tuid_incremented_by_spec_witness :
  Tuid.as_u128 (Tuid.incremented_by (Tuid.from_nanos_and_inc 7 5) 3)
    = Tuid.as_u128 (Tuid.from_nanos_and_inc 7 5) + 3.
Proof. apply (tuid_incremented_by_spec (Tuid.from_nanos_and_inc 7 5) 3). vm_compute. discriminate. Defined.

(** ** Generating identifiers

    A thread's successive calls of [Tuid::new], one per clock reading. *)
Fixpoint new_seq (debug_assertions : bool) (nanos_init random : Z) (clock : list Z)
    (latest : option Tuid.t) : outcome (list Tuid.t) :=
  match clock with
  | [] => Done []
  | nanos :: clock =>
      '(id, latest) ← Tuid.new debug_assertions nanos_init random nanos latest;
      ids ← new_seq debug_assertions nanos_init random clock latest;
      Done (id :: ids)
  end.

Lemma new_step checks nanos_init random nanos latest l :
  l = default (Tuid.initial_latest nanos_init random) latest ->
  is_u64 nanos -> Tuid.nanos_since_epoch l <= nanos -> Tuid.inc l + 1 <= u64_max ->
  exists id, Tuid.new checks nanos_init random nanos latest = Done (id, Some id)
    /\ Tuid.nanos_since_epoch id = nanos /\ Tuid.inc id = Tuid.inc l + 1.
Proof.
  intros -> Hn Hle Hinc. unfold Tuid.new. cbv zeta.
  set (l := default _ latest) in *. pose proof (Tuid.inc_range l) as Hl.
  unfold arith_u64. rewrite decide_True by (unfold is_u64 in *; lia). cbn [mbind outcome_bind].
  rewrite Tuid.nanos_from, (wrap_u64_id nanos), (proj2 (Z.leb_le _ _) Hle), andb_false_r by done.
  eexists. split; [done|]. rewrite Tuid.nanos_from, Tuid.inc_from, !wrap_u64_id; [done|..];
    unfold is_u64 in *; lia.
Qed.

Lemma inc_initial_latest nanos random : is_u64 random ->
  Tuid.inc (Tuid.initial_latest nanos random) < 2 ^ 63.
Proof.
  intros Hr. unfold Tuid.initial_latest. rewrite Tuid.inc_from.
  change (Z.lxor u64_max (Z.shiftl 1 63)) with (Z.ones 63). rewrite Z.land_ones by lia.
  pose proof (Z.mod_pos_bound random (2 ^ 63)). rewrite wrap_u64_id; int_lia.
Qed.

Lemma new_seq_increasing checks nanos_init random clock latest l :
  l = default (Tuid.initial_latest nanos_init random) latest ->
  Forall is_u64 clock -> StronglySorted Z.le (Tuid.nanos_since_epoch l :: clock) ->
  Tuid.inc l + Z.of_nat (length clock) <= u64_max ->
  exists ids, new_seq checks nanos_init random clock latest = Done ids
    /\ length ids = length clock
    /\ StronglySorted (fun a b => Tuid.as_u128 a < Tuid.as_u128 b) (l :: ids).
Proof.
  revert latest l. induction clock as [|nanos clock IH]; intros latest l Hl Hu Hs Hinc.
  - exists []. split_and!; try done. repeat constructor.
  - inversion_clear Hu. inversion_clear Hs as [|? ? Hs' Hf]. inversion_clear Hf as [|? ? Hle _].
    cbn [length] in Hinc. destruct (new_step checks nanos_init random nanos latest l)
      as (id & Hnew & Hnanos & Hid); [done|done|done|lia|].
    destruct (IH (Some id) id) as (ids & Hids & Hlen & Hsorted);
      [done|done|by rewrite Hnanos|rewrite Hid; lia|].
    exists (id :: ids). cbn [new_seq]. rewrite Hnew. cbn [mbind outcome_bind].
    rewrite Hids. cbn [mbind outcome_bind]. split_and!; [done|simpl; lia|].
    assert (Tuid.as_u128 l < Tuid.as_u128 id) as Hlt.
    { rewrite !Tuid.as_u128_spec. pose proof (Tuid.inc_range l). pose proof (Tuid.inc_range id). nia. }
    constructor; [done|]. constructor; [done|].
    inversion_clear Hsorted as [|? ? _ Hf]. eapply Forall_impl; [exact Hf|]. simpl. lia.
Qed.

(** C40. On a monotone clock, a thread that creates fewer than 2^63 ids never panics, and each
    id is strictly greater than every earlier one; in particular no two are equal. *)
Theorem tuid_new_increasing checks nanos_init random clock :
  is_u64 random -> Forall is_u64 (nanos_init :: clock) -> StronglySorted Z.le (nanos_init :: clock) ->
  Z.of_nat (length clock) < 2 ^ 63 ->
  exists ids, new_seq checks nanos_init random clock None = Done ids
    /\ length ids = length clock
    /\ StronglySorted (fun a b => Tuid.cmp a b = Lt) ids /\ NoDup ids.
Proof.
  intros Hr Hu Hs Hlen. inversion_clear Hu as [|? ? Hi Hc].
  pose proof (inc_initial_latest nanos_init random Hr).
  destruct (new_seq_increasing checks nanos_init random clock None (Tuid.initial_latest nanos_init random))
    as (ids & Hids & Hl & Hsorted); [done|done| |int_lia|].
  { unfold Tuid.initial_latest. by rewrite Tuid.nanos_from, wrap_u64_id. }
  exists ids. inversion_clear Hsorted as [|? ? Hs' _]. split_and!; [done|done| |].
  - clear -Hs'. induction Hs'; constructor; [done|]. eapply Forall_impl; [done|].
    intros b Hb. rewrite Tuid.cmp_as_u128. by apply Z.compare_lt_iff.
  - clear -Hs'. induction Hs' as [|a ids Hs IH Hf]; constructor; [|done].
    rewrite Forall_forall in Hf. intros Hin. specialize (Hf _ Hin). lia.
Qed.

Lemma tuid_new_increasing_witness :
  exists ids, new_seq true 10 77 [10; 10; 12] None = Done ids /\ length ids = 3%nat
    /\ StronglySorted (fun a b => Tuid.cmp a b = Lt) ids /\ NoDup ids.
Proof.
  apply (tuid_new_increasing true 10 77 [10; 10; 12]);
    [int_lia|repeat constructor; int_lia|repeat constructor; lia|vm_compute; reflexivity].
Defined.
