(* ===== verification/Deque.v ===== *)
(** * Double-ended queues

    [dl_log_types/src/vec_deque_ext.rs]: the sorting, bulk insertion and bulk removal
    routines the store adds to [VecDeque].

    The standard library's deque is a sequence stored as two slices; only [is_sorted]
    looks at the split, so the other routines are modelled on the sequence. *)

From S2P Require Import Prelude.

(** [VecDeque]'s own operations that the routines use, on the sequence. *)
Module VecDeque.

Section Ops.

Context {A : Type}.
Implicit Types l : list A.

(** [split_off] panics past the end; the result is (what stays, what is returned). *)
Definition split_off (l : list A) (at_ : nat) : outcome (list A * list A) :=
  if decide (at_ <= length l)%nat then Done (take at_ l, drop at_ l) else Panic.

(** [rotate_left] and [rotate_right] panic when the amount exceeds the length. *)
Definition rotate_left (l : list A) (n : nat) : outcome (list A) :=
  if decide (n <= length l)%nat then Done (drop n l ++ take n l) else Panic.
Definition rotate_right (l : list A) (n : nat) : outcome (list A) :=
  if decide (n <= length l)%nat
  then Done (drop (length l - n) l ++ take (length l - n) l) else Panic.

Definition truncate (l : list A) (len : nat) : list A := take len l.

(** [swap_remove_front] and [swap_remove_back]: the removed element, and the deque where
    the front (the back) element took its place. *)
Definition swap_remove_front (l : list A) (index : nat) : option A * list A :=
  match l !! index, l with
  | Some v, x :: _ => (Some v, tail (<[index := x]> l))
  | _, _ => (None, l)
  end.
Definition swap_remove_back (l : list A) (index : nat) : option A * list A :=
  match l !! index, last l with
  | Some v, Some x => (Some v, take (length l - 1) (<[index := x]> l))
  | _, _ => (None, l)
  end.

End Ops.

End VecDeque.

(** ** [VecDequeSortingExt] *)

(** [is_sorted] on the two slices of the deque. *)
Definition is_sorted {A} (le : A -> A -> bool) (left right : list A) : bool :=
  let left_before_right :=
    match last left, head right with Some a, Some b => le a b | _, _ => true end in
  let left_is_sorted := windows_all le left in
  let right_is_sorted := windows_all le right in
  match left ++ right with
  | [] => true
  | _ => left_before_right && left_is_sorted && right_is_sorted
  end.

(** [sort] makes the deque contiguous and sorts the one slice. *)
Definition sort {A} (le : A -> A -> bool) (left right : list A) : list A :=
  sort_by le (left ++ right).

(** ** [VecDequeInsertionExt] *)

Definition insert_many {A} (self : list A) (index : nat) (values : list A) : outcome (list A) :=
  if decide (index = length self) then Done (self ++ values)
  else if decide (index = 0%nat) then VecDeque.rotate_right (self ++ values) (length values)
  else
    '(self, right_) ← VecDeque.split_off self index;
    Done (self ++ values ++ right_).

(** ** [VecDequeRemovalExt] *)

Definition swap_remove {A} (self : list A) (index : nat) : outcome (option A * list A) :=
  match self with
  | [] => Done (None, self)
  | _ =>
      if decide (index = 0%nat) then
        let v := head self in
        self ← VecDeque.rotate_left self 1;
        Done (v, VecDeque.truncate self (length self - 1))
      else if decide (index + 1 = length self)%nat then
        let v := self !! index in
        Done (v, VecDeque.truncate self (length self - 1))
      else if decide (index < length self / 2)%nat then Done (VecDeque.swap_remove_front self index)
      else Done (VecDeque.swap_remove_back self index)
  end.

(** The result is (what stays in [self], what is returned). *)
Definition split_off_or_default {A} (self : list A) (at_ : nat) : outcome (list A * list A) :=
  if decide (length self <= at_)%nat then Done (self, []) else VecDeque.split_off self at_.

(** [range.len()] is zero for an inverted range. *)
Definition remove_range {A} (self : list A) (start end_ : nat) : outcome (list A) :=
  let range_len := (end_ - start)%nat in
  if decide (start = 0 /\ end_ = length self)%nat then Done []
  else if decide (start = 0)%nat then
    rot ← VecDeque.rotate_left self range_len;
    Done (VecDeque.truncate rot (length rot - range_len))
  else if decide (end_ = length self)%nat then
    Done (VecDeque.truncate self (length self - range_len))
  else
    '(self, mid_and_right) ← VecDeque.split_off self start;
    rot ← VecDeque.rotate_left mid_and_right range_len;
    Done (self ++ VecDeque.truncate rot (length rot - range_len)).

(** ** Properties *)

Lemma windows_all_app {A} (le : A -> A -> bool) l k :
  windows_all le (l ++ k) =
    match last l, head k with Some a, Some b => le a b | _, _ => true end
    && windows_all le l && windows_all le k.
Proof.
  induction l as [|x l IH]; [done|].
  destruct l as [|y l].
  - destruct k as [|z k]; simpl; [done|]. by rewrite andb_true_r.
  - change (windows_all le ((x :: y :: l) ++ k)) with (le x y && windows_all le ((y :: l) ++ k)).
    rewrite IH. change (last (x :: y :: l)) with (last (y :: l)).
    change (windows_all le (x :: y :: l)) with (le x y && windows_all le (y :: l)).
    destruct (le x y), (windows_all le (y :: l)), (windows_all le k),
      (match last (y :: l) with Some _ => _ | None => _ end); done.
Qed.

(** However the ring buffer splits the sequence in two slices, [is_sorted] decides
    sortedness of the whole; [sort] returns a sorted permutation of it. *)
Lemma deque_sorting_spec {A} (le : A -> A -> bool) `{!TotalPreorder le} left right :
  (is_sorted le left right = true <-> sorted_by le (left ++ right))
  /\ sort le left right ≡ₚ left ++ right
  /\ sorted_by le (sort le left right)
  /\ (is_sorted le left right = true -> sort le left right = left ++ right).
Proof.
  assert (is_sorted le left right = true <-> sorted_by le (left ++ right)) as H.
  { rewrite <- windows_all_sorted by done. unfold is_sorted. rewrite windows_all_app.
    by destruct left, right. }
  split_and!; [done|apply sort_by_perm|by apply sort_by_sorted|].
  intros Hs. apply sort_by_id, H; done.
Qed.

Lemma truncate_rotate_left {A} (l : list A) n rot : VecDeque.rotate_left l n = Done rot ->
  VecDeque.truncate rot (length rot - n) = drop n l.
Proof.
  unfold VecDeque.rotate_left. case_decide; [|done]. intros [= <-].
  unfold VecDeque.truncate. rewrite length_app, length_drop, length_take.
  rewrite take_app_le by (rewrite length_drop; lia).
  rewrite take_ge; [done|rewrite length_drop; lia].
Qed.

(** [insert_many] inserts before [index] and panics exactly past the end. *)
Lemma insert_many_spec {A} (l values : list A) index :
  insert_many l index values =
    if decide (index <= length l)%nat then Done (take index l ++ values ++ drop index l) else Panic.
Proof.
  unfold insert_many, VecDeque.split_off. case_decide as H1.
  - subst. rewrite decide_True, take_ge, drop_ge, app_nil_r by lia. done.
  - case_decide as H2; [subst|].
    + rewrite decide_True by lia. unfold VecDeque.rotate_right.
      rewrite decide_True, length_app by (rewrite length_app; lia).
      replace (length l + length values - length values)%nat with (length l) by lia.
      by rewrite drop_app_length, take_app_length.
    + by case_decide.
Qed.

(** [remove_range] removes exactly the elements of the range, keeping the others' order; it
    panics exactly when the range does not lie within the deque. *)
Lemma remove_range_spec {A} (l : list A) start end_ : (start <= end_)%nat ->
  remove_range l start end_ =
    if decide (end_ <= length l)%nat then Done (take start l ++ drop end_ l) else Panic.
Proof.
  intros Hse. unfold remove_range.
  case_decide as H1; [destruct H1 as [-> ->]; by rewrite decide_True, drop_ge by lia|].
  case_decide as H2; [subst|].
  - rewrite Nat.sub_0_r. destruct (VecDeque.rotate_left l end_) as [rot|] eqn:E; cbn [mbind outcome_bind].
    + rewrite (truncate_rotate_left l end_ rot E). unfold VecDeque.rotate_left in E.
      by case_decide.
    + unfold VecDeque.rotate_left in E. by case_decide.
  - case_decide as H3.
    + subst. rewrite decide_True, drop_ge, app_nil_r by lia. unfold VecDeque.truncate.
      do 2 f_equal. lia.
    + unfold VecDeque.split_off. case_decide as H4; cbn [mbind outcome_bind];
        [|by rewrite decide_False by lia].
      destruct (VecDeque.rotate_left _ _) as [rot|] eqn:E; cbn [mbind outcome_bind].
      * rewrite (truncate_rotate_left _ _ _ E), drop_drop.
        unfold VecDeque.rotate_left in E. rewrite length_drop in E. case_decide; [|done].
        rewrite decide_True by lia. do 3 f_equal. lia.
      * unfold VecDeque.rotate_left in E. rewrite length_drop in E. case_decide; [done|].
        by rewrite decide_False by lia.
Qed.

Lemma remove_range_spec_witness : remove_range [1; 2; 3; 4; 5] 1 3 = Done [1; 4; 5].
Proof. rewrite (remove_range_spec [1; 2; 3; 4; 5] 1 3); [reflexivity|lia]. Defined.
