(* ===== verification/Arrow.v ===== *)
(** * Arrow arrays

    The [arrow] crate is not part of the repository: its arrays and kernels are the
    parameters of the classes [ArrowArray] and [ArrowOps], and what its documentation says
    of them are the laws of [ArrowArrayLaws] and [ArrowLaws].  The array utilities of
    [dl_arrow_util/src/arrays.rs] are modelled on top, and the file [ArrowRef] instantiates
    the parameters with concrete functions that satisfy the laws.

    A [ListArray] is seen through its parts (field, offsets, values, validity) and through
    [iter], the list of its entries; an inner array ([ArrayRef]) is compared by content, so
    two slices with the same elements are equal. *)

From S2P Require Import Prelude Ints.

(** ** The build configuration

    [debug_assertions] is [cfg!(debug_assertions)], [very_strict] the environment variable
    behind [dl_log::is_dalaran_very_strict]. *)
Class Build := { debug_assertions : bool; very_strict : bool }.

(** [debug_assert!]. *)
Definition debug_assert `{Build} (b : bool) : outcome () :=
  if debug_assertions && negb b then Panic else Done ().

(** ** Arrays and the kernels on them

    [A] is a concrete array type and [E] the type of its entries. *)
Class ArrowArray (A E : Type) := {
  elems : A -> list E;
  slice : A -> nat -> nat -> A;
  (** [MutableArrayData::new(\[a\], false, _)], [extend(0, start, end)], [freeze()]. *)
  extend_range : A -> nat -> nat -> A;
  filter_kernel : A -> list bool -> A;
  take_kernel : A -> list Z -> A;
  (** [None] is an [ArrowError]. *)
  concat_kernel : list A -> option A;
  (** The two arrays have the same [DataType]. *)
  same_type : A -> A -> bool;
}.

Definition array_len {A E} `{ArrowArray A E} (a : A) : nat := length (elems a).

Class ArrowArrayLaws (A E : Type) `{ArrowArray A E} : Prop := {
  slice_law (a : A) o n : (o + n <= array_len a)%nat ->
    elems (slice a o n) = take n (drop o (elems a)) /\ same_type a (slice a o n) = true;
  extend_range_law (a : A) s e : (s <= e <= array_len a)%nat ->
    elems (extend_range a s e) = take (e - s) (drop s (elems a))
    /\ same_type a (extend_range a s e) = true;
  filter_law (a : A) m : length m = array_len a ->
    elems (filter_kernel a m) = mask m (elems a) /\ same_type a (filter_kernel a m) = true;
  take_law (a : A) idx (es : list E) :
    gather (elems a) idx = Some es ->
    elems (take_kernel a idx) = es /\ same_type a (take_kernel a idx) = true;
  concat_law (a : A) l : Forall (fun b => same_type a b = true) l ->
    exists c, concat_kernel (a :: l) = Some c
      /\ elems c = elems a ++ (l ≫= elems) /\ same_type a c = true;
  concat_mismatch (a b : A) : same_type a b = false -> concat_kernel [a; b] = None;
  same_type_refl (a : A) : same_type a a = true;
  same_type_sym (a b : A) : same_type a b = true -> same_type b a = true;
  same_type_trans (a b c : A) : same_type a b = true -> same_type b c = true -> same_type a c = true;
}.

(** ** List arrays *)

(** The well-formedness [ListArray::try_new] checks of its offsets. *)
Definition offsets_ok (offsets : list nat) (values_len : nat) : bool :=
  windows_all Nat.leb offsets
  && match last offsets with Some e => (e <=? values_len)%nat | None => false end.

Definition nulls_ok (nulls : option (list bool)) (n : nat) : bool :=
  match nulls with Some v => bool_decide (length v = n) | None => true end.

(** Offsets are unbounded here.  Arrow's are [i32], and [from_lengths] and [concat] refuse lists
    with more than [i32::MAX] values in all: that list arrays stay below this is an assumption. *)
Class ArrowOps := {
  (** [ArrayRef], with the element type's [DataType] inside [Field]. *)
  Array : Type;
  Array_eq_dec :: EqDecision Array;
  Field : Type;
  Field_eq_dec :: EqDecision Field;
  field_accepts : Field -> Array -> bool;
  arr_len : Array -> nat;
  arr_slice : Array -> nat -> nat -> Array;
  arr_concat : list Array -> option Array;
  (** [new_empty_array] of the field's data type. *)
  arr_empty : Field -> Array;
  (** [OffsetBuffer::from_lengths]. *)
  offsets_from_lengths : list nat -> list nat;
  ListArray : Type;
  (** [ListArray::new] panics on malformed parts; [into_parts] returns them. *)
  list_new : Field -> list nat -> Array -> option (list bool) -> outcome ListArray;
  list_new_null : Field -> nat -> ListArray;
  list_field : ListArray -> Field;
  list_offsets : ListArray -> list nat;
  list_values : ListArray -> Array;
  list_nulls : ListArray -> option (list bool);
  (** [iter()] is [elems]. *)
  list_array :: ArrowArray ListArray (option Array);
  (** Primitive and fixed-size binary arrays without nulls are the lists of their values. *)
  prim_array :: forall T, ArrowArray (list T) T;
}.

Definition null_count (validity : list bool) : nat := length (List.filter negb validity).

Section ListArrays.

Context `{ArrowOps}.
Implicit Types l : ListArray.

(** [ListArray::len], [value] and [is_valid] read the parts. *)
Definition list_len l : nat := length (list_offsets l) - 1.

Definition list_value l (i : nat) : Array :=
  let start := nth i (list_offsets l) 0%nat in
  let end_ := nth (S i) (list_offsets l) 0%nat in
  arr_slice (list_values l) start (end_ - start).

Definition is_valid l (i : nat) : bool :=
  match list_nulls l with Some validity => nth i validity false | None => true end.

Definition list_entry l (i : nat) : option Array :=
  if is_valid l i then Some (list_value l i) else None.

End ListArrays.

Class ArrowLaws `{ArrowOps} : Prop := {
  arr_slice_len a o n : (o + n <= arr_len a)%nat -> arr_len (arr_slice a o n) = n;
  arr_slice_slice a o n o' n' : (o + n <= arr_len a)%nat -> (o' + n' <= n)%nat ->
    arr_slice (arr_slice a o n) o' n' = arr_slice a (o + o') n';
  arr_slice_accepts f a o n : (o + n <= arr_len a)%nat ->
    field_accepts f a = true -> field_accepts f (arr_slice a o n) = true;
  arr_concat_law f (ls : list Array) : ls <> [] -> Forall (fun a => field_accepts f a = true) ls ->
    exists c, arr_concat ls = Some c /\ field_accepts f c = true
      /\ arr_len c = sum_list_with arr_len ls
      /\ forall k a, ls !! k = Some a ->
           arr_slice c (sum_list_with arr_len (take k ls)) (arr_len a) = a;
  arr_empty_law f : field_accepts f (arr_empty f) = true /\ arr_len (arr_empty f) = 0%nat;
  offsets_from_lengths_law ls k : (k <= length ls)%nat ->
    offsets_from_lengths ls !! k = Some (sum_list (take k ls));
  offsets_from_lengths_length ls : length (offsets_from_lengths ls) = S (length ls);
  list_parts_ok l :
    offsets_ok (list_offsets l) (arr_len (list_values l)) = true
    /\ nulls_ok (list_nulls l) (list_len l) = true
    /\ field_accepts (list_field l) (list_values l) = true;
  list_new_law f offs vals nulls :
    offsets_ok offs (arr_len vals) = true -> nulls_ok nulls (length offs - 1) = true ->
    field_accepts f vals = true ->
    exists l, list_new f offs vals nulls = Done l /\ list_field l = f
      /\ list_offsets l = offs /\ list_values l = vals /\ list_nulls l = nulls;
  list_new_null_law f n :
    list_field (list_new_null f n) = f
    /\ elems (list_new_null f n) = replicate n None;
  list_elems l : elems l = list_entry l <$> seq 0 (list_len l);
  list_same_type l k : same_type l k = true <-> list_field l = list_field k;
  list_array_laws :: ArrowArrayLaws ListArray (option Array);
  prim_array_laws :: forall T, ArrowArrayLaws (list T) T;
  prim_elems T (l : list T) : elems l = l;
  prim_same_type T (l k : list T) : same_type l k = true;
}.

(** ** [dl_arrow_util/src/arrays.rs] *)

Section Utilities.

Context `{Build} `{ArrowOps}.

Definition is_list_array_semantically_empty (l : ListArray) : bool :=
  bool_decide (arr_len (list_values l) = 0%nat).

(** [concat_arrays] also shrinks its buffers, which has no observable effect, as
    [filter_array] and [take_array] do. *)
Definition concat_arrays {A E} `{ArrowArray A E} (arrays : list A) : option A := concat_kernel arrays.

Definition filter_array {A E} `{ArrowArray A E} (array : A) (filter : list bool) : outcome A :=
  if decide (array_len array = length filter) then Done (filter_kernel array filter) else Panic.

(** [indices\[0\]] is evaluated before the slice is known to be non-empty. *)
Definition take_array {A E} `{ArrowArray A E} (array : A) (indices : list Z) : outcome A :=
  if decide (length indices = array_len array) then
    match indices with
    | [] => Panic
    | i0 :: _ =>
        if (i0 =? 0) && windows_all (fun a b => b =? a + 1) indices
        then Done array
        else Done (take_kernel array indices)
    end
  else Done (take_kernel array indices).

Definition deep_slice_array {A E} `{ArrowArray A E} (array : A) (offset length : nat) : A :=
  extend_range array offset (offset + length).

(** The length [map_or(0, |array| array.len())] of an entry. *)
Definition entry_len (e : option Array) : nat :=
  match e with Some a => arr_len a | None => 0%nat end.

Definition sparse_list_array_to_dense_list_array (l : ListArray) : outcome ListArray :=
  if decide (list_len l = 0%nat) then Done l
  else if match list_nulls l with Some nulls => bool_decide (nulls = []) | None => false end
  then Done l
  else
    let offsets := offsets_from_lengths (arr_len <$> omap id (elems l)) in
    list_new (list_field l) offsets (list_values l) None.

Definition pad_list_array_back (l : ListArray) (target_len : nat) : outcome ListArray :=
  let missing_len := (target_len - list_len l)%nat in
  if decide (missing_len = 0%nat) then Done l
  else
    let offsets := offsets_from_lengths ((entry_len <$> elems l) ++ replicate missing_len 0%nat) in
    let nulls :=
      match list_nulls l with
      | Some nulls => nulls ++ replicate missing_len false
      | None => replicate (list_len l) true ++ replicate missing_len false
      end in
    list_new (list_field l) offsets (list_values l) (Some nulls).

Definition pad_list_array_front (l : ListArray) (target_len : nat) : outcome ListArray :=
  let missing_len := (target_len - list_len l)%nat in
  if decide (missing_len = 0%nat) then Done l
  else
    let offsets := offsets_from_lengths (replicate missing_len 0%nat ++ (entry_len <$> elems l)) in
    let nulls :=
      match list_nulls l with
      | Some nulls => replicate missing_len false ++ nulls
      | None => replicate missing_len false ++ replicate (list_len l) true
      end in
    list_new (list_field l) offsets (list_values l) (Some nulls).

Definition new_list_array_of_empties (f : Field) (len : nat) : outcome ListArray :=
  list_new f (offsets_from_lengths (replicate len 0%nat)) (arr_empty f) None.

(** [arrays_to_list_array]: the data type is the field's; [None] when the inner arrays
    cannot be concatenated. *)
Definition arrays_to_list_array (f : Field) (arrays : list (option Array)) : option (outcome ListArray) :=
  let arrays_dense := omap id arrays in
  let build data :=
    list_new f (offsets_from_lengths (entry_len <$> arrays)) data
      (Some ((fun a => match a with Some _ => true | None => false end) <$> arrays)) in
  match arrays_dense with
  | [] => Some (build (arr_empty f))
  | _ => match arr_concat arrays_dense with Some data => Some (build data) | None => None end
  end.

End Utilities.

(** ** Entries of a list array *)

Section ListArrayFacts.

Context `{ArrowLaws}.
Implicit Types l k : ListArray.

Lemma length_elems l : length (elems l) = list_len l.
Proof. by rewrite list_elems, length_fmap, length_seq. Qed.

Lemma array_len_list l : array_len l = list_len l.
Proof. apply length_elems. Qed.

Lemma elems_lookup l i : (i < list_len l)%nat -> elems l !! i = Some (list_entry l i).
Proof. intros Hi. rewrite list_elems, list_lookup_fmap, lookup_seq_lt by done. done. Qed.

Lemma list_new_elems f offs vals nulls l : list_new f offs vals nulls = Done l ->
  list_field l = f -> list_offsets l = offs -> list_values l = vals -> list_nulls l = nulls ->
  elems l = (fun i => if match nulls with Some v => nth i v false | None => true end
                      then Some (arr_slice vals (nth i offs 0%nat) (nth (S i) offs 0%nat - nth i offs 0%nat))
                      else None) <$> seq 0 (length offs - 1).
Proof.
  intros _ _ Ho Hv Hn. rewrite list_elems. unfold list_len, list_entry, is_valid, list_value.
  by rewrite Ho, Hv, Hn.
Qed.

Lemma list_offsets_length l : length (list_offsets l) = S (list_len l).
Proof.
  destruct (list_parts_ok l) as (Ho & _). unfold offsets_ok in Ho. unfold list_len.
  destruct (list_offsets l); [simpl in Ho; done|simpl; lia].
Qed.

Lemma offsets_ok_spec offs n : offsets_ok offs n = true ->
  forall i j, (i <= j < length offs)%nat -> (nth i offs 0 <= nth j offs 0 <= n)%nat.
Proof.
  unfold offsets_ok. rewrite andb_true_iff, windows_all_sorted by apply _. intros [Hs Hl] i j Hij.
  destruct (lookup_lt_is_Some_2 offs i) as [x Hi]; [lia|].
  destruct (lookup_lt_is_Some_2 offs j) as [y Hj]; [lia|].
  rewrite (nth_lookup_Some _ _ _ _ Hi), (nth_lookup_Some _ _ _ _ Hj).
  rewrite last_lookup in Hl.
  destruct (lookup_lt_is_Some_2 offs (pred (length offs))) as [z Hz]; [lia|].
  rewrite Hz in Hl. apply Nat.leb_le in Hl.
  pose proof (sorted_lookup _ _ _ _ _ _ Hs (proj1 Hij) Hi Hj) as H1.
  assert (j <= pred (length offs))%nat as Hj' by lia.
  pose proof (sorted_lookup _ _ _ _ _ _ Hs Hj' Hj Hz) as H2.
  apply Nat.leb_le in H1, H2. lia.
Qed.

Lemma list_offsets_mono l i j : (i <= j <= list_len l)%nat ->
  (nth i (list_offsets l) 0 <= nth j (list_offsets l) 0 <= arr_len (list_values l))%nat.
Proof.
  intros Hij. destruct (list_parts_ok l) as (Ho & _).
  apply (offsets_ok_spec _ _ Ho). rewrite list_offsets_length. lia.
Qed.

Lemma arr_len_value l i : (i < list_len l)%nat ->
  arr_len (list_value l i) = (nth (S i) (list_offsets l) 0 - nth i (list_offsets l) 0)%nat.
Proof.
  intros Hi. unfold list_value. apply arr_slice_len.
  pose proof (list_offsets_mono l i (S i) ltac:(lia)). lia.
Qed.

Lemma list_value_accepts l i : (i < list_len l)%nat ->
  field_accepts (list_field l) (list_value l i) = true.
Proof.
  intros Hi. unfold list_value. pose proof (list_offsets_mono l i (S i) ltac:(lia)).
  apply arr_slice_accepts; [lia|]. apply list_parts_ok.
Qed.

Lemma nulls_length l v : list_nulls l = Some v -> length v = list_len l.
Proof.
  intros Hv. destruct (list_parts_ok l) as (_ & Hn & _). rewrite Hv in Hn.
  by apply bool_decide_eq_true in Hn.
Qed.

Lemma nth_offsets_from_lengths ls i : (i <= length ls)%nat ->
  nth i (offsets_from_lengths ls) 0%nat = sum_list (take i ls).
Proof. intros Hi. by apply nth_lookup_Some, offsets_from_lengths_law. Qed.

Lemma sum_list_fmap {A} (f : A -> nat) (k : list A) : sum_list (f <$> k) = sum_list_with f k.
Proof. induction k as [|x k IH]; [done|]. rewrite fmap_cons. simpl. by rewrite IH. Qed.

Lemma sum_list_take_S ls i n : ls !! i = Some n ->
  sum_list (take (S i) ls) = (sum_list (take i ls) + n)%nat.
Proof. intros Hi. rewrite (take_S_r _ _ n), sum_list_with_app by done. simpl. lia. Qed.

Lemma sum_list_take_mono ls i j : (i <= j)%nat -> (sum_list (take i ls) <= sum_list (take j ls))%nat.
Proof.
  intros Hij. replace (take i ls) with (take i (take j ls)) by (rewrite take_take; f_equal; lia).
  rewrite <- (take_drop i (take j ls)) at 2. rewrite sum_list_with_app. lia.
Qed.

Lemma offsets_from_lengths_ok ls n : (sum_list ls <= n)%nat ->
  offsets_ok (offsets_from_lengths ls) n = true.
Proof.
  intros Hn. unfold offsets_ok. apply andb_true_iff. split.
  - apply windows_all_sorted; [apply _|].
    apply sorted_intro. intros i j x y Hij Hi Hj. apply Nat.leb_le.
    pose proof (lookup_lt_Some _ _ _ Hj) as Hlt. rewrite offsets_from_lengths_length in Hlt.
    rewrite offsets_from_lengths_law in Hi, Hj by lia. simplify_eq.
    apply sum_list_take_mono. lia.
  - rewrite last_lookup, offsets_from_lengths_length. simpl pred.
    rewrite offsets_from_lengths_law, take_ge by lia. by apply Nat.leb_le.
Qed.

(** The sum of the valid entries' lengths fits in the values. *)
Lemma sum_entry_len_take l i : (i <= list_len l)%nat ->
  (sum_list (take i (entry_len <$> elems l)) <= nth i (list_offsets l) 0)%nat.
Proof.
  induction i as [|i IH]; intros Hi; [simpl; lia|].
  rewrite (sum_list_take_S _ _ (entry_len (list_entry l i)))
    by (rewrite list_lookup_fmap, elems_lookup by lia; done).
  specialize (IH ltac:(lia)). pose proof (list_offsets_mono l i (S i) ltac:(lia)).
  assert (entry_len (list_entry l i) <= nth (S i) (list_offsets l) 0 - nth i (list_offsets l) 0)%nat.
  { unfold list_entry. destruct (is_valid l i); simpl; [rewrite arr_len_value by lia|]; lia. }
  lia.
Qed.

Lemma sum_entry_len l : (sum_list (entry_len <$> elems l) <= arr_len (list_values l))%nat.
Proof.
  pose proof (sum_entry_len_take l (list_len l) ltac:(lia)) as Hs.
  rewrite take_ge in Hs by (by rewrite length_fmap, length_elems).
  pose proof (list_offsets_mono l (list_len l) (list_len l) ltac:(lia)). lia.
Qed.

(** Building a list array from the lengths of its entries. *)
Lemma list_new_lengths f ls vals nulls :
  (sum_list ls <= arr_len vals)%nat -> nulls_ok nulls (length ls) = true ->
  field_accepts f vals = true ->
  exists l, list_new f (offsets_from_lengths ls) vals nulls = Done l /\ list_field l = f
    /\ list_nulls l = nulls /\ list_values l = vals /\ length (elems l) = length ls
    /\ forall i n, ls !! i = Some n ->
         elems l !! i = Some (if match nulls with Some v => nth i v false | None => true end
                              then Some (arr_slice vals (sum_list (take i ls)) n) else None).
Proof.
  intros Hs Hn Hf.
  destruct (list_new_law f (offsets_from_lengths ls) vals nulls) as (l & Hl & H1 & H2 & H3 & H4);
    [by apply offsets_from_lengths_ok|rewrite offsets_from_lengths_length; simpl; by rewrite Nat.sub_0_r|done|].
  exists l. pose proof (list_new_elems _ _ _ _ _ Hl H1 H2 H3 H4) as He.
  rewrite offsets_from_lengths_length in He. simpl in He. rewrite Nat.sub_0_r in He.
  split_and!; try done.
  { by rewrite He, length_fmap, length_seq. }
  intros i n Hi. pose proof (lookup_lt_Some _ _ _ Hi). rewrite He, list_lookup_fmap, lookup_seq_lt by lia.
  simpl fmap. rewrite !nth_offsets_from_lengths, (sum_list_take_S _ _ n) by (done || lia).
  replace (sum_list (take i ls) + n - sum_list (take i ls))%nat with n by lia. done.
Qed.

End ListArrayFacts.

(** ** Padding and densifying *)

Section Padding.

Context `{ArrowLaws}.
Implicit Types l : ListArray.

(** The offsets are the running sums of the entries' lengths: the values start at the
    first entry, have no gaps, and null entries occupy none of them. *)
Definition compact (l : ListArray) : Prop :=
  forall i, (i <= list_len l)%nat ->
    nth i (list_offsets l) 0%nat = sum_list (take i (entry_len <$> elems l)).

Lemma compact_value l i a : compact l -> elems l !! i = Some (Some a) ->
  a = arr_slice (list_values l) (sum_list (take i (entry_len <$> elems l))) (arr_len a).
Proof.
  intros Hc Hi. pose proof (lookup_lt_Some _ _ _ Hi) as Hlt. rewrite length_elems in Hlt.
  rewrite elems_lookup in Hi by done. unfold list_entry in Hi.
  destruct (is_valid l i); simplify_eq. rewrite arr_len_value, <- Hc by lia. done.
Qed.

(** The validity bitmap, all set when there is none. *)
Definition validity (l : ListArray) : list bool :=
  default (replicate (list_len l) true) (list_nulls l).

Lemma length_validity l : length (validity l) = list_len l.
Proof.
  unfold validity. destruct (list_nulls l) as [v|] eqn:E; simpl; [by apply nulls_length|].
  apply length_replicate.
Qed.

Lemma lookup_validity l i : (i < list_len l)%nat -> validity l !! i = Some (is_valid l i).
Proof.
  intros Hi. unfold validity, is_valid. destruct (list_nulls l) as [v|] eqn:E; simpl.
  - destruct (lookup_lt_is_Some_2 v i) as [b Hb]; [by rewrite (nulls_length l v E)|].
    by rewrite (nth_lookup_Some _ _ _ _ Hb).
  - by apply lookup_replicate_2.
Qed.

Lemma compact_entry l i : compact l -> (i < list_len l)%nat ->
  (if is_valid l i
   then Some (arr_slice (list_values l) (sum_list (take i (entry_len <$> elems l)))
                (entry_len (list_entry l i)))
   else None) = list_entry l i.
Proof.
  intros Hc Hi. unfold list_entry. destruct (is_valid l i) eqn:E; [|done]. simpl. f_equal.
  symmetry. apply compact_value; [done|]. rewrite elems_lookup by done. unfold list_entry. by rewrite E.
Qed.

Lemma list_lookup_ext {A} (l k : list A) : length l = length k ->
  (forall i x y, l !! i = Some x -> k !! i = Some y -> x = y) -> l = k.
Proof. intros Hl Hx. apply (list_eq_same_length l k (length k)); naive_solver. Qed.

Lemma sum_list_zeros m : sum_list (replicate m 0%nat) = 0%nat.
Proof. induction m; simpl; lia. Qed.

Lemma sum_entry_len_split l p i :
  sum_list (take (p + i) (replicate p 0%nat ++ (entry_len <$> elems l)))
    = sum_list (take i (entry_len <$> elems l)).
Proof.
  rewrite take_app_ge by (rewrite length_replicate; lia).
  rewrite length_replicate, sum_list_with_app, sum_list_zeros. by replace (p + i - p)%nat with i by lia.
Qed.

Lemma nth_replicate {A} (x : A) n i : nth i (replicate n x) x = x.
Proof. revert i. induction n as [|n IH]; intros [|i]; simpl; auto. Qed.

(** Zero-length null entries on both sides of the entries of [l]. *)
Lemma pad_both l p q :
  exists r, list_new (list_field l)
      (offsets_from_lengths ((replicate p 0%nat ++ (entry_len <$> elems l)) ++ replicate q 0%nat))
      (list_values l)
      (Some ((replicate p false ++ validity l) ++ replicate q false)) = Done r
    /\ list_field r = list_field l /\ list_len r = (p + list_len l + q)%nat
    /\ (compact l -> elems r = (replicate p None ++ elems l) ++ replicate q None).
Proof.
  destruct (list_parts_ok l) as (_ & _ & Hacc). pose proof (sum_entry_len l) as Hsum.
  set (lens := replicate p 0%nat ++ (entry_len <$> elems l)).
  set (vs := replicate p false ++ validity l).
  assert (length lens = p + list_len l)%nat as Hlens
    by (subst lens; by rewrite length_app, length_replicate, length_fmap, length_elems).
  assert (length vs = p + list_len l)%nat as Hvs
    by (subst vs; by rewrite length_app, length_replicate, length_validity).
  destruct (list_new_lengths (list_field l) (lens ++ replicate q 0%nat) (list_values l)
    (Some (vs ++ replicate q false))) as (r & Hr & H1 & _ & _ & H4 & H5).
  { subst lens. rewrite !sum_list_with_app, !sum_list_zeros. lia. }
  { apply bool_decide_eq_true. rewrite !length_app, !length_replicate. lia. }
  { done. }
  rewrite length_app, length_replicate in H4.
  exists r. split_and!; [done|done|rewrite <- length_elems; lia|].
  intros Hc. apply list_lookup_ext; [rewrite H4, !length_app, !length_replicate, length_elems; lia|].
  intros i x y Hx Hy.
  destruct (decide (i < p + list_len l)%nat) as [Hi|Hi].
  - rewrite lookup_app_l in Hy by (rewrite length_app, length_replicate, length_elems; lia).
    destruct (decide (i < p)%nat) as [Hip|Hip].
    + rewrite lookup_app_l in Hy by (by rewrite length_replicate).
      apply lookup_replicate in Hy as [-> _].
      erewrite H5 in Hx; [|rewrite lookup_app_l by lia; subst lens;
        rewrite lookup_app_l by (by rewrite length_replicate); by apply lookup_replicate_2].
      rewrite app_nth1 in Hx by lia. subst vs.
      rewrite app_nth1, nth_replicate in Hx by (by rewrite length_replicate). by simplify_eq.
    + rewrite lookup_app_r, length_replicate in Hy by (rewrite length_replicate; lia).
      replace i with (p + (i - p))%nat in Hx by lia. set (j := (i - p)%nat) in *.
      assert (j < list_len l)%nat as Hj by lia. clearbody j.
      rewrite elems_lookup in Hy by done.
      erewrite H5 in Hx; [|rewrite lookup_app_l by lia; subst lens;
        rewrite lookup_app_r, length_replicate, Nat.add_comm, Nat.add_sub, list_lookup_fmap,
          elems_lookup by (rewrite ?length_replicate; lia); done].
      rewrite take_app_le in Hx by lia. subst lens. rewrite sum_entry_len_split in Hx.
      rewrite app_nth1 in Hx by lia. subst vs.
      rewrite app_nth2, length_replicate, Nat.add_comm, Nat.add_sub in Hx by (rewrite length_replicate; lia).
      rewrite (nth_lookup_Some _ _ _ _ (lookup_validity l j Hj)), compact_entry in Hx by done.
      by simplify_eq.
  - rewrite lookup_app_r in Hy by (rewrite length_app, length_replicate, length_elems; lia).
    apply lookup_replicate in Hy as [-> Hy]. rewrite length_app, length_replicate, length_elems in Hy.
    erewrite H5 in Hx; [|rewrite lookup_app_r by lia; apply lookup_replicate_2; lia].
    rewrite app_nth2, nth_replicate in Hx by lia. by simplify_eq.
Qed.

Lemma pad_back_eq l n : (list_len l < n)%nat ->
  pad_list_array_back l n = list_new (list_field l)
    (offsets_from_lengths ((entry_len <$> elems l) ++ replicate (n - list_len l) 0%nat))
    (list_values l) (Some (validity l ++ replicate (n - list_len l) false)).
Proof.
  intros Hn. unfold pad_list_array_back, validity. rewrite decide_False by lia.
  by destruct (list_nulls l).
Qed.

Lemma pad_front_eq l n : (list_len l < n)%nat ->
  pad_list_array_front l n = list_new (list_field l)
    (offsets_from_lengths (replicate (n - list_len l) 0%nat ++ (entry_len <$> elems l)))
    (list_values l) (Some (replicate (n - list_len l) false ++ validity l)).
Proof.
  intros Hn. unfold pad_list_array_front, validity. rewrite decide_False by lia.
  by destruct (list_nulls l).
Qed.

Lemma pad_list_array_back_spec l n :
  exists r, pad_list_array_back l n = Done r /\ list_field r = list_field l
    /\ list_len r = Nat.max n (list_len l)
    /\ (compact l -> elems r = elems l ++ replicate (n - list_len l) None).
Proof.
  destruct (decide (list_len l < n)%nat) as [Hn|Hn].
  - rewrite pad_back_eq by done. destruct (pad_both l 0 (n - list_len l)) as (r & Hr & H1 & H2 & H3).
    exists r. split_and!; [done|done|lia|done].
  - exists l. unfold pad_list_array_back. rewrite decide_True by lia.
    replace (n - list_len l)%nat with 0%nat by lia. rewrite app_nil_r. split_and!; done || lia.
Qed.

Lemma pad_list_array_front_spec l n :
  exists r, pad_list_array_front l n = Done r /\ list_field r = list_field l
    /\ list_len r = Nat.max n (list_len l)
    /\ (compact l -> elems r = replicate (n - list_len l) None ++ elems l).
Proof.
  destruct (decide (list_len l < n)%nat) as [Hn|Hn].
  - rewrite pad_front_eq by done. destruct (pad_both l (n - list_len l) 0) as (r & Hr & H1 & H2 & H3).
    simpl replicate in Hr, H3. rewrite !app_nil_r in *.
    exists r. split_and!; [done|done|lia|]. done.
  - exists l. unfold pad_list_array_front. rewrite decide_True by lia.
    replace (n - list_len l)%nat with 0%nat by lia. split_and!; done || lia.
Qed.

(** Padding appends (prepends) null entries and keeps the others, for arrays whose values
    are compact; on any array it returns one of the wanted length without panicking. *)
Lemma pad_list_array_spec l n :
  exists b f, pad_list_array_back l n = Done b /\ pad_list_array_front l n = Done f
    /\ list_field b = list_field l /\ list_field f = list_field l
    /\ list_len b = Nat.max n (list_len l) /\ list_len f = Nat.max n (list_len l)
    /\ (compact l ->
        elems b = elems l ++ replicate (n - list_len l) None
        /\ elems f = replicate (n - list_len l) None ++ elems l).
Proof.
  destruct (pad_list_array_back_spec l n) as (b & ? & ? & ? & ?).
  destruct (pad_list_array_front_spec l n) as (f & ? & ? & ? & ?).
  exists b, f. naive_solver.
Qed.

End Padding.

(** ** Taking, filtering and building *)

Section Kernels.

Context `{ArrowArrayLaws A E}.
Implicit Types a : A.

Lemma gather_seq (es : list E) : gather es (Z.of_nat <$> seq 0 (length es)) = Some es.
Proof.
  apply mapM_Some. apply Forall2_fmap_l, Forall2_same_length_lookup_2; [by rewrite length_seq|].
  intros i j x Hj Hx. apply lookup_seq in Hj as [-> _]. simpl.
  by rewrite decide_True, Nat2Z.id by lia.
Qed.

Lemma consecutive_seq idx : head idx = Some 0 ->
  windows_all (fun u v => v =? u + 1) idx = true -> idx = Z.of_nat <$> seq 0 (length idx).
Proof.
  assert (forall k, head idx = Some (Z.of_nat k) ->
    windows_all (fun u v => v =? u + 1) idx = true -> idx = Z.of_nat <$> seq k (length idx)) as Hk;
    [|by apply (Hk 0%nat)].
  induction idx as [|i idx IH]; [done|]. intros k [= ->]. simpl. destruct idx as [|j idx]; [done|].
  rewrite andb_true_iff, Z.eqb_eq. intros [-> Hw]. f_equal. apply IH; [|done]. simpl. f_equal. lia.
Qed.

Lemma take_array_spec a idx es :
  gather (elems a) idx = Some es -> idx <> [] ->
  exists r, take_array a idx = Done r /\ elems r = es /\ same_type a r = true.
Proof.
  intros Hg Hne. unfold take_array.
  assert (exists r, Done (take_kernel a idx) = Done r /\ elems r = es /\ same_type a r = true) as Hk.
  { eexists. split; [done|]. by apply take_law. }
  case_decide as Hlen; [|done]. destruct idx as [|i0 idx]; [done|].
  destruct ((i0 =? 0) && _) eqn:Ec; [|done].
  apply andb_true_iff in Ec as [->%Z.eqb_eq Hw].
  exists a. split_and!; [done| |apply same_type_refl].
  rewrite (consecutive_seq (0 :: idx)), Hlen in Hg by done. unfold array_len in Hg.
  rewrite gather_seq in Hg. congruence.
Qed.

Lemma filter_array_spec a m :
  match filter_array a m with
  | Done r => length m = array_len a /\ elems r = mask m (elems a) /\ same_type a r = true
  | Panic => length m <> array_len a
  end.
Proof.
  unfold filter_array. case_decide as Hl; [|by auto].
  split; [done|]. by apply filter_law.
Qed.

Lemma deep_slice_array_spec a o n : (o + n <= array_len a)%nat ->
  elems (deep_slice_array a o n) = take n (drop o (elems a))
  /\ same_type a (deep_slice_array a o n) = true.
Proof.
  intros Hn. unfold deep_slice_array. destruct (extend_range_law a o (o + n)) as [-> ?]; [lia|].
  by replace (o + n - o)%nat with n by lia.
Qed.

End Kernels.

Section Building.

Context `{ArrowLaws}.

Lemma sum_list_omap (ls : list (option Array)) :
  sum_list_with arr_len (omap id ls) = sum_list (entry_len <$> ls).
Proof. induction ls as [|[a|] ls IH]; csimpl; simpl; [done|by rewrite IH|done]. Qed.

Lemma omap_id_lookup (ls : list (option Array)) i a : ls !! i = Some (Some a) ->
  omap id ls !! length (omap id (take i ls)) = Some a
  /\ take (length (omap id (take i ls))) (omap id ls) = omap id (take i ls).
Proof.
  revert i. induction ls as [|[b|] ls IH]; intros [|i] Hi; csimpl; simplify_eq/=; try done.
  - destruct (IH i Hi) as [H1 H2]. csimpl. split; [done|]. by rewrite H2.
  - by apply IH.
Qed.

(** [arrays_to_list_array] returns exactly the entries it is given; it fails on no array of
    the field's type. *)
Lemma arrays_to_list_array_spec f (arrays : list (option Array)) :
  Forall (fun a => from_option (fun a => field_accepts f a = true) True a) arrays ->
  exists l, arrays_to_list_array f arrays = Some (Done l)
    /\ list_field l = f /\ elems l = arrays.
Proof.
  intros Hacc.
  assert (forall data, (sum_list (entry_len <$> arrays) <= arr_len data)%nat ->
    field_accepts f data = true ->
    (forall i a, arrays !! i = Some (Some a) ->
       arr_slice data (sum_list (take i (entry_len <$> arrays))) (arr_len a) = a) ->
    exists l, list_new f (offsets_from_lengths (entry_len <$> arrays)) data
        (Some ((fun a => match a with Some _ => true | None => false end) <$> arrays)) = Done l
      /\ list_field l = f /\ elems l = arrays) as Hbuild.
  { intros data Hsum Hd Hs.
    destruct (list_new_lengths f (entry_len <$> arrays) data
      (Some ((fun a => match a with Some _ => true | None => false end) <$> arrays)))
      as (l & Hl & H1 & _ & _ & H4 & H5); [done|by apply bool_decide_eq_true; rewrite !length_fmap|done|].
    exists l. split_and!; [done|done|]. rewrite length_fmap in H4.
    apply list_lookup_ext; [done|]. intros i x y Hx Hy.
    erewrite H5 in Hx by (rewrite list_lookup_fmap, Hy; done).
    erewrite nth_lookup_Some in Hx by (rewrite list_lookup_fmap, Hy; done).
    destruct y as [a|]; simplify_eq; [|done]. simpl. by rewrite Hs. }
  unfold arrays_to_list_array. destruct (omap id arrays) as [|a0 dense] eqn:E.
  - destruct (arr_empty_law f) as [He1 He2].
    destruct (Hbuild (arr_empty f)) as (l & -> & Hl); [| |  |by exists l].
    + rewrite <- sum_list_omap, E. simpl. lia.
    + done.
    + intros i a [Ha _]%omap_id_lookup. by rewrite E in Ha.
  - destruct (arr_concat_law f (a0 :: dense)) as (c & -> & Hc1 & Hc2 & Hc3); [done| |].
    { rewrite <- E. clear -Hacc. induction Hacc as [|[a|] ls Ha Hls IH]; csimpl; [constructor| |done].
      by constructor. }
    destruct (Hbuild c) as (l & -> & Hl); [| | |by exists l].
    + rewrite Hc2, <- E, sum_list_omap. done.
    + done.
    + intros i a Ha. destruct (omap_id_lookup _ _ _ Ha) as [H1 H2]. rewrite E in H1.
      rewrite <- (Hc3 _ _ H1) at 2. f_equal. rewrite <- E, H2, sum_list_omap, fmap_take. done.
Qed.

End Building.

(** ** Primitive arrays as lists *)

Section PrimitiveFacts.

Context `{ArrowLaws} {T : Type}.
Implicit Types l : list T.

Lemma prim_len l : array_len l = length l.
Proof. unfold array_len. by rewrite prim_elems. Qed.

Lemma prim_slice l o n : (o + n <= length l)%nat -> slice l o n = take n (drop o l).
Proof.
  intros Hn. rewrite <- (prim_elems T (slice l o n)).
  destruct (slice_law l o n) as [-> _]; [by rewrite prim_len|]. by rewrite prim_elems.
Qed.

Lemma prim_deep_slice l o n : (o + n <= length l)%nat -> deep_slice_array l o n = take n (drop o l).
Proof.
  intros Hn. rewrite <- (prim_elems T (deep_slice_array l o n)).
  destruct (deep_slice_array_spec l o n) as [-> _]; [by rewrite prim_len|]. by rewrite prim_elems.
Qed.

Lemma prim_filter l m : length m = length l -> filter_array l m = Done (mask m l).
Proof.
  intros Hm. pose proof (filter_array_spec l m) as Hf.
  destruct (filter_array l m) as [r|]; [|rewrite prim_len in Hf; congruence].
  destruct Hf as (_ & Hr & _). rewrite !prim_elems in Hr. by subst.
Qed.

Lemma prim_take l idx ys : gather l idx = Some ys -> idx <> [] -> take_array l idx = Done ys.
Proof.
  intros Hg Hne. destruct (take_array_spec l idx ys) as (r & -> & Hr & _); [by rewrite prim_elems|done|].
  rewrite prim_elems in Hr. by subst.
Qed.

Lemma prim_concat l k : concat_arrays [l; k] = Some (l ++ k).
Proof.
  destruct (concat_law l [k]) as (c & Hc & He & _); [repeat constructor; apply prim_same_type|].
  unfold concat_arrays. rewrite Hc. f_equal. rewrite <- (prim_elems T c), He. simpl.
  by rewrite !prim_elems, app_nil_r.
Qed.

End PrimitiveFacts.
