(* ===== verification/ArrowRef.v ===== *)
(** * A reference instance of the Arrow interface

    Concrete functions that satisfy the laws of [Arrow], so that the library's theorems can
    be applied to concrete data: inner arrays are lists of integers, a field is a number,
    and list arrays are the four parts of the columnar format with a proof that they are
    well formed.  [slice] keeps the offsets and the values of the array it slices. *)

From S2P Require Import Prelude Ints Arrow.

(** ** Primitive arrays *)

#[export] Instance ref_prim (T : Type) : ArrowArray (list T) T := {
  elems l := l;
  slice l o n := take n (drop o l);
  extend_range l s e := take (e - s) (drop s l);
  filter_kernel l m := mask m l;
  take_kernel l idx := default [] (gather l idx);
  concat_kernel ls := Some (mjoin ls);
  same_type _ _ := true;
}.

#[export] Instance ref_prim_laws T : ArrowArrayLaws (list T) T.
Proof.
  split; try done.
  - intros a idx es Hg. simpl in *. by rewrite Hg.
  - intros a l _. exists (mjoin (a :: l)). split_and!; try done. simpl. f_equal.
    induction l as [|b l IH]; [done|]. csimpl. by rewrite IH.
Qed.

(** ** List arrays *)

Definition parts_ok (offs : list nat) (vals : list Z) (nulls : option (list bool)) : bool :=
  offsets_ok offs (length vals) && nulls_ok nulls (length offs - 1).

Record RefList := MkRef {
  rf : nat; ro : list nat; rv : list Z; rn : option (list bool);
  r_ok : parts_ok ro rv rn = true }.

Definition ref_new (f : nat) (offs : list nat) (vals : list Z) (nulls : option (list bool))
    : outcome RefList :=
  match Bool.bool_dec (parts_ok offs vals nulls) true with
  | left H => Done (MkRef f offs vals nulls H)
  | right _ => Panic
  end.

Definition ref_slice (vals : list Z) (o n : nat) : list Z := take n (drop o vals).

Definition ref_entry (l : RefList) (i : nat) : option (list Z) :=
  if match rn l with Some v => nth i v false | None => true end
  then Some (ref_slice (rv l) (nth i (ro l) 0%nat) (nth (S i) (ro l) 0%nat - nth i (ro l) 0%nat))
  else None.

Definition ref_elems (l : RefList) : list (option (list Z)) :=
  ref_entry l <$> seq 0 (length (ro l) - 1).

Definition ref_offsets (ls : list nat) : list nat :=
  (fun k => sum_list (take k ls)) <$> seq 0 (S (length ls)).

Definition ref_empty (f : nat) : RefList := MkRef f [0%nat] [] None eq_refl.

Definition or_empty (f : nat) (o : outcome RefList) : RefList :=
  match o with Done l => l | Panic => ref_empty f end.

(** A compact array with the given entries. *)
Definition ref_of_rows (f : nat) (rows : list (option (list Z))) : RefList :=
  or_empty f (ref_new f (ref_offsets ((fun r => length (default [] r)) <$> rows))
    (rows ≫= fun r => default [] r)
    (Some ((fun r => match r with Some _ => true | None => false end) <$> rows))).

Definition ref_list_slice (l : RefList) (o n : nat) : RefList :=
  or_empty (rf l) (ref_new (rf l) (take (S n) (drop o (ro l))) (rv l)
    ((fun v => take n (drop o v)) <$> rn l)).

#[export] Instance ref_list_array : ArrowArray RefList (option (list Z)) := {
  elems := ref_elems;
  slice := ref_list_slice;
  extend_range l s e := ref_of_rows (rf l) (take (e - s) (drop s (ref_elems l)));
  filter_kernel l m := ref_of_rows (rf l) (mask m (ref_elems l));
  take_kernel l idx := ref_of_rows (rf l) (default [] (gather (ref_elems l) idx));
  concat_kernel ls :=
    match ls with
    | [] => None
    | l :: tl =>
        if forallb (fun k => bool_decide (rf l = rf k)) tl
        then Some (ref_of_rows (rf l) (ls ≫= ref_elems)) else None
    end;
  same_type l k := bool_decide (rf l = rf k);
}.

#[export] Instance ref_ops : ArrowOps := {
  Array := list Z;
  Field := nat;
  field_accepts _ _ := true;
  arr_len := length;
  arr_slice := ref_slice;
  arr_concat ls := Some (mjoin ls);
  arr_empty _ := [];
  offsets_from_lengths := ref_offsets;
  ListArray := RefList;
  list_new := ref_new;
  list_new_null f n := ref_of_rows f (replicate n None);
  list_field := rf; list_offsets := ro; list_values := rv; list_nulls := rn;
}.

(** ** The laws *)

Lemma ref_new_ok f offs vals nulls : parts_ok offs vals nulls = true ->
  exists H, ref_new f offs vals nulls = Done (MkRef f offs vals nulls H).
Proof. intros Hok. unfold ref_new. destruct (Bool.bool_dec _ _) as [H|H]; [by exists H|done]. Qed.

Lemma lookup_ref_offsets ls k : (k <= length ls)%nat ->
  ref_offsets ls !! k = Some (sum_list (take k ls)).
Proof. intros Hk. unfold ref_offsets. by rewrite list_lookup_fmap, lookup_seq_lt by lia. Qed.

Lemma length_ref_offsets ls : length (ref_offsets ls) = S (length ls).
Proof. unfold ref_offsets. by rewrite length_fmap, length_seq. Qed.

Lemma ref_offsets_ok ls n : (sum_list ls <= n)%nat -> offsets_ok (ref_offsets ls) n = true.
Proof.
  intros Hn. unfold offsets_ok. apply andb_true_iff. split.
  - apply windows_all_sorted; [apply _|]. apply sorted_intro. intros i j x y Hij Hi Hj.
    pose proof (lookup_lt_Some _ _ _ Hj) as Hlt. rewrite length_ref_offsets in Hlt.
    rewrite lookup_ref_offsets in Hi, Hj by lia. simplify_eq. apply Nat.leb_le, sum_list_take_mono. lia.
  - rewrite last_lookup, length_ref_offsets. simpl pred.
    rewrite lookup_ref_offsets, take_ge by lia. by apply Nat.leb_le.
Qed.

(** A slice at a running sum of a concatenation is the summand. *)
Lemma slice_concat {T} (ls : list (list T)) k a : ls !! k = Some a ->
  take (length a) (drop (sum_list_with length (take k ls)) (mjoin ls)) = a.
Proof.
  revert k. induction ls as [|b ls IH]; intros [|k] Hk; simplify_eq/=.
  - by rewrite drop_0, take_app_length.
  - rewrite drop_app_ge by lia. rewrite Nat.add_comm, Nat.add_sub. by apply IH.
Qed.

Lemma ref_of_rows_spec f rows :
  rf (ref_of_rows f rows) = f /\ ref_elems (ref_of_rows f rows) = rows.
Proof.
  unfold ref_of_rows. set (lens := (fun r => length (default [] r)) <$> rows).
  set (vals := rows ≫= fun r => default [] r).
  assert (vals = mjoin (default [] <$> rows)) as Hv.
  { subst vals. clear. induction rows as [|r rows IH]; [done|]. csimpl. by rewrite IH. }
  assert (forall k, sum_list (take k lens) = sum_list_with length (take k (default [] <$> rows))) as Hsum.
  { subst lens. clear. induction rows as [|r rows IH]; intros [|k]; csimpl; simpl; [done..|].
    by rewrite IH. }
  destruct (ref_new_ok f (ref_offsets lens) vals
    (Some ((fun r => match r with Some _ => true | None => false end) <$> rows))) as [H ->].
  { unfold parts_ok. apply andb_true_iff. split.
    - apply ref_offsets_ok. rewrite <- (take_ge lens (length rows)) by (subst lens; by rewrite length_fmap).
      rewrite Hsum, take_ge, Hv by (by rewrite length_fmap).
      clear. induction rows as [|r rows IH]; csimpl; simpl; [lia|]. rewrite length_app. lia.
    - apply bool_decide_eq_true. rewrite length_ref_offsets. subst lens. simpl.
      rewrite !length_fmap. lia. }
  split; [done|]. simpl or_empty. unfold ref_elems. cbn [ro]. rewrite length_ref_offsets.
  assert (length lens = length rows) as Hl by (subst lens; by rewrite length_fmap).
  simpl Nat.sub. rewrite Nat.sub_0_r, Hl. apply list_lookup_ext; [by rewrite length_fmap, length_seq|].
  intros i x y Hx Hy. pose proof (lookup_lt_Some _ _ _ Hy).
  rewrite list_lookup_fmap, lookup_seq_lt in Hx by done. simplify_eq/=.
  unfold ref_entry. cbn [rn rv ro].
  erewrite nth_lookup_Some by (rewrite list_lookup_fmap, Hy; done).
  destruct y as [a|]; [|done]. f_equal. unfold ref_slice.
  erewrite (nth_lookup_Some _ i), (nth_lookup_Some _ (S i)) by (apply lookup_ref_offsets; lia).
  erewrite (sum_list_take_S lens i (length a)) by (subst lens; rewrite list_lookup_fmap, Hy; done).
  rewrite Nat.add_comm, Nat.add_sub, Hsum, Hv. apply slice_concat.
  by rewrite list_lookup_fmap, Hy.
Qed.

Lemma nth_take_drop (l : list nat) o n i : (i < n)%nat ->
  nth i (take n (drop o l)) 0%nat = nth (o + i) l 0%nat.
Proof.
  intros Hi. rewrite !nth_lookup. by rewrite lookup_take_lt, lookup_drop by done.
Qed.

Lemma ref_slice_spec l o n : (o + n <= length (ref_elems l))%nat ->
  rf (ref_list_slice l o n) = rf l /\ ref_elems (ref_list_slice l o n) = take n (drop o (ref_elems l)).
Proof.
  intros Hn. destruct l as [f offs vals nulls Hok]. pose proof Hok as Hp.
  unfold parts_ok in Hp. apply andb_true_iff in Hp as [Ho Hnu].
  unfold ref_elems in Hn. cbn [ro] in Hn. rewrite length_fmap, length_seq in Hn.
  assert (length offs <> 0)%nat as Hlen by (intros E; destruct offs; done).
  assert (length (take (S n) (drop o offs)) = S n) as Hl
    by (rewrite length_take, length_drop; lia).
  unfold ref_list_slice. cbn [rf ro rv rn].
  destruct (ref_new_ok f (take (S n) (drop o offs)) vals ((fun v => take n (drop o v)) <$> nulls))
    as [H ->].
  { unfold parts_ok. apply andb_true_iff. split.
    - unfold offsets_ok in *. apply andb_true_iff in Ho as [Hs Hlast].
      apply windows_all_sorted in Hs; [|apply _]. apply andb_true_iff. split.
      + apply windows_all_sorted; [apply _|]. by apply sorted_take, sorted_drop.
      + rewrite last_lookup, Hl. simpl pred.
        rewrite lookup_take_lt, lookup_drop by lia.
        destruct (lookup_lt_is_Some_2 offs (o + n)) as [x Hx]; [lia|]. rewrite Hx.
        rewrite last_lookup in Hlast.
        destruct (lookup_lt_is_Some_2 offs (pred (length offs))) as [y Hy]; [lia|]. rewrite Hy in Hlast.
        assert (o + n <= pred (length offs))%nat as Hle by lia.
        pose proof (sorted_lookup _ _ _ _ _ _ Hs Hle Hx Hy) as Hxy.
        apply Nat.leb_le in Hxy, Hlast. apply Nat.leb_le. lia.
    - destruct nulls as [v|]; [|done]. simpl. apply bool_decide_eq_true in Hnu.
      apply bool_decide_eq_true. rewrite length_take, length_drop, Hl. lia. }
  split; [done|]. simpl or_empty. unfold ref_elems. cbn [ro]. rewrite Hl.
  replace (S n - 1)%nat with n by lia.
  apply list_lookup_ext; [rewrite length_take, length_drop, !length_fmap, !length_seq; lia|].
  intros i x y Hx Hy. pose proof (lookup_lt_Some _ _ _ Hx) as Hi. rewrite length_fmap, length_seq in Hi.
  rewrite lookup_take_lt, lookup_drop in Hy by done.
  rewrite list_lookup_fmap, lookup_seq_lt in Hx, Hy by lia. simplify_eq/=.
  unfold ref_entry. cbn [ro rv rn]. rewrite !nth_take_drop by lia.
  replace (o + S i)%nat with (S (o + i)) by lia.
  destruct nulls as [v|]; [|done]. simpl.
  by rewrite !nth_lookup, lookup_take_lt, lookup_drop by done.
Qed.

#[export] Instance ref_list_laws : ArrowArrayLaws RefList (option (list Z)).
Proof.
  split; cbn [elems slice extend_range filter_kernel take_kernel concat_kernel same_type ref_list_array];
    unfold array_len; cbn [elems ref_list_array].
  - intros l o n Hn. destruct (ref_slice_spec l o n Hn) as [H1 H2]. by rewrite bool_decide_eq_true.
  - intros l s e Hse. rewrite bool_decide_eq_true.
    destruct (ref_of_rows_spec (rf l) (take (e - s) (drop s (ref_elems l)))). done.
  - intros l m Hm. rewrite bool_decide_eq_true.
    destruct (ref_of_rows_spec (rf l) (mask m (ref_elems l))). done.
  - intros l idx es Hg. rewrite Hg, bool_decide_eq_true.
    destruct (ref_of_rows_spec (rf l) es). done.
  - intros l ls Hls.
    assert (forallb (fun k => bool_decide (rf l = rf k)) ls = true) as ->.
    { apply forallb_forall. intros k Hk. rewrite Forall_forall in Hls. by apply Hls, list_elem_of_In. }
    destruct (ref_of_rows_spec (rf l) ((l :: ls) ≫= ref_elems)) as [H1 H2].
    eexists. split_and!; [done|done|by rewrite bool_decide_eq_true].
  - intros l k Hlk. simpl. by rewrite Hlk.
  - intros l. by rewrite bool_decide_eq_true.
  - intros l k. rewrite !bool_decide_eq_true. done.
  - intros l k m. rewrite !bool_decide_eq_true. congruence.
Qed.

#[export] Instance ref_laws : ArrowLaws.
Proof.
  split; cbn; try apply _.
  - intros a o n Hn. unfold ref_slice. rewrite length_take, length_drop. lia.
  - intros a o n o' n' Hn Hn'. unfold ref_slice.
    rewrite take_drop_commute, take_take, Nat.min_l, <- take_drop_commute, drop_drop by lia. done.
  - done.
  - intros f ls Hne _. exists (mjoin ls). split_and!; [done|done| |intros k a; apply slice_concat].
    clear. induction ls as [|a ls IH]; [done|]. simpl. by rewrite length_app, IH.
  - done.
  - apply lookup_ref_offsets.
  - apply length_ref_offsets.
  - intros l. pose proof (r_ok l) as Hok. unfold parts_ok in Hok. apply andb_true_iff in Hok.
    naive_solver.
  - intros f offs vals nulls Ho Hn _. destruct (ref_new_ok f offs vals nulls) as [H ->].
    { unfold parts_ok. by rewrite Ho, Hn. }
    by eexists.
  - intros f n. apply ref_of_rows_spec.
  - done.
  - intros l k. by rewrite bool_decide_eq_true.
  - done.
  - done.
Qed.

(** Debug and release builds. *)
#[export] Instance debug_build : Build | 10 := { debug_assertions := true; very_strict := false }.
Definition release_build : Build := {| debug_assertions := false; very_strict := false |}.

(** ** Concrete instances of the array utilities' theorems *)

(** A two-entry array, and the slice of a three-entry one that equals it. *)
Definition ref_ab : RefList := ref_of_rows 0 [Some [1]; Some [2; 3]].
Definition ref_sliced_ab : RefList := ref_list_slice (ref_of_rows 0 [Some [9]; Some [1]; Some [2; 3]]) 1 2.

Lemma pad_list_array_spec_witness :
  exists b f, pad_list_array_back ref_ab 3 = Done b /\ pad_list_array_front ref_ab 3 = Done f
    /\ list_field b = list_field ref_ab /\ list_field f = list_field ref_ab
    /\ list_len b = 3%nat /\ list_len f = 3%nat
    /\ (compact ref_ab ->
        elems b = elems ref_ab ++ replicate 1 None /\ elems f = replicate 1 None ++ elems ref_ab).
Proof. exact (pad_list_array_spec ref_ab 3). Defined.

(** The hypothesis that the values are compact is needed: padding a slice, which shares the
    values of the array it was cut from, moves its entries onto other entries' values. *)
Lemma pad_list_array_back_misaligns :
  elems ref_sliced_ab = [Some [1]; Some [2; 3]]
  /\ exists r, pad_list_array_back ref_sliced_ab 3 = Done r
       /\ elems r = [Some [9]; Some [1; 2]; None].
Proof. split; [reflexivity|]. eexists. split; reflexivity. Qed.

Lemma arrays_to_list_array_spec_witness :
  exists l, arrays_to_list_array (0%nat : @Field ref_ops) ([Some [1; 2]; None; Some []] : list (option (@Array ref_ops))) = Some (Done l)
    /\ list_field l = (0%nat : @Field ref_ops) /\ elems l = ([Some [1; 2]; None; Some []] : list (option (@Array ref_ops))).
Proof.
  apply (arrays_to_list_array_spec (0%nat : @Field ref_ops) ([Some [1; 2]; None; Some []] : list (option (@Array ref_ops)))).
  repeat constructor.
Defined.
