(* ===== verification/Column.v ===== *)
(** * Columns

    The columns of a chunk, from [dl_chunk/src/chunk.rs], [slice.rs], [merge.rs] and
    [shuffle.rs]: component columns (Module [ChunkComponents]) and time columns (Module
    [TimeColumn]).

    Maps are [gmap]s: [IntMap]'s iteration order is not part of its contract, and
    collecting into a map keeps the last entry of a key. *)

From stdpp Require Import strings.
From S2P Require Import Prelude Ints TimeInt TimeRange Arrow.

(** The variants of [ChunkError] these modules construct, with the case of [Malformed]'s
    message instead of its text. *)
Inductive Reason :=
| HeapSizeMismatch | RowIdSortedness | TimelineLength | TimeSortedness | TimeRangeNotTight
| TimeRangeWrong | StaticTime | DescriptorMismatch | ComponentLength | EmptyColumn
| DifferentEntityPaths | DifferentTimelines | DifferentDatatypes | MissingTimeline
| TimelineDiffers.

Inductive ChunkError :=
| Malformed (reason : Reason)
| ArrowError
| IndexOutOfBounds (kind : string) (len index : nat).

#[export] Instance reason_eq_dec : EqDecision Reason.
Proof. solve_decision. Defined.

(** [TimelineName] and [ComponentIdentifier] are interned strings. *)
Abbreviation TimelineName := string (only parsing).
Abbreviation ComponentIdentifier := string (only parsing).

Inductive TimeType := Sequence | DurationNs | TimestampNs.

#[export] Instance timetype_eq_dec : EqDecision TimeType.
Proof. solve_decision. Defined.

Record Timeline := { tl_name : TimelineName; tl_typ : TimeType }.

#[export] Instance timeline_eq_dec : EqDecision Timeline.
Proof. solve_decision. Defined.

(** [ComponentDescriptor]. *)
Record ComponentDescriptor := {
  cd_archetype : option string;
  cd_component : ComponentIdentifier;
  cd_component_type : option string;
}.

#[export] Instance descriptor_eq_dec : EqDecision ComponentDescriptor.
Proof. solve_decision. Defined.

(** ** Component columns *)

Module ChunkComponents.

(** [SerializedComponentColumn]. *)
Record column `{ArrowOps} := { list_array : ListArray; descriptor : ComponentDescriptor }.

(** [ChunkComponents], keyed by [descriptor.component] through [insert]. *)
Abbreviation t := (gmap string column).

Section Components.

Context `{ArrowOps}.

Definition contains_component (self : t) (component : ComponentIdentifier) : bool :=
  bool_decide (is_Some (self !! component)).

Definition values (self : t) : list column := (map_to_list self).*2.

Definition list_arrays (self : t) : list ListArray := list_array <$> values self.

Definition get_array (self : t) (component : ComponentIdentifier) : option ListArray :=
  list_array <$> self !! component.

Definition get_descriptor (self : t) (component : ComponentIdentifier) : option ComponentDescriptor :=
  descriptor <$> self !! component.

Definition get_by_component_type (self : t) (component_type : string) : list ListArray :=
  omap (fun c => if decide (cd_component_type (descriptor c) = Some component_type)
                 then Some (list_array c) else None) (values self).

Definition insert (self : t) (c : column) : t := <[cd_component (descriptor c) := c]> self.

Definition from_iter (cs : list column) : t := foldl insert ∅ cs.

(** [map] over the values, collected: the columns are keyed again by their descriptors. *)
Definition map_values (f : column -> column) (self : t) : t := from_iter (f <$> values self).

(** The keys are the descriptors' components, as [insert] ensures. *)
Definition keyed (self : t) : Prop :=
  map_Forall (fun k c => cd_component (descriptor c) = k) self.

Lemma keyed_insert self c : keyed self -> keyed (insert self c).
Proof. intros Hk. by apply map_Forall_insert_2. Qed.

Lemma keyed_from_iter cs : keyed (from_iter cs).
Proof.
  unfold from_iter. assert (keyed ∅) as Hk by apply map_Forall_empty.
  revert Hk. generalize (∅ : t). induction cs as [|c cs IH]; intros m Hm; [done|].
  by apply IH, keyed_insert.
Qed.

Lemma lookup_foldl_insert cs (m : t) k :
  (forall i j c d, cs !! i = Some c -> cs !! j = Some d ->
     cd_component (descriptor c) = cd_component (descriptor d) -> i = j) ->
  foldl insert m cs !! k =
    match list_find (fun c => cd_component (descriptor c) = k) cs with
    | Some (_, c) => Some c
    | None => m !! k
    end.
Proof.
  revert m. induction cs as [|c cs IH]; intros m Hinj; [done|]. simpl.
  rewrite IH.
  2:{ intros i j d e Hi Hj He. apply Nat.succ_inj. by apply (Hinj (S i) (S j) d e). }
  destruct (decide (cd_component (descriptor c) = k)) as [<-|Hne].
  - destruct (list_find _ cs) as [[i d]|] eqn:E; simpl.
    + apply list_find_Some in E as (Hi & Hd & _).
      exfalso. by specialize (Hinj 0%nat (S i) c d eq_refl Hi (eq_sym Hd)).
    + unfold insert. by rewrite lookup_insert_eq.
  - destruct (list_find _ cs) as [[i d]|] eqn:E; simpl; [done|].
    unfold insert. by rewrite lookup_insert_ne.
Qed.

(** On keyed maps, mapping a function that keeps the descriptors is the map's [fmap]. *)
Lemma map_values_fmap f (self : t) : keyed self ->
  (forall k c, self !! k = Some c -> descriptor (f c) = descriptor c) ->
  map_values f self = f <$> self.
Proof.
  intros Hk Hf. unfold map_values, from_iter, values. apply map_eq. intros k.
  set (cs := f <$> (map_to_list self).*2).
  assert (forall i c, cs !! i = Some c ->
    exists k c', map_to_list self !! i = Some (k, c') /\ c = f c' /\ cd_component (descriptor c) = k) as Hcs.
  { intros i c Hi. subst cs. rewrite !list_lookup_fmap in Hi.
    destruct (map_to_list self !! i) as [[k' c']|] eqn:E; [|done]. simplify_eq/=.
    apply list_elem_of_lookup_2, elem_of_map_to_list in E as Hm.
    exists k', c'. split_and!; [done|done|]. rewrite (Hf _ _ Hm). by apply (Hk k' c'). }
  rewrite lookup_foldl_insert, lookup_empty, lookup_fmap.
  - destruct (list_find _ cs) as [[i c]|] eqn:E.
    + apply list_find_Some in E as (Hi & <- & _).
      destruct (Hcs i c Hi) as (k' & c' & Hm & -> & Hk'). rewrite Hk'.
      apply list_elem_of_lookup_2, elem_of_map_to_list in Hm. by rewrite Hm.
    + destruct (self !! k) as [c|] eqn:Ek; [|done]. exfalso. pose proof Ek as Hi.
      apply elem_of_map_to_list, list_elem_of_lookup_1 in Hi. destruct Hi as [i Hi].
      apply list_find_None in E. rewrite Forall_lookup in E.
      apply (E i (f c)); [subst cs; by rewrite !list_lookup_fmap, Hi|].
      rewrite (Hf k c Ek). by apply (Hk k c).
  - intros i j c d Hi Hj He.
    destruct (Hcs i c Hi) as (k1 & c1 & H1 & _ & Hk1). destruct (Hcs j d Hj) as (k2 & c2 & H2 & _ & Hk2).
    assert (k1 = k2) as <- by congruence.
    apply (NoDup_lookup (map_to_list self).*1 i j k1);
      [apply NoDup_fst_map_to_list|by rewrite list_lookup_fmap, H1|by rewrite list_lookup_fmap, H2].
Qed.

(** [map] with a function that may panic, collected. *)
Definition collect_values (f : column -> outcome column) (self : t) : outcome t :=
  if decide (map_Forall (fun _ c => is_done (f c) = true) self)
  then Done (map_values (fun c => match f c with Done d => d | Panic => c end) self)
  else Panic.

Lemma collect_values_spec f (self : t) (Q : column -> column -> Prop) : keyed self ->
  (forall k c, self !! k = Some c ->
     exists d, f c = Done d /\ descriptor d = descriptor c /\ Q c d) ->
  exists m, collect_values f self = Done m /\ keyed m
    /\ forall k, match self !! k, m !! k with
       | Some c, Some d => Q c d /\ descriptor d = descriptor c
       | None, None => True | _, _ => False end.
Proof.
  intros Hk Hf. unfold collect_values. rewrite decide_True.
  2:{ intros k c Hc. destruct (Hf k c Hc) as (d & -> & _). done. }
  eexists. split; [done|].
  assert (forall k c, self !! k = Some c ->
    descriptor (match f c with Done d => d | Panic => c end) = descriptor c) as Hd.
  { intros k c Hc. by destruct (Hf k c Hc) as (d & -> & Hd & _). }
  rewrite map_values_fmap by done. split.
  - intros k c' Hc'. rewrite lookup_fmap in Hc'. destruct (self !! k) as [c|] eqn:E; [|done].
    simpl in Hc'. injection Hc' as <-. rewrite (Hd k c E). by apply Hk.
  - intros k. rewrite lookup_fmap. destruct (self !! k) as [c|] eqn:E; [|done]. simpl.
    destruct (Hf k c E) as (d & -> & ? & ?). done.
Qed.

End Components.

End ChunkComponents.

(** The same for the map of timelines, which keeps its keys. *)
Definition collect_map {A} (f : A -> outcome A) (m : gmap string A) : outcome (gmap string A) :=
  if decide (map_Forall (fun _ c => is_done (f c) = true) m)
  then Done ((fun c => match f c with Done d => d | Panic => c end) <$> m)
  else Panic.

Lemma collect_map_spec {A} (f : A -> outcome A) (m : gmap string A) (Q : A -> A -> Prop) :
  (forall k c, m !! k = Some c -> exists d, f c = Done d /\ Q c d) ->
  exists m', collect_map f m = Done m'
    /\ forall k, match m !! k, m' !! k with
       | Some c, Some d => Q c d | None, None => True | _, _ => False end.
Proof.
  intros Hf. unfold collect_map. rewrite decide_True.
  2:{ intros k c Hc. by destruct (Hf k c Hc) as (d & -> & _). }
  eexists. split; [done|]. intros k. rewrite lookup_fmap.
  destruct (m !! k) as [c|] eqn:E; [|done]. simpl. by destruct (Hf k c E) as (d & -> & HQ).
Qed.

(** ** Permuting a buffer

    [let mut sorted = v.to_vec(); for (to, from) in swaps.enumerate() { sorted\[to\] = v\[from\] }]. *)
Fixpoint shuffle_from {A} (v sorted : list A) (to : nat) (swaps : list nat) : outcome (list A) :=
  match swaps with
  | [] => Done sorted
  | from :: swaps =>
      x ← unwrap (v !! from);
      _ ← unwrap (sorted !! to);
      shuffle_from v (<[to := x]> sorted) (S to) swaps
  end.

Definition shuffle_vec {A} (v : list A) (swaps : list nat) : outcome (list A) :=
  shuffle_from v v 0 swaps.

(** ** Time columns *)

Module TimeColumn.

(** [times] is a buffer of [i64]. *)
Record t := Mk {
  timeline : Timeline;
  times : list Z;
  is_sorted : bool;
  time_range : AbsoluteTimeRange.t;
}.

#[global] Instance t_eq_dec : EqDecision t.
Proof. solve_decision. Defined.

(** [slice.windows(2).all(|w| w\[0\] <= w\[1\])]. *)
Definition times_sorted (times : list Z) : bool := windows_all Z.leb times.

Definition new (is_sorted : option bool) (timeline : Timeline) (times : list Z) : t :=
  let is_sorted := default (times_sorted times) is_sorted in
  let time_range :=
    if is_sorted then
      AbsoluteTimeRange.new
        (Ok (from_option TimeInt.new_temporal TimeInt.MIN (head times)))
        (Ok (from_option TimeInt.new_temporal TimeInt.MAX (last times)))
    else
      AbsoluteTimeRange.new
        (Ok (from_option TimeInt.new_temporal TimeInt.MIN (iter_min Z.leb times)))
        (Ok (from_option TimeInt.new_temporal TimeInt.MAX (iter_max Z.leb times))) in
  Mk timeline times is_sorted time_range.

(** The typed constructors clamp the one illegal value. *)
Definition new_sequence (name : TimelineName) (times : list Z) : t :=
  let time_vec :=
    (fun t => TimeInt.as_i64
       match TimeInt.try_from t with Ok v => v | Err _ => TimeInt.MIN end) <$> times in
  new None {| tl_name := name; tl_typ := Sequence |} time_vec.

Definition new_duration_nanos (name : TimelineName) (nanos : list Z) : t :=
  let time_vec := (fun n => NonMinI64.get (default NonMinI64.MIN (NonMinI64.new n))) <$> nanos in
  new None {| tl_name := name; tl_typ := DurationNs |} time_vec.

Definition new_timestamp_nanos_since_epoch (name : TimelineName) (nanos : list Z) : t :=
  let time_vec := (fun n => NonMinI64.get (default NonMinI64.MIN (NonMinI64.new n))) <$> nanos in
  new None {| tl_name := name; tl_typ := TimestampNs |} time_vec.

Definition num_rows (self : t) : nat := length (times self).
Definition is_empty (self : t) : bool := bool_decide (num_rows self = 0%nat).

(** [times()] and [times_nonmin()]. *)
Definition times_int (self : t) : list TimeInt.t := TimeInt.new_temporal <$> times self.
Definition times_nonmin (self : t) : list NonMinI64.t :=
  NonMinI64.saturating_from_i64 <$> times self.

Definition is_row_ids_sorted_uncached (self : t) : bool := times_sorted (times self).

(** The times at the valid rows; the bitmap is as long as the column. *)
Definition valid_times (validity : list bool) (times : list Z) : list Z := mask validity times.

Definition time_range_per_component `{ArrowOps} (self : t) (components : ChunkComponents.t)
    : gmap string AbsoluteTimeRange.t :=
  omap (fun column =>
    match list_nulls (ChunkComponents.list_array column) with
    | Some validity =>
        if bool_decide (validity = []) then None
        else if bool_decide (null_count validity = 0%nat) then Some (time_range self)
        else
          let valid := valid_times validity (times self) in
          let time_min :=
            from_option TimeInt.new_temporal TimeInt.MAX
              (if times_sorted (times self) then head valid else iter_min Z.leb valid) in
          let time_max :=
            from_option TimeInt.new_temporal TimeInt.MIN
              (if times_sorted (times self) then last valid else iter_max Z.leb valid) in
          Some (AbsoluteTimeRange.new (Ok time_min) (Ok time_max))
    | None => Some (time_range self)
    end) components.

Definition find_next_time (self : t) (after : TimeInt.t) : option TimeInt.t :=
  if is_sorted self then
    let idx := partition_point (fun t => t <=? TimeInt.as_i64 after) (times self) in
    TimeInt.new_temporal <$> times self !! idx
  else
    TimeInt.new_temporal <$>
      iter_min Z.leb (List.filter (fun t => TimeInt.as_i64 after <? t) (times self)).

Definition find_prev_time (self : t) (before : TimeInt.t) : option TimeInt.t :=
  if is_sorted self then
    let idx := partition_point (fun t => t <? TimeInt.as_i64 before) (times self) in
    if (0 <? idx)%nat then TimeInt.new_temporal <$> times self !! (idx - 1)%nat else None
  else
    TimeInt.new_temporal <$>
      iter_max Z.leb (List.filter (fun t => t <? TimeInt.as_i64 before) (times self)).

Definition offset_by_nanos (self : t) (offset_ns : Z) : t :=
  let new_times :=
    (fun t => NonMinI64.get (NonMinI64.saturating_from_i64 (Ints.saturating_add t offset_ns)))
      <$> times self in
  new (Some (is_sorted self)) (timeline self) new_times.

(** The scan over the times stops at the first offending one. *)
Fixpoint check_times (r : AbsoluteTimeRange.t) (times : list Z) : result () ChunkError :=
  match times with
  | [] => Ok ()
  | time :: times =>
      if (time <? TimeInt.as_i64 (AbsoluteTimeRange.rmin r))
         || (TimeInt.as_i64 (AbsoluteTimeRange.rmax r) <? time)
      then Err (Malformed TimeRangeWrong)
      else if time =? TimeInt.as_i64 TimeInt.STATIC then Err (Malformed StaticTime)
      else check_times r times
  end.

Definition sanity_check `{Build} (self : t) : result () ChunkError :=
  if debug_assertions && negb (Bool.eqb (is_sorted self) (times_sorted (times self)))
  then Err (Malformed TimeSortedness)
  else if debug_assertions then
    let tight time := bool_decide (TimeInt.as_i64 time ∈ times self) in
    let is_tight_bound :=
      tight (AbsoluteTimeRange.rmin (time_range self))
      && tight (AbsoluteTimeRange.rmax (time_range self)) in
    if negb (is_empty self) && negb is_tight_bound then Err (Malformed TimeRangeNotTight)
    else check_times (time_range self) (times self)
  else Ok ().

(** *** From [slice.rs] *)

Definition emptied (self : t) : t := new (Some true) (timeline self) [].

Definition row_sliced (self : t) (index len : nat) : t :=
  if (num_rows self <=? index)%nat then emptied self
  else
    let end_offset := Nat.min (index + len) (num_rows self) in
    let len := (end_offset - index)%nat in
    if bool_decide (len = 0%nat) then emptied self
    else
      let is_sorted := is_sorted self || (len <? 2)%nat in
      let is_sorted_opt := if is_sorted then Some is_sorted else None in
      new is_sorted_opt (timeline self) (take len (drop index (times self))).

Definition count_true (filter : list bool) : nat := length (List.filter id filter).

Definition filtered `{ArrowOps} (self : t) (filter : list bool) : outcome t :=
  let is_sorted := is_sorted self || (count_true filter <? 2)%nat in
  let is_sorted_opt := if is_sorted then Some is_sorted else None in
  new_times ← filter_array (times self) filter;
  Done (new is_sorted_opt (timeline self) (elems new_times)).

Definition taken `{ArrowOps} (self : t) (indices : list Z) : outcome t :=
  new_times ← take_array (times self) indices;
  Done (new (Some (is_sorted self)) (timeline self) (elems new_times)).

(** *** From [merge.rs] *)

Definition concatenated (self rhs : t) : option t :=
  if decide (timeline self = timeline rhs) then
    let is_sorted :=
      is_sorted self && is_sorted rhs
      && TimeInt.le (AbsoluteTimeRange.rmax (time_range self)) (AbsoluteTimeRange.rmin (time_range rhs)) in
    let time_range := AbsoluteTimeRange.union (time_range self) (time_range rhs) in
    Some (Mk (timeline self) (times self ++ times rhs) is_sorted time_range)
  else None.

(** *** From [shuffle.rs]

    The loop of [Chunk::shuffle_with] over one time column, whose range it leaves as it is.
    An index out of the column's bounds panics. *)
Definition shuffled (self : t) (swaps : list nat) : outcome t :=
  sorted ← shuffle_vec (times self) swaps;
  Done (Mk (timeline self) sorted (times_sorted sorted) (time_range self)).

End TimeColumn.

(** ** Facts about columns *)

Section ShuffleFacts.

Context {A : Type}.
Implicit Types v sorted : list A.

Lemma shuffle_from_spec v sorted to swaps ys :
  pick v swaps = Some ys -> (to + length swaps <= length sorted)%nat ->
  shuffle_from v sorted to swaps
    = Done (take to sorted ++ ys ++ drop (to + length swaps) sorted).
Proof.
  unfold pick. revert sorted to ys. induction swaps as [|i swaps IH]; intros sorted to ys Hys Hlen; simpl in *.
  - injection Hys as <-. rewrite Nat.add_0_r. simpl. by rewrite take_drop.
  - destruct (v !! i) as [x|] eqn:Ei; [|done]. simpl in Hys.
    destruct (mapM _ swaps) as [ys'|] eqn:E; [|done]. injection Hys as <-.
    destruct (lookup_lt_is_Some_2 sorted to) as [z Hz]; [lia|]. rewrite Hz. simpl.
    rewrite (IH _ _ ys') by (rewrite ?length_insert; done || lia). f_equal.
    rewrite (take_S_r _ _ x) by (rewrite list_lookup_insert_eq; [done|lia]).
    rewrite take_insert_ge, drop_insert_lt by lia.
    rewrite <- app_assoc. simpl. by rewrite Nat.add_succ_r, ?app_nil_l.
Qed.

(** A full set of source indices: the result is the gathered list. *)
Lemma shuffle_vec_spec v swaps ys :
  pick v swaps = Some ys -> length swaps = length v ->
  shuffle_vec v swaps = Done ys.
Proof.
  intros Hys Hl. unfold shuffle_vec. rewrite (shuffle_from_spec _ _ _ _ ys) by (done || lia).
  by rewrite drop_ge, app_nil_r by lia.
Qed.

End ShuffleFacts.

Section TimeColumnFacts.

Import AbsoluteTimeRange TimeColumn.
Implicit Types c : TimeColumn.t.

Definition temporal_i64 (z : Z) : Prop := i64_min < z <= i64_max.

#[export] Instance Z_leb_preorder : TotalPreorder Z.leb.
Proof. split; intros *; rewrite !Z.leb_le; lia. Qed.

Lemma as_i64_temporal z : temporal_i64 z -> TimeInt.as_i64 (TimeInt.new_temporal z) = z.
Proof. unfold temporal_i64. intros Hz. rewrite TimeInt.as_i64_new_temporal; int_lia. Qed.

Lemma as_i64_saturated z : temporal_i64 z ->
  TimeInt.as_i64 (TimeInt.saturated_temporal (Ok (TimeInt.new_temporal z))) = z.
Proof.
  intros Hz. rewrite TimeInt.as_i64_saturated_temporal_Ok, as_i64_temporal by done.
  unfold temporal_i64 in *. lia.
Qed.

(** The bounds of the range are the least and the greatest of the times. *)
Definition tight (r : AbsoluteTimeRange.t) (l : list Z) : Prop :=
  TimeInt.as_i64 (rmin r) ∈ l /\ TimeInt.as_i64 (rmax r) ∈ l
  /\ Forall (fun z => TimeInt.as_i64 (rmin r) <= z <= TimeInt.as_i64 (rmax r)) l.

(** The invariant of time columns: truthful sortedness, temporal times, tight range. *)
Definition tc_wf c : Prop :=
  is_sorted c = times_sorted (times c)
  /\ Forall temporal_i64 (times c)
  /\ (times c <> [] -> tight (time_range c) (times c)).

Lemma times_sorted_spec l : times_sorted l = true <-> StronglySorted Z.le l.
Proof.
  unfold times_sorted. rewrite windows_all_sorted by apply _. split; intros Hs; induction Hs as [|x l Hs IH Hf];
    constructor; try done; eapply Forall_impl; try exact Hf; intros; by apply Z.leb_le.
Qed.

Lemma times_sorted_false l : times_sorted l = false <-> ~ StronglySorted Z.le l.
Proof. rewrite <- times_sorted_spec. by destruct (times_sorted l). Qed.

Lemma short_sorted l : (length l < 2)%nat -> times_sorted l = true.
Proof. destruct l as [|x [|y l]]; simpl; [done|done|lia]. Qed.

Lemma sorted_head_last l x y : StronglySorted Z.le l -> head l = Some x -> last l = Some y ->
  Forall (fun z => x <= z <= y) l.
Proof.
  intros Hs Hx Hy. apply Forall_lookup. intros i z Hz.
  assert (forall i j a b, (i <= j)%nat -> l !! i = Some a -> l !! j = Some b -> a <= b) as Hle.
  { intros i' j a b Hij Ha Hb. apply Z.leb_le.
    apply (sorted_lookup Z.leb l i' j a b); try done.
    apply windows_all_sorted; [apply _|]. by apply times_sorted_spec. }
  rewrite head_lookup in Hx. rewrite last_lookup in Hy. apply lookup_lt_Some in Hz as Hlt.
  split; [apply (Hle 0%nat i)|apply (Hle i (pred (length l)))]; done || lia.
Qed.

(** The two ways of computing a range. *)
Lemma range_of_sorted l x y : times_sorted l = true -> Forall temporal_i64 l ->
  head l = Some x -> last l = Some y ->
  tight (AbsoluteTimeRange.new (Ok (TimeInt.new_temporal x)) (Ok (TimeInt.new_temporal y))) l.
Proof.
  intros Hs%times_sorted_spec Hf Hx Hy. rewrite Forall_forall in Hf.
  assert (x ∈ l) by (destruct l; simplify_eq/=; by left).
  assert (y ∈ l) by (rewrite last_lookup in Hy; by apply list_elem_of_lookup_2 in Hy).
  unfold tight. simpl. rewrite !as_i64_saturated by auto.
  split_and!; [done|done|by apply sorted_head_last].
Qed.

Lemma range_of_unsorted l x y : Forall temporal_i64 l ->
  iter_min Z.leb l = Some x -> iter_max Z.leb l = Some y ->
  tight (AbsoluteTimeRange.new (Ok (TimeInt.new_temporal x)) (Ok (TimeInt.new_temporal y))) l.
Proof.
  intros Hf Hx Hy. rewrite Forall_forall in Hf.
  apply (iter_min_Some Z.leb) in Hx as [Hx Hfx]. apply (iter_max_Some Z.leb) in Hy as [Hy Hfy].
  unfold tight. simpl. rewrite !as_i64_saturated by auto. split_and!; [done|done|].
  rewrite Forall_forall in *. intros z Hz. specialize (Hfx z Hz). specialize (Hfy z Hz).
  apply Z.leb_le in Hfx, Hfy. lia.
Qed.

Lemma new_tight opt tl l : l <> [] -> Forall temporal_i64 l ->
  default (times_sorted l) opt = times_sorted l -> tight (time_range (new opt tl l)) l.
Proof.
  intros Hne Hf Hopt. unfold new. cbn [time_range]. rewrite Hopt.
  destruct (times_sorted l) eqn:Hs.
  - destruct (head l) as [x|] eqn:Hx; [|by destruct l].
    destruct (last l) as [y|] eqn:Hy; [|by apply last_None in Hy].
    by apply range_of_sorted.
  - destruct (iter_min Z.leb l) as [x|] eqn:Hx; [|by apply iter_min_None in Hx].
    destruct (iter_max Z.leb l) as [y|] eqn:Hy; [|by apply iter_max_None in Hy].
    by apply range_of_unsorted.
Qed.

Lemma new_wf opt tl l : Forall temporal_i64 l -> default (times_sorted l) opt = times_sorted l ->
  tc_wf (new opt tl l).
Proof.
  intros Hf Hopt. split_and!; [done|done|]. intros Hne. by apply new_tight.
Qed.

Lemma new_parts opt tl l : times (new opt tl l) = l /\ timeline (new opt tl l) = tl.
Proof. done. Qed.

Lemma check_times_spec r l :
  check_times r l = Ok () <->
  Forall (fun z => TimeInt.as_i64 (rmin r) <= z <= TimeInt.as_i64 (rmax r) /\ z <> i64_min) l.
Proof.
  induction l as [|z l IH]; cbn [check_times]; [by split; constructor|].
  rewrite Forall_cons, TimeInt.as_i64_STATIC.
  destruct (Z.ltb_spec z (TimeInt.as_i64 (rmin r))), (Z.ltb_spec (TimeInt.as_i64 (rmax r)) z); simpl;
    try (split; [done|lia]).
  destruct (Z.eqb_spec z i64_min) as [->|]; [split; [done|lia]|].
  rewrite IH. naive_solver lia.
Qed.

End TimeColumnFacts.

Section TimeColumnOps.

Import AbsoluteTimeRange TimeColumn.
Context `{ArrowLaws}.
Implicit Types c : TimeColumn.t.

Lemma tc_sanity_check `{Build} c : debug_assertions = true -> Forall is_i64 (times c) ->
  TimeColumn.sanity_check c = Ok () <-> tc_wf c.
Proof.
  intros Hd Hi. unfold TimeColumn.sanity_check, tc_wf, tight. rewrite Hd. cbn [andb].
  destruct (Bool.eqb (is_sorted c) (times_sorted (times c))) eqn:Es; cbn [negb].
  2:{ apply eqb_false_iff in Es. naive_solver. }
  apply eqb_prop in Es. unfold is_empty, num_rows.
  set (lo := TimeInt.as_i64 (rmin (time_range c))). set (hi := TimeInt.as_i64 (rmax (time_range c))).
  assert (check_times (time_range c) (times c) = Ok () <->
    Forall temporal_i64 (times c) /\ Forall (fun z => lo <= z <= hi) (times c)) as Hc.
  { rewrite check_times_spec, <- Forall_and. rewrite !Forall_forall.
    rewrite Forall_forall in Hi. unfold temporal_i64.
    split; intros HF z Hz; specialize (HF z Hz); specialize (Hi z Hz); fold lo hi in HF |- *;
      int_lia || lia. }
  case_bool_decide as Hl; cbn [negb andb].
  - apply nil_length_inv in Hl. rewrite Hc. split.
    + intros [Hf _]. split_and!; done.
    + intros (_ & Hf & _). split; [done|]. rewrite Hl. constructor.
  - assert (times c <> []) as Hne by (intros Hx; by rewrite Hx in Hl).
    case_bool_decide; case_bool_decide; cbn [negb andb]; try (split; [done|naive_solver]).
    rewrite Hc. naive_solver.
Qed.

Lemma tc_sanity_check_release `{Build} c : debug_assertions = false ->
  TimeColumn.sanity_check c = Ok ().
Proof. intros Hd. unfold TimeColumn.sanity_check. by rewrite Hd. Qed.

Lemma tc_emptied_spec c :
  tc_wf (emptied c) /\ times (emptied c) = [] /\ timeline (emptied c) = timeline c.
Proof. split_and!; done || by apply new_wf. Qed.

Lemma sorted_slice l o n : times_sorted l = true -> times_sorted (take n (drop o l)) = true.
Proof.
  unfold times_sorted. rewrite !windows_all_sorted by apply _.
  intros Hs. by apply sorted_take, sorted_drop.
Qed.

Lemma sorted_mask_times m l : times_sorted l = true -> times_sorted (mask m l) = true.
Proof.
  unfold times_sorted. rewrite !windows_all_sorted by apply _. apply sorted_mask.
Qed.

(** The flag an operation passes to [new]: kept when set or when fewer than two rows are
    left, and recomputed otherwise. *)
Lemma flag_hint (b : bool) n l : (b = true -> times_sorted l = true) -> (length l = n) ->
  default (times_sorted l) (if b || (n <? 2)%nat then Some (b || (n <? 2)%nat) else None)
    = times_sorted l.
Proof.
  intros Hb <-. destruct b; simpl; [by rewrite Hb|].
  destruct (Nat.ltb_spec (length l) 2); [by rewrite short_sorted|done].
Qed.

Lemma tc_row_sliced_spec c o n : tc_wf c ->
  tc_wf (row_sliced c o n) /\ times (row_sliced c o n) = take n (drop o (times c))
  /\ timeline (row_sliced c o n) = timeline c.
Proof.
  intros (Hs & Hf & Ht). unfold row_sliced, num_rows.
  destruct (Nat.leb_spec (length (times c)) o) as [Ho|Ho].
  { destruct (tc_emptied_spec c) as (? & -> & ->). by rewrite drop_ge, take_nil. }
  assert (take (Nat.min (o + n) (length (times c)) - o) (drop o (times c)) = take n (drop o (times c))) as E.
  { destruct (decide (o + n <= length (times c))%nat).
    - f_equal. lia.
    - rewrite !take_ge by (rewrite length_drop; lia). done. }
  case_bool_decide as Hn.
  { destruct (tc_emptied_spec c) as (? & -> & ->). split_and!; [done| |done].
    rewrite <- E, Hn. done. }
  split_and!; [|by rewrite <- E|done]. apply new_wf.
  - by apply Forall_take, Forall_drop.
  - apply flag_hint; [rewrite Hs; apply sorted_slice|rewrite length_take, length_drop; lia].
Qed.

Lemma tc_filtered_spec c m : tc_wf c -> length m = num_rows c ->
  exists r, TimeColumn.filtered c m = Done r /\ tc_wf r /\ times r = mask m (times c)
    /\ timeline r = timeline c.
Proof.
  intros (Hs & Hf & Ht) Hm. unfold TimeColumn.filtered.
  pose proof (filter_array_spec (times c) m) as Hfa.
  assert (array_len (times c) = num_rows c) as Hl by (unfold array_len; by rewrite prim_elems).
  destruct (filter_array (times c) m) as [r|]; [|congruence]. cbn [mbind outcome_bind].
  destruct Hfa as (_ & Hr & _). rewrite !prim_elems in Hr. subst r. rewrite prim_elems.
  eexists. split_and!; [done| |done|done]. apply new_wf.
  - apply Forall_forall. intros z (i & _ & Hz)%elem_of_mask.
    rewrite Forall_forall in Hf. apply Hf. by apply list_elem_of_lookup_2 in Hz.
  - apply flag_hint; [rewrite Hs; apply sorted_mask_times|].
    unfold count_true. by apply length_mask.
Qed.

Lemma gather_elem {A} (l es : list A) idx x : gather l idx = Some es -> x ∈ es -> x ∈ l.
Proof.
  intros Hg (i & Hi)%list_elem_of_lookup_1. apply mapM_Some_1 in Hg.
  destruct (Forall2_lookup_r _ _ _ _ _ Hg Hi) as (j & _ & Hj). cbn beta in Hj.
  case_decide; [|done]. by apply list_elem_of_lookup_2 in Hj.
Qed.

Lemma tc_taken_spec c idx ts : tc_wf c -> gather (times c) idx = Some ts -> idx <> [] ->
  exists r, TimeColumn.taken c idx = Done r /\ times r = ts /\ timeline r = timeline c
    /\ is_sorted r = is_sorted c
    /\ (is_sorted c = times_sorted ts -> tc_wf r).
Proof.
  intros (Hs & Hf & Ht) Hg Hne. unfold TimeColumn.taken.
  destruct (take_array_spec (times c) idx ts) as (r & -> & Hr & _); [by rewrite prim_elems|done|].
  cbn [mbind outcome_bind]. rewrite Hr.
  eexists. split_and!; [done..|]. intros Hts. apply new_wf; [|done].
  apply Forall_forall. intros z Hz. rewrite Forall_forall in Hf. apply Hf. by eapply gather_elem.
Qed.

End TimeColumnOps.

Section TimeColumnProperties.

Import AbsoluteTimeRange TimeColumn.
Implicit Types c : TimeColumn.t.

Lemma tight_nonempty r l : tight r l ->
  TimeInt.as_i64 (rmin r) <= TimeInt.as_i64 (rmax r).
Proof. intros (Hmin & _ & Hf). rewrite Forall_forall in Hf. by apply Hf. Qed.

Lemma sorted_app_times l k : times_sorted (l ++ k) = true <->
  times_sorted l = true /\ times_sorted k = true /\ forall x y, x ∈ l -> y ∈ k -> x <= y.
Proof. rewrite !times_sorted_spec. apply sorted_app. Qed.

Lemma tc_concatenated_spec c d : tc_wf c -> tc_wf d -> timeline c = timeline d ->
  times c <> [] -> times d <> [] ->
  exists r, concatenated c d = Some r /\ tc_wf r /\ times r = times c ++ times d
    /\ timeline r = timeline c.
Proof.
  intros (Hs1 & Hf1 & Ht1) (Hs2 & Hf2 & Ht2) Htl Hc Hd. unfold concatenated.
  rewrite decide_True by done. eexists. split_and!; [done| |done|done].
  specialize (Ht1 Hc). specialize (Ht2 Hd).
  pose proof (tight_nonempty _ _ Ht1). pose proof (tight_nonempty _ _ Ht2).
  destruct Ht1 as (Hmin1 & Hmax1 & Hr1), Ht2 as (Hmin2 & Hmax2 & Hr2).
  rewrite Forall_forall in Hr1, Hr2.
  unfold tc_wf, tight. cbn [is_sorted times time_range union rmin rmax]. split_and!.
  - rewrite Hs1, Hs2. apply eq_true_iff_eq.
    rewrite !andb_true_iff, sorted_app_times, TimeInt.le_as_i64, Z.leb_le. split.
    + intros [[H1 H2] H3]. split_and!; [done|done|]. intros x y Hx Hy.
      specialize (Hr1 x Hx). specialize (Hr2 y Hy). lia.
    + intros (H1 & H2 & H3). split_and!; try done. by apply H3.
  - by apply Forall_app.
  - intros _. rewrite TimeInt.as_i64_min, TimeInt.as_i64_max. split_and!.
    + apply elem_of_app. destruct (Z.min_spec (TimeInt.as_i64 (rmin (time_range c)))
        (TimeInt.as_i64 (rmin (time_range d)))) as [[_ ->]|[_ ->]]; auto.
    + apply elem_of_app. destruct (Z.max_spec (TimeInt.as_i64 (rmax (time_range c)))
        (TimeInt.as_i64 (rmax (time_range d)))) as [[_ ->]|[_ ->]]; auto.
    + apply Forall_forall. intros z [Hz|Hz]%elem_of_app;
        [specialize (Hr1 z Hz)|specialize (Hr2 z Hz)]; lia.
Qed.

Lemma tc_shuffled_spec c swaps : tc_wf c -> swaps ≡ₚ seq 0 (num_rows c) ->
  exists r ts, shuffled c swaps = Done r /\ tc_wf r /\ times r = ts /\ timeline r = timeline c
    /\ pick (times c) swaps = Some ts /\ ts ≡ₚ times c.
Proof.
  intros (Hs & Hf & Ht) Hp. destruct (pick_permutation (times c) swaps Hp) as (ts & Hts & Hperm).
  assert (length swaps = length (times c)) as Hls by (by rewrite Hp, length_seq).
  unfold shuffled. rewrite (shuffle_vec_spec _ _ ts) by done. cbn [mbind outcome_bind].
  eexists _, ts. split_and!; try done. split_and!; cbn [is_sorted times time_range]; [done|by rewrite Hperm|].
  intros Hne. unfold tight. setoid_rewrite Hperm. apply Ht. intros Hn. apply Hne, length_zero_iff_nil.
  by rewrite Hperm, Hn.
Qed.

(** The successor of a time in a column: the least time strictly after it. *)
Definition is_next (l : list Z) (after z : Z) : Prop :=
  z ∈ l /\ after < z /\ forall w, w ∈ l -> after < w -> z <= w.
Definition is_prev (l : list Z) (before z : Z) : Prop :=
  z ∈ l /\ z < before /\ forall w, w ∈ l -> w < before -> w <= z.

Lemma partition_point_times p l i z : times_sorted l = true ->
  (forall x y, x <= y -> p y = true -> p x = true) ->
  l !! i = Some z -> (i < partition_point p l)%nat <-> p z = true.
Proof.
  intros Hs Hp. apply (partition_point_sorted Z.leb).
  - apply windows_all_sorted; [apply _|done].
  - intros x y Hxy. apply Hp. by apply Z.leb_le.
Qed.

Lemma sorted_times_lookup l i j x y : times_sorted l = true -> (i <= j)%nat ->
  l !! i = Some x -> l !! j = Some y -> x <= y.
Proof.
  intros Hs Hij Hx Hy. apply Z.leb_le. apply (sorted_lookup Z.leb l i j); try done.
  by apply windows_all_sorted; [apply _|].
Qed.

(** The two ways of finding a neighbour, on raw times. *)
Lemma next_sorted l a : times_sorted l = true ->
  match l !! partition_point (fun z => z <=? a) l with
  | Some z => is_next l a z
  | None => Forall (fun z => z <= a) l
  end.
Proof.
  intros Hs. pose proof (partition_point_times (fun z => z <=? a) l) as Hpp.
  set (i := partition_point _ _) in *.
  assert (forall j w, l !! j = Some w -> (j < i)%nat <-> w <= a) as Hpp'.
  { intros j w Hj. rewrite (Hpp j w Hs); [apply Z.leb_le|intros; lia|done]. }
  destruct (l !! i) as [z|] eqn:Ei.
  - pose proof (proj2 (Hpp' i z Ei)). split_and!; [by apply list_elem_of_lookup_2 in Ei|lia|].
    intros w (j & Hj)%list_elem_of_lookup_1 Hw. pose proof (proj1 (Hpp' j w Hj)).
    apply (sorted_times_lookup l i j); done || lia.
  - apply Forall_lookup. intros j w Hj. apply lookup_ge_None in Ei. apply lookup_lt_Some in Hj as Hl.
    apply (Hpp' j w Hj). lia.
Qed.

Lemma prev_sorted l a : times_sorted l = true ->
  let i := partition_point (fun z => z <? a) l in
  match (if (0 <? i)%nat then l !! (i - 1)%nat else None) with
  | Some z => is_prev l a z
  | None => Forall (fun z => a <= z) l
  end.
Proof.
  intros Hs i. pose proof (partition_point_times (fun z => z <? a) l) as Hpp. fold i in Hpp.
  assert (forall j w, l !! j = Some w -> (j < i)%nat <-> w < a) as Hpp'.
  { intros j w Hj. rewrite (Hpp j w Hs); [apply Z.ltb_lt|intros; lia|done]. }
  assert (i <= length l)%nat by apply partition_point_le.
  destruct (Nat.ltb_spec 0 i) as [Hi|Hi].
  - destruct (lookup_lt_is_Some_2 l (i - 1)) as [z Ei]; [lia|]. rewrite Ei.
    pose proof (proj1 (Hpp' _ z Ei) ltac:(lia)).
    split_and!; [by apply list_elem_of_lookup_2 in Ei|done|].
    intros w (j & Hj)%list_elem_of_lookup_1 Hw. pose proof (proj2 (Hpp' j w Hj) Hw).
    apply (sorted_times_lookup l j (i - 1)); done || lia.
  - apply Forall_lookup. intros j w Hj. pose proof (Hpp' j w Hj). lia.
Qed.

Lemma next_unsorted l a :
  match iter_min Z.leb (List.filter (fun z => a <? z) l) with
  | Some z => is_next l a z
  | None => Forall (fun z => z <= a) l
  end.
Proof.
  destruct (iter_min Z.leb _) as [z|] eqn:Em.
  - apply (iter_min_Some Z.leb) in Em as [Hz Hall].
    apply elem_of_filter_bool in Hz as [Hz Hlt]. split_and!; [done|lia|].
    intros w Hw Hwa. rewrite Forall_forall in Hall. apply Z.leb_le, Hall, elem_of_filter_bool.
    split; [done|lia].
  - apply iter_min_None in Em. apply Forall_forall. intros w Hw.
    destruct (Z.ltb_spec a w) as [Hlt|]; [|done].
    assert (w ∈ []) as []%not_elem_of_nil. rewrite <- Em. apply elem_of_filter_bool. split; [done|lia].
Qed.

Lemma prev_unsorted l a :
  match iter_max Z.leb (List.filter (fun z => z <? a) l) with
  | Some z => is_prev l a z
  | None => Forall (fun z => a <= z) l
  end.
Proof.
  destruct (iter_max Z.leb _) as [z|] eqn:Em.
  - apply (iter_max_Some Z.leb) in Em as [Hz Hall].
    apply elem_of_filter_bool in Hz as [Hz Hlt]. split_and!; [done|lia|].
    intros w Hw Hwa. rewrite Forall_forall in Hall. apply Z.leb_le, Hall, elem_of_filter_bool.
    split; [done|lia].
  - apply iter_max_None in Em. apply Forall_forall. intros w Hw.
    destruct (Z.ltb_spec w a) as [Hlt|]; [|done].
    assert (w ∈ []) as []%not_elem_of_nil. rewrite <- Em. apply elem_of_filter_bool. split; [done|lia].
Qed.

Lemma find_times c t :
  tc_wf c ->
  match find_next_time c t with
  | Some n => is_next (times c) (TimeInt.as_i64 t) (TimeInt.as_i64 n)
  | None => Forall (fun z => z <= TimeInt.as_i64 t) (times c)
  end /\
  match find_prev_time c t with
  | Some p => is_prev (times c) (TimeInt.as_i64 t) (TimeInt.as_i64 p)
  | None => Forall (fun z => TimeInt.as_i64 t <= z) (times c)
  end.
Proof.
  intros (Hs & Hf & _). rewrite Forall_forall in Hf.
  assert (forall (o : option Z) (P : Z -> Prop) (Q : Prop), (forall z, P z -> z ∈ times c) ->
    match o with Some z => P z | None => Q end ->
    match TimeInt.new_temporal <$> o with Some n => P (TimeInt.as_i64 n) | None => Q end) as Hlift.
  { intros [z|] P Q HP; simpl; [|done]. intros Hz. by rewrite as_i64_temporal by auto. }
  assert (forall z, is_next (times c) (TimeInt.as_i64 t) z -> z ∈ times c) as Hn by by intros z [].
  assert (forall z, is_prev (times c) (TimeInt.as_i64 t) z -> z ∈ times c) as Hp by by intros z [].
  unfold find_next_time, find_prev_time.
  destruct (is_sorted c); (split; [apply (Hlift _ (is_next _ _) _ Hn)|]).
  - by apply next_sorted.
  - pose proof (prev_sorted (times c) (TimeInt.as_i64 t) (eq_sym Hs)) as Hps. cbv zeta in Hps.
    destruct (0 <? _)%nat; [by apply (Hlift _ (is_prev _ _) _ Hp)|done].
  - apply next_unsorted.
  - apply (Hlift _ (is_prev _ _) _ Hp), prev_unsorted.
Qed.

(** Navigation within a column, on sorted and unsorted columns alike: [find_next_time] is
    the least time strictly after the given one and [find_prev_time] the greatest strictly
    before it; they are [None] exactly when there is none. *)
Lemma find_next_prev_time_spec c t :
  tc_wf c ->
  match find_next_time c t with
  | Some n => is_next (times c) (TimeInt.as_i64 t) (TimeInt.as_i64 n)
  | None => Forall (fun z => z <= TimeInt.as_i64 t) (times c)
  end /\
  match find_prev_time c t with
  | Some p => is_prev (times c) (TimeInt.as_i64 t) (TimeInt.as_i64 p)
  | None => Forall (fun z => TimeInt.as_i64 t <= z) (times c)
  end.
Proof. apply find_times. Qed.

End TimeColumnProperties.

Section TimeRangePerComponent.

Import AbsoluteTimeRange TimeColumn.
Context `{ArrowLaws}.
Implicit Types c : TimeColumn.t.

Lemma null_count_0 v : null_count v = 0%nat -> v = replicate (length v) true.
Proof. unfold null_count. induction v as [|[] v IH]; simpl; [done| |done]. intros Hn. by rewrite <- IH. Qed.

Lemma mask_full {A} v (l : list A) : length v = length l -> null_count v = 0%nat -> mask v l = l.
Proof. intros Hl Hn. rewrite (null_count_0 v Hn), Hl. apply mask_all. Qed.

Lemma Forall_mask {A} (P : A -> Prop) m l : Forall P l -> Forall P (mask m l).
Proof.
  rewrite !Forall_forall. intros HP x (i & _ & Hx)%elem_of_mask.
  apply HP. by apply list_elem_of_lookup_2 in Hx.
Qed.

Lemma time_range_per_component_lookup c components k column :
  tc_wf c -> num_rows c <> 0%nat -> components !! k = Some column ->
  list_len (ChunkComponents.list_array column) = num_rows c ->
  exists r, time_range_per_component c components !! k = Some r
    /\ let valid := mask (validity (ChunkComponents.list_array column)) (times c) in
       (valid <> [] -> tight r valid) /\ (valid = [] -> r = EMPTY).
Proof.
  intros (Hs & Hf & Ht) Hn Hk Hl. unfold time_range_per_component. rewrite lookup_omap, Hk. simpl.
  set (la := ChunkComponents.list_array column) in *. unfold num_rows in *.
  assert (times c <> []) as Hne by (intros E; by rewrite E in Hn).
  destruct (list_nulls la) as [v|] eqn:Ev.
  - pose proof (nulls_length la v Ev) as Hv.
    assert (validity la = v) as -> by (unfold validity; by rewrite Ev).
    rewrite bool_decide_false by (intros ->; simpl in Hv; congruence).
    case_bool_decide as Hnull.
    { eexists. split; [done|]. cbv zeta. rewrite mask_full by congruence. split; [auto|done]. }
    eexists. split; [done|]. cbv zeta. unfold valid_times. split; intros Hvalid.
    + assert (Forall temporal_i64 (mask v (times c))) by by apply Forall_mask.
      destruct (times_sorted (times c)) eqn:E.
      * destruct (head (mask v (times c))) as [x|] eqn:Hx; [|by destruct (mask v (times c))].
        destruct (last (mask v (times c))) as [y|] eqn:Hy; [|by apply last_None in Hy].
        apply range_of_sorted; try done. by apply sorted_mask_times.
      * destruct (iter_min Z.leb _) as [x|] eqn:Hx; [|by apply iter_min_None in Hx].
        destruct (iter_max Z.leb _) as [y|] eqn:Hy; [|by apply iter_max_None in Hy].
        by apply range_of_unsorted.
    + rewrite Hvalid. by destruct (times_sorted (times c)).
  - exists (time_range c). split; [done|]. cbv zeta.
    assert (validity la = replicate (length (times c)) true) as ->
      by (unfold validity; rewrite Ev; simpl; by rewrite Hl).
    rewrite mask_all. split; [auto|done].
Qed.

(** The range recorded for each component: the least and the greatest of the times at which
    the component has data, and an empty range when it has none. *)
Lemma time_range_per_component_spec c components k column :
  tc_wf c -> num_rows c <> 0%nat -> components !! k = Some column ->
  list_len (ChunkComponents.list_array column) = num_rows c ->
  exists r, time_range_per_component c components !! k = Some r
    /\ let valid := mask (validity (ChunkComponents.list_array column)) (times c) in
       (valid <> [] -> tight r valid) /\ (valid = [] -> r = AbsoluteTimeRange.EMPTY).
Proof. apply time_range_per_component_lookup. Qed.

End TimeRangePerComponent.

(** A column of three times, out of order. *)
Definition example_column : TimeColumn.t :=
  TimeColumn.new None {| tl_name := "frame"; tl_typ := Sequence |} [30; 10; 20].

Lemma example_column_wf : tc_wf example_column.
Proof. apply new_wf; [repeat constructor; unfold temporal_i64; int_lia|done]. Qed.

Lemma find_next_prev_time_spec_witness :
  is_next [30; 10; 20] 10 20.
Proof.
  exact (proj1 (find_next_prev_time_spec example_column (TimeInt.new_temporal 10) example_column_wf)).
Defined.
