(* ===== verification/Chunk.v ===== *)
(** * Chunks

    [dl_chunk/src/chunk.rs]: the store's unit of data, a table with a row id per row, a
    dense column per timeline and a sparse list-array column per component.

    [ChunkId::new()] reads the clock: the fresh id is an argument, [new_id].  Row ids are
    the list of the fixed-size binary array's values. *)

From stdpp Require Import strings.
From S2P Require Import Prelude Ints Tuid TimeInt TimeRange Arrow Column.

(** An entity path is its sequence of parts. *)
Abbreviation EntityPath := (list string) (only parsing).

(** [slice::binary_search] as the standard library implements it: [base] moves to the
    middle unless the middle is greater than the target, so among equal elements the last
    is found. [size] halves (rounding up), and the length is fuel enough. *)
Fixpoint bsearch_loop {A} (gt : A -> bool) (l : list A) (fuel base size : nat) : nat :=
  match fuel with
  | O => base
  | S fuel =>
      if (size <=? 1)%nat then base
      else
        let half := (size / 2)%nat in
        let mid := (base + half)%nat in
        let base := match l !! mid with
                    | Some x => if gt x then base else mid
                    | None => base end in
        bsearch_loop gt l fuel base (size - half)
  end.

(** [Ok(index)], or [None] for [Err]. *)
Definition binary_search {A} (gt eq : A -> bool) (l : list A) : option nat :=
  if (length l =? 0)%nat then None
  else
    let base := bsearch_loop gt l (length l) 0 (length l) in
    match l !! base with Some x => if eq x then Some base else None | None => None end.

Module Chunk.

(** [heap_size_bytes] is an atomic cache; zero stands for "not computed". *)
Record t `{ArrowOps} := Mk {
  id : ChunkId.t;
  entity_path : EntityPath;
  heap_size_bytes : Z;
  is_sorted : bool;
  row_ids : list RowId.t;
  timelines : gmap string TimeColumn.t;
  components : ChunkComponents.t;
}.

#[global] Arguments Mk {_} _ _ _ _ _ _ _.

(** [SizeBytes] adds up the sizes of the arrow buffers, which the arrow crate measures. *)
Class SizeBytes `{ArrowOps} := {
  heap_size_bytes_inner : t -> Z;
  stack_size_bytes : Z;
}.

(** [auto_row_ids]: [successors(Some(id.next()), |id| Some(id.next()))]. *)
Fixpoint successors (row_id : RowId.t) (count : nat) : list RowId.t :=
  match count with
  | O => []
  | S count => row_id :: successors (RowId.next row_id) count
  end.

Definition auto_row_ids (id : ChunkId.t) (count : nat) : list RowId.t :=
  successors (RowId.Wrap (ChunkId.as_tuid (ChunkId.next id))) count.

Section Accessors.

Context `{ArrowOps}.
Implicit Types self : t.

Definition num_rows self : nat := length (row_ids self).
Definition is_empty self : bool := bool_decide (num_rows self = 0%nat).
Definition num_columns self : nat := 1 + size (timelines self) + size (components self).
Definition is_static self : bool := bool_decide (timelines self = ∅).

Definition row_ids_le (a b : RowId.t) : bool := RowId.le a b.

(** [is_row_ids_sorted] is the cached flag. *)
Definition is_row_ids_sorted self : bool := is_sorted self.
Definition is_row_ids_sorted_uncached self : bool := windows_all RowId.le (row_ids self).

Definition all_timelines_sorted self : bool :=
  forallb (fun tc => TimeColumn.is_sorted tc) (map_to_list (timelines self)).*2.

Definition is_timeline_sorted self (timeline : TimelineName) : bool :=
  is_static self
  || match timelines self !! timeline with Some tc => TimeColumn.is_sorted tc | None => false end.

Definition unsorted_timelines self : list TimelineName :=
  omap (fun '(name, tc) => if TimeColumn.is_sorted tc then None else Some name)
    (map_to_list (timelines self)).

Definition row_index_of self (row_id : RowId.t) : option nat :=
  if is_row_ids_sorted self
  then binary_search (fun r => RowId.lt row_id r) (fun r => bool_decide (r = row_id)) (row_ids self)
  else fst <$> list_find (fun r => r = row_id) (row_ids self).

Definition component_row_ids self (component : ComponentIdentifier) : list RowId.t :=
  match ChunkComponents.get_array (components self) component with
  | None => []
  | Some list_array =>
      match list_nulls list_array with
      | Some validity => mask validity (row_ids self)
      | None => row_ids self
      end
  end.

Definition row_id_range self : option (RowId.t * RowId.t) :=
  if is_empty self then None
  else if is_row_ids_sorted self then
    match head (row_ids self), last (row_ids self) with
    | Some a, Some b => Some (a, b) | _, _ => None end
  else
    match iter_min RowId.le (row_ids self), iter_max RowId.le (row_ids self) with
    | Some a, Some b => Some (a, b) | _, _ => None end.

(** [slice.rs]. *)
Definition cell self (row_id : RowId.t) (component : ComponentIdentifier) : option Array :=
  list_array ← ChunkComponents.get_array (components self) component;
  index ←
    (if is_row_ids_sorted self
     then binary_search (fun r => RowId.lt row_id r) (fun r => bool_decide (r = row_id)) (row_ids self)
     else fst <$> list_find (fun r => r = row_id) (row_ids self));
  if is_valid list_array index then Some (list_value list_array index) else None.

Definition time_range_per_component self : gmap string (gmap string AbsoluteTimeRange.t) :=
  (fun tc => TimeColumn.time_range_per_component tc (components self)) <$> timelines self.

(** [validity.len() as u64 - validity.null_count() as u64], or the length. *)
Definition num_events (l : ListArray) : Z :=
  match list_nulls l with
  | None => Z.of_nat (list_len l)
  | Some validity => Z.of_nat (length validity) - Z.of_nat (null_count validity)
  end.

Definition num_events_cumulative self : Z :=
  foldr Z.add 0 (num_events <$> ChunkComponents.list_arrays (components self)).

Definition num_events_for_component self (component : ComponentIdentifier) : option Z :=
  num_events <$> ChunkComponents.get_array (components self) component.

End Accessors.

(** ** Copies *)

Section Copies.

Context `{ArrowOps}.
Implicit Types self : t.

Definition with_id self (new_id : ChunkId.t) : t :=
  Mk new_id (entity_path self) (heap_size_bytes self) (is_sorted self) (row_ids self)
    (timelines self) (components self).

Definition clone_with_id self (new_id : ChunkId.t) : t :=
  Mk new_id (entity_path self) (heap_size_bytes self) (is_sorted self) (row_ids self)
    (timelines self) (components self).

Definition clone_with_same_id self : t := clone_with_id self (id self).

Definition clone_with_new_entity_path (new_id : ChunkId.t) self (path : EntityPath) : t :=
  let chunk := clone_with_id self new_id in
  Mk (id chunk) path (heap_size_bytes chunk) (is_sorted chunk) (row_ids chunk)
    (timelines chunk) (components chunk).

Definition reset_cached_heap_size_bytes self : t :=
  Mk (id self) (entity_path self) 0 (is_sorted self) (row_ids self) (timelines self)
    (components self).

(** The flag [is_sorted] is copied, not recomputed. *)
Definition clone_as self (new_id : ChunkId.t) (first_row_id : RowId.t) : t :=
  let chunk := clone_with_id self new_id in
  reset_cached_heap_size_bytes
    (Mk (id chunk) (entity_path chunk) (heap_size_bytes chunk) (is_sorted chunk)
       (successors first_row_id (length (row_ids self))) (timelines chunk) (components chunk)).

Definition into_static self : t :=
  reset_cached_heap_size_bytes
    (Mk (id self) (entity_path self) (heap_size_bytes self) (is_sorted self) (row_ids self)
       ∅ (components self)).

Definition zeroed (new_id : ChunkId.t) self : t :=
  reset_cached_heap_size_bytes
    (Mk new_id (entity_path self) (heap_size_bytes self) (is_sorted self)
       (replicate (length (row_ids self)) RowId.ZERO) (timelines self) (components self)).

(** [f] is the caller's closure. *)
Definition with_mapped_component {E} (new_id : ChunkId.t) self (source : ComponentIdentifier)
    (target : option ComponentDescriptor) (f : ListArray -> result ListArray E) : result t E :=
  let finish new_components :=
    Mk new_id (entity_path self) 0 true (auto_row_ids new_id (num_rows self)) (timelines self)
      new_components in
  match components self !! source with
  | None => Ok (finish (components self))
  | Some old_entry =>
      match f (ChunkComponents.list_array old_entry) with
      | Err e => Err e
      | Ok list_array =>
          Ok (finish (ChunkComponents.insert (base.delete source (components self))
            {| ChunkComponents.descriptor := default (ChunkComponents.descriptor old_entry) target;
               ChunkComponents.list_array := list_array |}))
      end
  end.

Definition with_shadowed_component {E} (new_id : ChunkId.t) self
    (source target : ComponentIdentifier) (f : ListArray -> result ListArray E) : result t E :=
  let new_chunk := clone_with_id self new_id in
  match components new_chunk !! source with
  | None => Ok new_chunk
  | Some old_entry =>
      match f (ChunkComponents.list_array old_entry) with
      | Err e => Err e
      | Ok list_array =>
          Ok (Mk (id new_chunk) (entity_path new_chunk) (heap_size_bytes new_chunk)
            (is_sorted new_chunk) (row_ids new_chunk) (timelines new_chunk)
            (ChunkComponents.insert (base.delete source (components new_chunk))
              {| ChunkComponents.descriptor :=
                   {| cd_archetype := None; cd_component := target; cd_component_type := None |};
                 ChunkComponents.list_array := list_array |}))
      end
  end.

Definition empty (new_id : ChunkId.t) (path : EntityPath) : t :=
  Mk new_id path 0 true [] ∅ ∅.

End Copies.

(** ** Event counts per time *)

Section Events.

Context `{Build} `{ArrowOps}.
Implicit Types self : t.

Definition bit (b : bool) : Z := if b then 1 else 0.

(** One list array's contribution to each row's count. *)
Definition add_counts (counts_raw : list Z) (list_array : ListArray) : list Z :=
  match list_nulls list_array with
  | Some validity => zip_with (fun count is_valid => count + bit is_valid) counts_raw validity
  | None => (fun count => count + 1) <$> counts_raw
  end.

(** The run-length accumulation of the sorted version. *)
Fixpoint accumulate (rows : list (TimeInt.t * Z)) (cur_time : TimeInt.t) (cur_count : Z)
    (counts : list (TimeInt.t * Z)) : TimeInt.t * Z * list (TimeInt.t * Z) :=
  match rows with
  | [] => (cur_time, cur_count, counts)
  | (time, count) :: rows =>
      if decide (time = cur_time) then accumulate rows cur_time (cur_count + count) counts
      else accumulate rows time count (counts ++ [(cur_time, cur_count)])
  end.

Definition num_events_cumulative_per_unique_time_sorted self (time_column : TimeColumn.t)
    : list (TimeInt.t * Z) :=
  let counts_raw :=
    foldl add_counts (replicate (num_rows self) 0)
      (ChunkComponents.list_arrays (components self)) in
  match TimeColumn.times_int time_column with
  | [] => []
  | cur_time :: _ =>
      let '(cur_time, cur_count, counts) :=
        accumulate (zip (TimeColumn.times_int time_column) counts_raw) cur_time 0 [] in
      if decide (fst <$> last counts = Some cur_time) then counts
      else counts ++ [(cur_time, cur_count)]
  end.

(** [*acc.entry(time).or_default() += n]. *)
Definition bump (acc : gmap TimeInt.t Z) (time : TimeInt.t) (n : Z) : gmap TimeInt.t Z :=
  <[time := default 0 (acc !! time) + n]> acc.

Definition num_events_cumulative_per_unique_time_unsorted self (time_column : TimeColumn.t)
    : list (TimeInt.t * Z) :=
  let result_unordered :=
    foldl (fun acc list_array =>
      match list_nulls list_array with
      | Some validity =>
          foldl (fun acc '(time, is_valid) => bump acc time (bit is_valid)) acc
            (zip (TimeColumn.times_int time_column) validity)
      | None => foldl (fun acc time => bump acc time 1) acc (TimeColumn.times_int time_column)
      end) ∅ (ChunkComponents.list_arrays (components self)) in
  sort_by (fun a b => TimeInt.le (fst a) (fst b)) (map_to_list result_unordered).

Definition num_events_cumulative_per_unique_time self (timeline : TimelineName)
    : outcome (list (TimeInt.t * Z)) :=
  if is_static self then Done [(TimeInt.STATIC, num_events_cumulative self)]
  else
    match timelines self !! timeline with
    | None => Done []
    | Some time_column =>
        let time_range := TimeColumn.time_range time_column in
        if decide (AbsoluteTimeRange.rmin time_range = AbsoluteTimeRange.rmax time_range)
        then Done [(AbsoluteTimeRange.rmin time_range, num_events_cumulative self)]
        else
          let counts :=
            if TimeColumn.is_sorted time_column
            then num_events_cumulative_per_unique_time_sorted self time_column
            else num_events_cumulative_per_unique_time_unsorted self time_column in
          _ ← debug_assert (windows_all (fun a b => TimeInt.lt (fst a) (fst b)) counts);
          Done counts
    end.

(** The row ids at which a component has data, with [is_valid] read row by row; the two
    loops of each branch. *)
Definition row_id_range_per_component self : gmap string (RowId.t * RowId.t) :=
  let rows := imap pair (row_ids self) in
  omap (fun column =>
    let valid i := is_valid (ChunkComponents.list_array column) i in
    let '(row_id_min, row_id_max) :=
      if is_row_ids_sorted self then
        (foldl (fun m '(i, row_id) => if valid i then Some row_id else m) None rows,
         foldl (fun m '(i, row_id) => if valid i then Some row_id else m) None (rev rows))
      else
        (foldl (fun m '(i, row_id) =>
            if valid i && from_option (fun m => RowId.lt m row_id) true m then Some row_id else m)
           (Some RowId.MAX) rows,
         foldl (fun m '(i, row_id) =>
            if valid i && from_option (fun m => RowId.lt row_id m) false m then Some row_id else m)
           (Some RowId.ZERO) (rev rows)) in
    match row_id_min, row_id_max with
    | Some a, Some b => Some (a, b)
    | _, _ => None
    end) (components self).

End Events.

(** ** Sanity checks and constructors *)

Section Constructors.

Context `{Build} `{ArrowOps} `{!SizeBytes}.
Implicit Types self : t.

(** Logs in the default configuration, panics under [DALARAN_VERY_STRICT]. *)
Definition warn_if_out_of_order self : outcome () :=
  if negb (is_row_ids_sorted self) && very_strict then Panic
  else if negb (bool_decide (unsorted_timelines self = [])) && very_strict then Panic
  else Done ().

Fixpoint check_timelines (num_rows : nat) (timelines : list (TimelineName * TimeColumn.t))
    : result () ChunkError :=
  match timelines with
  | [] => Ok ()
  | (_, time_column) :: timelines =>
      if negb (length (TimeColumn.times time_column) =? num_rows)%nat
      then Err (Malformed TimelineLength)
      else match TimeColumn.sanity_check time_column with
           | Err e => Err e
           | Ok () => check_timelines num_rows timelines
           end
  end.

Fixpoint check_components (num_rows : nat)
    (components : list (ComponentIdentifier * ChunkComponents.column)) : result () ChunkError :=
  match components with
  | [] => Ok ()
  | (component, column) :: components =>
      let list_array := ChunkComponents.list_array column in
      if negb (bool_decide (cd_component (ChunkComponents.descriptor column) = component))
      then Err (Malformed DescriptorMismatch)
      else if negb (list_len list_array =? num_rows)%nat then Err (Malformed ComponentLength)
      else
        let validity_is_empty :=
          match list_nulls list_array with Some v => (length v =? 0)%nat | None => false end in
        if negb (num_rows =? 0)%nat && validity_is_empty then Err (Malformed EmptyColumn)
        else check_components num_rows components
  end.

(** The data types of the row ids and of the list arrays hold by the model's types. *)
Definition sanity_check self : outcome (result () ChunkError) :=
  _ ← warn_if_out_of_order self;
  if debug_assertions && negb (heap_size_bytes self =? 0)
     && negb (heap_size_bytes self =? heap_size_bytes_inner self)
  then Done (Err (Malformed HeapSizeMismatch))
  else if debug_assertions && negb (Bool.eqb (is_sorted self) (is_row_ids_sorted_uncached self))
  then Done (Err (Malformed RowIdSortedness))
  else
    match check_timelines (num_rows self) (map_to_list (timelines self)) with
    | Err e => Done (Err e)
    | Ok () => Done (check_components (num_rows self) (map_to_list (components self)))
    end.

(** [#\[cfg(debug_assertions)\] chunk.sanity_check().unwrap()]. *)
Definition debug_sanity_check self : outcome () :=
  if debug_assertions then
    r ← sanity_check self;
    match r with Ok () => Done () | Err _ => Panic end
  else Done ().

Definition new (id : ChunkId.t) (entity_path : EntityPath) (is_sorted : option bool)
    (row_ids : list RowId.t) (timelines : gmap string TimeColumn.t)
    (components : ChunkComponents.t) : outcome (result t ChunkError) :=
  let chunk := Mk id entity_path 0 false row_ids timelines components in
  let is_sorted := default (is_row_ids_sorted_uncached chunk) is_sorted in
  let chunk := Mk id entity_path 0 is_sorted row_ids timelines components in
  r ← sanity_check chunk;
  match r with Ok () => Done (Ok chunk) | Err e => Done (Err e) end.

Definition new_static (id : ChunkId.t) (entity_path : EntityPath) (is_sorted : option bool)
    (row_ids : list RowId.t) (components : ChunkComponents.t) : outcome (result t ChunkError) :=
  new id entity_path is_sorted row_ids ∅ components.

(** The result is the modified chunk and what [sanity_check] returned. *)
Definition add_component (new_id : ChunkId.t) self (component_column : ChunkComponents.column)
    : outcome (t * result () ChunkError) :=
  let self := reset_cached_heap_size_bytes
    (Mk new_id (entity_path self) (heap_size_bytes self) (is_sorted self) (row_ids self)
       (timelines self) (ChunkComponents.insert (components self) component_column)) in
  r ← sanity_check self;
  Done (self, r).

Definition add_timeline (new_id : ChunkId.t) self (chunk_timeline : TimeColumn.t)
    : outcome (t * result () ChunkError) :=
  let self := reset_cached_heap_size_bytes
    (Mk new_id (entity_path self) (heap_size_bytes self) (is_sorted self) (row_ids self)
       (<[tl_name (TimeColumn.timeline chunk_timeline) := chunk_timeline]> (timelines self))
       (components self)) in
  r ← sanity_check self;
  Done (self, r).

(** [heap_size_bytes()] computes the size once and caches it. *)
Definition heap_size_bytes_cached self : Z * t :=
  if heap_size_bytes self =? 0
  then let size := heap_size_bytes_inner self in
       (size, Mk (id self) (entity_path self) size (is_sorted self) (row_ids self)
                (timelines self) (components self))
  else (heap_size_bytes self, self).

(** The chunk after its size was asked for: the size is stored in the chunk. *)
Definition measured self : t := snd (heap_size_bytes_cached self).

End Constructors.

End Chunk.

(** ** Chunks as sequences of rows

    A row is a row id, a time on every timeline, and the cells that are not null. *)

Section Rows.

Context `{ArrowOps}.

Record Row := { row_id : RowId.t; row_times : gmap string Z; row_cells : gmap string Array }.

Definition cell_at (column : ChunkComponents.column) (i : nat) : option Array :=
  mjoin (elems (ChunkComponents.list_array column) !! i).

Definition row_at (c : Chunk.t) (i : nat) (id : RowId.t) : Row := {|
  row_id := id;
  row_times := omap (fun tc => TimeColumn.times tc !! i) (Chunk.timelines c);
  row_cells := omap (fun column => cell_at column i) (Chunk.components c);
|}.

Definition rows (c : Chunk.t) : list Row := imap (row_at c) (Chunk.row_ids c).

Lemma lookup_rows c i : rows c !! i = row_at c i <$> Chunk.row_ids c !! i.
Proof. unfold rows. apply list_lookup_imap. Qed.

Lemma length_rows c : length (rows c) = Chunk.num_rows c.
Proof. apply length_imap. Qed.

(** The invariant of chunks: truthful flag, columns of the right length, column keys. *)
Definition columns_wf (c : Chunk.t) : Prop :=
  map_Forall (fun _ tc => TimeColumn.num_rows tc = Chunk.num_rows c /\ tc_wf tc) (Chunk.timelines c)
  /\ map_Forall (fun k column => cd_component (ChunkComponents.descriptor column) = k
       /\ list_len (ChunkComponents.list_array column) = Chunk.num_rows c) (Chunk.components c).

Definition chunk_wf (c : Chunk.t) : Prop :=
  Chunk.is_sorted c = Chunk.is_row_ids_sorted_uncached c /\ columns_wf c.

Lemma chunk_wf_keyed c : chunk_wf c -> ChunkComponents.keyed (Chunk.components c).
Proof. intros (_ & _ & Hc) k column Hk. by apply Hc. Qed.

(** [c'] has the rows of [c] at the positions [js]: every column does. *)
Definition columns_pick (c c' : Chunk.t) (js : list nat) : Prop :=
  pick (Chunk.row_ids c) js = Some (Chunk.row_ids c')
  /\ (forall k, match Chunk.timelines c !! k, Chunk.timelines c' !! k with
      | Some tc, Some tc' => pick (TimeColumn.times tc) js = Some (TimeColumn.times tc')
      | None, None => True | _, _ => False end)
  /\ (forall k, match Chunk.components c !! k, Chunk.components c' !! k with
      | Some col, Some col' =>
          pick (elems (ChunkComponents.list_array col)) js
            = Some (elems (ChunkComponents.list_array col'))
      | None, None => True | _, _ => False end).

Lemma rows_pick c c' js : columns_pick c c' js -> pick (rows c) js = Some (rows c').
Proof.
  intros (Hr & Ht & Hc). apply pick_intro.
  { rewrite length_rows. by apply pick_length in Hr. }
  intros i j Hi. rewrite !lookup_rows, (pick_lookup _ _ _ _ _ Hr Hi).
  destruct (Chunk.row_ids c !! j) as [id|]; [|done]. simpl. f_equal. unfold row_at. f_equal.
  - apply map_eq. intros k. rewrite !lookup_omap. specialize (Ht k).
    destruct (Chunk.timelines c !! k), (Chunk.timelines c' !! k); try done.
    simpl. by rewrite (pick_lookup _ _ _ _ _ Ht Hi).
  - apply map_eq. intros k. rewrite !lookup_omap. specialize (Hc k).
    destruct (Chunk.components c !! k), (Chunk.components c' !! k); try done.
    simpl. unfold cell_at. by rewrite (pick_lookup _ _ _ _ _ Hc Hi).
Qed.

Lemma rows_pick_eq c c' js rs : columns_pick c c' js -> pick (rows c) js = Some rs -> rows c' = rs.
Proof. intros Hc%rows_pick Hrs. congruence. Qed.

End Rows.

(** ** Facts about chunks *)

Section RowIdFacts.

Implicit Types l : list RowId.t.

#[export] Instance rowid_le_preorder : TotalPreorder RowId.le.
Proof. split; intros *; rewrite !RowId.le_key, !Z.leb_le; lia. Qed.

Lemma row_ids_sorted l i j a b : windows_all RowId.le l = true -> (i <= j)%nat ->
  l !! i = Some a -> l !! j = Some b -> RowId.key a <= RowId.key b.
Proof.
  intros Hs%windows_all_sorted Hij Ha Hb; [|apply _].
  apply Z.leb_le. rewrite <- RowId.le_key. by apply (sorted_lookup RowId.le l i j).
Qed.

End RowIdFacts.

Section BinarySearch.

Context {A : Type} (key : A -> Z) (target : Z).
Implicit Types l : list A.

Let gt x := target <? key x.
Let eq x := key x =? target.

Lemma bsearch_loop_spec l fuel base size :
  (forall i j x y, (i <= j)%nat -> l !! i = Some x -> l !! j = Some y -> key x <= key y) ->
  (size <= fuel)%nat -> (1 <= size)%nat -> (base + size <= length l)%nat ->
  (forall i x, (base + size <= i)%nat -> l !! i = Some x -> gt x = true) ->
  let r := bsearch_loop gt l fuel base size in
  (base <= r < base + size)%nat
  /\ (forall i x, (r < i)%nat -> l !! i = Some x -> gt x = true)
  /\ (base < r -> forall x, l !! r = Some x -> gt x = false)%nat.
Proof.
  intros Hs. revert base size. induction fuel as [|fuel IH]; intros base size Hf H1 Hb Hgt; [lia|].
  cbn [bsearch_loop]. destruct (Nat.leb_spec size 1).
  { split_and!; [lia|lia| |lia]. intros i x Hi. apply Hgt. lia. }
  cbv zeta. pose proof (Nat.div_mod_eq size 2). pose proof (Nat.mod_upper_bound size 2 ltac:(lia)).
  set (half := (size / 2)%nat) in *. set (mid := (base + half)%nat).
  destruct (lookup_lt_is_Some_2 l mid) as [m Hm]; [subst mid; lia|]. rewrite Hm.
  destruct (gt m) eqn:E.
  - destruct (IH base (size - half)%nat) as (? & ? & ?); [lia|lia|lia| |split_and!; done || lia].
    intros i x Hi Hx. assert (mid <= i)%nat as Hmi by (subst mid; lia).
    pose proof (Hs mid i m x Hmi Hm Hx). subst gt. simpl in *. lia.
  - destruct (IH mid (size - half)%nat) as (Hr1 & Hr2 & Hr3); [lia|lia|subst mid; lia| |].
    { intros i x Hi. apply Hgt. subst mid. lia. }
    split_and!; [subst mid; lia|subst mid; lia|done|].
    intros _ x Hx. destruct (decide (mid < bsearch_loop gt l fuel mid (size - half))%nat); [by apply Hr3|].
    assert (bsearch_loop gt l fuel mid (size - half) = mid) as Heq by lia. rewrite Heq in Hx. congruence.
Qed.

(** On a sorted slice, binary search finds the target if and only if it is there. *)
Lemma binary_search_spec l :
  (forall i j x y, (i <= j)%nat -> l !! i = Some x -> l !! j = Some y -> key x <= key y) ->
  match binary_search gt eq l with
  | Some i => exists x, l !! i = Some x /\ key x = target
  | None => Forall (fun x => key x <> target) l
  end.
Proof.
  intros Hs. unfold binary_search. destruct (Nat.eqb_spec (length l) 0) as [Hn|Hn].
  { destruct l; [constructor|done]. }
  destruct (bsearch_loop_spec l (length l) 0 (length l)) as (Hr1 & Hr2 & Hr3); [done|lia|lia|lia| |].
  { intros i x Hi Hx. apply lookup_lt_Some in Hx. lia. }
  set (r := bsearch_loop _ _ _ _ _) in *.
  destruct (lookup_lt_is_Some_2 l r) as [x Hx]; [lia|]. rewrite Hx.
  destruct (eq x) eqn:E; subst eq gt; simpl in *; [exists x; split; [done|lia]|].
  apply Forall_lookup. intros i y Hy Heq.
  destruct (Nat.lt_trichotomy r i) as [Hi|[->|Hi]]; [|simplify_eq; lia|].
  - specialize (Hr2 i y Hi Hy). lia.
  - specialize (Hr3 ltac:(lia) x Hx). pose proof (Hs i r y x ltac:(lia) Hy Hx). lia.
Qed.

End BinarySearch.

Section SanityCheck.

Import Chunk.
Context `{Build} `{ArrowLaws} `{!SizeBytes}.
Implicit Types c : t.

(** The element types the code's own types guarantee: the times are [i64]s. *)
Definition typed (c : t) : Prop :=
  map_Forall (fun _ tc => Forall is_i64 (TimeColumn.times tc)) (timelines c).

Lemma check_timelines_spec n tls :
  check_timelines n tls = Ok () <->
  Forall (fun '(_, tc) => TimeColumn.num_rows tc = n /\ TimeColumn.sanity_check tc = Ok ()) tls.
Proof.
  induction tls as [|[k tc] tls IH]; [split; [constructor|done]|].
  cbn [check_timelines]. rewrite Forall_cons, <- IH. unfold TimeColumn.num_rows.
  destruct (Nat.eqb_spec (length (TimeColumn.times tc)) n); cbn [negb]; [|naive_solver].
  destruct (TimeColumn.sanity_check tc) as [[]|]; naive_solver.
Qed.

(** Asking for the size of a chunk stores it in the chunk; nothing else changes. *)
Lemma measured_cases (P : t -> t -> Prop) :
  (forall c, P c c) -> (forall c size, P c (Mk (id c) (entity_path c) size (is_sorted c) (row_ids c) (timelines c) (components c))) ->
  forall c, P c (measured c).
Proof. intros Hsame Hsize c. unfold measured, heap_size_bytes_cached. destruct (heap_size_bytes c =? 0); simpl; [apply Hsize|apply Hsame]. Qed.

Lemma measured_id c : id (measured c) = id c.
Proof. by apply (measured_cases (fun c c' => id c' = id c)). Qed.
Lemma measured_entity_path c : entity_path (measured c) = entity_path c.
Proof. by apply (measured_cases (fun c c' => entity_path c' = entity_path c)). Qed.
Lemma measured_is_sorted c : is_sorted (measured c) = is_sorted c.
Proof. by apply (measured_cases (fun c c' => is_sorted c' = is_sorted c)). Qed.
Lemma measured_row_ids c : row_ids (measured c) = row_ids c.
Proof. by apply (measured_cases (fun c c' => row_ids c' = row_ids c)). Qed.
Lemma measured_timelines c : timelines (measured c) = timelines c.
Proof. by apply (measured_cases (fun c c' => timelines c' = timelines c)). Qed.
Lemma measured_components c : components (measured c) = components c.
Proof. by apply (measured_cases (fun c c' => components c' = components c)). Qed.
Lemma measured_rows c : rows (measured c) = rows c.
Proof. by apply (measured_cases (fun c c' => rows c' = rows c)). Qed.
Lemma measured_num_rows c : num_rows (measured c) = num_rows c.
Proof. by apply (measured_cases (fun c c' => num_rows c' = num_rows c)). Qed.
Lemma measured_is_static c : is_static (measured c) = is_static c.
Proof. by apply (measured_cases (fun c c' => is_static c' = is_static c)). Qed.
Lemma measured_wf c : chunk_wf (measured c) <-> chunk_wf c.
Proof. by apply (measured_cases (fun c c' => chunk_wf c' <-> chunk_wf c)). Qed.

(** Asking again changes nothing. *)
Lemma measured_again c : heap_size_bytes_cached (measured c) = heap_size_bytes_cached c \/
  heap_size_bytes c = 0 /\ heap_size_bytes_cached (measured c) = (heap_size_bytes_inner c, measured c).
Proof.
  destruct c as [i p h s r tl co]. unfold measured, heap_size_bytes_cached. cbn [heap_size_bytes].
  destruct (Z.eqb_spec h 0) as [->|Hh]; cbn [snd heap_size_bytes]; [|left; by destruct (Z.eqb_spec h 0)].
  destruct (Z.eqb_spec (heap_size_bytes_inner (Mk i p 0 s r tl co)) 0) as [E|E]; [|by right].
  left. cbn in E |- *. by rewrite !E.
Qed.

Lemma measured_measured c : measured (measured c) = measured c.
Proof. unfold measured at 1. by destruct (measured_again c) as [->|[_ ->]]. Qed.

Lemma measured_size c : fst (heap_size_bytes_cached (measured c)) = fst (heap_size_bytes_cached c).
Proof.
  destruct (measured_again c) as [->|[Hh ->]]; [done|]. unfold heap_size_bytes_cached. by rewrite Hh.
Qed.

(** The last test of the loop, on the length of the validity bitmap, never fails when the
    test before it has passed: the bitmap is as long as the column. *)
Lemma check_components_spec n comps :
  check_components n comps = Ok () <->
  Forall (fun '(k, col) => cd_component (ChunkComponents.descriptor col) = k
    /\ list_len (ChunkComponents.list_array col) = n) comps.
Proof.
  induction comps as [|[k col] comps IH]; [split; [constructor|done]|].
  cbn [check_components]. rewrite Forall_cons, <- IH.
  case_bool_decide; cbn [negb]; [|naive_solver].
  destruct (Nat.eqb_spec (list_len (ChunkComponents.list_array col)) n) as [Hl|]; cbn [negb]; [|naive_solver].
  destruct (list_nulls (ChunkComponents.list_array col)) as [v|] eqn:E.
  - apply nulls_length in E. rewrite E, Hl. destruct (Nat.eqb_spec n 0); simpl; naive_solver.
  - rewrite andb_false_r. naive_solver.
Qed.

Lemma check_components_empty_column n comps :
  check_components n comps <> Err (Malformed EmptyColumn).
Proof.
  induction comps as [|[k col] comps IH]; [done|]. cbn [check_components].
  case_bool_decide; cbn [negb]; [|done].
  destruct (Nat.eqb_spec (list_len (ChunkComponents.list_array col)) n) as [Hl|]; cbn [negb]; [|done].
  destruct (list_nulls (ChunkComponents.list_array col)) as [v|] eqn:E; [|by rewrite andb_false_r].
  apply nulls_length in E. rewrite E, Hl. by destruct (Nat.eqb_spec n 0).
Qed.

Lemma map_to_list_Forall {A} (P : string -> A -> Prop) (m : gmap string A) :
  Forall (fun '(k, x) => P k x) (map_to_list m) <-> map_Forall P m.
Proof.
  rewrite Forall_forall. split.
  - intros HP k x Hk. by apply (HP (k, x)), elem_of_map_to_list.
  - intros HP [k x] Hk%elem_of_map_to_list. by apply HP.
Qed.

Lemma warn_not_strict c : very_strict = false -> warn_if_out_of_order c = Done ().
Proof. intros Hv. unfold warn_if_out_of_order. by rewrite Hv, !andb_false_r. Qed.

(** The cached size is absent or right. *)
Definition heap_cache_ok (c : t) : Prop :=
  heap_size_bytes c = 0 \/ heap_size_bytes c = heap_size_bytes_inner c.

Lemma sanity_check_empty_column c : sanity_check c <> Done (Err (Malformed EmptyColumn)).
Proof.
  unfold sanity_check. destruct (warn_if_out_of_order c) as [[]|]; [|done]. cbn [mbind outcome_bind].
  do 2 (case_match; [done|]).
  assert (Ht : forall n l, check_timelines n l <> Err (Malformed EmptyColumn)).
  { intros n. induction l as [|[k tc] l IH]; [done|]. cbn [check_timelines]. case_match; [done|].
    destruct (TimeColumn.sanity_check tc) as [[]|e] eqn:E; [done|]. unfold TimeColumn.sanity_check in E.
    assert (Hc : forall r times, TimeColumn.check_times r times <> Err (Malformed EmptyColumn)).
    { intros r times. induction times as [|z times IHt]; [done|]. simpl. repeat case_match; done. }
    intros [= ->]. repeat case_match; congruence. }
  destruct (check_timelines _ _) as [[]|e] eqn:E.
  - intros [= Hc]. by apply check_components_empty_column in Hc.
  - intros [= ->]. by apply Ht in E.
Qed.

Lemma heap_check c : (heap_size_bytes c =? 0) || (heap_size_bytes c =? heap_size_bytes_inner c) = true
  <-> heap_cache_ok c.
Proof. unfold heap_cache_ok. rewrite orb_true_iff, !Z.eqb_eq. done. Qed.

Lemma sanity_check_debug c :
  debug_assertions = true -> very_strict = false -> typed c ->
  exists r, sanity_check c = Done r /\ (r = Ok () <-> chunk_wf c /\ heap_cache_ok c).
Proof.
  intros Hd Hv Hty. unfold sanity_check. rewrite warn_not_strict by done.
  cbn [mbind outcome_bind]. rewrite Hd. cbn [andb]. rewrite <- negb_orb.
  pose proof (heap_check c) as Hheap.
  destruct ((heap_size_bytes c =? 0) || _) eqn:Eh; cbn [negb].
  2: { eexists. split; [done|]. naive_solver. }
  assert (heap_cache_ok c) as Hok by (by apply Hheap). clear Hheap.
  destruct (Bool.eqb (is_sorted c) _) eqn:Es; cbn [negb].
  2:{ apply eqb_false_iff in Es. eexists. split; [done|]. unfold chunk_wf. naive_solver. }
  apply eqb_prop in Es.
  assert (check_timelines (num_rows c) (map_to_list (timelines c)) = Ok () <->
    map_Forall (fun _ tc => TimeColumn.num_rows tc = num_rows c /\ tc_wf tc) (timelines c)) as Ht.
  { rewrite check_timelines_spec, <- map_to_list_Forall. unfold typed in Hty.
    rewrite <- map_to_list_Forall in Hty. rewrite !Forall_forall in *.
    split; intros HF [k tc] Hk; specialize (HF _ Hk); specialize (Hty _ Hk); simpl in *;
      pose proof (tc_sanity_check tc Hd Hty); naive_solver. }
  assert (chunk_wf c <-> check_timelines (num_rows c) (map_to_list (timelines c)) = Ok ()
    /\ check_components (num_rows c) (map_to_list (components c)) = Ok ()) as Hiff.
  { unfold chunk_wf, columns_wf. rewrite <- Ht, check_components_spec, map_to_list_Forall. naive_solver. }
  revert Hiff. destruct (check_timelines _ _) as [[]|]; intros Hiff; eexists; (split; [done|]);
    rewrite Hiff; intuition congruence.
Qed.

Lemma sanity_check_release c :
  debug_assertions = false -> very_strict = false ->
  exists r, sanity_check c = Done r /\ (r = Ok () <->
    map_Forall (fun _ tc => TimeColumn.num_rows tc = num_rows c) (timelines c)
    /\ map_Forall (fun k col => cd_component (ChunkComponents.descriptor col) = k
         /\ list_len (ChunkComponents.list_array col) = num_rows c) (components c)).
Proof.
  intros Hd Hv. unfold sanity_check. rewrite warn_not_strict by done.
  cbn [mbind outcome_bind]. rewrite Hd. cbn [andb].
  assert (check_timelines (num_rows c) (map_to_list (timelines c)) = Ok () <->
    map_Forall (fun _ tc => TimeColumn.num_rows tc = num_rows c) (timelines c)) as Ht.
  { rewrite check_timelines_spec, <- map_to_list_Forall, !Forall_forall.
    split; intros HF [k tc] Hk; specialize (HF _ Hk); simpl in *; [naive_solver|].
    split; [done|]. by apply tc_sanity_check_release. }
  pose proof (check_components_spec (num_rows c) (map_to_list (components c))) as Hc.
  rewrite map_to_list_Forall in Hc. revert Ht.
  destruct (check_timelines _ _) as [[]|]; intros Ht; eexists; (split; [done|]);
    rewrite <- Ht, <- Hc; intuition congruence.
Qed.

(** A well-formed chunk passes the check in any build, so [sanity_check().unwrap()] in
    debug builds does not panic on it. *)
Lemma debug_sanity_check_wf c : very_strict = false -> typed c -> heap_cache_ok c ->
  chunk_wf c -> debug_sanity_check c = Done ().
Proof.
  intros Hv Hty Hh Hwf. unfold debug_sanity_check. destruct debug_assertions eqn:Hd; [|done].
  destruct (sanity_check_debug c Hd Hv Hty) as (r & -> & Hr).
  cbn [mbind outcome_bind]. by rewrite (proj2 Hr (conj Hwf Hh)).
Qed.

(** C39. [sanity_check] never panics in the default configuration ([very_strict] off), on any
    chunk whose times are [i64]s.  A debug build accepts exactly the well-formed chunks whose
    cached size is unset or right; well-formed is: a truthful sortedness flag, every column as
    long as the row ids, truthful and tight time columns without static times, components keyed
    by their descriptors.  A release build checks the lengths and the keys only.  No build
    refuses a column of nulls, although the message of the last error says that there must be
    a non-null entry: the test is that the validity bitmap has length 0, which a column as
    long as the row ids of a chunk with rows never has. *)
Theorem sanity_check_spec c :
  very_strict = false -> typed c ->
  exists r, sanity_check c = Done r
    /\ (debug_assertions = true -> r = Ok () <-> chunk_wf c /\ heap_cache_ok c)
    /\ (debug_assertions = false -> r = Ok () <->
        map_Forall (fun _ tc => TimeColumn.num_rows tc = num_rows c) (timelines c)
        /\ map_Forall (fun k col => cd_component (ChunkComponents.descriptor col) = k
             /\ list_len (ChunkComponents.list_array col) = num_rows c) (components c))
    /\ r <> Err (Malformed EmptyColumn).
Proof.
  intros Hv Hty.
  enough (exists r, sanity_check c = Done r
    /\ (debug_assertions = true -> r = Ok () <-> chunk_wf c /\ heap_cache_ok c)
    /\ (debug_assertions = false -> r = Ok () <->
        map_Forall (fun _ tc => TimeColumn.num_rows tc = num_rows c) (timelines c)
        /\ map_Forall (fun k col => cd_component (ChunkComponents.descriptor col) = k
             /\ list_len (ChunkComponents.list_array col) = num_rows c) (components c)))
    as (r & Hr & Hd & Hrel).
  { exists r. split_and!; try done. intros ->. by apply sanity_check_empty_column in Hr. }
  destruct debug_assertions eqn:Hd.
  - destruct (sanity_check_debug c) as (r & Hr & Hw); [done..|]. exists r. done.
  - destruct (sanity_check_release c) as (r & Hr & Hw); [done..|]. exists r. done.
Qed.

Lemma wf_typed c : chunk_wf c -> typed c.
Proof.
  intros (_ & Ht & _) k tc Hk. destruct (Ht k tc Hk) as (_ & _ & Hf & _).
  eapply Forall_impl; [exact Hf|]. intros z Hz. unfold temporal_i64 in Hz. int_lia.
Qed.

End SanityCheck.

Section Lookups.

Import Chunk.
Context `{ArrowLaws}.
Implicit Types c : t.

Lemma row_index_of_spec c rid : is_sorted c = is_row_ids_sorted_uncached c ->
  match row_index_of c rid with
  | Some i => row_ids c !! i = Some rid
  | None => rid ∉ row_ids c
  end.
Proof.
  intros Hs. unfold row_index_of. destruct (is_row_ids_sorted c) eqn:E.
  - unfold is_row_ids_sorted in E. rewrite E in Hs. symmetry in Hs.
    pose proof (binary_search_spec RowId.key (RowId.key rid) (row_ids c)
      (fun i j x y => row_ids_sorted _ i j x y Hs)) as Hb.
    assert (binary_search (fun r => RowId.lt rid r) (fun r => bool_decide (r = rid)) (row_ids c)
      = binary_search (fun x => RowId.key rid <? RowId.key x) (fun x => RowId.key x =? RowId.key rid)
          (row_ids c)) as ->.
    { unfold binary_search. destruct (length (row_ids c) =? 0)%nat; [done|].
      assert (forall fuel base size,
        bsearch_loop (fun r => RowId.lt rid r) (row_ids c) fuel base size
        = bsearch_loop (fun x => RowId.key rid <? RowId.key x) (row_ids c) fuel base size) as ->.
      { induction fuel as [|fuel IH]; intros base sz; simpl; [done|].
        destruct (sz <=? 1)%nat; [done|]. rewrite IH. f_equal.
        destruct (_ !! _); [|done]. by rewrite RowId.lt_key. }
      destruct (_ !! _) as [x|]; [|done].
      assert (bool_decide (x = rid) = (RowId.key x =? RowId.key rid)) as ->; [|done].
      case_bool_decide as Hx; [subst; by rewrite Z.eqb_refl|].
      symmetry. apply Z.eqb_neq. by intros ?%RowId.key_inj. }
    destruct (binary_search _ _ _) as [i|].
    + destruct Hb as (x & Hi & Hk%RowId.key_inj). by subst.
    + intros Hin. rewrite Forall_forall in Hb. by apply (Hb rid).
  - destruct (list_find _ _) as [[i x]|] eqn:Ef; simpl.
    + apply list_find_Some in Ef. naive_solver.
    + apply list_find_None in Ef. rewrite Forall_forall in Ef. intros Hin. by apply (Ef rid).
Qed.

(** Looking a cell up by row id, by binary search on sorted chunks and by a scan on others:
    the result is the cell of a row with that id, and nothing when there is no such row or its
    cell is null. *)
Lemma cell_spec c rid component column :
  chunk_wf c -> components c !! component = Some column ->
  match row_index_of c rid with
  | Some i => row_ids c !! i = Some rid /\ cell c rid component = cell_at column i
  | None => rid ∉ row_ids c /\ cell c rid component = None
  end.
Proof.
  intros (Hs & _ & Hc) Hk. pose proof (row_index_of_spec c rid Hs) as Hi.
  assert (cell c rid component = (row_index_of c rid ≫= fun index =>
    if is_valid (ChunkComponents.list_array column) index
    then Some (list_value (ChunkComponents.list_array column) index) else None)) as ->.
  { unfold cell, ChunkComponents.get_array. by rewrite Hk. }
  destruct (row_index_of c rid) as [i|]; simpl; [|done]. split; [done|].
  destruct (Hc _ _ Hk) as [_ Hl]. apply lookup_lt_Some in Hi.
  unfold cell_at. rewrite elems_lookup by (rewrite Hl; done). done.
Qed.

Lemma foldl_last {A B} (p : A -> bool) (f : A -> B) l acc :
  foldl (fun m x => if p x then Some (f x) else m) acc l
    = match last (List.filter p l) with Some x => Some (f x) | None => acc end.
Proof.
  revert acc. induction l as [|x l IH]; intros acc; [done|]. simpl. rewrite IH. destruct (p x); [|done].
  destruct (List.filter p l) as [|y k] eqn:E; [done|]. change (last (x :: y :: k)) with (last (y :: k)).
  destruct (last (y :: k)) eqn:El; [done|]. by apply last_None in El.
Qed.

Lemma foldl_keep {A B} (step : B -> A -> B) l acc : (forall x, x ∈ l -> step acc x = acc) -> foldl step acc l = acc.
Proof.
  induction l as [|x l IH]; intros Hs; [done|]. simpl. rewrite Hs by left. apply IH. intros; apply Hs; by right.
Qed.

Lemma filter_rev_last {A} (p : A -> bool) l : last (List.filter p (rev l)) = head (List.filter p l).
Proof.
  induction l as [|x l IH]; [done|]. simpl. rewrite List.filter_app. simpl. destruct (p x).
  - by rewrite last_snoc.
  - by rewrite app_nil_r, IH.
Qed.

(** The rows with the component, in the chunk's order. *)
Definition valid_rows c (column : ChunkComponents.column) : list (nat * RowId.t) :=
  List.filter (fun '(i, _) => is_valid (ChunkComponents.list_array column) i) (imap pair (row_ids c)).

(** [row_id_range_per_component] has its bounds the wrong way round: on a chunk marked as
    sorted, what it calls the minimum is the row id of the last row with the component and the
    maximum that of the first; on an unsorted chunk they are [RowId::MAX] and [RowId::ZERO]
    whatever the rows are. *)
Lemma row_id_range_per_component_swapped c component column :
  components c !! component = Some column ->
  row_id_range_per_component c !! component =
    if is_sorted c then
      match snd <$> last (valid_rows c column), snd <$> head (valid_rows c column) with
      | Some row_id_min, Some row_id_max => Some (row_id_min, row_id_max)
      | _, _ => None
      end
    else Some (RowId.MAX, RowId.ZERO).
Proof.
  intros Hk. unfold row_id_range_per_component. rewrite lookup_omap, Hk. cbn [mbind option_bind].
  unfold is_row_ids_sorted, valid_rows. destruct (is_sorted c).
  - set (p := fun '(i, _) => is_valid (ChunkComponents.list_array column) i).
    assert (forall l acc, foldl (fun m '(i, row_id) =>
      if is_valid (ChunkComponents.list_array column) i then Some row_id else m) acc l
      = foldl (fun m x => if p x then Some (snd x) else m) acc l) as Hfold.
    { induction l as [|[i r] l IH]; intros acc; [done|]. apply IH. }
    rewrite !Hfold, !foldl_last, filter_rev_last.
    destruct (last (List.filter p _)) as [[]|], (head (List.filter p _)) as [[]|]; done.
  - rewrite !foldl_keep; [done|..]; intros [i r] _; simpl.
    + destruct (RowId.lt r RowId.ZERO) eqn:E; [|by rewrite andb_false_r].
      rewrite RowId.lt_key in E. pose proof (RowId.key_range r).
      assert (RowId.key RowId.ZERO = 0) by (by vm_compute). lia.
    + destruct (RowId.lt RowId.MAX r) eqn:E; [|by rewrite andb_false_r].
      rewrite RowId.lt_key in E. pose proof (RowId.key_range r).
      assert (RowId.key RowId.MAX = u128_max) by (by vm_compute). lia.
Qed.

(** The row-id range of a chunk: absent exactly on empty chunks, and otherwise the least
    and the greatest row id, from the ends of a sorted chunk or a scan of an unsorted one. *)
Lemma row_id_range_some c : num_rows c <> 0%nat -> is_Some (row_id_range c).
Proof.
  intros Hn. unfold row_id_range, is_empty. rewrite bool_decide_false by done.
  unfold num_rows in Hn. destruct (row_ids c) as [|r l]; [done|].
  destruct (is_row_ids_sorted c); [rewrite last_cons; simpl; by destruct (last l)|].
  destruct (iter_min RowId.le (r :: l)) eqn:E1; [|by apply iter_min_None in E1].
  destruct (iter_max RowId.le (r :: l)) eqn:E2; [done|by apply iter_max_None in E2].
Qed.

Lemma row_id_range_spec c : is_sorted c = is_row_ids_sorted_uncached c ->
  match row_id_range c with
  | Some (a, b) => a ∈ row_ids c /\ b ∈ row_ids c
      /\ Forall (fun r => RowId.key a <= RowId.key r <= RowId.key b) (row_ids c)
  | None => row_ids c = []
  end.
Proof.
  intros Hs. unfold row_id_range, is_empty, num_rows. case_bool_decide as Hn.
  { by apply nil_length_inv. }
  destruct (row_ids c) as [|r0 l] eqn:El; [done|]. rewrite <- El in *.
  destruct (is_row_ids_sorted c) eqn:E.
  - unfold is_row_ids_sorted in E. rewrite E in Hs. symmetry in Hs.
    rewrite head_lookup, last_lookup.
    destruct (lookup_lt_is_Some_2 (row_ids c) 0) as [a Ha]; [lia|].
    destruct (lookup_lt_is_Some_2 (row_ids c) (pred (length (row_ids c)))) as [b Hb]; [lia|].
    rewrite Ha, Hb. split_and!; [by apply list_elem_of_lookup_2 in Ha|by apply list_elem_of_lookup_2 in Hb|].
    apply Forall_lookup. intros i r Hr. apply lookup_lt_Some in Hr as Hi.
    split; [apply (row_ids_sorted (row_ids c) 0 i)|apply (row_ids_sorted (row_ids c) i (pred (length (row_ids c))))];
      done || lia.
  - destruct (iter_min RowId.le (row_ids c)) as [a|] eqn:Ha; [|apply iter_min_None in Ha; congruence].
    destruct (iter_max RowId.le (row_ids c)) as [b|] eqn:Hb; [|apply iter_max_None in Hb; congruence].
    apply (iter_min_Some RowId.le) in Ha as [? Ha]. apply (iter_max_Some RowId.le) in Hb as [? Hb].
    split_and!; [done|done|]. rewrite Forall_forall in *. intros r Hr.
    specialize (Ha r Hr). specialize (Hb r Hr). rewrite RowId.le_key in Ha, Hb. lia.
Qed.

End Lookups.
