(* ===== verification/ChunkSlice.v ===== *)
(** * Slicing, filtering and splitting chunks

    [dl_chunk/src/slice.rs] and [split.rs].  Each operation is proved against the list
    operation it performs on the chunk's rows. *)

From stdpp Require Import strings.
From S2P Require Import Prelude Ints Tuid TimeInt TimeRange Arrow Column Chunk.

Module ChunkSlice.

Import Chunk.

Section Operations.

Context `{Build} `{ArrowOps} `{!SizeBytes}.
Implicit Types self : t.

(** [SerializedComponentColumn::new(list_array, column.descriptor.clone())]. *)
Definition with_array (column : ChunkComponents.column) (list_array : ListArray)
    : ChunkComponents.column :=
  {| ChunkComponents.list_array := list_array;
     ChunkComponents.descriptor := ChunkComponents.descriptor column |}.

(** [chunk.is_sorted = is_sorted || chunk.is_row_ids_sorted_uncached()]. *)
Definition update_sorted self (is_sorted : bool) : t :=
  Mk (id self) (entity_path self) (heap_size_bytes self)
    (is_sorted || is_row_ids_sorted_uncached self) (row_ids self) (timelines self)
    (components self).

Definition emptied (new_id : ChunkId.t) self : t :=
  Mk new_id (entity_path self) 0 true []
    (TimeColumn.emptied <$> timelines self)
    (ChunkComponents.map_values
       (fun column => with_array column
          (list_new_null (list_field (ChunkComponents.list_array column)) 0))
       (components self)).

Definition row_sliced_impl (new_id : ChunkId.t) self (index len : nat) (deep : bool) : t :=
  if (num_rows self <=? index)%nat then emptied new_id self
  else
    let end_offset := Nat.min (index + len) (num_rows self) in
    let len := (end_offset - index)%nat in
    if bool_decide (len = 0%nat) then emptied new_id self
    else
      let is_sorted := is_sorted self || (len <? 2)%nat in
      let chunk :=
        Mk new_id (entity_path self) 0 is_sorted
          (if deep then deep_slice_array (row_ids self) index len
           else slice (row_ids self) index len)
          ((fun tc => TimeColumn.row_sliced tc index len) <$> timelines self)
          (ChunkComponents.map_values
             (fun column => with_array column
                (if deep then deep_slice_array (ChunkComponents.list_array column) index len
                 else slice (ChunkComponents.list_array column) index len))
             (components self)) in
      update_sorted chunk is_sorted.

Definition row_sliced_shallow (new_id : ChunkId.t) self (index len : nat) : t :=
  row_sliced_impl new_id self index len false.

Definition row_sliced_deep (new_id : ChunkId.t) self (index len : nat) : t :=
  row_sliced_impl new_id self index len true.

(** [debug_sanity_check] and return. *)
Definition checked (chunk : t) : outcome t :=
  _ ← debug_sanity_check chunk;
  Done chunk.

Definition timeline_sliced (new_id : ChunkId.t) self (timeline : TimelineName) : outcome t :=
  checked (Mk new_id (entity_path self) 0 (is_sorted self) (row_ids self)
    (match timelines self !! timeline with
     | Some time_column => {[ timeline := time_column ]} | None => ∅ end)
    (components self)).

Definition components_sliced (new_id : ChunkId.t) self
    (components_to_keep : list ComponentIdentifier) : outcome t :=
  checked (Mk new_id (entity_path self) 0 (is_sorted self) (row_ids self) (timelines self)
    (ChunkComponents.from_iter
       (omap (fun c => (fun column => with_array column (ChunkComponents.list_array column))
                         <$> components self !! c) components_to_keep))).

Definition component_sliced (new_id : ChunkId.t) self (component : ComponentIdentifier) : outcome t :=
  components_sliced new_id self [component].

Definition components_dropped (new_id : ChunkId.t) self
    (components_to_drop : list ComponentIdentifier) : outcome t :=
  if negb (existsb (fun id => bool_decide (id ∈ components_to_drop)) (map_to_list (components self)).*1)
  then Done (clone_with_same_id self)
  else
    checked (Mk new_id (entity_path self) 0 (is_sorted self) (row_ids self) (timelines self)
      (ChunkComponents.from_iter
         (omap (fun '(id, column) =>
             if bool_decide (id ∈ components_to_drop) then None
             else Some (with_array column (ChunkComponents.list_array column)))
           (map_to_list (components self))))).

Definition timelines_sliced (new_id : ChunkId.t) self (timelines_to_keep : gset string) : outcome t :=
  checked (Mk new_id (entity_path self) 0 (is_sorted self) (row_ids self)
    (filter (fun '(timeline, _) => timeline ∈ timelines_to_keep) (timelines self))
    (components self)).

(** A kernel applied to every column. *)
Definition map_columns self (f_rows : list RowId.t -> outcome (list RowId.t))
    (f_time : TimeColumn.t -> outcome TimeColumn.t)
    (f_comp : ChunkComponents.column -> outcome ListArray) (new_id : ChunkId.t) (is_sorted : bool)
    : outcome t :=
  row_ids ← f_rows (row_ids self);
  timelines ← collect_map f_time (timelines self);
  components ← ChunkComponents.collect_values
    (fun column => l ← f_comp column; Done (with_array column l)) (components self);
  Done (Mk new_id (entity_path self) 0 is_sorted row_ids timelines components).

(** The flag of the result says whether the data was reallocated. *)
Definition densified (new_id : ChunkId.t) self (component_pov : ComponentIdentifier)
    : outcome (t * bool) :=
  if is_empty self then Done (clone_with_same_id self, false)
  else
    match ChunkComponents.get_array (components self) component_pov with
    | None => Done (clone_with_same_id self, false)
    | Some component_list_array =>
        match list_nulls component_list_array with
        | None => Done (clone_with_same_id self, false)
        | Some mask =>
            let is_sorted := is_sorted self || (TimeColumn.count_true mask <? 2)%nat in
            chunk ← map_columns self
              (fun row_ids => filter_array row_ids mask)
              (fun tc => TimeColumn.filtered tc mask)
              (fun column =>
                 filtered ← filter_array (ChunkComponents.list_array column) mask;
                 if decide (cd_component (ChunkComponents.descriptor column) = component_pov)
                 then list_new (list_field filtered) (list_offsets filtered)
                        (list_values filtered) None
                 else Done filtered)
              new_id is_sorted;
            chunk ← checked (update_sorted chunk is_sorted);
            Done (chunk, true)
        end
    end.

Definition components_removed (new_id : ChunkId.t) self : t :=
  Mk new_id (entity_path self) 0 (is_sorted self) (row_ids self) (timelines self) ∅.

(** [Itertools::dedup_with_count]. *)
Fixpoint dedup_with_count (l : list Z) : list (nat * Z) :=
  match l with
  | [] => []
  | x :: l =>
      match dedup_with_count l with
      | (count, y) :: runs => if x =? y then (S count, y) :: runs else (1%nat, x) :: (count, y) :: runs
      | [] => [(1%nat, x)]
      end
  end.

(** The last index of each run. *)
Fixpoint run_ends (i : nat) (runs : list (nat * Z)) : list Z :=
  match runs with
  | [] => []
  | (count, _) :: runs => let i := (i + count)%nat in Z.of_nat (i - 1) :: run_ends i runs
  end.

Definition deduped_latest_on_index (new_id : ChunkId.t) self (index : TimelineName) : outcome t :=
  if is_empty self then Done (clone_with_same_id self)
  else if is_static self then Done (row_sliced_shallow new_id self (num_rows self - 1) 1)
  else
    match timelines self !! index with
    | None => Done (clone_with_same_id self)
    | Some time_column =>
        let indices := run_ends 0 (dedup_with_count (TimeColumn.times time_column)) in
        chunk ← map_columns self
          (fun row_ids => take_array row_ids indices)
          (fun tc => TimeColumn.taken tc indices)
          (fun column => take_array (ChunkComponents.list_array column) indices)
          new_id (is_sorted self);
        checked chunk
    end.

Definition filtered (new_id : ChunkId.t) self (filter : list bool) : outcome (option t) :=
  if negb (length filter =? num_rows self)%nat then Done None
  else if is_empty self then Done (Some (clone_with_same_id self))
  else
    let num_filtered := TimeColumn.count_true filter in
    if (num_filtered =? 0)%nat then Done (Some (emptied new_id self))
    else
      let is_sorted := is_sorted self || (num_filtered <? 2)%nat in
      chunk ← map_columns self
        (fun row_ids => filter_array row_ids filter)
        (fun tc => TimeColumn.filtered tc filter)
        (fun column => filter_array (ChunkComponents.list_array column) filter)
        new_id is_sorted;
      Some <$> checked (update_sorted chunk is_sorted).

Definition taken (new_id : ChunkId.t) self (indices : list Z) : outcome t :=
  if is_empty self then Done (clone_with_same_id self)
  else if (length indices =? 0)%nat then Done (emptied new_id self)
  else
    let is_sorted := is_sorted self || (length indices <? 2)%nat in
    chunk ← map_columns self
      (fun row_ids => take_array row_ids indices)
      (fun tc => TimeColumn.taken tc indices)
      (fun column => take_array (ChunkComponents.list_array column) indices)
      new_id is_sorted;
    checked (update_sorted chunk is_sorted).

End Operations.

End ChunkSlice.

(** ** The columns of the results *)

Section Columns.

Import Chunk ChunkSlice.
Context `{Build} `{ArrowLaws} `{!SizeBytes}.
Implicit Types c : t.

(** The parts of a chunk that selecting rows does not touch. *)
Definition same_shape (c c' : t) : Prop :=
  entity_path c' = entity_path c
  /\ (forall k, TimeColumn.timeline <$> timelines c' !! k = TimeColumn.timeline <$> timelines c !! k)
  /\ (forall k, ChunkComponents.descriptor <$> components c' !! k
       = ChunkComponents.descriptor <$> components c !! k).

(** A well-formed chunk with the rows of [c] in some order. *)
Definition reshuffled c c' : Prop := chunk_wf c' /\ same_shape c c' /\ rows c' ≡ₚ rows c.

(** Shuffling keeps the cached size, and a debug build compares it with a new measure
    ([sanity_check]).  The check cannot fail on a [sturdy] chunk: its size is not cached yet, or
    it is right and reordering the rows does not change it.  In a release build every chunk is
    sturdy. *)
Definition sturdy c : Prop := debug_assertions = true ->
  heap_size_bytes c = 0
  \/ (heap_size_bytes c = heap_size_bytes_inner c
      /\ forall c', reshuffled c c' -> heap_size_bytes_inner c' = heap_size_bytes_inner c).

Lemma same_shape_trans c1 c2 c3 : same_shape c1 c2 -> same_shape c2 c3 -> same_shape c1 c3.
Proof. intros (? & Ht1 & Hc1) (? & Ht2 & Hc2). split_and!; [congruence|..]; intros k; by rewrite ?Ht2, ?Hc2. Qed.

Lemma unmeasured_sturdy c : heap_size_bytes c = 0 -> sturdy c.
Proof. intros Hh _. by left. Qed.

Lemma release_sturdy c : debug_assertions = false -> sturdy c.
Proof. intros Hr Hd. congruence. Qed.

Lemma sturdy_truthful c : sturdy c -> debug_assertions = true -> heap_cache_ok c.
Proof. intros Hs Hd. destruct (Hs Hd) as [?|[? _]]; [by left|by right]. Qed.

Lemma sturdy_reshuffled c c' : sturdy c -> reshuffled c c' ->
  heap_size_bytes c' = heap_size_bytes c -> sturdy c'.
Proof.
  intros Hs Hc Hh Hd. destruct (Hs Hd) as [Hz|[Hm Hall]]; [left; congruence|right].
  rewrite (Hall c' Hc). split; [congruence|]. intros c2 (Hw & Hsh & Hr).
  destruct Hc as (_ & Hsh' & Hr'). apply Hall. split_and!; [done|by eapply same_shape_trans|by rewrite Hr].
Qed.

Lemma columns_pick_lengths c c' js : columns_pick c c' js ->
  (forall k tc', timelines c' !! k = Some tc' -> TimeColumn.num_rows tc' = num_rows c')
  /\ (forall k col', components c' !! k = Some col' ->
        list_len (ChunkComponents.list_array col') = num_rows c').
Proof.
  intros (Hr & Ht & Hc). split.
  - intros k tc' Hk. specialize (Ht k). rewrite Hk in Ht.
    destruct (timelines c !! k) as [tc|]; [|done].
    apply pick_length in Ht, Hr. unfold TimeColumn.num_rows, num_rows. congruence.
  - intros k col' Hk. specialize (Hc k). rewrite Hk in Hc.
    destruct (components c !! k) as [col|]; [|done].
    apply pick_length in Hc, Hr. rewrite <- length_elems. unfold num_rows. congruence.
Qed.

Lemma map_columns_spec (W : TimeColumn.t -> Prop)
    (Q : ChunkComponents.column -> ListArray -> Prop) c f_rows f_time f_comp new_id srt js r :
  ChunkComponents.keyed (components c) ->
  f_rows (row_ids c) = Done r -> pick (row_ids c) js = Some r ->
  (forall k tc, timelines c !! k = Some tc -> exists tc', f_time tc = Done tc' /\ W tc'
     /\ pick (TimeColumn.times tc) js = Some (TimeColumn.times tc')
     /\ TimeColumn.timeline tc' = TimeColumn.timeline tc) ->
  (forall k col, components c !! k = Some col -> exists l, f_comp col = Done l
     /\ pick (elems (ChunkComponents.list_array col)) js = Some (elems l) /\ Q col l) ->
  exists c', map_columns c f_rows f_time f_comp new_id srt = Done c'
    /\ columns_pick c c' js /\ same_shape c c' /\ ChunkComponents.keyed (components c')
    /\ map_Forall (fun _ tc' => W tc') (timelines c')
    /\ (forall k col col', components c !! k = Some col -> components c' !! k = Some col' ->
         Q col (ChunkComponents.list_array col'))
    /\ is_sorted c' = srt /\ id c' = new_id /\ heap_size_bytes c' = 0.
Proof.
  intros Hk Hr1 Hr2 Ht Hc. unfold map_columns. rewrite Hr1. cbn [mbind outcome_bind].
  destruct (collect_map_spec f_time (timelines c) (fun tc tc' => W tc'
     /\ pick (TimeColumn.times tc) js = Some (TimeColumn.times tc')
     /\ TimeColumn.timeline tc' = TimeColumn.timeline tc)) as (tls & -> & Htls).
  { intros k tc Htc. destruct (Ht k tc Htc) as (tc' & ? & ? & ? & ?). by exists tc'. }
  cbn [mbind outcome_bind].
  destruct (ChunkComponents.collect_values_spec
    (fun column => l ← f_comp column; Done (with_array column l)) (components c)
    (fun col col' => pick (elems (ChunkComponents.list_array col)) js
       = Some (elems (ChunkComponents.list_array col')) /\ Q col (ChunkComponents.list_array col')) Hk)
    as (comps & -> & Hkc & Hcomps).
  { intros k col Hcol. destruct (Hc k col Hcol) as (l & -> & Hp & HQ). by eexists. }
  cbn [mbind outcome_bind]. eexists. split; [done|]. unfold columns_pick, same_shape.
  split_and!; cbn [row_ids timelines components is_sorted id heap_size_bytes entity_path]; try done.
  - intros k. specialize (Htls k). destruct (timelines c !! k), (tls !! k); try done. apply Htls.
  - intros k. specialize (Hcomps k). destruct (components c !! k), (comps !! k); try done. apply Hcomps.
  - intros k. specialize (Htls k). destruct (timelines c !! k), (tls !! k); try done.
    simpl. f_equal. apply Htls.
  - intros k. specialize (Hcomps k). destruct (components c !! k), (comps !! k); try done.
    simpl. f_equal. apply Hcomps.
  - intros k tc' Htc'. specialize (Htls k). rewrite Htc' in Htls.
    destruct (timelines c !! k); [|done]. apply Htls.
  - intros k col col' Hcol Hcol'. specialize (Hcomps k). rewrite Hcol, Hcol' in Hcomps. apply Hcomps.
Qed.

(** A chunk built column by column is well formed, and passes the debug check. *)
Lemma picked_wf c c' js : columns_pick c c' js -> ChunkComponents.keyed (components c') ->
  map_Forall (fun _ tc' => tc_wf tc') (timelines c') ->
  is_sorted c' = is_row_ids_sorted_uncached c' -> chunk_wf c'.
Proof.
  intros Hp Hk Ht Hs. destruct (columns_pick_lengths c c' js Hp) as [Hlt Hlc].
  split; [done|]. split.
  - intros k tc' Htc'. split; [by eapply Hlt|by eapply Ht].
  - intros k col' Hcol'. split; [by eapply Hk|by eapply Hlc].
Qed.

Lemma sturdy_checked c : very_strict = false -> sturdy c -> chunk_wf c -> checked c = Done c.
Proof.
  intros Hv Hs Hwf. unfold checked, debug_sanity_check. destruct debug_assertions eqn:Hd; [|done].
  destruct (sanity_check_debug c Hd Hv (wf_typed c Hwf)) as (r & -> & Hr). cbn [mbind outcome_bind].
  rewrite (proj2 Hr); [done|]. split; [done|by apply sturdy_truthful].
Qed.

Lemma checked_wf c : very_strict = false -> heap_size_bytes c = 0 -> chunk_wf c -> checked c = Done c.
Proof. intros. apply sturdy_checked; [done|by apply unmeasured_sturdy|done]. Qed.

Lemma update_sorted_flag c srt : (srt = true -> is_row_ids_sorted_uncached c = true) ->
  is_sorted (update_sorted c srt) = is_row_ids_sorted_uncached (update_sorted c srt).
Proof.
  intros Hs. unfold update_sorted. simpl.
  change (is_row_ids_sorted_uncached (Mk _ _ _ _ (row_ids c) _ _)) with (is_row_ids_sorted_uncached c).
  destruct srt; [by rewrite Hs|done].
Qed.

Lemma columns_pick_update c c' js srt : columns_pick c c' js -> columns_pick c (update_sorted c' srt) js.
Proof. done. Qed.

(** Positions in increasing order keep sorted row ids sorted; fewer than two are sorted. *)
Lemma short_row_ids_sorted (l : list RowId.t) : (length l < 2)%nat -> windows_all RowId.le l = true.
Proof. destruct l as [|x [|y l]]; simpl; [done|done|lia]. Qed.

Lemma flag_sorted c (ids : list RowId.t) n :
  is_sorted c = is_row_ids_sorted_uncached c ->
  (windows_all RowId.le (row_ids c) = true -> windows_all RowId.le ids = true) ->
  length ids = n -> is_sorted c || (n <? 2)%nat = true -> windows_all RowId.le ids = true.
Proof.
  intros Hs Hi <- [Hf|Hf]%orb_true_iff.
  - apply Hi. by rewrite Hf in Hs.
  - apply short_row_ids_sorted. by apply Nat.ltb_lt.
Qed.

End Columns.

(** ** What the operations do to the rows *)

Section Specs.

Import Chunk ChunkSlice.
Context `{Build} `{ArrowLaws} `{!SizeBytes}.
Implicit Types c : t.

Lemma emptied_spec new_id c : chunk_wf c ->
  chunk_wf (emptied new_id c) /\ rows (emptied new_id c) = [] /\ id (emptied new_id c) = new_id
  /\ same_shape c (emptied new_id c).
Proof.
  intros Hwf. pose proof (chunk_wf_keyed c Hwf) as Hk.
  assert (components (emptied new_id c) = (fun column => with_array column
    (list_new_null (list_field (ChunkComponents.list_array column)) 0)) <$> components c) as Hc.
  { unfold emptied; cbn [components]. by apply ChunkComponents.map_values_fmap. }
  split_and!; [|done|done|].
  - split; [done|]. split.
    + intros k tc' Htc'. unfold emptied in Htc'; cbn [timelines] in Htc'.
      rewrite lookup_fmap in Htc'. destruct (timelines c !! k) as [tc|]; [|done].
      injection Htc' as <-. by destruct (tc_emptied_spec tc) as (? & ? & _).
    + intros k col' Hcol'. rewrite Hc, lookup_fmap in Hcol'.
      destruct (components c !! k) as [col|] eqn:E; [|done]. injection Hcol' as <-.
      split; [by apply (Hk k col)|]. rewrite <- length_elems.
      cbn [with_array ChunkComponents.list_array].
      by destruct (list_new_null_law (list_field (ChunkComponents.list_array col)) 0) as [_ ->].
  - unfold same_shape. rewrite Hc. split_and!; [done| |].
    + intros k. unfold emptied; cbn [timelines]. rewrite lookup_fmap.
      destruct (timelines c !! k) as [tc|]; [|done]. done.
    + intros k. rewrite lookup_fmap. by destruct (components c !! k).
Qed.

Lemma pick_list_slice l o n : (o + n <= list_len l)%nat ->
  pick (elems l) (seq o n) = Some (elems (slice l o n))
  /\ pick (elems l) (seq o n) = Some (elems (deep_slice_array l o n)).
Proof.
  intros Hn. rewrite <- array_len_list in Hn.
  destruct (slice_law l o n Hn) as [-> _]. destruct (deep_slice_array_spec l o n Hn) as [-> _].
  split; apply pick_seq; unfold array_len in Hn; lia.
Qed.

Lemma row_sliced_inner new_id c o n (deep : bool) : chunk_wf c ->
  (o < num_rows c)%nat -> (0 < n)%nat -> (o + n <= num_rows c)%nat ->
  let srt := is_sorted c || (n <? 2)%nat in
  let c' := update_sorted (Mk new_id (entity_path c) 0 srt
     (if deep then deep_slice_array (row_ids c) o n else slice (row_ids c) o n)
     ((fun tc => TimeColumn.row_sliced tc o n) <$> timelines c)
     (ChunkComponents.map_values (fun column => with_array column
        (if deep then deep_slice_array (ChunkComponents.list_array column) o n
         else slice (ChunkComponents.list_array column) o n)) (components c))) srt in
  chunk_wf c' /\ columns_pick c c' (seq o n) /\ same_shape c c'.
Proof.
  intros Hwf Ho Hn Hon. cbv zeta.
  pose proof (chunk_wf_keyed c Hwf) as Hk. destruct Hwf as (Hs & Ht & Hc).
  set (ids := if deep then deep_slice_array (row_ids c) o n else slice (row_ids c) o n).
  assert (ids = take n (drop o (row_ids c))) as Hids.
  { subst ids. by destruct deep; [rewrite prim_deep_slice|rewrite prim_slice]. }
  rewrite ChunkComponents.map_values_fmap by done.
  set (comps := _ <$> components c).
  set (c0 := Mk new_id (entity_path c) 0 (is_sorted c || (n <? 2)%nat) ids _ comps).
  assert (columns_pick c c0 (seq o n)) as Hp.
  { subst c0. unfold columns_pick; cbn [row_ids timelines components]. split_and!.
    - rewrite Hids. by apply pick_seq.
    - intros k. rewrite lookup_fmap. destruct (timelines c !! k) as [tc|] eqn:E; [|done]. simpl.
      destruct (Ht k tc E) as [Hl Hw]. destruct (tc_row_sliced_spec tc o n Hw) as (_ & -> & _).
      apply pick_seq. unfold TimeColumn.num_rows in Hl. rewrite Hl. done.
    - intros k. subst comps. rewrite lookup_fmap.
      destruct (components c !! k) as [col|] eqn:E; [|done]. simpl.
      destruct (Hc k col E) as [_ Hl].
      destruct (pick_list_slice (ChunkComponents.list_array col) o n) as [Hp1 Hp2]; [by rewrite Hl|].
      by destruct deep. }
  split_and!.
  - apply (picked_wf c _ (seq o n)); [done| | |].
    + intros k col' Hcol'. cbn [update_sorted components] in Hcol'. subst c0 comps. cbn [components] in Hcol'.
      rewrite lookup_fmap in Hcol'. destruct (components c !! k) as [col|] eqn:E; [|done].
      injection Hcol' as <-. by apply (Hk k col).
    + intros k tc' Htc'. subst c0. cbn [update_sorted timelines] in Htc'.
      rewrite lookup_fmap in Htc'. destruct (timelines c !! k) as [tc|] eqn:E; [|done].
      injection Htc' as <-. destruct (Ht k tc E) as [_ Hw]. by apply tc_row_sliced_spec.
    + apply update_sorted_flag. subst c0. cbn [row_ids is_row_ids_sorted_uncached].
      unfold is_row_ids_sorted_uncached; cbn [row_ids].
      apply (flag_sorted c ids n Hs).
      * rewrite Hids, !windows_all_sorted by apply _. intros. by apply sorted_take, sorted_drop.
      * rewrite Hids, length_take, length_drop. unfold num_rows in *. lia.
  - done.
  - unfold same_shape; subst c0 comps; cbn [update_sorted entity_path timelines components].
    split_and!; [done| |]; intros k; rewrite lookup_fmap.
    + destruct (timelines c !! k) as [tc|] eqn:E; [|done]. simpl. f_equal.
      destruct (Ht k tc E) as [_ Hw]. by apply tc_row_sliced_spec.
    + by destruct (components c !! k).
Qed.

Lemma row_sliced_rows new_id c index len deep : chunk_wf c ->
  let c' := row_sliced_impl new_id c index len deep in
  chunk_wf c' /\ rows c' = take len (drop index (rows c)) /\ id c' = new_id /\ same_shape c c'.
Proof.
  intros Hwf. cbv zeta. unfold row_sliced_impl.
  destruct (emptied_spec new_id c Hwf) as (He1 & He2 & He3 & He4).
  destruct (Nat.leb_spec (num_rows c) index) as [Hi|Hi].
  { rewrite He2, drop_ge, take_nil by (by rewrite length_rows). done. }
  set (n := (Nat.min (index + len) (num_rows c) - index)%nat).
  assert (take len (drop index (rows c)) = take n (drop index (rows c))) as ->.
  { subst n. destruct (decide (index + len <= num_rows c)%nat).
    - f_equal. lia.
    - rewrite !take_ge by (rewrite length_drop, length_rows; lia). done. }
  case_bool_decide as Hn.
  { by rewrite He2, Hn. }
  destruct (row_sliced_inner new_id c index n deep Hwf Hi) as (Hw & Hp & Hsh);
    [lia|subst n; lia|].
  split_and!; [done| |done|done].
  apply (rows_pick_eq c _ _ _ Hp). apply pick_seq. rewrite length_rows. subst n. lia.
Qed.

(** Slicing, shallow or deep, never fails: it keeps the rows of the range that exist, and
    every column with its name and type. *)
Lemma row_sliced_spec new_id c index len deep : chunk_wf c ->
  let c' := row_sliced_impl new_id c index len deep in
  chunk_wf c' /\ rows c' = take len (drop index (rows c)) /\ id c' = new_id /\ same_shape c c'.
Proof. apply row_sliced_rows. Qed.


(** *** Filtering *)

Lemma filter_list_array l m : length m = list_len l ->
  exists r, filter_array l m = Done r /\ elems r = mask m (elems l)
    /\ list_field r = list_field l
    /\ pick (elems l) (mask m (seq 0 (list_len l))) = Some (elems r).
Proof.
  intros Hm. pose proof (filter_array_spec l m) as Hf. rewrite array_len_list in Hf.
  destruct (filter_array l m) as [r|]; [|congruence]. destruct Hf as (_ & Hr & Hty).
  exists r. split_and!; [done|done| |].
  - symmetry. by apply list_same_type.
  - rewrite Hr, <- length_elems. apply pick_mask. by rewrite length_elems.
Qed.

(** A mask applied to every column, with [f_comp] returning for each component column an
    array with the masked entries. *)
Lemma masked_spec (Q : ChunkComponents.column -> ListArray -> Prop) new_id c m f_comp :
  chunk_wf c -> length m = num_rows c ->
  (forall k col, components c !! k = Some col -> exists l, f_comp col = Done l
     /\ elems l = mask m (elems (ChunkComponents.list_array col)) /\ Q col l) ->
  let srt := is_sorted c || (TimeColumn.count_true m <? 2)%nat in
  exists c', map_columns c (fun row_ids => filter_array row_ids m)
      (fun tc => TimeColumn.filtered tc m) f_comp new_id srt = Done c'
    /\ chunk_wf (update_sorted c' srt) /\ rows (update_sorted c' srt) = mask m (rows c)
    /\ same_shape c (update_sorted c' srt) /\ id c' = new_id /\ heap_size_bytes c' = 0
    /\ (forall k col col', components c !! k = Some col -> components c' !! k = Some col' ->
         Q col (ChunkComponents.list_array col')).
Proof.
  intros Hwf Hm Hf srt. pose proof (chunk_wf_keyed c Hwf) as Hk. destruct Hwf as (Hs & Ht & Hc).
  destruct (map_columns_spec tc_wf Q c (fun row_ids => filter_array row_ids m)
    (fun tc => TimeColumn.filtered tc m) f_comp new_id srt (mask m (seq 0 (num_rows c)))
    (mask m (row_ids c))) as (c' & Hmc & Hp & Hsh & Hkc & Htc & HQ & Hsrt & Hid & Hheap).
  - done.
  - by apply prim_filter.
  - by apply pick_mask.
  - intros k tc Htc. destruct (Ht k tc Htc) as [Hl Hw].
    destruct (tc_filtered_spec tc m Hw) as (r & Hr & Hrw & Hrt & Hrl); [congruence|].
    exists r. split_and!; try done. rewrite Hrt, <- Hl. apply pick_mask. unfold TimeColumn.num_rows in Hl. congruence.
  - intros k col Hcol. destruct (Hf k col Hcol) as (l & Hl & He & HQ). destruct (Hc k col Hcol) as [_ Hlen].
    exists l. split_and!; [done| |done]. rewrite He, <- Hlen, <- length_elems. apply pick_mask.
    rewrite length_elems. congruence.
  - exists c'. split_and!; try done.
    + apply (picked_wf c (update_sorted c' srt) _ Hp); try done. apply update_sorted_flag. intros Hsrt'.
      destruct Hp as (Hp & _). pose proof (pick_mask (row_ids c) m Hm) as Hp'. fold (num_rows c) in Hp'.
      assert (row_ids c' = mask m (row_ids c)) as Hids by congruence.
      unfold is_row_ids_sorted_uncached. rewrite Hids.
      apply (flag_sorted c _ (TimeColumn.count_true m) Hs); [|by apply length_mask|done].
      rewrite !windows_all_sorted by apply _. apply sorted_mask.
    + apply (rows_pick_eq c (update_sorted c' srt) _ _ Hp). rewrite <- length_rows. apply pick_mask. by rewrite length_rows.
Qed.

(** [filtered] keeps the rows whose flag is set, and is [None] exactly when the mask has
    the wrong length; it never panics, not even on the checks of a debug build. *)
Lemma filtered_spec new_id c m : very_strict = false -> chunk_wf c ->
  exists r, filtered new_id c m = Done r
    /\ (r = None <-> length m <> num_rows c)
    /\ (forall c', r = Some c' -> chunk_wf c' /\ rows c' = mask m (rows c) /\ same_shape c c').
Proof.
  intros Hv Hwf. unfold filtered.
  destruct (Nat.eqb_spec (length m) (num_rows c)) as [Hm|Hm]; cbn [negb]; [|by exists None].
  destruct (is_empty c) eqn:Ee.
  { apply bool_decide_eq_true in Ee. eexists. split; [done|]. split; [naive_solver|].
    intros c' [= <-]. split; [done|]. split; [|done].
    assert (rows c = []) as Hr by (apply nil_length_inv; by rewrite length_rows).
    change (rows (clone_with_same_id c)) with (rows c). rewrite Hr. by destruct m as [|[]]. }
  destruct (Nat.eqb_spec (TimeColumn.count_true m) 0) as [H0'|H0'].
  { destruct (emptied_spec new_id c Hwf) as (He1 & He2 & He3 & He4).
    eexists. split; [done|]. split; [naive_solver|]. intros c' [= <-]. split_and!; [done| |done].
    rewrite He2. symmetry. apply nil_length_inv. rewrite length_mask by (by rewrite length_rows). done. }
  destruct (masked_spec (fun _ _ => True) new_id c m (fun col => filter_array (ChunkComponents.list_array col) m) Hwf Hm)
    as (c' & Hmc & Hw & Hr & Hsh & Hid & Hheap & _).
  { intros k col Hcol. destruct Hwf as (_ & _ & Hc). destruct (Hc k col Hcol) as [_ Hl].
    destruct (filter_list_array (ChunkComponents.list_array col) m) as (l & ? & ? & _); [congruence|].
    by exists l. }
  rewrite Hmc. cbn [mbind outcome_bind]. rewrite checked_wf by done.
  eexists. split; [done|]. split; [naive_solver|]. intros ? [= <-]. done.
Qed.

(** *** Densifying *)

Lemma drop_nulls l : Forall is_Some (elems l) ->
  exists r, list_new (list_field l) (list_offsets l) (list_values l) None = Done r
    /\ elems r = elems l /\ list_nulls r = None.
Proof.
  intros Hf. destruct (list_parts_ok l) as (Ho & _ & Ha).
  destruct (list_new_law (list_field l) (list_offsets l) (list_values l) None Ho eq_refl Ha)
    as (r & Hr & Hrf & Hro & Hrv & Hrn).
  exists r. split_and!; [done| |done].
  apply list_lookup_ext.
  { rewrite !length_elems. unfold list_len. by rewrite Hro. }
  intros i x y Hx Hy. apply lookup_lt_Some in Hx as Hi. rewrite length_elems in Hi.
  assert (i < list_len l)%nat as Hi' by (unfold list_len in *; by rewrite <- Hro).
  rewrite elems_lookup in Hx, Hy by done. simplify_eq.
  rewrite Forall_lookup in Hf. specialize (Hf i _ (elems_lookup l i Hi')).
  unfold list_entry in *. unfold is_valid at 1. rewrite Hrn.
  destruct (is_valid l i); [|by destruct Hf]. unfold list_value. by rewrite Hro, Hrv.
Qed.

Definition has_cell (component : ComponentIdentifier) (r : Row) : Prop :=
  is_Some (row_cells r !! component).

#[export] Instance has_cell_dec component r : Decision (has_cell component r).
Proof. unfold has_cell. apply _. Defined.

Lemma row_cells_lookup c i r component column : rows c !! i = Some r ->
  components c !! component = Some column -> row_cells r !! component = cell_at column i.
Proof.
  rewrite lookup_rows. intros Hr Hc. destruct (row_ids c !! i); [|done]. injection Hr as <-.
  simpl. by rewrite lookup_omap, Hc.
Qed.

(** The rows where a component has data, by its validity bitmap. *)
Lemma mask_validity_rows c component column : chunk_wf c ->
  components c !! component = Some column ->
  mask (validity (ChunkComponents.list_array column)) (rows c) = filter (has_cell component) (rows c).
Proof.
  intros (_ & _ & Hc) Hk. destruct (Hc _ _ Hk) as [_ Hl].
  apply mask_filter; [by rewrite length_validity, length_rows|].
  intros i b r Hb Hr. unfold has_cell. rewrite (row_cells_lookup c i r component column Hr Hk).
  apply lookup_lt_Some in Hr. rewrite length_rows, <- Hl in Hr.
  rewrite lookup_validity in Hb by done. injection Hb as <-.
  unfold cell_at. rewrite elems_lookup by done. unfold list_entry. simpl.
  destruct (is_valid _ i); simpl; split; (done || by intros []).
Qed.

Lemma densified_rows new_id c pov : very_strict = false -> chunk_wf c ->
  exists c' changed, densified new_id c pov = Done (c', changed)
    /\ chunk_wf c' /\ same_shape c c'
    /\ (heap_size_bytes c' = 0 \/ c' = c)
    /\ match components c !! pov with
       | None => rows c' = rows c /\ changed = false
       | Some _ => rows c' = filter (has_cell pov) (rows c)
           /\ (changed = false -> rows c' = rows c)
           /\ (rows c <> [] -> forall col', components c' !! pov = Some col' ->
                list_nulls (ChunkComponents.list_array col') = None)
       end.
Proof.
  intros Hv Hwf. unfold densified, ChunkComponents.get_array.
  assert (clone_with_same_id c = c) as Hclone by by destruct c.
  destruct (is_empty c) eqn:Ee.
  { apply bool_decide_eq_true in Ee. eexists _, _. split_and!; [done|done|done|by right|].
    assert (rows c = []) as Hr by (apply nil_length_inv; by rewrite length_rows).
    change (rows (clone_with_same_id c)) with (rows c). by destruct (components c !! pov); rewrite Hr. }
  destruct (components c !! pov) as [column|] eqn:Hk; simpl; [|eexists _, _; split_and!; [done..|by right|done|done]].
  pose proof (mask_validity_rows c pov column Hwf Hk) as Hmv.
  destruct (list_nulls (ChunkComponents.list_array column)) as [m|] eqn:Hm.
  2:{ eexists _, _. split_and!; [done|done|done|by right| |done|].
    - change (rows (clone_with_same_id c)) with (rows c). rewrite <- Hmv. unfold validity. rewrite Hm. simpl.
      destruct Hwf as (_ & _ & Hc). destruct (Hc _ _ Hk) as [_ ->]. by rewrite <- length_rows, mask_all.
    - simpl. intros _ col'. rewrite Hk. by intros [= <-]. }
  assert (validity (ChunkComponents.list_array column) = m) as Hvm by (unfold validity; by rewrite Hm).
  pose proof Hwf as (Hs & Ht & Hc). destruct (Hc _ _ Hk) as [Hkey Hl].
  assert (length m = num_rows c) as Hlm by (rewrite <- Hl, <- Hvm; apply length_validity).
  set (f_comp := fun col : ChunkComponents.column => _).
  assert (forall k col, components c !! k = Some col -> exists l, f_comp col = Done l
     /\ elems l = mask m (elems (ChunkComponents.list_array col))
     /\ (cd_component (ChunkComponents.descriptor col) = pov -> list_nulls l = None)) as Hf.
  { intros k col Hcol. destruct (Hc k col Hcol) as [Hkc Hlc].
    destruct (filter_list_array (ChunkComponents.list_array col) m) as (r & Hr & He & _); [congruence|].
    subst f_comp. cbn beta. rewrite Hr. cbn [mbind outcome_bind]. case_decide as Hp.
    - assert (col = column) as -> by congruence.
      destruct (drop_nulls r) as (r' & Hr' & He' & Hn').
      + rewrite He. apply Forall_forall. intros e (i & Hi & Hx)%elem_of_mask.
        apply lookup_lt_Some in Hx as Hil. rewrite length_elems in Hil.
        rewrite <- Hvm, lookup_validity in Hi by done. injection Hi as Hi.
        rewrite elems_lookup in Hx by done. injection Hx as <-. unfold list_entry. by rewrite Hi.
      + exists r'. split_and!; [done|congruence|done].
    - by exists r. }
  destruct (masked_spec (fun col l => cd_component (ChunkComponents.descriptor col) = pov ->
    list_nulls l = None) new_id c m f_comp Hwf Hlm Hf) as (c' & Hmc & Hw & Hr & Hsh & Hid & Hheap & HQ).
  rewrite Hmc. cbn [mbind outcome_bind]. rewrite checked_wf by done. cbn [mbind outcome_bind].
  eexists _, _. split_and!; [done|done|done|by left|by rewrite Hr, <- Hvm|done|].
  intros _ col' Hcol'. by apply (HQ pov column col').
Qed.

(** [densified] keeps exactly the rows where the component has data (all of them when the
    chunk lacks the component), and leaves that column without a validity bitmap. *)
Lemma densified_spec new_id c pov : very_strict = false -> chunk_wf c ->
  exists c' changed, densified new_id c pov = Done (c', changed)
    /\ chunk_wf c' /\ same_shape c c'
    /\ match components c !! pov with
       | None => rows c' = rows c /\ changed = false
       | Some _ => rows c' = filter (has_cell pov) (rows c)
           /\ (changed = false -> rows c' = rows c)
           /\ (rows c <> [] -> forall col', components c' !! pov = Some col' ->
                list_nulls (ChunkComponents.list_array col') = None)
       end.
Proof.
  intros Hv Hwf. destruct (densified_rows new_id c pov Hv Hwf) as (c' & changed & Hd & Hw & Hsh & _ & Hr).
  by exists c', changed.
Qed.

(** *** Taking *)

Lemma gather_from_range {A} (l : list A) idx :
  Forall (fun i => 0 <= i < Z.of_nat (length l)) idx -> exists ys, gather l idx = Some ys.
Proof.
  intros Hr. apply mapM_is_Some_2. eapply Forall_impl; [exact Hr|]. intros i Hi.
  unfold compose. cbn beta in Hi.
  rewrite decide_True by lia. apply lookup_lt_is_Some. lia.
Qed.

Lemma take_list_array l idx : Forall (fun i => 0 <= i < Z.of_nat (list_len l)) idx -> idx <> [] ->
  exists r, take_array l idx = Done r
    /\ pick (elems l) (Z.to_nat <$> idx) = Some (elems r).
Proof.
  intros Hr Hne. assert (exists es, gather (elems l) idx = Some es) as [es Hes].
  { apply gather_from_range. by rewrite length_elems. }
  destruct (take_array_spec l idx es Hes Hne) as (r & Hr' & <- & _).
  exists r. split; [done|]. by apply pick_gather.
Qed.

(** The indices are in range when the rows can be gathered. *)
Lemma gather_range {A} (l : list A) idx ys : gather l idx = Some ys ->
  Forall (fun i => 0 <= i < Z.of_nat (length l)) idx.
Proof.
  intros Hg. apply mapM_Some_1 in Hg. apply Forall_forall. intros i (k & Hk)%list_elem_of_lookup_1.
  destruct (Forall2_lookup_l _ _ _ _ _ Hg Hk) as (y & _ & Hy). cbn beta in Hy.
  case_decide; [|done]. apply lookup_lt_Some in Hy. lia.
Qed.

(** [take] applied to every column.  The sortedness flags are inherited, so they are
    truthful when the rows are taken in increasing order from sorted columns. *)
Lemma taken_columns new_id c idx srt : chunk_wf c -> idx <> [] ->
  Forall (fun i => 0 <= i < Z.of_nat (num_rows c)) idx ->
  exists c', map_columns c (fun row_ids => take_array row_ids idx)
      (fun tc => TimeColumn.taken tc idx)
      (fun column => take_array (ChunkComponents.list_array column) idx) new_id srt = Done c'
    /\ columns_pick c c' (Z.to_nat <$> idx) /\ same_shape c c'
    /\ ChunkComponents.keyed (components c') /\ is_sorted c' = srt /\ heap_size_bytes c' = 0
    /\ gather (row_ids c) idx = Some (row_ids c')
    /\ (all_timelines_sorted c = true -> StronglySorted Z.le idx ->
        map_Forall (fun _ tc' => tc_wf tc') (timelines c')).
Proof.
  intros Hwf Hne Hr. pose proof (chunk_wf_keyed c Hwf) as Hk. destruct Hwf as (Hs & Ht & Hc).
  destruct (gather_from_range (row_ids c) idx Hr) as [ids Hids].
  destruct (map_columns_spec
    (fun tc' => all_timelines_sorted c = true -> StronglySorted Z.le idx -> tc_wf tc')
    (fun _ _ => True) c (fun row_ids => take_array row_ids idx)
    (fun tc => TimeColumn.taken tc idx)
    (fun column => take_array (ChunkComponents.list_array column) idx) new_id srt
    (Z.to_nat <$> idx) ids) as (c' & Hmc & Hp & Hsh & Hkc & Htc & _ & Hsrt & _ & Hheap).
  - done.
  - by apply prim_take.
  - by apply pick_gather.
  - intros k tc Htc. destruct (Ht k tc Htc) as [Hl Hw].
    destruct (gather_from_range (TimeColumn.times tc) idx) as [ts Hts].
    { unfold TimeColumn.num_rows in Hl. by rewrite Hl. }
    destruct (tc_taken_spec tc idx ts Hw Hts Hne) as (r & Hr' & Hrt & Hrl & _ & Hrw).
    exists r. split_and!; [done| |rewrite Hrt; by apply pick_gather|done].
    intros Hall Hi. apply Hrw. unfold all_timelines_sorted in Hall. rewrite forallb_forall in Hall.
    assert (TimeColumn.is_sorted tc = true) as Hsorted.
    { apply Hall, list_elem_of_In, list_elem_of_fmap. exists (k, tc).
      split; [done|]. by apply elem_of_map_to_list. }
    rewrite Hsorted. symmetry. apply windows_all_sorted; [apply _|].
    apply (sorted_gather Z.leb (TimeColumn.times tc) ts idx); try done.
    apply windows_all_sorted; [apply _|]. destruct Hw as (Hs' & _). unfold TimeColumn.times_sorted in *. congruence.
  - intros k col Hcol. destruct (Hc k col Hcol) as [_ Hl].
    destruct (take_list_array (ChunkComponents.list_array col) idx) as (l & Hl1 & Hl2);
      [by rewrite Hl|done|]. by exists l.
  - exists c'. split_and!; try done.
    + destruct Hp as (Hp & _). pose proof (pick_gather _ _ _ Hids). congruence.
    + intros Hall Hi k tc' Hk'. by apply (Htc k tc').
Qed.

(** [taken] gathers the rows at the given indices. The inherited flags are right, and the
    result passes the checks of a debug build, when every column of the chunk is sorted and the
    indices do not decrease. *)
Lemma taken_spec new_id c idx rs : very_strict = false -> chunk_wf c ->
  gather (rows c) idx = Some rs ->
  (debug_assertions = false -> exists c', taken new_id c idx = Done c' /\ rows c' = rs)
  /\ (is_sorted c = true -> all_timelines_sorted c = true -> StronglySorted Z.le idx ->
      exists c', taken new_id c idx = Done c' /\ rows c' = rs /\ chunk_wf c').
Proof.
  intros Hv Hwf Hg. pose proof (gather_range _ _ _ Hg) as Hr. rewrite length_rows in Hr.
  unfold taken. destruct (is_empty c) eqn:Ee.
  { apply bool_decide_eq_true in Ee. destruct idx as [|i idx]; [|inversion_clear Hr; lia].
    injection Hg as <-. assert (rows c = []) as Hrows by (apply nil_length_inv; by rewrite length_rows).
    split; intros; (eexists; split; [done|]); by rewrite <- Hrows at 1. }
  destruct (Nat.eqb_spec (length idx) 0) as [Hi|Hi].
  { apply nil_length_inv in Hi as ->. injection Hg as <-.
    destruct (emptied_spec new_id c Hwf) as (He1 & He2 & _). split; intros; by eexists. }
  assert (idx <> []) as Hne by (by intros ->).
  set (srt := is_sorted c || (length idx <? 2)%nat).
  destruct (taken_columns new_id c idx srt Hwf Hne Hr) as (c' & -> & Hp & Hsh & Hkc & Hsrt & Hheap & Hids & Htc).
  cbn [mbind outcome_bind].
  assert (rows (update_sorted c' srt) = rs) as Hrows.
  { apply (rows_pick_eq c (update_sorted c' srt) (Z.to_nat <$> idx)); [done|]. by apply pick_gather. }
  split.
  - intros Hd. unfold checked, debug_sanity_check. rewrite Hd. by eexists.
  - intros Hcs Hall Hi'. assert (chunk_wf (update_sorted c' srt)) as Hw.
    { apply (picked_wf c _ (Z.to_nat <$> idx)); try done; [by apply Htc|].
      apply update_sorted_flag. intros _. unfold is_row_ids_sorted_uncached.
      apply windows_all_sorted; [apply _|].
      apply (sorted_gather RowId.le (row_ids c) _ idx); try done.
      apply windows_all_sorted; [apply _|]. destruct Hwf as (Hs & _).
      unfold is_row_ids_sorted_uncached in Hs. congruence. }
    rewrite checked_wf by done. by eexists.
Qed.

(** *** Keeping some of the columns *)

Definition restrict {A} (P : string -> Prop) `{!forall k, Decision (P k)} (m : gmap string A) : gmap string A :=
  filter (fun '(k, _) => P k) m.

Lemma lookup_restrict {A} (P : string -> Prop) `{!forall k, Decision (P k)} (m : gmap string A) k :
  restrict P m !! k = if decide (P k) then m !! k else None.
Proof.
  unfold restrict. rewrite map_lookup_filter. case_decide as HP.
  - destruct (m !! k); simpl; [|done]. by rewrite option_guard_True.
  - destruct (m !! k); simpl; [|done]. by rewrite option_guard_False.
Qed.

Definition keep_times (P : string -> Prop) `{!forall k, Decision (P k)} (r : Row) : Row :=
  {| row_id := row_id r; row_times := restrict P (row_times r); row_cells := row_cells r |}.
Definition keep_cells (P : string -> Prop) `{!forall k, Decision (P k)} (r : Row) : Row :=
  {| row_id := row_id r; row_times := row_times r; row_cells := restrict P (row_cells r) |}.

Lemma omap_restrict {A B} (P : string -> Prop) `{!forall k, Decision (P k)} (f : A -> option B)
    (m : gmap string A) : omap f (restrict P m) = restrict P (omap f m).
Proof.
  apply map_eq. intros k. rewrite lookup_restrict, !lookup_omap, lookup_restrict. by case_decide.
Qed.

Lemma rows_restrict_times (P : string -> Prop) `{!forall k, Decision (P k)} new_id h c :
  rows (Mk new_id (entity_path c) h (is_sorted c) (row_ids c) (restrict P (timelines c)) (components c))
    = keep_times P <$> rows c.
Proof.
  apply list_eq. intros i. rewrite list_lookup_fmap, !lookup_rows. cbn [row_ids].
  destruct (row_ids c !! i); [|done]. simpl. f_equal. unfold row_at, keep_times; simpl. f_equal.
  apply omap_restrict.
Qed.

Lemma rows_restrict_cells (P : string -> Prop) `{!forall k, Decision (P k)} new_id h c :
  rows (Mk new_id (entity_path c) h (is_sorted c) (row_ids c) (timelines c) (restrict P (components c)))
    = keep_cells P <$> rows c.
Proof.
  apply list_eq. intros i. rewrite list_lookup_fmap, !lookup_rows. cbn [row_ids].
  destruct (row_ids c !! i); [|done]. simpl. f_equal. unfold row_at, keep_cells; simpl. f_equal.
  apply omap_restrict.
Qed.

Lemma restrict_wf (P Q : string -> Prop) `{!forall k, Decision (P k)} `{!forall k, Decision (Q k)} new_id h c :
  chunk_wf c ->
  chunk_wf (Mk new_id (entity_path c) h (is_sorted c) (row_ids c)
    (restrict P (timelines c)) (restrict Q (components c))).
Proof.
  intros (Hs & Ht & Hc). split; [done|]. split; intros k x Hk; cbn [timelines components] in Hk;
    rewrite lookup_restrict in Hk; case_decide; try done; [apply (Ht k x Hk)|apply (Hc k x Hk)].
Qed.

Lemma restrict_all {A} (m : gmap string A) : restrict (fun _ => True) m = m.
Proof. apply map_eq. intros k. by rewrite lookup_restrict, decide_True. Qed.

(** Columns of a map collected again. *)
Lemma lookup_foldl_insert_sub (comps m : ChunkComponents.t) cs k :
  (forall col, col ∈ cs -> comps !! cd_component (ChunkComponents.descriptor col) = Some col) ->
  foldl ChunkComponents.insert m cs !! k =
    if decide (k ∈ (fun col => cd_component (ChunkComponents.descriptor col)) <$> cs)
    then comps !! k else m !! k.
Proof.
  revert m. induction cs as [|col cs IH]; intros m Hcs; [by rewrite decide_False by set_solver|].
  simpl. rewrite IH by set_solver. unfold ChunkComponents.insert.
  destruct (decide (k ∈ _ <$> cs)) as [Hin|Hin]; [by rewrite decide_True by set_solver|].
  destruct (decide (cd_component (ChunkComponents.descriptor col) = k)) as [<-|Hne].
  - rewrite lookup_insert_eq, decide_True by set_solver. symmetry. apply Hcs. by left.
  - rewrite lookup_insert_ne, decide_False by set_solver. done.
Qed.

Lemma with_array_same (col : ChunkComponents.column) :
  with_array col (ChunkComponents.list_array col) = col.
Proof. by destruct col. Qed.

Lemma components_sliced_restrict c (keep : list string) : ChunkComponents.keyed (components c) ->
  ChunkComponents.from_iter (omap (fun k => (fun column =>
    with_array column (ChunkComponents.list_array column)) <$> components c !! k) keep)
  = restrict (fun k => k ∈ keep) (components c).
Proof.
  intros Hk. apply map_eq. intros k. unfold ChunkComponents.from_iter.
  rewrite (lookup_foldl_insert_sub (components c)).
  - rewrite lookup_restrict, lookup_empty.
    destruct (components c !! k) as [col|] eqn:E; [|by repeat case_decide].
    pose proof (Hk k col E) as Hkey. cbn beta in Hkey.
    apply decide_ext. rewrite list_elem_of_fmap. split.
    + intros (col' & -> & Hin). apply list_elem_of_omap in Hin as (k' & Hin & Hk').
      destruct (components c !! k') as [col''|] eqn:E'; [|done]. simpl in Hk'. injection Hk' as <-.
      rewrite with_array_same. by rewrite (Hk k' col'' E').
    + intros Hin. exists col. split; [done|]. apply list_elem_of_omap. exists k. split; [done|].
      rewrite E. simpl. by rewrite with_array_same.
  - intros col (k' & _ & Hk')%list_elem_of_omap.
    destruct (components c !! k') as [col'|] eqn:E; [|done]. simpl in Hk'. injection Hk' as <-.
    rewrite with_array_same. by rewrite (Hk k' col' E).
Qed.

Lemma components_dropped_restrict c (dropped : list string) : ChunkComponents.keyed (components c) ->
  ChunkComponents.from_iter (omap (fun '(k, column) =>
      if bool_decide (k ∈ dropped) then None
      else Some (with_array column (ChunkComponents.list_array column)))
    (map_to_list (components c)))
  = restrict (fun k => k ∉ dropped) (components c).
Proof.
  intros Hk. apply map_eq. intros k. unfold ChunkComponents.from_iter.
  assert (forall col, col ∈ omap (fun '(k, column) =>
      if bool_decide (k ∈ dropped) then None
      else Some (with_array column (ChunkComponents.list_array column)))
    (map_to_list (components c)) <-> exists k, k ∉ dropped /\ components c !! k = Some col) as Hin.
  { intros col. rewrite list_elem_of_omap. split.
    - intros ([k' col'] & Hk'%elem_of_map_to_list & Hc). case_bool_decide; [done|].
      injection Hc as <-. rewrite with_array_same. by exists k'.
    - intros (k' & Hd & Hk'). exists (k', col). split; [by apply elem_of_map_to_list|].
      rewrite bool_decide_false by done. by rewrite with_array_same. }
  rewrite (lookup_foldl_insert_sub (components c)).
  - rewrite lookup_restrict, lookup_empty.
    destruct (components c !! k) as [col|] eqn:E; [|by repeat case_decide].
    apply decide_ext. rewrite list_elem_of_fmap. split.
    + intros (col' & -> & (k' & Hd & Hk')%Hin). by rewrite (Hk k' col' Hk').
    + intros Hd. exists col. split; [symmetry; by apply (Hk k col)|]. apply Hin. by exists k.
  - intros col (k' & _ & Hk')%Hin. by rewrite (Hk k' col Hk').
Qed.

(** The chunks the projections build. *)
Lemma restricted_chunk (P Q : string -> Prop) `{!forall k, Decision (P k)} `{!forall k, Decision (Q k)} new_id c :
  very_strict = false -> chunk_wf c ->
  let c' := Mk new_id (entity_path c) 0 (is_sorted c) (row_ids c)
    (restrict P (timelines c)) (restrict Q (components c)) in
  checked c' = Done c' /\ chunk_wf c'.
Proof.
  intros Hv Hwf c'. assert (chunk_wf c') as Hw by (by apply restrict_wf). split; [|done]. by apply checked_wf.
Qed.

Lemma timeline_sliced_eq new_id c timeline : timeline_sliced new_id c timeline =
  checked (Mk new_id (entity_path c) 0 (is_sorted c) (row_ids c)
    (restrict (fun k => k = timeline) (timelines c)) (components c)).
Proof.
  unfold timeline_sliced. do 2 f_equal.
  apply map_eq. intros k. rewrite lookup_restrict. case_decide as Hkt.
  - subst. destruct (timelines c !! timeline); [by rewrite lookup_singleton_eq|done].
  - destruct (timelines c !! timeline); [by rewrite lookup_singleton_ne|done].
Qed.

Lemma timeline_sliced_rows new_id c timeline : very_strict = false -> chunk_wf c ->
  exists c', timeline_sliced new_id c timeline = Done c' /\ chunk_wf c'
    /\ rows c' = keep_times (fun k => k = timeline) <$> rows c
    /\ timelines c' = restrict (fun k => k = timeline) (timelines c) /\ components c' = components c
    /\ heap_size_bytes c' = 0.
Proof.
  intros Hv Hwf. rewrite timeline_sliced_eq.
  destruct (restricted_chunk (fun k => k = timeline) (fun _ => True) new_id c Hv Hwf) as [Hc Hw].
  rewrite restrict_all in Hc, Hw. rewrite Hc. eexists. split; [done|].
  split_and!; [done|apply rows_restrict_times|done..].
Qed.

Lemma components_sliced_rows new_id c keep : very_strict = false -> chunk_wf c ->
  exists c', components_sliced new_id c keep = Done c' /\ chunk_wf c'
    /\ rows c' = keep_cells (fun k => k ∈ keep) <$> rows c
    /\ timelines c' = timelines c /\ components c' = restrict (fun k => k ∈ keep) (components c)
    /\ heap_size_bytes c' = 0.
Proof.
  intros Hv Hwf. unfold components_sliced. rewrite components_sliced_restrict by by apply chunk_wf_keyed.
  destruct (restricted_chunk (fun _ => True) (fun k => k ∈ keep) new_id c Hv Hwf) as [Hc Hw].
  rewrite restrict_all in Hc, Hw. rewrite Hc. eexists. split; [done|].
  split_and!; [done|apply rows_restrict_cells|done..].
Qed.

(** Keeping one timeline, some timelines, some components, or all components but some: the
    rows keep exactly those of their times (of their cells), nothing else changes, and the
    checks of a debug build pass. *)
Lemma projections_spec new_id c timeline keep dropped tls :
  very_strict = false -> chunk_wf c ->
  (exists c', timeline_sliced new_id c timeline = Done c' /\ chunk_wf c'
     /\ rows c' = keep_times (fun k => k = timeline) <$> rows c)
  /\ (exists c', timelines_sliced new_id c tls = Done c' /\ chunk_wf c'
     /\ rows c' = keep_times (fun k => k ∈ tls) <$> rows c)
  /\ (exists c', components_sliced new_id c keep = Done c' /\ chunk_wf c'
     /\ rows c' = keep_cells (fun k => k ∈ keep) <$> rows c)
  /\ (exists c', components_dropped new_id c dropped = Done c' /\ chunk_wf c'
     /\ rows c' = keep_cells (fun k => k ∉ dropped) <$> rows c).
Proof.
  intros Hv Hwf. split_and!.
  - destruct (timeline_sliced_rows new_id c timeline) as (c' & ? & ? & ? & _); [done..|]. by exists c'.
  - unfold timelines_sliced.
    destruct (restricted_chunk (fun k => k ∈ tls) (fun _ => True) new_id c Hv Hwf) as [Hc Hw].
    rewrite restrict_all in Hc, Hw. eexists. split_and!; [exact Hc|done|].
    apply (rows_restrict_times (fun k => k ∈ tls)).
  - destruct (components_sliced_rows new_id c keep) as (c' & ? & ? & ? & _); [done..|]. by exists c'.
  - unfold components_dropped. destruct (existsb _ _) eqn:Ee; cbn [negb].
    + rewrite components_dropped_restrict by by apply chunk_wf_keyed.
      destruct (restricted_chunk (fun _ => True) (fun k => k ∉ dropped) new_id c Hv Hwf) as [Hc Hw].
      rewrite restrict_all in Hc, Hw. rewrite Hc. eexists. split_and!; [done|done|apply rows_restrict_cells].
    + eexists. split_and!; [done|done|].
      assert (restrict (fun k => k ∉ dropped) (components c) = components c) as Hr.
      { apply map_eq. intros k. rewrite lookup_restrict. case_decide as Hd; [done|].
        destruct (components c !! k) as [col|] eqn:E; [|done].
        assert (existsb (fun id => bool_decide (id ∈ dropped)) (map_to_list (components c)).*1 = true);
          [|congruence].
        apply existsb_exists. exists k. split; [|by apply bool_decide_eq_true].
        apply list_elem_of_In, list_elem_of_fmap. exists (k, col). split; [done|].
        by apply elem_of_map_to_list. }
      rewrite <- (rows_restrict_cells (fun k => k ∉ dropped) (id c) (heap_size_bytes c) c), Hr. done.
Qed.

(** *** Deduplicating *)

Lemma dedup_with_count_head x l : exists n runs, dedup_with_count (x :: l) = (S n, x) :: runs.
Proof.
  revert x. induction l as [|y l IH]; intros x; [by exists 0%nat, []|].
  destruct (IH y) as (n & runs & E). cbn [dedup_with_count] in E |- *. rewrite E.
  destruct (Z.eqb_spec x y) as [->|]; [by exists (S n), runs|by exists 0%nat, ((S n, y) :: runs)].
Qed.

Lemma run_ends_S i n x runs : run_ends i ((S n, x) :: runs) = Z.of_nat (i + n) :: run_ends (S i + n) runs.
Proof. simpl. f_equal; [f_equal; lia|]. f_equal. lia. Qed.

(** The indices the code computes select the last row of each run. *)
Lemma gather_run_ends {A} (key : A -> Z) pre l :
  gather (pre ++ l) (run_ends (length pre) (dedup_with_count (key <$> l))) = Some (dedup_latest key l).
Proof.
  revert pre. induction l as [|x l IH]; intros pre; [done|].
  specialize (IH (pre ++ [x])). rewrite <- app_assoc, length_app in IH. simpl in IH.
  assert (gather (pre ++ x :: l) (Z.of_nat (length pre + 0) ::
      run_ends (length pre + 1) (dedup_with_count (key <$> l)))
    = Some (x :: dedup_latest key l)) as Hx.
  { unfold gather in *. simpl. rewrite decide_True, Nat2Z.id, Nat.add_0_r by lia.
    rewrite list_lookup_middle by done. simpl. by rewrite IH. }
  destruct l as [|y l]; [by simpl in *; rewrite Nat.add_0_r in Hx; rewrite Nat.add_sub|].
  change (key <$> x :: y :: l) with (key x :: (key <$> y :: l)).
  destruct (dedup_with_count_head (key y) (key <$> l)) as (n & runs & E).
  change (key y :: (key <$> l)) with (key <$> y :: l) in E.
  cbn [dedup_with_count]. change (key <$> y :: l) with (key y :: (key <$> l)) in *.
  cbn [dedup_with_count] in E, IH, Hx |- *. rewrite E in *.
  change (dedup_latest key (x :: y :: l)) with
    (if key x =? key y then dedup_latest key (y :: l) else x :: dedup_latest key (y :: l)).
  destruct (Z.eqb_spec (key x) (key y)).
  - rewrite run_ends_S in *. rewrite <- IH. do 2 f_equal; [lia|]. f_equal. lia.
  - rewrite run_ends_S, <- Hx. do 2 f_equal. f_equal. lia.
Qed.

(** The time of a row on a timeline. *)
Definition time_of (timeline : TimelineName) (r : Row) : Z := default 0 (row_times r !! timeline).

Lemma time_of_rows c timeline tc : chunk_wf c -> timelines c !! timeline = Some tc ->
  time_of timeline <$> rows c = TimeColumn.times tc.
Proof.
  intros (_ & Ht & _) Htc. destruct (Ht _ _ Htc) as [Hl _].
  apply list_lookup_ext; [by rewrite length_fmap, length_rows|].
  intros i x y Hx Hy. rewrite list_lookup_fmap, lookup_rows in Hx.
  destruct (row_ids c !! i); [|done]. simpl in Hx. injection Hx as <-.
  unfold time_of; simpl. rewrite lookup_omap, Htc. simpl. by rewrite Hy.
Qed.

(** [deduped_latest_on_index] keeps the last row of every run of consecutive equal times; a
    static chunk keeps its last row, and one without the timeline is unchanged. *)
Lemma deduped_latest_on_index_spec new_id c index :
  debug_assertions = false -> chunk_wf c ->
  exists c', deduped_latest_on_index new_id c index = Done c'
    /\ rows c' =
        if is_static c then drop (num_rows c - 1) (rows c)
        else match timelines c !! index with
             | Some _ => dedup_latest (time_of index) (rows c)
             | None => rows c
             end.
Proof.
  intros Hd Hwf. unfold deduped_latest_on_index. destruct (is_empty c) eqn:Ee.
  { apply bool_decide_eq_true in Ee.
    assert (rows c = []) as Hr by (apply nil_length_inv; by rewrite length_rows).
    eexists. split; [done|]. change (rows (clone_with_same_id c)) with (rows c). rewrite Hr.
    destruct (is_static c); [by rewrite drop_nil|]. by destruct (timelines c !! index). }
  apply bool_decide_eq_false in Ee.
  destruct (is_static c).
  { eexists. split; [done|]. unfold row_sliced_shallow.
    destruct (row_sliced_rows new_id c (num_rows c - 1) 1 false Hwf) as (_ & -> & _).
    apply take_ge. rewrite length_drop, length_rows. lia. }
  destruct (timelines c !! index) as [tc|] eqn:Htc; [|by eexists].
  pose proof (gather_run_ends (time_of index) [] (rows c)) as Hg. simpl in Hg.
  rewrite (time_of_rows c index tc Hwf Htc) in Hg.
  set (idx := run_ends 0 (dedup_with_count (TimeColumn.times tc))) in *.
  pose proof (gather_range _ _ _ Hg) as Hr. rewrite length_rows in Hr.
  assert (idx <> []) as Hne.
  { intros E. subst idx. pose proof Hwf as (_ & Ht & _). destruct (Ht _ _ Htc) as [Hl _].
    unfold TimeColumn.num_rows in Hl.
    destruct (TimeColumn.times tc) as [|t0 ts]; [simpl in Hl; lia|].
    destruct (dedup_with_count_head t0 ts) as (n & runs & Er). by rewrite Er in E. }
  destruct (taken_columns new_id c idx (is_sorted c) Hwf Hne Hr) as (c' & -> & Hp & _).
  cbn [mbind outcome_bind]. unfold checked, debug_sanity_check. rewrite Hd.
  cbn [mbind outcome_bind]. eexists. split; [done|].
  apply (rows_pick_eq c c' _ _ Hp). by apply pick_gather.
Qed.

End Specs.

(** ** Splitting

    [split.rs].  Each piece gets a fresh id; the loop makes at least one row of progress, so
    the number of rows is fuel enough. *)

Record ChunkSplitConfig := {
  chunk_max_bytes : Z;
  chunk_max_rows : Z;
  chunk_max_rows_if_unsorted : Z;
}.

Module ChunkSplit.

Import Chunk ChunkSlice.

Section Split.

Context `{Build} `{ArrowOps} `{!SizeBytes}.
Implicit Types chunk : t.

(** The size of a chunk, and the chunk with the heap size that was measured for it stored in its
    atomic.  [size_of] is the size alone. *)
Definition total_size_bytes chunk : Z * t :=
  (stack_size_bytes + fst (heap_size_bytes_cached chunk), snd (heap_size_bytes_cached chunk)).
Definition size_of chunk : Z := fst (total_size_bytes chunk).

Definition needs_split_bytes (chunk_size_bytes : Z) (cfg : ChunkSplitConfig) : bool :=
  (0 <? chunk_max_bytes cfg) && (chunk_max_bytes cfg <? chunk_size_bytes).
Definition needs_split_rows chunk (cfg : ChunkSplitConfig) : bool :=
  (0 <? chunk_max_rows cfg) && (chunk_max_rows cfg <? Z.of_nat (num_rows chunk)).
Definition needs_split_unsorted chunk (cfg : ChunkSplitConfig) : bool :=
  (0 <? chunk_max_rows_if_unsorted cfg)
  && (chunk_max_rows_if_unsorted cfg <? Z.of_nat (num_rows chunk))
  && negb (all_timelines_sorted chunk).

Definition target_rows chunk (chunk_size_bytes : Z) (cfg : ChunkSplitConfig) : nat :=
  let chunk_num_rows := Z.of_nat (num_rows chunk) in
  let target_rows :=
    if needs_split_unsorted chunk cfg then chunk_max_rows_if_unsorted cfg
    else if needs_split_rows chunk cfg then chunk_max_rows cfg
    else
      let bytes_per_row := chunk_size_bytes / Z.max chunk_num_rows 1 in
      chunk_max_bytes cfg / Z.max bytes_per_row 1 in
  Z.to_nat (Z.max target_rows 1).

Fixpoint split_loop (new_ids : nat -> ChunkId.t) chunk (target_rows fuel start_idx piece : nat) : list t :=
  match fuel with
  | O => []
  | S fuel =>
      if (start_idx <? num_rows chunk)%nat then
        let remaining_rows := (num_rows chunk - start_idx)%nat in
        let chunk_size := Nat.min remaining_rows target_rows in
        row_sliced_deep (new_ids piece) chunk start_idx chunk_size
          :: split_loop new_ids chunk target_rows fuel (start_idx + chunk_size) (S piece)
      else []
  end.

(** The size is asked for first, so the chunk that is returned whole is measured. *)
Definition split_chunk_if_needed (new_ids : nat -> ChunkId.t) chunk (cfg : ChunkSplitConfig) : list t :=
  let chunk_size_bytes := fst (total_size_bytes chunk) in
  let chunk := snd (total_size_bytes chunk) in
  if (num_rows chunk <=? 1)%nat then [chunk]
  else if negb (needs_split_bytes chunk_size_bytes cfg) && negb (needs_split_rows chunk cfg)
          && negb (needs_split_unsorted chunk cfg)
  then [chunk]
  else split_loop new_ids chunk (target_rows chunk chunk_size_bytes cfg) (num_rows chunk) 0 0.

End Split.

Section SplitSpec.

Context `{Build} `{ArrowLaws} `{!SizeBytes}.
Implicit Types chunk : t.

Lemma split_loop_spec new_ids chunk target fuel start piece :
  chunk_wf chunk -> (1 <= target)%nat -> (num_rows chunk - start <= fuel)%nat ->
  (start <= num_rows chunk)%nat ->
  let pieces := split_loop new_ids chunk target fuel start piece in
  mjoin (rows <$> pieces) = drop start (rows chunk)
  /\ Forall (fun p => chunk_wf p /\ same_shape chunk p
      /\ (1 <= num_rows p <= target)%nat /\ (num_rows p <= num_rows chunk)%nat) pieces.
Proof.
  intros Hwf Ht. revert start piece. induction fuel as [|fuel IH]; intros start piece Hf Hs; cbn [split_loop].
  { rewrite drop_ge by (rewrite length_rows; lia). split; [done|constructor]. }
  destruct (Nat.ltb_spec start (num_rows chunk)) as [Hlt|Hge].
  2:{ rewrite drop_ge by (rewrite length_rows; lia). split; [done|constructor]. }
  cbv zeta. set (n := Nat.min (num_rows chunk - start) target).
  destruct (row_sliced_rows (new_ids piece) chunk start n true Hwf) as (Hw & Hr & _ & Hsh).
  destruct (IH (start + n)%nat (S piece)) as [Hj Hall]; [subst n; lia|subst n; lia|].
  split.
  - rewrite fmap_cons. simpl mjoin. rewrite Hj. unfold row_sliced_deep. rewrite Hr.
    rewrite <- (take_drop n (drop start (rows chunk))) at 2. by rewrite drop_drop.
  - constructor; [|done]. split_and!; [done|done| | |].
    all: rewrite <- (length_rows (row_sliced_deep _ _ _ _)); unfold row_sliced_deep; rewrite Hr, length_take, length_drop, length_rows;
      subst n; lia.
Qed.

(** Splitting partitions the rows in order: every row is in exactly one piece, at its
    place. The loop terminates with non-empty well-formed pieces of the chunk's columns, and the
    row limits that are set are respected: the one for time-sorted chunks when every timeline is
    sorted, the one for the others when some timeline is not. *)
Lemma split_chunk_if_needed_spec new_ids chunk cfg : chunk_wf chunk ->
  let pieces := split_chunk_if_needed new_ids chunk cfg in
  mjoin (rows <$> pieces) = rows chunk
  /\ Forall (fun p => chunk_wf p /\ (num_rows chunk <> 0%nat -> (1 <= num_rows p)%nat)
      /\ (0 < chunk_max_rows cfg -> all_timelines_sorted chunk = true ->
          Z.of_nat (num_rows p) <= chunk_max_rows cfg)
      /\ (0 < chunk_max_rows_if_unsorted cfg -> all_timelines_sorted chunk = false ->
          Z.of_nat (num_rows p) <= chunk_max_rows_if_unsorted cfg)) pieces.
Proof.
  intros Hwf. cbv zeta. unfold split_chunk_if_needed. cbv zeta.
  assert (all_timelines_sorted (measured chunk) = all_timelines_sorted chunk) as <-
    by (by apply (measured_cases (fun c c' => all_timelines_sorted c' = all_timelines_sorted c))).
  rewrite <- (measured_rows chunk), <- (measured_num_rows chunk). apply measured_wf in Hwf.
  change (snd (total_size_bytes chunk)) with (measured chunk).
  generalize (fst (total_size_bytes chunk)). intros size. revert Hwf. generalize (measured chunk). clear chunk.
  intros chunk Hwf. destruct (Nat.leb_spec (num_rows chunk) 1).
  { split; [apply app_nil_r|]. constructor; [|constructor]. split_and!; [done|lia|lia|lia]. }
  destruct (negb (needs_split_bytes size cfg) && negb (needs_split_rows chunk cfg)
          && negb (needs_split_unsorted chunk cfg)) eqn:E.
  { rewrite !andb_true_iff, !negb_true_iff in E. destruct E as [[_ Er] Eu].
    unfold needs_split_rows, needs_split_unsorted in Er, Eu.
    split; [apply app_nil_r|]. constructor; [|constructor]. split_and!; [done|lia| |].
    - intros. rewrite (proj2 (Z.ltb_lt _ _)) in Er by done. simpl in Er. lia.
    - intros Hpos Hu. rewrite (proj2 (Z.ltb_lt _ _) Hpos), Hu, andb_true_r in Eu. simpl in Eu. lia. }
  destruct (split_loop_spec new_ids chunk (target_rows chunk size cfg) (num_rows chunk) 0 0) as [Hj Hall];
    [done|unfold target_rows; lia|lia|lia|].
  split; [done|]. eapply Forall_impl; [exact Hall|]. intros p (Hw & _ & Hn & Hle).
  split_and!; [done|lia| |]; intros Hpos Hu.
  - revert Hn. unfold target_rows, needs_split_unsorted. rewrite Hu, andb_false_r.
    unfold needs_split_rows in *. rewrite (proj2 (Z.ltb_lt _ _) Hpos). cbn [andb].
    destruct (Z.ltb_spec (chunk_max_rows cfg) (Z.of_nat (num_rows chunk))); [lia|].
    lia.
  - revert Hn. unfold target_rows, needs_split_unsorted. rewrite Hu, (proj2 (Z.ltb_lt _ _) Hpos). cbn [andb negb].
    rewrite andb_true_r. destruct (Z.ltb_spec (chunk_max_rows_if_unsorted cfg) (Z.of_nat (num_rows chunk))); [lia|].
    lia.
Qed.

End SplitSpec.

End ChunkSplit.
