(* ===== verification/ChunkSort.v ===== *)
(** * Sorting chunks

    [dl_chunk/src/shuffle.rs], and the constructor [Chunk::from_auto_row_ids] that sorts by
    time.  Sorting is proved to be the stable sort of the chunk's rows. *)

From stdpp Require Import strings.
From S2P Require Import Prelude Ints Tuid TimeInt TimeRange Arrow Column Chunk ChunkSlice.

Module ChunkSort.

Import Chunk ChunkSlice.

Section Operations.

Context `{Build} `{ArrowOps} `{!SizeBytes}.
Implicit Types self : t.

(** One list array of [shuffle_with]: the entries' values, null ones included, are cut out
    and concatenated again. *)
Definition shuffle_list_array (original : ListArray) (swaps : list nat) : outcome ListArray :=
  sorted_arrays ← mapM (fun from =>
    if decide (from < list_len original)%nat then Done (list_value original from) else Panic) swaps;
  let offsets := offsets_from_lengths (arr_len <$> sorted_arrays) in
  values ← unwrap (arr_concat sorted_arrays);
  let validity := (fun validity => (fun from => nth from validity false) <$> swaps)
                    <$> list_nulls original in
  list_new (list_field original) offsets values validity.

(** The cached heap size is kept. *)
Definition shuffle_with (new_id : ChunkId.t) self (swaps : list nat) : outcome t :=
  row_ids ← shuffle_vec (row_ids self) swaps;
  timelines ← collect_map (fun info => TimeColumn.shuffled info swaps) (timelines self);
  components ← collect_map (fun column =>
      l ← shuffle_list_array (ChunkComponents.list_array column) swaps;
      Done (with_array column l)) (components self);
  let chunk := Mk new_id (entity_path self) (heap_size_bytes self) false row_ids timelines components in
  Done (Mk new_id (entity_path self) (heap_size_bytes self) (is_row_ids_sorted_uncached chunk)
    row_ids timelines components).

(** [swaps.sort_by_key(|&i| row_ids\[i\])] on [0..len]. *)
Definition row_id_swaps self : list nat :=
  sort_by (fun i j => RowId.le (nth i (row_ids self) RowId.ZERO) (nth j (row_ids self) RowId.ZERO))
    (seq 0 (length (row_ids self))).

(** [shuffle_with] gives the chunk another new id. *)
Definition sort_by_row_ids_if_needed (new_id : ChunkId.t) self : outcome t :=
  if is_row_ids_sorted self then Done self
  else
    chunk ← shuffle_with new_id self (row_id_swaps self);
    checked chunk.

(** The key is the pair [(times\[i\], row_ids\[i\])]. *)
Definition timeline_swaps self (times : list Z) : list nat :=
  sort_by (lex_le (fun i j => nth i times 0 <=? nth j times 0)
             (fun i j => RowId.le (nth i (row_ids self) RowId.ZERO) (nth j (row_ids self) RowId.ZERO)))
    (seq 0 (length times)).

Definition sorted_by_timeline_if_unsorted (new_id : ChunkId.t) self (timeline : TimelineName) : outcome t :=
  match timelines self !! timeline with
  | None => Done (clone_with_same_id self)
  | Some time_column =>
      if TimeColumn.is_sorted time_column then Done (clone_with_same_id self)
      else
        let chunk := clone_with_id self new_id in
        chunk ← shuffle_with new_id chunk (timeline_swaps self (TimeColumn.times time_column));
        checked chunk
  end.

(** *** [from_auto_row_ids] *)

(** [timelines.keys().sorted()]. *)
Definition timeline_order (timelines : gmap string TimeColumn.t) : list TimelineName :=
  sort_by String.leb (map_to_list timelines).*1.

(** The comparison of two rows: the timelines in turn, until they differ.  Indexing past
    the end of a time column panics. *)
Fixpoint cmp_times (tcs : list (list Z)) (a b : nat) : outcome bool :=
  match tcs with
  | [] => Done true
  | times :: tcs =>
      ta ← unwrap (times !! a);
      tb ← unwrap (times !! b);
      match ta ?= tb with Eq => cmp_times tcs a b | Lt => Done true | Gt => Done false end
  end.

(** [placeholder_id] is the argument [id], [new_id] the one [shuffle_with] draws. *)
Definition from_auto_row_ids (placeholder_id new_id : ChunkId.t) (path : list string)
    (timelines : gmap string TimeColumn.t) (components : ChunkComponents.t)
    : outcome (result t ChunkError) :=
  let count := from_option list_len 0%nat (head (ChunkComponents.list_arrays components)) in
  let columns := (fun name => from_option TimeColumn.times [] (timelines !! name))
                   <$> timeline_order timelines in
  swaps ← try_sort_by (cmp_times columns) (seq 0 count);
  r ← new placeholder_id path (Some true) (auto_row_ids placeholder_id count) timelines components;
  match r with
  | Err e => Done (Err e)
  | Ok chunk =>
      if forallb (fun '(to, from) => (to =? from)%nat) (imap pair swaps) then Done (Ok chunk)
      else
        chunk ← shuffle_with new_id chunk swaps;
        let chunk := Mk (id chunk) (entity_path chunk) (heap_size_bytes chunk) true
          (auto_row_ids (id chunk) count) (Chunk.timelines chunk) (Chunk.components chunk) in
        _ ← debug_sanity_check chunk;
        Done (Ok chunk)
  end.

End Operations.

End ChunkSort.

Section Specs.

Import Chunk ChunkSlice ChunkSort.
Context `{Build} `{ArrowLaws} `{!SizeBytes}.
Implicit Types c : t.

Lemma shuffle_list_array_spec l swaps : swaps ≡ₚ seq 0 (list_len l) -> list_len l <> 0%nat ->
  exists r, shuffle_list_array l swaps = Done r /\ list_field r = list_field l
    /\ pick (elems l) swaps = Some (elems r).
Proof.
  intros Hp Hn. unfold shuffle_list_array.
  assert (Forall (fun from => from < list_len l)%nat swaps) as Hr.
  { apply Forall_forall. intros i Hi. rewrite Hp in Hi. apply elem_of_seq in Hi. lia. }
  assert (mapM (fun from => if decide (from < list_len l)%nat then Done (list_value l from) else Panic) swaps
    = Done (list_value l <$> swaps)) as ->.
  { clear Hp. induction Hr as [|i swaps Hi Hr IH]; [done|]. simpl. rewrite decide_True by done.
    cbn [mbind outcome_bind]. by rewrite IH. }
  cbn [mbind outcome_bind].
  assert (length swaps = list_len l) as Hl by (by rewrite Hp, length_seq).
  destruct (arr_concat_law (list_field l) (list_value l <$> swaps)) as (vals & -> & Hacc & Hvl & Hsl).
  { destruct swaps; [simpl in Hl; congruence|done]. }
  { apply Forall_fmap. eapply Forall_impl; [exact Hr|]. intros i Hi. by apply list_value_accepts. }
  cbn [unwrap mbind outcome_bind].
  destruct (list_new_lengths (list_field l) (arr_len <$> (list_value l <$> swaps)) vals
    ((fun validity => (fun from => nth from validity false) <$> swaps) <$> list_nulls l))
    as (r & -> & Hf & _ & _ & Hlen & He).
  - by rewrite Hvl, sum_list_fmap.
  - destruct (list_nulls l); simpl; [|done]. apply bool_decide_eq_true. by rewrite !length_fmap.
  - done.
  - exists r. split_and!; [done|done|]. rewrite !length_fmap in Hlen. apply pick_intro; [done|].
    intros i j Hi. rewrite Forall_forall in Hr. apply list_elem_of_lookup_2 in Hi as Hj. apply Hr in Hj.
    rewrite (He i (arr_len (list_value l j))) by (by rewrite !list_lookup_fmap, Hi).
    rewrite elems_lookup by done. f_equal. unfold list_entry, is_valid.
    specialize (Hsl i (list_value l j)). rewrite list_lookup_fmap, Hi in Hsl. specialize (Hsl eq_refl).
    assert (sum_list (take i (arr_len <$> (list_value l <$> swaps)))
      = sum_list_with arr_len (take i (list_value l <$> swaps))) as ->.
    { by rewrite <- fmap_take, sum_list_fmap. }
    rewrite Hsl. destruct (list_nulls l) as [v|]; [|done]. simpl.
    by erewrite nth_lookup_Some by (by rewrite list_lookup_fmap, Hi).
Qed.

Lemma shuffle_with_spec new_id c swaps : chunk_wf c -> swaps ≡ₚ seq 0 (num_rows c) ->
  num_rows c <> 0%nat ->
  exists c', shuffle_with new_id c swaps = Done c' /\ columns_pick c c' swaps /\ chunk_wf c'
    /\ same_shape c c' /\ id c' = new_id /\ heap_size_bytes c' = heap_size_bytes c.
Proof.
  intros Hwf Hp Hn. pose proof (chunk_wf_keyed c Hwf) as Hk. destruct Hwf as (Hs & Ht & Hc).
  destruct (pick_permutation (row_ids c) swaps Hp) as (ids & Hids & _).
  assert (length swaps = length (row_ids c)) as Hls by (by rewrite Hp, length_seq).
  unfold shuffle_with. rewrite (shuffle_vec_spec _ _ ids) by done. cbn [mbind outcome_bind].
  destruct (collect_map_spec (fun info => TimeColumn.shuffled info swaps) (timelines c)
    (fun tc tc' => tc_wf tc' /\ TimeColumn.timeline tc' = TimeColumn.timeline tc
       /\ pick (TimeColumn.times tc) swaps = Some (TimeColumn.times tc'))) as (tls & -> & Htls).
  { intros k tc Htc. destruct (Ht k tc Htc) as [Hl Hw].
    destruct (tc_shuffled_spec tc swaps Hw) as (r & ts & Hr & Hrw & Hrt & Hrl & Hpk & _); [by rewrite Hl|].
    exists r. by rewrite Hrt. }
  cbn [mbind outcome_bind].
  destruct (collect_map_spec (fun column =>
      l ← shuffle_list_array (ChunkComponents.list_array column) swaps; Done (with_array column l))
    (components c)
    (fun col col' => ChunkComponents.descriptor col' = ChunkComponents.descriptor col
       /\ pick (elems (ChunkComponents.list_array col)) swaps
          = Some (elems (ChunkComponents.list_array col')))) as (comps & -> & Hcomps).
  { intros k col Hcol. destruct (Hc k col Hcol) as [_ Hl].
    destruct (shuffle_list_array_spec (ChunkComponents.list_array col) swaps) as (r & -> & _ & Hr);
      [by rewrite Hl|by rewrite Hl|]. by eexists. }
  cbn [mbind outcome_bind]. eexists. split; [done|].
  set (c' := Mk new_id (entity_path c) (heap_size_bytes c) _ ids tls comps).
  assert (columns_pick c c' swaps) as Hpick.
  { subst c'. split_and!; cbn [row_ids timelines components]; [done| |]; intros k.
    - specialize (Htls k). destruct (timelines c !! k), (tls !! k); try done. apply Htls.
    - specialize (Hcomps k). destruct (components c !! k), (comps !! k); try done. apply Hcomps. }
  split_and!; try done.
  - apply (picked_wf c c' swaps Hpick); [| |done].
    + intros k col' Hcol'. subst c'. cbn [components] in Hcol'. specialize (Hcomps k).
      rewrite Hcol' in Hcomps. destruct (components c !! k) as [col|] eqn:E; [|done].
      destruct Hcomps as [-> _]. by apply (Hk k col).
    + intros k tc' Htc'. subst c'. cbn [timelines] in Htc'. specialize (Htls k).
      rewrite Htc' in Htls. destruct (timelines c !! k); [|done]. apply Htls.
  - unfold same_shape; subst c'; cbn [entity_path timelines components]. split_and!; [done| |]; intros k.
    + specialize (Htls k). destruct (timelines c !! k), (tls !! k); try done. simpl. f_equal. apply Htls.
    + specialize (Hcomps k). destruct (components c !! k), (comps !! k); try done. simpl. f_equal. apply Hcomps.
Qed.

Definition row_le (r s : Row) : bool := RowId.le (row_id r) (row_id s).
Definition time_row_le (timeline : TimelineName) : Row -> Row -> bool :=
  lex_le (fun r s => time_of timeline r <=? time_of timeline s) row_le.

#[export] Instance row_le_preorder : TotalPreorder row_le.
Proof. unfold row_le. apply (comap_preorder row_id RowId.le), _. Qed.

Lemma row_id_rows c : row_id <$> rows c = row_ids c.
Proof.
  apply list_eq. intros i. rewrite list_lookup_fmap, lookup_rows. by destruct (row_ids c !! i).
Qed.

Lemma nth_row_id c i r : rows c !! i = Some r -> nth i (row_ids c) RowId.ZERO = row_id r.
Proof.
  intros Hr. apply nth_lookup_Some. by rewrite <- row_id_rows, list_lookup_fmap, Hr.
Qed.

Lemma sorted_rows_ids c : windows_all RowId.le (row_ids c) = true <-> sorted_by row_le (rows c).
Proof.
  rewrite windows_all_sorted, <- row_id_rows by apply _.
  induction (rows c) as [|r l IH]; [split; constructor|]. rewrite fmap_cons.
  split; intros Hs; inversion_clear Hs as [|? ? Hs' Hf]; (constructor; [by apply IH|]).
  - by apply Forall_fmap in Hf.
  - by apply Forall_fmap.
Qed.

(** Sorting by row id performs the stable sort of the rows, whatever the cached flag says
    on a well-formed chunk, and yields a chunk marked as sorted. *)
Lemma sort_by_row_ids_rows new_id c : very_strict = false -> sturdy c -> chunk_wf c ->
  exists c', sort_by_row_ids_if_needed new_id c = Done c' /\ chunk_wf c' /\ same_shape c c'
    /\ rows c' = sort_by row_le (rows c) /\ is_sorted c' = true /\ sturdy c'
    /\ heap_size_bytes c' = heap_size_bytes c.
Proof.
  intros Hv Hh Hwf. unfold sort_by_row_ids_if_needed. destruct (is_row_ids_sorted c) eqn:E.
  - exists c. unfold is_row_ids_sorted in E. split_and!; try done.
    symmetry. apply sort_by_id. apply sorted_rows_ids. destruct Hwf as (Hs & _).
    unfold is_row_ids_sorted_uncached in Hs. congruence.
  - unfold is_row_ids_sorted in E.
    assert (num_rows c <> 0%nat) as Hn.
    { intros Hn. destruct Hwf as (Hs & _). unfold is_row_ids_sorted_uncached in Hs.
      apply nil_length_inv in Hn. rewrite Hn in Hs. simpl in Hs. congruence. }
    destruct (shuffle_with_spec new_id c (row_id_swaps c) Hwf) as (c' & -> & Hp & Hw & Hsh & Hid & Hheap);
      [apply sort_by_positions_perm|done|].
    cbn [mbind outcome_bind].
    assert (rows c' = sort_by row_le (rows c)) as Hr.
    { apply (rows_pick_eq c c' _ _ Hp). unfold row_id_swaps. fold (num_rows c). rewrite <- length_rows.
      apply pick_sort_by. intros i j r s Hi Hj. unfold row_le.
      by rewrite (nth_row_id c i r Hi), (nth_row_id c j s Hj). }
    assert (sturdy c') as Hst.
    { apply (sturdy_reshuffled c); [done| |done]. split_and!; [done|done|]. rewrite Hr. apply sort_by_perm. }
    rewrite sturdy_checked by done. exists c'. split_and!; try done.
    destruct Hw as (-> & _). apply sorted_rows_ids. rewrite Hr. apply sort_by_sorted, _.
Qed.

(** The sorted chunk has its own id, or the one it draws. *)
Lemma sort_by_row_ids_id new_id c c' : sort_by_row_ids_if_needed new_id c = Done c' ->
  id c' = id c \/ id c' = new_id.
Proof.
  unfold sort_by_row_ids_if_needed. destruct (is_row_ids_sorted c); [intros [= <-]; by left|]. intros Hrun. right.
  unfold shuffle_with in Hrun. revert Hrun. set (swaps := row_id_swaps c).
  destruct (shuffle_vec (row_ids c) swaps) as [ids|]; [|done]. cbn [mbind outcome_bind].
  destruct (collect_map _ (timelines c)) as [tls|]; [|done]. cbn [mbind outcome_bind].
  destruct (collect_map _ (components c)) as [comps|]; [|done]. cbn [mbind outcome_bind].
  unfold checked. destruct (debug_sanity_check _); [|done]. cbn [mbind outcome_bind]. by intros [= <-].
Qed.

(** [sort_by_row_ids_if_needed] never fails on a well-formed chunk: the rows come out as
    the stable sort by row id, whole rows together, and the chunk is marked as sorted. A chunk
    that is sorted already keeps its id. *)
Lemma sort_by_row_ids_spec new_id c :
  very_strict = false -> sturdy c -> chunk_wf c ->
  exists c', sort_by_row_ids_if_needed new_id c = Done c'
    /\ chunk_wf c' /\ is_sorted c' = true /\ same_shape c c'
    /\ rows c' = sort_by row_le (rows c) /\ rows c' ≡ₚ rows c
    /\ (sorted_by row_le (rows c) -> c' = c).
Proof.
  intros Hv Hh Hwf. destruct (sort_by_row_ids_rows new_id c Hv Hh Hwf)
    as (c' & Hd & Hw & Hsh & Hr & Hs & _).
  exists c'. split_and!; try done.
  - rewrite Hr. apply sort_by_perm.
  - intros Hsorted. unfold sort_by_row_ids_if_needed in Hd.
    assert (is_row_ids_sorted c = true) as Hf.
    { unfold is_row_ids_sorted. destruct Hwf as (-> & _). by apply sorted_rows_ids. }
    rewrite Hf in Hd. by injection Hd.
Qed.

Lemma nth_time c timeline tc i r : chunk_wf c -> timelines c !! timeline = Some tc ->
  rows c !! i = Some r -> nth i (TimeColumn.times tc) 0 = time_of timeline r.
Proof.
  intros Hwf Htc Hr. apply nth_lookup_Some.
  by rewrite <- (time_of_rows c timeline tc), list_lookup_fmap, Hr.
Qed.

Lemma length_times c timeline tc : chunk_wf c -> timelines c !! timeline = Some tc ->
  length (TimeColumn.times tc) = length (rows c).
Proof. intros (_ & Ht & _) Htc. rewrite length_rows. by destruct (Ht _ _ Htc). Qed.

Lemma timeline_swaps_pick c timeline tc : chunk_wf c -> timelines c !! timeline = Some tc ->
  pick (rows c) (timeline_swaps c (TimeColumn.times tc))
    = Some (sort_by (time_row_le timeline) (rows c)).
Proof.
  intros Hwf Htc. unfold timeline_swaps. rewrite (length_times c timeline tc) by done.
  apply pick_sort_by. intros i j r s Hi Hj. unfold time_row_le, lex_le, row_le.
  by rewrite (nth_time c timeline tc i r), (nth_time c timeline tc j s), (nth_row_id c i r),
    (nth_row_id c j s).
Qed.

#[export] Instance time_row_le_preorder timeline : TotalPreorder (time_row_le timeline).
Proof. apply lex_preorder; apply _. Qed.

Lemma sorted_by_timeline_rows new_id c timeline :
  very_strict = false -> sturdy c -> chunk_wf c ->
  exists c', sorted_by_timeline_if_unsorted new_id c timeline = Done c'
    /\ chunk_wf c' /\ same_shape c c' /\ sturdy c' /\ heap_size_bytes c' = heap_size_bytes c
    /\ match timelines c !! timeline with
       | None => c' = c
       | Some tc => sorted_by (fun r s => time_of timeline r <=? time_of timeline s) (rows c')
           /\ (TimeColumn.is_sorted tc = true -> c' = c)
           /\ (TimeColumn.is_sorted tc = false ->
               id c' = new_id /\ rows c' = sort_by (time_row_le timeline) (rows c))
       end.
Proof.
  intros Hv Hh Hwf. assert (clone_with_same_id c = c) as Hclone by by destruct c.
  unfold sorted_by_timeline_if_unsorted. rewrite Hclone.
  destruct (timelines c !! timeline) as [tc|] eqn:Htc; [|by exists c].
  destruct (TimeColumn.is_sorted tc) eqn:Es.
  { exists c. split_and!; try done. destruct Hwf as (Hs & Ht & Hc) eqn:Heq. clear Heq.
    destruct (Ht _ _ Htc) as (_ & Hsorted & _). rewrite Es in Hsorted. symmetry in Hsorted.
    apply windows_all_sorted in Hsorted; [|apply _].
    apply sorted_intro. intros i j x y Hij Hx Hy.
    eapply (sorted_lookup Z.leb (TimeColumn.times tc) i j); [done|lia|..];
      by rewrite <- (time_of_rows c timeline tc), list_lookup_fmap, ?Hx, ?Hy. }
  assert (num_rows c <> 0%nat) as Hn.
  { intros Hn. destruct Hwf as (_ & Ht & _). destruct (Ht _ _ Htc) as (Hl & Hsorted & _).
    rewrite Hn in Hl. apply nil_length_inv in Hl. rewrite Es in Hsorted.
    unfold TimeColumn.times_sorted in Hsorted. by rewrite Hl in Hsorted. }
  pose proof (length_times c timeline tc Hwf Htc) as Hlt. rewrite length_rows in Hlt.
  destruct (shuffle_with_spec new_id (clone_with_id c new_id) (timeline_swaps c (TimeColumn.times tc)) Hwf)
    as (c' & -> & Hp & Hw & Hsh & Hid & Hheap); [|done|].
  { unfold timeline_swaps. rewrite Hlt. apply sort_by_positions_perm. }
  cbn [mbind outcome_bind].
  assert (rows c' = sort_by (time_row_le timeline) (rows c)) as Hr.
  { apply (rows_pick_eq c c' _ _ Hp). by apply timeline_swaps_pick. }
  assert (sturdy c') as Hst.
  { apply (sturdy_reshuffled c); [done| |done]. split_and!; [done|done|]. rewrite Hr. apply sort_by_perm. }
  rewrite sturdy_checked by done. exists c'. split_and!; try done. rewrite Hr.
  apply sorted_intro. intros i j x y Hij Hx Hy.
  pose proof (sorted_lookup (time_row_le timeline) _ i j x y (sort_by_sorted _ (rows c)) ltac:(lia) Hx Hy) as Hle.
  unfold time_row_le, lex_le in Hle. by apply andb_true_iff in Hle as [? _].
Qed.

(** [sorted_by_timeline_if_unsorted]: without the timeline, or when it is sorted, the chunk
    is returned as it is, id included; otherwise the rows are sorted by time and, among equal
    times, by row id. The result is always sorted on the timeline. *)
Lemma sorted_by_timeline_spec new_id c timeline :
  very_strict = false -> sturdy c -> chunk_wf c ->
  exists c', sorted_by_timeline_if_unsorted new_id c timeline = Done c'
    /\ chunk_wf c' /\ same_shape c c'
    /\ match timelines c !! timeline with
       | None => c' = c
       | Some tc => sorted_by (fun r s => time_of timeline r <=? time_of timeline s) (rows c')
           /\ (TimeColumn.is_sorted tc = true -> c' = c)
           /\ (TimeColumn.is_sorted tc = false ->
               id c' = new_id /\ rows c' = sort_by (time_row_le timeline) (rows c))
       end.
Proof.
  intros Hv Hh Hwf. destruct (sorted_by_timeline_rows new_id c timeline Hv Hh Hwf) as (c' & ? & ? & ? & _ & _ & ?).
  by exists c'.
Qed.

(** *** Automatic row ids *)

Lemma lookup_successors rid n i : (i < n)%nat -> Tuid.inc (RowId.as_tuid rid) + Z.of_nat n <= u64_max + 1 ->
  exists r, successors rid n !! i = Some r /\ RowId.key r = RowId.key rid + Z.of_nat i.
Proof.
  revert rid i. induction n as [|n IH]; intros rid [|i] Hi Hinc; [lia|lia| |].
  - exists rid. split; [done|lia].
  - assert (RowId.next rid = RowId.Wrap (Tuid.incremented_by (RowId.as_tuid rid) 1)) as Hnext by done.
    assert (Tuid.inc (RowId.as_tuid rid) + 1 <= u64_max) as Hroom by lia.
    assert (RowId.key (RowId.next rid) = RowId.key rid + 1) as Hkey.
    { rewrite Hnext. apply as_u128_incremented_by; [lia|done]. }
    destruct (IH (RowId.next rid) i) as (r & Hr & Hrk); [lia| |exists r; split; [done|lia]].
    rewrite Hnext. cbn [RowId.as_tuid]. rewrite inc_incremented_by.
    pose proof (Tuid.inc_range (RowId.as_tuid rid)). rewrite Z.mod_small by int_lia. lia.
Qed.

Lemma length_successors rid n : length (successors rid n) = n.
Proof. revert rid. induction n; intros rid; simpl; congruence. Qed.

(** The ids a chunk id leaves room for before its counter half wraps around. *)
Definition ids_left (cid : ChunkId.t) (n : nat) : Prop :=
  Tuid.inc (ChunkId.as_tuid cid) + Z.of_nat n <= u64_max.

Lemma auto_row_ids_sorted cid n : ids_left cid n ->
  windows_all RowId.le (auto_row_ids cid n) = true.
Proof.
  intros Hleft. apply windows_all_sorted; [apply _|]. unfold auto_row_ids, ids_left in *.
  set (first := RowId.Wrap _). destruct n as [|n]; [constructor|].
  pose proof (Tuid.inc_range (ChunkId.as_tuid cid)) as Hi.
  assert (Tuid.inc (RowId.as_tuid first) = Tuid.inc (ChunkId.as_tuid cid) + 1) as Hf.
  { subst first. cbn [RowId.as_tuid]. unfold ChunkId.next. cbn [ChunkId.as_tuid].
    change (Tuid.next ?x) with (Tuid.incremented_by x 1). rewrite inc_incremented_by. apply Z.mod_small. int_lia. }
  apply sorted_intro. intros i j x y Hij Hx Hy. apply lookup_lt_Some in Hx as Hxl, Hy as Hyl.
  rewrite length_successors in Hxl, Hyl.
  assert (forall k z, (k < S n)%nat -> successors first (S n) !! k = Some z ->
    RowId.key z = RowId.key first + Z.of_nat k) as Hkey.
  { intros k z Hk' Hz. clear Hx Hy.
    destruct (lookup_successors first (S n) k) as (r & Hr & Hrk); [done|lia|]. congruence. }
  rewrite RowId.le_key, (Hkey i x), (Hkey j y) by done. lia.
Qed.

(** What a row holds besides its id. *)
Definition row_data (r : Row) : gmap string Z * gmap string Array := (row_times r, row_cells r).

(** Rows compared on the given timelines in turn. *)
Fixpoint times_le (names : list TimelineName) (r s : Row) : bool :=
  match names with
  | [] => true
  | name :: names => lex_le (fun r s => time_of name r <=? time_of name s) (times_le names) r s
  end.

#[local] Fixpoint times_le_pos (tcs : list (list Z)) (i j : nat) : bool :=
  match tcs with
  | [] => true
  | times :: tcs => lex_le (fun i j => nth i times 0 <=? nth j times 0) (times_le_pos tcs) i j
  end.

Lemma cmp_times_Done tcs i j : Forall (fun times => i < length times /\ j < length times)%nat tcs ->
  cmp_times tcs i j = Done (times_le_pos tcs i j).
Proof.
  induction 1 as [|times tcs [Hi Hj] Hf IH]; [done|]. cbn [cmp_times times_le_pos].
  destruct (lookup_lt_is_Some_2 _ _ Hi) as [ti Hti], (lookup_lt_is_Some_2 _ _ Hj) as [tj Htj].
  rewrite Hti, Htj. cbn [unwrap mbind outcome_bind]. unfold lex_le.
  rewrite (nth_lookup_Some _ _ _ _ Hti), (nth_lookup_Some _ _ _ _ Htj), IH.
  destruct (Z.compare_spec ti tj), (Z.leb_spec ti tj), (Z.leb_spec tj ti); simpl; done || lia.
Qed.

Lemma elem_of_timeline_order tls name : name ∈ timeline_order tls -> is_Some (tls !! name).
Proof.
  unfold timeline_order. rewrite elem_of_sort_by, list_elem_of_fmap.
  intros ([k tc] & -> & Hk%elem_of_map_to_list). by exists tc.
Qed.

Lemma times_le_rows c names i j r s : chunk_wf c -> Forall (fun name => is_Some (timelines c !! name)) names ->
  rows c !! i = Some r -> rows c !! j = Some s ->
  times_le_pos ((fun name => from_option TimeColumn.times [] (timelines c !! name)) <$> names) i j
    = times_le names r s.
Proof.
  intros Hwf Hn Hr Hs. induction Hn as [|name names [tc Htc] Hn IH]; [done|].
  rewrite fmap_cons. cbn [times_le_pos times_le]. unfold lex_le. rewrite Htc. cbn [from_option].
  by rewrite (nth_time c name tc i r), (nth_time c name tc j s), IH.
Qed.

Lemma sanity_check_wf c : very_strict = false -> (debug_assertions = true -> heap_cache_ok c) -> chunk_wf c ->
  sanity_check c = Done (Ok ()).
Proof.
  intros Hv Hh Hwf. destruct debug_assertions eqn:Hd.
  - destruct (sanity_check_debug c Hd Hv (wf_typed c Hwf)) as (r & -> & Hr).
    f_equal. apply Hr. split; [done|]. by apply Hh.
  - destruct (sanity_check_release c Hd Hv) as (r & -> & Hr). f_equal. apply Hr.
    destruct Hwf as (_ & Ht & Hc). split; [|done]. intros k tc Hk. by apply (Ht k tc).
Qed.

Lemma positions_sorted swaps : forallb (fun '(to, from) => (to =? from)%nat) (imap pair swaps) = true ->
  swaps = seq 0 (length swaps).
Proof.
  intros Hf. rewrite forallb_forall in Hf. apply list_eq. intros i.
  destruct (swaps !! i) as [j|] eqn:Hj.
  - specialize (Hf (i, j)). rewrite lookup_seq_lt by by apply lookup_lt_Some in Hj.
    rewrite <- list_elem_of_In, Nat.eqb_eq in Hf. rewrite Hf; [done|].
    apply list_elem_of_lookup. exists i. by rewrite list_lookup_imap, Hj.
  - symmetry. apply lookup_seq_ge. by apply lookup_ge_None.
Qed.

Lemma swaps_rows c : chunk_wf c ->
  exists swaps, try_sort_by (cmp_times ((fun name => from_option TimeColumn.times [] (timelines c !! name))
      <$> timeline_order (timelines c))) (seq 0 (num_rows c)) = Done swaps
    /\ swaps ≡ₚ seq 0 (num_rows c)
    /\ pick (rows c) swaps = Some (sort_by (times_le (timeline_order (timelines c))) (rows c)).
Proof.
  intros Hwf. set (columns := _ <$> _).
  rewrite (try_sort_by_Done _ (times_le_pos columns)).
  2:{ intros i j Hi%elem_of_seq Hj%elem_of_seq. apply cmp_times_Done, Forall_fmap, Forall_forall.
      intros name [tc Htc]%elem_of_timeline_order. simpl. rewrite Htc. simpl.
      rewrite (length_times c name tc), length_rows by done. lia. }
  eexists. split; [done|]. split; [apply sort_by_positions_perm|].
  rewrite <- length_rows. apply pick_sort_by. intros i j r s Hi Hj.
  apply times_le_rows; [done| |done|done]. apply Forall_forall. intros name. apply elem_of_timeline_order.
Qed.

(** Replacing the row ids changes the rows' ids only. *)
Definition with_row_ids c (srt : bool) (ids : list RowId.t) : t :=
  Mk (id c) (entity_path c) (heap_size_bytes c) srt ids (timelines c) (components c).

Lemma with_row_ids_data c srt ids : length ids = num_rows c ->
  row_data <$> rows (with_row_ids c srt ids) = row_data <$> rows c.
Proof.
  intros Hl. apply list_lookup_ext; [by rewrite !length_fmap, !length_rows|].
  intros i x y. rewrite !list_lookup_fmap, !lookup_rows. simpl.
  destruct (ids !! i), (row_ids c !! i); simpl; [by intros [= <-] [= <-]|done..].
Qed.

Lemma with_row_ids_wf c ids : chunk_wf c -> length ids = num_rows c ->
  windows_all RowId.le ids = true -> chunk_wf (with_row_ids c true ids).
Proof.
  intros (_ & Ht & Hc) Hl Hs. split; [by symmetry|]. unfold columns_wf, num_rows in *. simpl. by rewrite Hl.
Qed.

(** [from_auto_row_ids] succeeds on columns of one length (that of the first component):
    the chunk has fresh consecutive row ids in order, and its rows are the input rows stably
    sorted by their times, the timelines compared in the order of their names. *)
Lemma from_auto_row_ids_spec pid nid path tls comps :
  let count := from_option list_len 0%nat (head (ChunkComponents.list_arrays comps)) in
  let input := Mk pid path 0 true (auto_row_ids pid count) tls comps in
  very_strict = false -> columns_wf input -> ids_left pid count -> ids_left nid count ->
  exists c, from_auto_row_ids pid nid path tls comps = Done (Ok c)
    /\ chunk_wf c /\ is_sorted c = true /\ row_ids c = auto_row_ids (id c) count
    /\ row_data <$> rows c = row_data <$> sort_by (times_le (timeline_order tls)) (rows input).
Proof.
  intros count input Hv Hcols Hpid Hnid.
  assert (chunk_wf input) as Hwf by (split; [symmetry; by apply auto_row_ids_sorted|done]).
  assert (num_rows input = count) as Hn by (apply length_successors).
  unfold from_auto_row_ids. fold count.
  destruct (swaps_rows input Hwf) as (swaps & Hswaps & Hperm & Hpick). rewrite Hn in *.
  cbn [timelines input] in Hswaps. rewrite Hswaps. cbn [mbind outcome_bind]. unfold new.
  cbn [default from_option Datatypes.id]. fold input. rewrite sanity_check_wf by (done || by left). cbn [mbind outcome_bind].
  destruct (forallb _ _) eqn:Esorted.
  - exists input. split_and!; try done. f_equal.
    apply positions_sorted in Esorted.
    assert (length swaps = count) as Hl by (by rewrite Hperm, length_seq). rewrite Esorted, Hl in Hpick.
    rewrite <- Hn, <- length_rows, pick_all in Hpick. by injection Hpick.
  - assert (count <> 0%nat) as Hne.
    { intros E0. rewrite E0 in Hperm. simpl in Hperm. apply Permutation_nil_r in Hperm. by rewrite Hperm in Esorted. }
    destruct (shuffle_with_spec nid input swaps Hwf) as (c & Hshuf & Hp & Hw & Hsh & Hid & Hheap);
      [by rewrite Hn|by rewrite Hn|]. rewrite Hshuf. clear Hshuf.
    cbn [mbind outcome_bind]. fold (with_row_ids c true (auto_row_ids (id c) count)).
    assert (num_rows c = count) as Hnc.
    { destruct Hp as (Hp & _). apply pick_length in Hp. unfold num_rows. by rewrite Hp, Hperm, length_seq. }
    assert (chunk_wf (with_row_ids c true (auto_row_ids (id c) count))) as Hw'.
    { apply with_row_ids_wf; [done|by rewrite Hnc; apply length_successors|].
      apply auto_row_ids_sorted. by rewrite Hid. }
    rewrite debug_sanity_check_wf; [|done|by apply wf_typed|by left|done]. cbn [mbind outcome_bind].
    eexists. split_and!; [done|done|done|done|].
    rewrite with_row_ids_data by (rewrite Hnc; apply length_successors).
    f_equal. by apply (rows_pick_eq input c _ _ Hp).
Qed.

End Specs.
