(* ===== verification/ChunkMerge.v ===== *)
(** * Merging chunks

    [dl_chunk/src/merge.rs]: the overlap tests, and concatenation of two chunks, which
    compaction builds on.  Concatenation is proved to append the rows of the two chunks, and
    [concat_and_sort] to sort them. *)

From stdpp Require Import strings.
From S2P Require Import Prelude Ints Tuid TimeInt TimeRange Arrow Column Chunk ChunkSlice ChunkSort.

Module ChunkMerge.

Import Chunk ChunkSlice ChunkSort.

Section Operations.

Context `{Build} `{ArrowOps} `{!SizeBytes}.
Implicit Types self rhs : t.

Definition overlaps_on_row_id self rhs : bool :=
  match row_id_range self, row_id_range rhs with
  | Some (cl0, cl1), Some (cr0, cr1) => RowId.le cl0 cr1 && RowId.le cr0 cl1
  | _, _ => false
  end.

Definition overlaps_on_time self rhs : bool :=
  existsb (fun '(timeline, cl_time_chunk) =>
    match timelines rhs !! timeline with
    | Some cr_time_chunk =>
        AbsoluteTimeRange.intersects (TimeColumn.time_range cl_time_chunk)
          (TimeColumn.time_range cr_time_chunk)
    | None => false
    end) (map_to_list (timelines self)).

Definition same_entity_paths self rhs : bool := bool_decide (entity_path self = entity_path rhs).

Definition same_timelines self rhs : bool :=
  (size (timelines self) =? size (timelines rhs))%nat
  && forallb (fun '(name, lhs_column) =>
       match timelines rhs !! name with
       | Some rhs_column =>
           bool_decide (TimeColumn.timeline lhs_column = TimeColumn.timeline rhs_column)
       | None => false
       end) (map_to_list (timelines self)).

Definition same_datatypes self rhs : bool :=
  forallb (fun lhs_column =>
    match components rhs !! cd_component (ChunkComponents.descriptor lhs_column) with
    | Some rhs_column =>
        same_type (ChunkComponents.list_array lhs_column) (ChunkComponents.list_array rhs_column)
    | None => true
    end) (ChunkComponents.values (components self)).

Definition concatenable self rhs : bool :=
  same_entity_paths self rhs && same_timelines self rhs && same_datatypes self rhs.

(** The closure of the time columns' [map], over the names of both maps. *)
Definition concat_timelines self rhs : result (gmap string TimeColumn.t) ChunkError :=
  let columns := map_imap (fun timeline_name lhs_time_column => Some
    match timelines rhs !! timeline_name with
    | None => Err MissingTimeline
    | Some rhs_time_column => ok_or (TimeColumn.concatenated lhs_time_column rhs_time_column) TimelineDiffers
    end) (timelines self) in
  if decide (map_Forall (fun _ r => is_ok r = true) columns)
  then Ok (omap (fun r => match r with Ok c => Some c | Err _ => None end) columns)
  else
    Err (Malformed match omap (fun '(_, r) => match r with Ok _ => None | Err e => Some e end)
                           (map_to_list columns) with
                   | e :: _ => e | [] => MissingTimeline end).

(** [concat_arrays(..).ok()?]: a failure drops the column. *)
Definition concat_columns (column lhs rhs : ChunkComponents.column) : option ChunkComponents.column :=
  list_array ← concat_arrays [ChunkComponents.list_array lhs; ChunkComponents.list_array rhs];
  Some (with_array column list_array).

(** First pass: concat right onto left. *)
Definition concat_right self rhs (lhs_column : ChunkComponents.column)
    : outcome (option ChunkComponents.column) :=
  match components rhs !! cd_component (ChunkComponents.descriptor lhs_column) with
  | Some rhs_column => Done (concat_columns lhs_column lhs_column rhs_column)
  | None =>
      l ← pad_list_array_back (ChunkComponents.list_array lhs_column) (num_rows self + num_rows rhs);
      Done (Some (with_array lhs_column l))
  end.

(** Second pass: concat left onto right, where necessary. *)
Definition concat_left self rhs (done : ChunkComponents.t) (rhs_column : ChunkComponents.column)
    : outcome (option ChunkComponents.column) :=
  let component := cd_component (ChunkComponents.descriptor rhs_column) in
  if ChunkComponents.contains_component done component then Done None
  else
    match components self !! component with
    | Some lhs_column => Done (concat_columns rhs_column lhs_column rhs_column)
    | None =>
        l ← pad_list_array_front (ChunkComponents.list_array rhs_column) (num_rows self + num_rows rhs);
        Done (Some (with_array rhs_column l))
    end.

Definition concat_components self rhs : outcome ChunkComponents.t :=
  lhs_columns ← mapM (concat_right self rhs) (ChunkComponents.values (components self));
  let done := ChunkComponents.from_iter (omap Datatypes.id lhs_columns) in
  rhs_columns ← mapM (concat_left self rhs done) (ChunkComponents.values (components rhs));
  Done (foldl ChunkComponents.insert done (omap Datatypes.id rhs_columns)).

Definition concatenated_unsorted (new_id : ChunkId.t) self rhs : outcome (result t ChunkError) :=
  if negb (concatenable self rhs) then
    Done (Err (Malformed
      (if negb (same_entity_paths self rhs) then DifferentEntityPaths
       else if negb (same_timelines self rhs) then DifferentTimelines
       else DifferentDatatypes)))
  else
    match row_id_range self, row_id_range rhs with
    | None, _ => Done (Ok rhs)
    | _, None => Done (Ok self)
    | Some (_, cl1), Some (cr0, _) =>
        let is_sorted := is_sorted self && is_sorted rhs && RowId.le cl1 cr0 in
        match concat_arrays [row_ids self; row_ids rhs] with
        | None => Done (Err ArrowError)
        | Some row_ids =>
            match concat_timelines self rhs with
            | Err e => Done (Err e)
            | Ok timelines =>
                components ← concat_components self rhs;
                Done (Ok (Mk new_id (entity_path self) 0 is_sorted row_ids timelines components))
            end
        end
    end.

(** [Option]'s derived order: [None] is least. *)
Definition option_lt (a b : option RowId.t) : bool :=
  match a, b with
  | None, Some _ => true
  | Some a, Some b => RowId.lt a b
  | _, None => false
  end.

(** [new_id] is the concatenation's id, [sort_id] the one sorting draws.  The names of the
    two minima are the code's. *)
Definition concat_and_sort (new_id sort_id : ChunkId.t) (left right : t) : outcome (result t ChunkError) :=
  let left_rowid_min := fst <$> row_id_range right in
  let right_rowid_min := fst <$> row_id_range left in
  compacted ←
    (if option_lt right_rowid_min left_rowid_min
     then concatenated_unsorted new_id left right
     else concatenated_unsorted new_id right left);
  match compacted with
  | Err e => Done (Err e)
  | Ok compacted =>
      compacted ← sort_by_row_ids_if_needed sort_id compacted;
      r ← sanity_check compacted;
      match r with Err e => Done (Err e) | Ok () => Done (Ok compacted) end
  end.

End Operations.

End ChunkMerge.

(** ** Collecting component columns *)

Section Collect.

Context `{ArrowOps}.

Implicit Types g : ChunkComponents.column -> option ChunkComponents.column.
Implicit Types m self : ChunkComponents.t.

Let key (col : ChunkComponents.column) : string := cd_component (ChunkComponents.descriptor col).

Lemma elem_of_omap_values g self c :
  c ∈ omap g (ChunkComponents.values self) <-> exists k c0, self !! k = Some c0 /\ g c0 = Some c.
Proof.
  rewrite list_elem_of_omap. unfold ChunkComponents.values. split.
  - intros (c0 & ([k c1] & -> & Hk%elem_of_map_to_list)%list_elem_of_fmap & Hg). by exists k, c1.
  - intros (k & c0 & Hk & Hg). exists c0. split; [|done]. apply list_elem_of_fmap.
    exists (k, c0). split; [done|]. by apply elem_of_map_to_list.
Qed.

Lemma NoDup_omap_keys g (l : list (string * ChunkComponents.column)) :
  NoDup l.*1 -> Forall (fun '(k, c) => key c = k) l ->
  (forall c c', g c = Some c' -> key c' = key c) -> NoDup (key <$> omap g l.*2).
Proof.
  intros Hnd Hk Hg. induction l as [|[k c] l IH]; [constructor|].
  apply NoDup_cons in Hnd as [Hni Hnd]. apply Forall_cons in Hk as [Hkc Hk]. csimpl in *.
  specialize (IH Hnd Hk). destruct (g c) as [c'|] eqn:E; csimpl; [|done].
  constructor; [|done]. rewrite (Hg _ _ E), Hkc. intros (d & -> & Hd)%list_elem_of_fmap.
  apply list_elem_of_omap in Hd as (d0 & ([k0 d1] & -> & Hin)%list_elem_of_fmap & Hgd). apply Hni.
  rewrite Forall_forall in Hk. specialize (Hk _ Hin). simpl in Hk, Hgd. rewrite (Hg _ _ Hgd), Hk.
  apply list_elem_of_fmap. by exists (k0, d1).
Qed.

(** Inserting what [g] makes of the columns of a keyed map, one by one. *)
Lemma lookup_insert_values g m self k : ChunkComponents.keyed self ->
  (forall c c', g c = Some c' -> key c' = key c) ->
  foldl ChunkComponents.insert m (omap g (ChunkComponents.values self)) !! k =
    match self !! k ≫= g with Some c => Some c | None => m !! k end.
Proof.
  intros Hk Hg. set (cs := omap g _).
  assert (NoDup (key <$> cs)) as Hnd.
  { apply NoDup_omap_keys; [apply NoDup_fst_map_to_list| |done]. by apply map_to_list_Forall. }
  rewrite ChunkComponents.lookup_foldl_insert.
  2:{ intros i j c d Hi Hj He. apply (NoDup_lookup (key <$> cs) i j (key c)); [done|..].
      - by rewrite list_lookup_fmap, Hi.
      - rewrite list_lookup_fmap, Hj. simpl. f_equal. by symmetry. }
  destruct (list_find _ cs) as [[i c]|] eqn:E.
  - apply list_find_Some in E as (Hi & Hc & _). apply list_elem_of_lookup_2 in Hi.
    apply elem_of_omap_values in Hi as (k' & c0 & Hk' & Hgc).
    pose proof (Hg _ _ Hgc) as Hkc. unfold key in Hkc. rewrite (Hk k' c0 Hk'), Hc in Hkc. subst k'.
    by rewrite Hk'; simpl; rewrite Hgc.
  - apply list_find_None in E. destruct (self !! k ≫= g) as [c|] eqn:Ec; [|done].
    destruct (self !! k) as [c0|] eqn:Ek; [|done]. simpl in Ec. exfalso.
    rewrite Forall_forall in E. apply (E c); [apply elem_of_omap_values; by exists k, c0|].
    pose proof (Hg _ _ Ec) as Hkc. unfold key in Hkc. by rewrite (Hk k c0 Ek) in Hkc.
Qed.

Definition done_or_none {A} (o : outcome (option A)) : option A :=
  match o with Done a => a | Panic => None end.

Lemma mapM_done {A B} (f : A -> outcome (option B)) l :
  (forall x, x ∈ l -> is_done (f x) = true) ->
  exists ys, mapM f l = Done ys /\ omap Datatypes.id ys = omap (fun x => done_or_none (f x)) l.
Proof.
  induction l as [|x l IH]; intros Hf; [by exists []|].
  destruct IH as (ys & Hys & He); [intros; apply Hf; by right|].
  specialize (Hf x ltac:(left)). destruct (f x) as [y|] eqn:Ex; [|done].
  exists (y :: ys). simpl. rewrite Ex. cbn [mbind outcome_bind]. rewrite Hys. csimpl.
  split; [done|]. by rewrite He.
Qed.

End Collect.

Section Specs.

Import Chunk ChunkSlice ChunkSort ChunkMerge.
Context `{Build} `{ArrowLaws} `{!SizeBytes}.
Implicit Types c l r : t.

(** The entries of a component, null where the chunk lacks it. *)
Definition entries c (k : string) : list (option Array) :=
  match components c !! k with
  | Some col => elems (ChunkComponents.list_array col)
  | None => replicate (num_rows c) None
  end.

Lemma length_entries c k : chunk_wf c -> length (entries c k) = num_rows c.
Proof.
  intros (_ & _ & Hc). unfold entries. destruct (components c !! k) as [col|] eqn:E.
  - rewrite length_elems. by destruct (Hc k col E).
  - apply length_replicate.
Qed.

Lemma row_cells_entries c i (r : Row) k : rows c !! i = Some r ->
  row_cells r !! k = mjoin (entries c k !! i).
Proof.
  rewrite lookup_rows. intros Hr. destruct (row_ids c !! i) eqn:E; [|done]. injection Hr as <-.
  cbn [row_at row_cells]. rewrite lookup_omap. unfold entries, cell_at.
  destruct (components c !! k); simpl; [done|]. by destruct (replicate _ _ !! i) as [[]|] eqn:En;
    [apply lookup_replicate in En as [? _]|..].
Qed.

(** Columns that padding keeps aligned: those whose values have no unused parts. *)
Definition pads_well l r : Prop :=
  forall k col, components l !! k = Some col -> components r !! k = None ->
    compact (ChunkComponents.list_array col).

Lemma same_timelines_spec l r : same_timelines l r = true ->
  forall k, TimeColumn.timeline <$> timelines l !! k = TimeColumn.timeline <$> timelines r !! k.
Proof.
  unfold same_timelines. rewrite andb_true_iff, Nat.eqb_eq, forallb_forall. intros [Hsz Hf] k.
  assert (forall k tc, timelines l !! k = Some tc -> exists tc', timelines r !! k = Some tc'
    /\ TimeColumn.timeline tc = TimeColumn.timeline tc') as Hl.
  { intros k' tc Hk. specialize (Hf (k', tc)). rewrite <- list_elem_of_In in Hf.
    rewrite elem_of_map_to_list in Hf. specialize (Hf Hk). destruct (timelines r !! k') as [tc'|]; [|done].
    exists tc'. split; [done|]. by apply bool_decide_eq_true in Hf. }
  assert (dom (timelines l) = dom (timelines r)) as Hd.
  { apply set_subseteq_size_eq; [|rewrite !size_dom; lia].
    intros k' [tc Hk]%elem_of_dom. apply elem_of_dom. by destruct (Hl k' tc Hk) as (tc' & -> & _). }
  destruct (timelines l !! k) as [tc|] eqn:E.
  - destruct (Hl k tc E) as (tc' & -> & Ht). simpl. by rewrite Ht.
  - apply not_elem_of_dom in E. rewrite Hd in E. apply not_elem_of_dom in E. by rewrite E.
Qed.

Lemma same_datatypes_spec l r k cl cr : chunk_wf l -> same_datatypes l r = true ->
  components l !! k = Some cl -> components r !! k = Some cr ->
  same_type (ChunkComponents.list_array cl) (ChunkComponents.list_array cr) = true.
Proof.
  intros Hwf Hd Hl Hr. unfold same_datatypes in Hd. rewrite forallb_forall in Hd.
  specialize (Hd cl). rewrite (chunk_wf_keyed l Hwf k cl Hl), Hr in Hd.
  apply Hd, list_elem_of_In, list_elem_of_fmap. exists (k, cl). split; [done|]. by apply elem_of_map_to_list.
Qed.

Lemma concat_two (a b : ListArray) : same_type a b = true ->
  exists x, concat_arrays [a; b] = Some x /\ elems x = elems a ++ elems b.
Proof.
  intros Hs. destruct (concat_law a [b]) as (x & Hx & He & _); [by repeat constructor|].
  exists x. split; [done|]. rewrite He. simpl. by rewrite app_nil_r.
Qed.

(** What one component of the concatenation is made of. *)
Definition merged_column l r (k : string) (col : ChunkComponents.column) : Prop :=
  ChunkComponents.descriptor <$> (components l !! k ∪ components r !! k)
    = Some (ChunkComponents.descriptor col)
  /\ elems (ChunkComponents.list_array col) = entries l k ++ entries r k.

Lemma concat_right_spec l r k cl : chunk_wf l -> chunk_wf r -> same_datatypes l r = true ->
  pads_well l r -> components l !! k = Some cl ->
  exists col, concat_right l r cl = Done (Some col) /\ merged_column l r k col.
Proof.
  intros Hl Hr Hd Hp Hk. unfold concat_right, concat_columns, merged_column, entries.
  rewrite (chunk_wf_keyed l Hl k cl Hk), Hk. destruct (components r !! k) as [cr|] eqn:Er.
  - destruct (concat_two (ChunkComponents.list_array cl) (ChunkComponents.list_array cr)) as (x & -> & Hx);
      [by apply (same_datatypes_spec l r k)|]. by eexists.
  - destruct (pad_list_array_back_spec (ChunkComponents.list_array cl) (num_rows l + num_rows r))
      as (x & -> & _ & _ & Hx). cbn [mbind outcome_bind]. eexists. split; [done|]. split; [done|].
    cbn [with_array ChunkComponents.list_array]. rewrite (Hx (Hp k cl Hk Er)).
    destruct Hl as (_ & _ & Hc). destruct (Hc k cl Hk) as [_ ->]. do 2 f_equal. lia.
Qed.

Lemma concat_left_spec l r k cr done : chunk_wf l -> chunk_wf r -> same_datatypes l r = true ->
  pads_well r l -> components r !! k = Some cr ->
  (forall k, is_Some (components l !! k) -> is_Some (done !! k)) ->
  exists o, concat_left l r done cr = Done o
    /\ match done !! k with
       | Some _ => o = None
       | None => exists col, o = Some col /\ merged_column l r k col end.
Proof.
  intros Hl Hr Hd Hp Hk Hdone. unfold concat_left, ChunkComponents.contains_component, merged_column, entries.
  rewrite (chunk_wf_keyed r Hr k cr Hk), Hk. destruct (done !! k) as [x|] eqn:Ed.
  { rewrite bool_decide_true by done. by exists None. }
  rewrite bool_decide_false by (by intros []). destruct (components l !! k) as [cl|] eqn:El.
  { destruct (Hdone k); [by exists cl|congruence]. }
  destruct (pad_list_array_front_spec (ChunkComponents.list_array cr) (num_rows l + num_rows r))
      as (x & -> & _ & _ & Hx). cbn [mbind outcome_bind]. eexists. split; [done|]. eexists. split; [done|].
  split; [done|]. cbn [with_array ChunkComponents.list_array]. rewrite (Hx (Hp k cr Hk El)).
  destruct Hr as (_ & _ & Hc). destruct (Hc k cr Hk) as [_ ->]. do 2 f_equal. lia.
Qed.

Lemma merged_column_keyed l r k col : chunk_wf l -> chunk_wf r -> merged_column l r k col ->
  cd_component (ChunkComponents.descriptor col) = k.
Proof.
  intros Hl Hr [Hd _]. pose proof (chunk_wf_keyed l Hl k) as Hkl. pose proof (chunk_wf_keyed r Hr k) as Hkr.
  destruct (components l !! k) as [cl|], (components r !! k) as [cr|]; simplify_eq/=;
    rewrite <- Hd; auto.
Qed.

Lemma concat_keeps_descriptor l r done x y :
  done_or_none (concat_right l r x) = Some y \/ done_or_none (concat_left l r done x) = Some y ->
  ChunkComponents.descriptor y = ChunkComponents.descriptor x.
Proof.
  unfold concat_right, concat_left, concat_columns. intros [Hy|Hy].
  - destruct (components r !! _).
    + cbn [done_or_none] in Hy. destruct (concat_arrays _); [|done]. by injection Hy as <-.
    + destruct (pad_list_array_back _ _); [|done]. by injection Hy as <-.
  - destruct (ChunkComponents.contains_component _ _); [done|]. destruct (components l !! _).
    + cbn [done_or_none] in Hy. destruct (concat_arrays _); [|done]. by injection Hy as <-.
    + destruct (pad_list_array_front _ _); [|done]. by injection Hy as <-.
Qed.

Lemma elem_of_values (m : ChunkComponents.t) col :
  col ∈ ChunkComponents.values m <-> exists k, m !! k = Some col.
Proof.
  split.
  - intros ([k c] & -> & Hk%elem_of_map_to_list)%list_elem_of_fmap. by exists k.
  - intros [k Hk]. apply list_elem_of_fmap. exists (k, col). split; [done|]. by apply elem_of_map_to_list.
Qed.

Lemma concat_components_spec l r : chunk_wf l -> chunk_wf r -> same_datatypes l r = true ->
  pads_well l r -> pads_well r l ->
  exists m, concat_components l r = Done m
    /\ forall k, match m !! k with
       | Some col => merged_column l r k col
       | None => components l !! k = None /\ components r !! k = None end.
Proof.
  intros Hl Hr Hd Hpl Hpr. unfold concat_components.
  destruct (mapM_done (concat_right l r) (ChunkComponents.values (components l))) as (ys & -> & Hys).
  { intros col [k Hk]%elem_of_values. by destruct (concat_right_spec l r k col) as (? & -> & _). }
  cbn [mbind outcome_bind]. rewrite Hys. unfold ChunkComponents.from_iter.
  set (m1 := foldl ChunkComponents.insert ∅ _).
  assert (forall k, match m1 !! k with
    | Some col => is_Some (components l !! k) /\ merged_column l r k col
    | None => components l !! k = None end) as Hm1.
  { intros k. subst m1. rewrite lookup_insert_values, lookup_empty.
    - destruct (components l !! k) as [cl|] eqn:El; simpl; [|done].
      destruct (concat_right_spec l r k cl) as (col & -> & Hcol); done.
    - by apply chunk_wf_keyed.
    - intros c c' Hc. f_equal. by apply (concat_keeps_descriptor l r ∅); left. }
  assert (forall k, is_Some (components l !! k) -> is_Some (m1 !! k)) as Hdom.
  { intros k Hk. specialize (Hm1 k). destruct (m1 !! k); [done|]. rewrite Hm1 in Hk. by destruct Hk. }
  destruct (mapM_done (concat_left l r m1) (ChunkComponents.values (components r))) as (zs & -> & Hzs).
  { intros col [k Hk]%elem_of_values. by destruct (concat_left_spec l r k col m1) as (? & -> & _). }
  cbn [mbind outcome_bind]. eexists. split; [done|]. intros k. rewrite Hzs, lookup_insert_values.
  - specialize (Hm1 k). destruct (components r !! k) as [cr|] eqn:Er; simpl.
    + destruct (concat_left_spec l r k cr m1) as (o & -> & Ho); [done..|]. simpl.
      destruct (m1 !! k) as [col|]; [subst o; apply Hm1|]. by destruct Ho as (col & -> & Hcol).
    + destruct (m1 !! k); [apply Hm1|done].
  - by apply chunk_wf_keyed.
  - intros c c' Hc. f_equal. by apply (concat_keeps_descriptor l r m1); right.
Qed.

(** *** Rows *)

Lemma concat_timelines_spec l r : chunk_wf l -> chunk_wf r -> same_timelines l r = true ->
  row_ids l <> [] -> row_ids r <> [] ->
  exists m, concat_timelines l r = Ok m
    /\ forall k, match m !! k with
       | Some tc => tc_wf tc /\ exists a b, timelines l !! k = Some a /\ timelines r !! k = Some b
           /\ TimeColumn.times tc = TimeColumn.times a ++ TimeColumn.times b
           /\ TimeColumn.timeline tc = TimeColumn.timeline a
       | None => timelines l !! k = None /\ timelines r !! k = None end.
Proof.
  intros (_ & Hl & _) (_ & Hr & _) Hst Hnl Hnr. unfold concat_timelines.
  pose proof (same_timelines_spec l r Hst) as Hs.
  assert (forall k a, timelines l !! k = Some a -> exists b tc, timelines r !! k = Some b
    /\ TimeColumn.concatenated a b = Some tc /\ tc_wf tc
    /\ TimeColumn.times tc = TimeColumn.times a ++ TimeColumn.times b
    /\ TimeColumn.timeline tc = TimeColumn.timeline a) as Hcat.
  { intros k a Ha. specialize (Hs k). rewrite Ha in Hs. destruct (timelines r !! k) as [b|] eqn:Hb; [|done].
    destruct (Hl k a Ha) as [Hla Hwa], (Hr k b Hb) as [Hlb Hwb].
    destruct (tc_concatenated_spec a b) as (tc & Htc & Hw & Ht & Htl); [done|done|by injection Hs|..].
    - intros E0. unfold TimeColumn.num_rows in Hla. rewrite E0 in Hla. symmetry in Hla. by apply nil_length_inv in Hla.
    - intros E0. unfold TimeColumn.num_rows in Hlb. rewrite E0 in Hlb. symmetry in Hlb. by apply nil_length_inv in Hlb.
    - by exists b, tc. }
  rewrite decide_True.
  2:{ intros k x Hx. rewrite map_lookup_imap in Hx. destruct (timelines l !! k) as [a|] eqn:Ha; [|done].
      destruct (Hcat k a Ha) as (b & tc & Hb & Htc & _). simpl in Hx. rewrite Hb, Htc in Hx. by injection Hx as <-. }
  eexists. split; [done|]. intros k. rewrite lookup_omap, map_lookup_imap. specialize (Hs k).
  destruct (timelines l !! k) as [a|] eqn:Ha.
  - destruct (Hcat k a Ha) as (b & tc & Hb & Htc & Hw & Ht & Htl). simpl. rewrite Hb, Htc. simpl.
    split; [done|]. by exists a, b.
  - simpl. destruct (timelines r !! k); done.
Qed.

(** A chunk whose columns are the columns of [l] followed by those of [r]. *)
Lemma rows_app l r c : chunk_wf l -> chunk_wf r ->
  row_ids c = row_ids l ++ row_ids r ->
  (forall k, match timelines c !! k, timelines l !! k, timelines r !! k with
     | Some tc, Some a, Some b => TimeColumn.times tc = TimeColumn.times a ++ TimeColumn.times b
     | None, None, None => True | _, _, _ => False end) ->
  (forall k, entries c k = entries l k ++ entries r k) ->
  rows c = rows l ++ rows r.
Proof.
  intros Hl Hr Hids Ht Hc. pose proof (length_entries l) as Hel. pose proof (length_entries r) as Her.
  assert (num_rows c = num_rows l + num_rows r)%nat as Hlen by (unfold num_rows; by rewrite Hids, length_app).
  apply list_lookup_ext; [by rewrite length_app, !length_rows|]. intros i x y Hx Hy.
  assert (Some (row_id x) = Some (row_id y)) as [= Hid].
  { change (row_id <$> Some x = row_id <$> Some y). rewrite <- Hx, <- Hy, <- !list_lookup_fmap, fmap_app.
    by rewrite !row_id_rows, Hids. }
  assert (forall k, row_times x !! k = row_times y !! k) as Htimes.
  { intros k. specialize (Ht k). destruct Hl as (_ & Htl & _), Hr as (_ & Htr & _).
    specialize (Htl k). specialize (Htr k).
    assert (row_times x !! k = (timelines c !! k ≫= fun tc => TimeColumn.times tc !! i)) as ->.
    { rewrite lookup_rows in Hx. destruct (row_ids c !! i); [|done]. injection Hx as <-. apply lookup_omap. }
    apply lookup_app_Some in Hy as [Hy|[Hge Hy]]; rewrite ?length_rows, lookup_rows in Hy.
    - destruct (row_ids l !! i) eqn:E; [|done]. injection Hy as <-. apply lookup_lt_Some in E.
      cbn [row_at row_times]. rewrite lookup_omap.
      destruct (timelines c !! k), (timelines l !! k) as [a|], (timelines r !! k); try done. simpl.
      destruct (Htl a eq_refl) as [Hla _]. rewrite Ht, lookup_app_l; [done|]. unfold TimeColumn.num_rows, num_rows in *. lia.
    - rewrite length_rows in *. destruct (row_ids r !! (i - num_rows l)%nat) eqn:E; [|done]. injection Hy as <-.
      cbn [row_at row_times]. rewrite lookup_omap.
      destruct (timelines c !! k), (timelines l !! k) as [a|], (timelines r !! k); try done. simpl.
      destruct (Htl a eq_refl) as [Hla _]. unfold TimeColumn.num_rows in Hla.
      rewrite Ht, lookup_app_r by (rewrite Hla; lia). by rewrite Hla. }
  assert (forall k, row_cells x !! k = row_cells y !! k) as Hcells.
  { intros k. rewrite (row_cells_entries c i x k Hx), Hc. specialize (Hel k Hl). specialize (Her k Hr).
    apply lookup_app_Some in Hy as [Hy|[Hge Hy]].
    - apply lookup_lt_Some in Hy as Hi. rewrite length_rows in Hi.
      rewrite (row_cells_entries l i y k Hy), lookup_app_l; [done|lia].
    - rewrite length_rows in *. rewrite (row_cells_entries r _ y k Hy), lookup_app_r by lia. by rewrite Hel. }
  destruct x, y; simpl in *. f_equal; [done|by apply map_eq..].
Qed.

Lemma merged_flag l r cl0 cl1 cr0 cr1 : chunk_wf l -> chunk_wf r ->
  row_id_range l = Some (cl0, cl1) -> row_id_range r = Some (cr0, cr1) ->
  is_sorted l && is_sorted r && RowId.le cl1 cr0
    = windows_all RowId.le (row_ids l ++ row_ids r).
Proof.
  intros (Hl & _) (Hr & _) Hlr Hrr.
  pose proof (row_id_range_spec l Hl) as Hrl. pose proof (row_id_range_spec r Hr) as Hrr'.
  rewrite Hlr in Hrl. rewrite Hrr in Hrr'. destruct Hrl as (_ & Hl1 & Hlf), Hrr' as (Hr0 & _ & Hrf).
  rewrite Forall_forall in Hlf, Hrf. rewrite Hl, Hr. apply eq_true_iff_eq.
  unfold is_row_ids_sorted_uncached. rewrite !andb_true_iff, !windows_all_sorted, sorted_app by apply _. split.
  - intros [[Hs1 Hs2] Hle]. split_and!; [done|done|]. intros x y Hx%Hlf Hy%Hrf.
    rewrite RowId.le_key in *. lia.
  - intros (Hs1 & Hs2 & Hle). split_and!; [done|done|]. by apply Hle.
Qed.

(** The outcome of [concatenated_unsorted] on concatenable chunks. *)
Lemma concatenated_rows new_id l r : chunk_wf l -> chunk_wf r -> concatenable l r = true ->
  pads_well l r -> pads_well r l ->
  exists c, concatenated_unsorted new_id l r = Done (Ok c) /\ chunk_wf c
    /\ rows c = rows l ++ rows r /\ entity_path c = entity_path l
    /\ (sturdy l -> sturdy r -> sturdy c).
Proof.
  intros Hl Hr Hcat Hpl Hpr. unfold concatenated_unsorted. rewrite Hcat. cbn [negb].
  unfold concatenable in Hcat. rewrite !andb_true_iff in Hcat. destruct Hcat as [[He Ht] Hd].
  apply bool_decide_eq_true in He.
  pose proof (row_id_range_spec l (proj1 Hl)) as Hrl. pose proof (row_id_range_spec r (proj1 Hr)) as Hrr.
  destruct (row_id_range l) as [[cl0 cl1]|] eqn:El.
  2:{ exists r. split_and!; try done. assert (rows l = []) as ->; [|done].
      unfold rows. by rewrite Hrl. }
  destruct (row_id_range r) as [[cr0 cr1]|] eqn:Er.
  2:{ exists l. split_and!; try done. assert (rows r = []) as ->; [|by rewrite app_nil_r].
      unfold rows. by rewrite Hrr. }
  rewrite prim_concat.
  assert (row_ids l <> []) as Hnl by (destruct Hrl as (Hin & _); intros E0; rewrite E0 in Hin; by apply elem_of_nil in Hin).
  assert (row_ids r <> []) as Hnr by (destruct Hrr as (Hin & _); intros E0; rewrite E0 in Hin; by apply elem_of_nil in Hin).
  destruct (concat_timelines_spec l r) as (tls & -> & Htls); [done..|].
  destruct (concat_components_spec l r) as (comps & -> & Hcomps); [done..|].
  cbn [mbind outcome_bind]. eexists. split; [done|].
  set (c := Mk new_id (entity_path l) 0 _ (row_ids l ++ row_ids r) tls comps).
  assert (num_rows c = num_rows l + num_rows r)%nat as Hn by apply length_app.
  split_and!; [split; [by eapply merged_flag|split]| |done|by intros; apply unmeasured_sturdy].
  - intros k tc Htc. cbn [c timelines] in Htc. specialize (Htls k). rewrite Htc in Htls.
    destruct Htls as (Hw & a & b & Ha & Hb & Hab & _). split; [|done].
    destruct Hl as (_ & Hl & _), Hr as (_ & Hr & _). destruct (Hl k a Ha) as [Hla _], (Hr k b Hb) as [Hlb _].
    rewrite Hn, <- Hla, <- Hlb. unfold TimeColumn.num_rows. by rewrite Hab, length_app.
  - intros k col Hcol. cbn [c components] in Hcol. specialize (Hcomps k). rewrite Hcol in Hcomps.
    split; [by apply (merged_column_keyed l r)|]. destruct Hcomps as [_ Hes].
    by rewrite Hn, <- length_elems, Hes, length_app, !length_entries.
  - apply rows_app; [done..| |].
    + intros k. specialize (Htls k). cbn [c timelines]. destruct (tls !! k) as [tc|].
      * destruct Htls as (_ & a & b & -> & -> & Hab & _). done.
      * by destruct Htls as [-> ->].
    + intros k. specialize (Hcomps k). unfold entries at 1. cbn [c components].
      destruct (comps !! k) as [col|]; [apply Hcomps|]. destruct Hcomps as [Hcl Hcr].
      unfold entries. by rewrite Hcl, Hcr, Hn, replicate_add.
Qed.

(** *** The theorems *)

Definition mergeable l r : Prop :=
  entity_path l = entity_path r
  /\ (forall k, TimeColumn.timeline <$> timelines l !! k = TimeColumn.timeline <$> timelines r !! k)
  /\ (forall k cl cr, components l !! k = Some cl -> components r !! k = Some cr ->
       list_field (ChunkComponents.list_array cl) = list_field (ChunkComponents.list_array cr)).

Lemma concatenable_mergeable l r : chunk_wf l -> concatenable l r = true <-> mergeable l r.
Proof.
  intros Hl. unfold concatenable, mergeable. rewrite !andb_true_iff. unfold same_entity_paths.
  rewrite bool_decide_eq_true. split.
  - intros [[He Ht] Hd]. split_and!; [done|by apply same_timelines_spec|].
    intros k cl cr Hcl Hcr. apply list_same_type. by apply (same_datatypes_spec l r k).
  - intros (He & Ht & Hd). split_and!; [done| |].
    + unfold same_timelines. apply andb_true_iff. split.
      * apply Nat.eqb_eq. rewrite <- !(size_dom (D := gset string)). f_equal. apply set_eq. intros k.
        rewrite !elem_of_dom. specialize (Ht k).
        destruct (timelines l !! k), (timelines r !! k); try done; split; intros []; done.
      * apply forallb_forall. intros [k tc] Hin. rewrite <- list_elem_of_In, elem_of_map_to_list in Hin.
        specialize (Ht k). rewrite Hin in Ht. destruct (timelines r !! k) as [tc'|]; [|done].
        apply bool_decide_eq_true. by injection Ht.
    + unfold same_datatypes. apply forallb_forall. intros col Hin.
      rewrite <- list_elem_of_In, elem_of_values in Hin. destruct Hin as [k Hk].
      rewrite (chunk_wf_keyed l Hl k col Hk). destruct (components r !! k) as [cr|] eqn:Ecr; [|done].
      apply list_same_type. by apply (Hd k).
Qed.

Lemma mergeable_sym l r : mergeable l r -> mergeable r l.
Proof.
  intros (He & Ht & Hd). split_and!; [done|done|]. intros k cl cr Hcl Hcr. symmetry. by apply (Hd k).
Qed.

(** [concatenated_unsorted] succeeds exactly on chunks of one entity with the same
    timelines and the same types for the components they share; the result is well formed and
    its rows are those of the first chunk followed by those of the second, a component that one
    chunk lacks being null in its rows. *)
Lemma concatenated_unsorted_spec new_id l r : chunk_wf l -> chunk_wf r ->
  pads_well l r -> pads_well r l ->
  exists o, concatenated_unsorted new_id l r = Done o
    /\ (is_ok o = true <-> mergeable l r)
    /\ forall c, o = Ok c -> chunk_wf c /\ entity_path c = entity_path l /\ rows c = rows l ++ rows r.
Proof.
  intros Hl Hr Hpl Hpr. pose proof (concatenable_mergeable l r Hl) as Hm.
  destruct (concatenable l r) eqn:E.
  - destruct (concatenated_rows new_id l r) as (c & -> & Hw & Hrows & He & _); [done..|].
    eexists. split; [done|]. split; [by rewrite <- Hm|]. by intros ? [= <-].
  - unfold concatenated_unsorted. rewrite E. cbn [negb]. eexists. split; [done|]. by rewrite <- Hm.
Qed.

Definition least_row_id_first l r : bool :=
  match row_id_range l, row_id_range r with
  | Some (a, _), Some (b, _) => RowId.lt a b
  | None, Some _ => true
  | _, None => false
  end.

(** C37. [concat_and_sort] merges two well-formed mergeable chunks into one whose rows are the
    rows of both, stably sorted by row id, the chunk with the smaller least row id first among
    equals; it passes [sanity_check]. Other pairs of chunks are refused. Conditions: when one
    chunk has a component that the other lacks, the column of that component is [compact], that
    is, its values start at the first entry, have no gaps, and its null entries own none of them
    ([pads_well], both ways; otherwise the nulls padded at the back can misalign the rows, see
    [pad_list_array_back_misaligns]); in a debug build the cached sizes of the chunks, if any,
    are right and do not depend on the order of the rows ([sturdy]: one of the chunks is returned
    with its size when the other has no rows); and the out-of-order warnings are not asked to
    panic ([very_strict]). *)
Theorem concat_and_sort_spec new_id sort_id l r : very_strict = false ->
  chunk_wf l -> chunk_wf r -> sturdy l -> sturdy r ->
  pads_well l r -> pads_well r l ->
  exists o, concat_and_sort new_id sort_id l r = Done o
    /\ (is_ok o = true <-> mergeable l r)
    /\ forall c, o = Ok c -> chunk_wf c /\ is_sorted c = true /\ entity_path c = entity_path l
        /\ rows c = sort_by row_le (if least_row_id_first l r then rows l ++ rows r else rows r ++ rows l)
        /\ rows c ≡ₚ rows l ++ rows r.
Proof.
  intros Hv Hl Hr Hhl Hhr Hpl Hpr. unfold concat_and_sort. cbv zeta.
  assert (option_lt (fst <$> row_id_range l) (fst <$> row_id_range r) = least_row_id_first l r) as ->.
  { unfold option_lt, least_row_id_first. by destruct (row_id_range l) as [[]|], (row_id_range r) as [[]|]. }
  assert (forall a b, chunk_wf a -> chunk_wf b -> pads_well a b -> pads_well b a ->
    sturdy a -> sturdy b ->
    exists o, (compacted ← concatenated_unsorted new_id a b;
      match compacted with
      | Err e => Done (Err e)
      | Ok compacted =>
          compacted ← sort_by_row_ids_if_needed sort_id compacted;
          r ← sanity_check compacted;
          match r with Err e => Done (Err e) | Ok () => Done (Ok compacted) end
      end) = Done o
    /\ (is_ok o = true <-> mergeable a b)
    /\ forall c, o = Ok c -> chunk_wf c /\ is_sorted c = true /\ entity_path c = entity_path a
        /\ rows c = sort_by row_le (rows a ++ rows b)) as Hboth.
  { intros a b Ha Hb Hpa Hpb Hha Hhb. pose proof (concatenable_mergeable a b Ha) as Hm.
    destruct (concatenable a b) eqn:E.
    - destruct (concatenated_rows new_id a b) as (c & -> & Hw & Hrows & He & Hh); [done..|].
      cbn [mbind outcome_bind].
      destruct (sort_by_row_ids_rows sort_id c) as (c' & -> & Hw' & (He' & _) & Hr' & Hs' & Hh' & _); [done|auto|done|].
      cbn [mbind outcome_bind]. rewrite sanity_check_wf by (done || by apply sturdy_truthful). cbn [mbind outcome_bind].
      eexists. split; [done|]. split; [by rewrite <- Hm|]. intros ? [= <-]. by rewrite Hr', Hrows, He'.
    - unfold concatenated_unsorted. rewrite E. cbn [negb mbind outcome_bind].
      eexists. split; [done|]. by rewrite <- Hm. }
  assert (mergeable r l <-> mergeable l r) as Hsym by (split; apply mergeable_sym).
  destruct (least_row_id_first l r).
  - destruct (Hboth l r) as (o & -> & Ho & Hc); [done..|]. exists o. split_and!; [done|done|].
    intros c Heq. destruct (Hc c Heq) as (? & ? & ? & Hrows). split_and!; try done.
    rewrite Hrows. apply sort_by_perm.
  - destruct (Hboth r l) as (o & -> & Ho & Hc); [done..|]. exists o. split_and!; [done|by rewrite <- Hsym|].
    intros c Heq. destruct (Hc c Heq) as (? & ? & He & Hrows).
    assert (mergeable r l) as (Hrl & _) by (apply Ho; by rewrite Heq).
    split_and!; try done; [congruence|]. rewrite Hrows, sort_by_perm. apply Permutation_app_comm.
Qed.

Lemma concatenated_id new_id l r c : num_rows l <> 0%nat -> num_rows r <> 0%nat ->
  concatenated_unsorted new_id l r = Done (Ok c) -> id c = new_id /\ heap_size_bytes c = 0.
Proof.
  intros Hl Hr. unfold concatenated_unsorted. destruct (concatenable l r); [|done]. cbn [negb].
  destruct (row_id_range_some l Hl) as [[? ?] ->], (row_id_range_some r Hr) as [[? ?] ->].
  destruct (concat_arrays _) as [ids|]; [|done]. destruct (concat_timelines l r); [|done].
  destruct (concat_components l r); [|done]. cbn [mbind outcome_bind]. by intros [= <-].
Qed.

(** Merging two chunks with rows: what [concat_and_sort_spec] says, whatever size is cached. *)
Lemma concat_and_sort_rows new_id sort_id l r : very_strict = false -> chunk_wf l -> chunk_wf r ->
  num_rows l <> 0%nat -> num_rows r <> 0%nat -> pads_well l r -> pads_well r l -> mergeable l r ->
  exists c, concat_and_sort new_id sort_id l r = Done (Ok c) /\ chunk_wf c /\ is_sorted c = true
    /\ entity_path c = entity_path l /\ rows c ≡ₚ rows l ++ rows r
    /\ (id c = new_id \/ id c = sort_id) /\ heap_size_bytes c = 0.
Proof.
  intros Hv Hl Hr Hnl Hnr Hpl Hpr Hm. unfold concat_and_sort. cbv zeta.
  assert (forall a b, chunk_wf a -> chunk_wf b -> num_rows a <> 0%nat -> num_rows b <> 0%nat ->
    pads_well a b -> pads_well b a -> mergeable a b ->
    exists c, (compacted ← concatenated_unsorted new_id a b;
      match compacted with
      | Err e => Done (Err e)
      | Ok compacted =>
          compacted ← sort_by_row_ids_if_needed sort_id compacted;
          r ← sanity_check compacted;
          match r with Err e => Done (Err e) | Ok () => Done (Ok compacted) end
      end) = Done (Ok c) /\ chunk_wf c /\ is_sorted c = true
    /\ entity_path c = entity_path a /\ rows c ≡ₚ rows a ++ rows b
    /\ (id c = new_id \/ id c = sort_id) /\ heap_size_bytes c = 0) as Hboth.
  { intros a b Ha Hb Hna Hnb Hpa Hpb Hmab. apply (concatenable_mergeable a b Ha) in Hmab.
    destruct (concatenated_rows new_id a b) as (c & Hrun & Hw & Hrows & He & _); [done..|].
    destruct (concatenated_id new_id a b c Hna Hnb Hrun) as [Hid Hheap]. rewrite Hrun. cbn [mbind outcome_bind].
    destruct (sort_by_row_ids_rows sort_id c) as (c' & Hsort & Hw' & (He' & _) & Hr' & Hs' & _ & Hh'); [done|by apply unmeasured_sturdy|done|].
    rewrite Hsort. cbn [mbind outcome_bind]. rewrite sanity_check_wf by (done || left; congruence). cbn [mbind outcome_bind].
    exists c'. split_and!; try done; [congruence|by rewrite Hr', Hrows, sort_by_perm| |congruence].
    destruct (sort_by_row_ids_id sort_id c c' Hsort); [left; congruence|by right]. }
  destruct (option_lt _ _); [by apply Hboth|].
  destruct (Hboth r l) as (c & Hrun & Hw & Hs & He & Hrows & Hid & Hh); [done..|by apply mergeable_sym|].
  exists c. split_and!; try done.
  - destruct Hm as (Hm & _). congruence.
  - by rewrite Hrows, Permutation_app_comm.
Qed.

Lemma overlaps_on_row_id_iff l r : chunk_wf l -> chunk_wf r ->
  overlaps_on_row_id l r = true <->
    exists a b (c d : RowId.t), a ∈ row_ids l /\ b ∈ row_ids r /\ c ∈ row_ids l /\ d ∈ row_ids r
      /\ RowId.le a b = true /\ RowId.le d c = true.
Proof.
  intros [Hl _] [Hr _]. unfold overlaps_on_row_id.
  pose proof (row_id_range_spec l Hl) as Hrl. pose proof (row_id_range_spec r Hr) as Hrr.
  destruct (row_id_range l) as [[cl0 cl1]|].
  2:{ rewrite Hrl. split; [done|]. intros (a & b & c & d & Ha & _). by apply elem_of_nil in Ha. }
  destruct (row_id_range r) as [[cr0 cr1]|].
  2:{ rewrite Hrr. split; [done|]. intros (a & b & c & d & _ & Hb & _). by apply elem_of_nil in Hb. }
  destruct Hrl as (H1l & H2l & Hfl), Hrr as (H1r & H2r & Hfr). rewrite andb_true_iff.
  split; [intros [Hle1 Hle2]; by exists cl0, cr1, cl1, cr0|].
  intros (a & b & c & d & Ha & Hb & Hc & Hd & Hle1 & Hle2). rewrite Forall_forall in Hfl, Hfr.
  apply Hfl in Ha, Hc. apply Hfr in Hb, Hd. rewrite !RowId.le_key in *. lia.
Qed.

Lemma overlaps_on_time_iff l r : overlaps_on_time l r = true <->
  exists k tl tr, timelines l !! k = Some tl /\ timelines r !! k = Some tr
    /\ TimeInt.le (AbsoluteTimeRange.rmin (TimeColumn.time_range tl))
         (AbsoluteTimeRange.rmax (TimeColumn.time_range tr)) = true
    /\ TimeInt.le (AbsoluteTimeRange.rmin (TimeColumn.time_range tr))
         (AbsoluteTimeRange.rmax (TimeColumn.time_range tl)) = true.
Proof.
  unfold overlaps_on_time. rewrite existsb_exists. split.
  - intros ([k tl] & Hin & Hi). rewrite <- list_elem_of_In, elem_of_map_to_list in Hin.
    destruct (timelines r !! k) as [tr|] eqn:Er; [|done]. exists k, tl, tr.
    unfold AbsoluteTimeRange.intersects in Hi. by apply andb_true_iff in Hi.
  - intros (k & tl & tr & Hl & Hr & Hle1 & Hle2). exists (k, tl). split.
    + by rewrite <- list_elem_of_In, elem_of_map_to_list.
    + rewrite Hr. unfold AbsoluteTimeRange.intersects. by rewrite Hle1, Hle2.
Qed.

(** The overlap tests: two chunks overlap on row ids exactly when the closed intervals
    spanned by their row ids meet, and on time when they do on a common timeline; both tests are
    symmetric. *)
Lemma overlaps_spec l r : chunk_wf l -> chunk_wf r ->
  (overlaps_on_row_id l r = true <->
    exists a b (c d : RowId.t), a ∈ row_ids l /\ b ∈ row_ids r /\ c ∈ row_ids l /\ d ∈ row_ids r
      /\ RowId.le a b = true /\ RowId.le d c = true)
  /\ (overlaps_on_time l r = true <->
      exists k tl tr, timelines l !! k = Some tl /\ timelines r !! k = Some tr
        /\ TimeInt.le (AbsoluteTimeRange.rmin (TimeColumn.time_range tl))
             (AbsoluteTimeRange.rmax (TimeColumn.time_range tr)) = true
        /\ TimeInt.le (AbsoluteTimeRange.rmin (TimeColumn.time_range tr))
             (AbsoluteTimeRange.rmax (TimeColumn.time_range tl)) = true)
  /\ overlaps_on_row_id l r = overlaps_on_row_id r l
  /\ overlaps_on_time l r = overlaps_on_time r l.
Proof.
  intros Hl Hr. split_and!; [by apply overlaps_on_row_id_iff|apply overlaps_on_time_iff|..]; apply eq_true_iff_eq.
  - rewrite !overlaps_on_row_id_iff by done.
    split; intros (a & b & c & d & Ha & Hb & Hc & Hd & Hle1 & Hle2); by exists d, c, b, a.
  - rewrite !overlaps_on_time_iff.
    split; intros (k & a & b & Ha & Hb & Hle1 & Hle2); by exists k, b, a.
Qed.

End Specs.
