(* ===== verification/ChunkQuery.v ===== *)
(** * Queries on one chunk

    [dl_chunk/src/latest_at.rs], [range.rs] and the unit chunks of [unit_chunk.rs]: the row
    of a component that is current at a time, and the rows of a time range. *)

From stdpp Require Import strings.
From S2P Require Import Prelude Ints Tuid TimeInt TimeRange Arrow Column Chunk ChunkSlice ChunkSort.

Module LatestAtQuery.

Record t := Mk { timeline : option TimelineName; at_ : TimeInt.t }.

#[global] Instance t_eq_dec : EqDecision t.
Proof. solve_decision. Defined.

(** [at] is the result of the argument's [try_into]. *)
Definition new (timeline : TimelineName) (at_ : result TimeInt.t unit) : t :=
  Mk (Some timeline) (TimeInt.saturated_temporal at_).

Definition latest (timeline : TimelineName) : t := Mk (Some timeline) TimeInt.MAX.
Definition new_static : t := Mk None TimeInt.STATIC.

End LatestAtQuery.

Module RangeQuery.

Record options_t := Options {
  keep_extra_timelines : bool;
  keep_extra_components : bool;
  include_extended_bounds : bool;
}.

Definition DEFAULT : options_t := Options false false false.

Record t := Mk { timeline : TimelineName; range : AbsoluteTimeRange.t; options : options_t }.

#[global] Instance options_eq_dec : EqDecision options_t.
Proof. solve_decision. Defined.
#[global] Instance t_eq_dec : EqDecision t.
Proof. solve_decision. Defined.

Definition new (timeline : TimelineName) (range : AbsoluteTimeRange.t) : t := Mk timeline range DEFAULT.
Definition with_extras (timeline : TimelineName) (range : AbsoluteTimeRange.t) : t :=
  Mk timeline range (Options true true false).
Definition everything (timeline : TimelineName) : t := Mk timeline AbsoluteTimeRange.EVERYTHING DEFAULT.

Definition with_keep_extra_timelines (self : t) (toggle : bool) : t :=
  Mk (timeline self) (range self)
    (Options toggle (keep_extra_components (options self)) (include_extended_bounds (options self))).
Definition with_keep_extra_components (self : t) (toggle : bool) : t :=
  Mk (timeline self) (range self)
    (Options (keep_extra_timelines (options self)) toggle (include_extended_bounds (options self))).
Definition with_include_extended_bounds (self : t) (toggle : bool) : t :=
  Mk (timeline self) (range self)
    (Options (keep_extra_timelines (options self)) (keep_extra_components (options self)) toggle).

End RangeQuery.

(** ** [UnitChunkShared] *)

Module UnitChunk.

Record t `{ArrowOps} := Mk { chunk : Chunk.t; original_chunk_id : ChunkId.t }.
#[global] Arguments Mk {_} _ _.

Section Operations.

Context `{Build} `{ArrowOps}.
Implicit Types self : t.

(** [to_unit] and [into_unit]. *)
Definition into_unit (c : Chunk.t) : option t :=
  if (Chunk.num_rows c =? 1)%nat then Some (Mk c (Chunk.id c)) else None.

Definition into_unit_with_original_chunk_id (c : Chunk.t) (original_chunk_id : ChunkId.t) : option t :=
  if (Chunk.num_rows c =? 1)%nat then Some (Mk c original_chunk_id) else None.

Definition index self (timeline : option TimelineName) : outcome (option (TimeInt.t * RowId.t)) :=
  _ ← debug_assert (Chunk.num_rows (chunk self) =? 1)%nat;
  Done (if Chunk.is_static (chunk self)
        then pair TimeInt.STATIC <$> head (Chunk.row_ids (chunk self))
        else
          name ← timeline;
          time_column ← Chunk.timelines (chunk self) !! name;
          time ← head (TimeColumn.times_int time_column);
          pair time <$> head (Chunk.row_ids (chunk self))).

Definition row_id self : outcome (option RowId.t) :=
  _ ← debug_assert (Chunk.num_rows (chunk self) =? 1)%nat;
  Done (head (Chunk.row_ids (chunk self))).

Definition component_batch_raw self (component : ComponentIdentifier) : outcome (option Array) :=
  _ ← debug_assert (Chunk.num_rows (chunk self) =? 1)%nat;
  Done (list_array ← ChunkComponents.get_array (Chunk.components (chunk self)) component;
        if is_valid list_array 0 then Some (list_value list_array 0) else None).

Definition non_empty_component_batch_raw self (component : ComponentIdentifier)
    : outcome (option (option RowId.t * Array)) :=
  batch ← component_batch_raw self component;
  match batch with
  | None => Done None
  | Some batch =>
      if bool_decide (arr_len batch = 0%nat) then Done None
      else row_id ← row_id self; Done (Some (row_id, batch))
  end.

Definition component_instance_raw self (component : ComponentIdentifier) (instance_index : nat)
    : outcome (option (result Array ChunkError)) :=
  array ← component_batch_raw self component;
  Done (fmap (M := option) (fun array =>
    if (instance_index <? arr_len array)%nat then Ok (arr_slice array instance_index 1)
    else Err (IndexOutOfBounds "instance" (arr_len array) instance_index)) array).

Definition component_mono_raw self (component : ComponentIdentifier)
    : outcome (option (result Array ChunkError)) :=
  array ← component_batch_raw self component;
  Done (fmap (M := option) (fun array =>
    if (arr_len array =? 1)%nat then Ok (arr_slice array 0 1)
    else Err (IndexOutOfBounds "mono" (arr_len array) 0)) array).

End Operations.

End UnitChunk.

(** ** The queries *)

Module ChunkQuery.

Import Chunk ChunkSlice ChunkSort.

Section Operations.

Context `{Build} `{ArrowOps} `{!SizeBytes}.
Implicit Types self : t.

(** [slice.rs]. *)
Definition row_sliced_unit_shallow (new_id : ChunkId.t) self (index : nat) : outcome UnitChunk.t :=
  unwrap (UnitChunk.into_unit_with_original_chunk_id (row_sliced_shallow new_id self index 1) (id self)).

(** [for i in (0..n).rev()], stopping at the first index that satisfies [p]. *)
Fixpoint rev_find (p : nat -> bool) (n : nat) : option nat :=
  match n with
  | O => None
  | S i => if p i then Some i else rev_find p i
  end.

(** The loop over a static chunk whose rows are out of order: the closest row id so far and
    its index. *)
Fixpoint static_scan (valid : nat -> bool) (i : nat) (row_ids : list RowId.t)
    (closest_row_id : RowId.t) (index : option nat) : option nat :=
  match row_ids with
  | [] => index
  | row_id :: row_ids =>
      if negb (valid i) then static_scan valid (S i) row_ids closest_row_id index
      else if RowId.lt closest_row_id row_id then static_scan valid (S i) row_ids row_id (Some i)
      else static_scan valid (S i) row_ids closest_row_id index
  end.

(** The loop over a temporal chunk whose times are out of order. *)
Fixpoint temporal_scan (valid : nat -> bool) (times : list Z) (at_ : TimeInt.t) (i : nat)
    (row_ids : list RowId.t) (closest_data_time : TimeInt.t) (closest_row_id : RowId.t)
    (index : option nat) : outcome (option nat) :=
  match row_ids with
  | [] => Done index
  | row_id :: row_ids =>
      if negb (valid i)
      then temporal_scan valid times at_ (S i) row_ids closest_data_time closest_row_id index
      else
        time ← unwrap (times !! i);
        let data_time := TimeInt.new_temporal time in
        let is_closer_time := TimeInt.lt closest_data_time data_time && TimeInt.le data_time at_ in
        let is_same_time_but_closer_row_id :=
          bool_decide (data_time = closest_data_time) && RowId.lt closest_row_id row_id in
        if is_closer_time || is_same_time_but_closer_row_id
        then temporal_scan valid times at_ (S i) row_ids data_time row_id (Some i)
        else temporal_scan valid times at_ (S i) row_ids closest_data_time closest_row_id index
  end.

(** The early returns of [latest_at] give no index. *)
Definition latest_at_index self (query : LatestAtQuery.t) (component : ComponentIdentifier)
    : outcome (option nat) :=
  match ChunkComponents.get_array (components self) component with
  | None => Done None
  | Some component_list_array =>
      let valid := is_valid component_list_array in
      if is_static self then
        Done (if is_row_ids_sorted self then rev_find valid (num_rows self)
              else static_scan valid 0 (row_ids self) RowId.ZERO None)
      else
        match LatestAtQuery.timeline query ≫= fun timeline => timelines self !! timeline with
        | None => Done None
        | Some time_column =>
            let times := TimeColumn.times time_column in
            if TimeColumn.is_sorted time_column then
              let i := (partition_point (fun time =>
                (time <=? TimeInt.as_i64 (LatestAtQuery.at_ query))%Z) times - 1)%nat in
              Done (rev_find valid (S i))
            else
              temporal_scan valid times (LatestAtQuery.at_ query) 0 (row_ids self) TimeInt.MIN
                RowId.ZERO None
        end
  end.

Definition latest_at (new_id : ChunkId.t) self (query : LatestAtQuery.t)
    (component : ComponentIdentifier) : outcome (option UnitChunk.t) :=
  if is_empty self then Done None
  else
    index ← latest_at_index self query component;
    match index with
    | None => Done None
    | Some i => unit ← row_sliced_unit_shallow new_id self i; Done (Some unit)
    end.

(** The row-sliced part of [range]. *)
Definition range_rows (new_id : ChunkId.t) self (num_rows_before : nat) (query : RangeQuery.t)
    (times : list Z) : t :=
  let start_index := partition_point (fun time =>
    time <? TimeInt.as_i64 (AbsoluteTimeRange.rmin (RangeQuery.range query))) times in
  let end_index := partition_point (fun time =>
    time <=? TimeInt.as_i64 (AbsoluteTimeRange.rmax (RangeQuery.range query))) times in
  let extended := RangeQuery.include_extended_bounds (RangeQuery.options query) in
  let start_index := if extended then (start_index - 1)%nat else start_index in
  let end_index := if extended then Nat.min num_rows_before (end_index + 1) else end_index in
  row_sliced_shallow new_id self start_index (end_index - start_index).

(** [fresh i] is the [i]-th id the call draws. *)
Definition range (fresh : nat -> ChunkId.t) self (query : RangeQuery.t)
    (component : ComponentIdentifier) : outcome t :=
  if is_empty self then Done self
  else
    let timeline := RangeQuery.timeline query in
    chunk ←
      (if RangeQuery.keep_extra_timelines (RangeQuery.options query) then Done self
       else timeline_sliced (fresh 0%nat) self timeline);
    chunk ←
      (if RangeQuery.keep_extra_components (RangeQuery.options query) then Done chunk
       else component_sliced (fresh 1%nat) chunk component);
    if is_static chunk then
      unit ← latest_at (fresh 2%nat) chunk LatestAtQuery.new_static component;
      match unit with
      | Some unit => Done (UnitChunk.chunk unit)
      | None => Done (emptied (fresh 2%nat) chunk)
      end
    else
      match timelines chunk !! timeline with
      | None => Done (emptied (fresh 2%nat) chunk)
      | Some time_column =>
          let is_sorted_by_time := TimeColumn.is_sorted time_column in
          '(chunk, _) ← densified (fresh 3%nat) chunk component;
          chunk ←
            (if is_sorted_by_time then Done chunk
             else sorted_by_timeline_if_unsorted (fresh 4%nat) chunk timeline);
          match timelines chunk !! timeline with
          | None => Done (emptied (fresh 5%nat) chunk)
          | Some time_column =>
              Done (range_rows (fresh 5%nat) chunk (num_rows self) query (TimeColumn.times time_column))
          end
      end.

End Operations.

End ChunkQuery.

(** ** The loops *)

Section Loops.

Import ChunkQuery.

Lemma rev_find_spec p n :
  match rev_find p n with
  | Some i => (i < n)%nat /\ p i = true /\ forall j, (i < j < n)%nat -> p j = false
  | None => forall j, (j < n)%nat -> p j = false
  end.
Proof.
  induction n as [|n IH]; simpl; [intros j; lia|].
  destruct (p n) eqn:E; [split_and!; [lia|done|intros j; lia]|].
  destruct (rev_find p n) as [i|].
  - destruct IH as (Hi & Hp & Hj). split_and!; [lia|done|]. intros j Hij.
    destruct (decide (j = n)) as [->|]; [done|]. apply Hj. lia.
  - intros j Hj. destruct (decide (j = n)) as [->|]; [done|]. apply IH. lia.
Qed.

(** What the static loop knows after the rows [pre]. *)
Definition static_inv (valid : nat -> bool) (pre : list RowId.t) (closest : RowId.t)
    (index : option nat) : Prop :=
  match index with
  | None => closest = RowId.ZERO
      /\ forall j r, pre !! j = Some r -> valid j = true -> RowId.key r <= RowId.key RowId.ZERO
  | Some k => pre !! k = Some closest /\ valid k = true
      /\ forall j r, pre !! j = Some r -> valid j = true -> RowId.key r <= RowId.key closest
  end.

Lemma lookup_snoc_cases {A} (l : list A) x j y : (l ++ [x]) !! j = Some y ->
  l !! j = Some y \/ j = length l /\ y = x.
Proof.
  intros [Hl|[Hge Hl]]%lookup_app_Some; [by left|]. right.
  apply list_lookup_singleton_Some in Hl as [Hj ->]. split; [lia|done].
Qed.

Lemma static_scan_spec valid pre ids closest index : static_inv valid pre closest index ->
  exists closest', static_inv valid (pre ++ ids) closest'
    (static_scan valid (length pre) ids closest index).
Proof.
  revert pre closest index. induction ids as [|r ids IH]; intros pre closest index Hinv.
  { exists closest. by rewrite app_nil_r. }
  assert (forall closest' index', static_inv valid (pre ++ [r]) closest' index' ->
    exists closest'', static_inv valid (pre ++ r :: ids) closest''
      (static_scan valid (S (length pre)) ids closest' index')) as Hstep.
  { intros closest' index' Hi. specialize (IH (pre ++ [r]) closest' index' Hi).
    rewrite <- app_assoc, length_app, Nat.add_comm in IH. exact IH. }
  clear IH. cbn [static_scan]. destruct (valid (length pre)) eqn:Ev; cbn [negb].
  - destruct (RowId.lt closest r) eqn:El; rewrite RowId.lt_key in El; apply Hstep; unfold static_inv in *.
    + split_and!; [by rewrite list_lookup_middle|done|].
      intros j s [Hj|[-> ->]]%lookup_snoc_cases Hv; [|lia].
      destruct index as [k|]; [destruct Hinv as (_ & _ & Hall)|destruct Hinv as (-> & Hall)];
        specialize (Hall j s Hj Hv); lia.
    + destruct index as [k|].
      * destruct Hinv as (Hk & Hvk & Hall). split_and!; [by apply lookup_app_l_Some|done|].
        intros j s [Hj|[-> ->]]%lookup_snoc_cases Hv; [by eapply Hall|lia].
      * destruct Hinv as (-> & Hall). split; [done|].
        intros j s [Hj|[-> ->]]%lookup_snoc_cases Hv; [by eapply Hall|lia].
  - apply Hstep. unfold static_inv in *. destruct index as [k|].
    + destruct Hinv as (Hk & Hvk & Hall). split_and!; [by apply lookup_app_l_Some|done|].
      intros j s [Hj|[-> ->]]%lookup_snoc_cases Hv; [by eapply Hall|congruence].
    + destruct Hinv as (-> & Hall). split; [done|].
      intros j s [Hj|[-> ->]]%lookup_snoc_cases Hv; [by eapply Hall|congruence].
Qed.

(** What the temporal loop knows after the rows [pre]: the closest data is the greatest of
    the relevant rows seen, by time and then by row id. *)
Definition key_le (t : Z) (r : RowId.t) (t' : Z) (r' : RowId.t) : Prop :=
  t < t' \/ t = t' /\ RowId.key r <= RowId.key r'.

Definition temporal_inv (valid : nat -> bool) (times : list Z) (a : Z) (pre : list RowId.t)
    (ct : Z) (cr : RowId.t) (index : option nat) : Prop :=
  match index with
  | None => ct = TimeInt.as_i64 TimeInt.MIN /\ cr = RowId.ZERO
  | Some k => pre !! k = Some cr /\ times !! k = Some ct /\ valid k = true /\ ct <= a
  end
  /\ forall j r t, pre !! j = Some r -> times !! j = Some t -> valid j = true -> t <= a ->
       key_le t r ct cr.

Lemma temporal_inv_skip valid times a pre r ct cr index :
  temporal_inv valid times a pre ct cr index ->
  (forall t, times !! length pre = Some t -> valid (length pre) = true -> t <= a -> key_le t r ct cr) ->
  temporal_inv valid times a (pre ++ [r]) ct cr index.
Proof.
  intros [Hi Hall] Hr. split.
  - destruct index as [k|]; [|done]. destruct Hi as (Hk & ?). split; [by apply lookup_app_l_Some|done].
  - intros j s t [Hj|[-> ->]]%lookup_snoc_cases Ht Hv Hle; [by eapply Hall|by apply Hr].
Qed.

Lemma temporal_inv_take valid times a pre r t ct cr index :
  temporal_inv valid times a pre ct cr index ->
  times !! length pre = Some t -> valid (length pre) = true -> t <= a -> key_le ct cr t r ->
  temporal_inv valid times a (pre ++ [r]) t r (Some (length pre)).
Proof.
  intros [Hi Hall] Ht Hv Hle Hkey. split; [split_and!; [by rewrite list_lookup_middle|done..]|].
  intros j s t' [Hj|[-> ->]]%lookup_snoc_cases Ht' Hv' Hle'.
  - specialize (Hall j s t' Hj Ht' Hv' Hle'). unfold key_le in *. lia.
  - unfold key_le. simplify_eq. lia.
Qed.

Lemma temporal_scan_spec valid times a pre ids ct cr index :
  Forall temporal_i64 times -> length times = length (pre ++ ids) ->
  a <> TimeInt.STATIC ->
  temporal_inv valid times (TimeInt.as_i64 a) pre (TimeInt.as_i64 ct) cr index ->
  exists o ct' cr', temporal_scan valid times a (length pre) ids ct cr index = Done o
    /\ temporal_inv valid times (TimeInt.as_i64 a) (pre ++ ids) ct' cr' o.
Proof.
  intros Hty Hlen Ha. revert pre ct cr index Hlen.
  induction ids as [|r ids IH]; intros pre ct cr index Hlen Hinv.
  { exists index, (TimeInt.as_i64 ct), cr. by rewrite app_nil_r. }
  assert (forall ct' cr' index',
    temporal_inv valid times (TimeInt.as_i64 a) (pre ++ [r]) (TimeInt.as_i64 ct') cr' index' ->
    exists o ct'' cr'', temporal_scan valid times a (S (length pre)) ids ct' cr' index' = Done o
      /\ temporal_inv valid times (TimeInt.as_i64 a) (pre ++ r :: ids) ct'' cr'' o) as Hstep.
  { intros ct' cr' index' Hi. specialize (IH (pre ++ [r]) ct' cr' index').
    assert (length (pre ++ [r]) = S (length pre)) as Hl by (rewrite length_app; simpl; lia).
    rewrite <- app_assoc, Hl in IH. by apply IH. }
  clear IH. rewrite length_app in Hlen. cbn [length] in Hlen. cbn [temporal_scan].
  destruct (lookup_lt_is_Some_2 times (length pre)) as [t Ht]; [lia|].
  destruct (valid (length pre)) eqn:Ev; cbn [negb].
  2:{ apply Hstep, temporal_inv_skip; [done|]. intros; congruence. }
  rewrite Ht. cbn [unwrap mbind outcome_bind].
  assert (TimeInt.as_i64 (TimeInt.new_temporal t) = t) as Hnt.
  { rewrite Forall_lookup in Hty. specialize (Hty _ _ Ht). unfold temporal_i64 in Hty.
    rewrite TimeInt.as_i64_new_temporal; int_lia. }
  assert (bool_decide (TimeInt.new_temporal t = ct) = (t =? TimeInt.as_i64 ct)) as ->.
  { apply eq_true_iff_eq. rewrite bool_decide_eq_true, Z.eqb_eq, <- TimeInt.as_i64_inj_iff. by rewrite Hnt. }
  rewrite TimeInt.lt_as_i64, TimeInt.le_as_i64, RowId.lt_key, Hnt.
  destruct (_ || _) eqn:Ec; apply Hstep.
  - rewrite Hnt. eapply temporal_inv_take; [done..| |].
    + destruct Hinv as [Hi _]. destruct index as [k|]; [lia|].
      destruct Hi as [Hct _]. rewrite TimeInt.as_i64_MIN in Hct.
      pose proof (TimeInt.as_i64_range a). rewrite TimeInt.as_i64_static_iff in Ha. int_lia.
    + unfold key_le. lia.
  - apply temporal_inv_skip; [done|]. intros t' Ht' _ Hle. simplify_eq. unfold key_le. lia.
Qed.

End Loops.

(** ** Latest-at *)

Section LatestAt.

Import Chunk ChunkSlice ChunkSort ChunkQuery.
Context `{Build} `{ArrowLaws} `{!SizeBytes}.
Implicit Types c : t.

Lemma unit_row new_id c i r : chunk_wf c -> rows c !! i = Some r ->
  exists u, row_sliced_unit_shallow new_id c i = Done u
    /\ rows (UnitChunk.chunk u) = [r] /\ chunk_wf (UnitChunk.chunk u)
    /\ id (UnitChunk.chunk u) = new_id /\ UnitChunk.original_chunk_id u = id c
    /\ same_shape c (UnitChunk.chunk u).
Proof.
  intros Hwf Hr. destruct (row_sliced_rows new_id c i 1 false Hwf) as (Hw & Hrows & Hid & Hsh).
  unfold row_sliced_unit_shallow, row_sliced_shallow, UnitChunk.into_unit_with_original_chunk_id.
  set (c' := row_sliced_impl new_id c i 1 false) in *.
  assert (rows c' = [r]) as Hone.
  { rewrite Hrows, (drop_S _ r) by done. simpl. by rewrite take_0. }
  assert (num_rows c' = 1%nat) as -> by (by rewrite <- length_rows, Hone).
  eexists. split; [done|]. done.
Qed.

Lemma valid_has_cell c component column i r : chunk_wf c ->
  components c !! component = Some column -> rows c !! i = Some r ->
  is_valid (ChunkComponents.list_array column) i = true <-> has_cell component r.
Proof.
  intros (_ & _ & Hc) Hk Hr. unfold has_cell. rewrite (row_cells_lookup c i r component column Hr Hk).
  apply lookup_lt_Some in Hr as Hi. rewrite length_rows in Hi. destruct (Hc _ _ Hk) as [_ Hl].
  unfold cell_at. rewrite elems_lookup by (by rewrite Hl). simpl. unfold list_entry.
  destruct (is_valid _ i); split; (done || by intros []).
Qed.

Lemma rows_parts c i r : rows c !! i = Some r -> row_ids c !! i = Some (row_id r).
Proof. intros Hr. by rewrite <- row_id_rows, list_lookup_fmap, Hr. Qed.

Lemma lookup_times c timeline tc i r : chunk_wf c -> timelines c !! timeline = Some tc ->
  rows c !! i = Some r -> TimeColumn.times tc !! i = Some (time_of timeline r).
Proof.
  intros Hwf Htc Hr. by rewrite <- (time_of_rows c timeline tc), list_lookup_fmap, Hr.
Qed.

Lemma row_at_position c i rid : row_ids c !! i = Some rid -> exists r, rows c !! i = Some r /\ row_id r = rid.
Proof. intros Hi. rewrite lookup_rows, Hi. by eexists. Qed.

Lemma nonzero_key r : r <> RowId.ZERO -> RowId.key RowId.ZERO < RowId.key r.
Proof.
  intros Hr. assert (RowId.key RowId.ZERO = 0) as Hz by (by vm_compute). pose proof (RowId.key_range r).
  assert (RowId.key r <> RowId.key RowId.ZERO) by (by intros ?%RowId.key_inj). lia.
Qed.

Lemma no_rows c : is_empty c = true -> rows c = [].
Proof.
  intros He. apply bool_decide_eq_true in He. rewrite <- length_rows in He. by apply nil_length_inv.
Qed.

Lemma no_column c component s : components c !! component = None -> s ∈ rows c -> ~ has_cell component s.
Proof.
  intros Hk [j Hjs]%list_elem_of_lookup_1 [x Hx]. rewrite lookup_rows in Hjs.
  destruct (row_ids c !! j); [|done]. injection Hjs as <-.
  cbn [row_at row_cells] in Hx. by rewrite lookup_omap, Hk in Hx.
Qed.

(** The rows a temporal query looks at. *)
Definition relevant (timeline : TimelineName) (a : Z) (component : ComponentIdentifier) (r : Row) : Prop :=
  has_cell component r /\ time_of timeline r <= a.

#[export] Instance relevant_dec timeline a component r : Decision (relevant timeline a component r).
Proof. unfold relevant. apply _. Defined.

(** The order a query ranks rows by. *)
Definition ranks timeline (s r : Row) : Prop := time_row_le timeline s r = true.

Lemma ranks_key timeline s r :
  ranks timeline s r <-> key_le (time_of timeline s) (row_id s) (time_of timeline r) (row_id r).
Proof.
  unfold ranks, time_row_le, lex_le, row_le, key_le. rewrite RowId.le_key. lia.
Qed.

Lemma latest_at_static_index c query component column : chunk_wf c -> RowId.ZERO ∉ row_ids c ->
  is_static c = true -> components c !! component = Some column ->
  exists o, latest_at_index c query component = Done o
    /\ match o with
       | Some i => exists r, rows c !! i = Some r /\ has_cell component r
           /\ forall s, s ∈ rows c -> has_cell component s -> row_le s r = true
       | None => forall s, s ∈ rows c -> ~ has_cell component s
       end.
Proof.
  intros Hwf Hz Hst Hk. unfold latest_at_index, ChunkComponents.get_array. rewrite Hk, Hst. cbn [fmap option_fmap option_map].
  eexists. split; [done|]. unfold is_row_ids_sorted. pose proof (valid_has_cell c component column) as Hvc.
  destruct (is_sorted c) eqn:Es.
  - pose proof (rev_find_spec (is_valid (ChunkComponents.list_array column)) (num_rows c)) as Hf.
    destruct (rev_find _ _) as [i|].
    + destruct Hf as (Hi & Hv & Hj). rewrite <- length_rows in Hi.
      destruct (lookup_lt_is_Some_2 _ _ Hi) as [r Hr]. exists r. split_and!; [done|by apply (Hvc i r)|].
      intros s [j Hs]%list_elem_of_lookup_1 Hcell. apply (Hvc j s) in Hcell; [|done..].
      destruct Hwf as [Hs' _]. rewrite Es in Hs'. symmetry in Hs'.
      apply sorted_rows_ids in Hs'. apply (sorted_lookup row_le (rows c) j i); try done.
      destruct (decide (i < j)%nat); [|lia]. apply lookup_lt_Some in Hs. rewrite length_rows in Hs.
      rewrite Hj in Hcell; [done|lia].
    + intros s [j Hs]%list_elem_of_lookup_1 Hcell. apply (Hvc j s) in Hcell; [|done..].
      apply lookup_lt_Some in Hs. rewrite length_rows in Hs. by rewrite Hf in Hcell.
  - destruct (static_scan_spec (is_valid (ChunkComponents.list_array column)) [] (row_ids c) RowId.ZERO None)
      as (closest & Hinv); [done|]. cbn [length app] in Hinv.
    destruct (static_scan _ _ _ _ _) as [i|].
    + destruct Hinv as (Hi & Hv & Hall). destruct (row_at_position c i closest Hi) as (r & Hr & Hrid).
      exists r. split_and!; [done|by apply (Hvc i r)|].
      intros s [j Hs]%list_elem_of_lookup_1 Hcell. apply (Hvc j s) in Hcell; [|done..].
      unfold row_le. rewrite RowId.le_key, Hrid. specialize (Hall j (row_id s) (rows_parts c j s Hs) Hcell). lia.
    + destruct Hinv as [_ Hall]. intros s [j Hs]%list_elem_of_lookup_1 Hcell.
      apply (Hvc j s) in Hcell; [|done..]. pose proof (rows_parts c j s Hs) as Hid.
      specialize (Hall j (row_id s) Hid Hcell). apply list_elem_of_lookup_2 in Hid.
      pose proof (nonzero_key (row_id s)). assert (row_id s <> RowId.ZERO) by congruence. intuition lia.
Qed.

(** What the index found on a temporal chunk stands for. *)
Definition latest_index_ok c timeline (a : Z) component tc (index : option nat) : Prop :=
  match index with
  | Some i => exists r, rows c !! i = Some r /\ has_cell component r
      /\ (forall s, s ∈ rows c -> relevant timeline a component s ->
           time_of timeline s <= time_of timeline r
           /\ (is_sorted c = true \/ TimeColumn.is_sorted tc = false -> ranks timeline s r))
      /\ (a < time_of timeline r -> TimeColumn.is_sorted tc = true /\ i = 0%nat
           /\ forall s, s ∈ rows c -> ~ relevant timeline a component s)
  | None => forall s, s ∈ rows c -> ~ relevant timeline a component s
  end.

Section Index.

Context (c : t) (timeline : TimelineName) (a : TimeInt.t) (component : ComponentIdentifier).
Context (column : ChunkComponents.column) (tc : TimeColumn.t).
Hypothesis Hwf : chunk_wf c.
Hypothesis Htc : timelines c !! timeline = Some tc.
Hypothesis Hk : components c !! component = Some column.

Let valid := is_valid (ChunkComponents.list_array column).

Lemma sorted_index_ok : TimeColumn.is_sorted tc = true -> num_rows c <> 0%nat ->
  latest_index_ok c timeline (TimeInt.as_i64 a) component tc
    (rev_find valid (S (partition_point (fun time => time <=? TimeInt.as_i64 a) (TimeColumn.times tc) - 1))).
Proof.
  intros Es Hn. set (pp := partition_point _ _). pose proof Hwf as (Hs & Ht & _).
  pose proof (valid_has_cell c component column) as Hvc. pose proof (lookup_times c timeline tc) as Hlt.
  destruct (Ht _ _ Htc) as (_ & Hsorted & _). rewrite Es in Hsorted. symmetry in Hsorted.
  assert (forall j s, rows c !! j = Some s -> (j < pp)%nat <-> time_of timeline s <= TimeInt.as_i64 a) as Hpp.
  { intros j s Hj. unfold pp. rewrite (partition_point_times _ (TimeColumn.times tc) j (time_of timeline s));
      [by rewrite Z.leb_le|done| |by apply Hlt]. intros x y. rewrite !Z.leb_le. lia. }
  pose proof (rev_find_spec valid (S (pp - 1))) as Hf.
  assert (pp <= length (rows c))%nat as Hle.
  { rewrite <- (length_times c timeline tc) by done. apply partition_point_le. }
  rewrite <- length_rows in Hn. destruct (rev_find _ _) as [i|].
  - destruct Hf as (Hi & Hv & Hj). destruct (lookup_lt_is_Some_2 (rows c) i) as [r Hr]; [lia|].
    exists r. split_and!; [done|by apply (Hvc i r)| |].
    + intros s [j Hjs]%list_elem_of_lookup_1 [Hcell Htime].
      apply (Hvc j s) in Hcell; [|done..]. apply (Hpp j s Hjs) in Htime. fold valid in Hcell.
      assert (j <= i)%nat as Hji by (destruct (decide (i < j)%nat); [rewrite Hj in Hcell by lia; done|lia]).
      pose proof (sorted_times_lookup _ j i _ _ Hsorted Hji (Hlt j s Hwf Htc Hjs) (Hlt i r Hwf Htc Hr)).
      split; [done|]. intros [Hso|]; [|congruence]. rewrite ranks_key. unfold key_le.
      rewrite Hso in Hs. symmetry in Hs.
      pose proof (row_ids_sorted _ j i (row_id s) (row_id r) Hs Hji
        (rows_parts c j s Hjs) (rows_parts c i r Hr)). lia.
    + intros Hgt. assert (~ (i < pp)%nat) as Hnp by (rewrite (Hpp i r Hr); lia).
      split_and!; [done|lia|].
      intros s [j Hjs]%list_elem_of_lookup_1 [_ Htime]. apply (Hpp j s Hjs) in Htime. lia.
  - intros s [j Hjs]%list_elem_of_lookup_1 [Hcell Htime].
    apply (Hvc j s) in Hcell; [|done..]. apply (Hpp j s Hjs) in Htime.
    fold valid in Hcell. rewrite Hf in Hcell; [done|lia].
Qed.

Lemma unsorted_index_ok : TimeColumn.is_sorted tc = false -> RowId.ZERO ∉ row_ids c -> a <> TimeInt.STATIC ->
  exists o, temporal_scan valid (TimeColumn.times tc) a 0 (row_ids c) TimeInt.MIN RowId.ZERO None = Done o
    /\ latest_index_ok c timeline (TimeInt.as_i64 a) component tc o.
Proof.
  intros Es Hz Ha. pose proof Hwf as (_ & Ht & _). destruct (Ht _ _ Htc) as (_ & _ & Hty & _).
  pose proof (valid_has_cell c component column) as Hvc. pose proof (lookup_times c timeline tc) as Hlt.
  destruct (temporal_scan_spec valid (TimeColumn.times tc) a [] (row_ids c) TimeInt.MIN RowId.ZERO None)
    as (o & ct & cr & Ho & Hi & Hall); [done| |done|split; [done|by intros j]|].
  { by rewrite (length_times c timeline tc), length_rows. }
  cbn [length app] in *. exists o. split; [done|].
  assert (forall s, s ∈ rows c -> relevant timeline (TimeInt.as_i64 a) component s ->
    key_le (time_of timeline s) (row_id s) ct cr) as Hbest.
  { intros s [j Hjs]%list_elem_of_lookup_1 [Hcell Htime]. apply (Hvc j s) in Hcell; [|done..].
    by apply (Hall j); [apply rows_parts|apply Hlt|..]. }
  destruct o as [i|].
  - destruct Hi as (Hi & Hti & Hv & Hle).
    destruct (row_at_position c i cr Hi) as (r & Hr & Hrid). pose proof (Hlt i r Hwf Htc Hr) as Htr.
    assert (time_of timeline r = ct) as Hrt by congruence.
    exists r. split_and!; [done|by apply (Hvc i r)| |lia].
    intros s Hs' Hrel. specialize (Hbest s Hs' Hrel). rewrite ranks_key, Hrid, Hrt.
    unfold key_le in *. split; [lia|done].
  - destruct Hi as [-> ->]. intros s Hs' Hrel. specialize (Hbest s Hs' Hrel).
    apply list_elem_of_lookup_1 in Hs' as [j Hjs].
    pose proof (rows_parts c j s Hjs) as Hid. apply list_elem_of_lookup_2 in Hid.
    pose proof (nonzero_key (row_id s)) as Hnz. specialize (Hlt j s Hwf Htc Hjs).
    rewrite Forall_lookup in Hty. specialize (Hty _ _ Hlt). unfold temporal_i64 in Hty.
    rewrite TimeInt.as_i64_MIN in Hbest. unfold key_le in Hbest.
    assert (row_id s <> RowId.ZERO) by congruence. intuition int_lia.
Qed.

Lemma latest_at_temporal_index : RowId.ZERO ∉ row_ids c -> a <> TimeInt.STATIC -> num_rows c <> 0%nat ->
  exists o, latest_at_index c (LatestAtQuery.Mk (Some timeline) a) component = Done o
    /\ latest_index_ok c timeline (TimeInt.as_i64 a) component tc o.
Proof.
  intros Hz Ha Hn. unfold latest_at_index, ChunkComponents.get_array.
  rewrite Hk. cbn [fmap option_fmap option_map LatestAtQuery.timeline LatestAtQuery.at_ mbind option_bind].
  assert (is_static c = false) as -> by (apply bool_decide_eq_false; intros E; rewrite E in Htc; done).
  rewrite Htc. destruct (TimeColumn.is_sorted tc) eqn:Es.
  - eexists. split; [done|]. by apply sorted_index_ok.
  - by apply unsorted_index_ok.
Qed.

End Index.

Lemma latest_at_temporal_rows new_id c timeline a component tc : chunk_wf c ->
  RowId.ZERO ∉ row_ids c -> a <> TimeInt.STATIC -> timelines c !! timeline = Some tc ->
  exists o, latest_at new_id c (LatestAtQuery.Mk (Some timeline) a) component = Done o
    /\ match o with
       | None => forall s, s ∈ rows c -> ~ relevant timeline (TimeInt.as_i64 a) component s
       | Some u => exists r, rows (UnitChunk.chunk u) = [r] /\ r ∈ rows c
           /\ chunk_wf (UnitChunk.chunk u) /\ UnitChunk.original_chunk_id u = id c
           /\ has_cell component r
           /\ (forall s, s ∈ rows c -> relevant timeline (TimeInt.as_i64 a) component s ->
                time_of timeline s <= time_of timeline r
                /\ (is_sorted c = true \/ TimeColumn.is_sorted tc = false -> ranks timeline s r))
           /\ (TimeInt.as_i64 a < time_of timeline r -> TimeColumn.is_sorted tc = true
                /\ head (rows c) = Some r
                /\ forall s, s ∈ rows c -> ~ relevant timeline (TimeInt.as_i64 a) component s)
       end.
Proof.
  intros Hwf Hz Ha Htc. unfold latest_at. destruct (is_empty c) eqn:Ee.
  { eexists. split; [done|]. intros s Hs. rewrite no_rows in Hs by done. by apply elem_of_nil in Hs. }
  apply bool_decide_eq_false in Ee.
  destruct (components c !! component) as [column|] eqn:Hk.
  2:{ unfold latest_at_index, ChunkComponents.get_array. rewrite Hk. eexists. split; [done|].
      intros s Hs [Hcell _]. exact (no_column c component s Hk Hs Hcell). }
  destruct (latest_at_temporal_index c timeline a component column tc) as (o & -> & Ho); [done..|].
  cbn [mbind outcome_bind]. destruct o as [i|]; [|by exists None].
  destruct Ho as (r & Hr & Hcell & Hbest & Hlate).
  destruct (unit_row new_id c i r Hwf Hr) as (u & -> & Hu & Hw & _ & Ho & _).
  cbn [mbind outcome_bind]. exists (Some u). split; [done|]. exists r.
  split_and!; [done|by apply list_elem_of_lookup_2 in Hr|done|done|done|done|].
  intros Hgt. destruct (Hlate Hgt) as (Hst & -> & Hnone). by rewrite head_lookup.
Qed.

(** C30. [latest_at] on a temporal chunk returns a single whole row with the component. Among the
    rows that have the component at or before the queried time, it is the latest in time, and
    the one with the greatest row id at that time (in a time-sorted column this takes the chunk
    to be sorted by row id). When there is no such row, an unsorted column gives nothing, while
    a sorted column may give the chunk's first row although it is later than the queried time
    (the store's indices never give such a chunk). *)
Theorem latest_at_temporal_spec new_id c timeline a component tc : chunk_wf c ->
  RowId.ZERO ∉ row_ids c -> a <> TimeInt.STATIC -> timelines c !! timeline = Some tc ->
  exists o, latest_at new_id c (LatestAtQuery.Mk (Some timeline) a) component = Done o
    /\ match o with
       | None => forall s, s ∈ rows c -> ~ relevant timeline (TimeInt.as_i64 a) component s
       | Some u => exists r, rows (UnitChunk.chunk u) = [r] /\ r ∈ rows c
           /\ chunk_wf (UnitChunk.chunk u) /\ UnitChunk.original_chunk_id u = id c
           /\ has_cell component r
           /\ (forall s, s ∈ rows c -> relevant timeline (TimeInt.as_i64 a) component s ->
                time_of timeline s <= time_of timeline r
                /\ (is_sorted c = true \/ TimeColumn.is_sorted tc = false -> ranks timeline s r))
           /\ (TimeInt.as_i64 a < time_of timeline r -> TimeColumn.is_sorted tc = true
                /\ head (rows c) = Some r
                /\ forall s, s ∈ rows c -> ~ relevant timeline (TimeInt.as_i64 a) component s)
       end.
Proof. apply latest_at_temporal_rows. Qed.

Lemma latest_at_static_rows new_id c query component : chunk_wf c ->
  RowId.ZERO ∉ row_ids c -> timelines c = ∅ ->
  exists o, latest_at new_id c query component = Done o
    /\ match o with
       | None => forall s, s ∈ rows c -> ~ has_cell component s
       | Some u => exists r, rows (UnitChunk.chunk u) = [r] /\ r ∈ rows c
           /\ chunk_wf (UnitChunk.chunk u) /\ UnitChunk.original_chunk_id u = id c
           /\ has_cell component r
           /\ forall s, s ∈ rows c -> has_cell component s -> row_le s r = true
       end.
Proof.
  intros Hwf Hz Hst. unfold latest_at. destruct (is_empty c) eqn:Ee.
  { eexists. split; [done|]. intros s Hs. rewrite no_rows in Hs by done. by apply elem_of_nil in Hs. }
  destruct (components c !! component) as [column|] eqn:Hk.
  2:{ unfold latest_at_index, ChunkComponents.get_array. rewrite Hk. eexists. split; [done|].
      intros s Hs. exact (no_column c component s Hk Hs). }
  destruct (latest_at_static_index c query component column) as (o & -> & Ho);
    [done|done|by apply bool_decide_eq_true|done|].
  cbn [mbind outcome_bind]. destruct o as [i|]; [|by exists None].
  destruct Ho as (r & Hr & Hcell & Hbest).
  destruct (unit_row new_id c i r Hwf Hr) as (u & -> & Hu & Hw & _ & Ho & _).
  cbn [mbind outcome_bind]. exists (Some u). split; [done|]. exists r.
  split_and!; [done|by apply list_elem_of_lookup_2 in Hr|done|done|done|done].
Qed.

(** [latest_at] on a static chunk ignores the query's timeline and time and returns the row
    with the greatest row id among those with the component, whether the chunk is sorted or not,
    and nothing when there is none. *)
Lemma latest_at_static_spec new_id c query component : chunk_wf c ->
  RowId.ZERO ∉ row_ids c -> timelines c = ∅ ->
  exists o, latest_at new_id c query component = Done o
    /\ match o with
       | None => forall s, s ∈ rows c -> ~ has_cell component s
       | Some u => exists r, rows (UnitChunk.chunk u) = [r] /\ r ∈ rows c
           /\ chunk_wf (UnitChunk.chunk u) /\ UnitChunk.original_chunk_id u = id c
           /\ has_cell component r
           /\ forall s, s ∈ rows c -> has_cell component s -> row_le s r = true
       end.
Proof. apply latest_at_static_rows. Qed.

End LatestAt.

(** ** Range *)

Section Range.

Import Chunk ChunkSlice ChunkSort ChunkQuery.
Context `{Build} `{ArrowLaws} `{!SizeBytes}.
Implicit Types c : t.
Implicit Types q : RangeQuery.t.

(** What a range query leaves of a row's columns. *)
Definition project q (component : ComponentIdentifier) (r : Row) : Row :=
  let r := if RangeQuery.keep_extra_timelines (RangeQuery.options q) then r
           else keep_times (fun k => k = RangeQuery.timeline q) r in
  if RangeQuery.keep_extra_components (RangeQuery.options q) then r
  else keep_cells (fun k => k ∈ [component]) r.

Lemma project_time q component r :
  time_of (RangeQuery.timeline q) (project q component r) = time_of (RangeQuery.timeline q) r.
Proof.
  unfold project, time_of. destruct (RangeQuery.keep_extra_timelines _), (RangeQuery.keep_extra_components _);
    simpl; rewrite ?lookup_restrict, ?decide_True by done; done.
Qed.

Lemma project_cell q component r : has_cell component (project q component r) <-> has_cell component r.
Proof.
  unfold project, has_cell. destruct (RangeQuery.keep_extra_timelines _), (RangeQuery.keep_extra_components _);
    simpl; rewrite ?lookup_restrict, ?decide_True by set_solver; done.
Qed.

Lemma project_row_id q component r : row_id (project q component r) = row_id r.
Proof.
  unfold project. by destruct (RangeQuery.keep_extra_timelines _), (RangeQuery.keep_extra_components _).
Qed.

(** The two horizontal slices a range query starts with. *)
Lemma projected_chunk (fresh : nat -> ChunkId.t) c q component : very_strict = false -> chunk_wf c ->
  sturdy c ->
  exists c1 c2,
    (if RangeQuery.keep_extra_timelines (RangeQuery.options q) then Done c
     else timeline_sliced (fresh 0%nat) c (RangeQuery.timeline q)) = Done c1
    /\ (if RangeQuery.keep_extra_components (RangeQuery.options q) then Done c1
        else component_sliced (fresh 1%nat) c1 component) = Done c2
    /\ chunk_wf c2 /\ sturdy c2 /\ rows c2 = project q component <$> rows c
    /\ timelines c2 !! RangeQuery.timeline q = timelines c !! RangeQuery.timeline q
    /\ components c2 !! component = components c !! component
    /\ (timelines c !! RangeQuery.timeline q = None ->
        RangeQuery.keep_extra_timelines (RangeQuery.options q) && negb (is_static c) = negb (is_static c2)).
Proof.
  intros Hv Hwf Hh. unfold component_sliced.
  assert (exists c1, (if RangeQuery.keep_extra_timelines (RangeQuery.options q) then Done c
     else timeline_sliced (fresh 0%nat) c (RangeQuery.timeline q)) = Done c1
    /\ chunk_wf c1 /\ sturdy c1
    /\ rows c1 = (fun r => if RangeQuery.keep_extra_timelines (RangeQuery.options q) then r
           else keep_times (fun k => k = RangeQuery.timeline q) r) <$> rows c
    /\ timelines c1 !! RangeQuery.timeline q = timelines c !! RangeQuery.timeline q
    /\ components c1 = components c
    /\ (timelines c !! RangeQuery.timeline q = None ->
        RangeQuery.keep_extra_timelines (RangeQuery.options q) && negb (is_static c) = negb (is_static c1)))
    as (c1 & Hc1 & Hw1 & Hh1 & Hr1 & Ht1 & Hk1 & Hst1).
  { destruct (RangeQuery.keep_extra_timelines _).
    - exists c. rewrite list_fmap_id. done.
    - destruct (timeline_sliced_rows (fresh 0%nat) c (RangeQuery.timeline q)) as (c1 & ? & ? & ? & Ht & ? & ?);
        [done..|]. exists c1. split_and!; try done.
      + by apply unmeasured_sturdy.
      + by rewrite Ht, lookup_restrict, decide_True.
      + intros Hn. symmetry. apply negb_false_iff. unfold is_static. apply bool_decide_eq_true.
        rewrite Ht. apply map_eq. intros k. rewrite lookup_restrict, lookup_empty.
        case_decide; [by subst|done]. }
  exists c1. destruct (RangeQuery.keep_extra_components (RangeQuery.options q)) eqn:Ec.
  - exists c1. rewrite Hr1. unfold project. rewrite Ec, Hk1. done.
  - destruct (components_sliced_rows (fresh 1%nat) c1 [component]) as (c2 & ? & ? & Hr2 & Ht2 & Hk2 & ?);
      [done..|]. exists c2. split_and!; try done.
    + by apply unmeasured_sturdy.
    + rewrite Hr2, Hr1, <- list_fmap_compose. unfold project. by rewrite Ec.
    + by rewrite Ht2.
    + rewrite Hk2, lookup_restrict, decide_True by set_solver. by rewrite Hk1.
    + unfold is_static. by rewrite Ht2.
Qed.

(** The rows that stay before the range is cut out. *)
Definition dense_rows c (component : ComponentIdentifier) : list Row :=
  match components c !! component with
  | Some _ => filter (has_cell component) (rows c)
  | None => rows c
  end.

Definition time_le (timeline : TimelineName) (r s : Row) : bool := time_of timeline r <=? time_of timeline s.

(** The rows of a sorted list that a range query selects. *)
Definition in_query_range q (sorted selected : list Row) : Prop :=
  let lo := TimeInt.as_i64 (AbsoluteTimeRange.rmin (RangeQuery.range q)) in
  let hi := TimeInt.as_i64 (AbsoluteTimeRange.rmax (RangeQuery.range q)) in
  let time := time_of (RangeQuery.timeline q) in
  exists before inside after, sorted = before ++ inside ++ after
    /\ Forall (fun r => time r < lo) before
    /\ Forall (fun r => lo <= time r <= hi) inside
    /\ Forall (fun r => hi < time r) after
    /\ selected =
         if RangeQuery.include_extended_bounds (RangeQuery.options q)
         then option_list (last before) ++ inside ++ option_list (head after)
         else inside.

Definition query_nonempty q : Prop :=
  TimeInt.as_i64 (AbsoluteTimeRange.rmin (RangeQuery.range q))
    <= TimeInt.as_i64 (AbsoluteTimeRange.rmax (RangeQuery.range q)).

Lemma range_rows_spec new_id c q n tc : chunk_wf c ->
  timelines c !! RangeQuery.timeline q = Some tc ->
  sorted_by (time_le (RangeQuery.timeline q)) (rows c) ->
  (num_rows c <= n)%nat -> query_nonempty q ->
  chunk_wf (range_rows new_id c n q (TimeColumn.times tc))
  /\ in_query_range q (rows c) (rows (range_rows new_id c n q (TimeColumn.times tc))).
Proof.
  intros Hwf Htc Hs Hn Hq. unfold range_rows, in_query_range, query_nonempty in *.
  rewrite <- (time_of_rows c (RangeQuery.timeline q) tc), !partition_point_fmap by done.
  destruct (cut_sorted (time_of (RangeQuery.timeline q)) _ _ (rows c) Hq Hs)
    as (b & m & a & Heq & Hb & Hm & Ha & -> & ->).
  destruct (row_sliced_rows new_id c
    (if RangeQuery.include_extended_bounds (RangeQuery.options q) then (length b - 1)%nat else length b)
    ((if RangeQuery.include_extended_bounds (RangeQuery.options q)
      then Nat.min n (length b + length m + 1) else (length b + length m)%nat)
     - (if RangeQuery.include_extended_bounds (RangeQuery.options q) then (length b - 1)%nat else length b))
    false Hwf) as (Hw & Hr & _).
  split; [done|]. exists b, m, a. split_and!; [done..|]. unfold row_sliced_shallow. rewrite Hr, Heq.
  rewrite <- length_rows, Heq in Hn.
  destruct (RangeQuery.include_extended_bounds (RangeQuery.options q)).
  - by apply take_drop_extended.
  - apply take_drop_inside.
Qed.

Lemma filter_project q component (l : list Row) :
  filter (has_cell component) (project q component <$> l)
    = project q component <$> filter (has_cell component) l.
Proof.
  induction l as [|r l IH]; [done|]. rewrite fmap_cons, !filter_cons, IH.
  pose proof (project_cell q component r). repeat case_decide; [done|tauto..|done].
Qed.

Lemma length_dense_rows c component : (length (dense_rows c component) <= num_rows c)%nat.
Proof.
  unfold dense_rows. rewrite <- length_rows. destruct (components c !! component); [|done]. apply length_filter.
Qed.

(** Densifying and sorting, as [range] does. *)
Lemma dense_sorted_rows id1 id2 c timeline component tc : very_strict = false -> chunk_wf c ->
  sturdy c -> timelines c !! timeline = Some tc ->
  exists c1 changed c2, densified id1 c component = Done (c1, changed)
    /\ (if TimeColumn.is_sorted tc then Done c1 else sorted_by_timeline_if_unsorted id2 c1 timeline) = Done c2
    /\ chunk_wf c2 /\ is_Some (timelines c2 !! timeline)
    /\ rows c2 ≡ₚ dense_rows c component /\ sorted_by (time_le timeline) (rows c2)
    /\ (TimeColumn.is_sorted tc = true -> rows c2 = dense_rows c component).
Proof.
  intros Hv Hwf Hh Htc.
  destruct (densified_rows id1 c component Hv Hwf) as (c1 & changed & Hd & Hw1 & (_ & Htl1 & _) & Hh1 & Hr1).
  assert (sturdy c1) as Hst1 by (destruct Hh1 as [?| ->]; [by apply unmeasured_sturdy|done]).
  assert (rows c1 = dense_rows c component) as Hrows.
  { unfold dense_rows. destruct (components c !! component); apply Hr1. }
  destruct (timelines c1 !! timeline) as [tc1|] eqn:Htc1;
    [|specialize (Htl1 timeline); by rewrite Htc, Htc1 in Htl1].
  exists c1, changed. destruct (TimeColumn.is_sorted tc) eqn:Es.
  - exists c1. split_and!; [done..|by rewrite Htc1|by rewrite Hrows| |done].
    destruct (sorted_by_timeline_rows id2 c timeline) as (c' & _ & _ & _ & _ & _ & Hs); [done..|].
    rewrite Htc in Hs. destruct Hs as (Hs & Heq & _). rewrite Heq in Hs by done.
    rewrite Hrows. unfold dense_rows. destruct (components c !! component); [|done].
    by apply sorted_filter.
  - destruct (sorted_by_timeline_rows id2 c1 timeline) as (c2 & Hc2 & Hw2 & (_ & Htl2 & _) & _ & _ & Hs); [done|auto|done|].
    rewrite Htc1 in Hs. destruct Hs as (Hs & Hsame & Hperm). exists c2.
    split_and!; [done..| | |done|done].
    + specialize (Htl2 timeline). rewrite Htc1 in Htl2. by destruct (timelines c2 !! timeline).
    + rewrite <- Hrows. destruct (TimeColumn.is_sorted tc1); [by rewrite Hsame|].
      destruct Hperm as [_ ->]; [done|]. apply sort_by_perm.
Qed.

Lemma range_temporal_ok fresh c q component tc : very_strict = false -> chunk_wf c ->
  sturdy c -> query_nonempty q ->
  timelines c !! RangeQuery.timeline q = Some tc ->
  exists c' sorted, range fresh c q component = Done c' /\ chunk_wf c'
    /\ sorted ≡ₚ project q component <$> dense_rows c component
    /\ sorted_by (time_le (RangeQuery.timeline q)) sorted
    /\ (TimeColumn.is_sorted tc = true -> sorted = project q component <$> dense_rows c component)
    /\ in_query_range q sorted (rows c').
Proof.
  intros Hv Hwf Hh Hq Htc. unfold range. destruct (is_empty c) eqn:Ee.
  { exists c, []. assert (dense_rows c component = []) as ->.
    { unfold dense_rows. rewrite no_rows by done. by destruct (components c !! component). }
    split_and!; [done|done|done|constructor|done|].
    rewrite no_rows by done. exists [], [], []. by destruct (RangeQuery.include_extended_bounds _). }
  destruct (projected_chunk fresh c q component) as (c1 & c2 & -> & Hc2 & Hw & Hh2 & Hr & Ht & Hk & _); [done..|].
  cbn [mbind outcome_bind]. rewrite Hc2. cbn [mbind outcome_bind]. rewrite Htc in Ht.
  assert (is_static c2 = false) as -> by (apply bool_decide_eq_false; intros E; by rewrite E in Ht).
  rewrite Ht.
  destruct (dense_sorted_rows (fresh 3%nat) (fresh 4%nat) c2 (RangeQuery.timeline q) component tc)
    as (c3 & changed & c4 & -> & Hc4 & Hw4 & [tc4 Htc4] & Hperm & Hs & Hsame); [done..|].
  cbn [mbind outcome_bind]. rewrite Hc4. cbn [mbind outcome_bind]. rewrite Htc4.
  assert (dense_rows c2 component = project q component <$> dense_rows c component) as Hdense.
  { unfold dense_rows. rewrite Hk, Hr. destruct (components c !! component); [|done]. apply filter_project. }
  destruct (range_rows_spec (fresh 5%nat) c4 q (num_rows c) tc4) as [Hw5 Hsel]; [done..| |done|].
  { rewrite <- !length_rows, Hperm, Hdense, length_fmap. rewrite length_rows. apply length_dense_rows. }
  eexists _, (rows c4). split_and!; [done|done|by rewrite Hperm, Hdense|done| |done].
  intros Hst. by rewrite Hsame, Hdense.
Qed.

(** C31. [range] on a well-formed chunk with the queried timeline, for a range that is not empty
    (and a chunk whose size, if a debug build has it cached, is right and does not change when
    the rows are sorted, [sturdy]: the debug check would panic otherwise): the rows
    without the component are dropped (none are, if the chunk has no such column), the rest is
    put in the order of the timeline (unless it is in order already), and the rows within the
    bounds are kept, with the closest row beyond each bound when the extended bounds are asked
    for. The columns the options do not ask for are dropped. *)
Theorem range_temporal_spec fresh c q component tc : very_strict = false -> chunk_wf c ->
  sturdy c -> query_nonempty q ->
  timelines c !! RangeQuery.timeline q = Some tc ->
  exists c' sorted, range fresh c q component = Done c' /\ chunk_wf c'
    /\ sorted ≡ₚ project q component <$> dense_rows c component
    /\ sorted_by (time_le (RangeQuery.timeline q)) sorted
    /\ (TimeColumn.is_sorted tc = true -> sorted = project q component <$> dense_rows c component)
    /\ in_query_range q sorted (rows c').
Proof. apply range_temporal_ok. Qed.

(** [range] on a chunk without the queried timeline. A static chunk yields the row that
    overrides all others: the one with the greatest row id among those with the component. So
    does a temporal chunk when the extra timelines are dropped first, because the chunk left
    over has no timeline and counts as static; with the extra timelines kept it yields no row.
    *)
Lemma range_without_timeline_spec fresh c q component : very_strict = false -> chunk_wf c ->
  sturdy c -> RowId.ZERO ∉ row_ids c ->
  timelines c !! RangeQuery.timeline q = None ->
  exists c', range fresh c q component = Done c' /\ chunk_wf c'
    /\ if RangeQuery.keep_extra_timelines (RangeQuery.options q) && negb (is_static c)
       then rows c' = []
       else (rows c' = [] /\ forall s, s ∈ rows c -> ~ has_cell component s)
            \/ exists r, rows c' = [project q component r] /\ r ∈ rows c /\ has_cell component r
               /\ forall s, s ∈ rows c -> has_cell component s -> row_le s r = true.
Proof.
  intros Hv Hwf Hh Hz Htc. unfold range. destruct (is_empty c) eqn:Ee.
  { exists c. rewrite no_rows by done. split_and!; [done|done|].
    destruct (_ && _); [done|]. left. split; [done|]. intros s Hs. by apply elem_of_nil in Hs. }
  destruct (projected_chunk fresh c q component) as (c1 & c2 & -> & Hc2 & Hw & Hh2 & Hr & Ht & Hk & Hst); [done..|].
  cbn [mbind outcome_bind]. rewrite Hc2. cbn [mbind outcome_bind]. rewrite (Hst Htc).
  destruct (emptied_spec (fresh 2%nat) c2 Hw) as (He1 & He2 & _).
  destruct (is_static c2) eqn:Es; cbn [negb].
  2:{ rewrite Ht, Htc. by eexists. }
  assert (RowId.ZERO ∉ row_ids c2) as Hz2.
  { assert (row_ids c2 = row_ids c) as ->; [|done]. rewrite <- !row_id_rows, Hr, <- list_fmap_compose.
    apply list_fmap_ext. intros k r _. apply project_row_id. }
  destruct (latest_at_static_rows (fresh 2%nat) c2 LatestAtQuery.new_static component) as (o & -> & Ho);
    [done|done|by apply bool_decide_eq_true in Es|].
  cbn [mbind outcome_bind]. destruct o as [u|].
  - destruct Ho as (r & Hu & Hin & Hwu & _ & Hcell & Hbest). rewrite Hr in Hin, Hbest.
    apply list_elem_of_fmap in Hin as (r0 & -> & Hin).
    eexists. split_and!; [done|done|]. right. exists r0. split_and!; [done|done|by apply project_cell in Hcell|].
    intros s Hs Hcs. specialize (Hbest (project q component s)). unfold row_le in *.
    rewrite !project_row_id in Hbest. apply Hbest; [|by apply project_cell].
    apply list_elem_of_fmap. by exists s.
  - eexists. split_and!; [done|done|]. left. split; [done|]. intros s Hs Hcs.
    apply (Ho (project q component s)); [|by apply project_cell].
    rewrite Hr. apply list_elem_of_fmap. by exists s.
Qed.

End Range.
