(* ===== verification/Lineage.v ===== *)
(** * Chunk lineage

    [dl_chunk_store/src/lineage.rs], and from [writes.rs] the reference-counted bookkeeping
    that forgets the lineage of chunks nothing refers to any more:
    [insert_lineage_if_missing] and [drop_lineage_reference].

    Lineage relates ids only.  The reports that events carry hold the chunks themselves; they
    are in [StoreWrites]. *)

From S2P Require Import Prelude Ints Tuid Arrow.

(** [ChunkDirectLineage]. *)
Inductive ChunkDirectLineage :=
| SplitFrom (parent : ChunkId.t) (siblings : list ChunkId.t)
| CompactedFrom (parents : list ChunkId.t)
| RootFromManifest (is_static : bool)
| Volatile.

#[export] Instance lineage_eq_dec : EqDecision ChunkDirectLineage.
Proof. solve_decision. Defined.

(** [TrackedDirectChunkLineage]; the reference count is a [u32]. *)
Record TrackedDirectChunkLineage := Tracked {
  lineage : ChunkDirectLineage;
  ref_count : Z;
  descends_from_manifest : bool;
}.

(** [LineageDroppingCtx]: the parts of the store that lineage is recorded in. *)
Record LineageDroppingCtx := Ctx {
  chunks_lineage : gmap ChunkId.t TrackedDirectChunkLineage;
  leaky_compactions : gmap ChunkId.t ChunkId.t;
  split_on_ingest : gset ChunkId.t;
  dangling_splits : gmap ChunkId.t (list ChunkId.t);
}.

Module Lineage.

Definition iter_referenced_chunks (self : ChunkDirectLineage) : list ChunkId.t :=
  match self with
  | SplitFrom chunk_id _ => [chunk_id]
  | CompactedFrom chunks => chunks
  | RootFromManifest _ | Volatile => []
  end.

(** ** Queries on the lineage of a store *)

Section Queries.

Context `{Build}.
Implicit Types store : gmap ChunkId.t TrackedDirectChunkLineage.

Definition direct_lineage store (chunk_id : ChunkId.t) : option ChunkDirectLineage :=
  lineage <$> store !! chunk_id.

Definition is_root_chunk store (chunk_id : ChunkId.t) : bool :=
  match direct_lineage store chunk_id with
  | None | Some (RootFromManifest _) | Some Volatile => true
  | _ => false
  end.

Definition store_descends_from_manifest store (chunk_id : ChunkId.t) : bool :=
  from_option descends_from_manifest false (store !! chunk_id).

(** The recursions follow parents, who come before their children: the number of entries is
    fuel enough, and running out stands for not terminating. *)
Fixpoint collect_root_ids (fuel : nat) store (chunk_id : ChunkId.t) (roots : list ChunkId.t)
    : option (list ChunkId.t) :=
  match fuel with
  | O => None
  | S fuel =>
      match direct_lineage store chunk_id with
      | Some (SplitFrom chunk_id _) => collect_root_ids fuel store chunk_id roots
      | Some (CompactedFrom chunk_ids) =>
          foldl (fun roots chunk_id => roots ← roots; collect_root_ids fuel store chunk_id roots)
            (Some roots) chunk_ids
      | Some (RootFromManifest _) | Some Volatile => Some (roots ++ [chunk_id])
      | None => Some roots
      end
  end.

Definition find_root_chunks store (chunk_id : ChunkId.t) : option (list ChunkId.t) :=
  collect_root_ids (S (size store)) store chunk_id [].

Fixpoint collect_root_manifest_chunks (fuel : nat) store (chunk_id : ChunkId.t) (roots : list ChunkId.t)
    : option (list ChunkId.t) :=
  match fuel with
  | O => None
  | S fuel =>
      match direct_lineage store chunk_id with
      | Some (SplitFrom chunk_id _) => collect_root_manifest_chunks fuel store chunk_id roots
      | Some (CompactedFrom chunk_ids) =>
          foldl (fun roots chunk_id => roots ← roots; collect_root_manifest_chunks fuel store chunk_id roots)
            (Some roots) chunk_ids
      | Some (RootFromManifest _) => Some (roots ++ [chunk_id])
      | _ => Some roots
      end
  end.

Definition find_root_manifest_chunks store (chunk_id : ChunkId.t) : option (list ChunkId.t) :=
  collect_root_manifest_chunks (S (size store)) store chunk_id [].

(** The recursion of a debug build.  The assertion panics on a split below a compaction. *)
Fixpoint descends_from_a_split_rec (fuel : nat) store (chunk_id : ChunkId.t) (compaction_found : bool)
    : option (outcome bool) :=
  match fuel with
  | O => None
  | S fuel =>
      match direct_lineage store chunk_id with
      | Some (SplitFrom _ _) =>
          Some (_ ← debug_assert (negb compaction_found); Done true)
      | Some (CompactedFrom chunk_ids) =>
          (fix any chunk_ids :=
             match chunk_ids with
             | [] => Some (Done false)
             | chunk_id :: chunk_ids =>
                 match descends_from_a_split_rec fuel store chunk_id true with
                 | Some (Done false) => any chunk_ids
                 | r => r
                 end
             end) chunk_ids
      | _ => Some (Done false)
      end
  end.

Definition descends_from_a_split store (chunk_id : ChunkId.t) : option (outcome bool) :=
  if debug_assertions then descends_from_a_split_rec (S (size store)) store chunk_id false
  else Some (Done match direct_lineage store chunk_id with Some (SplitFrom _ _) => true | _ => false end).

Fixpoint descends_from_a_compaction_rec (fuel : nat) store (chunk_id : ChunkId.t) (split_found : bool)
    : option (outcome bool) :=
  match fuel with
  | O => None
  | S fuel =>
      match direct_lineage store chunk_id with
      | Some (SplitFrom chunk_id _) => descends_from_a_compaction_rec fuel store chunk_id true
      | Some (CompactedFrom _) => Some (_ ← debug_assert (negb split_found); Done true)
      | _ => Some (Done false)
      end
  end.

Definition descends_from_a_compaction store (chunk_id : ChunkId.t) : option (outcome bool) :=
  descends_from_a_compaction_rec (S (size store)) store chunk_id false.

End Queries.

(** The loop of [collect_physical_descendents_of]: follows compactions until a chunk that is
    in memory.  Compactions lead to newer chunks: the number of entries is fuel enough. *)
Fixpoint follow_compactions (fuel : nat) (physical : gset ChunkId.t)
    (leaky_compactions : gmap ChunkId.t ChunkId.t) (source_id : ChunkId.t) : option (option ChunkId.t) :=
  match fuel with
  | O => None
  | S fuel =>
      match leaky_compactions !! source_id with
      | None => Some None
      | Some chunk_id =>
          if bool_decide (chunk_id ∈ physical) then Some (Some chunk_id)
          else follow_compactions fuel physical leaky_compactions chunk_id
      end
  end.

Definition collect_physical_descendents_of (physical : gset ChunkId.t) (self : LineageDroppingCtx)
    (chunk_id : ChunkId.t) (descendents : list ChunkId.t) : option (list ChunkId.t) :=
  if bool_decide (chunk_id ∈ physical) then Some (descendents ++ [chunk_id])
  else
    match dangling_splits self !! chunk_id with
    | Some split_chunks => Some (descendents ++ filter (fun c => c ∈ physical) split_chunks)
    | None =>
        compacted ← follow_compactions (S (size (leaky_compactions self))) physical
                      (leaky_compactions self) chunk_id;
        Some (descendents ++ option_list compacted)
    end.

(** ** Recording lineage *)

Section Recording.

Context `{Build}.

(** [l.ref_count += 1], on a [u32]. *)
Definition add_reference (ref_count : Z) : outcome Z :=
  let z := ref_count + 1 in
  if bool_decide (z < 2 ^ 32) then Done z
  else if debug_assertions then Panic else Done (z mod 2 ^ 32).

Definition bump_reference (store : gmap ChunkId.t TrackedDirectChunkLineage) (chunk_id : ChunkId.t)
    : outcome (gmap ChunkId.t TrackedDirectChunkLineage) :=
  match store !! chunk_id with
  | None => Done store
  | Some l =>
      n ← add_reference (ref_count l);
      Done (<[chunk_id := Tracked (lineage l) n (descends_from_manifest l)]> store)
  end.

Fixpoint bump_references (store : gmap ChunkId.t TrackedDirectChunkLineage) (chunk_ids : list ChunkId.t)
    : outcome (gmap ChunkId.t TrackedDirectChunkLineage) :=
  match chunk_ids with
  | [] => Done store
  | chunk_id :: chunk_ids => store ← bump_reference store chunk_id; bump_references store chunk_ids
  end.

(** What the flag of a new entry is computed from. *)
Definition inherits_manifest (store : gmap ChunkId.t TrackedDirectChunkLineage) (new : ChunkDirectLineage) : bool :=
  match new with
  | SplitFrom chunk_id _ => store_descends_from_manifest store chunk_id
  | CompactedFrom chunks => existsb (store_descends_from_manifest store) chunks
  | RootFromManifest _ => true
  | Volatile => false
  end.

Definition insert_lineage_if_missing (store : gmap ChunkId.t TrackedDirectChunkLineage)
    (chunk_id : ChunkId.t) (new : ChunkDirectLineage)
    : outcome (gmap ChunkId.t TrackedDirectChunkLineage) :=
  let descends_from_manifest := inherits_manifest store new in
  match store !! chunk_id with
  | None =>
      bump_references (<[chunk_id := Tracked new 0 descends_from_manifest]> store)
        (iter_referenced_chunks new)
  | Some entry =>
      _ ← debug_assert
        (match lineage entry, new with
         | RootFromManifest _, Volatile => true
         | l, new => bool_decide (l = new)
         end);
      Done store
  end.

End Recording.

(** ** Dropping a reference

    The operations of the worklist. *)
Inductive Op := DropRef (chunk_id : ChunkId.t) | Remove (chunk_id : ChunkId.t).

Definition is_live (store : gmap ChunkId.t TrackedDirectChunkLineage) (chunk_id : ChunkId.t) : bool :=
  from_option (fun l => 0 <? ref_count l) false (store !! chunk_id).

(** One turn of the loop: the new state, and what is pushed, in order. *)
Definition drop_step (ctx : LineageDroppingCtx) (op : Op) : LineageDroppingCtx * list Op :=
  match op with
  | DropRef chunk_id =>
      match chunks_lineage ctx !! chunk_id with
      | None => (ctx, [])
      | Some l =>
          let l := Tracked (lineage l) (Z.max 0 (ref_count l - 1)) (descends_from_manifest l) in
          let ctx := Ctx (<[chunk_id := l]> (chunks_lineage ctx)) (leaky_compactions ctx)
                       (split_on_ingest ctx) (dangling_splits ctx) in
          if descends_from_manifest l || (0 <? ref_count l) then (ctx, [])
          else
            match lineage l with
            | SplitFrom _ siblings =>
                if existsb (is_live (chunks_lineage ctx)) siblings then (ctx, [])
                else (ctx, (Remove <$> siblings) ++ [Remove chunk_id])
            | _ => (ctx, [Remove chunk_id])
            end
      end
  | Remove chunk_id =>
      match chunks_lineage ctx !! chunk_id with
      | None => (ctx, [])
      | Some l =>
          (Ctx (delete chunk_id (chunks_lineage ctx)) (delete chunk_id (leaky_compactions ctx))
             (split_on_ingest ctx ∖ {[chunk_id]}) (delete chunk_id (dangling_splits ctx)),
           DropRef <$> iter_referenced_chunks (lineage l))
      end
  end.

(** [ops] is the stack, its top first. *)
Fixpoint drop_loop (fuel : nat) (ctx : LineageDroppingCtx) (ops : list Op) : option LineageDroppingCtx :=
  match ops with
  | [] => Some ctx
  | op :: ops =>
      match fuel with
      | O => None
      | S fuel => let '(ctx, pushed) := drop_step ctx op in drop_loop fuel ctx (rev pushed ++ ops)
      end
  end.

(** The sum of [f] over the entries. *)
Definition total (f : TrackedDirectChunkLineage -> nat) (m : gmap ChunkId.t TrackedDirectChunkLineage) : nat :=
  sum_list_with (fun '(_, l) => f l) (map_to_list m).

Definition num_siblings (l : TrackedDirectChunkLineage) : nat :=
  match lineage l with SplitFrom _ siblings => length siblings | _ => 0 end.
Definition num_references (l : TrackedDirectChunkLineage) : nat := length (iter_referenced_chunks (lineage l)).

(** A turn on [DropRef] pushes at most one removal for each sibling and one more, and an
    entry is removed once: this many turns are enough. *)
Definition drop_cost (ctx : LineageDroppingCtx) : nat := 2 + total num_siblings (chunks_lineage ctx).
Definition drop_fuel (ctx : LineageDroppingCtx) : nat :=
  drop_cost ctx + drop_cost ctx * total num_references (chunks_lineage ctx).

Definition drop_lineage_reference (ctx : LineageDroppingCtx) (chunk_id : ChunkId.t) : option LineageDroppingCtx :=
  drop_loop (drop_fuel ctx) ctx [DropRef chunk_id].

End Lineage.

(** ** Sums over the entries *)

Section Totals.

Import Lineage.
Implicit Types m : gmap ChunkId.t TrackedDirectChunkLineage.
Implicit Types f : TrackedDirectChunkLineage -> nat.

Lemma total_insert_fresh f m id l : m !! id = None -> total f (<[id := l]> m) = (f l + total f m)%nat.
Proof. intros Hid. unfold total. by rewrite map_to_list_insert. Qed.

Lemma total_delete f m id l : m !! id = Some l -> total f m = (f l + total f (delete id m))%nat.
Proof. intros Hid. unfold total. by rewrite <- (map_to_list_delete m id l Hid). Qed.

Lemma total_insert f m id l l' : m !! id = Some l -> (f l + total f (<[id := l']> m))%nat = (f l' + total f m)%nat.
Proof.
  intros Hid. rewrite <- insert_delete_eq, total_insert_fresh by apply lookup_delete_eq.
  rewrite (total_delete f m id l Hid). lia.
Qed.

Lemma total_elem f m id l : m !! id = Some l -> (f l <= total f m)%nat.
Proof. intros Hid. rewrite (total_delete f m id l Hid). lia. Qed.

Lemma total_zero f m : total f m = 0%nat <-> forall id l, m !! id = Some l -> f l = 0%nat.
Proof.
  induction m as [|id l m Hid IH] using map_ind.
  - unfold total. rewrite map_to_list_empty. split; [intros _ ? ? H; by rewrite lookup_empty in H|done].
  - rewrite total_insert_fresh by done. split.
    + intros H0 id' l'. destruct (decide (id = id')) as [<-|Hne].
      * rewrite lookup_insert_eq. intros [= <-]. lia.
      * rewrite lookup_insert_ne by done. apply IH. lia.
    + intros Hall. rewrite (Hall id l) by apply lookup_insert_eq. simpl. apply IH.
      intros id' l' Hl'. apply (Hall id'). rewrite lookup_insert_ne; [done|]. intros ->. congruence.
Qed.

End Totals.

(** ** The reference counts *)

Section Counts.

Import Lineage.
Context `{Build}.
Implicit Types ctx : LineageDroppingCtx.
Implicit Types m : gmap ChunkId.t TrackedDirectChunkLineage.
Implicit Types ops : list Op.

(** How often an id is referred to: by an entry, by all of them, by the pending operations. *)
Definition occurrences (id : ChunkId.t) (ids : list ChunkId.t) : nat := length (filter (eq id) ids).
Definition refers (id : ChunkId.t) (l : TrackedDirectChunkLineage) : nat :=
  occurrences id (iter_referenced_chunks (lineage l)).
Definition dropped_refs ops : list ChunkId.t :=
  omap (fun op => match op with DropRef id => Some id | Remove _ => None end) ops.

(** The counts are exact: one for a physical chunk, one for each reference of an entry, and
    one for each reference that is about to be dropped. *)
Definition counted (physical : gset ChunkId.t) m (pending : list ChunkId.t) : Prop :=
  forall id l, m !! id = Some l ->
    ref_count l = Z.of_nat ((if decide (id ∈ physical) then 1 else 0)
                            + total (refers id) m + occurrences id pending).

(** Siblings know each other, and come from the same parent. *)
Definition families m : Prop :=
  forall id l parent siblings, m !! id = Some l -> lineage l = SplitFrom parent siblings ->
    id ∉ siblings
    /\ forall s ls, s ∈ siblings -> m !! s = Some ls ->
         descends_from_manifest ls = descends_from_manifest l
         /\ exists siblings', lineage ls = SplitFrom parent siblings'
            /\ forall i, i ∈ s :: siblings' <-> i ∈ id :: siblings.

(** Nothing is kept that could be dropped: an entry that nothing refers to is from a
    manifest, or has a sibling that is referred to. *)
Definition idle m (id : ChunkId.t) (l : TrackedDirectChunkLineage) : Prop :=
  descends_from_manifest l = false /\ ref_count l = 0
  /\ match lineage l with SplitFrom _ siblings => Forall (fun s => is_live m s = false) siblings | _ => True end.

#[export] Instance idle_dec m id l : Decision (idle m id l).
Proof. unfold idle. destruct (lineage l); apply _. Defined.

Definition tidy m : Prop := forall id l, m !! id = Some l -> ~ idle m id l.

Lemma occurrences_cons id x l : occurrences id (x :: l) = ((if decide (id = x) then 1 else 0) + occurrences id l)%nat.
Proof. unfold occurrences. rewrite filter_cons. by case_decide. Qed.

Lemma occurrences_ne id x l : id <> x -> occurrences id (x :: l) = occurrences id l.
Proof. intros. rewrite occurrences_cons. by case_decide. Qed.

Lemma occurrences_eq id l : occurrences id (id :: l) = S (occurrences id l).
Proof. rewrite occurrences_cons. by case_decide. Qed.

Lemma occurrences_app id l k : occurrences id (l ++ k) = (occurrences id l + occurrences id k)%nat.
Proof. unfold occurrences. by rewrite filter_app, length_app. Qed.

Lemma occurrences_rev id l : occurrences id (rev l) = occurrences id l.
Proof. unfold occurrences. by rewrite <- Permutation_rev. Qed.

Lemma occurrences_zero id l : occurrences id l = 0%nat <-> id ∉ l.
Proof.
  induction l as [|x l IH]; [split; [by intros _ ?%elem_of_nil|done]|].
  rewrite occurrences_cons, not_elem_of_cons, <- IH. case_decide; naive_solver lia.
Qed.

Lemma dropped_refs_app ops ops' : dropped_refs (ops ++ ops') = dropped_refs ops ++ dropped_refs ops'.
Proof. apply omap_app. Qed.

Lemma dropped_refs_removes ids : dropped_refs (rev (Remove <$> ids)) = [].
Proof. induction ids as [|id ids IH]; [done|]. rewrite fmap_cons. cbn [rev]. by rewrite dropped_refs_app, IH. Qed.

Lemma dropped_refs_drops ids : dropped_refs (rev (DropRef <$> ids)) = rev ids.
Proof. induction ids as [|id ids IH]; [done|]. rewrite fmap_cons. cbn [rev]. by rewrite dropped_refs_app, IH. Qed.

(** Entries change their reference count only. *)
Definition same_entries m m' : Prop :=
  forall id, match m !! id, m' !! id with
    | Some l, Some l' => lineage l' = lineage l /\ descends_from_manifest l' = descends_from_manifest l
    | None, None => True
    | _, _ => False
    end.

Lemma set_count_same m id l n : m !! id = Some l ->
  same_entries m (<[id := Tracked (lineage l) n (descends_from_manifest l)]> m).
Proof.
  intros Hid id'. destruct (decide (id = id')) as [<-|Hne].
  - rewrite lookup_insert_eq, Hid. done.
  - rewrite lookup_insert_ne by done. by destruct (m !! id').
Qed.

Lemma total_same f m id l n : m !! id = Some l -> (forall l l', lineage l = lineage l' -> f l = f l') ->
  total f (<[id := Tracked (lineage l) n (descends_from_manifest l)]> m) = total f m.
Proof.
  intros Hid Hf. pose proof (total_insert f m id l (Tracked (lineage l) n (descends_from_manifest l)) Hid).
  rewrite (Hf l (Tracked (lineage l) n (descends_from_manifest l))) in * by done. lia.
Qed.

Lemma same_families m m' : same_entries m m' -> families m -> families m'.
Proof.
  intros Hs Hf id l' parent siblings Hl' Hlin. pose proof (Hs id) as Hid. rewrite Hl' in Hid.
  destruct (m !! id) as [l|] eqn:El; [|done]. destruct Hid as [Hlin' Hm]. rewrite Hlin' in Hlin.
  destruct (Hf id l parent siblings El Hlin) as [Hni Hsib]. split; [done|]. intros s ls' Hin Hls'.
  pose proof (Hs s) as Hids. rewrite Hls' in Hids. destruct (m !! s) as [ls|] eqn:Els; [|done].
  destruct Hids as [Hls Hms]. destruct (Hsib s ls Hin Els) as (Hdm & siblings' & Hlin2 & Hiff).
  split; [congruence|]. exists siblings'. split; [congruence|done].
Qed.

Lemma delete_families m id : families m -> families (delete id m).
Proof.
  intros Hf i l parent siblings [Hne Hl]%lookup_delete_Some Hlin.
  destruct (Hf i l parent siblings Hl Hlin) as [Hni Hsib]. split; [done|].
  intros s ls Hin [_ Hls]%lookup_delete_Some. by apply Hsib.
Qed.

End Counts.

(** ** The worklist *)

Section Worklist.

Import Lineage.
Context `{Build}.
Implicit Types ctx : LineageDroppingCtx.
Implicit Types m : gmap ChunkId.t TrackedDirectChunkLineage.
Implicit Types ops : list Op.

(** *** Termination *)

Definition op_cost (bound : nat) (op : Op) : nat := match op with DropRef _ => bound | Remove _ => 1 end.

Lemma cost_removes bound ids : sum_list_with (op_cost bound) (rev (Remove <$> ids)) = length ids.
Proof.
  induction ids as [|id ids IH]; [done|]. rewrite fmap_cons. cbn [rev].
  rewrite sum_list_with_app, IH. simpl. lia.
Qed.

Lemma cost_drops bound ids : sum_list_with (op_cost bound) (rev (DropRef <$> ids)) = (bound * length ids)%nat.
Proof.
  induction ids as [|id ids IH]; [simpl; lia|]. rewrite fmap_cons. cbn [rev].
  rewrite sum_list_with_app, IH. simpl. lia.
Qed.

(** Each turn lowers the cost of what is left. *)
Lemma drop_step_cost bound ctx op ctx' pushed :
  (forall id l, chunks_lineage ctx !! id = Some l -> (2 + num_siblings l <= bound)%nat) ->
  (0 < bound)%nat -> drop_step ctx op = (ctx', pushed) ->
  (sum_list_with (op_cost bound) (rev pushed) + bound * total num_references (chunks_lineage ctx')
     < op_cost bound op + bound * total num_references (chunks_lineage ctx))%nat
  /\ (forall id l, chunks_lineage ctx' !! id = Some l -> (2 + num_siblings l <= bound)%nat).
Proof.
  intros Hb H0. destruct op as [id|id]; simpl; (destruct (chunks_lineage ctx !! id) as [l|] eqn:El;
    [|intros [= <- <-]; simpl; split; [lia|done]]).
  - set (ctx1 := Ctx _ _ _ _).
    assert (total num_references (chunks_lineage ctx1) = total num_references (chunks_lineage ctx)) as Ht.
    { apply (total_same num_references _ _ _ _ El). intros [] [] [= ->]. done. }
    assert (forall i li, chunks_lineage ctx1 !! i = Some li -> (2 + num_siblings li <= bound)%nat) as Hb1.
    { unfold ctx1. cbn [chunks_lineage].
      intros i li [[<- <-]|[_ Hi]]%lookup_insert_Some; [by apply (Hb id l)|by apply (Hb i)]. }
    pose proof (Hb id l El) as Hl. unfold num_siblings in Hl.
    destruct (descends_from_manifest l || _); [intros [= <- <-]; rewrite Ht; simpl; split; [lia|done]|].
    destruct (lineage l) as [p siblings|ps|st|]; [destruct (existsb _ siblings)|..]; intros [= <- <-];
      rewrite Ht; rewrite ?rev_app_distr, ?sum_list_with_app, ?cost_removes; simpl; (split; [lia|done]).
  - intros [= <- <-]. cbn [chunks_lineage]. rewrite cost_drops, (total_delete num_references _ id l El).
    split; [unfold num_references; lia|]. intros i li [_ Hi]%lookup_delete_Some. by apply (Hb i).
Qed.

Lemma drop_loop_total bound fuel ctx ops :
  (forall id l, chunks_lineage ctx !! id = Some l -> (2 + num_siblings l <= bound)%nat) -> (0 < bound)%nat ->
  (sum_list_with (op_cost bound) ops + bound * total num_references (chunks_lineage ctx) <= fuel)%nat ->
  is_Some (drop_loop fuel ctx ops).
Proof.
  revert ctx ops. induction fuel as [|fuel IH]; intros ctx [|op ops] Hb H0 Hf; simpl in *; try by eexists.
  - destruct op; simpl in Hf; lia.
  - destruct (drop_step ctx op) as [ctx' pushed] eqn:Es.
    destruct (drop_step_cost bound ctx op ctx' pushed Hb H0 Es) as [Hc Hb'].
    apply IH; [done|done|]. rewrite sum_list_with_app. lia.
Qed.

Lemma drop_lineage_reference_total ctx id : is_Some (drop_lineage_reference ctx id).
Proof.
  unfold drop_lineage_reference, drop_fuel. apply (drop_loop_total (drop_cost ctx)).
  - intros i l Hl. unfold drop_cost. pose proof (total_elem num_siblings _ i l Hl). lia.
  - unfold drop_cost. lia.
  - simpl. lia.
Qed.

(** A property of the state and the stack that every turn preserves. *)
Lemma drop_loop_ind (P : LineageDroppingCtx -> list Op -> Prop) fuel ctx ops ctx' :
  (forall ctx op ops ctx' pushed, P ctx (op :: ops) -> drop_step ctx op = (ctx', pushed) -> P ctx' (rev pushed ++ ops)) ->
  P ctx ops -> drop_loop fuel ctx ops = Some ctx' -> P ctx' [].
Proof.
  intros Hstep. revert ctx ops. induction fuel as [|fuel IH]; intros ctx [|op ops] HP; simpl; try done; try by intros [= <-].
  destruct (drop_step ctx op) as [ctx1 pushed] eqn:Es. intros Hrun. by apply (IH ctx1 (rev pushed ++ ops)); [eapply Hstep|].
Qed.

(** *** The invariant *)

(** Only removals shrink the state, and they keep the four parts in step. *)
Definition shrunk ctx0 ctx : Prop :=
  (forall id l, chunks_lineage ctx !! id = Some l -> exists l0, chunks_lineage ctx0 !! id = Some l0
     /\ lineage l = lineage l0 /\ descends_from_manifest l = descends_from_manifest l0)
  /\ forall id, (chunks_lineage ctx !! id = None /\ is_Some (chunks_lineage ctx0 !! id) ->
        leaky_compactions ctx !! id = None /\ id ∉ split_on_ingest ctx /\ dangling_splits ctx !! id = None)
     /\ (is_Some (chunks_lineage ctx !! id) \/ chunks_lineage ctx0 !! id = None ->
        leaky_compactions ctx !! id = leaky_compactions ctx0 !! id
        /\ (id ∈ split_on_ingest ctx <-> id ∈ split_on_ingest ctx0)
        /\ dangling_splits ctx !! id = dangling_splits ctx0 !! id).

(** What is forgotten was of no use: not from a manifest, not in memory, and no entry that
    is kept refers to it. *)
Definition forgot (physical : gset ChunkId.t) ctx0 ctx : Prop :=
  forall id l0, chunks_lineage ctx0 !! id = Some l0 -> chunks_lineage ctx !! id = None ->
    descends_from_manifest l0 = false /\ id ∉ physical
    /\ forall i l, chunks_lineage ctx !! i = Some l -> id ∉ iter_referenced_chunks (lineage l).

Record invariant (physical : gset ChunkId.t) ctx0 ctx ops : Prop := {
  inv_counted : counted physical (chunks_lineage ctx) (dropped_refs ops);
  inv_families : families (chunks_lineage ctx);
  inv_removes id l : Remove id ∈ ops -> chunks_lineage ctx !! id = Some l ->
    ref_count l = 0 /\ descends_from_manifest l = false;
  inv_idle id l : chunks_lineage ctx !! id = Some l -> idle (chunks_lineage ctx) id l -> Remove id ∈ ops;
  inv_shrunk : shrunk ctx0 ctx;
  inv_forgot : forgot physical ctx0 ctx;
}.

Lemma counted_nonneg physical m pending id l : counted physical m pending -> m !! id = Some l -> 0 <= ref_count l.
Proof. intros Hc Hl. rewrite (Hc id l Hl). lia. Qed.

Lemma refers_same id l l' : lineage l = lineage l' -> refers id l = refers id l'.
Proof. unfold refers. by intros ->. Qed.

Lemma is_live_insert m id l s : is_live (<[id := l]> m) s = if decide (id = s) then 0 <? ref_count l else is_live m s.
Proof. unfold is_live. case_decide as E; [subst; by rewrite lookup_insert_eq|by rewrite lookup_insert_ne]. Qed.

Lemma not_live m s : is_live m s = false <-> forall l, m !! s = Some l -> ref_count l <= 0.
Proof.
  unfold is_live. destruct (m !! s) as [l|]; simpl; [|naive_solver]. rewrite Z.ltb_ge. naive_solver.
Qed.

(** A turn that finds no entry. *)
Lemma skip_invariant physical ctx0 ctx op ops : invariant physical ctx0 ctx (op :: ops) ->
  match op with DropRef id | Remove id => chunks_lineage ctx !! id = None end ->
  invariant physical ctx0 ctx ops.
Proof.
  intros [Hc Hf Hr Hi Hs Hg] Hn. split; [|done|..|done|done].
  - intros id l Hl. rewrite (Hc id l Hl). destruct op as [x|x]; simpl; [|done].
    rewrite occurrences_ne; [done|]. intros ->. congruence.
  - intros id l Hin. apply Hr. by right.
  - intros id l Hl Hidle. specialize (Hi id l Hl Hidle). apply elem_of_cons in Hi as [<-|]; [congruence|done].
Qed.

(** Dropping a reference: the count goes down by one. *)
Lemma drop_counted physical m id l pending :
  counted physical m (id :: pending) -> m !! id = Some l ->
  let l' := Tracked (lineage l) (Z.max 0 (ref_count l - 1)) (descends_from_manifest l) in
  0 < ref_count l /\ counted physical (<[id := l']> m) pending.
Proof.
  intros Hc Hl. cbv zeta. pose proof (Hc id l Hl) as Hid. rewrite occurrences_eq in Hid.
  split; [lia|]. intros i li [[<- <-]|[Hne Hi]]%lookup_insert_Some;
    rewrite total_same by (done || apply refers_same).
  - simpl. lia.
  - rewrite (Hc i li Hi), occurrences_ne by done. done.
Qed.

(** What the turn pushes when the count reaches zero. *)
Definition dropped_family m (id : ChunkId.t) (l : TrackedDirectChunkLineage) : list ChunkId.t :=
  match lineage l with
  | SplitFrom _ siblings => if existsb (is_live m) siblings then [] else siblings ++ [id]
  | _ => [id]
  end.

Lemma family_not_live m id l i li : families m -> m !! id = Some l -> i ∈ dropped_family m id l ->
  0 <= ref_count l <= 0 -> m !! i = Some li ->
  (forall i li, m !! i = Some li -> 0 <= ref_count li) ->
  ref_count li = 0 /\ descends_from_manifest li = descends_from_manifest l.
Proof.
  intros Hf Hl Hin H0 Hli Hnn. unfold dropped_family in Hin.
  assert (i = id -> ref_count li = 0 /\ descends_from_manifest li = descends_from_manifest l) as Hself.
  { intros ->. assert (li = l) as -> by congruence. split; [lia|done]. }
  destruct (lineage l) as [p siblings|ps|st|] eqn:El;
    try (apply Hself; by apply list_elem_of_singleton in Hin).
  destruct (existsb _ siblings) eqn:Elive; [by apply elem_of_nil in Hin|].
  apply elem_of_app in Hin as [Hin|?%list_elem_of_singleton]; [|by apply Hself].
  destruct (Hf id l p siblings Hl El) as [_ Hs]. destruct (Hs i li Hin Hli) as [Hm _]. split; [|done].
  assert (is_live m i = false) as Hnl.
  { destruct (is_live m i) eqn:E; [|done]. rewrite <- Elive. symmetry. apply existsb_exists.
    exists i. by rewrite <- list_elem_of_In. }
  rewrite not_live in Hnl. specialize (Hnl li Hli). specialize (Hnn i li Hli). lia.
Qed.

(** Nothing becomes idle without being in the family. *)
Lemma idle_in_family m id l n i li : families m -> m !! id = Some l -> descends_from_manifest l = false ->
  let m' := <[id := Tracked (lineage l) n (descends_from_manifest l)]> m in
  m' !! i = Some li -> idle m' i li -> n = 0 ->
  (i <> id -> ~ idle m i li) -> i ∈ dropped_family m' id l.
Proof.
  intros Hf Hl Hman m' Hi (Hmi & Hri & Hlin) Hn Hbefore.
  assert (families m') as Hf' by (by apply (same_families m), Hf; apply set_count_same).
  assert (Forall (fun s => is_live m' s = false) (match lineage l with SplitFrom _ sib => sib | _ => [] end)
    -> i = id \/ (exists p sib, lineage l = SplitFrom p sib /\ i ∈ sib) -> i ∈ dropped_family m' id l) as Hdone.
  { unfold dropped_family. intros Hnl Hcase. destruct (lineage l) as [p sib|ps|st|].
    - replace (existsb (is_live m') sib) with false.
      + destruct Hcase as [->|(p' & sib' & [= <- <-] & Hin)]; set_solver.
      + symmetry. apply not_true_is_false. intros (x & Hx & Hlive)%existsb_exists.
        rewrite Forall_forall in Hnl. rewrite Hnl in Hlive; [done|by apply list_elem_of_In].
    - destruct Hcase as [->|(? & ? & ? & _)]; [set_solver|done].
    - destruct Hcase as [->|(? & ? & ? & _)]; [set_solver|done].
    - destruct Hcase as [->|(? & ? & ? & _)]; [set_solver|done]. }
  destruct (decide (i = id)) as [->|Hne].
  - unfold m' in Hi. rewrite lookup_insert_eq in Hi. injection Hi as <-. simpl in Hlin.
    apply Hdone; [|by left]. by destruct (lineage l).
  - unfold m' in Hi. rewrite lookup_insert_ne in Hi by done. specialize (Hbefore Hne).
    destruct (lineage li) as [p sib|ps|st|] eqn:Eli;
      try (exfalso; apply Hbefore; split_and!; [done|done|by rewrite Eli]).
    destruct (decide (id ∈ sib)) as [Hin|Hin].
    + destruct (Hf i li p sib Hi Eli) as [_ Hs]. destruct (Hs id l Hin Hl) as (_ & sib' & El & Hiff).
      apply Hdone.
      * rewrite El, Forall_forall. intros x Hx. assert (x ∈ i :: sib) as Hxi by (apply Hiff; by right).
        apply elem_of_cons in Hxi as [->|Hxs]; [|rewrite Forall_forall in Hlin; by apply Hlin].
        apply not_live. intros l2. unfold m'. rewrite lookup_insert_ne by done. rewrite Hi. intros [= <-]. lia.
      * right. exists p, sib'. split; [done|]. assert (i ∈ id :: sib') as Hii by (apply Hiff; left).
        by apply elem_of_cons in Hii as [->|].
    + exfalso. apply Hbefore. split_and!; [done|done|]. rewrite Eli. rewrite Forall_forall in *. intros x Hx.
      specialize (Hlin x Hx). unfold m' in Hlin. rewrite is_live_insert in Hlin. case_decide; [subst; done|done].
Qed.

Lemma newly_idle m id l n i li : families m -> m !! id = Some l -> 0 <= n ->
  let m' := <[id := Tracked (lineage l) n (descends_from_manifest l)]> m in
  m' !! i = Some li -> idle m' i li -> (i <> id -> ~ idle m i li) ->
  descends_from_manifest l = false /\ n = 0.
Proof.
  intros Hf Hl Hn m' Hi (Hmi & Hri & Hlin) Hbefore. unfold m' in *. destruct (decide (i = id)) as [->|Hne].
  { rewrite lookup_insert_eq in Hi. injection Hi as <-. done. }
  rewrite lookup_insert_ne in Hi by done. specialize (Hbefore Hne).
  destruct (lineage li) as [p sib|ps|st|] eqn:Eli;
    try (exfalso; apply Hbefore; split_and!; [done|done|by rewrite Eli]).
  destruct (decide (id ∈ sib)) as [Hin|Hin].
  - destruct (Hf i li p sib Hi Eli) as [_ Hs]. destruct (Hs id l Hin Hl) as (Hm & _). split; [congruence|].
    rewrite Forall_forall in Hlin. specialize (Hlin id Hin). rewrite is_live_insert, decide_True in Hlin by done.
    apply Z.ltb_ge in Hlin. simpl in Hlin. lia.
  - exfalso. apply Hbefore. split_and!; [done|done|]. rewrite Eli. rewrite Forall_forall in *. intros x Hx.
    specialize (Hlin x Hx). rewrite is_live_insert in Hlin. case_decide; [by subst|done].
Qed.

Definition with_lineage ctx m : LineageDroppingCtx :=
  Ctx m (leaky_compactions ctx) (split_on_ingest ctx) (dangling_splits ctx).

Lemma drop_step_ref ctx id l : chunks_lineage ctx !! id = Some l ->
  let l' := Tracked (lineage l) (Z.max 0 (ref_count l - 1)) (descends_from_manifest l) in
  let m' := <[id := l']> (chunks_lineage ctx) in
  drop_step ctx (DropRef id) =
    (with_lineage ctx m',
     if descends_from_manifest l || (0 <? ref_count l') then [] else Remove <$> dropped_family m' id l).
Proof.
  intros Hl. cbv zeta. unfold drop_step. rewrite Hl. cbn [descends_from_manifest ref_count lineage].
  unfold with_lineage, dropped_family. cbn [chunks_lineage].
  destruct (_ || _); [done|]. destruct (lineage l) as [p siblings|ps|st|]; [|done..].
  destruct (existsb _ _); [done|]. by rewrite fmap_app.
Qed.

Lemma shrunk_same ctx0 ctx m' : shrunk ctx0 ctx -> same_entries (chunks_lineage ctx) m' ->
  shrunk ctx0 (with_lineage ctx m').
Proof.
  intros [Ha Hb] Hs. split.
  - intros id l' Hl'. cbn [with_lineage chunks_lineage] in Hl'. specialize (Hs id). rewrite Hl' in Hs.
    destruct (chunks_lineage ctx !! id) as [l|] eqn:El; [|done]. destruct (Ha id l El) as (l0 & ? & ? & ?).
    destruct Hs. exists l0. split_and!; congruence.
  - intros id. destruct (Hb id) as [H1 H2]. specialize (Hs id). cbn [with_lineage chunks_lineage].
    split; [intros [Hn H0]|intros H0].
    + apply H1. split; [|done]. rewrite Hn in Hs. by destruct (chunks_lineage ctx !! id).
    + apply H2. destruct H0 as [[l' Hl']|]; [left|by right]. rewrite Hl' in Hs.
      by destruct (chunks_lineage ctx !! id).
Qed.

Lemma forgot_same physical ctx0 ctx m' : forgot physical ctx0 ctx -> same_entries (chunks_lineage ctx) m' ->
  forgot physical ctx0 (with_lineage ctx m').
Proof.
  intros Hg Hs id l0 Hl0 Hn. cbn [with_lineage chunks_lineage] in *.
  assert (chunks_lineage ctx !! id = None) as Hn'.
  { specialize (Hs id). rewrite Hn in Hs. by destruct (chunks_lineage ctx !! id). }
  destruct (Hg id l0 Hl0 Hn') as (? & ? & Hkept). split_and!; [done|done|]. intros i l' Hl'.
  specialize (Hs i). rewrite Hl' in Hs. destruct (chunks_lineage ctx !! i) as [l|] eqn:El; [|done].
  destruct Hs as [-> _]. by apply (Hkept i).
Qed.

Lemma drop_ref_invariant physical ctx0 ctx id l ops : invariant physical ctx0 ctx (DropRef id :: ops) ->
  chunks_lineage ctx !! id = Some l ->
  let l' := Tracked (lineage l) (Z.max 0 (ref_count l - 1)) (descends_from_manifest l) in
  let m' := <[id := l']> (chunks_lineage ctx) in
  invariant physical ctx0 (with_lineage ctx m')
    (rev (if descends_from_manifest l || (0 <? ref_count l') then [] else Remove <$> dropped_family m' id l) ++ ops).
Proof.
  intros [Hc Hf Hr Hi Hs Hg] Hl l' m'. destruct (drop_counted _ _ id l _ Hc Hl) as [Hpos Hc'].
  assert (same_entries (chunks_lineage ctx) m') as Hsame by (by apply set_count_same).
  set (pushed := if _ || _ then _ else _).
  assert (forall i, Remove i ∈ ops -> i <> id) as Hne.
  { intros i Hin ->. destruct (Hr id l ltac:(by right) Hl). lia. }
  split; [|by apply (same_families (chunks_lineage ctx))|..|by apply shrunk_same|by apply forgot_same];
    cbn [with_lineage chunks_lineage].
  - rewrite dropped_refs_app. replace (dropped_refs (rev pushed)) with (@nil ChunkId.t); [done|].
    unfold pushed. destruct (_ || _); [done|by rewrite dropped_refs_removes].
  - intros i li Hin Hli. apply elem_of_app in Hin as [Hin|Hin].
    + rewrite list_elem_of_In, <- in_rev, <- list_elem_of_In in Hin. unfold pushed in Hin.
      destruct (descends_from_manifest l || _) eqn:Eb; [by apply elem_of_nil in Hin|].
      apply orb_false_iff in Eb as [Em Ec%Z.ltb_ge]. apply list_elem_of_fmap in Hin as (i' & [= <-] & Hin).
      destruct (family_not_live m' id l' i li) as [? Hm]; [by apply (same_families (chunks_lineage ctx))|
        apply lookup_insert_eq|done|simpl in *; lia|done| |split; [done|by rewrite Hm]].
      intros j lj Hj. by apply (counted_nonneg physical m' (dropped_refs ops) j).
    + apply (Hr i); [by right|]. unfold m' in Hli. by rewrite lookup_insert_ne in Hli by (apply not_eq_sym, Hne, Hin).
  - intros i li Hli Hidle. apply elem_of_app.
    destruct (decide (i <> id /\ idle (chunks_lineage ctx) i li)) as [[Hid Hold]|Hold].
    + right. unfold m' in Hli. rewrite lookup_insert_ne in Hli by done.
      specialize (Hi i li Hli Hold). by apply elem_of_cons in Hi as [|].
    + left. assert (i <> id -> ~ idle (chunks_lineage ctx) i li) as Hnew by naive_solver.
      destruct (newly_idle _ id l (Z.max 0 (ref_count l - 1)) i li Hf Hl) as [Hm H0]; [lia|done|done|done|].
      rewrite list_elem_of_In, <- in_rev, <- list_elem_of_In. unfold pushed. rewrite Hm.
      replace (0 <? ref_count l') with false by (unfold l'; simpl; rewrite H0; done). apply list_elem_of_fmap_2.
      by apply (idle_in_family (chunks_lineage ctx) id l _ i li Hf Hl Hm Hli).
Qed.

(** Removing an entry: its references are to be dropped. *)
Lemma remove_counted physical m id l pending : counted physical m pending -> m !! id = Some l ->
  counted physical (delete id m) (rev (iter_referenced_chunks (lineage l)) ++ pending).
Proof.
  intros Hc Hl i li [Hne Hi]%lookup_delete_Some. rewrite (Hc i li Hi), (total_delete (refers i) m id l Hl).
  rewrite occurrences_app, occurrences_rev. unfold refers. lia.
Qed.

Lemma unreferenced physical m pending id l : counted physical m pending -> m !! id = Some l -> ref_count l = 0 ->
  id ∉ physical /\ forall i li, m !! i = Some li -> id ∉ iter_referenced_chunks (lineage li).
Proof.
  intros Hc Hl H0. rewrite (Hc id l Hl) in H0. split; [intros Hin; rewrite decide_True in H0 by done; lia|].
  intros i li Hi. apply occurrences_zero. assert (total (refers id) m = 0%nat) as Ht by lia.
  rewrite total_zero in Ht. apply (Ht i li Hi).
Qed.

Lemma remove_invariant physical ctx0 ctx id l ops : invariant physical ctx0 ctx (Remove id :: ops) ->
  chunks_lineage ctx !! id = Some l ->
  invariant physical ctx0
    (Ctx (delete id (chunks_lineage ctx)) (delete id (leaky_compactions ctx))
       (split_on_ingest ctx ∖ {[id]}) (delete id (dangling_splits ctx)))
    (rev (DropRef <$> iter_referenced_chunks (lineage l)) ++ ops).
Proof.
  intros [Hc Hf Hr Hi [Hsa Hsb] Hg] Hl. destruct (Hr id l ltac:(left) Hl) as [H0 Hm].
  split; cbn [chunks_lineage].
  - rewrite dropped_refs_app, dropped_refs_drops. by apply (remove_counted physical _ id l).
  - by apply delete_families.
  - intros i li Hin [_ Hli]%lookup_delete_Some. apply elem_of_app in Hin as [Hin|Hin].
    + rewrite list_elem_of_In, <- in_rev, <- list_elem_of_In in Hin.
      by apply list_elem_of_fmap in Hin as (? & ? & _).
    + apply (Hr i); [by right|done].
  - intros i li [Hne Hli]%lookup_delete_Some (Hmi & Hri & Hlin). apply elem_of_app. right.
    assert (idle (chunks_lineage ctx) i li) as Hidle.
    { split_and!; [done|done|]. destruct (lineage li) as [p sib|ps|st|]; [|done..].
      rewrite Forall_forall in *. intros s Hs. specialize (Hlin s Hs). rewrite not_live in *. intros ls Hls.
      destruct (decide (id = s)) as [->|Hns]; [assert (ls = l) as -> by congruence; lia|].
      apply Hlin. by rewrite lookup_delete_ne. }
    specialize (Hi i li Hli Hidle). apply elem_of_cons in Hi as [[= ->]|]; done.
  - split; cbn [chunks_lineage leaky_compactions split_on_ingest dangling_splits].
    + intros i li [_ Hli]%lookup_delete_Some. by apply Hsa.
    + intros i. destruct (Hsb i) as [H1 H2]. destruct (decide (id = i)) as [->|Hne].
      * rewrite !lookup_delete_eq. split; [intros _; set_solver|]. intros [[? ?]|Hn]; [done|].
        destruct (Hsa i l Hl) as (? & ? & _). congruence.
      * rewrite !lookup_delete_ne by done. split.
        -- intros Hx. destruct (H1 Hx) as (? & ? & ?). set_solver.
        -- intros Hx. destruct (H2 Hx) as (? & ? & ?). set_solver.
  - intros i l0 Hl0 Hn. cbn [chunks_lineage] in *. destruct (decide (id = i)) as [->|Hne].
    + destruct (unreferenced physical _ _ i l Hc Hl H0) as [Hp Href]. destruct (Hsa i l Hl) as (l1 & Hl1 & _ & Hm1).
      assert (l1 = l0) as -> by congruence. split_and!; [congruence|done|].
      intros j lj [_ Hj]%lookup_delete_Some. by apply (Href j).
    + rewrite lookup_delete_ne in Hn by done. destruct (Hg i l0 Hl0 Hn) as (? & ? & Hkept).
      split_and!; [done|done|]. intros j lj [_ Hj]%lookup_delete_Some. by apply (Hkept j).
Qed.

Lemma step_invariant physical ctx0 ctx op ops ctx' pushed : invariant physical ctx0 ctx (op :: ops) ->
  drop_step ctx op = (ctx', pushed) -> invariant physical ctx0 ctx' (rev pushed ++ ops).
Proof.
  intros Hinv Hstep. destruct op as [id|id]; destruct (chunks_lineage ctx !! id) as [l|] eqn:El.
  - rewrite (drop_step_ref ctx id l El) in Hstep. injection Hstep as <- <-. by apply drop_ref_invariant.
  - simpl in Hstep. rewrite El in Hstep. injection Hstep as <- <-. by eapply skip_invariant.
  - simpl in Hstep. rewrite El in Hstep. injection Hstep as <- <-. by apply remove_invariant.
  - simpl in Hstep. rewrite El in Hstep. injection Hstep as <- <-. by eapply skip_invariant.
Qed.

Lemma shrunk_refl ctx : shrunk ctx ctx.
Proof. split; [eauto|]. intros id. split; [|done]. intros [Hn [? Hs]]. congruence. Qed.

(** Before the first turn, only the reference to drop is pending. *)
Lemma start_invariant physical ctx id :
  counted physical (chunks_lineage ctx) [id] -> families (chunks_lineage ctx) -> tidy (chunks_lineage ctx) ->
  invariant physical ctx ctx [DropRef id].
Proof.
  intros Hc Hf Ht. split; [done|done|..|apply shrunk_refl|].
  - intros i l Hin. by apply list_elem_of_singleton in Hin.
  - intros i l Hl Hidle. by destruct (Ht i l Hl).
  - intros i l0 Hl0 Hn. congruence.
Qed.

(** The flag of an entry is that of what it refers to. *)
Definition flagged m : Prop :=
  forall id l, m !! id = Some l -> descends_from_manifest l = inherits_manifest m (lineage l).

Lemma inherits_manifest_iff m l : inherits_manifest m l = true <->
  (exists st, l = RootFromManifest st)
  \/ exists p, p ∈ iter_referenced_chunks l /\ store_descends_from_manifest m p = true.
Proof.
  destruct l as [p sib|ps|st|]; simpl.
  - split; [intros Hp; right; exists p; split; [set_solver|done]|].
    intros [[? [=]]|(q & ->%list_elem_of_singleton & Hq)]; done.
  - rewrite existsb_exists. split.
    + intros (p & Hin & Hp). right. exists p. by rewrite list_elem_of_In.
    + intros [[? [=]]|(p & Hin & Hp)]. exists p. by rewrite <- list_elem_of_In.
  - split; [eauto|done].
  - split; [done|]. intros [[? [=]]|(? & []%elem_of_nil & _)].
Qed.

Lemma inherits_manifest_ext m m' l :
  (forall p, p ∈ iter_referenced_chunks l -> store_descends_from_manifest m' p = store_descends_from_manifest m p) ->
  inherits_manifest m' l = inherits_manifest m l.
Proof.
  intros Hp. apply eq_true_iff_eq. rewrite !inherits_manifest_iff. split.
  - intros [?|(p & Hin & Hm)]; [by left|right]. exists p. by rewrite <- Hp.
  - intros [?|(p & Hin & Hm)]; [by left|right]. exists p. by rewrite Hp.
Qed.

(** What is forgotten has no flag, so no flag is lost. *)
Lemma shrunk_flagged physical ctx0 ctx : shrunk ctx0 ctx -> forgot physical ctx0 ctx ->
  flagged (chunks_lineage ctx0) -> flagged (chunks_lineage ctx).
Proof.
  intros [Hs _] Hg Hf id l Hl. destruct (Hs id l Hl) as (l0 & Hl0 & Hlin & Hm).
  rewrite Hm, (Hf id l0 Hl0), Hlin. apply eq_sym, inherits_manifest_ext. intros p _.
  unfold store_descends_from_manifest. destruct (chunks_lineage ctx !! p) as [lp|] eqn:Ep; simpl.
  - destruct (Hs p lp Ep) as (lp0 & -> & _ & ->). done.
  - destruct (chunks_lineage ctx0 !! p) as [lp0|] eqn:Ep0; [|done]. simpl.
    destruct (Hg p lp0 Ep0 Ep) as (-> & _). done.
Qed.

Lemma drop_lineage_reference_ok physical ctx chunk_id
    (Hcounted : counted physical (chunks_lineage ctx) [chunk_id])
    (Hfamilies : families (chunks_lineage ctx)) (Htidy : tidy (chunks_lineage ctx)) :
  exists ctx', drop_lineage_reference ctx chunk_id = Some ctx'
    /\ counted physical (chunks_lineage ctx') []
    /\ families (chunks_lineage ctx')
    /\ tidy (chunks_lineage ctx')
    /\ shrunk ctx ctx'
    /\ forgot physical ctx ctx'
    /\ (flagged (chunks_lineage ctx) -> flagged (chunks_lineage ctx')).
Proof.
  destruct (drop_lineage_reference_total ctx chunk_id) as [ctx' Hrun]. exists ctx'. split; [done|].
  assert (invariant physical ctx ctx' []) as [Hc Hf _ Hi Hs Hg].
  { apply (drop_loop_ind (invariant physical ctx) (drop_fuel ctx) ctx [DropRef chunk_id]);
      [by eauto using step_invariant|by apply start_invariant|done]. }
  split_and!; [done|done| |done|done|by eapply shrunk_flagged]. intros id l Hl Hidle. specialize (Hi id l Hl Hidle). by apply elem_of_nil in Hi.
Qed.

(** Dropping a reference.  The reference counts are exact but for one reference of [chunk_id]
    too many, siblings know each other and nothing is kept that could be dropped.  The
    worklist then ends, the counts are exact, nothing is kept that could be dropped, the
    entries that are left and what the other three maps say of them are the same but for the
    counts, flags that are those of the references stay so, and an entry that is gone is gone from the four maps, was not from a manifest and
    not in memory, and no entry that is left refers to it. *)
Lemma drop_lineage_reference_spec physical ctx chunk_id
    (Hcounted : counted physical (chunks_lineage ctx) [chunk_id])
    (Hfamilies : families (chunks_lineage ctx)) (Htidy : tidy (chunks_lineage ctx)) :
  exists ctx', drop_lineage_reference ctx chunk_id = Some ctx'
    /\ counted physical (chunks_lineage ctx') []
    /\ families (chunks_lineage ctx')
    /\ tidy (chunks_lineage ctx')
    /\ shrunk ctx ctx'
    /\ forgot physical ctx ctx'
    /\ (flagged (chunks_lineage ctx) -> flagged (chunks_lineage ctx')).
Proof. by apply drop_lineage_reference_ok. Qed.

End Worklist.

(** ** Recording lineage *)

Section Recorded.

Import Lineage.
Context `{Build}.
Implicit Types m : gmap ChunkId.t TrackedDirectChunkLineage.

(** Referring to chunks raises their counts, by one for each reference. *)
Definition raised m m' (ids : list ChunkId.t) : Prop :=
  forall id, m' !! id = (fun l => Tracked (lineage l) (ref_count l + Z.of_nat (occurrences id ids))
                                   (descends_from_manifest l)) <$> m !! id.

Lemma bump_references_raise m ids :
  (forall id l, m !! id = Some l -> 0 <= ref_count l /\ ref_count l + Z.of_nat (length ids) < 2 ^ 32) ->
  exists m', bump_references m ids = Done m' /\ raised m m' ids.
Proof.
  revert m. induction ids as [|x ids IH]; intros m Hb.
  - exists m. split; [done|]. intros id. destruct (m !! id) as [[] |]; simpl; [|done]. by rewrite Z.add_0_r.
  - simpl. unfold bump_reference. destruct (m !! x) as [l|] eqn:Ex.
    + destruct (Hb x l Ex) as [Hn Hx]. simpl in Hx. unfold add_reference. rewrite bool_decide_true by lia.
      cbn [mbind outcome_bind].
      destruct (IH (<[x := Tracked (lineage l) (ref_count l + 1) (descends_from_manifest l)]> m)) as (m' & -> & Hm').
      { intros i li [[<- <-]|[_ Hi]]%lookup_insert_Some; [simpl; lia|]. specialize (Hb i li Hi). simpl in Hb. lia. }
      exists m'. split; [done|]. intros i. rewrite Hm', occurrences_cons. destruct (decide (i = x)) as [->|Hne].
      * rewrite lookup_insert_eq, Ex. simpl. do 2 f_equal. lia.
      * by rewrite lookup_insert_ne.
    + cbn [mbind outcome_bind]. destruct (IH m) as (m' & -> & Hm').
      { intros i li Hi. specialize (Hb i li Hi). simpl in Hb. lia. }
      exists m'. split; [done|]. intros i. rewrite Hm', occurrences_cons.
      destruct (decide (i = x)) as [->|Hne]; [by rewrite Ex|done].
Qed.

Lemma raised_total f m m' ids : (forall l l', lineage l = lineage l' -> f l = f l') -> raised m m' ids ->
  total f m' = total f m.
Proof.
  intros Hf Hr. assert (m' = map_imap (fun id l => Some (Tracked (lineage l) (ref_count l + Z.of_nat (occurrences id ids))
    (descends_from_manifest l))) m) as ->.
  { apply map_eq. intros i. rewrite Hr, map_lookup_imap. by destruct (m !! i). }
  clear Hr. induction m as [|id l m Hid IH] using map_ind; [by rewrite map_imap_empty|].
  erewrite map_imap_insert_Some by done. rewrite !total_insert_fresh; [|done|by rewrite map_lookup_imap, Hid].
  rewrite IH. f_equal. by apply Hf.
Qed.

Lemma raised_flag m m' ids id : raised m m' ids -> store_descends_from_manifest m' id = store_descends_from_manifest m id.
Proof. intros Hr. unfold store_descends_from_manifest. rewrite Hr. by destruct (m !! id). Qed.

Definition siblings_of (l : ChunkDirectLineage) : list ChunkId.t :=
  match l with SplitFrom _ siblings => siblings | _ => [] end.

(** [id] fits into the families when recorded as [new]: it is not its own sibling, and whoever
    is its sibling, or has it for one, is part of the same split. *)
Definition kin m (id : ChunkId.t) (new : ChunkDirectLineage) : Prop :=
  id ∉ siblings_of new
  /\ forall s ls, m !! s = Some ls -> s ∈ siblings_of new \/ id ∈ siblings_of (lineage ls) ->
       exists parent siblings siblings', new = SplitFrom parent siblings /\ lineage ls = SplitFrom parent siblings'
         /\ forall i, i ∈ s :: siblings' <-> i ∈ id :: siblings.

(** No entry refers to [id], which is not in memory yet. *)
Definition unknown (physical : gset ChunkId.t) m (id : ChunkId.t) : Prop :=
  m !! id = None /\ id ∉ physical /\ forall i l, m !! i = Some l -> id ∉ iter_referenced_chunks (lineage l).

Lemma inserted_counted physical m m' id new :
  counted physical m [] -> unknown physical m id -> id ∉ iter_referenced_chunks new ->
  let m1 := <[id := Tracked new 0 (inherits_manifest m new)]> m in
  raised m1 m' (iter_referenced_chunks new) -> counted physical m' [].
Proof.
  intros Hc (Hid & Hp & Href) Hself m1 Hr i li Hi.
  rewrite (raised_total (refers i) m1 m' _ (refers_same i) Hr). unfold m1. rewrite total_insert_fresh by done.
  rewrite Hr in Hi. unfold m1 in Hi. destruct (decide (id = i)) as [<-|Hne].
  - rewrite lookup_insert_eq in Hi. injection Hi as <-. simpl. rewrite decide_False by done.
    assert (occurrences id (iter_referenced_chunks new) = 0%nat) as Hz by (by apply occurrences_zero).
    assert (total (refers id) m = 0%nat) as -> by (apply total_zero; intros j l Hj; apply occurrences_zero, (Href j l Hj)).
    unfold refers. simpl. rewrite Hz. done.
  - rewrite lookup_insert_ne in Hi by done. destruct (m !! i) as [l|] eqn:El; [|done]. injection Hi as <-. simpl.
    rewrite (Hc i l El). change (occurrences i []) with 0%nat.
    change (refers i (Tracked new 0 (inherits_manifest m new))) with (occurrences i (iter_referenced_chunks new)). lia.
Qed.

Lemma inserted_flag m id new p : m !! id = None -> p <> id ->
  store_descends_from_manifest (<[id := new]> m) p = store_descends_from_manifest m p.
Proof. intros Hid Hne. unfold store_descends_from_manifest. by rewrite lookup_insert_ne. Qed.

Lemma inserted_flagged physical m m' id new :
  flagged m -> unknown physical m id -> id ∉ iter_referenced_chunks new ->
  let m1 := <[id := Tracked new 0 (inherits_manifest m new)]> m in
  raised m1 m' (iter_referenced_chunks new) -> flagged m'.
Proof.
  intros Hf (Hid & _ & Href) Hself m1 Hr i li Hi.
  assert (forall l, id ∉ iter_referenced_chunks l -> inherits_manifest m' l = inherits_manifest m l) as Hext.
  { intros l Hl. apply inherits_manifest_ext. intros p Hp. rewrite (raised_flag m1 m' _ p Hr). unfold m1.
    apply inserted_flag; [done|]. by intros ->. }
  rewrite Hr in Hi. unfold m1 in Hi. destruct (decide (id = i)) as [<-|Hne].
  - rewrite lookup_insert_eq in Hi. injection Hi as <-. simpl. by rewrite Hext.
  - rewrite lookup_insert_ne in Hi by done. destruct (m !! i) as [l|] eqn:El; [|done]. injection Hi as <-. simpl.
    rewrite Hext by (by eapply Href). by apply (Hf i).
Qed.

Lemma raised_same m m' ids : raised m m' ids -> same_entries m m'.
Proof. intros Hr id. rewrite Hr. by destruct (m !! id). Qed.

Lemma inserted_families m id new n :
  families m -> flagged m -> m !! id = None -> kin m id new ->
  families (<[id := Tracked new n (inherits_manifest m new)]> m).
Proof.
  intros Hf Hfl Hid [Hself Hkin] i l parent siblings.
  assert (forall s ls p sib sib', m !! s = Some ls -> new = SplitFrom p sib -> lineage ls = SplitFrom p sib' ->
    descends_from_manifest ls = inherits_manifest m new) as Hflag.
  { intros s ls p sib sib' Hs -> Hls. by rewrite (Hfl s ls Hs), Hls. }
  intros [[<- <-]|[Hne Hi]]%lookup_insert_Some; simpl.
  - intros ->. split; [done|]. intros s ls Hin [[<- <-]|[_ Hs]]%lookup_insert_Some; [done|].
    destruct (Hkin s ls Hs (or_introl Hin)) as (p & sib & sib' & [= <- <-] & Hls & Hiff).
    split; [by eapply Hflag|]. exists sib'. done.
  - intros Hlin. destruct (Hf i l parent siblings Hi Hlin) as [Hni Hs]. split; [done|].
    intros s ls Hin [[<- <-]|[_ Hls]]%lookup_insert_Some; [|by apply Hs]. simpl.
    destruct (Hkin i l Hi) as (p & sib & sib' & -> & Hl & Hiff); [right; by rewrite Hlin|].
    rewrite Hlin in Hl. injection Hl as -> ->. split; [by erewrite Hflag|]. exists sib. split; [done|].
    intros x. by rewrite Hiff.
Qed.

Lemma insert_lineage_if_missing_ok physical m chunk_id new
    (Hcounted : counted physical m []) (Hflagged : flagged m) (Hfamilies : families m) :
  (forall entry, m !! chunk_id = Some entry ->
     lineage entry = new \/ (exists st, lineage entry = RootFromManifest st) /\ new = Volatile ->
     insert_lineage_if_missing m chunk_id new = Done m)
  /\ (unknown physical m chunk_id -> chunk_id ∉ iter_referenced_chunks new -> kin m chunk_id new ->
      (forall i l, m !! i = Some l -> ref_count l + Z.of_nat (length (iter_referenced_chunks new)) < 2 ^ 32) ->
      Z.of_nat (length (iter_referenced_chunks new)) < 2 ^ 32 ->
      exists m', insert_lineage_if_missing m chunk_id new = Done m'
        /\ counted physical m' [] /\ flagged m' /\ families m'
        /\ m' !! chunk_id = Some (Tracked new 0 (inherits_manifest m new))
        /\ forall i, i <> chunk_id ->
             m' !! i = (fun l => Tracked (lineage l)
                                  (ref_count l + Z.of_nat (occurrences i (iter_referenced_chunks new)))
                                  (descends_from_manifest l)) <$> m !! i).
Proof.
  split.
  - intros entry He Hsame. unfold insert_lineage_if_missing. rewrite He. unfold debug_assert.
    replace (negb _) with false; [by rewrite andb_false_r|].
    destruct Hsame as [<-|[[st ->] ->]]; [|done]. destruct (lineage entry); by rewrite bool_decide_true by done.
  - intros Hun Hself Hkin Hb Hlen. pose proof Hun as (Hid & Hp & Href).
    unfold insert_lineage_if_missing. rewrite Hid.
    set (m1 := <[chunk_id := Tracked new 0 (inherits_manifest m new)]> m).
    destruct (bump_references_raise m1 (iter_referenced_chunks new)) as (m' & Hrun & Hr).
    { unfold m1. intros i l [[<- <-]|[_ Hi]]%lookup_insert_Some; [simpl; lia|].
      split; [by eapply counted_nonneg|by eapply Hb]. }
    exists m'. split_and!; [done|by eapply inserted_counted|by eapply inserted_flagged|..].
    + eapply same_families; [by eapply raised_same|]. by apply inserted_families.
    + rewrite Hr. unfold m1. rewrite lookup_insert_eq. simpl. do 2 f_equal.
      assert (occurrences chunk_id (iter_referenced_chunks new) = 0%nat) as -> by (by apply occurrences_zero). done.
    + intros i Hne. rewrite Hr. unfold m1. by rewrite lookup_insert_ne.
Qed.

(** Recording the lineage of a chunk.  A chunk that has an entry keeps it: nothing changes,
    and nothing panics if the new lineage is the recorded one, or says volatile of a chunk from
    a manifest.  A chunk that nothing knows of gets an entry with no references, flagged
    if it is from a manifest or what it is made from is; the counts of the chunks it is made
    from go up by its references to them, and the rest stays.  The counts stay exact, the
    flags those of the references, and siblings know each other. *)
Lemma insert_lineage_if_missing_spec physical m chunk_id new
    (Hcounted : counted physical m []) (Hflagged : flagged m) (Hfamilies : families m) :
  (forall entry, m !! chunk_id = Some entry ->
     lineage entry = new \/ (exists st, lineage entry = RootFromManifest st) /\ new = Volatile ->
     insert_lineage_if_missing m chunk_id new = Done m)
  /\ (unknown physical m chunk_id -> chunk_id ∉ iter_referenced_chunks new -> kin m chunk_id new ->
      (forall i l, m !! i = Some l -> ref_count l + Z.of_nat (length (iter_referenced_chunks new)) < 2 ^ 32) ->
      Z.of_nat (length (iter_referenced_chunks new)) < 2 ^ 32 ->
      exists m', insert_lineage_if_missing m chunk_id new = Done m'
        /\ counted physical m' [] /\ flagged m' /\ families m'
        /\ m' !! chunk_id = Some (Tracked new 0 (inherits_manifest m new))
        /\ forall i, i <> chunk_id ->
             m' !! i = (fun l => Tracked (lineage l)
                                  (ref_count l + Z.of_nat (occurrences i (iter_referenced_chunks new)))
                                  (descends_from_manifest l)) <$> m !! i).
Proof. by apply insert_lineage_if_missing_ok. Qed.

End Recorded.

(** ** The flag, and ancestors *)

Section Ancestors.

Import Lineage.
Context `{Build}.
Implicit Types m : gmap ChunkId.t TrackedDirectChunkLineage.

(** What is recorded under a new id is about chunks that were there before it. *)
Definition ranked m (rank : ChunkId.t -> nat) : Prop :=
  forall id l p, m !! id = Some l -> p ∈ iter_referenced_chunks (lineage l) -> (rank p < rank id)%nat.

(** The entries that the recursion can still meet below [id]. *)
Definition below m (rank : ChunkId.t -> nat) (id : ChunkId.t) : gset ChunkId.t :=
  filter (fun i => (rank i <= rank id)%nat) (dom m).

Lemma below_parent m rank id l p : ranked m rank -> m !! id = Some l -> p ∈ iter_referenced_chunks (lineage l) ->
  (size (below m rank p) < size (below m rank id))%nat.
Proof.
  intros Hr Hl Hp. specialize (Hr id l p Hl Hp). apply subset_size. split.
  - intros i. unfold below. rewrite !elem_of_filter. intros [? ?]. split; [lia|done].
  - intros Hsub. assert (id ∈ below m rank id) as Hid.
    { apply elem_of_filter. split; [lia|]. apply elem_of_dom. eauto. }
    apply Hsub, elem_of_filter in Hid as [? _]. lia.
Qed.

Lemma below_fuel m rank id : (size (below m rank id) < S (size m))%nat.
Proof.
  rewrite <- size_dom. apply le_n_S, subseteq_size. intros i. unfold below. rewrite elem_of_filter. tauto.
Qed.

(** Induction on the ancestors of an id. *)
Lemma below_ind m rank (P : nat -> ChunkId.t -> Prop) : ranked m rank ->
  (forall fuel id, (forall l p, m !! id = Some l -> p ∈ iter_referenced_chunks (lineage l) -> P fuel p) -> P (S fuel) id) ->
  forall id, P (S (size m)) id.
Proof.
  intros Hr Hstep id. assert (forall fuel id, (size (below m rank id) < fuel)%nat -> P fuel id) as Hall.
  { clear id. induction fuel as [|fuel IH]; intros id Hlt; [lia|]. apply Hstep. intros l p Hl Hp.
    apply IH. pose proof (below_parent m rank id l p Hr Hl Hp). lia. }
  apply Hall, below_fuel.
Qed.

(** [r] is [id] or one of its ancestors. *)
Inductive ancestor m : ChunkId.t -> ChunkId.t -> Prop :=
| ancestor_refl id : ancestor m id id
| ancestor_step id l p r : m !! id = Some l -> p ∈ iter_referenced_chunks (lineage l) ->
    ancestor m p r -> ancestor m id r.

(** A root with an entry; and a root that is in a manifest. *)
Definition recorded_root m (r : ChunkId.t) : Prop :=
  exists l, m !! r = Some l /\ match lineage l with RootFromManifest _ | Volatile => True | _ => False end.
Definition manifest_root m (r : ChunkId.t) : Prop := exists l st, m !! r = Some l /\ lineage l = RootFromManifest st.

(** What a traversal adds to its accumulator. *)
Definition gathers (f : list ChunkId.t -> option (list ChunkId.t)) (R : ChunkId.t -> Prop) : Prop :=
  exists rs, (forall acc, f acc = Some (acc ++ rs)) /\ forall r, r ∈ rs <-> R r.

Lemma gathers_fold (f : ChunkId.t -> list ChunkId.t -> option (list ChunkId.t)) (R : ChunkId.t -> ChunkId.t -> Prop) ids :
  (forall c, c ∈ ids -> gathers (f c) (R c)) ->
  gathers (fun acc => foldl (fun roots c => roots ← roots; f c roots) (Some acc) ids)
    (fun r => exists c, c ∈ ids /\ R c r).
Proof.
  induction ids as [|c ids IH]; intros Hall.
  - exists []. split; [intros acc; simpl; by rewrite app_nil_r|set_solver].
  - destruct (Hall c ltac:(left)) as (rs & Hrs & Hin).
    destruct IH as (rs' & Hrs' & Hin'); [intros; apply Hall; by right|].
    exists (rs ++ rs'). split.
    + intros acc. simpl. rewrite Hrs, Hrs'. by rewrite app_assoc.
    + intros r. rewrite elem_of_app, Hin, Hin'. split.
      * intros [?|(c' & ? & ?)]; [exists c|exists c']; (split; [set_solver|done]).
      * intros (c' & [->|]%elem_of_cons & ?); [by left|right; eauto].
Qed.

Lemma gathers_iff f R R' : (forall r, R r <-> R' r) -> gathers f R -> gathers f R'.
Proof. intros HR (rs & ? & Hin). exists rs. split; [done|]. intros r. by rewrite Hin, HR. Qed.

Lemma gathers_nothing R : (forall r, ~ R r) -> gathers Some R.
Proof. exists []. split; [intros acc; by rewrite app_nil_r|set_solver]. Qed.

Lemma gathers_one R x : (forall r, r = x <-> R r) -> gathers (fun acc => Some (acc ++ [x])) R.
Proof. exists [x]. split; [done|]. intros r. rewrite list_elem_of_singleton. naive_solver. Qed.

Lemma ancestor_inv m id l r : m !! id = Some l ->
  ancestor m id r <-> r = id \/ exists p, p ∈ iter_referenced_chunks (lineage l) /\ ancestor m p r.
Proof.
  intros Hl. split.
  - inversion 1 as [|? l' p]; subst; [by left|right]. assert (l' = l) as -> by congruence. eauto.
  - intros [->|(p & ? & ?)]; [apply ancestor_refl|by eapply ancestor_step].
Qed.

Lemma ancestor_missing m id r : m !! id = None -> ancestor m id r -> r = id.
Proof. intros Hn. inversion 1; [done|congruence]. Qed.

(** One visit: the parents are visited, the id is pushed, or nothing is done. *)
Lemma visit_parents f (Root : ChunkId.t -> Prop) m id l : m !! id = Some l -> ~ Root id ->
  gathers f (fun r => exists c, c ∈ iter_referenced_chunks (lineage l) /\ ancestor m c r /\ Root r) ->
  gathers f (fun r => ancestor m id r /\ Root r).
Proof.
  intros Hl Hid. apply gathers_iff. intros r. rewrite (ancestor_inv m id l r Hl). split.
  - intros (c & ? & ? & ?). split; [right; eauto|done].
  - intros [[->|(c & ? & ?)] ?]; [done|eauto].
Qed.

Lemma visit_root (Root : ChunkId.t -> Prop) m id l : m !! id = Some l -> iter_referenced_chunks (lineage l) = [] ->
  Root id -> gathers (fun acc => Some (acc ++ [id])) (fun r => ancestor m id r /\ Root r).
Proof.
  intros Hl Href Hid. apply gathers_one. intros r. rewrite (ancestor_inv m id l r Hl), Href. split.
  - intros ->. split; [by left|done].
  - by intros [[->|(c & []%elem_of_nil & _)] _].
Qed.

Lemma visit_nothing (Root : ChunkId.t -> Prop) m id : ~ Root id ->
  (forall l, m !! id = Some l -> iter_referenced_chunks (lineage l) = []) ->
  gathers Some (fun r => ancestor m id r /\ Root r).
Proof.
  intros Hid Href. apply gathers_nothing. intros r [Ha Hroot]. destruct Ha as [|id l c r Hl Hc _]; [done|].
  rewrite (Href l Hl) in Hc. by apply elem_of_nil in Hc.
Qed.

Lemma collect_root_ids_gathers m rank id : ranked m rank ->
  gathers (collect_root_ids (S (size m)) m id) (fun r => ancestor m id r /\ recorded_root m r).
Proof.
  intros Hr. apply (below_ind m rank (fun fuel id => gathers (collect_root_ids fuel m id)
    (fun r => ancestor m id r /\ recorded_root m r)) Hr).
  clear id. intros fuel id Hp. simpl. unfold direct_lineage. destruct (m !! id) as [l|] eqn:El; simpl.
  - specialize (Hp l). destruct (lineage l) as [p sib|ps|st|] eqn:Elin; simpl in Hp.
    + apply (visit_parents _ _ m id l El); rewrite ?Elin; [intros (? & ? & Hm); simplify_eq; by rewrite Elin in Hm|].
      eapply gathers_iff; [|apply (Hp p eq_refl); left]. set_solver.
    + apply (visit_parents _ _ m id l El); rewrite ?Elin; [intros (? & ? & Hm); simplify_eq; by rewrite Elin in Hm|].
      apply gathers_fold. intros c Hc. by apply (Hp c eq_refl).
    + apply (visit_root _ m id l El); rewrite ?Elin; [done|]. exists l. by rewrite Elin.
    + apply (visit_root _ m id l El); rewrite ?Elin; [done|]. exists l. by rewrite Elin.
  - apply visit_nothing; [intros (? & ? & _)|]; naive_solver.
Qed.

Lemma collect_root_manifest_chunks_gathers m rank id : ranked m rank ->
  gathers (collect_root_manifest_chunks (S (size m)) m id) (fun r => ancestor m id r /\ manifest_root m r).
Proof.
  intros Hr. apply (below_ind m rank (fun fuel id => gathers (collect_root_manifest_chunks fuel m id)
    (fun r => ancestor m id r /\ manifest_root m r)) Hr).
  clear id. intros fuel id Hp. simpl. unfold direct_lineage. destruct (m !! id) as [l|] eqn:El; simpl.
  - specialize (Hp l). destruct (lineage l) as [p sib|ps|st|] eqn:Elin; simpl in Hp.
    + apply (visit_parents _ _ m id l El); rewrite ?Elin; [intros (? & ? & ? & Hm); simplify_eq; by rewrite Elin in Hm|].
      eapply gathers_iff; [|apply (Hp p eq_refl); left]. set_solver.
    + apply (visit_parents _ _ m id l El); rewrite ?Elin; [intros (? & ? & ? & Hm); simplify_eq; by rewrite Elin in Hm|].
      apply gathers_fold. intros c Hc. by apply (Hp c eq_refl).
    + apply (visit_root _ m id l El); rewrite ?Elin; [done|]. exists l, st. done.
    + apply visit_nothing; [intros (? & ? & ? & Hm); simplify_eq; by rewrite Elin in Hm|].
      intros l' Hl'. simplify_eq. by rewrite Elin.
  - apply visit_nothing; [intros (? & ? & ? & _)|]; naive_solver.
Qed.

(** The flag says whether a root from a manifest is among the ancestors. *)
Lemma flag_iff m rank id : flagged m -> ranked m rank ->
  store_descends_from_manifest m id = true <-> exists r, ancestor m id r /\ manifest_root m r.
Proof.
  intros Hf Hr. revert id. induction id as [id IH] using (well_founded_induction (well_founded_ltof _ rank)).
  unfold store_descends_from_manifest at 1. destruct (m !! id) as [l|] eqn:El; simpl.
  - rewrite (Hf id l El), inherits_manifest_iff. split.
    + intros [[st Hst]|(p & Hin & Hm)]; [exists id; split; [apply ancestor_refl|by exists l, st]|].
      apply IH in Hm as (r & ? & ?); [|by apply (Hr id l)]. exists r. split; [by eapply ancestor_step|done].
    + intros (r & [->|(p & Hin & Ha)]%(ancestor_inv m id l r El) & Hroot).
      * destruct Hroot as (l' & st & ? & ?). simplify_eq. by left; exists st.
      * right. exists p. split; [done|]. apply IH; [by apply (Hr id l)|]. by exists r.
  - split; [done|]. intros (r & ->%(ancestor_missing m id r El) & (? & ? & ? & _)). congruence.
Qed.

(** The traversals.  When entries refer to older chunks and every flag is that of what the
    entry refers to, both traversals end; [find_root_chunks] finds the recorded roots among
    the ancestors of the chunk and [find_root_manifest_chunks] those from a manifest, of which
    there are some exactly when [descends_from_manifest] says so. *)
Lemma find_roots_spec m (rank : ChunkId.t -> nat) (chunk_id : ChunkId.t) (Hranked : ranked m rank) (Hflagged : flagged m) :
  exists roots manifest_roots,
    find_root_chunks m chunk_id = Some roots
    /\ find_root_manifest_chunks m chunk_id = Some manifest_roots
    /\ (forall r, r ∈ roots <-> ancestor m chunk_id r /\ recorded_root m r)
    /\ (forall r, r ∈ manifest_roots <-> ancestor m chunk_id r /\ manifest_root m r)
    /\ (store_descends_from_manifest m chunk_id = true <-> manifest_roots <> []).
Proof.
  destruct (collect_root_ids_gathers m rank chunk_id Hranked) as (roots & Hrun & Hin).
  destruct (collect_root_manifest_chunks_gathers m rank chunk_id Hranked) as (mroots & Hmrun & Hmin).
  exists roots, mroots. split_and!; [apply Hrun|apply Hmrun|done|done|].
  rewrite (flag_iff m rank chunk_id Hflagged Hranked). split.
  - intros (r & Hr%Hmin) ->. by apply elem_of_nil in Hr.
  - intros Hne. destruct mroots as [|r]; [done|]. exists r. apply Hmin. left.
Qed.

(** Splits and compactions are not mixed: what is compacted is not split, and what is split
    is not compacted. *)
Definition unmixed m : Prop :=
  forall id l p lp, m !! id = Some l -> p ∈ iter_referenced_chunks (lineage l) -> m !! p = Some lp ->
    match lineage l, lineage lp with
    | CompactedFrom _, SplitFrom _ _ | SplitFrom _ _, CompactedFrom _ | SplitFrom _ _, SplitFrom _ _ => False
    | _, _ => True
    end.

Lemma no_split_below m rank id : ranked m rank -> unmixed m ->
  (forall l p sib, m !! id = Some l -> lineage l <> SplitFrom p sib) ->
  forall found, descends_from_a_split_rec (S (size m)) m id found = Some (Done false).
Proof.
  intros Hr Hu. revert id.
  refine (below_ind m rank (fun fuel id => (forall l p sib, m !! id = Some l -> lineage l <> SplitFrom p sib) ->
    forall found, descends_from_a_split_rec fuel m id found = Some (Done false)) Hr _).
  intros fuel id Hp Hns found. simpl. unfold direct_lineage. destruct (m !! id) as [l|] eqn:El; [|done]. simpl.
  specialize (Hns l). destruct (lineage l) as [p sib|ps|st|] eqn:Elin; [by destruct (Hns p sib)| |done|done].
  assert (forall c, c ∈ ps -> descends_from_a_split_rec fuel m c true = Some (Done false)) as Hall.
  { intros c Hc. apply (Hp l); [done|by rewrite Elin|]. intros lc q sib Hlc Hlin.
    specialize (Hu id l c lc El). rewrite Elin, Hlin in Hu. by apply Hu. }
  clear -Hall. induction ps as [|c ps IH]; [done|]. rewrite Hall by left. apply IH. intros. apply Hall. by right.
Qed.

Lemma descends_from_a_split_direct m rank id : ranked m rank -> unmixed m ->
  descends_from_a_split m id
    = Some (Done match direct_lineage m id with Some (SplitFrom _ _) => true | _ => false end).
Proof.
  intros Hr Hu. unfold descends_from_a_split. destruct debug_assertions eqn:Edbg; [|done].
  destruct (direct_lineage m id) as [[p sib|ps|st|]|] eqn:El.
  1: { simpl. rewrite El. unfold debug_assert. by rewrite andb_false_r. }
  all: apply (no_split_below m rank id Hr Hu); intros l p' sib Hl Hlin;
    unfold direct_lineage in El; rewrite Hl in El; simpl in El; congruence.
Qed.

Lemma descends_from_a_compaction_direct m id : unmixed m ->
  descends_from_a_compaction m id
    = Some (Done match direct_lineage m id with Some (CompactedFrom _) => true | _ => false end).
Proof.
  intros Hu. unfold descends_from_a_compaction. simpl.
  destruct (direct_lineage m id) as [[p sib|ps|st|]|] eqn:El; try done.
  2: { unfold debug_assert. by rewrite andb_false_r. }
  unfold direct_lineage in El. destruct (m !! id) as [l|] eqn:Hl; [|done]. injection El as Hlin.
  assert (size m <> 0%nat) as Hne by (intros Hz%map_size_empty_inv; subst; by rewrite lookup_empty in Hl).
  destruct (size m) as [|n]; [done|]. simpl. unfold direct_lineage. destruct (m !! p) as [lp|] eqn:Ep; [|done]. simpl.
  specialize (Hu id l p lp Hl). rewrite Hlin in Hu. specialize (Hu ltac:(left) Ep). by destruct (lineage lp).
Qed.

(** Splits and compactions.  When entries refer to older chunks and no split is compacted or
    split again and no compaction split, neither query panics: the recursive check of a debug
    build finds a split exactly when the entry of the chunk itself is one, as a release build
    assumes, and [descends_from_a_compaction] finds one exactly when the entry itself is one. *)
Lemma descends_from_spec m (rank : ChunkId.t -> nat) (chunk_id : ChunkId.t) (Hranked : ranked m rank) (Hunmixed : unmixed m) :
  descends_from_a_split m chunk_id
    = Some (Done match direct_lineage m chunk_id with Some (SplitFrom _ _) => true | _ => false end)
  /\ descends_from_a_compaction m chunk_id
    = Some (Done match direct_lineage m chunk_id with Some (CompactedFrom _) => true | _ => false end).
Proof. split; [by apply (descends_from_a_split_direct m rank)|by apply descends_from_a_compaction_direct]. Qed.

End Ancestors.
