(* ===== verification/StoreStats.v ===== *)
(** * Statistics of a collection of chunks

    [ChunkStoreChunkStats] and [ChunkStoreStats] of [dl_chunk_store/src/stats.rs].  The fields
    are [u64]s: their sums and differences panic on overflow in a debug build and wrap around
    in a release build. *)

From stdpp Require Import strings.
From S2P Require Import Prelude Ints Arrow Column Chunk ChunkSlice.

Module ChunkStoreChunkStats.

Record t := Mk {
  num_chunks : Z;
  total_size_bytes : Z;
  num_rows : Z;
  num_events : Z;
}.

(** [Default]. *)
Definition default_ : t := Mk 0 0 0 0.

Section Operations.

Context `{Build}.

Definition map2 (op : Z -> Z -> Z) (self rhs : t) : outcome t :=
  a ← arith_u64 debug_assertions (op (num_chunks self) (num_chunks rhs));
  b ← arith_u64 debug_assertions (op (total_size_bytes self) (total_size_bytes rhs));
  c ← arith_u64 debug_assertions (op (num_rows self) (num_rows rhs));
  d ← arith_u64 debug_assertions (op (num_events self) (num_events rhs));
  Done (Mk a b c d).

Definition add : t -> t -> outcome t := map2 Z.add.
Definition sub : t -> t -> outcome t := map2 Z.sub.

Definition sum (l : list t) : outcome t :=
  foldl (fun acc item => acc ← acc; add acc item) (Done default_) l.

Context `{ArrowOps} `{!Chunk.SizeBytes}.

(** The statistics of a chunk, and the chunk, which keeps the heap size that was measured.
    [of_chunk] is the statistics alone. *)
Definition from_chunk (chunk : Chunk.t) : t * Chunk.t :=
  let total_size_bytes := fst (ChunkSplit.total_size_bytes chunk) in
  let chunk := snd (ChunkSplit.total_size_bytes chunk) in
  (Mk 1 total_size_bytes (Z.of_nat (Chunk.num_rows chunk)) (Chunk.num_events_cumulative chunk), chunk).
Definition of_chunk (chunk : Chunk.t) : t := fst (from_chunk chunk).

End Operations.

End ChunkStoreChunkStats.

(** The size is the same when it is asked for again. *)
Lemma of_measured `{ArrowOps} `{!Chunk.SizeBytes} (chunk : Chunk.t) :
  ChunkStoreChunkStats.of_chunk (Chunk.measured chunk) = ChunkStoreChunkStats.of_chunk chunk.
Proof.
  unfold ChunkStoreChunkStats.of_chunk, ChunkStoreChunkStats.from_chunk, ChunkSplit.total_size_bytes.
  cbn [fst snd]. rewrite measured_size. fold (Chunk.measured (Chunk.measured chunk)).
  by rewrite measured_measured.
Qed.

(** [ChunkStoreStats]. *)
Module ChunkStoreStats.

Record t := Mk { static_chunks : ChunkStoreChunkStats.t; temporal_chunks : ChunkStoreChunkStats.t }.

Section Operations.

Context `{Build}.

Definition total (self : t) : outcome ChunkStoreChunkStats.t :=
  ChunkStoreChunkStats.add (static_chunks self) (temporal_chunks self).

Definition add (self rhs : t) : outcome t :=
  a ← ChunkStoreChunkStats.add (static_chunks self) (static_chunks rhs);
  b ← ChunkStoreChunkStats.add (temporal_chunks self) (temporal_chunks rhs);
  Done (Mk a b).

Definition sub (self rhs : t) : outcome t :=
  a ← ChunkStoreChunkStats.sub (static_chunks self) (static_chunks rhs);
  b ← ChunkStoreChunkStats.sub (temporal_chunks self) (temporal_chunks rhs);
  Done (Mk a b).

End Operations.

End ChunkStoreStats.

(** ** Sums

    Without overflow the operations are those of a commutative group, component by component. *)

Section Sums.

Import ChunkStoreChunkStats.
Context `{Build}.
Implicit Types s : t.

Definition plus s1 s2 : t :=
  Mk (num_chunks s1 + num_chunks s2) (total_size_bytes s1 + total_size_bytes s2)
    (num_rows s1 + num_rows s2) (num_events s1 + num_events s2).
Definition minus s1 s2 : t :=
  Mk (num_chunks s1 - num_chunks s2) (total_size_bytes s1 - total_size_bytes s2)
    (num_rows s1 - num_rows s2) (num_events s1 - num_events s2).

Definition all_stats (P : Z -> Prop) s : Prop :=
  P (num_chunks s) /\ P (total_size_bytes s) /\ P (num_rows s) /\ P (num_events s).

Lemma stats_eq s1 s2 : num_chunks s1 = num_chunks s2 -> total_size_bytes s1 = total_size_bytes s2 ->
  num_rows s1 = num_rows s2 -> num_events s1 = num_events s2 -> s1 = s2.
Proof. destruct s1, s2; simpl. by intros -> -> -> ->. Qed.

Lemma add_done s1 s2 : all_stats is_u64 (plus s1 s2) -> add s1 s2 = Done (plus s1 s2).
Proof. intros (Ha & Hb & Hc & Hd). unfold add, map2. by rewrite !arith_u64_done. Qed.

Lemma sub_done s1 s2 : all_stats is_u64 (minus s1 s2) -> sub s1 s2 = Done (minus s1 s2).
Proof. intros (Ha & Hb & Hc & Hd). unfold sub, map2. by rewrite !arith_u64_done. Qed.

(** What the fields hold when their sums are [s]: a release build wraps around. *)
Definition wrapped s : t :=
  Mk (wrap_u64 (num_chunks s)) (wrap_u64 (total_size_bytes s)) (wrap_u64 (num_rows s)) (wrap_u64 (num_events s)).

Lemma wrapped_id s : all_stats is_u64 s -> wrapped s = s.
Proof. intros (? & ? & ? & ?). unfold wrapped. rewrite !wrap_u64_id by done. by destruct s. Qed.

Lemma arith_u64_wrap b x y op : (b = true -> is_u64 x /\ is_u64 (op x y)) -> op = Z.add \/ op = Z.sub ->
  arith_u64 b (op (wrap_u64 x) y) = Done (wrap_u64 (op x y)).
Proof.
  intros Hb Hop. destruct b; simpl.
  - destruct (Hb eq_refl). rewrite (wrap_u64_id x) by done. rewrite arith_u64_done by done. by rewrite wrap_u64_id.
  - assert (wrap_u64 (op (wrap_u64 x) y) = wrap_u64 (op x y)) as Hw.
    { unfold wrap_u64. destruct Hop as [-> | ->]; [apply Zplus_mod_idemp_l|apply Zminus_mod_idemp_l]. }
    unfold arith_u64. case_decide as Hu; [|by rewrite Hw]. by rewrite <- Hw, (wrap_u64_id (op _ _)).
Qed.

Lemma map2_wrapped op s1 s2 : op = Z.add \/ op = Z.sub ->
  (debug_assertions = true -> all_stats is_u64 s1
     /\ all_stats is_u64 (Mk (op (num_chunks s1) (num_chunks s2)) (op (total_size_bytes s1) (total_size_bytes s2))
                            (op (num_rows s1) (num_rows s2)) (op (num_events s1) (num_events s2)))) ->
  map2 op (wrapped s1) s2
    = Done (wrapped (Mk (op (num_chunks s1) (num_chunks s2)) (op (total_size_bytes s1) (total_size_bytes s2))
                        (op (num_rows s1) (num_rows s2)) (op (num_events s1) (num_events s2)))).
Proof.
  intros Hop Hd. unfold map2, wrapped. cbn [num_chunks total_size_bytes num_rows num_events].
  rewrite !(arith_u64_wrap _ _ _ op); [done|..]; try done; intros Hb; destruct (Hd Hb) as [(? & ? & ? & ?) (? & ? & ? & ?)]; done.
Qed.

Lemma add_wrapped s1 s2 : (debug_assertions = true -> all_stats is_u64 s1 /\ all_stats is_u64 (plus s1 s2)) ->
  add (wrapped s1) s2 = Done (wrapped (plus s1 s2)).
Proof. intros Hd. apply map2_wrapped; [by left|done]. Qed.

Lemma sub_wrapped s1 s2 : (debug_assertions = true -> all_stats is_u64 s1 /\ all_stats is_u64 (minus s1 s2)) ->
  sub (wrapped s1) s2 = Done (wrapped (minus s1 s2)).
Proof. intros Hd. apply map2_wrapped; [by right|done]. Qed.

(** A debug build adds up, or panics. *)
Lemma add_or_panic s1 s2 : debug_assertions = true -> all_stats is_u64 s1 ->
  add (wrapped s1) s2 = Panic \/ all_stats is_u64 (plus s1 s2).
Proof.
  intros Hd Hu. rewrite wrapped_id by done. unfold add, map2, arith_u64. rewrite Hd.
  destruct (decide (is_u64 (num_chunks s1 + num_chunks s2))); [cbn [mbind outcome_bind]|by left].
  destruct (decide (is_u64 (total_size_bytes s1 + total_size_bytes s2))); [cbn [mbind outcome_bind]|by left].
  destruct (decide (is_u64 (num_rows s1 + num_rows s2))); [cbn [mbind outcome_bind]|by left].
  destruct (decide (is_u64 (num_events s1 + num_events s2))); [by right|by left].
Qed.

Definition plus_all (l : list t) : t := foldr plus default_ l.

Lemma plus_minus s1 s2 : minus (plus s1 s2) s1 = s2.
Proof. apply stats_eq; simpl; lia. Qed.

Lemma plus_swap s1 s2 s3 : plus s1 (plus s2 s3) = plus s2 (plus s1 s3).
Proof. apply stats_eq; simpl; lia. Qed.

#[export] Instance plus_all_perm : Proper (Permutation ==> eq) plus_all.
Proof.
  intros l k Hp. induction Hp as [|x l k _ IH|x y l|l k m _ IH1 _ IH2]; simpl;
    [done|by rewrite IH|apply plus_swap|by rewrite IH1].
Qed.

Lemma plus_all_app l k : plus_all (l ++ k) = plus (plus_all l) (plus_all k).
Proof. induction l as [|x l IH]; simpl; [apply stats_eq; simpl; lia|]. rewrite IH. apply stats_eq; simpl; lia. Qed.

End Sums.

(** Arithmetic on every field. *)
Ltac stats_lia :=
  unfold all_stats, plus, minus, is_u64 in *;
  cbn [ChunkStoreChunkStats.num_chunks ChunkStoreChunkStats.total_size_bytes ChunkStoreChunkStats.num_rows
       ChunkStoreChunkStats.num_events] in *; lia.

#[global] Opaque ChunkStoreChunkStats.add ChunkStoreChunkStats.sub.
