(* ===== verification/ChunkIndex.v ===== *)
(** * The time index

    [ChunkIdSetPerTime] of [dl_chunk_store/src/store.rs], its maintenance in [writes.rs]
    ([insert_chunk] and [insert_dlr_manifest] update it the same way), and the two searches
    of [query.rs] that run on it, [ChunkStore::latest_at] and [ChunkStore::range].

    A [BTreeMap] is a [gmap] whose entries are listed in key order, a [BTreeSet] a [gset]
    whose elements are. *)

From stdpp Require Import strings.
From S2P Require Import Prelude Ints TimeInt TimeRange Tuid.

(** [BTreeMap<TimeInt, _>] in order. *)
Definition entries {A} (m : gmap TimeInt.t A) : list (TimeInt.t * A) :=
  sort_by (fun a b => TimeInt.le (fst a) (fst b)) (map_to_list m).

(** [BTreeMap::range] with an upper bound, and with both bounds. *)
Definition range_to {A} (m : gmap TimeInt.t A) (hi : TimeInt.t) : list (TimeInt.t * A) :=
  List.filter (fun '(time, _) => TimeInt.le time hi) (entries m).
Definition range_within {A} (m : gmap TimeInt.t A) (lo hi : TimeInt.t) : list (TimeInt.t * A) :=
  List.filter (fun '(time, _) => TimeInt.le lo time && TimeInt.le time hi) (entries m).

(** [BTreeSet<ChunkId>] in order. *)
Definition set_iter (s : gset ChunkId.t) : list ChunkId.t := sort_by ChunkId.le (elements s).

Module ChunkIdSetPerTime.

Record t := Mk {
  max_interval_length : Z;
  per_start_time : gmap TimeInt.t (gset ChunkId.t);
  per_end_time : gmap TimeInt.t (gset ChunkId.t);
}.

(** [Default]. *)
Definition empty : t := Mk 0 ∅ ∅.

(** [map.entry(time).or_default().insert(chunk_id)]. *)
Definition insert_at (m : gmap TimeInt.t (gset ChunkId.t)) (time : TimeInt.t) (id : ChunkId.t)
    : gmap TimeInt.t (gset ChunkId.t) :=
  <[time := {[id]} ∪ default ∅ (m !! time)]> m.

(** The update of an index for a chunk that covers [time_range]. *)
Definition insert (self : t) (time_range : AbsoluteTimeRange.t) (id : ChunkId.t) : t :=
  Mk (Z.max (max_interval_length self) (AbsoluteTimeRange.abs_length time_range))
    (insert_at (per_start_time self) (AbsoluteTimeRange.rmin time_range) id)
    (insert_at (per_end_time self) (AbsoluteTimeRange.rmax time_range) id).

(** [max_interval_length.saturating_cast()], a [u64] as an [i64]. *)
Definition interval (self : t) : Z := saturating_cast U64 I64 (max_interval_length self).

(** [ChunkStore::latest_at]. *)
Definition latest_at (at_ : TimeInt.t) (self : t) : option (list ChunkId.t) :=
  upper_bound ← fst <$> last (range_to (per_start_time self) at_);
  let lower_bound := saturating_sub (TimeInt.as_i64 upper_bound) (interval self) in
  Some (take_while (fun '(time, _) => lower_bound <=? TimeInt.as_i64 time)
          (rev (range_to (per_start_time self) at_))
        ≫= fun '(_, chunk_ids) => set_iter chunk_ids).

(** The bounds [ChunkStore::range] queries, widened by one tick for the extended bounds. *)
Definition query_min (range : AbsoluteTimeRange.t) (extended : bool) : TimeInt.t :=
  if extended
  then TimeInt.new_temporal (saturating_sub (TimeInt.as_i64 (AbsoluteTimeRange.rmin range)) 1)
  else AbsoluteTimeRange.rmin range.
Definition query_max (range : AbsoluteTimeRange.t) (extended : bool) : TimeInt.t :=
  if extended
  then TimeInt.new_temporal (saturating_add (TimeInt.as_i64 (AbsoluteTimeRange.rmax range)) 1)
  else AbsoluteTimeRange.rmax range.

Definition range_bounds (range : AbsoluteTimeRange.t) (extended : bool) (self : t) : TimeInt.t * TimeInt.t :=
  let query_min := query_min range extended in
  let query_max := query_max range extended in
  let query_min := TimeInt.new_temporal (saturating_sub (TimeInt.as_i64 query_min) (interval self)) in
  let start_time := from_option fst TimeInt.MIN (last (range_to (per_start_time self) query_min)) in
  let end_time := from_option fst start_time (last (range_to (per_start_time self) query_max)) in
  (start_time, TimeInt.max start_time end_time).

(** [ChunkStore::range]. *)
Definition range (range : AbsoluteTimeRange.t) (extended : bool) (indices : list t) : list ChunkId.t :=
  indices ≫= fun self =>
    let '(start_time, end_time) := range_bounds range extended self in
    range_within (per_start_time self) start_time end_time ≫= fun '(_, chunk_ids) => set_iter chunk_ids.

End ChunkIdSetPerTime.

(** ** Ordered traversals *)

Section Traversals.

Context {A : Type}.
Implicit Types m : gmap TimeInt.t A.

Lemma elem_of_entries m time x : (time, x) ∈ entries m <-> m !! time = Some x.
Proof. unfold entries. rewrite elem_of_sort_by. apply elem_of_map_to_list. Qed.

Definition entry_le (a b : TimeInt.t * A) : bool := TimeInt.le (fst a) (fst b).

#[export] Instance timeint_le_preorder : TotalPreorder TimeInt.le.
Proof. split; intros *; rewrite !TimeInt.le_as_i64, !Z.leb_le; lia. Qed.

#[export] Instance entry_le_preorder : TotalPreorder entry_le.
Proof. unfold entry_le. apply (comap_preorder fst TimeInt.le), _. Qed.

Lemma entries_sorted m : sorted_by entry_le (entries m).
Proof. apply (sort_by_sorted entry_le). Qed.

Lemma sorted_filter_bool (p : TimeInt.t * A -> bool) l : sorted_by entry_le l ->
  sorted_by entry_le (List.filter p l).
Proof.
  induction 1 as [|x l Hs IH Hf]; simpl; [constructor|]. destruct (p x); [|done]. constructor; [done|].
  rewrite Forall_forall in *. intros y [Hy _]%elem_of_filter_bool. by apply Hf.
Qed.

Lemma elem_of_range_to m hi time x :
  (time, x) ∈ range_to m hi <-> m !! time = Some x /\ TimeInt.as_i64 time <= TimeInt.as_i64 hi.
Proof.
  unfold range_to. rewrite elem_of_filter_bool, elem_of_entries.
  by rewrite TimeInt.le_as_i64, Z.leb_le.
Qed.

Lemma elem_of_range_within m lo hi time x :
  (time, x) ∈ range_within m lo hi <->
  m !! time = Some x /\ TimeInt.as_i64 lo <= TimeInt.as_i64 time <= TimeInt.as_i64 hi.
Proof.
  unfold range_within. rewrite elem_of_filter_bool, elem_of_entries.
  by rewrite andb_true_iff, !TimeInt.le_as_i64, !Z.leb_le.
Qed.

(** The last entry at or below a bound is the greatest key there. *)
Lemma last_range_to m hi :
  match last (range_to m hi) with
  | Some (time, x) => m !! time = Some x /\ TimeInt.as_i64 time <= TimeInt.as_i64 hi
      /\ forall time' x', m !! time' = Some x' -> TimeInt.as_i64 time' <= TimeInt.as_i64 hi ->
           TimeInt.as_i64 time' <= TimeInt.as_i64 time
  | None => forall time' x', m !! time' = Some x' -> TimeInt.as_i64 hi < TimeInt.as_i64 time'
  end.
Proof.
  pose proof (sorted_filter_bool (fun '(time, _) => TimeInt.le time hi) _ (entries_sorted m)) as Hs.
  change (List.filter _ (entries m)) with (range_to m hi) in Hs.
  destruct (last (range_to m hi)) as [[time x]|] eqn:El.
  - assert ((time, x) ∈ range_to m hi) as Hin by by apply last_Some_elem_of.
    apply elem_of_range_to in Hin as [Hm Hle]. split_and!; [done|done|].
    intros time' x' Hm' Hle'. assert ((time', x') ∈ range_to m hi) as Hin' by by apply elem_of_range_to.
    apply list_elem_of_lookup_1 in Hin' as [i Hi]. rewrite last_lookup in El. apply lookup_lt_Some in Hi as Hil.
    assert (entry_le (time', x') (time, x) = true) as Hel
      by (apply (sorted_lookup entry_le _ i (pred (length (range_to m hi))) _ _ Hs); [lia|done|done]).
    unfold entry_le in Hel. simpl in Hel. by rewrite TimeInt.le_as_i64, Z.leb_le in Hel.
  - apply last_None in El. intros time' x' Hm'. destruct (Z.lt_ge_cases (TimeInt.as_i64 hi) (TimeInt.as_i64 time')); [done|].
    assert ((time', x') ∈ range_to m hi) as Hin by by apply elem_of_range_to.
    rewrite El in Hin. by apply elem_of_nil in Hin.
Qed.

(** Walking down from a bound as long as the keys are above a lower bound. *)
Lemma elem_of_walk m hi lo time x :
  (time, x) ∈ take_while (fun '(time, _) => lo <=? TimeInt.as_i64 time) (rev (range_to m hi)) <->
  m !! time = Some x /\ lo <= TimeInt.as_i64 time <= TimeInt.as_i64 hi.
Proof.
  rewrite elem_of_take_while.
  - rewrite list_elem_of_In, <- in_rev, <- list_elem_of_In, elem_of_range_to, Z.leb_le. naive_solver.
  - pose proof (sorted_filter_bool (fun '(time, _) => TimeInt.le time hi) _ (entries_sorted m)) as Hs.
    change (List.filter _ (entries m)) with (range_to m hi) in Hs.
    induction Hs as [|[t y] l Hs IH Hf]; simpl; [constructor|]. apply sorted_app. split_and!; [done|repeat constructor|].
    intros [t' y'] z Hin Hz. apply list_elem_of_singleton in Hz as ->.
    rewrite list_elem_of_In, <- in_rev, <- list_elem_of_In in Hin. rewrite Forall_forall in Hf.
    specialize (Hf _ Hin). unfold entry_le in Hf. simpl in Hf. rewrite TimeInt.le_as_i64, Z.leb_le in Hf. lia.
Qed.

Lemma elem_of_set_iter (s : gset ChunkId.t) id : id ∈ set_iter s <-> id ∈ s.
Proof. unfold set_iter. rewrite elem_of_sort_by. apply elem_of_elements. Qed.

End Traversals.

(** ** What an index stands for *)

Section Index.

Import ChunkIdSetPerTime AbsoluteTimeRange.
Implicit Types self : ChunkIdSetPerTime.t.
Implicit Types L : list (ChunkId.t * AbsoluteTimeRange.t).

Definition maps_times (m : gmap TimeInt.t (gset ChunkId.t)) (bound : AbsoluteTimeRange.t -> TimeInt.t) L : Prop :=
  (forall time ids, m !! time = Some ids -> ids <> ∅)
  /\ forall time id, (exists ids, m !! time = Some ids /\ id ∈ ids)
       <-> exists r, (id, r) ∈ L /\ bound r = time.

(** The index of the chunks [L], each with the time range it was indexed under. *)
Definition represents self L : Prop :=
  maps_times (per_start_time self) rmin L
  /\ maps_times (per_end_time self) rmax L
  /\ is_u64 (max_interval_length self)
  /\ forall id r, (id, r) ∈ L -> abs_length r <= max_interval_length self.

Lemma maps_times_insert m bound L id r : maps_times m bound L ->
  maps_times (insert_at m (bound r) id) bound ((id, r) :: L).
Proof.
  intros [Hne Hm]. unfold insert_at. split.
  - intros time ids. destruct (decide (time = bound r)) as [->|Hb].
    + rewrite lookup_insert_eq. intros [= <-]. set_solver.
    + rewrite lookup_insert_ne by done. apply Hne.
  - intros time id'. destruct (decide (time = bound r)) as [->|Hb].
    + rewrite lookup_insert_eq. split.
      * intros (ids & [= <-] & [->%elem_of_singleton|Hin]%elem_of_union); [exists r; split; [left|done]|].
        destruct (m !! bound r) as [ids|] eqn:E; [|by apply elem_of_empty in Hin].
        destruct (proj1 (Hm (bound r) id')) as (r' & ? & ?); [by exists ids|]. exists r'. split; [by right|done].
      * intros (r' & [[= -> ->]|Hin]%elem_of_cons & Hr'); eexists; (split; [done|]); [set_solver|].
        destruct (proj2 (Hm (bound r) id')) as (ids & -> & ?); [by exists r'|]. set_solver.
    + rewrite lookup_insert_ne by done. rewrite Hm. split.
      * intros (r' & ? & ?). exists r'. split; [by right|done].
      * intros (r' & [[= -> ->]|Hin]%elem_of_cons & Hr'); [congruence|]. by exists r'.
Qed.

Lemma represents_empty : represents empty [].
Proof.
  split_and!; [| |done|intros ? ? []%not_elem_of_nil].
  all: cbn [empty per_start_time per_end_time];
    split; [intros time ids; by rewrite lookup_empty|]; intros time id; rewrite lookup_empty;
    split; [by intros (? & ? & _)|intros (? & []%not_elem_of_nil & _)].
Qed.

Lemma represents_insert self L id r : represents self L -> represents (insert self r id) ((id, r) :: L).
Proof.
  intros (Hs & He & Hu & Hl). pose proof (abs_length_range r) as Hlen.
  split_and!; [by apply maps_times_insert|by apply maps_times_insert|..]; cbn [insert max_interval_length].
  - unfold is_u64 in *. lia.
  - intros id' r' [[= -> ->]|Hin]%elem_of_cons; [lia|]. specialize (Hl _ _ Hin). lia.
Qed.

(** Chunks indexed one after the other. *)
Definition insert_all L : ChunkIdSetPerTime.t := foldr (fun '(id, r) self => insert self r id) empty L.

Lemma represents_insert_all L : represents (insert_all L) L.
Proof.
  induction L as [|[id r] L IH]; [apply represents_empty|]. by apply represents_insert.
Qed.

Lemma interval_small self : is_u64 (max_interval_length self) -> max_interval_length self <= i64_max ->
  interval self = max_interval_length self.
Proof.
  intros Hu Hi. unfold interval. rewrite saturating_cast_clamp.
  - unfold ty_min, ty_max. cbn [ty_signed ty_bits]. int_lia.
  - unfold in_ty, ty_min, ty_max. cbn [ty_signed ty_bits]. int_lia.
Qed.

Lemma start_below_end self L id r : represents self L -> (id, r) ∈ L ->
  TimeInt.as_i64 (rmax r) - max_interval_length self <= TimeInt.as_i64 (rmin r).
Proof. intros (_ & _ & _ & Hl) Hin. specialize (Hl id r Hin). unfold abs_length, abs_diff in Hl. lia. Qed.

Lemma elem_of_start self L id r : represents self L -> (id, r) ∈ L ->
  exists ids, per_start_time self !! rmin r = Some ids /\ id ∈ ids.
Proof. intros ((_ & Hs) & _) Hin. apply Hs. by exists r. Qed.

Lemma start_elem self L time ids : represents self L -> per_start_time self !! time = Some ids ->
  (exists id r, (id, r) ∈ L /\ rmin r = time)
  /\ forall id, id ∈ ids -> exists r, (id, r) ∈ L /\ rmin r = time.
Proof.
  intros ((Hne & Hs) & _) Hids. assert (forall id, id ∈ ids -> exists r, (id, r) ∈ L /\ rmin r = time) as Hall.
  { intros id Hid. apply Hs. by exists ids. }
  split; [|done]. destruct (set_choose_L ids) as [id Hid]; [by eapply Hne|].
  destruct (Hall id Hid) as (r & ? & ?). by exists id, r.
Qed.

Lemma latest_at_rows_of_index self L at_ : represents self L -> max_interval_length self <= i64_max ->
  match ChunkIdSetPerTime.latest_at at_ self with
  | None => forall id r, (id, r) ∈ L -> TimeInt.as_i64 at_ < TimeInt.as_i64 (rmin r)
  | Some found => exists upper,
      (exists id r, (id, r) ∈ L /\ rmin r = upper) /\ TimeInt.as_i64 upper <= TimeInt.as_i64 at_
      /\ (forall id r, (id, r) ∈ L -> TimeInt.as_i64 (rmin r) <= TimeInt.as_i64 at_ ->
          TimeInt.as_i64 (rmin r) <= TimeInt.as_i64 upper)
      /\ (forall id, id ∈ found -> exists r, (id, r) ∈ L /\ TimeInt.as_i64 (rmin r) <= TimeInt.as_i64 at_)
      /\ (forall id r, (id, r) ∈ L -> TimeInt.as_i64 (rmin r) <= TimeInt.as_i64 at_ ->
          TimeInt.as_i64 upper <= TimeInt.as_i64 (rmax r) -> id ∈ found)
  end.
Proof.
  intros Hr Hi. unfold ChunkIdSetPerTime.latest_at.
  pose proof (last_range_to (per_start_time self) at_) as Hlast.
  destruct (last (range_to _ at_)) as [[upper ids]|]; cbn [fmap option_fmap option_map mbind option_bind fst].
  - destruct Hlast as (Hids & Hle & Hmax). exists upper. destruct (start_elem self L upper ids Hr Hids) as [Hex _].
    rewrite interval_small by (apply Hr || done). split_and!; [done|done|..].
    + intros id r Hin Hat. destruct (elem_of_start self L id r Hr Hin) as (ids' & Hids' & _). by eapply Hmax.
    + intros id ([time ids'] & Hid & Hw)%list_elem_of_bind. apply elem_of_walk in Hw as (Hids' & _ & Hat).
      apply elem_of_set_iter in Hid. destruct (start_elem self L time ids' Hr Hids') as [_ Hall].
      destruct (Hall id Hid) as (r & ? & <-). by exists r.
    + intros id r Hin Hat Hup. apply list_elem_of_bind.
      destruct (elem_of_start self L id r Hr Hin) as (ids' & Hids' & Hid). exists (rmin r, ids').
      split; [by apply elem_of_set_iter|]. apply elem_of_walk. split; [done|].
      pose proof (start_below_end self L id r Hr Hin). pose proof (TimeInt.as_i64_range (rmin r)).
      unfold saturating_sub, sat_i64, is_i64 in *. lia.
  - intros id r Hin. destruct (elem_of_start self L id r Hr Hin) as (ids & Hids & _). by eapply Hlast.
Qed.

Lemma NoDup_set_iter (s : gset ChunkId.t) : NoDup (set_iter s).
Proof. unfold set_iter. rewrite (sort_by_perm ChunkId.le). apply NoDup_elements. Qed.

Lemma NoDup_entries {A} (m : gmap TimeInt.t A) : NoDup (entries m).
Proof. unfold entries. rewrite sort_by_perm. apply NoDup_map_to_list. Qed.

Lemma NoDup_take_while {A} (p : A -> bool) (l : list A) : NoDup l -> NoDup (take_while p l).
Proof.
  assert (forall l x, x ∈ take_while p l -> x ∈ l) as Hsub.
  { clear. intros l x. induction l as [|y l IH]; simpl; [done|]. destruct (p y); set_solver. }
  induction 1 as [|x l Hx Hl IH]; simpl; [constructor|]. destruct (p x); constructor; [|done].
  intros Hin. by apply Hx, Hsub.
Qed.

(** When every chunk is indexed under one range only, no chunk is found twice. *)
Lemma starts_NoDup self L l : represents self L ->
  (forall id r r', (id, r) ∈ L -> (id, r') ∈ L -> rmin r = rmin r') ->
  NoDup l -> (forall time ids, (time, ids) ∈ l -> per_start_time self !! time = Some ids) ->
  NoDup (l ≫= fun '(_, chunk_ids) => set_iter chunk_ids).
Proof.
  intros Hr Hfun Hnd Hl. apply NoDup_bind; [|intros [t s] _; apply NoDup_set_iter|done].
  intros [t1 s1] [t2 s2] id H1%Hl H2%Hl Hid1%elem_of_set_iter Hid2%elem_of_set_iter.
  destruct (proj2 (start_elem self L t1 s1 Hr H1) id Hid1) as (r1 & Hr1 & <-).
  destruct (proj2 (start_elem self L t2 s2 Hr H2) id Hid2) as (r2 & Hr2 & <-).
  rewrite (Hfun id r1 r2) in * by done. congruence.
Qed.

Lemma NoDup_filter_bool {A} (p : A -> bool) (l : list A) : NoDup l -> NoDup (List.filter p l).
Proof. intros Hl%NoDup_ListNoDup. by apply NoDup_ListNoDup, List.NoDup_filter. Qed.

Lemma latest_at_NoDup self L at_ found : represents self L ->
  (forall id r r', (id, r) ∈ L -> (id, r') ∈ L -> rmin r = rmin r') ->
  ChunkIdSetPerTime.latest_at at_ self = Some found -> NoDup found.
Proof.
  intros Hr Hfun. unfold ChunkIdSetPerTime.latest_at.
  destruct (last (range_to _ at_)) as [[upper ids]|]; cbn [fmap option_fmap option_map mbind option_bind fst]; [|done].
  intros [= <-]. apply (starts_NoDup self L); [done..| |].
  - apply NoDup_take_while. rewrite <- Permutation_rev. apply NoDup_filter_bool, NoDup_entries.
  - intros time ids' Hin. by apply elem_of_walk in Hin as [? _].
Qed.

Lemma range_NoDup self L range extended : represents self L ->
  (forall id r r', (id, r) ∈ L -> (id, r') ∈ L -> rmin r = rmin r') ->
  NoDup (ChunkIdSetPerTime.range range extended [self]).
Proof.
  intros Hr Hfun. unfold ChunkIdSetPerTime.range. simpl. rewrite app_nil_r.
  destruct (range_bounds range extended self) as [lo hi]. apply (starts_NoDup self L); [done..| |].
  - apply NoDup_filter_bool, NoDup_entries.
  - intros time ids Hin. by apply elem_of_range_within in Hin as [? _].
Qed.

(** The latest-at search of an index. It fails exactly when every chunk starts after the
    queried time. Otherwise, with [upper] the latest start at or before that time (a time at
    which there is data), it returns only chunks that start at or before the queried time, and
    it returns all of those that reach [upper], which is where the latest data must be, provided
    no chunk is longer than [i64::MAX]. *)
Lemma index_latest_at_spec self L at_ : represents self L -> max_interval_length self <= i64_max ->
  match ChunkIdSetPerTime.latest_at at_ self with
  | None => forall id r, (id, r) ∈ L -> TimeInt.as_i64 at_ < TimeInt.as_i64 (rmin r)
  | Some found => exists upper,
      (exists id r, (id, r) ∈ L /\ rmin r = upper) /\ TimeInt.as_i64 upper <= TimeInt.as_i64 at_
      /\ (forall id r, (id, r) ∈ L -> TimeInt.as_i64 (rmin r) <= TimeInt.as_i64 at_ ->
          TimeInt.as_i64 (rmin r) <= TimeInt.as_i64 upper)
      /\ (forall id, id ∈ found -> exists r, (id, r) ∈ L /\ TimeInt.as_i64 (rmin r) <= TimeInt.as_i64 at_)
      /\ (forall id r, (id, r) ∈ L -> TimeInt.as_i64 (rmin r) <= TimeInt.as_i64 at_ ->
          TimeInt.as_i64 upper <= TimeInt.as_i64 (rmax r) -> id ∈ found)
  end.
Proof. apply latest_at_rows_of_index. Qed.

Lemma index_range_complete self L range extended : represents self L -> max_interval_length self <= i64_max ->
  forall id r, (id, r) ∈ L -> rmin r <> TimeInt.STATIC ->
  TimeInt.as_i64 (rmin r) <= TimeInt.as_i64 (query_max range extended) ->
  TimeInt.as_i64 (query_min range extended) <= TimeInt.as_i64 (rmax r) ->
  id ∈ ChunkIdSetPerTime.range range extended [self].
Proof.
  intros Hr Hi id r Hin Hst Hmax Hmin. unfold ChunkIdSetPerTime.range. simpl. rewrite app_nil_r.
  destruct (elem_of_start self L id r Hr Hin) as (ids & Hids & Hid).
  unfold range_bounds. cbv zeta. rewrite interval_small by (apply Hr || done).
  set (lo := TimeInt.new_temporal _). set (hi := query_max range extended) in *.
  apply list_elem_of_bind. exists (rmin r, ids). split; [by apply elem_of_set_iter|].
  apply elem_of_range_within. split; [done|].
  pose proof (start_below_end self L id r Hr Hin) as Hse. pose proof (TimeInt.as_i64_range (rmin r)) as Hrange.
  rewrite TimeInt.as_i64_static_iff in Hst.
  assert (TimeInt.as_i64 lo <= TimeInt.as_i64 (rmin r)) as Hlo.
  { subst lo. rewrite TimeInt.as_i64_new_temporal by apply is_i64_sat.
    unfold saturating_sub, sat_i64, is_i64 in *. lia. }
  pose proof (last_range_to (per_start_time self) lo) as Hl1.
  pose proof (last_range_to (per_start_time self) hi) as Hl2.
  rewrite TimeInt.as_i64_max.
  assert (TimeInt.as_i64 (from_option fst TimeInt.MIN (last (range_to (per_start_time self) lo)))
    <= TimeInt.as_i64 (rmin r)) as Hstart.
  { destruct (last (range_to _ lo)) as [[t x]|]; simpl; [destruct Hl1 as (_ & Hle & _); lia|].
    rewrite TimeInt.as_i64_MIN. int_lia. }
  destruct (last (range_to _ hi)) as [[t x]|]; simpl.
  - destruct Hl2 as (_ & _ & Hall). specialize (Hall _ _ Hids Hmax). lia.
  - specialize (Hl2 _ _ Hids). lia.
Qed.

Lemma range_of_indices range extended (indices : list ChunkIdSetPerTime.t) (Ls : list (list (ChunkId.t * AbsoluteTimeRange.t))) :
  Forall2 represents indices Ls ->
  (forall id, id ∈ ChunkIdSetPerTime.range range extended indices -> exists L r, L ∈ Ls /\ (id, r) ∈ L)
  /\ (Forall (fun self => max_interval_length self <= i64_max) indices ->
      forall L id r, L ∈ Ls -> (id, r) ∈ L -> rmin r <> TimeInt.STATIC ->
      TimeInt.as_i64 (rmin r) <= TimeInt.as_i64 (query_max range extended) ->
      TimeInt.as_i64 (query_min range extended) <= TimeInt.as_i64 (rmax r) ->
      id ∈ ChunkIdSetPerTime.range range extended indices).
Proof.
  intros HF. assert (forall self, ChunkIdSetPerTime.range range extended [self]
    = (let '(start_time, end_time) := range_bounds range extended self in
       range_within (per_start_time self) start_time end_time ≫= fun '(_, ids) => set_iter ids)) as Hone.
  { intros self. unfold ChunkIdSetPerTime.range. simpl. by rewrite app_nil_r. }
  split.
  - intros id Hid. unfold ChunkIdSetPerTime.range in Hid. apply list_elem_of_bind in Hid as (self & Hid & Hself).
    apply list_elem_of_lookup_1 in Hself as [k Hk].
    destruct (Forall2_lookup_l _ _ _ _ _ HF Hk) as (L & HL & Hr). apply list_elem_of_lookup_2 in HL.
    destruct (range_bounds range extended self) as [lo hi].
    apply list_elem_of_bind in Hid as ([time ids] & Hid & Hw). apply elem_of_range_within in Hw as [Hids _].
    apply elem_of_set_iter in Hid. destruct (start_elem self L time ids Hr Hids) as [_ Hall].
    destruct (Hall id Hid) as (r & ? & _). by exists L, r.
  - intros Hlen L id r HL Hin Hst Hmax Hmin. apply list_elem_of_lookup_1 in HL as [k Hk].
    destruct (Forall2_lookup_r _ _ _ _ _ HF Hk) as (self & Hself & Hr).
    rewrite Forall_lookup in Hlen. specialize (Hlen _ _ Hself). apply list_elem_of_lookup_2 in Hself.
    apply list_elem_of_bind. exists self. split; [|done]. rewrite <- Hone.
    by apply (index_range_complete self L range extended Hr Hlen id r).
Qed.

(** The range search over several indices (one per component, say): every chunk of one of
    them whose indexed range meets the queried one is returned, provided no chunk is longer than
    [i64::MAX], and nothing but chunks of the indices is. *)
Lemma index_range_spec range extended (indices : list ChunkIdSetPerTime.t) (Ls : list (list (ChunkId.t * AbsoluteTimeRange.t))) :
  Forall2 represents indices Ls ->
  (forall id, id ∈ ChunkIdSetPerTime.range range extended indices -> exists L r, L ∈ Ls /\ (id, r) ∈ L)
  /\ (Forall (fun self => max_interval_length self <= i64_max) indices ->
      forall L id r, L ∈ Ls -> (id, r) ∈ L -> rmin r <> TimeInt.STATIC ->
      TimeInt.as_i64 (rmin r) <= TimeInt.as_i64 (query_max range extended) ->
      TimeInt.as_i64 (query_min range extended) <= TimeInt.as_i64 (rmax r) ->
      id ∈ ChunkIdSetPerTime.range range extended indices).
Proof. apply range_of_indices. Qed.

End Index.

(** ** Limits of the searches *)

#[local] Definition id_of (n : Z) : ChunkId.t := ChunkId.from_u128 n.
#[local] Definition span (a b : Z) : AbsoluteTimeRange.t :=
  AbsoluteTimeRange.new (Ok (TimeInt.new_temporal a)) (Ok (TimeInt.new_temporal b)).

(** Three cases in which the latest-at search departs from what its comments promise. A
    column without any value is indexed under the empty range, from [MAX] to [MIN], which makes
    [MAX] the latest start and the longest interval at once: the query for the latest time then
    misses a chunk with data at negative times. An interval longer than [i64::MAX] saturates: a
    chunk that long is missed although it has data at the latest start. A manifest indexes a
    chunk in the index without components once per component: a chunk whose components start at
    different times is returned twice. *)
Lemma index_latest_at_limits :
  ChunkIdSetPerTime.latest_at TimeInt.MAX (insert_all [(id_of 2, AbsoluteTimeRange.EMPTY); (id_of 1, span (-10) (-5))])
    = Some [id_of 2]
  /\ ChunkIdSetPerTime.latest_at (TimeInt.new_temporal 100)
       (insert_all [(id_of 2, span 99 99); (id_of 1, span (- 2 ^ 63 + 1) 99)])
    = Some [id_of 2]
  /\ ChunkIdSetPerTime.latest_at (TimeInt.new_temporal 7) (insert_all [(id_of 1, span 1 5); (id_of 1, span 2 6)])
    = Some [id_of 1; id_of 1].
Proof. split_and!; vm_compute; reflexivity. Qed.
