(* ===== verification/ChunkStore.v ===== *)
(** * Queries on the chunk store

    The state of [ChunkStore] ([dl_chunk_store/src/store.rs]), its queries ([query.rs]), and
    the part of [writes.rs] that indexes a temporal chunk; [StoreGc] has the operations that
    remove chunks, [StoreWrites] those that insert them.

    The schema and the identity of the store are left out.  The four maps of lineage, which the
    code borrows together as a [LineageDroppingCtx], are one field.

    Maps that the code iterates without an order are [gmap]s. *)

From stdpp Require Import strings.
From S2P Require Import Prelude Ints TimeInt TimeRange Tuid Arrow Column Chunk ChunkSlice.
From S2P Require Import ChunkSort ChunkQuery ChunkIndex Lineage StoreStats.

(** [ChunkStoreConfig]. *)
Module ChunkStoreConfig.

Record t := Mk {
  enable_changelog : bool;
  chunk_max_bytes : Z;
  chunk_max_rows : Z;
  chunk_max_rows_if_unsorted : Z;
}.

Definition DEFAULT : t := Mk true (12 * 8 * 4096) 4096 1024.
Definition COMPACTION_DISABLED : t := Mk true 0 0 0.
Definition CHANGELOG_DISABLED : t := Mk false (12 * 8 * 4096) 4096 1024.
Definition ALL_DISABLED : t := Mk false 0 0 0.

End ChunkStoreConfig.

(** [ChunkTrackingMode]. *)
Inductive ChunkTrackingMode := Ignore | Report | ReportTransient | PanicOnMissing.

#[export] Instance tracking_mode_eq_dec : EqDecision ChunkTrackingMode.
Proof. solve_decision. Defined.

(** [QueriedChunkIdTracker]. *)
Record QueriedChunkIdTracker := {
  used_physical : gset ChunkId.t;
  transient_used_physical : gset ChunkId.t;
  missing_virtual_ids : gset ChunkId.t;
  transient_missing_virtual : gset ChunkId.t;
  indicated_virtual : gset ChunkId.t;
}.

Module ChunkStore.

Record t `{ArrowOps} := Mk {
  config : ChunkStoreConfig.t;
  physical_chunks_per_chunk_id : gmap ChunkId.t Chunk.t;
  physical_chunk_ids_per_min_row_id : gset (RowId.t * ChunkId.t);
  lineages : LineageDroppingCtx;
  temporal_chunk_ids_per_entity_per_component :
    gmap (list string) (gmap string (gmap string ChunkIdSetPerTime.t));
  temporal_chunk_ids_per_entity : gmap (list string) (gmap string ChunkIdSetPerTime.t);
  temporal_physical_chunks_stats : ChunkStoreChunkStats.t;
  static_chunk_ids_per_entity : gmap (list string) (gmap string ChunkId.t);
  static_chunks_stats : ChunkStoreChunkStats.t;
  queried_chunk_id_tracker : QueriedChunkIdTracker;
  insert_id : Z;
  gc_id : Z;
  event_id : Z;
}.
#[global] Arguments Mk {_} _ _ _ _ _ _ _ _ _ _ _ _ _.

(** [QueryResults]. *)
Record QueryResults `{ArrowOps} := Results { chunks : list Chunk.t; missing_virtual : list ChunkId.t }.
#[global] Arguments Results {_} _ _.

Section Operations.

Context `{Build} `{ArrowOps}.
Implicit Types self : t.

(** Updates of a field, or of fields that change together. *)
Definition with_tracker self (tracker : QueriedChunkIdTracker) : t :=
  Mk (config self) (physical_chunks_per_chunk_id self) (physical_chunk_ids_per_min_row_id self) (lineages self)
    (temporal_chunk_ids_per_entity_per_component self) (temporal_chunk_ids_per_entity self)
    (temporal_physical_chunks_stats self) (static_chunk_ids_per_entity self) (static_chunks_stats self)
    tracker (insert_id self) (gc_id self) (event_id self).

Definition with_physical self (chunks : gmap ChunkId.t Chunk.t) (ids : gset (RowId.t * ChunkId.t)) : t :=
  Mk (config self) chunks ids (lineages self)
    (temporal_chunk_ids_per_entity_per_component self) (temporal_chunk_ids_per_entity self)
    (temporal_physical_chunks_stats self) (static_chunk_ids_per_entity self) (static_chunks_stats self)
    (queried_chunk_id_tracker self) (insert_id self) (gc_id self) (event_id self).

Definition with_lineages self (lineages : LineageDroppingCtx) : t :=
  Mk (config self) (physical_chunks_per_chunk_id self) (physical_chunk_ids_per_min_row_id self) lineages
    (temporal_chunk_ids_per_entity_per_component self) (temporal_chunk_ids_per_entity self)
    (temporal_physical_chunks_stats self) (static_chunk_ids_per_entity self) (static_chunks_stats self)
    (queried_chunk_id_tracker self) (insert_id self) (gc_id self) (event_id self).

Definition with_indices self
    (per_component : gmap (list string) (gmap string (gmap string ChunkIdSetPerTime.t)))
    (per_entity : gmap (list string) (gmap string ChunkIdSetPerTime.t)) : t :=
  Mk (config self) (physical_chunks_per_chunk_id self) (physical_chunk_ids_per_min_row_id self) (lineages self)
    per_component per_entity
    (temporal_physical_chunks_stats self) (static_chunk_ids_per_entity self) (static_chunks_stats self)
    (queried_chunk_id_tracker self) (insert_id self) (gc_id self) (event_id self).

Definition with_temporal_stats self (stats : ChunkStoreChunkStats.t) : t :=
  Mk (config self) (physical_chunks_per_chunk_id self) (physical_chunk_ids_per_min_row_id self) (lineages self)
    (temporal_chunk_ids_per_entity_per_component self) (temporal_chunk_ids_per_entity self)
    stats (static_chunk_ids_per_entity self) (static_chunks_stats self)
    (queried_chunk_id_tracker self) (insert_id self) (gc_id self) (event_id self).

Definition with_static self (ids : gmap (list string) (gmap string ChunkId.t)) (stats : ChunkStoreChunkStats.t) : t :=
  Mk (config self) (physical_chunks_per_chunk_id self) (physical_chunk_ids_per_min_row_id self) (lineages self)
    (temporal_chunk_ids_per_entity_per_component self) (temporal_chunk_ids_per_entity self)
    (temporal_physical_chunks_stats self) ids stats
    (queried_chunk_id_tracker self) (insert_id self) (gc_id self) (event_id self).

Definition with_ids self (insert_id gc_id event_id : Z) : t :=
  Mk (config self) (physical_chunks_per_chunk_id self) (physical_chunk_ids_per_min_row_id self) (lineages self)
    (temporal_chunk_ids_per_entity_per_component self) (temporal_chunk_ids_per_entity self)
    (temporal_physical_chunks_stats self) (static_chunk_ids_per_entity self) (static_chunks_stats self)
    (queried_chunk_id_tracker self) insert_id gc_id event_id.

(** [ChunkStore::new]. *)
Definition empty_tracker : QueriedChunkIdTracker :=
  {| used_physical := ∅; transient_used_physical := ∅; missing_virtual_ids := ∅;
     transient_missing_virtual := ∅; indicated_virtual := ∅ |}.

Definition new (config : ChunkStoreConfig.t) : t :=
  Mk config ∅ ∅ (Ctx ∅ ∅ ∅ ∅) ∅ ∅ ChunkStoreChunkStats.default_ ∅ ChunkStoreChunkStats.default_
    empty_tracker 0 0 0.

(** *** [QueryResults] *)

Definition is_partial (r : QueryResults) : bool := negb (bool_decide (missing_virtual r = [])).
Definition results_is_empty (r : QueryResults) : bool :=
  bool_decide (length (chunks r) = 0%nat) && bool_decide (missing_virtual r = []).
Definition to_iter (r : QueryResults) : option (list Chunk.t) :=
  if bool_decide (missing_virtual r = []) then Some (chunks r) else None.

(** The loop over the ids. *)
Fixpoint collect_chunks self (report_mode : ChunkTrackingMode) (chunk_ids : list ChunkId.t)
    (this : QueryResults) : outcome QueryResults :=
  match chunk_ids with
  | [] => Done this
  | chunk_id :: chunk_ids =>
      match physical_chunks_per_chunk_id self !! chunk_id with
      | Some chunk =>
          collect_chunks self report_mode chunk_ids (Results (chunks this ++ [chunk]) (missing_virtual this))
      | None =>
          match report_mode with
          | Ignore => collect_chunks self report_mode chunk_ids this
          | Report | ReportTransient =>
              collect_chunks self report_mode chunk_ids
                (Results (chunks this) (missing_virtual this ++ [chunk_id]))
          | PanicOnMissing => Panic
          end
      end
  end.

Definition track (tracker : QueriedChunkIdTracker) (report_mode : ChunkTrackingMode) (this : QueryResults)
    : QueriedChunkIdTracker :=
  let used : gset ChunkId.t := list_to_set (Chunk.id <$> chunks this) in
  let missing : gset ChunkId.t := list_to_set (missing_virtual this) in
  match report_mode with
  | Report =>
      {| used_physical := used_physical tracker ∪ used;
         transient_used_physical := transient_used_physical tracker;
         missing_virtual_ids := missing_virtual_ids tracker ∪ missing;
         transient_missing_virtual := transient_missing_virtual tracker;
         indicated_virtual := indicated_virtual tracker |}
  | ReportTransient =>
      {| used_physical := used_physical tracker;
         transient_used_physical := transient_used_physical tracker ∪ used;
         missing_virtual_ids := missing_virtual_ids tracker;
         transient_missing_virtual := transient_missing_virtual tracker ∪ missing;
         indicated_virtual := indicated_virtual tracker |}
  | _ => tracker
  end.

(** [from_chunk_ids], with the store's updated tracker.  The messages logged about chunks
    that were split have no effect on the result. *)
Definition from_chunk_ids self (report_mode : ChunkTrackingMode) (chunk_ids : list ChunkId.t)
    : outcome (QueryResults * t) :=
  this ← collect_chunks self report_mode chunk_ids (Results [] []);
  _ ← (if decide (report_mode = Report \/ report_mode = ReportTransient)
       then debug_assert (forallb (fun id => bool_decide (is_Some (chunks_lineage (lineages self) !! id))) (missing_virtual this))
       else Done ());
  _ ← debug_assert (bool_decide (NoDup ((Chunk.id <$> chunks this) ++ missing_virtual this)));
  Done (this, with_tracker self (track (queried_chunk_id_tracker self) report_mode this)).

(** *** Relevant chunks *)

Definition latest_at (query : LatestAtQuery.t) (index : ChunkIdSetPerTime.t) : option (list ChunkId.t) :=
  ChunkIdSetPerTime.latest_at (LatestAtQuery.at_ query) index.

Definition range (query : RangeQuery.t) (indices : list ChunkIdSetPerTime.t) : list ChunkId.t :=
  ChunkIdSetPerTime.range (RangeQuery.range query)
    (RangeQuery.include_extended_bounds (RangeQuery.options query)) indices.

Definition static_chunk_id self (entity_path : EntityPath) (component : ComponentIdentifier) : option ChunkId.t :=
  per_component ← static_chunk_ids_per_entity self !! entity_path;
  per_component !! component.

(** The index of a component of an entity on a timeline. *)
Definition component_index self (entity_path : EntityPath) (timeline : option TimelineName)
    (component : ComponentIdentifier) : option ChunkIdSetPerTime.t :=
  per_timeline ← temporal_chunk_ids_per_entity_per_component self !! entity_path;
  timeline ← timeline;
  per_component ← per_timeline !! timeline;
  per_component !! component.

Definition timeline_index self (entity_path : EntityPath) (timeline : option TimelineName)
    : option ChunkIdSetPerTime.t :=
  per_timeline ← temporal_chunk_ids_per_entity self !! entity_path;
  timeline ← timeline;
  per_timeline !! timeline.

Definition latest_at_relevant_chunks self (report_mode : ChunkTrackingMode) (query : LatestAtQuery.t)
    (entity_path : EntityPath) (component : ComponentIdentifier) : outcome (QueryResults * t) :=
  match static_chunk_id self entity_path component with
  | Some static_chunk_id => from_chunk_ids self report_mode [static_chunk_id]
  | None =>
      let chunk_ids :=
        default [] (component_index self entity_path (LatestAtQuery.timeline query) component
                      ≫= latest_at query) in
      from_chunk_ids self report_mode chunk_ids
  end.

(** [Itertools::unique]. *)
Fixpoint unique (seen : gset ChunkId.t) (l : list ChunkId.t) : list ChunkId.t :=
  match l with
  | [] => []
  | x :: l => if decide (x ∈ seen) then unique seen l else x :: unique ({[x]} ∪ seen) l
  end.

(** The indices of the components that have no static data. *)
Definition temporal_indices self (entity_path : EntityPath) (timeline : option TimelineName)
    (static_chunks_per_component : gmap string ChunkId.t) : list ChunkIdSetPerTime.t :=
  match (per_timeline ← temporal_chunk_ids_per_entity_per_component self !! entity_path;
         timeline ← timeline;
         per_timeline !! timeline) with
  | None => []
  | Some per_component =>
      omap (fun '(component, index) =>
        if decide (is_Some (static_chunks_per_component !! component)) then None else Some index)
        (map_to_list per_component)
  end.

Definition latest_at_relevant_chunks_for_all_components self (report_mode : ChunkTrackingMode)
    (query : LatestAtQuery.t) (entity_path : EntityPath) (include_static : bool)
    : outcome (QueryResults * t) :=
  let chunk_ids :=
    if include_static then
      let static_chunks_per_component := default ∅ (static_chunk_ids_per_entity self !! entity_path) in
      let static_chunk_ids := (map_to_list static_chunks_per_component).*2 in
      let temporal_chunk_ids :=
        temporal_indices self entity_path (LatestAtQuery.timeline query) static_chunks_per_component
          ≫= fun index => default [] (latest_at query index) in
      unique ∅ (static_chunk_ids ++ temporal_chunk_ids)
    else default [] (timeline_index self entity_path (LatestAtQuery.timeline query) ≫= latest_at query) in
  from_chunk_ids self report_mode chunk_ids.

(** [results.chunks] after the post-processing filter. *)
Definition filter_chunks (p : Chunk.t -> bool) (r : QueryResults * t) : QueryResults * t :=
  (Results (List.filter p (chunks (fst r))) (missing_virtual (fst r)), snd r).

Definition range_relevant_chunks self (report_mode : ChunkTrackingMode) (query : RangeQuery.t)
    (entity_path : EntityPath) (component : ComponentIdentifier) : outcome (QueryResults * t) :=
  match static_chunk_id self entity_path component with
  | Some static_chunk_id => from_chunk_ids self report_mode [static_chunk_id]
  | None =>
      let chunk_ids := range query
        (option_list (component_index self entity_path (Some (RangeQuery.timeline query)) component)) in
      results ← from_chunk_ids self report_mode chunk_ids;
      Done (filter_chunks (fun chunk =>
        match Chunk.timelines chunk !! RangeQuery.timeline query with
        | None => false
        | Some time_column =>
            match TimeColumn.time_range_per_component time_column (Chunk.components chunk) !! component with
            | None => false
            | Some time_range => AbsoluteTimeRange.intersects time_range (RangeQuery.range query)
            end
        end) results)
  end.

Definition range_relevant_chunks_for_all_components self (report_mode : ChunkTrackingMode)
    (query : RangeQuery.t) (entity_path : EntityPath) (include_static : bool)
    : outcome (QueryResults * t) :=
  let timeline := Some (RangeQuery.timeline query) in
  let chunk_ids :=
    if include_static then
      let static_chunks_per_component := default ∅ (static_chunk_ids_per_entity self !! entity_path) in
      let static_chunk_ids := (map_to_list static_chunks_per_component).*2 in
      let temporal_chunk_ids :=
        range query (temporal_indices self entity_path timeline static_chunks_per_component) in
      unique ∅ (static_chunk_ids ++ temporal_chunk_ids)
    else range query (option_list (timeline_index self entity_path timeline)) in
  results ← from_chunk_ids self report_mode chunk_ids;
  Done (filter_chunks (fun chunk =>
    (Chunk.is_static chunk && include_static)
    || match Chunk.timelines chunk !! RangeQuery.timeline query with
       | None => false
       | Some time_column =>
           AbsoluteTimeRange.intersects (TimeColumn.time_range time_column) (RangeQuery.range query)
       end) results).

(** *** Times *)

Definition opt_min (a b : option TimeInt.t) : option TimeInt.t :=
  match a, b with
  | Some a, Some b => Some (TimeInt.min a b)
  | Some a, None => Some a
  | None, b => b
  end.

Definition opt_max (a b : option TimeInt.t) : option TimeInt.t :=
  match a, b with
  | Some a, Some b => Some (TimeInt.max a b)
  | Some a, None => Some a
  | None, b => b
  end.

Definition search_chunk_by_time self (timeline : TimelineName) (chunk_id : ChunkId.t)
    (search : TimeColumn.t -> option TimeInt.t) : option TimeInt.t :=
  chunk ← physical_chunks_per_chunk_id self !! chunk_id;
  time_col ← Chunk.timelines chunk !! timeline;
  search time_col.

(** The loop over the ids of one index entry. *)
Definition search_entry self (timeline : TimelineName) (op : option TimeInt.t -> option TimeInt.t -> option TimeInt.t)
    (search : TimeColumn.t -> option TimeInt.t) (result : option TimeInt.t) (chunk_ids : gset ChunkId.t)
    : option TimeInt.t :=
  foldl (fun result chunk_id => op result (search_chunk_by_time self timeline chunk_id search)) result
    (set_iter chunk_ids).

(** A loop over index entries that stops at the first one [stop] says cannot improve. *)
Fixpoint search_until self timeline op search (stop : TimeInt.t -> TimeInt.t -> bool)
    (result : option TimeInt.t) (l : list (TimeInt.t * gset ChunkId.t)) : option TimeInt.t :=
  match l with
  | [] => result
  | (time, chunk_ids) :: l =>
      if from_option (fun r => stop r time) false result then result
      else search_until self timeline op search stop (search_entry self timeline op search result chunk_ids) l
  end.

Definition search_all self timeline op search (result : option TimeInt.t)
    (l : list (TimeInt.t * gset ChunkId.t)) : option TimeInt.t :=
  foldl (fun result '(_, chunk_ids) => search_entry self timeline op search result chunk_ids) result l.

Definition next_time_on_timeline self (timeline : TimelineName) (after : TimeInt.t) : option TimeInt.t :=
  foldl (fun result per_timeline =>
    match per_timeline !! timeline with
    | None => result
    | Some per_time =>
        let search tc := TimeColumn.find_next_time tc after in
        let later := List.filter (fun '(time, _) => TimeInt.lt after time)
                       (entries (ChunkIdSetPerTime.per_start_time per_time)) in
        let result := search_until self timeline opt_min search TimeInt.le result later in
        search_all self timeline opt_min search result
          (rev (range_to (ChunkIdSetPerTime.per_start_time per_time) after))
    end) None (map_to_list (temporal_chunk_ids_per_entity self)).*2.

Definition prev_time_on_timeline self (timeline : TimelineName) (before : TimeInt.t) : option TimeInt.t :=
  foldl (fun result per_timeline =>
    match per_timeline !! timeline with
    | None => result
    | Some per_time =>
        let search tc := TimeColumn.find_prev_time tc before in
        let earlier := List.filter (fun '(time, _) => TimeInt.lt time before)
                         (entries (ChunkIdSetPerTime.per_end_time per_time)) in
        let result := search_until self timeline opt_max search (fun r time => TimeInt.le time r) result
                        (rev earlier) in
        search_all self timeline opt_max search result
          (List.filter (fun '(time, _) => TimeInt.le before time)
             (entries (ChunkIdSetPerTime.per_end_time per_time)))
    end) None (map_to_list (temporal_chunk_ids_per_entity self)).*2.

(** From the first start to the last end of an index. *)
Definition index_time_range (per_time : ChunkIdSetPerTime.t) : option AbsoluteTimeRange.t :=
  start ← fst <$> head (entries (ChunkIdSetPerTime.per_start_time per_time));
  end_ ← fst <$> last (entries (ChunkIdSetPerTime.per_end_time per_time));
  Some (AbsoluteTimeRange.new (Ok start) (Ok end_)).

Definition entity_time_range self (timeline : TimelineName) (entity_path : EntityPath)
    : option AbsoluteTimeRange.t :=
  timeline_index self entity_path (Some timeline) ≫= index_time_range.

Definition time_range self (timeline : TimelineName) : option AbsoluteTimeRange.t :=
  match omap (fun per_timeline => (per_timeline : gmap string ChunkIdSetPerTime.t) !! timeline ≫= index_time_range)
          (map_to_list (temporal_chunk_ids_per_entity self)).*2 with
  | [] => None
  | r :: rs => Some (foldl AbsoluteTimeRange.union r rs)
  end.

Definition entity_min_time self (timeline : TimelineName) (entity_path : EntityPath) : option TimeInt.t :=
  per_timeline ← temporal_chunk_ids_per_entity_per_component self !! entity_path;
  per_component ← per_timeline !! timeline;
  let time_min := foldl (fun time_min index =>
      match head (entries (ChunkIdSetPerTime.per_start_time index)) with
      | Some (time, _) => TimeInt.min time_min time
      | None => time_min
      end) TimeInt.MAX (map_to_list (per_component : gmap string ChunkIdSetPerTime.t)).*2 in
  if bool_decide (time_min = TimeInt.MAX) then None else Some time_min.

(** *** Indexing a temporal chunk

    The two insertion scopes of [insert_chunk_impl] for the chunk [chunk_or_compacted]. *)

(** [entry(key).or_default()] for every key of [new], updated with its value. *)
Definition update_index {A} (old : gmap string ChunkIdSetPerTime.t) (new : gmap string A)
    (range_of : A -> AbsoluteTimeRange.t) (id : ChunkId.t) : gmap string ChunkIdSetPerTime.t :=
  merge (fun index new =>
    match new with
    | None => index
    | Some new => Some (ChunkIdSetPerTime.insert (default ChunkIdSetPerTime.empty index) (range_of new) id)
    end) old new.

Definition index_temporal self (chunk : Chunk.t) : t :=
  let path := Chunk.entity_path chunk in
  let per_component_per_timeline :=
    merge (fun old new =>
      match new with
      | None => old
      | Some ranges => Some (update_index (default ∅ old) ranges (fun r => r) (Chunk.id chunk))
      end)
      (default ∅ (temporal_chunk_ids_per_entity_per_component self !! path))
      (Chunk.time_range_per_component chunk) in
  let per_timeline :=
    update_index (default ∅ (temporal_chunk_ids_per_entity self !! path)) (Chunk.timelines chunk)
      TimeColumn.time_range (Chunk.id chunk) in
  with_indices self
    (<[path := per_component_per_timeline]> (temporal_chunk_ids_per_entity_per_component self))
    (<[path := per_timeline]> (temporal_chunk_ids_per_entity self)).

(** The insertion into the maps of physical chunks. *)
Definition insert_physical self (chunk : Chunk.t) : t :=
  with_physical self (<[Chunk.id chunk := chunk]> (physical_chunks_per_chunk_id self))
    (match Chunk.row_id_range chunk with
     | None => physical_chunk_ids_per_min_row_id self
     | Some (min_row_id, _) => {[(min_row_id, Chunk.id chunk)]} ∪ physical_chunk_ids_per_min_row_id self
     end).

End Operations.

End ChunkStore.

(** ** The store of a list of chunks *)

Section Indexed.

Import ChunkStore.
Context `{Build} `{ArrowLaws} `{!Chunk.SizeBytes}.
Implicit Types st : ChunkStore.t.
Implicit Types c : Chunk.t.

(** The ranges the chunks [cs] are indexed under, for a component and for a whole timeline. *)
Definition component_range c (timeline component : string) : option AbsoluteTimeRange.t :=
  ranges ← Chunk.time_range_per_component c !! timeline;
  ranges !! component.

Definition component_ranges (cs : list Chunk.t) (path : list string) (timeline component : string)
    : list (ChunkId.t * AbsoluteTimeRange.t) :=
  omap (fun c => if decide (Chunk.entity_path c = path)
                 then pair (Chunk.id c) <$> component_range c timeline component else None) cs.

Definition timeline_ranges (cs : list Chunk.t) (path : list string) (timeline : string)
    : list (ChunkId.t * AbsoluteTimeRange.t) :=
  omap (fun c => if decide (Chunk.entity_path c = path)
                 then (fun tc => (Chunk.id c, TimeColumn.time_range tc)) <$> Chunk.timelines c !! timeline
                 else None) cs.

(** The store's indices describe the temporal chunks [cs], in memory or not. *)
Definition virtual_indexes st (cs : list Chunk.t) : Prop :=
  (forall path timeline component,
     represents (default ChunkIdSetPerTime.empty (component_index st path (Some timeline) component))
       (component_ranges cs path timeline component))
  /\ (forall path timeline,
     represents (default ChunkIdSetPerTime.empty (timeline_index st path (Some timeline)))
       (timeline_ranges cs path timeline)).

(** The chunks are all in memory, too. *)
Definition indexes st (cs : list Chunk.t) : Prop :=
  virtual_indexes st cs
  /\ (forall c, c ∈ cs -> physical_chunks_per_chunk_id st !! Chunk.id c = Some c).

Lemma lookup_update_index {A} (old : gmap string ChunkIdSetPerTime.t) (new : gmap string A) f id k :
  update_index old new f id !! k =
    match new !! k with
    | None => old !! k
    | Some x => Some (ChunkIdSetPerTime.insert (default ChunkIdSetPerTime.empty (old !! k)) (f x) id)
    end.
Proof. unfold update_index. rewrite lookup_merge. unfold diag_None. by destruct (old !! k), (new !! k). Qed.

Lemma component_index_temporal st c path timeline component :
  component_index (index_temporal st c) path (Some timeline) component =
    match (if decide (Chunk.entity_path c = path) then component_range c timeline component else None) with
    | None => component_index st path (Some timeline) component
    | Some r => Some (ChunkIdSetPerTime.insert
        (default ChunkIdSetPerTime.empty (component_index st path (Some timeline) component)) r (Chunk.id c))
    end.
Proof.
  unfold component_index, index_temporal, component_range. cbn [with_indices temporal_chunk_ids_per_entity_per_component].
  case_decide as Hp; [subst path|by rewrite lookup_insert_ne].
  rewrite lookup_insert_eq. cbn [mbind option_bind]. rewrite lookup_merge. unfold diag_None.
  destruct (temporal_chunk_ids_per_entity_per_component st !! Chunk.entity_path c) as [per_timeline|]; simpl.
  - destruct (per_timeline !! timeline) as [old|], (Chunk.time_range_per_component c !! timeline) as [rs|];
      simpl; rewrite ?lookup_update_index; simpl; rewrite ?lookup_empty; by try destruct (rs !! component).
  - rewrite lookup_empty. destruct (Chunk.time_range_per_component c !! timeline) as [rs|];
      simpl; rewrite ?lookup_update_index; simpl; rewrite ?lookup_empty; by try destruct (rs !! component).
Qed.

Lemma timeline_index_temporal st c path timeline :
  timeline_index (index_temporal st c) path (Some timeline) =
    match (if decide (Chunk.entity_path c = path) then Chunk.timelines c !! timeline else None) with
    | None => timeline_index st path (Some timeline)
    | Some tc => Some (ChunkIdSetPerTime.insert
        (default ChunkIdSetPerTime.empty (timeline_index st path (Some timeline))) (TimeColumn.time_range tc)
        (Chunk.id c))
    end.
Proof.
  unfold timeline_index, index_temporal. cbn [with_indices temporal_chunk_ids_per_entity].
  case_decide as Hp; [subst path|by rewrite lookup_insert_ne].
  rewrite lookup_insert_eq. cbn [mbind option_bind]. rewrite lookup_update_index.
  destruct (temporal_chunk_ids_per_entity st !! Chunk.entity_path c) as [per_timeline|]; simpl;
    rewrite ?lookup_empty; by destruct (Chunk.timelines c !! timeline).
Qed.

Lemma virtual_indexes_temporal st cs c : virtual_indexes st cs -> virtual_indexes (index_temporal st c) (c :: cs).
Proof.
  intros (Hc & Ht). split.
  - intros path timeline component. rewrite component_index_temporal. unfold component_ranges. csimpl.
    specialize (Hc path timeline component). case_decide; [|done].
    destruct (component_range c timeline component) as [r|]; [|done]. by apply represents_insert.
  - intros path timeline. rewrite timeline_index_temporal. unfold timeline_ranges. csimpl.
    specialize (Ht path timeline). case_decide; [|done].
    destruct (Chunk.timelines c !! timeline) as [tc|]; [|done]. by apply represents_insert.
Qed.

(** The indices are all that [virtual_indexes] looks at. *)
Lemma virtual_indexes_ext st st' cs :
  temporal_chunk_ids_per_entity_per_component st' = temporal_chunk_ids_per_entity_per_component st ->
  temporal_chunk_ids_per_entity st' = temporal_chunk_ids_per_entity st ->
  virtual_indexes st cs -> virtual_indexes st' cs.
Proof.
  intros Ec Et [Hc Ht]. split; [intros path timeline component; specialize (Hc path timeline component)|
    intros path timeline; specialize (Ht path timeline)]; unfold component_index, timeline_index in *.
  - by rewrite Ec.
  - by rewrite Et.
Qed.

Lemma indexes_temporal st cs c : indexes st cs ->
  (forall c', c' ∈ cs -> Chunk.id c' <> Chunk.id c) -> indexes (insert_physical (index_temporal st c) c) (c :: cs).
Proof.
  intros (Hv & Hp) Hfresh. split.
  - eapply virtual_indexes_ext; [| |by apply virtual_indexes_temporal]; done.
  - intros c' [->|Hin]%elem_of_cons; cbn [insert_physical with_physical index_temporal with_indices physical_chunks_per_chunk_id].
    + apply lookup_insert_eq.
    + rewrite lookup_insert_ne; [by apply Hp|]. intros E. by apply (Hfresh c' Hin).
Qed.

Lemma indexes_empty config : indexes (ChunkStore.new config) [].
Proof.
  split; [split|by intros c Hc%elem_of_nil]; intros path timeline.
  - intros component. apply represents_empty.
  - apply represents_empty.
Qed.

(** Indexing a temporal chunk adds it, under the time range of each of its components and of
    each of its timelines, to what the indices represent; the ranges of other chunks, of other
    entities and timelines stay as they are. *)
Lemma index_temporal_spec st cs c : indexes st cs ->
  (forall c', c' ∈ cs -> Chunk.id c' <> Chunk.id c) -> indexes (insert_physical (index_temporal st c) c) (c :: cs).
Proof. apply indexes_temporal. Qed.

(** *** Queries *)

Lemma collect_physical st mode ids this : Forall (fun id => is_Some (physical_chunks_per_chunk_id st !! id)) ids ->
  collect_chunks st mode ids this
    = Done (Results (chunks this ++ omap (fun id => physical_chunks_per_chunk_id st !! id) ids)
        (missing_virtual this)).
Proof.
  intros Hf. revert this. induction Hf as [|id ids [c Hc] Hf IH]; intros [cs ms]; simpl; [by rewrite app_nil_r|].
  rewrite Hc, IH. simpl. by rewrite <- app_assoc.
Qed.

(** Looking up distinct chunks that are all in memory. *)
Lemma from_physical_ids st mode ids : NoDup ids ->
  (forall id, id ∈ ids -> exists c, physical_chunks_per_chunk_id st !! id = Some c /\ Chunk.id c = id) ->
  exists st', from_chunk_ids st mode ids
    = Done (Results (omap (fun id => physical_chunks_per_chunk_id st !! id) ids) [], st').
Proof.
  intros Hnd Hall. unfold from_chunk_ids.
  rewrite collect_physical by (apply Forall_forall; intros id Hid; destruct (Hall id Hid) as (c & -> & _); by eexists).
  cbn [mbind outcome_bind chunks missing_virtual app].
  assert (Chunk.id <$> omap (fun id => physical_chunks_per_chunk_id st !! id) ids = ids) as Hids.
  { clear Hnd. induction ids as [|id ids IH]; [done|]. destruct (Hall id ltac:(left)) as (c & Hc & Hid).
    csimpl. rewrite Hc. csimpl. rewrite Hid, IH; [done|]. intros id' Hin. apply Hall. by right. }
  rewrite Hids, app_nil_r, bool_decide_true by done. unfold debug_assert.
  eexists. by destruct (decide _), debug_assertions.
Qed.

Lemma elem_of_component_ranges cs path timeline component id r :
  (id, r) ∈ component_ranges cs path timeline component <->
  exists c, c ∈ cs /\ Chunk.id c = id /\ Chunk.entity_path c = path
    /\ component_range c timeline component = Some r.
Proof.
  unfold component_ranges. rewrite list_elem_of_omap. split.
  - intros (c & Hin & Hc). case_decide; [|done]. exists c.
    destruct (component_range c timeline component); [|done]. by injection Hc as <- <-.
  - intros (c & Hin & <- & <- & Hr). exists c. split; [done|]. rewrite decide_True by done. by rewrite Hr.
Qed.

Lemma same_chunk cs c c' : NoDup (Chunk.id <$> cs) -> c ∈ cs -> c' ∈ cs -> Chunk.id c = Chunk.id c' -> c = c'.
Proof.
  intros Hnd [i Hi]%list_elem_of_lookup_1 [j Hj]%list_elem_of_lookup_1 Hid.
  assert (i = j) as ->; [|congruence].
  apply (NoDup_lookup _ i j (Chunk.id c) Hnd); rewrite list_lookup_fmap; [by rewrite Hi|by rewrite Hj, Hid].
Qed.

(** What a well-formed chunk is indexed under. *)
Lemma component_range_rows c timeline tc component column :
  chunk_wf c -> Chunk.num_rows c <> 0%nat -> Chunk.timelines c !! timeline = Some tc ->
  Chunk.components c !! component = Some column ->
  exists r, component_range c timeline component = Some r
    /\ (forall s, s ∈ rows c -> has_cell component s ->
         TimeInt.as_i64 (AbsoluteTimeRange.rmin r) <= time_of timeline s
           <= TimeInt.as_i64 (AbsoluteTimeRange.rmax r))
    /\ (AbsoluteTimeRange.abs_length r <= i64_max -> exists s, s ∈ rows c /\ has_cell component s
         /\ time_of timeline s = TimeInt.as_i64 (AbsoluteTimeRange.rmin r)).
Proof.
  intros Hwf Hn Htc Hk. pose proof (time_of_rows c timeline tc Hwf Htc) as Htimes.
  pose proof (mask_validity_rows c component column Hwf Hk) as Hmask.
  destruct Hwf as (_ & Ht & Hc). destruct (Ht _ _ Htc) as [Hl Hw], (Hc _ _ Hk) as [_ Hll].
  destruct (time_range_per_component_lookup tc (Chunk.components c) component column) as (r & Hr & Htight & Hempty);
    [done|congruence|done|congruence|].
  exists r. split; [|split].
  - unfold component_range, Chunk.time_range_per_component. rewrite lookup_fmap, Htc. simpl. exact Hr.
  - rewrite <- Htimes, <- mask_map, Hmask in Htight. intros s Hs Hcell.
    assert (time_of timeline s ∈ time_of timeline <$> filter (has_cell component) (rows c)) as Hin.
    { apply list_elem_of_fmap. exists s. split; [done|]. by apply list_elem_of_filter. }
    destruct Htight as (_ & _ & Hf); [intros E; rewrite E in Hin; by apply elem_of_nil in Hin|].
    rewrite Forall_forall in Hf. by apply Hf.
  - intros Hlen. rewrite <- Htimes, <- mask_map, Hmask in Htight, Hempty.
    destruct (decide (time_of timeline <$> filter (has_cell component) (rows c) = [])) as [E|E].
    { rewrite (Hempty E) in Hlen. exfalso. revert Hlen. by vm_compute. }
    destruct (Htight E) as (Hmin & _ & _).
    apply list_elem_of_fmap in Hmin as (s & Hs & [Hcell Hin]%list_elem_of_filter). by exists s.
Qed.

(** A row of the store that a latest-at query may return. *)
Definition logged (cs : list Chunk.t) (path : list string) (timeline component : string) (a : Z) c (s : Row) : Prop :=
  c ∈ cs /\ Chunk.entity_path c = path /\ is_Some (Chunk.timelines c !! timeline)
  /\ s ∈ rows c /\ relevant timeline a component s.

(** The chunks a store holds after insertion: well formed, sorted, not empty. *)
Definition stored_chunk c : Prop :=
  chunk_wf c /\ Chunk.num_rows c <> 0%nat /\ Chunk.is_sorted c = true /\ RowId.ZERO ∉ Chunk.row_ids c.

Lemma logged_range cs path timeline component a c s : Forall stored_chunk cs ->
  logged cs path timeline component a c s ->
  exists r, (Chunk.id c, r) ∈ component_ranges cs path timeline component
    /\ TimeInt.as_i64 (AbsoluteTimeRange.rmin r) <= time_of timeline s
         <= TimeInt.as_i64 (AbsoluteTimeRange.rmax r).
Proof.
  intros Hst (Hin & Hp & [tc Htc] & Hs & Hcell & _). rewrite Forall_forall in Hst.
  destruct (Hst c Hin) as (Hwf & Hn & _).
  destruct (Chunk.components c !! component) as [column|] eqn:Hk; [|by destruct (no_column c component s Hk Hs)].
  destruct (component_range_rows c timeline tc component column) as (r & Hr & Hrange & _); [done..|].
  exists r. split; [|by apply Hrange]. apply elem_of_component_ranges. by exists c.
Qed.

(** All of them, with an answer to whether there is any. *)
Definition logged_rows (cs : list Chunk.t) (path : list string) (timeline component : string) (a : Z) : list Row :=
  cs ≫= fun c => if decide (Chunk.entity_path c = path /\ is_Some (Chunk.timelines c !! timeline))
                 then filter (relevant timeline a component) (rows c) else [].

Lemma elem_of_logged_rows cs path timeline component a s :
  s ∈ logged_rows cs path timeline component a <-> exists c, logged cs path timeline component a c s.
Proof.
  unfold logged_rows, logged. rewrite list_elem_of_bind. split.
  - intros (c & Hs & Hc). case_decide as Hd; [|by apply elem_of_nil in Hs].
    apply list_elem_of_filter in Hs as [? ?]. exists c. tauto.
  - intros (c & Hc & Hp & Htl & Hs & Hrel). exists c. rewrite decide_True by done.
    split; [|done]. by apply list_elem_of_filter.
Qed.

(** There is none, or there is a greatest one. *)
Lemma greatest_logged cs path timeline component a :
  (forall c s, ~ logged cs path timeline component a c s)
  \/ exists c m, logged cs path timeline component a c m
     /\ forall c' s, logged cs path timeline component a c' s -> ranks timeline s m.
Proof.
  destruct (iter_max (time_row_le timeline) (logged_rows cs path timeline component a)) as [m|] eqn:Em.
  - right. apply (iter_max_Some (time_row_le timeline)) in Em as [[c Hm]%elem_of_logged_rows Hmax].
    exists c, m. split; [done|]. intros c' s Hlog. rewrite Forall_forall in Hmax.
    apply Hmax, elem_of_logged_rows. by exists c'.
  - left. apply iter_max_None in Em. intros c s Hlog. apply (not_elem_of_nil s). rewrite <- Em.
    apply elem_of_logged_rows. by exists c.
Qed.

(** A start in the index is the time of a row, unless the range is that of a column without
    any value, which is longer than [i64::MAX]. *)
Lemma start_logged cs path timeline component a id r : Forall stored_chunk cs ->
  (id, r) ∈ component_ranges cs path timeline component ->
  AbsoluteTimeRange.abs_length r <= i64_max -> TimeInt.as_i64 (AbsoluteTimeRange.rmin r) <= a ->
  exists c s, logged cs path timeline component a c s /\ Chunk.id c = id
    /\ time_of timeline s = TimeInt.as_i64 (AbsoluteTimeRange.rmin r).
Proof.
  intros Hst Hr Hlen Ha. apply elem_of_component_ranges in Hr as (c & Hin & Hid & Hpath & Hcr).
  rewrite Forall_forall in Hst. destruct (Hst c Hin) as (Hwf & Hn & _). pose proof Hcr as Hcr'.
  unfold component_range, Chunk.time_range_per_component in Hcr'. rewrite lookup_fmap in Hcr'.
  destruct (Chunk.timelines c !! timeline) as [tc|] eqn:Htc; [|done]. simpl in Hcr'.
  unfold TimeColumn.time_range_per_component in Hcr'. rewrite lookup_omap in Hcr'.
  destruct (Chunk.components c !! component) as [column|] eqn:Hk; [|done].
  destruct (component_range_rows c timeline tc component column) as (r' & Hr' & _ & Hex); [done..|].
  assert (r' = r) as -> by congruence. destruct (Hex Hlen) as (s & Hs & Hcell & Ht).
  exists c, s. split; [|done]. split_and!; [done|done|by rewrite Htc|done|split; [done|lia]].
Qed.

Lemma found_NoDup cs path timeline component index a found : NoDup (Chunk.id <$> cs) ->
  represents index (component_ranges cs path timeline component) ->
  ChunkIdSetPerTime.latest_at a index = Some found -> NoDup found.
Proof.
  intros Hnd Hr. apply (latest_at_NoDup index _ a found Hr). intros id r r'.
  rewrite !elem_of_component_ranges. intros (c & Hin & Hid & _ & Hcr) (c' & Hin' & Hid' & _ & Hcr').
  rewrite (same_chunk cs c c' Hnd Hin Hin') in Hcr by congruence. congruence.
Qed.

Lemma ids_of_physical st (cs : list Chunk.t) (ids : list ChunkId.t) : (forall c, c ∈ cs -> physical_chunks_per_chunk_id st !! Chunk.id c = Some c) ->
  (forall id, id ∈ ids -> exists c, c ∈ cs /\ Chunk.id c = id) ->
  Chunk.id <$> omap (fun id => physical_chunks_per_chunk_id st !! id) ids = ids.
Proof.
  intros Hp. induction ids as [|id l IH]; intros Hids; [done|].
  destruct (Hids id ltac:(left)) as (c & Hin & Hid). csimpl. rewrite <- Hid, (Hp c Hin). csimpl.
  f_equal. apply IH. intros id' Hid'. apply Hids. by right.
Qed.

Lemma latest_at_default query (index : option ChunkIdSetPerTime.t) :
  default [] (index ≫= latest_at query)
    = default [] (latest_at query (default ChunkIdSetPerTime.empty index)).
Proof. by destruct index. Qed.

(** The chunks a latest-at query on a component gives: each once, all with a row of the entity
    that the query may return, and among them every chunk that holds a greatest row. *)
Lemma relevant_chunks_spec st cs mode path timeline component a :
  indexes st cs -> NoDup (Chunk.id <$> cs) -> Forall stored_chunk cs ->
  static_chunk_id st path component = None ->
  from_option ChunkIdSetPerTime.max_interval_length 0 (component_index st path (Some timeline) component) <= i64_max ->
  exists results st',
    latest_at_relevant_chunks st mode (LatestAtQuery.Mk (Some timeline) a) path component = Done (results, st')
    /\ missing_virtual results = [] /\ NoDup (Chunk.id <$> chunks results)
    /\ (forall c, c ∈ chunks results -> exists s, logged cs path timeline component (TimeInt.as_i64 a) c s)
    /\ (forall c s, logged cs path timeline component (TimeInt.as_i64 a) c s ->
         (forall c' s', logged cs path timeline component (TimeInt.as_i64 a) c' s' ->
            time_of timeline s' <= time_of timeline s) ->
         c ∈ chunks results).
Proof.
  intros ([Hc _] & Hp) Hnd Hst Hstatic Hlen. unfold latest_at_relevant_chunks. rewrite Hstatic.
  cbn [LatestAtQuery.timeline]. rewrite latest_at_default.
  specialize (Hc path timeline component). set (index := default _ (component_index _ _ _ _)) in *.
  assert (ChunkIdSetPerTime.max_interval_length index <= i64_max) as Hlen'
    by (unfold index; by destruct (component_index st path (Some timeline) component)).
  pose proof (latest_at_rows_of_index index _ a Hc Hlen') as Hfound.
  unfold latest_at. cbn [LatestAtQuery.at_]. set (found := default [] (ChunkIdSetPerTime.latest_at a index)).
  assert (NoDup found) as Hndf.
  { unfold found. destruct (ChunkIdSetPerTime.latest_at a index) eqn:E; [|constructor]. by eapply found_NoDup. }
  assert (forall id r, (id, r) ∈ component_ranges cs path timeline component -> AbsoluteTimeRange.abs_length r <= i64_max) as Hshort.
  { intros id r Hr. destruct Hc as (_ & _ & _ & Hl). specialize (Hl _ _ Hr). lia. }
  assert (forall id, id ∈ found -> exists c s, logged cs path timeline component (TimeInt.as_i64 a) c s /\ Chunk.id c = id) as Hids.
  { intros id Hid. unfold found in Hid.
    destruct (ChunkIdSetPerTime.latest_at a index) as [l|]; [|by apply elem_of_nil in Hid].
    destruct Hfound as (upper & _ & _ & _ & Hsound & _). destruct (Hsound id Hid) as (r & Hr & Hra).
    destruct (start_logged cs path timeline component _ id r Hst Hr (Hshort _ _ Hr) Hra) as (c & s & ? & ? & _). by exists c, s. }
  destruct (from_physical_ids st mode found Hndf) as (st' & Hres).
  { intros id Hid. destruct (Hids id Hid) as (c & s & Hlog & <-). exists c. by rewrite (Hp c) by apply Hlog. }
  eexists _, st'. split; [exact Hres|]. cbn [chunks missing_virtual]. split_and!; [done| | |].
  - rewrite (ids_of_physical st cs); [done|done|]. intros id Hid. destruct (Hids id Hid) as (c & s & Hlog & ?). exists c. split; [apply Hlog|done].
  - intros c (id & Hid & Hphys)%list_elem_of_omap. destruct (Hids id Hid) as (c' & s & Hlog & <-).
    rewrite (Hp c') in Hphys by apply Hlog. injection Hphys as <-. by exists s.
  - intros c s Hlog Hmax. apply list_elem_of_omap. exists (Chunk.id c). split; [|by apply Hp, Hlog].
    destruct (logged_range cs path timeline component _ c s Hst Hlog) as (r & Hr & Hrange).
    assert (time_of timeline s <= TimeInt.as_i64 a) as Hsa by apply Hlog.
    unfold found. destruct (ChunkIdSetPerTime.latest_at a index) as [l|]; [|specialize (Hfound _ _ Hr); lia].
    destruct Hfound as (upper & (id' & r' & Hr' & Hup) & Hua & _ & _ & Hcomplete).
    apply (Hcomplete (Chunk.id c) r Hr); [lia|].
    destruct (start_logged cs path timeline component (TimeInt.as_i64 a) id' r') as (c' & s' & Hlog' & _ & Ht');
      [done|done|by apply (Hshort id')|by rewrite Hup|].
    specialize (Hmax c' s' Hlog'). rewrite Ht', Hup in Hmax. lia.
Qed.

(** The query and the answers of its chunks. *)
Lemma store_latest_at_ok st cs mode path timeline component a new_id :
  indexes st cs -> NoDup (Chunk.id <$> cs) -> Forall stored_chunk cs ->
  static_chunk_id st path component = None -> a <> TimeInt.STATIC ->
  from_option ChunkIdSetPerTime.max_interval_length 0 (component_index st path (Some timeline) component) <= i64_max ->
  let query := LatestAtQuery.Mk (Some timeline) a in
  exists results st',
    latest_at_relevant_chunks st mode query path component = Done (results, st')
    /\ missing_virtual results = [] /\ NoDup (Chunk.id <$> chunks results)
    /\ (forall c, c ∈ chunks results -> c ∈ cs /\ Chunk.entity_path c = path)
    /\ ((forall c s, ~ logged cs path timeline component (TimeInt.as_i64 a) c s)
        \/ exists c u r, c ∈ chunks results
            /\ ChunkQuery.latest_at new_id c query component = Done (Some u)
            /\ rows (UnitChunk.chunk u) = [r]
            /\ logged cs path timeline component (TimeInt.as_i64 a) c r
            /\ forall c' s, logged cs path timeline component (TimeInt.as_i64 a) c' s -> ranks timeline s r).
Proof.
  intros Hix Hnd Hst Hstatic Ha Hlen query.
  destruct (relevant_chunks_spec st cs mode path timeline component a) as (results & st' & Hres & Hm & Hnd' & Hsound & Hcomplete);
    [done..|]. exists results, st'. split_and!; [done..| |].
  { intros c (s & ? & ? & _)%Hsound. done. }
  destruct (greatest_logged cs path timeline component (TimeInt.as_i64 a)) as [Hnone|(c & m & Hlog & Hmax)];
    [by left|right].
  assert (c ∈ chunks results) as Hin.
  { apply (Hcomplete c m Hlog). intros c' s' Hlog'. specialize (Hmax c' s' Hlog'). rewrite ranks_key in Hmax.
    unfold key_le in Hmax. lia. }
  pose proof Hlog as (Hcs & Hpath & [tc Htc] & Hmr & Hrel). rewrite Forall_forall in Hst.
  destruct (Hst c Hcs) as (Hwf & Hn & Hsorted & Hz).
  destruct (latest_at_temporal_rows new_id c timeline a component tc) as (o & Ho & Hspec); [done..|].
  destruct o as [u|]; [|by destruct (Hspec m Hmr)].
  destruct Hspec as (r & Hu & Hr & _ & _ & Hcell & Hbest & Hlate).
  assert (relevant timeline (TimeInt.as_i64 a) component r) as Hrr.
  { split; [done|]. destruct (Z.le_gt_cases (time_of timeline r) (TimeInt.as_i64 a)) as [|Hgt]; [done|].
    destruct (Hlate ltac:(lia)) as (_ & _ & Hno). by destruct (Hno m Hmr). }
  exists c, u, r. split_and!; [done|done|done|split_and!; try done; by rewrite Htc|].
  intros c' s Hlog'. unfold ranks. apply (le_trans s m r); [by apply (Hmax c')|].
  apply (Hbest m Hmr Hrel). by left.
Qed.

(** A latest-at query answered through the store: the indices give the relevant chunks, and
    [Chunk::latest_at] a row of each. When the entity has no static data for the component, is
    indexed on the timeline with intervals no longer than [i64::MAX], and holds only sorted
    chunks in memory, then either no row of the entity has the component at or before the
    queried time, or one of the rows so obtained is the greatest of them all by time and row id.
    *)
Lemma store_latest_at_spec st cs mode path timeline component a new_id :
  indexes st cs -> NoDup (Chunk.id <$> cs) -> Forall stored_chunk cs ->
  static_chunk_id st path component = None -> a <> TimeInt.STATIC ->
  from_option ChunkIdSetPerTime.max_interval_length 0 (component_index st path (Some timeline) component) <= i64_max ->
  let query := LatestAtQuery.Mk (Some timeline) a in
  exists results st',
    latest_at_relevant_chunks st mode query path component = Done (results, st')
    /\ missing_virtual results = [] /\ NoDup (Chunk.id <$> chunks results)
    /\ (forall c, c ∈ chunks results -> c ∈ cs /\ Chunk.entity_path c = path)
    /\ ((forall c s, ~ logged cs path timeline component (TimeInt.as_i64 a) c s)
        \/ exists c u r, c ∈ chunks results
            /\ ChunkQuery.latest_at new_id c query component = Done (Some u)
            /\ rows (UnitChunk.chunk u) = [r]
            /\ logged cs path timeline component (TimeInt.as_i64 a) c r
            /\ forall c' s, logged cs path timeline component (TimeInt.as_i64 a) c' s -> ranks timeline s r).
Proof. apply store_latest_at_ok. Qed.

End Indexed.
