(* ===== verification/StoreGc.v ===== *)
(** * Removing chunks from the store

    [dl_chunk_store/src/gc.rs]: the surgical removals and garbage collection, the order in which
    it collects ([find_temporal_chunks_furthest_from] of [query.rs]), and from [events.rs] what
    a deletion reports.

    The clock is only read to see whether a time budget is exhausted: [exhausted n] says so for
    the [n]-th time it is asked, and a budget of [Duration::MAX] never is.  [DropAtLeastFraction]
    multiplies in [f64], which is the binary64 arithmetic of the standard library's [SpecFloat]. *)

From stdpp Require Import strings.
From Stdlib Require Import SpecFloat.
From S2P Require Import Prelude Ints TimeInt TimeRange Tuid Arrow Column Chunk ChunkSlice.
From S2P Require Import ChunkQuery ChunkIndex Lineage StoreStats ChunkStore.

(** [ChunkDeletionReason]. *)
Inductive ChunkDeletionReason :=
| GarbageCollection
| VirtualToPhysicalReplacement
| DanglingSplitCleanup
| Compaction
| Overwrite
| ExplicitDrop.

#[export] Instance deletion_reason_eq_dec : EqDecision ChunkDeletionReason.
Proof. solve_decision. Defined.

(** [ChunkStoreDiffDeletion]. *)
Record ChunkStoreDiffDeletion `{ArrowOps} := Deletion { del_chunk : Chunk.t; del_reason : ChunkDeletionReason }.
#[global] Arguments Deletion {_} _ _.

Module F64.

(** A [u64] as an [f64], a product, and [round() as u64]. *)
Definition of_u64 (z : Z) : spec_float := binary_normalize 53 1024 z 0 false.
Definition mul (x y : spec_float) : spec_float := SFmul 53 1024 x y.

Definition round_half_away (m : positive) (e : Z) : Z :=
  if 0 <=? e then Z.pos m * 2 ^ e
  else (Z.pos m + 2 ^ (- e - 1)) / 2 ^ (- e).

Definition round_as_u64 (x : spec_float) : Z :=
  match x with
  | S754_finite false m e => Z.min u64_max (round_half_away m e)
  | S754_infinity false => u64_max
  | _ => 0
  end.

Definition leb (x y : spec_float) : bool := SFleb x y.
Definition zero : spec_float := S754_zero false.
Definition one : spec_float := of_u64 1.

End F64.

Inductive GarbageCollectionTarget :=
| DropAtLeastBytes (n : Z)
| DropAtLeastFraction (p : spec_float)
| Everything.

Record GarbageCollectionOptions := {
  target : GarbageCollectionTarget;
  protect_latest : nat;
  protected_time_ranges : gmap string AbsoluteTimeRange.t;
  protected_chunks : gset ChunkId.t;
  furthest_from : option (TimelineName * TimeInt.t);
  perform_deep_deletions : bool;
}.

Definition gc_everything : GarbageCollectionOptions := {|
  target := Everything;
  protect_latest := 0;
  protected_time_ranges := ∅;
  protected_chunks := ∅;
  furthest_from := None;
  perform_deep_deletions := false;
|}.

(** ** Removal from an index *)

Module IndexRemoval.

Import ChunkIdSetPerTime.

(** [if let Occupied(mut entry) = map.entry(time) { ... }]; whether there was an entry. *)
Definition remove_at (m : gmap TimeInt.t (gset ChunkId.t)) (time : TimeInt.t) (id : ChunkId.t)
    : gmap TimeInt.t (gset ChunkId.t) * bool :=
  match m !! time with
  | None => (m, false)
  | Some ids =>
      let ids := ids ∖ {[id]} in
      (if decide (ids = ∅) then delete time m else <[time := ids]> m, true)
  end.

Definition remove (self : t) (time_range : AbsoluteTimeRange.t) (id : ChunkId.t) : t * bool :=
  let '(per_start_time, removed_start) := remove_at (per_start_time self) (AbsoluteTimeRange.rmin time_range) id in
  let '(per_end_time, removed_end) := remove_at (per_end_time self) (AbsoluteTimeRange.rmax time_range) id in
  (Mk (max_interval_length self) per_start_time per_end_time, removed_start || removed_end).

(** The indices of [old] for the keys of [new]. *)
Definition remove_index {A} (old : gmap string t) (new : gmap string A) (range_of : A -> AbsoluteTimeRange.t)
    (id : ChunkId.t) : gmap string t * bool :=
  let removed := map_zip_with (fun index x => remove index (range_of x) id) old new in
  (union_with (fun new old => Some new) (fst <$> removed) old,
   existsb (fun '(_, r) => snd r) (map_to_list removed)).

End IndexRemoval.

Module StoreGc.

Import ChunkStore IndexRemoval.

Section Operations.

Context `{Build} `{ArrowOps} `{!Chunk.SizeBytes}.
Implicit Types self : ChunkStore.t.
Implicit Types chunk : Chunk.t.

(** ** The options *)

Definition target_bytes_from_size (self : GarbageCollectionTarget) (total_size_before : Z) : outcome Z :=
  match self with
  | DropAtLeastBytes n => Done n
  | DropAtLeastFraction p =>
      _ ← debug_assert (F64.leb F64.zero p && F64.leb p F64.one);
      Done (F64.round_as_u64 (F64.mul (F64.of_u64 total_size_before) p))
  | Everything => Done u64_max
  end.

Definition is_chunk_protected (options : GarbageCollectionOptions) chunk : bool :=
  bool_decide (Chunk.id chunk ∈ protected_chunks options)
  || existsb (fun '(timeline, protected_time_range) =>
       match Chunk.timelines chunk !! timeline with
       | Some time_column => AbsoluteTimeRange.intersects (TimeColumn.time_range time_column) protected_time_range
       | None => false
       end) (map_to_list (protected_time_ranges options)).

(** ** Removal *)

(** [remove_chunk_from_virtual_indices], on the store that holds the two indices. *)
Definition remove_chunk_from_virtual_indices self chunk : ChunkStore.t * bool :=
  let path := Chunk.entity_path chunk in
  let '(per_component, removed_component) :=
    match temporal_chunk_ids_per_entity_per_component self !! path with
    | None => (temporal_chunk_ids_per_entity_per_component self, false)
    | Some per_timeline =>
        let removed :=
          map_zip_with (fun per_component ranges => remove_index per_component ranges (fun r => r) (Chunk.id chunk))
            per_timeline (Chunk.time_range_per_component chunk) in
        (<[path := union_with (fun new old => Some new) (fst <$> removed) per_timeline]>
           (temporal_chunk_ids_per_entity_per_component self),
         existsb (fun '(_, r) => snd r) (map_to_list removed))
    end in
  let '(per_entity, removed_timeline) :=
    match temporal_chunk_ids_per_entity self !! path with
    | None => (temporal_chunk_ids_per_entity self, false)
    | Some per_timeline =>
        let '(per_timeline, removed) :=
          remove_index per_timeline (Chunk.timelines chunk) TimeColumn.time_range (Chunk.id chunk) in
        (<[path := per_timeline]> (temporal_chunk_ids_per_entity self), removed)
    end in
  (with_indices self per_component per_entity, removed_component || removed_timeline).

(** [drop_lineage_reference] always returns ([drop_lineage_reference_total]). *)
Definition drop_lineage self (chunk_id : ChunkId.t) : ChunkStore.t :=
  with_lineages self (default (lineages self) (Lineage.drop_lineage_reference (lineages self) chunk_id)).

(** Out of the map of physical chunks, its lineage reference dropped, and out of the virtual
    indices too if that was the last thing known of it. *)
Definition remove_physical self chunk : ChunkStore.t :=
  let self := with_physical self (delete (Chunk.id chunk) (physical_chunks_per_chunk_id self))
                (physical_chunk_ids_per_min_row_id self) in
  let self := drop_lineage self (Chunk.id chunk) in
  if bool_decide (chunks_lineage (lineages self) !! Chunk.id chunk = None)
  then fst (remove_chunk_from_virtual_indices self chunk) else self.

Definition remove_min_row_id self chunk : ChunkStore.t :=
  match Chunk.row_id_range chunk with
  | Some (row_id_min, _) =>
      with_physical self (physical_chunks_per_chunk_id self)
        (physical_chunk_ids_per_min_row_id self ∖ {[(row_id_min, Chunk.id chunk)]})
  | None => self
  end.

(** The loop of [remove_chunks_shallow]; the clock is read after each deletion. *)
Fixpoint shallow_loop self (exhausted : nat -> bool) (reason : ChunkDeletionReason)
    (chunks_to_be_removed : list Chunk.t) (deletions : list ChunkStoreDiffDeletion)
    : outcome (ChunkStore.t * list ChunkStoreDiffDeletion) :=
  match chunks_to_be_removed with
  | [] => Done (self, deletions)
  | chunk :: chunks_to_be_removed =>
      let self := remove_min_row_id self chunk in
      match physical_chunks_per_chunk_id self !! Chunk.id chunk with
      | None => shallow_loop self exhausted reason chunks_to_be_removed deletions
      | Some chunk =>
          let self := remove_physical self chunk in
          stats ← ChunkStoreChunkStats.sub (temporal_physical_chunks_stats self)
                    (ChunkStoreChunkStats.of_chunk chunk);
          let self := with_temporal_stats self stats in
          let deletions' := deletions ++ [Deletion chunk reason] in
          if exhausted (length deletions) then Done (self, deletions')
          else shallow_loop self exhausted reason chunks_to_be_removed deletions'
      end
  end.

Definition no_budget (n : nat) : bool := false.

Definition remove_chunks_shallow self (chunks_to_be_removed : list Chunk.t) (time_budget : option (nat -> bool))
    (reason : ChunkDeletionReason) : outcome (ChunkStore.t * list ChunkStoreDiffDeletion) :=
  shallow_loop self (default no_budget time_budget) reason chunks_to_be_removed [].

Fixpoint deep_loop self (reason : ChunkDeletionReason) (chunks_to_be_removed : list Chunk.t)
    : ChunkStore.t * list ChunkStoreDiffDeletion :=
  match chunks_to_be_removed with
  | [] => (self, [])
  | chunk :: chunks_to_be_removed =>
      let '(self, was_removed) := remove_chunk_from_virtual_indices self chunk in
      let '(self, deletions) := deep_loop self reason chunks_to_be_removed in
      (self, if was_removed then Deletion chunk reason :: deletions else deletions)
  end.

Definition remove_chunks_deep self (chunks_to_be_removed : list Chunk.t) (reason : ChunkDeletionReason)
    : outcome (ChunkStore.t * list ChunkStoreDiffDeletion) :=
  '(self, deletions_shallow) ← remove_chunks_shallow self chunks_to_be_removed None reason;
  let '(self, deletions) := deep_loop self reason chunks_to_be_removed in
  let deep_ids : gset ChunkId.t := list_to_set ((fun del => Chunk.id (del_chunk del)) <$> deletions) in
  Done (self, deletions
              ++ List.filter (fun del => negb (bool_decide (Chunk.id (del_chunk del) ∈ deep_ids))) deletions_shallow).

(** ** Candidates *)

(** [physical_chunks_per_chunk_id.values()], in the order of the ids. *)
Definition iter_physical_chunks self : list Chunk.t :=
  snd <$> sort_by (fun a b => ChunkId.le (fst a) (fst b)) (map_to_list (physical_chunks_per_chunk_id self)).

(** The distance of the nearest time: by the slow way, and by searching a sorted column. *)
Definition min_distance_slow (times : TimeColumn.t) (time : TimeInt.t) : option Z :=
  iter_min Z.leb ((fun t => abs_diff (TimeInt.as_i64 t) (TimeInt.as_i64 time)) <$> TimeColumn.times_int times).

Definition min_distance (times : TimeColumn.t) (time : TimeInt.t) : option Z :=
  if TimeColumn.is_sorted times then
    let pivot := partition_point (fun t => t <? TimeInt.as_i64 time) (TimeColumn.times times) in
    let min_value1 := (fun t => abs_diff t (TimeInt.as_i64 time)) <$> TimeColumn.times times !! (pivot - 1)%nat in
    let min_value2 := (fun t => abs_diff t (TimeInt.as_i64 time)) <$> TimeColumn.times times !! pivot in
    iter_min Z.leb (option_list min_value1 ++ option_list min_value2)
  else min_distance_slow times time.

(** In descending order of distance; the sort is stable. *)
Definition furthest_first (distance : TimeColumn.t -> TimeInt.t -> option Z) self (timeline : TimelineName) (time : TimeInt.t)
    : list Chunk.t :=
  fst <$> sort_by (fun a b => snd b <=? snd a)
            (omap (fun chunk =>
               times ← Chunk.timelines chunk !! timeline;
               min_dist ← distance times time;
               Some (chunk, min_dist)) (iter_physical_chunks self)).

Definition find_temporal_chunks_furthest_from self (timeline : TimelineName) (time : TimeInt.t) : list Chunk.t :=
  furthest_first min_distance self timeline time.
Definition find_temporal_chunks_furthest_from_slow self (timeline : TimelineName) (time : TimeInt.t) : list Chunk.t :=
  furthest_first min_distance_slow self timeline time.

(** The latest ids of one index that are in memory. *)
Definition latest_physical self (target_count : nat) (index : ChunkIdSetPerTime.t) : list ChunkId.t :=
  let ids m := rev (entries m) ≫= fun '(_, chunk_ids) => set_iter chunk_ids in
  take target_count
    (List.filter (fun chunk_id => bool_decide (is_Some (physical_chunks_per_chunk_id self !! chunk_id)))
       (ids (ChunkIdSetPerTime.per_start_time index) ++ ids (ChunkIdSetPerTime.per_end_time index))).

Definition component_indices self : list ChunkIdSetPerTime.t :=
  (map_to_list (temporal_chunk_ids_per_entity_per_component self)).*2 ≫= fun per_timeline =>
  (map_to_list per_timeline).*2 ≫= fun per_component =>
  (map_to_list per_component).*2.

Definition find_all_protected_physical_chunk_ids self (target_count : nat) : gset ChunkId.t :=
  if (target_count =? 0)%nat then ∅
  else list_to_set (component_indices self ≫= latest_physical self target_count).

(** A marking loop: stops once the budget is exhausted or the target reached. *)
Fixpoint mark (exhausted : nat -> bool) (target_bytes_to_drop : Z) (chunks : list Chunk.t)
    (chunks_to_be_removed : list Chunk.t) (num_bytes_dropped : Z) (n : nat) : outcome (list Chunk.t * Z * bool) :=
  match chunks with
  | [] => Done (chunks_to_be_removed, num_bytes_dropped, false)
  | chunk :: chunks =>
      num_bytes_dropped ← arith_u64 debug_assertions (num_bytes_dropped + ChunkSplit.size_of chunk);
      let chunks_to_be_removed := chunks_to_be_removed ++ [chunk] in
      if exhausted n || (target_bytes_to_drop <=? num_bytes_dropped)
      then Done (chunks_to_be_removed, num_bytes_dropped, true)
      else mark exhausted target_bytes_to_drop chunks chunks_to_be_removed num_bytes_dropped (S n)
  end.

(** [physical_chunk_ids_per_min_row_id.iter()]. *)
Definition row_id_order self : list (RowId.t * ChunkId.t) :=
  sort_by (lex_le (fun a b => RowId.le (fst a) (fst b)) (fun a b => ChunkId.le (snd a) (snd b)))
    (elements (physical_chunk_ids_per_min_row_id self)).

Definition chunks_in_priority_order self (options : GarbageCollectionOptions) : list Chunk.t :=
  let protected_chunk_ids := find_all_protected_physical_chunk_ids self (protect_latest options) in
  List.filter (fun chunk => negb (Chunk.is_static chunk) && negb (is_chunk_protected options chunk))
    (omap (fun chunk_id => physical_chunks_per_chunk_id self !! chunk_id)
       (List.filter (fun chunk_id => negb (bool_decide (chunk_id ∈ protected_chunk_ids)))
          (snd <$> row_id_order self))).

Definition gc_find_candidates self (options : GarbageCollectionOptions) (target_bytes_to_drop : Z)
    (exhausted : nat -> bool) : outcome (list Chunk.t) :=
  if target_bytes_to_drop =? 0 then Done []
  else
    '(marked, num_bytes_dropped, stop) ←
      match furthest_from options with
      | None => Done ([], 0, false)
      | Some (timeline, time) =>
          mark no_budget target_bytes_to_drop
            (List.filter (fun chunk => negb (is_chunk_protected options chunk))
               (find_temporal_chunks_furthest_from self timeline time)) [] 0 0
      end;
    if (stop : bool) then Done marked
    else if num_bytes_dropped <? target_bytes_to_drop then
      '(marked, _, _) ← mark exhausted target_bytes_to_drop (chunks_in_priority_order self options)
                          marked num_bytes_dropped 0;
      Done marked
    else Done marked.

(** ** Collection *)

Definition gc_drop_at_least_num_bytes self (options : GarbageCollectionOptions) (target_bytes_to_drop : Z)
    (mark_exhausted sweep_exhausted : nat -> bool) : outcome (ChunkStore.t * list ChunkStoreDiffDeletion) :=
  chunks_to_be_removed ← gc_find_candidates self options target_bytes_to_drop mark_exhausted;
  let is_root chunk := Lineage.is_root_chunk (chunks_lineage (lineages self)) (Chunk.id chunk) in
  let '(deeply, shallow) :=
    if perform_deep_deletions options then (chunks_to_be_removed, [])
    else (List.filter (fun chunk => negb (is_root chunk)) chunks_to_be_removed,
          List.filter is_root chunks_to_be_removed) in
  '(self, dels1) ← remove_chunks_shallow self shallow (Some sweep_exhausted) GarbageCollection;
  '(self, dels2) ← remove_chunks_deep self deeply GarbageCollection;
  Done (self, dels1 ++ dels2).

(** The state and the deletions; the caller turns them into events. *)
Definition gc self (options : GarbageCollectionOptions) (mark_exhausted sweep_exhausted : nat -> bool)
    : outcome (ChunkStore.t * list ChunkStoreDiffDeletion * ChunkStoreStats.t) :=
  gc_id' ← arith_u64 debug_assertions (gc_id self + 1);
  let self := with_ids self (insert_id self) gc_id' (event_id self) in
  let stats self := ChunkStoreStats.Mk (static_chunks_stats self) (temporal_physical_chunks_stats self) in
  total ← ChunkStoreStats.total (stats self);
  target_bytes_to_drop ← target_bytes_from_size (target options) (ChunkStoreChunkStats.total_size_bytes total);
  '(self', deletions) ← gc_drop_at_least_num_bytes self options target_bytes_to_drop mark_exhausted sweep_exhausted;
  _ ← ChunkStoreStats.total (stats self');
  freed ← ChunkStoreStats.sub (stats self) (stats self');
  Done (self', deletions, freed).

End Operations.

End StoreGc.

(** ** The nearest time of a column *)

Section Distance.

Implicit Types l k : list Z.

#[local] Instance leb_preorder : TotalPreorder Z.leb.
Proof. split; intros *; rewrite !Z.leb_le; lia. Qed.

(** The minimum depends on the elements that no other one undercuts. *)
Lemma iter_min_cofinal l k : l ⊆ k -> (forall x, x ∈ k -> exists y, y ∈ l /\ y <= x) ->
  iter_min Z.leb l = iter_min Z.leb k.
Proof.
  intros Hsub Hco. destruct (iter_min Z.leb l) as [m|] eqn:El, (iter_min Z.leb k) as [n|] eqn:Ek.
  - apply (iter_min_Some Z.leb) in El as [Hm Hl], Ek as [Hn Hk]. rewrite Forall_forall in Hl, Hk.
    pose proof (Hk m (Hsub m Hm)). destruct (Hco n Hn) as (y & Hy & Hyn). pose proof (Hl y Hy).
    rewrite !Z.leb_le in *. f_equal. lia.
  - apply iter_min_None in Ek as ->. apply (iter_min_Some Z.leb) in El as [Hm _]. apply Hsub in Hm. by apply elem_of_nil in Hm.
  - apply iter_min_None in El as ->. apply (iter_min_Some Z.leb) in Ek as [Hn _].
    destruct (Hco n Hn) as (y & Hy & _). by apply elem_of_nil in Hy.
  - done.
Qed.

(** In a sorted column the nearest time is next to the partition point. *)
Lemma sorted_nearest l a : TimeColumn.times_sorted l = true ->
  let pivot := partition_point (fun t => t <? a) l in
  let near := option_list (l !! (pivot - 1)%nat) ++ option_list (l !! pivot) in
  near ⊆ l /\ forall t, t ∈ l -> exists u, u ∈ near /\ abs_diff u a <= abs_diff t a.
Proof.
  intros Hs pivot near.
  assert (forall j w, l !! j = Some w -> (j < pivot)%nat <-> w < a) as Hpp.
  { intros j w Hj. unfold pivot. rewrite (partition_point_times (fun t => t <? a) l j w Hs); [apply Z.ltb_lt|intros; lia|done]. }
  assert (forall i u, l !! i = Some u -> i = (pivot - 1)%nat \/ i = pivot -> u ∈ near) as Hin.
  { intros i u Hu [-> | ->]; unfold near; rewrite Hu; set_solver. }
  split.
  - intros u. unfold near. intros [Hu|Hu]%elem_of_app;
      [destruct (l !! (pivot - 1)%nat) as [v|] eqn:E|destruct (l !! pivot) as [v|] eqn:E];
      try (by apply elem_of_nil in Hu); apply list_elem_of_singleton in Hu as ->; by apply list_elem_of_lookup_2 in E.
  - intros t (i & Hi)%list_elem_of_lookup_1. pose proof (Hpp i t Hi) as Hit.
    apply lookup_lt_Some in Hi as Hl. unfold abs_diff.
    destruct (Nat.lt_ge_cases i pivot) as [Hlt|Hge].
    + pose proof (partition_point_le (fun t => t <? a) l) as Hple. fold pivot in Hple.
      destruct (lookup_lt_is_Some_2 l (pivot - 1)) as [u Hu]; [lia|]. exists u. split; [by apply (Hin (pivot - 1)%nat); [|left]|].
      pose proof (proj1 (Hpp _ u Hu) ltac:(lia)). pose proof (sorted_times_lookup l i (pivot - 1) t u Hs ltac:(lia) Hi Hu). lia.
    + destruct (lookup_lt_is_Some_2 l pivot) as [u Hu]; [lia|]. exists u. split; [by apply (Hin pivot); [|right]|].
      pose proof (Hpp pivot u Hu). pose proof (sorted_times_lookup l pivot i u t Hs ltac:(lia) Hu Hi). lia.
Qed.

Lemma min_distance_fast times time : tc_wf times ->
  StoreGc.min_distance times time = StoreGc.min_distance_slow times time.
Proof.
  intros (Hs & Ht & _). unfold StoreGc.min_distance. destruct (TimeColumn.is_sorted times) eqn:E; [|done].
  unfold StoreGc.min_distance_slow, TimeColumn.times_int. set (l := TimeColumn.times times) in *.
  destruct (sorted_nearest l (TimeInt.as_i64 time) (eq_sym Hs)) as [Hsub Hnear].
  set (pivot := partition_point _ _) in *. set (a := TimeInt.as_i64 time) in *.
  assert (((fun t => abs_diff (TimeInt.as_i64 t) a) <$> (TimeInt.new_temporal <$> l)) = (fun t => abs_diff t a) <$> l) as ->.
  { rewrite <- list_fmap_compose. apply list_fmap_ext. intros i t Hi. simpl.
    rewrite Forall_lookup in Ht. by rewrite as_i64_temporal by (by eapply Ht). }
  set (near := option_list (l !! (pivot - 1)%nat) ++ option_list (l !! pivot)) in *.
  replace (option_list _ ++ option_list _) with ((fun t => abs_diff t a) <$> near).
  - apply iter_min_cofinal.
    + intros d (t & -> & Htn)%list_elem_of_fmap. apply list_elem_of_fmap. exists t. split; [done|by apply Hsub].
    + intros d (t & -> & Hin)%list_elem_of_fmap. destruct (Hnear t Hin) as (u & Hu & Hle).
      exists (abs_diff u a). split; [|done]. apply list_elem_of_fmap. by exists u.
  - unfold near. rewrite fmap_app. by destruct (l !! (pivot - 1)%nat), (l !! pivot).
Qed.

End Distance.

Section Furthest.

Context `{ArrowOps}.
Implicit Types st : ChunkStore.t.

(** The search for the chunks furthest from a time.  On well-formed chunks the searching
    implementation gives the chunks that the reference implementation gives, in its order. *)
Lemma find_temporal_chunks_furthest_from_spec st timeline time
    (Hwf : map_Forall (fun _ c => chunk_wf c) (ChunkStore.physical_chunks_per_chunk_id st)) :
  StoreGc.find_temporal_chunks_furthest_from st timeline time
    = StoreGc.find_temporal_chunks_furthest_from_slow st timeline time.
Proof.
  unfold StoreGc.find_temporal_chunks_furthest_from, StoreGc.find_temporal_chunks_furthest_from_slow, StoreGc.furthest_first.
  do 2 f_equal. apply list_omap_ext, Forall_Forall2_diag, Forall_forall. intros c Hc.
  destruct (Chunk.timelines c !! timeline) as [tc|] eqn:Etc; [|done]. simpl.
  rewrite min_distance_fast; [done|]. unfold StoreGc.iter_physical_chunks in Hc.
  apply list_elem_of_fmap in Hc as ([id c'] & -> & Hc%elem_of_sort_by%elem_of_map_to_list).
  destruct (Hwf id c' Hc) as (_ & Hcols & _). by destruct (Hcols _ _ Etc).
Qed.

End Furthest.

(** ** Removal from the indices *)

Section IndexRemovalSpec.

Import ChunkIdSetPerTime IndexRemoval.
Implicit Types L : list (ChunkId.t * AbsoluteTimeRange.t).

Definition without (id : ChunkId.t) L : list (ChunkId.t * AbsoluteTimeRange.t) := filter (fun x => x.1 <> id) L.

Lemma elem_of_without id L x r : (x, r) ∈ without id L <-> x <> id /\ (x, r) ∈ L.
Proof. unfold without. by rewrite list_elem_of_filter. Qed.

Lemma without_absent id L : (forall r, (id, r) ∉ L) -> without id L = L.
Proof.
  intros Hn. unfold without. induction L as [|[x r] L IH]; [done|]. rewrite filter_cons, decide_True.
  - rewrite IH; [done|]. intros r' Hin. apply (Hn r'). by right.
  - simpl. intros ->. apply (Hn r). left.
Qed.

Lemma maps_times_remove m bound L id r : maps_times m bound L ->
  (forall r', (id, r') ∈ L -> bound r' = bound r) ->
  maps_times (fst (remove_at m (bound r) id)) bound (without id L).
Proof.
  intros [Hne Hm] Hr. unfold remove_at. destruct (m !! bound r) as [ids|] eqn:E; cbn [fst].
  - set (m' := if decide (ids ∖ {[id]} = ∅) then _ else _).
    assert (forall time x, (exists ids', m' !! time = Some ids' /\ x ∈ ids')
      <-> exists ids', m !! time = Some ids' /\ x ∈ ids' /\ ~ (time = bound r /\ x = id)) as Hlook.
    { intros time x. unfold m'. destruct (decide (time = bound r)) as [->|Hb].
      - rewrite E. assert (x ∈ ids ∖ {[id]} <-> x ∈ ids /\ x <> id) as Hx by set_solver.
        case_decide as Hempty; rewrite ?lookup_delete_eq, ?lookup_insert_eq.
        + rewrite Hempty in Hx. assert (x ∉ (∅ : gset ChunkId.t)) by set_solver.
          split; [by intros (? & ? & _)|]. intros (ids' & [= <-] & ? & ?). naive_solver.
        + split; [intros (ids' & [= <-] & ?); exists ids; naive_solver|].
          intros (ids' & [= <-] & ? & ?). exists (ids ∖ {[id]}). naive_solver.
      - case_decide; rewrite ?lookup_delete_ne, ?lookup_insert_ne by done; naive_solver. }
    split.
    + intros time ids'. unfold m'. case_decide as Hempty; intros Hl.
      * apply lookup_delete_Some in Hl as [_ Hl]. by eapply Hne.
      * apply lookup_insert_Some in Hl as [[_ <-]|[_ Hl]]; [done|by eapply Hne].
    + intros time x. rewrite Hlook. split.
      * intros (ids' & Hids & Hx & Hn). destruct (proj1 (Hm time x)) as (r' & Hin & <-); [by exists ids'|].
        exists r'. split; [|done]. apply elem_of_without. split; [|done]. intros ->. apply Hn. split; [by apply Hr|done].
      * intros (r' & [Hx Hin]%elem_of_without & <-). destruct (proj2 (Hm (bound r') x)) as (ids' & ? & ?); [by exists r'|].
        exists ids'. split_and!; [done|done|]. by intros [_ ?].
  - rewrite without_absent; [done|]. intros r' Hin. destruct (proj2 (Hm (bound r) id)) as (ids & Hids & _); [|congruence].
    exists r'. split; [done|by apply Hr].
Qed.

Lemma represents_remove self L id r : represents self L -> (forall r', (id, r') ∈ L -> r' = r) ->
  represents (fst (remove self r id)) (without id L).
Proof.
  intros (Hs & He & Hu & Hl) Hr. unfold remove.
  pose proof (maps_times_remove _ AbsoluteTimeRange.rmin _ id r Hs ltac:(intros r' Hin; by rewrite (Hr r' Hin))) as Hs'.
  pose proof (maps_times_remove _ AbsoluteTimeRange.rmax _ id r He ltac:(intros r' Hin; by rewrite (Hr r' Hin))) as He'.
  destruct (remove_at (per_start_time self) _ id) as [s bs], (remove_at (per_end_time self) _ id) as [e be].
  split_and!; [done|done|done|]. intros x r' [_ Hin]%elem_of_without. by apply (Hl x r').
Qed.

Lemma remove_empty r id : fst (remove empty r id) = empty.
Proof. unfold remove, remove_at, empty. simpl. by rewrite !lookup_empty. Qed.

(** What [remove_index] does to one of the indices. *)
Lemma lookup_remove_index {A} (old : gmap string t) (new : gmap string A) f id k :
  fst (remove_index old new f id) !! k =
    match new !! k with
    | None => old !! k
    | Some x => (fun index => fst (remove index (f x) id)) <$> old !! k
    end.
Proof.
  unfold remove_index. cbn [fst]. rewrite lookup_union_with, lookup_fmap, map_lookup_zip_with.
  by destruct (old !! k), (new !! k).
Qed.

End IndexRemovalSpec.

Section VirtualRemoval.

Import ChunkStore StoreGc IndexRemoval.
Context `{Build} `{ArrowLaws} `{!Chunk.SizeBytes}.
Implicit Types st : ChunkStore.t.
Implicit Types c : Chunk.t.

Notation remove_virtual st c := (fst (remove_chunk_from_virtual_indices st c)).

Lemma component_index_removed st c path timeline component :
  component_index (remove_virtual st c) path (Some timeline) component =
    match (if decide (Chunk.entity_path c = path) then component_range c timeline component else None) with
    | None => component_index st path (Some timeline) component
    | Some r => (fun index => fst (remove index r (Chunk.id c))) <$> component_index st path (Some timeline) component
    end.
Proof.
  unfold component_index, remove_chunk_from_virtual_indices, component_range.
  destruct (match temporal_chunk_ids_per_entity_per_component st !! Chunk.entity_path c with None => _ | _ => _ end)
    as [per_component removed] eqn:Epc.
  destruct (match temporal_chunk_ids_per_entity st !! Chunk.entity_path c with None => _ | _ => _ end) as [? ?].
  cbn [fst with_indices temporal_chunk_ids_per_entity_per_component].
  destruct (temporal_chunk_ids_per_entity_per_component st !! Chunk.entity_path c) as [per_timeline|] eqn:E;
    injection Epc as <- _.
  - case_decide as Hp; [subst path|by rewrite lookup_insert_ne]. rewrite lookup_insert_eq, E. cbn [mbind option_bind].
    rewrite lookup_union_with, lookup_fmap, map_lookup_zip_with.
    destruct (per_timeline !! timeline) as [per_comp|] eqn:Et, (Chunk.time_range_per_component c !! timeline) as [rs|];
      cbn [union_with option_union_with fmap option_fmap option_map mbind option_bind map_zip_with diag_None];
      rewrite ?lookup_remove_index; by try destruct (rs !! component).
  - case_decide as Hp; [subst path|done]. rewrite E. simpl.
    by destruct (rs ← Chunk.time_range_per_component c !! timeline; rs !! component).
Qed.

Lemma timeline_index_removed st c path timeline :
  timeline_index (remove_virtual st c) path (Some timeline) =
    match (if decide (Chunk.entity_path c = path) then Chunk.timelines c !! timeline else None) with
    | None => timeline_index st path (Some timeline)
    | Some tc => (fun index => fst (remove index (TimeColumn.time_range tc) (Chunk.id c))) <$> timeline_index st path (Some timeline)
    end.
Proof.
  unfold timeline_index, remove_chunk_from_virtual_indices.
  destruct (match temporal_chunk_ids_per_entity_per_component st !! Chunk.entity_path c with None => _ | _ => _ end) as [? ?].
  destruct (temporal_chunk_ids_per_entity st !! Chunk.entity_path c) as [per_timeline|] eqn:E.
  - pose proof (lookup_remove_index per_timeline (Chunk.timelines c) TimeColumn.time_range (Chunk.id c) timeline) as Hl.
    destruct (remove_index per_timeline _ _ _) as [per_timeline' removed].
    cbn [fst with_indices temporal_chunk_ids_per_entity] in *.
    case_decide as Hp; [subst path|by rewrite lookup_insert_ne]. rewrite lookup_insert_eq, E. cbn [mbind option_bind].
    rewrite Hl. by destruct (Chunk.timelines c !! timeline).
  - cbn [fst with_indices temporal_chunk_ids_per_entity]. case_decide as Hp; [subst path|done]. rewrite E. simpl.
    by destruct (Chunk.timelines c !! timeline).
Qed.

(** The chunks that are left. *)
Definition others c (cs : list Chunk.t) : list Chunk.t := filter (fun c' => Chunk.id c' <> Chunk.id c) cs.

Lemma elem_of_others c cs c' : c' ∈ others c cs <-> Chunk.id c' <> Chunk.id c /\ c' ∈ cs.
Proof. unfold others. by rewrite list_elem_of_filter. Qed.

Lemma others_without c cs (f : Chunk.t -> option AbsoluteTimeRange.t) :
  omap (fun c' => pair (Chunk.id c') <$> f c') (others c cs)
    = without (Chunk.id c) (omap (fun c' => pair (Chunk.id c') <$> f c') cs).
Proof.
  unfold others, without. induction cs as [|c' cs IH]; [done|]. rewrite filter_cons. csimpl.
  destruct (decide (Chunk.id c' = Chunk.id c)) as [Hid|Hid].
  - rewrite decide_False by (intros Hn; by apply Hn). rewrite IH.
    destruct (f c') as [r|]; [|done]. csimpl. by rewrite filter_cons, decide_False by (intros Hn; by apply Hn).
  - rewrite decide_True by done. csimpl. rewrite IH.
    destruct (f c') as [r|]; [|done]. csimpl. by rewrite filter_cons, decide_True by done.
Qed.

Lemma component_ranges_omap cs path timeline component :
  component_ranges cs path timeline component
    = omap (fun c => pair (Chunk.id c) <$>
        (if decide (Chunk.entity_path c = path) then component_range c timeline component else None)) cs.
Proof. unfold component_ranges. apply list_omap_ext, Forall_Forall2_diag, Forall_forall. intros c _. by case_decide. Qed.

Lemma timeline_ranges_omap cs path timeline :
  timeline_ranges cs path timeline
    = omap (fun c => pair (Chunk.id c) <$>
        (if decide (Chunk.entity_path c = path) then TimeColumn.time_range <$> Chunk.timelines c !! timeline else None)) cs.
Proof.
  unfold timeline_ranges. apply list_omap_ext, Forall_Forall2_diag, Forall_forall. intros c _.
  case_decide; [|done]. by destruct (Chunk.timelines c !! timeline).
Qed.

(** An index, one of whose chunks may be [c], after the removal of [c]. *)
Lemma represents_others (index : option ChunkIdSetPerTime.t) (f : Chunk.t -> option AbsoluteTimeRange.t) c cs :
  (forall c', c' ∈ cs -> Chunk.id c' = Chunk.id c -> c' = c) ->
  represents (default ChunkIdSetPerTime.empty index) (omap (fun c' => pair (Chunk.id c') <$> f c') cs) ->
  represents
    (default ChunkIdSetPerTime.empty
       (match f c with None => index | Some r => (fun index => fst (remove index r (Chunk.id c))) <$> index end))
    (omap (fun c' => pair (Chunk.id c') <$> f c') (others c cs)).
Proof.
  intros Huniq Hr. rewrite others_without.
  assert (forall r, (Chunk.id c, r) ∈ omap (fun c' => pair (Chunk.id c') <$> f c') cs -> f c = Some r) as Hin.
  { intros r (c' & Hc' & Hf)%list_elem_of_omap. destruct (f c') as [r'|] eqn:E; [|done]. injection Hf as Hid <-.
    rewrite (Huniq c' Hc' Hid) in E. done. }
  destruct (f c) as [r|] eqn:Ef.
  - replace (default _ _) with (fst (remove (default ChunkIdSetPerTime.empty index) r (Chunk.id c))).
    + apply represents_remove; [done|]. intros r' Hr'. apply Hin in Hr'. congruence.
    + destruct index; [done|]. apply remove_empty.
  - rewrite without_absent; [done|]. intros r Hr'. by apply Hin in Hr'.
Qed.

Lemma virtual_indexes_removed st cs c : (forall c', c' ∈ cs -> Chunk.id c' = Chunk.id c -> c' = c) ->
  virtual_indexes st cs -> virtual_indexes (remove_virtual st c) (others c cs).
Proof.
  intros Huniq [Hc Ht]. split.
  - intros path timeline component. specialize (Hc path timeline component).
    rewrite component_index_removed. rewrite component_ranges_omap in *.
    exact (represents_others _ (fun c => if decide (Chunk.entity_path c = path) then component_range c timeline component else None)
             c cs Huniq Hc).
  - intros path timeline. specialize (Ht path timeline). rewrite timeline_index_removed. rewrite timeline_ranges_omap in *.
    pose proof (represents_others _ (fun c => if decide (Chunk.entity_path c = path)
      then TimeColumn.time_range <$> Chunk.timelines c !! timeline else None) c cs Huniq Ht) as Hr. cbv beta in Hr.
    revert Hr.
    case_decide; [|done]. by destruct (Chunk.timelines c !! timeline).
Qed.

Lemma others_absent c cs : (forall c', c' ∈ cs -> Chunk.id c' <> Chunk.id c) -> others c cs = cs.
Proof.
  intros Hn. unfold others. induction cs as [|c' cs IH]; [done|]. rewrite filter_cons, decide_True.
  - rewrite IH; [done|]. intros c'' Hin. apply Hn. by right.
  - apply Hn. left.
Qed.

End VirtualRemoval.
