(* ===== verification/StoreWrites.v ===== *)
(** * Writing to the store

    [dl_chunk_store/src/writes.rs] and [drop_time_range.rs]: insertion of a chunk with the
    splits and compactions it triggers, of the virtual chunks of a manifest, and the removal of
    a time range or of an entity; from [events.rs] what an insertion reports.

    [ChunkId::new] is the parameter [new_id]: the id that each draw of an insertion returns.
    [HashOrder] is the order in which a [HashMap] of candidates is iterated.

    The functions return the differences that the code turns into events.  A loop that runs out
    of fuel is a [Panic]: the theorems of [StoreSplits] say that insertions return. *)

From stdpp Require Import strings.
From S2P Require Import Prelude Ints TimeInt TimeRange Tuid Arrow Column Chunk ChunkSlice.
From S2P Require Import ChunkSort ChunkMerge ChunkQuery ChunkIndex Lineage StoreStats ChunkStore StoreGc.

(** [ChunkDirectLineageReport]. *)
Module Report.

Inductive t `{ArrowOps} :=
| SplitFrom (parent : Chunk.t) (siblings : list Chunk.t)
| CompactedFrom (srcs : gmap ChunkId.t Chunk.t)
| RootFromManifest (is_static : bool)
| Volatile.

Section Operations.

Context `{ArrowOps}.

(** [BTreeMap::keys]. *)
Definition keys (srcs : gmap ChunkId.t Chunk.t) : list ChunkId.t := sort_by ChunkId.le (map_to_list srcs).*1.

(** [From<&ChunkDirectLineageReport> for ChunkDirectLineage]. *)
Definition direct (report : t) : ChunkDirectLineage :=
  match report with
  | SplitFrom chunk siblings => Lineage.SplitFrom (Chunk.id chunk) (Chunk.id <$> siblings)
  | CompactedFrom srcs => Lineage.CompactedFrom (keys srcs)
  | RootFromManifest is_static => Lineage.RootFromManifest is_static
  | Volatile => Lineage.Volatile
  end.

(** [ChunkDirectLineage::to_report], for a store that holds the chunks [physical]. *)
Definition to_report (physical : gmap ChunkId.t Chunk.t) (self : ChunkDirectLineage) : option t :=
  match self with
  | Lineage.SplitFrom chunk_id sibling_ids =>
      siblings ← mapM (fun id => physical !! id) sibling_ids;
      chunk ← physical !! chunk_id;
      Some (SplitFrom chunk siblings)
  | Lineage.CompactedFrom chunk_ids =>
      chunks ← mapM (fun id => pair id <$> physical !! id) chunk_ids;
      Some (CompactedFrom (list_to_map chunks))
  | Lineage.RootFromManifest is_static => Some (RootFromManifest is_static)
  | Lineage.Volatile => Some Volatile
  end.

End Operations.

End Report.

(** [ChunkStoreDiffAddition] and [ChunkStoreDiff]. *)
Record ChunkStoreDiffAddition `{ArrowOps} := Added {
  chunk_before_processing : Chunk.t;
  chunk_after_processing : Chunk.t;
  direct_lineage : Report.t;
}.
#[global] Arguments Added {_} _ _ _.

Inductive ChunkStoreDiff `{ArrowOps} :=
| Addition (add : ChunkStoreDiffAddition)
| Deleted (del : ChunkStoreDiffDeletion).

Definition delta_chunk `{ArrowOps} (self : ChunkStoreDiffAddition) : Chunk.t :=
  match direct_lineage self with
  | Report.CompactedFrom _ => chunk_before_processing self
  | Report.SplitFrom _ _ => chunk_after_processing self
  | _ => chunk_before_processing self
  end.

(** The errors of [ChunkStoreError] that writing returns. *)
Inductive ChunkStoreError := UnsortedChunk | ChunkFailed (error : ChunkError).

(** The ids an insertion draws: for the pieces of a split (in a round, from a chunk, the
    how manieth), for a compaction, for its sorting, and in the insertion of a piece. *)
Inductive Draw :=
| SplitDraw (round chunk piece : nat)
| CompactDraw
| SortDraw
| PieceDraw (piece : nat) (draw : Draw).

(** The ids that dropping a time range draws, for the chunk at a position. *)
Inductive DropDraw :=
| SortByTime (chunk : nat)
| SliceBefore (chunk : nat)
| SliceAfter (chunk : nat)
| SortByRowId (chunk : nat)
| InsertDraw (chunk : nat) (draw : Draw).

(** [RrdManifestTemporalMapEntry], and the two maps of a manifest. *)
Record RrdManifestTemporalMapEntry := { entry_time_range : AbsoluteTimeRange.t; entry_num_rows : Z }.
Definition RrdManifestStaticMap : Type := gmap EntityPath (gmap string ChunkId.t).
Definition RrdManifestTemporalMap : Type :=
  gmap EntityPath (list (Timeline * gmap string (gmap ChunkId.t RrdManifestTemporalMapEntry))).

Class HashOrder := hash_order : list (ChunkId.t * Z) -> list (ChunkId.t * Z).
Class HashOrderLaws `{HashOrder} : Prop := hash_order_perm l : hash_order l ≡ₚ l.

Definition is_transform_archetype (archetype : option string) : bool :=
  bool_decide (archetype = Some "dalaran.archetypes.Transform3D"%string)
  || bool_decide (archetype = Some "dalaran.archetypes.Pinhole"%string).

Module StoreWrites.

Import ChunkStore.

Section Operations.

Context `{Build} `{ArrowOps} `{!Chunk.SizeBytes} `{HashOrder}.
Implicit Types self : ChunkStore.t.
Implicit Types chunk : Chunk.t.

(** A recursion over the lineage that has not ended is a panic. *)
Definition ended {A} (o : option (outcome A)) : outcome A := default Panic o.

Definition descends_from_a_split self (chunk_id : ChunkId.t) : outcome bool :=
  ended (Lineage.descends_from_a_split (chunks_lineage (lineages self)) chunk_id).
Definition descends_from_a_compaction self (chunk_id : ChunkId.t) : outcome bool :=
  ended (Lineage.descends_from_a_compaction (chunks_lineage (lineages self)) chunk_id).

Definition with_chunks_lineage self (store : gmap ChunkId.t TrackedDirectChunkLineage) : t :=
  with_lineages self (Ctx store (leaky_compactions (lineages self)) (split_on_ingest (lineages self))
                        (dangling_splits (lineages self))).

Definition insert_lineage_if_missing self (chunk_id : ChunkId.t) (lineage : Report.t) : outcome t :=
  store ← Lineage.insert_lineage_if_missing (chunks_lineage (lineages self)) chunk_id (Report.direct lineage);
  Done (with_chunks_lineage self store).

(** ** The election of a chunk to compact with *)

Definition is_below_rows_threshold self chunk (total_rows : Z) : bool :=
  if Chunk.all_timelines_sorted chunk then total_rows <=? ChunkStoreConfig.chunk_max_rows (config self)
  else total_rows <=? ChunkStoreConfig.chunk_max_rows_if_unsorted (config self).

(** The closure that the code memoises: the points a candidate earns. *)
Definition check_if_chunk_below_threshold self chunk (candidate_chunk_id : ChunkId.t) : outcome Z :=
  match physical_chunks_per_chunk_id self !! candidate_chunk_id with
  | None => Done 0
  | Some candidate =>
      if bool_decide (Chunk.id chunk = candidate_chunk_id) then Done 0
      else if negb (ChunkMerge.concatenable chunk candidate) then Done 0
      else
        split ← descends_from_a_split self candidate_chunk_id;
        if (split : bool) then Done 0
        else
          total_bytes ← arith_u64 debug_assertions
            (ChunkSplit.size_of chunk + ChunkSplit.size_of candidate);
          total_rows ← arith_u64 debug_assertions
            (Z.of_nat (Chunk.num_rows chunk) + Z.of_nat (Chunk.num_rows candidate));
          Done (if (total_bytes <=? ChunkStoreConfig.chunk_max_bytes (config self))
                   && is_below_rows_threshold self candidate total_rows
                then Z.of_nat (Chunk.num_rows candidate) else 0)
  end.

Fixpoint add_points self chunk (weight : Z) (chunk_ids : list ChunkId.t) (candidates : gmap ChunkId.t Z)
    : outcome (gmap ChunkId.t Z) :=
  match chunk_ids with
  | [] => Done candidates
  | chunk_id :: chunk_ids =>
      points ← check_if_chunk_below_threshold self chunk chunk_id;
      points ← arith_u64 debug_assertions (points * weight);
      points ← arith_u64 debug_assertions (default 0 (candidates !! chunk_id) + points);
      add_points self chunk weight chunk_ids (<[chunk_id := points]> candidates)
  end.

(** The neighbors in one index: just before, just after, and with the same start. *)
Definition add_neighbors self chunk (index : ChunkIdSetPerTime.t) (time_range : AbsoluteTimeRange.t)
    (candidates : gmap ChunkId.t Z) : outcome (gmap ChunkId.t Z) :=
  let starts := ChunkIdSetPerTime.per_start_time index in
  let before := last (List.filter (fun '(time, _) => TimeInt.lt time (AbsoluteTimeRange.rmin time_range)) (entries starts)) in
  let after := head (List.filter (fun '(time, _) => TimeInt.le (TimeInt.inc (AbsoluteTimeRange.rmax time_range)) time) (entries starts)) in
  candidates ← add_points self chunk 1 (from_option (fun '(_, ids) => set_iter ids) [] before) candidates;
  candidates ← add_points self chunk 1 (from_option (fun '(_, ids) => set_iter ids) [] after) candidates;
  add_points self chunk 2 (from_option set_iter [] (starts !! AbsoluteTimeRange.rmin time_range)) candidates.

(** The indices of the timelines and components of the chunk, with its ranges in them. *)
Definition neighborhoods (per_timeline : gmap string (gmap string ChunkIdSetPerTime.t)) chunk
    : list (ChunkIdSetPerTime.t * AbsoluteTimeRange.t) :=
  map_to_list (Chunk.time_range_per_component chunk) ≫= fun '(timeline, ranges) =>
    match per_timeline !! timeline with
    | None => []
    | Some per_component =>
        omap (fun '(component, time_range) => (fun index => (index, time_range)) <$> per_component !! component)
          (map_to_list (ranges : gmap string AbsoluteTimeRange.t))
    end.

Fixpoint add_all_neighbors self chunk (l : list (ChunkIdSetPerTime.t * AbsoluteTimeRange.t))
    (candidates : gmap ChunkId.t Z) : outcome (gmap ChunkId.t Z) :=
  match l with
  | [] => Done candidates
  | (index, time_range) :: l =>
      candidates ← add_neighbors self chunk index time_range candidates;
      add_all_neighbors self chunk l candidates
  end.

Definition find_and_elect_compaction_candidate self chunk : outcome (option Chunk.t) :=
  split ← descends_from_a_split self (Chunk.id chunk);
  if (split : bool) then Done None
  else if negb ((ChunkSplit.size_of chunk <=? ChunkStoreConfig.chunk_max_bytes (config self))
                && is_below_rows_threshold self chunk (Z.of_nat (Chunk.num_rows chunk)))
  then Done None
  else
    match temporal_chunk_ids_per_entity_per_component self !! Chunk.entity_path chunk with
    | None => Done None
    | Some per_timeline =>
        candidates ← add_all_neighbors self chunk (neighborhoods per_timeline chunk) ∅;
        let candidates := rev (sort_by (fun a b => snd a <=? snd b) (hash_order (map_to_list candidates))) in
        Done (head (omap (fun '(chunk_id, _) => physical_chunks_per_chunk_id self !! chunk_id)
                      (List.filter (fun '(_, points) => 0 <? points) candidates)))
    end.

(** ** Inserting a static chunk *)

(** One component of a static chunk: whether it takes over, and what it takes over from. *)
Definition insert_static_component self chunk (ids : gmap string ChunkId.t)
    (overwritten_chunk_ids : gmap ChunkId.t RowId.t) (component : ComponentIdentifier)
    (column : ChunkComponents.column) : gmap string ChunkId.t * gmap ChunkId.t RowId.t :=
  match Chunk.row_id_range_per_component chunk !! component with
  | None => (ids, overwritten_chunk_ids)
  | Some (_, row_id_max_for_component) =>
      match ids !! component with
      | None => (<[component := Chunk.id chunk]> ids, overwritten_chunk_ids)
      | Some cur_chunk_id =>
          let cur := physical_chunks_per_chunk_id self !! cur_chunk_id in
          let cur_row_id_max_for_component :=
            from_option (fun chunk => from_option snd RowId.ZERO (Chunk.row_id_range_per_component chunk !! component))
              RowId.ZERO cur in
          if RowId.lt cur_row_id_max_for_component row_id_max_for_component then
            let is_transform := is_transform_archetype (cd_archetype (ChunkComponents.descriptor column)) in
            (<[component := Chunk.id chunk]> ids,
             match cur ≫= Chunk.row_id_range with
             | Some (cur_row_id_min_for_chunk, _) =>
                 if is_transform then overwritten_chunk_ids
                 else <[cur_chunk_id := cur_row_id_min_for_chunk]> overwritten_chunk_ids
             | None => overwritten_chunk_ids
             end)
          else (ids, overwritten_chunk_ids)
      end
  end.

(** The loop over the components.  [entry(..).or_default()] is reached once some component has
    data: an entity gets no entry of its own for a chunk that has none. *)
Definition column_is_empty (column : ChunkComponents.column) : bool :=
  match list_nulls (ChunkComponents.list_array column) with
  | Some validity => bool_decide (length validity = 0%nat)
  | None => false
  end.

Definition insert_static_components self chunk (ids : gmap string ChunkId.t)
    : gmap string ChunkId.t * gmap ChunkId.t RowId.t :=
  foldl (fun '(ids, overwritten) '(component, column) =>
      if column_is_empty column then (ids, overwritten)
      else insert_static_component self chunk ids overwritten component column)
    (ids, ∅) (map_to_list (Chunk.components chunk)).

Definition has_static_data chunk : bool :=
  existsb (fun '(component, column) =>
      negb (column_is_empty column) && bool_decide (is_Some (Chunk.row_id_range_per_component chunk !! component)))
    (map_to_list (Chunk.components chunk)).

(** Removing the chunks that are now dangling. *)
Fixpoint remove_overwritten self (per_component : gmap string ChunkId.t)
    (overwritten_chunk_ids : list (ChunkId.t * RowId.t)) (diffs : list ChunkStoreDiff)
    : outcome (t * list ChunkStoreDiff) :=
  match overwritten_chunk_ids with
  | [] => Done (self, diffs)
  | (chunk_id, chunk_row_id_min) :: overwritten_chunk_ids =>
      if existsb (fun cur_chunk_id => bool_decide (cur_chunk_id = chunk_id)) (map_to_list per_component).*2
      then remove_overwritten self per_component overwritten_chunk_ids diffs
      else
        _ ← debug_assert (bool_decide ((chunk_row_id_min, chunk_id) ∈ physical_chunk_ids_per_min_row_id self));
        let removed := physical_chunks_per_chunk_id self !! chunk_id in
        let self := with_physical self (delete chunk_id (physical_chunks_per_chunk_id self))
                      (physical_chunk_ids_per_min_row_id self ∖ {[(chunk_row_id_min, chunk_id)]}) in
        _ ← debug_assert (bool_decide (is_Some removed));
        match removed with
        | None => remove_overwritten self per_component overwritten_chunk_ids diffs
        | Some chunk_removed =>
            let self := StoreGc.drop_lineage self chunk_id in
            stats ← ChunkStoreChunkStats.sub (static_chunks_stats self) (ChunkStoreChunkStats.of_chunk chunk_removed);
            remove_overwritten (with_static self (static_chunk_ids_per_entity self) stats) per_component
              overwritten_chunk_ids (diffs ++ [Deleted (Deletion chunk_removed Overwrite)])
        end
  end.

Definition insert_static self chunk (lineage : Report.t) : outcome (t * list ChunkStoreDiff) :=
  let path := Chunk.entity_path chunk in
  let '(ids, overwritten_chunk_ids) :=
    insert_static_components self chunk (default ∅ (static_chunk_ids_per_entity self !! path)) in
  let static_ids :=
    if has_static_data chunk then <[path := ids]> (static_chunk_ids_per_entity self)
    else static_chunk_ids_per_entity self in
  stats ← ChunkStoreChunkStats.add (static_chunks_stats self) (ChunkStoreChunkStats.of_chunk chunk);
  let self := with_static self static_ids stats in
  let diffs := [Addition (Added chunk chunk lineage)] in
  _ ← debug_assert (bool_decide (is_Some (static_ids !! path)));
  match static_ids !! path with
  | None => Done (self, diffs)
  | Some per_component => remove_overwritten self per_component (map_to_list overwritten_chunk_ids) diffs
  end.

(** ** Inserting a temporal chunk *)

(** What a debug build checks when it has recorded that [source_id] was compacted, over an
    older record. *)
Definition check_overwritten_compaction self (found : bool) (source_id : ChunkId.t) : outcome () :=
  if debug_assertions && found then
    match Lineage.follow_compactions (S (size (leaky_compactions (lineages self))))
            (dom (physical_chunks_per_chunk_id self)) (leaky_compactions (lineages self)) source_id with
    | Some None => Done ()
    | _ => Panic
    end
  else Done ().

Fixpoint record_compactions self (source_ids : list ChunkId.t) (compacted_id : ChunkId.t) : outcome t :=
  match source_ids with
  | [] => Done self
  | source_id :: source_ids =>
      let found := bool_decide (is_Some (leaky_compactions (lineages self) !! source_id)) in
      let self := with_lineages self
        (Ctx (chunks_lineage (lineages self)) (<[source_id := compacted_id]> (leaky_compactions (lineages self)))
           (split_on_ingest (lineages self)) (dangling_splits (lineages self))) in
      _ ← check_overwritten_compaction self found source_id;
      record_compactions self source_ids compacted_id
  end.

(** The chunk that is stored, and the chunk it was compacted with. *)
Definition compact self (new_id : Draw -> ChunkId.t) chunk
    : outcome (result (option Chunk.t * Chunk.t) ChunkStoreError) :=
  elected_chunk ← find_and_elect_compaction_candidate self chunk;
  match elected_chunk with
  | None => Done (Ok (None, chunk))
  | Some elected_chunk =>
      compacted ← ChunkMerge.concat_and_sort (new_id CompactDraw) (new_id SortDraw) elected_chunk chunk;
      Done (match compacted with
            | Err e => Err (ChunkFailed e)
            | Ok compacted => Ok (Some elected_chunk, compacted)
            end)
  end.

(** The lineage of a compacted chunk, and the removal of the chunk it replaces. *)
Definition replace_elected self chunk (elected_chunk chunk_or_compacted : Chunk.t) : outcome (t * Report.t) :=
  let srcs := <[Chunk.id elected_chunk := elected_chunk]> {[Chunk.id chunk := chunk]} in
  self ← record_compactions self (Report.keys srcs) (Chunk.id chunk_or_compacted);
  let direct_lineage := Report.CompactedFrom srcs in
  self ← insert_lineage_if_missing self (Chunk.id chunk_or_compacted) direct_lineage;
  '(self, _) ← StoreGc.remove_chunks_deep self [elected_chunk] Compaction;
  Done (self, direct_lineage).

(** The statistics store the size in the chunk, which the indices do not look at: the model
    computes them first. *)
Definition insert_temporal self (new_id : Draw -> ChunkId.t) chunk (lineage : Report.t)
    : outcome (t * result (Chunk.t * list ChunkStoreDiff) ChunkStoreError) :=
  r ← compact self new_id chunk;
  match r with
  | Err e => Done (self, Err e)
  | Ok (elected_chunk, chunk_or_compacted) =>
      let chunk_stats := fst (ChunkStoreChunkStats.from_chunk chunk_or_compacted) in
      let chunk_or_compacted := snd (ChunkStoreChunkStats.from_chunk chunk_or_compacted) in
      let self := index_temporal self chunk_or_compacted in
      stats ← ChunkStoreChunkStats.add (temporal_physical_chunks_stats self) chunk_stats;
      let self := with_temporal_stats self stats in
      '(self, direct_lineage) ←
        match elected_chunk with
        | None => Done (self, lineage)
        | Some elected_chunk => replace_elected self chunk elected_chunk chunk_or_compacted
        end;
      Done (self, Ok (chunk_or_compacted, [Addition (Added chunk chunk_or_compacted direct_lineage)]))
  end.

(** ** Inserting a chunk *)

(** What both kinds of chunks end with: the chunk is in memory, and that is a reference. *)
Definition make_physical self chunk : outcome t :=
  store ← Lineage.bump_reference (chunks_lineage (lineages self)) (Chunk.id chunk);
  Done (insert_physical (with_chunks_lineage self store) chunk).

(** A chunk that is not split, from [self.insert_id += 1] on. *)
Definition insert_whole self (new_id : Draw -> ChunkId.t) chunk (lineage : Report.t) (all_diffs : list ChunkStoreDiff)
    : outcome (t * result (list ChunkStoreDiff) ChunkStoreError) :=
  insert_id' ← arith_u64 debug_assertions (insert_id self + 1);
  let self := with_ids self insert_id' (gc_id self) (event_id self) in
  '(self, r) ←
    (if Chunk.is_static chunk
     then '(self, diffs) ← insert_static self chunk lineage; Done (self, Ok (chunk, diffs))
     else insert_temporal self new_id chunk lineage);
  match r with
  | Err e => Done (self, Err e)
  | Ok (chunk_after_processing, diffs) =>
      self ← make_physical self chunk_after_processing;
      Done (self, Ok (all_diffs ++ diffs))
  end.

Definition split_config self : ChunkSplitConfig := {|
  chunk_max_bytes := ChunkStoreConfig.chunk_max_bytes (config self);
  chunk_max_rows := ChunkStoreConfig.chunk_max_rows (config self);
  chunk_max_rows_if_unsorted := ChunkStoreConfig.chunk_max_rows_if_unsorted (config self);
|}.

(** One turn of the loop that splits what was split. *)
Fixpoint split_round self (new_id : Draw -> ChunkId.t) (round position : nat) (split_chunks : list Chunk.t)
    : outcome (list Chunk.t) :=
  match split_chunks with
  | [] => Done []
  | split_chunk :: split_chunks =>
      compacted ← descends_from_a_compaction self (Chunk.id split_chunk);
      let pieces :=
        if (compacted : bool) then []
        else ChunkSplit.split_chunk_if_needed (fun piece => new_id (SplitDraw round position piece))
               split_chunk (split_config self) in
      rest ← split_round self new_id round (S position) split_chunks;
      Done (pieces ++ rest)
  end.

Fixpoint split_rounds (fuel : nat) self (new_id : Draw -> ChunkId.t) (round : nat) (split_chunks : list Chunk.t)
    : outcome (list Chunk.t) :=
  match fuel with
  | O => Panic
  | S fuel =>
      new_chunks ← split_round self new_id round 0 split_chunks;
      if (length new_chunks =? length split_chunks)%nat then Done new_chunks
      else split_rounds fuel self new_id (S round) new_chunks
  end.

(** A round that is not the last one has more pieces, and there are no more than rows. *)
Definition split_recursively self (new_id : Draw -> ChunkId.t) chunk : outcome (list Chunk.t) :=
  split_rounds (S (Chunk.num_rows chunk)) self new_id 1
    (ChunkSplit.split_chunk_if_needed (fun piece => new_id (SplitDraw 0 0 piece)) chunk (split_config self)).

Definition patch chunk (diff : ChunkStoreDiff) : ChunkStoreDiff :=
  match diff with
  | Addition add => Addition (Added chunk (chunk_after_processing add) (direct_lineage add))
  | Deleted del => Deleted del
  end.

(** [insert] is the recursive call, for the piece at a position. *)
Fixpoint insert_splits
    (insert : nat -> t -> Chunk.t -> Report.t -> outcome (t * result (list ChunkStoreDiff) ChunkStoreError))
    self chunk (split_chunks : list Chunk.t) (position : nat) (todo : list Chunk.t) (all_diffs : list ChunkStoreDiff)
    : outcome (t * result (list ChunkStoreDiff) ChunkStoreError) :=
  match todo with
  | [] => Done (self, Ok all_diffs)
  | split_chunk :: todo =>
      let siblings := List.filter (fun c => negb (bool_decide (Chunk.id c = Chunk.id split_chunk))) split_chunks in
      '(self, r) ← insert position self split_chunk (Report.SplitFrom chunk siblings);
      match r with
      | Err e => Done (self, Err e)
      | Ok diffs => insert_splits insert self chunk split_chunks (S position) todo (all_diffs ++ (patch chunk <$> diffs))
      end
  end.

(** [self.dangling_splits] and [self.split_on_ingest] of a chunk that was split. *)
Definition record_splits self chunk (split_chunks : list Chunk.t) : t :=
  with_lineages self
    (Ctx (chunks_lineage (lineages self)) (leaky_compactions (lineages self))
       ({[Chunk.id chunk]} ∪ split_on_ingest (lineages self))
       (<[Chunk.id chunk := Chunk.id <$> split_chunks]> (dangling_splits (lineages self)))).

(** The removal of what an earlier insertion of the chunk left: its virtual entries, and the
    pieces it was split into. *)
Definition remove_leftovers self chunk : outcome (t * list ChunkStoreDiff) :=
  '(self, virtual) ←
    match Lineage.direct_lineage (chunks_lineage (lineages self)) (Chunk.id chunk) with
    | Some (Lineage.RootFromManifest _) => StoreGc.remove_chunks_deep self [chunk] VirtualToPhysicalReplacement
    | _ => Done (self, [])
    end;
  '(self, dangling) ←
    match dangling_splits (lineages self) !! Chunk.id chunk with
    | None => Done (self, [])
    | Some split_chunk_ids =>
        let self := with_lineages self
          (Ctx (chunks_lineage (lineages self)) (leaky_compactions (lineages self)) (split_on_ingest (lineages self))
             (delete (Chunk.id chunk) (dangling_splits (lineages self)))) in
        StoreGc.remove_chunks_deep self
          (omap (fun chunk_id => physical_chunks_per_chunk_id self !! chunk_id) split_chunk_ids) DanglingSplitCleanup
    end;
  Done (self, (Deleted <$> virtual) ++ (Deleted <$> dangling)).

(** The recursion is one level deep: what was split is not split again.  Once the chunk is not
    refused, every path asks for its size, in [split_chunk_if_needed], the election or
    [from_chunk], and that stores the size in the chunk, an [Arc] which the differences share:
    the chunk is the measured one from then on.  So are the pieces, which the reports of their
    siblings share: each is measured by the last [split_chunk_if_needed] or when it is inserted. *)
Fixpoint insert_chunk_impl (depth : nat) self (new_id : Draw -> ChunkId.t) chunk (lineage : Report.t)
    : outcome (t * result (list ChunkStoreDiff) ChunkStoreError) :=
  match depth with
  | O => Panic
  | S depth =>
      if Chunk.is_empty chunk then Done (self, Ok [])
      else if bool_decide (Chunk.components chunk = ∅) then Done (self, Ok [])
      else if bool_decide (is_Some (physical_chunks_per_chunk_id self !! Chunk.id chunk)) then Done (self, Ok [])
      else if negb (Chunk.is_row_ids_sorted chunk) then Done (self, Err UnsortedChunk)
      else
        _ ← Chunk.warn_if_out_of_order chunk;
        compacted ← unwrap (Lineage.follow_compactions (S (size (leaky_compactions (lineages self))))
                              (dom (physical_chunks_per_chunk_id self)) (leaky_compactions (lineages self)) (Chunk.id chunk));
        match compacted with
        | Some _ => Done (self, Ok [])
        | None =>
            let chunk := Chunk.measured chunk in
            '(self, all_diffs) ← remove_leftovers self chunk;
            self ← insert_lineage_if_missing self (Chunk.id chunk) lineage;
            chunk_descends_from_split ← descends_from_a_split self (Chunk.id chunk);
            chunk_descends_from_compaction ← descends_from_a_compaction self (Chunk.id chunk);
            if Chunk.is_static chunk || chunk_descends_from_split || chunk_descends_from_compaction
            then insert_whole self new_id chunk lineage all_diffs
            else
              split_chunks ← split_recursively self new_id chunk;
              let split_chunks := Chunk.measured <$> split_chunks in
              if (1 <? length split_chunks)%nat then
                insert_splits (fun position self => insert_chunk_impl depth self (fun draw => new_id (PieceDraw position draw)))
                  (record_splits self chunk split_chunks) chunk split_chunks 0 split_chunks all_diffs
              else insert_whole self new_id chunk lineage all_diffs
        end
  end.

(** [insert_chunk]; the caller turns the differences into events. *)
Definition insert_chunk self (new_id : Draw -> ChunkId.t) chunk
    : outcome (t * result (list ChunkStoreDiff) ChunkStoreError) :=
  if negb (Lineage.is_root_chunk (chunks_lineage (lineages self)) (Chunk.id chunk)) then Done (self, Ok [])
  else insert_chunk_impl 2 self new_id chunk Report.Volatile.

(** ** Dropping a time range *)

(** Whether the range drops rows of a chunk, and the rows it leaves. *)
Definition cut_chunk (new_id : DropDraw -> ChunkId.t) (timeline : TimelineName) (drop_range : AbsoluteTimeRange.t)
    (position : nat) chunk : outcome (bool * list Chunk.t) :=
  match Chunk.timelines chunk !! timeline with
  | None => Done (false, [])
  | Some time_column =>
      let chunk_range := TimeColumn.time_range time_column in
      if AbsoluteTimeRange.contains_range drop_range chunk_range then Done (true, [])
      else if AbsoluteTimeRange.intersects drop_range chunk_range then
        sorted ← ChunkSort.sorted_by_timeline_if_unsorted (new_id (SortByTime position)) chunk timeline;
        let num_rows := Chunk.num_rows sorted in
        time_column ← unwrap (Chunk.timelines sorted !! timeline);
        let times := TimeColumn.times time_column in
        let drop_range_min := TimeInt.as_i64 (AbsoluteTimeRange.rmin drop_range) in
        let drop_range_max := TimeInt.as_i64 (AbsoluteTimeRange.rmax drop_range) in
        let min_idx := partition_point (fun time => time <? drop_range_min) times in
        let max_idx := partition_point (fun time => time <=? drop_range_max) times in
        _ ← debug_assert (min_idx <=? max_idx)%nat;
        _ ← debug_assert (from_option (fun time => drop_range_min <=? time) false (times !! min_idx));
        _ ← debug_assert (negb (0 <? min_idx)%nat
                          || from_option (fun time => time <? drop_range_min) false (times !! (min_idx - 1)%nat));
        _ ← debug_assert (negb (max_idx <? num_rows)%nat
                          || from_option (fun time => drop_range_max <? time) false (times !! max_idx));
        _ ← debug_assert (negb ((max_idx <? num_rows)%nat && (0 <? max_idx)%nat)
                          || from_option (fun time => time <=? drop_range_max) false (times !! (max_idx - 1)%nat));
        if (min_idx <? max_idx)%nat then
          Done (true,
                (if (0 <? min_idx)%nat
                 then [ChunkSlice.row_sliced_shallow (new_id (SliceBefore position)) sorted 0 min_idx] else [])
                ++ (if (max_idx <? num_rows)%nat
                    then [ChunkSlice.row_sliced_shallow (new_id (SliceAfter position)) sorted max_idx (num_rows - max_idx)]
                    else []))
        else Done (false, [])
      else Done (false, [])
  end.

Fixpoint cut_chunks (new_id : DropDraw -> ChunkId.t) (timeline : TimelineName) (drop_range : AbsoluteTimeRange.t)
    (position : nat) (l : list Chunk.t) : outcome (list Chunk.t * list Chunk.t) :=
  match l with
  | [] => Done ([], [])
  | chunk :: l =>
      '(drop, new_chunks) ← cut_chunk new_id timeline drop_range position chunk;
      '(chunks_to_drop, more_chunks) ← cut_chunks new_id timeline drop_range (S position) l;
      Done ((if (drop : bool) then chunk :: chunks_to_drop else chunks_to_drop), new_chunks ++ more_chunks)
  end.

Fixpoint drop_chunks self (deep_removal : bool) (reason : ChunkDeletionReason) (chunks_to_drop : list Chunk.t)
    (deletion_diffs : list ChunkStoreDiff) : outcome (t * list ChunkStoreDiff) :=
  match chunks_to_drop with
  | [] => Done (self, deletion_diffs)
  | chunk :: chunks_to_drop =>
      '(self, dels) ← (if deep_removal then StoreGc.remove_chunks_deep self [chunk] reason
                       else StoreGc.remove_chunks_shallow self [chunk] None reason);
      drop_chunks self deep_removal reason chunks_to_drop (deletion_diffs ++ (Deleted <$> dels))
  end.

(** The error of an insertion is unwrapped. *)
Fixpoint insert_remains self (new_id : DropDraw -> ChunkId.t) (position : nat) (new_chunks : list Chunk.t)
    (diffs : list ChunkStoreDiff) : outcome (t * list ChunkStoreDiff) :=
  match new_chunks with
  | [] => Done (self, diffs)
  | chunk :: new_chunks =>
      chunk ← ChunkSort.sort_by_row_ids_if_needed (new_id (SortByRowId position)) chunk;
      '(self, r) ← insert_chunk self (fun draw => new_id (InsertDraw position draw)) chunk;
      match r with
      | Err _ => Panic
      | Ok inserted => insert_remains self new_id (S position) new_chunks (diffs ++ inserted)
      end
  end.

Definition drop_time_range self (new_id : DropDraw -> ChunkId.t) (timeline : TimelineName)
    (drop_range : AbsoluteTimeRange.t) (deep_removal : bool) (reason : ChunkDeletionReason)
    : outcome (t * list ChunkStoreDiff) :=
  if TimeInt.lt (AbsoluteTimeRange.rmax drop_range) (AbsoluteTimeRange.rmin drop_range) then Done (self, [])
  else
    '(chunks_to_drop, new_chunks) ← cut_chunks new_id timeline drop_range 0 (StoreGc.iter_physical_chunks self);
    '(self, deletion_diffs) ← drop_chunks self deep_removal reason chunks_to_drop [];
    insert_remains self new_id 0 new_chunks deletion_diffs.

Definition drop_time_range_shallow self (new_id : DropDraw -> ChunkId.t) (timeline : TimelineName)
    (drop_range : AbsoluteTimeRange.t) (reason : ChunkDeletionReason) : outcome (t * list ChunkStoreDiff) :=
  drop_time_range self new_id timeline drop_range false reason.

Definition drop_time_range_deep self (new_id : DropDraw -> ChunkId.t) (timeline : TimelineName)
    (drop_range : AbsoluteTimeRange.t) (reason : ChunkDeletionReason) : outcome (t * list ChunkStoreDiff) :=
  drop_time_range self new_id timeline drop_range true reason.

(** ** Dropping an entity *)

Definition min_row_ids self (chunk_ids : gset ChunkId.t) : gset (RowId.t * ChunkId.t) :=
  list_to_set (omap (fun chunk_id =>
    chunk ← physical_chunks_per_chunk_id self !! chunk_id;
    '(min_row_id, _) ← Chunk.row_id_range chunk;
    Some (min_row_id, chunk_id)) (set_iter chunk_ids)).

(** The chunks that leave the map of physical chunks, and the statistics they leave. *)
Fixpoint drop_physical (chunks : gmap ChunkId.t Chunk.t) (stats : ChunkStoreChunkStats.t) (chunk_ids : list ChunkId.t)
    : outcome (gmap ChunkId.t Chunk.t * ChunkStoreChunkStats.t * list Chunk.t) :=
  match chunk_ids with
  | [] => Done (chunks, stats, [])
  | chunk_id :: chunk_ids =>
      match chunks !! chunk_id with
      | None => drop_physical chunks stats chunk_ids
      | Some chunk =>
          stats ← ChunkStoreChunkStats.sub stats (ChunkStoreChunkStats.of_chunk chunk);
          '(chunks, stats, dropped) ← drop_physical (delete chunk_id chunks) stats chunk_ids;
          Done (chunks, stats, chunk :: dropped)
      end
  end.

Definition drop_entity_path self (entity_path : EntityPath) : outcome (t * list ChunkStoreDiff) :=
  gc_id' ← arith_u64 debug_assertions (gc_id self + 1);
  let self := with_ids self (insert_id self) gc_id' (event_id self) in
  let static_ids : gset ChunkId.t :=
    list_to_set (map_to_list (default ∅ (static_chunk_ids_per_entity self !! entity_path))).*2 in
  let temporal_ids : gset ChunkId.t :=
    ⋃ ((map_to_list (default ∅ (temporal_chunk_ids_per_entity self !! entity_path))).*2 ≫= fun index =>
       (map_to_list (ChunkIdSetPerTime.per_start_time index)).*2) in
  let min_row_ids := physical_chunk_ids_per_min_row_id self ∖ min_row_ids self static_ids ∖ min_row_ids self temporal_ids in
  '(chunks, static_stats, dropped_static_chunks) ←
    drop_physical (physical_chunks_per_chunk_id self) (static_chunks_stats self) (set_iter static_ids);
  '(chunks, temporal_stats, dropped_temporal_chunks) ←
    drop_physical chunks (temporal_physical_chunks_stats self) (set_iter temporal_ids);
  let self := with_physical self chunks min_row_ids in
  let self := with_indices self (delete entity_path (temporal_chunk_ids_per_entity_per_component self))
                (delete entity_path (temporal_chunk_ids_per_entity self)) in
  let self := with_temporal_stats (with_static self (delete entity_path (static_chunk_ids_per_entity self)) static_stats)
                temporal_stats in
  Done (self, (fun chunk => Deleted (Deletion chunk ExplicitDrop)) <$> dropped_static_chunks ++ dropped_temporal_chunks).

(** ** Inserting a manifest *)

(** [HashMap::extend] of the lineages: an entry that is there is overwritten. *)
Definition extend_lineage (store : gmap ChunkId.t TrackedDirectChunkLineage) (is_static : bool)
    (chunk_ids : list ChunkId.t) : gmap ChunkId.t TrackedDirectChunkLineage :=
  foldl (fun store chunk_id => <[chunk_id := Tracked (Lineage.RootFromManifest is_static) 0 true]> store)
    store chunk_ids.

(** The entries of the temporal map, in the order of the four loops. *)
Definition manifest_entries (m : RrdManifestTemporalMap)
    : list (EntityPath * TimelineName * ComponentIdentifier * ChunkId.t * AbsoluteTimeRange.t) :=
  map_to_list m ≫= fun '(entity_path, per_timeline) =>
  (per_timeline : list (Timeline * _)) ≫= fun '(timeline, per_component) =>
  map_to_list (per_component : gmap string _) ≫= fun '(component, per_chunk) =>
  (fun '(chunk_id, entry) => (entity_path, tl_name timeline, component, chunk_id, entry_time_range entry))
    <$> sort_by (fun a b => ChunkId.le (fst a) (fst b)) (map_to_list (per_chunk : gmap ChunkId.t _)).

(** [entry(key).or_default()], updated. *)
Definition entry_or {A} (dflt : A) (key : string) (f : A -> A) (m : gmap string A) : gmap string A :=
  <[key := f (default dflt (m !! key))]> m.

Definition index_virtual self
    (e : EntityPath * TimelineName * ComponentIdentifier * ChunkId.t * AbsoluteTimeRange.t) : t :=
  let '(entity_path, timeline, component, chunk_id, time_range) := e in
  let insert index := ChunkIdSetPerTime.insert index time_range chunk_id in
  let per_component :=
    entry_or ∅ timeline (entry_or ChunkIdSetPerTime.empty component insert)
      (default ∅ (temporal_chunk_ids_per_entity_per_component self !! entity_path)) in
  let per_timeline :=
    entry_or ChunkIdSetPerTime.empty timeline insert (default ∅ (temporal_chunk_ids_per_entity self !! entity_path)) in
  with_indices self
    (<[entity_path := per_component]> (temporal_chunk_ids_per_entity_per_component self))
    (<[entity_path := per_timeline]> (temporal_chunk_ids_per_entity self)).

Definition insert_dlr_manifest self (static_map : RrdManifestStaticMap) (temporal_map : RrdManifestTemporalMap) : t :=
  let static_ids := (map_to_list static_map).*2 ≫= fun per_component => (map_to_list (per_component : gmap string ChunkId.t)).*2 in
  let store := extend_lineage (chunks_lineage (lineages self)) true static_ids in
  let ids := union_with (fun old new => Some (new ∪ old)) (static_chunk_ids_per_entity self) static_map in
  let store := extend_lineage store false ((fun '(_, _, _, chunk_id, _) => chunk_id) <$> manifest_entries temporal_map) in
  let self := with_static (with_chunks_lineage self store) ids (static_chunks_stats self) in
  foldl index_virtual self (manifest_entries temporal_map).

End Operations.

End StoreWrites.
