(* ===== verification/StoreFrame.v ===== *)
(** * What insertions and collections keep of the store

    A store into which no manifest was inserted only forgets and adds lineages without one, and
    a static component of an entity stays one.  Both hold of every run of the operations,
    whatever state they start in. *)

From stdpp Require Import strings.
From S2P Require Import Prelude Ints Tuid Arrow Column Chunk ChunkSlice.
From S2P Require Import ChunkIndex Lineage StoreStats ChunkStore StoreGc StoreWrites.

(** What holds of the result, if there is one. *)
Definition ensures {A} (P : A -> Prop) (o : outcome A) : Prop := match o with Done a => P a | Panic => True end.

Lemma ensures_bind {A B} (P : A -> Prop) (Q : B -> Prop) (o : outcome A) (f : A -> outcome B) :
  ensures P o -> (forall a, P a -> ensures Q (f a)) -> ensures Q (a ← o; f a).
Proof. destruct o as [a|]; [|done]. intros Ha Hf. by apply Hf. Qed.

Lemma ensures_weaken {A} (P Q : A -> Prop) (o : outcome A) : ensures P o -> (forall a, P a -> Q a) -> ensures Q o.
Proof. destruct o; simpl; auto. Qed.

Lemma ensures_any {A} (o : outcome A) : ensures (fun _ => True) o.
Proof. by destruct o. Qed.

(** A step that may panic and is not looked at. *)
Lemma ensures_skip {A B} (Q : B -> Prop) (o : outcome A) (f : A -> outcome B) :
  (forall a, ensures Q (f a)) -> ensures Q (a ← o; f a).
Proof. intros Hf. eapply ensures_bind; [apply ensures_any|auto]. Qed.

(** ** Lineages *)

Definition unmanifested (m : gmap ChunkId.t TrackedDirectChunkLineage) : Prop :=
  forall i l, m !! i = Some l -> forall src, lineage l <> RootFromManifest src.

Lemma unmanifested_insert m i l : (forall src, lineage l <> RootFromManifest src) -> unmanifested m -> unmanifested (<[i := l]> m).
Proof. intros Hl Hm j l' [[<- <-]|[_ Hj]]%lookup_insert_Some; [done|by apply (Hm j)]. Qed.

Lemma unmanifested_delete m i : unmanifested m -> unmanifested (delete i m).
Proof. intros Hm j l' [_ Hj]%lookup_delete_Some. by apply (Hm j). Qed.

Section Lineages.

Context `{Build}.

Lemma bump_unmanifested m i : unmanifested m -> ensures unmanifested (Lineage.bump_reference m i).
Proof.
  intros Hm. unfold Lineage.bump_reference. destruct (m !! i) as [l|] eqn:E; [|done].
  apply ensures_skip. intros n. apply unmanifested_insert; [exact (Hm i l E)|done].
Qed.

Lemma bumps_unmanifested ids : forall m, unmanifested m -> ensures unmanifested (Lineage.bump_references m ids).
Proof.
  induction ids as [|i ids IH]; intros m Hm; [done|]. cbn [Lineage.bump_references].
  eapply ensures_bind; [by apply bump_unmanifested|exact IH].
Qed.

Lemma record_unmanifested m i new : (forall src, new <> RootFromManifest src) -> unmanifested m ->
  ensures unmanifested (Lineage.insert_lineage_if_missing m i new).
Proof.
  intros Hnew Hm. unfold Lineage.insert_lineage_if_missing. destruct (m !! i).
  - by apply ensures_skip.
  - by apply bumps_unmanifested, unmanifested_insert.
Qed.

Lemma drop_step_unmanifested ctx op : unmanifested (chunks_lineage ctx) -> unmanifested (chunks_lineage (fst (Lineage.drop_step ctx op))).
Proof.
  intros Hm. destruct op as [i|i]; cbn [Lineage.drop_step]; destruct (chunks_lineage ctx !! i) as [l|] eqn:E; try done.
  - cbv zeta. set (l' := Tracked _ _ _).
    assert (unmanifested (<[i := l']> (chunks_lineage ctx))) by (apply unmanifested_insert; [exact (Hm i l E)|done]).
    repeat case_match; done.
  - by apply unmanifested_delete.
Qed.

Lemma drop_unmanifested fuel : forall ctx ops ctx', unmanifested (chunks_lineage ctx) ->
  Lineage.drop_loop fuel ctx ops = Some ctx' -> unmanifested (chunks_lineage ctx').
Proof.
  induction fuel as [|fuel IH]; intros ctx [|op ops] ctx' Hm; cbn [Lineage.drop_loop]; try (by intros [= <-]).
  pose proof (drop_step_unmanifested ctx op Hm) as Hs. destruct (Lineage.drop_step ctx op) as [ctx1 pushed]. by apply IH.
Qed.

End Lineages.

(** ** The store *)

Section Frame.

Import ChunkStore.
Context `{Build} `{ArrowOps} `{!Chunk.SizeBytes} `{HashOrder}.
Implicit Types st : ChunkStore.t.
Implicit Types c x : Chunk.t.

Notation lineage_of st := (chunks_lineage (lineages st)).

Record keeps st st' : Prop := {
  keeps_unmanifested : unmanifested (lineage_of st) -> unmanifested (lineage_of st');
  keeps_static path component : is_Some (static_chunk_id st path component) -> is_Some (static_chunk_id st' path component);
}.

#[export] Instance keeps_preorder : PreOrder keeps.
Proof. split; [by split|]. intros a b c [? ?] [? ?]. split; auto. Qed.

(** Updates of the other fields. *)
Lemma keeps_same st st' : lineage_of st' = lineage_of st ->
  static_chunk_ids_per_entity st' = static_chunk_ids_per_entity st -> keeps st st'.
Proof. intros El Es. split; [by rewrite El|]. intros path k. unfold static_chunk_id. by rewrite Es. Qed.

Lemma keeps_lineage st store : (unmanifested (lineage_of st) -> unmanifested store) -> keeps st (StoreWrites.with_chunks_lineage st store).
Proof. by split. Qed.

Hint Extern 1 (keeps _ _) => by apply keeps_same : core.

Definition keeps_result {A} st (r : ChunkStore.t * A) : Prop := keeps st (fst r).

Lemma ensures_keeps {A B} st (o : outcome (ChunkStore.t * A)) (f : ChunkStore.t * A -> outcome (ChunkStore.t * B)) :
  ensures (keeps_result st) o -> (forall st1 a, ensures (keeps_result st1) (f (st1, a))) ->
  ensures (keeps_result st) (r ← o; f r).
Proof.
  intros Ho Hf. eapply ensures_bind; [exact Ho|]. intros [st1 a] Hk. eapply ensures_weaken; [apply Hf|].
  intros r Hr. unfold keeps_result in *. by etransitivity.
Qed.

Lemma ensures_from {A} st st1 (o : outcome (ChunkStore.t * A)) : keeps st st1 -> ensures (keeps_result st1) o -> ensures (keeps_result st) o.
Proof. intros Hk Ho. eapply ensures_weaken; [exact Ho|]. intros r Hr. unfold keeps_result in *. by etransitivity. Qed.

(** *** Removals *)

Lemma drop_lineage_keeps st id : keeps st (StoreGc.drop_lineage st id).
Proof.
  unfold StoreGc.drop_lineage. split; [|done]. cbn [with_lineages lineages].
  destruct (Lineage.drop_lineage_reference _ _) as [ctx|] eqn:E; [|done]. intros Hm. by eapply drop_unmanifested.
Qed.

Lemma remove_virtual_keeps st c : keeps st (fst (StoreGc.remove_chunk_from_virtual_indices st c)).
Proof.
  unfold StoreGc.remove_chunk_from_virtual_indices.
  repeat (case_match; simplify_eq/=); by apply keeps_same.
Qed.

Lemma remove_physical_keeps st c : keeps st (StoreGc.remove_physical st c).
Proof.
  unfold StoreGc.remove_physical. cbv zeta. case_bool_decide; [etransitivity; [|apply remove_virtual_keeps]|].
  all: etransitivity; [|apply drop_lineage_keeps]; auto.
Qed.

Lemma shallow_keeps exhausted reason cs : forall st dels, ensures (keeps_result st) (StoreGc.shallow_loop st exhausted reason cs dels).
Proof.
  induction cs as [|c cs IH]; intros st dels; cbn [StoreGc.shallow_loop]; [by apply keeps_same|].
  apply (ensures_from st (StoreGc.remove_min_row_id st c)).
  { unfold StoreGc.remove_min_row_id. by destruct (Chunk.row_id_range c) as [[? ?]|]; apply keeps_same. }
  set (st1 := StoreGc.remove_min_row_id st c). destruct (physical_chunks_per_chunk_id st1 !! Chunk.id c) as [c'|]; [|apply IH].
  apply (ensures_from _ (StoreGc.remove_physical st1 c')); [apply remove_physical_keeps|].
  apply ensures_skip. intros stats. apply (ensures_from _ (with_temporal_stats (StoreGc.remove_physical st1 c') stats)); [auto|].
  destruct (exhausted _); [by apply keeps_same|apply IH].
Qed.

Lemma deep_keeps reason cs : forall st, keeps st (fst (StoreGc.deep_loop st reason cs)).
Proof.
  induction cs as [|c cs IH]; intros st; cbn [StoreGc.deep_loop]; [by apply keeps_same|].
  pose proof (remove_virtual_keeps st c) as Hk. destruct (StoreGc.remove_chunk_from_virtual_indices st c) as [st1 b].
  specialize (IH st1). destruct (StoreGc.deep_loop st1 reason cs) as [st2 dels]. by etransitivity.
Qed.

Lemma remove_shallow_keeps st cs budget reason : ensures (keeps_result st) (StoreGc.remove_chunks_shallow st cs budget reason).
Proof. apply shallow_keeps. Qed.

Lemma remove_deep_keeps st cs reason : ensures (keeps_result st) (StoreGc.remove_chunks_deep st cs reason).
Proof.
  unfold StoreGc.remove_chunks_deep. apply ensures_keeps; [apply remove_shallow_keeps|]. intros st1 dels.
  pose proof (deep_keeps reason cs st1) as Hk. by destruct (StoreGc.deep_loop st1 reason cs).
Qed.

(** A collection. *)
Lemma gc_keeps st options e1 e2 : ensures (fun r => keeps st (r.1.1)) (StoreGc.gc st options e1 e2).
Proof.
  unfold StoreGc.gc. apply ensures_skip. intros id. apply ensures_skip. intros total. apply ensures_skip. intros target.
  eapply (ensures_bind (keeps_result (with_ids st (insert_id st) id (event_id st)))).
  - unfold StoreGc.gc_drop_at_least_num_bytes. apply ensures_skip. intros marked.
    destruct (if perform_deep_deletions options then _ else _) as [deeply shallow].
    apply ensures_keeps; [apply remove_shallow_keeps|]. intros st1 dels1.
    apply ensures_keeps; [apply remove_deep_keeps|]. intros st2 dels2. by apply keeps_same.
  - intros [st' dels] Hk. do 2 (apply ensures_skip; intros ?). cbn [ensures fst]. etransitivity; [|exact Hk]. auto.
Qed.

(** *** Insertions *)

Lemma insert_lineage_keeps st id report : (forall src, report <> Report.RootFromManifest src) ->
  ensures (keeps st) (StoreWrites.insert_lineage_if_missing st id report).
Proof.
  intros Hrep. unfold StoreWrites.insert_lineage_if_missing.
  assert (forall src, Report.direct report <> RootFromManifest src) as Hd by (intros src E; destruct report as [| |b|]; try done; by apply (Hrep b)).
  pose proof (record_unmanifested (lineage_of st) id (Report.direct report) Hd) as Hr.
  destruct (Lineage.insert_lineage_if_missing _ _ _) as [m|]; [|done]. by apply keeps_lineage.
Qed.

Lemma record_compactions_keeps ids target : forall st, ensures (keeps st) (StoreWrites.record_compactions st ids target).
Proof.
  induction ids as [|id ids IH]; intros st; cbn [StoreWrites.record_compactions]; [by apply keeps_same|].
  apply ensures_skip. intros _. eapply ensures_weaken; [apply IH|]. intros st1 Hk. etransitivity; [|exact Hk]. auto.
Qed.

Lemma replace_elected_keeps st x e k : ensures (keeps_result st) (StoreWrites.replace_elected st x e k).
Proof.
  unfold StoreWrites.replace_elected. eapply ensures_bind; [apply record_compactions_keeps|]. intros st1 Hk1.
  eapply ensures_bind; [by apply insert_lineage_keeps|]. intros st2 Hk2.
  apply (ensures_from st st2); [by etransitivity|]. apply ensures_keeps; [apply remove_deep_keeps|].
  intros st3 dels. by apply keeps_same.
Qed.

Lemma insert_temporal_keeps st new_id x report : ensures (keeps_result st) (StoreWrites.insert_temporal st new_id x report).
Proof.
  unfold StoreWrites.insert_temporal. apply ensures_skip. intros [[[e|] k]|err]; [| |by apply keeps_same].
  all: apply ensures_skip; intros stats; apply (ensures_from st (with_temporal_stats (index_temporal st (Chunk.measured k)) stats)); [auto|].
  - apply ensures_keeps; [apply replace_elected_keeps|]. intros st1 l. by apply keeps_same.
  - by apply keeps_same.
Qed.

(** The static index of the entity only grows. *)
Lemma static_components_grow st x ids k : is_Some (ids !! k) ->
  is_Some ((StoreWrites.insert_static_components st x ids).1 !! k).
Proof.
  unfold StoreWrites.insert_static_components. generalize (∅ : gmap ChunkId.t RowId.t) (map_to_list (Chunk.components x)).
  intros over l. revert ids over. induction l as [|[component column] l IH]; intros ids over Hk; [done|]. cbn [foldl].
  destruct (StoreWrites.column_is_empty column); [by apply IH|].
  unfold StoreWrites.insert_static_component. repeat case_match; apply IH; try done.
  all: rewrite lookup_insert_is_Some; destruct (decide (component = k)); auto.
Qed.

Lemma remove_overwritten_keeps pc l : forall st diffs, ensures (keeps_result st) (StoreWrites.remove_overwritten st pc l diffs).
Proof.
  induction l as [|[id row_id] l IH]; intros st diffs; cbn [StoreWrites.remove_overwritten]; [by apply keeps_same|].
  destruct (existsb _ _); [apply IH|]. apply ensures_skip. intros _. apply ensures_skip. intros _.
  set (st1 := with_physical st _ _). assert (keeps st st1) as Hk by auto.
  destruct (physical_chunks_per_chunk_id st !! id); [|by eapply ensures_from, IH].
  apply ensures_skip. intros stats. eapply ensures_from, IH. etransitivity; [exact Hk|].
  etransitivity; [apply (drop_lineage_keeps st1 id)|]. auto.
Qed.

Lemma insert_static_keeps st x report : ensures (keeps_result st) (StoreWrites.insert_static st x report).
Proof.
  unfold StoreWrites.insert_static. set (path := Chunk.entity_path x).
  pose proof (static_components_grow st x (default ∅ (static_chunk_ids_per_entity st !! path))) as Hg.
  destruct (StoreWrites.insert_static_components st x _) as [ids over]. cbn [fst] in Hg.
  set (static_ids := if StoreWrites.has_static_data x then _ else _).
  apply ensures_skip. intros stats. apply (ensures_from st (with_static st static_ids stats)).
  { split; [done|]. intros path' k. unfold static_chunk_id. cbn [with_static static_chunk_ids_per_entity]. unfold static_ids.
    destruct (StoreWrites.has_static_data x); [|done]. destruct (decide (path = path')) as [<-|Hne].
    - rewrite lookup_insert_eq. cbn [mbind option_bind]. intros Hs. apply Hg.
      by destruct (static_chunk_ids_per_entity st !! path); [|destruct Hs].
    - by rewrite lookup_insert_ne. }
  apply ensures_skip. intros _. destruct (static_ids !! path); [apply remove_overwritten_keeps|by apply keeps_same].
Qed.

Lemma make_physical_keeps st x : ensures (keeps st) (StoreWrites.make_physical st x).
Proof.
  unfold StoreWrites.make_physical. pose proof (bump_unmanifested (lineage_of st) (Chunk.id x)) as Hb.
  destruct (Lineage.bump_reference _ _) as [m|]; [|done]. cbn [mbind outcome_bind ensures].
  etransitivity; [by apply (keeps_lineage st m)|auto].
Qed.

Lemma insert_whole_keeps st new_id x report diffs : ensures (keeps_result st) (StoreWrites.insert_whole st new_id x report diffs).
Proof.
  unfold StoreWrites.insert_whole. apply ensures_skip. intros id.
  apply (ensures_from st (with_ids st id (gc_id st) (event_id st))); [auto|]. apply ensures_keeps.
  - destruct (Chunk.is_static x); [|apply insert_temporal_keeps].
    apply ensures_keeps; [apply insert_static_keeps|]. intros st1 ds. by apply keeps_same.
  - intros st1 [[k ds]|err]; [|by apply keeps_same]. eapply ensures_bind; [apply make_physical_keeps|]. by intros st2.
Qed.

Lemma remove_leftovers_keeps st x : ensures (keeps_result st) (StoreWrites.remove_leftovers st x).
Proof.
  unfold StoreWrites.remove_leftovers. apply ensures_keeps.
  { destruct (Lineage.direct_lineage _ _) as [[]|]; try (by apply keeps_same). apply remove_deep_keeps. }
  intros st1 ds. apply ensures_keeps; [|intros st2 ds'; by apply keeps_same].
  destruct (dangling_splits _ !! _); [|by apply keeps_same]. eapply ensures_from, remove_deep_keeps. auto.
Qed.

Lemma insert_splits_keeps insert x pieces : (forall position st p report, (forall src, report <> Report.RootFromManifest src) ->
    ensures (keeps_result st) (insert position st p report)) ->
  forall todo st position diffs, ensures (keeps_result st) (StoreWrites.insert_splits insert st x pieces position todo diffs).
Proof.
  intros Hins. induction todo as [|p todo IH]; intros st position diffs; cbn [StoreWrites.insert_splits]; [by apply keeps_same|].
  apply ensures_keeps; [by apply Hins|]. intros st1 [ds|err]; [apply IH|by apply keeps_same].
Qed.

Lemma insert_impl_keeps depth : forall st new_id x report, (forall src, report <> Report.RootFromManifest src) ->
  ensures (keeps_result st) (StoreWrites.insert_chunk_impl depth st new_id x report).
Proof.
  induction depth as [|depth IH]; intros st new_id x report Hrep; [done|]. cbn [StoreWrites.insert_chunk_impl].
  repeat (case_match; [by apply keeps_same|]). apply ensures_skip. intros _. apply ensures_skip. intros [k|]; [by apply keeps_same|].
  apply ensures_keeps; [apply remove_leftovers_keeps|]. intros st1 ds.
  eapply ensures_bind; [by apply insert_lineage_keeps|]. intros st2 Hk. apply (ensures_from st1 st2 _ Hk).
  do 2 (apply ensures_skip; intros ?). case_match; [apply insert_whole_keeps|].
  apply ensures_skip. intros pieces. case_match; [|apply insert_whole_keeps].
  apply (ensures_from _ (StoreWrites.record_splits st2 (Chunk.measured x) (Chunk.measured <$> pieces))); [auto|]. apply insert_splits_keeps.
  intros position st3 p report' Hrep'. by apply IH.
Qed.

(** An insertion. *)
Lemma insert_keeps st new_id x : ensures (keeps_result st) (StoreWrites.insert_chunk st new_id x).
Proof. unfold StoreWrites.insert_chunk. case_match; [by apply keeps_same|]. by apply insert_impl_keeps. Qed.

End Frame.
