(* ===== verification/StoreInvariant.v ===== *)
(** * The invariant of the store, and removals

    What ties the maps of the store together, and that removing chunks keeps it: what the
    contracts of [StoreGcSpec] and the theorems on insertion rest on. *)

From stdpp Require Import strings.
From S2P Require Import Prelude Ints TimeInt TimeRange Tuid Arrow Column Chunk ChunkSlice.
From S2P Require Import ChunkQuery ChunkIndex Lineage StoreStats ChunkStore StoreGc.

Section Invariant.

Import ChunkStore.
Context `{Build} `{ArrowLaws} `{!Chunk.SizeBytes}.
Implicit Types st : ChunkStore.t.
Implicit Types c : Chunk.t.

Notation physical st := (physical_chunks_per_chunk_id st).
Notation lineage_of st := (chunks_lineage (lineages st)).

(** The chunks in memory, and the statistics of those of one kind. *)
Definition physical_list (m : gmap ChunkId.t Chunk.t) : list Chunk.t := (map_to_list m).*2.
Definition stats_of (is_static : bool) (m : gmap ChunkId.t Chunk.t) : ChunkStoreChunkStats.t :=
  plus_all (ChunkStoreChunkStats.of_chunk
    <$> filter (fun c => Chunk.is_static c = is_static) (physical_list m)).

Definition unreferenced_by (m : gmap ChunkId.t TrackedDirectChunkLineage) (id : ChunkId.t) : Prop :=
  forall i l, m !! i = Some l -> id ∉ Lineage.iter_referenced_chunks (lineage l).

(** The lineages: exact counts of the chunks in memory, and what holds of [Lineage].  While a
    chunk is being inserted there may be an entry that nothing refers to yet: those of [new]. *)
Record lineages_almost_ok (new dom : gset ChunkId.t) (m : gmap ChunkId.t TrackedDirectChunkLineage) : Prop := {
  ok_counted : counted dom m [];
  ok_families : families m;
  ok_idle id l : m !! id = Some l -> idle m id l -> id ∈ new;
  ok_flagged : flagged m;
  ok_known id : id ∈ dom -> is_Some (m !! id);
  ok_volatile id l : id ∈ dom -> m !! id = Some l -> lineage l = Volatile -> unreferenced_by m id;
}.

(** The other maps of lineage only know of chunks that have an entry. *)
Definition led ctx : Prop :=
  forall id, is_Some (leaky_compactions ctx !! id) \/ is_Some (dangling_splits ctx !! id) ->
    is_Some (chunks_lineage ctx !! id).

(** The chunks in memory by their least row ids. *)
Definition min_row_ids_of (ids : gset (RowId.t * ChunkId.t)) (m : gmap ChunkId.t Chunk.t) : Prop :=
  forall row_id id, (row_id, id) ∈ ids <->
    exists c row_id_max, m !! id = Some c /\ Chunk.row_id_range c = Some (row_id, row_id_max).

(** The invariant.  [cs] are the temporal chunks the indices know of, in memory or not; those
    that are not can be fetched again from a manifest, except for the ids [pending].  The size of
    each chunk in memory is cached.  A release
    build lets statistics wrap around, a debug build has panicked by then. *)
Record store_almost_ok (new : gset ChunkId.t) st (cs : list Chunk.t) (pending : list ChunkId.t) : Prop := {
  ok_virtual : virtual_indexes st cs;
  ok_distinct : NoDup (Chunk.id <$> cs);
  ok_keys id c : physical st !! id = Some c -> Chunk.id c = id;
  ok_rows id c : physical st !! id = Some c -> Chunk.num_rows c <> 0%nat;
  ok_temporal id c : physical st !! id = Some c -> Chunk.is_static c = false -> c ∈ cs;
  ok_consistent c c' : c ∈ cs -> physical st !! Chunk.id c = Some c' -> c' = c /\ Chunk.is_static c = false;
  ok_min_row_ids : min_row_ids_of (physical_chunk_ids_per_min_row_id st) (physical st);
  ok_lineages : lineages_almost_ok new (dom (physical st)) (lineage_of st);
  ok_led : led (lineages st);
  ok_missing c : c ∈ cs -> physical st !! Chunk.id c = None ->
    manifest_root (lineage_of st) (Chunk.id c) \/ Chunk.id c ∈ pending;
  ok_static_ids path per_component component id c : static_chunk_ids_per_entity st !! path = Some per_component ->
    per_component !! component = Some id -> physical st !! id = Some c -> Chunk.is_static c = true;
  ok_static_lineage id c l : physical st !! id = Some c -> Chunk.is_static c = true -> lineage_of st !! id = Some l ->
    lineage l = Volatile \/ exists src, lineage l = RootFromManifest src;
  ok_sized id c : physical st !! id = Some c -> all_stats (fun z => 0 <= z) (ChunkStoreChunkStats.of_chunk c);
  ok_measured id c : physical st !! id = Some c -> Chunk.measured c = c;
  ok_temporal_stats : temporal_physical_chunks_stats st = wrapped (stats_of false (physical st));
  ok_static_stats : static_chunks_stats st = wrapped (stats_of true (physical st));
  ok_u64 : debug_assertions = true ->
    all_stats is_u64 (stats_of false (physical st)) /\ all_stats is_u64 (stats_of true (physical st));
}.

#[local] Notation lineages_ok := (lineages_almost_ok ∅).
#[local] Notation store_ok := (store_almost_ok ∅).

Lemma ok_tidy D m : lineages_ok D m -> tidy m.
Proof. intros Hok id l Hl Hi. by apply (ok_idle _ _ _ Hok id l Hl), elem_of_empty in Hi. Qed.

Lemma led_shrunk ctx ctx' : led ctx -> shrunk ctx ctx' -> led ctx'.
Proof.
  intros Hl [Hs Hf] id Hin. destruct (chunks_lineage ctx' !! id) as [l|] eqn:E; [done|]. exfalso.
  specialize (Hf id). rewrite E in Hf. destruct Hf as [Hgone Hkept].
  destruct (chunks_lineage ctx !! id) as [l|] eqn:E0.
  - destruct (Hgone (conj eq_refl (mk_is_Some _ _ eq_refl))) as (E1 & _ & E2). rewrite E1, E2 in Hin. by destruct Hin as [[? ?]|[? ?]].
  - destruct (Hkept (or_intror eq_refl)) as (E1 & _ & E2). rewrite E1, E2 in Hin.
    apply Hl in Hin. rewrite E0 in Hin. by destruct Hin.
Qed.

Lemma same_id_same_chunk cs c c' : NoDup (Chunk.id <$> cs) -> c ∈ cs -> c' ∈ cs -> Chunk.id c' = Chunk.id c -> c' = c.
Proof. intros Hnd Hc Hc' Hid. by apply (same_chunk cs c' c). Qed.

(** *** The empty store *)

Lemma new_store_ok config : store_ok (ChunkStore.new config) [] [].
Proof.
  split; cbn [ChunkStore.new physical_chunk_ids_per_min_row_id physical_chunks_per_chunk_id lineages
    chunks_lineage temporal_physical_chunks_stats static_chunks_stats];
    try (intros id c Hc; by rewrite lookup_empty in Hc); try done.
  - apply (indexes_empty config).
  - constructor.
  - intros row_id id. split; [by intros ?%elem_of_empty|]. intros (c & m & Hc & _). by rewrite lookup_empty in Hc.
  - intros id [[? Hl]|[? Hl]]; cbn in Hl; by rewrite lookup_empty in Hl.
  - intros c Hc. by apply elem_of_nil in Hc.
Qed.

(** *** Statistics *)

Lemma stats_of_delete b m id c : m !! id = Some c ->
  stats_of b m = if decide (Chunk.is_static c = b)
                 then plus (ChunkStoreChunkStats.of_chunk c) (stats_of b (delete id m))
                 else stats_of b (delete id m).
Proof.
  intros Hc. unfold stats_of, physical_list.
  assert ((map_to_list m).*2 ≡ₚ c :: (map_to_list (delete id m)).*2) as Hp.
  { by rewrite <- (map_to_list_delete m id c Hc). }
  rewrite Hp, filter_cons. by case_decide.
Qed.

Lemma stats_of_delete_other b m id c : m !! id = Some c -> Chunk.is_static c = negb b ->
  stats_of b (delete id m) = stats_of b m.
Proof. intros Hc Hb. rewrite (stats_of_delete b m id c Hc), decide_False; [done|]. rewrite Hb. by destruct b. Qed.

Lemma stats_of_insert b m id c : m !! id = None ->
  stats_of b (<[id := c]> m) = if decide (Chunk.is_static c = b)
                 then plus (ChunkStoreChunkStats.of_chunk c) (stats_of b m) else stats_of b m.
Proof.
  intros Hc. rewrite (stats_of_delete b _ id c) by apply lookup_insert_eq.
  rewrite delete_insert_id by done. done.
Qed.

Lemma stats_of_nonneg b m : map_Forall (fun _ c => all_stats (fun z => 0 <= z) (ChunkStoreChunkStats.of_chunk c)) m ->
  all_stats (fun z => 0 <= z) (stats_of b m).
Proof.
  induction m as [|id c m Hid IH] using map_ind; [done|].
  intros Hall. apply map_Forall_insert in Hall as [(? & ? & ? & ?) Hall]; [|done].
  destruct (IH Hall) as (? & ? & ? & ?). rewrite stats_of_insert by done. case_decide; [|done].
  stats_lia.
Qed.

(** Subtracting the statistics of a chunk that is counted. *)
Lemma stats_of_sub b m id c : m !! id = Some c -> Chunk.is_static c = b ->
  map_Forall (fun _ c => all_stats (fun z => 0 <= z) (ChunkStoreChunkStats.of_chunk c)) m ->
  (debug_assertions = true -> all_stats is_u64 (stats_of b m)) ->
  ChunkStoreChunkStats.sub (wrapped (stats_of b m)) (ChunkStoreChunkStats.of_chunk c)
    = Done (wrapped (stats_of b (delete id m)))
  /\ (debug_assertions = true -> all_stats is_u64 (stats_of b (delete id m))).
Proof.
  intros Hc Hb Hall Hu. pose proof (stats_of_delete b m id c Hc) as Hd. rewrite decide_True in Hd by done.
  assert (minus (stats_of b m) (ChunkStoreChunkStats.of_chunk c) = stats_of b (delete id m)) as Hm
    by (rewrite Hd; apply plus_minus).
  assert (debug_assertions = true -> all_stats is_u64 (stats_of b (delete id m))) as Hu'.
  { intros Hdb. specialize (Hu Hdb). pose proof (Hall id c Hc) as (? & ? & ? & ?).
    destruct (stats_of_nonneg b (delete id m)) as (? & ? & ? & ?); [by apply map_Forall_delete|].
    rewrite Hd in Hu. stats_lia. }
  split; [|done]. rewrite sub_wrapped; rewrite Hm; [done|]. intros Hdb. split; auto.
Qed.

(** *** Lineages *)

Lemma counted_leave (D : gset ChunkId.t) m id : id ∈ D -> counted D m [] -> counted (D ∖ {[id]}) m [id].
Proof.
  intros Hid Hc i l Hl. rewrite (Hc i l Hl), occurrences_cons. change (occurrences i []) with 0%nat.
  destruct (decide (i = id)) as [->|Hne].
  - rewrite decide_True, decide_False by set_solver. lia.
  - destruct (decide (i ∈ D)); [rewrite decide_True by set_solver|rewrite decide_False by set_solver]; lia.
Qed.

(** Dropping the reference of a chunk that leaves memory. *)
Lemma leave_lineages_ok (D : gset ChunkId.t) ctx id : id ∈ D -> lineages_ok D (chunks_lineage ctx) ->
  exists ctx', Lineage.drop_lineage_reference ctx id = Some ctx'
    /\ lineages_ok (D ∖ {[id]}) (chunks_lineage ctx') /\ shrunk ctx ctx' /\ forgot (D ∖ {[id]}) ctx ctx'.
Proof.
  intros Hid Hok. pose proof Hok as [Hc Hf _ Hfl Hk Hv]. pose proof (ok_tidy _ _ Hok) as Ht.
  destruct (drop_lineage_reference_ok (D ∖ {[id]}) ctx id) as (ctx' & Hrun & Hc' & Hf' & Ht' & Hs & Hg & Hfl');
    [by apply counted_leave|done|done|].
  exists ctx'. split_and!; [done| |done|done]. pose proof Hs as [Hsa _].
  split; [done|done|by intros id0 l Hl Hi; destruct (Ht' id0 l Hl)|by apply Hfl'|..].
  - intros i Hi. destruct (chunks_lineage ctx' !! i) eqn:E; [done|].
    destruct (Hk i ltac:(set_solver)) as [l Hl]. by destruct (Hg i l Hl E) as (_ & ? & _).
  - intros i l Hi Hl Hvol j lj Hj. destruct (Hsa i l Hl) as (l0 & Hl0 & Hlin & _), (Hsa j lj Hj) as (lj0 & Hlj0 & Hlinj & _).
    rewrite Hlinj. apply (Hv i l0 ltac:(set_solver) Hl0 ltac:(congruence) j lj0 Hlj0).
Qed.

(** A flagged entry is never dropped. *)
Lemma manifest_root_kept (D : gset ChunkId.t) ctx ctx' id : shrunk ctx ctx' -> forgot D ctx ctx' -> flagged (chunks_lineage ctx) ->
  manifest_root (chunks_lineage ctx) id -> manifest_root (chunks_lineage ctx') id.
Proof.
  intros [Hs _] Hg Hf (l & st & Hl & Hlin). destruct (chunks_lineage ctx' !! id) as [l'|] eqn:E.
  - destruct (Hs id l' E) as (l0 & Hl0 & Hlin' & _). exists l', st. split; [done|]. congruence.
  - destruct (Hg id l Hl E) as (Hm & _). rewrite (Hf id l Hl), Hlin in Hm. done.
Qed.

(** A root that is still known after it left memory is from a manifest. *)
Lemma root_kept (D : gset ChunkId.t) ctx ctx' id : id ∈ D -> lineages_ok D (chunks_lineage ctx) ->
  lineages_ok (D ∖ {[id]}) (chunks_lineage ctx') -> shrunk ctx ctx' ->
  Lineage.is_root_chunk (chunks_lineage ctx) id = true -> is_Some (chunks_lineage ctx' !! id) ->
  manifest_root (chunks_lineage ctx') id.
Proof.
  intros Hid Hok Hok' [Hs _] Hroot [l' Hl']. destruct (Hs id l' Hl') as (l & Hl & Hlin & Hm).
  unfold Lineage.is_root_chunk, Lineage.direct_lineage in Hroot. rewrite Hl in Hroot. simpl in Hroot.
  destruct (lineage l) as [p sib|ps|st|] eqn:El; [done|done|exists l', st; by rewrite Hlin|].
  exfalso. apply (ok_tidy _ _ Hok' id l' Hl'). split_and!.
  - rewrite Hm, (ok_flagged _ _ _ Hok id l Hl), El. done.
  - rewrite (ok_counted _ _ _ Hok' id l' Hl'). rewrite decide_False by set_solver.
    replace (Lineage.total (refers id) (chunks_lineage ctx')) with 0%nat; [done|]. symmetry. apply total_zero.
    intros i li Hi. apply occurrences_zero. destruct (Hs i li Hi) as (li0 & Hli0 & -> & _).
    by apply (ok_volatile _ _ _ Hok id l Hid Hl El i li0).
  - by rewrite Hlin.
Qed.

(** *** Removing one chunk from memory *)

(** The parts of the store that removals leave alone. *)
Definition same_rest st st' : Prop :=
  config st' = config st /\ static_chunk_ids_per_entity st' = static_chunk_ids_per_entity st
  /\ static_chunks_stats st' = static_chunks_stats st
  /\ queried_chunk_id_tracker st' = queried_chunk_id_tracker st
  /\ insert_id st' = insert_id st /\ gc_id st' = gc_id st /\ event_id st' = event_id st.

Lemma same_rest_refl st : same_rest st st.
Proof. by split_and!. Qed.

Lemma same_rest_trans st1 st2 st3 : same_rest st1 st2 -> same_rest st2 st3 -> same_rest st1 st3.
Proof. unfold same_rest. intuition congruence. Qed.

(** Only the indices change with a removal from them. *)
Lemma removed_with_indices st c : exists per_component per_entity,
  fst (StoreGc.remove_chunk_from_virtual_indices st c) = with_indices st per_component per_entity.
Proof.
  unfold StoreGc.remove_chunk_from_virtual_indices.
  destruct (match temporal_chunk_ids_per_entity_per_component st !! Chunk.entity_path c with None => _ | _ => _ end) as [per_component ?].
  destruct (match temporal_chunk_ids_per_entity st !! Chunk.entity_path c with None => _ | _ => _ end) as [per_entity ?].
  by exists per_component, per_entity.
Qed.

(** [remove_min_row_id] and [remove_physical] together: what the fields become. *)
Lemma remove_fields st c ctx' : Lineage.drop_lineage_reference (lineages st) (Chunk.id c) = Some ctx' ->
  let st' := StoreGc.remove_physical (StoreGc.remove_min_row_id st c) c in
  physical st' = delete (Chunk.id c) (physical st)
  /\ lineages st' = ctx'
  /\ physical_chunk_ids_per_min_row_id st'
     = match Chunk.row_id_range c with
       | Some (row_id_min, _) => physical_chunk_ids_per_min_row_id st ∖ {[(row_id_min, Chunk.id c)]}
       | None => physical_chunk_ids_per_min_row_id st
       end
  /\ temporal_physical_chunks_stats st' = temporal_physical_chunks_stats st
  /\ same_rest st st'
  /\ (forall cs, virtual_indexes st cs -> (forall c', c' ∈ cs -> Chunk.id c' = Chunk.id c -> c' = c) ->
       virtual_indexes st' (if decide (is_Some (chunks_lineage ctx' !! Chunk.id c)) then cs else others c cs)).
Proof.
  intros Hrun st'. set (st1 := StoreGc.remove_min_row_id st c) in *.
  assert (physical st1 = physical st /\ lineages st1 = lineages st
    /\ temporal_physical_chunks_stats st1 = temporal_physical_chunks_stats st /\ same_rest st st1
    /\ (forall cs, virtual_indexes st cs -> virtual_indexes st1 cs)) as (Hp1 & Hl1 & Hs1 & Hr1 & Hv1).
  { unfold st1, StoreGc.remove_min_row_id. destruct (Chunk.row_id_range c) as [[? ?]|]; by split_and!. }
  set (st2 := StoreGc.drop_lineage (with_physical st1 (delete (Chunk.id c) (physical st1))
                (physical_chunk_ids_per_min_row_id st1)) (Chunk.id c)).
  assert (lineages st2 = ctx') as Hl2.
  { unfold st2, StoreGc.drop_lineage. cbn [with_lineages with_physical lineages]. rewrite Hl1, Hrun. done. }
  assert (st' = if bool_decide (chunks_lineage ctx' !! Chunk.id c = None)
                then fst (StoreGc.remove_chunk_from_virtual_indices st2 c) else st2) as ->.
  { unfold st', StoreGc.remove_physical. fold st1 st2. by rewrite Hl2. }
  assert (same_rest st st2) as Hr2 by (apply (same_rest_trans st st1 st2); [done|by split_and!]).
  assert (forall cs, virtual_indexes st cs -> virtual_indexes st2 cs) as Hv2.
  { intros cs Hv. eapply virtual_indexes_ext; [| |by apply Hv1]; done. }
  assert (physical_chunk_ids_per_min_row_id st1 = match Chunk.row_id_range c with
       | Some (row_id_min, _) => physical_chunk_ids_per_min_row_id st ∖ {[(row_id_min, Chunk.id c)]}
       | None => physical_chunk_ids_per_min_row_id st end) as Hm1.
  { unfold st1, StoreGc.remove_min_row_id. by destruct (Chunk.row_id_range c) as [[? ?]|]. }
  destruct (chunks_lineage ctx' !! Chunk.id c) as [l|] eqn:El.
  - rewrite bool_decide_false by done.
    split_and!; [by unfold st2; cbn; rewrite Hp1|done|done|done|done|].
    intros cs Hv _. rewrite decide_True by eauto. auto.
  - rewrite bool_decide_true by done.
    destruct (removed_with_indices st2 c) as (a & b & E). split_and!;
      try (rewrite E; cbn [with_indices physical_chunks_per_chunk_id lineages physical_chunk_ids_per_min_row_id
        temporal_physical_chunks_stats]); [by unfold st2; cbn; rewrite Hp1|done|done|done|done|].
    intros cs Hv Huniq. rewrite decide_False by (intros [? ?]; congruence). rewrite <- E.
    apply virtual_indexes_removed; [done|auto].
Qed.

Lemma NoDup_others c cs : NoDup (Chunk.id <$> cs) -> NoDup (Chunk.id <$> others c cs).
Proof. intros Hnd. eapply sublist_NoDup; [exact Hnd|]. apply fmap_sublist. unfold others. apply sublist_filter. Qed.

(** What is left of [cs] when [c] leaves memory. *)
Definition left_of (m' : gmap ChunkId.t TrackedDirectChunkLineage) c (cs : list Chunk.t) : list Chunk.t :=
  if decide (is_Some (m' !! Chunk.id c)) then cs else others c cs.

Lemma elem_of_left_of m' c cs c' : c' ∈ left_of m' c cs -> c' ∈ cs.
Proof. unfold left_of. case_decide; [done|]. by intros [_ ?]%elem_of_others. Qed.

Lemma left_of_elem m' c cs c' : c' ∈ cs -> Chunk.id c' <> Chunk.id c -> c' ∈ left_of m' c cs.
Proof. unfold left_of. case_decide; [done|]. by intros ? ?; apply elem_of_others. Qed.

Lemma NoDup_left_of m' c cs : NoDup (Chunk.id <$> cs) -> NoDup (Chunk.id <$> left_of m' c cs).
Proof. unfold left_of. case_decide; [done|apply NoDup_others]. Qed.

Lemma removed_min_row_ids ids m c : min_row_ids_of ids m -> m !! Chunk.id c = Some c ->
  min_row_ids_of (match Chunk.row_id_range c with
                  | Some (row_id_min, _) => ids ∖ {[(row_id_min, Chunk.id c)]}
                  | None => ids
                  end) (delete (Chunk.id c) m).
Proof.
  intros Hall Hc row_id id. pose proof (Hall row_id id) as Hm.
  assert ((row_id, id) ∈ ids /\ id <> Chunk.id c
    <-> exists c' row_id_max, delete (Chunk.id c) m !! id = Some c'
          /\ Chunk.row_id_range c' = Some (row_id, row_id_max)) as <-.
  { rewrite Hm. split.
    - intros [(c' & mx & Hc' & Hr) Hne]. exists c', mx. by rewrite lookup_delete_ne.
    - intros (c' & mx & [Hne Hc']%lookup_delete_Some & Hr). split; [by exists c', mx|done]. }
  assert (id = Chunk.id c -> (row_id, id) ∈ ids ->
    exists mx, Chunk.row_id_range c = Some (row_id, mx)) as Hc'.
  { intros -> (c' & mx & Hc' & Hr)%Hm. assert (c' = c) as -> by congruence. by exists mx. }
  destruct (Chunk.row_id_range c) as [[row_id_min mx]|] eqn:Er.
  - rewrite elem_of_difference, elem_of_singleton. split.
    + intros [Hin Hne]. split; [done|]. intros Hid. destruct (Hc' Hid Hin) as (mx' & [= <- <-]). congruence.
    + intros [Hin Hne]. split; [done|]. intros [= _ ?]. congruence.
  - split; [|by intros [? _]]. intros Hin. split; [done|]. intros Hid. by destruct (Hc' Hid Hin) as (? & ?).
Qed.

(** One chunk leaves memory. *)
Lemma remove_step_ok st cs pending pending' c : store_ok st cs pending ->
  physical st !! Chunk.id c = Some c -> Chunk.is_static c = false -> pending ⊆ pending' ->
  (Lineage.is_root_chunk (lineage_of st) (Chunk.id c) = false -> Chunk.id c ∈ pending') ->
  let st1 := StoreGc.remove_physical (StoreGc.remove_min_row_id st c) c in
  exists stats, ChunkStoreChunkStats.sub (temporal_physical_chunks_stats st1) (ChunkStoreChunkStats.of_chunk c) = Done stats
    /\ let st' := with_temporal_stats st1 stats in
       store_ok st' (left_of (lineage_of st') c cs) pending'
       /\ physical st' = delete (Chunk.id c) (physical st) /\ same_rest st st'
       /\ shrunk (lineages st) (lineages st') /\ forgot (dom (physical st')) (lineages st) (lineages st').
Proof.
  intros Hok Hc Hstatic Hsub Hpend st1. pose proof Hok as [Hv Hnd Hk Hrows Ht Hcons Hm Hl Hled Hmiss Hsid Hsl Hsz Hms Hts Hss Hu].
  assert (Chunk.id c ∈ dom (physical st)) as Hdom by (apply elem_of_dom; eauto).
  destruct (leave_lineages_ok _ _ _ Hdom Hl) as (ctx' & Hrun & Hl' & Hshr & Hforg).
  destruct (remove_fields st c ctx' Hrun) as (Ep & El & Em & Es & Hrest & Hvirt). fold st1 in Ep, El, Em, Es, Hrest, Hvirt.
  destruct (stats_of_sub false (physical st) (Chunk.id c) c) as [Hsubs Hu'];
    [done|done|exact Hsz|intros Hdb; by apply Hu|].
  rewrite Es, Hts, Hsubs. eexists. split; [done|]. intros st'.
  assert (forall c', c' ∈ cs -> Chunk.id c' = Chunk.id c -> c' = c) as Huniq.
  { intros c' Hin Hid. apply (same_id_same_chunk cs); [done|by eapply Ht|done|done]. }
  assert (same_rest st st') as Hrest' by (eapply same_rest_trans; [exact Hrest|by split_and!]).
  pose proof (dom_delete_L (physical st) (Chunk.id c)) as Hdd.
  split_and!; [|by rewrite <- Ep|done|by rewrite <- El in Hshr|].
  2:{ change (physical st') with (physical st1). change (lineages st') with (lineages st1). by rewrite Ep, El, Hdd. }
  destruct Hrest as (_ & Hsi & Hst & _).
  split; unfold st'; cbn [with_temporal_stats physical_chunks_per_chunk_id physical_chunk_ids_per_min_row_id lineages
    temporal_physical_chunks_stats static_chunks_stats static_chunk_ids_per_entity]; rewrite ?Ep, ?El, ?Em.
  - eapply virtual_indexes_ext; [| |apply (Hvirt cs); done]; done.
  - by apply NoDup_left_of.
  - intros id c' [_ Hc']%lookup_delete_Some. by apply Hk.
  - intros id c' [_ Hc']%lookup_delete_Some. by eapply Hrows.
  - intros id c' [Hne Hc']%lookup_delete_Some Hs. apply left_of_elem; [by eapply Ht|]. rewrite (Hk id c' Hc'). congruence.
  - intros c1 c' Hin%elem_of_left_of [_ Hc']%lookup_delete_Some. by apply Hcons.
  - by apply removed_min_row_ids.
  - by rewrite Hdd.
  - by eapply led_shrunk.
  - intros c' Hin Hnone. pose proof (elem_of_left_of _ _ _ _ Hin) as Hin'.
    destruct (decide (Chunk.id c' = Chunk.id c)) as [Hid|Hne].
    + rewrite Hid. destruct (Lineage.is_root_chunk (lineage_of st) (Chunk.id c)) eqn:Hroot; [|by right; apply Hpend].
      left. apply (root_kept (dom (physical st)) (lineages st) ctx' (Chunk.id c)); try done.
      unfold left_of in Hin. case_decide; [done|]. by apply elem_of_others in Hin as [? _].
    + rewrite lookup_delete_ne in Hnone by congruence. destruct (Hmiss c' Hin' Hnone) as [Hroot|?]; [left|right; auto].
      by eapply manifest_root_kept; [exact Hshr|exact Hforg|apply Hl|].
  - rewrite Hsi. intros path per_component component id c' Hp Hi [_ Hc']%lookup_delete_Some. by eapply Hsid.
  - intros id c' l [_ Hc']%lookup_delete_Some Hs Hl2. destruct (proj1 Hshr id l Hl2) as (l0 & Hl0 & -> & _). by eapply Hsl.
  - intros id c' [_ Hc']%lookup_delete_Some. by eapply Hsz.
  - intros id c' [_ Hc']%lookup_delete_Some. by eapply Hms.
  - done.
  - by rewrite Hst, Hss, (stats_of_delete_other true _ _ c Hc).
  - intros Hdb. split; [by apply Hu'|]. rewrite (stats_of_delete_other true _ _ c Hc) by done. by apply Hu.
Qed.

(** *** Removing several *)

Lemma shrunk_trans ctx1 ctx2 ctx3 : shrunk ctx1 ctx2 -> shrunk ctx2 ctx3 -> shrunk ctx1 ctx3.
Proof.
  intros [Ha Hb] [Ha' Hb']. split.
  - intros id l Hl. destruct (Ha' id l Hl) as (l2 & Hl2 & -> & ->). by apply Ha.
  - intros id. destruct (Hb id) as [H21 H12], (Hb' id) as [H32 H23]. split.
    + intros [Hn Hs]. destruct (chunks_lineage ctx2 !! id) as [l2|] eqn:E2; [by apply H32; eauto|].
      destruct (H21 (conj eq_refl Hs)) as (? & ? & ?). destruct (H23 (or_intror eq_refl)) as (? & ? & ?).
      split_and!; [congruence|tauto|congruence].
    + intros Hor. assert (is_Some (chunks_lineage ctx2 !! id) \/ chunks_lineage ctx1 !! id = None) as Hor2.
      { destruct Hor as [[l Hl]|]; [left|by right]. destruct (Ha' id l Hl) as (? & -> & _). eauto. }
      destruct (H12 Hor2) as (? & ? & ?). destruct H23 as (? & ? & ?).
      * destruct Hor as [?|Hn]; [by left|right]. destruct (chunks_lineage ctx2 !! id) as [l2|] eqn:E2; [|done].
        destruct (Ha id l2 E2) as (? & ? & _). congruence.
      * split_and!; [congruence|tauto|congruence].
Qed.

Lemma forgot_trans (D D' : gset ChunkId.t) ctx1 ctx2 ctx3 : D' ⊆ D -> forgot D ctx1 ctx2 -> shrunk ctx1 ctx2 ->
  forgot D' ctx2 ctx3 -> shrunk ctx2 ctx3 -> forgot D' ctx1 ctx3.
Proof.
  intros Hsub Hf [Hs _] Hf' [Hs' _] id l Hl Hn. destruct (chunks_lineage ctx2 !! id) as [l2|] eqn:E.
  - destruct (Hs id l2 E) as (l1 & Hl1 & _ & Hm). destruct (Hf' id l2 E Hn) as (? & ? & ?).
    split_and!; [congruence|done|done].
  - destruct (Hf id l Hl E) as (? & Hni & Href). split_and!; [done|set_solver|].
    intros i li Hi. destruct (Hs' i li Hi) as (li2 & Hli2 & -> & _). by eapply Href.
Qed.

Lemma is_root_shrunk ctx ctx' id : shrunk ctx ctx' -> is_Some (chunks_lineage ctx' !! id) ->
  Lineage.is_root_chunk (chunks_lineage ctx') id = Lineage.is_root_chunk (chunks_lineage ctx) id.
Proof.
  intros [Hs _] [l Hl]. destruct (Hs id l Hl) as (l0 & Hl0 & Hlin & _).
  unfold Lineage.is_root_chunk, Lineage.direct_lineage. rewrite Hl, Hl0. simpl. by rewrite Hlin.
Qed.

(** [removed] left memory, and nothing else. *)
Definition without_physical st st' (removed : list Chunk.t) : Prop :=
  forall id, physical st' !! id = if decide (id ∈ Chunk.id <$> removed) then None else physical st !! id.

(** What a removal does to the state, whatever is said of indices. *)
Record removal st st' (cs cs' removed : list Chunk.t) : Prop := {
  rem_rest : same_rest st st';
  rem_physical : without_physical st st' removed;
  rem_distinct : NoDup (Chunk.id <$> removed);
  rem_were_physical c : c ∈ removed -> physical st !! Chunk.id c = Some c;
  rem_sound c : c ∈ cs' -> c ∈ cs;
  rem_complete c : c ∈ cs -> Chunk.id c ∉ Chunk.id <$> removed -> c ∈ cs';
  rem_manifest c : c ∈ cs -> manifest_root (lineage_of st) (Chunk.id c) -> c ∈ cs';
  rem_shrunk : shrunk (lineages st) (lineages st');
  rem_forgot : forgot (dom (physical st')) (lineages st) (lineages st');
}.

Lemma removal_nothing st cs : removal st st cs cs [].
Proof.
  split; try done; [constructor|by intros c ?%elem_of_nil|apply shrunk_refl|].
  intros id l Hl Hn. congruence.
Qed.

Lemma removal_cons st st1 st' cs cs1 cs' c removed :
  same_rest st st1 -> physical st1 = delete (Chunk.id c) (physical st) -> physical st !! Chunk.id c = Some c ->
  (forall c', c' ∈ cs1 -> c' ∈ cs) -> (forall c', c' ∈ cs -> Chunk.id c' <> Chunk.id c -> c' ∈ cs1) ->
  (forall c', c' ∈ cs -> manifest_root (lineage_of st) (Chunk.id c') ->
     c' ∈ cs1 /\ manifest_root (lineage_of st1) (Chunk.id c')) ->
  shrunk (lineages st) (lineages st1) -> forgot (dom (physical st1)) (lineages st) (lineages st1) ->
  removal st1 st' cs1 cs' removed -> removal st st' cs cs' (c :: removed).
Proof.
  intros Hr Hp Hc Hsound Hcomplete Hman Hs Hf [Hr' Hp' Hd' Hw' Hsound' Hcomplete' Hman' Hs' Hf'].
  assert (forall c', c' ∈ removed -> Chunk.id c' <> Chunk.id c) as Hne.
  { intros c' Hin Hid. specialize (Hw' c' Hin). rewrite Hp, Hid, lookup_delete_eq in Hw'. done. }
  split.
  - by eapply same_rest_trans.
  - intros id. rewrite Hp', Hp, fmap_cons. destruct (decide (id = Chunk.id c)) as [->|Hid].
    + rewrite (decide_True (P := Chunk.id c ∈ Chunk.id c :: _)) by left. rewrite lookup_delete_eq. by case_decide.
    + rewrite lookup_delete_ne by done. destruct (decide (id ∈ Chunk.id <$> removed)).
      * rewrite decide_True by (by right). done.
      * rewrite decide_False by (by intros [|]%elem_of_cons). done.
  - rewrite fmap_cons. constructor; [|done]. intros (c' & Hid & Hin)%list_elem_of_fmap. by apply (Hne c' Hin).
  - intros c' [->|Hin]%elem_of_cons; [done|]. specialize (Hw' c' Hin). rewrite Hp in Hw'.
    by apply lookup_delete_Some in Hw' as [_ ?].
  - auto.
  - intros c' Hin Hn. rewrite fmap_cons, not_elem_of_cons in Hn. apply Hcomplete'; [apply Hcomplete|]; tauto.
  - intros c' Hin Hm. destruct (Hman c' Hin Hm). by apply Hman'.
  - by eapply shrunk_trans.
  - eapply forgot_trans; [|exact Hf|done|exact Hf'|done]. intros id. rewrite !elem_of_dom, Hp'.
    case_decide; [by intros [? ?]|done].
Qed.

Lemma cons_subseteq (c : Chunk.t) l k : l ⊆ k -> c :: l ⊆ c :: k.
Proof. intros Hsub x [->|Hx]%elem_of_cons; [left|right; by apply Hsub]. Qed.

Lemma skip_subseteq (c : Chunk.t) (l k : list Chunk.t) : l ⊆ k -> l ⊆ c :: k.
Proof. intros Hsub x Hx. right. by apply Hsub. Qed.

Lemma shallow_loop_ok exhausted reason chunks : forall st cs pending pending' dels, store_ok st cs pending ->
  (forall c, c ∈ chunks -> forall c', physical st !! Chunk.id c = Some c' -> c' = c /\ Chunk.is_static c = false) ->
  pending ⊆ pending' ->
  (forall c, c ∈ chunks -> Lineage.is_root_chunk (lineage_of st) (Chunk.id c) = false -> Chunk.id c ∈ pending') ->
  exists st' cs' removed,
    StoreGc.shallow_loop st exhausted reason chunks dels
      = Done (st', dels ++ ((fun c => Deletion c reason) <$> removed))
    /\ store_ok st' cs' pending' /\ removal st st' cs cs' removed
    /\ removed ⊆ chunks
    /\ ((forall n, exhausted n = false) -> forall c, c ∈ chunks -> physical st' !! Chunk.id c = None).
Proof.
  induction chunks as [|c chunks IH]; intros st cs pending pending' dels Hok Hsame Hsub Hpend.
  { exists st, cs, []. simpl. rewrite app_nil_r. split_and!; [done| |apply removal_nothing|done|set_solver].
    destruct Hok; split; try done. intros c Hin Hn. destruct (ok_missing0 c Hin Hn); [by left|right; auto]. }
  cbn [StoreGc.shallow_loop]. set (st0 := StoreGc.remove_min_row_id st c).
  assert (physical st0 = physical st) as Ep by (unfold st0, StoreGc.remove_min_row_id; by destruct (Chunk.row_id_range c) as [[]|]).
  rewrite Ep. destruct (physical st !! Chunk.id c) as [c'|] eqn:Hc.
  - destruct (Hsame c ltac:(left) c' Hc) as [-> Hstatic].
    destruct (remove_step_ok st cs pending pending' c) as (stats & Hst & Hok' & Hp' & Hr' & Hs' & Hf');
      [done|done|done|done|apply Hpend; left|]. fold st0 in Hst, Hok', Hp', Hr', Hs', Hf'. rewrite Hst. cbn [mbind outcome_bind].
    set (st1 := with_temporal_stats _ stats) in *.
    assert (forall c', c' ∈ left_of (lineage_of st1) c cs -> c' ∈ cs) as Hsound by (intros; by eapply elem_of_left_of).
    assert (forall c', c' ∈ cs -> Chunk.id c' <> Chunk.id c -> c' ∈ left_of (lineage_of st1) c cs) as Hcomplete
      by (intros; by apply left_of_elem).
    assert (forall c', c' ∈ cs -> manifest_root (lineage_of st) (Chunk.id c') ->
      c' ∈ left_of (lineage_of st1) c cs /\ manifest_root (lineage_of st1) (Chunk.id c')) as Hman.
    { intros c' Hin Hm. assert (manifest_root (lineage_of st1) (Chunk.id c')) as Hm'
        by (eapply manifest_root_kept; [exact Hs'|exact Hf'|apply Hok|done]).
      split; [|done]. destruct (decide (Chunk.id c' = Chunk.id c)) as [Hid|]; [|by apply Hcomplete].
      unfold left_of. rewrite <- Hid. destruct Hm' as (l & ? & Hl & _). by rewrite decide_True by eauto. }
    destruct (exhausted (length dels)) eqn:Eex.
    + exists st1, (left_of (lineage_of st1) c cs), [c]. split_and!; [done|done| |by apply cons_subseteq, list_subseteq_nil|].
      * eapply removal_cons; try done. apply removal_nothing.
      * intros Hne. by rewrite Hne in Eex.
    + destruct (IH st1 (left_of (lineage_of st1) c cs) pending' pending' (dels ++ [Deletion c reason])) as
        (st' & cs' & removed & Hrun & Hok2 & Hrem & Hsub' & Hall); [done|..|done| |].
      * intros c2 Hin c2' Hc2. rewrite Hp' in Hc2. apply lookup_delete_Some in Hc2 as [_ Hc2]. apply Hsame; [by right|done].
      * intros c2 Hin Hroot. destruct (lineage_of st1 !! Chunk.id c2) as [l|] eqn:El.
        -- apply Hpend; [by right|]. rewrite <- (is_root_shrunk _ _ _ Hs'); [done|by eexists].
        -- unfold Lineage.is_root_chunk, Lineage.direct_lineage in Hroot. by rewrite El in Hroot.
      * exists st', cs', (c :: removed). split_and!.
        -- rewrite Hrun, fmap_cons, <- app_assoc. done.
        -- done.
        -- by eapply removal_cons.
        -- by apply cons_subseteq.
        -- intros Hne c2 [->|Hin]%elem_of_cons; [|by apply Hall].
           rewrite (rem_physical _ _ _ _ _ Hrem), Hp', lookup_delete_eq. by case_decide.
  - assert (store_ok st0 cs pending) as Hok0.
    { destruct Hok. unfold st0, StoreGc.remove_min_row_id. destruct (Chunk.row_id_range c) as [[r mx]|] eqn:Er; [|by split].
      split; cbn [with_physical physical_chunks_per_chunk_id physical_chunk_ids_per_min_row_id lineages
        temporal_physical_chunks_stats static_chunks_stats]; try done.
      intros row_id id. rewrite <- (ok_min_row_ids0 row_id id). rewrite elem_of_difference, elem_of_singleton.
      split; [tauto|]. intros Hin. split; [done|]. intros [= -> ->].
      apply ok_min_row_ids0 in Hin as (? & ? & ? & _). congruence. }
    assert (lineages st0 = lineages st) as El by (unfold st0, StoreGc.remove_min_row_id; by destruct (Chunk.row_id_range c) as [[]|]).
    assert (same_rest st st0) as Hr0 by (unfold st0, StoreGc.remove_min_row_id; by destruct (Chunk.row_id_range c) as [[]|]).
    destruct (IH st0 cs pending pending' dels) as (st' & cs' & removed & Hrun & Hok2 & Hrem & Hsub' & Hall); [done|..|done| |].
    + rewrite Ep. intros c2 Hin. apply Hsame. by right.
    + rewrite El. intros c2 Hin. apply Hpend. by right.
    + exists st', cs', removed. split_and!; [done|done| |by apply skip_subseteq|].
      * destruct Hrem as [Hr Hp Hd Hw Hso Hco Hma Hsh Hfo]. unfold without_physical in Hp. rewrite Ep in Hp, Hw. rewrite El in Hsh, Hfo, Hma.
        split; try done. by eapply same_rest_trans.
      * intros Hne c2 [->|Hin]%elem_of_cons; [|by apply Hall].
        rewrite (rem_physical _ _ _ _ _ Hrem), Ep, Hc. by case_decide.
Qed.

(** The second pass of the deep removal, on chunks that are no longer in memory. *)
Lemma remove_virtual_ok st cs pending pending' c : store_ok st cs pending -> physical st !! Chunk.id c = None ->
  (forall c', c' ∈ cs -> Chunk.id c' = Chunk.id c -> c' = c) ->
  (forall id, id ∈ pending -> id = Chunk.id c \/ id ∈ pending') ->
  store_ok (fst (StoreGc.remove_chunk_from_virtual_indices st c)) (others c cs) pending'.
Proof.
  intros Hok Hn Huniq Hsub.
  assert (virtual_indexes (fst (StoreGc.remove_chunk_from_virtual_indices st c)) (others c cs)) as Hv
    by (by apply virtual_indexes_removed; [|apply Hok]).
  destruct (removed_with_indices st c) as (per_component & per_entity & E). rewrite E in *. destruct Hok.
  split; cbn [with_indices physical_chunks_per_chunk_id physical_chunk_ids_per_min_row_id lineages
    temporal_physical_chunks_stats static_chunks_stats]; try done.
  - by apply NoDup_others.
  - intros id c' Hc' Hs. apply elem_of_others. split; [|by eapply ok_temporal0].
    intros Hid. rewrite (ok_keys0 id c' Hc') in Hid. congruence.
  - intros c1 c' [_ Hin]%elem_of_others. by apply ok_consistent0.
  - intros c' [Hne Hin]%elem_of_others Hnone. destruct (ok_missing0 c' Hin Hnone) as [?|Hp]; [by left|].
    destruct (Hsub _ Hp); [done|by right].
Qed.

Lemma deep_loop_ok reason chunks : forall st cs pending, store_ok st cs pending ->
  (forall c, c ∈ chunks -> physical st !! Chunk.id c = None) ->
  (forall c c', c ∈ chunks -> c' ∈ cs -> Chunk.id c' = Chunk.id c -> c' = c) ->
  (forall id, id ∈ pending -> id ∈ Chunk.id <$> chunks) ->
  exists cs' dels per_component per_entity,
    StoreGc.deep_loop st reason chunks = (with_indices st per_component per_entity, dels)
    /\ store_ok (with_indices st per_component per_entity) cs' []
    /\ (forall c, c ∈ cs' <-> c ∈ cs /\ Chunk.id c ∉ Chunk.id <$> chunks)
    /\ (forall d, d ∈ dels -> del_chunk d ∈ chunks /\ del_reason d = reason).
Proof.
  induction chunks as [|c chunks IH]; intros st cs pending Hok Hn Huniq Hpend.
  - exists cs, [], (temporal_chunk_ids_per_entity_per_component st), (temporal_chunk_ids_per_entity st).
    assert (with_indices st (temporal_chunk_ids_per_entity_per_component st) (temporal_chunk_ids_per_entity st) = st) as ->
      by (by destruct st).
    split_and!; [done| | |by intros d ?%elem_of_nil].
    + destruct Hok; split; try done. intros c Hin Hnone. destruct (ok_missing0 c Hin Hnone) as [?|Hp]; [by left|].
      apply Hpend in Hp. by apply elem_of_nil in Hp.
    + intros c. split; [intros ?; split; [done|apply not_elem_of_nil]|tauto].
  - cbn [StoreGc.deep_loop]. pose proof (remove_virtual_ok st cs pending (Chunk.id <$> chunks) c Hok) as Hok1.
    specialize (Hok1 ltac:(apply Hn; left) ltac:(intros c'; apply Huniq; left)).
    destruct (removed_with_indices st c) as (pc1 & pe1 & E1).
    destruct (StoreGc.remove_chunk_from_virtual_indices st c) as [st1 was_removed]. cbn [fst] in *. subst st1.
    destruct (IH (with_indices st pc1 pe1) (others c cs) (Chunk.id <$> chunks)) as
      (cs' & dels & pc & pe & Hrun & Hok' & Hcs & Hd).
    { apply Hok1. intros id Hid. specialize (Hpend id Hid). rewrite fmap_cons in Hpend. by apply elem_of_cons in Hpend. }
    { intros c' Hin. apply Hn. by right. }
    { intros c1 c' Hin [_ Hc']%elem_of_others. apply Huniq; [by right|done]. }
    { done. }
    rewrite Hrun. eexists cs', _, pc, pe. split_and!; [done|done|..].
    + intros c'. rewrite Hcs, elem_of_others, fmap_cons, not_elem_of_cons. tauto.
    + intros d Hin. assert (d = Deletion c reason \/ d ∈ dels) as [->|Hin'].
      { destruct was_removed; [by apply elem_of_cons in Hin|by right]. }
      * split; [left|done].
      * destruct (Hd d Hin'). split; [by right|done].
Qed.

(** What [remove_chunks_deep] does. *)
Lemma remove_chunks_deep_ok st cs chunks reason : store_ok st cs [] ->
  (forall c c', c ∈ chunks -> physical st !! Chunk.id c = Some c' -> c' = c /\ Chunk.is_static c = false) ->
  (forall c c', c ∈ chunks -> c' ∈ cs -> Chunk.id c' = Chunk.id c -> c' = c) ->
  exists st' cs' dels, StoreGc.remove_chunks_deep st chunks reason = Done (st', dels)
    /\ store_ok st' cs' [] /\ same_rest st st'
    /\ (forall id, physical st' !! id = if decide (id ∈ Chunk.id <$> chunks) then None else physical st !! id)
    /\ (forall c, c ∈ cs' <-> c ∈ cs /\ Chunk.id c ∉ Chunk.id <$> chunks)
    /\ shrunk (lineages st) (lineages st') /\ forgot (dom (physical st')) (lineages st) (lineages st')
    /\ (forall d, d ∈ dels -> del_chunk d ∈ chunks /\ del_reason d = reason)
    /\ (forall c, c ∈ chunks -> is_Some (physical st !! Chunk.id c) -> exists d, d ∈ dels /\ Chunk.id (del_chunk d) = Chunk.id c).
Proof.
  intros Hok Hsame Huniq. unfold StoreGc.remove_chunks_deep, StoreGc.remove_chunks_shallow.
  destruct (shallow_loop_ok (default StoreGc.no_budget None) reason chunks st cs [] (Chunk.id <$> chunks) [] Hok) as
    (st1 & cs1 & removed & Hrun & Hok1 & Hrem & Hsub & Hall).
  { intros c Hin c'. by apply Hsame. }
  { apply list_subseteq_nil. }
  { intros c Hin _. by apply list_elem_of_fmap_2. }
  rewrite Hrun. cbn [mbind outcome_bind].
  destruct (deep_loop_ok reason chunks st1 cs1 (Chunk.id <$> chunks) Hok1) as (cs' & dels & pc & pe & Hdeep & Hok' & Hcs & Hd);
    [by apply Hall|intros c c' Hc Hc'; apply Huniq; [done|by apply (rem_sound _ _ _ _ _ Hrem)]|done|].
  rewrite Hdeep. eexists _, cs', _. split; [done|].
  assert (forall id, physical st1 !! id = if decide (id ∈ Chunk.id <$> chunks) then None else physical st !! id) as Hphys.
  { intros id. case_decide as Hin.
    - apply list_elem_of_fmap in Hin as (c & -> & Hin). by apply Hall.
    - rewrite (rem_physical _ _ _ _ _ Hrem), decide_False; [done|]. intros (c & -> & Hc)%list_elem_of_fmap.
      apply Hin, list_elem_of_fmap_2. by apply Hsub. }
  destruct Hrem as [Hr Hp Hdist Hw Hso Hco _ Hsh Hfo].
  assert (forall c, c ∈ removed -> Chunk.id c ∈ Chunk.id <$> chunks) as Hrc by (intros c Hc; apply list_elem_of_fmap_2, Hsub, Hc).
  split_and!; [done|done|done| |done|done|..].
  - intros c. rewrite Hcs. split; [intros [? ?]; split; [by apply Hso|done]|]. intros [Hin Hni]. split; [|done].
    apply Hco; [done|]. intros (c' & Hid & Hc')%list_elem_of_fmap. apply Hni. rewrite Hid. by apply Hrc.
  - intros d [Hin|[Hin _]%elem_of_filter_bool]%elem_of_app; [by apply Hd|].
    apply list_elem_of_fmap in Hin as (c & -> & Hc). split; [by apply Hsub|done].
  - intros c Hin [c' Hc']. destruct (Hsame c c' Hin Hc') as [-> _].
    assert (c ∈ removed) as Hcr.
    { destruct (decide (Chunk.id c ∈ Chunk.id <$> removed)) as [(c2 & Hid & Hc2)%list_elem_of_fmap|Hn].
      - specialize (Hw c2 Hc2). assert (c2 = c) as -> by congruence. done.
      - specialize (Hp (Chunk.id c)). rewrite decide_False in Hp by done. rewrite Hall in Hp by done. congruence. }
    destruct (decide (Chunk.id c ∈ (list_to_set ((fun del => Chunk.id (del_chunk del)) <$> dels) : gset ChunkId.t))) as [Hdd|Hdd].
    + apply elem_of_list_to_set, list_elem_of_fmap in Hdd as (d & -> & Hd'). exists d. split; [by apply elem_of_app; left|done].
    + exists (Deletion c reason). split; [|done]. apply elem_of_app. right. apply elem_of_filter_bool. split.
      * apply list_elem_of_fmap. by exists c.
      * cbn [del_chunk]. by rewrite bool_decide_false.
Qed.

(** *** Candidates *)

Definition sizes (l : list Chunk.t) : Z := foldr (fun c z => ChunkSplit.size_of c + z) 0 l.

Lemma sizes_app l k : sizes (l ++ k) = sizes l + sizes k.
Proof. induction l as [|c l IH]; simpl; [lia|]. rewrite IH. lia. Qed.

Lemma sizes_nonneg l : Forall (fun c => 0 <= ChunkSplit.size_of c) l -> 0 <= sizes l.
Proof. induction 1; simpl; lia. Qed.

(** A marking loop takes chunks in order, until it has enough or runs out of time. *)
Lemma mark_ok exhausted target chunks : forall marked bytes n,
  Forall (fun c => 0 <= ChunkSplit.size_of c) chunks -> 0 <= bytes -> bytes + sizes chunks <= u64_max ->
  exists taken rest stop, chunks = taken ++ rest
    /\ StoreGc.mark exhausted target chunks marked bytes n = Done (marked ++ taken, bytes + sizes taken, stop)
    /\ (stop = false -> rest = [])
    /\ (stop = true -> (exists m, exhausted m = true) \/ target <= bytes + sizes taken)
    /\ (forall l c, taken = l ++ [c] -> l <> [] -> bytes + sizes l < target).
Proof.
  induction chunks as [|c chunks IH]; intros marked bytes n Hall Hb Hsum.
  - exists [], [], false. simpl. rewrite app_nil_r, Z.add_0_r. split_and!; try done. by intros [|? ?] ? [=].
  - inversion_clear Hall as [|? ? Hc Hall']. pose proof (sizes_nonneg _ Hall'). cbn [StoreGc.mark sizes foldr] in *.
    fold (sizes chunks) in *. rewrite arith_u64_done by (unfold is_u64; lia). cbn [mbind outcome_bind].
    destruct (exhausted n || (target <=? bytes + ChunkSplit.size_of c)) eqn:Estop.
    + exists [c], chunks, true. split_and!; try done.
      * simpl. do 3 f_equal. lia.
      * intros _. apply orb_true_iff in Estop as [?|?%Z.leb_le]; [left; eauto|right; simpl; lia].
      * intros l x Hl Hne. destruct l as [|? [|? ?]]; [done|by injection Hl|by injection Hl].
    + apply orb_false_iff in Estop as [_ Et%Z.leb_gt].
      destruct (IH (marked ++ [c]) (bytes + ChunkSplit.size_of c) (S n)) as
        (taken & rest & stop & -> & Hrun & Hns & Hst & Hmin); [done|lia|lia|].
      exists (c :: taken), rest, stop. split_and!; [done| |done| |].
      * rewrite Hrun. rewrite <- app_assoc. simpl. do 3 f_equal. lia.
      * intros Hstop. destruct (Hst Hstop) as [?|?]; [by left|right]. simpl. lia.
      * intros l x Hl Hne. destruct l as [|c' l]; [done|]. injection Hl as <- Hl. simpl.
        destruct l as [|c2 l]; [simpl; lia|]. specialize (Hmin (c2 :: l) x Hl ltac:(done)). simpl in *. lia.
Qed.

Lemma elem_of_iter_physical st cs pending c : store_ok st cs pending ->
  c ∈ StoreGc.iter_physical_chunks st <-> physical st !! Chunk.id c = Some c.
Proof.
  intros Hok. unfold StoreGc.iter_physical_chunks. rewrite list_elem_of_fmap. split.
  - intros ([id c'] & -> & Hin%elem_of_sort_by%elem_of_map_to_list). simpl. by rewrite (ok_keys _ _ _ _ Hok id c' Hin).
  - intros Hc. exists (Chunk.id c, c). split; [done|]. by apply elem_of_sort_by, elem_of_map_to_list.
Qed.

Lemma iter_physical_perm st : StoreGc.iter_physical_chunks st ≡ₚ physical_list (physical st).
Proof. unfold StoreGc.iter_physical_chunks, physical_list. by rewrite sort_by_perm. Qed.

(** The chunks a collection may take: in memory and not static. *)
Definition collectable st c : Prop := physical st !! Chunk.id c = Some c /\ Chunk.is_static c = false.

Lemma furthest_first_elem st cs pending distance timeline time c : store_ok st cs pending ->
  c ∈ StoreGc.furthest_first distance st timeline time -> collectable st c.
Proof.
  intros Hok Hin. unfold StoreGc.furthest_first in Hin.
  apply list_elem_of_fmap in Hin as ([c' d] & -> & Hin%elem_of_sort_by). simpl.
  apply list_elem_of_omap in Hin as (c2 & Hc2 & Hd).
  destruct (Chunk.timelines c2 !! timeline) as [tc|] eqn:Etc; [|done]. simpl in Hd.
  destruct (distance tc time); [|done]. injection Hd as <- <-. split; [by eapply elem_of_iter_physical|].
  unfold Chunk.is_static. apply bool_decide_eq_false. intros E. by rewrite E, lookup_empty in Etc.
Qed.

Lemma priority_elem st cs pending options c : store_ok st cs pending ->
  c ∈ StoreGc.chunks_in_priority_order st options <->
  collectable st c /\ StoreGc.is_chunk_protected options c = false /\ is_Some (Chunk.row_id_range c)
  /\ Chunk.id c ∉ StoreGc.find_all_protected_physical_chunk_ids st (protect_latest options).
Proof.
  intros Hok. unfold StoreGc.chunks_in_priority_order, collectable.
  rewrite elem_of_filter_bool, andb_true_iff, !negb_true_iff, list_elem_of_omap. split.
  - intros ((id & Hid & Hc) & Hs & Hp). apply elem_of_filter_bool in Hid as [Hid Hni%negb_true_iff%bool_decide_eq_false].
    pose proof (ok_keys _ _ _ _ Hok id c Hc) as <-.
    apply list_elem_of_fmap in Hid as ([row_id id] & Hid & Hin). simpl in Hid. subst id.
    unfold StoreGc.row_id_order in Hin. apply elem_of_sort_by, elem_of_elements in Hin.
    apply (ok_min_row_ids _ _ _ _ Hok) in Hin as (c' & mx & Hc' & Hr). assert (c' = c) as -> by congruence.
    split_and!; [done|done|done|eauto|done].
  - intros ((Hc & Hs) & Hp & [[row_id mx] Hr] & Hni). split; [|done]. exists (Chunk.id c). split; [|done].
    apply elem_of_filter_bool. split; [|by rewrite bool_decide_false].
    apply list_elem_of_fmap. exists (row_id, Chunk.id c). split; [done|].
    unfold StoreGc.row_id_order. apply elem_of_sort_by, elem_of_elements, (ok_min_row_ids _ _ _ _ Hok). eauto.
Qed.

(** The size of the temporal chunks in memory. *)
Definition temporal_bytes st : Z := ChunkStoreChunkStats.total_size_bytes (stats_of false (physical st)).

Lemma physical_sizes st : sizes (filter (fun c => Chunk.is_static c = false) (physical_list (physical st))) = temporal_bytes st.
Proof.
  unfold temporal_bytes, stats_of.
  induction (filter _ (physical_list (physical st))) as [|c l IH]; [done|]. simpl. by rewrite IH.
Qed.

Lemma sizes_sublist l k : Forall (fun c => 0 <= ChunkSplit.size_of c) k -> l ⊆+ k -> sizes l <= sizes k.
Proof.
  intros Hk Hs. apply submseteq_Permutation in Hs as [r Hr].
  assert (sizes k = sizes (l ++ r)) as ->.
  { clear Hk. induction Hr as [|x a b _ IH|x y a|a b c' _ IH1 _ IH2]; simpl; lia. }
  rewrite sizes_app. rewrite Hr in Hk. apply Forall_app in Hk as [_ Hr']. pose proof (sizes_nonneg r Hr'). lia.
Qed.

Lemma physical_ids_distinct st cs pending : store_ok st cs pending -> NoDup (Chunk.id <$> physical_list (physical st)).
Proof.
  intros Hok. replace (Chunk.id <$> physical_list (physical st)) with ((map_to_list (physical st)).*1).
  - apply NoDup_fst_map_to_list.
  - unfold physical_list. rewrite <- list_fmap_compose. apply list_fmap_ext. intros i [id c] Hi.
    apply list_elem_of_lookup_2, elem_of_map_to_list in Hi. simpl. by rewrite (ok_keys _ _ _ _ Hok id c Hi).
Qed.

Lemma NoDup_omap_fst {A} (f : Chunk.t -> option A) l : NoDup l ->
  NoDup (fst <$> omap (fun c => d ← f c; Some (c, d)) l).
Proof.
  induction 1 as [|c l Hc Hl IH]; [constructor|]. csimpl. destruct (f c) as [d|]; csimpl; [|done].
  constructor; [|done]. intros ([c' d'] & -> & (c2 & Hc2 & Hd)%list_elem_of_omap)%list_elem_of_fmap.
  destruct (f c2); [|done]. injection Hd as <- _. done.
Qed.

Lemma furthest_first_distinct st cs pending distance timeline time : store_ok st cs pending ->
  NoDup (StoreGc.furthest_first distance st timeline time).
Proof.
  intros Hok. unfold StoreGc.furthest_first. rewrite sort_by_perm.
  assert (NoDup (StoreGc.iter_physical_chunks st)) as Hnd.
  { rewrite iter_physical_perm. apply (NoDup_fmap_1 Chunk.id). by eapply physical_ids_distinct. }
  pose proof (NoDup_omap_fst (fun c => times ← Chunk.timelines c !! timeline; distance times time) _ Hnd) as Hnd'.
  erewrite list_omap_ext; [exact Hnd'|]. apply Forall_Forall2_diag, Forall_forall. intros c _.
  by destruct (Chunk.timelines c !! timeline).
Qed.

Lemma NoDup_omap_ids st l : (forall id c, physical st !! id = Some c -> Chunk.id c = id) -> NoDup l ->
  NoDup (Chunk.id <$> omap (fun id => physical st !! id) l).
Proof.
  intros Hk. induction 1 as [|id l Hid Hl IH]; [constructor|]. csimpl.
  destruct (physical st !! id) as [c|] eqn:Hc; csimpl; [|done]. constructor; [|done].
  rewrite (Hk id c Hc). intros (c' & -> & (id' & Hid' & Hc')%list_elem_of_omap)%list_elem_of_fmap.
  by rewrite (Hk id' c' Hc') in Hid.
Qed.

Lemma priority_distinct st cs pending options : store_ok st cs pending ->
  NoDup (StoreGc.chunks_in_priority_order st options).
Proof.
  intros Hok. unfold StoreGc.chunks_in_priority_order. apply NoDup_ListNoDup, List.NoDup_filter, NoDup_ListNoDup.
  apply (NoDup_fmap_1 Chunk.id), NoDup_omap_ids; [apply Hok|].
  apply NoDup_ListNoDup, List.NoDup_filter, NoDup_ListNoDup. unfold StoreGc.row_id_order. rewrite sort_by_perm.
  apply NoDup_fmap_2_strong; [|apply NoDup_elements]. intros [r1 id1] [r2 id2] Hin1%elem_of_elements Hin2%elem_of_elements Hid.
  simpl in Hid. subst id2. apply (ok_min_row_ids _ _ _ _ Hok) in Hin1 as (c1 & m1 & Hc1 & Hr1), Hin2 as (c2 & m2 & Hc2 & Hr2).
  congruence.
Qed.

(** Distinct collectable chunks are no larger than all the temporal data. *)
Lemma collectable_sizes st cs pending l : store_ok st cs pending -> NoDup l -> (forall c, c ∈ l -> collectable st c) ->
  Forall (fun c => 0 <= ChunkSplit.size_of c) l
  /\ sizes l <= temporal_bytes st.
Proof.
  intros Hok Hnd Hall. assert (forall c, collectable st c -> 0 <= ChunkSplit.size_of c) as Hpos.
  { intros c [Hc _]. by destruct (ok_sized _ _ _ _ Hok _ c Hc) as (_ & ? & _). }
  split; [apply Forall_forall; auto|]. rewrite <- (physical_sizes st). apply sizes_sublist.
  - apply Forall_forall. intros c [Hs Hin]%list_elem_of_filter. unfold physical_list in Hin.
    apply list_elem_of_fmap in Hin as ([id c'] & -> & Hc%elem_of_map_to_list). simpl in *. apply Hpos.
    split; [|done]. by rewrite (ok_keys _ _ _ _ Hok id c' Hc).
  - apply NoDup_submseteq; [done|]. intros c Hin. destruct (Hall c Hin) as [Hc Hs].
    apply list_elem_of_filter. split; [done|]. unfold physical_list. apply list_elem_of_fmap.
    exists (Chunk.id c, c). split; [done|]. by apply elem_of_map_to_list.
Qed.

(** The marking phase.  It marks only chunks that are in memory, not static and not protected.
    When the clock stops nothing and no priority is given to a time, it marks each chunk once,
    in the order of row ids, no more of them than the target needs; and enough for the target,
    unless it marks everything it may. *)
Lemma gc_find_candidates_ok st cs pending options target exhausted : store_ok st cs pending ->
  2 * temporal_bytes st <= u64_max ->
  exists marked, StoreGc.gc_find_candidates st options target exhausted = Done marked
    /\ (forall c, c ∈ marked -> collectable st c /\ StoreGc.is_chunk_protected options c = false)
    /\ (furthest_from options = None -> 
         (exists rest, StoreGc.chunks_in_priority_order st options = marked ++ rest
            /\ ((forall n, exhausted n = false) -> target <> 0 -> rest = [] \/ target <= sizes marked))
         /\ (forall l c, marked = l ++ [c] -> l <> [] -> sizes l < target)).
Proof.
  intros Hok Hsum. unfold StoreGc.gc_find_candidates. destruct (Z.eqb_spec target 0) as [->|Ht].
  { exists []. split_and!; [done|by intros c ?%elem_of_nil|]. intros _. split; [|by intros [|? ?] ? [=]].
    exists (StoreGc.chunks_in_priority_order st options). by split. }
  set (P := StoreGc.chunks_in_priority_order st options).
  destruct (collectable_sizes st cs pending P Hok) as [HPpos HPle];
    [by eapply priority_distinct|intros c Hin; by apply (priority_elem st cs pending options c Hok) in Hin as [? _]|].
  pose proof (sizes_nonneg P HPpos).
  destruct (furthest_from options) as [[timeline time]|].
  - set (F := List.filter _ (StoreGc.find_temporal_chunks_furthest_from st timeline time)).
    assert (forall c, c ∈ F -> collectable st c /\ StoreGc.is_chunk_protected options c = false) as HF.
    { intros c [Hin Hp%negb_true_iff]%elem_of_filter_bool. split; [by eapply furthest_first_elem|done]. }
    destruct (collectable_sizes st cs pending F Hok) as [HFpos HFle];
      [apply NoDup_ListNoDup, List.NoDup_filter, NoDup_ListNoDup; by eapply furthest_first_distinct|intros c Hc; by apply HF|].
    destruct (mark_ok StoreGc.no_budget target F [] 0 0) as (taken & rest & stop & EF & Hrun & _); [done|lia|lia|].
    rewrite Hrun. cbn [mbind outcome_bind app]. simpl. rewrite Z.add_0_l.
    assert (forall c, c ∈ taken -> collectable st c /\ StoreGc.is_chunk_protected options c = false) as Htaken.
    { intros c Hin. apply HF. rewrite EF. apply elem_of_app. by left. }
    pose proof (sizes_nonneg F HFpos). rewrite EF in HFpos, HFle. rewrite sizes_app in HFle.
    apply Forall_app in HFpos as [Hp1 Hp2]. pose proof (sizes_nonneg _ Hp1). pose proof (sizes_nonneg _ Hp2).
    destruct stop; [exists taken; split_and!; [done|exact Htaken|intros [=]]|].
    destruct (Z.ltb_spec (sizes taken) target); [|exists taken; split_and!; [done|exact Htaken|intros [=]]].
    destruct (mark_ok exhausted target P taken (sizes taken) 0) as (taken2 & rest2 & stop2 & EP & Hrun2 & _); [done|lia|lia|].
    rewrite Hrun2. cbn [mbind outcome_bind]. exists (taken ++ taken2). split_and!; [done| |intros [=]].
    intros c [Hin|Hin]%elem_of_app; [by apply Htaken|].
    assert (c ∈ P) as HcP by (rewrite EP; apply elem_of_app; by left).
    apply (priority_elem st cs pending options c Hok) in HcP as (? & ? & _). by split.
  - cbn [mbind outcome_bind]. destruct (Z.ltb_spec 0 target).
    + destruct (mark_ok exhausted target P [] 0 0) as (taken & rest & stop & EP & Hrun & Hns & Hst & Hmin); [done|lia|lia|].
      rewrite Hrun. cbn [mbind outcome_bind app]. exists taken. split_and!; [done|..].
      * intros c Hin. assert (c ∈ P) as HcP by (rewrite EP; apply elem_of_app; by left).
        apply (priority_elem st cs pending options c Hok) in HcP as (? & ? & _). by split.
      * intros _. split; [|done]. exists rest. split; [done|]. intros Hex _. destruct stop; [right|left; auto].
        destruct (Hst eq_refl) as [[m Hm]|?]; [by rewrite Hex in Hm|done].
    + exists []. split_and!; [done|by intros c ?%elem_of_nil|]. intros _. split; [|by intros [|? ?] ? [=]].
      exists P. split; [done|]. intros _ _. right. simpl. lia.
Qed.

End Invariant.

Notation lineages_ok := (lineages_almost_ok ∅).
Notation store_ok := (store_almost_ok ∅).
