(* ===== verification/StoreGcSpec.v ===== *)
(** * What removals and garbage collection promise

    The contracts of [remove_chunks_shallow], [remove_chunks_deep] and [gc] of [StoreGc], on
    stores in the invariant of [StoreInvariant]. *)

From stdpp Require Import strings.
From S2P Require Import Prelude Ints TimeInt TimeRange Tuid Arrow Column Chunk ChunkSlice.
From S2P Require Import ChunkQuery ChunkIndex Lineage StoreStats ChunkStore StoreGc StoreInvariant.

Section Collection.

Import ChunkStore.
Context `{Build} `{ArrowLaws} `{!Chunk.SizeBytes}.
Implicit Types st : ChunkStore.t.
Implicit Types c : Chunk.t.

Notation physical st := (physical_chunks_per_chunk_id st).
Notation lineage_of st := (chunks_lineage (lineages st)).

(** *** Statistics of what is left *)

Lemma stats_of_subseteq b (m' m : gmap ChunkId.t Chunk.t) : m' ⊆ m ->
  map_Forall (fun _ c => all_stats (fun z => 0 <= z) (ChunkStoreChunkStats.of_chunk c)) m ->
  all_stats (fun z => 0 <= z) (stats_of b m')
  /\ all_stats (fun z => 0 <= z) (minus (stats_of b m) (stats_of b m')).
Proof.
  revert m'. induction m as [|id c m Hid IH] using map_ind; intros m' Hsub Hall.
  { assert (m' = ∅) as ->; [|done]. apply map_eq. intros i. destruct (m' !! i) eqn:Ei; [|by rewrite lookup_empty].
    eapply lookup_weaken in Ei; [|exact Hsub]. by rewrite lookup_empty in Ei. }
  apply map_Forall_insert in Hall as [Hc Hall]; [|done].
  assert (delete id m' ⊆ m) as Hsub'.
  { transitivity (delete id (<[id := c]> m)); [by apply delete_mono|]. by rewrite delete_insert_id. }
  destruct (IH _ Hsub' Hall) as [Hn Hd]. rewrite (stats_of_insert b m id c Hid).
  destruct (m' !! id) as [c'|] eqn:E.
  - assert (c' = c) as ->.
    { assert ((<[id := c]> m) !! id = Some c') as Hl by (by eapply lookup_weaken).
      rewrite lookup_insert_eq in Hl. congruence. }
    rewrite (stats_of_delete b m' id c E). case_decide; [|done]. destruct Hc as (? & ? & ? & ?).
    destruct Hn as (? & ? & ? & ?), Hd as (? & ? & ? & ?). stats_lia.
  - rewrite delete_id in Hn, Hd by done. destruct Hc as (? & ? & ? & ?).
    destruct Hn as (? & ? & ? & ?), Hd as (? & ? & ? & ?). case_decide; stats_lia.
Qed.

Lemma removed_subseteq st st' cs cs' removed : removal st st' cs cs' removed -> physical st' ⊆ physical st.
Proof.
  intros Hr. apply map_subseteq_spec. intros id c. rewrite (rem_physical _ _ _ _ _ Hr). by case_decide.
Qed.

(** The statistics of all the chunks in memory can be added up. *)
Definition sums_fit (m : gmap ChunkId.t Chunk.t) : Prop := all_stats is_u64 (plus (stats_of true m) (stats_of false m)).

Lemma exact_stats st cs pending : store_ok st cs pending -> sums_fit (physical st) ->
  static_chunks_stats st = stats_of true (physical st)
  /\ temporal_physical_chunks_stats st = stats_of false (physical st).
Proof.
  intros Hok Hfit. rewrite (ok_temporal_stats _ _ _ _ Hok), (ok_static_stats _ _ _ _ Hok).
  destruct (stats_of_subseteq true (physical st) (physical st) ltac:(done)) as [(? & ? & ? & ?) _]; [exact (ok_sized _ _ _ _ Hok)|].
  destruct (stats_of_subseteq false (physical st) (physical st) ltac:(done)) as [(? & ? & ? & ?) _]; [exact (ok_sized _ _ _ _ Hok)|].
  destruct Hfit as (? & ? & ? & ?). split; apply wrapped_id; stats_lia.
Qed.

Lemma sums_fit_subseteq st cs pending m : store_ok st cs pending -> m ⊆ physical st -> sums_fit (physical st) -> sums_fit m.
Proof.
  intros Hok Hsub (? & ? & ? & ?).
  destruct (stats_of_subseteq true m (physical st) Hsub) as [(? & ? & ? & ?) (? & ? & ? & ?)]; [exact (ok_sized _ _ _ _ Hok)|].
  destruct (stats_of_subseteq false m (physical st) Hsub) as [(? & ? & ? & ?) (? & ? & ? & ?)]; [exact (ok_sized _ _ _ _ Hok)|].
  unfold sums_fit. stats_lia.
Qed.

(** The difference that a collection reports. *)
Lemma freed_ok st cs pending st' cs' pending' : store_ok st cs pending -> store_ok st' cs' pending' ->
  physical st' ⊆ physical st -> static_chunks_stats st' = static_chunks_stats st -> sums_fit (physical st) ->
  ChunkStoreChunkStats.sub (static_chunks_stats st) (static_chunks_stats st') = Done ChunkStoreChunkStats.default_
  /\ ChunkStoreChunkStats.sub (temporal_physical_chunks_stats st) (temporal_physical_chunks_stats st')
     = Done (minus (stats_of false (physical st)) (stats_of false (physical st'))).
Proof.
  intros Hok Hok' Hsub Hst Hfit. destruct (exact_stats _ _ _ Hok Hfit) as [Es Et].
  destruct (exact_stats _ _ _ Hok' (sums_fit_subseteq _ _ _ _ Hok Hsub Hfit)) as [Es' Et'].
  destruct (stats_of_subseteq false (physical st') (physical st) Hsub) as [(? & ? & ? & ?) (? & ? & ? & ?)];
    [exact (ok_sized _ _ _ _ Hok)|].
  destruct (stats_of_subseteq true (physical st) (physical st) ltac:(done)) as [(? & ? & ? & ?) _]; [exact (ok_sized _ _ _ _ Hok)|].
  destruct Hfit as (? & ? & ? & ?). rewrite Hst, Et, Et', Es. split.
  - rewrite sub_done; [f_equal; apply stats_eq; simpl; lia|]. unfold is_u64; stats_lia.
  - apply sub_done. stats_lia.
Qed.

(** ** The surgical removals *)

(** [remove_chunks_shallow], without a time budget, on chunks of the store that are not
    static and are roots of the lineage.  It keeps the invariant of the store; exactly the
    chunks given leave memory, each is reported once, and those that came from a manifest are
    still indexed; the lineages only lose what no chunk needs. *)
Lemma remove_chunks_shallow_spec st cs chunks reason (Hok : store_ok st cs [])
  (Hin : forall c, c ∈ chunks -> physical st !! Chunk.id c = Some c /\ Chunk.is_static c = false)
  (Hroot : forall c, c ∈ chunks -> Lineage.is_root_chunk (lineage_of st) (Chunk.id c) = true) :
  exists st' cs' removed,
    StoreGc.remove_chunks_shallow st chunks None reason = Done (st', (fun c => Deletion c reason) <$> removed)
    /\ store_ok st' cs' [] /\ removal st st' cs cs' removed
    /\ (forall c, c ∈ removed <-> c ∈ chunks).
Proof.
  unfold StoreGc.remove_chunks_shallow.
  destruct (shallow_loop_ok StoreGc.no_budget reason chunks st cs [] [] [] Hok) as
    (st' & cs' & removed & Hrun & Hok' & Hrem & Hsub & Hall); [|done| |].
  - intros c Hc c' Hc'. destruct (Hin c Hc). split; [congruence|done].
  - intros c Hc Hr. by rewrite Hroot in Hr.
  - exists st', cs', removed. split_and!; [exact Hrun|done|done|]. intros c. split; [apply Hsub|]. intros Hc.
    specialize (Hall ltac:(done) c Hc). rewrite (rem_physical _ _ _ _ _ Hrem) in Hall.
    destruct (Hin c Hc) as [Hp _]. case_decide as Hr; [|congruence].
    apply list_elem_of_fmap in Hr as (c' & Hid & Hc'). pose proof (rem_were_physical _ _ _ _ _ Hrem c' Hc').
    assert (c' = c) as -> by congruence. done.
Qed.

(** [remove_chunks_deep] on temporal chunks of the store, in memory or not, of any level of the
    lineage.  It keeps the invariant; exactly the chunks given leave memory and the indices,
    the ones in memory are all reported, and nothing but the chunks given is. *)
Lemma remove_chunks_deep_spec st cs chunks reason (Hok : store_ok st cs [])
  (Hin : forall c, c ∈ chunks -> c ∈ cs) :
  exists st' cs' dels, StoreGc.remove_chunks_deep st chunks reason = Done (st', dels)
    /\ store_ok st' cs' [] /\ same_rest st st'
    /\ (forall id, physical st' !! id = if decide (id ∈ Chunk.id <$> chunks) then None else physical st !! id)
    /\ (forall c, c ∈ cs' <-> c ∈ cs /\ Chunk.id c ∉ Chunk.id <$> chunks)
    /\ (forall d, d ∈ dels -> del_chunk d ∈ chunks /\ del_reason d = reason)
    /\ (forall c, c ∈ chunks -> is_Some (physical st !! Chunk.id c) ->
          exists d, d ∈ dels /\ Chunk.id (del_chunk d) = Chunk.id c).
Proof.
  destruct (remove_chunks_deep_ok st cs chunks reason Hok) as
    (st' & cs' & dels & Hrun & Hok' & Hr & Hp & Hcs & _ & _ & Hd & Hall).
  - intros c c' Hc Hc'. apply (ok_consistent _ _ _ _ Hok); [by apply Hin|done].
  - intros c c' Hc Hc' Hid. apply (same_id_same_chunk cs); [apply Hok|by apply Hin|done|done].
  - exists st', cs', dels. by split_and!.
Qed.

(** ** Collection *)

(** What a sweep over the chunks [marked] does. *)
Record swept (deep : bool) st st' (cs cs' marked : list Chunk.t) (dels : list ChunkStoreDiffDeletion) : Prop := {
  swept_rest : same_rest st st';
  swept_subset : physical st' ⊆ physical st;
  swept_unmarked id c : physical st !! id = Some c -> c ∉ marked -> physical st' !! id = Some c;
  swept_reported c : c ∈ marked -> physical st' !! Chunk.id c = None ->
    exists d, d ∈ dels /\ Chunk.id (del_chunk d) = Chunk.id c;
  swept_marked d : d ∈ dels -> del_chunk d ∈ marked /\ del_reason d = GarbageCollection;
  swept_indexed c : c ∈ cs' -> c ∈ cs;
  swept_still_indexed c : c ∈ cs -> c ∉ marked -> c ∈ cs';
  swept_manifest c : deep = false -> c ∈ cs -> manifest_root (lineage_of st) (Chunk.id c) -> c ∈ cs';
}.

Lemma manifest_root_is_root m id : manifest_root m id -> Lineage.is_root_chunk m id = true.
Proof.
  intros (l & src & Hl & Hlin). unfold Lineage.is_root_chunk, Lineage.direct_lineage. rewrite Hl. simpl. by rewrite Hlin.
Qed.

(** The sweep: the roots first, under the clock, then the others. *)
Lemma sweep_ok st cs (shallow deeply : list Chunk.t) exhausted : store_ok st cs [] ->
  (forall c, c ∈ shallow ++ deeply -> collectable st c) ->
  (forall c, c ∈ shallow -> Lineage.is_root_chunk (lineage_of st) (Chunk.id c) = true) ->
  exists st' cs' dels1 dels2 st1,
    StoreGc.remove_chunks_shallow st shallow (Some exhausted) GarbageCollection = Done (st1, dels1)
    /\ StoreGc.remove_chunks_deep st1 deeply GarbageCollection = Done (st', dels2)
    /\ store_ok st' cs' []
    /\ (forall c, c ∈ deeply -> physical st' !! Chunk.id c = None)
    /\ ((forall n, exhausted n = false) -> forall c, c ∈ shallow -> physical st' !! Chunk.id c = None)
    /\ forall deep : bool, (deep = false ->
         forall c, c ∈ deeply -> Lineage.is_root_chunk (lineage_of st) (Chunk.id c) = false) ->
       swept deep st st' cs cs' (shallow ++ deeply) (dels1 ++ dels2).
Proof.
  intros Hok Hcol Hroot. unfold StoreGc.remove_chunks_shallow.
  destruct (shallow_loop_ok exhausted GarbageCollection shallow st cs [] [] [] Hok) as
    (st1 & cs1 & removed & Hrun & Hok1 & Hrem & Hsub & Hall); [|done| |].
  { intros c Hc c' Hc'. destruct (Hcol c) as [Hp Hs]; [by apply elem_of_app; left|]. split; [congruence|done]. }
  { intros c Hc Hr. by rewrite Hroot in Hr. }
  pose proof (removed_subseteq _ _ _ _ _ Hrem) as Hsub1.
  assert (forall c, c ∈ deeply -> physical st !! Chunk.id c = Some c) as Hdeep by (intros c Hc; apply Hcol, elem_of_app; by right).
  destruct (remove_chunks_deep_ok st1 cs1 deeply GarbageCollection Hok1) as
    (st' & cs' & dels2 & Hrun2 & Hok2 & Hr2 & Hp2 & Hcs2 & _ & _ & Hd2 & Hall2).
  { intros c c' Hc Hc'. assert (physical st !! Chunk.id c = Some c') as Hl by (by eapply lookup_weaken).
    rewrite Hdeep in Hl by done. destruct (Hcol c) as [_ ?]; [by apply elem_of_app; right|]. split; [congruence|done]. }
  { intros c c' Hc Hc' Hid. apply (same_id_same_chunk cs); [apply Hok| |by eapply rem_sound|done].
    destruct (Hcol c) as [? ?]; [by apply elem_of_app; right|]. by eapply ok_temporal. }
  destruct Hrem as [Hr Hp Hdist Hw Hso Hco Hma _ _].
  exists st', cs', ((fun c => Deletion c GarbageCollection) <$> removed), dels2, st1.
  split_and!; [exact Hrun|done|done| | |].
  { intros c Hc. rewrite Hp2, decide_True; [done|by apply list_elem_of_fmap_2]. }
  { intros Hne c Hc. rewrite Hp2. case_decide; [done|]. by apply Hall. }
  intros deep Hlevel. split.
  - by eapply same_rest_trans.
  - etransitivity; [|exact Hsub1]. apply map_subseteq_spec. intros id c. rewrite Hp2. by case_decide.
  - intros id c Hc Hn. pose proof (ok_keys _ _ _ _ Hok id c Hc) as <-. rewrite Hp2, Hp.
    rewrite (decide_False (P := _ ∈ _ <$> deeply)), decide_False; [done|..];
      intros (c' & Hid & Hc')%list_elem_of_fmap; apply Hn, elem_of_app.
    + left. rewrite Hid, Hw in Hc by done. injection Hc as <-. by apply Hsub.
    + right. rewrite Hid, Hdeep in Hc by done. by injection Hc as <-.
  - intros c Hin Hn. destruct (Hcol c Hin) as [Hc _].
    assert (physical st1 !! Chunk.id c = None \/ c ∈ deeply) as [Hn1|Hcd].
    { destruct (physical st1 !! Chunk.id c) as [c1|] eqn:E; [right|by left].
      rewrite Hp2 in Hn. case_decide as Hd; [|congruence]. apply list_elem_of_fmap in Hd as (c' & Hid & Hc').
      rewrite Hid, Hdeep in Hc by done. by injection Hc as <-. }
    + rewrite Hp in Hn1. case_decide as Hd; [|congruence]. apply list_elem_of_fmap in Hd as (c' & Hid & Hc').
      exists (Deletion c' GarbageCollection). split; [|done]. apply elem_of_app. left. by apply (list_elem_of_fmap_2 (fun c => Deletion c GarbageCollection)).
    + destruct (physical st1 !! Chunk.id c) as [c1|] eqn:E.
      * destruct (Hall2 c Hcd) as (d & Hd & Hid); [by eexists|]. exists d. split; [by apply elem_of_app; right|done].
      * rewrite Hp in E. case_decide as Hd; [|congruence]. apply list_elem_of_fmap in Hd as (c' & Hid & Hc').
        exists (Deletion c' GarbageCollection). split; [|done]. apply elem_of_app. left. by apply (list_elem_of_fmap_2 (fun c => Deletion c GarbageCollection)).
  - intros d [(c & -> & Hc)%list_elem_of_fmap|Hd]%elem_of_app; [split; [apply elem_of_app; left; by apply Hsub|done]|].
    destruct (Hd2 d Hd). split; [by apply elem_of_app; right|done].
  - intros c [Hc _]%Hcs2. by apply Hso.
  - intros c Hc Hn. rewrite Hcs2. assert (Chunk.id c ∉ Chunk.id <$> deeply /\ Chunk.id c ∉ Chunk.id <$> removed) as [Hd Hd'].
    { split; intros (c' & Hid & Hc')%list_elem_of_fmap; apply Hn, elem_of_app; [right|left; apply Hsub];
        (assert (c = c') as ->; [|done]); apply (same_id_same_chunk cs); try done; try apply Hok.
      - destruct (Hcol c') as [? ?]; [by apply elem_of_app; right|]. by eapply ok_temporal.
      - destruct (Hcol c') as [? ?]; [apply elem_of_app; left; by apply Hsub|]. by eapply ok_temporal. }
    split; [|done]. by apply Hco.
  - intros c Hshallow Hc Hm. rewrite Hcs2. split; [by apply Hma|]. intros (c' & Hid & Hc')%list_elem_of_fmap.
    apply manifest_root_is_root in Hm. rewrite Hid, (Hlevel Hshallow c' Hc') in Hm. done.
Qed.

Lemma filter_split_elem (f : Chunk.t -> bool) l c :
  c ∈ List.filter f l ++ List.filter (fun c => negb (f c)) l <-> c ∈ l.
Proof.
  rewrite elem_of_app, !elem_of_filter_bool. destruct (f c); naive_solver.
Qed.

Lemma swept_ext deep st st' cs cs' marked marked' dels : (forall c, c ∈ marked <-> c ∈ marked') ->
  swept deep st st' cs cs' marked dels -> swept deep st st' cs cs' marked' dels.
Proof.
  intros Heq [? ? Hu Hr Hm ? Hs ?]. split; try done.
  - intros id c Hc Hn. apply Hu; [done|]. by rewrite Heq.
  - intros c Hc. apply Hr. by rewrite Heq.
  - intros d Hd. rewrite <- Heq. by apply Hm.
  - intros c Hc Hn. apply Hs; [done|]. by rewrite Heq.
Qed.

(** [gc_drop_at_least_num_bytes] once the chunks are marked. *)
Lemma gc_drop_ok st cs options target_bytes mark_exhausted sweep_exhausted marked : store_ok st cs [] ->
  StoreGc.gc_find_candidates st options target_bytes mark_exhausted = Done marked ->
  (forall c, c ∈ marked -> collectable st c) ->
  exists st' cs' dels,
    StoreGc.gc_drop_at_least_num_bytes st options target_bytes mark_exhausted sweep_exhausted = Done (st', dels)
    /\ store_ok st' cs' [] /\ swept (perform_deep_deletions options) st st' cs cs' marked dels
    /\ ((forall n, sweep_exhausted n = false) -> forall c, c ∈ marked -> physical st' !! Chunk.id c = None).
Proof.
  intros Hok Hrun Hcol. unfold StoreGc.gc_drop_at_least_num_bytes. rewrite Hrun. cbn [mbind outcome_bind].
  set (is_root c := Lineage.is_root_chunk (lineage_of st) (Chunk.id c)).
  destruct (perform_deep_deletions options).
  - destruct (sweep_ok st cs [] marked sweep_exhausted Hok) as
      (st' & cs' & dels1 & dels2 & st1 & Hrun1 & Hrun2 & Hok' & Hd & _ & Hs); [done|by intros c ?%elem_of_nil|].
    rewrite Hrun1. cbn [mbind outcome_bind]. rewrite Hrun2. cbn [mbind outcome_bind].
    exists st', cs', (dels1 ++ dels2). split_and!; [done|done|by apply Hs|]. auto.
  - destruct (sweep_ok st cs (List.filter is_root marked) (List.filter (fun c => negb (is_root c)) marked) sweep_exhausted Hok)
      as (st' & cs' & dels1 & dels2 & st1 & Hrun1 & Hrun2 & Hok' & Hd & Hsh & Hs).
    { intros c Hc. apply Hcol. by apply (filter_split_elem is_root). }
    { by intros c [_ ?]%elem_of_filter_bool. }
    rewrite Hrun1. cbn [mbind outcome_bind]. unfold is_root in Hrun2. rewrite Hrun2. cbn [mbind outcome_bind].
    exists st', cs', (dels1 ++ dels2). split_and!; [done|done| |].
    + eapply swept_ext, Hs; [apply filter_split_elem|]. by intros _ c [_ ?%negb_true_iff]%elem_of_filter_bool.
    + intros Hne c Hc. apply (filter_split_elem is_root) in Hc as [Hc|Hc]%elem_of_app; [by apply Hsh|by apply Hd].
Qed.

(** The target is in bounds, and so are the sums that a collection computes. *)
Definition fraction_ok (t : GarbageCollectionTarget) : bool :=
  match t with DropAtLeastFraction p => F64.leb F64.zero p && F64.leb p F64.one | _ => true end.

Definition gc_bounds st (options : GarbageCollectionOptions) : Prop :=
  gc_id st < u64_max /\ 0 <= gc_id st
  /\ 2 * temporal_bytes st <= u64_max
  /\ sums_fit (physical st)
  /\ fraction_ok (target options) = true.

Definition stepped_gc_id st : ChunkStore.t := with_ids st (insert_id st) (gc_id st + 1) (event_id st).

Lemma stepped_ok st cs pending : store_ok st cs pending -> store_ok (stepped_gc_id st) cs pending.
Proof. by intros []. Qed.

Lemma target_bytes_ok options total : fraction_ok (target options) = true ->
  exists n, StoreGc.target_bytes_from_size (target options) total = Done n
    /\ (target options = Everything -> n = u64_max).
Proof.
  unfold fraction_ok, StoreGc.target_bytes_from_size. destruct (target options) as [n|p|]; intros Hf.
  - exists n. by split.
  - rewrite Hf. unfold debug_assert. exists (F64.round_as_u64 (F64.mul (F64.of_u64 total) p)).
    split; [by destruct debug_assertions|done].
  - exists u64_max. by split.
Qed.

Lemma total_done s1 s2 : all_stats is_u64 (plus s1 s2) -> ChunkStoreStats.total (ChunkStoreStats.Mk s1 s2) = Done (plus s1 s2).
Proof. intros Hu. by apply add_done. Qed.

Lemma total_st st cs pending : store_ok st cs pending -> sums_fit (physical st) ->
  ChunkStoreStats.total (ChunkStoreStats.Mk (static_chunks_stats st) (temporal_physical_chunks_stats st))
    = Done (plus (stats_of true (physical st)) (stats_of false (physical st))).
Proof. intros Hok Hfit. destruct (exact_stats _ _ _ Hok Hfit) as [-> ->]. by apply total_done. Qed.

Lemma stats_sub_done s1 s2 t1 t2 d1 d2 : ChunkStoreChunkStats.sub s1 t1 = Done d1 -> ChunkStoreChunkStats.sub s2 t2 = Done d2 ->
  ChunkStoreStats.sub (ChunkStoreStats.Mk s1 s2) (ChunkStoreStats.Mk t1 t2) = Done (ChunkStoreStats.Mk d1 d2).
Proof.
  intros E1 E2. unfold ChunkStoreStats.sub. cbn [ChunkStoreStats.static_chunks ChunkStoreStats.temporal_chunks].
  rewrite E1. cbn [mbind outcome_bind]. by rewrite E2.
Qed.

(** [gc] on a store in the invariant. *)
Lemma gc_ok st cs options mark_exhausted sweep_exhausted : store_ok st cs [] -> gc_bounds st options ->
  exists st' cs' dels target_bytes marked,
    StoreGc.gc st options mark_exhausted sweep_exhausted
      = Done (st', dels, ChunkStoreStats.Mk ChunkStoreChunkStats.default_
               (minus (stats_of false (physical st)) (stats_of false (physical st'))))
    /\ (target options = Everything -> target_bytes = u64_max)
    /\ StoreGc.gc_find_candidates (stepped_gc_id st) options target_bytes mark_exhausted = Done marked
    /\ store_ok st' cs' [] /\ swept (perform_deep_deletions options) (stepped_gc_id st) st' cs cs' marked dels
    /\ ((forall n, sweep_exhausted n = false) -> forall c, c ∈ marked -> physical st' !! Chunk.id c = None).
Proof.
  intros Hok (Hgc & Hgc0 & Hbytes & Htot & Hfr).
  pose proof (stepped_ok _ _ _ Hok) as Hok0. unfold StoreGc.gc.
  rewrite arith_u64_done by (unfold is_u64; lia). cbn [mbind outcome_bind]. fold (stepped_gc_id st).
  rewrite (total_st (stepped_gc_id st) cs []) by done. cbn [mbind outcome_bind].
  destruct (target_bytes_ok options (ChunkStoreChunkStats.total_size_bytes
    (plus (stats_of true (physical (stepped_gc_id st))) (stats_of false (physical (stepped_gc_id st))))) Hfr)
    as (n & Hn & Hev). rewrite Hn. cbn [mbind outcome_bind].
  destruct (gc_find_candidates_ok _ cs [] options n mark_exhausted Hok0 Hbytes) as (marked & Hm & Hcol & _).
  destruct (gc_drop_ok _ cs options n mark_exhausted sweep_exhausted marked Hok0 Hm) as
    (st' & cs' & dels & Hd & Hok' & Hsw & Hall); [intros c Hc; by apply Hcol|].
  rewrite Hd. cbn [mbind outcome_bind].
  destruct (freed_ok _ _ _ st' cs' [] Hok0 Hok') as (Hs1 & Hs2);
    [apply (swept_subset _ _ _ _ _ _ _ Hsw)|by destruct (swept_rest _ _ _ _ _ _ _ Hsw) as (_ & _ & ? & _)|done|].
  rewrite (total_st st' cs' []); [|done|by eapply sums_fit_subseteq; [exact Hok0|apply (swept_subset _ _ _ _ _ _ _ Hsw)|]].
  cbn [mbind outcome_bind]. erewrite stats_sub_done by done. cbn [mbind outcome_bind].
  by exists st', cs', dels, n, marked.
Qed.

(** The marking phase.  It marks only chunks that are in memory, not static and not protected.
    When no priority is given to a time, it marks each chunk at most once, in the order of row
    ids, no more of them than the target needs; and, when the clock does not stop it, enough
    for the target unless it marks everything it may. *)
Lemma gc_find_candidates_spec st cs options target exhausted (Hok : store_ok st cs []) (Hbytes : 2 * temporal_bytes st <= u64_max) :
  exists marked, StoreGc.gc_find_candidates st options target exhausted = Done marked
    /\ (forall c, c ∈ marked -> collectable st c /\ StoreGc.is_chunk_protected options c = false)
    /\ (furthest_from options = None -> NoDup marked
         /\ (exists rest, StoreGc.chunks_in_priority_order st options = marked ++ rest
               /\ ((forall n, exhausted n = false) -> target <> 0 -> rest = [] \/ target <= sizes marked))
         /\ (forall l c, marked = l ++ [c] -> l <> [] -> sizes l < target)).
Proof.
  destruct (gc_find_candidates_ok st cs [] options target exhausted Hok Hbytes) as (marked & Hrun & Hm & Hprio).
  exists marked. split_and!; [done|done|]. intros Hn. destruct (Hprio Hn) as [(rest & HP & Hrest) Hmin].
  split_and!; [|by exists rest|done]. pose proof (priority_distinct st cs [] options Hok) as Hnd. rewrite HP in Hnd.
  by apply NoDup_app in Hnd as [? _].
Qed.

(** C15. Garbage collection, of whatever target, options and clock, of a store in the invariant.
    It returns and keeps the invariant.  It takes out of memory only chunks that are neither
    static nor protected by the options, nor (when no priority is given to a time) among the
    latest ones to protect, and reports every one it takes.  No chunk that can be fetched
    again from a manifest leaves the indices unless deep deletions are asked for.  The
    statistics it returns are those of the temporal chunks that left memory. *)
Theorem gc_spec st cs options mark_exhausted sweep_exhausted (Hok : store_ok st cs [])
  (Hbounds : gc_bounds st options) :
  exists st' cs' dels,
    StoreGc.gc st options mark_exhausted sweep_exhausted
      = Done (st', dels, ChunkStoreStats.Mk ChunkStoreChunkStats.default_
               (minus (stats_of false (physical st)) (stats_of false (physical st'))))
    /\ store_ok st' cs' []
    /\ physical st' ⊆ physical st
    /\ (forall id c, physical st !! id = Some c ->
         Chunk.is_static c = true \/ StoreGc.is_chunk_protected options c = true
         \/ (furthest_from options = None
             /\ id ∈ StoreGc.find_all_protected_physical_chunk_ids st (protect_latest options)) ->
         physical st' !! id = Some c)
    /\ (forall id c, physical st !! id = Some c -> physical st' !! id = None ->
         exists d, d ∈ dels /\ Chunk.id (del_chunk d) = id)
    /\ (forall d, d ∈ dels -> collectable st (del_chunk d) /\ del_reason d = GarbageCollection)
    /\ (forall c, c ∈ cs' -> c ∈ cs)
    /\ (perform_deep_deletions options = false -> forall c, c ∈ cs ->
         manifest_root (lineage_of st) (Chunk.id c) -> c ∈ cs').
Proof.
  destruct (gc_ok st cs options mark_exhausted sweep_exhausted Hok Hbounds) as
    (st' & cs' & dels & n & marked & Hrun & _ & Hm & Hok' & Hsw & _).
  destruct (gc_find_candidates_ok _ cs [] options n mark_exhausted (stepped_ok _ _ _ Hok)) as
    (marked' & Hm' & Hcol & Hprio); [apply Hbounds|]. assert (marked' = marked) as -> by congruence.
  exists st', cs', dels. rewrite Hrun.
  destruct Hsw as [Hr Hsub Hun Hrep Hmk Hidx Hstill Hman]. split_and!; try done.
  - intros id c Hc Hkeep. apply Hun; [done|]. intros Hin. destruct (Hcol c Hin) as [[Hcm Hs] Hp].
    destruct Hkeep as [?|[?|[Hff Hlatest]]]; [congruence|congruence|].
    destruct (Hprio Hff) as [(rest & HP & _) _].
    assert (c ∈ StoreGc.chunks_in_priority_order (stepped_gc_id st) options) as HcP
      by (rewrite HP; apply elem_of_app; by left).
    apply (priority_elem _ cs [] options c (stepped_ok _ _ _ Hok)) in HcP as (_ & _ & _ & Hni). apply Hni.
    by rewrite (ok_keys _ _ _ _ Hok id c Hc).
  - intros id c Hc Hn. pose proof (ok_keys _ _ _ _ Hok id c Hc) as <-.
    destruct (decide (Chunk.id c ∈ Chunk.id <$> marked)) as [(c' & Hid & Hin)%list_elem_of_fmap|Hin].
    + rewrite Hid in *. by apply Hrep.
    + rewrite (Hun _ c Hc) in Hn; [done|]. intros Hin'. by apply Hin, list_elem_of_fmap_2.
  - intros d Hd. destruct (Hmk d Hd) as [Hin ?]. split; [|done]. by apply Hcol.
  - intros Hd c Hc Hroot. by apply Hman.
Qed.

(** C16. [gc_everything], with all the time it needs: it leaves no temporal chunk in memory. *)
Theorem gc_everything_spec st cs never (Hok : store_ok st cs []) (Hbounds : gc_bounds st gc_everything)
  (Hnever : forall n, never n = false) :
  exists st' dels freed, StoreGc.gc st gc_everything never never = Done (st', dels, freed)
    /\ forall id c, physical st' !! id = Some c -> Chunk.is_static c = true.
Proof.
  destruct (gc_ok st cs gc_everything never never Hok Hbounds) as
    (st' & cs' & dels & n & marked & Hrun & Hn & Hm & Hok' & Hsw & Hall).
  rewrite (Hn eq_refl) in Hm.
  destruct (gc_find_candidates_ok _ cs [] gc_everything u64_max never (stepped_ok _ _ _ Hok)) as
    (marked' & Hm' & Hcol & Hprio); [apply Hbounds|]. assert (marked' = marked) as -> by congruence.
  destruct (Hprio eq_refl) as [(rest & HP & Hrest) _].
  assert (rest = []) as ->.
  { destruct (Hrest Hnever) as [|Hle]; [done|done|]. exfalso.
    destruct (collectable_sizes _ cs [] (StoreGc.chunks_in_priority_order (stepped_gc_id st) gc_everything) (stepped_ok _ _ _ Hok))
      as [Hpos Hsz]; [by eapply priority_distinct, stepped_ok|
        intros c Hc; by apply (priority_elem _ cs [] gc_everything c (stepped_ok _ _ _ Hok)) in Hc as [? _]|].
    rewrite HP, sizes_app in Hsz. rewrite HP in Hpos. apply Forall_app in Hpos as [_ Hpr%sizes_nonneg].
    destruct Hbounds as (_ & _ & Hb & _). change (temporal_bytes (stepped_gc_id st)) with (temporal_bytes st) in Hsz. unfold u64_max in *. lia. }
  rewrite app_nil_r in HP. rewrite Hrun. eexists _, _, _. split; [done|]. intros id c Hc.
  pose proof (ok_keys _ _ _ _ Hok' id c Hc) as <-.
  assert (physical st !! Chunk.id c = Some c) as Hc0 by (eapply lookup_weaken; [exact Hc|apply (swept_subset _ _ _ _ _ _ _ Hsw)]).
  destruct (Chunk.is_static c) eqn:Es; [done|].
  pose proof (row_id_range_some c (ok_rows _ _ _ _ Hok' _ c Hc)) as Hr.
  assert (c ∈ marked) as Hin.
  { rewrite <- HP. apply (priority_elem _ cs [] gc_everything c (stepped_ok _ _ _ Hok)). split_and!; [by split| |done|].
    - unfold StoreGc.is_chunk_protected. cbn. by rewrite bool_decide_false by set_solver.
    - unfold StoreGc.find_all_protected_physical_chunk_ids. cbn. set_solver. }
  rewrite (Hall Hnever c Hin) in Hc. done.
Qed.

End Collection.
