(* ===== verification/StoreInsertion.v ===== *)
(** * Insertion keeps the invariant

    That [insert_whole] of [StoreWrites], the insertion of a chunk that is not split, returns
    and keeps the invariant of [StoreInvariant] and every row: what it stores and compacts. *)

From stdpp Require Import strings.
From S2P Require Import Prelude Ints TimeInt TimeRange Tuid Arrow Column Chunk ChunkSlice.
From S2P Require Import ChunkSort ChunkMerge ChunkQuery ChunkIndex Lineage StoreStats ChunkStore StoreGc StoreWrites.
From S2P Require Import StoreInvariant.

(** The sizes that the arrow crate measures are not negative. *)
Class SizeLaws `{Chunk.SizeBytes} : Prop :=
  sizes_nonneg_law (c : Chunk.t) : 0 <= Chunk.heap_size_bytes_inner c /\ 0 <= Chunk.stack_size_bytes.

(** ** Outcomes

    A release build returns, with a result that satisfies [P]; a debug build may panic, when
    a counter overflows or an assertion fails. *)

Section Safe.

Context `{Build}.

Definition safe {A} (P : A -> Prop) (o : outcome A) : Prop :=
  match o with Done a => P a | Panic => debug_assertions = true end.

Lemma safe_bind {A B} (P : A -> Prop) (Q : B -> Prop) (o : outcome A) (f : A -> outcome B) :
  safe P o -> (forall a, P a -> safe Q (f a)) -> safe Q (a ← o; f a).
Proof. destruct o as [a|]; [|done]. intros Ha Hf. by apply Hf. Qed.

Lemma safe_weaken {A} (P Q : A -> Prop) (o : outcome A) : safe P o -> (forall a, P a -> Q a) -> safe Q o.
Proof. destruct o; simpl; auto. Qed.

Lemma safe_done {A} (P : A -> Prop) a : P a -> safe P (Done a).
Proof. done. Qed.

Lemma safe_debug_assert b : safe (fun _ => True) (debug_assert b).
Proof. unfold debug_assert. destruct debug_assertions eqn:E, b; done. Qed.

Lemma safe_arith z : safe (fun _ => True) (arith_u64 debug_assertions z).
Proof. unfold arith_u64. case_decide; [done|]. by destruct debug_assertions eqn:E. Qed.

End Safe.

(** ** Lineage *)

Section LineageGrowth.

Import Lineage.
Context `{Build}.
Implicit Types m : gmap ChunkId.t TrackedDirectChunkLineage.

Lemma total_le (f g : TrackedDirectChunkLineage -> nat) m : (forall l, (f l <= g l)%nat) -> (total f m <= total g m)%nat.
Proof.
  intros Hfg. induction m as [|id l m Hid IH] using map_ind; [done|]. rewrite !total_insert_fresh by done.
  specialize (Hfg l). lia.
Qed.

Lemma refers_le id l : (refers id l <= num_references l)%nat.
Proof. unfold refers, num_references, occurrences. apply length_filter. Qed.

(** A chunk in memory is one reference, and no other is counted twice. *)
Lemma count_bound physical m id l : counted physical m [] -> m !! id = Some l ->
  0 <= ref_count l <= 1 + Z.of_nat (total num_references m).
Proof.
  intros Hc Hl. rewrite (Hc id l Hl). pose proof (total_le (refers id) num_references m (refers_le id)).
  change (occurrences id []) with 0%nat. case_decide; lia.
Qed.

(** What is idle after growth was so before. *)
Lemma idle_mono m m' id l l' :
  (forall s, is_live m s = true -> is_live m' s = true) -> lineage l' = lineage l ->
  descends_from_manifest l' = descends_from_manifest l -> 0 <= ref_count l <= ref_count l' ->
  idle m' id l' -> idle m id l.
Proof.
  intros Hlive Hlin Hm Hc (Hd & Hr & Hs). rewrite Hlin in Hs. split_and!; [congruence|lia|].
  destruct (lineage l); [|done..]. eapply Forall_impl; [exact Hs|]. intros s Hns.
  destruct (is_live m s) eqn:E; [|done]. apply Hlive in E. simpl in Hns. congruence.
Qed.

(** The chunks that a lineage is made of. *)
Notation refs new := (iter_referenced_chunks new).

(** Recording a chunk nothing knew of. *)
Lemma record_ok E D m id new : lineages_almost_ok E D m -> unknown D m id -> id ∉ refs new -> kin m id new ->
  (forall p l, p ∈ refs new -> m !! p = Some l -> lineage l = Volatile -> p ∉ D) ->
  Z.of_nat (total num_references m + length (refs new)) + 1 < 2 ^ 32 ->
  exists m', insert_lineage_if_missing m id new = Done m'
    /\ lineages_almost_ok ({[id]} ∪ E ∖ list_to_set (refs new)) D m'
    /\ m' !! id = Some (Tracked new 0 (inherits_manifest m new))
    /\ (forall i, i <> id -> m' !! i = (fun l => Tracked (lineage l) (ref_count l + Z.of_nat (occurrences i (refs new)))
                                       (descends_from_manifest l)) <$> m !! i)
    /\ total num_references m' = (total num_references m + length (refs new))%nat.
Proof.
  intros Hok Hun Hself Hkin Hvol Hroom. pose proof Hok as [Hc Hf Hi Hfl Hk Hv].
  destruct (insert_lineage_if_missing_ok D m id new Hc Hfl Hf) as [_ Hins].
  destruct Hins as (m' & Hrun & Hc' & Hfl' & Hf' & Hnew & Hold); [done..| |lia|].
  { intros i l Hl. pose proof (count_bound D m i l Hc Hl). lia. }
  exists m'. split_and!; [done| |done|done|].
  - assert (forall s, is_live m s = true -> is_live m' s = true) as Hlive.
    { intros s. unfold is_live. destruct (decide (s = id)) as [->|Hne].
      - destruct Hun as (-> & _). done.
      - rewrite Hold by done. destruct (m !! s); [|done]. simpl. rewrite !Z.ltb_lt. lia. }
    split; [done|done| |done| |].
    + intros i l' Hl' Hidle. apply elem_of_union. destruct (decide (i = id)) as [->|Hne]; [left; by apply elem_of_singleton|right].
      rewrite Hold in Hl' by done. destruct (m !! i) as [l|] eqn:El; [|done]. injection Hl' as <-.
      pose proof (counted_nonneg _ _ _ _ _ Hc El). apply elem_of_difference. split.
      * apply (Hi i l El). eapply idle_mono; [exact Hlive| | | |exact Hidle]; simpl; [done..|lia].
      * rewrite elem_of_list_to_set. apply occurrences_zero. destruct Hidle as (_ & Hz & _). simpl in Hz. lia.
    + intros i Hin. destruct (decide (i = id)) as [->|Hne]; [by rewrite Hnew|]. rewrite Hold by done.
      destruct (Hk i Hin) as [l ->]. by eexists.
    + intros i l' Hin Hl' Hlin j lj Hj. destruct Hun as (Hid & HidD & _).
      assert (i <> id) as Hne by congruence. rewrite Hold in Hl' by done.
      destruct (m !! i) as [l|] eqn:El; [|done]. injection Hl' as <-. simpl in Hlin.
      destruct (decide (j = id)) as [->|Hnj].
      * rewrite Hnew in Hj. injection Hj as <-. simpl. intros Hr. by apply (Hvol i l Hr El Hlin).
      * rewrite Hold in Hj by done. destruct (m !! j) as [lj0|] eqn:Ej; [|done]. injection Hj as <-. simpl.
        by apply (Hv i l Hin El Hlin j lj0).
  - destruct Hun as (Hid & _). rewrite (raised_total num_references (<[id := Tracked new 0 (inherits_manifest m new)]> m) m' (refs new)).
    + rewrite total_insert_fresh by done. unfold num_references at 1. simpl. lia.
    + intros l l' Hl. unfold num_references. by rewrite Hl.
    + intros i. destruct (decide (i = id)) as [->|Hne]; [|rewrite lookup_insert_ne by done; by apply Hold].
      rewrite lookup_insert_eq, Hnew. simpl. do 2 f_equal.
      assert (occurrences id (refs new) = 0%nat) as -> by (by apply occurrences_zero). done.
Qed.

(** A chunk enters memory: its entry has one more reference. *)
Lemma bump_ok E D m id l : lineages_almost_ok E D m -> id ∉ D -> m !! id = Some l ->
  (lineage l = Volatile -> unreferenced_by m id) -> Z.of_nat (total num_references m) + 2 < 2 ^ 32 ->
  let m' := <[id := Tracked (lineage l) (ref_count l + 1) (descends_from_manifest l)]> m in
  bump_reference m id = Done m' /\ lineages_almost_ok (E ∖ {[id]}) ({[id]} ∪ D) m'
  /\ total num_references m' = total num_references m.
Proof.
  intros [Hc Hf Hi Hfl Hk Hv] HidD Hl Hvol Hroom m'. pose proof (count_bound D m id l Hc Hl) as Hb.
  assert (bump_reference m id = Done m') as Hrun.
  { unfold bump_reference, add_reference. rewrite Hl, bool_decide_true by lia. done. }
  assert (forall f, (forall l l', lineage l = lineage l' -> f l = f l') -> total f m' = total f m) as Htot.
  { intros f Hff. pose proof (total_insert f m id l (Tracked (lineage l) (ref_count l + 1) (descends_from_manifest l)) Hl) as Ht.
    rewrite (Hff (Tracked _ _ _) l) in Ht by done. unfold m'. lia. }
  assert (same_entries m m') as Hse.
  { intros i. unfold m'. destruct (decide (i = id)) as [->|Hne]; [by rewrite lookup_insert_eq, Hl|].
    rewrite lookup_insert_ne by done. by destruct (m !! i). }
  split_and!; [done| |apply Htot; intros l1 l2 E12; unfold num_references; by rewrite E12].
  split.
  - intros i li Hli. rewrite (Htot (refers i) (refers_same i)). change (occurrences i []) with 0%nat.
    unfold m' in Hli. apply lookup_insert_Some in Hli as [[<- <-]|[Hne Hli]]; simpl.
    + rewrite (Hc id l Hl). change (occurrences id []) with 0%nat. rewrite decide_False by done.
      rewrite decide_True by set_solver. lia.
    + rewrite (Hc i li Hli). change (occurrences i []) with 0%nat.
      destruct (decide (i ∈ D)); [rewrite decide_True by set_solver|rewrite decide_False by set_solver]; lia.
  - by eapply same_families.
  - intros i li Hli Hidle. apply lookup_insert_Some in Hli as [[<- <-]|[Hne Hli]].
    + destruct Hidle as (_ & Hz & _). simpl in Hz. lia.
    + apply elem_of_difference. split; [|set_solver]. apply (Hi i li Hli).
      pose proof (counted_nonneg _ _ _ _ _ Hc Hli). eapply (idle_mono m m'); [|done|done|lia|done].
      intros s Hs. unfold m'. rewrite is_live_insert. case_decide; [|done]. simpl. apply Z.ltb_lt. lia.
  - intros i li Hli. unfold m' in Hli. assert (forall l', inherits_manifest m' l' = inherits_manifest m l') as Hinh.
    { intros l'. apply inherits_manifest_ext. intros p _. unfold store_descends_from_manifest.
      specialize (Hse p). destruct (m !! p), (m' !! p); try done. simpl. by destruct Hse. }
    rewrite Hinh. apply lookup_insert_Some in Hli as [[<- <-]|[Hne Hli]]; simpl; by eapply Hfl.
  - intros i Hin. unfold m'. destruct (decide (id = i)) as [->|Hne]; [by rewrite lookup_insert_eq|].
    rewrite lookup_insert_ne by done. apply Hk. set_solver.
  - intros i li Hin Hli Hlin j lj Hj. assert (unreferenced_by m i) as Hur.
    { apply lookup_insert_Some in Hli as [[<- <-]|[Hne Hli]]; [by apply Hvol|]. apply (Hv i li); [set_solver|done|done]. }
    apply lookup_insert_Some in Hj as [[<- <-]|[Hne Hj]]; [by apply (Hur id l)|by apply (Hur j lj)].
Qed.

(** A reference is dropped that is not the last one. *)
Lemma drop_referenced ctx e l : chunks_lineage ctx !! e = Some l -> 2 <= ref_count l ->
  drop_lineage_reference ctx e
    = Some (Ctx (<[e := Tracked (lineage l) (ref_count l - 1) (descends_from_manifest l)]> (chunks_lineage ctx))
              (leaky_compactions ctx) (split_on_ingest ctx) (dangling_splits ctx)).
Proof.
  intros Hl Hn. unfold drop_lineage_reference, drop_fuel, drop_cost. cbn [Nat.add drop_loop drop_step].
  rewrite Hl. cbn [lineage ref_count descends_from_manifest]. rewrite Z.max_r by lia.
  rewrite (proj2 (Z.ltb_lt 0 (ref_count l - 1))) by lia. rewrite orb_true_r. done.
Qed.

(** [x] is compacted with [e], which leaves memory, into [k]. *)
Lemma compaction_ok D m x e k ids : lineages_almost_ok {[x]} D m -> is_Some (m !! x) -> x ∉ D -> e ∈ D ->
  (forall p, p ∈ ids <-> p = x \/ p = e) -> length ids = 2%nat -> unknown D m k -> kin m k (CompactedFrom ids) ->
  Z.of_nat (total num_references m) + 4 < 2 ^ 32 ->
  exists m2 le, insert_lineage_if_missing m k (CompactedFrom ids) = Done m2
    /\ m2 !! e = Some le /\ 2 <= ref_count le
    /\ let m3 := <[e := Tracked (lineage le) (ref_count le - 1) (descends_from_manifest le)]> m2 in
       lineages_almost_ok {[k]} (D ∖ {[e]}) m3
       /\ (exists lk, m3 !! k = Some lk /\ lineage lk = CompactedFrom ids)
       /\ total num_references m3 = (total num_references m + 2)%nat
       /\ (forall i l, m !! i = Some l -> exists l3, m3 !! i = Some l3 /\ lineage l3 = lineage l).
Proof.
  intros Hok [lx Hx] HxD HeD Hids Hlen Hun Hkin Hroom. pose proof Hok as [Hc Hf Hi Hfl Hk Hv].
  destruct (Hk e HeD) as [l0 He]. pose proof Hun as (Hkn & HkD & Hkr).
  assert (k <> x) as Hkx by congruence. assert (k <> e) as Hke by congruence. assert (x <> e) as Hxe by congruence.
  destruct (insert_lineage_if_missing_ok D m k (CompactedFrom ids) Hc Hfl Hf) as [_ Hins].
  destruct Hins as (m2 & Hrun & Hc2 & Hfl2 & Hf2 & Hnew & Hold); [done|simpl; rewrite Hids; tauto|done| |simpl; lia|].
  { intros i l Hl. pose proof (count_bound D m i l Hc Hl). simpl. lia. }
  assert (forall p, p ∈ ids -> (0 < occurrences p ids)%nat) as Hocc.
  { intros p Hp. destruct (Nat.eq_dec (occurrences p ids) 0) as [Hz|]; [|lia]. by apply occurrences_zero in Hz. }
  exists m2, (Tracked (lineage l0) (ref_count l0 + Z.of_nat (occurrences e ids)) (descends_from_manifest l0)).
  assert (m2 !! e = Some (Tracked (lineage l0) (ref_count l0 + Z.of_nat (occurrences e ids)) (descends_from_manifest l0))) as He2
    by (by rewrite Hold, He).
  pose proof (Hocc e ltac:(apply Hids; by right)) as Hoe. pose proof (Hocc x ltac:(apply Hids; by left)) as Hox.
  pose proof (count_bound D m e l0 Hc He) as Hbe.
  assert (1 <= ref_count l0) as Hge by (rewrite (Hc e l0 He), decide_True by done; lia).
  cbn [lineage ref_count descends_from_manifest].
  split; [done|]. split; [done|]. split; [lia|].
  set (m3 := <[e := _]> m2).
  assert (forall i, i <> e -> m3 !! i = m2 !! i) as H3 by (intros i Hne; unfold m3; by rewrite lookup_insert_ne).
  assert (m3 !! e = Some (Tracked (lineage l0) (ref_count l0 + Z.of_nat (occurrences e ids) - 1) (descends_from_manifest l0))) as He3
    by (unfold m3; by rewrite lookup_insert_eq).
  assert (same_entries m2 m3) as Hse.
  { intros i. destruct (decide (i = e)) as [->|Hne]; [by rewrite He2, He3|rewrite H3 by done; by destruct (m2 !! i)]. }
  assert (forall i l, i <> k -> m3 !! i = Some l -> exists l', m !! i = Some l' /\ lineage l = lineage l'
    /\ descends_from_manifest l = descends_from_manifest l' /\ 0 <= ref_count l' <= ref_count l
    /\ (i = x -> 0 < ref_count l)) as Hback.
  { intros i l Hne Hl. destruct (decide (i = e)) as [->|Hie].
    - exists l0. rewrite He3 in Hl. injection Hl as <-. simpl. split_and!; [done..|lia|lia|done].
    - rewrite H3, Hold in Hl by done. destruct (m !! i) as [l'|] eqn:El; [|done]. injection Hl as <-. simpl.
      pose proof (counted_nonneg _ _ _ _ _ Hc El). exists l'. split_and!; [done..|lia|lia|intros ->; lia]. }
  assert (forall i l, m !! i = Some l -> exists l3, m3 !! i = Some l3 /\ lineage l3 = lineage l /\ ref_count l <= ref_count l3) as Hfwd.
  { intros i l Hl. destruct (decide (i = e)) as [->|Hie].
    - rewrite He3. eexists. split; [done|]. assert (l = l0) as -> by congruence. simpl. split; [done|lia].
    - rewrite H3, Hold by congruence. rewrite Hl. eexists. split; [done|]. simpl. split; [done|lia]. }
  split_and!.
  - split.
    + intros i l Hl. assert (total (refers i) m3 = total (refers i) m2) as ->.
      { pose proof (total_insert (refers i) m2 e _ (Tracked (lineage l0) (ref_count l0 + Z.of_nat (occurrences e ids) - 1)
          (descends_from_manifest l0)) He2) as Ht. fold m3 in Ht. unfold refers at 1 3 in Ht. simpl in Ht. lia. }
      change (occurrences i []) with 0%nat. destruct (decide (i = e)) as [->|Hie].
      * rewrite He3 in Hl. injection Hl as <-. simpl. pose proof (Hc2 e _ He2) as Hce. simpl in Hce.
        change (occurrences e []) with 0%nat in Hce. rewrite decide_True in Hce by done. rewrite decide_False by set_solver. lia.
      * rewrite H3 in Hl by done. rewrite (Hc2 i l Hl). change (occurrences i []) with 0%nat.
        destruct (decide (i ∈ D)); [rewrite decide_True by set_solver|rewrite decide_False by set_solver]; lia.
    + by eapply same_families.
    + intros i l Hl Hidle. apply elem_of_singleton. destruct (decide (i = k)) as [->|Hne]; [done|]. exfalso.
      destruct (Hback i l Hne Hl) as (l' & Hl' & Hlin & Hm & Hle & Hix).
      assert (i ∈ ({[x]} : gset ChunkId.t)) as ->%elem_of_singleton.
      { apply (Hi i l' Hl'). eapply (idle_mono m m3 i l' l); [|done|done|done|done].
        intros s. unfold is_live. destruct (m !! s) as [ls|] eqn:Es; [|done]. destruct (Hfwd s ls Es) as (ls' & -> & _ & ?).
        simpl. rewrite !Z.ltb_lt. lia. }
      destruct Hidle as (_ & Hz & _). specialize (Hix eq_refl). lia.
    + intros i l Hl. assert (forall l', inherits_manifest m3 l' = inherits_manifest m2 l') as ->.
      { intros l'. apply inherits_manifest_ext. intros p _. unfold store_descends_from_manifest.
        specialize (Hse p). destruct (m2 !! p), (m3 !! p); try done. simpl. by destruct Hse. }
      specialize (Hse i). rewrite Hl in Hse. destruct (m2 !! i) as [l2|] eqn:E2; [|done]. destruct Hse as [-> ->]. by apply (Hfl2 i).
    + intros i Hin. destruct (Hk i) as [l Hl]; [set_solver|]. destruct (Hfwd i l Hl) as (? & -> & _). by eexists.
    + intros i l Hin Hl Hlin j lj Hj. assert (i ∈ D /\ i <> e) as [HiD Hie] by set_solver.
      destruct (Hback i l) as (l' & Hl' & Hlin' & _); [congruence|done|].
      destruct (decide (j = k)) as [->|Hjk].
      * rewrite H3, Hnew in Hj by done. injection Hj as <-. simpl. rewrite Hids. intros [->| ->]; [done|by apply Hie].
      * destruct (Hback j lj Hjk Hj) as (lj' & Hlj' & -> & _). apply (Hv i l' HiD Hl' ltac:(congruence) j lj' Hlj').
  - rewrite H3, Hnew by done. by eexists.
  - assert (raised (<[k := Tracked (CompactedFrom ids) 0 (inherits_manifest m (CompactedFrom ids))]> m) m2 ids) as Hr2.
    { intros i. destruct (decide (i = k)) as [->|Hne]; [|rewrite lookup_insert_ne by done; by apply Hold].
      rewrite lookup_insert_eq, Hnew. simpl. do 2 f_equal.
      assert (occurrences k ids = 0%nat) as ->; [|done]. apply occurrences_zero. rewrite Hids. by intros [|]. }
    assert (forall l l', lineage l = lineage l' -> num_references l = num_references l') as Hnr
      by (intros l l' E; unfold num_references; by rewrite E).
    pose proof (total_insert num_references m2 e _ (Tracked (lineage l0) (ref_count l0 + Z.of_nat (occurrences e ids) - 1)
      (descends_from_manifest l0)) He2) as Ht. fold m3 in Ht. unfold num_references at 1 3 in Ht. simpl in Ht.
    rewrite (raised_total num_references _ _ _ Hnr Hr2), total_insert_fresh in Ht by done.
    unfold num_references at 2 in Ht. simpl in Ht. lia.
  - intros i l Hl. destruct (Hfwd i l Hl) as (l3 & ? & ? & _). eauto.
Qed.

End LineageGrowth.

(** ** A chunk enters memory *)

Section Growth.

Import ChunkStore.
Context `{Build} `{ArrowLaws} `{!Chunk.SizeBytes} `{HashOrder}.
Implicit Types st : ChunkStore.t.
Implicit Types c : Chunk.t.

Notation physical st := (physical_chunks_per_chunk_id st).
Notation lineage_of st := (chunks_lineage (lineages st)).
Notation refs_of st := (Lineage.total Lineage.num_references (lineage_of st)).

Definition sized c : Prop := all_stats (fun z => 0 <= z) (ChunkStoreChunkStats.of_chunk c).

Lemma inserted_min_row_ids ids m c : min_row_ids_of ids m -> m !! Chunk.id c = None ->
  min_row_ids_of (match Chunk.row_id_range c with
                  | None => ids
                  | Some (min_row_id, _) => {[(min_row_id, Chunk.id c)]} ∪ ids
                  end) (<[Chunk.id c := c]> m).
Proof.
  intros Hm Hc row_id id. specialize (Hm row_id id).
  assert (id = Chunk.id c -> (row_id, id) ∉ ids) as Hnew.
  { intros -> Hin. apply Hm in Hin as (? & ? & ? & _). congruence. }
  assert ((exists c' mx, <[Chunk.id c := c]> m !! id = Some c' /\ Chunk.row_id_range c' = Some (row_id, mx))
    <-> (id = Chunk.id c /\ exists mx, Chunk.row_id_range c = Some (row_id, mx)) \/ (row_id, id) ∈ ids) as ->.
  { rewrite Hm. split.
    - intros (c' & mx & Hl & Hr). apply lookup_insert_Some in Hl as [[<- <-]|[Hne Hl]]; [left; eauto|right; eauto].
    - intros [[-> [mx Hr]]|(c' & mx & Hl & Hr)].
      + exists c, mx. by rewrite lookup_insert_eq.
      + exists c', mx. rewrite lookup_insert_ne; [done|]. intros <-. congruence. }
  destruct (Chunk.row_id_range c) as [[r mx]|].
  - rewrite elem_of_union, elem_of_singleton. split; (intros [Heq|?]; [left|by right]).
    + injection Heq as -> ->. eauto.
    + destruct Heq as [-> [? [= -> ->]]]. done.
  - split; [by right|]. by intros [[_ [? ?]]|?].
Qed.

Lemma stats_of_insert_safe b m c (s : ChunkStoreChunkStats.t) : m !! Chunk.id c = None ->
  s = wrapped (stats_of b m) -> (debug_assertions = true -> all_stats is_u64 (stats_of b m)) -> Chunk.is_static c = b ->
  safe (fun s' => s' = wrapped (stats_of b (<[Chunk.id c := c]> m))
          /\ (debug_assertions = true -> all_stats is_u64 (stats_of b (<[Chunk.id c := c]> m))))
    (ChunkStoreChunkStats.add s (ChunkStoreChunkStats.of_chunk c)).
Proof.
  intros Hc -> Hu Hb. rewrite stats_of_insert by done. rewrite decide_True by done.
  assert (plus (ChunkStoreChunkStats.of_chunk c) (stats_of b m) = plus (stats_of b m) (ChunkStoreChunkStats.of_chunk c)) as ->
    by (apply stats_eq; simpl; lia).
  destruct debug_assertions eqn:Hd.
  - destruct (add_or_panic (stats_of b m) (ChunkStoreChunkStats.of_chunk c)) as [->|Hp]; [done|by apply Hu|done|].
    rewrite add_wrapped by auto. done.
  - by rewrite add_wrapped by congruence.
Qed.

(** What does not change when a temporal chunk is stored. *)
Definition same_frame st st' : Prop :=
  config st' = config st /\ static_chunk_ids_per_entity st' = static_chunk_ids_per_entity st
  /\ leaky_compactions (lineages st') = leaky_compactions (lineages st)
  /\ dangling_splits (lineages st') = dangling_splits (lineages st).

(** An id that the static index does not name. *)
Definition not_static st (id : ChunkId.t) : Prop :=
  forall path per_component component, static_chunk_ids_per_entity st !! path = Some per_component ->
    per_component !! component <> Some id.

Lemma same_manifest_root m m' id : same_entries m m' -> manifest_root m id -> manifest_root m' id.
Proof.
  intros Hse (l & src & Hl & Hlin). specialize (Hse id). rewrite Hl in Hse. destruct (m' !! id) as [l'|] eqn:E; [|done].
  exists l', src. split; [done|]. destruct Hse. congruence.
Qed.

Lemma same_led ctx ctx' : same_entries (chunks_lineage ctx) (chunks_lineage ctx') ->
  leaky_compactions ctx' = leaky_compactions ctx -> dangling_splits ctx' = dangling_splits ctx -> led ctx -> led ctx'.
Proof.
  intros Hse El Ed Hled id Hin. rewrite El, Ed in Hin. apply Hled in Hin as [l Hl]. specialize (Hse id).
  rewrite Hl in Hse. by destruct (chunks_lineage ctx' !! id).
Qed.

Lemma bumped_same m id l : m !! id = Some l ->
  same_entries m (<[id := Tracked (lineage l) (ref_count l + 1) (descends_from_manifest l)]> m).
Proof.
  intros Hl i. destruct (decide (i = id)) as [->|Hne]; [by rewrite lookup_insert_eq, Hl|].
  rewrite lookup_insert_ne by done. by destruct (m !! i).
Qed.

(** A temporal chunk is indexed, counted and put in memory. *)
Lemma store_temporal_ok E st cs pending c l : store_almost_ok E st cs pending ->
  lineage_of st !! Chunk.id c = Some l -> (lineage l = Volatile -> unreferenced_by (lineage_of st) (Chunk.id c)) ->
  physical st !! Chunk.id c = None -> Chunk.id c ∉ Chunk.id <$> cs -> not_static st (Chunk.id c) ->
  Chunk.is_static c = false -> Chunk.num_rows c <> 0%nat -> sized c -> Chunk.measured c = c -> Z.of_nat (refs_of st) + 2 < 2 ^ 32 ->
  safe (fun st' => store_almost_ok (E ∖ {[Chunk.id c]}) st' (c :: cs) pending
          /\ physical st' = <[Chunk.id c := c]> (physical st) /\ same_entries (lineage_of st) (lineage_of st')
          /\ refs_of st' = refs_of st /\ same_frame st st')
    (stats ← ChunkStoreChunkStats.add (temporal_physical_chunks_stats (index_temporal st c)) (ChunkStoreChunkStats.of_chunk c);
     StoreWrites.make_physical (with_temporal_stats (index_temporal st c) stats) c).
Proof.
  intros Hok Hl Hvol Hp Hcs Hns Hst Hn Hsized Hmsd Hroom. pose proof Hok as [Hv Hnd Hk Hrows Ht Hcons Hm Hlin Hled Hmiss Hsid Hsl Hsz Hms Hts Hss Hu].
  eapply safe_bind; [apply (stats_of_insert_safe false (physical st)); [done|exact Hts|intros; by apply Hu|done]|].
  intros stats [-> Hu']. unfold StoreWrites.make_physical.
  destruct (bump_ok E _ _ (Chunk.id c) l Hlin) as (Hrun & Hlin' & Hrefs); [by apply not_elem_of_dom|done|done|done|].
  change (chunks_lineage (lineages (with_temporal_stats (index_temporal st c) _))) with (lineage_of st).
  rewrite Hrun. cbn [mbind outcome_bind]. apply safe_done.
  set (m' := <[Chunk.id c := Tracked _ _ _]> (lineage_of st)) in *.
  pose proof (bumped_same _ _ _ Hl) as Hse. fold m' in Hse.
  split_and!; [|done|done|done|by split_and!].
  assert (virtual_indexes (index_temporal st c) (c :: cs)) as Hv' by (by apply virtual_indexes_temporal).
  split; cbn [insert_physical StoreWrites.with_chunks_lineage with_lineages with_temporal_stats with_physical index_temporal
    with_indices physical_chunks_per_chunk_id lineages chunks_lineage temporal_physical_chunks_stats static_chunks_stats
    static_chunk_ids_per_entity physical_chunk_ids_per_min_row_id].
  - eapply virtual_indexes_ext; [| |exact Hv']; done.
  - rewrite fmap_cons. by constructor.
  - intros id c' [[<- <-]|[_ Hc']]%lookup_insert_Some; [done|by apply Hk].
  - intros id c' [[<- <-]|[_ Hc']]%lookup_insert_Some; [done|by eapply Hrows].
  - intros id c' [[<- <-]|[_ Hc']]%lookup_insert_Some Hs; [left|right; by eapply Ht].
  - intros c1 c' [->|Hin]%elem_of_cons Hc'; [by rewrite lookup_insert_eq in Hc'; injection Hc' as <-|].
    rewrite lookup_insert_ne in Hc' by (intros E'; apply Hcs; rewrite E'; by apply list_elem_of_fmap_2). by apply Hcons.
  - by apply inserted_min_row_ids.
  - by rewrite dom_insert_L.
  - by apply (same_led (lineages st)).
  - intros c' [->|Hin]%elem_of_cons Hnone; [by rewrite lookup_insert_eq in Hnone|].
    rewrite lookup_insert_ne in Hnone by (intros E'; apply Hcs; rewrite E'; by apply list_elem_of_fmap_2).
    destruct (Hmiss c' Hin Hnone); [left|by right]. by eapply same_manifest_root.
  - intros path per_component component id c' Hpath Hi [[<- <-]|[_ Hc']]%lookup_insert_Some; [by destruct (Hns _ _ _ Hpath Hi)|by eapply Hsid].
  - intros id c' l' [[<- <-]|[_ Hc']]%lookup_insert_Some Hs Hl'; [congruence|]. specialize (Hse id). rewrite Hl' in Hse.
    destruct (lineage_of st !! id) as [l0|] eqn:El0; [|done]. destruct Hse as [-> _]. by eapply Hsl.
  - intros id c' [[<- <-]|[_ Hc']]%lookup_insert_Some; [done|by eapply Hsz].
  - intros id c' [[<- <-]|[_ Hc']]%lookup_insert_Some; [done|by eapply Hms].
  - done.
  - rewrite stats_of_insert, decide_False by (congruence || done). done.
  - intros Hd. split; [by apply Hu'|]. rewrite stats_of_insert, decide_False by (congruence || done). by apply Hu.
Qed.

(** ** Compaction *)

(** A chunk leaves memory and the indices, and its lineage stays. *)
Lemma remove_referenced st c reason ctx' l' s : physical st !! Chunk.id c = Some c ->
  Lineage.drop_lineage_reference (lineages st) (Chunk.id c) = Some ctx' -> chunks_lineage ctx' !! Chunk.id c = Some l' ->
  ChunkStoreChunkStats.sub (temporal_physical_chunks_stats st) (ChunkStoreChunkStats.of_chunk c) = Done s ->
  exists st' dels, StoreGc.remove_chunks_deep st [c] reason = Done (st', dels)
    /\ physical st' = delete (Chunk.id c) (physical st) /\ lineages st' = ctx'
    /\ physical_chunk_ids_per_min_row_id st'
       = match Chunk.row_id_range c with
         | Some (row_id_min, _) => physical_chunk_ids_per_min_row_id st ∖ {[(row_id_min, Chunk.id c)]}
         | None => physical_chunk_ids_per_min_row_id st
         end
    /\ temporal_physical_chunks_stats st' = s /\ same_rest st st'
    /\ (forall cs, virtual_indexes st cs -> (forall c', c' ∈ cs -> Chunk.id c' = Chunk.id c -> c' = c) ->
         virtual_indexes st' (others c cs)).
Proof.
  intros Hc Hdrop Hl Hsub. destruct (remove_fields st c ctx' Hdrop) as (Ep & El & Em & Es & Hr & Hv).
  unfold StoreGc.remove_chunks_deep, StoreGc.remove_chunks_shallow. cbn [StoreGc.shallow_loop].
  assert (physical (StoreGc.remove_min_row_id st c) = physical st) as ->
    by (unfold StoreGc.remove_min_row_id; by destruct (Chunk.row_id_range c) as [[]|]).
  rewrite Hc. set (st1 := StoreGc.remove_physical _ c) in *. rewrite Es, Hsub. cbn [mbind outcome_bind].
  assert (forall (b : bool) (x : ChunkStore.t * list ChunkStoreDiffDeletion), (if b then Done x else Done x) = Done x) as -> by (by intros []).
  cbn [mbind outcome_bind StoreGc.deep_loop].
  destruct (removed_with_indices (with_temporal_stats st1 s) c) as (pc & pe & E).
  destruct (StoreGc.remove_chunk_from_virtual_indices (with_temporal_stats st1 s) c) as [st2 was] eqn:E2.
  cbn [fst] in E. subst st2. eexists _, _. split; [done|]. split_and!; try done.
  intros cs Hvi Huniq. pose proof (Hv cs Hvi Huniq) as Hv1. rewrite decide_True in Hv1 by (by eexists).
  assert (virtual_indexes (with_temporal_stats st1 s) cs) as Hv2 by (eapply virtual_indexes_ext; [| |exact Hv1]; done).
  pose proof (virtual_indexes_removed (with_temporal_stats st1 s) cs c Huniq Hv2) as Hv3. by rewrite E2 in Hv3.
Qed.

Lemma record_compactions_ok st ids id : id ∉ ids -> leaky_compactions (lineages st) !! id = None ->
  physical st !! id = None ->
  exists leaky, StoreWrites.record_compactions st ids id
      = Done (with_lineages st (Ctx (lineage_of st) leaky (split_on_ingest (lineages st)) (dangling_splits (lineages st))))
    /\ forall i, is_Some (leaky !! i) -> i ∈ ids \/ is_Some (leaky_compactions (lineages st) !! i).
Proof.
  revert st. induction ids as [|i ids IH]; intros st Hid Hl Hp.
  { exists (leaky_compactions (lineages st)). split; [|by right]. simpl. f_equal. by destruct st as [? ? ? [] ? ? ? ? ? ? ? ? ?]. }
  apply not_elem_of_cons in Hid as [Hne Hid]. cbn [StoreWrites.record_compactions].
  set (st1 := with_lineages st _). unfold StoreWrites.check_overwritten_compaction.
  assert (Lineage.follow_compactions (S (size (leaky_compactions (lineages st1)))) (dom (physical st1))
    (leaky_compactions (lineages st1)) i = Some None) as ->.
  { unfold st1. cbn [with_lineages lineages leaky_compactions physical_chunks_per_chunk_id].
    rewrite map_size_insert. cbn [Lineage.follow_compactions]. rewrite lookup_insert_eq.
    rewrite bool_decide_false by (by apply not_elem_of_dom).
    destruct (leaky_compactions (lineages st) !! i) as [j|] eqn:E; simpl.
    - destruct (size (leaky_compactions (lineages st))) as [|n] eqn:Es.
      + apply map_size_empty_inv in Es. rewrite Es, lookup_empty in E. done.
      + cbn [Lineage.follow_compactions]. by rewrite lookup_insert_ne, Hl by done.
    - by rewrite lookup_insert_ne, Hl by done. }
  assert (forall b : bool, (if b then Done () else Done ()) = Done ()) as -> by (by intros []).
  cbn [mbind outcome_bind]. destruct (IH st1 Hid) as (leaky & Hrun & Hin); [|done|].
  { unfold st1. cbn [with_lineages lineages leaky_compactions]. by rewrite lookup_insert_ne. }
  exists leaky. rewrite Hrun. split; [done|]. intros j [Hj|Hj]%Hin; [left; by right|].
  unfold st1 in Hj. cbn [with_lineages lineages leaky_compactions] in Hj.
  destruct (decide (j = i)) as [->|Hji]; [left; left|right]. by rewrite lookup_insert_ne in Hj.
Qed.

(** An id that nothing in the store knows of. *)
Record fresh st (cs : list Chunk.t) (id : ChunkId.t) : Prop := {
  fresh_lineage : lineage_of st !! id = None;
  fresh_references i l : lineage_of st !! i = Some l ->
    id ∉ Lineage.iter_referenced_chunks (lineage l) /\ id ∉ siblings_of (lineage l);
  fresh_physical : physical st !! id = None;
  fresh_chunks : id ∉ Chunk.id <$> cs;
  fresh_static : not_static st id;
}.

Lemma fresh_unknown st cs id : fresh st cs id -> unknown (dom (physical st)) (lineage_of st) id.
Proof. intros [Hl Hr Hp _ _]. split_and!; [done|by apply not_elem_of_dom|]. intros i l Hi. by apply (Hr i l). Qed.

Lemma fresh_kin st cs id new : fresh st cs id -> siblings_of new = [] -> kin (lineage_of st) id new.
Proof.
  intros [_ Hr _ _ _] Hs. split; [rewrite Hs; apply not_elem_of_nil|]. intros s ls Hls. rewrite Hs.
  intros [Hin|Hin]; [by apply elem_of_nil in Hin|]. by destruct (Hr s ls Hls).
Qed.

Lemma keys_elem (m : gmap ChunkId.t Chunk.t) id : id ∈ Report.keys m <-> is_Some (m !! id).
Proof.
  unfold Report.keys. rewrite elem_of_sort_by, list_elem_of_fmap. split.
  - intros ([i c] & -> & Hin%elem_of_map_to_list). by eexists.
  - intros [c Hc]. exists (id, c). split; [done|]. by apply elem_of_map_to_list.
Qed.

Lemma keys_length (m : gmap ChunkId.t Chunk.t) : length (Report.keys m) = size m.
Proof. unfold Report.keys. rewrite sort_by_perm, length_fmap. by rewrite length_map_to_list. Qed.

(** The compacted chunk takes the place of the one it was compacted with. *)
Lemma replace_elected_ok st cs x e k : store_almost_ok {[Chunk.id x]} st cs [] ->
  is_Some (lineage_of st !! Chunk.id x) -> physical st !! Chunk.id x = None ->
  physical st !! Chunk.id e = Some e -> Chunk.is_static e = false -> fresh st cs (Chunk.id k) ->
  Chunk.is_static k = false -> Chunk.num_rows k <> 0%nat -> sized k -> Chunk.measured k = k -> Z.of_nat (refs_of st) + 4 < 2 ^ 32 ->
  safe (fun '(st', _) => store_ok st' (k :: others e cs) []
          /\ physical st' = <[Chunk.id k := k]> (delete (Chunk.id e) (physical st)))
    (stats ← ChunkStoreChunkStats.add (temporal_physical_chunks_stats (index_temporal st k)) (ChunkStoreChunkStats.of_chunk k);
     '(st', report) ← StoreWrites.replace_elected (with_temporal_stats (index_temporal st k) stats) x e k;
     st' ← StoreWrites.make_physical st' k;
     Done (st', report)).
Proof.
  intros Hok Hx Hxp He Hes Hfresh Hks Hkn Hksz Hkms Hroom.
  pose proof Hok as [Hv Hnd Hk Hrows Ht Hcons Hm Hlin Hled Hmiss Hsid Hsl Hsz Hms Hts Hss Hu].
  pose proof Hfresh as [Hkl Hkr Hkp Hkc Hkst].
  assert (Chunk.id e <> Chunk.id k) as Hek by congruence. assert (Chunk.id x <> Chunk.id e) as Hxe by congruence.
  assert (Chunk.id x <> Chunk.id k) as Hxk by (intros E; rewrite E, Hkl in Hx; by destruct Hx).
  eapply safe_bind; [apply (stats_of_insert_safe false (physical st)); [done|exact Hts|intros; by apply Hu|done]|].
  intros stats [-> Hu']. unfold StoreWrites.replace_elected.
  set (srcs := <[Chunk.id e := e]> {[Chunk.id x := x]}).
  assert (forall p, p ∈ Report.keys srcs <-> p = Chunk.id x \/ p = Chunk.id e) as Hkeys.
  { intros p. rewrite keys_elem. unfold srcs. rewrite lookup_insert_is_Some, lookup_singleton_is_Some. naive_solver. }
  assert (length (Report.keys srcs) = 2%nat) as Hlen.
  { rewrite keys_length. unfold srcs. rewrite map_size_insert_None by (by rewrite lookup_singleton_ne).
    by rewrite map_size_singleton. }
  set (st1 := with_temporal_stats (index_temporal st k) _).
  destruct (record_compactions_ok st1 (Report.keys srcs) (Chunk.id k)) as (leaky & Hrec & Hleaky).
  { rewrite Hkeys. intros [|]; congruence. }
  { destruct (leaky_compactions (lineages st1) !! Chunk.id k) eqn:El; [|done].
    destruct (Hled (Chunk.id k)) as [? ?]; [left; by eexists|]. congruence. }
  { done. }
  rewrite Hrec. cbn [mbind outcome_bind]. unfold StoreWrites.insert_lineage_if_missing.
  cbn [with_lineages lineages chunks_lineage].
  destruct (compaction_ok (dom (physical st)) (lineage_of st) (Chunk.id x) (Chunk.id e) (Chunk.id k) (Report.keys srcs))
    as (m2 & le & Hins & He2 & Hge & Hlin3 & (lk & Hlk & Hlkl) & Hrefs3 & Hfwd); [done|done|by apply not_elem_of_dom|
      by apply elem_of_dom|done|done|by eapply fresh_unknown|by eapply fresh_kin|done|].
  change (chunks_lineage (lineages st1)) with (lineage_of st). cbn [Report.direct]. rewrite Hins. cbn [mbind outcome_bind].
  set (m3 := <[Chunk.id e := Tracked _ _ _]> m2) in *. set (st2 := StoreWrites.with_chunks_lineage _ m2).
  destruct (stats_of_sub false (<[Chunk.id k := k]> (physical st)) (Chunk.id e) e) as [Hsub Hu2];
    [by rewrite lookup_insert_ne|done|by apply map_Forall_insert_2|done|].
  assert (delete (Chunk.id e) (<[Chunk.id k := k]> (physical st)) = <[Chunk.id k := k]> (delete (Chunk.id e) (physical st))) as Hcomm
    by (by apply delete_insert_ne). rewrite Hcomm in Hsub, Hu2.
  destruct (remove_referenced st2 e Compaction (Ctx m3 leaky (split_on_ingest (lineages st)) (dangling_splits (lineages st))) _ _ He
    (drop_referenced (lineages st2) (Chunk.id e) le He2 Hge) ltac:(apply lookup_insert_eq) Hsub)
    as (st3 & dels & Hrem & Ep & El & Em & Es & (Ecf & Esi & Ess & _) & Hvi).
  rewrite Hrem. cbn [mbind outcome_bind]. unfold StoreWrites.make_physical. rewrite El. cbn [chunks_lineage].
  change (physical st2) with (physical st) in Ep. change (static_chunks_stats st2) with (static_chunks_stats st) in Ess.
  change (static_chunk_ids_per_entity st2) with (static_chunk_ids_per_entity st) in Esi.
  change (physical_chunk_ids_per_min_row_id st2) with (physical_chunk_ids_per_min_row_id st) in Em.
  destruct (bump_ok {[Chunk.id k]} (dom (physical st) ∖ {[Chunk.id e]}) m3 (Chunk.id k) lk Hlin3) as (Hbump & Hlin4 & _);
    [apply not_elem_of_dom in Hkp; set_solver|done|by rewrite Hlkl|rewrite Hrefs3; lia|].
  rewrite Hbump. cbn [mbind outcome_bind]. apply safe_done. pose proof (bumped_same _ _ _ Hlk) as Hse.
  set (m4 := <[Chunk.id k := Tracked _ _ _]> m3) in *.
  split; [|cbn [insert_physical with_physical physical_chunks_per_chunk_id]; by rewrite <- Ep].
  assert (forall i l, lineage_of st !! i = Some l -> exists l4, m4 !! i = Some l4 /\ lineage l4 = lineage l) as Hfwd4.
  { intros i l Hl. destruct (Hfwd i l Hl) as (l3 & Hl3 & E3). specialize (Hse i). rewrite Hl3 in Hse.
    destruct (m4 !! i) as [l4|]; [|done]. exists l4. split; [done|]. destruct Hse. congruence. }
  split; cbn [insert_physical StoreWrites.with_chunks_lineage with_lineages with_physical
    physical_chunks_per_chunk_id lineages chunks_lineage temporal_physical_chunks_stats static_chunks_stats
    static_chunk_ids_per_entity physical_chunk_ids_per_min_row_id]; rewrite ?Ep, ?El, ?Em, ?Es, ?Ess, ?Esi.
  - assert (virtual_indexes st3 (others e (k :: cs))) as Hv3.
    { apply Hvi.
      - eapply virtual_indexes_ext; [| |by apply (virtual_indexes_temporal st cs k)]; done.
      - intros c' [->|Hin]%elem_of_cons Hid; [congruence|]. apply (same_id_same_chunk cs); [done|by eapply Ht|done|done]. }
    assert (others e (k :: cs) = k :: others e cs) as Ho by (unfold others; rewrite filter_cons, decide_True; [done|congruence]).
    rewrite Ho in Hv3. eapply virtual_indexes_ext; [| |exact Hv3]; done.
  - rewrite fmap_cons. constructor; [|by apply NoDup_others]. intros (c & Hid & [_ Hc]%elem_of_others)%list_elem_of_fmap.
    apply Hkc. rewrite Hid. by apply list_elem_of_fmap_2.
  - intros id c [[<- <-]|[_ [_ Hc]%lookup_delete_Some]]%lookup_insert_Some; [done|by apply Hk].
  - intros id c [[<- <-]|[_ [_ Hc]%lookup_delete_Some]]%lookup_insert_Some; [done|by eapply Hrows].
  - intros id c [[<- <-]|[_ [Hne Hc]%lookup_delete_Some]]%lookup_insert_Some Hs; [left|right]. apply elem_of_others.
    split; [rewrite (Hk id c Hc); congruence|by eapply Ht].
  - intros c1 c' [->|[Hne Hin]%elem_of_others]%elem_of_cons Hc'; [by rewrite lookup_insert_eq in Hc'; injection Hc' as <-|].
    rewrite lookup_insert_ne in Hc' by (intros E'; apply Hkc; rewrite E'; by apply list_elem_of_fmap_2).
    rewrite lookup_delete_ne in Hc' by congruence. by apply Hcons.
  - apply inserted_min_row_ids; [by apply removed_min_row_ids|by rewrite lookup_delete_ne].
  - rewrite dom_insert_L, dom_delete_L. replace (∅ : gset ChunkId.t) with ({[Chunk.id k]} ∖ {[Chunk.id k]} : gset ChunkId.t) by set_solver. done.
  - intros id Hin. cbn [leaky_compactions dangling_splits chunks_lineage] in *.
    assert (is_Some (lineage_of st !! id)) as [l Hl].
    { destruct Hin as [Hin|Hin]; [|by apply Hled; right].
      destruct (Hleaky id Hin) as [[->| ->]%Hkeys|Hin']; [done| |by apply Hled; left].
      apply (ok_known _ _ _ Hlin). by apply elem_of_dom. }
    destruct (Hfwd4 id l Hl) as (l4 & -> & _). by eexists.
  - intros c [->|[Hne Hin]%elem_of_others]%elem_of_cons Hnone; [by rewrite lookup_insert_eq in Hnone|].
    rewrite lookup_insert_ne in Hnone by (intros E'; apply Hkc; rewrite E'; by apply list_elem_of_fmap_2).
    rewrite lookup_delete_ne in Hnone by congruence. destruct (Hmiss c Hin Hnone) as [(l & src & Hl & Hlr)|?]; [left|by right].
    destruct (Hfwd4 _ l Hl) as (l4 & ? & ?). exists l4, src. split; [done|congruence].
  - intros path per_component component id c Hpath Hi [[<- <-]|[_ [_ Hc]%lookup_delete_Some]]%lookup_insert_Some;
      [by destruct (Hkst _ _ _ Hpath Hi)|by eapply Hsid].
  - intros id c l [[<- <-]|[_ [_ Hc]%lookup_delete_Some]]%lookup_insert_Some Hs Hl; [congruence|].
    destruct (ok_known _ _ _ Hlin id) as [l0 Hl0]; [apply elem_of_dom; by eexists|].
    destruct (Hfwd4 id l0 Hl0) as (l4 & Hl4 & E4). assert (l4 = l) as -> by congruence. rewrite E4. by eapply Hsl.
  - intros id c [[<- <-]|[_ [_ Hc]%lookup_delete_Some]]%lookup_insert_Some; [done|by eapply Hsz].
  - intros id c [[<- <-]|[_ [_ Hc]%lookup_delete_Some]]%lookup_insert_Some; [done|by eapply Hms].
  - done.
  - rewrite stats_of_insert, decide_False by (rewrite ?lookup_delete_ne; congruence).
    by rewrite (stats_of_delete_other true _ _ e He).
  - intros Hd. split; [by apply Hu2|]. rewrite stats_of_insert, decide_False by (rewrite ?lookup_delete_ne; congruence).
    rewrite (stats_of_delete_other true _ _ e He) by done. by apply Hu.
Qed.

(** ** The election

    Whoever is elected is in memory and can be merged with the chunk. *)

Definition candidate st c (id : ChunkId.t) : Prop :=
  exists e, physical st !! id = Some e /\ Chunk.id c <> id /\ ChunkMerge.concatenable c e = true.

Lemma safe_descends_from_a_split st id : safe (fun _ => True) (StoreWrites.descends_from_a_split st id).
Proof.
  unfold StoreWrites.descends_from_a_split, StoreWrites.ended, Lineage.descends_from_a_split.
  destruct debug_assertions eqn:E; [|done]. by destruct (default _ _).
Qed.

Lemma points_sound st c id :
  safe (fun points => points <> 0 -> candidate st c id) (StoreWrites.check_if_chunk_below_threshold st c id).
Proof.
  unfold StoreWrites.check_if_chunk_below_threshold. destruct (physical st !! id) as [e|] eqn:He; [|by apply safe_done].
  case_bool_decide as Hid; [by apply safe_done|].
  destruct (ChunkMerge.concatenable c e) eqn:Hcat; [|by apply safe_done]. cbn [negb].
  eapply safe_bind; [apply safe_descends_from_a_split|]. intros [] _; [by apply safe_done|].
  eapply safe_bind; [apply safe_arith|]. intros ? _. eapply safe_bind; [apply safe_arith|]. intros ? _.
  apply safe_done. intros _. by exists e.
Qed.

Definition candidates_sound st c (candidates : gmap ChunkId.t Z) : Prop :=
  forall id points, candidates !! id = Some points -> points <> 0 -> candidate st c id.

Lemma safe_arith_zero (P : Prop) z : (z <> 0 -> P) -> safe (fun p => p <> 0 -> P) (arith_u64 debug_assertions z).
Proof.
  intros HP. destruct (Z.eq_dec z 0) as [->|Hne]; [by rewrite arith_u64_done|].
  eapply safe_weaken; [apply safe_arith|]. auto.
Qed.

Lemma add_points_sound st c weight ids : forall candidates, candidates_sound st c candidates ->
  safe (candidates_sound st c) (StoreWrites.add_points st c weight ids candidates).
Proof.
  induction ids as [|id ids IH]; intros candidates Hs; [done|]. cbn [StoreWrites.add_points].
  eapply safe_bind; [apply points_sound|]. intros points Hp.
  eapply (safe_bind (fun p => p <> 0 -> candidate st c id)).
  { apply safe_arith_zero. intros Hne. apply Hp. lia. }
  intros points' Hp'. eapply (safe_bind (fun p => p <> 0 -> candidate st c id)); [|intros p Hpp; apply IH].
  - apply safe_arith_zero. destruct (Z.eq_dec points' 0) as [->|]; [|auto].
    destruct (candidates !! id) as [old|] eqn:Eo; simpl; intros Hne; [apply (Hs id old Eo)|]; lia.
  - intros i q [[<- <-]|[_ Hq]]%lookup_insert_Some Hne; [by apply Hpp|by apply (Hs i q)].
Qed.

Lemma add_all_neighbors_sound st c l : forall candidates, candidates_sound st c candidates ->
  safe (candidates_sound st c) (StoreWrites.add_all_neighbors st c l candidates).
Proof.
  induction l as [|[index range] l IH]; intros candidates Hs; [done|]. cbn [StoreWrites.add_all_neighbors].
  eapply safe_bind; [|exact IH]. unfold StoreWrites.add_neighbors.
  eapply safe_bind; [by apply add_points_sound|]. intros c1 H1'.
  eapply safe_bind; [by apply add_points_sound|]. intros c2 H2'. by apply add_points_sound.
Qed.

Context `{!HashOrderLaws}.

Lemma elected_sound st c :
  safe (fun o => forall e, o = Some e -> exists id, physical st !! id = Some e /\ candidate st c id)
    (StoreWrites.find_and_elect_compaction_candidate st c).
Proof.
  unfold StoreWrites.find_and_elect_compaction_candidate.
  eapply safe_bind; [apply safe_descends_from_a_split|]. intros [] _; [done|].
  destruct (negb _); [done|]. destruct (temporal_chunk_ids_per_entity_per_component st !! _) as [per_timeline|]; [|done].
  eapply safe_bind; [by apply add_all_neighbors_sound|]. intros candidates Hs. apply safe_done. intros e He.
  apply head_Some_elem_of, list_elem_of_omap in He as ([id points] & Hin & He).
  apply elem_of_filter_bool in Hin as [Hin Hpos%Z.ltb_lt].
  apply list_elem_of_In, in_rev, list_elem_of_In, elem_of_sort_by in Hin. rewrite hash_order_perm in Hin.
  apply elem_of_map_to_list in Hin. exists id. split; [done|]. apply (Hs id points Hin). lia.
Qed.

(** ** A chunk that is not split *)

(** What a chunk in memory is, next to having rows. *)
Definition kept c : Prop := chunk_wf c /\ Chunk.is_sorted c = true /\ RowId.ZERO ∉ Chunk.row_ids c.
Definition wf_chunks st : Prop := map_Forall (fun _ c => kept c) (physical st).

(** The rows of an entity's temporal chunks in memory, and those a chunk adds to them. *)
Definition temporal_of (path : EntityPath) c : Prop := Chunk.is_static c = false /\ Chunk.entity_path c = path.
#[export] Instance temporal_of_dec path c : Decision (temporal_of path c).
Proof. unfold temporal_of. apply _. Defined.
Definition temporal_rows (path : EntityPath) st : list Row :=
  filter (temporal_of path) (physical_list (physical st)) ≫= rows.
Definition new_rows (path : EntityPath) x : list Row := if decide (temporal_of path x) then rows x else [].

Lemma new_rows_temporal path c : Chunk.is_static c = false ->
  new_rows path c = if decide (Chunk.entity_path c = path) then rows c else [].
Proof. intros Hs. unfold new_rows, temporal_of. rewrite (decide_ext _ (Chunk.entity_path c = path)); [done|]. tauto. Qed.

Lemma new_rows_static path c : Chunk.is_static c = true -> new_rows path c = [].
Proof. intros Hs. unfold new_rows, temporal_of. rewrite decide_False; [done|]. rewrite Hs. by intros [? _]. Qed.

Lemma new_rows_measured path c : new_rows path (Chunk.measured c) = new_rows path c.
Proof. by apply (measured_cases (fun c c' => new_rows path c' = new_rows path c)). Qed.

Lemma physical_list_insert (m : gmap ChunkId.t Chunk.t) id c : m !! id = None ->
  physical_list (<[id := c]> m) ≡ₚ c :: physical_list m.
Proof. intros Hid. unfold physical_list. by rewrite map_to_list_insert. Qed.

Lemma physical_list_delete (m : gmap ChunkId.t Chunk.t) id c : m !! id = Some c ->
  physical_list m ≡ₚ c :: physical_list (delete id m).
Proof. intros Hid. unfold physical_list. by rewrite <- (map_to_list_delete m id c Hid). Qed.

Lemma temporal_rows_insert st st' c : physical st' = <[Chunk.id c := c]> (physical st) -> physical st !! Chunk.id c = None ->
  forall path, temporal_rows path st' ≡ₚ new_rows path c ++ temporal_rows path st.
Proof.
  intros Hp Hc path. unfold temporal_rows, new_rows. rewrite Hp, physical_list_insert by done. rewrite filter_cons.
  by case_decide.
Qed.

Lemma temporal_rows_replace st st' e k : physical st' = <[Chunk.id k := k]> (delete (Chunk.id e) (physical st)) ->
  physical st !! Chunk.id e = Some e -> physical st !! Chunk.id k = None ->
  forall path, new_rows path e ++ temporal_rows path st' ≡ₚ new_rows path k ++ temporal_rows path st.
Proof.
  intros Hp He Hk path. unfold temporal_rows, new_rows.
  rewrite Hp, physical_list_insert by (apply lookup_delete_None; by right).
  rewrite (physical_list_delete (physical st) (Chunk.id e) e He). rewrite !filter_cons.
  destruct (decide (temporal_of path e)), (decide (temporal_of path k)); simpl; try done.
  by rewrite Permutation_app_swap_app.
Qed.

(** A chunk that can be stored. *)
Record storable c : Prop := {
  storable_wf : chunk_wf c;
  storable_rows : Chunk.num_rows c <> 0%nat;
  storable_sized : sized c;
  storable_sorted : Chunk.is_sorted c = true;
  storable_ids : RowId.ZERO ∉ Chunk.row_ids c;
}.

Lemma storable_measured c : storable c -> storable (Chunk.measured c).
Proof.
  intros [Hw Hn Hsz Hs Hz]. split; [by apply measured_wf|by rewrite measured_num_rows| |by rewrite measured_is_sorted|
    by rewrite measured_row_ids]. unfold sized. by rewrite of_measured.
Qed.

Lemma storable_kept c : storable c -> kept c.
Proof. by intros []. Qed.

(** The state before a whole chunk [x] is stored: its lineage is recorded. *)
Record announced st cs x : Prop := {
  ann_ok : store_almost_ok {[Chunk.id x]} st cs [];
  ann_wf : wf_chunks st;
  ann_lineage : exists l, lineage_of st !! Chunk.id x = Some l
    /\ (lineage l = Volatile -> unreferenced_by (lineage_of st) (Chunk.id x));
  ann_physical : physical st !! Chunk.id x = None;
  ann_chunks : Chunk.id x ∉ Chunk.id <$> cs;
  ann_static : Chunk.is_static x = false -> not_static st (Chunk.id x);
  ann_storable : storable x;
  ann_measured : Chunk.measured x = x;
  ann_room : Z.of_nat (refs_of st) + 4 < 2 ^ 32;
}.

(** The rows that a difference says are new. *)
Definition delta_rows (diffs : list ChunkStoreDiff) : list Row :=
  diffs ≫= fun d => match d with Addition add => rows (delta_chunk add) | Deleted _ => [] end.

(** The chunks that the indices know of are all in memory. *)
Definition all_physical st (cs : list Chunk.t) : Prop := forall c, c ∈ cs -> physical st !! Chunk.id c = Some c.

Lemma all_physical_insert st st' cs c : all_physical st cs -> Chunk.id c ∉ Chunk.id <$> cs ->
  physical st' = <[Chunk.id c := c]> (physical st) -> all_physical st' (c :: cs).
Proof.
  intros Hall Hn Ep c' [->|Hin]%elem_of_cons; rewrite Ep; [apply lookup_insert_eq|].
  rewrite lookup_insert_ne; [by apply Hall|]. intros E. apply Hn. rewrite E. by apply list_elem_of_fmap_2.
Qed.

Lemma all_physical_replace st st' cs e k : all_physical st cs -> Chunk.id k ∉ Chunk.id <$> cs ->
  physical st' = <[Chunk.id k := k]> (delete (Chunk.id e) (physical st)) -> all_physical st' (k :: others e cs).
Proof.
  intros Hall Hn Ep c' [->|[Hne Hin]%elem_of_others]%elem_of_cons; rewrite Ep; [apply lookup_insert_eq|].
  rewrite lookup_insert_ne, lookup_delete_ne; [by apply Hall|congruence|].
  intros E. apply Hn. rewrite E. by apply list_elem_of_fmap_2.
Qed.

(** An addition that is reported for the insertion of [x]: both the chunk of new rows and the one
    that was stored are well formed chunks of the entity, and the second has the rows of the
    first. *)
Definition addition_ok x (add : ChunkStoreDiffAddition) : Prop :=
  chunk_wf (delta_chunk add) /\ Chunk.entity_path (delta_chunk add) = Chunk.entity_path x
  /\ chunk_wf (chunk_after_processing add) /\ Chunk.entity_path (chunk_after_processing add) = Chunk.entity_path x
  /\ forall s, s ∈ rows (delta_chunk add) -> s ∈ rows (chunk_after_processing add).

(** The temporal chunk [c] was compacted with [x], into a chunk that is reported. *)
Definition compacted_into x c (diffs : list ChunkStoreDiff) : Prop :=
  exists add srcs, Addition add ∈ diffs /\ direct_lineage add = Report.CompactedFrom srcs /\ is_Some (srcs !! Chunk.id c)
    /\ Chunk.entity_path c = Chunk.entity_path x /\ forall s, s ∈ rows c -> s ∈ rows (chunk_after_processing add).

(** What is reported between [st] and [st']: such additions, every chunk that is new, and what
    the temporal chunks that left memory were compacted into. *)
Record reported st st' x (diffs : list ChunkStoreDiff) : Prop := {
  rep_additions add : Addition add ∈ diffs -> addition_ok x add;
  rep_new id c : physical st' !! id = Some c ->
    physical st !! id = Some c \/ exists add, Addition add ∈ diffs /\ chunk_after_processing add = c;
  rep_gone id c : physical st !! id = Some c -> Chunk.is_static c = false ->
    physical st' !! id = Some c \/ compacted_into x c diffs;
}.

Lemma addition_ok_self x report : chunk_wf x -> (forall r, report <> Report.CompactedFrom r) ->
  addition_ok x (Added x x report).
Proof. intros Hx Hr. unfold addition_ok, delta_chunk. destruct report; cbn; by split_and!. Qed.

Lemma addition_single (a a' : ChunkStoreDiffAddition) : Addition a ∈ [Addition a'] -> a = a'.
Proof. by intros [= ->]%list_elem_of_singleton. Qed.

(** What holds after [x] is stored: the invariant, and one more chunk's worth of rows, which is
    what is reported. *)
Definition inserted st cs x (diffs : list ChunkStoreDiff) (r : ChunkStore.t * result (list ChunkStoreDiff) ChunkStoreError) : Prop :=
  exists cs' diffs', snd r = Ok (diffs ++ diffs') /\ store_ok (fst r) cs' [] /\ wf_chunks (fst r)
    /\ (all_physical st cs -> all_physical (fst r) cs')
    /\ (forall path, temporal_rows path (fst r) ≡ₚ new_rows path x ++ temporal_rows path st)
    /\ delta_rows diffs' = rows x /\ reported st (fst r) x diffs'.

Lemma with_ids_ok E st cs pending a b d : store_almost_ok E st cs pending -> store_almost_ok E (with_ids st a b d) cs pending.
Proof. by intros []. Qed.

Lemma announced_ids st cs x a b d : announced st cs x -> announced (with_ids st a b d) cs x.
Proof. intros []. split; try done. by apply with_ids_ok. Qed.

(** Without a compaction. *)
Lemma insert_alone_ok E st cs x l new_id report diffs : store_almost_ok E st cs [] -> E ⊆ {[Chunk.id x]} ->
  lineage_of st !! Chunk.id x = Some l -> (lineage l = Volatile -> unreferenced_by (lineage_of st) (Chunk.id x)) ->
  physical st !! Chunk.id x = None -> Chunk.id x ∉ Chunk.id <$> cs -> not_static st (Chunk.id x) -> storable x -> Chunk.measured x = x ->
  Z.of_nat (refs_of st) + 2 < 2 ^ 32 -> Chunk.is_static x = false ->
  (forall id, arith_u64 debug_assertions (insert_id st + 1) = Done id -> StoreWrites.compact (with_ids st id (gc_id st) (event_id st)) new_id x = Done (Ok (None, x))) ->
  safe (fun '(st', r) => r = Ok (diffs ++ [Addition (Added x x report)]) /\ store_ok st' (x :: cs) []
          /\ physical st' = <[Chunk.id x := x]> (physical st) /\ same_entries (lineage_of st) (lineage_of st')
          /\ refs_of st' = refs_of st /\ same_frame st st')
    (StoreWrites.insert_whole st new_id x report diffs).
Proof.
  intros Hok HE Hl Hvol Hp Hcs Hns [Hw Hn Hsz _ _] Hmsd Hroom Hs Hcomp. unfold StoreWrites.insert_whole.
  pose proof (safe_arith (insert_id st + 1)) as Hid. destruct (arith_u64 _ _) as [id|] eqn:Eid; [|exact Hid].
  cbn [mbind outcome_bind]. rewrite Hs. unfold StoreWrites.insert_temporal. rewrite Hcomp by done.
  cbn [mbind outcome_bind]. set (st0 := with_ids st id _ _). cbv zeta.
  change (snd (ChunkStoreChunkStats.from_chunk x)) with (Chunk.measured x). rewrite Hmsd.
  change (fst (ChunkStoreChunkStats.from_chunk x)) with (ChunkStoreChunkStats.of_chunk x).
  pose proof (store_temporal_ok E st0 cs [] x l (with_ids_ok _ _ _ _ _ _ _ Hok) Hl Hvol Hp Hcs Hns Hs Hn Hsz Hmsd Hroom) as Hsafe.
  destruct (ChunkStoreChunkStats.add _ _) as [stats|]; [|done]. cbn [mbind outcome_bind] in *.
  eapply safe_bind; [exact Hsafe|]. intros st' (Hok' & Hp' & Hse & Hr & Hf). apply safe_done. split_and!; try done.
  by replace (∅ : gset ChunkId.t) with (E ∖ {[Chunk.id x]} : gset ChunkId.t) by set_solver.
Qed.

(** With the chunk [e], into [k0], which is measured then. *)
Lemma insert_compacted_ok st cs x e k0 new_id report diffs (k := Chunk.measured k0) : store_almost_ok {[Chunk.id x]} st cs [] ->
  is_Some (lineage_of st !! Chunk.id x) -> physical st !! Chunk.id x = None -> physical st !! Chunk.id e = Some e ->
  Chunk.is_static e = false -> fresh st cs (Chunk.id k) -> storable k -> Chunk.is_static k = false ->
  Z.of_nat (refs_of st) + 4 < 2 ^ 32 -> Chunk.is_static x = false ->
  (forall id, arith_u64 debug_assertions (insert_id st + 1) = Done id -> StoreWrites.compact (with_ids st id (gc_id st) (event_id st)) new_id x = Done (Ok (Some e, k0))) ->
  safe (fun '(st', r) => (exists srcs, r = Ok (diffs ++ [Addition (Added x k (Report.CompactedFrom srcs))]) /\ is_Some (srcs !! Chunk.id e))
          /\ store_ok st' (k :: others e cs) []
          /\ physical st' = <[Chunk.id k := k]> (delete (Chunk.id e) (physical st)))
    (StoreWrites.insert_whole st new_id x report diffs).
Proof.
  intros Hok Hl Hp He Hes Hk [Hw Hn Hsz _ _] Hks Hroom Hs Hcomp. unfold StoreWrites.insert_whole.
  pose proof (safe_arith (insert_id st + 1)) as Hid. destruct (arith_u64 _ _) as [id|] eqn:Eid; [|exact Hid].
  cbn [mbind outcome_bind]. rewrite Hs. unfold StoreWrites.insert_temporal. rewrite Hcomp by done.
  cbn [mbind outcome_bind]. set (st0 := with_ids st id _ _). cbv zeta.
  change (snd (ChunkStoreChunkStats.from_chunk k0)) with k.
  assert (fst (ChunkStoreChunkStats.from_chunk k0) = ChunkStoreChunkStats.of_chunk k) as -> by (symmetry; apply of_measured).
  pose proof (replace_elected_ok st0 cs x e k (with_ids_ok _ _ _ _ _ _ _ Hok) Hl Hp He Hes) as Hsafe.
  specialize (Hsafe ltac:(by destruct Hk) Hks Hn Hsz (measured_measured k0) Hroom).
  destruct (ChunkStoreChunkStats.add _ _) as [stats|]; [|done]. cbn [mbind outcome_bind] in *.
  destruct (StoreWrites.replace_elected _ _ _ _) as [[st1 report1]|] eqn:E; [|done]. cbn [mbind outcome_bind] in *.
  assert (exists srcs, report1 = Report.CompactedFrom srcs /\ is_Some (srcs !! Chunk.id e)) as (srcs & -> & Hse).
  { unfold StoreWrites.replace_elected in E. destruct (StoreWrites.record_compactions _ _ _); [|done]. cbn [mbind outcome_bind] in E.
    destruct (StoreWrites.insert_lineage_if_missing _ _ _); [|done]. cbn [mbind outcome_bind] in E.
    destruct (StoreGc.remove_chunks_deep _ _ _) as [[? ?]|]; [|done]. injection E as _ <-. eexists. split; [done|]. by rewrite lookup_insert_eq. }
  destruct (StoreWrites.make_physical st1 k) as [st2|]; [|done]. cbn [mbind outcome_bind] in *.
  destruct Hsafe as [Hok' Hp']. apply safe_done. split; [eauto|done].
Qed.

(** *** Sizes and rows *)

Context `{!SizeLaws}.

Lemma num_events_nonneg (l : ListArray) : 0 <= Chunk.num_events l.
Proof.
  unfold Chunk.num_events, null_count. destruct (list_nulls l) as [v|]; [|lia].
  pose proof (List.filter_length_le negb v). lia.
Qed.

Lemma sized_uncached c : Chunk.heap_size_bytes c = 0 -> sized c.
Proof.
  intros Hh. unfold sized. rewrite <- of_measured, of_measured. unfold ChunkStoreChunkStats.of_chunk, ChunkStoreChunkStats.from_chunk,
    ChunkSplit.total_size_bytes, Chunk.heap_size_bytes_cached.
  rewrite Hh. destruct (sizes_nonneg_law c). split_and!; simpl; [lia|lia|lia|].
  unfold Chunk.num_events_cumulative. induction (ChunkComponents.list_arrays _) as [|l ls IH]; [done|].
  rewrite fmap_cons. cbn [foldr]. pose proof (num_events_nonneg l). lia.
Qed.

(** A chunk with rows is static when none of them has a time. *)
Lemma static_rows c : chunk_wf c -> Chunk.num_rows c <> 0%nat ->
  Chunk.is_static c = true <-> forall r, r ∈ rows c -> row_times r = ∅.
Proof.
  intros (_ & Ht & _) Hn. unfold Chunk.is_static. rewrite bool_decide_eq_true. split.
  - intros E r (i & Hi)%list_elem_of_lookup_1. rewrite lookup_rows in Hi.
    destruct (Chunk.row_ids c !! i); [|done]. injection Hi as <-. simpl. by rewrite E, omap_empty.
  - intros Hall. apply map_eq. intros k. rewrite lookup_empty. destruct (Chunk.timelines c !! k) as [tc|] eqn:Etc; [|done].
    destruct (lookup_lt_is_Some_2 (Chunk.row_ids c) 0) as [id Hid]; [unfold Chunk.num_rows in Hn; lia|].
    assert (rows c !! 0%nat = Some (row_at c 0 id)) as Hr by (by rewrite lookup_rows, Hid).
    specialize (Hall _ (list_elem_of_lookup_2 _ _ _ Hr)). apply (f_equal (lookup k)) in Hall. simpl in Hall.
    rewrite lookup_omap, Etc, lookup_empty in Hall. cbn [mbind option_bind] in Hall.
    destruct (Ht k tc Etc) as [Hlen _]. apply lookup_ge_None in Hall. unfold TimeColumn.num_rows in Hlen. lia.
Qed.

Lemma rows_static c c' : chunk_wf c -> chunk_wf c' -> Chunk.num_rows c <> 0%nat -> Chunk.num_rows c' <> 0%nat ->
  Chunk.is_static c = false -> (forall r, r ∈ rows c -> r ∈ rows c') -> Chunk.is_static c' = false.
Proof.
  intros Hw Hw' Hn Hn' Hs Hsub. apply not_true_iff_false in Hs. apply not_true_iff_false. intros Hs'. apply Hs.
  rewrite static_rows in * by done. auto.
Qed.

(** What a chunk may be compacted into. *)
Definition compacts st x : Prop :=
  forall id c, physical st !! id = Some c -> ChunkMerge.concatenable x c = true -> pads_well c x /\ pads_well x c.

Lemma compact_ok st x new_id : very_strict = false -> storable x -> wf_chunks st ->
  Chunk.is_static x = false -> (forall id c, physical st !! id = Some c -> Chunk.id c = id /\ Chunk.num_rows c <> 0%nat) ->
  compacts st x ->
  safe (fun r => r = Ok (None, x) \/ exists e k, r = Ok (Some e, k) /\ physical st !! Chunk.id e = Some e
          /\ Chunk.is_static e = false /\ storable k /\ Chunk.is_static k = false
          /\ (Chunk.id k = new_id CompactDraw \/ Chunk.id k = new_id SortDraw)
          /\ forall path, new_rows path k ≡ₚ new_rows path e ++ new_rows path x)
    (StoreWrites.compact st new_id x).
Proof.
  intros Hv [Hw Hn _ _ Hxz] Hwf Hs Hphys Hpads. unfold StoreWrites.compact. eapply safe_bind; [apply elected_sound|].
  intros [e|] He; [|by left]. destruct (He e eq_refl) as (id & Hid & (e' & He' & Hne & Hcat)).
  assert (e' = e) as -> by congruence. destruct (Hphys id e Hid) as [Heid Hen]. subst id.
  destruct (Hwf _ _ Hid) as (Hwe & _ & Hez). destruct (Hpads _ _ Hid Hcat) as [Hp1 Hp2].
  apply (concatenable_mergeable x e Hw) in Hcat.
  destruct (concat_and_sort_rows (new_id CompactDraw) (new_id SortDraw) e x) as
    (k & -> & Hwk & Hsk & Hpk & Hrk & Hidk & Hheap); [done..|by apply mergeable_sym|].
  cbn [mbind outcome_bind]. apply safe_done. right. exists e, k.
  assert (Chunk.num_rows k <> 0%nat) as Hnk.
  { rewrite <- length_rows, Hrk, length_app, !length_rows. lia. }
  assert (Chunk.is_static k = false) as Hks.
  { apply (rows_static x k Hw Hwk Hn Hnk Hs). intros r Hr. rewrite Hrk. apply elem_of_app. by right. }
  assert (Chunk.is_static e = false) as Hes.
  { destruct Hcat as (_ & Ht & _). unfold Chunk.is_static in *. apply bool_decide_eq_false in Hs. apply bool_decide_eq_false.
    intros E. apply Hs, map_eq. intros i. specialize (Ht i). rewrite E, lookup_empty in Ht.
    rewrite lookup_empty. by destruct (Chunk.timelines x !! i). }
  split_and!; [done|done|done| |done|done|].
  - split; [done|done|by apply sized_uncached|done|]. rewrite <- row_id_rows, Hrk, fmap_app, !row_id_rows.
    intros [?|?]%elem_of_app; done.
  - intros path. destruct Hcat as (Hpe & _). rewrite !new_rows_temporal, Hpk, Hpe by done.
    by case_decide.
Qed.

Lemma compacted_rows x e k : Chunk.num_rows x <> 0%nat -> Chunk.is_static x = false -> Chunk.is_static k = false ->
  (forall path, new_rows path k ≡ₚ new_rows path e ++ new_rows path x) ->
  Chunk.entity_path k = Chunk.entity_path x /\ forall s, s ∈ rows x -> s ∈ rows k.
Proof.
  intros Hx Hxs Hks Hrk. specialize (Hrk (Chunk.entity_path x)).
  rewrite (new_rows_temporal _ k), (new_rows_temporal _ x), (decide_True (P := Chunk.entity_path x = _)) in Hrk by done.
  assert (exists s, s ∈ rows x) as [s Hs].
  { rewrite <- length_rows in Hx. destruct (rows x) as [|s l]; [done|]. exists s. left. }
  case_decide as Hpath.
  - split; [done|]. intros s' Hs'. rewrite Hrk. apply elem_of_app. by right.
  - exfalso. apply (not_elem_of_nil s). rewrite Hrk. apply elem_of_app. by right.
Qed.

(** A temporal chunk that is not split. *)
Lemma insert_whole_ok st cs x new_id report diffs : very_strict = false -> announced st cs x -> Chunk.is_static x = false ->
  compacts st x -> fresh st cs (new_id CompactDraw) -> fresh st cs (new_id SortDraw) -> (forall r, report <> Report.CompactedFrom r) ->
  safe (inserted st cs x diffs) (StoreWrites.insert_whole st new_id x report diffs).
Proof.
  intros Hv [Hok Hwf (l & Hl & Hvol) Hp Hcs Hns Hst Hmsd Hroom] Hs Hpads Hf1 Hf2 Hrep.
  set (st1 id := with_ids st id (gc_id st) (event_id st)).
  destruct (arith_u64 debug_assertions (insert_id st + 1)) as [id|] eqn:Eid.
  2:{ pose proof (safe_arith (insert_id st + 1)) as Hid. rewrite Eid in Hid. unfold StoreWrites.insert_whole. by rewrite Eid. }
  assert (forall i c, physical (st1 id) !! i = Some c -> Chunk.id c = i /\ Chunk.num_rows c <> 0%nat) as Hphys.
  { intros i c Hc. split; [by eapply (ok_keys _ _ _ _ Hok)|by eapply (ok_rows _ _ _ _ Hok)]. }
  pose proof (compact_ok (st1 id) x new_id Hv Hst Hwf Hs Hphys Hpads) as Hcomp.
  destruct (StoreWrites.compact (st1 id) new_id x) as [r|] eqn:Ecomp.
  2:{ unfold StoreWrites.insert_whole. rewrite Eid. cbn [mbind outcome_bind]. rewrite Hs.
      unfold StoreWrites.insert_temporal. fold (st1 id). rewrite Ecomp. exact Hcomp. }
  destruct Hcomp as [->|(e & k0 & -> & He & Hes & Hk & Hks & Hkid & Hrk)].
  - eapply safe_weaken; [eapply (insert_alone_ok {[Chunk.id x]} st cs x l); try done; [by apply Hns|lia|]|].
    { intros id' Eid'. assert (id' = id) as -> by congruence. done. }
    intros [st' r] (-> & Hok' & Hp' & _). eexists _, _. split; [done|]. cbn [fst]. split_and!; [done| | | | |].
    + unfold wf_chunks. rewrite Hp'. by apply map_Forall_insert_2; [apply storable_kept|].
    + intros Hall. by eapply all_physical_insert.
    + by apply temporal_rows_insert.
    + unfold delta_rows, delta_chunk. simpl. rewrite app_nil_r. by destruct report.
    + split; [intros add ->%addition_single; apply addition_ok_self; [apply Hst|done]|..]; intros i c.
      * rewrite Hp'. intros [[<- <-]|[_ ?]]%lookup_insert_Some; [right|by left]. eexists. split; [by left|done].
      * intros Hc _. left. rewrite Hp', lookup_insert_ne by congruence. done.
  - pose (k := Chunk.measured k0). apply storable_measured in Hk. rewrite <- measured_is_static in Hks.
    rewrite <- (measured_id k0) in Hkid. setoid_rewrite <- (new_rows_measured _ k0) in Hrk. fold k in Hk, Hks, Hkid, Hrk.
    assert (fresh st cs (Chunk.id k)) as Hfk by (by destruct Hkid as [-> | ->]).
    eapply safe_weaken; [eapply (insert_compacted_ok st cs x e k0); try done|].
    { intros id' Eid'. assert (id' = id) as -> by congruence. done. }
    intros [st' r] ((srcs & -> & Hse) & Hok' & Hp'). eexists _, _. split; [done|]. cbn [fst]. split_and!; [done| | | | |].
    + unfold wf_chunks. rewrite Hp'. apply map_Forall_insert_2; [by apply storable_kept|]. by apply map_Forall_delete.
    + intros Hall. eapply all_physical_replace; [done|by destruct Hfk|done].
    + intros path. apply (Permutation_app_inv_l (new_rows path e)).
      rewrite (temporal_rows_replace st st' e k Hp' He (fresh_physical _ _ _ Hfk)), Hrk.
      by rewrite app_assoc.
    + unfold delta_rows, delta_chunk. simpl. by rewrite app_nil_r.
    + destruct (compacted_rows x e k (storable_rows _ Hst) Hs Hks Hrk) as [Hpath Hsub].
      assert (Chunk.num_rows e <> 0%nat) as Hen by (by eapply (ok_rows _ _ _ _ Hok)).
      destruct (compacted_rows e x k Hen Hes Hks) as [Hpe Hsube]; [intros p; by rewrite Hrk, Permutation_app_comm|]. split.
      * intros add ->%addition_single.
        unfold addition_ok, delta_chunk. cbn [direct_lineage chunk_before_processing chunk_after_processing].
        split_and!; [apply Hst|done|apply Hk|done|done].
      * intros i c. rewrite Hp'. intros [[<- <-]|[_ [_ ?]%lookup_delete_Some]]%lookup_insert_Some; [right|by left].
        eexists. split; [by left|done].
      * intros i c Hc _. rewrite Hp'. destruct (decide (i = Chunk.id e)) as [->|Hne].
        -- right. change (physical (st1 id)) with (physical st) in He. assert (c = e) as -> by congruence. eexists _, _. split_and!; [by left|done|done|congruence|done].
        -- left. rewrite lookup_insert_ne, lookup_delete_ne; [done|by apply not_eq_sym|].
           intros Heq. pose proof (fresh_physical _ _ _ Hfk) as E. unfold k in E, Heq. congruence.
Qed.

End Growth.
