(* ===== verification/StoreStatic.v ===== *)
(** * Insertion of a static chunk

    That storing a static chunk keeps the invariant of [StoreInvariant]: the chunks it
    overwrites leave memory, with their lineage when it is of no use any more. *)

From stdpp Require Import strings.
From S2P Require Import Prelude Ints TimeInt TimeRange Tuid Arrow Column Chunk ChunkSlice.
From S2P Require Import ChunkSort ChunkMerge ChunkQuery ChunkIndex Lineage StoreStats ChunkStore StoreGc StoreWrites.
From S2P Require Import StoreInvariant StoreInsertion.

Section Static.

Import ChunkStore.
Context `{Build} `{ArrowLaws} `{!Chunk.SizeBytes} `{HashOrder}.
Implicit Types st : ChunkStore.t.
Implicit Types c x : Chunk.t.

Notation physical st := (physical_chunks_per_chunk_id st).
Notation lineage_of st := (chunks_lineage (lineages st)).
Notation refs_of st := (Lineage.total Lineage.num_references (lineage_of st)).

(** A root leaves memory: its entry is forgotten when it is not from a manifest. *)
Definition left_root ctx (id : ChunkId.t) (l : TrackedDirectChunkLineage) : LineageDroppingCtx :=
  if descends_from_manifest l
  then Ctx (<[id := Tracked (lineage l) (ref_count l - 1) true]> (chunks_lineage ctx))
         (leaky_compactions ctx) (split_on_ingest ctx) (dangling_splits ctx)
  else Ctx (delete id (chunks_lineage ctx)) (delete id (leaky_compactions ctx))
         (split_on_ingest ctx ∖ {[id]}) (delete id (dangling_splits ctx)).

Definition is_root (l : ChunkDirectLineage) : Prop := l = Volatile \/ exists src, l = RootFromManifest src.

Lemma drop_loop_done fuel ctx : Lineage.drop_loop fuel ctx [] = Some ctx.
Proof. by destruct fuel. Qed.

Lemma total_unreferenced (m : gmap ChunkId.t TrackedDirectChunkLineage) id : unreferenced_by m id ->
  Lineage.total (refers id) m = 0%nat.
Proof. intros Hu. apply total_zero. intros i l Hl. by apply occurrences_zero, (Hu i l). Qed.

Lemma leave_root_run E D ctx id l : lineages_almost_ok E D (chunks_lineage ctx) -> id ∈ D ->
  chunks_lineage ctx !! id = Some l -> is_root (lineage l) ->
  Lineage.drop_lineage_reference ctx id = Some (left_root ctx id l).
Proof.
  intros [Hc _ _ Hfl _ Hv] Hid Hl Hroot. unfold Lineage.drop_lineage_reference, Lineage.drop_fuel, Lineage.drop_cost.
  cbn [Nat.add Lineage.drop_loop Lineage.drop_step]. rewrite Hl. cbn [lineage ref_count descends_from_manifest].
  pose proof (Hc id l Hl) as Hn. rewrite decide_True in Hn by done. change (occurrences id []) with 0%nat in Hn.
  rewrite Z.max_r by lia. rewrite (Hfl id l Hl). unfold left_root. rewrite (Hfl id l Hl).
  destruct Hroot as [E0|[src E0]]; rewrite E0; [|done]. cbn [Lineage.inherits_manifest orb].
  rewrite total_unreferenced in Hn by (by apply (Hv id l)).
  rewrite (proj2 (Z.ltb_ge 0 (ref_count l - 1))) by lia.
  cbn [rev app Nat.add Lineage.drop_loop Lineage.drop_step chunks_lineage leaky_compactions split_on_ingest dangling_splits].
  rewrite lookup_insert_eq. cbn [lineage Lineage.iter_referenced_chunks fmap list_fmap rev app]. rewrite delete_insert_eq.
  apply drop_loop_done.
Qed.

Lemma left_root_entries ctx id l : chunks_lineage ctx !! id = Some l ->
  (forall i, i <> id -> chunks_lineage (left_root ctx id l) !! i = chunks_lineage ctx !! i)
  /\ forall l', chunks_lineage (left_root ctx id l) !! id = Some l' ->
       lineage l' = lineage l /\ descends_from_manifest l = true /\ descends_from_manifest l' = true.
Proof.
  intros Hl. unfold left_root. destruct (descends_from_manifest l) eqn:E; cbn [chunks_lineage]; split.
  - intros i Hne. by rewrite lookup_insert_ne.
  - rewrite lookup_insert_eq. intros l' [= <-]. done.
  - intros i Hne. by rewrite lookup_delete_ne.
  - by rewrite lookup_delete_eq.
Qed.

Lemma left_root_total f ctx id l : chunks_lineage ctx !! id = Some l -> (forall l l', lineage l = lineage l' -> f l = f l') ->
  (is_root (lineage l) -> f l = 0%nat) -> is_root (lineage l) ->
  Lineage.total f (chunks_lineage (left_root ctx id l)) = Lineage.total f (chunks_lineage ctx).
Proof.
  intros Hl Hf Hz Hroot. unfold left_root. destruct (descends_from_manifest l) eqn:E; cbn [chunks_lineage].
  - rewrite <- E. by apply total_same.
  - rewrite (total_delete f (chunks_lineage ctx) id l Hl), Hz by done. done.
Qed.

Lemma leave_root_ok E D ctx id l : lineages_almost_ok E D (chunks_lineage ctx) -> id ∈ D ->
  chunks_lineage ctx !! id = Some l -> is_root (lineage l) ->
  lineages_almost_ok E (D ∖ {[id]}) (chunks_lineage (left_root ctx id l)).
Proof.
  intros [Hc Hf Hi Hfl Hk Hv] Hid Hl Hroot. destruct (left_root_entries ctx id l Hl) as [Ho Hs].
  set (m := chunks_lineage ctx) in *. set (m' := chunks_lineage (left_root ctx id l)) in *.
  pose proof (Hfl id l Hl) as Hfid. pose proof (Hc id l Hl) as Hcid. rewrite decide_True in Hcid by done.
  change (occurrences id []) with 0%nat in Hcid.
  assert (forall i l', m' !! i = Some l' -> exists l0, m !! i = Some l0 /\ lineage l' = lineage l0
    /\ descends_from_manifest l' = descends_from_manifest l0) as Hback.
  { intros i l' Hl'. destruct (decide (i = id)) as [->|Hne]; [|rewrite Ho in Hl' by done; by exists l'].
    destruct (Hs l' Hl') as (? & ? & ?). exists l. split_and!; congruence. }
  assert (forall s, Lineage.is_live m' s = true -> Lineage.is_live m s = true) as _.
  { intros s. unfold Lineage.is_live. destruct (decide (s = id)) as [->|Hne]; [|by rewrite Ho].
    rewrite Hl. simpl. intros _. apply Z.ltb_lt. lia. }
  assert (forall p, p ∈ Lineage.iter_referenced_chunks (lineage l) -> False) as Hnoref.
  { intros p. destruct Hroot as [->|[? ->]]; apply not_elem_of_nil. }
  split.
  - intros i l' Hl'. unfold m'. rewrite left_root_total; [|done|apply refers_same|..|done].
      2:{ intros _. apply occurrences_zero. intros Hin. exact (Hnoref i Hin). }
    destruct (decide (i = id)) as [->|Hne].
    + rewrite decide_False by set_solver. unfold m', left_root in Hl'. rewrite Hfid in Hl'.
      destruct Hroot as [E0|[src E0]]; rewrite E0 in Hl'; cbn [Lineage.inherits_manifest chunks_lineage] in Hl';
        [by rewrite lookup_delete_eq in Hl'|]. rewrite lookup_insert_eq in Hl'. injection Hl' as <-. simpl.
      change (occurrences id []) with 0%nat. fold m. lia.
    + rewrite Ho in Hl' by done. rewrite (Hc i l' Hl').
      destruct (decide (i ∈ D)); [rewrite decide_True by set_solver|rewrite decide_False by set_solver]; done.
  - unfold m', left_root. destruct (descends_from_manifest l) eqn:Ed; cbn [chunks_lineage]; [|by apply delete_families].
    apply (same_families m); [|done]. rewrite <- Ed. by apply set_count_same.
  - intros i l' Hl' (Hd & Hr & Hsib). destruct (decide (i = id)) as [->|Hne].
    { destruct (Hs l' Hl') as (_ & _ & ?). congruence. }
    rewrite Ho in Hl' by done. apply (Hi i l' Hl'). split_and!; [done|done|].
    destruct (lineage l') as [p siblings|ps|st|] eqn:El; [|done..].
    apply Forall_forall. intros s Hin. rewrite Forall_forall in Hsib. specialize (Hsib s Hin).
    destruct (decide (s = id)) as [->|Hns]; [|unfold Lineage.is_live in *; by rewrite Ho in Hsib].
    destruct (Hf i l' p siblings Hl' El) as [_ Hsibs]. destruct (Hsibs id l Hin Hl) as (_ & ? & E0 & _).
    destruct Hroot as [?|[? ?]]; congruence.
  - assert (forall new, (lineage l = Volatile -> id ∉ Lineage.iter_referenced_chunks new) ->
      Lineage.inherits_manifest m' new = Lineage.inherits_manifest m new) as Hinh.
    { intros new Hnew. apply inherits_manifest_ext. intros p Hp. unfold Lineage.store_descends_from_manifest.
      destruct (decide (p = id)) as [->|Hne]; [|by rewrite Ho]. rewrite Hl.
      destruct Hroot as [E0|[src E0]]; [by destruct (Hnew E0)|].
      unfold m', left_root. rewrite Hfid, E0. cbn [Lineage.inherits_manifest chunks_lineage].
      rewrite lookup_insert_eq. simpl. by rewrite Hfid, E0. }
    intros i l' Hl'. destruct (Hback i l' Hl') as (l0 & Hl0 & -> & ->). rewrite (Hfl i l0 Hl0).
    symmetry. apply Hinh. intros E0. by apply (Hv id l Hid Hl E0 i).
  - intros i [Hin Hni]%elem_of_difference. rewrite elem_of_singleton in Hni. unfold m'. rewrite Ho by done. by apply Hk.
  - intros i l' [Hin Hni]%elem_of_difference Hl' Hlin j lj Hj. rewrite elem_of_singleton in Hni.
    rewrite Ho in Hl' by done. destruct (Hback j lj Hj) as (lj0 & Hlj0 & -> & _). by apply (Hv i l' Hin Hl' Hlin j).
Qed.

(** ** The store while static chunks are overwritten *)

(** [x] is counted in the statistics, and is not in memory yet. *)
Record overwriting st cs x : Prop := {
  over_ok : store_almost_ok {[Chunk.id x]}
    (with_static st (static_chunk_ids_per_entity st) (wrapped (stats_of true (physical st)))) cs [];
  over_stats : static_chunks_stats st = wrapped (stats_of true (<[Chunk.id x := x]> (physical st)));
  over_u64 : debug_assertions = true -> all_stats is_u64 (stats_of true (<[Chunk.id x := x]> (physical st)));
  over_wf : wf_chunks st;
  over_lineage : exists l, lineage_of st !! Chunk.id x = Some l /\ is_root (lineage l)
    /\ (lineage l = Volatile -> unreferenced_by (lineage_of st) (Chunk.id x));
  over_physical : physical st !! Chunk.id x = None;
  over_storable : storable x;
  over_measured : Chunk.measured x = x;
  over_room : Z.of_nat (refs_of st) + 2 < 2 ^ 32;
}.

Lemma left_root_led ctx id l : chunks_lineage ctx !! id = Some l -> led ctx -> led (left_root ctx id l).
Proof.
  intros Hl Hled i Hin. destruct (left_root_entries ctx id l Hl) as [Ho _].
  destruct (decide (i = id)) as [->|Hne].
  - unfold left_root in *. destruct (descends_from_manifest l); cbn [chunks_lineage leaky_compactions dangling_splits] in *.
    + rewrite lookup_insert_eq. by eexists.
    + rewrite !lookup_delete_eq in Hin. by destruct Hin as [[? ?]|[? ?]].
  - rewrite Ho by done. apply Hled. unfold left_root in Hin.
    destruct (descends_from_manifest l); cbn [leaky_compactions dangling_splits] in Hin; [done|].
    by rewrite !lookup_delete_ne in Hin.
Qed.

(** A static chunk [c] leaves memory. *)
Lemma overwrite_step st cs x c row_id mx : overwriting st cs x ->
  physical st !! Chunk.id c = Some c -> Chunk.is_static c = true -> Chunk.row_id_range c = Some (row_id, mx) ->
  let st1 := StoreGc.drop_lineage (with_physical st (delete (Chunk.id c) (physical st))
               (physical_chunk_ids_per_min_row_id st ∖ {[(row_id, Chunk.id c)]})) (Chunk.id c) in
  exists stats, ChunkStoreChunkStats.sub (static_chunks_stats st1) (ChunkStoreChunkStats.of_chunk c) = Done stats
    /\ let st' := with_static st1 (static_chunk_ids_per_entity st1) stats in
       overwriting st' cs x /\ physical st' = delete (Chunk.id c) (physical st)
       /\ static_chunk_ids_per_entity st' = static_chunk_ids_per_entity st.
Proof.
  intros [Hok Hstats Hu64 Hwf (lx & Hlx & Hrx & Hvx) Hxp Hst Hmx Hroom] Hc Hcs Hrange st1.
  pose proof Hok as [Hv Hnd Hk Hrows Ht Hcons Hm Hlin Hled Hmiss Hsid Hsl Hsz Hms Hts Hss Hu].
  cbn [with_static physical_chunks_per_chunk_id lineages static_chunk_ids_per_entity static_chunks_stats
    temporal_physical_chunks_stats physical_chunk_ids_per_min_row_id] in *.
  assert (Chunk.id c ∈ dom (physical st)) as Hdom by (apply elem_of_dom; eauto).
  assert (Chunk.id c <> Chunk.id x) as Hne by congruence.
  destruct (ok_known _ _ _ Hlin _ Hdom) as [l Hl]. pose proof (Hsl _ c l Hc Hcs Hl) as Hroot.
  pose proof (leave_root_run _ _ _ _ l Hlin Hdom Hl Hroot) as Hrun.
  pose proof (leave_root_ok _ _ _ _ l Hlin Hdom Hl Hroot) as Hlin'.
  destruct (left_root_entries _ _ l Hl) as [Ho Hs].
  assert (lineages st1 = left_root (lineages st) (Chunk.id c) l) as El.
  { unfold st1, StoreGc.drop_lineage. cbn [with_lineages with_physical lineages]. by rewrite Hrun. }
  destruct (stats_of_sub true (<[Chunk.id x := x]> (physical st)) (Chunk.id c) c) as [Hsub Hu'];
    [by rewrite lookup_insert_ne|done|apply map_Forall_insert_2; [by apply Hst|exact Hsz]|done|].
  rewrite delete_insert_ne in Hsub, Hu' by done.
  rewrite <- Hstats in Hsub. eexists. split; [exact Hsub|]. set (st' := with_static _ _ _).
  destruct (stats_of_sub true (physical st) (Chunk.id c) c) as [_ Hu2]; [done|done|exact Hsz|intros; by apply Hu|].
  pose proof (dom_delete_L (physical st) (Chunk.id c)) as Hdd.
  assert (physical st' = delete (Chunk.id c) (physical st)) as Ep by done.
  assert (lineages st' = left_root (lineages st) (Chunk.id c) l) as El' by done.
  split_and!; [|done|done]. split; [| |by rewrite Ep|..].
  - split; cbn [with_static physical_chunks_per_chunk_id lineages static_chunk_ids_per_entity static_chunks_stats
      temporal_physical_chunks_stats physical_chunk_ids_per_min_row_id]; rewrite ?Ep, ?El'.
    + eapply virtual_indexes_ext; [| |exact Hv]; done.
    + done.
    + intros id c' [_ Hc']%lookup_delete_Some. by apply Hk.
    + intros id c' [_ Hc']%lookup_delete_Some. by eapply Hrows.
    + intros id c' [_ Hc']%lookup_delete_Some. by eapply Ht.
    + intros c1 c' Hin [_ Hc']%lookup_delete_Some. by apply Hcons.
    + pose proof (removed_min_row_ids _ _ _ Hm Hc) as Hm'. by rewrite Hrange in Hm'.
    + by rewrite Hdd.
    + by apply left_root_led.
    + intros c' Hin Hnone. destruct (decide (Chunk.id c' = Chunk.id c)) as [Hid|Hnid].
      { exfalso. destruct (Hcons c' c Hin) as [-> ?]; [by rewrite Hid|congruence]. }
      rewrite lookup_delete_ne in Hnone by done. destruct (Hmiss c' Hin Hnone) as [(l' & src & Hl' & E)|?]; [left|by right].
      exists l', src. by rewrite Ho.
    + intros path pc component id c' Hp Hi [_ Hc']%lookup_delete_Some. by eapply Hsid.
    + intros id c' l' [Hni Hc']%lookup_delete_Some Hs' Hl'. rewrite Ho in Hl' by done. by eapply Hsl.
    + intros id c' [_ Hc']%lookup_delete_Some. by eapply Hsz.
    + intros id c' [_ Hc']%lookup_delete_Some. by eapply Hms.
    + rewrite (stats_of_delete_other false _ _ c Hc) by done. exact Hts.
    + done.
    + intros Hd. split; [|by apply Hu2]. rewrite (stats_of_delete_other false _ _ c Hc) by done. by apply Hu.
  - by rewrite Ep.
  - unfold wf_chunks. rewrite Ep. by apply map_Forall_delete.
  - exists lx. rewrite El'. split_and!; [by rewrite Ho|done|]. intros E0 i li Hi.
    destruct (decide (i = Chunk.id c)) as [->|Hni]; [destruct (Hs li Hi) as [-> _]; by apply (Hvx E0 (Chunk.id c))|].
    rewrite Ho in Hi by done. by apply (Hvx E0 i).
  - rewrite Ep. by apply lookup_delete_None; right.
  - done.
  - done.
  - rewrite El'. rewrite left_root_total; [done|done| | |done].
    + intros l1 l2 E12. unfold Lineage.num_references. by rewrite E12.
    + unfold Lineage.num_references. by intros [->|[? ->]].
Qed.

(** The chunks in memory that a list names with their least row ids. *)
Definition overwritten st (l : list (ChunkId.t * RowId.t)) : Prop :=
  forall id row_id, (id, row_id) ∈ l -> exists c mx, physical st !! id = Some c /\ Chunk.is_static c = true
    /\ Chunk.row_id_range c = Some (row_id, mx).

(** Static chunks left memory, and nothing else happened there. *)
Definition shed st st' : Prop :=
  physical st' ⊆ physical st
  /\ forall id c, physical st !! id = Some c -> Chunk.is_static c = false -> physical st' !! id = Some c.

Lemma remove_overwritten_ok cs x per_component l : forall st diffs, overwriting st cs x -> NoDup l.*1 -> overwritten st l ->
  exists st' dels, StoreWrites.remove_overwritten st per_component l diffs = Done (st', diffs ++ (Deleted <$> dels))
    /\ overwriting st' cs x /\ (all_physical st cs -> all_physical st' cs) /\ (forall path, temporal_rows path st' ≡ₚ temporal_rows path st)
    /\ static_chunk_ids_per_entity st' = static_chunk_ids_per_entity st /\ shed st st'.
Proof.
  induction l as [|[id row_id] l IH]; intros st diffs Hover Hnd Hl.
  { exists st, []. split_and!; [by rewrite app_nil_r|done|done|done|done|by split]. }
  apply NoDup_cons in Hnd as [Hid Hnd]. cbn [StoreWrites.remove_overwritten].
  assert (overwritten st l) as Hl' by (intros i r Hin; apply Hl; by right).
  destruct (existsb _ _); [by apply IH|].
  destruct (Hl id row_id ltac:(left)) as (c & mx & Hc & Hcs & Hr).
  pose proof (over_ok _ _ _ Hover) as Hok. pose proof (ok_keys _ _ _ _ Hok id c Hc) as <-.
  assert (forall b : bool, b = true -> debug_assert b = Done ()) as Hassert
    by (intros b ->; unfold debug_assert; by destruct debug_assertions).
  rewrite (Hassert (bool_decide (_ ∈ _))).
  2:{ apply bool_decide_eq_true, (ok_min_row_ids _ _ _ _ Hok). exists c, mx. done. }
  cbn [mbind outcome_bind]. rewrite Hc, (Hassert (bool_decide (is_Some _))) by (by apply bool_decide_eq_true).
  cbn [mbind outcome_bind].
  destruct (overwrite_step st cs x c row_id mx Hover Hc Hcs Hr) as (stats & Hsub & Hover' & Ep & Es).
  rewrite Hsub. cbn [mbind outcome_bind].
  destruct (IH _ (diffs ++ [Deleted (Deletion c Overwrite)]) Hover' Hnd) as (st' & dels & Hrun & Hover2 & Hphys & Hrows & Es' & [Hsub' Hkept]).
  { intros i r Hin. destruct (Hl' i r Hin) as (c' & mx' & Hc' & ?). exists c', mx'. rewrite Ep, lookup_delete_ne; [done|].
    intros <-. apply Hid. apply list_elem_of_fmap. by exists (Chunk.id c, r). }
  exists st', (Deletion c Overwrite :: dels). split_and!; [rewrite Hrun; by rewrite <- app_assoc|done| | |by rewrite Es'|].
  3:{ split; [etransitivity; [exact Hsub'|rewrite Ep; apply delete_subseteq]|].
    intros id' c' Hc' Hs'. apply Hkept; [|done]. rewrite Ep, lookup_delete_ne; [done|]. intros <-. congruence. }
  { intros Hall. apply Hphys. intros c' Hin. rewrite Ep. rewrite lookup_delete_ne; [by apply Hall|]. intros E.
    destruct (ok_consistent _ _ _ _ Hok c' c Hin) as [-> ?]; [by rewrite <- E|]. congruence. }
  intros path. rewrite Hrows. unfold temporal_rows. rewrite Ep. rewrite (physical_list_delete (physical st) (Chunk.id c) c Hc).
  rewrite filter_cons, decide_False; [done|]. intros [? _]. congruence.
Qed.

(** The chunk enters memory at last. *)
Lemma static_enters st cs x : overwriting st cs x -> Chunk.is_static x = true -> Chunk.id x ∉ Chunk.id <$> cs ->
  exists st', StoreWrites.make_physical st x = Done st'
    /\ store_ok st' cs [] /\ wf_chunks st' /\ (all_physical st cs -> all_physical st' cs) /\ (forall path, temporal_rows path st' ≡ₚ temporal_rows path st)
    /\ physical st' = <[Chunk.id x := x]> (physical st).
Proof.
  intros [Hok Hstats Hu64 Hwf (lx & Hlx & Hrx & Hvx) Hxp Hstx Hmx Hroom] Hxs Hxc. pose proof Hstx as [Hw Hn Hsized _ _].
  pose proof Hok as [Hv Hnd Hk Hrows Ht Hcons Hm Hlin Hled Hmiss Hsid Hsl Hsz Hms Hts Hss Hu].
  cbn [with_static physical_chunks_per_chunk_id lineages static_chunk_ids_per_entity static_chunks_stats
    temporal_physical_chunks_stats physical_chunk_ids_per_min_row_id] in *. unfold StoreWrites.make_physical.
  destruct (bump_ok {[Chunk.id x]} _ _ (Chunk.id x) lx Hlin) as (Hrun & Hlin' & Hrefs);
    [by apply not_elem_of_dom|done|done|done|]. rewrite Hrun. cbn [mbind outcome_bind].
  eexists. split; [done|]. set (m' := <[Chunk.id x := Tracked _ _ _]> (lineage_of st)) in *.
  pose proof (bumped_same _ _ _ Hlx) as Hse. fold m' in Hse.
  split_and!.
  - split; cbn [insert_physical StoreWrites.with_chunks_lineage with_lineages with_physical
      physical_chunks_per_chunk_id lineages chunks_lineage temporal_physical_chunks_stats static_chunks_stats
      static_chunk_ids_per_entity physical_chunk_ids_per_min_row_id].
    + eapply virtual_indexes_ext; [| |exact Hv]; done.
    + done.
    + intros id c' [[<- <-]|[_ Hc']]%lookup_insert_Some; [done|by apply Hk].
    + intros id c' [[<- <-]|[_ Hc']]%lookup_insert_Some; [done|by eapply Hrows].
    + intros id c' [[<- <-]|[_ Hc']]%lookup_insert_Some Hs; [congruence|by eapply Ht].
    + intros c1 c' Hin Hc'. rewrite lookup_insert_ne in Hc' by (intros E'; apply Hxc; rewrite E'; by apply list_elem_of_fmap_2).
      by apply Hcons.
    + by apply inserted_min_row_ids.
    + rewrite dom_insert_L. by replace (∅ : gset ChunkId.t) with ({[Chunk.id x]} ∖ {[Chunk.id x]} : gset ChunkId.t) by set_solver.
    + by apply (same_led (lineages st)).
    + intros c' Hin Hnone. apply lookup_insert_None in Hnone as [Hnone _].
      destruct (Hmiss c' Hin Hnone); [left|by right]. by eapply same_manifest_root.
    + intros path pc component id c' Hpath Hi [[<- <-]|[_ Hc']]%lookup_insert_Some; [done|by eapply Hsid].
    + intros id c' l' [[<- <-]|[Hne Hc']]%lookup_insert_Some Hs Hl'.
      * unfold m' in Hl'. rewrite lookup_insert_eq in Hl'. injection Hl' as <-. done.
      * unfold m' in Hl'. rewrite lookup_insert_ne in Hl' by done. by eapply Hsl.
    + intros id c' [[<- <-]|[_ Hc']]%lookup_insert_Some; [done|by eapply Hsz].
    + intros id c' [[<- <-]|[_ Hc']]%lookup_insert_Some; [done|by eapply Hms].
    + rewrite stats_of_insert, decide_False by (congruence || done). done.
    + done.
    + intros Hd. split; [|by apply Hu64]. rewrite stats_of_insert, decide_False by (congruence || done). by apply Hu.
  - apply map_Forall_insert_2; [by apply storable_kept|done].
  - intros Hall c Hc. cbn [insert_physical with_physical physical_chunks_per_chunk_id].
    rewrite lookup_insert_ne; [by apply Hall|]. intros E. apply Hxc. rewrite E. by apply list_elem_of_fmap_2.
  - pose proof (temporal_rows_insert st (insert_physical (StoreWrites.with_chunks_lineage st m') x) x eq_refl Hxp) as Hr.
    intros path. by rewrite Hr, new_rows_static.
  - done.
Qed.

(** ** The components *)

(** The ids of a static index, while the components of [x] are gone through. *)
Definition taken_from st x (ids0 : gmap string ChunkId.t) (acc : gmap string ChunkId.t * gmap ChunkId.t RowId.t) : Prop :=
  (forall component id, fst acc !! component = Some id -> id = Chunk.id x \/ exists component', ids0 !! component' = Some id)
  /\ forall id row_id, snd acc !! id = Some row_id -> exists c mx component, physical st !! id = Some c
       /\ Chunk.row_id_range c = Some (row_id, mx) /\ ids0 !! component = Some id.

Lemma insert_static_component_ok st x ids0 ids over component column : physical st !! Chunk.id x = None ->
  taken_from st x ids0 (ids, over) -> taken_from st x ids0 (StoreWrites.insert_static_component st x ids over component column).
Proof.
  intros Hx [Hids Hover]. cbn [fst snd] in *. unfold StoreWrites.insert_static_component.
  destruct (Chunk.row_id_range_per_component x !! component) as [[? mx]|]; [|by split].
  assert (forall component0 id, <[component := Chunk.id x]> ids !! component0 = Some id ->
    id = Chunk.id x \/ exists component', ids0 !! component' = Some id) as Hids'.
  { intros component0 id [[<- <-]|[_ Hi]]%lookup_insert_Some; [by left|by eapply Hids]. }
  destruct (ids !! component) as [cur|] eqn:Ecur; [|by split].
  destruct (RowId.lt _ mx); [|by split]. split; [exact Hids'|]. cbn [snd].
  destruct (physical st !! cur) as [c|] eqn:Ec; [|done]. cbn [mbind option_bind].
  destruct (Chunk.row_id_range c) as [[lo hi]|] eqn:Er; [|done]. destruct (is_transform_archetype _); [done|].
  intros id row_id [[<- <-]|[_ Hi]]%lookup_insert_Some; [|by apply Hover].
  destruct (Hids component cur Ecur) as [->|[component' Hc']]; [congruence|]. by exists c, hi, component'.
Qed.

Lemma insert_static_components_ok st x ids0 : physical st !! Chunk.id x = None ->
  taken_from st x ids0 (StoreWrites.insert_static_components st x ids0).
Proof.
  intros Hx. unfold StoreWrites.insert_static_components.
  assert (taken_from st x ids0 (ids0, ∅)) as Hstart.
  { split; [by right; eexists|]. intros id row_id Hi. cbn in Hi. by rewrite lookup_empty in Hi. }
  revert Hstart. generalize (ids0, ∅ : gmap ChunkId.t RowId.t).
  induction (map_to_list (Chunk.components x)) as [|[component column] l IH]; intros [ids over] Hacc; [done|].
  cbn [foldl]. destruct (StoreWrites.column_is_empty column); [by apply IH|].
  apply IH. by apply insert_static_component_ok.
Qed.

(** ** The whole insertion *)

Lemma insert_static_ok st cs x lineage : announced st cs x -> Chunk.is_static x = true ->
  (exists l, lineage_of st !! Chunk.id x = Some l /\ is_root (Lineage.lineage l)) ->
  safe (fun '(st', diffs) => exists dels, diffs = Addition (Added x x lineage) :: (Deleted <$> dels)
          /\ overwriting st' cs x /\ (all_physical st cs -> all_physical st' cs) /\ (forall path, temporal_rows path st' ≡ₚ temporal_rows path st)
          /\ shed st st')
    (StoreWrites.insert_static st x lineage).
Proof.
  intros [Hok Hwf (l & Hl & Hvol) Hp Hcs Hns Hst Hmx Hroom] Hxs (l' & Hl' & Hroot). assert (l' = l) as -> by congruence.
  pose proof Hok as [Hv Hnd Hk Hrows Ht Hcons Hm Hlin Hled Hmiss Hsid Hsl Hsz Hms Hts Hss Hu].
  unfold StoreWrites.insert_static. set (path := Chunk.entity_path x).
  set (ids0 := default ∅ (static_chunk_ids_per_entity st !! path)).
  destruct (insert_static_components_ok st x ids0 Hp) as [Hids Hover].
  destruct (StoreWrites.insert_static_components st x ids0) as [ids over]. cbn [fst snd] in *.
  assert (forall component id, ids0 !! component = Some id ->
    exists pc, static_chunk_ids_per_entity st !! path = Some pc /\ pc !! component = Some id) as Hids0.
  { unfold ids0. intros component id. destruct (static_chunk_ids_per_entity st !! path) as [pc|]; [by exists pc|].
    simpl. by rewrite lookup_empty. }
  set (static_ids := if StoreWrites.has_static_data x then _ else _).
  eapply safe_bind; [apply (stats_of_insert_safe true (physical st)); [done|exact Hss|intros; by apply Hu|done]|].
  intros stats [-> Hu'].
  assert (overwriting (with_static st static_ids (wrapped (stats_of true (<[Chunk.id x := x]> (physical st))))) cs x) as Ho.
  { split; try done; [|by exists l|cbn; lia].
    split; try done. cbn [with_static static_chunk_ids_per_entity physical_chunks_per_chunk_id].
    intros path' pc component id c Hpath Hi Hc. unfold static_ids in Hpath.
    destruct (StoreWrites.has_static_data x); [|by eapply Hsid].
    apply lookup_insert_Some in Hpath as [[<- <-]|[_ Hpath]]; [|by eapply Hsid].
    destruct (Hids component id Hi) as [->|[component' Hi']]; [congruence|].
    destruct (Hids0 _ _ Hi') as (pc & Hpc & Hpi). by eapply Hsid. }
  eapply safe_bind; [apply safe_debug_assert|]. intros _ _.
  destruct (static_ids !! path) as [pc|]; [|apply safe_done; by exists []].
  destruct (remove_overwritten_ok cs x pc (map_to_list over) _ [Addition (Added x x lineage)] Ho) as
    (st' & dels & Hrun & Ho' & Hphys & Hrows' & _ & Hsub); [apply NoDup_fst_map_to_list| |].
  { intros id row_id Hin%elem_of_map_to_list. destruct (Hover id row_id Hin) as (c & mx & component & Hc & Hr & Hi).
    exists c, mx. split_and!; [done| |done]. destruct (Hids0 _ _ Hi) as (pc' & Hpc & Hpi). by eapply Hsid. }
  rewrite Hrun. apply safe_done. exists dels. split_and!; [done..| |done]. intros path0. by rewrite Hrows'.
Qed.

(** A static chunk. *)
Lemma insert_whole_static_ok st cs x new_id report diffs : announced st cs x -> Chunk.is_static x = true ->
  (exists l, lineage_of st !! Chunk.id x = Some l /\ is_root (lineage l)) -> (forall r, report <> Report.CompactedFrom r) ->
  safe (inserted st cs x diffs) (StoreWrites.insert_whole st new_id x report diffs).
Proof.
  intros Hann Hs Hroot Hrep. unfold StoreWrites.insert_whole.
  eapply safe_bind; [apply safe_arith|]. intros id _. rewrite Hs.
  pose proof (insert_static_ok (with_ids st id (gc_id st) (event_id st)) cs x report (announced_ids _ _ _ _ _ _ Hann) Hs Hroot) as Hsafe.
  destruct (StoreWrites.insert_static _ x report) as [[st' ds]|]; [|exact Hsafe].
  destruct Hsafe as (dels & -> & Hover & Hphys & Hrows & Hsub & Hkept). cbn [mbind outcome_bind].
  destruct (static_enters st' cs x Hover Hs (ann_chunks _ _ _ Hann)) as (st2 & Hrun & Hok & Hwf & Hphys2 & Hrows2 & Hp2).
  rewrite Hrun. cbn [mbind outcome_bind]. apply safe_done. exists cs, (Addition (Added x x report) :: (Deleted <$> dels)).
  split_and!; [done|done|done|auto| | |].
  - intros path. rewrite new_rows_static by done. cbn [fst app]. by rewrite Hrows2, Hrows.
  - unfold delta_rows. cbn [mbind list_bind]. assert (delta_rows (Deleted <$> dels) = []) as E.
    { clear. unfold delta_rows. induction dels as [|d dels IH]; [done|]. exact IH. }
    unfold delta_rows in E. rewrite E, app_nil_r. unfold delta_chunk. cbn [direct_lineage chunk_before_processing].
    by destruct report.
  - split.
    + intros add [[= ->]|(d & E & _)%list_elem_of_fmap]%elem_of_cons; [|done].
      apply addition_ok_self; [apply Hann|done].
    + intros i c. cbn [fst]. rewrite Hp2. intros [[<- <-]|[_ Hc]]%lookup_insert_Some.
      * right. eexists. split; [by left|done].
      * left. by eapply lookup_weaken in Hsub.
    + intros i c Hc Hcs. left. cbn [fst]. rewrite Hp2, lookup_insert_ne; [by apply Hkept|].
      intros <-. destruct Hann. congruence.
Qed.

End Static.
