(* ===== verification/StoreSplits.v ===== *)
(** * Insertion of a chunk

    That [insert_chunk] returns, keeps the invariant of [StoreInvariant] and adds the rows of
    the chunk, whether it is split, compacted, or overwrites static chunks. *)

From stdpp Require Import strings.
From S2P Require Import Prelude Ints TimeInt TimeRange Tuid Arrow Column Chunk ChunkSlice.
From S2P Require Import ChunkSort ChunkMerge ChunkQuery ChunkIndex Lineage StoreStats ChunkStore StoreGc StoreWrites.
From S2P Require Import StoreInvariant StoreInsertion StoreStatic.

Section Splits.

Import ChunkStore.
Context `{Build} `{ArrowLaws} `{!Chunk.SizeBytes} `{HashOrder}.
Implicit Types st : ChunkStore.t.
Implicit Types c x p : Chunk.t.

Notation physical st := (physical_chunks_per_chunk_id st).
Notation lineage_of st := (chunks_lineage (lineages st)).
Notation refs_of st := (Lineage.total Lineage.num_references (lineage_of st)).

(** ** The pieces of a split *)

Lemma same_shape_refl c : same_shape c c.
Proof. by split_and!. Qed.

Lemma map_shape {A B} (f : A -> B) (m m' : gmap string A) : (forall k, f <$> m' !! k = f <$> m !! k) -> m' = ∅ <-> m = ∅.
Proof.
  intros Hf. split; intros ->; apply map_eq; intros k; specialize (Hf k); rewrite lookup_empty in *.
  - by destruct (m !! k).
  - by destruct (m' !! k).
Qed.

Lemma same_shape_static c c' : same_shape c c' -> Chunk.is_static c' = Chunk.is_static c.
Proof.
  intros (_ & Ht & _). unfold Chunk.is_static. apply bool_decide_ext. by apply (map_shape TimeColumn.timeline).
Qed.

Lemma same_shape_components c c' : same_shape c c' -> Chunk.components c' = ∅ <-> Chunk.components c = ∅.
Proof. intros (_ & _ & Hc). by apply (map_shape ChunkComponents.descriptor). Qed.

(** A piece of [x]: some of its rows in their order, all of its columns. *)
Record piece_of x p : Prop := {
  piece_wf : chunk_wf p;
  piece_shape : same_shape x p;
  piece_rows : Chunk.num_rows p <> 0%nat;
  piece_num_rows : (Chunk.num_rows p <= Chunk.num_rows x)%nat;
}.

(** The ids that the insertion of [x] may draw; those of a split have bounds. *)
Definition within x (d : Draw) : Prop :=
  match d with
  | SplitDraw round position piece =>
      (round <= Chunk.num_rows x)%nat /\ (position < Chunk.num_rows x)%nat /\ (piece < Chunk.num_rows x)%nat
  | CompactDraw | SortDraw => True
  | PieceDraw _ _ => False
  end.

(** [x] itself, but for the size that was measured. *)
Definition whole x p : Prop := Chunk.id p = Chunk.id x /\ rows p = rows x /\ (sized x -> sized p).

Lemma whole_measured c : whole c (Chunk.measured c).
Proof. split_and!; [apply measured_id|apply measured_rows|]. unfold sized. by rewrite of_measured. Qed.

Lemma whole_refl c : whole c c.
Proof. by split_and!. Qed.

Lemma whole_trans a b c : whole a b -> whole b c -> whole a c.
Proof. intros (? & ? & ?) (? & ? & ?). split_and!; [congruence|congruence|auto]. Qed.

(** A new piece, and the round and position it was drawn in. *)
Definition drawn (new_id : Draw -> ChunkId.t) x (P : nat -> nat -> Prop) p : Prop :=
  sized p /\ exists round position piece, within x (SplitDraw round position piece)
    /\ P round position /\ Chunk.id p = new_id (SplitDraw round position piece).

Lemma drawn_weaken new_id x (P Q : nat -> nat -> Prop) p q : drawn new_id x P p -> whole p q ->
  (forall r k, P r k -> Q r k) -> drawn new_id x Q q.
Proof.
  intros (? & r & k & j & ? & ? & ?) (Hid & _ & Hsz) HPQ. split; [auto|]. exists r, k, j.
  split_and!; [done|auto|congruence].
Qed.

Lemma split_loop_drawn new_ids c target fuel start n :
  let pieces := ChunkSplit.split_loop new_ids c target fuel start n in
  (Chunk.id <$> pieces) = new_ids <$> seq n (length pieces)
  /\ Forall (fun p => Chunk.heap_size_bytes p = 0) pieces.
Proof.
  revert start n. induction fuel as [|fuel IH]; intros start n; [by split|]. cbn [ChunkSplit.split_loop].
  destruct (start <? Chunk.num_rows c)%nat; [|by split]. cbv zeta.
  destruct (IH (start + Nat.min (Chunk.num_rows c - start) target)%nat (S n)) as [Hids Hheap].
  assert (forall i k, Chunk.id (ChunkSlice.row_sliced_deep (new_ids n) c i k) = new_ids n
    /\ Chunk.heap_size_bytes (ChunkSlice.row_sliced_deep (new_ids n) c i k) = 0) as Hp.
  { intros i k. unfold ChunkSlice.row_sliced_deep, ChunkSlice.row_sliced_impl.
    destruct (_ <=? _)%nat; [done|]. by case_bool_decide. }
  split; [|constructor; [apply Hp|done]]. rewrite fmap_cons. cbn [length seq fmap list_fmap]. f_equal; [apply Hp|exact Hids].
Qed.

Lemma split_chunk_pieces new_ids c cfg : chunk_wf c -> Chunk.num_rows c <> 0%nat ->
  let pieces := ChunkSplit.split_chunk_if_needed new_ids c cfg in
  mjoin (rows <$> pieces) = rows c /\ Forall (piece_of c) pieces
  /\ (pieces = [Chunk.measured c] \/ (Chunk.id <$> pieces = new_ids <$> seq 0 (length pieces)
        /\ Forall (fun p => Chunk.heap_size_bytes p = 0) pieces)).
Proof.
  intros Hw Hn. cbv zeta. unfold ChunkSplit.split_chunk_if_needed. cbv zeta.
  change (snd (ChunkSplit.total_size_bytes c)) with (Chunk.measured c). generalize (fst (ChunkSplit.total_size_bytes c)). intros size.
  assert (same_shape c (Chunk.measured c)) as Hshape
    by (apply (measured_cases same_shape); intros; repeat split).
  assert (mjoin (rows <$> [Chunk.measured c]) = rows c /\ Forall (piece_of c) [Chunk.measured c]) as [Hone1 Hone2].
  { split; [rewrite <- (measured_rows c); apply app_nil_r|]. constructor; [|done].
    split; rewrite ?measured_num_rows; [by apply measured_wf|done..]. }
  destruct (_ <=? _)%nat; [by split_and!; [| |left]|]. destruct (negb _ && _ && _); [by split_and!; [| |left]|].
  destruct (ChunkSplit.split_loop_spec new_ids (Chunk.measured c) (ChunkSplit.target_rows (Chunk.measured c) size cfg)
    (Chunk.num_rows (Chunk.measured c)) 0 0) as [Hj Hall]; [by apply measured_wf|unfold ChunkSplit.target_rows; lia|lia|lia|].
  rewrite <- (measured_rows c).
  split_and!; [done| |right; apply split_loop_drawn].
  eapply Forall_impl; [exact Hall|]. rewrite measured_num_rows. intros p (Hwp & Hs & Hr & ?).
  split; [done|by eapply same_shape_trans|lia|done].
Qed.

(** ** The loop that splits the pieces again *)

Context (new_id : Draw -> ChunkId.t).

(** The ids drawn for [x] are all different, and none is its own. *)
Definition distinct_draws x : Prop :=
  (forall d d', within x d -> within x d' -> new_id d = new_id d' -> d = d')
  /\ forall d, within x d -> Chunk.id x <> new_id d.

(** What the pieces of [x] are before a round. *)
Record cut x (round : nat) (l : list Chunk.t) : Prop := {
  cut_rows : mjoin (rows <$> l) = rows x;
  cut_pieces : Forall (piece_of x) l;
  cut_distinct : NoDup (Chunk.id <$> l);
  cut_drawn : Forall (fun p => whole x p \/ drawn new_id x (fun r _ => (r < round)%nat) p) l;
}.

Lemma pieces_length x l : mjoin (rows <$> l) = rows x -> Forall (piece_of x) l -> (length l <= Chunk.num_rows x)%nat.
Proof.
  rewrite <- length_rows. intros <-. induction 1 as [|p l [_ _ Hp _] Hl IH]; [done|].
  change (mjoin (rows <$> p :: l)) with (rows p ++ mjoin (rows <$> l)). rewrite length_app, length_rows. simpl. lia.
Qed.

Lemma descends_from_a_compaction_unknown st id : lineage_of st !! id = None ->
  StoreWrites.descends_from_a_compaction st id = Done false.
Proof.
  intros Hid. unfold StoreWrites.descends_from_a_compaction, StoreWrites.ended, Lineage.descends_from_a_compaction.
  cbn [Lineage.descends_from_a_compaction_rec]. unfold Lineage.direct_lineage. by rewrite Hid.
Qed.

Lemma piece_trans a b c : piece_of a b -> piece_of b c -> piece_of a c.
Proof. intros [_ Hs1 _ Hn1] [Hw Hs2 Hn Hn2]. split; [done|by eapply same_shape_trans|done|lia]. Qed.

Context `{!SizeLaws} `{!HashOrderLaws}.

Section Rounds.

Context (st : ChunkStore.t) (x : Chunk.t).
Context (Hx : StoreWrites.descends_from_a_compaction st (Chunk.id x) = Done false).
Context (Hnew : forall d, within x d -> lineage_of st !! new_id d = None).
Context (Hdraws : distinct_draws x).

(** The pieces that a round makes of one of the chunks. *)
Lemma round_pieces round position c : piece_of x c -> (round <= Chunk.num_rows x)%nat -> (position < Chunk.num_rows x)%nat ->
  let pieces := ChunkSplit.split_chunk_if_needed (fun piece => new_id (SplitDraw round position piece)) c (StoreWrites.split_config st) in
  mjoin (rows <$> pieces) = rows c /\ Forall (piece_of c) pieces
  /\ Forall (fun p => whole c p \/ drawn new_id x (fun r k => r = round /\ k = position) p) pieces
  /\ NoDup (Chunk.id <$> pieces).
Proof.
  intros Hc Hround Hpos. destruct Hdraws as [Hinj _].
  destruct (split_chunk_pieces (fun piece => new_id (SplitDraw round position piece)) c (StoreWrites.split_config st)
    (piece_wf _ _ Hc) (piece_rows _ _ Hc)) as (Hr1 & Hp1 & Hd1).
  set (pieces := ChunkSplit.split_chunk_if_needed _ _ _) in *.
  assert (length pieces <= Chunk.num_rows x)%nat as Hlen.
  { etransitivity; [by apply (pieces_length c)|]. apply piece_num_rows, Hc. }
  assert (forall j, j ∈ seq 0 (length pieces) -> within x (SplitDraw round position j)) as Hw.
  { intros j Hj%elem_of_seq. split_and!; lia. }
  split_and!; [done|done|..]; (destruct Hd1 as [->|[Hids Hheap]]; [first [apply NoDup_singleton|apply Forall_singleton; left; apply whole_measured]|]).
  - apply Forall_forall. intros p Hin. right. rewrite Forall_forall in Hheap. split; [by apply sized_uncached, Hheap|].
    assert (Chunk.id p ∈ (fun piece => new_id (SplitDraw round position piece)) <$> seq 0 (length pieces)) as (j & -> & Hj)%list_elem_of_fmap
      by (rewrite <- Hids; by apply list_elem_of_fmap_2).
    exists round, position, j. split_and!; [|done..]. by apply Hw.
  - rewrite Hids. apply NoDup_fmap_2_strong; [|apply NoDup_seq]. intros i j Hi Hj Hij%Hinj; [|by apply Hw..]. by injection Hij.
Qed.

Lemma split_round_ok round l : forall position, Forall (piece_of x) l -> NoDup (Chunk.id <$> l) ->
  Forall (fun p => whole x p \/ drawn new_id x (fun r _ => (r < round)%nat) p) l ->
  (round <= Chunk.num_rows x)%nat -> (position + length l <= Chunk.num_rows x)%nat ->
  exists out, StoreWrites.split_round st new_id round position l = Done out
    /\ mjoin (rows <$> out) = mjoin (rows <$> l) /\ Forall (piece_of x) out /\ (length l <= length out)%nat
    /\ NoDup (Chunk.id <$> out)
    /\ Forall (fun p => (exists c, c ∈ l /\ whole c p) \/ drawn new_id x (fun r k => r = round /\ (position <= k)%nat) p) out.
Proof.
  destruct Hdraws as [Hinj Hxn]. induction l as [|c l IH]; intros position Hp Hnd Hd Hround Hpos.
  { exists []. split_and!; try done. }
  cbn [StoreWrites.split_round]. apply Forall_cons in Hp as [Hc Hp], Hd as [Hdc Hd]. cbn [length] in Hpos.
  rewrite fmap_cons in Hnd. apply NoDup_cons in Hnd as [Hni Hnd].
  assert (StoreWrites.descends_from_a_compaction st (Chunk.id c) = Done false) as ->.
  { destruct Hdc as [(-> & _)|(_ & r & k & j & ? & _ & ->)]; [done|]. by apply descends_from_a_compaction_unknown, Hnew. }
  cbn [mbind outcome_bind]. destruct (IH (S position) Hp Hnd Hd) as (out & -> & Hr & Hpo & Hlen & Hndo & Hdo); [done|lia|].
  cbn [mbind outcome_bind]. eexists. split; [done|].
  destruct (round_pieces round position c Hc Hround ltac:(lia)) as (Hr1 & Hp1 & Hd2 & Hnd1).
  set (pieces := ChunkSplit.split_chunk_if_needed _ _ _) in *.
  assert (forall q, q ∈ out -> forall p, p ∈ pieces -> Chunk.id p <> Chunk.id q) as Hdisj.
  { intros q Hq p Hpin Hid. rewrite Forall_forall in Hdo, Hd2, Hd.
    assert (forall r k j, within x (SplitDraw r k j) -> Chunk.id c = new_id (SplitDraw r k j) -> (r < round)%nat) as Hcr.
    { intros r k j Hw E. destruct Hdc as [(E' & _)|(_ & r' & k' & j' & Hw' & Hlt & E')]; [destruct (Hxn (SplitDraw r k j)); [done|congruence]|].
      rewrite E' in E. apply Hinj in E; [|done..]. injection E as -> _ _. done. }
    destruct (Hdo q Hq) as [(d & Hdl & Hdq & _)|(_ & r & k & j & Hw & [-> Hk] & Eq)],
      (Hd2 p Hpin) as [(Hcp & _)|(_ & r' & k' & j' & Hw' & [-> ->] & Ep)].
    - apply Hni. rewrite <- Hcp, Hid, Hdq. by apply list_elem_of_fmap_2.
    - rewrite Hdq in Hid. destruct (Hd d Hdl) as [(Eq & _)|(_ & r2 & k2 & j2 & Hw2 & Hlt & Eq)];
        [by destruct (Hxn (SplitDraw round position j')); congruence|].
      rewrite Ep, Eq in Hid. apply Hinj in Hid; [|done..]. injection Hid as -> _ _. lia.
    - rewrite Hcp, Eq in Hid. apply Hcr in Hid; [lia|done].
    - rewrite Ep, Eq in Hid. apply Hinj in Hid; [|done..]. injection Hid as -> _. lia. }
  split_and!.
  - rewrite fmap_app, join_app, Hr1, Hr. done.
  - apply Forall_app. split; [|done]. eapply Forall_impl; [exact Hp1|]. intros p. by apply piece_trans.
  - rewrite length_app. destruct pieces; [|simpl; lia]. destruct Hc as [_ _ Hcn _]. rewrite <- length_rows, <- Hr1 in Hcn. done.
  - rewrite fmap_app. apply NoDup_app. split_and!; [done| |done].
    intros i (p & -> & Hpin)%list_elem_of_fmap (q & Hid & Hq)%list_elem_of_fmap. by apply (Hdisj q Hq p Hpin).
  - apply Forall_app. split; (eapply Forall_impl; [eassumption|]).
    + intros p [Hp'|Hp']; [left; exists c; split; [left|done]|right]. eapply drawn_weaken; [exact Hp'|apply whole_refl|]. by intros ? ? [-> ->].
    + intros p [(d & ? & ?)|Hp']; [left; exists d; split; [by right|done]|right].
      eapply drawn_weaken; [exact Hp'|apply whole_refl|]. intros ? ? [-> ?]. split; [done|lia].
Qed.

Lemma split_rounds_ok fuel : forall round l, cut x round l ->
  (1 <= round <= length l)%nat -> (Chunk.num_rows x - length l < fuel)%nat ->
  exists out round', StoreWrites.split_rounds fuel st new_id round l = Done out /\ cut x round' out.
Proof.
  induction fuel as [|fuel IH]; intros round l [Hr Hp Hnd Hd] Hround Hf; [lia|]. cbn [StoreWrites.split_rounds].
  pose proof (pieces_length x l Hr Hp) as Hpl.
  destruct (split_round_ok round l 0 Hp Hnd Hd) as (out & -> & Hr' & Hp' & Hlen & Hnd' & Hd'); [lia|lia|]. cbn [mbind outcome_bind].
  assert (cut x (S round) out) as Hcut.
  { split; [congruence|done|done|]. rewrite Forall_forall in Hd. eapply Forall_impl; [exact Hd'|].
    intros p [(c & Hin & Hcp)|Hp2]; [destruct (Hd c Hin) as [?|?]; [left; by eapply whole_trans|right]|right].
    - eapply drawn_weaken; [done|exact Hcp|]. simpl. lia.
    - eapply drawn_weaken; [exact Hp2|apply whole_refl|]. simpl. lia. }
  destruct (Nat.eqb_spec (length out) (length l)); [by exists out, (S round)|].
  apply IH; [done|lia|]. pose proof (pieces_length x out (cut_rows _ _ _ Hcut) Hp'). lia.
Qed.

Lemma split_recursively_ok : chunk_wf x -> Chunk.num_rows x <> 0%nat ->
  exists out round, StoreWrites.split_recursively st new_id x = Done out /\ cut x round out.
Proof.
  intros Hw Hn. unfold StoreWrites.split_recursively.
  assert (piece_of x x) as Hself by (split; [done|apply same_shape_refl|done|done]).
  destruct (round_pieces 0 0 x Hself) as (Hr & Hp & Hd & Hnd); [lia|lia|].
  set (pieces := ChunkSplit.split_chunk_if_needed _ _ _) in *. apply split_rounds_ok; [| |lia].
  - split; [done|done|done|]. eapply Forall_impl; [exact Hd|]. intros p [?|Hp']; [by left|right].
    eapply drawn_weaken; [exact Hp'|apply whole_refl|]. simpl. lia.
  - destruct pieces as [|p l]; [|simpl; lia]. rewrite <- length_rows, <- Hr in Hn. done.
Qed.

End Rounds.

(** ** Inserting the pieces *)

(** The pieces of a chunk that was split, and measured. *)
Record split_of x (pieces : list Chunk.t) : Prop := {
  so_rows : mjoin (rows <$> pieces) = rows x;
  so_pieces : Forall (piece_of x) pieces;
  so_distinct : NoDup (Chunk.id <$> pieces);
  so_storable : Forall storable pieces;
  so_ids : Chunk.id x ∉ Chunk.id <$> pieces;
  so_measured : Forall (fun p => Chunk.measured p = p) pieces;
}.

Lemma mjoin_rows_elem p l : p ∈ l -> exists a b, mjoin (rows <$> l) = a ++ rows p ++ b.
Proof.
  intros (l1 & l2 & ->)%list_elem_of_split. rewrite fmap_app, join_app, fmap_cons.
  by exists (mjoin (rows <$> l1)), (mjoin (rows <$> l2)).
Qed.

Lemma piece_sorted x p a b : chunk_wf x -> chunk_wf p -> rows x = a ++ rows p ++ b ->
  Chunk.is_sorted x = true -> Chunk.is_sorted p = true.
Proof.
  intros [Hx _] [Hp _] Hr. rewrite Hx, Hp. unfold Chunk.is_row_ids_sorted_uncached.
  rewrite <- !row_id_rows, Hr, !fmap_app, !windows_all_sorted, !sorted_app by apply _. tauto.
Qed.

(** A chunk that was cut in several pieces is not one of them. *)
Lemma cut_all_drawn x round l : cut x round l -> (1 < length l)%nat -> Forall (drawn new_id x (fun r _ => (r < round)%nat)) l.
Proof.
  intros [Hr Hp _ Hd] Hlen. apply Forall_forall. intros p Hin. rewrite Forall_forall in Hd.
  destruct (Hd p Hin) as [(_ & Hpx & _)|]; [exfalso|done].
  apply list_elem_of_split in Hin as (l1 & l2 & ->). apply Forall_app in Hp as [Hp1 [_ Hp2]%Forall_cons].
  apply (f_equal length) in Hr. rewrite fmap_app, join_app, fmap_cons in Hr.
  change (mjoin (rows p :: (rows <$> l2))) with (rows p ++ mjoin (rows <$> l2)) in Hr.
  rewrite !length_app, Hpx in Hr. rewrite length_app in Hlen. simpl in Hlen.
  destruct l1 as [|q l1].
  - destruct l2 as [|q l2]; [simpl in Hlen; lia|]. apply Forall_cons in Hp2 as [[_ _ Hq _] _].
    change (mjoin (rows <$> q :: l2)) with (rows q ++ mjoin (rows <$> l2)) in Hr. rewrite length_app, !length_rows in Hr. lia.
  - apply Forall_cons in Hp1 as [[_ _ Hq _] _].
    change (mjoin (rows <$> q :: l1)) with (rows q ++ mjoin (rows <$> l1)) in Hr. rewrite length_app, !length_rows in Hr. lia.
Qed.

Lemma fmap_measured {A} (f : Chunk.t -> A) (l : list Chunk.t) : (forall c, f (Chunk.measured c) = f c) -> f <$> (Chunk.measured <$> l) = f <$> l.
Proof. intros Hf. rewrite <- list_fmap_compose. apply list_fmap_ext. intros i c _. apply Hf. Qed.

Lemma piece_measured x p : piece_of x p -> piece_of x (Chunk.measured p).
Proof. apply (measured_cases (fun p p' => piece_of x p -> piece_of x p')); [done|]. by intros c s []. Qed.

Lemma cut_split_of x round l : storable x -> cut x round l -> (1 < length l)%nat -> distinct_draws x ->
  split_of x (Chunk.measured <$> l).
Proof.
  intros [Hwx _ _ Hsort Hz] Hcut Hlen [_ Hxn]. pose proof (cut_all_drawn x round l Hcut Hlen) as Hdrawn.
  destruct Hcut as [Hr Hpall Hnd _]. rewrite Forall_forall in Hdrawn.
  split; rewrite ?(fmap_measured rows), ?(fmap_measured Chunk.id) by (apply measured_rows || apply measured_id); rewrite ?Forall_fmap; [done| |done|..].
  - eapply Forall_impl; [exact Hpall|]. apply piece_measured.
  - apply Forall_forall. intros p Hin. rewrite Forall_forall in Hpall. destruct (Hdrawn p Hin) as [Hh _], (Hpall p Hin) as [Hwp _ Hn _].
    destruct (mjoin_rows_elem p l Hin) as (a & b & Hab). rewrite Hr in Hab.
    apply storable_measured. split; [done|done|done|by apply (piece_sorted x p a b)|].
    intros Hzp. apply Hz. rewrite <- row_id_rows, Hab, !fmap_app, row_id_rows. apply elem_of_app. right. apply elem_of_app. by left.
  - intros (p & Hid & Hin)%list_elem_of_fmap.
    destruct (Hdrawn p Hin) as (_ & r & k & j & Hw & _ & E). apply (Hxn (SplitDraw r k j)); [done|congruence].
  - apply Forall_forall. intros p _. apply measured_measured.
Qed.

Definition siblings (pieces : list Chunk.t) p : list Chunk.t :=
  List.filter (fun c => negb (bool_decide (Chunk.id c = Chunk.id p))) pieces.

Lemma elem_of_siblings pieces p i : i ∈ Chunk.id <$> siblings pieces p <-> i ∈ Chunk.id <$> pieces /\ i <> Chunk.id p.
Proof.
  unfold siblings. split.
  - intros (c & -> & [Hin Hne%negb_true_iff%bool_decide_eq_false]%elem_of_filter_bool)%list_elem_of_fmap.
    split; [by apply list_elem_of_fmap_2|done].
  - intros [(c & -> & Hin)%list_elem_of_fmap Hne]. apply list_elem_of_fmap_2, elem_of_filter_bool.
    split; [done|]. by rewrite bool_decide_false.
Qed.

Lemma family_members pieces p i : p ∈ pieces -> i ∈ Chunk.id p :: (Chunk.id <$> siblings pieces p) <-> i ∈ Chunk.id <$> pieces.
Proof.
  intros Hin. rewrite elem_of_cons, elem_of_siblings. split.
  - intros [->|[? _]]; [by apply list_elem_of_fmap_2|done].
  - intros Hi. destruct (decide (i = Chunk.id p)); [by left|by right].
Qed.

(** The state after the pieces [done], before those of [todo]. *)
Record splitting st0 cs x (pieces done todo : list Chunk.t) st : Prop := {
  spl_ok : store_almost_ok (match done with [] => {[Chunk.id x]} | _ => ∅ end) st (rev done ++ cs) [];
  spl_wf : wf_chunks st;
  spl_parent_physical : physical st !! Chunk.id x = None;
  spl_parent : exists l, lineage_of st !! Chunk.id x = Some l /\ is_root (lineage l);
  spl_done p : p ∈ done -> exists l, lineage_of st !! Chunk.id p = Some l
    /\ lineage l = SplitFrom (Chunk.id x) (Chunk.id <$> siblings pieces p);
  spl_todo p : p ∈ todo -> lineage_of st !! Chunk.id p = None /\ physical st !! Chunk.id p = None /\ not_static st (Chunk.id p);
  spl_others p i l : p ∈ pieces -> lineage_of st !! i = Some l -> i ∉ Chunk.id <$> done ->
    Chunk.id p ∉ Lineage.iter_referenced_chunks (lineage l) /\ Chunk.id p ∉ siblings_of (lineage l);
  spl_physical : all_physical st0 cs -> all_physical st (rev done ++ cs);
  spl_rows path : temporal_rows path st ≡ₚ (if decide (Chunk.entity_path x = path) then mjoin (rows <$> done) else []) ++ temporal_rows path st0;
  spl_refs : Z.of_nat (refs_of st + length todo) + 4 < 2 ^ 32;
  spl_new i c : physical st !! i = Some c -> physical st0 !! i = Some c \/ c ∈ done;
  spl_kept : physical st0 ⊆ physical st;
}.

Lemma descends_from_split st id l parent sibs : lineage_of st !! id = Some l -> lineage l = SplitFrom parent sibs ->
  StoreWrites.descends_from_a_split st id = Done true.
Proof.
  intros Hl El. unfold StoreWrites.descends_from_a_split, Lineage.descends_from_a_split.
  cbn [Lineage.descends_from_a_split_rec]. unfold Lineage.direct_lineage. rewrite Hl.
  cbn [fmap option_fmap option_map]. rewrite El. unfold debug_assert. rewrite andb_false_r. by destruct debug_assertions.
Qed.

(** Lineage is recorded, and nothing else changes. *)
Lemma with_lineage_ok E E' st cs pending m' : store_almost_ok E st cs pending -> lineages_almost_ok E' (dom (physical st)) m' ->
  (forall i l, lineage_of st !! i = Some l -> exists l', m' !! i = Some l' /\ lineage l' = lineage l) ->
  store_almost_ok E' (StoreWrites.with_chunks_lineage st m') cs pending.
Proof.
  intros [Hv Hnd Hk Hrows Ht Hcons Hm Hlin Hled Hmiss Hsid Hsl Hsz Hms Hts Hss Hu] Hlin' Hkept.
  split; try done; cbn [StoreWrites.with_chunks_lineage with_lineages lineages chunks_lineage physical_chunks_per_chunk_id].
  - intros id Hin. destruct (Hled id Hin) as [l Hl]. destruct (Hkept id l Hl) as (l' & Hl' & _). by exists l'.
  - intros c Hin Hnone. destruct (Hmiss c Hin Hnone) as [(l & src & Hl & El)|?]; [left|by right].
    destruct (Hkept _ l Hl) as (l' & Hl' & El'). exists l', src. split; [done|congruence].
  - intros id c l Hc Hs Hl. destruct (ok_known _ _ _ Hlin id) as [l0 Hl0]; [apply elem_of_dom; by eexists|].
    destruct (Hkept _ l0 Hl0) as (l' & Hl' & El'). assert (l' = l) as -> by congruence. rewrite El'. by eapply Hsl.
Qed.

(** The beginning of [insert_chunk_impl] on a piece. *)
Lemma insert_piece_run depth st x p sibs nid m' : very_strict = false -> Chunk.measured p = p -> Chunk.num_rows p <> 0%nat -> Chunk.components p <> ∅ ->
  Chunk.is_row_ids_sorted p = true -> physical st !! Chunk.id p = None -> lineage_of st !! Chunk.id p = None -> led (lineages st) ->
  StoreWrites.insert_lineage_if_missing st (Chunk.id p) (Report.SplitFrom x sibs) = Done (StoreWrites.with_chunks_lineage st m') ->
  (exists l, m' !! Chunk.id p = Some l /\ lineage l = SplitFrom (Chunk.id x) (Chunk.id <$> sibs)) ->
  (exists l, m' !! Chunk.id x = Some l /\ is_root (lineage l)) ->
  StoreWrites.insert_chunk_impl (S depth) st nid p (Report.SplitFrom x sibs)
  = StoreWrites.insert_whole (StoreWrites.with_chunks_lineage st m') nid p (Report.SplitFrom x sibs) [].
Proof.
  intros Hv Hmsd Hn Hcomp Hsort Hp Hl Hled Hins (lp & Hlp & Elp) (lx & Hlx & Hroot). cbn [StoreWrites.insert_chunk_impl].
  unfold Chunk.is_empty. rewrite (bool_decide_false (_ = 0%nat)) by done. rewrite (bool_decide_false (_ = ∅)) by done.
  rewrite Hp, bool_decide_false by (by intros [? ?]). rewrite Hsort. cbn [negb]. unfold Chunk.warn_if_out_of_order.
  rewrite Hv, !andb_false_r. cbn [mbind outcome_bind].
  assert (leaky_compactions (lineages st) !! Chunk.id p = None /\ dangling_splits (lineages st) !! Chunk.id p = None) as [Hleaky Hdang].
  { split; [destruct (leaky_compactions _ !! _) eqn:E|destruct (dangling_splits _ !! _) eqn:E]; try done; exfalso;
      destruct (Hled (Chunk.id p)) as [? ?]; rewrite ?E; eauto; congruence. }
  cbn [Lineage.follow_compactions]. rewrite Hleaky. cbn [unwrap mbind outcome_bind]. cbv zeta. rewrite Hmsd.
  unfold StoreWrites.remove_leftovers, Lineage.direct_lineage. rewrite Hl. cbn [fmap option_fmap option_map mbind outcome_bind].
  rewrite Hdang. cbn [mbind outcome_bind fmap list_fmap app]. rewrite Hins. cbn [mbind outcome_bind].
  rewrite (descends_from_split (StoreWrites.with_chunks_lineage st m') (Chunk.id p) lp _ _ Hlp Elp).
  assert (StoreWrites.descends_from_a_compaction (StoreWrites.with_chunks_lineage st m') (Chunk.id p) = Done false) as ->.
  { unfold StoreWrites.descends_from_a_compaction, Lineage.descends_from_a_compaction.
    cbn [Lineage.descends_from_a_compaction_rec StoreWrites.with_chunks_lineage with_lineages lineages chunks_lineage].
    unfold Lineage.direct_lineage. rewrite Hlp. cbn [fmap option_fmap option_map]. rewrite Elp.
    assert (size m' <> 0%nat) as Hne by (intros E%map_size_empty_inv; subst; by rewrite lookup_empty in Hlp).
    destruct (size m') as [|k]; [done|]. cbn [Lineage.descends_from_a_compaction_rec]. unfold Lineage.direct_lineage.
    rewrite Hlx. cbn [fmap option_fmap option_map]. by destruct Hroot as [->|[? ->]]. }
  cbn [mbind outcome_bind]. by rewrite orb_true_r.
Qed.

Lemma insert_piece_ok depth st0 cs x pieces done p todo nid st : very_strict = false ->
  split_of x pieces -> pieces = done ++ p :: todo -> Chunk.is_static x = false -> Chunk.components x <> ∅ ->
  (forall q, q ∈ pieces -> Chunk.id q ∉ Chunk.id <$> cs) ->
  splitting st0 cs x pieces done (p :: todo) st ->
  safe (fun '(st', r) => splitting st0 cs x pieces (done ++ [p]) todo st'
          /\ r = Ok [Addition (Added p p (Report.SplitFrom x (siblings pieces p)))])
    (StoreWrites.insert_chunk_impl (S depth) st nid p (Report.SplitFrom x (siblings pieces p))).
Proof.
  intros Hv [Hr Hps Hnd Hst Hids Hmsd] Epieces Hxs Hxc Hpcs [Hok Hwf Hxp (lx & Hlx & Hroot) Hdone Htodo Hothers Hphys Hrows Hrefs Hnewp Hsub].
  assert (p ∈ pieces) as Hin by (rewrite Epieces; apply elem_of_app; right; left).
  pose proof Hps as Hps'. rewrite Forall_forall in Hps', Hst, Hmsd. destruct (Hps' p Hin) as [Hwp Hshape Hpn _]. pose proof (Hst p Hin) as Hstp.
  assert (Chunk.id p <> Chunk.id x) as Hpx by (intros E; apply Hids; rewrite <- E; by apply list_elem_of_fmap_2).
  destruct (Htodo p) as (Hlp & Hpp & Hns); [left|].
  assert (forall q, q ∈ todo -> Chunk.id q <> Chunk.id p) as Hpt.
  { intros q Hq E. rewrite Epieces, fmap_app, fmap_cons in Hnd. apply NoDup_app in Hnd as (_ & _ & [Hn _]%NoDup_cons).
    apply Hn. rewrite <- E. by apply list_elem_of_fmap_2. }
  assert (forall q, q ∈ done -> Chunk.id q <> Chunk.id p) as Hpd.
  { intros q Hq E. rewrite Epieces, fmap_app, fmap_cons in Hnd. apply NoDup_app in Hnd as (_ & Hn & _).
    apply (Hn (Chunk.id p)); [rewrite <- E; by apply list_elem_of_fmap_2|left]. }
  assert (forall i l, lineage_of st !! i = Some l -> i ∈ Chunk.id <$> done -> exists q, q ∈ done /\ i = Chunk.id q
    /\ lineage l = SplitFrom (Chunk.id x) (Chunk.id <$> siblings pieces q)) as Hd.
  { intros i l Hl (q & -> & Hq)%list_elem_of_fmap. destruct (Hdone q Hq) as (l' & Hl' & E). exists q. split_and!; congruence. }
  set (new := SplitFrom (Chunk.id x) (Chunk.id <$> siblings pieces p)).
  destruct (record_ok _ _ _ (Chunk.id p) new (ok_lineages _ _ _ _ Hok)) as (m' & Hrun & Hlin' & Hnew & Hold & Hrefs').
  { split_and!; [done|by apply not_elem_of_dom|]. intros i l Hl. destruct (decide (i ∈ Chunk.id <$> done)) as [Hi|Hi].
    - destruct (Hd i l Hl Hi) as (q & _ & _ & ->). cbn. by intros [?|?%elem_of_nil]%elem_of_cons.
    - by apply (Hothers p i l Hin Hl Hi). }
  { cbn. by intros [?|?%elem_of_nil]%elem_of_cons. }
  { split; [cbn; rewrite elem_of_siblings; tauto|]. intros s ls Hs Hkin.
    assert (s ∈ Chunk.id <$> done) as Hsd.
    { destruct (decide (s ∈ Chunk.id <$> done)) as [|Hn]; [done|exfalso]. destruct Hkin as [Hk|Hk].
      - apply elem_of_siblings in Hk as [(q & -> & Hq)%list_elem_of_fmap Hne]. rewrite Epieces in Hq.
        apply elem_of_app in Hq as [Hq|[->|Hq]%elem_of_cons]; [apply Hn; by apply list_elem_of_fmap_2|done|].
        destruct (Htodo q) as (? & _); [by right|]. congruence.
      - by destruct (Hothers p s ls Hin Hs Hn). }
    destruct (Hd s ls Hs Hsd) as (q & Hq & -> & El). exists (Chunk.id x), (Chunk.id <$> siblings pieces p), (Chunk.id <$> siblings pieces q).
    split_and!; [done|done|]. intros i. rewrite !family_members; [done|done|]. rewrite Epieces. apply elem_of_app. by left. }
  { intros q l Hq _ _. apply elem_of_cons in Hq as [->|Hq]; [by apply not_elem_of_dom|by apply elem_of_nil in Hq]. }
  { cbn. simpl in Hrefs. lia. }
  assert (({[Chunk.id p]} ∪ (match done with [] => {[Chunk.id x]} | _ => ∅ end) ∖ list_to_set (Lineage.iter_referenced_chunks new) : gset ChunkId.t)
    = {[Chunk.id p]}) as HE by (destruct done; set_solver).
  rewrite HE in Hlin'.
  assert (forall i l, lineage_of st !! i = Some l -> exists l', m' !! i = Some l' /\ lineage l' = lineage l) as Hkept.
  { intros i l Hl. rewrite Hold by congruence. rewrite Hl. by eexists. }
  pose proof (with_lineage_ok _ _ _ _ _ m' Hok Hlin' Hkept) as Hok1.
  rewrite (insert_piece_run depth st x p (siblings pieces p) nid m'); [|done|by apply Hmsd|done| |apply Hstp|done|done|by apply (ok_led _ _ _ _ Hok)|..].
  2:{ intros E. by apply Hxc, (same_shape_components x p Hshape). }
  2:{ unfold StoreWrites.insert_lineage_if_missing. cbn [Report.direct]. fold new. by rewrite Hrun. }
  2:{ by rewrite Hnew; eexists. }
  2:{ destruct (Hkept _ _ Hlx) as (l' & Hl' & E). exists l'. split; [done|by rewrite E]. }
  eapply safe_weaken; [apply (insert_alone_ok {[Chunk.id p]} _ (rev done ++ cs) p
    (Tracked new 0 (Lineage.inherits_manifest (lineage_of st) new)) nid _ [] Hok1)|].
  - set_solver.
  - exact Hnew.
  - done.
  - done.
  - intros (q & Hq & [Hqd|Hqc]%elem_of_app)%list_elem_of_fmap.
    + apply (Hpd q); [by apply list_elem_of_In, in_rev, list_elem_of_In|done].
    + apply (Hpcs p Hin). rewrite Hq. by apply list_elem_of_fmap_2.
  - done.
  - done.
  - by apply Hmsd.
  - cbn [StoreWrites.with_chunks_lineage with_lineages lineages chunks_lineage]. rewrite Hrefs'. cbn. simpl in Hrefs. lia.
  - by rewrite (same_shape_static x p).
  - intros id _. unfold StoreWrites.compact, StoreWrites.find_and_elect_compaction_candidate.
    set (st1 := with_ids _ _ _ _). rewrite (descends_from_split st1 (Chunk.id p) _ _ _ Hnew eq_refl). done.
  - intros [st' r] (-> & Hok' & Hp' & Hse & Hrf & Hcf & Hsids & _). split; [|done].
    cbn [StoreWrites.with_chunks_lineage with_lineages lineages chunks_lineage physical_chunks_per_chunk_id
      static_chunk_ids_per_entity] in *.
    assert (forall i l', lineage_of st' !! i = Some l' -> i <> Chunk.id p ->
      exists l, lineage_of st !! i = Some l /\ lineage l' = lineage l) as Hback.
    { intros i l' Hl' Hne. specialize (Hse i). rewrite Hl', Hold in Hse by done.
      destruct (lineage_of st !! i) as [l|]; [|done]. exists l. split; [done|by destruct Hse]. }
    assert (forall i l, lineage_of st !! i = Some l -> exists l', lineage_of st' !! i = Some l' /\ lineage l' = lineage l) as Hfwd.
    { intros i l Hl. destruct (Hkept i l Hl) as (l1 & Hl1 & E1). specialize (Hse i). rewrite Hl1 in Hse.
      destruct (lineage_of st' !! i) as [l'|]; [|done]. exists l'. split; [done|]. destruct Hse. congruence. }
    split.
    + rewrite rev_app_distr. by destruct done.
    + unfold wf_chunks. rewrite Hp'. apply map_Forall_insert_2; [by apply storable_kept|done].
    + by rewrite Hp', lookup_insert_ne.
    + destruct (Hfwd _ _ Hlx) as (l' & Hl' & E). exists l'. split; [done|by rewrite E].
    + intros q [Hq| ->%list_elem_of_singleton]%elem_of_app.
      * destruct (Hdone q Hq) as (l & Hl & E). destruct (Hfwd _ _ Hl) as (l' & Hl' & E'). exists l'. split; congruence.
      * specialize (Hse (Chunk.id p)). rewrite Hnew in Hse. destruct (lineage_of st' !! Chunk.id p) as [l'|]; [|done].
        exists l'. split; [done|by destruct Hse].
    + intros q Hq. destruct (Htodo q) as (Hlq & Hpq & Hnq); [by right|]. split_and!.
      * destruct (lineage_of st' !! Chunk.id q) as [l'|] eqn:E; [|done]. destruct (Hback _ _ E) as (l & Hl & _); [by apply Hpt|congruence].
      * rewrite Hp', lookup_insert_ne; [done|]. by apply not_eq_sym, Hpt.
      * unfold not_static. by rewrite Hsids.
    + intros q i l Hq Hl Hni. rewrite fmap_app, elem_of_app in Hni. cbn [fmap list_fmap] in Hni. rewrite list_elem_of_singleton in Hni.
      destruct (Hback i l Hl) as (l0 & Hl0 & ->); [tauto|]. apply (Hothers q i l0 Hq Hl0). tauto.
    + intros Hall. rewrite rev_app_distr. apply (all_physical_insert st st' (rev done ++ cs) p); [auto| |done].
      intros (q & Hq & [Hqd|Hqc]%elem_of_app)%list_elem_of_fmap.
      * apply (Hpd q); [by apply list_elem_of_In, in_rev, list_elem_of_In|done].
      * apply (Hpcs p Hin). rewrite Hq. by apply list_elem_of_fmap_2.
    + intros path. rewrite (temporal_rows_insert _ st' p Hp' Hpp), new_rows_temporal by (by rewrite (same_shape_static x p)).
      change (temporal_rows path (StoreWrites.with_chunks_lineage st m')) with (temporal_rows path st).
      rewrite Hrows. destruct Hshape as [-> _]. case_decide; [|done].
      rewrite fmap_app, join_app. change (mjoin (rows <$> [p])) with (rows p ++ []). rewrite app_nil_r.
      by rewrite Permutation_app_swap_app, app_assoc.
    + rewrite Hrf, Hrefs'. cbn. simpl in Hrefs. lia.
    + intros i c. rewrite Hp', elem_of_app, list_elem_of_singleton.
      intros [[<- <-]|[_ Hc]]%lookup_insert_Some; [tauto|]. destruct (Hnewp i c Hc); tauto.
    + etransitivity; [exact Hsub|]. rewrite Hp'. by apply insert_subseteq.
Qed.

Definition piece_diff x (pieces : list Chunk.t) p : ChunkStoreDiff :=
  Addition (Added x p (Report.SplitFrom x (siblings pieces p))).

Lemma insert_splits_ok depth nid st0 cs x pieces : very_strict = false ->
  split_of x pieces -> Chunk.is_static x = false -> Chunk.components x <> ∅ -> (forall q, q ∈ pieces -> Chunk.id q ∉ Chunk.id <$> cs) ->
  forall todo position done st diffs, pieces = done ++ todo -> splitting st0 cs x pieces done todo st ->
  safe (fun '(st', r) => splitting st0 cs x pieces pieces [] st' /\ r = Ok (diffs ++ (piece_diff x pieces <$> todo)))
    (StoreWrites.insert_splits (fun position self => StoreWrites.insert_chunk_impl (S depth) self (nid position))
       st x pieces position todo diffs).
Proof.
  intros Hv Hso Hxs Hxc Hpcs todo.
  induction todo as [|p todo IH]; intros position done st diffs Epieces Hspl; cbn [StoreWrites.insert_splits].
  { apply safe_done. rewrite app_nil_r in *. by rewrite Epieces at 2. }
  pose proof (insert_piece_ok depth st0 cs x pieces done p todo (nid position) st Hv Hso Epieces Hxs Hxc Hpcs Hspl) as Hone.
  fold (siblings pieces p). destruct (StoreWrites.insert_chunk_impl (S depth) st (nid position) p _) as [[st1 r1]|]; [|exact Hone].
  destruct Hone as [Hspl1 ->]. cbn [mbind outcome_bind].
  eapply safe_weaken; [apply (IH (S position) (done ++ [p]) st1); [by rewrite <- app_assoc|done]|].
  intros [st' r] [Hspl' ->]. split; [done|]. by rewrite <- app_assoc.
Qed.

Lemma delta_rows_pieces x pieces l : delta_rows (piece_diff x pieces <$> l) = mjoin (rows <$> l).
Proof. induction l as [|p l IH]; [done|]. unfold delta_rows in *. rewrite !fmap_cons. cbn [mbind list_bind]. by rewrite IH. Qed.

Lemma pieces_reported st st' x pieces : Forall (piece_of x) pieces ->
  (forall i c, physical st' !! i = Some c -> physical st !! i = Some c \/ c ∈ pieces) ->
  physical st ⊆ physical st' ->
  reported st st' x (piece_diff x pieces <$> pieces).
Proof.
  intros Hps Hnew Hsub. rewrite Forall_forall in Hps. split.
  - intros add (p & [= ->] & Hp)%list_elem_of_fmap. destruct (Hps p Hp) as [Hw (Hpath & _) _ _].
    unfold addition_ok, delta_chunk. cbn [direct_lineage chunk_before_processing chunk_after_processing]. by split_and!.
  - intros i c Hc. destruct (Hnew i c Hc) as [|Hp]; [by left|right]. exists (Added x c (Report.SplitFrom x (siblings pieces c))). split; [|done].
    by apply (list_elem_of_fmap_2 (piece_diff x pieces)).
  - intros i c Hc _. left. by eapply lookup_weaken.
Qed.

(** ** A chunk whose lineage is recorded *)

Lemma descends_from_root st id l : lineage_of st !! id = Some l -> is_root (lineage l) ->
  StoreWrites.descends_from_a_split st id = Done false /\ StoreWrites.descends_from_a_compaction st id = Done false.
Proof.
  intros Hl Hroot. unfold StoreWrites.descends_from_a_split, StoreWrites.descends_from_a_compaction,
    Lineage.descends_from_a_split, Lineage.descends_from_a_compaction.
  cbn [Lineage.descends_from_a_split_rec Lineage.descends_from_a_compaction_rec]. unfold Lineage.direct_lineage. rewrite Hl.
  cbn [fmap option_fmap option_map]. destruct Hroot as [->|[? ->]]; by destruct debug_assertions.
Qed.

Lemma record_splits_ok E st cs pending x pieces : store_almost_ok E st cs pending -> is_Some (lineage_of st !! Chunk.id x) ->
  store_almost_ok E (StoreWrites.record_splits st x pieces) cs pending.
Proof.
  intros [Hv Hnd Hk Hrows Ht Hcons Hm Hlin Hled Hmiss Hsid Hsl Hsz Hms Hts Hss Hu] Hx.
  split; try done. intros id [Hin|Hin]; cbn in *; [by apply Hled; left|].
  apply lookup_insert_is_Some in Hin as [<-|[_ Hin]]; [done|by apply Hled; right].
Qed.

(** What is left of [insert_chunk_impl] once the lineage is recorded. *)
Definition insert_recorded (depth : nat) st x (lineage : Report.t) (diffs : list ChunkStoreDiff)
    : outcome (ChunkStore.t * result (list ChunkStoreDiff) ChunkStoreError) :=
  chunk_descends_from_split ← StoreWrites.descends_from_a_split st (Chunk.id x);
  chunk_descends_from_compaction ← StoreWrites.descends_from_a_compaction st (Chunk.id x);
  if Chunk.is_static x || chunk_descends_from_split || chunk_descends_from_compaction
  then StoreWrites.insert_whole st new_id x lineage diffs
  else
    split_chunks ← StoreWrites.split_recursively st new_id x;
    let split_chunks := Chunk.measured <$> split_chunks in
    if (1 <? length split_chunks)%nat then
      StoreWrites.insert_splits (fun position self => StoreWrites.insert_chunk_impl depth self (fun draw => new_id (PieceDraw position draw)))
        (StoreWrites.record_splits st x split_chunks) x split_chunks 0 split_chunks diffs
    else StoreWrites.insert_whole st new_id x lineage diffs.

Context (Hvs : very_strict = false).

Lemma insert_recorded_ok depth st cs x diffs : announced st cs x -> (forall d, within x d -> fresh st cs (new_id d)) ->
  distinct_draws x -> (exists l, lineage_of st !! Chunk.id x = Some l /\ is_root (lineage l)) ->
  Chunk.components x <> ∅ -> compacts st x ->
  Z.of_nat (refs_of st + Chunk.num_rows x) + 4 < 2 ^ 32 ->
  safe (inserted st cs x diffs) (insert_recorded (S depth) st x Report.Volatile diffs).
Proof.
  intros Hann Hfresh Hxn (l & Hl & Hroot) Hxc Hpads Hroom. unfold insert_recorded.
  destruct (descends_from_root st (Chunk.id x) l Hl Hroot) as [-> Hdc]. rewrite Hdc. cbn [mbind outcome_bind].
  rewrite !orb_false_r. destruct (Chunk.is_static x) eqn:Hxs; [apply (insert_whole_static_ok st cs x); eauto; done|].
  destruct (ann_storable _ _ _ Hann) as [Hwx Hnx _ _ _].
  destruct (split_recursively_ok st x Hdc) as (l0 & round & -> & Hcut); [intros d Hw; by destruct (Hfresh d Hw)|done|done|done|].
  cbn [mbind outcome_bind]. cbv zeta. rewrite length_fmap. destruct (Nat.ltb_spec 1 (length l0)).
  2:{ apply (insert_whole_ok st cs x); try done; by apply Hfresh. }
  pose proof (cut_split_of x round l0 (ann_storable _ _ _ Hann) Hcut ltac:(done) Hxn) as Hso.
  set (pieces := Chunk.measured <$> l0) in *.
  assert (1 < length pieces)%nat as Hlen by (unfold pieces; by rewrite length_fmap).
  assert (forall p, p ∈ pieces -> fresh st cs (Chunk.id p)) as Hpf.
  { intros p (q & -> & Hin)%list_elem_of_fmap. rewrite measured_id. pose proof (cut_all_drawn x round l0 Hcut ltac:(done)) as Hd.
    rewrite Forall_forall in Hd. destruct (Hd q Hin) as (_ & r & k & j & Hw & _ & ->). by apply Hfresh. }
  eapply safe_weaken.
  - apply (insert_splits_ok depth (fun position draw => new_id (PieceDraw position draw)) st cs x pieces Hvs Hso Hxs Hxc)
      with (done := []); [intros p Hin; by apply Hpf|done|].
    destruct Hann as [Hok Hwf _ Hp Hcs _ _ _ _]. split; try done.
    + by apply record_splits_ok.
    + by exists l.
    + intros p Hin. by apply elem_of_nil in Hin.
    + intros p Hin. by destruct (Hpf p Hin).
    + intros p i li Hin Hli _. by apply (fresh_references _ _ _ (Hpf p Hin) i).
    + intros path. by case_decide.
    + pose proof (pieces_length x pieces (so_rows _ _ Hso) (so_pieces _ _ Hso)). cbn. lia.
    + intros i c Hc. by left.
  - intros [st' r] [[Hok' Hwf' _ _ _ _ _ Hphys' Hrows' _ Hnew' Hsub'] ->]. exists (rev pieces ++ cs), (piece_diff x pieces <$> pieces).
    cbn [fst snd]. split_and!; [done| |done|done| | |].
    + by destruct pieces; [simpl in *; lia|].
    + intros path. by rewrite Hrows', (so_rows _ _ Hso), new_rows_temporal.
    + by rewrite delta_rows_pieces, (so_rows _ _ Hso).
    + by apply (pieces_reported st st' x pieces (so_pieces _ _ Hso)).
Qed.

(** ** A chunk that is not in memory *)

(** What a chunk that enters the store has to be, next to its store. *)
Record enterable st cs x : Prop := {
  ent_ok : store_ok st cs [];
  ent_wf : wf_chunks st;
  ent_storable : storable x;
  ent_measured : Chunk.measured x = x;
  ent_physical : physical st !! Chunk.id x = None;
  ent_lineage : fresh st cs (Chunk.id x) \/
    manifest_root (lineage_of st) (Chunk.id x) /\ Chunk.id x ∉ Chunk.id <$> cs
    /\ (Chunk.is_static x = false -> not_static st (Chunk.id x));
  ent_room : Z.of_nat (refs_of st + Chunk.num_rows x) + 4 < 2 ^ 32;
}.

Lemma more_idle E E' D m : E ⊆ E' -> lineages_almost_ok E D m -> lineages_almost_ok E' D m.
Proof. intros Hsub [Hc Hf Hi Hfl Hk Hv]. split; try done. intros id l Hl Hidle. by apply Hsub, (Hi id l). Qed.

Lemma announce_ok st cs x : enterable st cs x -> (forall d, within x d -> fresh st cs (new_id d)) -> distinct_draws x ->
  exists m', StoreWrites.insert_lineage_if_missing st (Chunk.id x) Report.Volatile = Done (StoreWrites.with_chunks_lineage st m')
    /\ let st1 := StoreWrites.with_chunks_lineage st m' in
       announced st1 cs x /\ (forall d, within x d -> fresh st1 cs (new_id d))
       /\ (exists l, lineage_of st1 !! Chunk.id x = Some l /\ is_root (lineage l)) /\ refs_of st1 = refs_of st.
Proof.
  intros [Hok Hwf Hst Hmsd Hp Hlin Hroom] Hfresh Hxn. unfold StoreWrites.insert_lineage_if_missing. cbn [Report.direct].
  pose proof (ok_lineages _ _ _ _ Hok) as Hl. destruct Hlin as [Hf|((lx & src & Hlx & El) & Hcs & Hns)].
  - destruct (record_ok _ _ _ (Chunk.id x) Volatile Hl) as (m' & Hrun & Hlin' & Hnew & Hold & Hrefs);
      [by eapply fresh_unknown|apply not_elem_of_nil|by eapply fresh_kin|by intros ? ? ?%elem_of_nil|cbn; lia|].
    rewrite Hrun. cbn [mbind outcome_bind]. exists m'. split; [done|]. set (st1 := StoreWrites.with_chunks_lineage st _).
    assert (({[Chunk.id x]} ∪ ∅ ∖ list_to_set (Lineage.iter_referenced_chunks Volatile) : gset ChunkId.t) = {[Chunk.id x]}) as HE by set_solver.
    rewrite HE in Hlin'.
    assert (forall i l', m' !! i = Some l' -> i <> Chunk.id x -> exists l, lineage_of st !! i = Some l /\ lineage l' = lineage l) as Hback.
    { intros i l' Hi Hne. rewrite Hold in Hi by done. destruct (lineage_of st !! i) as [l|]; [|done]. injection Hi as <-. by exists l. }
    split_and!.
    + split; try done.
      * apply (with_lineage_ok _ _ _ _ _ m' Hok Hlin'). intros i l Hi. rewrite Hold, Hi; [by eexists|].
        intros ->. destruct Hf. congruence.
      * eexists. split; [exact Hnew|]. intros _ i l' Hi. destruct (decide (i = Chunk.id x)) as [->|Hne].
        { assert (l' = Tracked Volatile 0 (Lineage.inherits_manifest (lineage_of st) Volatile)) as -> by (cbn in Hi; congruence).
          apply not_elem_of_nil. }
        destruct (Hback i l' Hi Hne) as (l & Hil & ->). by apply (fresh_references _ _ _ Hf i).
      * by destruct Hf.
      * intros _. by destruct Hf.
      * cbn. rewrite Hrefs. cbn. lia.
    + intros d Hwd. destruct (Hfresh d Hwd) as [Hd1 Hd2 Hd3 Hd4 Hd5]. destruct Hxn as [_ Hxn]. split; try done.
      * cbn. rewrite Hold by (by apply not_eq_sym, Hxn). by rewrite Hd1.
      * intros i l' Hi. destruct (decide (i = Chunk.id x)) as [->|Hne].
        { assert (l' = Tracked Volatile 0 (Lineage.inherits_manifest (lineage_of st) Volatile)) as -> by (cbn in Hi; congruence).
          split; apply not_elem_of_nil. }
        destruct (Hback i l' Hi Hne) as (l & Hil & ->). by apply Hd2 in Hil.
    + eexists. split; [exact Hnew|by left].
    + cbn. rewrite Hrefs. cbn. lia.
  - destruct (insert_lineage_if_missing_ok (dom (physical st)) (lineage_of st) (Chunk.id x) Volatile) as [Hsame _]; [by destruct Hl..|].
    rewrite (Hsame lx Hlx) by (right; split; [by exists src|done]). cbn [mbind outcome_bind]. exists (lineage_of st).
    split; [done|]. set (st1 := StoreWrites.with_chunks_lineage st _). split_and!; [|intros d Hwd; by destruct (Hfresh d Hwd)|exists lx; split; [done|right; by exists src]|done].
    split; try done.
    + apply (with_lineage_ok ∅ _ st); [done| |intros i l Hi; by exists l]. by apply (more_idle ∅).
    + exists lx. split; [done|]. by rewrite El.
    + cbn. lia.
Qed.

(** ** The whole of it *)

(** The error cases and those where nothing happens. *)
Lemma insert_chunk_refused st x : 
  (Lineage.is_root_chunk (lineage_of st) (Chunk.id x) = false \/ Chunk.is_empty x = true \/ Chunk.components x = ∅
     \/ is_Some (physical st !! Chunk.id x) -> StoreWrites.insert_chunk st new_id x = Done (st, Ok []))
  /\ (Lineage.is_root_chunk (lineage_of st) (Chunk.id x) = true -> Chunk.is_empty x = false -> Chunk.components x <> ∅ ->
      physical st !! Chunk.id x = None -> Chunk.is_row_ids_sorted x = false ->
      StoreWrites.insert_chunk st new_id x = Done (st, Err UnsortedChunk)).
Proof.
  unfold StoreWrites.insert_chunk. cbn [StoreWrites.insert_chunk_impl]. split.
  - intros Hor. destruct (Lineage.is_root_chunk _ _) eqn:E; [|done]. cbn [negb].
    destruct (Chunk.is_empty x); [done|]. case_bool_decide; [done|]. case_bool_decide; [done|].
    destruct Hor as [|[|[|]]]; done.
  - intros -> -> Hc -> ->. cbn [negb]. rewrite (bool_decide_false (_ = ∅)) by done.
    by rewrite bool_decide_false by (by intros [? ?]).
Qed.

(** A chunk to insert: one that nothing knows of, or one from a manifest that is not in memory
    and was not split or compacted into chunks that are. *)
Record insertable st cs x : Prop := {
  ins_storable : storable x;
  ins_components : Chunk.components x <> ∅;
  ins_known : fresh st cs (Chunk.id x) \/
    manifest_root (lineage_of st) (Chunk.id x) /\ physical st !! Chunk.id x = None
    /\ dangling_splits (lineages st) !! Chunk.id x = None
    /\ Lineage.follow_compactions (S (size (leaky_compactions (lineages st)))) (dom (physical st))
         (leaky_compactions (lineages st)) (Chunk.id x) = Some None
    /\ (forall c, c ∈ cs -> Chunk.id c = Chunk.id x -> c = x)
    /\ (Chunk.is_static x = false -> not_static st (Chunk.id x));
  ins_pads : compacts st x;
  ins_room : Z.of_nat (refs_of st + Chunk.num_rows x) + 4 < 2 ^ 32;
}.

(** What is true after the insertion of [x]. *)
Definition stored st cs x (r : ChunkStore.t * result (list ChunkStoreDiff) ChunkStoreError) : Prop :=
  exists cs' diffs, snd r = Ok diffs /\ store_ok (fst r) cs' [] /\ wf_chunks (fst r)
    /\ (all_physical st cs -> all_physical (fst r) cs')
    /\ (forall path, temporal_rows path (fst r) ≡ₚ new_rows path x ++ temporal_rows path st)
    /\ delta_rows diffs = rows x /\ reported st (fst r) x diffs.

Lemma total_le_map (f : TrackedDirectChunkLineage -> nat) (m' : gmap ChunkId.t TrackedDirectChunkLineage) : forall m,
  (forall i l', m' !! i = Some l' -> exists l, m !! i = Some l /\ (f l' <= f l)%nat) -> (Lineage.total f m' <= Lineage.total f m)%nat.
Proof.
  induction m' as [|i l' m' Hi IH] using map_ind; intros m Hsub; [unfold Lineage.total at 1; rewrite map_to_list_empty; simpl; lia|].
  rewrite total_insert_fresh by done. destruct (Hsub i l') as (l & Hl & Hle); [apply lookup_insert_eq|].
  rewrite (total_delete f m i l Hl). enough (Lineage.total f m' <= Lineage.total f (delete i m))%nat by lia.
  apply IH. intros j lj Hj. assert (j <> i) by congruence. destruct (Hsub j lj) as (l2 & Hl2 & ?); [by rewrite lookup_insert_ne|].
  exists l2. by rewrite lookup_delete_ne.
Qed.

(** What the insertion of a measured chunk asks of the chunk, it asks of the chunk itself. *)
Lemma within_measured x d : within (Chunk.measured x) d <-> within x d.
Proof. by apply (measured_cases (fun c c' => within c' d <-> within c d)). Qed.

Lemma distinct_draws_measured x : distinct_draws x -> distinct_draws (Chunk.measured x).
Proof. exact (measured_cases (fun c c' => distinct_draws c -> distinct_draws c') (fun _ Hx => Hx) (fun _ _ Hx => Hx) x). Qed.

Lemma compacts_measured st x : compacts st x -> compacts st (Chunk.measured x).
Proof. exact (measured_cases (fun c c' => compacts st c -> compacts st c') (fun _ Hx => Hx) (fun _ _ Hx => Hx) x). Qed.

Lemma inserted_measured st cs x diffs r : inserted st cs (Chunk.measured x) diffs r -> inserted st cs x diffs r.
Proof.
  intros (cs' & diffs' & Hr & Hok & Hwf & Hphys & Hrows & Hdelta & [Hadd Hnew Hgone]). exists cs', diffs'.
  rewrite measured_rows in Hdelta. setoid_rewrite new_rows_measured in Hrows.
  split_and!; [done..|split]; unfold addition_ok, compacted_into in *; rewrite measured_entity_path in *; done.
Qed.

(** So does the removal of the virtual entries of a chunk. *)
Lemma remove_virtual_measured st x reason st' dels : physical st !! Chunk.id x = None ->
  StoreGc.remove_chunks_deep st [x] reason = Done (st', dels) ->
  exists dels', StoreGc.remove_chunks_deep st [Chunk.measured x] reason = Done (st', dels').
Proof.
  revert st'. apply (measured_cases (fun c c' => forall st', physical st !! Chunk.id c = None ->
    StoreGc.remove_chunks_deep st [c] reason = Done (st', dels) ->
    exists dels', StoreGc.remove_chunks_deep st [c'] reason = Done (st', dels'))); [by eauto|].
  intros c size st1 Hc. set (c2 := Chunk.Mk _ _ _ _ _ _ _). unfold StoreGc.remove_chunks_deep, StoreGc.remove_chunks_shallow.
  cbn [StoreGc.shallow_loop StoreGc.deep_loop]. change (Chunk.id c2) with (Chunk.id c).
  change (StoreGc.remove_min_row_id st c2) with (StoreGc.remove_min_row_id st c). set (st0 := StoreGc.remove_min_row_id st c).
  assert (physical st0 !! Chunk.id c = None) as ->
    by (unfold st0, StoreGc.remove_min_row_id; by destruct (Chunk.row_id_range c) as [[? ?]|]).
  cbn [mbind outcome_bind]. change (StoreGc.remove_chunk_from_virtual_indices st0 c2) with (StoreGc.remove_chunk_from_virtual_indices st0 c).
  destruct (StoreGc.remove_chunk_from_virtual_indices st0 c) as [st2 removed]. intros [= <- _]. by eexists.
Qed.

(** Removing what is known of a virtual chunk. *)
Lemma remove_leftovers_ok st cs x : store_ok st cs [] -> wf_chunks st -> insertable st cs x -> (forall d, within x d -> fresh st cs (new_id d)) ->
  exists st1 dels cs1, StoreWrites.remove_leftovers st (Chunk.measured x) = Done (st1, Deleted <$> dels)
    /\ enterable st1 cs1 (Chunk.measured x) /\ (forall d, within x d -> fresh st1 cs1 (new_id d)) /\ physical st1 = physical st /\ (forall c, c ∈ cs1 -> c ∈ cs).
Proof.
  intros Hok Hwf [Hst Hcomp Hknown Hpads Hroom] Hfresh. unfold StoreWrites.remove_leftovers, Lineage.direct_lineage.
  rewrite measured_id. assert (forall st1 cs1, store_ok st1 cs1 [] -> wf_chunks st1 -> physical st1 !! Chunk.id x = None ->
    fresh st1 cs1 (Chunk.id x) \/ manifest_root (lineage_of st1) (Chunk.id x) /\ Chunk.id x ∉ Chunk.id <$> cs1
      /\ (Chunk.is_static x = false -> not_static st1 (Chunk.id x)) -> Z.of_nat (refs_of st1 + Chunk.num_rows x) + 4 < 2 ^ 32 ->
    enterable st1 cs1 (Chunk.measured x)) as Hent.
  { intros st1 cs1 ?????. split; rewrite ?measured_id, ?measured_is_static, ?measured_num_rows, ?measured_measured; try done.
    by apply storable_measured. }
  destruct Hknown as [Hf|(Hroot & Hp & Hdang & _ & Hsame & Hns)].
  - rewrite (fresh_lineage _ _ _ Hf). cbn [fmap option_fmap option_map mbind outcome_bind].
    destruct (dangling_splits (lineages st) !! Chunk.id x) as [ids|] eqn:E.
    { destruct (ok_led _ _ _ _ Hok (Chunk.id x)) as [lx Hlx]; [right; by eexists|]. destruct Hf. congruence. }
    exists st, [], cs. split_and!; [done| |done|done|done]. apply Hent; try done; [by destruct Hf|by left].
  - pose proof Hroot as (lx & src & Hlx & El). rewrite Hlx. cbn [fmap option_fmap option_map]. rewrite El.
    destruct (remove_chunks_deep_ok st cs [x] VirtualToPhysicalReplacement Hok) as
      (st1 & cs1 & dels & Hrun & Hok1 & (Ecf & Esi & Ess & _) & Hp1 & Hcs1 & Hshr & Hforg & _).
    { intros c c' ->%list_elem_of_singleton. congruence. }
    { intros c c' ->%list_elem_of_singleton Hc' Hid. by apply Hsame. }
    destruct (remove_virtual_measured st x _ _ _ Hp Hrun) as [dels' ->]. cbn [mbind outcome_bind].
    assert (physical st1 = physical st) as Ep.
    { apply map_eq. intros i. rewrite Hp1. case_decide as Hi; [|done]. apply list_elem_of_singleton in Hi as ->. done. }
    assert (manifest_root (lineage_of st1) (Chunk.id x)) as Hroot1
      by (eapply manifest_root_kept; [exact Hshr|exact Hforg|apply Hok|done]).
    assert (dangling_splits (lineages st1) !! Chunk.id x = None) as Hdang1.
    { destruct Hroot1 as (l1 & ? & Hl1 & _). destruct Hshr as [_ Hs]. destruct (Hs (Chunk.id x)) as [_ Hs'].
      destruct Hs' as (_ & _ & ->); [left; by eexists|done]. }
    rewrite Hdang1. cbn [mbind outcome_bind]. rewrite app_nil_r. exists st1, dels', cs1.
    assert (forall id, not_static st id -> not_static st1 id) as Hns1 by (intros id; unfold not_static; by rewrite Esi).
    split_and!; [done| | |done|by intros c [? _]%Hcs1].
    + apply Hent; [done|unfold wf_chunks; by rewrite Ep|by rewrite Ep| |].
      * right. split_and!; [done| |auto]. intros (c & Hid & [_ Hc]%Hcs1)%list_elem_of_fmap. apply Hc. rewrite <- Hid. left.
      * pose proof (total_le_map Lineage.num_references (lineage_of st1) (lineage_of st)) as Hle.
        enough (refs_of st1 <= refs_of st)%nat by lia. apply Hle. intros i l1 Hl1.
        destruct (proj1 Hshr i l1 Hl1) as (l & Hl & E & _). exists l. split; [done|]. unfold Lineage.num_references. by rewrite E.
    + intros d Hwd. destruct (Hfresh d Hwd) as [Hd1 Hd2 Hd3 Hd4 Hd5]. split; [| |by rewrite Ep| |auto].
      * destruct (lineage_of st1 !! new_id d) as [l1|] eqn:E; [|done].
        destruct (proj1 Hshr _ l1 E) as (l & Hl & _). congruence.
      * intros i l1 Hl1. destruct (proj1 Hshr i l1 Hl1) as (l & Hl & -> & _). by apply (Hd2 i l).
      * intros (c & Hid & [Hc _]%Hcs1)%list_elem_of_fmap. apply Hd4. rewrite Hid. by apply list_elem_of_fmap_2.
Qed.

Lemma delta_rows_app l k : delta_rows (l ++ k) = delta_rows l ++ delta_rows k.
Proof. apply bind_app. Qed.

Lemma delta_rows_deleted dels : delta_rows (Deleted <$> dels) = [].
Proof. induction dels as [|d dels IH]; [done|]. exact IH. Qed.

(** The beginning of [insert_chunk_impl] on a chunk that is not in memory. *)
Lemma insert_new_run depth st st1 st2 x diffs : Chunk.num_rows x <> 0%nat -> Chunk.components x <> ∅ ->
  Chunk.is_row_ids_sorted x = true -> physical st !! Chunk.id x = None ->
  Lineage.follow_compactions (S (size (leaky_compactions (lineages st)))) (dom (physical st))
    (leaky_compactions (lineages st)) (Chunk.id x) = Some None ->
  StoreWrites.remove_leftovers st (Chunk.measured x) = Done (st1, diffs) ->
  StoreWrites.insert_lineage_if_missing st1 (Chunk.id (Chunk.measured x)) Report.Volatile = Done st2 ->
  StoreWrites.insert_chunk_impl (S depth) st new_id x Report.Volatile = insert_recorded depth st2 (Chunk.measured x) Report.Volatile diffs.
Proof.
  intros Hn Hcomp Hsort Hp Hfollow Hleft Hrun. cbn [StoreWrites.insert_chunk_impl].
  unfold Chunk.is_empty. rewrite (bool_decide_false (_ = 0%nat)) by done. rewrite (bool_decide_false (_ = ∅)) by done.
  rewrite Hp, bool_decide_false by (by intros [? ?]). rewrite Hsort. cbn [negb]. unfold Chunk.warn_if_out_of_order.
  rewrite Hvs, !andb_false_r. cbn [mbind outcome_bind]. rewrite Hfollow. cbn [unwrap mbind outcome_bind]. cbv zeta.
  rewrite Hleft. cbn [mbind outcome_bind]. by rewrite Hrun.
Qed.

Lemma insert_chunk_ok st cs x : store_ok st cs [] -> wf_chunks st -> insertable st cs x ->
  (forall d, within x d -> fresh st cs (new_id d)) -> distinct_draws x ->
  safe (stored st cs x) (StoreWrites.insert_chunk st new_id x).
Proof.
  intros Hok Hwf Hins Hfresh Hxn. pose proof Hins as [[Hwx Hnx _ Hsort _] Hcomp Hknown Hpads _].
  destruct (remove_leftovers_ok st cs x Hok Hwf Hins Hfresh) as (st1 & dels & cs1 & Hleft & Hent & Hfresh1 & Ep & Hsub).
  assert (physical st !! Chunk.id x = None /\ Lineage.is_root_chunk (lineage_of st) (Chunk.id x) = true
    /\ Lineage.follow_compactions (S (size (leaky_compactions (lineages st)))) (dom (physical st))
         (leaky_compactions (lineages st)) (Chunk.id x) = Some None) as (Hp & Hroot & Hfollow).
  { unfold Lineage.is_root_chunk, Lineage.direct_lineage. destruct Hknown as [[Hf _ Hp _ _]|((l & src & Hl & El) & Hp & _ & Hfollow & _)].
    - rewrite Hf. split_and!; [done|done|]. cbn [Lineage.follow_compactions].
      destruct (leaky_compactions (lineages st) !! Chunk.id x) eqn:E; [|done].
      destruct (ok_led _ _ _ _ Hok (Chunk.id x)) as [l Hl]; [left; by eexists|]. congruence.
    - rewrite Hl. cbn [fmap option_fmap option_map]. by rewrite El. }
  assert (forall d, within (Chunk.measured x) d -> fresh st1 cs1 (new_id d)) as Hfresh1' by (intros d Hd; by apply Hfresh1, within_measured).
  apply distinct_draws_measured in Hxn.
  destruct (announce_ok st1 cs1 (Chunk.measured x) Hent Hfresh1' Hxn) as (m' & Hrun & Hann & Hfresh2 & Hrl & Hrefs).
  unfold StoreWrites.insert_chunk. rewrite Hroot. cbn [negb].
  rewrite (insert_new_run 1 st st1 _ x (Deleted <$> dels) Hnx Hcomp Hsort Hp Hfollow Hleft Hrun).
  rewrite <- (measured_components x) in Hcomp.
  pose proof (insert_recorded_ok 0 _ cs1 (Chunk.measured x) (Deleted <$> dels) Hann Hfresh2 Hxn Hrl Hcomp) as Hsafe.
  eapply safe_weaken; [apply Hsafe|].
  - apply compacts_measured. intros id c Hc. apply (Hpads id c). rewrite <- Ep. exact Hc.
  - rewrite Hrefs. apply Hent.
  - intros [st' r] (cs' & diffs' & Hr & Hok' & Hwf' & Hphys & Hrows & Hdelta & [Hrep Hnew Hgone])%inserted_measured. cbn [fst snd] in *.
    exists cs', ((Deleted <$> dels) ++ diffs'). split_and!; [done|done|done| | | |].
    + intros Hall. apply Hphys. intros c Hc. change (physical st1 !! Chunk.id c = Some c). rewrite Ep. by apply Hall, Hsub.
    + intros path. rewrite Hrows. unfold temporal_rows. cbn [StoreWrites.with_chunks_lineage with_lineages physical_chunks_per_chunk_id fst].
      by rewrite Ep.
    + by rewrite delta_rows_app, delta_rows_deleted.
    + assert (forall add, Addition add ∈ (Deleted <$> dels) ++ diffs' <-> Addition add ∈ diffs') as Hin.
      { intros add. rewrite elem_of_app. split; [|by right]. by intros [(? & ? & _)%list_elem_of_fmap|?]. }
      split; [intros add Ha%Hin; by apply Hrep|intros i c Hc..].
      * destruct (Hnew i c Hc) as [Hc0|(add & Ha & Hk)]; [left; by rewrite <- Ep|right; exists add; by rewrite Hin].
      * intros Hs. destruct (Hgone i c) as [|(add & srcs & Ha & Hk)]; [by rewrite <- Ep in Hc|done|by left|].
        right. exists add, srcs. by rewrite Hin.
Qed.

(** Splitting a chunk until its pieces need no more splitting ends, with at most one piece for
    each of its rows.  The pieces are well formed and not empty, have the columns of the chunk,
    hold its rows in their order, each exactly once, and have different ids. *)
Lemma split_recursively_spec st x (Hwf : chunk_wf x) (Hrows : Chunk.num_rows x <> 0%nat) (Hdraws : distinct_draws x)
  (Hnew : forall d, within x d -> lineage_of st !! new_id d = None)
  (Hx : StoreWrites.descends_from_a_compaction st (Chunk.id x) = Done false) :
  exists pieces, StoreWrites.split_recursively st new_id x = Done pieces
    /\ mjoin (rows <$> pieces) = rows x /\ Forall (piece_of x) pieces /\ NoDup (Chunk.id <$> pieces)
    /\ (1 <= length pieces <= Chunk.num_rows x)%nat.
Proof.
  destruct (split_recursively_ok st x Hx Hnew Hdraws Hwf Hrows) as (pieces & round & Hrun & [Hr Hp Hnd _]).
  exists pieces. split_and!; [done..| |by apply pieces_length].
  destruct pieces; [|simpl; lia]. rewrite <- length_rows, <- Hr in Hrows. done.
Qed.

(** The insertions that change nothing: of a chunk that was split or compacted from others, of
    one without rows or without columns, of one that is in memory already; and, of those that
    are left, of one whose row ids are not sorted, which is an error. *)
Lemma insert_chunk_refused_spec st x :
  (Lineage.is_root_chunk (lineage_of st) (Chunk.id x) = false \/ Chunk.is_empty x = true \/ Chunk.components x = ∅
     \/ is_Some (physical st !! Chunk.id x) -> StoreWrites.insert_chunk st new_id x = Done (st, Ok []))
  /\ (Lineage.is_root_chunk (lineage_of st) (Chunk.id x) = true -> Chunk.is_empty x = false -> Chunk.components x <> ∅ ->
      physical st !! Chunk.id x = None -> Chunk.is_row_ids_sorted x = false ->
      StoreWrites.insert_chunk st new_id x = Done (st, Err UnsortedChunk)).
Proof. apply insert_chunk_refused. Qed.

(** C14. Insertion of a chunk that the store can take: a well-formed chunk with sorted row ids that
    nothing in the store knows of, or one from a manifest that is not in memory.  A release
    build returns, and a debug build returns the same or panics on a counter.  The store keeps
    its invariant, static or temporal, split, compacted or neither: its indices, lineages,
    reference counts and statistics stay in step with the chunks in memory.  The temporal rows
    of the chunk's entity grow by the chunk's rows and those of other entities stay; the
    reported additions hold exactly the chunk's rows, and every chunk that is new in memory is
    among them. *)
Theorem insert_chunk_spec st cs x (Hok : store_ok st cs []) (Hwf : wf_chunks st) (Hx : insertable st cs x)
  (Hfresh : forall d, within x d -> fresh st cs (new_id d)) (Hdraws : distinct_draws x) :
  safe (fun '(st', r) => exists cs' diffs, r = Ok diffs /\ store_ok st' cs' [] /\ wf_chunks st'
          /\ (all_physical st cs -> all_physical st' cs')
          /\ (forall path, temporal_rows path st' ≡ₚ new_rows path x ++ temporal_rows path st)
          /\ delta_rows diffs = rows x /\ reported st st' x diffs)
    (StoreWrites.insert_chunk st new_id x).
Proof. eapply safe_weaken; [by apply (insert_chunk_ok st cs x)|]. by intros [st' r]. Qed.

End Splits.
