(* ===== verification/StoreJournal.v ===== *)
(** * Logging, collecting and querying

    What holds of every store that insertions and collections lead to: the invariant of
    [StoreInvariant], the rows that were logged, and that a latest-at query finds the latest of
    them.  The chunks may have been split and compacted on their way into the store. *)

From stdpp Require Import strings relations.
From S2P Require Import Prelude Ints TimeInt TimeRange Tuid Arrow Column Chunk ChunkSlice.
From S2P Require Import ChunkSort ChunkMerge ChunkQuery ChunkIndex Lineage StoreStats ChunkStore StoreGc StoreWrites.
From S2P Require Import StoreInvariant StoreGcSpec StoreInsertion StoreStatic StoreSplits.

Section Journal.

Import ChunkStore.
Context `{Build} `{ArrowLaws} `{!Chunk.SizeBytes} `{HashOrder}.
Implicit Types st : ChunkStore.t.
Implicit Types c x : Chunk.t.

Notation physical st := (physical_chunks_per_chunk_id st).
Notation lineage_of st := (chunks_lineage (lineages st)).
Notation refs_of st := (Lineage.total Lineage.num_references (lineage_of st)).

(** ** New chunks *)

(** An id that no part of the store mentions. *)
Record unheard st (id : ChunkId.t) : Prop := {
  unheard_lineage : lineage_of st !! id = None;
  unheard_references i l : lineage_of st !! i = Some l ->
    id ∉ Lineage.iter_referenced_chunks (lineage l) /\ id ∉ siblings_of (lineage l);
  unheard_static : not_static st id;
}.

(** Every chunk the indices know of has a lineage. *)
Lemma unheard_fresh st cs id : store_ok st cs [] -> unheard st id -> fresh st cs id.
Proof.
  intros Hok [Hl Hr Hs]. assert (physical st !! id = None) as Hp.
  { destruct (physical st !! id) eqn:E; [|done].
    destruct (ok_known _ _ _ (ok_lineages _ _ _ _ Hok) id) as [? ?]; [apply elem_of_dom; by eexists|]. congruence. }
  split; try done. intros (c & -> & Hin)%list_elem_of_fmap.
  destruct (ok_missing _ _ _ _ Hok c Hin Hp) as [(? & ? & ? & _)|?%elem_of_nil]; [congruence|done].
Qed.

(** The ids that an insertion may draw are new and all different. *)
Definition draws_new st x (new_id : Draw -> ChunkId.t) : Prop :=
  distinct_draws new_id x /\ forall d, within x d -> unheard st (new_id d).

(** A chunk that the store has not seen: sorted, with rows and columns that it can be merged
    with, under an id of its own. *)
Record new_chunk st x : Prop := {
  new_storable : storable x;
  new_components : Chunk.components x <> ∅;
  new_unheard : unheard st (Chunk.id x);
  new_pads : compacts st x;
  new_room : Z.of_nat (refs_of st + Chunk.num_rows x) + 4 < 2 ^ 32;
}.

Lemma new_insertable st cs x : store_ok st cs [] -> new_chunk st x -> insertable st cs x.
Proof. intros Hok []. split; try done. left. by apply unheard_fresh. Qed.

Lemma insert_new_ok `{!SizeLaws} `{!HashOrderLaws} st cs x new_id : very_strict = false -> store_ok st cs [] -> wf_chunks st ->
  new_chunk st x -> draws_new st x new_id -> safe (stored st cs x) (StoreWrites.insert_chunk st new_id x).
Proof.
  intros Hvs Hok Hwf Hx [Hdist Hd]. apply insert_chunk_ok; try done; [by apply new_insertable|].
  intros d Hw. apply unheard_fresh; [done|by apply Hd].
Qed.

(** ** The states of a store

    From a new store, by inserting new chunks and by collecting. *)

Inductive step st : ChunkStore.t -> Prop :=
| Insert x new_id st' diffs : new_chunk st x -> draws_new st x new_id ->
    StoreWrites.insert_chunk st new_id x = Done (st', Ok diffs) -> step st st'
| Collect options mark_exhausted sweep_exhausted st' dels freed : gc_bounds st options ->
    StoreGc.gc st options mark_exhausted sweep_exhausted = Done (st', dels, freed) -> step st st'.

Definition reachable config st : Prop := rtc step (ChunkStore.new config) st.

Context `{!SizeLaws} `{!HashOrderLaws} (Hvs : very_strict = false).

Lemma reachable_ok config st : reachable config st -> exists cs, store_ok st cs [] /\ wf_chunks st.
Proof.
  unfold reachable. generalize (ex_intro (fun cs => store_ok (ChunkStore.new config) cs [] /\ wf_chunks (ChunkStore.new config))
    [] (conj (new_store_ok config) (map_Forall_empty _))).
  intros Hstart Hr. induction Hr as [|st0 st1 st' Hs Hr IH]; [done|]. apply IH. destruct Hstart as (cs & Hok & Hwf).
  destruct Hs as [x new_id st1 diffs Hx Hd Hrun|options e1 e2 st1 dels freed Hb Hrun].
  - pose proof (insert_new_ok st0 cs x new_id Hvs Hok Hwf Hx Hd) as Hsafe. rewrite Hrun in Hsafe.
    destruct Hsafe as (cs' & diffs' & _ & Hok' & Hwf' & _). by exists cs'.
  - destruct (gc_ok st0 cs options e1 e2 Hok Hb) as (st2 & cs' & dels' & n & marked & Hrun' & _ & _ & Hok' & Hsw & _).
    assert (st2 = st1) as -> by congruence. exists cs'. split; [done|].
    intros id c Hc. apply (Hwf id c). eapply lookup_weaken; [exact Hc|]. apply (swept_subset _ _ _ _ _ _ _ Hsw).
Qed.

(** ** What was logged *)

(** The chunks that were inserted, the last one first. *)
Inductive journal (config : ChunkStoreConfig.t) : list Chunk.t -> ChunkStore.t -> Prop :=
| journal_nothing : journal config [] (ChunkStore.new config)
| journal_insert xs st x new_id st' diffs : journal config xs st -> new_chunk st x -> draws_new st x new_id ->
    StoreWrites.insert_chunk st new_id x = Done (st', Ok diffs) -> journal config (x :: xs) st'.

(** The rows that were logged for an entity with some time. *)
Definition journal_rows (path : EntityPath) (xs : list Chunk.t) : list Row := xs ≫= new_rows path.

Lemma journal_ok config xs st : journal config xs st ->
  exists cs, store_ok st cs [] /\ wf_chunks st /\ all_physical st cs
    /\ forall path, temporal_rows path st ≡ₚ journal_rows path xs.
Proof.
  induction 1 as [|xs st x new_id st' diffs _ (cs & Hok & Hwf & Hphys & Hrows) Hx Hd Hrun].
  - exists []. split_and!; [apply new_store_ok|apply map_Forall_empty|by intros c ?%elem_of_nil|]. intros path.
    unfold temporal_rows, physical_list. cbn. by rewrite map_to_list_empty.
  - pose proof (insert_new_ok st cs x new_id Hvs Hok Hwf Hx Hd) as Hsafe. rewrite Hrun in Hsafe.
    destruct Hsafe as (cs' & diffs' & _ & Hok' & Hwf' & Hphys' & Hrows' & _). exists cs'. split_and!; [done|done|auto|].
    intros path. rewrite Hrows', Hrows. done.
Qed.

(** The rows that a query may return. *)
Definition eligible (timeline component : string) (a : Z) (s : Row) : Prop :=
  is_Some (row_times s !! timeline) /\ relevant timeline a component s.

Lemma row_time_some c s timeline : chunk_wf c -> s ∈ rows c ->
  is_Some (row_times s !! timeline) <-> is_Some (Chunk.timelines c !! timeline).
Proof.
  intros (_ & Ht & _) (i & Hi)%list_elem_of_lookup_1. rewrite lookup_rows in Hi.
  destruct (Chunk.row_ids c !! i) as [id|] eqn:E; [|done]. injection Hi as <-. cbn [row_at row_times].
  rewrite lookup_omap. destruct (Chunk.timelines c !! timeline) as [tc|] eqn:Etc; cbn [mbind option_bind]; [|by split; intros [? ?]].
  split; [by eexists|]. intros _. apply lookup_lt_is_Some. destruct (Ht _ _ Etc) as [Hlen _]. apply lookup_lt_Some in E.
  unfold TimeColumn.num_rows, Chunk.num_rows in Hlen. lia.
Qed.

Lemma elem_of_temporal_rows st cs path s : store_ok st cs [] -> all_physical st cs ->
  s ∈ temporal_rows path st <-> exists c, c ∈ cs /\ Chunk.entity_path c = path /\ s ∈ rows c.
Proof.
  intros Hok Hphys. unfold temporal_rows. rewrite list_elem_of_bind. split.
  - intros (c & Hs & [[Hst Hp] Hc]%list_elem_of_filter). apply list_elem_of_fmap in Hc as ([id c'] & -> & Hc%elem_of_map_to_list).
    exists c'. split; [by apply (ok_temporal _ _ _ _ Hok id)|done].
  - intros (c & Hc & Hp & Hs). exists c. split; [done|]. pose proof (Hphys c Hc) as Hpc.
    destruct (ok_consistent _ _ _ _ Hok c c Hc Hpc) as [_ Hst]. apply list_elem_of_filter. split; [done|].
    apply list_elem_of_fmap. exists (Chunk.id c, c). split; [done|]. by apply elem_of_map_to_list.
Qed.

Lemma stored_chunks st cs : store_ok st cs [] -> wf_chunks st -> all_physical st cs -> Forall stored_chunk cs.
Proof.
  intros Hok Hwf Hphys. apply Forall_forall. intros c Hc. pose proof (Hphys c Hc) as Hp. destruct (Hwf _ _ Hp) as (? & ? & ?).
  split_and!; [done|by apply (ok_rows _ _ _ _ Hok _ _ Hp)|done|done].
Qed.

Lemma logged_eligible st cs path timeline component a s : store_ok st cs [] -> wf_chunks st -> all_physical st cs ->
  (exists c, logged cs path timeline component a c s) <-> s ∈ temporal_rows path st /\ eligible timeline component a s.
Proof.
  intros Hok Hwf Hphys. rewrite (elem_of_temporal_rows st cs path s Hok Hphys). unfold logged, eligible.
  assert (forall c, c ∈ cs -> s ∈ rows c -> is_Some (row_times s !! timeline) <-> is_Some (Chunk.timelines c !! timeline)) as Ht.
  { intros c Hc Hs. apply row_time_some; [|done]. by apply (Hwf (Chunk.id c)), Hphys. }
  split.
  - intros (c & Hc & Hp & Htl & Hs & Hrel). split; [by exists c|]. split; [by apply (Ht c)|done].
  - intros ((c & Hc & Hp & Hs) & Htl & Hrel). exists c. split_and!; try done; [by apply (Ht c)|by destruct Hrel..].
Qed.

Lemma journal_latest_at config xs st mode path timeline component a new_id : journal config xs st ->
  static_chunk_id st path component = None -> a <> TimeInt.STATIC ->
  from_option ChunkIdSetPerTime.max_interval_length 0 (component_index st path (Some timeline) component) <= i64_max ->
  exists results st', latest_at_relevant_chunks st mode (LatestAtQuery.Mk (Some timeline) a) path component = Done (results, st')
    /\ missing_virtual results = []
    /\ ((forall s, s ∈ journal_rows path xs -> ~ eligible timeline component (TimeInt.as_i64 a) s)
        \/ exists c u r, c ∈ chunks results
            /\ ChunkQuery.latest_at new_id c (LatestAtQuery.Mk (Some timeline) a) component = Done (Some u)
            /\ rows (UnitChunk.chunk u) = [r]
            /\ r ∈ journal_rows path xs /\ eligible timeline component (TimeInt.as_i64 a) r
            /\ forall s, s ∈ journal_rows path xs -> eligible timeline component (TimeInt.as_i64 a) s -> ranks timeline s r).
Proof.
  intros Hj Hstatic Ha Hlen. destruct (journal_ok config xs st Hj) as (cs & Hok & Hwf & Hphys & Hrows).
  pose proof (fun s => logged_eligible st cs path timeline component (TimeInt.as_i64 a) s Hok Hwf Hphys) as Hlog.
  assert (forall s, s ∈ temporal_rows path st <-> s ∈ journal_rows path xs) as Hin by (intros s; by rewrite Hrows).
  assert (indexes st cs) as Hix by (split; [apply Hok|done]).
  pose proof (store_latest_at_ok st cs mode path timeline component a new_id Hix (ok_distinct _ _ _ _ Hok)
    (stored_chunks st cs Hok Hwf Hphys) Hstatic Ha Hlen) as (results & st' & Hrun & Hm & _ & _ & Hres).
  exists results, st'. split_and!; [done|done|]. destruct Hres as [Hnone|(c & u & r & Hc & Hq & Hu & Hlr & Hbest)].
  - left. intros s Hs He. destruct (proj2 (Hlog s)) as [c Hc]; [by rewrite Hin|]. by apply (Hnone c s).
  - right. exists c, u, r. destruct (proj1 (Hlog r)) as [Hr He]; [by exists c|]. split_and!; [done|done|done|by apply Hin|done|].
    intros s Hs Hes. destruct (proj2 (Hlog s)) as [c' Hc']; [by rewrite Hin|]. by apply (Hbest c' s).
Qed.

(** ** The contracts *)

(** C13. Every state that insertions of new chunks and collections, with whatever options and
    clocks, lead to from a new store satisfies the invariant of the store, and every chunk in
    memory is well formed and sorted by its row ids. *)
Theorem reachable_spec config st (Hreach : reachable config st) :
  exists cs, store_ok st cs [] /\ map_Forall (fun _ c => chunk_wf c /\ Chunk.is_sorted c = true) (physical st).
Proof.
  destruct (reachable_ok config st Hreach) as (cs & Hok & Hwf). exists cs. split; [done|].
  eapply map_Forall_impl; [exact Hwf|]. by intros id c (? & ? & _).
Qed.

(** C11. Nothing that is logged is lost or invented: after any sequence of insertions, with the
    splits and compactions they lead to, the temporal rows of each entity in memory are those
    of the chunks that were inserted for it, each as often as it was logged, and every chunk
    the indices know of is in memory.  Each chunk that is inserted is a [new_chunk]: well formed,
    with sorted row ids, under an id of its own, and such that the columns which it and a chunk
    in memory do not share have no unused values where the two could be compacted ([compacts];
    merging others can misalign rows, see C37). *)
Theorem journal_spec config xs st (Hjournal : journal config xs st) :
  exists cs, store_ok st cs [] /\ indexes st cs /\ forall path, temporal_rows path st ≡ₚ xs ≫= new_rows path.
Proof.
  destruct (journal_ok config xs st Hjournal) as (cs & Hok & _ & Hphys & Hrows). exists cs. split_and!; [done| |done].
  split; [apply Hok|done].
Qed.

(** C1. A latest-at query after any sequence of insertions.  For a component that the entity has
    no static chunk for, the indices give chunks among which one has the answer: the greatest
    row, by time and row id, of all the rows that were logged for the entity with the timeline
    and the component at or before the time; and there is an answer unless there is no such
    row.  The chunks that were logged and the chunks that are queried need not be the same.
    Conditions: the insertions are those of [journal] (C11), the time asked is not that of static
    data, and the widest interval of the index that is asked, that of the component of the entity
    on the timeline, is at most [i64::MAX] ([Hlen]).  The last one fails when the index holds a
    column without a value or an interval wider than [i64::MAX]: then the search in the index can
    miss the chunk that has the answer, see [index_latest_at_limits]. *)
Theorem journal_latest_at_spec config xs st mode path timeline component a new_id (Hjournal : journal config xs st)
  (Hstatic : static_chunk_id st path component = None) (Ha : a <> TimeInt.STATIC)
  (Hlen : from_option ChunkIdSetPerTime.max_interval_length 0 (component_index st path (Some timeline) component) <= i64_max) :
  let query := LatestAtQuery.Mk (Some timeline) a in
  exists results st', latest_at_relevant_chunks st mode query path component = Done (results, st')
    /\ missing_virtual results = []
    /\ ((forall s, s ∈ journal_rows path xs -> ~ eligible timeline component (TimeInt.as_i64 a) s)
        \/ exists c u r, c ∈ chunks results /\ ChunkQuery.latest_at new_id c query component = Done (Some u)
            /\ rows (UnitChunk.chunk u) = [r]
            /\ r ∈ journal_rows path xs /\ eligible timeline component (TimeInt.as_i64 a) r
            /\ forall s, s ∈ journal_rows path xs -> eligible timeline component (TimeInt.as_i64 a) s -> ranks timeline s r).
Proof. by apply (journal_latest_at config). Qed.

End Journal.
