(* ===== verification/StoreQueries.v ===== *)
(** * Range queries and steps in time, through the store

    What [range_relevant_chunks] with [Chunk::range], and [next_time_on_timeline] and
    [prev_time_on_timeline] answer, in terms of the rows that were logged. *)

From stdpp Require Import strings.
From S2P Require Import Prelude Ints TimeInt TimeRange Tuid Arrow Column Chunk ChunkSlice.
From S2P Require Import ChunkSort ChunkMerge ChunkQuery ChunkIndex Lineage StoreStats ChunkStore.
From S2P Require Import StoreGc StoreWrites StoreInvariant StoreInsertion StoreStatic StoreSplits StoreJournal.

Import ChunkStore AbsoluteTimeRange.

(** ** Lists *)

Lemma filter_bind {A B} (P : B -> Prop) `{!forall x, Decision (P x)} (f : A -> list B) (l : list A) :
  filter P (l ≫= f) = l ≫= fun x => filter P (f x).
Proof. induction l as [|x l IH]; [done|]. csimpl. by rewrite filter_app, IH. Qed.

Lemma bind_nothing {A B} (f : A -> list B) (l : list A) : (forall x, x ∈ l -> f x = []) -> l ≫= f = [].
Proof. induction l as [|x l IH]; intros Hf; [done|]. csimpl. rewrite Hf, IH by set_solver. done. Qed.

Lemma filter_iff_in {A} (P Q : A -> Prop) `{!forall x, Decision (P x), !forall x, Decision (Q x)} (l : list A) :
  (forall x, x ∈ l -> P x <-> Q x) -> filter P l = filter Q l.
Proof.
  induction l as [|x l IH]; intros Hl; [done|]. rewrite !filter_cons, IH by set_solver.
  pose proof (Hl x ltac:(left)). repeat case_decide; tauto.
Qed.

Lemma filter_none {A} (P : A -> Prop) `{!forall x, Decision (P x)} (l : list A) : (forall x, x ∈ l -> ~ P x) -> filter P l = [].
Proof. induction l as [|x l IH]; intros Hl; [done|]. rewrite filter_cons_False, IH by set_solver. done. Qed.

Lemma filter_inside {A} (P : A -> Prop) `{!forall x, Decision (P x)} (before inside after : list A) :
  Forall (fun x => ~ P x) before -> Forall P inside -> Forall (fun x => ~ P x) after ->
  filter P (before ++ inside ++ after) = inside.
Proof.
  assert (forall l, Forall (fun x => ~ P x) l -> filter P l = []) as Hnone.
  { induction 1 as [|x l Hx _ IH]; [done|]. by rewrite filter_cons_False. }
  intros Hb Hi Ha. rewrite !filter_app, (Hnone before), (Hnone after), app_nil_r by done. clear Hb Ha. cbn [app].
  induction Hi as [|x l Hx _ IH]; [done|]. by rewrite filter_cons_True, IH.
Qed.

Lemma filter_filter_and {A} (P Q : A -> Prop) `{!forall x, Decision (P x), !forall x, Decision (Q x)} (l : list A) :
  filter P (filter Q l) = filter (fun x => Q x /\ P x) l.
Proof. induction l as [|x l IH]; [done|]. rewrite !filter_cons. repeat case_decide; rewrite ?filter_cons; repeat case_decide; naive_solver congruence. Qed.

Lemma sorted_rev {A} (le : A -> A -> bool) (l : list A) : sorted_by le l -> sorted_by (fun a b => le b a) (rev l).
Proof.
  induction 1 as [|x l Hs IH Hf]; simpl; [constructor|]. apply sorted_app. split_and!; [done|repeat constructor|].
  intros y z Hy Hz. apply list_elem_of_singleton in Hz as ->.
  rewrite list_elem_of_In, <- in_rev, <- list_elem_of_In in Hy. rewrite Forall_forall in Hf. by apply Hf.
Qed.

Lemma elem_of_rev {A} (l : list A) x : x ∈ rev l <-> x ∈ l.
Proof. by rewrite !list_elem_of_In, <- in_rev. Qed.

(** ** Range queries *)

Section Ranges.

Context `{Build} `{ArrowLaws} `{!Chunk.SizeBytes}.
Implicit Types st : ChunkStore.t.
Implicit Types c : Chunk.t.
Implicit Types q : RangeQuery.t.

(** No range in an index has the static time for a bound. *)
Lemma component_range_temporal c timeline component r : chunk_wf c -> Chunk.num_rows c <> 0%nat ->
  component_range c timeline component = Some r ->
  i64_min < TimeInt.as_i64 (rmin r) /\ i64_min < TimeInt.as_i64 (rmax r).
Proof.
  intros Hwf Hn Hr. unfold component_range, Chunk.time_range_per_component in Hr. rewrite lookup_fmap in Hr.
  destruct (Chunk.timelines c !! timeline) as [tc|] eqn:Htc; [|done]. simpl in Hr.
  destruct Hwf as (_ & Ht & Hc). destruct (Ht _ _ Htc) as [Hl Hw]. pose proof Hr as Hr'.
  unfold TimeColumn.time_range_per_component in Hr'. rewrite lookup_omap in Hr'.
  destruct (Chunk.components c !! component) as [column|] eqn:Hk; [|done]. clear Hr'.
  destruct (Hc _ _ Hk) as [_ Hll].
  destruct (time_range_per_component_lookup tc (Chunk.components c) component column) as (r' & Hr' & Htight & Hempty);
    [done|congruence|done|congruence|]. assert (r' = r) as -> by congruence.
  set (valid := mask _ _) in *.
  destruct (decide (valid = [])) as [E|E].
  { rewrite (Hempty E). by vm_compute. }
  destruct (Htight E) as (Hmin & Hmax & _). destruct Hw as (_ & Hf & _).
  assert (Forall temporal_i64 valid) as Hv by by apply Forall_mask.
  rewrite Forall_forall in Hv. split; by apply Hv.
Qed.

Definition met_by q r : bool := intersects r (RangeQuery.range q).

Lemma met_by_spec q r : met_by q r = true <->
  TimeInt.as_i64 (rmin (RangeQuery.range q)) <= TimeInt.as_i64 (rmax r)
  /\ TimeInt.as_i64 (rmin r) <= TimeInt.as_i64 (rmax (RangeQuery.range q)).
Proof.
  unfold met_by, intersects. rewrite andb_true_iff, !TimeInt.le_as_i64, !Z.leb_le. tauto.
Qed.

(** The bounds that are searched are no narrower than those of the query. *)
Lemma searched_bounds q r : i64_min < TimeInt.as_i64 (rmax r) -> met_by q r = true ->
  let extended := RangeQuery.include_extended_bounds (RangeQuery.options q) in
  TimeInt.as_i64 (rmin r) <= TimeInt.as_i64 (ChunkIdSetPerTime.query_max (RangeQuery.range q) extended)
  /\ TimeInt.as_i64 (ChunkIdSetPerTime.query_min (RangeQuery.range q) extended) <= TimeInt.as_i64 (rmax r).
Proof.
  intros Hr [Hlo Hhi]%met_by_spec. unfold ChunkIdSetPerTime.query_max, ChunkIdSetPerTime.query_min.
  destruct (RangeQuery.include_extended_bounds _); cbv zeta; [|done].
  rewrite !TimeInt.as_i64_new_temporal by apply is_i64_sat.
  pose proof (TimeInt.as_i64_range (rmin (RangeQuery.range q))).
  pose proof (TimeInt.as_i64_range (rmax (RangeQuery.range q))). int_lia.
Qed.

Lemma range_default q index :
  range q (option_list index)
    = ChunkIdSetPerTime.range (RangeQuery.range q) (RangeQuery.include_extended_bounds (RangeQuery.options q))
        [default ChunkIdSetPerTime.empty index].
Proof.
  destruct index as [index|]; [reflexivity|]. unfold range, ChunkIdSetPerTime.range. cbn [option_list default mbind list_bind].
  destruct (ChunkIdSetPerTime.range_bounds _ _ _) as [lo hi]. unfold range_within, entries.
  cbn [ChunkIdSetPerTime.empty ChunkIdSetPerTime.per_start_time]. rewrite map_to_list_empty. reflexivity.
Qed.

(** The chunks a range query on a component gives: those of the entity whose range of the
    component meets the range of the query.  The extended bounds make no difference. *)
Lemma range_chunks_ok st cs mode q path component :
  indexes st cs -> NoDup (Chunk.id <$> cs) -> Forall stored_chunk cs ->
  static_chunk_id st path component = None ->
  from_option ChunkIdSetPerTime.max_interval_length 0
    (component_index st path (Some (RangeQuery.timeline q)) component) <= i64_max ->
  exists results st', range_relevant_chunks st mode q path component = Done (results, st')
    /\ missing_virtual results = [] /\ NoDup (chunks results)
    /\ forall c, c ∈ chunks results <-> c ∈ cs /\ Chunk.entity_path c = path
         /\ exists r, component_range c (RangeQuery.timeline q) component = Some r /\ met_by q r = true.
Proof.
  intros ([Hc _] & Hp) Hnd Hst Hstatic Hlen. unfold range_relevant_chunks. rewrite Hstatic.
  specialize (Hc path (RangeQuery.timeline q) component). set (index := component_index _ _ _ _) in *.
  set (L := component_ranges cs path (RangeQuery.timeline q) component) in *.
  assert (forall id r r', (id, r) ∈ L -> (id, r') ∈ L -> rmin r = rmin r') as Hfun.
  { intros id r r' (c & Hin & Hid & _ & Hcr)%elem_of_component_ranges (c' & Hin' & Hid' & _ & Hcr')%elem_of_component_ranges.
    rewrite (same_chunk cs c c' Hnd Hin Hin') in Hcr by congruence. congruence. }
  rewrite range_default. set (found := ChunkIdSetPerTime.range _ _ _).
  assert (NoDup found) as Hndf by exact (range_NoDup _ L _ _ Hc Hfun).
  assert (forall id, id ∈ found -> exists c, c ∈ cs /\ Chunk.id c = id /\ Chunk.entity_path c = path) as Hids.
  { intros id Hid.
    assert (Forall2 represents [default ChunkIdSetPerTime.empty index] [L]) as HF by (constructor; [exact Hc|constructor]).
    destruct (proj1 (range_of_indices _ _ _ _ HF) id Hid) as (L' & r & ->%list_elem_of_singleton & Hr).
    apply elem_of_component_ranges in Hr as (c & ? & ? & ? & _). by exists c. }
  destruct (from_physical_ids st mode found Hndf) as (st' & ->).
  { intros id Hid. destruct (Hids id Hid) as (c & Hin & <- & _). exists c. by rewrite (Hp c Hin). }
  eexists _, st'. split; [reflexivity|]. split; [reflexivity|]. cbn [fst snd filter_chunks chunks]. split.
  - apply NoDup_filter_bool, (NoDup_fmap_1 Chunk.id). rewrite (ids_of_physical st cs); [done|done|].
    intros id Hid. destruct (Hids id Hid) as (c & ? & ? & _). by exists c.
  - intros c. rewrite elem_of_filter_bool, list_elem_of_omap.
    unfold component_range, Chunk.time_range_per_component. rewrite lookup_fmap. split.
    + intros [(id & Hid & Hphys) Hmet]. destruct (Hids id Hid) as (c' & Hin & <- & Hpath).
      rewrite (Hp c' Hin) in Hphys. injection Hphys as <-. split_and!; [done|done|].
      destruct (Chunk.timelines c' !! RangeQuery.timeline q) as [tc|]; [|done]. csimpl.
      destruct (TimeColumn.time_range_per_component tc (Chunk.components c') !! component) as [r|]; [|done]. by exists r.
    + intros (Hin & Hpath & r & Hr & Hmet). rewrite Forall_forall in Hst. destruct (Hst c Hin) as (Hwf & Hn & _).
      assert (component_range c (RangeQuery.timeline q) component = Some r) as Hcr
        by (unfold component_range, Chunk.time_range_per_component; by rewrite lookup_fmap).
      destruct (component_range_temporal c _ _ r Hwf Hn Hcr) as [Hmin Hmax]. split.
      * exists (Chunk.id c). split; [|by apply Hp]. destruct (searched_bounds q r Hmax Hmet).
        apply (index_range_complete _ L _ _ Hc) with r; [by destruct index|apply elem_of_component_ranges; by exists c| |done|done].
        rewrite TimeInt.as_i64_static_iff. lia.
      * destruct (Chunk.timelines c !! RangeQuery.timeline q) as [tc|]; [|done]. csimpl in Hr. by rewrite Hr.
Qed.

(** The rows of a chunk that a range query on a component is about. *)
Definition within_range q (component : string) (s : Row) : Prop :=
  has_cell component s
  /\ TimeInt.as_i64 (rmin (RangeQuery.range q)) <= time_of (RangeQuery.timeline q) s
       <= TimeInt.as_i64 (rmax (RangeQuery.range q)).
#[export] Instance within_range_dec q component s : Decision (within_range q component s).
Proof. unfold within_range. apply _. Defined.

(** What [Chunk::range] makes of a chunk that has the component: the rows in the range. *)
Lemma chunk_range_rows fresh c q component tc : very_strict = false -> chunk_wf c -> sturdy c ->
  query_nonempty q -> RangeQuery.include_extended_bounds (RangeQuery.options q) = false ->
  Chunk.timelines c !! RangeQuery.timeline q = Some tc -> is_Some (Chunk.components c !! component) ->
  exists c', ChunkQuery.range fresh c q component = Done c'
    /\ rows c' ≡ₚ project q component <$> filter (within_range q component) (rows c)
    /\ sorted_by (time_le (RangeQuery.timeline q)) (rows c').
Proof.
  intros Hvs Hwf Hheap Hq Hext Htc [column Hk].
  destruct (range_temporal_ok fresh c q component tc Hvs Hwf Hheap Hq Htc) as
    (c' & sorted & Hrun & _ & Hperm & Hsorted & _ & (before & inside & after & -> & Hb & Hi & Ha & Hsel)).
  rewrite Hext in Hsel. exists c'. split; [done|]. rewrite Hsel. split.
  - set (P := fun r => TimeInt.as_i64 (rmin (RangeQuery.range q)) <= time_of (RangeQuery.timeline q) r
                         <= TimeInt.as_i64 (rmax (RangeQuery.range q))).
    rewrite <- (filter_inside P before inside after), Hperm; [|by eapply Forall_impl; [exact Hb|unfold P; simpl; lia]|done|
      by eapply Forall_impl; [exact Ha|unfold P; simpl; lia]].
    unfold dense_rows. rewrite Hk.
    assert (forall l, filter P (project q component <$> l) = project q component <$> filter P l) as ->.
    { induction l as [|r l IH]; [done|]. rewrite fmap_cons, !filter_cons, IH.
      unfold P. rewrite (project_time q component r). by case_decide. }
    by rewrite filter_filter_and.
  - apply sorted_app in Hsorted as (_ & Hsorted & _). by apply sorted_app in Hsorted as (? & _ & _).
Qed.

End Ranges.

Section StoreRange.

Context `{Build} `{ArrowLaws} `{!Chunk.SizeBytes} `{HashOrder}.
Implicit Types st : ChunkStore.t.
Implicit Types c x : Chunk.t.
Implicit Types q : RangeQuery.t.

Notation physical st := (physical_chunks_per_chunk_id st).

(** The chunks in memory, whose sizes were measured when they were inserted, can be sorted: in a
    debug build the sizes are right and the same for any order of the rows ([sturdy]). *)
Definition sturdy_store st : Prop := forall id c, physical st !! id = Some c -> sturdy c.

Lemma release_sturdy_store st : debug_assertions = false -> sturdy_store st.
Proof. intros Hr id c _. by apply release_sturdy. Qed.

(** The rows of a store that a range query on a component is about. *)
Definition queried q (component : string) (s : Row) : Prop :=
  is_Some (row_times s !! RangeQuery.timeline q) /\ within_range q component s.
#[export] Instance queried_dec q component s : Decision (queried q component s).
Proof. unfold queried. apply _. Defined.

(** The chunks that temporal rows come from. *)
Lemma temporal_chunks st cs path : store_ok st cs [] -> all_physical st cs ->
  exists l, temporal_rows path st = l ≫= rows /\ NoDup l
    /\ forall c, c ∈ l <-> c ∈ cs /\ Chunk.entity_path c = path.
Proof.
  intros Hok Hphys. eexists. split; [reflexivity|]. split.
  - apply NoDup_filter, (NoDup_fmap_1 Chunk.id). by eapply physical_ids_distinct.
  - intros c. rewrite list_elem_of_filter. unfold temporal_of, physical_list. rewrite list_elem_of_fmap. split.
    + intros [[Hs Hp] ([id c'] & -> & Hc%elem_of_map_to_list)]. split; [|done]. by apply (ok_temporal _ _ _ _ Hok id).
    + intros [Hc Hp]. pose proof (Hphys c Hc) as Hpc. destruct (ok_consistent _ _ _ _ Hok c c Hc Hpc) as [_ Hs].
      split; [done|]. exists (Chunk.id c, c). split; [done|]. by apply elem_of_map_to_list.
Qed.

(** A chunk that is not relevant has no row in the range. *)
Lemma irrelevant_rows c q component s : stored_chunk c -> s ∈ rows c -> queried q component s ->
  exists r, component_range c (RangeQuery.timeline q) component = Some r /\ met_by q r = true.
Proof.
  intros (Hwf & Hn & _) Hs (Htl & Hcell & Hlo & Hhi). apply (row_time_some c s _ Hwf Hs) in Htl as [tc Htc].
  destruct (Chunk.components c !! component) as [column|] eqn:Hk; [|by destruct (no_column c component s Hk Hs)].
  destruct (component_range_rows c (RangeQuery.timeline q) tc component column) as (r & Hr & Hrange & _); [done..|].
  exists r. split; [done|]. apply met_by_spec. specialize (Hrange s Hs Hcell). lia.
Qed.

(** The rows in the range of all the chunks are those of the relevant ones. *)
Lemma relevant_rows (relevant all : list Chunk.t) q component : NoDup relevant -> NoDup all ->
  (forall c, c ∈ all -> stored_chunk c) ->
  (forall c, c ∈ relevant <-> c ∈ all /\ exists r, component_range c (RangeQuery.timeline q) component = Some r /\ met_by q r = true) ->
  filter (queried q component) (all ≫= rows) ≡ₚ relevant ≫= fun c => filter (within_range q component) (rows c).
Proof.
  intros Hndr Hnda Hst Hrel.
  assert (relevant ⊆+ all) as [rest Hrest]%submseteq_Permutation by (apply NoDup_submseteq; [done|]; intros c Hc; by apply Hrel).
  rewrite filter_bind, Hrest, bind_app. rewrite (bind_nothing _ rest), app_nil_r.
  - replace (relevant ≫= fun c => filter (queried q component) (rows c))
      with (relevant ≫= fun c => filter (within_range q component) (rows c)); [done|].
    apply Forall_bind_ext, Forall_forall. intros c Hc. symmetry. apply Hrel in Hc as (Hc & r & Hr & _).
    apply filter_iff_in. intros s Hs. unfold queried.
    enough (is_Some (row_times s !! RangeQuery.timeline q)) by tauto.
    destruct (Hst c Hc) as (Hwf & _). apply (row_time_some c s _ Hwf Hs).
    unfold component_range, Chunk.time_range_per_component in Hr. rewrite lookup_fmap in Hr.
    by destruct (Chunk.timelines c !! RangeQuery.timeline q).
  - intros c Hc. apply filter_none. intros s Hs Hq.
    assert (c ∈ all) as Hca by (rewrite Hrest; apply elem_of_app; by right).
    assert (c ∈ relevant) as Hcr by (apply Hrel; split; [done|]; by apply (irrelevant_rows c q component s); [apply Hst|..]).
    rewrite Hrest in Hnda. apply NoDup_app in Hnda as (_ & Hdis & _). by apply (Hdis c).
Qed.

Context `{!SizeLaws} `{!HashOrderLaws} (Hvs : very_strict = false).

(** The chunks that a range query gives, cut to the range. *)
Definition answers q component (fresh : ChunkId.t -> nat -> ChunkId.t) (relevant answered : list Chunk.t) : Prop :=
  Forall2 (fun c c' => ChunkQuery.range (fresh (Chunk.id c)) c q component = Done c'
                       /\ sorted_by (time_le (RangeQuery.timeline q)) (rows c')) relevant answered.

Lemma chunk_answers q component fresh (relevant : list Chunk.t) : query_nonempty q ->
  RangeQuery.include_extended_bounds (RangeQuery.options q) = false ->
  (forall c, c ∈ relevant -> chunk_wf c /\ sturdy c
     /\ is_Some (component_range c (RangeQuery.timeline q) component)) ->
  exists answered, answers q component fresh relevant answered
    /\ answered ≫= rows ≡ₚ project q component <$> (relevant ≫= fun c => filter (within_range q component) (rows c)).
Proof.
  intros Hq Hext. induction relevant as [|c relevant IH]; intros Hall; [exists []; by repeat constructor|].
  destruct IH as (answered & Hans & Hrows); [intros; apply Hall; by right|].
  destruct (Hall c ltac:(left)) as (Hwf & Hheap & [r Hr]). unfold component_range, Chunk.time_range_per_component in Hr.
  rewrite lookup_fmap in Hr. destruct (Chunk.timelines c !! RangeQuery.timeline q) as [tc|] eqn:Htc; [|done]. csimpl in Hr.
  unfold TimeColumn.time_range_per_component in Hr. rewrite lookup_omap in Hr.
  destruct (chunk_range_rows (fresh (Chunk.id c)) c q component tc Hvs Hwf Hheap Hq Hext Htc) as (c' & Hrun & Hr' & Hs).
  { by destruct (Chunk.components c !! component). }
  exists (c' :: answered). split; [by constructor|]. csimpl. by rewrite fmap_app, Hr', Hrows.
Qed.

Lemma store_range_ok st cs mode path q component fresh : store_ok st cs [] -> wf_chunks st -> all_physical st cs ->
  sturdy_store st -> static_chunk_id st path component = None ->
  query_nonempty q -> RangeQuery.include_extended_bounds (RangeQuery.options q) = false ->
  from_option ChunkIdSetPerTime.max_interval_length 0
    (component_index st path (Some (RangeQuery.timeline q)) component) <= i64_max ->
  exists results st' answered, range_relevant_chunks st mode q path component = Done (results, st')
    /\ missing_virtual results = [] /\ NoDup (chunks results)
    /\ answers q component fresh (chunks results) answered
    /\ answered ≫= rows ≡ₚ project q component <$> filter (queried q component) (temporal_rows path st).
Proof.
  intros Hok Hwf Hphys Hheap Hstatic Hq Hext Hlen. assert (indexes st cs) as Hix by (split; [apply Hok|done]).
  pose proof (stored_chunks st cs Hok Hwf Hphys) as Hst.
  destruct (range_chunks_ok st cs mode q path component Hix (ok_distinct _ _ _ _ Hok) Hst Hstatic Hlen) as
    (results & st' & Hrun & Hm & Hnd & Hin). exists results, st'.
  destruct (temporal_chunks st cs path Hok Hphys) as (all & -> & Hnda & Hall). rewrite Forall_forall in Hst.
  destruct (chunk_answers q component fresh (chunks results) Hq Hext) as (answered & Hans & Hrows).
  { intros c (Hc & _ & r & Hr & _)%Hin. split_and!; [by apply Hst|by apply (Hheap (Chunk.id c)), Hphys|by eexists]. }
  exists answered. split_and!; [done..|]. rewrite Hrows, relevant_rows; [done|done|done| |].
  - intros c [Hc _]%Hall. by apply Hst.
  - intros c. rewrite Hin, Hall. tauto.
Qed.

(** C12. A range query after any sequence of insertions. For a component that the entity has no
    static chunk for, a range that is not empty, and without extended bounds, the indices give
    distinct chunks, none missing; [Chunk::range] cuts each of them to rows in the order of the
    timeline; and the rows of all of them are, each as often as it was logged, those that were
    logged for the entity with the component at a time in the range, less the columns not asked
    for. The insertions are those of [journal] (C11). Two more conditions: the widest interval of
    the index asked is at most [i64::MAX] ([Hlen]; it is not when a column without a value is
    indexed or an interval spans more, and then chunks are missed, see [index_latest_at_limits]),
    and, in a debug build only, the measured size of each chunk in memory is right and does not
    change when its rows are sorted ([Hheap]; the sorted copy keeps the size, and the debug check
    compares it with a new measure and panics if they differ). *)
Theorem journal_range_spec config xs st mode path q component fresh (Hjournal : journal config xs st)
  (Hheap : sturdy_store st)
  (Hstatic : static_chunk_id st path component = None) (Hq : query_nonempty q)
  (Hext : RangeQuery.include_extended_bounds (RangeQuery.options q) = false)
  (Hlen : from_option ChunkIdSetPerTime.max_interval_length 0
            (component_index st path (Some (RangeQuery.timeline q)) component) <= i64_max) :
  exists results st' answered, range_relevant_chunks st mode q path component = Done (results, st')
    /\ missing_virtual results = [] /\ NoDup (chunks results)
    /\ Forall2 (fun c c' => ChunkQuery.range (fresh (Chunk.id c)) c q component = Done c'
                            /\ sorted_by (time_le (RangeQuery.timeline q)) (rows c')) (chunks results) answered
    /\ answered ≫= rows ≡ₚ project q component <$> filter (queried q component) (journal_rows path xs).
Proof.
  destruct (journal_ok Hvs config xs st Hjournal) as (cs & Hok & Hwf & Hphys & Hrows).
  destruct (store_range_ok st cs mode path q component fresh) as (results & st' & answered & Hrun & Hm & Hnd & Hans & Hperm); [done..|].
  exists results, st', answered. split_and!; [done..|]. by rewrite Hperm, Hrows.
Qed.

End StoreRange.

(** ** Steps in time *)

Section Best.

Context `{Build} `{ArrowOps}.
Context (le : TimeInt.t -> TimeInt.t -> bool) `{!TotalPreorder le}.
Context (op : option TimeInt.t -> option TimeInt.t -> option TimeInt.t).
Context (Hnone : forall b, op None b = b) (Hnone_r : forall a, op a None = a).
Context (Hsome : forall a b, exists m, op (Some a) (Some b) = Some m /\ (m = a \/ m = b) /\ le m a = true /\ le m b = true).

(** The first in the order of those that satisfy [P]. *)
Definition best (P : TimeInt.t -> Prop) (o : option TimeInt.t) : Prop :=
  match o with
  | Some t => P t /\ forall u, P u -> le t u = true
  | None => forall u, ~ P u
  end.

Lemma best_ext P Q o : (forall t, P t <-> Q t) -> best P o -> best Q o.
Proof. intros HPQ. unfold best. destruct o; intros; naive_solver. Qed.

Lemma best_op P Q a b : best P a -> best Q b -> best (fun t => P t \/ Q t) (op a b).
Proof.
  destruct a as [a|], b as [b|]; rewrite ?Hnone, ?Hnone_r; simpl.
  - intros [Ha Hal] [Hb Hbl]. destruct (Hsome a b) as (m & -> & Hm & Hma & Hmb). split.
    + destruct Hm as [-> | ->]; tauto.
    + intros u [Hu|Hu]; [eapply (le_trans m a u)|eapply (le_trans m b u)]; auto.
  - intros [Ha Hal] Hb. split; [tauto|]. intros u [Hu|Hu]; [by apply Hal|by destruct (Hb u)].
  - intros Ha [Hb Hbl]. split; [tauto|]. intros u [Hu|Hu]; [by destruct (Ha u)|by apply Hbl].
  - intros Ha Hb u [Hu|Hu]; [by apply (Ha u)|by apply (Hb u)].
Qed.

Context (st : ChunkStore.t) (timeline : string) (search : TimeColumn.t -> option TimeInt.t).
Context (T : ChunkId.t -> TimeInt.t -> Prop).
Context (Hsearch : forall id, best (T id) (search_chunk_by_time st timeline id search)).

Lemma best_entry P result ids : best P result ->
  best (fun t => P t \/ exists id, id ∈ ids /\ T id t) (search_entry st timeline op search result ids).
Proof.
  unfold search_entry. intros HP. eapply (best_ext (fun t => P t \/ exists id, id ∈ set_iter ids /\ T id t)).
  { intros t. by setoid_rewrite elem_of_set_iter. }
  revert P result HP. induction (set_iter ids) as [|id l IH]; intros P result HP.
  { eapply best_ext; [|exact HP]. set_solver. }
  simpl. eapply best_ext; [|by apply IH, (best_op P (T id))]. set_solver.
Qed.

Definition times_of (l : list (TimeInt.t * gset ChunkId.t)) (t : TimeInt.t) : Prop :=
  exists time ids id, (time, ids) ∈ l /\ id ∈ ids /\ T id t.

Lemma times_of_cons e l t : times_of (e :: l) t <-> (exists id, id ∈ e.2 /\ T id t) \/ times_of l t.
Proof. unfold times_of. destruct e as [time ids]. set_solver. Qed.

Lemma best_all P result l : best P result ->
  best (fun t => P t \/ times_of l t) (search_all st timeline op search result l).
Proof.
  revert P result. induction l as [|[time ids] l IH]; intros P result HP.
  { eapply best_ext; [|exact HP]. unfold times_of. set_solver. }
  unfold search_all. simpl. eapply best_ext; [|apply IH, best_entry, HP]. intros t. rewrite times_of_cons. simpl. tauto.
Qed.

Lemma best_until P result l : best P result -> sorted_by (fun a b => le a.1 b.1) l ->
  (forall time ids id t, (time, ids) ∈ l -> id ∈ ids -> T id t -> le time t = true) ->
  best (fun t => P t \/ times_of l t) (search_until st timeline op search le result l).
Proof.
  intros HP Hs. revert P result HP. induction Hs as [|[time ids] l Hs IH Hf]; intros P result HP Hstart.
  { eapply best_ext; [|exact HP]. unfold times_of. set_solver. }
  simpl. destruct (from_option _ _ _) eqn:E.
  - destruct result as [r|]; [|done]. simpl in E. destruct HP as [Hr Hrl]. split; [tauto|].
    intros u [Hu|(time' & ids' & id & Hin & Hid & HT)]; [by apply Hrl|].
    apply (le_trans r time u); [done|].
    assert (le time time' = true) as Htt.
    { apply elem_of_cons in Hin. destruct Hin as [E'|Hin]; [injection E' as -> ->; by apply Prelude.le_refl|].
      rewrite Forall_forall in Hf. exact (Hf _ Hin). }
    apply (le_trans time time' u); [done|]. by eapply Hstart.
  - eapply best_ext; [|apply IH; [apply best_entry, HP|]].
    + intros t. rewrite times_of_cons. simpl. tauto.
    + intros time' ids' id t Hin. apply Hstart. by right.
Qed.

End Best.

Section Steps.

Context `{Build} `{ArrowLaws} `{!Chunk.SizeBytes} `{HashOrder}.
Implicit Types st : ChunkStore.t.
Implicit Types c x : Chunk.t.

Notation physical st := (physical_chunks_per_chunk_id st).

Definition time_ge (a b : TimeInt.t) : bool := TimeInt.le b a.
#[local] Instance time_ge_preorder : TotalPreorder time_ge.
Proof. unfold time_ge. split; intros *; rewrite !TimeInt.le_as_i64, !Z.leb_le; lia. Qed.

Lemma opt_min_some a b : exists m, opt_min (Some a) (Some b) = Some m /\ (m = a \/ m = b)
  /\ TimeInt.le m a = true /\ TimeInt.le m b = true.
Proof.
  eexists. split; [reflexivity|]. rewrite !TimeInt.le_as_i64, !Z.leb_le, TimeInt.as_i64_min. split; [|lia].
  rewrite <- !TimeInt.as_i64_inj_iff, TimeInt.as_i64_min. lia.
Qed.

Lemma opt_max_some a b : exists m, opt_max (Some a) (Some b) = Some m /\ (m = a \/ m = b)
  /\ time_ge m a = true /\ time_ge m b = true.
Proof.
  eexists. split; [reflexivity|]. unfold time_ge. rewrite !TimeInt.le_as_i64, !Z.leb_le, TimeInt.as_i64_max. split; [|lia].
  rewrite <- !TimeInt.as_i64_inj_iff, TimeInt.as_i64_max. lia.
Qed.

(** A chunk in memory has data at a time of the kind that is looked for. *)
Definition has_time st (timeline : string) (p : Z -> Prop) (id : ChunkId.t) (t : TimeInt.t) : Prop :=
  exists c tc, physical st !! id = Some c /\ Chunk.timelines c !! timeline = Some tc
    /\ TimeInt.as_i64 t ∈ TimeColumn.times tc /\ p (TimeInt.as_i64 t).

Lemma searched st timeline (search : TimeColumn.t -> option TimeInt.t) le p : wf_chunks st ->
  (forall tc, tc_wf tc -> best le (fun t => TimeInt.as_i64 t ∈ TimeColumn.times tc /\ p (TimeInt.as_i64 t)) (search tc)) ->
  forall id, best le (has_time st timeline p id) (search_chunk_by_time st timeline id search).
Proof.
  intros Hwf Hs id. unfold search_chunk_by_time, has_time. destruct (physical st !! id) as [c|] eqn:Hc; csimpl.
  2: { intros t (? & ? & ? & _). done. }
  destruct (Chunk.timelines c !! timeline) as [tc|] eqn:Htc; csimpl; [|intros t (? & ? & [= <-] & ? & _); congruence].
  destruct (Hwf id c Hc) as ((_ & Ht & _) & _). destruct (Ht _ _ Htc) as [_ Hw].
  eapply best_ext; [|by apply Hs]. intros t. split; [intros; by exists c, tc|]. intros (c' & tc' & [= <-] & Htc' & ?). congruence.
Qed.

Lemma next_best after tc : tc_wf tc ->
  best TimeInt.le (fun t => TimeInt.as_i64 t ∈ TimeColumn.times tc /\ TimeInt.as_i64 after < TimeInt.as_i64 t)
    (TimeColumn.find_next_time tc after).
Proof.
  intros Hw. destruct (find_times tc after Hw) as [Hn _]. destruct (TimeColumn.find_next_time tc after) as [n|].
  - destruct Hn as (? & ? & Hn). split; [done|]. intros u [Hu ?]. rewrite TimeInt.le_as_i64, Z.leb_le. by apply Hn.
  - intros u [Hu ?]. rewrite Forall_forall in Hn. specialize (Hn _ Hu). lia.
Qed.

Lemma prev_best before tc : tc_wf tc ->
  best time_ge (fun t => TimeInt.as_i64 t ∈ TimeColumn.times tc /\ TimeInt.as_i64 t < TimeInt.as_i64 before)
    (TimeColumn.find_prev_time tc before).
Proof.
  intros Hw. destruct (find_times tc before Hw) as [_ Hn]. destruct (TimeColumn.find_prev_time tc before) as [n|].
  - destruct Hn as (? & ? & Hn). split; [done|]. intros u [Hu ?]. unfold time_ge. rewrite TimeInt.le_as_i64, Z.leb_le. by apply Hn.
  - intros u [Hu ?]. rewrite Forall_forall in Hn. specialize (Hn _ Hu). lia.
Qed.

(** What one index knows of. *)
Definition indexed (T : ChunkId.t -> TimeInt.t -> Prop) (m : gmap TimeInt.t (gset ChunkId.t)) (t : TimeInt.t) : Prop :=
  exists time ids id, m !! time = Some ids /\ id ∈ ids /\ T id t.

Lemma indexed_times T m t l1 l2 :
  (forall time ids, (time, ids) ∈ l1 \/ (time, ids) ∈ l2 <-> m !! time = Some ids) ->
  times_of T l1 t \/ times_of T l2 t <-> indexed T m t.
Proof.
  intros Hl. unfold times_of, indexed. split.
  - intros [(time & ids & id & Hin & ?)|(time & ids & id & Hin & ?)]; exists time, ids, id; (split; [apply Hl|]); tauto.
  - intros (time & ids & id & [Hin|Hin]%Hl & ?); [left|right]; by exists time, ids, id.
Qed.

Lemma next_step st timeline search T P result index after : (forall id, best TimeInt.le (T id) (search_chunk_by_time st timeline id search)) ->
  (forall time ids id t, ChunkIdSetPerTime.per_start_time index !! time = Some ids -> id ∈ ids -> T id t -> TimeInt.le time t = true) ->
  best TimeInt.le P result ->
  let starts := ChunkIdSetPerTime.per_start_time index in
  best TimeInt.le (fun t => P t \/ indexed T starts t)
    (search_all st timeline opt_min search
       (search_until st timeline opt_min search TimeInt.le result
          (List.filter (fun '(time, _) => TimeInt.lt after time) (entries starts)))
       (rev (range_to starts after))).
Proof.
  intros Hs Hstart HP starts. set (later := List.filter _ _).
  assert (forall time ids, (time, ids) ∈ later <-> starts !! time = Some ids /\ TimeInt.as_i64 after < TimeInt.as_i64 time) as Hlater.
  { intros time ids. unfold later. rewrite elem_of_filter_bool, elem_of_entries. by rewrite TimeInt.lt_as_i64, Z.ltb_lt. }
  eapply (best_ext TimeInt.le (fun t => (P t \/ times_of T later t) \/ times_of T (rev (range_to starts after)) t)).
  { intros t. rewrite <- (indexed_times T starts t later (rev (range_to starts after))); [tauto|].
    intros time ids. rewrite elem_of_rev, elem_of_range_to, Hlater. destruct (Z.le_gt_cases (TimeInt.as_i64 time) (TimeInt.as_i64 after)); lia || tauto. }
  apply best_all; [apply _|done|by intros []|apply opt_min_some|done|].
  apply best_until; [apply _|done|by intros []|apply opt_min_some|done|done| |].
  - apply (sorted_filter_bool (fun '(time, _) => TimeInt.lt after time)), entries_sorted.
  - intros time ids id t [Hin _]%Hlater. by apply Hstart.
Qed.

Lemma prev_step st timeline search T P result index before : (forall id, best time_ge (T id) (search_chunk_by_time st timeline id search)) ->
  (forall time ids id t, ChunkIdSetPerTime.per_end_time index !! time = Some ids -> id ∈ ids -> T id t -> TimeInt.le t time = true) ->
  best time_ge P result ->
  let ends := ChunkIdSetPerTime.per_end_time index in
  best time_ge (fun t => P t \/ indexed T ends t)
    (search_all st timeline opt_max search
       (search_until st timeline opt_max search (fun r time => TimeInt.le time r) result
          (rev (List.filter (fun '(time, _) => TimeInt.lt time before) (entries ends))))
       (List.filter (fun '(time, _) => TimeInt.le before time) (entries ends))).
Proof.
  intros Hs Hend HP ends. set (earlier := List.filter (fun '(time, _) => TimeInt.lt time before) _).
  set (later := List.filter (fun '(time, _) => TimeInt.le before time) _).
  assert (forall time ids, (time, ids) ∈ earlier <-> ends !! time = Some ids /\ TimeInt.as_i64 time < TimeInt.as_i64 before) as Hearlier.
  { intros time ids. unfold earlier. rewrite elem_of_filter_bool, elem_of_entries. by rewrite TimeInt.lt_as_i64, Z.ltb_lt. }
  assert (forall time ids, (time, ids) ∈ later <-> ends !! time = Some ids /\ TimeInt.as_i64 before <= TimeInt.as_i64 time) as Hlater.
  { intros time ids. unfold later. rewrite elem_of_filter_bool, elem_of_entries. by rewrite TimeInt.le_as_i64, Z.leb_le. }
  eapply (best_ext time_ge (fun t => (P t \/ times_of T (rev earlier) t) \/ times_of T later t)).
  { intros t. rewrite <- (indexed_times T ends t (rev earlier) later); [tauto|].
    intros time ids. rewrite elem_of_rev, Hearlier, Hlater. destruct (Z.le_gt_cases (TimeInt.as_i64 before) (TimeInt.as_i64 time)); lia || tauto. }
  apply best_all; [apply _|done|by intros []|apply opt_max_some|done|].
  apply best_until; [apply _|done|by intros []|apply opt_max_some|done|done| |].
  - apply (sorted_rev entry_le). apply (sorted_filter_bool (fun '(time, _) => TimeInt.lt time before)), entries_sorted.
  - intros time ids id t [Hin _]%elem_of_rev%Hearlier. by apply Hend.
Qed.

Lemma fold_steps le T (m : ChunkIdSetPerTime.t -> gmap TimeInt.t (gset ChunkId.t)) timeline step ls P result :
  (forall P result index per_timeline, per_timeline ∈ ls -> per_timeline !! timeline = Some index -> best le P result ->
     best le (fun t => P t \/ indexed T (m index) t) (step result index)) ->
  best le P result ->
  best le (fun t => P t \/ exists per_timeline index, per_timeline ∈ ls /\ per_timeline !! timeline = Some index /\ indexed T (m index) t)
    (foldl (fun result (per_timeline : gmap string ChunkIdSetPerTime.t) =>
       match per_timeline !! timeline with None => result | Some index => step result index end) result ls).
Proof.
  revert P result. induction ls as [|per_timeline ls IH]; intros P result Hstep HP.
  { eapply best_ext; [|exact HP]. set_solver. }
  simpl. destruct (per_timeline !! timeline) as [index|] eqn:E.
  - eapply best_ext; [|apply IH; [intros; eapply Hstep; [by right|done..]|by eapply Hstep; [left|..]]]. set_solver.
  - eapply best_ext; [|apply IH; [intros; eapply Hstep; [by right|done..]|exact HP]]. set_solver.
Qed.

Lemma elem_of_timeline_ranges cs path timeline id r :
  (id, r) ∈ timeline_ranges cs path timeline <->
  exists c tc, c ∈ cs /\ Chunk.id c = id /\ Chunk.entity_path c = path /\ Chunk.timelines c !! timeline = Some tc
    /\ TimeColumn.time_range tc = r.
Proof.
  unfold timeline_ranges. rewrite list_elem_of_omap. split.
  - intros (c & Hin & Hc). case_decide; [|done]. destruct (Chunk.timelines c !! timeline) as [tc|] eqn:E; [|done].
    injection Hc as <- <-. by exists c, tc.
  - intros (c & tc & Hin & <- & <- & Htc & <-). exists c. split; [done|]. rewrite decide_True by done. by rewrite Htc.
Qed.

(** A row in memory with a time. *)
Definition timed st (timeline : string) (p : Z -> Prop) (t : TimeInt.t) : Prop :=
  (exists path s, s ∈ temporal_rows path st /\ row_times s !! timeline = Some (TimeInt.as_i64 t)) /\ p (TimeInt.as_i64 t).

Lemma times_of_rows c timeline tc z : chunk_wf c -> Chunk.timelines c !! timeline = Some tc ->
  z ∈ TimeColumn.times tc <-> exists s, s ∈ rows c /\ row_times s !! timeline = Some z.
Proof.
  intros Hwf Htc. rewrite <- (time_of_rows c timeline tc Hwf Htc), list_elem_of_fmap. unfold time_of. split.
  - intros (s & -> & Hs). exists s. split; [done|]. destruct (proj2 (row_time_some c s timeline Hwf Hs)) as [z' ->]; [by eexists|done].
  - intros (s & Hs & E). exists s. by rewrite E.
Qed.

(** What the indices know of is what is in memory. *)
Lemma indexed_rows st cs timeline p m bound t : store_ok st cs [] -> wf_chunks st -> all_physical st cs ->
  (forall index path, represents index (timeline_ranges cs path timeline) -> maps_times (m index) bound (timeline_ranges cs path timeline)) ->
  (exists per_timeline index, per_timeline ∈ (map_to_list (temporal_chunk_ids_per_entity st)).*2
     /\ per_timeline !! timeline = Some index /\ indexed (has_time st timeline p) (m index) t)
  <-> timed st timeline p t.
Proof.
  intros Hok Hwf Hphys Hm. destruct (ok_virtual _ _ _ _ Hok) as [_ Hv]. unfold timed. split.
  - intros (per_timeline & index & Hpt & Hi & (time & ids & id & _ & _ & (c & tc & Hc & Htc & Hz & Hp))). split; [|done].
    destruct (Hwf id c Hc) as (Hcw & _). destruct (proj1 (times_of_rows c timeline tc _ Hcw Htc) Hz) as (s & Hs & Ht).
    exists (Chunk.entity_path c), s. split; [|done]. apply (elem_of_temporal_rows st cs _ s Hok Hphys). exists c.
    split; [|done]. apply (ok_temporal _ _ _ _ Hok id c Hc). apply bool_decide_eq_false. intros E. by rewrite E in Htc.
  - intros [(path & s & Hs & Ht) Hp]. apply (elem_of_temporal_rows st cs path s Hok Hphys) in Hs as (c & Hc & Hpath & Hs).
    pose proof (Hphys c Hc) as Hpc. destruct (Hwf _ c Hpc) as (Hcw & _).
    destruct (proj1 (row_time_some c s timeline Hcw Hs)) as [tc Htc]; [by eexists|].
    specialize (Hv path timeline). assert ((Chunk.id c, TimeColumn.time_range tc) ∈ timeline_ranges cs path timeline) as Hin
      by (apply elem_of_timeline_ranges; by exists c, tc).
    destruct (timeline_index st path (Some timeline)) as [index|] eqn:Ei.
    2: { destruct (elem_of_start _ _ _ _ Hv Hin) as (ids & Hids & _). exact (False_ind _ (lookup_empty_Some _ _ Hids)). }
    unfold timeline_index in Ei. destruct (temporal_chunk_ids_per_entity st !! path) as [per_timeline|] eqn:Ept; [|done].
    csimpl in Ei. csimpl in Hv.
    exists per_timeline, index. split; [apply list_elem_of_fmap; exists (path, per_timeline); split; [done|by apply elem_of_map_to_list]|].
    split; [done|]. destruct (proj2 (proj2 (Hm index path Hv) (bound (TimeColumn.time_range tc)) (Chunk.id c))) as (ids & Hids & Hid); [by eexists|].
    eexists _, ids, (Chunk.id c). split_and!; [done|done|]. exists c, tc. split_and!; [done..| |done].
    apply (times_of_rows c timeline tc _ Hcw Htc). by exists s.
Qed.

Lemma indexed_ranges st cs timeline p per_timeline index : store_ok st cs [] -> wf_chunks st -> all_physical st cs ->
  per_timeline ∈ (map_to_list (temporal_chunk_ids_per_entity st)).*2 -> per_timeline !! timeline = Some index ->
  exists L, represents index L
    /\ forall id r t, (id, r) ∈ L -> has_time st timeline p id t ->
         TimeInt.le (rmin r) t = true /\ TimeInt.le t (rmax r) = true.
Proof.
  intros Hok Hwf Hphys Hpt Hi. apply list_elem_of_fmap in Hpt as ([path pt] & -> & Hpt%elem_of_map_to_list).
  destruct (ok_virtual _ _ _ _ Hok) as [_ Hv]. specialize (Hv path timeline). unfold timeline_index in Hv.
  rewrite Hpt in Hv. csimpl in Hv. simpl in Hi. rewrite Hi in Hv. eexists. split; [exact Hv|].
  intros id r t (c & tc & Hc & <- & _ & Htc & <-)%elem_of_timeline_ranges (c' & tc' & Hc' & Htc' & Hz & _).
  pose proof (Hphys c Hc) as Hpc. assert (c' = c) as -> by congruence. assert (tc' = tc) as -> by congruence.
  destruct (Hwf _ c Hpc) as ((_ & Ht & _) & _). destruct (Ht _ _ Htc) as [_ (_ & _ & Htight)].
  destruct Htight as (_ & _ & Hall); [intros E; rewrite E in Hz; by apply elem_of_nil in Hz|].
  rewrite Forall_forall in Hall. specialize (Hall _ Hz). rewrite !TimeInt.le_as_i64, !Z.leb_le. lia.
Qed.

(** The two steps find the first of the times there are. *)
Lemma next_time_ok st cs timeline after : store_ok st cs [] -> wf_chunks st -> all_physical st cs ->
  best TimeInt.le (timed st timeline (fun z => TimeInt.as_i64 after < z)) (next_time_on_timeline st timeline after).
Proof.
  intros Hok Hwf Hphys. set (p := fun z => _).
  eapply (best_ext TimeInt.le (fun t => False \/ _)).
  { intros t. rewrite <- (indexed_rows st cs timeline p ChunkIdSetPerTime.per_start_time rmin t Hok Hwf Hphys) by by intros ? ? (? & _).
    rewrite (left_id False or). reflexivity. }
  apply (fold_steps TimeInt.le (has_time st timeline p) ChunkIdSetPerTime.per_start_time timeline
    (fun result index => search_all st timeline opt_min _ (search_until st timeline opt_min _ TimeInt.le result _) _) _ (fun _ => False));
    [|by intros t []].
  intros P result index per_timeline Hpt Hi HP.
  destruct (indexed_ranges st cs timeline p per_timeline index Hok Hwf Hphys Hpt Hi) as (L & HL & Hrange).
  apply next_step; [|intros time ids id t Hids Hid HT|done].
  - apply searched; [done|]. intros tc Hw. by apply next_best.
  - destruct (proj1 (proj2 (proj1 HL) time id)) as (r & Hin & <-); [by exists ids|]. by apply (Hrange id r t).
Qed.

Lemma prev_time_ok st cs timeline before : store_ok st cs [] -> wf_chunks st -> all_physical st cs ->
  best time_ge (timed st timeline (fun z => z < TimeInt.as_i64 before)) (prev_time_on_timeline st timeline before).
Proof.
  intros Hok Hwf Hphys. set (p := fun z => _).
  eapply (best_ext time_ge (fun t => False \/ _)).
  { intros t. rewrite <- (indexed_rows st cs timeline p ChunkIdSetPerTime.per_end_time rmax t Hok Hwf Hphys) by by intros ? ? (_ & ? & _).
    rewrite (left_id False or). reflexivity. }
  apply (fold_steps time_ge (has_time st timeline p) ChunkIdSetPerTime.per_end_time timeline
    (fun result index => search_all st timeline opt_max _ (search_until st timeline opt_max _ (fun r time => TimeInt.le time r) result _) _) _ (fun _ => False));
    [|by intros t []].
  intros P result index per_timeline Hpt Hi HP.
  destruct (indexed_ranges st cs timeline p per_timeline index Hok Hwf Hphys Hpt Hi) as (L & HL & Hrange).
  apply prev_step; [|intros time ids id t Hids Hid HT|done].
  - apply searched; [done|]. intros tc Hw. by apply prev_best.
  - destruct (proj1 (proj2 (proj1 (proj2 HL)) time id)) as (r & Hin & <-); [by exists ids|]. by apply (Hrange id r t).
Qed.

(** The times that were logged on a timeline. *)
Definition logged_time (timeline : string) (xs : list Chunk.t) (z : Z) : Prop :=
  exists x s, x ∈ xs /\ s ∈ rows x /\ row_times s !! timeline = Some z.

Context `{!SizeLaws} `{!HashOrderLaws} (Hvs : very_strict = false).

Lemma row_times_temporal x s timeline z : s ∈ rows x -> row_times s !! timeline = Some z -> Chunk.is_static x = false.
Proof.
  intros (i & Hi)%list_elem_of_lookup_1 Ht. rewrite lookup_rows in Hi.
  destruct (Chunk.row_ids x !! i); [|done]. injection Hi as <-. apply bool_decide_eq_false. intros E.
  cbn [row_at row_times] in Ht. by rewrite E, lookup_omap, lookup_empty in Ht.
Qed.

Lemma timed_journal config xs st timeline p t : journal config xs st ->
  timed st timeline p t <-> logged_time timeline xs (TimeInt.as_i64 t) /\ p (TimeInt.as_i64 t).
Proof.
  intros Hj. destruct (journal_ok Hvs config xs st Hj) as (_ & _ & _ & _ & Hrows). unfold timed, logged_time.
  apply and_iff_compat_r. setoid_rewrite Hrows. unfold journal_rows. setoid_rewrite list_elem_of_bind. split.
  - intros (path & s & (x & Hs & Hx) & Ht). exists x, s. split_and!; [done| |done].
    unfold new_rows in Hs. case_decide; [done|by apply elem_of_nil in Hs].
  - intros (x & s & Hx & Hs & Ht). exists (Chunk.entity_path x), s. split; [|done]. exists x. split; [|done].
    unfold new_rows. rewrite decide_True; [done|]. split; [|done]. by eapply row_times_temporal.
Qed.

Lemma logged_time_int config xs st timeline z : journal config xs st -> logged_time timeline xs z ->
  exists t, TimeInt.as_i64 t = z.
Proof.
  intros Hj (x & s & Hx & Hs & Ht). destruct (journal_ok Hvs config xs st Hj) as (cs & Hok & Hwf & Hphys & Hrows).
  assert (s ∈ temporal_rows (Chunk.entity_path x) st) as Hm.
  { rewrite Hrows. apply list_elem_of_bind. exists x. split; [|done]. unfold new_rows.
    rewrite decide_True; [done|]. split; [|done]. by eapply row_times_temporal. }
  apply (elem_of_temporal_rows st cs _ s Hok Hphys) in Hm as (c & Hc & _ & Hsc).
  destruct (Hwf _ c (Hphys c Hc)) as (Hcw & _). destruct (proj1 (row_time_some c s timeline Hcw Hsc)) as [tc Htc]; [by eexists|].
  assert (z ∈ TimeColumn.times tc) as Hz by (apply (times_of_rows c timeline tc z Hcw Htc); by exists s).
  destruct Hcw as (_ & Htl & _). destruct (Htl _ _ Htc) as [_ (_ & Hf & _)]. rewrite Forall_forall in Hf.
  specialize (Hf z Hz). exists (TimeInt.new_temporal z). unfold temporal_i64 in Hf. rewrite TimeInt.as_i64_new_temporal; int_lia.
Qed.

Lemma best_logged config xs st timeline p o le : journal config xs st -> best le (timed st timeline p) o ->
  match o with
  | Some n => (logged_time timeline xs (TimeInt.as_i64 n) /\ p (TimeInt.as_i64 n))
      /\ forall z, logged_time timeline xs z -> p z -> exists u, TimeInt.as_i64 u = z /\ le n u = true
  | None => forall z, logged_time timeline xs z -> ~ p z
  end.
Proof.
  intros Hj Ho.
  assert (forall z, logged_time timeline xs z -> p z -> exists u, TimeInt.as_i64 u = z /\ timed st timeline p u) as Hz.
  { intros z Hz Hpz. destruct (logged_time_int config xs st timeline z Hj Hz) as [u <-]. exists u.
    split; [done|]. by apply (timed_journal config xs st timeline p u). }
  destruct o as [n|].
  - destruct Ho as [Hn Hle]. split; [by apply (timed_journal config xs st timeline p n)|]. intros z Hlz Hpz.
    destruct (Hz z Hlz Hpz) as (u & ? & Hu). exists u. split; [done|by apply Hle].
  - intros z Hlz Hpz. destruct (Hz z Hlz Hpz) as (u & _ & Hu). by apply (Ho u).
Qed.

(** C19. Steps in time after any sequence of insertions: [next_time_on_timeline] is the least time
    after the given one of all those that were logged on the timeline, for whatever entity, and
    [prev_time_on_timeline] the greatest before it; they are [None] exactly when there is none. *)
Theorem journal_next_prev_spec config xs st timeline t (Hjournal : journal config xs st) :
  match next_time_on_timeline st timeline t with
  | Some n => logged_time timeline xs (TimeInt.as_i64 n) /\ TimeInt.as_i64 t < TimeInt.as_i64 n
      /\ forall z, logged_time timeline xs z -> TimeInt.as_i64 t < z -> TimeInt.as_i64 n <= z
  | None => forall z, logged_time timeline xs z -> z <= TimeInt.as_i64 t
  end /\
  match prev_time_on_timeline st timeline t with
  | Some n => logged_time timeline xs (TimeInt.as_i64 n) /\ TimeInt.as_i64 n < TimeInt.as_i64 t
      /\ forall z, logged_time timeline xs z -> z < TimeInt.as_i64 t -> z <= TimeInt.as_i64 n
  | None => forall z, logged_time timeline xs z -> TimeInt.as_i64 t <= z
  end.
Proof.
  destruct (journal_ok Hvs config xs st Hjournal) as (cs & Hok & Hwf & Hphys & _).
  pose proof (next_time_ok st cs timeline t Hok Hwf Hphys) as Hn.
  pose proof (prev_time_ok st cs timeline t Hok Hwf Hphys) as Hp.
  apply (best_logged config xs) in Hn, Hp; [|done..]. split.
  - destruct (next_time_on_timeline st timeline t) as [n|].
    + destruct Hn as [[? ?] Hn]. split_and!; [done..|]. intros z Hz Ht. destruct (Hn z Hz Ht) as (u & <- & Hle).
      by rewrite TimeInt.le_as_i64, Z.leb_le in Hle.
    + intros z Hz. specialize (Hn z Hz). lia.
  - destruct (prev_time_on_timeline st timeline t) as [n|].
    + destruct Hp as [[? ?] Hp]. split_and!; [done..|]. intros z Hz Ht. destruct (Hp z Hz Ht) as (u & <- & Hle).
      unfold time_ge in Hle. by rewrite TimeInt.le_as_i64, Z.leb_le in Hle.
    + intros z Hz. specialize (Hp z Hz). lia.
Qed.


End Steps.
