(* ===== verification/QueryCache.v ===== *)
(** * The query caches

    [dl_query/src/cache.rs], [latest_at.rs], [range.rs] and [latest_all.rs]: queries on a store
    through caches that the store's events invalidate.  A store and its caches are separate
    values here; a function that takes the lock of one has it as an argument and returns it if
    it changes it.  The caches of one kind are a map by key, and each is what its own lock
    guards.

    [clear_from_arrow] stands for the deserialization of a [ClearIsRecursive], [total_size_bytes]
    for the measured size of the caches.  [fresh] gives the ids the queries on chunks draw: by
    the key of the cache and the position of the chunk among the relevant ones. *)

From stdpp Require Import strings.
From Stdlib Require Import Floats.SpecFloat.
From S2P Require Import Prelude Ints TimeInt TimeRange Tuid Arrow Column Chunk ChunkSlice.
From S2P Require Import ChunkSort ChunkQuery ChunkIndex Lineage StoreStats ChunkStore StoreGc StoreWrites.

(** [QueryCacheKey]; without a timeline for a static query. *)
Record QueryCacheKey := Key {
  key_entity_path : EntityPath;
  key_timeline_name : option TimelineName;
  key_component : ComponentIdentifier;
}.

#[global] Instance key_eq_dec : EqDecision QueryCacheKey.
Proof. solve_decision. Defined.
#[global] Instance key_countable : Countable QueryCacheKey.
Proof.
  apply (inj_countable' (fun k => (key_entity_path k, key_timeline_name k, key_component k))
    (fun '(p, t, c) => Key p t c)). by intros [].
Defined.

Class ClearCodec `{ArrowOps} := clear_from_arrow : Array -> option (list bool).

(** [archetypes::Clear::descriptor_is_recursive().component]. *)
Definition clear_component : ComponentIdentifier := "Clear:is_recursive"%string.

(** An index of the data: its time and its row id, with the derived [Ord]. *)
Notation DataIndex := (TimeInt.t * RowId.t)%type (only parsing).

Definition index_le (a b : DataIndex) : bool :=
  TimeInt.lt a.1 b.1 || (bool_decide (a.1 = b.1) && RowId.le a.2 b.2).

(** [Ord::min] and [Ord::max] on indices. *)
Definition index_min (a b : DataIndex) : DataIndex := if index_le a b then a else b.
Definition index_max (a b : DataIndex) : DataIndex := if index_le a b then b else a.

Definition index_cmp (a b : DataIndex) : comparison :=
  match TimeInt.cmp a.1 b.1 with Eq => RowId.cmp a.2 b.2 | c => c end.

(** [compare_indices]: static data is above all other. *)
Definition compare_indices (lhs rhs : DataIndex) : comparison :=
  if TimeInt.is_static lhs.1 && TimeInt.is_static rhs.1 then RowId.cmp lhs.2 rhs.2
  else if TimeInt.is_static rhs.1 then Lt
  else if TimeInt.is_static lhs.1 then Gt
  else index_cmp lhs rhs.

(** ** Latest-at queries on one component *)

Module LatestAtCache.

(** [LatestAtCachedChunk]. *)
Record CachedChunk `{ArrowOps} := Cached { unit : UnitChunk.t; is_reference : bool }.
#[global] Arguments Cached {_} _ _.

Record t `{ArrowOps} := Mk {
  cache_key : QueryCacheKey;
  per_query_time : gmap TimeInt.t CachedChunk;
  pending_invalidations : gset TimeInt.t;
}.
#[global] Arguments Mk {_} _ _ _.

Section Operations.

Context `{Build} `{ArrowOps} `{!Chunk.SizeBytes}.
Implicit Types self : t.
Implicit Types store : ChunkStore.t.

Definition new (cache_key : QueryCacheKey) : t := Mk cache_key ∅ ∅.

(** The [filter_map] over the relevant chunks, [i] the position of the first one. *)
Fixpoint chunk_units (fresh : nat -> ChunkId.t) (i : nat) (query : LatestAtQuery.t)
    (component : ComponentIdentifier) (chunks : list Chunk.t) : outcome (list (DataIndex * UnitChunk.t)) :=
  match chunks with
  | [] => Done []
  | chunk :: chunks =>
      unit ← ChunkQuery.latest_at (fresh i) chunk query component;
      index ← (match unit with
               | None => Done None
               | Some unit => UnitChunk.index unit (LatestAtQuery.timeline query)
               end);
      units ← chunk_units fresh (S i) query component chunks;
      Done (match unit, index with
            | Some unit, Some index => (index, unit) :: units
            | _, _ => units
            end)
  end.

(** [max_by_key]: the last of the greatest. *)
Definition latest_unit (units : list (DataIndex * UnitChunk.t)) : option (DataIndex * UnitChunk.t) :=
  iter_max (fun a b => index_le a.1 b.1) units.

(** [report_used_physical_chunk_id] and [report_transient_used_physical_chunk_id] of
    [dl_chunk_store/src/store.rs]. *)
Definition report_used store (report_mode : ChunkTrackingMode) (chunk_id : ChunkId.t) : outcome ChunkStore.t :=
  let tracker := ChunkStore.queried_chunk_id_tracker store in
  let check := debug_assert (bool_decide (is_Some (ChunkStore.physical_chunks_per_chunk_id store !! chunk_id))) in
  match report_mode with
  | Report =>
      _ ← check;
      Done (ChunkStore.with_tracker store
        {| used_physical := {[chunk_id]} ∪ used_physical tracker;
           transient_used_physical := transient_used_physical tracker;
           missing_virtual_ids := missing_virtual_ids tracker;
           transient_missing_virtual := transient_missing_virtual tracker;
           indicated_virtual := indicated_virtual tracker |})
  | ReportTransient =>
      _ ← check;
      Done (ChunkStore.with_tracker store
        {| used_physical := used_physical tracker;
           transient_used_physical := {[chunk_id]} ∪ transient_used_physical tracker;
           missing_virtual_ids := missing_virtual_ids tracker;
           transient_missing_virtual := transient_missing_virtual tracker;
           indicated_virtual := indicated_virtual tracker |})
  | Ignore | PanicOnMissing => Done store
  end.

(** [entry(k).or_insert(v)], and the entry. *)
Definition entry_or_insert (m : gmap TimeInt.t CachedChunk) (k : TimeInt.t) (v : CachedChunk)
    : gmap TimeInt.t CachedChunk * CachedChunk :=
  match m !! k with Some old => (m, old) | None => (<[k := v]> m, v) end.

(** What a query on the store, without the cache, answers. *)
Definition query_store (fresh : nat -> ChunkId.t) (report_mode : ChunkTrackingMode) store
    (query : LatestAtQuery.t) (entity_path : EntityPath) (component : ComponentIdentifier)
    : outcome (ChunkStore.t * result (option (DataIndex * UnitChunk.t)) (list ChunkId.t)) :=
  '(results, store) ← ChunkStore.latest_at_relevant_chunks store report_mode query entity_path component;
  if ChunkStore.is_partial results then Done (store, Err (ChunkStore.missing_virtual results)) else
  units ← chunk_units fresh 0 query component (ChunkStore.chunks results);
  Done (store, Ok (latest_unit units)).

Definition latest_at (fresh : nat -> ChunkId.t) self (report_mode : ChunkTrackingMode) store
    (query : LatestAtQuery.t) (entity_path : EntityPath) (component : ComponentIdentifier)
    : outcome (t * ChunkStore.t * (option UnitChunk.t * list ChunkId.t)) :=
  _ ← debug_assert (bool_decide (LatestAtQuery.timeline query = key_timeline_name (cache_key self)));
  match per_query_time self !! LatestAtQuery.at_ query with
  | Some cached =>
      store ← report_used store report_mode (UnitChunk.original_chunk_id (unit cached));
      Done (self, store, (Some (unit cached), []))
  | None =>
      '(store, answer) ← query_store fresh report_mode store query entity_path component;
      match answer with
      | Err missing_virtual => Done (self, store, (None, missing_virtual))
      | Ok None => Done (self, store, (None, []))
      | Ok (Some ((data_time, _), unit_)) =>
          let '(m, cached) := entry_or_insert (per_query_time self) data_time (Cached unit_ false) in
          let m :=
            if negb (bool_decide (LatestAtQuery.at_ query = data_time)) && negb (TimeInt.is_static data_time)
            then fst (entry_or_insert m (LatestAtQuery.at_ query) (Cached (unit cached) true))
            else m in
          Done (Mk (cache_key self) m (pending_invalidations self), store, (Some (unit cached), []))
      end
  end.

(** [BTreeSet::first]. *)
Definition first (times : gset TimeInt.t) : option TimeInt.t := iter_min TimeInt.le (elements times).

(** [BTreeMap::split_off]: what stays and what is split off. *)
Definition split_off {A} (m : gmap TimeInt.t A) (at_ : TimeInt.t) : gmap TimeInt.t A * gmap TimeInt.t A :=
  (filter (fun e => TimeInt.lt e.1 at_ = true) m, filter (fun e => TimeInt.le at_ e.1 = true) m).

(** The closure given to [retain]. *)
Definition is_kept (discarded : gmap TimeInt.t CachedChunk) (data_time : TimeInt.t) : bool :=
  match discarded !! data_time with Some chunk => negb (is_reference chunk) | None => false end.

Definition handle_pending_invalidation self : t :=
  match first (pending_invalidations self) with
  | None => self
  | Some oldest_data_time =>
      let '(m, discarded) := split_off (per_query_time self) oldest_data_time in
      Mk (cache_key self) m
        (filter (fun data_time => is_kept discarded data_time = true) (pending_invalidations self))
  end.

(** [pending_invalidations.insert(time)]. *)
Definition invalidate self (time : TimeInt.t) : t :=
  Mk (cache_key self) (per_query_time self) ({[time]} ∪ pending_invalidations self).

End Operations.

End LatestAtCache.

(** ** Range queries on one component *)

Module RangeCache.

(** [RangeCachedChunk]. *)
Record CachedChunk `{ArrowOps} := Cached { chunk : Chunk.t; reallocated : bool }.
#[global] Arguments Cached {_} _ _.

Record t `{ArrowOps} := Mk {
  cache_key : QueryCacheKey;
  chunks : gmap ChunkId.t CachedChunk;
  pending_invalidations : gset ChunkId.t;
}.
#[global] Arguments Mk {_} _ _ _.

(** The ids drawn for one of the relevant chunks. *)
Inductive Draw := DensifyDraw | SortDraw | RangeDraw (i : nat).

Section Operations.

Context `{Build} `{ArrowOps} `{!Chunk.SizeBytes}.
Implicit Types self : t.
Implicit Types store : ChunkStore.t.

Definition new (cache_key : QueryCacheKey) : t := Mk cache_key ∅ ∅.

(** The chunk to cache for a chunk of the store. *)
Definition process (fresh : Draw -> ChunkId.t) (timeline_name : option TimelineName)
    (component : ComponentIdentifier) (raw_chunk : Chunk.t) : outcome CachedChunk :=
  '(chunk, densified) ← ChunkSlice.densified (fresh DensifyDraw) raw_chunk component;
  chunk ← (match timeline_name with
           | Some timeline_name => ChunkSort.sorted_by_timeline_if_unsorted (fresh SortDraw) chunk timeline_name
           | None => Done chunk
           end);
  Done (Cached (Chunk.with_id chunk (Chunk.id raw_chunk))
    (densified || match timeline_name with
                  | Some timeline_name => negb (Chunk.is_timeline_sorted raw_chunk timeline_name)
                  | None => false
                  end)).

(** The loop that fills the cache, [i] the position of the first chunk. *)
Fixpoint cache_chunks (fresh : nat -> Draw -> ChunkId.t) (i : nat) (timeline_name : option TimelineName)
    (component : ComponentIdentifier) (raw_chunks : list Chunk.t) (m : gmap ChunkId.t CachedChunk)
    : outcome (gmap ChunkId.t CachedChunk) :=
  match raw_chunks with
  | [] => Done m
  | raw_chunk :: raw_chunks =>
      m ← (match m !! Chunk.id raw_chunk with
           | Some _ => Done m
           | None =>
               cached ← process (fresh i) timeline_name component raw_chunk;
               Done (<[Chunk.id raw_chunk := cached]> m)
           end);
      cache_chunks fresh (S i) timeline_name component raw_chunks m
  end.

(** The pipeline that filters the cached chunks. *)
Fixpoint range_chunks (fresh : nat -> Draw -> ChunkId.t) (i : nat) (query : RangeQuery.t)
    (component : ComponentIdentifier) (m : gmap ChunkId.t CachedChunk) (raw_chunks : list Chunk.t)
    : outcome (list Chunk.t) :=
  match raw_chunks with
  | [] => Done []
  | raw_chunk :: raw_chunks =>
      match m !! Chunk.id raw_chunk with
      | None => range_chunks fresh (S i) query component m raw_chunks
      | Some cached =>
          let cached := chunk cached in
          _ ← debug_assert (Chunk.is_timeline_sorted cached (RangeQuery.timeline query));
          chunk ← ChunkQuery.range (fun d => fresh i (RangeDraw d)) cached query component;
          let chunk := Chunk.with_id chunk (Chunk.id cached) in
          chunks ← range_chunks fresh (S i) query component m raw_chunks;
          Done (if Chunk.is_empty chunk then chunks else chunk :: chunks)
      end
  end.

Definition range (fresh : nat -> Draw -> ChunkId.t) self store (query : RangeQuery.t)
    (entity_path : EntityPath) (component : ComponentIdentifier) (tracking_mode : ChunkTrackingMode)
    : outcome (t * ChunkStore.t * (list Chunk.t * list ChunkId.t)) :=
  _ ← debug_assert (bool_decide (Some (RangeQuery.timeline query) = key_timeline_name (cache_key self)));
  '(results, store) ← ChunkStore.range_relevant_chunks store tracking_mode query entity_path component;
  m ← cache_chunks fresh 0 (key_timeline_name (cache_key self)) component (ChunkStore.chunks results) (chunks self);
  selected ← range_chunks fresh 0 query component m (ChunkStore.chunks results);
  Done (Mk (cache_key self) m (pending_invalidations self), store, (selected, ChunkStore.missing_virtual results)).

Definition handle_pending_invalidation self : t :=
  Mk (cache_key self) (filter (fun e => e.1 ∉ pending_invalidations self) (chunks self)) ∅.

(** [pending_invalidations.extend(ids)]. *)
Definition invalidate self (ids : gset ChunkId.t) : t :=
  Mk (cache_key self) (chunks self) (ids ∪ pending_invalidations self).

(** [time_range]. *)
Definition time_range self : AbsoluteTimeRange.t :=
  foldl (fun acc time_range =>
      let acc := AbsoluteTimeRange.set_min acc (Ok (TimeInt.min (AbsoluteTimeRange.rmin acc) (AbsoluteTimeRange.rmin time_range))) in
      AbsoluteTimeRange.set_max acc (Ok (TimeInt.max (AbsoluteTimeRange.rmax acc) (AbsoluteTimeRange.rmax time_range))))
    AbsoluteTimeRange.EMPTY
    (omap (fun cached =>
       timeline_name ← key_timeline_name (cache_key self);
       TimeColumn.time_range <$> Chunk.timelines (chunk cached) !! timeline_name) (map_to_list (chunks self)).*2).

End Operations.

End RangeCache.

(** ** Results *)

Module LatestAtResults.

Record t `{ArrowOps} := Mk {
  entity_path : EntityPath;
  query : LatestAtQuery.t;
  missing_virtual : list ChunkId.t;
  min_index : DataIndex;
  max_index : DataIndex;
  components : gmap string UnitChunk.t;
}.
#[global] Arguments Mk {_} _ _ _ _ _ _.

Section Operations.

Context `{Build} `{ArrowOps}.
Implicit Types self : t.

Definition empty (entity_path : EntityPath) (query : LatestAtQuery.t) : t :=
  Mk entity_path query [] (TimeInt.MAX, RowId.MAX) (TimeInt.STATIC, RowId.ZERO) ∅.

Definition is_partial self : bool := negb (bool_decide (missing_virtual self = [])).
Definition is_empty self : bool :=
  bool_decide (missing_virtual self = [])
  && forallb (fun unit => Chunk.is_empty (UnitChunk.chunk unit)) (map_to_list (components self)).*2.
Definition get self (component : ComponentIdentifier) : option UnitChunk.t := components self !! component.

Definition add self (component : ComponentIdentifier) (index : DataIndex) (chunk : UnitChunk.t) : outcome t :=
  _ ← debug_assert (Chunk.num_rows (UnitChunk.chunk chunk) =? 1)%nat;
  Done (Mk (entity_path self) (query self) (missing_virtual self)
    (index_min (min_index self) index) (index_max (max_index self) index)
    (<[component := chunk]> (components self))).

(** [missing_virtual.extend(missing)]. *)
Definition extend_missing self (missing : list ChunkId.t) : t :=
  Mk (entity_path self) (query self) (missing_virtual self ++ missing) (min_index self) (max_index self) (components self).

End Operations.

End LatestAtResults.

Module RangeResults.

Record t `{ArrowOps} := Mk {
  query : RangeQuery.t;
  missing_virtual : list ChunkId.t;
  components : gmap string (list Chunk.t);
}.
#[global] Arguments Mk {_} _ _ _.

Section Operations.

Context `{ArrowOps}.
Implicit Types self : t.

Definition new (query : RangeQuery.t) : t := Mk query [] ∅.
Definition is_partial self : bool := negb (bool_decide (missing_virtual self = [])).
Definition is_empty self : bool :=
  bool_decide (missing_virtual self = []) && forallb (fun chunks => (length chunks =? 0)%nat) (map_to_list (components self)).*2.
Definition get self (component : ComponentIdentifier) : option (list Chunk.t) := components self !! component.
Definition add self (component : ComponentIdentifier) (chunks : list Chunk.t) : t :=
  Mk (query self) (missing_virtual self) (<[component := chunks]> (components self)).
Definition extend_missing self (missing : list ChunkId.t) : t :=
  Mk (query self) (missing_virtual self ++ missing) (components self).

End Operations.

End RangeResults.

(** ** Events *)

(** [ChunkStoreDiff] of [dl_chunk_store/src/events.rs], with what a manifest adds and what only
    concerns the schema. *)
Inductive EventDiff `{ArrowOps} :=
| VirtualAddition (static_map : RrdManifestStaticMap) (temporal_map : RrdManifestTemporalMap)
| PhysicalChange (diff : ChunkStoreDiff)
| SchemaAddition.

(** [ChunkStoreEvent]; its numbering is not used. *)
Record ChunkStoreEvent `{ArrowOps} := Event { event_store_id : string; event_diff : EventDiff }.
#[global] Arguments Event {_} _ _.

(** [CompactedEvents]. *)
Record CompactedEvents := Compacted {
  static_ : gmap (EntityPath * ComponentIdentifier) (gset ChunkId.t);
  temporal_latest_at : gmap QueryCacheKey TimeInt.t;
  temporal_range : gmap QueryCacheKey (gset ChunkId.t);
}.

(** One update of them. *)
Inductive Notice :=
| StaticNotice (key : EntityPath * ComponentIdentifier) (ids : gset ChunkId.t)
| LatestAtNotice (key : QueryCacheKey) (data_time_min : TimeInt.t)
| RangeNotice (key : QueryCacheKey) (ids : gset ChunkId.t).

Definition compact_notice (events : CompactedEvents) (notice : Notice) : CompactedEvents :=
  match notice with
  | StaticNotice key ids =>
      Compacted (<[key := default ∅ (static_ events !! key) ∪ ids]> (static_ events))
        (temporal_latest_at events) (temporal_range events)
  | LatestAtNotice key data_time_min =>
      Compacted (static_ events)
        (<[key := match temporal_latest_at events !! key with
                  | Some time => TimeInt.min time data_time_min
                  | None => data_time_min
                  end]> (temporal_latest_at events))
        (temporal_range events)
  | RangeNotice key ids =>
      Compacted (static_ events) (temporal_latest_at events)
        (<[key := default ∅ (temporal_range events !! key) ∪ ids]> (temporal_range events))
  end.

Definition no_events : CompactedEvents := Compacted ∅ ∅ ∅.

Section Notices.

Context `{ArrowOps}.

(** The keys of the columns of a chunk, with the range of their times. *)
Definition chunk_keys (chunk : Chunk.t) : list (QueryCacheKey * AbsoluteTimeRange.t) :=
  map_to_list (Chunk.time_range_per_component chunk) ≫= fun '(timeline, per_component) =>
    (fun '(component, time_range) => (Key (Chunk.entity_path chunk) (Some timeline) component, time_range))
      <$> map_to_list per_component.

Definition static_notices (chunk : Chunk.t) (ids : gset ChunkId.t) : list Notice :=
  (fun component => StaticNotice (Chunk.entity_path chunk, component) ids) <$> (map_to_list (Chunk.components chunk)).*1.

(** The chunk whose times an addition invalidates. *)
Definition latest_at_chunk (add : ChunkStoreDiffAddition) : Chunk.t :=
  match direct_lineage add with
  | Report.CompactedFrom _ => chunk_after_processing add
  | _ => delta_chunk add
  end.

(** The ids an addition invalidates: that of the chunk, and those it was compacted from. *)
Definition added_ids (add : ChunkStoreDiffAddition) : gset ChunkId.t :=
  {[Chunk.id (chunk_after_processing add)]}
  ∪ match direct_lineage add with Report.CompactedFrom chunks => dom chunks | _ => ∅ end.

Definition addition_notices (add : ChunkStoreDiffAddition) : list Notice :=
  (if Chunk.is_static (chunk_before_processing add)
   then static_notices (chunk_after_processing add) (added_ids add) else [])
  ++ ((fun '(key, time_range) => LatestAtNotice key (AbsoluteTimeRange.rmin time_range)) <$> chunk_keys (latest_at_chunk add))
  ++ ((fun '(key, _) => RangeNotice key (added_ids add)) <$> chunk_keys (chunk_after_processing add)).

Definition deletion_notices (chunk : Chunk.t) : list Notice :=
  (if Chunk.is_static chunk then static_notices chunk {[Chunk.id chunk]} else [])
  ++ (chunk_keys chunk ≫= fun '(key, time_range) =>
        [LatestAtNotice key (AbsoluteTimeRange.rmin time_range); RangeNotice key {[Chunk.id chunk]}]).

Definition virtual_notices (static_map : RrdManifestStaticMap) (temporal_map : RrdManifestTemporalMap) : list Notice :=
  (map_to_list static_map ≫= fun '(entity_path, per_component) =>
     (fun '(component, chunk_id) => StaticNotice (entity_path, component) {[chunk_id]}) <$> map_to_list per_component)
  ++ (map_to_list temporal_map ≫= fun '(entity_path, per_timeline) =>
      per_timeline ≫= fun '(timeline, per_component) =>
      map_to_list per_component ≫= fun '(component, per_chunk) =>
      map_to_list per_chunk ≫= fun '(chunk_id, entry) =>
        let key := Key entity_path (Some (tl_name timeline)) component in
        [LatestAtNotice key (AbsoluteTimeRange.rmin (entry_time_range entry)); RangeNotice key {[chunk_id]}]).

Definition diff_notices (diff : EventDiff) : list Notice :=
  match diff with
  | VirtualAddition static_map temporal_map => virtual_notices static_map temporal_map
  | PhysicalChange (Addition add) => addition_notices add
  | PhysicalChange (Deleted del) => deletion_notices (del_chunk del)
  | SchemaAddition => []
  end.

(** The first loop of [on_events]. *)
Fixpoint compact_events (store_id : string) (events : list ChunkStoreEvent) (compacted : CompactedEvents)
    : outcome CompactedEvents :=
  match events with
  | [] => Done compacted
  | event :: events =>
      if bool_decide (store_id = event_store_id event)
      then compact_events store_id events (foldl compact_notice compacted (diff_notices (event_diff event)))
      else Panic
  end.

End Notices.

(** ** The caches of a store *)

Module QueryCache.

Record t `{ArrowOps} := Mk {
  store_id : string;
  might_require_clearing : gset EntityPath;
  latest_at_per_cache_key : gmap QueryCacheKey LatestAtCache.t;
  range_per_cache_key : gmap QueryCacheKey RangeCache.t;
}.
#[global] Arguments Mk {_} _ _ _ _.

(** [total_size_bytes] of the caches, as measured. *)
Class TotalSize `{ArrowOps} := total_size_bytes : t -> Z.

Section Operations.

Context `{Build} `{ArrowOps} `{!Chunk.SizeBytes} `{!ClearCodec} `{!TotalSize}.
Implicit Types self : t.
Implicit Types store : ChunkStore.t.

Definition new (store_id : string) : t := Mk store_id ∅ ∅ ∅.
Definition clear self : t := new (store_id self).

Definition with_latest_at self (caches : gmap QueryCacheKey LatestAtCache.t) : t :=
  Mk (store_id self) (might_require_clearing self) caches (range_per_cache_key self).
Definition with_range self (caches : gmap QueryCacheKey RangeCache.t) : t :=
  Mk (store_id self) (might_require_clearing self) (latest_at_per_cache_key self) caches.

(** [dl_chunk_store/src/query.rs]. *)
Definition entity_has_static_component store (entity_path : EntityPath) (component : ComponentIdentifier) : bool :=
  bool_decide (is_Some (ChunkStore.static_chunk_id store entity_path component)).
Definition entity_has_temporal_component_on_timeline store (timeline : TimelineName) (entity_path : EntityPath)
    (component : ComponentIdentifier) : bool :=
  bool_decide (is_Some (ChunkStore.component_index store entity_path (Some timeline) component)).
Definition entity_has_component_on_timeline store (timeline : option TimelineName) (entity_path : EntityPath)
    (component : ComponentIdentifier) : bool :=
  entity_has_static_component store entity_path component
  || match timeline with
     | Some timeline => entity_has_temporal_component_on_timeline store timeline entity_path component
     | None => false
     end.

(** *** Latest-at *)

(** A query through the cache of its key, which both loops of [latest_at] make. *)
Definition latest_at_cached (fresh : QueryCacheKey -> nat -> ChunkId.t) self store (report_mode : ChunkTrackingMode)
    (query : LatestAtQuery.t) (entity_path : EntityPath) (component : ComponentIdentifier)
    : outcome (t * ChunkStore.t * (option UnitChunk.t * list ChunkId.t)) :=
  let key := Key entity_path (LatestAtQuery.timeline query) component in
  let cache := default (LatestAtCache.new key) (latest_at_per_cache_key self !! key) in
  let cache := LatestAtCache.handle_pending_invalidation cache in
  '(cache, store, (cached, missing)) ←
    LatestAtCache.latest_at (fresh key) cache report_mode store query entity_path component;
  _ ← (if bool_decide (missing = []) then Done ()
       else debug_assert (match cached with None => true | Some _ => false end));
  Done (with_latest_at self (<[key := cache]> (latest_at_per_cache_key self)), store, (cached, missing)).

(** [component_mono::<ClearIsRecursive>(component).and_then(Result::ok) == Some(true)]. *)
Definition is_recursive_clear (unit : UnitChunk.t) : outcome bool :=
  array ← UnitChunk.component_mono_raw unit clear_component;
  Done (match array with
        | Some (Ok array) =>
            match clear_from_arrow array with
            | Some data => bool_decide (head data = Some true)
            | None => false
            end
        | _ => false
        end).

(** What [latest_at] keeps track of: the index of the latest clear, and the missing chunks. *)
Record ClearState := Clears { max_clear_index : DataIndex; missing_clears : list ChunkId.t }.

(** One turn of the loop on an entity that may have been cleared. *)
Definition clear_step (fresh : QueryCacheKey -> nat -> ChunkId.t) self store (report_mode : ChunkTrackingMode)
    (query : LatestAtQuery.t) (entity_path clear_entity_path : EntityPath) (clears : ClearState)
    : outcome (t * ChunkStore.t * ClearState) :=
  '(self, store, (cached, missing)) ←
    latest_at_cached fresh self store report_mode query clear_entity_path clear_component;
  match cached with
  | Some cached =>
      found_recursive_clear ← is_recursive_clear cached;
      if bool_decide (clear_entity_path = entity_path) || found_recursive_clear then
        index ← UnitChunk.index cached (LatestAtQuery.timeline query);
        Done (self, store,
          match index with
          | Some index =>
              if bool_decide (compare_indices index (max_clear_index clears) = Gt)
              then Clears index (missing_clears clears) else clears
          | None => clears
          end)
      else Done (self, store, clears)
  | None =>
      Done (self, store,
        if bool_decide (missing = []) then clears
        else Clears (TimeInt.MAX, RowId.MAX) (missing_clears clears ++ missing))
  end.

(** The loop from the entity up to the root; [rev_parts] is the path of the entity it is at,
    last part first, and [parent] drops its head. *)
Fixpoint clear_loop (fresh : QueryCacheKey -> nat -> ChunkId.t) self store (report_mode : ChunkTrackingMode)
    (query : LatestAtQuery.t) (entity_path : EntityPath) (rev_parts : list string) (clears : ClearState)
    : outcome (t * ChunkStore.t * ClearState) :=
  let clear_entity_path := rev rev_parts in
  '(self, store, clears) ←
    (if bool_decide (clear_entity_path ∈ might_require_clearing self)
     then clear_step fresh self store report_mode query entity_path clear_entity_path clears
     else Done (self, store, clears));
  match rev_parts with
  | [] => Done (self, store, clears)
  | _ :: parent => clear_loop fresh self store report_mode query entity_path parent clears
  end.

(** The loop over the components. *)
Fixpoint component_loop (fresh : QueryCacheKey -> nat -> ChunkId.t) self store (report_mode : ChunkTrackingMode)
    (query : LatestAtQuery.t) (entity_path : EntityPath) (max_clear_index : DataIndex)
    (components : list ComponentIdentifier) (results : LatestAtResults.t)
    : outcome (t * ChunkStore.t * LatestAtResults.t) :=
  match components with
  | [] => Done (self, store, results)
  | component :: components =>
      '(self, store, (cached, missing)) ← latest_at_cached fresh self store report_mode query entity_path component;
      let results := LatestAtResults.extend_missing results missing in
      results ←
        (match cached with
         | None => Done results
         | Some cached =>
             index ← UnitChunk.index cached (LatestAtQuery.timeline query);
             match index with
             | None => Done results
             | Some index =>
                 if bool_decide (component = clear_component)
                    || bool_decide (compare_indices index max_clear_index = Gt)
                 then LatestAtResults.add results component index cached
                 else Done results
             end
         end);
      component_loop fresh self store report_mode query entity_path max_clear_index components results
  end.

Definition latest_at (fresh : QueryCacheKey -> nat -> ChunkId.t) self store (report_mode : ChunkTrackingMode)
    (query : LatestAtQuery.t) (entity_path : EntityPath) (components : list ComponentIdentifier)
    : outcome (t * ChunkStore.t * LatestAtResults.t) :=
  let results := LatestAtResults.empty entity_path query in
  let components :=
    List.filter (entity_has_component_on_timeline store (LatestAtQuery.timeline query) entity_path) components in
  let clears := Clears (TimeInt.MIN, RowId.ZERO) [] in
  '(self, store, clears) ←
    (if bool_decide (might_require_clearing self = ∅) then Done (self, store, clears)
     else clear_loop fresh self store report_mode query entity_path (rev entity_path) clears);
  component_loop fresh self store report_mode query entity_path (max_clear_index clears) components
    (LatestAtResults.extend_missing results (missing_clears clears)).

(** *** Range *)

Fixpoint range_loop (fresh : QueryCacheKey -> nat -> RangeCache.Draw -> ChunkId.t) self store
    (tracking_mode : ChunkTrackingMode) (query : RangeQuery.t) (entity_path : EntityPath)
    (components : list ComponentIdentifier) (results : RangeResults.t)
    : outcome (t * ChunkStore.t * RangeResults.t) :=
  match components with
  | [] => Done (self, store, results)
  | component :: components =>
      let key := Key entity_path (Some (RangeQuery.timeline query)) component in
      let cache := default (RangeCache.new key) (range_per_cache_key self !! key) in
      let cache := RangeCache.handle_pending_invalidation cache in
      '(cache, store, (cached, missing)) ←
        RangeCache.range (fresh key) cache store query entity_path component tracking_mode;
      let self := with_range self (<[key := cache]> (range_per_cache_key self)) in
      let results := RangeResults.extend_missing results missing in
      let results := match cached with [] => results | _ => RangeResults.add results component cached end in
      range_loop fresh self store tracking_mode query entity_path components results
  end.

Definition range (fresh : QueryCacheKey -> nat -> RangeCache.Draw -> ChunkId.t) self store
    (tracking_mode : ChunkTrackingMode) (query : RangeQuery.t) (entity_path : EntityPath)
    (components : list ComponentIdentifier) : outcome (t * ChunkStore.t * RangeResults.t) :=
  let components :=
    List.filter (entity_has_component_on_timeline store (Some (RangeQuery.timeline query)) entity_path) components in
  range_loop fresh self store tracking_mode query entity_path components (RangeResults.new query).

(** *** Invalidation *)

Definition invalidate_static self (key : EntityPath * ComponentIdentifier) (ids : gset ChunkId.t) : t :=
  let concerns (k : QueryCacheKey) := bool_decide (key_entity_path k = key.1 /\ key_component k = key.2) in
  Mk (store_id self)
    (if bool_decide (key.2 = clear_component) then {[key.1]} ∪ might_require_clearing self else might_require_clearing self)
    (map_imap (fun k cache => Some (if concerns k then LatestAtCache.invalidate cache TimeInt.STATIC else cache))
       (latest_at_per_cache_key self))
    (map_imap (fun k cache => Some (if concerns k then RangeCache.invalidate cache ids else cache))
       (range_per_cache_key self)).

Definition invalidate_latest_at self (key : QueryCacheKey) (time : TimeInt.t) : t :=
  Mk (store_id self)
    (if bool_decide (key_component key = clear_component)
     then {[key_entity_path key]} ∪ might_require_clearing self else might_require_clearing self)
    (alter (fun cache => LatestAtCache.invalidate cache time) key (latest_at_per_cache_key self))
    (range_per_cache_key self).

Definition invalidate_range self (key : QueryCacheKey) (ids : gset ChunkId.t) : t :=
  with_range self (alter (fun cache => RangeCache.invalidate cache ids) key (range_per_cache_key self)).

Definition on_events self (events : list ChunkStoreEvent) : outcome t :=
  compacted_events ← compact_events (store_id self) events no_events;
  let self := foldl (fun self '(key, ids) => invalidate_static self key ids) self (map_to_list (static_ compacted_events)) in
  let self := foldl (fun self '(key, time) => invalidate_latest_at self key time) self
                (map_to_list (temporal_latest_at compacted_events)) in
  let self := foldl (fun self '(key, ids) => invalidate_range self key ids) self
                (map_to_list (temporal_range compacted_events)) in
  Done self.

(** *** Garbage collection *)

(** [as f32] of an unsigned integer and of an [f64], and [as usize] of an [f32]. *)
Definition f32_of_int (z : Z) : spec_float := binary_normalize 24 128 z 0 false.
Definition f32_of_f64 (x : spec_float) : spec_float :=
  match x with
  | S754_finite s m e => binary_normalize 24 128 (if s then Z.neg m else Z.pos m) e s
  | x => x
  end.
Definition f32_as_usize (x : spec_float) : Z :=
  match x with
  | S754_finite false m e => Z.min u64_max (if 0 <=? e then Z.pos m * 2 ^ e else Z.pos m / 2 ^ (- e))
  | S754_infinity false => u64_max
  | _ => 0
  end.

(** [target_fraction_from_size] of [dl_chunk_store/src/gc.rs]. *)
Definition target_fraction_from_size (target : GarbageCollectionTarget) (total_size_before : Z) : spec_float :=
  match target with
  | DropAtLeastFraction f => f32_of_f64 f
  | DropAtLeastBytes n =>
      if total_size_before =? 0 then S754_zero false
      else SFdiv 24 128 (f32_of_int n) (f32_of_int total_size_before)
  | Everything => f32_of_int 1
  end.

(** [per_query_time.keys()]. *)
Definition query_times (cache : LatestAtCache.t) : list TimeInt.t :=
  sort_by TimeInt.le (map_to_list (LatestAtCache.per_query_time cache)).*1.

(** [gc] on one cache. *)
Definition gc_cache (fraction_to_purge : spec_float) (cache : LatestAtCache.t) : LatestAtCache.t :=
  let len := Z.of_nat (size (LatestAtCache.per_query_time cache)) in
  let split_point := f32_as_usize (SFmul 24 128 (f32_of_int (Z.max 0 (len - 1))) fraction_to_purge) in
  match query_times cache !! Z.to_nat split_point with
  | Some split_time =>
      LatestAtCache.Mk (LatestAtCache.cache_key cache)
        (snd (LatestAtCache.split_off (LatestAtCache.per_query_time cache) split_time))
        (LatestAtCache.pending_invalidations cache)
  | None => cache
  end.

Definition gc self (target : GarbageCollectionTarget) : t :=
  let fraction_to_purge := target_fraction_from_size target (total_size_bytes self) in
  with_latest_at self (gc_cache fraction_to_purge <$> latest_at_per_cache_key self).

End Operations.

End QueryCache.

(** ** Latest-all queries *)

Module LatestAll.

(** [LatestAllComponentResults]. *)
Record ComponentResults `{ArrowOps} := Hits { time : TimeInt.t; hits : list Chunk.t }.
#[global] Arguments Hits {_} _ _.

(** [LatestAllResults]. *)
Record t `{ArrowOps} := Mk {
  entity_path : EntityPath;
  query : LatestAtQuery.t;
  missing_virtual : list ChunkId.t;
  components : gmap string ComponentResults;
}.
#[global] Arguments Mk {_} _ _ _ _.

Section Operations.

Context `{Build} `{ArrowOps} `{!Chunk.SizeBytes} `{!ClearCodec}.

Definition from_unit (time : TimeInt.t) (unit : UnitChunk.t) : ComponentResults := Hits time [UnitChunk.chunk unit].

Definition num_rows (self : ComponentResults) : nat := sum_list (Chunk.num_rows <$> hits self).

(** [iter_units]; [fresh] by the chunk and the row. *)
Definition iter_units (fresh : nat -> nat -> ChunkId.t) (self : ComponentResults) : outcome (list UnitChunk.t) :=
  units ← mapM (fun '(i, (chunk, row_index)) => ChunkQuery.row_sliced_unit_shallow (fresh i row_index) chunk row_index)
    (imap (fun i x => (i, x)) (hits self ≫= fun chunk => pair chunk <$> seq 0 (Chunk.num_rows chunk)));
  Done (sort_by (fun a b => match head (Chunk.row_ids (UnitChunk.chunk a)), head (Chunk.row_ids (UnitChunk.chunk b)) with
                            | Some a, Some b => RowId.le a b
                            | None, _ => true
                            | Some _, None => false
                            end) units).

(** The loop of [latest_row] over the row ids of a chunk; the early return is the outer [None]. *)
Fixpoint latest_in_chunk (fresh : nat -> ChunkId.t) (chunk : Chunk.t) (row_index : nat) (row_ids : list RowId.t)
    (best : option (UnitChunk.t * RowId.t)) : outcome (option (option (UnitChunk.t * RowId.t))) :=
  match row_ids with
  | [] => Done (Some best)
  | row_id :: row_ids =>
      let dominated := match best with Some (_, best_row_id) => RowId.le row_id best_row_id | None => false end in
      if dominated then latest_in_chunk fresh chunk (S row_index) row_ids best
      else
        unit ← ChunkQuery.row_sliced_unit_shallow (fresh row_index) chunk row_index;
        row_id ← UnitChunk.row_id unit;
        match row_id with
        | None => Done None
        | Some row_id => latest_in_chunk fresh chunk (S row_index) row_ids (Some (unit, row_id))
        end
  end.

Fixpoint latest_in_chunks (fresh : nat -> nat -> ChunkId.t) (i : nat) (chunks : list Chunk.t)
    (best : option (UnitChunk.t * RowId.t)) : outcome (option (option (UnitChunk.t * RowId.t))) :=
  match chunks with
  | [] => Done (Some best)
  | chunk :: chunks =>
      best ← latest_in_chunk (fresh i) chunk 0 (Chunk.row_ids chunk) best;
      match best with
      | None => Done None
      | Some best => latest_in_chunks fresh (S i) chunks best
      end
  end.

Definition latest_row (fresh : nat -> nat -> ChunkId.t) (self : ComponentResults) : outcome (option UnitChunk.t) :=
  best ← latest_in_chunks fresh 0 (hits self) None;
  match best with
  | None => Done None
  | Some best =>
      _ ← debug_assert (match best with Some _ => true | None => false end);
      Done (fst <$> best)
  end.

Definition try_as_unit (fresh : nat -> nat -> ChunkId.t) (self : ComponentResults) : outcome (option UnitChunk.t) :=
  if (num_rows self =? 1)%nat then latest_row fresh self else Done None.

Definition num_rows_total (self : t) : nat := sum_list (num_rows <$> (map_to_list (components self)).*2).

(** [Vec::dedup]. *)
Fixpoint dedup (l : list ChunkId.t) : list ChunkId.t :=
  match l with
  | x :: l => x :: match l with
                   | y :: l' => if decide (x = y) then tail (dedup l) else dedup l
                   | [] => []
                   end
  | [] => []
  end.

(** The loop over the results of [latest_at]. *)
Fixpoint all_loop (fresh : QueryCacheKey -> nat -> RangeCache.Draw -> ChunkId.t) (cache : QueryCache.t)
    (store : ChunkStore.t) (tracking_mode : ChunkTrackingMode) (query : LatestAtQuery.t) (entity_path : EntityPath)
    (units : list (ComponentIdentifier * UnitChunk.t)) (results : t) : outcome (QueryCache.t * ChunkStore.t * t) :=
  match units with
  | [] => Done (cache, store, results)
  | (component, latest_unit) :: units =>
      index ← UnitChunk.index latest_unit (LatestAtQuery.timeline query);
      '(cache, store, results) ←
        (match index with
         | None => Done (cache, store, results)
         | Some (time, _) =>
             if TimeInt.is_static time then
               Done (cache, store, Mk (LatestAll.entity_path results) (LatestAll.query results) (missing_virtual results)
                                     (<[component := from_unit time latest_unit]> (components results)))
             else
               match LatestAtQuery.timeline query with
               | None => Done (cache, store, results)
               | Some timeline =>
                   let range_query := RangeQuery.new timeline (AbsoluteTimeRange.new (Ok time) (Ok time)) in
                   '(cache, store, found) ←
                     QueryCache.range fresh cache store tracking_mode range_query entity_path [component];
                   Done (cache, store,
                     Mk (LatestAll.entity_path results) (LatestAll.query results)
                       (missing_virtual results ++ RangeResults.missing_virtual found)
                       (match RangeResults.components found !! component with
                        | Some chunks => <[component := Hits time chunks]> (components results)
                        | None => components results
                        end))
               end
         end);
      all_loop fresh cache store tracking_mode query entity_path units results
  end.

(** [QueryCache::latest_all]. *)
Definition latest_all (fresh : QueryCacheKey -> nat -> ChunkId.t) (fresh_range : QueryCacheKey -> nat -> RangeCache.Draw -> ChunkId.t)
    (cache : QueryCache.t) (store : ChunkStore.t) (tracking_mode : ChunkTrackingMode) (query : LatestAtQuery.t)
    (entity_path : EntityPath) (components : list ComponentIdentifier) : outcome (QueryCache.t * ChunkStore.t * t) :=
  '(cache, store, latest) ← QueryCache.latest_at fresh cache store tracking_mode query entity_path components;
  '(cache, store, results) ← all_loop fresh_range cache store tracking_mode query entity_path
    (map_to_list (LatestAtResults.components latest)) (Mk entity_path query (LatestAtResults.missing_virtual latest) ∅);
  Done (cache, store, Mk (LatestAll.entity_path results) (LatestAll.query results)
                        (dedup (sort_by ChunkId.le (missing_virtual results))) (LatestAll.components results)).

End Operations.

End LatestAll.
