(* ===== verification/QueryCacheSpec.v ===== *)
(** * The latest-at caches answer as the store does

    What [LatestAtCache] answers in terms of the rows in memory: the greatest row that has the
    component at or before the time of the query, whether or not the answer was cached; and
    that the invalidations keep the caches in step with the store. *)

From stdpp Require Import strings relations.
From S2P Require Import Prelude Ints TimeInt TimeRange Tuid Arrow Column Chunk ChunkSlice.
From S2P Require Import ChunkSort ChunkMerge ChunkQuery ChunkIndex Lineage StoreStats ChunkStore StoreGc StoreWrites.
From S2P Require Import StoreFrame StoreInvariant StoreGcSpec StoreInsertion StoreStatic StoreSplits StoreJournal QueryCache.

(** ** Answers of the store *)

Section Answers.

Import ChunkStore.
Context `{Build} `{ArrowLaws} `{!Chunk.SizeBytes} `{HashOrder}.
Implicit Types st : ChunkStore.t.
Implicit Types c : Chunk.t.
Implicit Types u : UnitChunk.t.
Implicit Types s r : Row.

Notation physical st := (physical_chunks_per_chunk_id st).

(** A store whose chunks are all in memory, with its invariant. *)
Definition sound st : Prop := exists cs, store_ok st cs [] /\ wf_chunks st /\ all_physical st cs.

(** [r] is a greatest row that a query for the time [a] may return. *)
Definition best st path timeline component (a : Z) r : Prop :=
  r ∈ temporal_rows path st /\ eligible timeline component a r
  /\ forall s, s ∈ temporal_rows path st -> eligible timeline component a s -> ranks timeline s r.

Lemma best_time st path timeline component a r : best st path timeline component a r -> time_of timeline r <= a.
Proof. by intros (_ & (_ & _ & ?) & _). Qed.

(** It is the greatest for its own time, too. *)
Lemma best_at_own st path timeline component a r :
  best st path timeline component a r -> best st path timeline component (time_of timeline r) r.
Proof.
  intros (Hr & (Ht & Hc & Ha) & Hbest). split_and!; [done|split; [done|by split; [done|lia]]|]. intros s Hs (Hst & Hsc & Hle).
  apply Hbest; [done|]. split; [done|by split; [done|lia]].
Qed.

(** Two greatest rows for the time of the first are equally good for what the first is. *)
Lemma best_again st path timeline component a r r' : best st path timeline component a r ->
  best st path timeline component (time_of timeline r) r' -> best st path timeline component a r'.
Proof.
  intros (Hr & (Ht & Hc & Ha) & Hbest) (Hr' & (Ht' & Hc' & Ha') & Hbest'). split_and!; [done|split; [done|by split; [done|lia]]|].
  intros s Hs He. unfold ranks. apply (le_trans s r r'); [by apply Hbest|]. apply Hbest'; [done|]. split; [done|by split; [done|lia]].
Qed.

(** *** The index of a single row *)

Lemma row_time_lookup c timeline i r t : chunk_wf c -> rows c !! i = Some r -> row_times r !! timeline = Some t ->
  exists tc, Chunk.timelines c !! timeline = Some tc /\ TimeColumn.times tc !! i = Some t /\ temporal_i64 t.
Proof.
  intros (_ & Ht & _) Hr Htime. rewrite lookup_rows in Hr. destruct (Chunk.row_ids c !! i) as [id|]; [|done].
  injection Hr as <-. cbn [row_at row_times] in Htime. rewrite lookup_omap in Htime.
  destruct (Chunk.timelines c !! timeline) as [tc|] eqn:E; [|done]. cbn [mbind option_bind] in Htime.
  exists tc. split_and!; [done|done|]. destruct (Ht _ _ E) as (_ & _ & Hty & _). rewrite Forall_lookup in Hty. by eapply Hty.
Qed.

Lemma temporal_row c timeline r : chunk_wf c -> r ∈ rows c -> is_Some (row_times r !! timeline) ->
  temporal_i64 (time_of timeline r) /\ Chunk.is_static c = false.
Proof.
  intros Hwf [i Hi]%list_elem_of_lookup_1 [t Ht]. destruct (row_time_lookup c timeline i r t Hwf Hi Ht) as (tc & Htc & _ & Hty).
  unfold time_of. rewrite Ht. split; [done|]. apply bool_decide_eq_false. intros E. by rewrite E in Htc.
Qed.

Lemma unit_index u timeline r : chunk_wf (UnitChunk.chunk u) -> rows (UnitChunk.chunk u) = [r] ->
  is_Some (row_times r !! timeline) ->
  UnitChunk.index u (Some timeline) = Done (Some (TimeInt.new_temporal (time_of timeline r), row_id r)).
Proof.
  intros Hwf Hu [t Ht]. set (c := UnitChunk.chunk u) in *. assert (rows c !! 0%nat = Some r) as Hr by by rewrite Hu.
  destruct (row_time_lookup c timeline 0 r t Hwf Hr Ht) as (tc & Htc & Htime & _).
  destruct (temporal_row c timeline r Hwf) as [_ Hs]; [rewrite Hu; left|by exists t|].
  unfold UnitChunk.index. fold c. rewrite <- length_rows, Hu, Hs. unfold debug_assert.
  rewrite lookup_rows in Hr. destruct (Chunk.row_ids c !! 0%nat) as [id|] eqn:E; [|done]. injection Hr as <-.
  assert ((if debug_assertions && negb (length [row_at c 0 id] =? 1)%nat then Panic else Done ()) = Done ()) as -> by (by destruct debug_assertions).
  cbn [mbind outcome_bind option_bind]. rewrite Htc. unfold TimeColumn.times_int. cbn [mbind option_bind].
  rewrite !head_lookup, list_lookup_fmap, Htime, E. cbn [fmap option_fmap option_map option_bind].
  unfold time_of. by rewrite Ht.
Qed.

(** *** The best of the answers of several chunks *)

Lemma index_le_iff (x y : DataIndex) : index_le x y = true <->
  key_le (TimeInt.as_i64 x.1) x.2 (TimeInt.as_i64 y.1) y.2.
Proof.
  unfold index_le, key_le. rewrite orb_true_iff, andb_true_iff, bool_decide_eq_true, TimeInt.lt_as_i64, RowId.le_key.
  rewrite <- (TimeInt.as_i64_inj_iff x.1 y.1), Z.ltb_lt, Z.leb_le. done.
Qed.

#[local] Instance index_le_preorder (A : Type) : TotalPreorder (fun x y : DataIndex * A => index_le x.1 y.1).
Proof.
  split.
  - intros x y z. rewrite !index_le_iff. unfold key_le. lia.
  - intros x y. rewrite !index_le_iff. unfold key_le. lia.
Qed.

(** [u] is the row [r] of a chunk in memory. *)
Record unit_in (chunks : gmap ChunkId.t Chunk.t) (path : EntityPath) (c : Chunk.t) u r : Prop := {
  unit_physical : chunks !! UnitChunk.original_chunk_id u = Some c;
  unit_path : Chunk.entity_path c = path;
  unit_row : r ∈ rows c;
  unit_rows : rows (UnitChunk.chunk u) = [r];
  unit_wf : chunk_wf (UnitChunk.chunk u);
}.
Definition unit_of st : EntityPath -> Chunk.t -> UnitChunk.t -> Row -> Prop := unit_in (physical st).

(** What one of the relevant chunks answers. *)
Definition chunk_answer st path timeline component a c (x : DataIndex * UnitChunk.t) : Prop :=
  exists r, unit_of st path c x.2 r /\ x.1 = (TimeInt.new_temporal (time_of timeline r), row_id r)
    /\ eligible timeline component a r
    /\ forall s, s ∈ rows c -> eligible timeline component a s -> ranks timeline s r.

Lemma chunk_latest_at_ok st path timeline component a new_id c : physical st !! Chunk.id c = Some c ->
  Chunk.entity_path c = path -> stored_chunk c -> a <> TimeInt.STATIC ->
  (exists s, s ∈ rows c /\ eligible timeline component (TimeInt.as_i64 a) s) ->
  exists u x, ChunkQuery.latest_at new_id c (LatestAtQuery.Mk (Some timeline) a) component = Done (Some u)
    /\ UnitChunk.index u (Some timeline) = Done (Some x)
    /\ chunk_answer st path timeline component (TimeInt.as_i64 a) c (x, u).
Proof.
  intros Hp Hpath (Hwf & Hn & Hsorted & Hz) Ha (s & Hs & Hst & Hrel).
  apply (row_time_some c s timeline Hwf Hs) in Hst as [tc Htc].
  destruct (latest_at_temporal_rows new_id c timeline a component tc) as (o & Ho & Hspec); [done..|].
  destruct o as [u|]; [|by destruct (Hspec s Hs)]. destruct Hspec as (r & Hu & Hr & Hwu & Hid & Hcell & Hbest & Hlate).
  assert (is_Some (row_times r !! timeline)) as Hrt by (by apply (row_time_some c r timeline Hwf Hr)).
  exists u, (TimeInt.new_temporal (time_of timeline r), row_id r). split; [done|]. split; [by apply unit_index|].
  exists r. split; [by split; cbn [snd]; [rewrite Hid|..]|]. split; [done|]. split.
  - split; [done|]. split; [done|]. destruct (Z.le_gt_cases (time_of timeline r) (TimeInt.as_i64 a)) as [|Hgt]; [done|].
    destruct (Hlate ltac:(lia)) as (_ & _ & Hno). by destruct (Hno s Hs).
  - intros s' Hs' [_ Hrel']. apply (Hbest s' Hs' Hrel'). by left.
Qed.

Lemma chunk_units_ok st path timeline component a fresh chunks : a <> TimeInt.STATIC ->
  Forall (fun c => physical st !! Chunk.id c = Some c /\ Chunk.entity_path c = path /\ stored_chunk c
    /\ exists s, s ∈ rows c /\ eligible timeline component (TimeInt.as_i64 a) s) chunks ->
  forall i, exists units, LatestAtCache.chunk_units fresh i (LatestAtQuery.Mk (Some timeline) a) component chunks = Done units
    /\ Forall2 (chunk_answer st path timeline component (TimeInt.as_i64 a)) chunks units.
Proof.
  intros Ha. induction 1 as [|c chunks (Hp & Hpath & Hst & Hex) _ IH]; intros i; [by exists []|].
  destruct (chunk_latest_at_ok st path timeline component a (fresh i) c) as (u & x & Hq & Hx & Hans); [done..|].
  destruct (IH (S i)) as (units & Hrun & Hall). exists ((x, u) :: units). split; [|by constructor].
  cbn [LatestAtCache.chunk_units]. rewrite Hq. cbn [mbind outcome_bind LatestAtQuery.timeline]. by rewrite Hx, Hrun.
Qed.

Lemma elem_of_chunk c path st : physical st !! Chunk.id c = Some c -> Chunk.is_static c = false ->
  Chunk.entity_path c = path -> forall s, s ∈ rows c -> s ∈ temporal_rows path st.
Proof.
  intros Hp Hs Hpath s Hin. unfold temporal_rows. apply list_elem_of_bind. exists c. split; [done|].
  apply list_elem_of_filter. split; [done|]. apply list_elem_of_fmap. exists (Chunk.id c, c). split; [done|].
  by apply elem_of_map_to_list.
Qed.

Lemma chunk_of_row path st s : s ∈ temporal_rows path st ->
  exists id c, physical st !! id = Some c /\ Chunk.is_static c = false /\ Chunk.entity_path c = path /\ s ∈ rows c.
Proof.
  unfold temporal_rows. rewrite list_elem_of_bind. intros (c & Hs & [[Hc Hp] Hin]%list_elem_of_filter).
  apply list_elem_of_fmap in Hin as ([id c'] & -> & Hin%elem_of_map_to_list). by exists id, c'.
Qed.

(** The best answer, if there is any row to answer with. *)
Lemma latest_unit_ok st cs path timeline component a chunks units : store_ok st cs [] -> wf_chunks st -> all_physical st cs ->
  (forall c, c ∈ chunks -> exists s, logged cs path timeline component a c s) ->
  (forall c s, logged cs path timeline component a c s ->
    (forall c' s', logged cs path timeline component a c' s' -> time_of timeline s' <= time_of timeline s) -> c ∈ chunks) ->
  Forall2 (chunk_answer st path timeline component a) chunks units ->
  match LatestAtCache.latest_unit units with
  | None => forall s, s ∈ temporal_rows path st -> ~ eligible timeline component a s
  | Some x => exists c r, unit_of st path c x.2 r /\ x.1 = (TimeInt.new_temporal (time_of timeline r), row_id r)
      /\ best st path timeline component a r
  end.
Proof.
  intros Hok Hwf Hphys Hsound Hcomplete Hall.
  pose proof (fun s => logged_eligible st cs path timeline component a s Hok Hwf Hphys) as Hlog.
  destruct (LatestAtCache.latest_unit units) as [x|] eqn:E.
  - apply (iter_max_Some (fun a b => index_le a.1 b.1)) in E as [Hx Hmax]. rewrite Forall_forall in Hmax.
    apply list_elem_of_lookup in Hx as [i Hi]. destruct (Forall2_lookup_r _ _ _ _ _ Hall Hi) as (c & Hc & r & Hu & Hix & He & Hbest).
    exists c, r. split; [done|]. split; [done|].
    assert (r ∈ temporal_rows path st) as Hr.
    { destruct (Hsound c) as (s & Hcs & _); [by eapply list_elem_of_lookup_2|]. pose proof (Hphys c Hcs) as Hpc.
      apply (elem_of_chunk c); [done| |apply Hu|apply Hu]. apply (temporal_row c timeline r); [by apply (Hwf (Chunk.id c))|apply Hu|apply He]. }
    split; [done|]. split; [done|]. intros s Hs Hes.
    destruct (greatest_logged cs path timeline component a) as [Hnone|(cm & m & Hm & Hgreatest)].
    { destruct (proj2 (Hlog s)) as [c' Hc']; [done|]. by destruct (Hnone c' s). }
    assert (cm ∈ chunks) as Hcm.
    { apply (Hcomplete cm m Hm). intros c' s' Hls. specialize (Hgreatest c' s' Hls). rewrite ranks_key in Hgreatest.
      unfold key_le in Hgreatest. lia. }
    apply list_elem_of_lookup in Hcm as [j Hj]. destruct (Forall2_lookup_l _ _ _ _ _ Hall Hj) as (y & Hy & rm & Hum & Hiy & Hem & Hbm).
    destruct (proj2 (Hlog s)) as [c' Hc']; [done|]. unfold ranks.
    apply (le_trans s m r); [by apply (Hgreatest c')|]. apply (le_trans m rm r).
    { apply Hbm; [apply Hm|]. apply Hlog. by exists cm. }
    specialize (Hmax y (list_elem_of_lookup_2 _ _ _ Hy)). rewrite Hix, Hiy, index_le_iff in Hmax.
    apply ranks_key. cbn [fst snd] in Hmax.
    assert (forall c0 u0 r0, unit_of st path c0 u0 r0 -> eligible timeline component a r0 ->
      TimeInt.as_i64 (TimeInt.new_temporal (time_of timeline r0)) = time_of timeline r0) as Hconv.
    { intros c0 u0 r0 Hu0 [Ht0 _]. apply as_i64_temporal. destruct Hu0. eapply (temporal_row c0); [by eapply Hwf|done|done]. }
    by rewrite (Hconv c x.2 r), (Hconv cm y.2 rm) in Hmax.
  - apply iter_max_None in E as ->. apply Forall2_nil_inv_r in Hall as ->. intros s Hs Hes.
    destruct (greatest_logged cs path timeline component a) as [Hnone|(cm & m & Hm & Hgreatest)].
    { destruct (proj2 (Hlog s)) as [c' Hc']; [done|]. by destruct (Hnone c' s). }
    apply (not_elem_of_nil cm). apply (Hcomplete cm m Hm). intros c' s' Hls. specialize (Hgreatest c' s' Hls).
    rewrite ranks_key in Hgreatest. unfold key_le in Hgreatest. lia.
Qed.

End Answers.

(** ** One cache *)

Section OneCache.

Import ChunkStore.
Context `{Build} `{ArrowLaws} `{!Chunk.SizeBytes} `{HashOrder}.
Implicit Types st : ChunkStore.t.
Implicit Types u : UnitChunk.t.
Implicit Types cache : LatestAtCache.t.
Implicit Types a t : TimeInt.t.

Notation physical st := (physical_chunks_per_chunk_id st).

(** No range of times in the index of the component is too long for the arithmetic of the
    queries: that of a column without any value is. *)
Definition short_index st path (timeline component : string) : Prop :=
  from_option ChunkIdSetPerTime.max_interval_length 0 (component_index st path (Some timeline) component) <= i64_max.

(** Queries keep track of the chunks they use, and change nothing else. *)
Definition tracked st st' : Prop := exists tracker, st' = with_tracker st tracker.

Lemma tracked_refl st : tracked st st.
Proof. exists (queried_chunk_id_tracker st). by destruct st. Qed.

Lemma from_chunk_ids_tracked st mode ids results st' :
  from_chunk_ids st mode ids = Done (results, st') -> tracked st st'.
Proof.
  unfold from_chunk_ids. destruct (collect_chunks _ _ _ _); [|done]. cbn [mbind outcome_bind].
  destruct (if decide _ then _ else _); [|done]. cbn [mbind outcome_bind].
  destruct (debug_assert _); [|done]. cbn [mbind outcome_bind]. intros [= _ <-]. by eexists.
Qed.

Lemma latest_at_tracked st mode query path component results st' :
  latest_at_relevant_chunks st mode query path component = Done (results, st') -> tracked st st'.
Proof.
  unfold latest_at_relevant_chunks. destruct (static_chunk_id _ _ _); apply from_chunk_ids_tracked.
Qed.

Section Key.

Context (path : EntityPath) (timeline component : string).
Notation key := (Key path (Some timeline) component).
Notation query a := (LatestAtQuery.Mk (Some timeline) a).

(** [u] is a right answer at the time [t]. *)
Definition exact st t u : Prop :=
  exists c r, unit_of st path c u r /\ best st path timeline component (TimeInt.as_i64 t) r.

(** What a query may answer. *)
Definition answers st t (o : option UnitChunk.t) : Prop :=
  match o with
  | Some u => exact st t u
  | None => forall s, s ∈ temporal_rows path st -> ~ eligible timeline component (TimeInt.as_i64 t) s
  end.

Lemma relevant_chunks_temporal st cs a c s : wf_chunks st -> all_physical st cs ->
  logged cs path timeline component (TimeInt.as_i64 a) c s -> a <> TimeInt.STATIC.
Proof.
  intros Hwf Hphys (Hc & _ & Htl & Hs & _ & Hle) ->. pose proof (Hphys c Hc) as Hp.
  destruct (temporal_row c timeline s) as [[Hlt _] _]; [by apply (Hwf _ _ Hp)|done|by apply (row_time_some c s timeline (proj1 (Hwf _ _ Hp)) Hs)|].
  rewrite TimeInt.as_i64_STATIC in Hle. lia.
Qed.

Lemma query_store_ok st fresh mode a : sound st -> short_index st path timeline component -> static_chunk_id st path component = None ->
  exists st' o, LatestAtCache.query_store fresh mode st (query a) path component = Done (st', Ok o) /\ tracked st st'
    /\ answers st a (snd <$> o)
    /\ match o with
       | Some (x, u) => exists c r, unit_of st path c u r /\ x = (TimeInt.new_temporal (time_of timeline r), row_id r)
           /\ best st path timeline component (TimeInt.as_i64 a) r
       | None => True
       end.
Proof.
  intros (cs & Hok & Hwf & Hphys) Hshort Hstatic.
  destruct (relevant_chunks_spec st cs mode path timeline component a) as (results & st' & Hrun & Hm & _ & Hsound & Hcomplete);
    [by split; [apply Hok|]|by apply (ok_distinct _ _ _ _ Hok)|by apply (stored_chunks st)|done|exact Hshort|].
  assert (exists units, LatestAtCache.chunk_units fresh 0 (query a) component (chunks results) = Done units
    /\ Forall2 (chunk_answer st path timeline component (TimeInt.as_i64 a)) (chunks results) units) as (units & Hunits & Hall).
  { destruct (decide (a = TimeInt.STATIC)) as [->|Ha].
    - exists []. assert (chunks results = []) as ->; [|by split].
      destruct (chunks results) as [|c l]; [done|]. destruct (Hsound c) as (s & Hs); [left|].
      by destruct (relevant_chunks_temporal st cs TimeInt.STATIC c s Hwf Hphys Hs).
    - apply chunk_units_ok; [done|]. apply Forall_forall. intros c Hc. destruct (Hsound c Hc) as (s & Hl).
      pose proof Hl as (Hcs & Hp & _ & Hs & _). split; [by apply Hphys|]. split; [done|]. split.
      + pose proof (stored_chunks st cs Hok Hwf Hphys) as Hst. rewrite Forall_forall in Hst. by apply Hst.
      + exists s. split; [done|]. apply (logged_eligible st cs path); [done..|]. by exists c. }
  exists st', (LatestAtCache.latest_unit units). unfold LatestAtCache.query_store. rewrite Hrun. cbn [mbind outcome_bind].
  unfold is_partial. rewrite Hm, bool_decide_true by done. cbn [negb]. rewrite Hunits. split; [done|].
  split; [by eapply latest_at_tracked|].
  pose proof (latest_unit_ok st cs path timeline component (TimeInt.as_i64 a) _ _ Hok Hwf Hphys Hsound Hcomplete Hall) as Hbest.
  destruct (LatestAtCache.latest_unit units) as [[x u]|]; [|by split].
  destruct Hbest as (c & r & Hu & Hx & Hb). split; [by exists c, r|by exists c, r].
Qed.

(** *** The invariant of a cache *)

(** Every entry that no pending invalidation is about is right. *)
Definition in_step st cache : Prop :=
  LatestAtCache.cache_key cache = key
  /\ forall t e, LatestAtCache.per_query_time cache !! t = Some e ->
       (forall p, p ∈ LatestAtCache.pending_invalidations cache -> TimeInt.as_i64 t < TimeInt.as_i64 p) ->
       exact st t (LatestAtCache.unit e).

(** Every entry is. *)
Definition settled st cache : Prop :=
  LatestAtCache.cache_key cache = key
  /\ forall t e, LatestAtCache.per_query_time cache !! t = Some e -> exact st t (LatestAtCache.unit e).

Lemma settled_in_step st cache : settled st cache -> in_step st cache.
Proof. intros [? Hall]. split; [done|]. intros t e He _. by eapply Hall. Qed.

Lemma new_settled st : settled st (LatestAtCache.new key).
Proof. split; [done|]. intros t e. cbn. by rewrite lookup_empty. Qed.

#[local] Instance time_le_preorder : TotalPreorder TimeInt.le.
Proof. split; [intros x y z|intros x y]; rewrite !TimeInt.le_as_i64, !Z.leb_le; lia. Qed.

Lemma first_spec (times : gset TimeInt.t) : match LatestAtCache.first times with
  | Some oldest => oldest ∈ times /\ forall p, p ∈ times -> TimeInt.as_i64 oldest <= TimeInt.as_i64 p
  | None => times = ∅
  end.
Proof.
  unfold LatestAtCache.first. destruct (iter_min TimeInt.le (elements times)) as [oldest|] eqn:E.
  - apply (iter_min_Some TimeInt.le) in E as [Hin Hle]. split; [by apply elem_of_elements|]. rewrite Forall_forall in Hle.
    intros p Hp. specialize (Hle p). rewrite elem_of_elements, TimeInt.le_as_i64, Z.leb_le in Hle. by apply Hle.
  - apply iter_min_None in E. by apply elements_empty_iff, leibniz_equiv in E.
Qed.

Lemma handle_pending_ok st cache : in_step st cache -> settled st (LatestAtCache.handle_pending_invalidation cache).
Proof.
  intros [Hk Hall]. unfold LatestAtCache.handle_pending_invalidation.
  pose proof (first_spec (LatestAtCache.pending_invalidations cache)) as Hf.
  destruct (LatestAtCache.first _) as [oldest|].
  - destruct Hf as [_ Hf]. split; [done|]. cbn. intros t e [He Ht]%map_lookup_filter_Some. eapply Hall; [exact He|].
    intros p Hp%Hf. cbn in Ht. rewrite TimeInt.lt_as_i64, Z.ltb_lt in Ht. lia.
  - split; [done|]. intros t e He. eapply Hall; [exact He|]. rewrite Hf. intros p. by rewrite elem_of_empty.
Qed.

Lemma report_used_ok st mode c : is_Some (physical st !! c) -> exists st', LatestAtCache.report_used st mode c = Done st' /\ tracked st st'.
Proof.
  intros Hc. unfold LatestAtCache.report_used. rewrite bool_decide_true by done.
  assert (debug_assert true = Done ()) as -> by (unfold debug_assert; by destruct debug_assertions).
  destruct mode; eexists; (split; [done|]); (apply tracked_refl || by eexists).
Qed.

Lemma best_temporal st a r : sound st -> best st path timeline component (TimeInt.as_i64 a) r -> temporal_i64 (time_of timeline r).
Proof.
  intros (cs & _ & Hwf & _) (Hr & [Ht _] & _). destruct (chunk_of_row path st r Hr) as (id & c & Hc & _ & _ & Hin).
  apply (temporal_row c); [by apply (Hwf id)|done|done].
Qed.

(** A query through a cache whose entries are right gets a right answer, and so do all later
    ones. *)
Lemma cache_latest_at_ok st fresh cache mode a : sound st -> short_index st path timeline component -> static_chunk_id st path component = None ->
  settled st cache ->
  exists cache' st' o, LatestAtCache.latest_at fresh cache mode st (query a) path component = Done (cache', st', (o, []))
    /\ tracked st st' /\ settled st cache' /\ answers st a o
    /\ LatestAtCache.pending_invalidations cache' = LatestAtCache.pending_invalidations cache.
Proof.
  intros Hst Hshort Hstatic [Hk Hall]. unfold LatestAtCache.latest_at. rewrite Hk. cbn [LatestAtQuery.timeline key_timeline_name].
  rewrite bool_decide_true by done.
  assert (debug_assert true = Done ()) as -> by (unfold debug_assert; by destruct debug_assertions). cbn [mbind outcome_bind LatestAtQuery.at_].
  destruct (LatestAtCache.per_query_time cache !! a) as [e|] eqn:Ee.
  { pose proof (Hall a e Ee) as Hex. pose proof Hex as (c & r & Hu & _).
    destruct (report_used_ok st mode (UnitChunk.original_chunk_id (LatestAtCache.unit e))) as (st' & -> & Htr);
      [eexists; apply Hu|]. cbn [mbind outcome_bind]. by exists cache, st', (Some (LatestAtCache.unit e)). }
  destruct (query_store_ok st fresh mode a Hst Hshort Hstatic) as (st' & o & -> & Htr & Hans & Ho). cbn [mbind outcome_bind].
  destruct o as [[x u]|]; [|by exists cache, st', None]. destruct Ho as (c & r & Hu & -> & Hb).
  pose proof (best_temporal st a r Hst Hb) as Hr. pose proof (as_i64_temporal _ Hr) as Hconv.
  set (t := TimeInt.new_temporal (time_of timeline r)) in *.
  assert (exact st t u) as Hown by (exists c, r; split; [done|]; rewrite Hconv; by eapply best_at_own).
  assert (exists m cached, LatestAtCache.entry_or_insert (LatestAtCache.per_query_time cache) t (LatestAtCache.Cached u false) = (m, cached)
    /\ (forall t' e, m !! t' = Some e -> exact st t' (LatestAtCache.unit e)) /\ exact st t (LatestAtCache.unit cached))
    as (m & cached & -> & Hm & Hc).
  { unfold LatestAtCache.entry_or_insert. destruct (LatestAtCache.per_query_time cache !! t) as [e|] eqn:Et.
    - eexists _, _. split; [done|]. split; [done|by apply Hall].
    - eexists _, _. split; [done|]. split; [|done]. intros t' e [[<- <-]|[_ He]]%lookup_insert_Some; [done|by apply Hall]. }
  assert (exact st a (LatestAtCache.unit cached)) as Hca.
  { destruct Hc as (c' & r' & Hu' & Hb'). rewrite Hconv in Hb'. exists c', r'. split; [done|]. by eapply best_again. }
  eexists (LatestAtCache.Mk _ _ _), st', _. split; [done|]. split; [done|]. split; [|by split].
  split; [done|]. cbn [LatestAtCache.per_query_time]. destruct (_ && _); [|done]. unfold LatestAtCache.entry_or_insert.
  destruct (m !! a) as [e|] eqn:Ea; cbn [fst]; [done|]. intros t' e [[<- <-]|[_ He]]%lookup_insert_Some; [done|by apply Hm].
Qed.

(** More invalidations, and fewer entries. *)
Lemma fewer_in_step st cache cache' : in_step st cache -> LatestAtCache.cache_key cache' = LatestAtCache.cache_key cache ->
  LatestAtCache.per_query_time cache' ⊆ LatestAtCache.per_query_time cache ->
  LatestAtCache.pending_invalidations cache ⊆ LatestAtCache.pending_invalidations cache' -> in_step st cache'.
Proof.
  intros [Hk Hall] Hk' Hsub Hp. split; [congruence|]. intros t e He Hpend. eapply Hall; [by eapply lookup_weaken|].
  intros p Hin. apply Hpend. by apply Hp.
Qed.

Lemma gc_in_step st fraction cache : in_step st cache -> in_step st (QueryCache.gc_cache fraction cache).
Proof.
  intros Hin. apply (fewer_in_step st cache); [done|..]; unfold QueryCache.gc_cache; destruct (_ !! _); try done.
  cbn. apply map_filter_subseteq.
Qed.

End Key.

End OneCache.
