(* ===== verification/RangeCacheSpec.v ===== *)
(** * The range caches answer as the store does

    A [RangeCache] keeps, for each chunk that a query touched, a copy with the rows that have the
    component, sorted on the timeline.  What queries cut out of the copies are the rows of the
    store in the range, whether or not the copies were made before. *)

From stdpp Require Import strings.
From S2P Require Import Prelude Ints TimeInt TimeRange Tuid Arrow Column Chunk ChunkSlice.
From S2P Require Import ChunkSort ChunkMerge ChunkQuery ChunkIndex Lineage StoreStats ChunkStore StoreGc StoreWrites.
From S2P Require Import StoreInvariant StoreInsertion StoreStatic StoreSplits StoreJournal StoreQueries QueryCache QueryCacheSpec.

Import ChunkStore.

Section OneCache.

Context `{Build} `{ArrowLaws} `{!Chunk.SizeBytes} `{HashOrder} (Hvs : very_strict = false).
Implicit Types st : ChunkStore.t.
Implicit Types c raw : Chunk.t.
Implicit Types q : RangeQuery.t.
Implicit Types cache : RangeCache.t.
Implicit Types m : gmap ChunkId.t RangeCache.CachedChunk.

Notation physical st := (physical_chunks_per_chunk_id st).

Lemma range_tracked st mode q path component results st' :
  range_relevant_chunks st mode q path component = Done (results, st') -> tracked st st'.
Proof.
  unfold range_relevant_chunks. destruct (static_chunk_id _ _ _); [apply from_chunk_ids_tracked|].
  destruct (from_chunk_ids _ _ _) as [[r s]|] eqn:E; [|done]. intros [= _ <-]. by eapply from_chunk_ids_tracked.
Qed.

Section Key.

Context (path : EntityPath) (timeline component : string).
Notation key := (Key path (Some timeline) component).

(** The dense, sorted copy of a chunk. *)
Record copy_of raw c : Prop := {
  copy_id : Chunk.id c = Chunk.id raw;
  copy_wf : chunk_wf c;
  copy_sturdy : sturdy c;
  copy_timeline : is_Some (Chunk.timelines c !! timeline);
  copy_component : is_Some (Chunk.components c !! component);
  copy_rows : rows c ≡ₚ filter (has_cell component) (rows raw);
  copy_sorted : Chunk.is_timeline_sorted c timeline = true;
}.

(** A chunk with a row for the cache. *)
Definition concerned raw : Prop := Chunk.entity_path raw = path
  /\ exists s, s ∈ rows raw /\ is_Some (row_times s !! timeline) /\ has_cell component s.

Lemma sorted_rows_flag c : chunk_wf c -> is_Some (Chunk.timelines c !! timeline) ->
  sorted_by (fun r s => time_of timeline r <=? time_of timeline s) (rows c) -> Chunk.is_timeline_sorted c timeline = true.
Proof.
  intros Hwf [tc Htc] Hs. unfold Chunk.is_timeline_sorted. rewrite Htc. apply orb_true_iff. right.
  pose proof (time_of_rows c timeline tc Hwf Htc) as Ht. destruct Hwf as (_ & Hw & _). destruct (Hw _ _ Htc) as (_ & -> & _).
  apply times_sorted_spec. rewrite <- Ht. clear Ht. induction Hs as [|r l _ IH Hf]; [constructor|]. rewrite fmap_cons. constructor; [done|].
  apply Forall_fmap. eapply Forall_impl; [exact Hf|]. intros s Hle. by apply Z.leb_le.
Qed.

Lemma process_ok fresh raw : chunk_wf raw -> sturdy raw -> concerned raw ->
  exists cached, RangeCache.process fresh (Some timeline) component raw = Done cached /\ copy_of raw (RangeCache.chunk cached).
Proof.
  intros Hwf Hheap (Hpath & s & Hs & Ht & Hcell). apply (row_time_some raw s timeline Hwf Hs) in Ht as [tc Htc].
  destruct (Chunk.components raw !! component) as [column|] eqn:Hk; [|by destruct (no_column raw component s Hk Hs)].
  destruct (densified_rows (fresh RangeCache.DensifyDraw) raw component Hvs Hwf) as (c1 & changed & Hd & Hw1 & (_ & Htl1 & Hk1) & Hh1 & Hr1).
  assert (sturdy c1) as Hst1 by (destruct Hh1 as [?| ->]; [by apply unmeasured_sturdy|done]).
  rewrite Hk in Hr1. destruct Hr1 as (Hr1 & _ & _).
  destruct (sorted_by_timeline_rows (fresh RangeCache.SortDraw) c1 timeline Hvs Hst1 Hw1) as
    (c2 & Hc2 & Hw2 & (_ & Htl2 & Hk2) & Hh2 & _ & Hs2).
  assert (exists tc1, Chunk.timelines c1 !! timeline = Some tc1) as [tc1 Htc1].
  { specialize (Htl1 timeline). rewrite Htc in Htl1. destruct (Chunk.timelines c1 !! timeline); [by eexists|done]. }
  rewrite Htc1 in Hs2. destruct Hs2 as (Hs2 & Hsame & Hsort).
  assert (is_Some (Chunk.timelines c2 !! timeline)) as Htc2.
  { specialize (Htl2 timeline). rewrite Htc1 in Htl2. by destruct (Chunk.timelines c2 !! timeline). }
  unfold RangeCache.process. rewrite Hd. cbn [mbind outcome_bind]. rewrite Hc2. cbn [mbind outcome_bind].
  eexists. split; [done|]. cbn [RangeCache.chunk]. split; try done.
  - by apply (sturdy_reshuffled c2).
  - specialize (Hk1 component). specialize (Hk2 component). rewrite Hk in Hk1. cbn.
    destruct (Chunk.components c1 !! component); [|done]. by destruct (Chunk.components c2 !! component).
  - change (rows (Chunk.with_id c2 (Chunk.id raw))) with (rows c2). rewrite <- Hr1.
    destruct (TimeColumn.is_sorted tc1); [by rewrite Hsame|]. destruct Hsort as [_ ->]; [done|]. apply sort_by_perm.
  - by apply (sorted_rows_flag c2).
Qed.

(** *** The invariant of a cache *)

Definition copied st (id : ChunkId.t) (cached : RangeCache.CachedChunk) : Prop :=
  exists raw, physical st !! id = Some raw /\ concerned raw /\ copy_of raw (RangeCache.chunk cached).

(** Every copy that is not to be dropped is one of a chunk in memory. *)
Definition range_in_step st cache : Prop :=
  RangeCache.cache_key cache = key
  /\ forall id cached, RangeCache.chunks cache !! id = Some cached -> id ∉ RangeCache.pending_invalidations cache ->
       copied st id cached.

Definition range_settled st cache : Prop :=
  RangeCache.cache_key cache = key /\ map_Forall (copied st) (RangeCache.chunks cache).

Lemma range_settled_in_step st cache : range_settled st cache -> range_in_step st cache.
Proof. intros [? Hall]. split; [done|]. intros id cached Hc _. by apply Hall. Qed.

Lemma new_range_settled st : range_settled st (RangeCache.new key).
Proof. split; [done|]. apply map_Forall_empty. Qed.

Lemma range_handle_pending_ok st cache : range_in_step st cache -> range_settled st (RangeCache.handle_pending_invalidation cache).
Proof.
  intros [Hk Hall]. split; [done|]. cbn. intros id cached [Hc Hn]%map_lookup_filter_Some. by apply Hall.
Qed.

(** The copies that a query makes. *)
Lemma cache_chunks_ok st fresh raws : Forall (fun raw => physical st !! Chunk.id raw = Some raw /\ concerned raw
    /\ chunk_wf raw /\ sturdy raw) raws ->
  forall i m, map_Forall (copied st) m ->
  exists m', RangeCache.cache_chunks fresh i (Some timeline) component raws m = Done m' /\ map_Forall (copied st) m' /\ m ⊆ m'
    /\ forall raw, raw ∈ raws -> is_Some (m' !! Chunk.id raw).
Proof.
  induction 1 as [|raw raws (Hp & Hc & Hwf & Hh) _ IH]; intros i m Hm; [exists m; split_and!; [done..|by intros ? ?%elem_of_nil]|].
  cbn [RangeCache.cache_chunks].
  assert (exists m1, (match m !! Chunk.id raw with
      | Some _ => Done m
      | None => cached ← RangeCache.process (fresh i) (Some timeline) component raw; Done (<[Chunk.id raw := cached]> m)
      end) = Done m1 /\ map_Forall (copied st) m1 /\ m ⊆ m1 /\ is_Some (m1 !! Chunk.id raw)) as (m1 & -> & Hm1 & Hsub & Hin).
  { destruct (m !! Chunk.id raw) as [cached|] eqn:E; [exists m; split_and!; [done..|by eexists]|].
    destruct (process_ok (fresh i) raw Hwf Hh Hc) as (cached & -> & Hcopy). eexists. split; [done|]. split_and!.
    - apply map_Forall_insert_2; [by exists raw|done].
    - by apply insert_subseteq.
    - rewrite lookup_insert_eq. by eexists. }
  cbn [mbind outcome_bind]. destruct (IH (S i) m1 Hm1) as (m' & Hrun & Hm' & Hsub' & Hall).
  exists m'. split_and!; [done|done|by etransitivity|]. intros raw' [->|?]%elem_of_cons; [|by apply Hall].
  destruct Hin as [cached Hin]. exists cached. by eapply lookup_weaken.
Qed.

(** The rows that are cut out of the copies. *)
Lemma range_chunks_cut st fresh q m raws : RangeQuery.timeline q = timeline -> query_nonempty q ->
  RangeQuery.include_extended_bounds (RangeQuery.options q) = false -> map_Forall (copied st) m ->
  (forall raw, raw ∈ raws -> physical st !! Chunk.id raw = Some raw /\ is_Some (m !! Chunk.id raw)) -> forall i,
  exists selected, RangeCache.range_chunks fresh i q component m raws = Done selected
    /\ selected ≫= rows ≡ₚ project q component <$> (raws ≫= fun raw => filter (within_range q component) (rows raw))
    /\ Forall (fun c => sorted_by (time_le timeline) (rows c)) selected.
Proof.
  intros Htl Hq Hext Hm. induction raws as [|raw raws IH]; intros Hraws i; [exists []; by repeat constructor|].
  destruct (Hraws raw ltac:(left)) as [Hp [cached Hcached]]. cbn [RangeCache.range_chunks]. rewrite Hcached.
  destruct (Hm _ _ Hcached) as (raw' & Hp' & _ & [_ Hwf Hh [tc Htc] Hcol Hrows Hsorted]). assert (raw' = raw) as -> by congruence.
  rewrite Htl, Hsorted. assert (debug_assert true = Done ()) as -> by (unfold debug_assert; by destruct debug_assertions).
  cbn [mbind outcome_bind].
  destruct (chunk_range_rows (fun d => fresh i (RangeCache.RangeDraw d)) (RangeCache.chunk cached) q component tc) as
    (c' & -> & Hc' & Hs'); [done|done|done|done|done|by rewrite Htl|done|]. cbn [mbind outcome_bind].
  destruct (IH ltac:(intros; apply Hraws; by right) (S i)) as (selected & -> & Hsel & Hall). cbn [mbind outcome_bind].
  set (c1 := Chunk.with_id c' _). change (rows c') with (rows c1) in *.
  assert (rows c1 ≡ₚ project q component <$> filter (within_range q component) (rows raw)) as Hc1.
  { rewrite Hc', Hrows, filter_filter_and. apply fmap_Permutation. rewrite (filter_iff_in _ (within_range q component)); [done|].
    intros s _. unfold within_range. tauto. }
  destruct (Chunk.is_empty c1) eqn:Ee.
  - exists selected. split; [done|]. split; [|done]. csimpl. rewrite fmap_app, <- Hc1, (no_rows c1 Ee). done.
  - exists (c1 :: selected). split; [done|]. split; [|constructor; [by rewrite <- Htl|done]]. csimpl. by rewrite fmap_app, Hc1, Hsel.
Qed.

End Key.

(** A chunk whose range of the component is in the index has a row for the cache. *)
Lemma indexed_concerned st cs path timeline component c range : indexes st cs -> Forall stored_chunk cs -> short_index st path timeline component ->
  c ∈ cs -> Chunk.entity_path c = path -> component_range c timeline component = Some range -> concerned path timeline component c.
Proof.
  intros [[Hc _] _] Hst Hshort Hin Hp Hr. specialize (Hc path timeline component). destruct Hc as (_ & _ & _ & Hl).
  assert ((Chunk.id c, range) ∈ component_ranges cs path timeline component) as Hcr by (apply elem_of_component_ranges; by exists c).
  split; [done|]. rewrite Forall_forall in Hst. destruct (Hst c Hin) as (Hwf & Hn & _).
  pose proof Hr as Hr'. unfold component_range, Chunk.time_range_per_component in Hr'. rewrite lookup_fmap in Hr'.
  destruct (Chunk.timelines c !! timeline) as [tc|] eqn:Htc; [|done]. csimpl in Hr'.
  unfold TimeColumn.time_range_per_component in Hr'. rewrite lookup_omap in Hr'.
  destruct (Chunk.components c !! component) as [column|] eqn:Hk; [|done].
  destruct (component_range_rows c timeline tc component column) as (range' & E & _ & Hex); [done..|].
  assert (range' = range) as -> by congruence. destruct Hex as (s & Hs & Hcell & _).
  - specialize (Hl _ _ Hcr). pose proof Hshort as Hsh. unfold short_index in Hsh.
    destruct (component_index st path (Some timeline) component); cbn in *; lia.
  - exists s. split; [done|]. split; [|done]. apply (row_time_some c s timeline Hwf Hs). by rewrite Htc.
Qed.

(** A range query through a cache whose copies are right gets the rows of the store in the
    range, and the copies stay right. *)
Lemma cache_range_ok st fresh cache mode q path component : sound st -> short_index st path (RangeQuery.timeline q) component -> sturdy_store st ->
  static_chunk_id st path component = None -> range_settled path (RangeQuery.timeline q) component st cache ->
  exists results st' m, range_relevant_chunks st mode q path component = Done (results, st') /\ tracked st st'
    /\ RangeCache.cache_chunks fresh 0 (Some (RangeQuery.timeline q)) component (chunks results) (RangeCache.chunks cache) = Done m
    /\ missing_virtual results = [] /\ map_Forall (copied path (RangeQuery.timeline q) component st) m
    /\ (query_nonempty q -> RangeQuery.include_extended_bounds (RangeQuery.options q) = false ->
        exists selected, RangeCache.range_chunks fresh 0 q component m (chunks results) = Done selected
          /\ selected ≫= rows ≡ₚ project q component <$> filter (queried q component) (temporal_rows path st)
          /\ Forall (fun c => sorted_by (time_le (RangeQuery.timeline q)) (rows c)) selected).
Proof.
  intros (cs & Hok & Hwf & Hphys) Hshort Hheap Hstatic [Hk Hm]. assert (indexes st cs) as Hix by (split; [apply Hok|done]).
  pose proof (stored_chunks st cs Hok Hwf Hphys) as Hst.
  destruct (range_chunks_ok st cs mode q path component Hix (ok_distinct _ _ _ _ Hok) Hst Hstatic Hshort) as
    (results & st' & Hrun & Hmiss & Hnd & Hin). exists results, st'.
  destruct (cache_chunks_ok path (RangeQuery.timeline q) component st fresh (chunks results)) with (i := 0%nat) (m := RangeCache.chunks cache)
    as (m & Hcache & Hm' & _ & Hall); [|done|].
  { apply Forall_forall. intros c (Hc & Hp & range & Hr & _)%Hin. pose proof (Hphys c Hc) as Hpc. split; [done|].
    split; [by apply (indexed_concerned st cs path (RangeQuery.timeline q) component c range)|].
    split; [by apply (Hwf _ _ Hpc)|by apply (Hheap _ _ Hpc)]. }
  exists m. split; [done|]. split; [by eapply range_tracked|]. split; [done|]. split; [done|]. split; [done|]. intros Hq Hext.
  destruct (range_chunks_cut path (RangeQuery.timeline q) component st fresh q m (chunks results) eq_refl Hq Hext Hm') with (i := 0%nat)
    as (selected & Hsel & Hrows & Hsorted).
  { intros c Hc. split; [|by apply Hall]. apply Hin in Hc as [Hc _]. by apply Hphys. }
  exists selected. split; [done|]. split; [|done]. rewrite Hrows.
  destruct (temporal_chunks st cs path Hok Hphys) as (all & -> & Hnda & Hallc). rewrite Forall_forall in Hst.
  rewrite relevant_rows; [done|done|done| |].
  - intros c [Hc _]%Hallc. by apply Hst.
  - intros c. rewrite Hin, Hallc. tauto.
Qed.

End OneCache.
