(* ===== verification/QueryCacheJournal.v ===== *)
(** * The caches of a store over time

    A store and its caches from the start: chunks are inserted and collected, the events of that
    reach the caches, and queries go through them.  A latest-at query through the caches is
    answered right in every such state. *)

From stdpp Require Import strings relations.
From S2P Require Import Prelude Ints TimeInt TimeRange Tuid Arrow Column Chunk ChunkSlice.
From S2P Require Import ChunkSort ChunkMerge ChunkQuery ChunkIndex Lineage StoreStats ChunkStore StoreGc StoreWrites.
From S2P Require Import StoreFrame StoreInvariant StoreGcSpec StoreInsertion StoreStatic StoreSplits StoreJournal.
From S2P Require Import StoreQueries QueryCache QueryCacheSpec RangeCacheSpec.

(** ** What the notices say *)

Section Notices.

Context `{Build} `{ArrowLaws} `{!Chunk.SizeBytes} `{HashOrder}.
Implicit Types s : Row.
Implicit Types c : Chunk.t.

Lemma compact_notice_grows events notice key :
  (forall p, temporal_latest_at events !! key = Some p ->
     exists p', temporal_latest_at (compact_notice events notice) !! key = Some p' /\ TimeInt.as_i64 p' <= TimeInt.as_i64 p)
  /\ (forall ids, temporal_range events !! key = Some ids ->
     exists ids', temporal_range (compact_notice events notice) !! key = Some ids' /\ ids ⊆ ids').
Proof.
  split.
  - intros p Hp. destruct notice as [k ids|k time|k ids]; cbn; [by exists p| |by exists p].
    destruct (decide (k = key)) as [->|Hne]; [|rewrite lookup_insert_ne by done; by exists p].
    rewrite lookup_insert_eq, Hp. eexists. split; [done|]. rewrite TimeInt.as_i64_min. lia.
  - intros ids Hids. destruct notice as [k ids'|k time|k ids']; cbn; [by exists ids|by exists ids|].
    destruct (decide (k = key)) as [->|Hne]; [|rewrite lookup_insert_ne by done; by exists ids].
    rewrite lookup_insert_eq, Hids. eexists. split; [done|]. set_solver.
Qed.

Lemma compact_notice_hears events key time ids :
  (exists p, temporal_latest_at (compact_notice events (LatestAtNotice key time)) !! key = Some p /\ TimeInt.as_i64 p <= TimeInt.as_i64 time)
  /\ (exists ids', temporal_range (compact_notice events (RangeNotice key ids)) !! key = Some ids' /\ ids ⊆ ids').
Proof.
  cbn. rewrite !lookup_insert_eq. split; eexists; (split; [done|]); [|set_solver].
  destruct (temporal_latest_at events !! key); [rewrite TimeInt.as_i64_min|]; lia.
Qed.

(** Each notice is accounted for. *)
Lemma compact_notices_ok notices key : forall events,
  (forall p, LatestAtNotice key p ∈ notices \/ temporal_latest_at events !! key = Some p ->
     exists p', temporal_latest_at (foldl compact_notice events notices) !! key = Some p' /\ TimeInt.as_i64 p' <= TimeInt.as_i64 p)
  /\ (forall ids, RangeNotice key ids ∈ notices \/ temporal_range events !! key = Some ids ->
     exists ids', temporal_range (foldl compact_notice events notices) !! key = Some ids' /\ ids ⊆ ids').
Proof.
  induction notices as [|notice notices IH]; intros events.
  { split; [intros p|intros ids]; intros [?%elem_of_nil|Hp]; [done| |done|]; eexists; (split; [exact Hp|done]). }
  destruct (IH (compact_notice events notice)) as [IHl IHr]. cbn [foldl]. split.
  - intros p [[<-|Hp]%elem_of_cons|Hp]; [|by apply IHl; left|].
    + destruct (compact_notice_hears events key p ∅) as [(p1 & Hp1 & Hle) _].
      destruct (IHl p1) as (p2 & Hp2 & ?); [by right|]. exists p2. split; [done|lia].
    + destruct (compact_notice_grows events notice key) as [Hg _]. destruct (Hg p Hp) as (p1 & Hp1 & Hle).
      destruct (IHl p1) as (p2 & Hp2 & ?); [by right|]. exists p2. split; [done|lia].
  - intros ids [[<-|Hp]%elem_of_cons|Hp]; [|by apply IHr; left|].
    + destruct (compact_notice_hears events key TimeInt.MIN ids) as [_ (i1 & Hi1 & Hsub)].
      destruct (IHr i1) as (i2 & Hi2 & ?); [by right|]. exists i2. split; [done|set_solver].
    + destruct (compact_notice_grows events notice key) as [_ Hg]. destruct (Hg ids Hp) as (i1 & Hi1 & Hsub).
      destruct (IHr i1) as (i2 & Hi2 & ?); [by right|]. exists i2. split; [done|set_solver].
Qed.

Definition notices_of (events : list ChunkStoreEvent) : list Notice := events ≫= fun e => diff_notices (event_diff e).

Lemma compact_events_run store_id events : forall compacted compacted',
  compact_events store_id events compacted = Done compacted' ->
  compacted' = foldl compact_notice compacted (notices_of events).
Proof.
  induction events as [|e events IH]; intros compacted compacted'; cbn [compact_events]; [by intros [= <-]|].
  case_bool_decide; [|done]. intros ->%IH. unfold notices_of. cbn [mbind list_bind]. by rewrite foldl_app.
Qed.

Lemma compact_events_done store_id events : Forall (fun e => event_store_id e = store_id) events -> forall compacted,
  compact_events store_id events compacted = Done (foldl compact_notice compacted (notices_of events)).
Proof.
  induction 1 as [|e events He _ IH]; intros compacted; cbn [compact_events]; [done|].
  rewrite bool_decide_true by done. rewrite IH. unfold notices_of. cbn [mbind list_bind]. by rewrite foldl_app.
Qed.

(** *** Rows that notices are about *)

Lemma elem_of_chunk_keys c timeline component range : component_range c timeline component = Some range ->
  (Key (Chunk.entity_path c) (Some timeline) component, range) ∈ chunk_keys c.
Proof.
  unfold component_range, chunk_keys. intros Hr.
  destruct (Chunk.time_range_per_component c !! timeline) as [per|] eqn:E; [|done]. cbn in Hr.
  apply list_elem_of_bind. exists (timeline, per). split; [|by apply elem_of_map_to_list].
  apply list_elem_of_fmap. exists (component, range). split; [done|]. by apply elem_of_map_to_list.
Qed.

Lemma row_key c s timeline component : chunk_wf c -> s ∈ rows c -> is_Some (row_times s !! timeline) -> has_cell component s ->
  exists range, (Key (Chunk.entity_path c) (Some timeline) component, range) ∈ chunk_keys c
    /\ TimeInt.as_i64 (AbsoluteTimeRange.rmin range) <= time_of timeline s.
Proof.
  intros Hwf Hs Ht Hcell. apply (row_time_some c s timeline Hwf Hs) in Ht as [tc Htc].
  destruct (Chunk.components c !! component) as [column|] eqn:Hk; [|by destruct (no_column c component s Hk Hs)].
  destruct (component_range_rows c timeline tc component column) as (range & Hr & Hrange & _); [done| |done|done|].
  { rewrite <- length_rows. intros E. apply nil_length_inv in E. rewrite E in Hs. by apply elem_of_nil in Hs. }
  exists range. split; [by apply elem_of_chunk_keys|by apply Hrange].
Qed.

(** Every cache that the row matters to is told so, with a time at or before the row's. *)
Definition noticed (notices : list Notice) (path : EntityPath) s : Prop := forall timeline component,
  is_Some (row_times s !! timeline) -> has_cell component s ->
  exists time, LatestAtNotice (Key path (Some timeline) component) time ∈ notices /\ TimeInt.as_i64 time <= time_of timeline s.

(** And every one that the chunk matters to, with its id. *)
Definition named (notices : list Notice) c : Prop := forall timeline component s,
  s ∈ rows c -> is_Some (row_times s !! timeline) -> has_cell component s ->
  exists ids, RangeNotice (Key (Chunk.entity_path c) (Some timeline) component) ids ∈ notices /\ Chunk.id c ∈ ids.

Lemma addition_noticed add s : chunk_wf (latest_at_chunk add) -> s ∈ rows (latest_at_chunk add) ->
  noticed (addition_notices add) (Chunk.entity_path (latest_at_chunk add)) s.
Proof.
  intros Hwf Hs timeline component Ht Hcell. destruct (row_key _ _ _ _ Hwf Hs Ht Hcell) as (range & Hin & Hle).
  exists (AbsoluteTimeRange.rmin range). split; [|done]. unfold addition_notices. rewrite !elem_of_app. right. left.
  apply list_elem_of_fmap. by exists (Key (Chunk.entity_path (latest_at_chunk add)) (Some timeline) component, range).
Qed.

(** The chunk that an addition is announced with has the new rows. *)
Lemma latest_at_chunk_ok x add : addition_ok x add ->
  chunk_wf (latest_at_chunk add) /\ Chunk.entity_path (latest_at_chunk add) = Chunk.entity_path x
  /\ forall s, s ∈ rows (delta_chunk add) -> s ∈ rows (latest_at_chunk add).
Proof. intros (? & ? & ? & ? & ?). unfold latest_at_chunk. by destruct (direct_lineage add). Qed.

Lemma addition_named add c srcs : direct_lineage add = Report.CompactedFrom srcs -> is_Some (srcs !! Chunk.id c) ->
  chunk_wf (chunk_after_processing add) -> Chunk.entity_path c = Chunk.entity_path (chunk_after_processing add) ->
  (forall s, s ∈ rows c -> s ∈ rows (chunk_after_processing add)) -> named (addition_notices add) c.
Proof.
  intros Hl Hsrc Hwf Hpath Hsub timeline component s Hs Ht Hcell.
  destruct (row_key _ _ _ _ Hwf (Hsub s Hs) Ht Hcell) as (range & Hin & _). exists (added_ids add). split.
  - unfold addition_notices. rewrite !elem_of_app. right. right. apply list_elem_of_fmap. rewrite Hpath.
    by exists (Key (Chunk.entity_path (chunk_after_processing add)) (Some timeline) component, range).
  - unfold added_ids. rewrite Hl. apply elem_of_union. right. by apply elem_of_dom.
Qed.

Lemma deletion_noticed c : chunk_wf c -> (forall s, s ∈ rows c -> noticed (deletion_notices c) (Chunk.entity_path c) s)
  /\ named (deletion_notices c) c.
Proof.
  intros Hwf. split.
  - intros s Hs timeline component Ht Hcell. destruct (row_key _ _ _ _ Hwf Hs Ht Hcell) as (range & Hin & Hle).
    exists (AbsoluteTimeRange.rmin range). split; [|done]. unfold deletion_notices. rewrite elem_of_app. right.
    apply list_elem_of_bind. eexists. split; [|exact Hin]. left.
  - intros timeline component s Hs Ht Hcell. destruct (row_key _ _ _ _ Hwf Hs Ht Hcell) as (range & Hin & _).
    exists {[Chunk.id c]}. split; [|by apply elem_of_singleton]. unfold deletion_notices. rewrite elem_of_app. right.
    apply list_elem_of_bind. eexists. split; [|exact Hin]. right. left.
Qed.

End Notices.

(** ** Stores that change *)

Section Changes.

Import ChunkStore.
Context `{Build} `{ArrowLaws} `{!Chunk.SizeBytes} `{HashOrder} `{!SizeLaws} `{!HashOrderLaws} (Hvs : very_strict = false).
Implicit Types st : ChunkStore.t.
Implicit Types c x : Chunk.t.

Notation physical st := (physical_chunks_per_chunk_id st).
Notation lineage_of st := (chunks_lineage (lineages st)).

(** A store that was not given a manifest. *)
Definition live st : Prop := sound st /\ unmanifested (lineage_of st).

(** All that the notices leave out is as it was. *)
Record change st st' (notices : list Notice) : Prop := {
  change_rows path s : s ∈ temporal_rows path st' -> s ∈ temporal_rows path st \/ noticed notices path s;
  change_gone id c : physical st !! id = Some c -> Chunk.is_static c = false ->
    physical st' !! id = Some c \/ ((forall s, s ∈ rows c -> noticed notices (Chunk.entity_path c) s) /\ named notices c);
}.

(** The events that the store sends of its changes. *)
Definition physical_events (store_id : string) (diffs : list ChunkStoreDiff) : list ChunkStoreEvent :=
  (fun diff => Event store_id (PhysicalChange diff)) <$> diffs.

Lemma notice_of_diff store_id diffs diff notice : diff ∈ diffs -> notice ∈ diff_notices (PhysicalChange diff) ->
  notice ∈ notices_of (physical_events store_id diffs).
Proof.
  intros Hd Hn. apply list_elem_of_bind. exists (Event store_id (PhysicalChange diff)). split; [done|].
  by apply (list_elem_of_fmap_2 (fun diff => Event store_id (PhysicalChange diff))).
Qed.

Lemma noticed_by store_id diffs diff path s : diff ∈ diffs -> noticed (diff_notices (PhysicalChange diff)) path s ->
  noticed (notices_of (physical_events store_id diffs)) path s.
Proof.
  intros Hd Hn timeline component Ht Hc. destruct (Hn timeline component Ht Hc) as (time & Hin & Hle). exists time.
  split; [|done]. by eapply notice_of_diff.
Qed.

Lemma named_by store_id diffs diff c : diff ∈ diffs -> named (diff_notices (PhysicalChange diff)) c ->
  named (notices_of (physical_events store_id diffs)) c.
Proof.
  intros Hd Hn timeline component s Hs Ht Hc. destruct (Hn timeline component s Hs Ht Hc) as (ids & Hin & Hid). exists ids.
  split; [|done]. by eapply notice_of_diff.
Qed.

Lemma new_live config : live (ChunkStore.new config).
Proof.
  split; [|by intros id l src Hl]. exists []. split; [apply new_store_ok|]. split; [apply map_Forall_empty|].
  by intros c ?%elem_of_nil.
Qed.

(** An insertion. *)
Lemma insert_change store_id st x new_id st' diffs : live st -> new_chunk st x -> draws_new st x new_id ->
  StoreWrites.insert_chunk st new_id x = Done (st', Ok diffs) ->
  live st' /\ keeps st st' /\ change st st' (notices_of (physical_events store_id diffs)).
Proof.
  intros [(cs & Hok & Hwf & Hphys) Hun] Hx Hd Hrun.
  pose proof (insert_keeps st new_id x) as Hk. rewrite Hrun in Hk. unfold ensures, keeps_result in Hk. cbn [fst] in Hk.
  pose proof (insert_new_ok st cs x new_id Hvs Hok Hwf Hx Hd) as Hsafe. rewrite Hrun in Hsafe.
  destruct Hsafe as (cs' & diffs' & [= <-] & Hok' & Hwf' & Hphys' & Hrows & Hdelta & [Hadd _ Hgone]). cbn [fst] in *.
  split; [by split; [exists cs'; auto|apply (keeps_unmanifested _ _ Hk)]|]. split; [done|]. split.
  - intros path s. rewrite Hrows, elem_of_app. intros [Hs|Hs]; [right|by left].
    unfold new_rows in Hs. destruct (decide (temporal_of path x)) as [[_ <-]|]; [|by apply elem_of_nil in Hs].
    rewrite <- Hdelta in Hs. apply list_elem_of_bind in Hs as ([add|d] & Hs & Hin); [|by apply elem_of_nil in Hs].
    destruct (latest_at_chunk_ok x add (Hadd add Hin)) as (Hw & <- & Hsub).
    apply (noticed_by _ _ (Addition add)); [done|]. apply addition_noticed; [done|by apply Hsub].
  - intros id c Hc Hs. destruct (Hgone id c Hc Hs) as [|(add & srcs & Hin & Hl & Hsrc & Hpath & Hsub)]; [by left|right].
    destruct (Hadd add Hin) as (_ & _ & Hwa & Hpa & _). rewrite Hpath, <- Hpa. split.
    + intros s Hsc. apply (noticed_by _ _ (Addition add)); [done|].
      assert (latest_at_chunk add = chunk_after_processing add) as El by (unfold latest_at_chunk; by rewrite Hl).
      rewrite <- El. apply addition_noticed; rewrite El; [done|by apply Hsub].
    + apply (named_by _ _ (Addition add)); [done|]. by apply (addition_named add c srcs); [done|done|done|congruence|].
Qed.

(** A collection. *)
Lemma gc_change store_id st options e1 e2 st' dels freed : live st -> gc_bounds st options ->
  StoreGc.gc st options e1 e2 = Done (st', dels, freed) ->
  live st' /\ keeps st st' /\ change st st' (notices_of (physical_events store_id (Deleted <$> dels))).
Proof.
  intros [(cs & Hok & Hwf & Hphys) Hun] Hb Hrun.
  pose proof (gc_keeps st options e1 e2) as Hk. rewrite Hrun in Hk. unfold ensures in Hk. cbn [fst] in Hk.
  destruct (gc_ok st cs options e1 e2 Hok Hb) as (st1 & cs' & dels1 & n & marked & Hrun' & _ & Hm & Hok' & Hsw & _).
  rewrite Hrun in Hrun'. injection Hrun' as <- <- _.
  destruct (gc_find_candidates_ok _ cs [] options n e1 (stepped_ok _ _ _ Hok)) as (marked' & Hm' & Hcol & _); [apply Hb|].
  assert (marked' = marked) as -> by congruence. destruct Hsw as [_ Hsub Hunm Hrep Hmk Hidx _ _].
  assert (unmanifested (lineage_of st')) as Hun' by apply (keeps_unmanifested _ _ Hk Hun).
  assert (forall id c, physical st' !! id = Some c -> physical st !! id = Some c) as Hback
    by (intros id c Hc; eapply lookup_weaken; [exact Hc|exact Hsub]).
  split.
  { split; [|done]. exists cs'. split; [done|]. split; [intros id c Hc; by apply (Hwf id c), Hback|].
    intros c Hc. destruct (physical st' !! Chunk.id c) as [c'|] eqn:E.
    - destruct (ok_consistent _ _ _ _ Hok' c c' Hc E) as [-> _]. done.
    - destruct (ok_missing _ _ _ _ Hok' c Hc E) as [(l & src & Hl & El)|?%elem_of_nil]; [|done]. by destruct (Hun' _ _ Hl src). }
  split; [done|]. split.
  - intros path s Hs. left. destruct (chunk_of_row path st' s Hs) as (id & c & Hc & Hst & Hp & Hin). apply Hback in Hc.
    apply (elem_of_chunk c); [by rewrite (ok_keys _ _ _ _ Hok id c Hc)|done|done|done].
  - intros id c Hc Hst. destruct (physical st' !! id) as [c'|] eqn:E.
    { left. apply Hback in E. congruence. }
    right. pose proof (ok_keys _ _ _ _ Hok id c Hc) as <-.
    assert (c ∈ marked) as Hin.
    { destruct (decide (Chunk.id c ∈ Chunk.id <$> marked)) as [(c' & Hid & Hc')%list_elem_of_fmap|Hn].
      - destruct (Hcol c' Hc') as [[Hpc' _] _]. assert (c' = c) as <- by (rewrite <- Hid in Hpc'; cbn in Hpc'; congruence). done.
      - rewrite (Hunm (Chunk.id c) c Hc) in E; [done|]. intros Hin. apply Hn. by apply list_elem_of_fmap_2. }
    destruct (Hrep c Hin E) as (d & Hd & Hid). destruct (Hmk d Hd) as [Hdm _].
    destruct (Hcol (del_chunk d) Hdm) as [[Hpd _] _].
    assert (del_chunk d = c) as Edc by (rewrite Hid in Hpd; cbn in Hpd; congruence).
    assert (Deleted d ∈ Deleted <$> dels) as Hdd by by apply list_elem_of_fmap_2.
    destruct (deletion_noticed c) as [Hn1 Hn2]; [by apply (Hwf _ _ Hc)|]. split.
    + intros s Hs. apply (noticed_by _ _ (Deleted d)); [done|]. cbn [diff_notices]. rewrite Edc. by apply Hn1.
    + apply (named_by _ _ (Deleted d)); [done|]. cbn [diff_notices]. by rewrite Edc.
Qed.

End Changes.

(** ** The caches of a store *)

Section Caches.

Import ChunkStore.
Context `{Build} `{ArrowLaws} `{!Chunk.SizeBytes} `{HashOrder}.
Implicit Types st : ChunkStore.t.
Implicit Types self : QueryCache.t.

Notation latest self := (QueryCache.latest_at_per_cache_key self).
Notation ranges self := (QueryCache.range_per_cache_key self).

(** More is to be invalidated, and nothing else has changed. *)
Definition latest_grown (cache cache' : LatestAtCache.t) : Prop :=
  LatestAtCache.cache_key cache' = LatestAtCache.cache_key cache
  /\ LatestAtCache.per_query_time cache' = LatestAtCache.per_query_time cache
  /\ LatestAtCache.pending_invalidations cache ⊆ LatestAtCache.pending_invalidations cache'.
Definition range_grown (cache cache' : RangeCache.t) : Prop :=
  RangeCache.cache_key cache' = RangeCache.cache_key cache
  /\ RangeCache.chunks cache' = RangeCache.chunks cache
  /\ RangeCache.pending_invalidations cache ⊆ RangeCache.pending_invalidations cache'.

#[local] Instance latest_grown_preorder : PreOrder latest_grown.
Proof. split; [by intros c|]. intros a b c (? & ? & ?) (? & ? & ?). split_and!; [congruence|congruence|set_solver]. Qed.
#[local] Instance range_grown_preorder : PreOrder range_grown.
Proof. split; [by intros c|]. intros a b c (? & ? & ?) (? & ? & ?). split_and!; [congruence|congruence|set_solver]. Qed.

Record grown self self' : Prop := {
  grown_id : QueryCache.store_id self' = QueryCache.store_id self;
  grown_latest key : option_Forall2 latest_grown (latest self !! key) (latest self' !! key);
  grown_ranges key : option_Forall2 range_grown (ranges self !! key) (ranges self' !! key);
}.

#[local] Instance grown_preorder : PreOrder grown.
Proof.
  split; [by intros self; split|]. intros a b c [] []. split; [congruence|intros key; etransitivity; eauto..].
Qed.

Lemma latest_invalidate cache time : latest_grown cache (LatestAtCache.invalidate cache time).
Proof. split_and!; [done|done|]. cbn. set_solver. Qed.

Lemma range_invalidate cache ids : range_grown cache (RangeCache.invalidate cache ids).
Proof. split_and!; [done|done|]. cbn. set_solver. Qed.

Lemma invalidate_static_grown self x : grown self (QueryCache.invalidate_static self x.1 x.2).
Proof.
  split; [done|..]; intros key; cbn; rewrite map_lookup_imap.
  - destruct (latest self !! key); cbn; [|constructor]. constructor. destruct (bool_decide _); [apply latest_invalidate|done].
  - destruct (ranges self !! key); cbn; [|constructor]. constructor. destruct (bool_decide _); [apply range_invalidate|done].
Qed.

Lemma invalidate_latest_at_grown self x : grown self (QueryCache.invalidate_latest_at self x.1 x.2).
Proof.
  split; [done|intros key|intros key]; cbn; [|done]. destruct (decide (x.1 = key)) as [->|]; [rewrite lookup_alter_eq|by rewrite lookup_alter_ne].
  destruct (latest self !! key); constructor. apply latest_invalidate.
Qed.

Lemma invalidate_range_grown self x : grown self (QueryCache.invalidate_range self x.1 x.2).
Proof.
  split; [done|intros key|intros key]; cbn; [done|]. destruct (decide (x.1 = key)) as [->|]; [rewrite lookup_alter_eq|by rewrite lookup_alter_ne].
  destruct (ranges self !! key); constructor. apply range_invalidate.
Qed.

Lemma foldl_grown {A} (f : QueryCache.t -> A -> QueryCache.t) l : (forall self x, grown self (f self x)) ->
  forall self, grown self (foldl f self l) /\ forall x, x ∈ l -> exists self1, grown (f self1 x) (foldl f self l).
Proof.
  intros Hf. induction l as [|y l IH]; intros self; [by split; [|intros x ?%elem_of_nil]|].
  destruct (IH (f self y)) as [Hg Hin]. cbn [foldl]. split; [etransitivity; [apply Hf|exact Hg]|].
  intros x [->|Hx]%elem_of_cons; [by exists self|by apply Hin].
Qed.

(** What the events do: every notice is pending in its cache. *)
Lemma on_events_ok self events self' : QueryCache.on_events self events = Done self' ->
  grown self self'
  /\ (forall key time cache', LatestAtNotice key time ∈ notices_of events -> latest self' !! key = Some cache' ->
        exists p, p ∈ LatestAtCache.pending_invalidations cache' /\ TimeInt.as_i64 p <= TimeInt.as_i64 time)
  /\ (forall key ids cache', RangeNotice key ids ∈ notices_of events -> ranges self' !! key = Some cache' ->
        ids ⊆ RangeCache.pending_invalidations cache').
Proof.
  unfold QueryCache.on_events. destruct (compact_events _ _ _) as [compacted|] eqn:E; [|done].
  apply compact_events_run in E. cbn [mbind outcome_bind]. intros [= <-].
  set (self1 := foldl _ self _). set (self2 := foldl _ self1 _).
  destruct (foldl_grown (fun self '(key, ids) => QueryCache.invalidate_static self key ids) (map_to_list (static_ compacted))) with (self := self)
    as [Hg1 _]; [intros s [key ids]; apply (invalidate_static_grown s (key, ids))|].
  destruct (foldl_grown (fun self '(key, time) => QueryCache.invalidate_latest_at self key time) (map_to_list (temporal_latest_at compacted))) with (self := self1)
    as [Hg2 Hin2]; [intros s [key ids]; apply (invalidate_latest_at_grown s (key, ids))|].
  destruct (foldl_grown (fun self '(key, ids) => QueryCache.invalidate_range self key ids) (map_to_list (temporal_range compacted))) with (self := self2)
    as [Hg3 Hin3]; [intros s [key ids]; apply (invalidate_range_grown s (key, ids))|].
  set (self3 := foldl _ self2 _) in *. fold self1 self2 in Hg1, Hg2, Hin2. split; [etransitivity; [exact Hg1|]; etransitivity; [exact Hg2|exact Hg3]|].
  split.
  - intros key time cache' Hn Hc. destruct (compact_notices_ok (notices_of events) key no_events) as [Hl _].
    destruct (Hl time) as (p & Hp & Hle); [by left|]. rewrite <- E in Hp. exists p. split; [|done].
    destruct (Hin2 (key, p)) as [s1 Hs1]; [by apply elem_of_map_to_list|].
    assert (grown (QueryCache.invalidate_latest_at s1 key p) self3) as Hg by (etransitivity; [exact Hs1|exact Hg3]).
    pose proof (grown_latest _ _ Hg key) as Hf. rewrite Hc in Hf. cbn in Hf. rewrite lookup_alter_eq in Hf.
    destruct (latest s1 !! key) as [c|]; cbn in Hf; inversion Hf as [? ? (_ & _ & Hsub)|]; subst. apply Hsub. cbn. set_solver.
  - intros key ids cache' Hn Hc. destruct (compact_notices_ok (notices_of events) key no_events) as [_ Hr].
    destruct (Hr ids) as (ids' & Hp & Hle); [by left|]. rewrite <- E in Hp. transitivity ids'; [done|].
    destruct (Hin3 (key, ids')) as [s1 Hs1]; [by apply elem_of_map_to_list|].
    pose proof (grown_ranges _ _ Hs1 key) as Hf. rewrite Hc in Hf. cbn in Hf. rewrite lookup_alter_eq in Hf.
    destruct (ranges s1 !! key) as [c|]; cbn in Hf; inversion Hf as [? ? (_ & _ & Hsub)|]; subst. cbn in Hsub. set_solver.
Qed.

(** *** Entities that may have been cleared *)

Lemma marks_mono {A} (f : QueryCache.t -> A -> QueryCache.t) l :
  (forall self x, QueryCache.might_require_clearing self ⊆ QueryCache.might_require_clearing (f self x)) ->
  forall self, QueryCache.might_require_clearing self ⊆ QueryCache.might_require_clearing (foldl f self l)
    /\ forall x, x ∈ l -> exists self1, QueryCache.might_require_clearing (f self1 x) ⊆ QueryCache.might_require_clearing (foldl f self l).
Proof.
  intros Hf. induction l as [|y l IH]; intros self; [by split; [|intros x ?%elem_of_nil]|].
  destruct (IH (f self y)) as [Hg Hin]. cbn [foldl]. split; [etransitivity; [apply Hf|exact Hg]|].
  intros x [->|Hx]%elem_of_cons; [by exists self|by apply Hin].
Qed.

(** The events only add to them, each entity that a notice is about for the component of clears. *)
Lemma on_events_marks self events self' : QueryCache.on_events self events = Done self' ->
  QueryCache.might_require_clearing self ⊆ QueryCache.might_require_clearing self'
  /\ forall key time, LatestAtNotice key time ∈ notices_of events -> key_component key = clear_component ->
       key_entity_path key ∈ QueryCache.might_require_clearing self'.
Proof.
  unfold QueryCache.on_events. destruct (compact_events _ _ _) as [compacted|] eqn:E; [|done].
  apply compact_events_run in E. cbn [mbind outcome_bind]. intros [= <-].
  set (self1 := foldl _ self _). set (self2 := foldl _ self1 _).
  destruct (marks_mono (fun self '(key, ids) => QueryCache.invalidate_static self key ids) (map_to_list (static_ compacted))) with (self := self)
    as [Hg1 _]; [intros s [key ids]; cbn; case_bool_decide; set_solver|].
  destruct (marks_mono (fun self '(key, time) => QueryCache.invalidate_latest_at self key time) (map_to_list (temporal_latest_at compacted))) with (self := self1)
    as [Hg2 Hin2]; [intros s [key time]; cbn; case_bool_decide; set_solver|].
  destruct (marks_mono (fun self '(key, ids) => QueryCache.invalidate_range self key ids) (map_to_list (temporal_range compacted))) with (self := self2)
    as [Hg3 _]; [by intros s [key ids]|].
  set (self3 := foldl _ self2 _) in *. fold self1 self2 in Hg1, Hg2, Hin2. split; [set_solver|].
  intros key time Hn Hc. destruct (compact_notices_ok (notices_of events) key no_events) as [Hl _].
  destruct (Hl time) as (p & Hp & _); [by left|]. rewrite <- E in Hp.
  destruct (Hin2 (key, p)) as [s1 Hs1]; [by apply elem_of_map_to_list|]. cbn in Hs1. rewrite bool_decide_true in Hs1 by done. set_solver.
Qed.

(** The notices of static data: where they are heard. *)
Lemma compact_static_ok notices key : forall events ids, StaticNotice key ids ∈ notices \/ static_ events !! key = Some ids ->
  exists ids', static_ (foldl compact_notice events notices) !! key = Some ids' /\ ids ⊆ ids'.
Proof.
  induction notices as [|notice notices IH]; intros events ids; [intros [?%elem_of_nil|Hp]; [done|by exists ids]|].
  assert (forall ids1, static_ (compact_notice events notice) !! key = Some ids1 -> ids ⊆ ids1 ->
    exists ids', static_ (foldl compact_notice events (notice :: notices)) !! key = Some ids' /\ ids ⊆ ids') as Hstep.
  { intros ids1 Hp Hsub. destruct (IH (compact_notice events notice) ids1) as (ids2 & Hp2 & Hsub2); [by right|]. exists ids2. by split; [|set_solver]. }
  intros [[<-|Hp]%elem_of_cons|Hp].
  - eapply Hstep; [by cbn; rewrite lookup_insert_eq|set_solver].
  - cbn [foldl]. apply IH. by left.
  - destruct notice as [key' ids'|key' time|key' ids']; try by eapply (Hstep ids).
    destruct (decide (key' = key)) as [->|]; [eapply Hstep; [by cbn; rewrite lookup_insert_eq|rewrite Hp; cbn; set_solver]|].
    eapply (Hstep ids); [cbn; by rewrite lookup_insert_ne|done].
Qed.

Lemma on_events_static self events self' key ids : QueryCache.on_events self events = Done self' ->
  StaticNotice key ids ∈ notices_of events ->
  (key.2 = clear_component -> key.1 ∈ QueryCache.might_require_clearing self')
  /\ (forall k cache, latest self' !! k = Some cache -> key_entity_path k = key.1 -> key_component k = key.2 ->
        TimeInt.STATIC ∈ LatestAtCache.pending_invalidations cache)
  /\ (forall k cache, ranges self' !! k = Some cache -> key_entity_path k = key.1 -> key_component k = key.2 ->
        ids ⊆ RangeCache.pending_invalidations cache).
Proof.
  unfold QueryCache.on_events. destruct (compact_events _ _ _) as [compacted|] eqn:E; [|done].
  apply compact_events_run in E. cbn [mbind outcome_bind]. intros [= <-] Hn.
  destruct (compact_static_ok (notices_of events) key no_events ids) as (ids' & Hp & Hle); [by left|]. rewrite <- E in Hp.
  set (self1 := foldl _ self _). set (self2 := foldl _ self1 _).
  destruct (marks_mono (fun self '(key, ids) => QueryCache.invalidate_static self key ids) (map_to_list (static_ compacted))) with (self := self)
    as [_ Hm1]; [intros s [k i]; cbn; case_bool_decide; set_solver|].
  destruct (marks_mono (fun self '(key, time) => QueryCache.invalidate_latest_at self key time) (map_to_list (temporal_latest_at compacted))) with (self := self1)
    as [Hm2 _]; [intros s [k i]; cbn; case_bool_decide; set_solver|].
  destruct (marks_mono (fun self '(key, ids) => QueryCache.invalidate_range self key ids) (map_to_list (temporal_range compacted))) with (self := self2)
    as [Hm3 _]; [by intros s [k i]|].
  destruct (foldl_grown (fun self '(key, ids) => QueryCache.invalidate_static self key ids) (map_to_list (static_ compacted))) with (self := self)
    as [_ Hin1]; [intros s [k i]; apply (invalidate_static_grown s (k, i))|].
  destruct (foldl_grown (fun self '(key, time) => QueryCache.invalidate_latest_at self key time) (map_to_list (temporal_latest_at compacted))) with (self := self1)
    as [Hg2 _]; [intros s [k i]; apply (invalidate_latest_at_grown s (k, i))|].
  destruct (foldl_grown (fun self '(key, ids) => QueryCache.invalidate_range self key ids) (map_to_list (temporal_range compacted))) with (self := self2)
    as [Hg3 _]; [intros s [k i]; apply (invalidate_range_grown s (k, i))|].
  fold self1 in Hm1, Hin1. fold self2 in Hm2, Hg2. set (self3 := foldl _ self2 _) in *.
  assert ((key, ids') ∈ map_to_list (static_ compacted)) as Hin by by apply elem_of_map_to_list.
  destruct (Hm1 _ Hin) as [s1 Hs1]. destruct (Hin1 _ Hin) as [s2 Hs2]. cbn in Hs1. split; [|split].
  - intros Hk. rewrite bool_decide_true in Hs1 by done. set_solver.
  - intros k cache Hc Hk1 Hk2. assert (grown (QueryCache.invalidate_static s2 key ids') self3) as Hg by (etransitivity; [exact Hs2|etransitivity; [exact Hg2|exact Hg3]]).
    pose proof (grown_latest _ _ Hg k) as Hf. cbn in Hf. rewrite Hc, map_lookup_imap in Hf.
    destruct (latest s2 !! k) as [c|]; cbn in Hf; inversion Hf as [? ? (_ & _ & Hsub) Heq|]; subst. apply Hsub.
    rewrite bool_decide_true by done. cbn. set_solver.
  - intros k cache Hc Hk1 Hk2. assert (grown (QueryCache.invalidate_static s2 key ids') self3) as Hg by (etransitivity; [exact Hs2|etransitivity; [exact Hg2|exact Hg3]]).
    pose proof (grown_ranges _ _ Hg k) as Hf. cbn in Hf. rewrite Hc, map_lookup_imap in Hf.
    destruct (ranges s2 !! k) as [c|]; cbn in Hf; inversion Hf as [? ? (_ & _ & Hsub) Heq|]; subst. transitivity ids'; [done|].
    rewrite bool_decide_true in Hsub by done. cbn in Hsub. set_solver.
Qed.

(** *** All caches in step *)

Definition caches_in_step st self : Prop := forall path timeline component cache,
  latest self !! Key path (Some timeline) component = Some cache -> static_chunk_id st path component = None ->
  in_step path timeline component st cache.

Lemma change_in_step st st' notices path timeline component cache cache' : sound st -> change st st' notices ->
  in_step path timeline component st cache -> latest_grown cache cache' ->
  (forall time, LatestAtNotice (Key path (Some timeline) component) time ∈ notices ->
     exists p, p ∈ LatestAtCache.pending_invalidations cache' /\ TimeInt.as_i64 p <= TimeInt.as_i64 time) ->
  in_step path timeline component st' cache'.
Proof.
  intros (cs & Hok & Hwf & _) [Hrows Hgone] [Hk Hall] (Hk' & Hq & Hsub) Hnotice. split; [congruence|].
  intros t e He Hpend. rewrite Hq in He. destruct (Hall t e He) as (c & r & Hu & Hr & Her & Hbest).
  { intros p Hp. by apply Hpend, Hsub. }
  pose proof Her as (Hrt & Hcell & Hle). pose proof Hu as [Hc Hp Hrc Hus Huw].
  assert (forall s, noticed notices path s -> is_Some (row_times s !! timeline) -> has_cell component s ->
    time_of timeline s <= TimeInt.as_i64 t -> False) as Hno.
  { intros s Hn Hst Hsc Hst'. destruct (Hn timeline component Hst Hsc) as (time & Hin & Htime).
    destruct (Hnotice time Hin) as (p & Hpp & Hp'). specialize (Hpend p Hpp). lia. }
  destruct (temporal_row c timeline r) as [_ Hns]; [by apply (Hwf _ _ Hc)|done|done|].
  destruct (Hgone _ _ Hc Hns) as [Hc'|[Hn _]]; [|by destruct (Hno r); [rewrite <- Hp; apply Hn|..]].
  exists c, r. split; [by split|]. split; [|split; [done|]].
  - apply (elem_of_chunk c); [|done|done|done]. by rewrite (ok_keys _ _ _ _ Hok _ _ Hc).
  - intros s Hs (Hst & Hsc & Hsl). destruct (Hrows path s Hs) as [Hs'|Hn]; [by apply Hbest|by destruct (Hno s)].
Qed.

Lemma change_caches_in_step st st' events self self' : sound st -> keeps st st' -> change st st' (notices_of events) ->
  QueryCache.on_events self events = Done self' -> caches_in_step st self -> caches_in_step st' self'.
Proof.
  intros Hst Hk Hch Hev Hin path timeline component cache' Hc Hstatic.
  destruct (on_events_ok _ _ _ Hev) as (Hg & Hlat & _).
  pose proof (grown_latest _ _ Hg (Key path (Some timeline) component)) as Hf. rewrite Hc in Hf.
  destruct (latest self !! Key path (Some timeline) component) as [cache|] eqn:E; inversion Hf as [? ? Hgr|]; subst.
  eapply change_in_step; [exact Hst|exact Hch| |exact Hgr|].
  - apply (Hin _ _ _ _ E). destruct (static_chunk_id st path component) eqn:Es; [|done].
    destruct (keeps_static _ _ Hk path component) as [id Hid]; [by rewrite Es|congruence].
  - intros time Hn. by apply (Hlat (Key path (Some timeline) component) time cache').
Qed.

Definition ranges_in_step st self : Prop := forall path timeline component cache,
  ranges self !! Key path (Some timeline) component = Some cache -> static_chunk_id st path component = None ->
  range_in_step path timeline component st cache.

Lemma change_range_in_step st st' notices path timeline component cache cache' : sound st -> change st st' notices ->
  range_in_step path timeline component st cache -> range_grown cache cache' ->
  (forall ids, RangeNotice (Key path (Some timeline) component) ids ∈ notices -> ids ⊆ RangeCache.pending_invalidations cache') ->
  range_in_step path timeline component st' cache'.
Proof.
  intros (cs & Hok & Hwf & _) [_ Hgone] [Hk Hall] (Hk' & Hq & Hsub) Hnotice. split; [congruence|].
  intros id cached Hc Hn. rewrite Hq in Hc. destruct (Hall id cached Hc) as (raw & Hp & Hcon & Hcopy); [by intros ?%Hsub|].
  pose proof Hcon as (Hpath & s & Hs & Ht & Hcell). exists raw. split; [|done].
  destruct (temporal_row raw timeline s) as [_ Hns]; [by apply (Hwf _ _ Hp)|done|done|].
  destruct (Hgone _ _ Hp Hns) as [|[_ Hnamed]]; [done|]. exfalso.
  destruct (Hnamed timeline component s Hs Ht Hcell) as (ids & Hin & Hid). rewrite Hpath in Hin. apply Hn.
  rewrite <- (ok_keys _ _ _ _ Hok _ _ Hp). by apply (Hnotice ids Hin).
Qed.

Lemma change_ranges_in_step st st' events self self' : sound st -> keeps st st' -> change st st' (notices_of events) ->
  QueryCache.on_events self events = Done self' -> ranges_in_step st self -> ranges_in_step st' self'.
Proof.
  intros Hst Hk Hch Hev Hin path timeline component cache' Hc Hstatic.
  destruct (on_events_ok _ _ _ Hev) as (Hg & _ & Hran).
  pose proof (grown_ranges _ _ Hg (Key path (Some timeline) component)) as Hf. rewrite Hc in Hf.
  destruct (ranges self !! Key path (Some timeline) component) as [cache|] eqn:E; inversion Hf as [? ? Hgr|]; subst.
  eapply change_range_in_step; [exact Hst|exact Hch| |exact Hgr|].
  - apply (Hin _ _ _ _ E). destruct (static_chunk_id st path component) eqn:Es; [|done].
    destruct (keeps_static _ _ Hk path component) as [id Hid]; [by rewrite Es|congruence].
  - intros ids Hn. by apply (Hran (Key path (Some timeline) component) ids cache').
Qed.

End Caches.

(** ** Queries through the caches *)

Section Queries.

Import ChunkStore.
Context `{Build} `{ArrowLaws} `{!Chunk.SizeBytes} `{HashOrder} `{!ClearCodec} `{!QueryCache.TotalSize} (Hvs : very_strict = false).
Implicit Types st : ChunkStore.t.
Implicit Types self : QueryCache.t.

Notation latest self := (QueryCache.latest_at_per_cache_key self).
Notation ranges self := (QueryCache.range_per_cache_key self).

Context (base : ChunkStore.t) (marks : gset EntityPath).

(** A store and its caches, in step, when queries can be made.  Queries change nothing but the
    tracker of the store, and leave the entities that may have been cleared. *)
Record ready st self : Prop := {
  ready_base : tracked base st;
  ready_marks : QueryCache.might_require_clearing self = marks;
  ready_live : live st;
  ready_sturdy : sturdy_store st;
  ready_latest : caches_in_step st self;
  ready_ranges : ranges_in_step st self;
}.

(** What of a state the queries see is the same with another tracker. *)
Lemma tracked_live st st' : tracked st st' -> live st -> live st'.
Proof. intros [tr ->] [(cs & Hok & Hwf & Hphys) Hun]. split; [|done]. exists cs. split; [by destruct Hok|done]. Qed.

Lemma tracked_trans st1 st2 st3 : tracked st1 st2 -> tracked st2 st3 -> tracked st1 st3.
Proof. intros [tr ->] [tr' ->]. by exists tr'. Qed.

Lemma ready_tracked st st' self : tracked st st' -> ready st self -> ready st' self.
Proof.
  intros Htr [Hb Hm Hl Hu Hc Hr]. pose proof (tracked_live _ _ Htr Hl). pose proof (tracked_trans _ _ _ Hb Htr).
  destruct Htr as [tr ->]. by split.
Qed.

Lemma report_used_tracked st mode c : ensures (tracked st) (LatestAtCache.report_used st mode c).
Proof.
  unfold LatestAtCache.report_used. destruct mode; cbn [ensures]; try apply tracked_refl;
    (apply ensures_skip; intros ?; by eexists).
Qed.

Lemma query_store_tracked st fresh mode query path component :
  ensures (fun r => tracked st r.1) (LatestAtCache.query_store fresh mode st query path component).
Proof.
  unfold LatestAtCache.query_store. eapply (ensures_bind (fun r => tracked st r.2)).
  - destruct (latest_at_relevant_chunks _ _ _ _ _) as [[results st']|] eqn:E; [|done]. by eapply latest_at_tracked.
  - intros [results st'] Htr. destruct (is_partial results); [done|]. by apply ensures_skip.
Qed.

Lemma latest_at_any_tracked st fresh cache mode query path component :
  ensures (fun r => tracked st r.1.2) (LatestAtCache.latest_at fresh cache mode st query path component).
Proof.
  unfold LatestAtCache.latest_at. apply ensures_skip. intros _. destruct (_ !! _).
  - eapply ensures_bind; [apply report_used_tracked|]. done.
  - eapply ensures_bind; [apply query_store_tracked|]. intros [st' [[[[t id] u]|]|e]] Htr; [|done|done].
    destruct (LatestAtCache.entry_or_insert _ _ _). by destruct (negb _ && _).
Qed.

Lemma ready_with_latest st self key cache : ready st self ->
  (forall path timeline component, key = Key path (Some timeline) component -> static_chunk_id st path component = None ->
     in_step path timeline component st cache) ->
  ready st (QueryCache.with_latest_at self (<[key := cache]> (latest self))).
Proof.
  intros [Hb Hm Hl Hu Hc Hr] Hin. split; [done..| |done]. intros path timeline component c Hlook Hst.
  cbn in Hlook. apply lookup_insert_Some in Hlook as [[-> ->]|[_ Hlook]]; [by apply Hin|by apply Hc].
Qed.

(** The index of a key that a query is about. *)
Definition short_for (timeline : option string) path component : Prop :=
  forall name, timeline = Some name -> short_index base path name component.

Lemma short_ready st self path timeline component : ready st self -> short_index base path timeline component -> short_index st path timeline component.
Proof. by intros [[tr ->] _ _ _ _ _]. Qed.

(** The cache of a key that is about temporal data, before a query. *)
Lemma cache_settled st self path timeline component : ready st self -> static_chunk_id st path component = None ->
  settled path timeline component st
    (LatestAtCache.handle_pending_invalidation
       (default (LatestAtCache.new (Key path (Some timeline) component)) (latest self !! Key path (Some timeline) component))).
Proof.
  intros Hr Hst. apply handle_pending_ok. destruct (latest self !! Key path (Some timeline) component) as [cache|] eqn:E.
  - by apply (ready_latest _ _ Hr).
  - apply settled_in_step, new_settled.
Qed.

Lemma latest_at_cached_ok st self fresh mode path timeline component a : ready st self -> short_index base path timeline component -> static_chunk_id st path component = None ->
  exists self' st' o, QueryCache.latest_at_cached fresh self st mode (LatestAtQuery.Mk (Some timeline) a) path component
      = Done (self', st', (o, []))
    /\ answers path timeline component st a o /\ ready st' self' /\ tracked st st'.
Proof.
  intros Hr Hsh Hst. pose proof (cache_settled st self path timeline component Hr Hst) as Hset.
  unfold QueryCache.latest_at_cached. cbn [LatestAtQuery.timeline].
  destruct (cache_latest_at_ok path timeline component st (fresh (Key path (Some timeline) component)) _ mode a
    (proj1 (ready_live _ _ Hr)) (short_ready _ _ _ _ _ Hr Hsh) Hst Hset) as (cache' & st' & o & -> & Htr & Hset' & Hans & _).
  cbn [mbind outcome_bind]. rewrite bool_decide_true by done. cbn [mbind outcome_bind]. eexists _, st', o. split; [done|].
  split; [done|]. split; [|done]. eapply ready_tracked; [exact Htr|]. apply ready_with_latest; [done|].
  intros p t k [= <- <- <-] _. by apply settled_in_step.
Qed.

Lemma latest_at_cached_ready st self fresh mode query path component : ready st self ->
  short_for (LatestAtQuery.timeline query) path component ->
  ensures (fun r => ready r.1.2 r.1.1) (QueryCache.latest_at_cached fresh self st mode query path component).
Proof.
  intros Hr Hsh. destruct query as [timeline a].
  assert ((exists name, timeline = Some name /\ static_chunk_id st path component = None)
    \/ (forall name, timeline = Some name -> static_chunk_id st path component <> None)) as [(name & -> & Hst)|Hno].
  { destruct timeline as [name|]; [|by right]. destruct (static_chunk_id st path component) eqn:E; [by right|left; by exists name]. }
  { destruct (latest_at_cached_ok st self fresh mode path name component a Hr (Hsh name eq_refl) Hst) as (self' & st' & o & -> & _ & Hr' & _). done. }
  unfold QueryCache.latest_at_cached. eapply ensures_bind; [apply latest_at_any_tracked|].
  intros [[cache st'] [o missing]] Htr. apply ensures_skip. intros _. cbn [ensures fst snd] in *.
  eapply ready_tracked; [exact Htr|]. apply ready_with_latest; [done|].
  intros p t k [= <- -> <-] Hst. by destruct (Hno t).
Qed.

(** *** All components of a latest-at query *)

(** A step of a query, with its state in front of what it answers. *)
Notation keeps_ready := (ensures (fun r => ready r.1.2 r.1.1)).

Lemma keeps_ready_bind {A B} (o : outcome (QueryCache.t * ChunkStore.t * A))
    (f : QueryCache.t * ChunkStore.t * A -> outcome (QueryCache.t * ChunkStore.t * B)) :
  keeps_ready o -> (forall self st a, ready st self -> keeps_ready (f (self, st, a))) -> keeps_ready (r ← o; f r).
Proof. intros Ho Hf. eapply ensures_bind; [exact Ho|]. intros [[self st] a] Hr. by apply Hf. Qed.

Lemma clear_step_ready fresh self st mode query path clear_path clears : ready st self ->
  short_for (LatestAtQuery.timeline query) clear_path clear_component ->
  keeps_ready (QueryCache.clear_step fresh self st mode query path clear_path clears).
Proof.
  intros Hr Hsh. unfold QueryCache.clear_step. apply keeps_ready_bind; [by apply latest_at_cached_ready|].
  intros self1 st1 [[u|] missing] Hr1; [|done]. apply ensures_skip. intros found. destruct (_ || _); [|done].
  by apply ensures_skip.
Qed.

(** The entity and its ancestors, last part first. *)
Fixpoint ancestors (rev_parts : list string) : list EntityPath :=
  rev rev_parts :: match rev_parts with [] => [] | _ :: parent => ancestors parent end.

Lemma clear_loop_ready fresh mode query path parts :
  Forall (fun e => short_for (LatestAtQuery.timeline query) e clear_component) (ancestors parts) -> forall self st clears, ready st self ->
  keeps_ready (QueryCache.clear_loop fresh self st mode query path parts clears).
Proof.
  induction parts as [|part parts IH]; cbn [ancestors]; intros [Hsh Hshs]%Forall_cons self st clears Hr; cbn [QueryCache.clear_loop];
    (apply keeps_ready_bind; [destruct (bool_decide _); [by apply clear_step_ready|done]|]); intros self1 st1 clears1 Hr1; [done|].
  by apply IH.
Qed.

Lemma component_loop_ready fresh mode query path index components :
  Forall (short_for (LatestAtQuery.timeline query) path) components -> forall self st results, ready st self ->
  keeps_ready (QueryCache.component_loop fresh self st mode query path index components results).
Proof.
  induction 1 as [|component components Hsh _ IH]; intros self st results Hr; cbn [QueryCache.component_loop]; [done|].
  apply keeps_ready_bind; [by apply latest_at_cached_ready|]. intros self1 st1 [o missing] Hr1.
  apply ensures_skip. intros results1. by apply IH.
Qed.

(** What a query on components of an entity needs of the indices. *)
Definition short_query (timeline : option string) path components : Prop :=
  Forall (short_for timeline path) components /\ Forall (fun e => short_for timeline e clear_component) (ancestors (rev path)).

Lemma short_kept (f : string -> bool) timeline path components : Forall (short_for timeline path) components ->
  Forall (short_for timeline path) (List.filter f components).
Proof. rewrite !Forall_forall. intros Hall k Hk. apply Hall. rewrite list_elem_of_In in Hk |- *. by apply filter_In in Hk as [? _]. Qed.

Lemma latest_at_ready fresh self st mode query path components : ready st self ->
  short_query (LatestAtQuery.timeline query) path components ->
  keeps_ready (QueryCache.latest_at fresh self st mode query path components).
Proof.
  intros Hr [Hsh Hshc]. unfold QueryCache.latest_at. apply keeps_ready_bind.
  - case_bool_decide; [done|]. by apply clear_loop_ready.
  - intros self1 st1 clears Hr1. by apply component_loop_ready; [apply short_kept|].
Qed.

(** *** Range queries *)

Lemma range_any_tracked st fresh cache mode q path component :
  ensures (fun r => tracked st r.1.2) (RangeCache.range fresh cache st q path component mode).
Proof.
  unfold RangeCache.range. apply ensures_skip. intros _. eapply (ensures_bind (fun r => tracked st r.2)).
  - destruct (range_relevant_chunks _ _ _ _ _) as [[results st']|] eqn:E; [|done]. by eapply range_tracked.
  - intros [results st'] Htr. apply ensures_skip. intros m. by apply ensures_skip.
Qed.

Lemma range_cache_settled st self path timeline component : ready st self -> static_chunk_id st path component = None ->
  range_settled path timeline component st
    (RangeCache.handle_pending_invalidation
       (default (RangeCache.new (Key path (Some timeline) component)) (ranges self !! Key path (Some timeline) component))).
Proof.
  intros Hr Hst. apply range_handle_pending_ok. destruct (ranges self !! Key path (Some timeline) component) as [cache|] eqn:E.
  - by apply (ready_ranges _ _ Hr).
  - apply range_settled_in_step, new_range_settled.
Qed.

Lemma range_keeps_settled st self fresh mode q path component : ready st self -> short_index base path (RangeQuery.timeline q) component -> static_chunk_id st path component = None ->
  let key := Key path (Some (RangeQuery.timeline q)) component in
  let cache := RangeCache.handle_pending_invalidation (default (RangeCache.new key) (ranges self !! key)) in
  ensures (fun r => range_settled path (RangeQuery.timeline q) component st r.1.1)
    (RangeCache.range fresh cache st q path component mode).
Proof.
  intros Hr Hsh Hst key cache. pose proof (range_cache_settled st self path (RangeQuery.timeline q) component Hr Hst) as Hset.
  destruct (cache_range_ok Hvs st fresh cache mode q path component (proj1 (ready_live _ _ Hr)) (short_ready _ _ _ _ _ Hr Hsh)
    (ready_sturdy _ _ Hr) Hst Hset) as (results & st' & m & Hrun & _ & Hcache & _ & Hm & _).
  unfold RangeCache.range. apply ensures_skip. intros _. rewrite Hrun. cbn [mbind outcome_bind].
  destruct Hset as [Hk _]. fold key in Hk. fold cache in Hk. rewrite Hk. cbn [key_timeline_name key]. rewrite Hcache. cbn [mbind outcome_bind].
  by apply ensures_skip.
Qed.

Lemma ready_with_range st self key cache : ready st self ->
  (forall path timeline component, key = Key path (Some timeline) component -> static_chunk_id st path component = None ->
     range_in_step path timeline component st cache) ->
  ready st (QueryCache.with_range self (<[key := cache]> (ranges self))).
Proof.
  intros [Hb Hm Hl Hu Hc Hr] Hin. split; [done..|]. intros path timeline component c Hlook Hst.
  cbn in Hlook. apply lookup_insert_Some in Hlook as [[-> ->]|[_ Hlook]]; [by apply Hin|by apply Hr].
Qed.

Lemma range_loop_ready fresh mode q path components :
  Forall (short_index base path (RangeQuery.timeline q)) components -> forall self st results, ready st self ->
  keeps_ready (QueryCache.range_loop fresh self st mode q path components results).
Proof.
  induction 1 as [|component components Hsh _ IH]; intros self st results Hr; cbn [QueryCache.range_loop]; [done|].
  set (key := Key path (Some (RangeQuery.timeline q)) component).
  set (cache := RangeCache.handle_pending_invalidation (default (RangeCache.new key) (ranges self !! key))).
  eapply (ensures_bind (fun r => tracked st r.1.2
    /\ (static_chunk_id st path component = None -> range_settled path (RangeQuery.timeline q) component st r.1.1))).
  - pose proof (range_any_tracked st (fresh key) cache mode q path component) as Htr.
    pose proof (range_keeps_settled st self (fresh key) mode q path component Hr Hsh) as Hset. cbv zeta in Hset. fold key in Hset. fold cache in Hset.
    destruct (RangeCache.range _ _ _ _ _ _ _) as [r|]; [|done]. by split.
  - intros [[cache' st'] [cached missing]] [Htr Hset]. cbn [fst snd] in *. apply IH.
    eapply ready_tracked; [exact Htr|]. apply ready_with_range; [done|].
    intros p t k [= <- <- <-] Hst. by apply range_settled_in_step, Hset.
Qed.

Lemma range_ready fresh self st mode q path components : ready st self ->
  Forall (short_index base path (RangeQuery.timeline q)) components ->
  keeps_ready (QueryCache.range fresh self st mode q path components).
Proof.
  intros Hr Hsh. unfold QueryCache.range. apply range_loop_ready; [|done]. rewrite Forall_forall in Hsh |- *.
  intros k Hk. apply Hsh. rewrite list_elem_of_In in Hk |- *. by apply filter_In in Hk as [? _].
Qed.

(** *** Latest-all queries *)

Lemma all_loop_ready fresh mode query path units :
  Forall (fun unit => short_for (LatestAtQuery.timeline query) path unit.1) units -> forall self st results, ready st self ->
  keeps_ready (LatestAll.all_loop fresh self st mode query path units results).
Proof.
  induction 1 as [|[component u] units Hsh _ IH]; intros self st results Hr; cbn [LatestAll.all_loop]; [done|].
  apply ensures_skip. intros index. apply keeps_ready_bind; [|intros self1 st1 results1 Hr1; by apply IH].
  destruct index as [[time id]|]; [|done]. destruct (TimeInt.is_static time); [done|].
  destruct (LatestAtQuery.timeline query) as [timeline|]; [|done].
  apply keeps_ready_bind; [|done]. apply range_ready; [done|]. constructor; [by apply Hsh|done].
Qed.

(** The results of a query are about the components asked for. *)
Lemma component_loop_domain fresh mode query path index components : forall self st results,
  ensures (fun r => forall k, is_Some (LatestAtResults.components r.2 !! k) -> k ∈ components \/ is_Some (LatestAtResults.components results !! k))
    (QueryCache.component_loop fresh self st mode query path index components results).
Proof.
  induction components as [|component components IH]; intros self st results; cbn [QueryCache.component_loop]; [by right|].
  apply ensures_skip. intros [[self1 st1] [o missing]].
  eapply (ensures_bind (fun results1 => forall k, is_Some (LatestAtResults.components results1 !! k) ->
    k = component \/ is_Some (LatestAtResults.components results !! k))).
  - destruct o as [u|]; [|by right]. apply ensures_skip. intros [x|]; [|by right]. destruct (_ || _); [|by right].
    unfold LatestAtResults.add. apply ensures_skip. intros _ k Hk. cbn in Hk. apply lookup_insert_is_Some in Hk as [<-|[_ Hk]]; [by left|by right].
  - intros results1 H1'. eapply ensures_weaken; [apply IH|]. cbn. intros r Hr k [Hk|[->|Hk]%H1']%Hr; [left; by right|left; by left|by right].
Qed.

Lemma latest_at_domain fresh self st mode query path components :
  ensures (fun r => forall k, is_Some (LatestAtResults.components r.2 !! k) -> k ∈ components)
    (QueryCache.latest_at fresh self st mode query path components).
Proof.
  unfold QueryCache.latest_at. apply ensures_skip. intros [[self1 st1] clears].
  eapply ensures_weaken; [apply component_loop_domain|]. cbn. intros r Hr k [Hk|[u Hk]]%Hr; [|by rewrite lookup_empty in Hk].
  rewrite list_elem_of_In in Hk |- *. by apply filter_In in Hk as [? _].
Qed.

Lemma latest_all_ready fresh fresh_range self st mode query path components : ready st self ->
  short_query (LatestAtQuery.timeline query) path components ->
  keeps_ready (LatestAll.latest_all fresh fresh_range self st mode query path components).
Proof.
  intros Hr Hsh. unfold LatestAll.latest_all. eapply (ensures_bind (fun r => ready r.1.2 r.1.1
    /\ forall k, is_Some (LatestAtResults.components r.2 !! k) -> k ∈ components)).
  - pose proof (latest_at_ready fresh self st mode query path components Hr Hsh) as Hl.
    pose proof (latest_at_domain fresh self st mode query path components) as Hd.
    destruct (QueryCache.latest_at _ _ _ _ _ _ _); [by split|done].
  - intros [[self1 st1] latest] [Hr1 Hd]. cbn [fst snd] in *. apply keeps_ready_bind; [|done]. apply all_loop_ready; [|done].
    apply Forall_forall. intros [k u] Hk%elem_of_map_to_list. destruct Hsh as [Hsh _]. rewrite Forall_forall in Hsh.
    apply Hsh, Hd. by eexists.
Qed.

(** *** Purging the caches *)

Lemma gc_caches_in_step st self target : caches_in_step st self -> caches_in_step st (QueryCache.gc self target).
Proof.
  intros Hc path timeline component cache Hlook Hst. cbn in Hlook. rewrite lookup_fmap in Hlook.
  destruct (latest self !! Key path (Some timeline) component) as [cache0|] eqn:E; [|done]. injection Hlook as <-.
  apply gc_in_step. by apply Hc.
Qed.

End Queries.

(** ** The states of a store and its caches *)

Section Journal.

Import ChunkStore.
Context `{Build} `{ArrowLaws} `{!Chunk.SizeBytes} `{HashOrder} `{!ClearCodec} `{!QueryCache.TotalSize}.
Context `{!SizeLaws} `{!HashOrderLaws} (Hvs : very_strict = false).
Implicit Types st : ChunkStore.t.
Implicit Types self : QueryCache.t.
Implicit Types x : Chunk.t.

(** A query of some kind, whatever it answers, whose components have short indices. *)
Inductive query_step st self : ChunkStore.t -> QueryCache.t -> Prop :=
| LatestAtStep fresh mode query path components st' self' results : short_query st (LatestAtQuery.timeline query) path components ->
    QueryCache.latest_at fresh self st mode query path components = Done (self', st', results) -> query_step st self st' self'
| RangeStep fresh mode query path components st' self' results : Forall (short_index st path (RangeQuery.timeline query)) components ->
    QueryCache.range fresh self st mode query path components = Done (self', st', results) -> query_step st self st' self'
| LatestAllStep fresh fresh_range mode query path components st' self' results : short_query st (LatestAtQuery.timeline query) path components ->
    LatestAll.latest_all fresh fresh_range self st mode query path components = Done (self', st', results) ->
    query_step st self st' self'.

(** Insertions of new chunks and collections, each with its events; queries, made while the
    chunks in memory can be sorted; and the caches being purged or, in a program that does that,
    cleared. *)
Inductive cached_step (clearing : bool) : ChunkStore.t * QueryCache.t -> ChunkStore.t * QueryCache.t -> Prop :=
| CachedInsert st self x new_id st' diffs self' : new_chunk st x -> draws_new st x new_id ->
    StoreWrites.insert_chunk st new_id x = Done (st', Ok diffs) ->
    QueryCache.on_events self (physical_events (QueryCache.store_id self) diffs) = Done self' ->
    cached_step clearing (st, self) (st', self')
| CachedCollect st self options e1 e2 st' dels freed self' : gc_bounds st options ->
    StoreGc.gc st options e1 e2 = Done (st', dels, freed) ->
    QueryCache.on_events self (physical_events (QueryCache.store_id self) (Deleted <$> dels)) = Done self' ->
    cached_step clearing (st, self) (st', self')
| CachedQuery st self st' self' : sturdy_store st -> query_step st self st' self' -> cached_step clearing (st, self) (st', self')
| CachedPurge st self target : cached_step clearing (st, self) (st, QueryCache.gc self target)
| CachedClear st self : clearing = true -> cached_step clearing (st, self) (st, QueryCache.clear self).

Definition cached_reachable clearing config store_id st self : Prop :=
  rtc (cached_step clearing) (ChunkStore.new config, QueryCache.new store_id) (st, self).

(** In step, whether or not queries can be made. *)
Definition caches_ok (state : ChunkStore.t * QueryCache.t) : Prop :=
  live state.1 /\ caches_in_step state.1 state.2 /\ ranges_in_step state.1 state.2.

Lemma caches_ok_ready st self : caches_ok (st, self) -> sturdy_store st ->
  ready st (QueryCache.might_require_clearing self) st self.
Proof. intros (? & ? & ?) ?. split; try done. apply tracked_refl. Qed.

Lemma query_step_ready marks st self st' self' : ready st marks st self -> query_step st self st' self' -> ready st marks st' self'.
Proof.
  intros Hr [fresh mode query path components st1 self1 results Hsh Hrun|fresh mode query path components st1 self1 results Hsh Hrun|
    fresh fresh_range mode query path components st1 self1 results Hsh Hrun].
  - pose proof (latest_at_ready st marks fresh self st mode query path components Hr Hsh) as He. by rewrite Hrun in He.
  - pose proof (range_ready Hvs st marks fresh self st mode query path components Hr Hsh) as He. by rewrite Hrun in He.
  - pose proof (latest_all_ready Hvs st marks fresh fresh_range self st mode query path components Hr Hsh) as He. by rewrite Hrun in He.
Qed.

(** What every step keeps: the caches in step, and, unless they are cleared, every entity with a
    component to clear by known. *)
Definition clears_known st self : Prop := forall path timeline s, s ∈ temporal_rows path st ->
  is_Some (row_times s !! timeline) -> has_cell clear_component s -> path ∈ QueryCache.might_require_clearing self.

Lemma change_ok st st' events self self' : caches_ok (st, self) -> live st' -> keeps st st' -> change st st' (notices_of events) ->
  QueryCache.on_events self events = Done self' ->
  caches_ok (st', self') /\ (clears_known st self -> clears_known st' self').
Proof.
  intros (Hlive & Hc & Hr) Hlive' Hk Hch Hev. split.
  - split; [done|]. split; [by eapply change_caches_in_step; [apply Hlive|..]|by eapply change_ranges_in_step; [apply Hlive|..]].
  - intros Hknown path timeline s Hs Ht Hcell. destruct (on_events_marks _ _ _ Hev) as [Hsub Hmark].
    destruct (change_rows _ _ _ Hch path s Hs) as [Hs'|Hn]; [by eapply Hsub, Hknown|].
    destruct (Hn timeline clear_component Ht Hcell) as (time & Hin & _). by apply (Hmark _ _ Hin).
Qed.

Lemma cached_step_ok clearing state state' : cached_step clearing state state' -> caches_ok state ->
  caches_ok state' /\ (clearing = false -> clears_known state.1 state.2 -> clears_known state'.1 state'.2).
Proof.
  intros [st self x new_id st' diffs self' Hx Hd Hrun Hev|st self options e1 e2 st' dels freed self' Hb Hrun Hev|
    st self st' self' Hq Hrun|st self target|st self Hcl] Hok; cbn [fst snd].
  - pose proof Hok as [Hlive _].
    destruct (insert_change Hvs (QueryCache.store_id self) st x new_id st' diffs Hlive Hx Hd Hrun) as (Hlive' & Hk & Hch).
    destruct (change_ok st st' _ self self' Hok Hlive' Hk Hch Hev). by split.
  - pose proof Hok as [Hlive _].
    destruct (gc_change (QueryCache.store_id self) st options e1 e2 st' dels freed Hlive Hb Hrun) as (Hlive' & Hk & Hch).
    destruct (change_ok st st' _ self self' Hok Hlive' Hk Hch Hev). by split.
  - destruct (query_step_ready _ _ _ _ _ (caches_ok_ready st self Hok Hq) Hrun) as [[tr ->] Hm Hl _ Hc Hr].
    split; [by split|]. intros _ Hknown path timeline s. rewrite Hm. apply Hknown.
  - destruct Hok as (Hlive & Hc & Hr). split; [|done]. split; [done|]. split; [by apply gc_caches_in_step|done].
  - destruct Hok as (Hlive & Hc & Hr). split; [|congruence]. split; [done|]. split; intros p t k cache Hl; cbn in Hl; by rewrite lookup_empty in Hl.
Qed.

Lemma cached_reachable_ok clearing config store_id st self : cached_reachable clearing config store_id st self ->
  caches_ok (st, self) /\ (clearing = false -> clears_known st self).
Proof.
  unfold cached_reachable. intros Hr.
  assert (forall a b, rtc (cached_step clearing) a b -> caches_ok a /\ (clearing = false -> clears_known a.1 a.2) ->
    caches_ok b /\ (clearing = false -> clears_known b.1 b.2)) as Hall.
  { induction 1 as [|a b c Hs _ IH]; [done|]. intros [Ha Hk]. apply IH. destruct (cached_step_ok clearing a b Hs Ha) as [Hb Hk']. auto. }
  apply (Hall _ _ Hr). split; [split; [apply new_live|]; split; intros p t k cache Hl; cbn in Hl; by rewrite lookup_empty in Hl|].
  intros _ path timeline s Hs. unfold temporal_rows, physical_list in Hs. cbn in Hs. rewrite map_to_list_empty in Hs. by apply elem_of_nil in Hs.
Qed.

End Journal.
