(* ===== verification/QueryCacheAnswers.v ===== *)
(** * What queries through the caches return

    [QueryCache::latest_at] and [QueryCache::range] on several components, in every state that a
    store and its caches reach: the rows in memory decide, not the history of the caches. *)

From stdpp Require Import strings relations.
From S2P Require Import Prelude Ints TimeInt TimeRange Tuid Arrow Column Chunk ChunkSlice.
From S2P Require Import ChunkSort ChunkMerge ChunkQuery ChunkIndex Lineage StoreStats ChunkStore StoreGc StoreWrites.
From S2P Require Import StoreFrame StoreInvariant StoreGcSpec StoreInsertion StoreStatic StoreSplits StoreJournal.
From S2P Require Import StoreQueries QueryCache QueryCacheSpec RangeCacheSpec QueryCacheJournal.

Import ChunkStore.

Section Answers.

Context `{Build} `{ArrowLaws} `{!Chunk.SizeBytes} `{HashOrder} `{!ClearCodec} `{!QueryCache.TotalSize}.
Implicit Types st : ChunkStore.t.
Implicit Types self : QueryCache.t.
Implicit Types u : UnitChunk.t.

Notation physical st := (physical_chunks_per_chunk_id st).

(** ** Components that the entity does not have *)

Lemma unindexed_rows st path timeline component a s : sound st -> component_index st path (Some timeline) component = None ->
  s ∈ temporal_rows path st -> ~ eligible timeline component a s.
Proof.
  intros (cs & Hok & Hwf & Hphys) Hidx Hs He.
  destruct (proj2 (logged_eligible st cs path timeline component a s Hok Hwf Hphys)) as (c & Hc); [done|].
  destruct (logged_range cs path timeline component a c s (stored_chunks st cs Hok Hwf Hphys) Hc) as (r & Hr & _).
  destruct (ok_virtual _ _ _ _ Hok) as [Hrep _]. specialize (Hrep path timeline component). rewrite Hidx in Hrep.
  destruct Hrep as ([_ Hm] & _). destruct (proj2 (Hm (AbsoluteTimeRange.rmin r) (Chunk.id c))) as (ids & Hids & _); [by exists r|].
  cbn in Hids. by rewrite lookup_empty in Hids.
Qed.

Lemma on_timeline_spec st timeline path component : static_chunk_id st path component = None ->
  QueryCache.entity_has_component_on_timeline st (Some timeline) path component = false ->
  component_index st path (Some timeline) component = None.
Proof.
  intros Hst. unfold QueryCache.entity_has_component_on_timeline, QueryCache.entity_has_static_component,
    QueryCache.entity_has_temporal_component_on_timeline. rewrite Hst.
  destruct (component_index st path (Some timeline) component); [|done]. rewrite (bool_decide_true (is_Some (Some _))) by (by eexists).
  by rewrite orb_true_r.
Qed.

(** ** Latest-at queries *)

(** The index of a row. *)
Definition row_index (timeline : string) (r : Row) : DataIndex := (TimeInt.new_temporal (time_of timeline r), row_id r).

(** The order of [latest_at], away from static data. *)
Lemma compare_temporal (x y : DataIndex) : x.1 <> TimeInt.STATIC -> y.1 <> TimeInt.STATIC ->
  compare_indices x y = Gt <-> ~ key_le (TimeInt.as_i64 x.1) x.2 (TimeInt.as_i64 y.1) y.2.
Proof.
  intros Hx Hy. unfold compare_indices.
  assert (forall t, t <> TimeInt.STATIC -> TimeInt.is_static t = false) as Hs by (intros t Ht; by apply bool_decide_eq_false).
  rewrite (Hs x.1 Hx), (Hs y.1 Hy). cbn [andb]. unfold index_cmp. rewrite TimeInt.cmp_as_i64.
  pose proof (RowId.le_key x.2 y.2) as Hle. unfold RowId.le in Hle. unfold key_le.
  destruct (Z.compare_spec (TimeInt.as_i64 x.1) (TimeInt.as_i64 y.1)) as [E|E|E].
  - destruct (RowId.cmp x.2 y.2); symmetry in Hle; rewrite ?Z.leb_le, ?Z.leb_gt in Hle; split; intros; (done || lia).
  - split; [done|]. lia.
  - split; [lia|done].
Qed.

(** [r] is an answer for the component, and [u] the unit chunk of it. *)
Definition exact_row st path timeline component a u r : Prop :=
  exists c, unit_of st path c u r /\ best st path timeline component (TimeInt.as_i64 a) r.

Lemma exact_row_index st path timeline component a u r : sound st -> exact_row st path timeline component a u r ->
  UnitChunk.index u (Some timeline) = Done (Some (row_index timeline r)) /\ (row_index timeline r).1 <> TimeInt.STATIC
  /\ TimeInt.as_i64 (row_index timeline r).1 = time_of timeline r
  /\ compare_indices (row_index timeline r) (TimeInt.MIN, RowId.ZERO) = Gt
  /\ Chunk.num_rows (UnitChunk.chunk u) = 1%nat.
Proof.
  intros (cs & Hok & Hwf & _) (c & [Hp _ Hr Hu Hw] & (_ & (Ht & _) & _)). destruct (Hwf _ _ Hp) as (Hwc & _ & Hz).
  destruct (temporal_row c timeline r Hwc Hr Ht) as [Hti _]. pose proof (as_i64_temporal _ Hti) as Hconv.
  assert ((row_index timeline r).1 <> TimeInt.STATIC) as Hns.
  { intros E%TimeInt.as_i64_static_iff. cbn in E. rewrite Hconv in E. unfold temporal_i64 in Hti. lia. }
  split; [by apply unit_index|]. split; [done|]. split; [done|]. split; [|by rewrite <- length_rows, Hu].
  apply compare_temporal; [done|done|]. cbn [row_index fst snd]. rewrite Hconv, TimeInt.as_i64_MIN.
  assert (row_id r <> RowId.ZERO) as Hne.
  { intros E. apply Hz. rewrite <- E. apply list_elem_of_lookup in Hr as [i Hi]. rewrite lookup_rows in Hi.
    destruct (Chunk.row_ids c !! i) eqn:Ei; [|done]. injection Hi as <-. by eapply list_elem_of_lookup_2. }
  apply nonzero_key in Hne. unfold key_le, temporal_i64 in *. lia.
Qed.

Section Ready.

Context (base : ChunkStore.t) (marks : gset EntityPath).
Notation ready := (ready base marks).

(** *** The components *)

(** Whether an answer is given: clears themselves are, and what comes after the last clear. *)
Definition shown (component : string) (x mx : DataIndex) : Prop := component = clear_component \/ compare_indices x mx = Gt.

(** What is found for a component: a greatest row that is shown, or nothing when there is none
    or when it is not shown. *)
Definition outcome_for st path timeline a (mx : DataIndex) component (o : option UnitChunk.t) : Prop :=
  match o with
  | Some u => exists r, exact_row st path timeline component a u r /\ shown component (row_index timeline r) mx
  | None => answers path timeline component st a None
      \/ exists u r, exact_row st path timeline component a u r /\ ~ shown component (row_index timeline r) mx
  end.

Definition found st path timeline a mx (results : LatestAtResults.t) : Prop := forall component u,
  LatestAtResults.components results !! component = Some u -> outcome_for st path timeline a mx component (Some u).

(** One turn of the loop, once the cache has answered. *)
Lemma component_step_ok st path timeline a mx component o results : sound st -> answers path timeline component st a o ->
  exists results1, (match o with
      | None => Done results
      | Some cached =>
          index ← UnitChunk.index cached (Some timeline);
          match index with
          | None => Done results
          | Some index =>
              if bool_decide (component = clear_component) || bool_decide (compare_indices index mx = Gt)
              then LatestAtResults.add results component index cached
              else Done results
          end
      end) = Done results1 /\ LatestAtResults.missing_virtual results1 = LatestAtResults.missing_virtual results
      /\ (LatestAtResults.components results1 = LatestAtResults.components results /\ outcome_for st path timeline a mx component None
         \/ exists u, LatestAtResults.components results1 = <[component := u]> (LatestAtResults.components results)
              /\ outcome_for st path timeline a mx component (Some u)).
Proof.
  intros Hst Hans. destruct o as [u|]; [|exists results; split; [done|split; [done|left; by split; [|left]]]].
  destruct Hans as (c & r & Hu & Hb). assert (exact_row st path timeline component a u r) as Hex by by exists c.
  destruct (exact_row_index st path timeline component a u r Hst Hex) as (-> & _ & _ & _ & Hn). cbn [mbind outcome_bind].
  destruct (bool_decide (component = clear_component) || bool_decide (compare_indices (row_index timeline r) mx = Gt)) eqn:E.
  - unfold LatestAtResults.add. rewrite Hn. change (1 =? 1)%nat with true.
    assert (debug_assert true = Done ()) as -> by (unfold debug_assert; by destruct debug_assertions).
    cbn [mbind outcome_bind]. eexists. split; [done|]. split; [done|]. right. exists u. split; [done|]. exists r. split; [done|].
    apply orb_true_iff in E as [E%bool_decide_eq_true|E%bool_decide_eq_true]; [by left|by right].
  - exists results. split; [done|]. split; [done|]. left. split; [done|]. right. exists u, r. split; [done|].
    apply orb_false_iff in E as [E1%bool_decide_eq_false E2%bool_decide_eq_false]. by intros [?|?].
Qed.

Lemma component_loop_ok fresh mode path timeline a mx (components : list string) :
  Forall (short_index base path timeline) components -> forall st self results,
  ready st self -> Forall (fun component => static_chunk_id st path component = None) components ->
  found st path timeline a mx results ->
  exists self' st' results', QueryCache.component_loop fresh self st mode (LatestAtQuery.Mk (Some timeline) a) path
      mx components results = Done (self', st', results')
    /\ found st path timeline a mx results'
    /\ LatestAtResults.missing_virtual results' = LatestAtResults.missing_virtual results
    /\ (forall k, is_Some (LatestAtResults.components results' !! k) -> k ∈ components \/ is_Some (LatestAtResults.components results !! k))
    /\ (forall k, is_Some (LatestAtResults.components results !! k) -> is_Some (LatestAtResults.components results' !! k))
    /\ (forall k, k ∈ components -> LatestAtResults.components results' !! k = None -> outcome_for st path timeline a mx k None).
Proof.
  induction 1 as [|component components Hsh _ IH]; intros st self results Hr Hst Hf; cbn [QueryCache.component_loop].
  { exists self, st, results. split_and!; [done|done|done|by right|done|by intros k ?%elem_of_nil]. }
  apply Forall_cons in Hst as [Hs Hst].
  destruct (latest_at_cached_ok base marks st self fresh mode path timeline component a Hr Hsh Hs) as (self1 & st1 & o & -> & Hans & Hr1 & Htr).
  cbn [mbind outcome_bind]. set (results0 := LatestAtResults.extend_missing results []).
  assert (LatestAtResults.missing_virtual results0 = LatestAtResults.missing_virtual results) as Hmiss by apply app_nil_r.
  destruct (component_step_ok st path timeline a mx component o results0 (proj1 (ready_live _ _ _ _ Hr)) Hans)
    as (results1 & Hrun1 & Hmiss1 & Hcomp1).
  change (LatestAtQuery.timeline (LatestAtQuery.Mk (Some timeline) a)) with (Some timeline). rewrite Hrun1. cbn [mbind outcome_bind].
  change (LatestAtResults.components results0) with (LatestAtResults.components results) in Hcomp1.
  destruct Htr as [tr ->].
  destruct (IH (with_tracker st tr) self1 results1 Hr1 Hst) as (self' & st' & results' & Hrun & Hf' & Hm' & Hnew & Hold & Hnone).
  { intros k u Hk. destruct Hcomp1 as [[E _]|(u' & E & Ho)]; rewrite E in Hk; [by apply Hf|].
    apply lookup_insert_Some in Hk as [[<- <-]|[_ Hk]]; [done|by apply Hf]. }
  exists self', st', results'. split; [done|]. split; [done|]. split; [congruence|]. split_and!.
  - intros k [Hk|Hk]%Hnew; [left; by right|]. destruct Hcomp1 as [[E _]|(u & E & _)]; rewrite E in Hk; [by right|].
    apply lookup_insert_is_Some in Hk as [<-|[_ Hk]]; [left; by left|by right].
  - intros k Hk. apply Hold. destruct Hcomp1 as [[E _]|(u & E & _)]; rewrite E; [done|].
    apply lookup_insert_is_Some. destruct (decide (component = k)); [by left|by right].
  - intros k [->|Hk]%elem_of_cons Hno; [|by apply Hnone].
    destruct Hcomp1 as [[_ Ho]|(u & E & _)]; [done|]. exfalso. apply eq_None_not_Some in Hno. apply Hno, Hold.
    rewrite E, lookup_insert_eq. by eexists.
Qed.

(** *** The clears *)

(** [ClearIsRecursive] of a row. *)
Definition row_recursive (r : Row) : bool :=
  match row_cells r !! clear_component with
  | Some array =>
      if (arr_len array =? 1)%nat then
        match clear_from_arrow (arr_slice array 0 1) with
        | Some data => bool_decide (head data = Some true)
        | None => false
        end
      else false
  | None => false
  end.

Lemma is_recursive_clear_row u r : chunk_wf (UnitChunk.chunk u) -> rows (UnitChunk.chunk u) = [r] ->
  QueryCache.is_recursive_clear u = Done (row_recursive r).
Proof.
  intros Hwf Hu. set (c := UnitChunk.chunk u) in *. assert (rows c !! 0%nat = Some r) as Hr by by rewrite Hu.
  assert (Chunk.num_rows c = 1%nat) as Hn by by rewrite <- length_rows, Hu.
  unfold QueryCache.is_recursive_clear, UnitChunk.component_mono_raw, UnitChunk.component_batch_raw, row_recursive.
  fold c. rewrite Hn. change (1 =? 1)%nat with true.
  assert (debug_assert true = Done ()) as -> by (unfold debug_assert; by destruct debug_assertions).
  cbn [mbind outcome_bind option_bind fmap option_fmap option_map]. unfold ChunkComponents.get_array.
  destruct (Chunk.components c !! clear_component) as [column|] eqn:Hk.
  - rewrite (row_cells_lookup c 0 r clear_component column Hr Hk). unfold cell_at.
    destruct Hwf as (_ & _ & Hc). destruct (Hc _ _ Hk) as [_ Hl]. rewrite elems_lookup by lia. unfold list_entry.
    cbn [fmap option_fmap option_map mbind option_bind mjoin option_join]. destruct (is_valid _ 0); [|done].
    cbn [fmap option_fmap option_map]. by destruct (arr_len _ =? 1)%nat.
  - destruct (row_cells r !! clear_component) as [array|] eqn:Er; [|done]. exfalso.
    apply (no_column c clear_component r Hk); [rewrite Hu; left|]. by exists array.
Qed.

(** [cl] picks the greatest clear of each of the entities [es], and [mx] is the greatest of
    [start] and of the indices of those that clear [path]: of those that are recursive, and of
    the one of [path] itself. *)
Definition clears_path path (e : EntityPath) (rc : Row) : Prop := e = path \/ row_recursive rc = true.

Record clearing st path timeline a (es : list EntityPath) (cl : EntityPath -> option Row) (start mx : DataIndex) : Prop := {
  clearing_picks e : e ∈ es ->
    match cl e with
    | Some rc => best st e timeline clear_component (TimeInt.as_i64 a) rc
    | None => answers e timeline clear_component st a None
    end;
  clearing_start : index_le start mx = true;
  clearing_all e rc : e ∈ es -> cl e = Some rc -> clears_path path e rc -> index_le (row_index timeline rc) mx = true;
  clearing_tight : mx = start \/ exists e rc, e ∈ es /\ cl e = Some rc /\ clears_path path e rc /\ mx = row_index timeline rc;
}.

#[local] Instance index_preorder : TotalPreorder index_le.
Proof.
  split; [intros x y z|intros x y]; rewrite !index_le_iff; unfold key_le; lia.
Qed.

Lemma clearing_nothing st path timeline a e start : answers e timeline clear_component st a None ->
  clearing st path timeline a [e] (fun _ => None) start start.
Proof.
  intros Hn. split; [by intros e' ->%list_elem_of_singleton| |done|by left]. by destruct (le_total start start).
Qed.

Lemma clearing_app st path timeline a e es cl cl' start mid mx : e ∉ es -> clearing st path timeline a [e] cl start mid ->
  clearing st path timeline a es cl' mid mx ->
  clearing st path timeline a (e :: es) (fun x => if decide (x = e) then cl x else cl' x) start mx.
Proof.
  intros He [Hp1 Hs1 Ha1 Ht1] [Hp2 Hs2 Ha2 Ht2].
  assert (forall x, x ∈ es -> x <> e) as Hne by (intros x Hx ->; done). split.
  - intros x [->|Hx]%elem_of_cons; [rewrite decide_True by done; apply Hp1; left|].
    rewrite decide_False by (by apply Hne). by apply Hp2.
  - by apply (le_trans start mid mx).
  - intros x rc [->|Hx]%elem_of_cons Hc Hcl.
    + rewrite decide_True in Hc by done. apply (le_trans _ mid _); [|done]. apply (Ha1 e rc); [left|done|done].
    + rewrite decide_False in Hc by (by apply Hne). by apply (Ha2 x rc).
  - destruct Ht2 as [->|(x & rc & Hx & Hc & Hcl & ->)].
    + destruct Ht1 as [->|(x & rc & ->%list_elem_of_singleton & Hc & Hcl & ->)]; [by left|right].
      exists e, rc. rewrite decide_True by done. split_and!; [left|done|done|done].
    + right. exists x, rc. rewrite decide_False by (by apply Hne). split_and!; [by right|done|done|done].
Qed.

Lemma clear_step_ok fresh st self mode path timeline a e clears : ready st self -> short_index base e timeline clear_component -> static_chunk_id st e clear_component = None ->
  (QueryCache.max_clear_index clears).1 <> TimeInt.STATIC ->
  exists self' st' clears' cl, QueryCache.clear_step fresh self st mode (LatestAtQuery.Mk (Some timeline) a) path e clears
      = Done (self', st', clears')
    /\ ready st' self' /\ tracked st st' /\ QueryCache.missing_clears clears' = QueryCache.missing_clears clears
    /\ (QueryCache.max_clear_index clears').1 <> TimeInt.STATIC
    /\ clearing st path timeline a [e] cl (QueryCache.max_clear_index clears) (QueryCache.max_clear_index clears').
Proof.
  intros Hr Hsh Hst Hns. unfold QueryCache.clear_step.
  destruct (latest_at_cached_ok base marks st self fresh mode e timeline clear_component a Hr Hsh Hst) as (self1 & st1 & o & -> & Hans & Hr1 & Htr).
  cbn [mbind outcome_bind]. exists self1, st1.
  destruct o as [u|]; [|exists clears, (fun _ => None); split_and!; try done; by apply clearing_nothing].
  destruct Hans as (c & r & Hu & Hb). pose proof Hu as [_ _ _ Hus Huw].
  destruct (exact_row_index st e timeline clear_component a u r (proj1 (ready_live _ _ _ _ Hr))) as (Hix & Hrs & Hrt & _); [by exists c|].
  rewrite (is_recursive_clear_row u r Huw Hus). cbn [mbind outcome_bind LatestAtQuery.timeline].
  destruct (bool_decide (e = path) || row_recursive r) eqn:E.
  - assert (clears_path path e r) as Hcl by (apply orb_true_iff in E as [E%bool_decide_eq_true|E]; [by left|by right]).
    rewrite Hix. cbn [mbind outcome_bind].
    assert (forall mx, index_le (QueryCache.max_clear_index clears) mx = true -> index_le (row_index timeline r) mx = true ->
      mx = QueryCache.max_clear_index clears \/ mx = row_index timeline r ->
      clearing st path timeline a [e] (fun _ => Some r) (QueryCache.max_clear_index clears) mx) as Hdone.
    { intros mx Hlo Hhi Hmx0. split; [by intros e' ->%list_elem_of_singleton|done|by intros e' rc ->%list_elem_of_singleton [= <-]|].
      destruct Hmx0 as [|Hmx]; [by left|right; exists e, r]. split_and!; [left|done|done|done]. }
    clear E. case_bool_decide as Hgt.
    + eexists _, (fun _ => Some r). split; [done|]. split; [done|]. split; [done|]. split; [done|]. split; [exact Hrs|]. apply Hdone; [|by destruct (le_total (row_index timeline r) (row_index timeline r))|by right].
      apply compare_temporal in Hgt; [|done|done]. cbn [QueryCache.max_clear_index]. apply index_le_iff. unfold key_le in *. lia.
    + exists clears, (fun _ => Some r). split; [done|]. split; [done|]. split; [done|]. split; [done|]. split; [done|]. apply Hdone; [|..|by left].
      * by destruct (le_total (QueryCache.max_clear_index clears) (QueryCache.max_clear_index clears)).
      * rewrite compare_temporal in Hgt by done. apply index_le_iff. unfold key_le in *. lia.
  - exists clears, (fun _ => Some r). split_and!; try done. split; [by intros e' ->%list_elem_of_singleton| | |by left].
    + by destruct (le_total (QueryCache.max_clear_index clears) (QueryCache.max_clear_index clears)).
    + intros e' rc ->%list_elem_of_singleton [= <-] [->|Hrec].
      * by rewrite bool_decide_true in E.
      * by rewrite Hrec, orb_true_r in E.
Qed.

Lemma ancestors_length parts e : e ∈ ancestors parts -> (length e <= length parts)%nat.
Proof.
  induction parts as [|part parts IH]; cbn [ancestors].
  - intros ->%list_elem_of_singleton. done.
  - intros [->|Hin%IH]%elem_of_cons; [by rewrite length_rev|cbn; lia].
Qed.

Lemma clear_loop_ok fresh mode path timeline a parts :
  Forall (fun e => short_index base e timeline clear_component) (ancestors parts) -> forall st self clears, ready st self ->
  (forall e, e ∈ ancestors parts -> static_chunk_id st e clear_component = None) ->
  (forall e, e ∈ ancestors parts -> e ∉ marks -> answers e timeline clear_component st a None) ->
  (QueryCache.max_clear_index clears).1 <> TimeInt.STATIC ->
  exists self' st' clears' cl, QueryCache.clear_loop fresh self st mode (LatestAtQuery.Mk (Some timeline) a) path parts clears
      = Done (self', st', clears')
    /\ ready st' self' /\ tracked st st' /\ QueryCache.missing_clears clears' = QueryCache.missing_clears clears
    /\ clearing st path timeline a (ancestors parts) cl (QueryCache.max_clear_index clears) (QueryCache.max_clear_index clears').
Proof.
  induction parts as [|part parts IH]; cbn [ancestors]; intros [Hsh Hshs]%Forall_cons st self clears Hr Hst Hknown Hns.
  - cbn [QueryCache.clear_loop ancestors] in *. rewrite (ready_marks _ _ _ _ Hr). case_bool_decide as Hin.
    + destruct (clear_step_ok fresh st self mode path timeline a (rev []) clears Hr Hsh) as (self' & st' & clears' & cl & -> & ? & ? & ? & _ & Hcl);
        [apply Hst; left|done|]. cbn [mbind outcome_bind]. by exists self', st', clears', cl.
    + cbn [mbind outcome_bind]. exists self, st, clears, (fun _ => None). split_and!; [done|done|apply tracked_refl|done|].
      apply clearing_nothing. apply Hknown; [left|done].
  - assert (rev (part :: parts) ∉ ancestors parts) as Hnew.
    { intros Hin%ancestors_length. rewrite length_rev in Hin. cbn in Hin. lia. }
    cbn [QueryCache.clear_loop ancestors] in *. rewrite (ready_marks _ _ _ _ Hr). set (e := rev (part :: parts)) in *.
    assert (exists self1 st1 clears1 cl, (if bool_decide (e ∈ marks)
        then QueryCache.clear_step fresh self st mode (LatestAtQuery.Mk (Some timeline) a) path e clears else Done (self, st, clears))
          = Done (self1, st1, clears1) /\ ready st1 self1 /\ tracked st st1 /\ QueryCache.missing_clears clears1 = QueryCache.missing_clears clears
        /\ (QueryCache.max_clear_index clears1).1 <> TimeInt.STATIC
        /\ clearing st path timeline a [e] cl (QueryCache.max_clear_index clears) (QueryCache.max_clear_index clears1))
      as (self1 & st1 & clears1 & cl & -> & Hr1 & Htr & Hm1 & Hns1 & Hcl).
    { case_bool_decide as Hin.
      - apply clear_step_ok; [done|done|apply Hst; left|done].
      - exists self, st, clears, (fun _ => None). split_and!; [done|done|apply tracked_refl|done|done|].
        apply clearing_nothing. apply Hknown; [left|done]. }
    cbn [mbind outcome_bind]. destruct Htr as [tr ->].
    destruct (IH Hshs (with_tracker st tr) self1 clears1 Hr1) as (self' & st' & clears' & cl' & -> & Hr' & Htr' & Hm' & Hcl'); [..|done|].
    { intros e' He'. apply Hst. by right. } { intros e' He'. apply Hknown. by right. }
    exists self', st', clears'. eexists. split; [done|]. split; [done|]. split; [by eapply tracked_trans; [by exists tr|]|].
    split; [congruence|]. eapply clearing_app; [done|exact Hcl|]. destruct Hcl'. by split.
Qed.

Lemma elem_of_ancestors parts e : e ∈ ancestors parts <-> e `prefix_of` rev parts.
Proof.
  revert e. induction parts as [|part parts IH]; intros e; cbn [ancestors].
  - rewrite list_elem_of_singleton. split; [by intros ->|]. cbn. apply prefix_nil_inv.
  - rewrite elem_of_cons, IH. change (rev (part :: parts)) with (rev parts ++ [part]). split.
    + intros [->|Hp]; [done|]. by apply prefix_app_r.
    + intros [k Hk]. destruct k as [|y k _] using rev_ind; [left; by rewrite app_nil_r in Hk|right].
      rewrite app_assoc in Hk. apply app_inj_tail in Hk as [-> _]. by eexists.
Qed.

(** *** The query *)

(** What is shown, in terms of the rows. *)
Lemma clearing_shown st path timeline a es cl mx component u r : sound st ->
  clearing st path timeline a es cl (TimeInt.MIN, RowId.ZERO) mx -> exact_row st path timeline component a u r ->
  shown component (row_index timeline r) mx
  <-> component = clear_component \/ forall e rc, e ∈ es -> cl e = Some rc -> clears_path path e rc -> ~ ranks timeline r rc.
Proof.
  intros Hst [Hp Hs Hall Htight] Hex. destruct (exact_row_index st path timeline component a u r Hst Hex) as (_ & Hns & Ht & Hmin & _).
  assert (forall e rc, e ∈ es -> cl e = Some rc -> (row_index timeline rc).1 <> TimeInt.STATIC /\ TimeInt.as_i64 (row_index timeline rc).1 = time_of timeline rc) as Hrc.
  { intros e rc He Hc. specialize (Hp e He). rewrite Hc in Hp. pose proof (best_temporal e timeline clear_component st a rc Hst Hp) as Hti.
    pose proof (as_i64_temporal _ Hti) as Hconv. split; [|done]. intros E%TimeInt.as_i64_static_iff. cbn in E.
    rewrite Hconv in E. unfold temporal_i64 in Hti. lia. }
  unfold shown. destruct (decide (component = clear_component)) as [->|Hne]; [by split; left|].
  enough (compare_indices (row_index timeline r) mx = Gt <-> forall e rc, e ∈ es -> cl e = Some rc -> clears_path path e rc -> ~ ranks timeline r rc) by tauto.
  split.
  - intros Hgt e rc He Hc Hcl Hranks. specialize (Hall e rc He Hc Hcl). destruct (Hrc e rc He Hc) as [Hns' Ht'].
    apply index_le_iff in Hall. apply ranks_key in Hranks. cbn [row_index fst snd] in *.
    assert (mx.1 <> TimeInt.STATIC) as Hmx.
    { destruct Htight as [->|(e' & rc' & He' & Hc' & _ & ->)]; [done|by apply (Hrc e' rc')]. }
    apply compare_temporal in Hgt; [|done|done]. apply Hgt. cbn [row_index fst snd]. unfold key_le in *. lia.
  - intros Hno. destruct Htight as [->|(e & rc & He & Hc & Hcl & ->)]; [done|]. destruct (Hrc e rc He Hc) as [Hns' Ht'].
    apply compare_temporal; [done|done|]. rewrite Ht, Ht'. cbn [row_index snd]. rewrite <- ranks_key. by apply (Hno e rc).
Qed.

(** What the query gives for a component, given the greatest clears. *)
Definition given st path timeline a (cl : EntityPath -> option Row) component (o : option UnitChunk.t) : Prop :=
  let uncleared r := component = clear_component
    \/ forall e rc, e `prefix_of` path -> cl e = Some rc -> clears_path path e rc -> ~ ranks timeline r rc in
  match o with
  | Some u => exists r, rows (UnitChunk.chunk u) = [r] /\ best st path timeline component (TimeInt.as_i64 a) r /\ uncleared r
  | None => (forall s, s ∈ temporal_rows path st -> ~ eligible timeline component (TimeInt.as_i64 a) s)
      \/ exists r, best st path timeline component (TimeInt.as_i64 a) r /\ ~ uncleared r
  end.

Lemma latest_at_ok st self fresh mode path timeline a components : ready st self -> short_query base (Some timeline) path components -> marks = QueryCache.might_require_clearing self ->
  clears_known st self -> Forall (fun component => static_chunk_id st path component = None) components ->
  (forall e, e `prefix_of` path -> static_chunk_id st e clear_component = None) ->
  exists self' st' results cl, QueryCache.latest_at fresh self st mode (LatestAtQuery.Mk (Some timeline) a) path components = Done (self', st', results)
    /\ LatestAtResults.missing_virtual results = []
    /\ (forall k, is_Some (LatestAtResults.components results !! k) -> k ∈ components)
    /\ (forall e, e `prefix_of` path ->
          match cl e with
          | Some rc => best st e timeline clear_component (TimeInt.as_i64 a) rc
          | None => answers e timeline clear_component st a None
          end)
    /\ (forall k, k ∈ components -> given st path timeline a cl k (LatestAtResults.components results !! k)).
Proof.
  intros Hr [Hsh Hshc] Hmarks Hknown Hst Hclear. unfold QueryCache.latest_at.
  assert (forall e, e ∈ ancestors (rev path) <-> e `prefix_of` path) as Hanc by (intros e; by rewrite elem_of_ancestors, rev_involutive).
  assert (forall e, e ∉ marks -> answers e timeline clear_component st a None) as Hunmarked.
  { intros e He s Hs (Ht & Hc & _). apply He. rewrite Hmarks. by apply (Hknown e timeline s). }
  assert (exists self1 st1 clears cl, (if bool_decide (QueryCache.might_require_clearing self = ∅) then Done (self, st, QueryCache.Clears (TimeInt.MIN, RowId.ZERO) [])
      else QueryCache.clear_loop fresh self st mode (LatestAtQuery.Mk (Some timeline) a) path (rev path) (QueryCache.Clears (TimeInt.MIN, RowId.ZERO) []))
        = Done (self1, st1, clears) /\ ready st1 self1 /\ tracked st st1 /\ QueryCache.missing_clears clears = []
      /\ clearing st path timeline a (ancestors (rev path)) cl (TimeInt.MIN, RowId.ZERO) (QueryCache.max_clear_index clears))
    as (self1 & st1 & clears & cl & -> & Hr1 & Htr & Hm1 & Hcl).
  { case_bool_decide as He.
    - eexists self, st, _, (fun _ => None). split; [done|]. split; [done|]. split; [apply tracked_refl|]. split; [done|].
      split; [|by vm_compute|done|by left]. intros e _. apply Hunmarked. rewrite Hmarks, He. apply not_elem_of_empty.
    - apply clear_loop_ok; [|done|by intros e ?%Hanc; apply Hclear|by intros e _; apply Hunmarked|done].
      eapply Forall_impl; [exact Hshc|]. intros e Hse. by apply Hse. }
  cbn [mbind outcome_bind]. set (kept := List.filter _ components).
  assert (forall k, k ∈ kept <-> k ∈ components /\ QueryCache.entity_has_component_on_timeline st (Some timeline) path k = true) as Hkept.
  { intros k. unfold kept. rewrite !list_elem_of_In. apply filter_In. }
  destruct Htr as [tr ->]. set (start := LatestAtResults.extend_missing _ _).
  destruct (component_loop_ok fresh mode path timeline a (QueryCache.max_clear_index clears) kept) with (st := with_tracker st tr) (self := self1) (results := start)
    as (self' & st' & results & Hrun & Hf & Hm & Hnew & _ & Hnone); [|done| |by intros k u; cbn; rewrite lookup_empty|].
  { rewrite Forall_forall in Hsh |- *. intros k [Hk _]%Hkept. by apply (Hsh k Hk). }
  { rewrite Forall_forall in Hst |- *. intros k [Hk _]%Hkept. by apply Hst. }
  exists self', st', results, cl. split; [exact Hrun|]. split; [rewrite Hm; cbn; by rewrite Hm1|]. split; [|split].
  - intros k [Hk|[u Hk]]%Hnew; [by apply Hkept|]. cbn in Hk. by rewrite lookup_empty in Hk.
  - intros e He%Hanc. by apply (clearing_picks _ _ _ _ _ _ _ _ Hcl).
  - intros k Hk. pose proof (proj1 (ready_live _ _ _ _ Hr)) as Hsound.
    assert (forall u r, exact_row st path timeline k a u r -> shown k (row_index timeline r) (QueryCache.max_clear_index clears) <->
      k = clear_component \/ forall e rc, e `prefix_of` path -> cl e = Some rc -> clears_path path e rc -> ~ ranks timeline r rc) as Hshown.
    { intros u r Hex. rewrite (clearing_shown st path timeline a _ cl _ k u r Hsound Hcl Hex).
      split; (intros [?|Hno]; [by left|right; intros e rc He; apply Hno; by apply Hanc]). }
    destruct (LatestAtResults.components results !! k) as [u|] eqn:E; cbn [given].
    + destruct (Hf k u E) as (r & Hex & Hs). exists r. split; [by destruct Hex as (c & [_ _ _ Hu _] & _)|].
      split; [by destruct Hex as (c & _ & Hb)|]. by apply (Hshown u).
    + destruct (QueryCache.entity_has_component_on_timeline st (Some timeline) path k) eqn:Eh.
      * destruct (Hnone k) as [Hn|(u & r & Hex & Hs)]; [by apply Hkept|done|by left|right]. exists r.
        split; [by destruct Hex as (c & _ & Hb)|]. by rewrite <- (Hshown u).
      * left. rewrite Forall_forall in Hst. intros s Hs. eapply unindexed_rows; [exact Hsound| |exact Hs]. by apply on_timeline_spec; [apply Hst|].
Qed.

End Ready.

(** ** Range queries *)

Context (Hvs : very_strict = false).

Section Ready.

Context (base : ChunkStore.t) (marks : gset EntityPath).
Notation ready := (ready base marks).

(** The right chunks for a component. *)
Definition range_answer st path q component (chunks : list Chunk.t) : Prop :=
  chunks ≫= rows ≡ₚ project q component <$> filter (queried q component) (temporal_rows path st)
  /\ Forall (fun c => sorted_by (time_le (RangeQuery.timeline q)) (rows c)) chunks.

Lemma range_cached_ok st self fresh mode path q component : ready st self -> short_index base path (RangeQuery.timeline q) component -> static_chunk_id st path component = None ->
  query_nonempty q -> RangeQuery.include_extended_bounds (RangeQuery.options q) = false ->
  let key := Key path (Some (RangeQuery.timeline q)) component in
  let cache := RangeCache.handle_pending_invalidation (default (RangeCache.new key) (QueryCache.range_per_cache_key self !! key)) in
  exists cache' st' selected, RangeCache.range fresh cache st q path component mode = Done (cache', st', (selected, []))
    /\ tracked st st' /\ ready st' (QueryCache.with_range self (<[key := cache']> (QueryCache.range_per_cache_key self)))
    /\ range_answer st path q component selected.
Proof.
  intros Hr Hsh Hst Hq Hext key cache. pose proof (range_cache_settled base marks st self path (RangeQuery.timeline q) component Hr Hst) as Hset.
  fold key in Hset. fold cache in Hset.
  destruct (cache_range_ok Hvs st fresh cache mode q path component (proj1 (ready_live _ _ _ _ Hr)) (short_ready base marks _ _ _ _ _ Hr Hsh)
    (ready_sturdy _ _ _ _ Hr) Hst Hset) as (results & st' & m & Hrun & Htr & Hcache & Hmiss & Hm & Hsel).
  destruct (Hsel Hq Hext) as (selected & Hrun' & Hans). destruct Hset as [Hk _].
  exists (RangeCache.Mk (RangeCache.cache_key cache) m (RangeCache.pending_invalidations cache)), st', selected.
  split; [|split; [done|split; [|done]]].
  - unfold RangeCache.range. rewrite Hk. cbn [key key_timeline_name]. rewrite bool_decide_true by done.
    assert (debug_assert true = Done ()) as -> by (unfold debug_assert; by destruct debug_assertions).
    cbn [mbind outcome_bind]. rewrite Hrun. cbn [mbind outcome_bind]. rewrite Hcache. cbn [mbind outcome_bind].
    rewrite Hrun'. cbn [mbind outcome_bind]. by rewrite Hmiss.
  - eapply ready_tracked; [exact Htr|]. apply ready_with_range; [done|]. intros p t k [= <- <- <-] _.
    by apply range_settled_in_step.
Qed.

Definition ranges_found st path q (results : RangeResults.t) : Prop := forall component chunks,
  RangeResults.components results !! component = Some chunks -> range_answer st path q component chunks.

Lemma range_loop_ok fresh mode path q (components : list string) : query_nonempty q ->
  RangeQuery.include_extended_bounds (RangeQuery.options q) = false ->
  Forall (short_index base path (RangeQuery.timeline q)) components -> forall st self results,
  ready st self -> Forall (fun component => static_chunk_id st path component = None) components -> ranges_found st path q results ->
  exists self' st' results', QueryCache.range_loop fresh self st mode q path components results = Done (self', st', results')
    /\ tracked st st' /\ ranges_found st path q results'
    /\ RangeResults.missing_virtual results' = RangeResults.missing_virtual results
    /\ (forall k, is_Some (RangeResults.components results !! k) -> is_Some (RangeResults.components results' !! k))
    /\ (forall k, k ∈ components -> RangeResults.components results' !! k = None -> range_answer st path q k []).
Proof.
  intros Hq Hext. induction 1 as [|component components Hsh _ IH]; intros st self results Hr Hst Hf; cbn [QueryCache.range_loop].
  { exists self, st, results. split_and!; [done|apply tracked_refl|done|done|done|by intros k ?%elem_of_nil]. }
  apply Forall_cons in Hst as [Hs Hst].
  destruct (range_cached_ok st self (fresh (Key path (Some (RangeQuery.timeline q)) component)) mode path q component Hr Hsh Hs Hq Hext)
    as (cache' & st1 & selected & -> & [tr ->] & Hr1 & Hans).
  cbn [mbind outcome_bind]. set (results1 := match selected with [] => _ | _ => _ end).
  assert (RangeResults.missing_virtual results1 = RangeResults.missing_virtual results) as Hm1 by (unfold results1; destruct selected; apply app_nil_r).
  assert (forall k, RangeResults.components results1 !! k =
    if decide (k = component /\ selected <> []) then Some selected else RangeResults.components results !! k) as Hc1.
  { intros k. unfold results1. destruct selected as [|c l]; [rewrite decide_False by tauto; done|]. cbn.
    destruct (decide (k = component)) as [->|Hne]; [rewrite decide_True by done; by rewrite lookup_insert_eq|].
    rewrite decide_False by tauto. by rewrite lookup_insert_ne. }
  destruct (IH (with_tracker st tr) _ results1 Hr1 Hst) as (self' & st' & results' & Hrun & [tr' ->] & Hf' & Hm' & Hold & Hnone).
  { intros k chunks Hk. rewrite Hc1 in Hk. case_decide as Hd; [|by apply Hf]. destruct Hd as [-> _]. by injection Hk as <-. }
  exists self', (with_tracker (with_tracker st tr) tr'), results'. split; [exact Hrun|]. split; [by eexists|]. split; [done|].
  split; [congruence|]. split.
  - intros k Hk. apply Hold. rewrite Hc1. by case_decide.
  - intros k [->|Hk]%elem_of_cons Hno; [|by apply Hnone]. apply eq_None_not_Some in Hno. destruct selected as [|c l]; [done|].
    destruct Hno. apply Hold. rewrite Hc1, decide_True by done. by eexists.
Qed.

Lemma range_ok st self fresh mode path q components : ready st self ->
  Forall (short_index base path (RangeQuery.timeline q)) components -> query_nonempty q ->
  RangeQuery.include_extended_bounds (RangeQuery.options q) = false ->
  Forall (fun component => static_chunk_id st path component = None) components ->
  exists self' st' results, QueryCache.range fresh self st mode q path components = Done (self', st', results)
    /\ RangeResults.missing_virtual results = []
    /\ (forall k, k ∈ components -> range_answer st path q k (default [] (RangeResults.components results !! k))).
Proof.
  intros Hr Hsh Hq Hext Hst. unfold QueryCache.range. set (kept := List.filter _ components).
  assert (forall k, k ∈ kept <-> k ∈ components /\ QueryCache.entity_has_component_on_timeline st (Some (RangeQuery.timeline q)) path k = true) as Hkept.
  { intros k. unfold kept. rewrite !list_elem_of_In. apply filter_In. }
  destruct (range_loop_ok fresh mode path q kept Hq Hext) with (st := st) (self := self) (results := RangeResults.new q)
    as (self' & st' & results & Hrun & _ & Hf & Hm & _ & Hnone); [|done|..].
  { rewrite Forall_forall in Hsh |- *. intros k [Hk _]%Hkept. by apply Hsh. }
  { rewrite Forall_forall in Hst |- *. intros k [Hk _]%Hkept. by apply Hst. }
  { intros k chunks. cbn. by rewrite lookup_empty. }
  exists self', st', results. split; [exact Hrun|]. split; [done|]. intros k Hk.
  destruct (RangeResults.components results !! k) as [chunks|] eqn:E; [by apply Hf|]. cbn [default].
  destruct (QueryCache.entity_has_component_on_timeline st (Some (RangeQuery.timeline q)) path k) eqn:Eh; [apply Hnone; [by apply Hkept|done]|].
  rewrite Forall_forall in Hst. split; [|constructor]. rewrite filter_none; [done|]. intros s Hs (Ht & Hcell & _).
  apply (unindexed_rows st path (RangeQuery.timeline q) k (time_of (RangeQuery.timeline q) s) s); [apply Hr| |done|].
  - apply on_timeline_spec; [by apply Hst|done].
  - split; [done|]. by split; [|lia].
Qed.

End Ready.

(** ** The contracts *)

Context `{!SizeLaws} `{!HashOrderLaws}.

(** C2. A latest-at query through the caches of a store, in any state that insertions, garbage
    collections, their events, and queries and purges of the caches lead to.  The query does not
    panic and misses no chunk.  For each component, of those that the entity has no static chunk
    for, it gives one row or nothing: the greatest row, by time and row id, of the rows of the
    entity in memory with the component at or before the time, if it comes after the greatest
    clear of the entity and after the greatest clear of each of its ancestors that is recursive;
    and nothing only if there is no such row or it was cleared.  So the answer is that of the
    store, whatever was cached, invalidated or purged before.  Neither the entity nor an ancestor
    may have a static clear, and [QueryCache::clear], which forgets where clears are, is not among
    the steps; insertions are of [new_chunk]s (C11).  Two conditions, at this query and at every
    earlier one: the widest intervals of the indices asked are at most [i64::MAX]
    ([short_query]; wider ones, and columns without a value, make a query miss chunks, see
    [index_latest_at_limits]), and, in a debug build only, the measured sizes of the chunks in
    memory are right and do not change when rows are sorted ([sturdy_store]; otherwise the debug
    check of a sorted copy panics). *)
Theorem cached_latest_at_spec config store_id st self fresh mode path timeline a components
  (Hreach : cached_reachable false config store_id st self) (Hheap : sturdy_store st)
  (Hshort : short_query st (Some timeline) path components)
  (Hstatic : Forall (fun component => static_chunk_id st path component = None) components)
  (Hclear : forall e, e `prefix_of` path -> static_chunk_id st e clear_component = None) :
  exists self' st' results cl,
    QueryCache.latest_at fresh self st mode (LatestAtQuery.Mk (Some timeline) a) path components = Done (self', st', results)
    /\ LatestAtResults.missing_virtual results = []
    /\ (forall k, is_Some (LatestAtResults.components results !! k) -> k ∈ components)
    /\ (forall e, e `prefix_of` path ->
          match cl e with
          | Some rc => best st e timeline clear_component (TimeInt.as_i64 a) rc
          | None => forall s, s ∈ temporal_rows e st -> ~ eligible timeline clear_component (TimeInt.as_i64 a) s
          end)
    /\ forall k, k ∈ components ->
         let uncleared r := k = clear_component
           \/ forall e rc, e `prefix_of` path -> cl e = Some rc -> e = path \/ row_recursive rc = true -> ~ ranks timeline r rc in
         match LatestAtResults.components results !! k with
         | Some u => exists r, rows (UnitChunk.chunk u) = [r] /\ best st path timeline k (TimeInt.as_i64 a) r /\ uncleared r
         | None => (forall s, s ∈ temporal_rows path st -> ~ eligible timeline k (TimeInt.as_i64 a) s)
             \/ exists r, best st path timeline k (TimeInt.as_i64 a) r /\ ~ uncleared r
         end.
Proof.
  destruct (cached_reachable_ok Hvs false config store_id st self Hreach) as [Hok Hknown].
  exact (latest_at_ok st (QueryCache.might_require_clearing self) st self fresh mode path timeline a components
    (caches_ok_ready st self Hok Hheap) Hshort eq_refl (Hknown eq_refl) Hstatic Hclear).
Qed.

(** C3. A range query through the caches, in any such state, also after the caches were cleared.
    The rows of the chunks that it gives for a component without a static chunk are, each as
    often as it is in memory and sorted on the timeline within a chunk, those of the entity with
    the component in the range, less the columns not asked for: what the caches keep of chunks
    that were compacted, collected or inserted since is not seen.  The conditions are those of
    C2, at this query and at every earlier one: indices whose intervals are at most [i64::MAX] wide
    ([short_index]), and in a debug build chunks whose measured sizes are right and do not change
    when rows are sorted ([sturdy_store]), here also after [QueryCache::clear]; and, at this query,
    that the range is not empty and that the extended bounds are not asked for. *)
Theorem cached_range_spec clearing config store_id st self fresh mode path q components
  (Hreach : cached_reachable clearing config store_id st self) (Hheap : sturdy_store st)
  (Hshort : Forall (short_index st path (RangeQuery.timeline q)) components) (Hq : query_nonempty q)
  (Hext : RangeQuery.include_extended_bounds (RangeQuery.options q) = false)
  (Hstatic : Forall (fun component => static_chunk_id st path component = None) components) :
  exists self' st' results, QueryCache.range fresh self st mode q path components = Done (self', st', results)
    /\ RangeResults.missing_virtual results = []
    /\ forall k, k ∈ components ->
         default [] (RangeResults.components results !! k) ≫= rows
           ≡ₚ project q k <$> filter (queried q k) (temporal_rows path st)
         /\ Forall (fun c => sorted_by (time_le (RangeQuery.timeline q)) (rows c)) (default [] (RangeResults.components results !! k)).
Proof.
  destruct (cached_reachable_ok Hvs clearing config store_id st self Hreach) as [Hok _].
  exact (range_ok st _ st self fresh mode path q components (caches_ok_ready st self Hok Hheap) Hshort Hq Hext Hstatic).
Qed.

(** Only the events of another store are refused. *)
Lemma on_events_takes self events :
  Forall (fun e => event_store_id e = QueryCache.store_id self) events <-> exists self', QueryCache.on_events self events = Done self'.
Proof.
  unfold QueryCache.on_events. split.
  - intros Hall. rewrite compact_events_done by done. by eexists.
  - intros [self' Hev]. destruct (compact_events _ _ _) as [compacted|] eqn:E; [|done]. clear Hev. revert E.
    generalize no_events. induction events as [|e events IH]; intros c0; [constructor|]. cbn [compact_events].
    case_bool_decide; [|done]. intros E. constructor; [done|]. by eapply IH.
Qed.

(** C17. Events.  [on_events] takes the events of its own store and panics on any other's.  What it
    does to the caches is to add invalidations: each time that a notice of the events names for
    a latest-at cache has a pending time at or before it, each chunk that one names for a range
    cache is pending there, and entries, keys and the set of caches stay.  A notice about static
    data empties the latest-at caches of its component, on every timeline, and a notice about the
    component of clears marks its entity. *)
Theorem on_events_spec self events :
  (Forall (fun e => event_store_id e = QueryCache.store_id self) events <-> exists self', QueryCache.on_events self events = Done self')
  /\ forall self', QueryCache.on_events self events = Done self' ->
       grown self self'
       /\ (forall key time cache', LatestAtNotice key time ∈ notices_of events -> QueryCache.latest_at_per_cache_key self' !! key = Some cache' ->
             exists p, p ∈ LatestAtCache.pending_invalidations cache' /\ TimeInt.as_i64 p <= TimeInt.as_i64 time)
       /\ (forall key ids cache', RangeNotice key ids ∈ notices_of events -> QueryCache.range_per_cache_key self' !! key = Some cache' ->
             ids ⊆ RangeCache.pending_invalidations cache')
       /\ (QueryCache.might_require_clearing self ⊆ QueryCache.might_require_clearing self'
           /\ forall key time, LatestAtNotice key time ∈ notices_of events -> key_component key = clear_component ->
                key_entity_path key ∈ QueryCache.might_require_clearing self')
       /\ (forall key ids, StaticNotice key ids ∈ notices_of events ->
             (key.2 = clear_component -> key.1 ∈ QueryCache.might_require_clearing self')
             /\ (forall k cache, QueryCache.latest_at_per_cache_key self' !! k = Some cache -> key_entity_path k = key.1 -> key_component k = key.2 ->
                   TimeInt.STATIC ∈ LatestAtCache.pending_invalidations cache)
             /\ (forall k cache, QueryCache.range_per_cache_key self' !! k = Some cache -> key_entity_path k = key.1 -> key_component k = key.2 ->
                   ids ⊆ RangeCache.pending_invalidations cache)).
Proof.
  split; [apply on_events_takes|]. intros self' Hev. destruct (on_events_ok _ _ _ Hev) as (Hg & Hl & Hr).
  split_and!; [done|done|done|by apply (on_events_marks self events self')|
    by apply (on_events_marks self events self')|intros key ids Hn; by apply (on_events_static self events self')].
Qed.

(** What is left pending once invalidations were dealt with: of those at or after which entries
    were dropped, the ones with an entry of their own that was no reference.  They are dealt
    with again before the next query. *)
Lemma handle_pending_retains cache time : time ∈ LatestAtCache.pending_invalidations (LatestAtCache.handle_pending_invalidation cache) <->
  time ∈ LatestAtCache.pending_invalidations cache
  /\ exists chunk, LatestAtCache.per_query_time cache !! time = Some chunk /\ LatestAtCache.is_reference chunk = false.
Proof.
  unfold LatestAtCache.handle_pending_invalidation. pose proof (first_spec (LatestAtCache.pending_invalidations cache)) as Hf.
  destruct (LatestAtCache.first _) as [oldest|]; [|rewrite Hf; set_solver]. destruct Hf as [_ Hf].
  cbn. rewrite elem_of_filter. unfold LatestAtCache.is_kept. split.
  - intros [Hk Hin]. split; [done|]. destruct (filter _ _ !! time) as [chunk|] eqn:E; [|done].
    apply map_lookup_filter_Some in E as [E _]. exists chunk. by apply negb_true_iff in Hk.
  - intros (Hin & chunk & Hc & Hr). split; [|done].
    rewrite (map_lookup_filter_Some_2 _ _ _ chunk); [by rewrite Hr|done|]. cbn. rewrite TimeInt.le_as_i64. by apply Z.leb_le, Hf.
Qed.

End Answers.
