(* ===== verification/CrateVersion.v ===== *)
(** * Versions of the crates

    [build/dl_build_info/src/crate_version.rs]: the subset of semantic versions that the log
    format carries in four bytes, their text, and which of them are compatible.  A commit hash
    is a list of bytes. *)

From stdpp Require Import strings.
From S2P Require Import Prelude Ints Text.

(** The bytes that [u8] holds, and [u8] arithmetic. *)
Definition is_u8 (z : Z) : Prop := 0 <= z < 256.
Definition arith_u8 (overflow_checks : bool) (z : Z) : outcome Z :=
  if (0 <=? z) && (z <? 256) then Done z else if overflow_checks then Panic else Done (z mod 256).

(** ** Metadata *)

Module Meta.

Definition TAG_MASK : Z := 192.
Definition VALUE_MASK : Z := 63.
Definition MAX_VALUE : Z := VALUE_MASK.
Definition RC : Z := 64.
Definition ALPHA : Z := 128.
Definition DEV_ALPHA : Z := 192.

Inductive t :=
| Rc (value : Z)
| Alpha (value : Z)
| DevAlpha (alpha : Z) (commit : option (list Z)).

#[global] Instance eq_dec : EqDecision t.
Proof. solve_decision. Defined.

Definition to_byte (self : t) : Z :=
  match self with
  | Rc value => Z.lor value RC
  | Alpha value => Z.lor value ALPHA
  | DevAlpha alpha _ => Z.lor alpha DEV_ALPHA
  end.

Definition from_byte (v : Z) : option t :=
  let tag := Z.land v TAG_MASK in
  let value := Z.land v VALUE_MASK in
  if tag =? RC then Some (Rc value)
  else if tag =? ALPHA then Some (Alpha value)
  else if tag =? DEV_ALPHA then Some (DevAlpha value None)
  else None.

(** [Display]. *)
Definition to_string (self : t) : list char :=
  match self with
  | Rc build => lit "-rc." ++ fmt_u64 build
  | Alpha build => lit "-alpha." ++ fmt_u64 build
  | DevAlpha alpha commit =>
      match commit ≫= from_utf8 with
      | Some commit => lit "-alpha." ++ fmt_u64 alpha ++ lit "+" ++ commit
      | None => lit "-alpha." ++ fmt_u64 alpha ++ lit "+dev"
      end
  end.

End Meta.

(** ** Versions *)

Module CrateVersion.

Record t := Mk { major : Z; minor : Z; patch : Z; meta : option Meta.t }.

#[global] Instance eq_dec : EqDecision t.
Proof. solve_decision. Defined.

(** [Ord]: the metadata is not compared. *)
Definition cmp (self other : t) : comparison :=
  match major self ?= major other with
  | Eq => match minor self ?= minor other with Eq => patch self ?= patch other | ord => ord end
  | ord => ord
  end.
Definition lt (self other : t) : bool := match cmp self other with Lt => true | _ => false end.
Definition le (self other : t) : bool := match cmp self other with Gt => false | _ => true end.

Definition new (major minor patch : Z) : t := Mk major minor patch None.
Definition is_release (self : t) : bool := match meta self with None => true | Some _ => false end.
Definition is_dev (self : t) : bool := match meta self with Some (Meta.DevAlpha _ _) => true | _ => false end.
Definition is_alpha (self : t) : bool :=
  match meta self with Some (Meta.Alpha _) | Some (Meta.DevAlpha _ _) => true | _ => false end.
Definition is_rc (self : t) : bool := match meta self with Some (Meta.Rc _) => true | _ => false end.

Definition latest_stable (overflow_checks : bool) (self : t) : outcome t :=
  if is_dev self then
    if patch self =? 0 then
      if minor self =? 0 then
        major ← arith_u8 overflow_checks (major self - 1);
        Done (Mk major 0 0 None)
      else
        minor ← arith_u8 overflow_checks (minor self - 1);
        Done (Mk (major self) minor 0 None)
    else
      patch ← arith_u8 overflow_checks (patch self - 1);
      Done (Mk (major self) (minor self) patch None)
  else Done self.

(** [[u8; 4]] is a list of four bytes. *)
Definition from_bytes (bytes : list Z) : t :=
  match bytes with
  | [major; minor; patch; meta] => Mk major minor patch (Meta.from_byte meta)
  | _ => Mk 0 0 0 None
  end.
Definition to_bytes (self : t) : list Z :=
  [major self; minor self; patch self; default 0 (Meta.to_byte <$> meta self)].

Definition is_compatible_with (self other : t) : bool :=
  let meta_compatible :=
    match meta self, meta other with
    | Some (Meta.Rc _), Some (Meta.Rc _) | Some (Meta.Rc _), None | None, Some (Meta.Rc _) => true
    | this, other => bool_decide (this = other)
    end in
  if negb meta_compatible then false
  else if major self =? 0 then (major self =? major other) && (minor self =? minor other)
  else major self =? major other.

Definition to_string (self : t) : list char :=
  fmt_u64 (major self) ++ lit "." ++ fmt_u64 (minor self) ++ lit "." ++ fmt_u64 (patch self)
  ++ from_option Meta.to_string [] (meta self).

(** *** Parsing *)

Section Parsing.

Context (overflow_checks : bool).

Definition is_ascii_digit (b : Z) : bool := (48 <=? b) && (b <=? 57).

Definition maybe (s : list Z) (c : Z) : bool * list Z :=
  match s with
  | b :: rest => if b =? c then (true, rest) else (false, s)
  | [] => (false, s)
  end.

Definition maybe_token (s token : list Z) : bool * list Z :=
  if (length s <? length token)%nat then (false, s)
  else if bool_decide (take (length token) s = token) then (true, drop (length token) s) else (false, s).

Definition eat (s : list Z) (c : Z) (msg : string) : result (list Z) string :=
  match s with
  | b :: rest => if b =? c then Ok rest else Err msg
  | [] => Err msg
  end.

(** [while i < s.len() && s[i].is_ascii_digit()], on [u64]. *)
Fixpoint eat_digits (num : Z) (s : list Z) : outcome (Z * list Z) :=
  match s with
  | b :: rest =>
      if is_ascii_digit b then
        num ← arith_u64 overflow_checks (num * 10);
        num ← arith_u64 overflow_checks (num + (b - 48));
        eat_digits num rest
      else Done (num, s)
  | [] => Done (num, s)
  end.

Definition eat_u8 (s : list Z) (msg : string) : outcome (result (Z * list Z) string) :=
  match s with
  | [] => Done (Err msg)
  | b0 :: tail =>
      let leading_zero := match tail with b1 :: _ => is_ascii_digit b1 && (b0 =? 48) | [] => false end in
      if leading_zero then Done (Err "multi-digit number cannot start with zero") else
      '(num, remainder) ← eat_digits 0 s;
      if 255 <? num then Done (Err "digit cannot be larger than 255") else Done (Ok (num, remainder))
  end.

(** [maybe(s, b'-')] and what follows it. *)
Definition parse_pre_release (s : list Z) : outcome (result (option Meta.t * list Z) string) :=
  let '(dash, s) := maybe s 45 in
  if negb dash then Done (Ok (None, s)) else
  let '(alpha, remainder) := maybe_token s (lit "alpha") in
  if alpha then
    match eat remainder 46 "expected `.` after `-alpha`" with
    | Err e => Done (Err e)
    | Ok s =>
        r ← eat_u8 s "expected digit after `-alpha.`";
        match r with
        | Err e => Done (Err e)
        | Ok (build, s) =>
            if Meta.MAX_VALUE <? build then Done (Err "`-alpha` build number is larger than 63")
            else Done (Ok (Some (Meta.Alpha build), s))
        end
    end
  else
  let '(rc, remainder) := maybe_token s (lit "rc") in
  if rc then
    match eat remainder 46 "expected `.` after `-rc`" with
    | Err e => Done (Err e)
    | Ok s =>
        r ← eat_u8 s "expected digit after `-rc.`";
        match r with
        | Err e => Done (Err e)
        | Ok (build, s) =>
            if Meta.MAX_VALUE <? build then Done (Err "`-rc` build number is larger than 63")
            else Done (Ok (Some (Meta.Rc build), s))
        end
    end
  else Done (Err "expected `alpha` or `rc` after `-`").

(** [maybe(s, b'+')] and what follows it. *)
Definition parse_build (meta : option Meta.t) (s : list Z) : result (option Meta.t * list Z) string :=
  let '(plus, s) := maybe s 43 in
  if negb plus then Ok (meta, s) else
  match meta with
  | Some (Meta.Alpha build) =>
      let '(dev, remainder) := maybe_token s (lit "dev") in
      if dev then Ok (Some (Meta.DevAlpha build None), remainder)
      else if bool_decide (s = []) then Err "expected `dev` after `+`"
      else Ok (Some (Meta.DevAlpha build (Some s)), [])
  | Some _ => Err "unexpected `-rc` with `+dev`"
  | None => Err "unexpected `+dev` without `-alpha`"
  end.

Definition try_parse (version_string : list Z) : outcome (result t string) :=
  r ← eat_u8 version_string "expected major version number";
  match r with Err e => Done (Err e) | Ok (major, s) =>
  match eat s 46 "expected `.` after major version number" with Err e => Done (Err e) | Ok s =>
  r ← eat_u8 s "expected minor version number";
  match r with Err e => Done (Err e) | Ok (minor, s) =>
  match eat s 46 "expected `.` after minor version number" with Err e => Done (Err e) | Ok s =>
  r ← eat_u8 s "expected patch version number";
  match r with Err e => Done (Err e) | Ok (patch, s) =>
  r ← parse_pre_release s;
  match r with Err e => Done (Err e) | Ok (meta, s) =>
  match parse_build meta s with Err e => Done (Err e) | Ok (meta, s) =>
  if negb (bool_decide (s = [])) then Done (Err "expected end of string")
  else Done (Ok (Mk major minor patch meta))
  end end end end end end end.

(** [parse]: the program does not compile with a version that cannot be parsed. *)
Definition parse (version_string : list Z) : outcome t :=
  r ← try_parse version_string;
  match r with Ok version => Done version | Err _ => Panic end.

End Parsing.

End CrateVersion.

(** ** Round trips *)

Definition meta_u6 (meta : Meta.t) : Prop :=
  match meta with Meta.Rc v | Meta.Alpha v | Meta.DevAlpha v _ => 0 <= v <= Meta.MAX_VALUE end.
Definition version_ok (v : CrateVersion.t) : Prop :=
  is_u8 (CrateVersion.major v) /\ is_u8 (CrateVersion.minor v) /\ is_u8 (CrateVersion.patch v)
  /\ match CrateVersion.meta v with Some meta => meta_u6 meta | None => True end.

(** The commit hash stays behind. *)
Definition strip_commit (meta : Meta.t) : Meta.t :=
  match meta with Meta.DevAlpha alpha _ => Meta.DevAlpha alpha None | meta => meta end.
Definition on_the_wire (v : CrateVersion.t) : CrateVersion.t :=
  CrateVersion.Mk (CrateVersion.major v) (CrateVersion.minor v) (CrateVersion.patch v) (strip_commit <$> CrateVersion.meta v).

Lemma from_to_byte meta : meta_u6 meta -> Meta.from_byte (Meta.to_byte meta) = Some (strip_commit meta).
Proof.
  assert (forall v tag, 0 <= v <= 63 -> tag ∈ [64; 128; 192] -> Z.land (Z.lor v tag) 192 = tag /\ Z.land (Z.lor v tag) 63 = v) as Hbits.
  { intros v tag Hv Htag. rewrite !Z.land_lor_distr_l.
    assert (Z.land v 63 = v) as -> by (change 63 with (Z.ones 6); rewrite Z.land_ones by lia; apply Z.mod_small; lia).
    assert (Z.land v 192 = 0) as ->.
    { replace v with (Z.land v 63) at 1; [by rewrite <- Z.land_assoc, Z.land_0_r|].
      change 63 with (Z.ones 6). rewrite Z.land_ones by lia. apply Z.mod_small. lia. }
    rewrite !elem_of_cons, elem_of_nil in Htag. destruct Htag as [->|[->|[->|[]]]]; (split; [done|apply Z.lor_0_r]). }
  intros Hm. destruct meta as [v|v|v commit]; cbn in Hm; unfold Meta.from_byte, Meta.to_byte, Meta.TAG_MASK, Meta.VALUE_MASK;
    [destruct (Hbits v Meta.RC Hm) as [-> ->]|destruct (Hbits v Meta.ALPHA Hm) as [-> ->]|destruct (Hbits v Meta.DEV_ALPHA Hm) as [-> ->]];
    (done || set_solver).
Qed.

Lemma from_to_bytes v : version_ok v -> CrateVersion.from_bytes (CrateVersion.to_bytes v) = on_the_wire v.
Proof.
  intros (_ & _ & _ & Hm). unfold CrateVersion.from_bytes, CrateVersion.to_bytes, on_the_wire. f_equal.
  destruct (CrateVersion.meta v) as [meta|]; cbn; [by apply from_to_byte|done].
Qed.

(** *** Text *)

Definition u8_digits (n : Z) : list Z :=
  if n <? 10 then [n] else if n <? 100 then [n / 10; n mod 10] else [n / 100; n / 10 mod 10; n mod 10].

Lemma fmt_u8 n : is_u8 n -> fmt_u64 n = (fun d => 48 + d) <$> u8_digits n.
Proof.
  intros Hn. assert (forallb (fun k => bool_decide (fmt_u64 (Z.of_nat k) = (fun d => 48 + d) <$> u8_digits (Z.of_nat k))) (seq 0 256) = true) as Hall
    by (vm_compute; reflexivity).
  rewrite forallb_forall in Hall. specialize (Hall (Z.to_nat n)). unfold is_u8 in Hn. rewrite Z2Nat.id in Hall by lia.
  apply (bool_decide_unpack _), Is_true_eq_left, Hall. apply in_seq. lia.
Qed.

Section Parsing.

Context (overflow_checks : bool).

Definition no_digit (s : list Z) : Prop := match s with b :: _ => CrateVersion.is_ascii_digit b = false | [] => True end.

Lemma eat_digits_none num s : no_digit s -> CrateVersion.eat_digits overflow_checks num s = Done (num, s).
Proof. destruct s as [|b s]; [done|]. cbn. by intros ->. Qed.

Lemma eat_digits_cons num d s : 0 <= d < 10 -> 0 <= num <= 255 ->
  CrateVersion.eat_digits overflow_checks num (48 + d :: s) = CrateVersion.eat_digits overflow_checks (num * 10 + d) s.
Proof.
  intros Hd Hn. cbn [CrateVersion.eat_digits]. unfold CrateVersion.is_ascii_digit.
  rewrite (proj2 (Z.leb_le 48 (48 + d))), (proj2 (Z.leb_le (48 + d) 57)) by lia. cbn [andb].
  rewrite arith_u64_done by int_lia. cbn [mbind outcome_bind]. rewrite arith_u64_done by int_lia. cbn [mbind outcome_bind].
  f_equal. lia.
Qed.

Lemma eat_u8_ok n s msg : is_u8 n -> no_digit s -> CrateVersion.eat_u8 overflow_checks (fmt_u64 n ++ s) msg = Done (Ok (n, s)).
Proof.
  intros Hn Hs. rewrite fmt_u8 by done. unfold is_u8, u8_digits in *.
  assert (n / 10 / 10 = n / 100) as Hdiv by (rewrite Z.div_div by lia; done).
  pose proof (Z.div_mod n 10). pose proof (Z.div_mod (n / 10) 10). pose proof (Z.mod_pos_bound n 10). pose proof (Z.mod_pos_bound (n / 10) 10).
  repeat case_match; rewrite ?Z.ltb_lt, ?Z.ltb_ge in *; cbn [fmap list_fmap app]; unfold CrateVersion.eat_u8;
    [assert (match s with b1 :: _ => CrateVersion.is_ascii_digit b1 && (48 + n =? 48) | [] => false end = false) as ->
       by (destruct s as [|b s]; [done|]; cbn in Hs; by rewrite Hs)
    |rewrite (proj2 (Z.eqb_neq (48 + _) 48)), andb_false_r by lia..];
    rewrite !eat_digits_cons by lia; rewrite eat_digits_none by done; cbn [mbind outcome_bind];
    (match goal with |- context [255 <? ?z] => replace z with n by lia end); rewrite (proj2 (Z.ltb_ge 255 n)) by lia; done.
Qed.

Lemma as_bytes_ascii s : Forall (fun c => 0 <= c < 128) s -> as_bytes s = s.
Proof.
  unfold as_bytes. induction 1 as [|c s Hc _ IH]; [done|]. cbn [mbind list_bind]. rewrite IH. unfold encode_utf8.
  by rewrite (proj2 (Z.ltb_lt c 128)) by lia.
Qed.

Lemma as_bytes_u8 n : is_u8 n -> as_bytes (fmt_u64 n) = fmt_u64 n.
Proof.
  intros Hn. apply as_bytes_ascii. rewrite fmt_u8 by done. unfold is_u8, u8_digits in *. rewrite Forall_fmap.
  pose proof (Z.div_mod n 10). pose proof (Z.div_mod (n / 10) 10). pose proof (Z.mod_pos_bound n 10). pose proof (Z.mod_pos_bound (n / 10) 10).
  assert (n / 10 / 10 = n / 100) by (rewrite Z.div_div by lia; done).
  repeat case_match; rewrite ?Z.ltb_lt, ?Z.ltb_ge in *; repeat (constructor; [cbn; lia|]); constructor.
Qed.

(** A commit hash that can be told from [dev]. *)
Definition commit_ok (meta : Meta.t) : Prop :=
  match meta with
  | Meta.DevAlpha _ (Some commit) => commit <> [] /\ take 3 commit <> lit "dev"
      /\ exists s, commit = as_bytes s /\ Forall (fun c => is_char c = true) s
  | _ => True
  end.

Definition meta_bytes (meta : Meta.t) : list Z :=
  match meta with
  | Meta.Rc v => lit "-rc." ++ fmt_u64 v
  | Meta.Alpha v => lit "-alpha." ++ fmt_u64 v
  | Meta.DevAlpha v commit => lit "-alpha." ++ fmt_u64 v ++ 43 :: default (lit "dev") commit
  end.

Lemma as_bytes_meta meta : meta_u6 meta -> commit_ok meta -> as_bytes (Meta.to_string meta) = meta_bytes meta.
Proof.
  assert (forall v, 0 <= v <= Meta.MAX_VALUE -> is_u8 v) as Hu8 by (unfold is_u8, Meta.MAX_VALUE, Meta.VALUE_MASK; lia).
  destruct meta as [v|v|v [commit|]]; cbn [meta_u6 commit_ok Meta.to_string meta_bytes]; intros Hv Hc.
  - by rewrite as_bytes_app, as_bytes_u8 by auto.
  - by rewrite as_bytes_app, as_bytes_u8 by auto.
  - destruct Hc as (_ & _ & s & -> & Hs). cbn [mbind option_bind]. rewrite from_utf8_as_bytes by done.
    by rewrite !as_bytes_app, as_bytes_u8 by auto.
  - cbn [mbind option_bind]. by rewrite !as_bytes_app, as_bytes_u8 by auto.
Qed.

Lemma maybe_token_app token s : CrateVersion.maybe_token (token ++ s) token = (true, s).
Proof.
  unfold CrateVersion.maybe_token. rewrite length_app, (proj2 (Nat.ltb_ge _ _)) by lia.
  by rewrite take_app_length, drop_app_length, bool_decide_true.
Qed.

Lemma maybe_token_head b c s token : b <> c -> CrateVersion.maybe_token (b :: s) (c :: token) = (false, b :: s).
Proof.
  intros Hbc. unfold CrateVersion.maybe_token. case_match; [done|]. rewrite bool_decide_false; [done|]. cbn. congruence.
Qed.

Lemma parse_pre_release_ok v tag rest mk : 0 <= v <= Meta.MAX_VALUE -> no_digit rest ->
  (tag = lit "-alpha." /\ mk = Meta.Alpha \/ tag = lit "-rc." /\ mk = Meta.Rc) ->
  CrateVersion.parse_pre_release overflow_checks (tag ++ fmt_u64 v ++ rest) = Done (Ok (Some (mk v), rest)).
Proof.
  intros Hv Hrest Htag. assert (is_u8 v) as Hu8 by (unfold is_u8, Meta.MAX_VALUE, Meta.VALUE_MASK in *; lia).
  unfold CrateVersion.parse_pre_release. destruct Htag as [[-> ->]|[-> ->]].
  - change (lit "-alpha." ++ fmt_u64 v ++ rest) with (45 :: (lit "alpha" ++ 46 :: fmt_u64 v ++ rest)).
    cbn [CrateVersion.maybe]. rewrite Z.eqb_refl. cbn [negb]. rewrite maybe_token_app. cbn [CrateVersion.eat]. rewrite Z.eqb_refl.
    rewrite eat_u8_ok by done. cbn [mbind outcome_bind]. by rewrite (proj2 (Z.ltb_ge _ _)) by lia.
  - change (lit "-rc." ++ fmt_u64 v ++ rest) with (45 :: (lit "rc" ++ 46 :: fmt_u64 v ++ rest)).
    cbn [CrateVersion.maybe]. rewrite Z.eqb_refl. cbn [negb]. change (lit "alpha") with (97 :: lit "lpha").
    change (lit "rc" ++ 46 :: fmt_u64 v ++ rest) with (114 :: (lit "c" ++ 46 :: fmt_u64 v ++ rest)).
    rewrite maybe_token_head by done. change (114 :: (lit "c" ++ 46 :: fmt_u64 v ++ rest)) with (lit "rc" ++ 46 :: fmt_u64 v ++ rest).
    rewrite maybe_token_app. cbn [CrateVersion.eat]. rewrite Z.eqb_refl.
    rewrite eat_u8_ok by done. cbn [mbind outcome_bind]. by rewrite (proj2 (Z.ltb_ge _ _)) by lia.
Qed.

Lemma parse_meta_ok meta : match meta with Some meta => meta_u6 meta /\ commit_ok meta | None => True end ->
  exists pre rest, CrateVersion.parse_pre_release overflow_checks (from_option meta_bytes [] meta) = Done (Ok (pre, rest))
    /\ CrateVersion.parse_build pre rest = Ok (meta, []).
Proof.
  destruct meta as [[v|v|v commit]|]; [intros [Hv Hc]..|by exists None, []]; cbn [from_option meta_bytes meta_u6 commit_ok] in *.
  - exists (Some (Meta.Rc v)), []. rewrite <- (app_nil_r (fmt_u64 v)). split; [|done]. apply parse_pre_release_ok; auto.
  - exists (Some (Meta.Alpha v)), []. rewrite <- (app_nil_r (fmt_u64 v)). split; [|done]. apply parse_pre_release_ok; auto.
  - eexists (Some (Meta.Alpha v)), _. split; [apply parse_pre_release_ok; auto|]; [done|].
    destruct commit as [commit|]; [|done]. destruct Hc as (Hne & Hdev & _).
    unfold CrateVersion.parse_build. cbn [CrateVersion.maybe default from_option id]. rewrite Z.eqb_refl. cbn [negb].
    unfold CrateVersion.maybe_token. change (length (lit "dev")) with 3%nat.
    rewrite (bool_decide_false (take 3 commit = _)), bool_decide_false by done. by destruct (length commit <? 3)%nat.
Qed.

(** C28.  The text of a version is read back as that version, metadata included, and the four bytes
    that a stream carries as that version without its commit hash.  (The parts are in range, and a
    commit hash is not empty and does not begin with [dev], which would be read as no hash, or
    refused.) *)
Theorem crate_version_roundtrip v (Hok : version_ok v) (Hcommit : from_option commit_ok True (CrateVersion.meta v)) :
  CrateVersion.try_parse overflow_checks (as_bytes (CrateVersion.to_string v)) = Done (Ok v)
  /\ CrateVersion.from_bytes (CrateVersion.to_bytes v) = on_the_wire v.
Proof.
  split; [|by apply from_to_bytes]. destruct Hok as (H1 & H2 & H3 & Hm). destruct v as [major minor patch meta].
  unfold CrateVersion.to_string. cbn [CrateVersion.major CrateVersion.minor CrateVersion.patch CrateVersion.meta] in *.
  rewrite !as_bytes_app, !as_bytes_u8 by done.
  assert (as_bytes (from_option Meta.to_string [] meta) = from_option meta_bytes [] meta) as -> by (destruct meta; [by apply as_bytes_meta|done]).
  destruct (parse_meta_ok meta) as (pre & rest & Hpre & Hbuild); [by destruct meta|].
  assert (no_digit (from_option meta_bytes [] meta)) as Hno by (by destruct meta as [[]|]).
  unfold CrateVersion.try_parse. change (as_bytes (lit ".")) with [46]. cbn [app].
  rewrite eat_u8_ok by done. cbn [mbind outcome_bind CrateVersion.eat]. rewrite Z.eqb_refl.
  rewrite eat_u8_ok by done. cbn [mbind outcome_bind CrateVersion.eat]. rewrite Z.eqb_refl.
  rewrite eat_u8_ok by done. cbn [mbind outcome_bind]. rewrite Hpre. cbn [mbind outcome_bind]. by rewrite Hbuild.
Qed.

Lemma crate_version_compatible a b : CrateVersion.is_compatible_with a b = CrateVersion.is_compatible_with b a.
Proof.
  unfold CrateVersion.is_compatible_with. destruct a as [ma ia pa ta], b as [mb ib pb tb]. cbn.
  assert (forall x y : option Meta.t, bool_decide (x = y) = bool_decide (y = x)) as Hsym by (intros; apply bool_decide_ext; naive_solver).
  set (ca := match ta with Some (Meta.Rc _) => _ | _ => _ end). set (cb := match tb with Some (Meta.Rc _) => _ | _ => _ end).
  assert (ca = cb) as -> by (subst ca cb; destruct ta as [[]|], tb as [[]|]; try done; apply Hsym).
  rewrite (Z.eqb_sym mb ma), (Z.eqb_sym ib ia). destruct (negb cb); [done|].
  destruct (Z.eqb_spec ma mb) as [->|]; [done|]. by destruct (ma =? 0), (mb =? 0).
Qed.

End Parsing.

(** Parts without any digit are read as zero, and a number that does not fit [u64] wraps around
    when overflow is not checked. *)
Example parts_without_digits : CrateVersion.try_parse true (lit "..-rc.1") = Done (Ok (CrateVersion.Mk 0 0 0 (Some (Meta.Rc 1)))).
Proof. vm_compute. reflexivity. Qed.
Example wrapped_number : CrateVersion.try_parse false (lit "18446744073709551617.2.3") = Done (Ok (CrateVersion.new 1 2 3))
  /\ CrateVersion.try_parse true (lit "18446744073709551617.2.3") = Panic.
Proof. split; vm_compute; reflexivity. Qed.
Example devilish_hash : CrateVersion.try_parse true (lit "1.2.3-alpha.4+devil") = Done (Err "expected end of string"%string).
Proof. vm_compute. reflexivity. Qed.

Lemma crate_version_roundtrip_witness :
  let v := CrateVersion.Mk 12 0 255 (Some (Meta.DevAlpha 63 (Some (lit "aab0b4e")))) in
  CrateVersion.try_parse true (as_bytes (CrateVersion.to_string v)) = Done (Ok v)
  /\ CrateVersion.from_bytes (CrateVersion.to_bytes v) = CrateVersion.Mk 12 0 255 (Some (Meta.DevAlpha 63 None)).
Proof.
  apply (crate_version_roundtrip true (CrateVersion.Mk 12 0 255 (Some (Meta.DevAlpha 63 (Some (lit "aab0b4e")))))).
  - split_and!; cbn; unfold is_u8, Meta.MAX_VALUE, Meta.VALUE_MASK; lia.
  - split_and!; [done|done|]. exists (lit "aab0b4e"). split; [vm_compute; reflexivity|]. repeat constructor.
Defined.
