(* ===== verification/DlrFrames.v ===== *)
(** * Frames of the log format

    [store/dl_log_encoding/src/dlr/frames.rs]: the opening frame of a stream, the header of a
    message, and the closing frame; with the errors of [errors.rs] and [utils/dl_span/src/lib.rs].

    Bytes are lists of integers; [to_dlr_bytes] gives the bytes that it appends.  The version of
    the running program ([CrateVersion::LOCAL], from the build) is a parameter. *)

From stdpp Require Import strings.
From S2P Require Import Prelude Ints Tuid Text CrateVersion.

(** The operator [?]. *)
Notation "'let?' x ':=' r 'in' k" := (match r with Ok x => k | Err e => Err e end)
  (at level 200, x name, r at level 100, k at level 200).

Definition bytes_ok (l : list Z) : Prop := Forall is_u8 l.

(** ** Little-endian integers *)

Module LittleEndian.

(** [to_le_bytes] of an integer of [n] bytes, and [from_le_bytes]. *)
Fixpoint to_bytes (n : nat) (z : Z) : list Z :=
  match n with
  | O => []
  | S n => z mod 256 :: to_bytes n (z / 256)
  end.

Fixpoint from_bytes (l : list Z) : Z :=
  match l with
  | [] => 0
  | b :: l => b + 256 * from_bytes l
  end.

Lemma length_to_bytes n z : length (to_bytes n z) = n.
Proof. revert z. induction n as [|n IH]; intros z; [done|]. cbn. by rewrite IH. Qed.

Lemma to_bytes_ok n z : bytes_ok (to_bytes n z).
Proof.
  revert z. induction n as [|n IH]; intros z; [constructor|]. cbn. constructor; [|apply IH]. unfold is_u8. pose proof (Z.mod_pos_bound z 256). lia.
Qed.

Lemma le_from_to_bytes n z : 0 <= z < 256 ^ Z.of_nat n -> from_bytes (to_bytes n z) = z.
Proof.
  revert z. induction n as [|n IH]; intros z Hz; cbn; [cbn in Hz; lia|].
  rewrite Nat2Z.inj_succ, Z.pow_succ_r in Hz by lia. pose proof (Z.div_mod z 256).
  rewrite IH; [lia|]. split; [apply Z.div_pos; lia|apply Z.div_lt_upper_bound; lia].
Qed.

Lemma to_from_bytes l : bytes_ok l -> to_bytes (length l) (from_bytes l) = l.
Proof.
  induction 1 as [|b l Hb _ IH]; [done|]. cbn. unfold is_u8 in Hb.
  replace (b + 256 * from_bytes l) with (b + from_bytes l * 256) by lia.
  rewrite Z.mod_add, Z.div_add, Z.mod_small, Z.div_small by lia. f_equal. exact IH.
Qed.

Lemma from_bytes_range l : bytes_ok l -> 0 <= from_bytes l < 256 ^ Z.of_nat (length l).
Proof.
  induction 1 as [|b l Hb _ IH]; cbn [from_bytes length]; [done|]. rewrite Nat2Z.inj_succ, Z.pow_succ_r by lia. unfold is_u8 in Hb. lia.
Qed.

End LittleEndian.

(** ** Errors *)

Inductive OptionsError :=
| UnknownReservedBytes
| UnknownCompression (compression : Z)
| RemovedMsgPackSerializer
| UnknownSerializer (serializer : Z).

(** What [FrameDecoding] says, without the formatting. *)
Inductive FrameError :=
| InvalidLength (expected got : nat)
| InvalidFourCC (fourcc : list Z)
| InvalidIdentifier (identifier : list Z)
| UnknownKind (kind : Z)
| FileTooSmall
| SpanExceedsFile (start end_ file_len : Z).

(** [std::io::Error], by its kind. *)
Inductive IoError :=
| UnexpectedEof
| InvalidInput
| OtherIoError (e : Z).

(** The errors of frames; [ProtobufDecode] is the [prost] crate's, of any of its messages, and
    [OtherCodecError] stands for the variants that only the application level gives. *)
Inductive CodecError :=
| InvalidOptions (e : OptionsError)
| IncompatibleDalaranVersion (file local : CrateVersion.t)
| NotAnRrd (actual_fourcc : list Z)
| OldRrdVersion
| FrameDecoding (e : FrameError)
| CrcMismatch (expected got : Z)
| ProtobufDecode
| StoreIdMissingApplicationId
| Io (e : IoError)
| ChunkNotInManifest (chunk_id : ChunkId.t)
| OtherCodecError (e : Z).

(** ** Spans *)

Module Span.

Record t := Mk { start : Z; len : Z }.

Definition from_start_len (start len : Z) : t := Mk start len.
(** On [u64]. *)
Definition end_ (overflow_checks : bool) (self : t) : outcome Z := arith_u64 overflow_checks (start self + len self).

End Span.

(** ** Options *)

Definition DLR_FOURCC : list Z := lit "RRF2".
Definition OLD_DLR_FOURCC : list (list Z) := [lit "RRF0"; lit "RRF1"].

Inductive Serializer := Protobuf.
Inductive Compression := Off | LZ4.

Module EncodingOptions.

Record t := Mk { compression : Compression; serializer : Serializer }.

Definition ENCODED_SIZE_BYTES : nat := 4.
Definition PROTOBUF_COMPRESSED : t := Mk LZ4 Protobuf.
Definition PROTOBUF_UNCOMPRESSED : t := Mk Off Protobuf.

Definition to_dlr_bytes (self : t) : list Z :=
  [match compression self with Off => 0 | LZ4 => 1 end; match serializer self with Protobuf => 2 end; 0; 0].

Definition from_dlr_bytes (data : list Z) : result t CodecError :=
  match data with
  | [compression; serializer; 0; 0] =>
      let? compression :=
        (if compression =? 0 then Ok Off else if compression =? 1 then Ok LZ4
         else Err (InvalidOptions (UnknownCompression compression))) in
      let? serializer :=
        (if serializer =? 1 then Err (InvalidOptions RemovedMsgPackSerializer)
         else if serializer =? 2 then Ok Protobuf
         else Err (InvalidOptions (UnknownSerializer serializer))) in
      Ok (Mk compression serializer)
  | _ => Err (InvalidOptions UnknownReservedBytes)
  end.

End EncodingOptions.

(** ** The opening frame *)

(** [CrateVersion::LOCAL]. *)
Class LocalVersion := LOCAL : CrateVersion.t.

Module StreamHeader.

Record t := Mk { fourcc : list Z; version : list Z; options : EncodingOptions.t }.

Definition ENCODED_SIZE_BYTES : nat := 12.

Definition to_version_and_options `{LocalVersion} (self : t)
    : result (CrateVersion.t * EncodingOptions.t) CodecError :=
  let encoded_version :=
    if bool_decide (version self = [0; 0; 0; 0]) then CrateVersion.new 0 2 0 else CrateVersion.from_bytes (version self) in
  let is_ancient_upstream_file :=
    (CrateVersion.major encoded_version =? 0) && (CrateVersion.minor encoded_version <? 23)
    && CrateVersion.lt LOCAL encoded_version in
  if is_ancient_upstream_file then Err (IncompatibleDalaranVersion encoded_version LOCAL)
  else Ok (CrateVersion.from_bytes (version self), options self).

(** With the assertion on the length. *)
Definition to_dlr_bytes (self : t) : outcome (list Z) :=
  let out := fourcc self ++ version self ++ EncodingOptions.to_dlr_bytes (options self) in
  if (length out =? ENCODED_SIZE_BYTES)%nat then Done out else Panic.

Definition from_dlr_bytes (data : list Z) : result t CodecError :=
  if negb (length data =? ENCODED_SIZE_BYTES)%nat
  then Err (FrameDecoding (InvalidLength ENCODED_SIZE_BYTES (length data))) else
  let fourcc := take 4 data in
  if bool_decide (fourcc ∈ OLD_DLR_FOURCC) then Err OldRrdVersion
  else if negb (bool_decide (fourcc = DLR_FOURCC)) then Err (NotAnRrd fourcc) else
  let version := take 4 (drop 4 data) in
  let? options := EncodingOptions.from_dlr_bytes (drop 8 data) in
  Ok (Mk fourcc version options).

End StreamHeader.

(** ** The closing frame *)

(** [xxh32] of the [xxhash] crate. *)
Class Xxh32 := xxh32 : list Z -> Z -> Z.

Module StreamFooterEntry.

Record t := Mk {
  dlr_footer_byte_span_from_start_excluding_header : Span.t;
  crc_excluding_header : Z;
}.

End StreamFooterEntry.

Module StreamFooter.

Record t := Mk { fourcc : list Z; identifier : list Z; entries : list StreamFooterEntry.t }.

Definition ENCODED_SIZE_BYTES_IGNORING_ENTRIES : nat := 12.
Definition ENCODED_SIZE_BYTES_SINGLE_ENTRY : nat := 20.
Definition ENCODED_SIZE_BYTES : nat := ENCODED_SIZE_BYTES_IGNORING_ENTRIES + ENCODED_SIZE_BYTES_SINGLE_ENTRY.
Definition CRC_SEED : Z := 7850921.
Definition DLR_IDENTIFIER : list Z := lit "FOOT".

Definition new (span : Span.t) (crc_excluding_header : Z) : t :=
  Mk DLR_FOURCC DLR_IDENTIFIER [StreamFooterEntry.Mk span crc_excluding_header].

Definition compute_crc `{Xxh32} (dlr_footer_bytes_excluding_header : list Z) : Z :=
  xxh32 dlr_footer_bytes_excluding_header CRC_SEED.

Definition from_dlr_footer_bytes `{Xxh32} (offset : Z) (dlr_footer_bytes : list Z) : t :=
  let crc_excluding_header := compute_crc dlr_footer_bytes in
  let span := Span.Mk offset (Z.of_nat (length dlr_footer_bytes)) in
  Mk DLR_FOURCC DLR_IDENTIFIER [StreamFooterEntry.Mk span crc_excluding_header].

Definition entry_bytes (entry : StreamFooterEntry.t) : list Z :=
  let span := StreamFooterEntry.dlr_footer_byte_span_from_start_excluding_header entry in
  LittleEndian.to_bytes 8 (Span.start span) ++ LittleEndian.to_bytes 8 (Span.len span)
  ++ LittleEndian.to_bytes 4 (StreamFooterEntry.crc_excluding_header entry).

(** [entries.len() as u32] wraps; the assertion lets no other number than one pass. *)
Definition to_dlr_bytes (self : t) : outcome (list Z) :=
  let num_dlr_footers := Z.of_nat (length (entries self)) mod 2 ^ 32 in
  let out := (entries self ≫= entry_bytes) ++ fourcc self ++ identifier self
    ++ LittleEndian.to_bytes 4 num_dlr_footers in
  if (length out =? ENCODED_SIZE_BYTES)%nat then Done out else Panic.

(** [data[a..b]]. *)
Definition slice (data : list Z) (a b : nat) : outcome (list Z) :=
  if (b <=? length data)%nat then Done (take (b - a) (drop a data)) else Panic.

(** The closure over [0..num_dlr_footers], that moves [pos]. *)
Fixpoint read_entries (n : nat) (dynamic_data : list Z) (pos : nat) : outcome (list StreamFooterEntry.t) :=
  match n with
  | O => Done []
  | S n =>
      start ← slice dynamic_data pos (pos + 8);
      len ← slice dynamic_data (pos + 8) (pos + 16);
      crc ← slice dynamic_data (pos + 16) (pos + 20);
      let entry := StreamFooterEntry.Mk (Span.Mk (LittleEndian.from_bytes start) (LittleEndian.from_bytes len))
                     (LittleEndian.from_bytes crc) in
      entries ← read_entries n dynamic_data (pos + ENCODED_SIZE_BYTES_SINGLE_ENTRY);
      Done (entry :: entries)
  end.

Definition from_dlr_bytes (data : list Z) : outcome (result t CodecError) :=
  if (length data <? ENCODED_SIZE_BYTES)%nat
  then Done (Err (FrameDecoding (InvalidLength ENCODED_SIZE_BYTES (length data)))) else
  let fixed_data := drop (length data - ENCODED_SIZE_BYTES_IGNORING_ENTRIES) data in
  let fourcc := take 4 fixed_data in
  if negb (bool_decide (fourcc = DLR_FOURCC)) then Done (Err (FrameDecoding (InvalidFourCC fourcc))) else
  let identifier := take 4 (drop 4 fixed_data) in
  if negb (bool_decide (identifier = DLR_IDENTIFIER)) then Done (Err (FrameDecoding (InvalidIdentifier identifier))) else
  let num_dlr_footers := LittleEndian.from_bytes (take 4 (drop 8 fixed_data)) in
  let dynamic_data := drop (length data - ENCODED_SIZE_BYTES) data in
  entries ← read_entries (Z.to_nat num_dlr_footers) dynamic_data 0;
  Done (Ok (Mk fourcc identifier entries)).

End StreamFooter.

(** ** Messages *)

Inductive MessageKind := End | SetStoreInfo | ArrowMsg | BlueprintActivationCommand.

#[export] Instance message_kind_eq_dec : EqDecision MessageKind.
Proof. solve_decision. Defined.

(** [kind as u64]. *)
Definition kind_as_u64 (kind : MessageKind) : Z :=
  match kind with End => 0 | SetStoreInfo => 1 | ArrowMsg => 2 | BlueprintActivationCommand => 3 end.

Module MessageHeader.

Record t := Mk { kind : MessageKind; len : Z }.

Definition ENCODED_SIZE_BYTES : nat := 16.

Definition to_dlr_bytes (self : t) : list Z :=
  LittleEndian.to_bytes 8 (kind_as_u64 (kind self)) ++ LittleEndian.to_bytes 8 (len self).

Definition from_dlr_bytes (data : list Z) : result t CodecError :=
  if negb (length data =? ENCODED_SIZE_BYTES)%nat
  then Err (FrameDecoding (InvalidLength ENCODED_SIZE_BYTES (length data))) else
  let kind := LittleEndian.from_bytes (take 8 data) in
  let? kind :=
    (if kind =? 0 then Ok End else if kind =? 1 then Ok SetStoreInfo else if kind =? 2 then Ok ArrowMsg
     else if kind =? 3 then Ok BlueprintActivationCommand
     else Err (FrameDecoding (UnknownKind kind))) in
  let len := LittleEndian.from_bytes (take 8 (drop 8 data)) in
  Ok (Mk kind len).

End MessageHeader.

(** ** Round trips *)

Lemma options_roundtrip options : EncodingOptions.from_dlr_bytes (EncodingOptions.to_dlr_bytes options) = Ok options.
Proof. by destruct options as [[] []]. Qed.

Lemma options_canonical data options : EncodingOptions.from_dlr_bytes data = Ok options -> EncodingOptions.to_dlr_bytes options = data.
Proof.
  intros H. destruct data as [|c [|s [|[] [|[] []]]]]; try done. cbn in H.
  destruct (Z.eqb_spec c 0) as [->|]; [|destruct (Z.eqb_spec c 1) as [->|]; [|done]];
    (destruct (Z.eqb_spec s 1) as [->|]; [done|]; destruct (Z.eqb_spec s 2) as [->|]; [|done]; by injection H as <-).
Qed.

Lemma stream_header_roundtrip h : StreamHeader.fourcc h = DLR_FOURCC -> length (StreamHeader.version h) = 4%nat ->
  exists data, StreamHeader.to_dlr_bytes h = Done data /\ length data = 12%nat /\ StreamHeader.from_dlr_bytes data = Ok h.
Proof.
  destruct h as [fourcc version options]. cbn. intros -> Hv.
  destruct version as [|v0 [|v1 [|v2 [|v3 []]]]]; try done. eexists. split; [done|]. split; [done|].
  unfold StreamHeader.from_dlr_bytes. cbn [negb length app Nat.eqb take drop lit StreamHeader.ENCODED_SIZE_BYTES].
  by destruct options as [[] []].
Qed.

Lemma stream_header_canonical data h : StreamHeader.from_dlr_bytes data = Ok h -> StreamHeader.to_dlr_bytes h = Done data.
Proof.
  unfold StreamHeader.from_dlr_bytes. destruct (Nat.eqb_spec (length data) StreamHeader.ENCODED_SIZE_BYTES) as [Hl|]; cbn [negb]; [|done].
  repeat case_bool_decide; cbn [negb]; try done.
  destruct (EncodingOptions.from_dlr_bytes (drop 8 data)) as [options|] eqn:Ho; [|done]. intros [= <-].
  apply options_canonical in Ho. unfold StreamHeader.to_dlr_bytes. cbn [StreamHeader.fourcc StreamHeader.version StreamHeader.options].
  rewrite Ho. assert (take 4 data ++ take 4 (drop 4 data) ++ drop 8 data = data) as ->.
  { rewrite <- (take_drop 4 data) at 4. f_equal. rewrite <- (take_drop 4 (drop 4 data)) at 2. by rewrite drop_drop. }
  by rewrite Hl.
Qed.

Lemma kind_roundtrip kind : 0 <= kind_as_u64 kind < 256 ^ 8.
Proof. by destruct kind. Qed.

Lemma message_header_roundtrip h : is_u64 (MessageHeader.len h) ->
  length (MessageHeader.to_dlr_bytes h) = 16%nat /\ MessageHeader.from_dlr_bytes (MessageHeader.to_dlr_bytes h) = Ok h.
Proof.
  destruct h as [kind len]. cbn [MessageHeader.len]. intros Hlen.
  assert (length (MessageHeader.to_dlr_bytes (MessageHeader.Mk kind len)) = 16%nat) as Hl by
    (unfold MessageHeader.to_dlr_bytes; by rewrite length_app, !LittleEndian.length_to_bytes).
  split; [done|]. unfold MessageHeader.from_dlr_bytes. rewrite Hl. cbn [Nat.eqb negb MessageHeader.ENCODED_SIZE_BYTES].
  unfold MessageHeader.to_dlr_bytes. cbn [MessageHeader.kind MessageHeader.len].
  rewrite take_app_length' by (by rewrite LittleEndian.length_to_bytes). rewrite drop_app_length' by (by rewrite LittleEndian.length_to_bytes).
  rewrite (take_ge _ 8) by (by rewrite LittleEndian.length_to_bytes).
  rewrite !LittleEndian.le_from_to_bytes; [|unfold is_u64, u64_max in Hlen; lia|apply kind_roundtrip]. by destruct kind.
Qed.

Lemma message_header_error data e : MessageHeader.from_dlr_bytes data = Err e -> exists frame, e = FrameDecoding frame.
Proof.
  unfold MessageHeader.from_dlr_bytes. destruct (negb _); [intros [= <-]; by eexists|]. repeat case_match; intros [= <-]; simplify_eq; by eexists.
Qed.

Lemma message_header_canonical data h : bytes_ok data -> MessageHeader.from_dlr_bytes data = Ok h ->
  is_u64 (MessageHeader.len h) /\ MessageHeader.to_dlr_bytes h = data.
Proof.
  intros Hok. unfold MessageHeader.from_dlr_bytes.
  destruct (Nat.eqb_spec (length data) MessageHeader.ENCODED_SIZE_BYTES) as [Hl|]; cbn [negb]; [|done]. unfold MessageHeader.ENCODED_SIZE_BYTES in Hl.
  pose proof (Forall_take _ 8 _ Hok) as Hk. pose proof (Forall_drop _ 8 _ Hok) as Hd.
  assert (length (take 8 data) = 8%nat) as Hlk by (rewrite length_take; lia). assert (length (drop 8 data) = 8%nat) as Hld by (rewrite length_drop; lia).
  rewrite (take_ge (drop 8 data)) by lia. set (len := LittleEndian.from_bytes (drop 8 data)).
  assert (is_u64 len) as Hu by (pose proof (LittleEndian.from_bytes_range _ Hd) as Hr; rewrite Hld in Hr; fold len in Hr; unfold is_u64, u64_max; lia).
  assert (forall kind, LittleEndian.from_bytes (take 8 data) = kind_as_u64 kind ->
    is_u64 len /\ MessageHeader.to_dlr_bytes (MessageHeader.Mk kind len) = data) as Hback.
  { intros kind E. split; [done|]. unfold MessageHeader.to_dlr_bytes. cbn [MessageHeader.kind MessageHeader.len].
    pose proof (LittleEndian.to_from_bytes _ Hk) as Hk'. pose proof (LittleEndian.to_from_bytes _ Hd) as Hd'. rewrite Hlk in Hk'. rewrite Hld in Hd'.
    rewrite <- E, Hk'. subst len. rewrite Hd'. apply take_drop. }
  intros H. repeat match type of H with context [if ?x =? ?y then _ else _] => destruct (Z.eqb_spec x y) end;
    try done; injection H as <-; by apply Hback.
Qed.

Definition entry_ok (entry : StreamFooterEntry.t) : Prop :=
  let span := StreamFooterEntry.dlr_footer_byte_span_from_start_excluding_header entry in
  is_u64 (Span.start span) /\ is_u64 (Span.len span) /\ 0 <= StreamFooterEntry.crc_excluding_header entry < 2 ^ 32.

Lemma length_entry entry : length (StreamFooter.entry_bytes entry) = 20%nat.
Proof. unfold StreamFooter.entry_bytes. by rewrite !length_app, !LittleEndian.length_to_bytes. Qed.

Lemma read_entry entry rest : entry_ok entry ->
  StreamFooter.read_entries 1 (StreamFooter.entry_bytes entry ++ rest) 0 = Done [entry].
Proof.
  intros (Hs & Hl & Hc). unfold StreamFooter.read_entries, StreamFooter.slice. rewrite !length_app, length_entry.
  rewrite !(proj2 (Nat.leb_le _ _)) by (cbn; lia). cbn [mbind outcome_bind].
  unfold StreamFooter.entry_bytes. destruct entry as [[start len] crc]. cbn in Hs, Hl, Hc.
  cbn [StreamFooterEntry.dlr_footer_byte_span_from_start_excluding_header StreamFooterEntry.crc_excluding_header Span.start Span.len].
  rewrite <- !app_assoc. change (0 + 8 - 0)%nat with 8%nat. change (0 + 16 - (0 + 8))%nat with 8%nat. change (0 + 20 - (0 + 16))%nat with 4%nat.
  rewrite drop_0, take_app_length' by (by rewrite LittleEndian.length_to_bytes).
  rewrite drop_app_length', take_app_length' by (by rewrite LittleEndian.length_to_bytes).
  change (0 + 16)%nat with (8 + 8)%nat. rewrite <- drop_drop, drop_app_length' by (by rewrite LittleEndian.length_to_bytes).
  rewrite drop_app_length', take_app_length' by (by rewrite LittleEndian.length_to_bytes).
  unfold is_u64, u64_max in *. rewrite !LittleEndian.le_from_to_bytes by lia. done.
Qed.

Lemma stream_footer_roundtrip span crc : entry_ok (StreamFooterEntry.Mk span crc) ->
  exists data, StreamFooter.to_dlr_bytes (StreamFooter.new span crc) = Done data /\ length data = 32%nat
    /\ StreamFooter.from_dlr_bytes data = Done (Ok (StreamFooter.new span crc)).
Proof.
  intros Hok. unfold StreamFooter.to_dlr_bytes. cbn [StreamFooter.new StreamFooter.entries mbind list_bind length StreamFooter.fourcc StreamFooter.identifier].
  rewrite app_nil_r. set (entry := StreamFooterEntry.Mk span crc) in *. set (tail := DLR_FOURCC ++ _).
  assert (tail = lit "RRF2" ++ lit "FOOT" ++ [1; 0; 0; 0]) as Ht by (vm_compute; reflexivity). clearbody tail. subst tail.
  set (data := StreamFooter.entry_bytes entry ++ _). assert (length data = 32%nat) as Hl by (subst data; by rewrite length_app, length_entry).
  exists data. rewrite Hl. split; [done|]. split; [done|]. unfold StreamFooter.from_dlr_bytes. rewrite Hl. cbn [Nat.ltb Nat.leb StreamFooter.ENCODED_SIZE_BYTES].
  change (32 - StreamFooter.ENCODED_SIZE_BYTES_IGNORING_ENTRIES)%nat with 20%nat. change (32 - _)%nat with 0%nat.
  subst data. rewrite drop_app_length' by (by rewrite length_entry).
  change (take 4 (lit "RRF2" ++ lit "FOOT" ++ [1; 0; 0; 0])) with DLR_FOURCC. rewrite bool_decide_true by done. cbn [negb].
  change (take 4 (drop 4 (lit "RRF2" ++ lit "FOOT" ++ [1; 0; 0; 0]))) with StreamFooter.DLR_IDENTIFIER. rewrite bool_decide_true by done. cbn [negb].
  change (Z.to_nat _) with 1%nat. rewrite drop_0. by rewrite read_entry.
Qed.

(** C27.  The three frames of a stream survive being written and read: the header of a stream and of
    a message, and the footer for one entry; and what is read as the header of a stream or a message is, byte for byte, how
    that header is written. *)
Theorem frames_roundtrip :
  (forall h, StreamHeader.fourcc h = DLR_FOURCC -> length (StreamHeader.version h) = 4%nat ->
     exists data, StreamHeader.to_dlr_bytes h = Done data /\ StreamHeader.from_dlr_bytes data = Ok h)
  /\ (forall data h, StreamHeader.from_dlr_bytes data = Ok h -> StreamHeader.to_dlr_bytes h = Done data)
  /\ (forall h, is_u64 (MessageHeader.len h) -> MessageHeader.from_dlr_bytes (MessageHeader.to_dlr_bytes h) = Ok h)
  /\ (forall data h, bytes_ok data -> MessageHeader.from_dlr_bytes data = Ok h -> MessageHeader.to_dlr_bytes h = data)
  /\ (forall span crc, entry_ok (StreamFooterEntry.Mk span crc) ->
     exists data, StreamFooter.to_dlr_bytes (StreamFooter.new span crc) = Done data
       /\ StreamFooter.from_dlr_bytes data = Done (Ok (StreamFooter.new span crc))).
Proof.
  split; [|split; [|split; [|split]]].
  - intros h Hf Hv. destruct (stream_header_roundtrip h Hf Hv) as (data & Hto & _ & Hfrom). by exists data.
  - apply stream_header_canonical.
  - intros h Hh. by apply message_header_roundtrip.
  - intros data h Hd Hh. by apply (message_header_canonical data h Hd).
  - intros span crc Hok. destruct (stream_footer_roundtrip span crc Hok) as (data & Hto & _ & Hfrom). by exists data.
Qed.

Lemma read_entries_short n data pos : (length data < pos + 20)%nat -> StreamFooter.read_entries (S n) data pos = Panic.
Proof.
  intros Hl. cbn [StreamFooter.read_entries]. unfold StreamFooter.slice.
  rewrite (proj2 (Nat.leb_gt (pos + 20) _)) by lia. by destruct (pos + 8 <=? _)%nat, (pos + 16 <=? _)%nat.
Qed.

Lemma read_entries_one n data pos : (pos + 20 <= length data)%nat -> (length data < pos + 40)%nat ->
  match n with
  | O => StreamFooter.read_entries n data pos = Done []
  | S O => exists entry, StreamFooter.read_entries n data pos = Done [entry]
  | S (S _) => StreamFooter.read_entries n data pos = Panic
  end.
Proof.
  intros Hl Hs. destruct n as [|n]; [done|]. cbn [StreamFooter.read_entries]. unfold StreamFooter.slice.
  rewrite !(proj2 (Nat.leb_le _ _)) by lia. cbn [mbind outcome_bind]. destruct n as [|n]; [by eexists|].
  rewrite read_entries_short; [done|]. unfold StreamFooter.ENCODED_SIZE_BYTES_SINGLE_ENTRY. lia.
Qed.

(**  What the last 32 bytes of a stream are read as.  Without the magic bytes of a footer they
    are an error; with them they are a footer of the announced number of entries if that is zero
    or one, and a panic, not an error, for any larger number. *)
Lemma stream_footer_decode_spec data (Hlen : length data = 32%nat) :
  let magic := take 8 (drop 20 data) in
  let count := LittleEndian.from_bytes (take 4 (drop 28 data)) in
  (magic <> DLR_FOURCC ++ StreamFooter.DLR_IDENTIFIER -> exists e, StreamFooter.from_dlr_bytes data = Done (Err (FrameDecoding e)))
  /\ (magic = DLR_FOURCC ++ StreamFooter.DLR_IDENTIFIER -> count <= 1 -> exists footer,
        StreamFooter.from_dlr_bytes data = Done (Ok footer) /\ length (StreamFooter.entries footer) = Z.to_nat count)
  /\ (magic = DLR_FOURCC ++ StreamFooter.DLR_IDENTIFIER -> 1 < count -> StreamFooter.from_dlr_bytes data = Panic).
Proof.
  cbv zeta. unfold StreamFooter.from_dlr_bytes. rewrite Hlen. cbn [Nat.ltb Nat.leb StreamFooter.ENCODED_SIZE_BYTES].
  change (32 - StreamFooter.ENCODED_SIZE_BYTES_IGNORING_ENTRIES)%nat with 20%nat. change (32 - _)%nat with 0%nat.
  rewrite !drop_drop, drop_0. change (20 + 4)%nat with 24%nat. change (20 + 8)%nat with 28%nat.
  assert (take 8 (drop 20 data) = take 4 (drop 20 data) ++ take 4 (drop 24 data)) as ->.
  { rewrite <- (take_drop 4 (take 8 (drop 20 data))), take_take. f_equal.
    pose proof (take_drop_commute (drop 20 data) 4 4) as E. rewrite drop_drop in E. symmetry. exact E. }
  set (fourcc := take 4 (drop 20 data)). set (identifier := take 4 (drop 24 data)). set (count := LittleEndian.from_bytes _).
  assert (length fourcc = 4%nat) as Hf by (subst fourcc; rewrite length_take, length_drop; lia).
  assert (fourcc ++ identifier = DLR_FOURCC ++ StreamFooter.DLR_IDENTIFIER <-> fourcc = DLR_FOURCC /\ identifier = StreamFooter.DLR_IDENTIFIER) as ->.
  { split; [intros E; by apply app_inj_1 in E|by intros [-> ->]]. }
  case_bool_decide as E1; cbn [negb]; [|split_and!; [by eexists|by intros [? _]..]].
  case_bool_decide as E2; cbn [negb]; [|split_and!; [by eexists|by intros [_ ?]..]].
  pose proof (read_entries_one (Z.to_nat count) data 0 ltac:(lia) ltac:(lia)) as Hread.
  split_and!; [naive_solver| |]; intros _ Hc.
  - destruct (Z.to_nat count) as [|[|]] eqn:Ec; [|destruct Hread as [entry Hread]|lia]; rewrite Hread; cbn [mbind outcome_bind]; by eexists.
  - destruct (Z.to_nat count) as [|[|]] eqn:Ec; [lia..|]. by rewrite Hread.
Qed.

Lemma stream_footer_decode_spec_witness :
  StreamFooter.from_dlr_bytes (replicate 20 0 ++ lit "RRF2FOOT" ++ [2; 0; 0; 0]) = Panic.
Proof.
  apply (stream_footer_decode_spec (replicate 20 0 ++ lit "RRF2FOOT" ++ [2; 0; 0; 0])); [reflexivity|reflexivity|reflexivity].
Defined.
