(* ===== verification/DlrDecoder.v ===== *)
(** * The decoder of the log format

    [store/dl_log_encoding/src/dlr/decoder/]: the buffer of incoming byte chunks and the state
    machine of [state_machine.rs], the iterator of [iterator.rs] and the entry points of
    [mod.rs]; with the messages of [log_msg.rs].

    The decoder is written against a source of bytes ([ByteSource]), which [ByteChunkBuffer]
    implements, and an entry point ([DecoderEntrypoint]), which [DecoderTransport] implements for
    messages of the transport level.  The Protobuf messages, their types and their codec are the
    [prost] crate's. *)

From stdpp Require Import strings.
From S2P Require Import Prelude Ints Text CrateVersion DlrFrames.

(** ** Runs with fuel

    [Done None] is the lack of fuel; the functions below compute enough. *)

Definition fueled (A : Type) : Type := outcome (option A).
#[export] Instance fueled_bind : MBind fueled := fun A B f o =>
  match o with Panic => Panic | Done None => Done None | Done (Some a) => f a end.
Definition returns {A} (a : A) : fueled A := Done (Some a).

(** ** Messages *)

(** A message of [prost]: [encode] and [decode]. *)
Class ProstMessage (T : Type) := {
  prost_encode : T -> list Z;
  prost_decode : list Z -> option T;
}.
Class ProstLaws (T : Type) `{ProstMessage T} : Prop := {
  prost_roundtrip (m : T) : prost_decode (prost_encode m) = Some m;
}.

(** The messages of the log. *)
Class Protos := {
  SetStoreInfoProto : Type;
  ArrowMsgProto : Type;
  BlueprintActivationCommandProto : Type;
  RrdManifestProto : Type;
  RrdFooterProto : Type;
  rrd_footer_manifests : RrdFooterProto -> list RrdManifestProto;
  set_store_info_message :: ProstMessage SetStoreInfoProto;
  arrow_msg_message :: ProstMessage ArrowMsgProto;
  blueprint_activation_command_message :: ProstMessage BlueprintActivationCommandProto;
  rrd_footer_message :: ProstMessage RrdFooterProto;
}.
Class ProtosLaws `{Protos} : Prop := {
  set_store_info_laws :: ProstLaws SetStoreInfoProto;
  arrow_msg_laws :: ProstLaws ArrowMsgProto;
  blueprint_activation_command_laws :: ProstLaws BlueprintActivationCommandProto;
  rrd_footer_laws :: ProstLaws RrdFooterProto;
}.

(** [from_dlr_bytes] of the messages. *)
Definition proto_from_dlr_bytes {T} `{ProstMessage T} (data : list Z) : result T CodecError :=
  match prost_decode data with Some m => Ok m | None => Err ProtobufDecode end.

Module Msg.

Inductive t `{Protos} :=
| SetStoreInfo (m : SetStoreInfoProto)
| ArrowMsg (m : ArrowMsgProto)
| BlueprintActivationCommand (m : BlueprintActivationCommandProto).

(** The header of the message, and the message. *)
Definition to_dlr_bytes `{Protos} (self : t) : list Z :=
  let with_header kind payload :=
    MessageHeader.to_dlr_bytes (MessageHeader.Mk kind (Z.of_nat (length payload))) ++ payload in
  match self with
  | SetStoreInfo m => with_header DlrFrames.SetStoreInfo (prost_encode m)
  | ArrowMsg m => with_header DlrFrames.ArrowMsg (prost_encode m)
  | BlueprintActivationCommand m => with_header DlrFrames.BlueprintActivationCommand (prost_encode m)
  end.

(** [Option<Msg>::from_dlr_bytes], of a message with its header. *)
Definition from_dlr_bytes `{Protos} (data : list Z) : outcome (result (option t) CodecError) :=
  if (length data <? MessageHeader.ENCODED_SIZE_BYTES)%nat then Panic else
  let header := MessageHeader.from_dlr_bytes (take MessageHeader.ENCODED_SIZE_BYTES data) in
  let data := drop MessageHeader.ENCODED_SIZE_BYTES data in
  Done (let? header := header in
  match MessageHeader.kind header with
  | DlrFrames.SetStoreInfo => let? m := proto_from_dlr_bytes data in Ok (Some (SetStoreInfo m))
  | DlrFrames.ArrowMsg => let? m := proto_from_dlr_bytes data in Ok (Some (ArrowMsg m))
  | DlrFrames.BlueprintActivationCommand => let? m := proto_from_dlr_bytes data in Ok (Some (BlueprintActivationCommand m))
  | End => Ok None
  end).

End Msg.

(** ** Entry points *)

(** [DecoderEntrypoint]: it can change the cache of application ids ([ApplicationIdInjector]). *)
Class DecoderEntrypoint := {
  Message : Type;
  Injector : Type;
  injector_default : Injector;
  decode (data_excluding_headers : list Z) (byte_span_excluding_headers : Span.t) (message_kind : MessageKind)
    (app_id_injector : Injector) (patched_version : option CrateVersion.t)
    : Injector * result (option Message) CodecError;
}.

(** [DecoderTransport]: the payload of Arrow messages is not looked at. *)
Definition decode_transport `{Protos} (data : list Z) (message_kind : MessageKind) : result (option Msg.t) CodecError :=
  match message_kind with
  | SetStoreInfo => let? m := proto_from_dlr_bytes data in Ok (Some (Msg.SetStoreInfo m))
  | ArrowMsg => let? m := proto_from_dlr_bytes data in Ok (Some (Msg.ArrowMsg m))
  | BlueprintActivationCommand => let? m := proto_from_dlr_bytes data in Ok (Some (Msg.BlueprintActivationCommand m))
  | End => Ok None
  end.

#[export] Instance decoder_transport `{Protos} : DecoderEntrypoint := {
  Message := Msg.t;
  Injector := unit;
  injector_default := tt;
  decode data _ message_kind app_id_injector _ := (app_id_injector, decode_transport data message_kind);
}.

(** ** Sources of bytes *)

Class ByteSource (B : Type) := {
  source_new : B;
  source_push : B -> list Z -> B;
  source_num_read : B -> Z;
  source_try_read : B -> Z -> outcome (B * option (list Z));
  (** The bytes that could be peeked. *)
  source_try_peek : B -> nat -> list Z;
  (** The number of bytes pushed and not read. *)
  source_buffered : B -> nat;
}.

(** [Cursor<Vec<u8>>]. *)
Module ByteChunk.

Record t := Mk { position : nat; get_ref : list Z }.

Definition new (byte_chunk : list Z) : t := Mk 0 byte_chunk.
Definition remaining (self : t) : list Z := drop (position self) (get_ref self).
(** [is_byte_chunk_empty]. *)
Definition is_empty (self : t) : bool := (length (get_ref self) <=? position self)%nat.

End ByteChunk.

Module ByteChunkBuffer.

Record t := Mk {
  queue : list ByteChunk.t;
  buffer : list Z;
  buffer_fill : nat;
  num_read : Z;
}.

Definition new : t := Mk [] [] 0 0.

Definition push (self : t) (byte_chunk : list Z) : t :=
  match byte_chunk with
  | [] => self
  | _ => Mk (queue self ++ [ByteChunk.new byte_chunk]) (buffer self) (buffer_fill self) (num_read self)
  end.

(** [Vec::resize], whose capacity is at most [isize::MAX] bytes. *)
Definition resize (buffer : list Z) (n : Z) : outcome (list Z) :=
  if i64_max <? n then Panic
  else Done (take (Z.to_nat n) buffer ++ replicate (Z.to_nat n - length buffer) 0).

(** [while self.buffer_fill != n]; a chunk that is not emptied has filled the buffer. *)
Fixpoint fill (n : nat) (buffer : list Z) (buffer_fill : nat) (queue : list ByteChunk.t)
    : list Z * nat * list ByteChunk.t :=
  if (buffer_fill =? n)%nat then (buffer, buffer_fill, queue) else
  match queue with
  | [] => (buffer, buffer_fill, [])
  | byte_chunk :: rest =>
      let read := take (n - buffer_fill) (ByteChunk.remaining byte_chunk) in
      let buffer := take buffer_fill buffer ++ read ++ drop (buffer_fill + length read) buffer in
      let byte_chunk := ByteChunk.Mk (ByteChunk.position byte_chunk + length read) (ByteChunk.get_ref byte_chunk) in
      if ByteChunk.is_empty byte_chunk then fill n buffer (buffer_fill + length read) rest
      else (buffer, (buffer_fill + length read)%nat, byte_chunk :: rest)
  end.

Definition try_read (self : t) (n : Z) : outcome (t * option (list Z)) :=
  '(buffer, buffer_fill) ←
    (if negb (Z.of_nat (length (buffer self)) =? n) then
       if negb (buffer_fill self =? 0)%nat then Panic
       else buffer ← resize (buffer self) n; Done (buffer, 0%nat)
     else Done (buffer self, buffer_fill self));
  let '(buffer, buffer_fill, queue) := fill (Z.to_nat n) buffer buffer_fill (queue self) in
  if Z.of_nat buffer_fill =? n then Done (Mk queue [] 0 (num_read self + n), Some buffer)
  else Done (Mk queue buffer buffer_fill (num_read self), None).

(** The loop over the queue of [try_peek]. *)
Fixpoint peek (target_len : nat) (out : list Z) (queue : list ByteChunk.t) : list Z :=
  match queue with
  | [] => out
  | byte_chunk :: rest =>
      if (length out =? target_len)%nat then out
      else peek target_len (out ++ take (target_len - length out) (ByteChunk.remaining byte_chunk)) rest
  end.

Definition try_peek (self : t) (target_len : nat) : list Z :=
  let out := if (target_len =? length (buffer self))%nat then take target_len (take (buffer_fill self) (buffer self)) else [] in
  peek target_len out (queue self).

Definition buffered (self : t) : nat :=
  buffer_fill self + sum_list_with (fun byte_chunk => length (ByteChunk.remaining byte_chunk)) (queue self).

#[global] Instance source : ByteSource t := {
  source_new := new;
  source_push := push;
  source_num_read := num_read;
  source_try_read := try_read;
  source_try_peek := try_peek;
  source_buffered := buffered;
}.

End ByteChunkBuffer.

(** ** The state machine *)

Inductive DecodeError :=
| Codec (e : CodecError)
| Read (e : Z).

Inductive DecoderState :=
| WaitingForStreamHeader
| WaitingForMessageHeader
| WaitingForMessagePayload (header : MessageHeader.t)
| WaitingForStreamFooter
| Aborted.

Module Decoder.

Record t `{Protos, DecoderEntrypoint} (B : Type) := Mk {
  version : option CrateVersion.t;
  options : EncodingOptions.t;
  byte_chunks : B;
  state : DecoderState;
  app_id_cache : Injector;
  dlr_manifests : list RrdManifestProto;
}.
Arguments Mk {_ _ _} _ _ _ _ _ _.
Arguments version {_ _ _}.
Arguments options {_ _ _}.
Arguments byte_chunks {_ _ _}.
Arguments state {_ _ _}.
Arguments app_id_cache {_ _ _}.
Arguments dlr_manifests {_ _ _}.

Section Decoder.
Context `{LocalVersion, Protos, DecoderEntrypoint} {B : Type} `{ByteSource B}.
(** Whether the build checks for overflows. *)
Context (overflow_checks : bool).

Definition new : t B := Mk None EncodingOptions.PROTOBUF_UNCOMPRESSED source_new WaitingForStreamHeader injector_default [].

Definition push_byte_chunk (self : t B) (byte_chunk : list Z) : t B :=
  Mk (version self) (options self) (source_push (byte_chunks self) byte_chunk) (state self) (app_id_cache self) (dlr_manifests self).

Definition with_byte_chunks (self : t B) (byte_chunks : B) : t B :=
  Mk (version self) (options self) byte_chunks (state self) (app_id_cache self) (dlr_manifests self).
Definition with_state (self : t B) (state : DecoderState) : t B :=
  Mk (version self) (options self) (byte_chunks self) state (app_id_cache self) (dlr_manifests self).
Definition with_stream (self : t B) (version : CrateVersion.t) (options : EncodingOptions.t) : t B :=
  Mk (Some version) options (byte_chunks self) (state self) (app_id_cache self) (dlr_manifests self).
Definition with_app_id_cache (self : t B) (app_id_cache : Injector) : t B :=
  Mk (version self) (options self) (byte_chunks self) (state self) app_id_cache (dlr_manifests self).
Definition extend_manifests (self : t B) (manifests : list RrdManifestProto) : t B :=
  Mk (version self) (options self) (byte_chunks self) (state self) (app_id_cache self) (dlr_manifests self ++ manifests).

Definition ReadResult : Type := t B * result (option Message) DecodeError.

(** The ends of the spans of a footer, which are only compared to be logged. *)
Fixpoint check_entries (entries : list StreamFooterEntry.t) : outcome unit :=
  match entries with
  | [] => Done tt
  | entry :: entries =>
      _ ← Span.end_ overflow_checks (StreamFooterEntry.dlr_footer_byte_span_from_start_excluding_header entry);
      check_entries entries
  end.

(** [try_read_impl]: its calls of [try_read], all of them the last thing that it does, are
    [again], and [ret] is how it returns. *)
Definition try_read_impl {R : Type} (again : t B -> outcome R) (ret : ReadResult -> R) (self : t B) : outcome R :=
  match state self with
  | WaitingForStreamHeader =>
      let is_first_header := source_num_read (byte_chunks self) =? 0 in
      '(byte_chunks, header_data) ← source_try_read (byte_chunks self) (Z.of_nat StreamHeader.ENCODED_SIZE_BYTES);
      let self := with_byte_chunks self byte_chunks in
      match header_data with
      | None => Done (ret (self, Ok None))
      | Some header_data =>
          match (let? h := StreamHeader.from_dlr_bytes header_data in StreamHeader.to_version_and_options h) with
          | Err err =>
              if is_first_header then Done (ret (self, Err (Codec err)))
              else Done (ret (with_state self Aborted, Ok None))
          | Ok (version, options) =>
              let self := with_stream self version options in
              match EncodingOptions.serializer options with
              | Protobuf => again (with_state self WaitingForMessageHeader)
              end
          end
      end
  | WaitingForMessageHeader =>
      let peeked := source_try_peek (byte_chunks self) MessageHeader.ENCODED_SIZE_BYTES in
      if (length peeked =? MessageHeader.ENCODED_SIZE_BYTES)%nat then
        match MessageHeader.from_dlr_bytes peeked with
        | Err (FrameDecoding _) => again (with_state self WaitingForStreamHeader)
        | Err err => Done (ret (self, Err (Codec err)))
        | Ok header =>
            '(byte_chunks, bytes) ← source_try_read (byte_chunks self) (Z.of_nat MessageHeader.ENCODED_SIZE_BYTES);
            match bytes with
            | None => Panic
            | Some _ => again (with_state (with_byte_chunks self byte_chunks) (WaitingForMessagePayload header))
            end
        end
      else Done (ret (self, Ok None))
  | WaitingForMessagePayload header =>
      let start_offset := source_num_read (byte_chunks self) in
      '(byte_chunks, bytes) ← source_try_read (byte_chunks self) (MessageHeader.len header);
      let self := with_byte_chunks self byte_chunks in
      match bytes with
      | None => Done (ret (self, Ok None))
      | Some bytes =>
          let byte_span := Span.from_start_len start_offset (Z.of_nat (length bytes)) in
          let '(app_id_cache, message) :=
            decode bytes byte_span (MessageHeader.kind header) (app_id_cache self) (version self) in
          let self := with_app_id_cache self app_id_cache in
          match message with
          | Err err => Done (ret (with_state self WaitingForMessageHeader, Err (Codec err)))
          | Ok (Some message) => Done (ret (with_state self WaitingForMessageHeader, Ok (Some message)))
          | Ok None =>
              match bytes with
              | [] => again (with_state self WaitingForStreamFooter)
              | _ =>
                  match proto_from_dlr_bytes bytes with
                  | Err err => Done (ret (self, Err (Codec err)))
                  | Ok dlr_footer =>
                      let self := extend_manifests self (rrd_footer_manifests dlr_footer) in
                      again (with_state self WaitingForStreamFooter)
                  end
              end
          end
      end
  | WaitingForStreamFooter =>
      '(byte_chunks, bytes) ← source_try_read (byte_chunks self) (Z.of_nat StreamFooter.ENCODED_SIZE_BYTES);
      let self := with_byte_chunks self byte_chunks in
      match bytes with
      | None => Done (ret (self, Ok None))
      | Some bytes =>
          footer ← StreamFooter.from_dlr_bytes bytes;
          match footer with
          | Ok footer =>
              _ ← check_entries (StreamFooter.entries footer);
              again (with_state self WaitingForStreamHeader)
          | Err err => Done (ret (with_state self Aborted, Ok None))
          end
      end
  | Aborted => Done (ret (self, Ok None))
  end.

(** The loop of [try_read], that drops the messages without an application id. *)
Fixpoint try_read_fuel (fuel : nat) (self : t B) : fueled ReadResult :=
  match fuel with
  | O => Done None
  | S fuel =>
      '(self, result) ← (try_read_impl (try_read_fuel fuel) Some self : fueled ReadResult);
      match result with
      | Err (Codec StoreIdMissingApplicationId) => try_read_fuel fuel self
      | _ => returns (self, result)
      end
  end.

(** Three steps for a byte, and the steps of the states that can pass without reading one. *)
Definition rank (state : DecoderState) : nat :=
  match state with
  | WaitingForMessagePayload _ => 2
  | WaitingForMessageHeader => 1
  | _ => 0
  end.
Definition measure (self : t B) : nat := 3 * source_buffered (byte_chunks self) + rank (state self).

Definition try_read (self : t B) : fueled ReadResult := try_read_fuel (S (measure self)) self.

End Decoder.

End Decoder.

(** ** The iterator *)

(** What the calls of [fill_buf] on the reader give, each followed by a [consume] of all of it;
    no bytes at all is the end of the file, as is the end of the list. *)
Inductive ReaderEvent :=
| Data (buf : list Z)
| Interrupted
| Failed (e : Z).

Module DecoderIterator.

Record t `{Protos, DecoderEntrypoint} (B : Type) := Mk {
  decoder : Decoder.t B;
  reader : list ReaderEvent;
  first_msg : option Message;
}.
Arguments Mk {_ _ _} _ _ _.
Arguments decoder {_ _ _}.
Arguments reader {_ _ _}.
Arguments first_msg {_ _ _}.

Section DecoderIterator.
Context `{LocalVersion, Protos, DecoderEntrypoint} {B : Type} `{ByteSource B}.
Context (overflow_checks : bool).

Definition decode_lazy (reader : list ReaderEvent) : t B := Mk Decoder.new reader None.

Definition num_bytes_processed (self : t B) : Z := source_num_read (Decoder.byte_chunks (decoder self)).

Definition Next : Type := t B * option (result Message DecodeError).

(** The arm of the end of the file. *)
Definition at_eof (decoder : Decoder.t B) (reader : list ReaderEvent) : fueled Next :=
  '(decoder, result) ← Decoder.try_read overflow_checks decoder;
  returns (Mk decoder reader None,
    match result with Ok (Some msg) => Some (Ok msg) | Ok None => None | Err err => Some (Err err) end).

(** The [loop] of [next]. *)
Fixpoint next_loop (decoder : Decoder.t B) (reader : list ReaderEvent) : fueled Next :=
  '(decoder, result) ← Decoder.try_read overflow_checks decoder;
  match result with
  | Ok (Some msg) => returns (Mk decoder reader None, Some (Ok msg))
  | Err err => returns (Mk decoder reader None, Some (Err err))
  | Ok None =>
      match reader with
      | [] => at_eof decoder []
      | Data [] :: reader => at_eof decoder reader
      | Data buf :: reader => next_loop (Decoder.push_byte_chunk decoder buf) reader
      | Interrupted :: reader => next_loop decoder reader
      | Failed e :: reader => returns (Mk decoder reader None, Some (Err (Read e)))
      end
  end.

Definition next (self : t B) : fueled Next :=
  match first_msg self with
  | Some first_msg => returns (Mk (decoder self) (reader self) None, Some (Ok first_msg))
  | None => next_loop (decoder self) (reader self)
  end.

Definition decode_eager (reader : list ReaderEvent) : fueled (result (t B) DecodeError) :=
  '(it, item) ← next (decode_lazy reader);
  match item with
  | None => returns (Ok it)
  | Some (Ok msg) => returns (Ok (Mk (decoder it) (DecoderIterator.reader it) (Some msg)))
  | Some (Err err) => returns (Err err)
  end.

(** The items of the iterator, up to its first [None], with the iterator that is left. *)
Fixpoint collect_fuel (fuel : nat) (self : t B) : fueled (t B * list (result Message DecodeError)) :=
  match fuel with
  | O => Done None
  | S fuel =>
      '(self, item) ← next self;
      match item with
      | None => returns (self, [])
      | Some item => '(self, items) ← collect_fuel fuel self; returns (self, item :: items)
      end
  end.

Definition event_measure (event : ReaderEvent) : nat :=
  match event with Data buf => 1 + 3 * length buf | _ => 1 end.
(** An item takes a step of the decoder, an event of the reader or the first message. *)
Definition measure (self : t B) : nat :=
  Decoder.measure (decoder self) + sum_list_with event_measure (reader self)
  + match first_msg self with Some _ => 1 | None => 0 end.

Definition collect (self : t B) : fueled (t B * list (result Message DecodeError)) := collect_fuel (S (measure self)) self.

End DecoderIterator.

End DecoderIterator.
