(* ===== verification/DlrDecoderSpec.v ===== *)
(** * What the decoder of the log format promises

    The buffer of byte chunks behaves as one list of unread bytes ([SourceRefines]); the state
    machine always stops; and what it reads does not depend on how its bytes were split into
    chunks. *)

From stdpp Require Import strings.
From S2P Require Import Prelude Ints Text CrateVersion DlrFrames DlrDecoder.

(** ** A source of bytes, without chunks *)

Module Flat.

Record t := Mk { num_read : Z; unread : list Z }.

Definition push (self : t) (byte_chunk : list Z) : t := Mk (num_read self) (unread self ++ byte_chunk).

Definition try_read (self : t) (n : Z) : outcome (t * option (list Z)) :=
  if i64_max <? n then Panic
  else if (0 <=? n) && (n <=? Z.of_nat (length (unread self))) then
    Done (Mk (num_read self + n) (drop (Z.to_nat n) (unread self)), Some (take (Z.to_nat n) (unread self)))
  else Done (self, None).

#[global] Instance source : ByteSource t := {
  source_new := Mk 0 [];
  source_push := push;
  source_num_read := num_read;
  source_try_read := try_read;
  source_try_peek self n := take n (unread self);
  source_buffered self := length (unread self);
}.

End Flat.

(** What the decoder relies on: a source that implements the flat one.  The first argument of the
    relation is the length of the read that the source may have begun. *)
Class SourceRefines (B : Type) `{ByteSource B} := {
  source_rel : option Z -> B -> Flat.t -> Prop;
  rel_new : source_rel None source_new source_new;
  rel_weaken n b f : source_rel None b f -> source_rel (Some n) b f;
  rel_push want b f byte_chunk : source_rel want b f -> source_rel want (source_push b byte_chunk) (source_push f byte_chunk);
  rel_num_read want b f : source_rel want b f -> source_num_read b = source_num_read f;
  rel_buffered want b f : source_rel want b f -> source_buffered b = source_buffered f;
  rel_peek b f n : source_rel None b f -> (0 < n)%nat -> source_try_peek b n = source_try_peek f n;
  rel_try_read n b f : source_rel (Some n) b f ->
    match source_try_read f n with
    | Panic => source_try_read b n = Panic
    | Done (f', None) => exists b', source_try_read b n = Done (b', None) /\ source_rel (Some n) b' f'
    | Done (f', Some bytes) => exists b', source_try_read b n = Done (b', Some bytes) /\ source_rel None b' f'
    end;
}.

(** ** The buffer of chunks *)

Module Buffer.
Import ByteChunkBuffer.

Definition queued (queue : list ByteChunk.t) : list Z := queue ≫= ByteChunk.remaining.
#[global] Arguments queued : simpl never.
Definition unread (self : t) : list Z := take (buffer_fill self) (buffer self) ++ queued (queue self).

Definition rel (want : option Z) (self : t) (f : Flat.t) : Prop :=
  num_read self = Flat.num_read f /\ unread self = Flat.unread f
  /\ (buffer_fill self <= length (buffer self))%nat /\ Z.of_nat (length (buffer self)) <= i64_max
  /\ match want with
     | None => buffer self = []
     | Some n => buffer_fill self = 0%nat \/ Z.of_nat (length (buffer self)) = n
     end.

Lemma fill_spec n buffer buffer_fill queue : length buffer = n -> (buffer_fill <= n)%nat ->
  let '(buffer', buffer_fill', queue') := fill n buffer buffer_fill queue in
  take buffer_fill' buffer' = take buffer_fill buffer ++ take (n - buffer_fill) (queued queue)
  /\ length buffer' = n /\ queued queue' = drop (n - buffer_fill) (queued queue)
  /\ buffer_fill' = Nat.min n (buffer_fill + length (queued queue)).
Proof.
  revert buffer buffer_fill. induction queue as [|chunk queue IH]; intros buffer bf Hl Hbf; cbn [fill].
  - unfold queued. destruct (Nat.eqb_spec bf n) as [->|]; cbn [mbind list_bind]; rewrite take_nil, drop_nil, app_nil_r; repeat split; cbn; lia.
  - destruct (Nat.eqb_spec bf n) as [->|Hne].
    { rewrite Nat.sub_diag, take_0, drop_0, app_nil_r. repeat split; lia. }
    set (read := take (n - bf) (ByteChunk.remaining chunk)).
    set (buffer' := take bf buffer ++ read ++ drop (bf + length read) buffer).
    assert (length read <= n - bf)%nat as Hread by (subst read; rewrite length_take; lia).
    assert (length buffer' = n) as Hl' by (subst buffer'; rewrite !length_app, length_take, length_drop; lia).
    assert (take (bf + length read) buffer' = take bf buffer ++ read) as Htake.
    { subst buffer'. rewrite app_assoc. apply take_app_length'. rewrite length_app, length_take. lia. }
    change (queued (chunk :: queue)) with (ByteChunk.remaining chunk ++ queued queue).
    set (chunk' := ByteChunk.Mk _ _).
    assert (ByteChunk.remaining chunk' = drop (length read) (ByteChunk.remaining chunk)) as Hrem.
    { subst chunk'. unfold ByteChunk.remaining. cbn [ByteChunk.position ByteChunk.get_ref]. by rewrite drop_drop. }
    destruct (ByteChunk.is_empty chunk') eqn:He.
    + assert (read = ByteChunk.remaining chunk) as Heq.
      { assert (length (ByteChunk.remaining chunk') = 0%nat) as H0.
        { unfold ByteChunk.remaining. rewrite length_drop. unfold ByteChunk.is_empty in He. apply Nat.leb_le in He. lia. }
        rewrite Hrem, length_drop in H0. subst read. rewrite length_take in H0. apply take_ge. lia. }
      specialize (IH buffer' (bf + length read)%nat Hl' ltac:(lia)). destruct (fill n buffer' _ queue) as [[buffer'' bf''] queue''].
      destruct IH as (Ht & Hl'' & Hq & Hbf''). rewrite Ht, Hq, Htake, Heq, take_app, drop_app, length_app.
      rewrite Heq in Hread, Hbf''. rewrite (take_ge (ByteChunk.remaining chunk)), (drop_ge (ByteChunk.remaining chunk)) by lia.
      rewrite Nat.sub_add_distr, app_assoc. repeat split; [done|lia].
    + assert (length read = n - bf)%nat as Heq.
      { apply Nat.leb_gt in He. unfold chunk' in He. cbn [ByteChunk.position ByteChunk.get_ref] in He.
        subst read. rewrite length_take. unfold ByteChunk.remaining in *. rewrite length_take, length_drop in He. rewrite length_drop. lia. }
      assert (n - bf < length (ByteChunk.remaining chunk))%nat as Hlt.
      { apply Nat.leb_gt in He. unfold chunk' in He. cbn [ByteChunk.position ByteChunk.get_ref] in He.
        unfold ByteChunk.remaining. rewrite length_drop. lia. }
      rewrite Htake. change (queued (chunk' :: queue)) with (ByteChunk.remaining chunk' ++ queued queue).
      rewrite Hrem, Heq, take_app_le, drop_app_le, length_app by lia. repeat split; [done|lia].
Qed.

Lemma peek_spec n out queue : (length out <= n)%nat -> peek n out queue = out ++ take (n - length out) (queued queue).
Proof.
  revert out. induction queue as [|chunk queue IH]; intros out Hout; cbn [peek]; [unfold queued; cbn [mbind list_bind]; by rewrite take_nil, app_nil_r|].
  destruct (Nat.eqb_spec (length out) n) as [<-|]; [by rewrite Nat.sub_diag, take_0, app_nil_r|].
  rewrite IH by (rewrite length_app, length_take; lia). change (queued (chunk :: queue)) with (ByteChunk.remaining chunk ++ queued queue).
  rewrite take_app, <- app_assoc, length_app, length_take. do 3 f_equal. lia.
Qed.

Lemma length_queued queue : length (queued queue) = sum_list_with (fun byte_chunk => length (ByteChunk.remaining byte_chunk)) queue.
Proof.
  induction queue as [|chunk queue IH]; [done|]. change (queued (chunk :: queue)) with (ByteChunk.remaining chunk ++ queued queue).
  rewrite length_app. cbn. by rewrite <- IH.
Qed.

(** The part of [try_read] before the loop. *)
Lemma resize_for_rel n self f : rel (Some n) self f -> n <= i64_max -> 0 <= n ->
  exists buffer bf,
    (if negb (Z.of_nat (length (ByteChunkBuffer.buffer self)) =? n) then
       if negb (buffer_fill self =? 0)%nat then Panic
       else buffer ← resize (ByteChunkBuffer.buffer self) n; Done (buffer, 0%nat)
     else Done (ByteChunkBuffer.buffer self, buffer_fill self)) = Done (buffer, bf)
    /\ Z.of_nat (length buffer) = n /\ (bf <= length buffer)%nat /\ take bf buffer ++ queued (queue self) = Flat.unread f.
Proof.
  intros (_ & Hun & Hbf & _ & Hwant) Hmax Hn. unfold unread in Hun.
  destruct (Z.eqb_spec (Z.of_nat (length (buffer self))) n) as [Heq|Hne]; cbn [negb]; [by eexists _, _|].
  destruct Hwant as [H0|]; [|done]. rewrite H0 in Hun |- *. cbn [Nat.eqb negb]. unfold resize. rewrite (proj2 (Z.ltb_ge _ _)) by lia.
  cbn [mbind outcome_bind]. eexists _, 0%nat. split; [done|]. rewrite length_app, length_take, length_replicate.
  split; [lia|]. split; [lia|done].
Qed.

Lemma try_read_rel n self f : rel (Some n) self f ->
  match Flat.try_read f n with
  | Panic => try_read self n = Panic
  | Done (f', None) => exists self', try_read self n = Done (self', None) /\ rel (Some n) self' f'
  | Done (f', Some bytes) => exists self', try_read self n = Done (self', Some bytes) /\ rel None self' f'
  end.
Proof.
  intros Hrel. unfold Flat.try_read. pose proof Hrel as (Hnum & Hun & Hbf & Hmax & Hwant).
  destruct (Z.ltb_spec i64_max n) as [Hn|Hn].
  - unfold try_read. destruct (Z.eqb_spec (Z.of_nat (length (buffer self))) n); [lia|]. cbn [negb].
    destruct Hwant as [H0|]; [|done]. rewrite H0. cbn [Nat.eqb negb]. unfold resize. by rewrite (proj2 (Z.ltb_lt _ _)).
  - destruct (Z.leb_spec 0 n) as [Hpos|Hneg]; cbn [andb].
    + destruct (resize_for_rel n self f Hrel Hn Hpos) as (buf & bf & Heq & Hl & Hle & Hun'). unfold try_read. rewrite Heq.
      cbn [mbind outcome_bind]. pose proof (fill_spec (Z.to_nat n) buf bf (queue self) ltac:(lia) ltac:(lia)) as Hfill.
      destruct (fill _ buf bf (queue self)) as [[buf' bf'] queue']. destruct Hfill as (Ht & Hl' & Hq & Hbf').
      rewrite <- Hun', length_app, length_take.
      destruct (Z.leb_spec n (Z.of_nat (Nat.min bf (length buf) + length (queued (queue self))))) as [Hge|Hlt].
      * rewrite (proj2 (Z.eqb_eq _ _)) by lia. eexists. split.
        -- do 3 f_equal. rewrite <- (take_ge buf' bf') by lia. rewrite Ht, take_app, length_take, take_take. repeat f_equal; lia.
        -- unfold rel, unread. cbn. rewrite Hnum, Hq, drop_app, length_take, (drop_ge (take bf buf)) by (rewrite length_take; lia).
           repeat split; [|lia..]. cbn. f_equal. lia.
      * rewrite (proj2 (Z.eqb_neq _ _)) by lia. eexists. split; [done|]. unfold rel, unread. cbn.
        rewrite Hnum, Ht, Hq, (drop_ge (queued _)), (take_ge (queued _)), app_nil_r by lia. split; [done|]. split; [done|]. lia.
    + unfold try_read. destruct (Z.eqb_spec (Z.of_nat (length (buffer self))) n); [lia|]. cbn [negb].
      destruct Hwant as [H0|]; [|done]. rewrite H0. cbn [Nat.eqb negb]. unfold resize. rewrite (proj2 (Z.ltb_ge _ _)) by lia.
      cbn [mbind outcome_bind]. replace (Z.to_nat n) with 0%nat by lia. rewrite take_0. cbn [Nat.sub replicate]. rewrite app_nil_r.
      assert (fill 0 [] 0 (queue self) = ([], 0%nat, queue self)) as -> by (by destruct (queue self)).
      rewrite (proj2 (Z.eqb_neq _ _)) by lia. eexists. split; [done|]. unfold unread in Hun. rewrite H0 in Hun.
      unfold rel, unread. cbn. repeat split; [done|done|lia|by vm_compute|by left].
Qed.

#[global] Program Instance refines : SourceRefines ByteChunkBuffer.t := { source_rel := rel }.
Next Obligation. unfold rel, unread. cbn. repeat split; [lia|by vm_compute]. Qed.
Next Obligation. intros n b f (? & ? & ? & ? & Hb). repeat split; [done..|]. left. rewrite Hb in *. cbn in *. lia. Qed.
Next Obligation.
  intros want b f chunk (Hnum & Hun & Hrest). split; [|split; [|destruct chunk; exact Hrest]]; [by destruct chunk|].
  cbn. rewrite <- Hun. destruct chunk as [|x chunk]; [by rewrite app_nil_r|]. unfold unread, push, queued. cbn [queue buffer buffer_fill].
  rewrite bind_app, app_assoc. cbn. by rewrite app_nil_r.
Qed.
Next Obligation. by intros want b f (? & _). Qed.
Next Obligation.
  intros want b f (_ & Hun & Hbf & _). cbn. unfold buffered. rewrite <- Hun, <- length_queued. unfold unread. rewrite length_app, length_take. lia.
Qed.
Next Obligation.
  intros b f n (_ & Hun & Hbf & _ & Hb) Hn. cbn. unfold try_peek. unfold unread in Hun. rewrite Hb in *. cbn [length] in *.
  rewrite (proj2 (Nat.eqb_neq n 0)) by lia. rewrite peek_spec by (cbn; lia). cbn. rewrite Nat.sub_0_r.
  replace (buffer_fill b) with 0%nat in Hun by lia. cbn in Hun. by rewrite Hun.
Qed.
Next Obligation. apply try_read_rel. Qed.

End Buffer.

(** ** Single steps of the state machine *)

Section Steps.
Context `{LocalVersion, Protos, DecoderEntrypoint} {B : Type} `{ByteSource B} (overflow_checks : bool).
Implicit Types self : Decoder.t B.

(** What a call of [try_read_impl] does before it calls [try_read] or returns. *)
Definition step self : outcome (Decoder.t B + Decoder.ReadResult) :=
  Decoder.try_read_impl overflow_checks (fun self => Done (inl self)) inr self.

Lemma try_read_impl_step {R} (again : Decoder.t B -> outcome R) (ret : Decoder.ReadResult -> R) self :
  Decoder.try_read_impl overflow_checks again ret self
  = match step self with
    | Panic => Panic
    | Done (inl self) => again self
    | Done (inr result) => Done (ret result)
    end.
Proof.
  unfold step, Decoder.try_read_impl. destruct (Decoder.state self); try done.
  - destruct (source_try_read _ _) as [[b [bytes|]]|]; try done. cbn [mbind outcome_bind].
    destruct (StreamHeader.from_dlr_bytes bytes) as [h|]; [destruct (StreamHeader.to_version_and_options h) as [[v o]|]|]; try (by destruct (_ =? 0)).
    by destruct (EncodingOptions.serializer o).
  - destruct (_ =? _)%nat; [|done]. destruct (MessageHeader.from_dlr_bytes _) as [h|[]]; try done.
    by destruct (source_try_read _ _) as [[b [bytes|]]|].
  - destruct (source_try_read _ _) as [[b [bytes|]]|]; try done. cbn [mbind outcome_bind].
    destruct (decode _ _ _ _ _) as [cache [[message|]|e]]; [done| |done]. destruct bytes; [done|]. by destruct (proto_from_dlr_bytes _).
  - destruct (source_try_read _ _) as [[b [bytes|]]|]; try done. cbn [mbind outcome_bind].
    destruct (StreamFooter.from_dlr_bytes _) as [[footer|]|]; try done. cbn [mbind outcome_bind]. by destruct (Decoder.check_entries _ _).
Qed.

(** A step of [try_read]: the messages without an application id are dropped. *)
Definition next_step self : outcome (Decoder.t B + Decoder.ReadResult) :=
  match step self with
  | Done (inr (self, Err (Codec StoreIdMissingApplicationId))) => Done (inl self)
  | other => other
  end.

Definition missing (result : result (option Message) DecodeError) : Prop := result = Err (Codec StoreIdMissingApplicationId).

Lemma try_read_not_missing fuel self self' result :
  Decoder.try_read_fuel overflow_checks fuel self = Done (Some (self', result)) -> ~ missing result.
Proof.
  revert self. induction fuel as [|fuel IH]; intros self; [done|]. cbn [Decoder.try_read_fuel].
  destruct (Decoder.try_read_impl _ _ _ _) as [[[self1 result1]|]|]; [|done..]. cbn [mbind fueled_bind]. intros Hread Hm. unfold missing in Hm. subst result.
  destruct result1 as [|[[]|]]; try (by injection Hread). by eapply IH.
Qed.

Lemma try_read_fuel_S fuel self :
  Decoder.try_read_fuel overflow_checks (S fuel) self
  = match next_step self with
    | Panic => Panic
    | Done (inl self) => Decoder.try_read_fuel overflow_checks fuel self
    | Done (inr result) => returns result
    end.
Proof.
  cbn [Decoder.try_read_fuel]. rewrite try_read_impl_step. unfold next_step. destruct (step self) as [[self1|[self1 result]]|]; [| |done].
  - destruct (Decoder.try_read_fuel _ fuel self1) as [[[self2 result]|]|] eqn:Hread; [|done..]. cbn [mbind fueled_bind].
    pose proof (try_read_not_missing _ _ _ _ Hread) as Hm. by destruct result as [|[[]|]].
  - cbn [mbind fueled_bind]. by destruct result as [|[[]|]].
Qed.

End Steps.

(** ** Two runs *)

Definition fueled_rel {A A'} (R : A -> A' -> Prop) (o : fueled A) (o' : fueled A') : Prop :=
  match o, o' with
  | Panic, Panic => True
  | Done None, Done None => True
  | Done (Some a), Done (Some a') => R a a'
  | _, _ => False
  end.

Lemma fueled_rel_bind {A A' C C'} (R : A -> A' -> Prop) (S : C -> C' -> Prop) (o : fueled A) (o' : fueled A') f f' :
  fueled_rel R o o' -> (forall a a', R a a' -> fueled_rel S (f a) (f' a')) -> fueled_rel S (o ≫= f) (o' ≫= f').
Proof. destruct o as [[]|], o' as [[]|]; cbn; naive_solver. Qed.

(** ** A source and the flat one *)

Section Simulation.
Context `{LocalVersion, Protos, DecoderEntrypoint} {B : Type} `{SourceRefines B} (overflow_checks : bool).
Implicit Types (self : Decoder.t B) (flat : Decoder.t Flat.t).

Definition reading (state : DecoderState) (b : B) (f : Flat.t) : Prop :=
  match state with
  | WaitingForStreamHeader => source_rel (Some (Z.of_nat StreamHeader.ENCODED_SIZE_BYTES)) b f
  | WaitingForMessageHeader => source_rel None b f
  | WaitingForMessagePayload header => source_rel (Some (MessageHeader.len header)) b f
  | WaitingForStreamFooter => source_rel (Some (Z.of_nat StreamFooter.ENCODED_SIZE_BYTES)) b f
  | Aborted => exists want, source_rel want b f
  end.

Lemma reading_none state b f : source_rel None b f -> reading state b f.
Proof. destruct state; cbn; intros Hrel; [by apply rel_weaken|done|by apply rel_weaken|by apply rel_weaken|by eexists]. Qed.

(** The two decoders differ in how they hold the unread bytes. *)
Inductive decoder_rel : Decoder.t B -> Decoder.t Flat.t -> Prop :=
| decoder_rel_intro version options b f state app_id_cache manifests :
    reading state b f ->
    decoder_rel (Decoder.Mk version options b state app_id_cache manifests)
      (Decoder.Mk version options f state app_id_cache manifests).

Definition step_rel (o : outcome (Decoder.t B + Decoder.ReadResult)) (o' : outcome (Decoder.t Flat.t + Decoder.ReadResult)) : Prop :=
  match o, o' with
  | Panic, Panic => True
  | Done (inl self), Done (inl flat) => decoder_rel self flat
  | Done (inr (self, result)), Done (inr (flat, result')) => result = result' /\ decoder_rel self flat
  | _, _ => False
  end.

(** The results of a read, related. *)
Lemma reading_try_read n b f : source_rel (Some n) b f ->
  (source_try_read b n = Panic /\ source_try_read f n = Panic)
  \/ (exists b' f', source_try_read b n = Done (b', None) /\ source_try_read f n = Done (f', None) /\ source_rel (Some n) b' f')
  \/ (exists b' f' bytes, source_try_read b n = Done (b', Some bytes) /\ source_try_read f n = Done (f', Some bytes) /\ source_rel None b' f').
Proof.
  intros Hrel%rel_try_read. destruct (source_try_read f n) as [[f' [bytes|]]|]; [right; right|right; left|by left].
  - destruct Hrel as (b' & ? & ?). by exists b', f', bytes.
  - destruct Hrel as (b' & ? & ?). by exists b', f'.
Qed.

Lemma step_sim self flat : decoder_rel self flat -> step_rel (step overflow_checks self) (step overflow_checks flat).
Proof.
  intros [v o b f state cache ms Hr]. unfold step, Decoder.try_read_impl. cbn [Decoder.state Decoder.byte_chunks]. destruct state; cbn [reading] in Hr.
  - rewrite (rel_num_read _ _ _ Hr). destruct (reading_try_read _ _ _ Hr) as [[-> ->]|[(b' & f' & -> & -> & Hr')|(b' & f' & bytes & -> & -> & Hr')]];
      cbn [mbind outcome_bind]; [done|by split; [|constructor]|].
    destruct (StreamHeader.from_dlr_bytes bytes) as [h|]; [destruct (StreamHeader.to_version_and_options h) as [[v' o']|]|];
      try (destruct (_ =? 0); (split; [done|]; constructor; by apply reading_none)).
    destruct (EncodingOptions.serializer o'). by constructor.
  - rewrite (rel_peek _ _ MessageHeader.ENCODED_SIZE_BYTES Hr) by (unfold MessageHeader.ENCODED_SIZE_BYTES; lia). destruct (_ =? _)%nat; [|by split; [|constructor]].
    destruct (MessageHeader.from_dlr_bytes _) as [h|e]; [|destruct e; solve [by split; [|constructor]|by constructor; apply reading_none]].
    apply (rel_weaken (Z.of_nat MessageHeader.ENCODED_SIZE_BYTES)) in Hr.
    destruct (reading_try_read _ _ _ Hr) as [[-> ->]|[(b' & f' & -> & -> & Hr')|(b' & f' & bytes & -> & -> & Hr')]]; [done..|].
    cbn [mbind outcome_bind]. constructor. by apply reading_none.
  - rewrite (rel_num_read _ _ _ Hr). destruct (reading_try_read _ _ _ Hr) as [[-> ->]|[(b' & f' & -> & -> & Hr')|(b' & f' & bytes & -> & -> & Hr')]];
      cbn [mbind outcome_bind Decoder.with_byte_chunks Decoder.app_id_cache Decoder.version]; [done|by split; [|constructor]|].
    destruct (decode _ _ _ _ _) as [cache' [[message|]|e]]; [by split; [|constructor]| |by split; [|constructor]].
    destruct bytes; [constructor; by apply reading_none|]. destruct (proto_from_dlr_bytes _); [constructor|split; [done|constructor]]; by apply reading_none.
  - destruct (reading_try_read _ _ _ Hr) as [[-> ->]|[(b' & f' & -> & -> & Hr')|(b' & f' & bytes & -> & -> & Hr')]];
      cbn [mbind outcome_bind]; [done|by split; [|constructor]|].
    destruct (StreamFooter.from_dlr_bytes _) as [[footer|]|]; cbn [mbind outcome_bind]; [|split; [done|constructor]; by apply reading_none|done].
    destruct (Decoder.check_entries _ _); cbn [mbind outcome_bind]; [constructor; by apply reading_none|done].
  - by split; [|constructor].
Qed.

Lemma next_step_sim self flat : decoder_rel self flat -> step_rel (next_step overflow_checks self) (next_step overflow_checks flat).
Proof.
  intros Hrel%step_sim. unfold next_step. destruct (step _ self) as [[self'|[self' r]]|], (step _ flat) as [[flat'|[flat' r']]|]; try done.
  destruct Hrel as [<- Hrel]. destruct r as [|[[]|]]; done.
Qed.

Definition read_rel (r : Decoder.ReadResult (B := B)) (r' : Decoder.ReadResult (B := Flat.t)) : Prop :=
  decoder_rel r.1 r'.1 /\ r.2 = r'.2.

Lemma try_read_fuel_sim fuel self flat : decoder_rel self flat ->
  fueled_rel read_rel (Decoder.try_read_fuel overflow_checks fuel self) (Decoder.try_read_fuel overflow_checks fuel flat).
Proof.
  revert self flat. induction fuel as [|fuel IH]; intros self flat Hrel; [done|]. rewrite !try_read_fuel_S. apply next_step_sim in Hrel.
  destruct (next_step _ self) as [[self'|[self' r]]|], (next_step _ flat) as [[flat'|[flat' r']]|]; try done; [by apply IH|].
  by destruct Hrel.
Qed.

Lemma measure_sim self flat : decoder_rel self flat -> Decoder.measure self = Decoder.measure flat.
Proof.
  intros [v o b f state cache ms Hr]. unfold Decoder.measure. cbn [Decoder.byte_chunks Decoder.state]. f_equal. f_equal.
  destruct state; cbn [reading] in Hr; [..|destruct Hr as [want Hr]]; by rewrite (rel_buffered _ _ _ Hr).
Qed.

Lemma try_read_sim self flat : decoder_rel self flat ->
  fueled_rel read_rel (Decoder.try_read overflow_checks self) (Decoder.try_read overflow_checks flat).
Proof. intros Hrel. unfold Decoder.try_read. rewrite (measure_sim _ _ Hrel). by apply try_read_fuel_sim. Qed.

Lemma push_sim self flat byte_chunk : decoder_rel self flat ->
  decoder_rel (Decoder.push_byte_chunk self byte_chunk) (Decoder.push_byte_chunk flat byte_chunk).
Proof.
  intros [v o b f state cache ms Hr]. constructor. cbn [Decoder.byte_chunks].
  destruct state; cbn [reading] in *; [by apply rel_push..|]. destruct Hr as [want Hr]. exists want. by apply rel_push.
Qed.

(** *** The iterator *)

Implicit Types (it : DecoderIterator.t B) (fit : DecoderIterator.t Flat.t).

Inductive iterator_rel : DecoderIterator.t B -> DecoderIterator.t Flat.t -> Prop :=
| iterator_rel_intro self flat reader first_msg :
    decoder_rel self flat -> iterator_rel (DecoderIterator.Mk self reader first_msg) (DecoderIterator.Mk flat reader first_msg).

Definition next_rel {C} (r : DecoderIterator.t B * C) (r' : DecoderIterator.t Flat.t * C) : Prop := iterator_rel r.1 r'.1 /\ r.2 = r'.2.

Lemma at_eof_sim self flat reader : decoder_rel self flat ->
  fueled_rel next_rel (DecoderIterator.at_eof overflow_checks self reader) (DecoderIterator.at_eof overflow_checks flat reader).
Proof.
  intros Hrel. eapply fueled_rel_bind; [by apply try_read_sim|]. intros [self' r] [flat' r'] [Hrel' [= <-]]. by split; [constructor|].
Qed.

Lemma next_loop_sim reader self flat : decoder_rel self flat ->
  fueled_rel next_rel (DecoderIterator.next_loop overflow_checks self reader) (DecoderIterator.next_loop overflow_checks flat reader).
Proof.
  revert self flat. induction reader as [|event reader IH]; intros self flat Hrel; cbn [DecoderIterator.next_loop];
    (eapply fueled_rel_bind; [by apply try_read_sim|]); intros [self' r] [flat' r'] [Hrel' [= <-]]; cbn [fst snd] in Hrel'.
  - destruct r as [[]|]; [by split; [constructor|]|by apply at_eof_sim|by split; [constructor|]].
  - destruct r as [[]|]; [by split; [constructor|]| |by split; [constructor|]].
    destruct event as [[|z buf]| |e]; [by apply at_eof_sim|by apply IH, push_sim|by apply IH|by split; [constructor|]].
Qed.

Lemma next_sim it fit : iterator_rel it fit ->
  fueled_rel next_rel (DecoderIterator.next overflow_checks it) (DecoderIterator.next overflow_checks fit).
Proof. intros [self flat reader [m|] Hrel]; [by split; [constructor|]|by apply next_loop_sim]. Qed.

Lemma collect_fuel_sim fuel it fit : iterator_rel it fit ->
  fueled_rel next_rel (DecoderIterator.collect_fuel overflow_checks fuel it) (DecoderIterator.collect_fuel overflow_checks fuel fit).
Proof.
  revert it fit. induction fuel as [|fuel IH]; intros it fit Hrel; [done|]. cbn [DecoderIterator.collect_fuel].
  eapply fueled_rel_bind; [by apply next_sim|]. intros [it' item] [fit' item'] [Hrel' [= <-]]. cbn [fst snd] in Hrel'.
  destruct item as [item|]; [|done]. eapply fueled_rel_bind; [by apply IH|].
  intros [it'' items] [fit'' items'] [Hrel'' [= <-]]. done.
Qed.

Lemma collect_sim it fit : iterator_rel it fit ->
  fueled_rel next_rel (DecoderIterator.collect overflow_checks it) (DecoderIterator.collect overflow_checks fit).
Proof.
  intros Hrel. unfold DecoderIterator.collect. replace (DecoderIterator.measure it) with (DecoderIterator.measure fit); [by apply collect_fuel_sim|].
  destruct Hrel as [self flat reader first_msg Hrel]. unfold DecoderIterator.measure. cbn [DecoderIterator.decoder DecoderIterator.reader DecoderIterator.first_msg].
  by rewrite (measure_sim _ _ Hrel).
Qed.

Lemma decode_lazy_sim reader : iterator_rel (DecoderIterator.decode_lazy reader) (DecoderIterator.decode_lazy reader).
Proof. do 2 constructor. cbn. apply rel_weaken, rel_new. Qed.

End Simulation.

(** ** Over the flat source: the state machine stops, and reads its bytes in any pieces *)

Section Machine.
Context `{LocalVersion, Protos, DecoderEntrypoint} (overflow_checks : bool).
Implicit Types d : Decoder.t Flat.t.
Abbreviation ext d m := (Decoder.push_byte_chunk d m).
Abbreviation flat_step d := (step overflow_checks d).
Abbreviation flat_next d := (next_step overflow_checks d).
Abbreviation try_read d := (Decoder.try_read overflow_checks d).
Abbreviation try_read_fuel fuel d := (Decoder.try_read_fuel overflow_checks fuel d).

(** A read has enough bytes, panics whatever the bytes, or leaves the source alone. *)
Lemma flat_try_read f n :
  Flat.try_read f n = Panic /\ (forall m, Flat.try_read (Flat.push f m) n = Panic)
  \/ Flat.try_read f n = Done (f, None)
  \/ exists f' bytes, Flat.try_read f n = Done (f', Some bytes) /\ Flat.unread f = bytes ++ Flat.unread f'
     /\ Z.of_nat (length bytes) = n /\ forall m, Flat.try_read (Flat.push f m) n = Done (Flat.push f' m, Some bytes).
Proof.
  unfold Flat.try_read. destruct (Z.ltb_spec i64_max n); [by left|]. right.
  destruct (Z.leb_spec 0 n); cbn [andb]; [|by left]. destruct (Z.leb_spec n (Z.of_nat (length (Flat.unread f)))) as [Hn|]; [|by left]. right.
  eexists _, _. split; [done|]. cbn. split; [by rewrite take_drop|]. rewrite length_take. split; [lia|]. intros m. rewrite length_app.
  rewrite (proj2 (Z.leb_le _ _)) by lia. unfold Flat.push. cbn. by rewrite take_app_le, drop_app_le by lia.
Qed.

Lemma step_measure d :
  match flat_step d with
  | Panic => True
  | Done (inl d') => (Decoder.measure d' < Decoder.measure d)%nat
  | Done (inr (d', Ok None)) => (Decoder.measure d' <= Decoder.measure d)%nat
  | Done (inr (d', _)) => (Decoder.measure d' < Decoder.measure d)%nat
  end.
Proof.
  destruct d as [v o f state cache ms]. unfold step, Decoder.try_read_impl, Decoder.measure. cbn [Decoder.state Decoder.byte_chunks].
  destruct state; cbn [source_try_read source_try_peek source_buffered Flat.source Decoder.rank].
  - destruct (flat_try_read f (Z.of_nat StreamHeader.ENCODED_SIZE_BYTES)) as [[-> _]|[->|(f' & bytes & -> & Hun & Hl & _)]];
      cbn [mbind outcome_bind]; [done|cbn; lia|]. rewrite Hun, length_app. unfold StreamHeader.ENCODED_SIZE_BYTES in Hl.
    destruct (StreamHeader.from_dlr_bytes bytes) as [h|]; [destruct (StreamHeader.to_version_and_options h) as [[v' o']|]|];
      try (destruct (_ =? 0); cbn; lia). destruct (EncodingOptions.serializer o'); cbn; lia.
  - destruct (_ =? _)%nat; [|cbn; lia].
    destruct (MessageHeader.from_dlr_bytes _) as [h|e] eqn:Hh; [|apply message_header_error in Hh as [frame ->]; cbn; lia].
    destruct (flat_try_read f (Z.of_nat MessageHeader.ENCODED_SIZE_BYTES)) as [[-> _]|[->|(f' & bytes & -> & Hun & Hl & _)]];
      cbn [mbind outcome_bind]; [done..|]. rewrite Hun, length_app. unfold MessageHeader.ENCODED_SIZE_BYTES in Hl. cbn. lia.
  - destruct (flat_try_read f (MessageHeader.len header)) as [[-> _]|[->|(f' & bytes & -> & Hun & Hl & _)]];
      cbn [mbind outcome_bind]; [done|cbn; lia|]. rewrite Hun, length_app.
    destruct (decode _ _ _ _ _) as [cache' [[message|]|e]]; [cbn; lia| |cbn; lia].
    destruct bytes as [|b bytes]; [cbn; lia|]. destruct (proto_from_dlr_bytes _); cbn; lia.
  - destruct (flat_try_read f (Z.of_nat StreamFooter.ENCODED_SIZE_BYTES)) as [[-> _]|[->|(f' & bytes & -> & Hun & Hl & _)]];
      cbn [mbind outcome_bind]; [done|cbn; lia|]. rewrite Hun, length_app. change (Z.of_nat (length bytes) = 32) in Hl.
    destruct (StreamFooter.from_dlr_bytes bytes) as [[footer|]|]; cbn [mbind outcome_bind]; [|cbn; lia|done].
    destruct (Decoder.check_entries _ _); cbn [mbind outcome_bind]; [|done]. cbn. lia.
  - cbn. lia.
Qed.

Lemma next_step_measure d :
  match flat_next d with
  | Panic => True
  | Done (inl d') => (Decoder.measure d' < Decoder.measure d)%nat
  | Done (inr (d', Ok None)) => (Decoder.measure d' <= Decoder.measure d)%nat
  | Done (inr (d', _)) => (Decoder.measure d' < Decoder.measure d)%nat
  end.
Proof. pose proof (step_measure d) as Hm. unfold next_step. destruct (flat_step d) as [[|[? [[]|[[]|]]]]|]; done. Qed.

Lemma try_read_fuel_enough fuel d : (Decoder.measure d < fuel)%nat -> try_read_fuel fuel d = try_read d.
Proof.
  unfold Decoder.try_read. remember (Decoder.measure d) as n eqn:Hn. revert fuel d Hn. induction (lt_wf n) as [n _ IH]. intros fuel d -> Hfuel.
  destruct fuel as [|fuel]; [lia|]. rewrite !try_read_fuel_S. pose proof (next_step_measure d) as Hm.
  destruct (flat_next d) as [[d'|]|]; [|done..]. rewrite (IH (Decoder.measure d') Hm fuel d' eq_refl) by lia. symmetry. by apply (IH (Decoder.measure d') Hm).
Qed.

(** [try_read] is the iteration of its steps. *)
Lemma try_read_unfold d :
  try_read d = match flat_next d with
               | Panic => Panic
               | Done (inl d') => try_read d'
               | Done (inr result) => returns result
               end.
Proof.
  rewrite <- (try_read_fuel_enough (S (Decoder.measure d)) d) by lia. rewrite try_read_fuel_S. pose proof (next_step_measure d) as Hm.
  destruct (flat_next d) as [[d'|]|]; [|done..]. by apply try_read_fuel_enough.
Qed.

(** Induction over the steps of a decoder. *)
Lemma step_ind (P : Decoder.t Flat.t -> Prop) :
  (forall d, (forall d', flat_next d = Done (inl d') -> P d') -> P d) -> forall d, P d.
Proof.
  intros Hstep d. remember (Decoder.measure d) as n eqn:Hn. revert d Hn. induction (lt_wf n) as [n _ IH]. intros d ->. apply Hstep. intros d' Hd'.
  pose proof (next_step_measure d) as Hm. rewrite Hd' in Hm. by apply (IH _ Hm).
Qed.

Lemma try_read_measure d :
  match try_read d with
  | Panic => True
  | Done None => False
  | Done (Some (d', Ok None)) => (Decoder.measure d' <= Decoder.measure d)%nat
  | Done (Some (d', _)) => (Decoder.measure d' < Decoder.measure d)%nat
  end.
Proof.
  induction d as [d IH] using step_ind. rewrite try_read_unfold. pose proof (next_step_measure d) as Hm. destruct (flat_next d) as [[d'|[d' r]]|]; [|done..].
  specialize (IH d' eq_refl). destruct (try_read d') as [[[d'' [[]|]]|]|]; try done; lia.
Qed.

(** *** More bytes *)

Definition blocked d (result : result (option Message) DecodeError) : Prop := result = Ok None /\ Decoder.state d <> Aborted.

Lemma step_ext d m :
  match flat_step d with
  | Panic => flat_step (ext d m) = Panic
  | Done (inl d') => flat_step (ext d m) = Done (inl (ext d' m))
  | Done (inr (d', result)) =>
      flat_step (ext d m) = Done (inr (ext d' m, result)) /\ (result = Ok None -> Decoder.state d' = Aborted)
      \/ d' = d /\ blocked d result
  end.
Proof.
  destruct d as [v o f state cache ms]. unfold step, Decoder.try_read_impl, blocked. cbn [Decoder.push_byte_chunk Decoder.state Decoder.byte_chunks].
  destruct state; cbn [source_try_read source_try_peek source_num_read source_push Flat.source].
  - change (Flat.num_read (Flat.push f m)) with (Flat.num_read f).
    destruct (flat_try_read f (Z.of_nat StreamHeader.ENCODED_SIZE_BYTES)) as [[-> Hp]|[->|(f' & bytes & -> & _ & _ & Hp)]];
      [by rewrite Hp|by right|]. rewrite Hp. cbn [mbind outcome_bind].
    destruct (StreamHeader.from_dlr_bytes bytes) as [h|]; [destruct (StreamHeader.to_version_and_options h) as [[v' o']|]|];
      try (destruct (_ =? 0); by left). by destruct (EncodingOptions.serializer o').
  - destruct (Nat.eqb_spec (length (take MessageHeader.ENCODED_SIZE_BYTES (Flat.unread f))) MessageHeader.ENCODED_SIZE_BYTES) as [Hl|]; [|by right].
    rewrite length_take in Hl. cbn [Flat.push Flat.unread]. rewrite take_app_le by lia.
    rewrite (proj2 (Nat.eqb_eq _ _)) by (rewrite length_take; lia).
    destruct (MessageHeader.from_dlr_bytes _) as [h|e] eqn:Hh; [|by apply message_header_error in Hh as [frame ->]].
    destruct (flat_try_read f (Z.of_nat MessageHeader.ENCODED_SIZE_BYTES)) as [[-> Hp]|[Hp|(f' & bytes & -> & _ & _ & Hp)]]; [by rewrite Hp| |by rewrite Hp].
    unfold Flat.try_read in Hp. unfold MessageHeader.ENCODED_SIZE_BYTES in *. rewrite (proj2 (Z.ltb_ge _ _)) in Hp by int_lia.
    rewrite !(proj2 (Z.leb_le _ _)) in Hp by lia. done.
  - change (Flat.num_read (Flat.push f m)) with (Flat.num_read f).
    destruct (flat_try_read f (MessageHeader.len header)) as [[-> Hp]|[->|(f' & bytes & -> & _ & _ & Hp)]]; [by rewrite Hp|by right|].
    rewrite Hp. cbn [mbind outcome_bind Decoder.with_byte_chunks Decoder.app_id_cache Decoder.version].
    destruct (decode _ _ _ _ _) as [cache' [[message|]|e]]; [by left| |by left].
    destruct bytes as [|b bytes]; [done|]. destruct (proto_from_dlr_bytes _); [done|by left].
  - destruct (flat_try_read f (Z.of_nat StreamFooter.ENCODED_SIZE_BYTES)) as [[-> Hp]|[->|(f' & bytes & -> & _ & _ & Hp)]];
      [by rewrite Hp|by right|]. rewrite Hp. cbn [mbind outcome_bind].
    destruct (StreamFooter.from_dlr_bytes bytes) as [[footer|]|]; cbn [mbind outcome_bind]; [|by left|done].
    by destruct (Decoder.check_entries _ _).
  - by left.
Qed.

Lemma next_step_ext d m :
  match flat_next d with
  | Panic => flat_next (ext d m) = Panic
  | Done (inl d') => flat_next (ext d m) = Done (inl (ext d' m))
  | Done (inr (d', result)) =>
      flat_next (ext d m) = Done (inr (ext d' m, result)) /\ (result = Ok None -> Decoder.state d' = Aborted)
      \/ d' = d /\ blocked d result
  end.
Proof.
  pose proof (step_ext d m) as Hs. unfold next_step. destruct (flat_step d) as [[d'|[d' r]]|]; [by rewrite Hs| |by rewrite Hs].
  destruct r as [o|[[]|]]; destruct Hs as [[-> Ha]|[-> [? ?]]]; try done; by (left + right).
Qed.

Lemma try_read_aborted d : Decoder.state d = Aborted -> try_read d = returns (d, Ok None).
Proof. intros Hd. rewrite try_read_unfold. unfold next_step, step, Decoder.try_read_impl. by rewrite Hd. Qed.

(** More bytes only matter to a decoder that lacks them. *)
Lemma try_read_ext d m :
  match try_read d with
  | Panic => try_read (ext d m) = Panic
  | Done None => False
  | Done (Some (d', Ok None)) => try_read (ext d m) = try_read (ext d' m)
  | Done (Some (d', result)) => try_read (ext d m) = returns (ext d' m, result)
  end.
Proof.
  induction d as [d IH] using step_ind. rewrite (try_read_unfold d), (try_read_unfold (ext d m)). pose proof (next_step_ext d m) as Hs.
  destruct (flat_next d) as [[d'|[d' r]]|] eqn:Hd; [rewrite Hs; by apply IH| |by rewrite Hs].
  cbn [returns]. destruct Hs as [[-> Ha]|[-> [-> _]]]; [|by rewrite <- try_read_unfold].
  destruct r as [[]|]; [done| |done]. symmetry. by apply try_read_aborted, Ha.
Qed.

(** *** The iterator *)

Implicit Types it : DecoderIterator.t Flat.t.
#[local] Arguments Decoder.measure : simpl never.
Abbreviation next_loop d reader := (DecoderIterator.next_loop overflow_checks d reader).

Lemma measure_ext d m : Decoder.measure (ext d m) = (Decoder.measure d + 3 * length m)%nat.
Proof. unfold Decoder.measure. cbn. rewrite length_app. lia. Qed.

Lemma ext_nil d : ext d [] = d.
Proof. destruct d as [v o [n u] state cache ms]. unfold Decoder.push_byte_chunk. cbn. unfold Flat.push. cbn. by rewrite app_nil_r. Qed.

Lemma ext_app d m m' : ext (ext d m) m' = ext d (m ++ m').
Proof. unfold Decoder.push_byte_chunk. cbn. unfold Flat.push. cbn. by rewrite app_assoc. Qed.

(** A decoder that waits still waits when it is asked again. *)
Lemma try_read_again d d' : try_read d = returns (d', Ok None) -> try_read d' = returns (d', Ok None).
Proof. intros Hd. pose proof (try_read_ext d []) as Hext. rewrite Hd in Hext. unfold returns in Hext at 1. by rewrite !ext_nil, Hd in Hext. Qed.

(** An item takes a step; without one, the iterator ends. *)
Definition item_measure (n : nat) (o : fueled DecoderIterator.Next) : Prop :=
  match o with
  | Panic => True
  | Done None => False
  | Done (Some (it, Some _)) => (DecoderIterator.measure it < n)%nat
  | Done (Some (it, None)) => True
  end.

Lemma item_measure_read d reader n (f : Decoder.t Flat.t -> fueled DecoderIterator.Next) :
  (Decoder.measure d + sum_list_with DecoderIterator.event_measure reader <= n)%nat ->
  (forall d', (Decoder.measure d' <= Decoder.measure d)%nat -> item_measure n (f d')) ->
  item_measure n ('(d', result) ← try_read d;
    match result with
    | Ok (Some msg) => returns (DecoderIterator.Mk d' reader None, Some (Ok msg))
    | Err err => returns (DecoderIterator.Mk d' reader None, Some (Err err))
    | Ok None => f d'
    end).
Proof.
  intros Hn Hf. pose proof (try_read_measure d) as Hm. destruct (try_read d) as [[[d' [[msg|]|err]]|]|]; cbn [mbind fueled_bind]; try done.
  - cbn. unfold DecoderIterator.measure. cbn. lia.
  - by apply Hf.
  - cbn. unfold DecoderIterator.measure. cbn. lia.
Qed.

Lemma at_eof_measure d reader n :
  (Decoder.measure d + sum_list_with DecoderIterator.event_measure reader <= n)%nat ->
  item_measure n (DecoderIterator.at_eof overflow_checks d reader).
Proof.
  intros Hn. unfold DecoderIterator.at_eof. pose proof (try_read_measure d) as Hm.
  destruct (try_read d) as [[[d' [[msg|]|err]]|]|]; cbn [mbind fueled_bind]; try done; cbn; unfold DecoderIterator.measure; cbn; lia.
Qed.

Lemma next_loop_measure reader d n :
  (Decoder.measure d + sum_list_with DecoderIterator.event_measure reader <= n)%nat -> item_measure n (next_loop d reader).
Proof.
  revert d. induction reader as [|event reader IH]; intros d Hn; cbn [DecoderIterator.next_loop]; apply item_measure_read; try done; intros d' Hd'.
  - apply at_eof_measure. lia.
  - cbn [sum_list_with] in Hn. destruct event as [[|z buf]| |e]; cbn [DecoderIterator.event_measure] in Hn.
    + apply at_eof_measure. lia.
    + apply IH. rewrite measure_ext. lia.
    + apply IH. lia.
    + cbn. unfold DecoderIterator.measure. cbn. lia.
Qed.

Lemma next_measure it : item_measure (DecoderIterator.measure it) (DecoderIterator.next overflow_checks it).
Proof.
  destruct it as [d reader [m|]]; unfold DecoderIterator.next, DecoderIterator.measure; cbn [DecoderIterator.first_msg DecoderIterator.decoder DecoderIterator.reader].
  - cbn. unfold DecoderIterator.measure. cbn. lia.
  - apply next_loop_measure. lia.
Qed.

Lemma collect_fuel_ends fuel it : (DecoderIterator.measure it < fuel)%nat ->
  match DecoderIterator.collect_fuel overflow_checks fuel it with
  | Panic => True
  | Done None => False
  | Done (Some (_, items)) => (length items <= DecoderIterator.measure it)%nat
  end.
Proof.
  revert it. induction fuel as [|fuel IH]; intros it Hfuel; [lia|]. cbn [DecoderIterator.collect_fuel]. pose proof (next_measure it) as Hm.
  destruct (DecoderIterator.next _ it) as [[[it' [item|]]|]|]; cbn [mbind fueled_bind item_measure] in *; [|cbn; lia|done..].
  specialize (IH it' ltac:(lia)). destruct (DecoderIterator.collect_fuel _ fuel it') as [[[it'' items]|]|]; [|done..]. cbn. lia.
Qed.

(** *** All the messages of some bytes *)

Fixpoint drain_fuel (fuel : nat) d : fueled (Decoder.t Flat.t * list (result Message DecodeError)) :=
  match fuel with
  | O => Done None
  | S fuel =>
      '(d, result) ← try_read d;
      match result with
      | Ok None => returns (d, [])
      | Ok (Some msg) => '(d, items) ← drain_fuel fuel d; returns (d, Ok msg :: items)
      | Err err => '(d, items) ← drain_fuel fuel d; returns (d, Err err :: items)
      end
  end.

Definition drain d := drain_fuel (S (Decoder.measure d)) d.

Lemma drain_fuel_enough fuel d : (Decoder.measure d < fuel)%nat -> drain_fuel fuel d = drain d.
Proof.
  unfold drain. remember (Decoder.measure d) as n eqn:Hn. revert fuel d Hn. induction (lt_wf n) as [n _ IH]. intros fuel d -> Hfuel.
  destruct fuel as [|fuel]; [lia|]. cbn [drain_fuel]. pose proof (try_read_measure d) as Hm.
  destruct (try_read d) as [[[d' [[msg|]|err]]|]|]; cbn [mbind fueled_bind]; try done;
    rewrite (IH _ Hm fuel d' eq_refl) by lia; by rewrite (IH _ Hm (Decoder.measure d) d' eq_refl) by lia.
Qed.

Lemma drain_unfold d :
  drain d = '(d, result) ← try_read d;
            match result with
            | Ok None => returns (d, [])
            | Ok (Some msg) => '(d, items) ← drain d; returns (d, Ok msg :: items)
            | Err err => '(d, items) ← drain d; returns (d, Err err :: items)
            end.
Proof.
  unfold drain at 1. cbn [drain_fuel]. pose proof (try_read_measure d) as Hm.
  destruct (try_read d) as [[[d' [[msg|]|err]]|]|]; cbn [mbind fueled_bind]; try done; by rewrite drain_fuel_enough by lia.
Qed.

(** A reader that does not fail or end early. *)
Definition clean (reader : list ReaderEvent) : Prop :=
  Forall (fun event => match event with Data [] | Failed _ => False | _ => True end) reader.
Definition bytes_of (reader : list ReaderEvent) : list Z :=
  reader ≫= (fun event => match event with Data buf => buf | _ => [] end).

Lemma next_loop_clean reader d : clean reader ->
  match next_loop d reader with
  | Panic => try_read (ext d (bytes_of reader)) = Panic
  | Done None => False
  | Done (Some (it, None)) => try_read (ext d (bytes_of reader)) = returns (DecoderIterator.decoder it, Ok None)
  | Done (Some (it, Some item)) =>
      try_read (ext d (bytes_of reader))
      = returns (ext (DecoderIterator.decoder it) (bytes_of (DecoderIterator.reader it)),
                 match item with Ok msg => Ok (Some msg) | Err err => Err err end)
      /\ clean (DecoderIterator.reader it) /\ DecoderIterator.first_msg it = None
  end.
Proof.
  intros Hclean. revert d. induction Hclean as [|event reader Hevent Hclean IH]; intros d; cbn [DecoderIterator.next_loop].
  - change (bytes_of []) with (@nil Z). rewrite ext_nil. pose proof (try_read_measure d) as Hm.
    destruct (try_read d) as [[[d' [[msg|]|err]]|]|] eqn:Hd; cbn [mbind fueled_bind]; try done.
    + cbn. rewrite ext_nil. by repeat constructor.
    + unfold DecoderIterator.at_eof. by rewrite (try_read_again _ _ Hd).
    + cbn. rewrite ext_nil. by repeat constructor.
  - set (m := bytes_of (event :: reader)). pose proof (try_read_ext d m) as Hext.
    destruct (try_read d) as [[[d' [[msg|]|err]]|]|]; cbn [mbind fueled_bind]; try done.
    + split; [done|]. split; [by constructor|done].
    + rewrite Hext. destruct event as [[|z buf]| |e]; try done; [|by apply IH].
      subst m. change (bytes_of (Data (z :: buf) :: reader)) with ((z :: buf) ++ bytes_of reader). rewrite <- ext_app. apply IH.
    + split; [done|]. split; [by constructor|done].
Qed.

Lemma collect_fuel_clean fuel reader d : clean reader ->
  fueled_rel (fun r r' => DecoderIterator.decoder r.1 = r'.1 /\ r.2 = r'.2)
    (DecoderIterator.collect_fuel overflow_checks fuel (DecoderIterator.Mk d reader None)) (drain_fuel fuel (ext d (bytes_of reader))).
Proof.
  revert reader d. induction fuel as [|fuel IH]; intros reader d Hclean; [done|]. cbn [DecoderIterator.collect_fuel drain_fuel DecoderIterator.next DecoderIterator.first_msg DecoderIterator.decoder DecoderIterator.reader].
  pose proof (next_loop_clean reader d Hclean) as Hnext. destruct (next_loop d reader) as [[[it [item|]]|]|]; cbn [mbind fueled_bind]; [| |done|by rewrite Hnext].
  - destruct Hnext as (-> & Hclean' & Hfirst). destruct it as [d' reader' first]. cbn [DecoderIterator.first_msg] in Hfirst. subst first.
    cbn [DecoderIterator.decoder DecoderIterator.reader] in *. specialize (IH reader' d' Hclean').
    destruct item as [msg|err]; (cbn [returns mbind fueled_bind]; eapply fueled_rel_bind; [exact IH|]; intros [] [] [? [= <-]]; done).
  - by rewrite Hnext.
Qed.

Lemma collect_clean reader d : clean reader ->
  fueled_rel (fun r r' => DecoderIterator.decoder r.1 = r'.1 /\ r.2 = r'.2)
    (DecoderIterator.collect overflow_checks (DecoderIterator.Mk d reader None)) (drain (ext d (bytes_of reader))).
Proof.
  intros Hclean. unfold DecoderIterator.collect. set (fuel := S _). rewrite <- (drain_fuel_enough fuel); [by apply collect_fuel_clean|].
  subst fuel. unfold DecoderIterator.measure. cbn [DecoderIterator.decoder DecoderIterator.reader DecoderIterator.first_msg].
  rewrite measure_ext. enough (3 * length (bytes_of reader) <= sum_list_with DecoderIterator.event_measure reader)%nat by lia.
  induction reader as [|event reader IH]; [done|]. apply Forall_cons in Hclean as [_ Hclean]. specialize (IH Hclean).
  change (bytes_of (event :: reader)) with (match event with Data buf => buf | _ => [] end ++ bytes_of reader).
  rewrite length_app. destruct event; cbn in *; lia.
Qed.

End Machine.

(** ** Over the buffer of chunks *)

Section Results.
Context `{LocalVersion, Protos, DecoderEntrypoint} (overflow_checks : bool).

(** The decoder before it is given any bytes, and all that it reads from some bytes. *)
Definition flat_new : Decoder.t Flat.t := Decoder.new.
Definition read_all (bytes : list Z) : fueled (Decoder.t Flat.t * list (result Message DecodeError)) :=
  drain overflow_checks (Decoder.push_byte_chunk flat_new bytes).

(** A decoder of chunks that has read what the flat one has. *)
Definition reads_as (r : DecoderIterator.t ByteChunkBuffer.t * list (result Message DecodeError))
    (r' : Decoder.t Flat.t * list (result Message DecodeError)) : Prop :=
  decoder_rel (DecoderIterator.decoder r.1) r'.1 /\ r.2 = r'.2.

Lemma collect_reads_all reader : clean reader ->
  fueled_rel reads_as (DecoderIterator.collect overflow_checks (DecoderIterator.decode_lazy reader)) (read_all (bytes_of reader)).
Proof.
  intros Hclean. pose proof (collect_sim overflow_checks _ _ (decode_lazy_sim (B := ByteChunkBuffer.t) reader)) as Hsim.
  pose proof (collect_clean overflow_checks reader flat_new Hclean) as Hflat. unfold read_all.
  change (DecoderIterator.Mk flat_new reader None) with (DecoderIterator.decode_lazy (B := Flat.t) reader) in Hflat.
  destruct (DecoderIterator.collect _ (DecoderIterator.decode_lazy (B := ByteChunkBuffer.t) reader)) as [[[it items]|]|],
    (DecoderIterator.collect _ (DecoderIterator.decode_lazy (B := Flat.t) reader)) as [[[it' items']|]|],
    (drain _ _) as [[[d items'']|]|]; try done.
  destruct Hsim as [Hrel Hi], Hflat as [Hd Hi']. cbn [fst snd] in *. subst. split; [|done]. by destruct Hrel.
Qed.

(** The fuel is enough. *)
Lemma collect_fueled (reader : list ReaderEvent) :
  DecoderIterator.collect overflow_checks (DecoderIterator.decode_lazy (B := ByteChunkBuffer.t) reader) <> Done None.
Proof.
  pose proof (collect_sim overflow_checks _ _ (decode_lazy_sim (B := ByteChunkBuffer.t) reader)) as Hsim.
  pose proof (collect_fuel_ends overflow_checks _ (DecoderIterator.decode_lazy reader) (Nat.lt_succ_diag_r _)) as Hends.
  change (DecoderIterator.collect_fuel _ _ _) with (DecoderIterator.collect overflow_checks (DecoderIterator.decode_lazy (B := Flat.t) reader)) in Hends.
  intros Hnone. rewrite Hnone in Hsim. by destruct (DecoderIterator.collect _ (DecoderIterator.decode_lazy (B := Flat.t) reader)) as [[[it items]|]|].
Qed.

(** Readers of the same bytes give the same items, and leave the decoder alike. *)
Lemma collect_same (reader1 reader2 : list ReaderEvent) : clean reader1 -> clean reader2 -> bytes_of reader1 = bytes_of reader2 ->
  fueled_rel (fun r1 r2 =>
    r1.2 = r2.2
    /\ Decoder.dlr_manifests (DecoderIterator.decoder r1.1) = Decoder.dlr_manifests (DecoderIterator.decoder r2.1)
    /\ Decoder.state (DecoderIterator.decoder r1.1) = Decoder.state (DecoderIterator.decoder r2.1))
    (DecoderIterator.collect overflow_checks (DecoderIterator.decode_lazy (B := ByteChunkBuffer.t) reader1))
    (DecoderIterator.collect overflow_checks (DecoderIterator.decode_lazy (B := ByteChunkBuffer.t) reader2)).
Proof.
  intros Hclean1 Hclean2 Hbytes.
  pose proof (collect_reads_all reader1 Hclean1) as H1'. pose proof (collect_reads_all reader2 Hclean2) as H2'. rewrite <- Hbytes in H2'.
  destruct (DecoderIterator.collect _ (DecoderIterator.decode_lazy reader1)) as [[[it1 items1]|]|],
    (DecoderIterator.collect _ (DecoderIterator.decode_lazy reader2)) as [[[it2 items2]|]|],
    (read_all _) as [[[d items]|]|]; try done.
  destruct H1' as [Hrel1 Hi1], H2' as [Hrel2 Hi2]. cbn [fueled_rel fst snd] in *. subst. split; [done|]. destruct Hrel1. by inversion Hrel2.
Qed.

(** C6.  Decoding stops, whatever bytes, interruptions and errors the reader gives, and whatever the
    messages are decoded to: the iterator reaches its end (or a panic) after a number of items that
    the bytes and the events bound. *)
Theorem decoder_terminates (reader : list ReaderEvent) :
  match DecoderIterator.collect overflow_checks (DecoderIterator.decode_lazy (B := ByteChunkBuffer.t) reader) with
  | Panic => True
  | Done None => False
  | Done (Some (_, items)) => (length items <= sum_list_with DecoderIterator.event_measure reader)%nat
  end.
Proof.
  pose proof (collect_sim overflow_checks _ _ (decode_lazy_sim (B := ByteChunkBuffer.t) reader)) as Hsim.
  pose proof (collect_fuel_ends overflow_checks _ (DecoderIterator.decode_lazy reader) (Nat.lt_succ_diag_r _)) as Hends.
  change (DecoderIterator.collect_fuel _ _ _) with (DecoderIterator.collect overflow_checks (DecoderIterator.decode_lazy (B := Flat.t) reader)) in Hends.
  destruct (DecoderIterator.collect _ (DecoderIterator.decode_lazy (B := ByteChunkBuffer.t) reader)) as [[[it items]|]|],
    (DecoderIterator.collect _ (DecoderIterator.decode_lazy (B := Flat.t) reader)) as [[[it' items']|]|]; try done.
  destruct Hsim as [_ [= <-]]. change (DecoderIterator.measure (B := Flat.t) _) with (0 + sum_list_with DecoderIterator.event_measure reader + 0)%nat in Hends. lia.
Qed.

(** C5.  What is decoded depends on the bytes alone.  Two readers that give the same bytes, in chunks
    of any sizes and with any interruptions, give the same messages and errors in the same order and the same
    manifests, or both make the decoder panic. *)
Theorem decoder_chunking (reader1 reader2 : list ReaderEvent)
    (Hclean1 : clean reader1) (Hclean2 : clean reader2) (Hbytes : bytes_of reader1 = bytes_of reader2) :
  match DecoderIterator.collect overflow_checks (DecoderIterator.decode_lazy (B := ByteChunkBuffer.t) reader1),
        DecoderIterator.collect overflow_checks (DecoderIterator.decode_lazy (B := ByteChunkBuffer.t) reader2) with
  | Panic, Panic => True
  | Done (Some (it1, items1)), Done (Some (it2, items2)) =>
      items1 = items2
      /\ Decoder.dlr_manifests (DecoderIterator.decoder it1) = Decoder.dlr_manifests (DecoderIterator.decoder it2)
      /\ Decoder.state (DecoderIterator.decoder it1) = Decoder.state (DecoderIterator.decoder it2)
  | _, _ => False
  end.
Proof.
  pose proof (collect_same reader1 reader2 Hclean1 Hclean2 Hbytes) as Hsame. pose proof (collect_fueled reader1) as Hfuel.
  destruct (DecoderIterator.collect _ (DecoderIterator.decode_lazy reader1)) as [[[it1 items1]|]|],
    (DecoderIterator.collect _ (DecoderIterator.decode_lazy reader2)) as [[[it2 items2]|]|]; done.
Qed.

End Results.
