(* ===== verification/DlrStream.v ===== *)
(** * The asynchronous decoder of the log format

    [stream.rs] of [store/dl_log_encoding/src/dlr/decoder/]: the loop of the iterator, which can be
    left where the reader has nothing yet, and is entered again when the stream is polled again. *)

From S2P Require Import Prelude Ints CrateVersion DlrFrames DlrDecoder DlrDecoderSpec.

(** What polls of [fill_buf] give: what it gives, or nothing yet. *)
Inductive PollEvent :=
| Ready (event : ReaderEvent)
| Pending.

(** [std::task::Poll]. *)
Inductive Poll (A : Type) :=
| PollReady (a : A)
| PollPending.
Arguments PollReady {A} _.
Arguments PollPending {A}.

Module DecoderStream.

Record t `{Protos, DecoderEntrypoint} (B : Type) := Mk {
  decoder : Decoder.t B;
  reader : list PollEvent;
  first_msg : option Message;
}.
Arguments Mk {_ _ _} _ _ _.
Arguments decoder {_ _ _}.
Arguments reader {_ _ _}.
Arguments first_msg {_ _ _}.

Section DecoderStream.
Context `{LocalVersion, Protos, DecoderEntrypoint} {B : Type} `{ByteSource B}.
Context (overflow_checks : bool).

Definition Item : Type := option (result Message DecodeError).
Definition Polled : Type := t B * Poll Item.

(** The arm of the end of the file. *)
Definition at_eof (decoder : Decoder.t B) (reader : list PollEvent) : fueled Polled :=
  '(decoder, result) ← Decoder.try_read overflow_checks decoder;
  returns (Mk decoder reader None,
    PollReady match result with Ok (Some msg) => Some (Ok msg) | Ok None => None | Err err => Some (Err err) end).

(** The [loop] of [poll_next]. *)
Fixpoint poll_loop (decoder : Decoder.t B) (reader : list PollEvent) : fueled Polled :=
  '(decoder, result) ← Decoder.try_read overflow_checks decoder;
  match result with
  | Ok (Some msg) => returns (Mk decoder reader None, PollReady (Some (Ok msg)))
  | Err err => returns (Mk decoder reader None, PollReady (Some (Err err)))
  | Ok None =>
      match reader with
      | [] => at_eof decoder []
      | Ready (Data []) :: reader => at_eof decoder reader
      | Ready (Data buf) :: reader => poll_loop (Decoder.push_byte_chunk decoder buf) reader
      | Ready Interrupted :: reader => poll_loop decoder reader
      | Ready (Failed e) :: reader => returns (Mk decoder reader None, PollReady (Some (Err (Read e))))
      | Pending :: reader => returns (Mk decoder reader None, PollPending)
      end
  end.

Definition poll_next (self : t B) : fueled Polled :=
  match first_msg self with
  | Some first_msg => returns (Mk (decoder self) (reader self) None, PollReady (Some (Ok first_msg)))
  | None => poll_loop (decoder self) (reader self)
  end.

(** [next().await]: polled until it is ready; every poll that is not takes an event. *)
Fixpoint next_fuel (fuel : nat) (self : t B) : fueled (t B * Item) :=
  match fuel with
  | O => Done None
  | S fuel =>
      '(self, poll) ← poll_next self;
      match poll with
      | PollReady item => returns (self, item)
      | PollPending => next_fuel fuel self
      end
  end.

Definition next (self : t B) : fueled (t B * Item) := next_fuel (S (length (reader self))) self.

Definition new (reader : list PollEvent) : t B := Mk Decoder.new reader None.

Definition decode_eager_async (reader : list PollEvent) : fueled (result (t B) DecodeError) :=
  '(it, item) ← next (new reader);
  match item with
  | None => returns (Ok it)
  | Some (Ok msg) => returns (Ok (Mk (decoder it) (DecoderStream.reader it) (Some msg)))
  | Some (Err err) => returns (Err err)
  end.

(** The items of the stream, up to its first [None], with the stream that is left. *)
Fixpoint collect_fuel (fuel : nat) (self : t B) : fueled (t B * list (result Message DecodeError)) :=
  match fuel with
  | O => Done None
  | S fuel =>
      '(self, item) ← next self;
      match item with
      | None => returns (self, [])
      | Some item => '(self, items) ← collect_fuel fuel self; returns (self, item :: items)
      end
  end.

(** ** The stream and the iterator *)

(** A poll of the stream that is not ready is an interruption of the iterator. *)
Definition as_interrupted (event : PollEvent) : ReaderEvent :=
  match event with Ready event => event | Pending => Interrupted end.
Definition to_iterator (self : t B) : DecoderIterator.t B :=
  DecoderIterator.Mk (decoder self) (as_interrupted <$> reader self) (first_msg self).

Definition collect (self : t B) : fueled (t B * list (result Message DecodeError)) :=
  collect_fuel (S (DecoderIterator.measure (to_iterator self))) self.

Definition agrees {A} (r : t B * A) (r' : DecoderIterator.t B * A) : Prop := to_iterator r.1 = r'.1 /\ r.2 = r'.2.

(** One poll: what the iterator gives, or a stream from which the iterator would go on. *)
Definition poll_agrees (polled : fueled Polled) (size : nat) (next : fueled (DecoderIterator.Next (B := B))) : Prop :=
  match polled with
  | Panic => next = Panic
  | Done None => next = Done None
  | Done (Some (self, PollReady item)) => next = returns (to_iterator self, item)
  | Done (Some (self, PollPending)) => next = DecoderIterator.next overflow_checks (to_iterator self) /\ (length (reader self) < size)%nat
  end.

Lemma at_eof_agrees decoder reader size :
  poll_agrees (at_eof decoder reader) size (DecoderIterator.at_eof overflow_checks decoder (as_interrupted <$> reader)).
Proof. unfold at_eof, DecoderIterator.at_eof. by destruct (Decoder.try_read _ decoder) as [[[decoder' result]|]|]. Qed.

Lemma poll_agrees_le polled size size' next : (size <= size')%nat -> poll_agrees polled size next -> poll_agrees polled size' next.
Proof. intros Hle. destruct polled as [[[self [item|]]|]|]; cbn; [done| |done..]. intros [? ?]. split; [done|lia]. Qed.

Lemma poll_loop_agrees decoder reader :
  poll_agrees (poll_loop decoder reader) (length reader) (DecoderIterator.next_loop overflow_checks decoder (as_interrupted <$> reader)).
Proof.
  revert decoder. induction reader as [|event reader IH]; intros decoder; cbn [poll_loop DecoderIterator.next_loop fmap list_fmap];
    destruct (Decoder.try_read _ decoder) as [[[decoder' [[msg|]|err]]|]|]; try done; cbn [mbind fueled_bind]; [by apply at_eof_agrees|].
  destruct event as [[[|z buf]| |e]|]; cbn [as_interrupted]; [| | |done|].
  - by apply at_eof_agrees.
  - eapply poll_agrees_le, IH. cbn. lia.
  - eapply poll_agrees_le, IH. cbn. lia.
  - split; [done|]. cbn. lia.
Qed.

Lemma poll_next_agrees self : poll_agrees (poll_next self) (length (reader self)) (DecoderIterator.next overflow_checks (to_iterator self)).
Proof. destruct self as [d reader [msg|]]; [done|]. apply poll_loop_agrees. Qed.

Lemma next_fuel_agrees fuel self : (length (reader self) < fuel)%nat ->
  fueled_rel agrees (next_fuel fuel self) (DecoderIterator.next overflow_checks (to_iterator self)).
Proof.
  revert self. induction fuel as [|fuel IH]; intros self Hfuel; [lia|]. cbn [next_fuel]. pose proof (poll_next_agrees self) as Hpoll.
  destruct (poll_next self) as [[[self' [item|]]|]|]; cbn [mbind fueled_bind poll_agrees] in *; [by rewrite Hpoll| |by rewrite Hpoll..].
  destruct Hpoll as [-> Hless]. apply IH. lia.
Qed.

Lemma collect_fuel_agrees fuel self : fueled_rel agrees (collect_fuel fuel self) (DecoderIterator.collect_fuel overflow_checks fuel (to_iterator self)).
Proof.
  revert self. induction fuel as [|fuel IH]; intros self; [done|]. cbn [collect_fuel DecoderIterator.collect_fuel].
  eapply fueled_rel_bind; [by apply next_fuel_agrees, Nat.lt_succ_diag_r|]. intros [self' item] [it' item'] [Hit Hitem]. cbn [fst snd] in *. subst it' item'.
  destruct item as [item|]; [|done]. eapply fueled_rel_bind; [apply IH|]. intros [self'' items] [it'' items'] [Hit Hitems]. cbn [fst snd] in *. by subst.
Qed.

End DecoderStream.

End DecoderStream.

(** ** What the stream gives *)

Section Results.
Context `{LocalVersion, Protos, DecoderEntrypoint} (overflow_checks : bool).

(** The events of a reader that is always ready. *)
Definition without_pending (reader : list PollEvent) : list ReaderEvent :=
  omap (fun event => match event with Ready event => Some event | Pending => None end) reader.

Lemma without_pending_clean reader : clean (without_pending reader) -> clean (DecoderStream.as_interrupted <$> reader).
Proof.
  unfold clean. induction reader as [|[event|] reader IH]; [done|..]; cbn.
  - rewrite !Forall_cons. intros [? ?]. auto.
  - intros ?. constructor; [done|auto].
Qed.

Lemma without_pending_bytes reader : bytes_of (DecoderStream.as_interrupted <$> reader) = bytes_of (without_pending reader).
Proof.
  unfold bytes_of. induction reader as [|[event|] reader IH]; [done|..]; cbn; [|exact IH]. f_equal. exact IH.
Qed.

(** C7.  The asynchronous stream is the iterator: awaited item by item it gives, for any reader, what
    the iterator gives when it is interrupted where the stream is pending, and for a reader without
    errors what the iterator gives on the same data; it always ends. *)
Theorem stream_spec (reader : list PollEvent) :
  let items := DecoderStream.collect overflow_checks (DecoderStream.new (B := ByteChunkBuffer.t) reader) in
  items <> Done None
  /\ fueled_rel DecoderStream.agrees items
       (DecoderIterator.collect overflow_checks (DecoderIterator.decode_lazy (DecoderStream.as_interrupted <$> reader)))
  /\ (clean (without_pending reader) ->
      fueled_rel (fun r r' => r.2 = r'.2
        /\ Decoder.dlr_manifests (DecoderStream.decoder r.1) = Decoder.dlr_manifests (DecoderIterator.decoder r'.1)) items
        (DecoderIterator.collect overflow_checks (DecoderIterator.decode_lazy (B := ByteChunkBuffer.t) (without_pending reader)))).
Proof.
  intros items. assert (fueled_rel DecoderStream.agrees items
    (DecoderIterator.collect overflow_checks (DecoderIterator.decode_lazy (DecoderStream.as_interrupted <$> reader)))) as Hagrees
    by apply DecoderStream.collect_fuel_agrees.
  pose proof (collect_fueled overflow_checks (DecoderStream.as_interrupted <$> reader)) as Hfuel. split; [|split; [done|]].
  - intros Hnone. rewrite Hnone in Hagrees. by destruct (DecoderIterator.collect _ _) as [[?|]|].
  - intros Hclean. pose proof (collect_same overflow_checks _ _ (without_pending_clean reader Hclean) Hclean (without_pending_bytes reader)) as Hsame.
    destruct items as [[[self items']|]|], (DecoderIterator.collect _ (DecoderIterator.decode_lazy (_ <$> reader))) as [[[it items'']|]|],
      (DecoderIterator.collect _ (DecoderIterator.decode_lazy (without_pending reader))) as [[[it' items''']|]|]; try done.
    destruct Hagrees as [Hit Hitems], Hsame as (Hsame & Hmanifests & _). cbn [fst snd] in *. subst. by split.
Qed.

End Results.
