(* ===== verification/DlrEncoder.v ===== *)
(** * The encoder of the log format

    [store/dl_log_encoding/src/dlr/encoder.rs], writing to a vector of bytes, which does not fail.
    The messages of the application level, how they become messages of the transport level and
    the builder of the manifests are parameters ([Application]): the frames do not look at them.
    The counts of bytes are those of vectors in memory, so that the sums of [u64] are exact. *)

From stdpp Require Import strings.
From S2P Require Import Prelude Ints Text CrateVersion DlrFrames DlrDecoder.

Inductive EncodeError :=
| AlreadyFinished
| AlreadyUnwrapped
| EncodeCodec (e : CodecError)
| EncodeChunk (e : Z)
| EncodeSorbet (e : Z).

(** The application level: [LogMsg], [RrdFooter] and [FooterState]. *)
Class Application `{Protos} := {
  LogMsg : Type;
  to_transport (message : LogMsg) (compression : Compression) : result Msg.t CodecError;
  byte_size_uncompressed (message : Msg.t) : Z;
  RrdFooter : Type;
  rrd_footer_to_transport (dlr_footer : RrdFooter) : result RrdFooterProto CodecError;
  FooterState : Type;
  footer_state_default : FooterState;
  footer_state_append (self : FooterState) (msg : LogMsg) (byte_span_excluding_header : Span.t) (byte_size_uncompressed : Z)
    : FooterState * result unit EncodeError;
  footer_state_finish (self : FooterState) : result RrdFooter EncodeError;
}.

Module Encoder.

Record t `{Application} := Mk {
  serializer : Serializer;
  compression : Compression;
  write : option (list Z);
  num_written : Z;
  footer_state : option FooterState;
  is_finished : bool;
}.
Arguments Mk {_ _} _ _ _ _ _ _.

Section Encoder.
Context `{LocalVersion, Application, Xxh32}.
(** Whether the build has debug assertions. *)
Context (debug_assertions : bool).

Definition with_write (self : t) (write : list Z) (num_written : Z) : t :=
  Mk (serializer self) (compression self) (Some write) num_written (footer_state self) (is_finished self).
Definition with_footer_state (self : t) (footer_state : option FooterState) : t :=
  Mk (serializer self) (compression self) (write self) (num_written self) footer_state (is_finished self).
Definition with_finished (self : t) : t :=
  Mk (serializer self) (compression self) (write self) (num_written self) (footer_state self) true.

(** What a method with [&mut self] gives; it panics where an assertion on frames fails. *)
Definition Method (A : Type) : Type := outcome (t * result A EncodeError).

Definition new_eager (version : CrateVersion.t) (options : EncodingOptions.t) (write : list Z) : outcome (result t EncodeError) :=
  out ← StreamHeader.to_dlr_bytes (StreamHeader.Mk DLR_FOURCC (CrateVersion.to_bytes version) options);
  Done (Ok (Mk (EncodingOptions.serializer options) (EncodingOptions.compression options) (Some (write ++ out))
    (Z.of_nat (length out)) (Some footer_state_default) false)).

(** The writes to [scratch] are the bytes of the message. *)
Definition write_encodable (self : t) (encodable : Msg.t) : t * result (Z * Span.t) EncodeError :=
  if is_finished self then (self, Err AlreadyFinished) else
  match write self with
  | None => (self, Err AlreadyUnwrapped)
  | Some w =>
      let byte_offset_excluding_header := num_written self + Z.of_nat MessageHeader.ENCODED_SIZE_BYTES in
      match serializer self with
      | Protobuf =>
          let scratch := Msg.to_dlr_bytes encodable in
          let n := Z.of_nat (length scratch) in
          let self := with_write self (w ++ scratch) (num_written self + n) in
          let byte_size_excluding_header := n - Z.of_nat MessageHeader.ENCODED_SIZE_BYTES in
          (self, Ok (n, Span.from_start_len byte_offset_excluding_header byte_size_excluding_header))
      end
  end.

Definition append (self : t) (message : LogMsg) : t * result Z EncodeError :=
  match to_transport message (compression self) with
  | Err e => (self, Err (EncodeCodec e))
  | Ok transport =>
      let '(self, written) := write_encodable self transport in
      match written with
      | Err e => (self, Err e)
      | Ok (n, byte_span_excluding_header) =>
          match footer_state self with
          | None => (self, Ok n)
          | Some footer_state =>
              let '(footer_state, appended) :=
                footer_state_append footer_state message byte_span_excluding_header (byte_size_uncompressed transport) in
              let self := with_footer_state self (Some footer_state) in
              match appended with Ok _ => (self, Ok n) | Err e => (self, Err e) end
          end
      end
  end.

(** The messages may be the errors of what makes them. *)
Fixpoint extend_from (self : t) (messages : list (result LogMsg Z)) (size_bytes : Z) : t * result Z EncodeError :=
  match messages with
  | [] => (self, Ok size_bytes)
  | Err e :: _ => (self, Err (EncodeChunk e))
  | Ok message :: messages =>
      let '(self, appended) := append self message in
      match appended with
      | Err e => (self, Err e)
      | Ok n => extend_from self messages (size_bytes + n)
      end
  end.

Definition extend (self : t) (messages : list (result LogMsg Z)) : t * result Z EncodeError := extend_from self messages 0.

Definition do_not_emit_footer (self : t) : t := with_footer_state self None.

Definition append_transport_without_footer (self : t) (message : Msg.t) : t * result (Span.t * Z) EncodeError :=
  let self := do_not_emit_footer self in
  let '(self, written) := write_encodable self message in
  match written with
  | Err e => (self, Err e)
  | Ok (_, byte_span_excluding_header) => (self, Ok (byte_span_excluding_header, byte_size_uncompressed message))
  end.

(** The writer and the count after the three writes. *)
Definition finish_impl (w : list Z) (num_written : Z) (dlr_footer : RrdFooter) : outcome (list Z * Z * result unit EncodeError) :=
  match rrd_footer_to_transport dlr_footer with
  | Err e => Done (w, num_written, Err (EncodeCodec e))
  | Ok dlr_footer =>
      let out_dlr_footer := prost_encode dlr_footer in
      let out_header := MessageHeader.to_dlr_bytes (MessageHeader.Mk End (Z.of_nat (length out_dlr_footer))) in
      let w := w ++ out_header in
      let num_written := num_written + Z.of_nat (length out_header) in
      let end_msg_byte_offset_from_start_excluding_header := num_written in
      let w := w ++ out_dlr_footer in
      let num_written := num_written + Z.of_nat (length out_dlr_footer) in
      out_stream_footer ←
        StreamFooter.to_dlr_bytes (StreamFooter.from_dlr_footer_bytes end_msg_byte_offset_from_start_excluding_header out_dlr_footer);
      let w := w ++ out_stream_footer in
      let num_written := num_written + Z.of_nat (length out_stream_footer) in
      Done (w, num_written, Ok tt)
  end.

Definition finish_with_custom_footer (self : t) (dlr_footer : RrdFooter) : Method unit :=
  if is_finished self then Done (self, Ok tt) else
  match write self with
  | None => Done (self, Err AlreadyUnwrapped)
  | Some w =>
      let self := with_finished self in
      if debug_assertions && bool_decide (is_Some (footer_state self)) then Panic else
      '(w, num_written, finished) ← finish_impl w (num_written self) dlr_footer;
      Done (with_write self w num_written, finished)
  end.

Definition finish (self : t) : Method unit :=
  if is_finished self then Done (self, Ok tt) else
  match write self with
  | None => Done (self, Err AlreadyUnwrapped)
  | Some w =>
      let self := with_finished self in
      match footer_state self with
      | None => Done (self, Ok tt)
      | Some footer_state =>
          let self := with_footer_state self None in
          match footer_state_finish footer_state with
          | Err e => Done (self, Err e)
          | Ok dlr_footer =>
              '(w, num_written, finished) ← finish_impl w (num_written self) dlr_footer;
              Done (with_write self w num_written, finished)
          end
      end
  end.

Definition into_inner (self : t) : result (list Z) EncodeError :=
  match write self with Some w => Ok w | None => Err AlreadyUnwrapped end.

Definition local : outcome (result t EncodeError) := new_eager LOCAL EncodingOptions.PROTOBUF_COMPRESSED [].

Definition encode (messages : list (result LogMsg Z)) : outcome (result (list Z) EncodeError) :=
  encoder ← local;
  match encoder with
  | Err e => Done (Err e)
  | Ok encoder =>
      let '(encoder, extended) := extend encoder messages in
      match extended with
      | Err e => Done (Err e)
      | Ok _ =>
          '(encoder, finished) ← finish encoder;
          match finished with
          | Err e => Done (Err e)
          | Ok _ => Done (into_inner encoder)
          end
      end
  end.

(** [drop]: the writer that is left, whose errors are only logged. *)
Definition drop_ (self : t) : outcome (option (list Z)) :=
  match write self with
  | None => Done None
  | Some _ => '(self, _) ← finish self; Done (write self)
  end.

(** The encoder that borrows [write] is dropped at the end. *)
Definition encode_into (version : CrateVersion.t) (options : EncodingOptions.t) (messages : list (result LogMsg Z)) (write : list Z)
    : outcome (option (list Z) * result Z EncodeError) :=
  encoder ← new_eager version options write;
  match encoder with
  | Err e => Done (Some write, Err e)
  | Ok encoder =>
      let '(encoder, extended) := extend encoder messages in
      write ← drop_ encoder;
      Done (write, extended)
  end.

End Encoder.

End Encoder.
