(* ===== verification/DlrEncoderSpec.v ===== *)
(** * What is encoded is decoded

    The streams of the encoder, written one after the other and read in any pieces, are decoded
    to their messages. *)

From stdpp Require Import strings.
From S2P Require Import Prelude Ints Text CrateVersion DlrFrames DlrDecoder DlrDecoderSpec DlrEncoder.

(** [xxh32] is of 32 bits. *)
Class Xxh32Laws `{Xxh32} : Prop := xxh32_u32 l seed : 0 <= xxh32 l seed < 2 ^ 32.

(** ** The bytes of a stream *)

Record Stream `{Protos} := MkStream {
  stream_version : CrateVersion.t;
  stream_options : EncodingOptions.t;
  stream_messages : list Msg.t;
  stream_footer : option RrdFooterProto;
}.
Arguments MkStream {_} _ _ _ _.

Section Bytes.
Context `{Protos, Xxh32}.

Definition header_of (version : CrateVersion.t) (options : EncodingOptions.t) : StreamHeader.t :=
  StreamHeader.Mk DLR_FOURCC (CrateVersion.to_bytes version) options.
Definition header_bytes (version : CrateVersion.t) (options : EncodingOptions.t) : list Z :=
  DLR_FOURCC ++ CrateVersion.to_bytes version ++ EncodingOptions.to_dlr_bytes options.
Definition messages_bytes (messages : list Msg.t) : list Z := messages ≫= Msg.to_dlr_bytes.

Definition footer_span (offset : Z) (footer : RrdFooterProto) : Span.t := Span.Mk offset (Z.of_nat (length (prost_encode footer))).
Definition footer_entry (offset : Z) (footer : RrdFooterProto) : StreamFooterEntry.t :=
  StreamFooterEntry.Mk (footer_span offset footer) (StreamFooter.compute_crc (prost_encode footer)).
Definition stream_footer_bytes (offset : Z) (footer : RrdFooterProto) : list Z :=
  StreamFooter.entry_bytes (footer_entry offset footer) ++ DLR_FOURCC ++ StreamFooter.DLR_IDENTIFIER ++ LittleEndian.to_bytes 4 1.

(** What [finish_impl] writes; [offset] is the place of the payload in the stream. *)
Definition end_bytes (offset : Z) (footer : option RrdFooterProto) : list Z :=
  match footer with
  | None => []
  | Some footer =>
      MessageHeader.to_dlr_bytes (MessageHeader.Mk End (Z.of_nat (length (prost_encode footer))))
      ++ prost_encode footer ++ stream_footer_bytes offset footer
  end.

Definition body_offset (messages : list Msg.t) : Z := 12 + Z.of_nat (length (messages_bytes messages)) + 16.

Definition stream_bytes (stream : Stream) : list Z :=
  header_bytes (stream_version stream) (stream_options stream) ++ messages_bytes (stream_messages stream)
  ++ end_bytes (body_offset (stream_messages stream)) (stream_footer stream).

(** A footer without a manifest may have no bytes, and then none of its manifests are read. *)
Definition footer_manifests (footer : option RrdFooterProto) : list RrdManifestProto :=
  match footer with
  | Some footer => match prost_encode footer with [] => [] | _ => rrd_footer_manifests footer end
  | None => []
  end.

(** A decoder of this version reads the stream. *)
Definition accepted `{LocalVersion} (stream : Stream) : Prop :=
  exists version, StreamHeader.to_version_and_options (header_of (stream_version stream) (stream_options stream)) = Ok (version, stream_options stream).

Lemma length_header version options : length (header_bytes version options) = 12%nat.
Proof. by destruct options as [[] []]. Qed.

Lemma read_header version options : StreamHeader.from_dlr_bytes (header_bytes version options) = Ok (header_of version options).
Proof.
  destruct (stream_header_roundtrip (header_of version options)) as (data & Hto & _ & Hfrom); [done|done|].
  unfold StreamHeader.to_dlr_bytes in Hto. cbn [header_of StreamHeader.fourcc StreamHeader.version StreamHeader.options] in Hto.
  fold (header_bytes version options) in Hto. rewrite length_header in Hto. by injection Hto as <-.
Qed.

Lemma write_header version options : StreamHeader.to_dlr_bytes (header_of version options) = Done (header_bytes version options).
Proof. apply stream_header_canonical, read_header. Qed.

Lemma length_message_header kind len : length (MessageHeader.to_dlr_bytes (MessageHeader.Mk kind len)) = 16%nat.
Proof. unfold MessageHeader.to_dlr_bytes. by rewrite length_app, !LittleEndian.length_to_bytes. Qed.

Lemma length_stream_footer offset footer : length (stream_footer_bytes offset footer) = 32%nat.
Proof. unfold stream_footer_bytes, StreamFooter.entry_bytes. by rewrite !length_app, !LittleEndian.length_to_bytes. Qed.

Lemma write_footer offset footer :
  StreamFooter.to_dlr_bytes (StreamFooter.from_dlr_footer_bytes offset (prost_encode footer)) = Done (stream_footer_bytes offset footer).
Proof.
  unfold StreamFooter.to_dlr_bytes, StreamFooter.from_dlr_footer_bytes. cbn [StreamFooter.entries StreamFooter.fourcc StreamFooter.identifier mbind list_bind].
  rewrite app_nil_r. change (Z.of_nat (length [_]) mod 2 ^ 32) with 1.
  fold (footer_span offset footer). fold (footer_entry offset footer). fold (stream_footer_bytes offset footer). by rewrite length_stream_footer.
Qed.

Lemma read_footer `{!Xxh32Laws} offset footer : is_u64 offset -> Z.of_nat (length (prost_encode footer)) <= i64_max ->
  StreamFooter.from_dlr_bytes (stream_footer_bytes offset footer)
  = Done (Ok (StreamFooter.new (footer_span offset footer) (StreamFooter.compute_crc (prost_encode footer)))).
Proof.
  intros Hoff Hlen. destruct (stream_footer_roundtrip (footer_span offset footer) (StreamFooter.compute_crc (prost_encode footer)))
    as (data & Hto & _ & Hfrom).
  { split; [done|]. split; [cbn; int_lia|apply xxh32_u32]. }
  rewrite (write_footer offset footer : StreamFooter.to_dlr_bytes (StreamFooter.new (footer_span offset footer) (StreamFooter.compute_crc (prost_encode footer))) = _) in Hto.
  by injection Hto as <-.
Qed.

Lemma messages_bytes_app messages messages' : messages_bytes (messages ++ messages') = messages_bytes messages ++ messages_bytes messages'.
Proof. apply bind_app. Qed.

Lemma messages_bytes_one m : messages_bytes [m] = Msg.to_dlr_bytes m.
Proof. unfold messages_bytes. cbn [mbind list_bind]. apply app_nil_r. Qed.

End Bytes.

#[local] Arguments header_bytes : simpl never.
#[local] Arguments messages_bytes : simpl never.

(** ** Reading the bytes of a stream *)

Section Reading.
Context `{LocalVersion, Protos, !ProtosLaws, Xxh32, !Xxh32Laws} (overflow_checks : bool).
Abbreviation drain d := (drain overflow_checks d).

(** A decoder of messages of the transport level, over the flat source. *)
Definition dec (version : option CrateVersion.t) (options : EncodingOptions.t) (num_read : Z) (unread : list Z)
    (state : DecoderState) (manifests : list RrdManifestProto) : Decoder.t Flat.t :=
  Decoder.Mk version options (Flat.Mk num_read unread) state (tt : Injector) manifests.

Lemma drain_step (d d' : Decoder.t Flat.t) : next_step overflow_checks d = Done (inl d') -> drain d = drain d'.
Proof. intros Hd. rewrite (drain_unfold overflow_checks d), (drain_unfold overflow_checks d'), try_read_unfold, Hd. done. Qed.

Lemma flat_read k bytes rest n : Z.of_nat (length bytes) = n -> n <= i64_max ->
  Flat.try_read (Flat.Mk k (bytes ++ rest)) n = Done (Flat.Mk (k + n) rest, Some bytes).
Proof.
  intros <- Hn. unfold Flat.try_read. cbn [Flat.unread Flat.num_read]. rewrite (proj2 (Z.ltb_ge _ _)) by lia. rewrite length_app.
  rewrite !(proj2 (Z.leb_le _ _)) by lia. cbn [andb]. rewrite Nat2Z.id. by rewrite take_app_length, drop_app_length.
Qed.

Lemma drain_header v o n rest ms version options version' :
  StreamHeader.to_version_and_options (header_of version options) = Ok (version', options) ->
  drain (dec v o n (header_bytes version options ++ rest) WaitingForStreamHeader ms)
  = drain (dec (Some version') options (n + 12) rest WaitingForMessageHeader ms).
Proof.
  intros Hok. apply drain_step. unfold next_step, step, Decoder.try_read_impl, dec. cbn [Decoder.state Decoder.byte_chunks source_try_read Flat.source].
  rewrite flat_read; [|by rewrite length_header|done]. cbn [mbind outcome_bind]. rewrite read_header, Hok.
  by destruct (EncodingOptions.serializer options).
Qed.

(** A header of a message, and then its payload. *)
Lemma drain_message_header v o n rest ms kind len : is_u64 len ->
  drain (dec v o n (MessageHeader.to_dlr_bytes (MessageHeader.Mk kind len) ++ rest) WaitingForMessageHeader ms)
  = drain (dec v o (n + 16) rest (WaitingForMessagePayload (MessageHeader.Mk kind len)) ms).
Proof.
  intros Hlen. apply drain_step. unfold next_step, step, Decoder.try_read_impl, dec.
  cbn [Decoder.state Decoder.byte_chunks source_try_read source_try_peek Flat.source Flat.unread].
  destruct (message_header_roundtrip (MessageHeader.Mk kind len) Hlen) as [Hl Hread].
  rewrite take_app_length' by (by rewrite Hl). rewrite Hl. cbn [Nat.eqb MessageHeader.ENCODED_SIZE_BYTES]. rewrite Hread.
  rewrite flat_read; [done|by rewrite Hl|done].
Qed.

Definition msg_kind (m : Msg.t) : MessageKind :=
  match m with Msg.SetStoreInfo _ => SetStoreInfo | Msg.ArrowMsg _ => ArrowMsg | Msg.BlueprintActivationCommand _ => BlueprintActivationCommand end.
Definition msg_payload (m : Msg.t) : list Z :=
  match m with Msg.SetStoreInfo m => prost_encode m | Msg.ArrowMsg m => prost_encode m | Msg.BlueprintActivationCommand m => prost_encode m end.

Lemma msg_bytes m :
  Msg.to_dlr_bytes m = MessageHeader.to_dlr_bytes (MessageHeader.Mk (msg_kind m) (Z.of_nat (length (msg_payload m)))) ++ msg_payload m.
Proof. by destruct m. Qed.

Lemma msg_decode m : decode_transport (msg_payload m) (msg_kind m) = Ok (Some m).
Proof. destruct m; cbn; unfold proto_from_dlr_bytes; by rewrite prost_roundtrip. Qed.

Definition with_items (items : list Msg.t) (o : fueled (Decoder.t Flat.t * list (result Message DecodeError))) :
    fueled (Decoder.t Flat.t * list (result Message DecodeError)) :=
  '(d, rest) ← o; returns (d, (Ok <$> items) ++ rest).

Lemma with_items_nil o : with_items [] o = o.
Proof. by destruct o as [[[]|]|]. Qed.
Lemma with_items_app items items' o : with_items items (with_items items' o) = with_items (items ++ items') o.
Proof. destruct o as [[[]|]|]; cbn; [|done..]. by rewrite fmap_app, <- app_assoc. Qed.

Lemma drain_message v o n rest ms m : Z.of_nat (length (msg_payload m)) <= i64_max ->
  drain (dec v o n (Msg.to_dlr_bytes m ++ rest) WaitingForMessageHeader ms)
  = with_items [m] (drain (dec v o (n + Z.of_nat (length (Msg.to_dlr_bytes m))) rest WaitingForMessageHeader ms)).
Proof.
  intros Hm. rewrite msg_bytes, <- app_assoc, drain_message_header by int_lia.
  rewrite drain_unfold, try_read_unfold. unfold next_step, step, Decoder.try_read_impl, dec.
  cbn [Decoder.state Decoder.byte_chunks source_try_read Flat.source MessageHeader.len MessageHeader.kind].
  rewrite flat_read by done. cbn [mbind outcome_bind fueled_bind decode decoder_transport]. rewrite msg_decode. cbn [returns].
  rewrite length_app, length_message_header. unfold with_items, dec. cbn [fueled_bind mbind].
  unfold Decoder.with_app_id_cache, Decoder.with_byte_chunks, Decoder.with_state. cbn [Decoder.version Decoder.options Decoder.byte_chunks Decoder.dlr_manifests Decoder.app_id_cache].
  rewrite <- Z.add_assoc. rewrite Nat2Z.inj_add. done.
Qed.

Lemma drain_messages v o n rest ms messages : Forall (fun m => Z.of_nat (length (msg_payload m)) <= i64_max) messages ->
  drain (dec v o n (messages_bytes messages ++ rest) WaitingForMessageHeader ms)
  = with_items messages (drain (dec v o (n + Z.of_nat (length (messages_bytes messages))) rest WaitingForMessageHeader ms)).
Proof.
  intros Hms. revert n. induction Hms as [|m messages Hm Hms IH]; intros n.
  - rewrite with_items_nil. cbn [messages_bytes mbind list_bind app length Z.of_nat]. by rewrite Z.add_0_r.
  - change (messages_bytes (m :: messages)) with (Msg.to_dlr_bytes m ++ messages_bytes messages).
    rewrite <- app_assoc, drain_message, IH, with_items_app, length_app, Nat2Z.inj_add, Z.add_assoc by done. done.
Qed.

Lemma drain_end v o n rest ms offset footer :
  Z.of_nat (length (prost_encode footer)) <= i64_max -> 0 <= offset -> offset + Z.of_nat (length (prost_encode footer)) <= i64_max ->
  exists n', drain (dec v o n (end_bytes offset (Some footer) ++ rest) WaitingForMessageHeader ms)
  = drain (dec v o n' rest WaitingForStreamHeader (ms ++ footer_manifests (Some footer))).
Proof.
  intros Hlen Hoff Hend. unfold end_bytes. rewrite <- !app_assoc, drain_message_header by int_lia.
  set (payload := prost_encode footer) in *.
  assert (drain (dec v o (n + 16) (payload ++ stream_footer_bytes offset footer ++ rest) (WaitingForMessagePayload (MessageHeader.Mk End (Z.of_nat (length payload)))) ms)
    = drain (dec v o (n + 16 + Z.of_nat (length payload)) (stream_footer_bytes offset footer ++ rest) WaitingForStreamFooter (ms ++ footer_manifests (Some footer)))) as ->.
  { apply drain_step. unfold next_step, step, Decoder.try_read_impl, dec. cbn [Decoder.state Decoder.byte_chunks source_try_read Flat.source MessageHeader.len MessageHeader.kind].
    rewrite flat_read by done. cbn [mbind outcome_bind decode decoder_transport decode_transport]. unfold footer_manifests. fold payload.
    destruct payload as [|b payload'] eqn:Hp; [by rewrite app_nil_r|]. unfold proto_from_dlr_bytes. rewrite <- Hp. subst payload. by rewrite prost_roundtrip. }
  eexists. apply drain_step. unfold next_step, step, Decoder.try_read_impl, dec. cbn [Decoder.state Decoder.byte_chunks source_try_read Flat.source].
  rewrite flat_read; [|by rewrite length_stream_footer|done]. cbn [mbind outcome_bind].
  rewrite read_footer by (fold payload; int_lia). cbn [mbind outcome_bind StreamFooter.new StreamFooter.entries Decoder.check_entries]. unfold Span.end_, footer_span.
  cbn [StreamFooterEntry.dlr_footer_byte_span_from_start_excluding_header Span.start Span.len]. fold payload. rewrite arith_u64_done by int_lia.
  cbn [mbind outcome_bind]. reflexivity.
Qed.

(** The header of a stream where a message is expected. *)
Lemma header_not_message version options rest : bytes_ok (CrateVersion.to_bytes version) ->
  exists frame, MessageHeader.from_dlr_bytes (take 16 (header_bytes version options ++ rest)) = Err (FrameDecoding frame).
Proof.
  intros Hv. unfold MessageHeader.from_dlr_bytes. destruct (negb _) eqn:Hl; [by eexists|]. rewrite take_take. cbn [Nat.min].
  set (kind := LittleEndian.from_bytes _). assert (3 < kind) as Hkind.
  { subst kind. unfold header_bytes. unfold CrateVersion.to_bytes in *. repeat (apply Forall_cons in Hv as [? Hv]). unfold is_u8 in *. cbn -[Z.mul Z.add].
    repeat match goal with |- context [ascii_code ?c] => let n := eval vm_compute in (ascii_code c) in change (ascii_code c) with n end. lia. }
  rewrite !(proj2 (Z.eqb_neq kind _)) by lia. by eexists.
Qed.

Definition stream_ok (stream : Stream) : Prop :=
  accepted stream /\ bytes_ok (CrateVersion.to_bytes (stream_version stream))
  /\ Z.of_nat (length (stream_bytes stream)) <= i64_max.

Lemma message_fits m messages : m ∈ messages -> (length (msg_payload m) + 16 <= length (messages_bytes messages))%nat.
Proof.
  induction 1 as [m messages'|m m' messages' _ IH]; unfold messages_bytes in *; cbn [mbind list_bind]; rewrite length_app; [|lia].
  rewrite msg_bytes, length_app, length_message_header. lia.
Qed.

Lemma stream_fits stream : stream_ok stream ->
  Forall (fun m => Z.of_nat (length (msg_payload m)) <= i64_max) (stream_messages stream)
  /\ from_option (fun footer => body_offset (stream_messages stream) + Z.of_nat (length (prost_encode footer)) <= i64_max) True (stream_footer stream).
Proof.
  intros (_ & _ & Hl). unfold stream_bytes in Hl. rewrite !length_app, length_header in Hl. split.
  - apply Forall_forall. intros m Hm%message_fits. lia.
  - unfold body_offset. destruct (stream_footer stream); [|done]. cbn [from_option end_bytes] in *. rewrite !length_app, length_message_header in Hl. lia.
Qed.

(** A decoder that has no stream begun or no message begun. *)
Definition between (state : DecoderState) : Prop := state = WaitingForStreamHeader \/ state = WaitingForMessageHeader.

Lemma drain_blocked v o n unread state ms : between state -> (length unread < match state with WaitingForMessageHeader => 16 | _ => 12 end)%nat ->
  drain (dec v o n unread state ms) = returns (dec v o n unread state ms, []).
Proof.
  intros [-> | ->] Hl; cbn in Hl; rewrite drain_unfold, try_read_unfold; unfold next_step, step, Decoder.try_read_impl, dec;
    cbn [Decoder.state Decoder.byte_chunks source_try_read source_try_peek Flat.source Flat.unread].
  - unfold Flat.try_read. rewrite (proj2 (Z.ltb_ge _ _)) by done. cbn [Flat.unread].
    rewrite (proj2 (Z.leb_gt (Z.of_nat StreamHeader.ENCODED_SIZE_BYTES) _)) by (unfold StreamHeader.ENCODED_SIZE_BYTES; lia). by rewrite andb_false_r.
  - rewrite (proj2 (Nat.eqb_neq _ _)); [done|]. unfold MessageHeader.ENCODED_SIZE_BYTES. rewrite length_take. lia.
Qed.

Lemma drain_concatenated v o n version options rest ms : bytes_ok (CrateVersion.to_bytes version) ->
  (16 <= length (header_bytes version options ++ rest))%nat ->
  drain (dec v o n (header_bytes version options ++ rest) WaitingForMessageHeader ms)
  = drain (dec v o n (header_bytes version options ++ rest) WaitingForStreamHeader ms).
Proof.
  intros Hv Hl. apply drain_step. unfold next_step, step, Decoder.try_read_impl, dec.
  cbn [Decoder.state Decoder.byte_chunks source_try_peek Flat.source Flat.unread].
  rewrite (proj2 (Nat.eqb_eq _ _)) by (unfold MessageHeader.ENCODED_SIZE_BYTES; rewrite length_take; lia).
  destruct (header_not_message version options rest Hv) as [frame Hf]. change 16%nat with MessageHeader.ENCODED_SIZE_BYTES in Hf. by rewrite Hf.
Qed.

(** What the streams are read as. *)
Definition streams_read (streams : list Stream) (ms : list RrdManifestProto)
    (o : fueled (Decoder.t Flat.t * list (result Message DecodeError))) : Prop :=
  exists d, o = returns (d, Ok <$> (streams ≫= stream_messages))
    /\ Decoder.dlr_manifests d = ms ++ (streams ≫= (fun stream => footer_manifests (stream_footer stream)))
    /\ between (Decoder.state d).

Lemma drain_stream v o n stream streams ms :
  (forall v o n state ms, between state -> streams_read streams ms (drain (dec v o n (streams ≫= stream_bytes) state ms))) ->
  stream_ok stream ->
  streams_read (stream :: streams) ms (drain (dec v o n (stream_bytes stream ++ (streams ≫= stream_bytes)) WaitingForStreamHeader ms)).
Proof.
  intros Hstreams Hok. pose proof (stream_fits stream Hok) as [Hms Hfooter]. destruct Hok as ((version & Hversion) & _ & _).
  unfold stream_bytes at 1. rewrite <- !app_assoc, (drain_header _ _ _ _ _ _ _ _ Hversion), drain_messages by done.
  set (n' := _ + _). assert (exists n'' state, between state /\
    drain (dec (Some version) (stream_options stream) n' (end_bytes (body_offset (stream_messages stream)) (stream_footer stream) ++ (streams ≫= stream_bytes)) WaitingForMessageHeader ms)
    = drain (dec (Some version) (stream_options stream) n'' (streams ≫= stream_bytes) state (ms ++ footer_manifests (stream_footer stream)))) as (n'' & state & Hstate & ->).
  { destruct (stream_footer stream) as [footer|]; cbn [from_option] in Hfooter.
    - unfold body_offset in *.
      destruct (drain_end (Some version) (stream_options stream) n' (streams ≫= stream_bytes) ms (body_offset (stream_messages stream)) footer) as [n'' Heq];
        [unfold body_offset; lia..|]. exists n'', WaitingForStreamHeader. split; [by left|exact Heq].
    - exists n', WaitingForMessageHeader. split; [by right|]. cbn [end_bytes app footer_manifests]. by rewrite app_nil_r. }
  destruct (Hstreams (Some version) (stream_options stream) n'' state (ms ++ footer_manifests (stream_footer stream)) Hstate) as (d & -> & Hmanifests & Hd).
  exists d. cbn [mbind list_bind]. rewrite fmap_app. split; [done|]. split; [|done]. rewrite Hmanifests. cbn. by rewrite <- app_assoc.
Qed.

Lemma length_streams stream (streams : list Stream) : stream ∈ streams -> (12 <= length (streams ≫= stream_bytes))%nat.
Proof.
  induction 1 as [stream streams'|stream stream' streams' _ IH]; rewrite bind_cons, length_app; [|lia].
  unfold stream_bytes at 1. rewrite length_app, length_header. lia.
Qed.

Lemma drain_streams streams : Forall stream_ok streams ->
  forall v o n state ms, between state -> streams_read streams ms (drain (dec v o n (streams ≫= stream_bytes) state ms)).
Proof.
  induction 1 as [|stream streams Hok Hall IH]; intros v o n state ms Hstate.
  - rewrite drain_blocked by (done || (by destruct Hstate as [-> | ->]; cbn; lia)). eexists. split; [done|]. split; [cbn; by rewrite app_nil_r|done].
  - change ((stream :: streams) ≫= stream_bytes) with (stream_bytes stream ++ (streams ≫= stream_bytes)).
    destruct Hstate as [-> | ->]; [by apply drain_stream|].
    destruct (decide (16 <= length (stream_bytes stream ++ (streams ≫= stream_bytes)))%nat) as [Hl|Hl].
    + pose proof (drain_stream v o n stream streams ms IH Hok) as Hread.
      assert (exists rest, stream_bytes stream ++ (streams ≫= stream_bytes) = header_bytes (stream_version stream) (stream_options stream) ++ rest) as [rest Hrest].
      { eexists. unfold stream_bytes at 1. by rewrite <- app_assoc. }
      rewrite Hrest in Hl, Hread |- *. rewrite drain_concatenated; [done|by destruct Hok as (_ & ? & _)|done].
    + rewrite drain_blocked; [|by right|lia]. rewrite length_app in Hl. unfold stream_bytes at 1 in Hl. rewrite !length_app, length_header in Hl.
      destruct (stream_messages stream) as [|m messages] eqn:Hm.
      2: { pose proof (message_fits m (m :: messages) ltac:(by constructor)). lia. }
      destruct (stream_footer stream) as [footer|] eqn:Hf.
      { unfold end_bytes in Hl. rewrite length_app, length_message_header in Hl. lia. }
      destruct streams as [|stream' streams].
      2: { pose proof (length_streams stream' (stream' :: streams) ltac:(by constructor)). lia. }
      eexists. cbn [mbind list_bind]. rewrite Hm, Hf. split; [done|]. split; [cbn; by rewrite app_nil_r|by right].
Qed.

End Reading.

(** ** The encoder *)

Section Encoding.
Context `{LocalVersion, Application, Xxh32} (debug_assertions : bool).
Implicit Types self : Encoder.t.

(** An encoder that has appended [messages] to a stream that began after [base]. *)
Record writing (base : list Z) (version : CrateVersion.t) (options : EncodingOptions.t) (messages : list Msg.t) self : Prop := {
  writing_write : Encoder.write self = Some (base ++ header_bytes version options ++ messages_bytes messages);
  writing_num : Encoder.num_written self = 12 + Z.of_nat (length (messages_bytes messages));
  writing_open : Encoder.is_finished self = false;
  writing_compression : Encoder.compression self = EncodingOptions.compression options;
}.

Lemma new_eager_ok version options base : exists self,
  Encoder.new_eager version options base = Done (Ok self) /\ writing base version options [] self
  /\ Encoder.footer_state self = Some footer_state_default.
Proof.
  unfold Encoder.new_eager. fold (header_of version options). rewrite write_header. cbn [mbind outcome_bind]. eexists. split; [done|].
  split; [|done]. split; cbn [Encoder.write Encoder.num_written messages_bytes mbind list_bind]; [by rewrite app_nil_r|by rewrite length_header|done..].
Qed.

(** The span of a message is that of its payload. *)
Lemma write_encodable_ok base version options messages self m : writing base version options messages self ->
  exists self', Encoder.write_encodable self m
    = (self', Ok (Z.of_nat (length (Msg.to_dlr_bytes m)), Span.Mk (body_offset messages) (Z.of_nat (length (msg_payload m)))))
  /\ writing base version options (messages ++ [m]) self' /\ Encoder.footer_state self' = Encoder.footer_state self.
Proof.
  intros [Hw Hnum Hopen Hc]. unfold Encoder.write_encodable. rewrite Hopen, Hw. destruct (Encoder.serializer self). eexists. split.
  - unfold Span.from_start_len, body_offset. rewrite Hnum. do 3 f_equal. rewrite (msg_bytes m), length_app, length_message_header. f_equal. unfold MessageHeader.ENCODED_SIZE_BYTES. lia.
  - split; [|done]. split; cbn; [| |done..]; rewrite messages_bytes_app, messages_bytes_one; [by rewrite <- !app_assoc|].
    rewrite length_app. lia.
Qed.

Definition transports_to (options : EncodingOptions.t) (message : result LogMsg Z) (transport : Msg.t) : Prop :=
  exists m, message = Ok m /\ to_transport m (EncodingOptions.compression options) = Ok transport.

Lemma encoder_append_ok base version options messages self message n self' : writing base version options messages self ->
  Encoder.append self message = (self', Ok n) ->
  exists transport, to_transport message (EncodingOptions.compression options) = Ok transport
    /\ writing base version options (messages ++ [transport]) self'
    /\ (is_Some (Encoder.footer_state self) <-> is_Some (Encoder.footer_state self')).
Proof.
  intros Hw. unfold Encoder.append. rewrite (writing_compression _ _ _ _ _ Hw).
  destruct (to_transport message _) as [transport|]; [|done].
  destruct (write_encodable_ok _ _ _ _ _ transport Hw) as (self1 & -> & Hw1 & Hf). rewrite Hf.
  destruct (Encoder.footer_state self) as [footer|] eqn:Hfooter.
  - destruct (footer_state_append _ _ _ _) as [footer' [?|]]; [|done]. intros [= <- <-]. exists transport. split; [done|].
    split; [|done]. destruct Hw1. by split.
  - intros [= <- <-]. exists transport. by rewrite Hf.
Qed.

Lemma extend_from_ok log base version options messages self size n self' : writing base version options messages self ->
  Encoder.extend_from self log size = (self', Ok n) ->
  exists transports, Forall2 (transports_to options) log transports
    /\ writing base version options (messages ++ transports) self'
    /\ (is_Some (Encoder.footer_state self) <-> is_Some (Encoder.footer_state self')).
Proof.
  revert messages self size. induction log as [|[message|e] log IH]; intros messages self size Hw; cbn [Encoder.extend_from].
  - intros [= <- <-]. exists []. by rewrite app_nil_r.
  - destruct (Encoder.append self message) as [self1 [k|]] eqn:Happend; [|done]. intros Hext.
    destruct (encoder_append_ok _ _ _ _ _ _ _ _ Hw Happend) as (transport & Htr & Hw1 & Hf1).
    destruct (IH _ _ _ Hw1 Hext) as (transports & Hall & Hw2 & Hf2). exists (transport :: transports).
    split; [constructor; [by exists message|done]|]. rewrite <- app_assoc in Hw2. split; [done|]. by rewrite Hf1.
  - done.
Qed.

Lemma finish_impl_ok w num dlr_footer footer : rrd_footer_to_transport dlr_footer = Ok footer ->
  exists num', Encoder.finish_impl w num dlr_footer = Done (w ++ end_bytes (num + 16) (Some footer), num', Ok tt).
Proof.
  intros Hf. unfold Encoder.finish_impl. rewrite Hf. rewrite write_footer, length_message_header. cbn [mbind outcome_bind]. eexists.
  unfold end_bytes. rewrite <- !app_assoc. reflexivity.
Qed.

(** [finish] ends the stream, with a footer if there is one to write. *)
Lemma encoder_finish_ok base version options messages self self' : writing base version options messages self ->
  Encoder.finish self = Done (self', Ok tt) ->
  exists footer, (is_Some footer <-> is_Some (Encoder.footer_state self))
    /\ Encoder.write self' = Some (base ++ stream_bytes (MkStream version options messages footer))
    /\ Encoder.is_finished self' = true.
Proof.
  intros [Hw Hnum Hopen Hc]. unfold Encoder.finish. rewrite Hopen, Hw. cbn [Encoder.footer_state Encoder.with_finished].
  destruct (Encoder.footer_state self) as [state|].
  - destruct (footer_state_finish state) as [dlr_footer|]; [|done]. destruct (rrd_footer_to_transport dlr_footer) as [footer|] eqn:Hf.
    + destruct (finish_impl_ok (base ++ header_bytes version options ++ messages_bytes messages)
        (Encoder.num_written (Encoder.with_footer_state (Encoder.with_finished self) None)) dlr_footer footer Hf) as [num' ->].
      cbn [mbind outcome_bind]. intros [= <-]. exists (Some footer). split; [done|]. split; [|done]. cbn. rewrite Hnum.
      unfold stream_bytes, body_offset. cbn [stream_version stream_options stream_messages stream_footer]. by rewrite <- !app_assoc.
    + unfold Encoder.finish_impl. by rewrite Hf.
  - intros [= <-]. exists None. split; [done|]. split; [|done]. cbn. rewrite Hw. do 2 f_equal. unfold stream_bytes. cbn. by rewrite app_nil_r.
Qed.

Lemma encode_ok log file : Encoder.encode log = Done (Ok file) ->
  exists transports footer, Forall2 (transports_to EncodingOptions.PROTOBUF_COMPRESSED) log transports
    /\ file = stream_bytes (MkStream LOCAL EncodingOptions.PROTOBUF_COMPRESSED transports (Some footer)).
Proof.
  unfold Encoder.encode, Encoder.local. destruct (new_eager_ok LOCAL EncodingOptions.PROTOBUF_COMPRESSED []) as (self & -> & Hw & Hf). cbn [mbind outcome_bind].
  unfold Encoder.extend. destruct (Encoder.extend_from self log 0) as [self1 [n|]] eqn:Hext; [|done].
  destruct (extend_from_ok _ _ _ _ _ _ _ _ _ Hw Hext) as (transports & Hall & Hw1 & Hf1).
  destruct (Encoder.finish self1) as [[self2 [[]|]]|] eqn:Hfinish; [|done..]. cbn [mbind outcome_bind].
  destruct (encoder_finish_ok _ _ _ _ _ _ Hw1 Hfinish) as (footer & Hfooter & Hfile & _). unfold Encoder.into_inner. rewrite Hfile. intros [= <-].
  destruct footer as [footer|]; [by exists transports, footer|]. exfalso. apply (is_Some_None (A := RrdFooterProto)), Hfooter, Hf1. by rewrite Hf.
Qed.

End Encoding.

(** ** Round trips *)

Section RoundTrips.
Context `{LocalVersion, Application, !ProtosLaws, Xxh32, !Xxh32Laws} (overflow_checks : bool).

Lemma collect_streams streams reader : Forall stream_ok streams -> clean reader -> bytes_of reader = (streams ≫= stream_bytes) ->
  exists it, DecoderIterator.collect overflow_checks (DecoderIterator.decode_lazy (B := ByteChunkBuffer.t) reader)
      = Done (Some (it, Ok <$> (streams ≫= stream_messages)))
    /\ Decoder.dlr_manifests (DecoderIterator.decoder it) = (streams ≫= (fun stream => footer_manifests (stream_footer stream)))
    /\ between (Decoder.state (DecoderIterator.decoder it)).
Proof.
  intros Hok Hclean Hbytes. pose proof (collect_reads_all overflow_checks reader Hclean) as Hreads. rewrite Hbytes in Hreads.
  destruct (drain_streams overflow_checks streams Hok None EncodingOptions.PROTOBUF_UNCOMPRESSED 0 WaitingForStreamHeader [] ltac:(by left))
    as (d & Hd & Hmanifests & Hstate).
  change (read_all overflow_checks (streams ≫= stream_bytes))
    with (drain overflow_checks (dec None EncodingOptions.PROTOBUF_UNCOMPRESSED 0 (streams ≫= stream_bytes) WaitingForStreamHeader [])) in Hreads.
  rewrite Hd in Hreads. destruct (DecoderIterator.collect _ _) as [[[it items]|]|]; [|done..]. destruct Hreads as [Hrel Hitems]. cbn [fst snd] in *. subst items.
  exists it. split; [done|]. by destruct Hrel.
Qed.

(** C22.  Streams written one after the other, with or without a footer at their ends, and read in
    pieces of any sizes: the decoder gives their messages, and nothing else, in order; it has kept
    the manifests of their footers, and expects another stream or another message. *)
Theorem concatenated_streams_spec (streams : list Stream) (reader : list ReaderEvent)
    (Hok : Forall stream_ok streams) (Hclean : clean reader) (Hbytes : bytes_of reader = (streams ≫= stream_bytes)) :
  exists it, DecoderIterator.collect overflow_checks (DecoderIterator.decode_lazy (B := ByteChunkBuffer.t) reader)
      = Done (Some (it, Ok <$> (streams ≫= stream_messages)))
    /\ Decoder.dlr_manifests (DecoderIterator.decoder it) = (streams ≫= (fun stream => footer_manifests (stream_footer stream)))
    /\ between (Decoder.state (DecoderIterator.decoder it)).
Proof. by apply collect_streams. Qed.

(** A version that the decoder of the same version takes. *)
Definition local_ok : Prop := bytes_ok (CrateVersion.to_bytes LOCAL) /\ CrateVersion.to_bytes LOCAL <> [0; 0; 0; 0].

Lemma local_accepted options : CrateVersion.to_bytes LOCAL <> [0; 0; 0; 0] ->
  exists version, StreamHeader.to_version_and_options (header_of LOCAL options) = Ok (version, options).
Proof.
  intros Hv. unfold StreamHeader.to_version_and_options. cbn [StreamHeader.version StreamHeader.options header_of].
  rewrite bool_decide_false by done. assert (CrateVersion.lt LOCAL (CrateVersion.from_bytes (CrateVersion.to_bytes LOCAL)) = false) as ->.
  { unfold CrateVersion.lt, CrateVersion.cmp. cbn. by rewrite !Z.compare_refl. }
  rewrite andb_false_r. by eexists.
Qed.

(** C4.  [Encoder::encode] and the decoder.  The files that are made of some logs of messages, one
    after the other, are decoded to what the messages of the logs are at the transport level, in
    order, however the files are split into chunks. *)
Theorem encode_decode_roundtrip (logs : list (list (result LogMsg Z))) (files : list (list Z)) (reader : list ReaderEvent)
    (Hencode : Forall2 (fun log file => Encoder.encode log = Done (Ok file)) logs files)
    (Hlocal : local_ok) (Hfits : Forall (fun file => Z.of_nat (length file) <= i64_max) files)
    (Hclean : clean reader) (Hbytes : bytes_of reader = concat files) :
  exists it transports,
    DecoderIterator.collect overflow_checks (DecoderIterator.decode_lazy (B := ByteChunkBuffer.t) reader) = Done (Some (it, Ok <$> transports))
    /\ Forall2 (transports_to EncodingOptions.PROTOBUF_COMPRESSED) (concat logs) transports.
Proof.
  assert (exists streams, Forall stream_ok streams /\ concat files = (streams ≫= stream_bytes)
    /\ Forall2 (transports_to EncodingOptions.PROTOBUF_COMPRESSED) (concat logs) (streams ≫= stream_messages)) as (streams & Hok & Heq & Hall).
  { clear Hclean Hbytes. induction Hencode as [|log file logs files Hfile _ IH]; [by exists []|].
    apply Forall_cons in Hfits as [Hfit Hfits]. destruct (IH Hfits) as (streams & Hok & Heq & Hall).
    destruct (encode_ok _ _ Hfile) as (transports & footer & Htransports & ->).
    exists (MkStream LOCAL EncodingOptions.PROTOBUF_COMPRESSED transports (Some footer) :: streams). split.
    - constructor; [|done]. destruct Hlocal as [Hbytes Hzero]. destruct (local_accepted EncodingOptions.PROTOBUF_COMPRESSED Hzero) as [version Hversion].
      split; [by exists version|]. by split.
    - rewrite !bind_cons. cbn [concat stream_messages]. rewrite Heq. split; [done|]. by apply Forall2_app. }
  rewrite Heq in Hbytes. destruct (collect_streams streams reader Hok Hclean Hbytes) as (it & Hcollect & _).
  by exists it, (streams ≫= stream_messages).
Qed.

(**  The spans that the encoder reports are right: the span of a message that is appended is
    that of its payload in the stream, whatever is written after it. *)
Lemma encoder_span_spec base version options messages (self : Encoder.t) (m : Msg.t)
    (Hwriting : writing base version options messages self) :
  exists self' span, Encoder.append_transport_without_footer self m = (self', Ok (span, byte_size_uncompressed m))
    /\ writing base version options (messages ++ [m]) self'
    /\ Encoder.footer_state self' = None
    /\ forall rest, take (Z.to_nat (Span.len span)) (drop (Z.to_nat (Span.start span))
         (header_bytes version options ++ messages_bytes (messages ++ [m]) ++ rest)) = msg_payload m.
Proof.
  assert (writing base version options messages (Encoder.do_not_emit_footer self)) as Hw by (destruct Hwriting; by split).
  destruct (write_encodable_ok _ _ _ _ _ m Hw) as (self' & Heq & Hw' & Hf). unfold Encoder.append_transport_without_footer. rewrite Heq.
  eexists _, _. split; [done|]. split; [done|]. split; [by rewrite Hf|]. intros rest. cbn [Span.start Span.len].
  rewrite messages_bytes_app, messages_bytes_one, msg_bytes. set (mh := MessageHeader.to_dlr_bytes _).
  assert (length mh = 16%nat) as Hmh by apply length_message_header.
  replace (header_bytes version options ++ (messages_bytes messages ++ mh ++ msg_payload m) ++ rest)
    with ((header_bytes version options ++ messages_bytes messages ++ mh) ++ msg_payload m ++ rest) by (by rewrite <- !app_assoc).
  rewrite drop_app_length'; [|unfold body_offset; rewrite !length_app, length_header, Hmh; lia].
  by rewrite Nat2Z.id, take_app_length.
Qed.

End RoundTrips.
