(* ===== verification/DlrReader.v ===== *)
(** * Random access to files of the log format

    [utils/dl_async/src/read_at.rs], and of [store/dl_log_encoding/src/dlr/] the readers that go by
    positions: [footer_reader.rs], [fingerprint.rs] and [chunk_reader.rs].

    They are written against positional reads ([AsyncReadAt]), which bytes in memory and files
    implement.  They are asynchronous, but each awaits one read at a time.  [usize] is [u64]. *)

From stdpp Require Import strings.
From S2P Require Import Prelude Ints Tuid Text CrateVersion DlrFrames DlrDecoder.

(** The operator [?] on what can also panic. *)
Notation "'let!' x ':=' r 'in' k" :=
  (match r with Panic => Panic | Done (Err e) => Done (Err e) | Done (Ok x) => k end)
  (at level 200, x name, r at level 100, k at level 200).

(** A call that can panic. *)
Notation "'let^' x ':=' r 'in' k" := (match r with Panic => Panic | Done x => k end)
  (at level 200, x name, r at level 100, k at level 200).

(** ** Positional reads *)

Class AsyncReadAt (R : Type) := {
  read_exact_at (self : R) (offset len : Z) : outcome (result (list Z) IoError);
  size (self : R) : result Z IoError;
}.

(** [bytes::Bytes]. *)
Module Bytes.

Definition read_exact_at (self : list Z) (offset len : Z) : outcome (result (list Z) IoError) :=
  let start := offset in
  let end_ := start + len in
  if (end_ <=? u64_max) && (end_ <=? Z.of_nat (length self))
  then Done (Ok (take (Z.to_nat len) (drop (Z.to_nat start) self)))
  else Done (Err UnexpectedEof).

#[global] Instance async_read_at : AsyncReadAt (list Z) := {
  read_exact_at := read_exact_at;
  size self := Ok (Z.of_nat (length self));
}.

End Bytes.

(** [std::fs::File]: one read of the system, of at most [len] bytes, and the length of the file. *)
Class FileSystem (F : Type) := {
  read_at (self : F) (offset len : Z) : result (list Z) IoError;
  metadata_len (self : F) : result Z IoError;
}.

Module File.

Section File.
Context {F : Type} `{FileSystem F} (overflow_checks : bool).

(** [while filled < len]; [buf] is what is filled of it, at least a byte more every turn. *)
Fixpoint read_loop (fuel : nat) (self : F) (offset len : Z) (buf : list Z) : outcome (result (list Z) IoError) :=
  let filled := Z.of_nat (length buf) in
  if filled <? len then
    match fuel with
    | O => Panic
    | S fuel =>
        position ← arith_u64 overflow_checks (offset + filled);
        match read_at self position (len - filled) with
        | Err e => Done (Err e)
        | Ok [] => Done (Err UnexpectedEof)
        | Ok read => read_loop fuel self offset len (buf ++ read)
        end
    end
  else Done (Ok buf).

(** The capacity of [vec![0u8; len]] is at most [isize::MAX]. *)
Definition read_exact_at (self : F) (offset len : Z) : outcome (result (list Z) IoError) :=
  if i64_max <? len then Panic else read_loop (Z.to_nat len) self offset len [].

(** Not an instance, since the build is an argument. *)
Definition async_read_at : AsyncReadAt F := {|
  DlrReader.read_exact_at := read_exact_at;
  DlrReader.size := metadata_len;
|}.

End File.

End File.

Definition io {A} (r : outcome (result A IoError)) : outcome (result A CodecError) :=
  match r with
  | Panic => Panic
  | Done (Ok a) => Done (Ok a)
  | Done (Err e) => Done (Err (Io e))
  end.

(** ** Footers *)

Module FooterReader.

Section FooterReader.
Context {R : Type} `{AsyncReadAt R, Xxh32} (overflow_checks : bool).

Definition read_dlr_footer_payload (reader : R) : outcome (result (option (list Z)) CodecError) :=
  let! file_len := io (Done (size reader)) in
  if file_len <? Z.of_nat StreamHeader.ENCODED_SIZE_BYTES then Done (Err (FrameDecoding FileTooSmall)) else
  let! header_buf := io (read_exact_at reader 0 (Z.of_nat StreamHeader.ENCODED_SIZE_BYTES)) in
  let! _ := Done (StreamHeader.from_dlr_bytes header_buf) in
  if file_len <? Z.of_nat StreamFooter.ENCODED_SIZE_BYTES then Done (Ok None) else
  let! footer_buf := io (read_exact_at reader (file_len - Z.of_nat StreamFooter.ENCODED_SIZE_BYTES)
                           (Z.of_nat StreamFooter.ENCODED_SIZE_BYTES)) in
  stream_footer ← StreamFooter.from_dlr_bytes footer_buf;
  match stream_footer with
  | Err _ => Done (Ok None)
  | Ok stream_footer =>
      match StreamFooter.entries stream_footer with
      | [] => Done (Ok None)
      | entry :: _ =>
          let span := StreamFooterEntry.dlr_footer_byte_span_from_start_excluding_header entry in
          let payload_len := Span.len span in
          end_ ← arith_u64 overflow_checks (Span.start span + Span.len span);
          if file_len <? end_ then Done (Err (FrameDecoding (SpanExceedsFile (Span.start span) end_ file_len))) else
          let! payload_buf := io (read_exact_at reader (Span.start span) payload_len) in
          let actual_crc := StreamFooter.compute_crc payload_buf in
          if negb (actual_crc =? StreamFooterEntry.crc_excluding_header entry)
          then Done (Err (CrcMismatch (StreamFooterEntry.crc_excluding_header entry) actual_crc))
          else Done (Ok (Some payload_buf))
      end
  end.

End FooterReader.

End FooterReader.

(** ** Metadata *)

(** What of a message the metadata is made of: the store id of a [SetStoreInfo], or the fields of a
    [BlueprintActivationCommand]. *)
Inductive Announcement (StoreId : Type) :=
| Announces (store_id : StoreId)
| Activates (make_default : bool) (blueprint_id : StoreId)
| OtherMessage.
Arguments Announces {_} _.
Arguments Activates {_} _ _.
Arguments OtherMessage {_}.

(** The application level: identifiers of stores, with their order and the application of each,
    messages and footers. *)
Class Metadata `{Protos, DecoderEntrypoint} := {
  StoreId : Type;
  store_id_eq_dec :: EqDecision StoreId;
  store_id_le : StoreId -> StoreId -> bool;
  ApplicationId : Type;
  application_id_eq_dec :: EqDecision ApplicationId;
  application_id_countable :: Countable ApplicationId;
  application_id : StoreId -> ApplicationId;
  announcement : Message -> Announcement StoreId;
  (** [RrdFooter], and the keys of its manifests in any order. *)
  Footer : Type;
  footer_to_application : RrdFooterProto -> result Footer CodecError;
  footer_store_ids : Footer -> list StoreId;
}.

Module RrdMetadata.

Record t `{Metadata} := Mk { store_ids : list StoreId; default_blueprint_by_app_id : gmap ApplicationId StoreId }.
Arguments Mk {_ _ _} _ _.

Section RrdMetadata.
Context {R : Type} `{AsyncReadAt R, Xxh32, LocalVersion, Metadata} (overflow_checks : bool).

Definition read_dlr_footer (reader : R) : outcome (result (option Footer) CodecError) :=
  let! payload := FooterReader.read_dlr_footer_payload overflow_checks reader in
  match payload with
  | None => Done (Ok None)
  | Some payload => Done (let? transport_footer := proto_from_dlr_bytes payload in
                          let? footer := footer_to_application transport_footer in Ok (Some footer))
  end.

(** [Vec::dedup]. *)
Fixpoint dedup (l : list StoreId) : list StoreId :=
  match l with
  | [] => []
  | x :: tl => x :: match dedup tl with y :: tl' => if decide (x = y) then tl' else y :: tl' | [] => [] end
  end.

(** The variables of the loop. *)
Record Scan := MkScan { scan_ids : list StoreId; scan_defaults : gmap ApplicationId StoreId; scan_cache : Injector }.

Definition announce (scan : Scan) (message : option Message) : Scan :=
  match announcement <$> message with
  | Some (Announces store_id) => MkScan (scan_ids scan ++ [store_id]) (scan_defaults scan) (scan_cache scan)
  | Some (Activates true blueprint_id) =>
      MkScan (scan_ids scan) (<[application_id blueprint_id := blueprint_id]> (scan_defaults scan)) (scan_cache scan)
  | _ => scan
  end.

(** The [loop] of [enumerate_legacy_metadata]; a turn reads sixteen bytes of the file. *)
Fixpoint scan_loop (fuel : nat) (reader : R) (version : CrateVersion.t) (offset : Z) (scan : Scan)
    : fueled (result Scan CodecError) :=
  match fuel with
  | O => Done None
  | S fuel =>
      let^ msg_header_buf := read_exact_at reader offset (Z.of_nat MessageHeader.ENCODED_SIZE_BYTES) in
      match msg_header_buf with
      | Err UnexpectedEof => returns (Ok scan)
      | Err err => returns (Err (Io err))
      | Ok msg_header_buf =>
          let^ offset := arith_u64 overflow_checks (offset + Z.of_nat MessageHeader.ENCODED_SIZE_BYTES) in
          match MessageHeader.from_dlr_bytes msg_header_buf with
          | Err err => returns (Err err)
          | Ok header =>
              match MessageHeader.kind header with
              | End => returns (Ok scan)
              | ArrowMsg =>
                  let^ offset := arith_u64 overflow_checks (offset + MessageHeader.len header) in
                  scan_loop fuel reader version offset scan
              | _ =>
                  let payload_len := MessageHeader.len header in
                  let^ payload := io (read_exact_at reader offset payload_len) in
                  match payload with
                  | Err err => returns (Err err)
                  | Ok payload =>
                      let^ offset := arith_u64 overflow_checks (offset + MessageHeader.len header) in
                      let byte_span := Span.from_start_len 0 (MessageHeader.len header) in
                      let '(cache, message) := decode payload byte_span (MessageHeader.kind header) (scan_cache scan) (Some version) in
                      match message with
                      | Err err => returns (Err err)
                      | Ok message =>
                          scan_loop fuel reader version offset (announce (MkScan (scan_ids scan) (scan_defaults scan) cache) message)
                      end
                  end
              end
          end
      end
  end.

(** After the loop. *)
Definition finish_scan (scan : Scan) : t :=
  let store_ids := dedup (sort_by store_id_le (scan_ids scan)) in
  Mk store_ids (filter (fun '(_, store_id) => store_id ∈ store_ids) (scan_defaults scan)).

Definition enumerate_legacy_metadata (fuel : nat) (reader : R) : fueled (result t CodecError) :=
  let^ stream_header_buf := io (read_exact_at reader 0 (Z.of_nat StreamHeader.ENCODED_SIZE_BYTES)) in
  match (let? stream_header_buf := stream_header_buf in
         let? stream_header := StreamHeader.from_dlr_bytes stream_header_buf in
         StreamHeader.to_version_and_options stream_header) with
  | Err err => returns (Err err)
  | Ok (version, _) =>
      let^ scan := scan_loop fuel reader version (Z.of_nat StreamHeader.ENCODED_SIZE_BYTES) (MkScan [] ∅ injector_default) in
      Done ((fun scan => let? scan := scan in Ok (finish_scan scan)) <$> scan)
  end.

Definition enumerate_dlr_stores (fuel : nat) (reader : R) : fueled (result (list StoreId) CodecError) :=
  let^ footer := read_dlr_footer reader in
  match footer with
  | Err err => returns (Err err)
  | Ok (Some footer) => returns (Ok (sort_by store_id_le (footer_store_ids footer)))
  | Ok None =>
      let^ metadata := enumerate_legacy_metadata fuel reader in
      Done ((fun metadata => let? metadata := metadata in Ok (store_ids metadata)) <$> metadata)
  end.

End RrdMetadata.

End RrdMetadata.

(** ** Fingerprints *)

(** SHA-256 of the [sha2] crate; [digest] is that of one update. *)
Class Sha256 := {
  Hasher : Type;
  sha256_new : Hasher;
  sha256_update (self : Hasher) (data : list Z) : Hasher;
  sha256_finalize (self : Hasher) : list Z;
}.
Definition sha256_digest `{Sha256} (data : list Z) : list Z := sha256_finalize (sha256_update sha256_new data).

Module RrdFingerprint.

Section RrdFingerprint.
Context {R : Type} `{AsyncReadAt R, Xxh32, Sha256} (overflow_checks : bool).

(** [while offset < size]; a turn reads a byte at least. *)
Fixpoint hash_loop (fuel : nat) (reader : R) (size offset : Z) (hasher : Hasher) : fueled (result Hasher CodecError) :=
  if offset <? size then
    match fuel with
    | O => Done None
    | S fuel =>
        let len := Z.min (64 * 1024) (size - offset) in
        let^ buffer := io (read_exact_at reader offset len) in
        match buffer with
        | Err err => returns (Err err)
        | Ok buffer =>
            let hasher := sha256_update hasher buffer in
            let^ offset := arith_u64 overflow_checks (offset + len) in
            hash_loop fuel reader size offset hasher
        end
    end
  else returns (Ok hasher).

Definition compute_for_dlr (reader : R) : fueled (result (list Z) CodecError) :=
  let^ payload := FooterReader.read_dlr_footer_payload overflow_checks reader in
  match payload with
  | Err err => returns (Err err)
  | Ok (Some payload) => returns (Ok (sha256_digest payload))
  | Ok None =>
      match size reader with
      | Err err => returns (Err (Io err))
      | Ok size =>
          let^ hasher := hash_loop (Z.to_nat size) reader size 0 sha256_new in
          Done ((fun hasher => let? hasher := hasher in Ok (sha256_finalize hasher)) <$> hasher)
      end
  end.

End RrdFingerprint.

End RrdFingerprint.

(** ** Chunks *)

(** The columns of a manifest that say where its chunks are, and what a chunk is decoded to
    ([decode_chunk_from_bytes], by Protobuf and Arrow). *)
Record RrdManifest := MkManifest {
  col_chunk_ids : list ChunkId.t;
  col_chunk_byte_offset : list Z;
  col_chunk_byte_size : list Z;
}.

Module ChunkReader.

Definition MERGE_GAP_BYTES : Z := 64 * 1024.

Abbreviation Entry := (ChunkId.t * Span.t)%type.

Record CoalescedSpan := MkCoalesced { byte_span : Span.t; entry_range : nat * nat }.

Section ChunkReader.
Context (overflow_checks : bool).

(** The loop over the entries from the [i]-th; the groups are the last first. *)
Fixpoint coalesce_from (i : nat) (entries : list Entry) (groups : list CoalescedSpan) : outcome (list CoalescedSpan) :=
  match entries with
  | [] => Done groups
  | (_, span) :: entries =>
      extended ←
        match groups with
        | [] => Done None
        | last :: others =>
            last_end ← Span.end_ overflow_checks (byte_span last);
            limit ← arith_u64 overflow_checks (last_end + MERGE_GAP_BYTES);
            if Span.start span <=? limit then
              span_end ← Span.end_ overflow_checks span;
              len ← arith_u64 overflow_checks (Z.max span_end last_end - Span.start (byte_span last));
              Done (Some (MkCoalesced (Span.Mk (Span.start (byte_span last)) len) (fst (entry_range last), S i) :: others))
            else Done None
        end;
      match extended with
      | Some groups => coalesce_from (S i) entries groups
      | None => coalesce_from (S i) entries (MkCoalesced span (i, S i) :: groups)
      end
  end.

Definition coalesce_spans (entries : list Entry) : outcome (list CoalescedSpan) :=
  groups ← coalesce_from 0 entries []; Done (rev groups).

(** The rows of the chunks: the last one, if an id is there twice. *)
Definition id_to_row (manifest : RrdManifest) : gmap ChunkId.t nat :=
  foldl (fun m '(i, id) => <[id := i]> m) ∅ (imap (fun i id => (i, id)) (col_chunk_ids manifest)).

(** The entries of the chunks, up to one that the manifest does not have. *)
Fixpoint resolve (manifest : RrdManifest) (chunk_ids : list ChunkId.t) : outcome (result (list Entry) CodecError) :=
  match chunk_ids with
  | [] => Done (Ok [])
  | id :: chunk_ids =>
      match id_to_row manifest !! id with
      | None => Done (Err (ChunkNotInManifest id))
      | Some row =>
          match col_chunk_byte_offset manifest !! row, col_chunk_byte_size manifest !! row with
          | Some offset, Some size =>
              let! entries := resolve manifest chunk_ids in
              Done (Ok ((id, Span.from_start_len offset size) :: entries))
          | _, _ => Panic
          end
      end
  end.

Definition start_le (a b : Entry) : bool := Span.start a.2 <=? Span.start b.2.

Context {R : Type} `{AsyncReadAt R} {Chunk : Type} (decode_chunk_from_bytes : list Z -> result Chunk CodecError).

(** [&buf[local_span.range()]]. *)
Definition slice_range (buf : list Z) (start len : Z) : outcome (list Z) :=
  end_ ← arith_u64 overflow_checks (start + len);
  if (start <=? end_) && (end_ <=? Z.of_nat (length buf))
  then Done (take (Z.to_nat (end_ - start)) (drop (Z.to_nat start) buf)) else Panic.

Fixpoint decode_group (buf : list Z) (group_start : Z) (entries : list Entry) (result : list Chunk)
    : outcome (Prelude.result (list Chunk) CodecError) :=
  match entries with
  | [] => Done (Ok result)
  | (_, chunk_span) :: entries =>
      local_start ← arith_u64 overflow_checks (Span.start chunk_span - group_start);
      bytes ← slice_range buf local_start (Span.len chunk_span);
      let! chunk := Done (decode_chunk_from_bytes bytes) in
      decode_group buf group_start entries (result ++ [chunk])
  end.

Fixpoint read_groups (reader : R) (entries : list Entry) (groups : list CoalescedSpan) (result : list Chunk)
    : outcome (Prelude.result (list Chunk) CodecError) :=
  match groups with
  | [] => Done (Ok result)
  | group :: groups =>
      let! buf := io (read_exact_at reader (Span.start (byte_span group)) (Span.len (byte_span group))) in
      let '(from, to) := entry_range group in
      let! result := decode_group buf (Span.start (byte_span group)) (take (to - from) (drop from entries)) result in
      read_groups reader entries groups result
  end.

Definition read_chunks (reader : R) (manifest : RrdManifest) (chunk_ids : list ChunkId.t)
    : outcome (result (list Chunk) CodecError) :=
  match chunk_ids with
  | [] => Done (Ok [])
  | _ =>
      let! entries := resolve manifest chunk_ids in
      let entries := sort_by start_le entries in
      groups ← coalesce_spans entries;
      read_groups reader entries groups []
  end.

End ChunkReader.

End ChunkReader.
