(* ===== verification/DlrReaderSpec.v ===== *)
(** * What the positional readers of the log format promise *)

From stdpp Require Import strings.
From S2P Require Import Prelude Ints Tuid Text CrateVersion DlrFrames DlrDecoder DlrEncoder DlrEncoderSpec DlrReader.

(** ** Readers that hold some bytes *)

Definition slice (bytes : list Z) (offset len : Z) : list Z := take (Z.to_nat len) (drop (Z.to_nat offset) bytes).

Record holds `{AsyncReadAt R} (r : R) (bytes : list Z) : Prop := {
  holds_fit : Z.of_nat (length bytes) <= i64_max;
  holds_size : size r = Ok (Z.of_nat (length bytes));
  holds_inside offset len : 0 <= offset -> 0 <= len -> offset + len <= Z.of_nat (length bytes) ->
    read_exact_at r offset len = Done (Ok (slice bytes offset len));
  holds_outside offset len : is_u64 offset -> 0 < len <= i64_max -> Z.of_nat (length bytes) < offset + len ->
    read_exact_at r offset len = Done (Err UnexpectedEof);
}.

Lemma length_slice bytes offset len : 0 <= offset -> 0 <= len -> offset + len <= Z.of_nat (length bytes) -> Z.of_nat (length (slice bytes offset len)) = len.
Proof. intros. unfold slice. rewrite length_take, length_drop. lia. Qed.

Lemma slice_app bytes offset len : 0 <= offset -> offset = Z.of_nat (length bytes) -> forall payload rest, len = Z.of_nat (length payload) -> slice (bytes ++ payload ++ rest) offset len = payload.
Proof. intros _ -> payload rest ->. unfold slice. by rewrite !Nat2Z.id, drop_app_length, take_app_length. Qed.

Lemma slice_slice bytes offset len offset' len' : 0 <= offset -> 0 <= offset' -> 0 <= len' -> offset' + len' <= len ->
  slice (slice bytes offset len) offset' len' = slice bytes (offset + offset') len'.
Proof.
  intros. unfold slice. rewrite skipn_firstn_comm, drop_drop, take_take. f_equal; [lia|]. f_equal. lia.
Qed.

(** Bytes in memory. *)
Lemma bytes_hold bytes : Z.of_nat (length bytes) <= i64_max -> holds bytes bytes.
Proof.
  intros Hfit. split; [done|done|..]; intros offset len; cbn; unfold Bytes.read_exact_at; intros.
  - by rewrite !(proj2 (Z.leb_le _ _)) by int_lia.
  - rewrite (proj2 (Z.leb_gt _ (Z.of_nat (length bytes)))) by lia. by rewrite andb_false_r.
Qed.

(** Files, whose reads may be short: [pread] gives a part of what is at the position, and
    something if there is something. *)
Definition file_of `{FileSystem F} (f : F) (bytes : list Z) : Prop :=
  metadata_len f = Ok (Z.of_nat (length bytes))
  /\ forall offset len, 0 <= offset -> 0 < len -> exists read, read_at f offset len = Ok read
     /\ read `prefix_of` drop (Z.to_nat offset) bytes /\ Z.of_nat (length read) <= len
     /\ (offset < Z.of_nat (length bytes) -> read <> []).

Section Files.
Context `{FileSystem F} (overflow_checks : bool) (f : F) (bytes : list Z).
Hypothesis (Hfit : Z.of_nat (length bytes) <= i64_max) (Hfile : file_of f bytes).

Lemma prefix_slice read offset len : read `prefix_of` drop (Z.to_nat offset) bytes -> Z.of_nat (length read) <= len ->
  read = slice bytes offset (Z.of_nat (length read)).
Proof. intros [rest Hrest] _. unfold slice. by rewrite Nat2Z.id, Hrest, take_app_length. Qed.

Lemma slice_split offset n m : 0 <= offset -> 0 <= n -> 0 <= m ->
  slice bytes offset (n + m) = slice bytes offset n ++ slice bytes (offset + n) m.
Proof.
  intros. unfold slice. rewrite !Z2Nat.inj_add by lia. rewrite <- drop_drop, <- (take_drop (Z.to_nat n) (take (Z.to_nat n + Z.to_nat m) _)).
  rewrite take_take, skipn_firstn_comm. f_equal; f_equal; lia.
Qed.

Lemma read_loop_inside fuel offset len filled : 0 <= offset -> 0 <= filled <= len -> offset + len <= Z.of_nat (length bytes) ->
  len - filled <= Z.of_nat fuel ->
  File.read_loop overflow_checks fuel f offset len (slice bytes offset filled) = Done (Ok (slice bytes offset len)).
Proof.
  revert filled. induction fuel as [|fuel IH]; intros filled Hoff Hfilled Hlen Hfuel; cbn [File.read_loop]; rewrite length_slice by lia;
    (destruct (Z.ltb_spec filled len) as [Hlt|]; [|by replace filled with len by lia]); [lia|].
  rewrite arith_u64_done by int_lia. cbn [mbind outcome_bind]. destruct Hfile as [_ Hread].
  destruct (Hread (offset + filled) (len - filled)) as (read & -> & Hprefix & Hl & Hsome); [lia..|].
  specialize (Hsome ltac:(lia)). destruct read as [|b read]; [done|]. set (read' := b :: read) in *.
  rewrite (prefix_slice read' (offset + filled) (len - filled) Hprefix Hl), <- slice_split by lia.
  apply IH; [lia..|]. assert (1 <= length read')%nat by (subst read'; cbn; lia). lia.
Qed.

Lemma read_loop_outside fuel offset len filled : is_u64 offset -> 0 <= filled -> filled < len ->
  (filled = 0 \/ offset + filled <= Z.of_nat (length bytes)) ->
  Z.of_nat (length bytes) < offset + len -> len - filled <= Z.of_nat fuel ->
  File.read_loop overflow_checks fuel f offset len (slice bytes offset filled) = Done (Err UnexpectedEof).
Proof.
  revert filled. induction fuel as [|fuel IH]; intros filled Hoff Hfilled Hlen Hin Hout Hfuel; [lia|]. cbn [File.read_loop].
  assert (Z.of_nat (length (slice bytes offset filled)) = filled) as ->.
  { destruct (decide (filled = 0)) as [->|]; [by unfold slice|]. apply length_slice; int_lia. }
  rewrite (proj2 (Z.ltb_lt _ _)) by lia. rewrite arith_u64_done by int_lia. cbn [mbind outcome_bind]. destruct Hfile as [_ Hread].
  destruct (Hread (offset + filled) (len - filled)) as (read & -> & Hprefix & Hl & Hsome); [int_lia..|].
  destruct read as [|b read]; [done|]. set (read' := b :: read) in *.
  assert (1 <= length read')%nat by (subst read'; cbn; lia).
  assert (offset + filled + Z.of_nat (length read') <= Z.of_nat (length bytes)) as Hle.
  { apply prefix_length in Hprefix. rewrite length_drop in Hprefix. int_lia. }
  rewrite (prefix_slice read' (offset + filled) (len - filled) Hprefix Hl), <- slice_split by int_lia. apply IH; [done|lia..].
Qed.

Lemma file_holds : @holds F (File.async_read_at overflow_checks) f bytes.
Proof.
  split; [done|by destruct Hfile|..]; intros offset len; cbn; unfold File.read_exact_at; intros.
  - rewrite (proj2 (Z.ltb_ge _ _)) by lia. apply (read_loop_inside (Z.to_nat len) offset len 0); lia.
  - rewrite (proj2 (Z.ltb_ge _ _)) by lia. apply (read_loop_outside (Z.to_nat len) offset len 0); [done|lia..].
Qed.

End Files.

(** ** Footers *)

Section Footers.
Context `{AsyncReadAt R, Protos, Xxh32, !Xxh32Laws} (overflow_checks : bool).
Implicit Types (r : R) (stream : Stream).

(** The end of a file is a footer: the file is asked for the span that the footer gives. *)
Lemma read_payload r front offset footer h :
  holds r (front ++ stream_footer_bytes offset footer) -> (12 <= length front)%nat -> StreamHeader.from_dlr_bytes (take 12 front) = Ok h ->
  0 <= offset -> offset + Z.of_nat (length (prost_encode footer)) <= Z.of_nat (length (front ++ stream_footer_bytes offset footer)) ->
  FooterReader.read_dlr_footer_payload overflow_checks r
  = let payload := slice (front ++ stream_footer_bytes offset footer) offset (Z.of_nat (length (prost_encode footer))) in
    let expected := StreamFooter.compute_crc (prost_encode footer) in
    if negb (StreamFooter.compute_crc payload =? expected)
    then Done (Err (CrcMismatch expected (StreamFooter.compute_crc payload))) else Done (Ok (Some payload)).
Proof.
  intros Hr Hfront Hh Hoff Hend. unfold FooterReader.read_dlr_footer_payload. rewrite (holds_size _ _ Hr). cbn [io].
  pose proof (holds_fit _ _ Hr) as Hfit. pose proof (length_stream_footer offset footer) as Hsf. rewrite length_app, Hsf in *.
  change (Z.of_nat StreamHeader.ENCODED_SIZE_BYTES) with 12. change (Z.of_nat StreamFooter.ENCODED_SIZE_BYTES) with 32.
  rewrite (proj2 (Z.ltb_ge _ 12)) by lia. rewrite (holds_inside _ _ Hr) by (rewrite ?length_app, ?Hsf; lia). cbn [io].
  assert (slice (front ++ stream_footer_bytes offset footer) 0 12 = take 12 front) as ->.
  { unfold slice. change (Z.to_nat 0) with 0%nat. change (Z.to_nat 12) with 12%nat. rewrite drop_0, take_app_le by lia. done. }
  rewrite Hh. cbv iota. rewrite (proj2 (Z.ltb_ge _ 32)) by lia. rewrite (holds_inside _ _ Hr) by (rewrite ?length_app, ?Hsf; lia). cbn [io].
  assert (slice (front ++ stream_footer_bytes offset footer) (Z.of_nat (length front + 32) - 32) 32 = stream_footer_bytes offset footer) as ->.
  { unfold slice. rewrite drop_app_length' by lia. apply take_ge. lia. }
  rewrite read_footer by int_lia. cbn [mbind outcome_bind StreamFooter.new StreamFooter.entries footer_span Span.start Span.len
    StreamFooterEntry.dlr_footer_byte_span_from_start_excluding_header StreamFooterEntry.crc_excluding_header].
  rewrite arith_u64_done by int_lia. cbn [mbind outcome_bind]. rewrite (proj2 (Z.ltb_ge _ _)) by lia.
  rewrite (holds_inside _ _ Hr) by (rewrite ?length_app, ?Hsf; lia). cbn [io]. done.
Qed.

(** What is before the stream footer of a stream. *)
Definition before_footer stream footer : list Z :=
  header_bytes (stream_version stream) (stream_options stream) ++ messages_bytes (stream_messages stream)
  ++ MessageHeader.to_dlr_bytes (MessageHeader.Mk End (Z.of_nat (length (prost_encode footer)))) ++ prost_encode footer.

Lemma stream_bytes_footer stream footer : stream_footer stream = Some footer ->
  stream_bytes stream = before_footer stream footer ++ stream_footer_bytes (body_offset (stream_messages stream)) footer.
Proof. intros Hf. unfold stream_bytes, before_footer. rewrite Hf. cbn [end_bytes]. by rewrite <- !app_assoc. Qed.

Lemma length_before_footer stream footer :
  Z.of_nat (length (before_footer stream footer)) = body_offset (stream_messages stream) + Z.of_nat (length (prost_encode footer)).
Proof. unfold before_footer, body_offset. rewrite !length_app, length_header, length_message_header. lia. Qed.

(** C24.  The footer of a file is read back from its end: for a file that is one stream, the
    payload of its footer.  In a file of several streams the span of the last footer, which counts
    from the start of its own stream, is read from the start of the file: other bytes, so an error
    unless they happen to have the same checksum. *)
Theorem read_footer_spec r stream footer (Hfooter : stream_footer stream = Some footer) :
  (holds r (stream_bytes stream) -> FooterReader.read_dlr_footer_payload overflow_checks r = Done (Ok (Some (prost_encode footer))))
  /\ forall first streams, let file := stream_bytes first ++ (streams ≫= stream_bytes) ++ stream_bytes stream in
     holds r file ->
     let payload := slice file (body_offset (stream_messages stream)) (Z.of_nat (length (prost_encode footer))) in
     StreamFooter.compute_crc payload <> StreamFooter.compute_crc (prost_encode footer) ->
     FooterReader.read_dlr_footer_payload overflow_checks r
     = Done (Err (CrcMismatch (StreamFooter.compute_crc (prost_encode footer)) (StreamFooter.compute_crc payload))).
Proof.
  pose proof (stream_bytes_footer stream footer Hfooter) as Hbytes. pose proof (length_before_footer stream footer) as Hlen.
  assert (0 <= body_offset (stream_messages stream)) as Hoff by (unfold body_offset; lia). split.
  - intros Hr. rewrite Hbytes in Hr. rewrite (read_payload r _ _ _ (header_of (stream_version stream) (stream_options stream)) Hr).
    + cbv zeta. assert (slice (before_footer stream footer ++ stream_footer_bytes (body_offset (stream_messages stream)) footer)
        (body_offset (stream_messages stream)) (Z.of_nat (length (prost_encode footer))) = prost_encode footer) as ->.
      { unfold before_footer. rewrite !app_assoc, <- (app_assoc _ (prost_encode footer)). apply slice_app; [done| |done].
        unfold body_offset. rewrite !length_app, length_header, length_message_header. lia. }
      by rewrite Z.eqb_refl.
    + unfold before_footer. rewrite length_app, length_header. lia.
    + unfold before_footer. rewrite take_app_length' by (by rewrite length_header). apply read_header.
    + done.
    + rewrite length_app. lia.
  - cbv zeta. intros first streams. rewrite Hbytes.
    assert (stream_bytes first ++ (streams ≫= stream_bytes) ++ before_footer stream footer ++ stream_footer_bytes (body_offset (stream_messages stream)) footer
      = (stream_bytes first ++ (streams ≫= stream_bytes) ++ before_footer stream footer) ++ stream_footer_bytes (body_offset (stream_messages stream)) footer)
      as -> by (by rewrite <- !app_assoc).
    intros Hr Hcrc. rewrite (read_payload r _ _ _ (header_of (stream_version first) (stream_options first)) Hr).
    + cbv zeta. by rewrite (proj2 (Z.eqb_neq _ _)).
    + unfold stream_bytes. rewrite !length_app, length_header. lia.
    + unfold stream_bytes at 1. rewrite <- !app_assoc, take_app_length' by (by rewrite length_header). apply read_header.
    + done.
    + rewrite !length_app. lia.
Qed.

End Footers.

(** ** Metadata *)

Section Metadata.
Context `{AsyncReadAt R, Xxh32, LocalVersion, Metadata} (overflow_checks : bool).
Import RrdMetadata.
Implicit Types (r : R) (scan : Scan) (frame : MessageKind * list Z).

Definition frame_bytes frame : list Z :=
  MessageHeader.to_dlr_bytes (MessageHeader.Mk frame.1 (Z.of_nat (length frame.2))) ++ frame.2.

(** What is announced by frames: Arrow messages are not decoded, and the others are in order, with
    the injector that the ones before have left. *)
Fixpoint scan_frames (version : CrateVersion.t) (frames : list (MessageKind * list Z)) scan : result Scan CodecError :=
  match frames with
  | [] => Ok scan
  | (ArrowMsg, _) :: frames => scan_frames version frames scan
  | (kind, payload) :: frames =>
      let '(cache, message) := decode payload (Span.from_start_len 0 (Z.of_nat (length payload))) kind (scan_cache scan) (Some version) in
      let? message := message in
      scan_frames version frames (announce (MkScan (scan_ids scan) (scan_defaults scan) cache) message)
  end.

(** Where the frames stop: at a header of the end, or at less than a header. *)
Definition stops (tail : list Z) : Prop :=
  (length tail < 16)%nat \/ exists len rest, is_u64 len /\ tail = MessageHeader.to_dlr_bytes (MessageHeader.Mk End len) ++ rest.

(** The next header. *)
Lemma read_message_header r front kind len rest : is_u64 len ->
  holds r (front ++ MessageHeader.to_dlr_bytes (MessageHeader.Mk kind len) ++ rest) ->
  exists data, read_exact_at r (Z.of_nat (length front)) (Z.of_nat MessageHeader.ENCODED_SIZE_BYTES) = Done (Ok data)
    /\ MessageHeader.from_dlr_bytes data = Ok (MessageHeader.Mk kind len).
Proof.
  intros Hlen Hr. destruct (message_header_roundtrip (MessageHeader.Mk kind len) Hlen) as [Hl Hfrom].
  exists (MessageHeader.to_dlr_bytes (MessageHeader.Mk kind len)). split; [|done]. rewrite (holds_inside _ _ Hr).
  - do 2 f_equal. apply slice_app; [lia|done|by rewrite Hl].
  - lia.
  - lia.
  - rewrite !length_app, Hl. unfold MessageHeader.ENCODED_SIZE_BYTES. lia.
Qed.

Lemma scan_loop_stops r front tail fuel version scan : holds r (front ++ tail) -> stops tail -> (0 < fuel)%nat ->
  scan_loop overflow_checks fuel r version (Z.of_nat (length front)) scan = returns (Ok scan).
Proof.
  intros Hr Htail Hfuel. destruct fuel as [|fuel]; [lia|]. cbn [scan_loop]. pose proof (holds_fit _ _ Hr) as Hfit. rewrite length_app in Hfit.
  destruct Htail as [Htail|(len & rest & Hlen & ->)].
  - rewrite (holds_outside _ _ Hr); [done|int_lia|done|]. rewrite length_app. unfold MessageHeader.ENCODED_SIZE_BYTES. lia.
  - destruct (read_message_header r front End len rest Hlen Hr) as (data & -> & Hfrom). cbv iota.
    rewrite length_app, length_message_header in Hfit. unfold MessageHeader.ENCODED_SIZE_BYTES. rewrite arith_u64_done by int_lia. by rewrite Hfrom.
Qed.

Lemma scan_loop_ok r frames front tail fuel version scan : holds r (front ++ (frames ≫= frame_bytes) ++ tail) ->
  Forall (fun frame => frame.1 <> End) frames -> stops tail -> (length frames < fuel)%nat ->
  scan_loop overflow_checks fuel r version (Z.of_nat (length front)) scan = returns (scan_frames version frames scan).
Proof.
  intros Hr Hframes Htail. revert front fuel scan Hr. induction Hframes as [|[kind payload] frames Hkind _ IH]; intros front fuel scan Hr Hfuel;
    [by apply scan_loop_stops with tail|].
  cbn [fst] in Hkind. cbn [length] in Hfuel. destruct fuel as [|fuel]; [lia|]. cbn [mbind list_bind] in Hr. unfold frame_bytes at 1 in Hr. cbn [fst snd] in Hr.
  rewrite <- !app_assoc in Hr. pose proof (holds_fit _ _ Hr) as Hfit. rewrite !length_app, length_message_header in Hfit.
  destruct (read_message_header r front kind (Z.of_nat (length payload)) _ ltac:(int_lia) Hr) as (data & Hread & Hfrom).
  set (header := MessageHeader.to_dlr_bytes (MessageHeader.Mk kind (Z.of_nat (length payload)))) in *.
  assert (length header = 16%nat) as Hheader by apply length_message_header.
  assert (read_exact_at r (Z.of_nat (length front) + 16) (Z.of_nat (length payload)) = Done (Ok payload)) as Hpayload.
  { rewrite (holds_inside _ _ Hr) by (rewrite ?length_app; lia). do 2 f_equal. rewrite app_assoc. apply slice_app; [lia|rewrite length_app; lia|done]. }
  specialize (IH (front ++ header ++ payload) fuel).
  replace (Z.of_nat (length (front ++ header ++ payload))) with (Z.of_nat (length front) + 16 + Z.of_nat (length payload)) in IH by (rewrite !length_app; lia).
  rewrite <- !app_assoc in IH. cbn [scan_loop]. rewrite Hread. change (Z.of_nat MessageHeader.ENCODED_SIZE_BYTES) with 16.
  rewrite arith_u64_done by int_lia. rewrite Hfrom. cbn [MessageHeader.kind MessageHeader.len scan_frames].
  destruct kind; [done| | |]; rewrite ?Hpayload; cbn [io]; rewrite arith_u64_done by int_lia; try (apply IH; [done|lia]).
  all: destruct (decode _ _ _ _ _) as [cache [message|err]]; [apply IH; [done|lia]|done].
Qed.

(** The order of the identifiers of stores. *)
Class StoreIdOrder : Prop := {
  store_id_preorder :: TotalPreorder store_id_le;
  store_id_antisym a b : store_id_le a b = true -> store_id_le b a = true -> a = b;
}.

Abbreviation strictly_sorted := (StronglySorted (fun a b : StoreId => store_id_le a b = true /\ a <> b)).

Lemma elem_of_dedup id l : id ∈ dedup l <-> id ∈ l.
Proof.
  induction l as [|x l IH]; [done|]. cbn [dedup]. rewrite !elem_of_cons, <- IH.
  destruct (dedup l) as [|y l']; [done|]. destruct (decide (x = y)) as [->|]; rewrite ?elem_of_cons; tauto.
Qed.

Lemma dedup_sorted `{!StoreIdOrder} l : sorted_by store_id_le l -> strictly_sorted (dedup l).
Proof.
  induction 1 as [|x l _ IH Hx]; [constructor|]. cbn [dedup].
  assert (forall z, z ∈ dedup l -> store_id_le x z = true) as Hall by (intros z Hz; rewrite elem_of_dedup in Hz; rewrite Forall_forall in Hx; by apply Hx).
  destruct (dedup l) as [|y l'] eqn:Hd; [by repeat constructor|]. destruct (decide (x = y)) as [->|Hne]; [done|]. constructor; [done|].
  apply Forall_forall. intros z Hz. split; [by apply Hall|]. intros ->. apply Hne.
  apply StronglySorted_inv in IH as [_ Hy]. rewrite Forall_forall in Hy. apply elem_of_cons in Hz as [->|Hz]; [done|].
  apply store_id_antisym; [apply Hall; by left|by apply Hy].
Qed.

Lemma elem_of_store_ids id scan : id ∈ store_ids (finish_scan scan) <-> id ∈ scan_ids scan.
Proof. unfold finish_scan. cbn [store_ids]. by rewrite elem_of_dedup, sort_by_perm. Qed.

Lemma lookup_defaults scan app_id id :
  default_blueprint_by_app_id (finish_scan scan) !! app_id = Some id
  <-> scan_defaults scan !! app_id = Some id /\ id ∈ scan_ids scan.
Proof. rewrite <- elem_of_store_ids. unfold finish_scan at 1. cbn [default_blueprint_by_app_id]. by rewrite map_lookup_filter_Some. Qed.

(** C25.  The metadata of a file without its footer: the messages up to the end are gone through,
    Arrow messages skipped, the first error in the others given.  The stores are those that are
    announced, each once and in order; the blueprint of an application is the last one that is made
    its default, if its store is announced. *)
Theorem legacy_metadata_spec `{!StoreIdOrder} r version options patched frames tail fuel
    (Hr : holds r (header_bytes version options ++ (frames ≫= frame_bytes) ++ tail))
    (Hversion : StreamHeader.to_version_and_options (header_of version options) = Ok (patched, options))
    (Hframes : Forall (fun frame => frame.1 <> End) frames) (Htail : stops tail) (Hfuel : (length frames < fuel)%nat) :
  enumerate_legacy_metadata overflow_checks fuel r
  = returns (let? scan := scan_frames patched frames (MkScan [] ∅ injector_default) in Ok (finish_scan scan))
  /\ forall scan, let metadata := finish_scan scan in
     strictly_sorted (store_ids metadata)
     /\ (forall id, id ∈ store_ids metadata <-> id ∈ scan_ids scan)
     /\ forall app_id id, default_blueprint_by_app_id metadata !! app_id = Some id
        <-> scan_defaults scan !! app_id = Some id /\ id ∈ scan_ids scan.
Proof.
  split.
  - unfold enumerate_legacy_metadata. change (Z.of_nat StreamHeader.ENCODED_SIZE_BYTES) with 12.
    rewrite (holds_inside _ _ Hr) by (rewrite ?length_app, ?length_header; lia). cbn [io].
    assert (slice (header_bytes version options ++ (frames ≫= frame_bytes) ++ tail) 0 12 = header_bytes version options) as ->
      by (apply (slice_app []); [done..|by rewrite length_header]).
    rewrite read_header, Hversion.
    replace 12 with (Z.of_nat (length (header_bytes version options))) by (by rewrite length_header).
    by rewrite (scan_loop_ok r frames _ tail).
  - intros scan. split; [|split].
    + apply dedup_sorted, sort_by_sorted, _.
    + intros id. apply elem_of_store_ids.
    + apply lookup_defaults.
Qed.

(** *** Termination *)

Lemma message_header_len data header : bytes_ok data -> MessageHeader.from_dlr_bytes data = Ok header -> 0 <= MessageHeader.len header.
Proof.
  intros Hdata. unfold MessageHeader.from_dlr_bytes. destruct (negb _); [done|].
  pose proof (LittleEndian.from_bytes_range _ (Forall_take _ 8 _ (Forall_drop _ 8 _ Hdata))) as Hlen.
  repeat case_match; intros [= <-]; simplify_eq; cbn; lia.
Qed.

Lemma arith_u64_grows offset len offset' : 0 <= offset -> 0 <= len -> arith_u64 true (offset + len) = Done offset' -> is_u64 offset' /\ offset + len = offset'.
Proof. unfold arith_u64. intros ? ?. destruct (decide _); [by intros [= <-]|done]. Qed.

(** With overflow checks every turn of the loop goes sixteen bytes further, or stops. *)
Lemma scan_loop_ends r bytes fuel version offset scan : holds r bytes -> bytes_ok bytes -> is_u64 offset -> (0 < fuel)%nat ->
  Z.of_nat (length bytes) < offset + 16 * Z.of_nat fuel -> scan_loop true fuel r version offset scan <> Done None.
Proof.
  intros Hr Hbytes. pose proof (holds_fit _ _ Hr) as Hfit. revert offset scan.
  induction fuel as [|fuel IH]; intros offset scan Hoffset Hpos Hfuel; [lia|]. cbn [scan_loop].
  change (Z.of_nat MessageHeader.ENCODED_SIZE_BYTES) with 16.
  destruct (Z.le_gt_cases (offset + 16) (Z.of_nat (length bytes))) as [Hin|Hout]; [|by rewrite (holds_outside _ _ Hr) by int_lia].
  rewrite (holds_inside _ _ Hr) by int_lia. rewrite arith_u64_done by int_lia.
  assert (bytes_ok (slice bytes offset 16)) as Hslice by (by apply Forall_take, Forall_drop).
  destruct (MessageHeader.from_dlr_bytes _) as [header|] eqn:Hheader; [|done]. pose proof (message_header_len _ _ Hslice Hheader) as Hlen.
  assert (forall offset' scan', arith_u64 true (offset + 16 + MessageHeader.len header) = Done offset' -> scan_loop true fuel r version offset' scan' <> Done None) as Hnext.
  { intros offset' scan' Ho. apply arith_u64_grows in Ho as [Ho <-]; [|int_lia..]. apply IH; [done|lia..]. }
  destruct (MessageHeader.kind header); [done| | |].
  2: destruct (arith_u64 _ _); [by apply Hnext|done].
  all: destruct (io _) as [[payload|]|]; [|done..]; destruct (arith_u64 _ _); [|done]; destruct (decode _ _ _ _ _) as [cache [message|]]; [by apply Hnext|done].
Qed.

(** C26.  The scan of a file without its footer ends, whatever bytes it has, in a build with overflow
    checks, after a turn for every sixteen bytes at most.  In a build without them it need not: the
    length in a header is added to the position as it is, and can bring it back. *)
Theorem legacy_scan_termination r bytes (Hr : holds r bytes) :
  (forall fuel, bytes_ok bytes -> Z.of_nat (length bytes) < 12 + 16 * Z.of_nat fuel -> enumerate_legacy_metadata true fuel r <> Done None)
  /\ forall version options patched rest fuel,
     bytes = header_bytes version options ++ MessageHeader.to_dlr_bytes (MessageHeader.Mk ArrowMsg (2 ^ 64 - 16)) ++ rest ->
     StreamHeader.to_version_and_options (header_of version options) = Ok (patched, options) ->
     enumerate_legacy_metadata false fuel r = Done None.
Proof.
  unfold enumerate_legacy_metadata. change (Z.of_nat StreamHeader.ENCODED_SIZE_BYTES) with 12. split.
  - intros fuel Hbytes Hfuel. destruct (Z.le_gt_cases 12 (Z.of_nat (length bytes))) as [Hin|Hout].
    + rewrite (holds_inside _ _ Hr) by lia. cbn [io]. destruct (StreamHeader.from_dlr_bytes _) as [header|]; [|done].
      destruct (StreamHeader.to_version_and_options header) as [[version ?]|]; [|done].
      pose proof (scan_loop_ends r bytes fuel version 12 (MkScan [] ∅ injector_default) Hr Hbytes) as Hend.
      destruct (scan_loop _ _ _ _ _ _) as [[scan|]|]; [done| |done]. exfalso. apply Hend; [done|lia|lia|done].
    + rewrite (holds_outside _ _ Hr) by int_lia. done.
  - intros version options patched rest fuel -> Hversion.
    rewrite (holds_inside _ _ Hr) by (rewrite ?length_app, ?length_header; lia). cbn [io].
    assert (slice (header_bytes version options ++ MessageHeader.to_dlr_bytes (MessageHeader.Mk ArrowMsg (2 ^ 64 - 16)) ++ rest) 0 12 = header_bytes version options)
      as -> by (apply (slice_app []); [done..|by rewrite length_header]).
    rewrite read_header, Hversion.
    assert (forall scan, scan_loop false fuel r patched 12 scan = Done None) as Hloop; [|by rewrite Hloop].
    destruct (read_message_header r _ ArrowMsg (2 ^ 64 - 16) rest ltac:(done) Hr) as (data & Hread & Hfrom). rewrite length_header in Hread.
    induction fuel as [|fuel IH]; intros scan; [done|]. cbn [scan_loop]. change (read_exact_at r 12) with (read_exact_at r (Z.of_nat 12)). rewrite Hread, Hfrom. exact (IH scan).
Qed.

End Metadata.

(** ** Fingerprints *)

(** [sha2]: updates can be made in pieces. *)
Class Sha256Laws `{Sha256} : Prop := {
  sha256_update_nil h : sha256_update h [] = h;
  sha256_update_app h data data' : sha256_update (sha256_update h data) data' = sha256_update h (data ++ data');
}.

Section Fingerprints.
Context `{AsyncReadAt R, Xxh32, Sha256, !Sha256Laws} (overflow_checks : bool).
Implicit Types r : R.

Lemma hash_loop_ok r bytes fuel offset h : holds r bytes -> 0 <= offset <= Z.of_nat (length bytes) -> Z.of_nat (length bytes) - offset <= Z.of_nat fuel ->
  RrdFingerprint.hash_loop overflow_checks fuel r (Z.of_nat (length bytes)) offset h
  = returns (Ok (sha256_update h (drop (Z.to_nat offset) bytes))).
Proof.
  intros Hr. pose proof (holds_fit _ _ Hr). revert offset h. induction fuel as [|fuel IH]; intros offset h Hoff Hfuel; cbn [RrdFingerprint.hash_loop];
    (destruct (Z.ltb_spec offset (Z.of_nat (length bytes))) as [Hlt|]; [|by rewrite drop_ge, sha256_update_nil by lia]); [lia|].
  set (len := Z.min _ _). assert (0 < len <= Z.of_nat (length bytes) - offset) as Hlen by lia.
  rewrite (holds_inside _ _ Hr) by lia. cbn [io]. rewrite arith_u64_done by int_lia. rewrite IH by lia. rewrite sha256_update_app. do 3 f_equal.
  unfold slice. rewrite Z2Nat.inj_add, <- drop_drop by lia. apply take_drop.
Qed.

(** The fingerprint is the hash of the footer's payload, or of the whole file if it has no footer. *)
Lemma fingerprint_spec r bytes : holds r bytes ->
  RrdFingerprint.compute_for_dlr overflow_checks r
  = match FooterReader.read_dlr_footer_payload overflow_checks r with
    | Panic => Panic
    | Done (Err e) => returns (Err e)
    | Done (Ok (Some payload)) => returns (Ok (sha256_digest payload))
    | Done (Ok None) => returns (Ok (sha256_digest bytes))
    end.
Proof.
  intros Hr. unfold RrdFingerprint.compute_for_dlr. destruct (FooterReader.read_dlr_footer_payload _ r) as [[[payload|]|e]|]; [done| |done..].
  rewrite (holds_size _ _ Hr). rewrite (hash_loop_ok r bytes) by (done || lia). done.
Qed.

End Fingerprints.

(** ** Chunks *)

Section Chunks.
Context (overflow_checks : bool).
Import ChunkReader.

Definition end_of (span : Span.t) : Z := Span.start span + Span.len span.

(** The groups of the first entries, the last one first: the span of each goes exactly from the
    start of its first entry to the last end among its entries, and more than the gap is between
    one group and the next. *)
Inductive grouped (entries : list Entry) : nat -> list CoalescedSpan -> Prop :=
| grouped_nil : grouped entries 0 []
| grouped_cons from to span groups :
    grouped entries from groups -> (from < to <= length entries)%nat ->
    (forall j e, (from <= j < to)%nat -> entries !! j = Some e -> Span.start span <= Span.start e.2 /\ end_of e.2 <= end_of span) ->
    (exists e, entries !! from = Some e /\ Span.start e.2 = Span.start span) ->
    (exists j e, (from <= j < to)%nat /\ entries !! j = Some e /\ end_of e.2 = end_of span) ->
    match groups with last :: _ => end_of (byte_span last) + MERGE_GAP_BYTES < Span.start span | [] => True end ->
    grouped entries to (MkCoalesced span (from, to) :: groups).

(** Entries in the order of their starts, whose ends are far from the largest [u64]. *)
Definition entries_ok (entries : list Entry) : Prop :=
  sorted_by start_le entries
  /\ Forall (fun e => 0 <= Span.start e.2 /\ 0 <= Span.len e.2 /\ end_of e.2 + MERGE_GAP_BYTES <= u64_max) entries.

Lemma coalesce_from_ok entries i rest groups : entries_ok entries -> drop i entries = rest -> grouped entries i groups -> (i <= length entries)%nat ->
  exists groups', coalesce_from overflow_checks i rest groups = Done groups' /\ grouped entries (length entries) groups'.
Proof.
  intros [Hsorted Hall]. revert i groups. induction rest as [|[id span] rest IH]; intros i groups Hrest Hgroups Hi; cbn [coalesce_from].
  - exists groups. split; [done|]. assert (length (drop i entries) = 0%nat) as Hl by (by rewrite Hrest). rewrite length_drop in Hl.
    by replace (length entries) with i by lia.
  - assert (entries !! i = Some (id, span)) as He by (pose proof (lookup_drop entries i 0) as Hd; rewrite Hrest, Nat.add_0_r in Hd; symmetry; exact Hd).
    assert (drop (S i) entries = rest) as Hrest' by (replace (S i) with (i + 1)%nat by lia; rewrite <- drop_drop, Hrest; done).
    assert (S i <= length entries)%nat as Hi' by (apply lookup_lt_Some in He; lia).
    pose proof (Forall_lookup_1 _ _ _ _ Hall He) as (Hs & Hl & He'). cbn [snd] in Hs, Hl, He'.
    assert (forall limit_of, match groups with last :: _ => limit_of < Span.start span | [] => True end ->
      (match groups with last :: _ => limit_of = end_of (byte_span last) + MERGE_GAP_BYTES | [] => True end) ->
      grouped entries (S i) (MkCoalesced span (i, S i) :: groups)) as Hnew.
    { intros limit Hgap Hlimit. apply grouped_cons; [done|lia| | | |].
      - intros j e Hj Hje. assert (j = i) as -> by lia. rewrite He in Hje. injection Hje as <-. cbn. lia.
      - by exists (id, span).
      - exists i, (id, span). split; [lia|done].
      - destruct groups; [done|]. by rewrite <- Hlimit. }
    destruct groups as [|last groups].
    + cbn [mbind outcome_bind]. by apply IH; [|apply (Hnew 0)|].
    + inversion Hgroups as [|from to lspan groups' Hg Hft Hin Hfirst Hlast Hgap]; subst. cbn [byte_span entry_range fst].
      destruct Hfirst as (e0 & He0 & Hs0). destruct Hlast as (j & ej & Hj & Hej & Hendj).
      pose proof (Forall_lookup_1 _ _ _ _ Hall He0) as (Hs0' & _). pose proof (Forall_lookup_1 _ _ _ _ Hall Hej) as (Hsj & Hlj & Hendj').
      rewrite Hs0 in Hs0'. rewrite Hendj in Hendj'. unfold end_of in *. unfold MERGE_GAP_BYTES in *.
      assert (0 <= Span.len lspan) as Hlenl by (specialize (Hin from e0 ltac:(lia) He0); pose proof (Forall_lookup_1 _ _ _ _ Hall He0); cbn in *; lia).
      unfold Span.end_. rewrite !(arith_u64_done _ (_ + Span.len _)) by int_lia. cbn [mbind outcome_bind].
      rewrite (arith_u64_done _ (_ + _ + _)) by int_lia. cbn [mbind outcome_bind].
      assert (Span.start lspan <= Span.start span) as Hle.
      { rewrite <- Hs0. apply Z.leb_le. apply (sorted_lookup start_le entries from i e0 (id, span) Hsorted); [lia|done..]. }
      destruct (Z.leb_spec (Span.start span) (Span.start lspan + Span.len lspan + 64 * 1024)) as [Hnear|Hfar].
      * rewrite arith_u64_done by int_lia. cbn [mbind outcome_bind]. apply IH; [done| |done].
        apply grouped_cons; [done|lia| | | |done]; unfold end_of; cbn [Span.start Span.len].
        -- intros k e Hk Hke. destruct (decide (k = i)) as [->|].
           ++ rewrite He in Hke. injection Hke as <-. cbn [snd]. lia.
           ++ specialize (Hin k e ltac:(lia) Hke). lia.
        -- by exists e0.
        -- destruct (Z.max_spec (Span.start span + Span.len span) (Span.start lspan + Span.len lspan)) as [[? ->]|[? ->]].
           ++ exists j, ej. split; [lia|]. split; [done|]. lia.
           ++ exists i, (id, span). split; [lia|]. split; [done|]. cbn [snd]. lia.
      * cbn [mbind outcome_bind]. apply IH; [done| |done]. by apply (Hnew (Span.start lspan + Span.len lspan + 64 * 1024)).
Qed.

Lemma coalesce_spans_ok entries : entries_ok entries ->
  exists groups, coalesce_spans overflow_checks entries = Done (rev groups) /\ grouped entries (length entries) groups.
Proof.
  intros Hok. unfold coalesce_spans. destruct (coalesce_from_ok entries 0 entries []) as (groups & -> & Hgroups); [done|done|constructor|lia|].
  by exists groups.
Qed.

(** *** The rows of the manifest *)

(** A manifest whose columns have one length. *)
Definition manifest_ok (manifest : RrdManifest) : Prop :=
  length (col_chunk_byte_offset manifest) = length (col_chunk_ids manifest)
  /\ length (col_chunk_byte_size manifest) = length (col_chunk_ids manifest).

Definition rows (manifest : RrdManifest) : list Entry :=
  zip (col_chunk_ids manifest) (zip_with Span.from_start_len (col_chunk_byte_offset manifest) (col_chunk_byte_size manifest)).

(** The entry of a chunk: the last one with its id. *)
Definition entry_of (manifest : RrdManifest) (id : ChunkId.t) : option Entry :=
  last (filter (fun e => e.1 = id) (rows manifest)).

Lemma last_row (entries : list Entry) id :
  match foldl (fun m '(i, id) => <[id := i]> m) (∅ : gmap ChunkId.t nat) (imap (fun i id => (i, id)) entries.*1) !! id with
  | Some row => exists span, entries !! row = Some (id, span) /\ last (filter (fun e => e.1 = id) entries) = Some (id, span)
  | None => filter (fun e => e.1 = id) entries = []
  end.
Proof.
  induction entries as [|[id' span] entries IH] using rev_ind; [done|].
  rewrite fmap_app, imap_app, foldl_app, filter_app. cbn [fmap list_fmap fst imap foldl]. rewrite length_fmap, Nat.add_0_r, filter_cons, filter_nil. cbn [fst].
  destruct (decide (id' = id)) as [->|Hne].
  - rewrite lookup_insert_eq. exists span. rewrite lookup_app_r, Nat.sub_diag, last_snoc by lia. done.
  - rewrite lookup_insert_ne by done. rewrite app_nil_r. destruct (_ !! id) as [row|]; [|done].
    destruct IH as (span' & Hrow & Hlast). exists span'. split; [by apply lookup_app_l_Some|done].
Qed.

(** The first chunk without an entry, or the entries. *)
Lemma resolve_spec manifest chunk_ids : manifest_ok manifest ->
  resolve manifest chunk_ids
  = Done match head (filter (fun id => entry_of manifest id = None) chunk_ids) with
         | Some id => Err (ChunkNotInManifest id)
         | None => Ok (omap (entry_of manifest) chunk_ids)
         end.
Proof.
  intros [Hoffset Hsize]. induction chunk_ids as [|id chunk_ids IH]; [done|]. cbn [resolve omap list_omap]. rewrite filter_cons.
  pose proof (last_row (rows manifest) id) as Hrow. unfold id_to_row. unfold rows at 1 in Hrow.
  rewrite fst_zip in Hrow by (rewrite length_zip_with; lia). destruct (_ !! id) as [row|].
  - destruct Hrow as (span & Hrow & Hlast). fold (entry_of manifest id) in Hlast. rewrite Hlast, decide_False by done. unfold rows in Hrow. rewrite lookup_zip_with_Some in Hrow.
    destruct Hrow as (id' & span' & [= <- <-] & _ & Hspan). rewrite lookup_zip_with_Some in Hspan.
    destruct Hspan as (offset & size & -> & -> & ->). rewrite IH. by destruct (head _).
  - assert (entry_of manifest id = None) as Hnone by (unfold entry_of; by rewrite Hrow). by rewrite Hnone, decide_True.
Qed.

(** *** Reading *)

Context {R : Type} `{AsyncReadAt R} {Chunk : Type} (decode_chunk_from_bytes : list Z -> result Chunk CodecError).
Implicit Types (r : R) (chunks : list Chunk).

(** Every chunk decoded from its own slice of the file, up to the first error. *)
Fixpoint decode_slices (bytes : list Z) (entries : list Entry) : result (list Chunk) CodecError :=
  match entries with
  | [] => Ok []
  | (_, span) :: entries =>
      let? chunk := decode_chunk_from_bytes (slice bytes (Span.start span) (Span.len span)) in
      let? chunks := decode_slices bytes entries in Ok (chunk :: chunks)
  end.

Lemma decode_slices_app bytes entries entries' :
  decode_slices bytes (entries ++ entries')
  = (let? chunks := decode_slices bytes entries in let? chunks' := decode_slices bytes entries' in Ok (chunks ++ chunks')).
Proof.
  induction entries as [|[id span] entries IH]; cbn [decode_slices app]; [by destruct (decode_slices bytes entries')|].
  destruct (decode_chunk_from_bytes _); [|done]. rewrite IH. destruct (decode_slices bytes entries); [|done]. by destruct (decode_slices bytes entries').
Qed.

Lemma decode_group_ok bytes start len entries chunks : 0 <= start -> start + len <= Z.of_nat (length bytes) -> Z.of_nat (length bytes) <= i64_max ->
  Forall (fun e => start <= Span.start e.2 /\ 0 <= Span.len e.2 /\ end_of e.2 <= start + len) entries ->
  decode_group overflow_checks decode_chunk_from_bytes (slice bytes start len) start entries chunks
  = Done (let? chunks' := decode_slices bytes entries in Ok (chunks ++ chunks')).
Proof.
  intros Hstart Hend Hfit Hin. revert chunks. induction Hin as [|[id span] entries (Hs & Hl & He) _ IH]; intros chunks; cbn [decode_group decode_slices];
    [by rewrite app_nil_r|]. cbn [snd] in *. unfold end_of in He. rewrite arith_u64_done by int_lia. cbn [mbind outcome_bind].
  unfold slice_range. rewrite arith_u64_done by int_lia. cbn [mbind outcome_bind]. rewrite length_slice by lia.
  rewrite !(proj2 (Z.leb_le _ _)) by lia. cbn [andb]. rewrite Z.add_simpl_l.
  fold (slice (slice bytes start len) (Span.start span - start) (Span.len span)). rewrite slice_slice, Zplus_minus by lia.
  cbn [mbind outcome_bind]. destruct (decode_chunk_from_bytes _) as [chunk|]; [|done]. rewrite IH. destruct (decode_slices bytes entries); [|done]. by rewrite <- app_assoc.
Qed.

Lemma read_groups_app r entries groups groups' chunks :
  read_groups overflow_checks decode_chunk_from_bytes r entries (groups ++ groups') chunks
  = (let! chunks := read_groups overflow_checks decode_chunk_from_bytes r entries groups chunks in
     read_groups overflow_checks decode_chunk_from_bytes r entries groups' chunks).
Proof.
  revert chunks. induction groups as [|[span [from to]] groups IH]; intros chunks; cbn [read_groups app]; [done|].
  destruct (io _) as [[buf|]|]; [|done..]. cbn [entry_range]. destruct (decode_group _ _ _ _ _ _) as [[chunks'|]|]; [apply IH|done..].
Qed.

Lemma read_groups_ok r bytes entries to groups : holds r bytes ->
  Forall (fun e => 0 <= Span.start e.2 /\ 0 <= Span.len e.2 /\ end_of e.2 <= Z.of_nat (length bytes)) entries -> grouped entries to groups ->
  read_groups overflow_checks decode_chunk_from_bytes r entries (rev groups) [] = Done (decode_slices bytes (take to entries)).
Proof.
  intros Hr Hin Hgroups. pose proof (holds_fit _ _ Hr) as Hfit.
  induction Hgroups as [|from to span groups _ IH Hft Hspan (e & He & Hes) (j & e' & Hj & He' & Hee) _]; [done|]. cbn [rev].
  rewrite read_groups_app, IH. cbv zeta.
  assert (take to entries = take from entries ++ take (to - from) (drop from entries)) as ->.
  { rewrite <- (take_drop from (take to entries)), take_take, skipn_firstn_comm. by rewrite Nat.min_l by lia. }
  rewrite decode_slices_app. destruct (decode_slices bytes (take from entries)) as [chunks|]; [|done].
  pose proof (Forall_lookup_1 _ _ _ _ Hin He) as (Hs0 & Hl0 & _). pose proof (Forall_lookup_1 _ _ _ _ Hin He') as (_ & _ & Hend).
  specialize (Hspan from e ltac:(lia) He) as Hfirst. unfold end_of in *.
  cbn [read_groups byte_span entry_range]. rewrite (holds_inside _ _ Hr) by lia. cbn [io].
  rewrite decode_group_ok; [by destruct (decode_slices bytes (take (to - from) _))|lia|lia|done|].
  apply Forall_lookup_2. intros k x Hk. rewrite lookup_take_Some, lookup_drop in Hk. destruct Hk as [Hk Hlt].
  destruct (Hspan (from + k)%nat x ltac:(lia) Hk). pose proof (Forall_lookup_1 _ _ _ _ Hin Hk) as (_ & ? & _). unfold end_of. lia.
Qed.

(** C23.  Reading chunks: one that the manifest does not have is an error, and otherwise, although
    the reader coalesces what it reads, every chunk is what is decoded from its own slice of the
    file, in the order of the slices. *)
Theorem read_chunks_spec r bytes manifest chunk_ids (Hr : holds r bytes) (Hmanifest : manifest_ok manifest)
  (Hrows : Forall (fun e => 0 <= Span.start e.2 /\ 0 <= Span.len e.2 /\ end_of e.2 <= Z.of_nat (length bytes)) (rows manifest)) :
  read_chunks overflow_checks decode_chunk_from_bytes r manifest chunk_ids
  = Done match head (filter (fun id => entry_of manifest id = None) chunk_ids) with
         | Some id => Err (ChunkNotInManifest id)
         | None => decode_slices bytes (sort_by start_le (omap (entry_of manifest) chunk_ids))
         end.
Proof.
  unfold read_chunks. rewrite resolve_spec by done. pose proof (holds_fit _ _ Hr) as Hfit.
  assert (Forall (fun e : Entry => 0 <= Span.start e.2 /\ 0 <= Span.len e.2 /\ end_of e.2 <= Z.of_nat (length bytes))
    (sort_by start_le (omap (entry_of manifest) chunk_ids))) as Hin.
  { rewrite sort_by_perm. apply Forall_forall. intros e (id & _ & He)%list_elem_of_omap. unfold entry_of in He.
    apply last_Some_elem_of, list_elem_of_filter in He as [_ He]. rewrite Forall_forall in Hrows. by apply Hrows. }
  destruct chunk_ids as [|id chunk_ids]; [done|]. cbv iota. destruct (head _); [done|].
  set (entries := sort_by _ _) in *. destruct (coalesce_spans_ok entries) as (groups & -> & Hgroups).
  - split; [apply sort_by_sorted, key_preorder|]. eapply Forall_impl; [exact Hin|]. cbn. unfold MERGE_GAP_BYTES. int_lia.
  - cbn [mbind outcome_bind]. rewrite (read_groups_ok r bytes entries _ groups Hr Hin Hgroups). by rewrite firstn_all.
Qed.

End Chunks.
