(* ===== verification/PendingRow.v ===== *)
(** * Rows to log, and the chunks made of them

    The upper half of [dl_chunk/src/batcher.rs]: a logged row ([PendingRow]), and how a batch of
    them is split into chunks ([many_into_chunks]); with [dl_log_types/src/index/time_cell.rs],
    [time_point.rs] and [arrays_to_list_array_opt] of [dl_arrow_util/src/arrays.rs].

    The batch is grouped by hashes of the rows' timelines and data types.  The hasher is a
    parameter ([BatchHashes]), and so is the order in which an [IntMap] of components is
    traversed, which the second hash depends on: the components of a row are a list in that
    order. *)

From stdpp Require Import strings.
From S2P Require Import Prelude Ints TimeInt TimeRange Tuid Arrow Column Chunk.

(** ** Times of a row *)

Module TimeCell.

Record t := Mk { typ : TimeType; value : NonMinI64.t }.

(** The argument is the result of [try_into]; what fails is clamped. *)
Definition new (typ : TimeType) (value : option NonMinI64.t) : t := Mk typ (default NonMinI64.MIN value).
Definition from_sequence (sequence : option NonMinI64.t) : t := new Sequence sequence.
Definition from_duration_nanos (nanos : option NonMinI64.t) : t := new DurationNs nanos.
Definition from_timestamp_nanos_since_epoch (nanos : option NonMinI64.t) : t := new TimestampNs nanos.
Definition ZERO_DURATION : t := Mk DurationNs NonMinI64.ZERO.
Definition ZERO_SEQUENCE : t := Mk Sequence NonMinI64.ZERO.
Definition as_i64 (self : t) : Z := NonMinI64.get (value self).

(** [From<TimeCell> for TimeInt]. *)
Definition to_time_int (self : t) : TimeInt.t := TimeInt.from_nanos (value self).

End TimeCell.

Module TimePoint.

(** The times of a row, by the name of the timeline. *)
Abbreviation t := (gmap string TimeCell.t).

Definition STATIC : t := ∅.
Definition get (self : t) (timeline_name : TimelineName) : option NonMinI64.t := TimeCell.value <$> self !! timeline_name.
Definition insert_cell (self : t) (timeline_name : TimelineName) (cell : TimeCell.t) : t := <[timeline_name := cell]> self.
Definition insert (self : t) (timeline : Timeline) (time : result TimeInt.t unit) : t :=
  let cell := TimeCell.new (tl_typ timeline) (NonMinI64.new (TimeInt.as_i64 (TimeInt.saturated_temporal time))) in
  insert_cell self (tl_name timeline) cell.
Definition remove (self : t) (timeline_name : TimelineName) : t := delete timeline_name self.
Definition is_static (self : t) : bool := bool_decide (self = ∅).
Definition timeline_names (self : t) : list TimelineName := (map_to_list self).*1.

End TimePoint.

(** ** Data types *)

(** [Field::new_list_field(array.data_type(), true)]. *)
Class DataTypes `{ArrowOps} := array_field : Array -> Field.
Class DataTypesLaws `{DataTypes} : Prop :=
  array_field_accepts a : field_accepts (array_field a) a = true.

(** [arrays_to_list_array_opt]: the data type is that of the first array. *)
Definition arrays_to_list_array_opt `{DataTypes} (arrays : list (option Array)) : option (outcome ListArray) :=
  match omap id arrays with
  | [] => None
  | array :: _ => arrays_to_list_array (array_field array) arrays
  end.

(** [AHasher] over the names of the timelines, and over the data types. *)
Class BatchHashes `{ArrowOps} := {
  timeline_set_hash : list TimelineName -> Z;
  datatype_set_hash : list Field -> Z;
}.

(** The traversal order of an [IntMap] with keys inserted in the given order. *)
Class IntMapOrder := int_map_order : list ComponentIdentifier -> list ComponentIdentifier.
Class IntMapOrderLaws `{IntMapOrder} : Prop := int_map_order_perm l : int_map_order l ≡ₚ l.

(** ** Columns of times being built *)

Module PendingTimeColumn.

Record t := Mk {
  timeline : Timeline;
  times : list Z;
  is_sorted : bool;
  time_range : AbsoluteTimeRange.t;
}.

Definition new (timeline : Timeline) : t := Mk timeline [] true AbsoluteTimeRange.EMPTY.

Definition push (self : t) (time : TimeInt.t) : t :=
  let is_sorted :=
    is_sorted self && (default (TimeInt.as_i64 TimeInt.MIN) (last (times self)) <=? TimeInt.as_i64 time) in
  let time_range :=
    AbsoluteTimeRange.set_min (time_range self) (Ok (TimeInt.min (AbsoluteTimeRange.rmin (time_range self)) time)) in
  let time_range :=
    AbsoluteTimeRange.set_max time_range (Ok (TimeInt.max (AbsoluteTimeRange.rmax time_range) time)) in
  Mk (timeline self) (times self ++ [TimeInt.as_i64 time]) is_sorted time_range.

Definition finish (self : t) : TimeColumn.t :=
  TimeColumn.Mk (timeline self) (times self) (is_sorted self) (time_range self).

End PendingTimeColumn.

(** ** Rows *)

(** [SerializedComponentBatch]. *)
Record SerializedComponentBatch `{ArrowOps} := Batch { array : Array; descriptor : ComponentDescriptor }.
#[global] Arguments Batch {_} _ _.

Module PendingRow.

Record t `{ArrowOps} := Mk {
  row_id : RowId.t;
  timepoint : TimePoint.t;
  components : list (ComponentIdentifier * SerializedComponentBatch);
}.
#[global] Arguments Mk {_} _ _ _.

Section Operations.

Context `{Build} `{ArrowOps} `{!Chunk.SizeBytes} `{!DataTypes} `{!BatchHashes} `{!IntMapOrder}.
Implicit Types self : t.

(** [IntMap::get] and [insert]. *)
Fixpoint get {A} (m : list (ComponentIdentifier * A)) (component : ComponentIdentifier) : option A :=
  match m with
  | [] => None
  | (k, x) :: m => if decide (k = component) then Some x else get m component
  end.

Fixpoint insert {A} (m : list (ComponentIdentifier * A)) (component : ComponentIdentifier) (x : A)
    : list (ComponentIdentifier * A) :=
  match m with
  | [] => [(component, x)]
  | (k, y) :: m => if decide (k = component) then (k, x) :: m else (k, y) :: insert m component x
  end.

Definition new (new_row_id : RowId.t) (timepoint : TimePoint.t)
    (components : list (ComponentIdentifier * SerializedComponentBatch)) : t := Mk new_row_id timepoint components.

Definition from_iter (new_row_id : RowId.t) (timepoint : TimePoint.t) (components : list SerializedComponentBatch) : t :=
  let m := foldl (fun m component => insert m (cd_component (descriptor component)) component) [] components in
  new new_row_id timepoint (omap (fun k => pair k <$> get m k) (int_map_order m.*1)).

(** The columns of a chunk, of the arrays of each component. *)
Fixpoint build_components (columns : list (ComponentDescriptor * list (option Array))) (acc : ChunkComponents.t)
    : outcome ChunkComponents.t :=
  match columns with
  | [] => Done acc
  | (desc, arrays) :: columns =>
      acc ← (match arrays_to_list_array_opt arrays with
             | None => Done acc
             | Some list_array =>
                 list_array ← list_array;
                 Done (ChunkComponents.insert acc
                   {| ChunkComponents.list_array := list_array; ChunkComponents.descriptor := desc |})
             end);
      build_components columns acc
  end.

Definition into_chunk (new_id : ChunkId.t) self (entity_path : EntityPath) : outcome (result Chunk.t ChunkError) :=
  let timelines :=
    map_imap (fun timeline_name cell =>
      Some (TimeColumn.new (Some true) {| tl_name := timeline_name; tl_typ := TimeCell.typ cell |} [TimeCell.as_i64 cell]))
      (timepoint self) in
  per_desc ← build_components ((fun '(_, batch) => (descriptor batch, [Some (array batch)])) <$> components self) ∅;
  Chunk.new new_id entity_path (Some true) [row_id self] timelines per_desc.

(** *** Many rows *)

(** The variables of the loop over a group. *)
Record Pending := {
  row_ids : list RowId.t;
  timelines : gmap string PendingTimeColumn.t;
  columns : gmap string (ComponentDescriptor * list (option Array));
  chunks : list (result Chunk.t ChunkError);
}.

(** [entry(timeline_name).or_insert_with(..)]. *)
Definition entry (m : gmap string PendingTimeColumn.t) (timeline_name : TimelineName) (cell : TimeCell.t)
    : PendingTimeColumn.t :=
  default (PendingTimeColumn.new {| tl_name := timeline_name; tl_typ := TimeCell.typ cell |}) (m !! timeline_name).

(** The chunk of what is pending. *)
Definition finish (fresh : nat -> ChunkId.t) (entity_path : EntityPath) (pending : Pending)
    : outcome (result Chunk.t ChunkError) :=
  per_component ← build_components (map_to_list (columns pending)).*2 ∅;
  Chunk.new (fresh (length (chunks pending))) entity_path (Some true) (row_ids pending)
    (PendingTimeColumn.finish <$> timelines pending) per_component.

(** The first loop over the times of a row, which splits the chunk where it is too long to be
    unsorted. *)
Fixpoint split_if_unsorted (fresh : nat -> ChunkId.t) (entity_path : EntityPath) (chunk_max_rows_if_unsorted : Z)
    (all_components : gmap string (ComponentDescriptor * list (option Array)))
    (row_timepoint : list (TimelineName * TimeCell.t)) (pending : Pending) : outcome Pending :=
  match row_timepoint with
  | [] => Done pending
  | (timeline_name, cell) :: row_timepoint =>
      let time_column := entry (timelines pending) timeline_name cell in
      let pending := {| row_ids := row_ids pending; timelines := <[timeline_name := time_column]> (timelines pending);
                        columns := columns pending; chunks := chunks pending |} in
      pending ←
        (if negb (bool_decide (row_ids pending = []))
            && (chunk_max_rows_if_unsorted <=? Z.of_nat (length (row_ids pending)))
            && negb (PendingTimeColumn.is_sorted time_column)
         then chunk ← finish fresh entity_path pending;
              Done {| row_ids := []; timelines := ∅; columns := all_components; chunks := chunks pending ++ [chunk] |}
         else Done pending);
      split_if_unsorted fresh entity_path chunk_max_rows_if_unsorted all_components row_timepoint pending
  end.

(** The rest of the body: the row is pushed. *)
Definition push_row (pending : Pending) (row : t) : Pending :=
  {| row_ids := row_ids pending ++ [row_id row];
     timelines :=
       foldl (fun m '(timeline_name, cell) =>
           <[timeline_name := PendingTimeColumn.push (entry m timeline_name cell) (TimeCell.to_time_int cell)]> m)
         (timelines pending) (map_to_list (timepoint row));
     columns :=
       map_imap (fun component '(desc, arrays) => Some (desc, arrays ++ [array <$> get (components row) component]))
         (columns pending);
     chunks := chunks pending |}.

Fixpoint batch_rows (fresh : nat -> ChunkId.t) (entity_path : EntityPath) (chunk_max_rows_if_unsorted : Z)
    (all_components : gmap string (ComponentDescriptor * list (option Array))) (rows : list t) (pending : Pending)
    : outcome Pending :=
  match rows with
  | [] => Done pending
  | row :: rows =>
      pending ← split_if_unsorted fresh entity_path chunk_max_rows_if_unsorted all_components
        (map_to_list (timepoint row)) pending;
      batch_rows fresh entity_path chunk_max_rows_if_unsorted all_components rows (push_row pending row)
  end.

(** [all_components]: the descriptor of a component is that of its first batch. *)
Definition collect_components (rows : list t) : gmap string (ComponentDescriptor * list (option Array)) :=
  foldl (fun m row =>
      foldl (fun m '(component, batch) =>
          match m !! component with Some _ => m | None => <[component := (descriptor batch, [])]> m end)
        m (components row))
    ∅ rows.

(** The chunks of one group of rows. *)
Definition group_into_chunks (fresh : nat -> ChunkId.t) (entity_path : EntityPath) (chunk_max_rows_if_unsorted : Z)
    (rows : list t) : outcome (list (result Chunk.t ChunkError)) :=
  let all_components := collect_components rows in
  pending ← batch_rows fresh entity_path chunk_max_rows_if_unsorted all_components rows
    {| row_ids := []; timelines := ∅; columns := all_components; chunks := [] |};
  chunk ← finish fresh entity_path pending;
  Done (chunks pending ++ [chunk]).

(** [entry(hash(row)).or_default().push(row)] over the rows. *)
Definition group_by (hash : t -> Z) (rows : list t) : gmap Z (list t) :=
  foldl (fun m row => <[hash row := default [] (m !! hash row) ++ [row]]> m) ∅ rows.

Definition timeline_hash (row : t) : Z := timeline_set_hash (TimePoint.timeline_names (timepoint row)).
Definition datatype_hash (row : t) : Z :=
  datatype_set_hash ((fun '(_, batch) => array_field (array batch)) <$> components row).

(** [fresh] by the two hashes and the position of the chunk. *)
Definition many_into_chunks (fresh : Z -> Z -> nat -> ChunkId.t) (entity_path : EntityPath)
    (chunk_max_rows_if_unsorted : Z) (rows : list t) : outcome (list (result Chunk.t ChunkError)) :=
  let rows := sort_by (fun a b => RowId.le (row_id a) (row_id b)) rows in
  let per_timeline_set := group_by timeline_hash rows in
  chunks ← mapM (fun '(timeline_set, rows) =>
    let per_datatype_set := group_by datatype_hash rows in
    chunks ← mapM (fun '(datatype_set, rows) =>
      group_into_chunks (fresh timeline_set datatype_set) entity_path chunk_max_rows_if_unsorted rows)
      (map_to_list per_datatype_set);
    Done (mjoin chunks)) (map_to_list per_timeline_set);
  Done (mjoin chunks).

End Operations.

End PendingRow.
