(* ===== verification/PendingRowSpec.v ===== *)
(** * The chunks of logged rows

    What [many_into_chunks] makes of a batch: chunks that hold exactly the rows of the batch, each
    well formed and sorted by row id, and as long as allowed where their times are out of order. *)

From stdpp Require Import strings.
From S2P Require Import Prelude Ints TimeInt TimeRange Tuid Arrow Column Chunk PendingRow.

(** ** The rows that are meant *)

Section Meaning.

Context `{ArrowOps} `{!DataTypes} `{!BatchHashes}.

Definition cells_of (row : PendingRow.t) : gmap string Array :=
  list_to_map ((fun '(k, batch) => (k, array batch)) <$> PendingRow.components row).

Definition row_of (row : PendingRow.t) : Row := {|
  row_id := PendingRow.row_id row;
  row_times := TimeCell.as_i64 <$> PendingRow.timepoint row;
  row_cells := cells_of row;
|}.

(** The components are keyed by their descriptors, as [from_iter] collects them. *)
Definition row_ok (row : PendingRow.t) : Prop :=
  NoDup (PendingRow.components row).*1
  /\ Forall (fun '(k, batch) => cd_component (descriptor batch) = k) (PendingRow.components row).

(** Rows that the hashes put in one group fit in one chunk: they are on the same timelines, their
    common components have the same data type, and all or none have any. *)
Definition fit (r s : PendingRow.t) : Prop :=
  dom (PendingRow.timepoint r) = dom (PendingRow.timepoint s)
  /\ (PendingRow.components r = [] <-> PendingRow.components s = [])
  /\ forall k b c, (k, b) ∈ PendingRow.components r -> (k, c) ∈ PendingRow.components s ->
       array_field (array b) = array_field (array c).

Definition compatible (batch : list PendingRow.t) : Prop := forall r s, r ∈ batch -> s ∈ batch ->
  PendingRow.timeline_hash r = PendingRow.timeline_hash s ->
  dom (PendingRow.timepoint r) = dom (PendingRow.timepoint s)
  /\ (PendingRow.datatype_hash r = PendingRow.datatype_hash s -> fit r s).

(** With hashes that do not collide it is enough that every component is of one data type. *)
Lemma compatible_intro batch :
  Inj (=) (=) timeline_set_hash -> Inj (=) (=) datatype_set_hash ->
  (forall r s k b c, r ∈ batch -> s ∈ batch -> (k, b) ∈ PendingRow.components r -> (k, c) ∈ PendingRow.components s ->
     array_field (array b) = array_field (array c)) -> compatible batch.
Proof.
  intros Ht Hd Hty r s Hr Hs Heq%Ht.
  assert (dom (PendingRow.timepoint r) = dom (PendingRow.timepoint s)) as Hdom.
  { apply set_eq. intros k. unfold TimePoint.timeline_names in Heq.
    rewrite !elem_of_dom. assert (forall m : TimePoint.t, is_Some (m !! k) <-> k ∈ (map_to_list m).*1) as Hk; [|by rewrite !Hk, Heq].
    intros m. split.
    - intros [x Hx]. apply list_elem_of_fmap. exists (k, x). by rewrite elem_of_map_to_list.
    - intros ([k' x] & -> & Hx)%list_elem_of_fmap. apply elem_of_map_to_list in Hx. by exists x. }
  split; [done|]. intros Hh%Hd. split_and!; [done| |by eauto].
  apply (f_equal length) in Hh. rewrite !length_fmap in Hh.
  destruct (PendingRow.components r), (PendingRow.components s); naive_solver.
Qed.

Lemma get_lookup {A B} (f : A -> B) m k : (f <$> PendingRow.get m k) = (list_to_map ((fun '(k, x) => (k, f x)) <$> m) : gmap string B) !! k.
Proof.
  induction m as [|[k' x] m IH]; csimpl; [by rewrite lookup_empty|].
  destruct (decide (k' = k)) as [->|]; [by rewrite lookup_insert_eq|by rewrite lookup_insert_ne].
Qed.

Lemma get_elem {A} (m : list (ComponentIdentifier * A)) k x : PendingRow.get m k = Some x -> (k, x) ∈ m.
Proof.
  induction m as [|[k' y] m IH]; cbn; [done|]. case_decide as E; [intros [= ->]; subst; left|right; auto].
Qed.

Lemma get_is_Some {A} (m : list (ComponentIdentifier * A)) k x : (k, x) ∈ m -> is_Some (PendingRow.get m k).
Proof.
  induction m as [|[k' y] m IH]; [by intros ?%elem_of_nil|]. cbn. case_decide; [done|].
  intros [[= <- <-]|Hx]%elem_of_cons; [done|auto].
Qed.

Lemma lookup_cells row k : row_cells (row_of row) !! k = array <$> PendingRow.get (PendingRow.components row) k.
Proof. symmetry. apply get_lookup. Qed.

Lemma no_cells row : row_cells (row_of row) = ∅ <-> PendingRow.components row = [].
Proof.
  split.
  - intros Hc. destruct (PendingRow.components row) as [|[k x] m] eqn:E; [done|].
    pose proof (lookup_cells row k) as Hk. rewrite Hc, lookup_empty, E in Hk. cbn in Hk. by rewrite decide_True in Hk.
  - intros E. apply map_eq. intros k. by rewrite lookup_cells, E, lookup_empty.
Qed.

(** A row collected from batches is one of these. *)
Lemma insert_ok (m : list (ComponentIdentifier * SerializedComponentBatch)) k x :
  NoDup m.*1 -> Forall (fun '(k, batch) => cd_component (descriptor batch) = k) m -> cd_component (descriptor x) = k ->
  (forall k', k' ∈ (PendingRow.insert m k x).*1 <-> k' = k \/ k' ∈ m.*1)
  /\ NoDup (PendingRow.insert m k x).*1
  /\ Forall (fun '(k, batch) => cd_component (descriptor batch) = k) (PendingRow.insert m k x).
Proof.
  intros Hnd Hm Hx. induction m as [|[k' y] m IH]; cbn.
  { split; [intros k'; by rewrite list_elem_of_singleton, elem_of_nil; naive_solver|]. split; [apply NoDup_singleton|by repeat constructor]. }
  cbn in Hnd. apply NoDup_cons in Hnd as [Hnin Hnd]. apply Forall_cons in Hm as [Hy Hm].
  destruct (decide (k' = k)) as [->|Hne]; cbn.
  - split; [intros k'; rewrite elem_of_cons; naive_solver|]. split; [by constructor|by constructor].
  - destruct (IH Hnd Hm) as (Hin & Hnd' & Hm'). split; [intros k''; rewrite !elem_of_cons, Hin; naive_solver|].
    split; [|by constructor]. constructor; [|done]. rewrite Hin. naive_solver.
Qed.

Lemma from_iter_ok `{!IntMapOrder} `{!IntMapOrderLaws} new_row_id timepoint components :
  row_ok (PendingRow.from_iter new_row_id timepoint components).
Proof.
  unfold PendingRow.from_iter. set (m := foldl _ _ _).
  assert (NoDup m.*1 /\ Forall (fun '(k, batch) => cd_component (descriptor batch) = k) m) as [Hnd Hm].
  { subst m. set (m0 := @nil (ComponentIdentifier * SerializedComponentBatch)).
    assert (NoDup m0.*1 /\ Forall (fun '(k, batch) => cd_component (descriptor batch) = k) m0) as [Hnd Hm] by (split; constructor).
    clearbody m0. revert m0 Hnd Hm. induction components as [|c components IH]; intros m0 Hnd Hm; [done|].
    cbn [foldl]. destruct (insert_ok m0 (cd_component (descriptor c)) c Hnd Hm eq_refl) as (_ & Hnd' & Hm'). by apply IH. }
  clearbody m. pose proof (int_map_order_perm m.*1) as Hp. set (l := int_map_order m.*1) in *. clearbody l.
  assert (NoDup l) as Hl by (by rewrite Hp). assert (forall k, k ∈ l -> is_Some (PendingRow.get m k)) as Hget.
  { intros k. rewrite Hp. intros ([k' x] & -> & Hx)%list_elem_of_fmap. by eapply get_is_Some. }
  split; cbn [PendingRow.new PendingRow.components].
  - replace (omap (fun k => pair k <$> PendingRow.get m k) l).*1 with l; [done|].
    clear -Hget. induction l as [|k l IH]; [done|]. cbn. destruct (Hget k) as [x ->]; [left|]. cbn. f_equal. apply IH.
    intros k' Hk'. apply Hget. by right.
  - apply Forall_forall. intros [k x] (k' & _ & Hk)%list_elem_of_omap.
    destruct (PendingRow.get m k') as [x'|] eqn:E; cbn in Hk; [|done]. injection Hk as <- <-.
    apply get_elem in E. rewrite Forall_forall in Hm. by apply (Hm _ E).
Qed.

End Meaning.

(** ** Columns *)

Section Columns.

Context `{ArrowLaws}.

(** *** Times *)

Definition column_ok (col : PendingTimeColumn.t) (l : list Z) : Prop :=
  PendingTimeColumn.times col = l
  /\ PendingTimeColumn.is_sorted col = TimeColumn.times_sorted l
  /\ Forall temporal_i64 l
  /\ (l = [] -> PendingTimeColumn.time_range col = AbsoluteTimeRange.EMPTY)
  /\ (l <> [] -> tight (PendingTimeColumn.time_range col) l).

Lemma column_new timeline : column_ok (PendingTimeColumn.new timeline) [].
Proof. by split_and!. Qed.

Lemma temporal_cell cell : temporal_i64 (TimeCell.as_i64 cell) /\ TimeInt.as_i64 (TimeCell.to_time_int cell) = TimeCell.as_i64 cell.
Proof. split; [apply NonMinI64.get_range|done]. Qed.

Lemma times_sorted_snoc l z : TimeColumn.times_sorted (l ++ [z]) = TimeColumn.times_sorted l && (default i64_min (last l) <=? z) \/ l = [].
Proof.
  destruct (last l) as [y|] eqn:E; [left|right; by apply last_None].
  apply eq_bool_prop_intro. rewrite !Is_true_true, andb_true_iff, !times_sorted_spec. cbn [default]. rewrite Z.leb_le.
  apply last_Some in E as [l' ->]. rewrite (sorted_app _ (l' ++ [y]) [z]). split.
  - intros (Hs & _ & Hx). split; [done|]. apply Hx; [set_solver|by left].
  - intros [Hs Hz]. split_and!; [done|by repeat constructor|]. intros x w Hx ->%list_elem_of_singleton.
    apply sorted_app in Hs as (_ & _ & Hs). apply elem_of_app in Hx as [Hx| ->%list_elem_of_singleton]; [|done].
    etransitivity; [exact (Hs x y Hx ltac:(left))|exact Hz].
Qed.

Lemma column_push col l time : column_ok col l -> temporal_i64 (TimeInt.as_i64 time) ->
  column_ok (PendingTimeColumn.push col time) (l ++ [TimeInt.as_i64 time]).
Proof.
  intros (Ht & Hs & Hl & He & Hr) Hz. set (z := TimeInt.as_i64 time) in *. unfold PendingTimeColumn.push. fold z.
  split_and!; cbn [PendingTimeColumn.times PendingTimeColumn.is_sorted PendingTimeColumn.time_range].
  - by rewrite Ht.
  - rewrite Ht, Hs. destruct (times_sorted_snoc l z) as [-> | ->].
    + destruct (last l) as [y|] eqn:E; [done|]. apply last_None in E as ->. cbn [default TimeColumn.times_sorted windows_all andb].
      unfold temporal_i64 in Hz. rewrite TimeInt.as_i64_MIN. rewrite !(proj2 (Z.leb_le _ _)) by lia. done.
    + cbn [last default TimeColumn.times_sorted windows_all andb app]. unfold temporal_i64 in Hz. rewrite TimeInt.as_i64_MIN. apply Z.leb_le. lia.
  - apply Forall_app. split; [done|]. by constructor.
  - by destruct l.
  - intros _. unfold tight, AbsoluteTimeRange.set_max, AbsoluteTimeRange.set_min.
    cbn [AbsoluteTimeRange.rmin AbsoluteTimeRange.rmax].
    rewrite !TimeInt.as_i64_saturated_temporal_Ok, TimeInt.as_i64_min, TimeInt.as_i64_max. fold z. unfold temporal_i64 in *.
    destruct l as [|y l].
    + rewrite He by done. cbn [AbsoluteTimeRange.rmin AbsoluteTimeRange.rmax AbsoluteTimeRange.EMPTY].
      rewrite TimeInt.as_i64_MAX, TimeInt.as_i64_MIN. cbn [app].
      replace (Z.max (Z.min i64_max z) (i64_min + 1)) with z by lia.
      replace (Z.max (Z.max (i64_min + 1) z) (i64_min + 1)) with z by lia. split_and!; [by left|by left|]. apply Forall_singleton. lia.
    + destruct (Hr ltac:(done)) as (H1 & H2 & H3).
      set (lo := TimeInt.as_i64 (AbsoluteTimeRange.rmin (PendingTimeColumn.time_range col))) in *.
      set (hi := TimeInt.as_i64 (AbsoluteTimeRange.rmax (PendingTimeColumn.time_range col))) in *.
      assert (forall w, w ∈ y :: l -> i64_min < w) as Hlow by (rewrite Forall_forall in Hl; intros w Hw; by apply Hl).
      assert (Z.max (Z.min lo z) (i64_min + 1) = Z.min lo z) as -> by (pose proof (Hlow lo H1); lia).
      assert (Z.max (Z.max hi z) (i64_min + 1) = Z.max hi z) as -> by (pose proof (Hlow hi H2); lia).
      split_and!.
      * rewrite elem_of_app, list_elem_of_singleton. destruct (Z.min_spec lo z) as [[_ ->]|[_ ->]]; auto.
      * rewrite elem_of_app, list_elem_of_singleton. destruct (Z.max_spec hi z) as [[_ ->]|[_ ->]]; auto.
      * apply Forall_app. split; [eapply Forall_impl; [exact H3|]; intros w [? ?]; cbn; lia|]. apply Forall_singleton. lia.
Qed.

Lemma column_finish col l : column_ok col l ->
  tc_wf (PendingTimeColumn.finish col) /\ TimeColumn.times (PendingTimeColumn.finish col) = l.
Proof. intros (Ht & Hs & Hl & _ & Hr). unfold tc_wf, PendingTimeColumn.finish. cbn. rewrite Ht. by split_and!. Qed.

End Columns.

(** *** Components *)

Section Building.

Context `{Build} `{ArrowLaws} `{!Chunk.SizeBytes} `{!DataTypes} `{!DataTypesLaws} `{!BatchHashes}.

Definition uniform (arrays : list (option Array)) : Prop := forall a b, Some a ∈ arrays -> Some b ∈ arrays ->
  array_field a = array_field b.

Definition built (column : option ChunkComponents.column) (desc : ComponentDescriptor) (arrays : list (option Array)) : Prop :=
  exists col, column = Some col /\ ChunkComponents.descriptor col = desc /\ elems (ChunkComponents.list_array col) = arrays.

Lemma elem_of_omap_id {A} (l : list (option A)) x : x ∈ omap id l <-> Some x ∈ l.
Proof. rewrite list_elem_of_omap. split; [intros (y & Hy & E); cbn in E; by subst|intros Hx; by exists (Some x)]. Qed.

Lemma omap_id_nil {A} (l : list (option A)) : omap id l = [] <-> Forall (fun x => x = None) l.
Proof.
  rewrite Forall_forall. split.
  - intros E [x|] Hx; [|done]. apply elem_of_omap_id in Hx. rewrite E in Hx. by apply elem_of_nil in Hx.
  - intros Hl. destruct (omap id l) as [|x k] eqn:E; [done|].
    assert (x ∈ omap id l) as Hx%elem_of_omap_id by (rewrite E; left). by apply Hl in Hx.
Qed.

Lemma arrays_to_list_array_opt_ok arrays : uniform arrays ->
  match arrays_to_list_array_opt arrays with
  | Some list_array => exists l, list_array = Done l /\ elems l = arrays /\ omap id arrays <> []
  | None => omap id arrays = []
  end.
Proof.
  intros Hu. unfold arrays_to_list_array_opt. destruct (omap id arrays) as [|a dense] eqn:E; [done|].
  assert (Some a ∈ arrays) as Ha by (apply elem_of_omap_id; rewrite E; left).
  destruct (arrays_to_list_array_spec (array_field a) arrays) as (l & -> & _ & Hl).
  - apply Forall_forall. intros [b|] Hb; [|done]. cbn. rewrite (Hu a b Ha Hb). apply array_field_accepts.
  - by exists l.
Qed.

Lemma build_components_list l : NoDup l.*1 ->
  Forall (fun '(k, (desc, arrays)) => cd_component desc = k /\ uniform arrays) l -> forall acc,
  exists m, PendingRow.build_components l.*2 acc = Done m
    /\ forall k, (forall desc arrays, (k, (desc, arrays)) ∈ l -> omap id arrays <> [] -> built (m !! k) desc arrays)
       /\ ((forall desc arrays, (k, (desc, arrays)) ∈ l -> omap id arrays = []) -> m !! k = acc !! k).
Proof.
  intros Hnd Hl. induction Hl as [|[k0 [d0 a0]] l [Hk Hu] Hl IH]; intros acc.
  { exists acc. split; [done|]. intros k. split; [by intros ?? ?%elem_of_nil|done]. }
  apply NoDup_cons in Hnd as [Hn Hnd]. cbn [fmap list_fmap snd PendingRow.build_components].
  assert (forall desc arrays, (k0, (desc, arrays)) ∉ l) as Hnew.
  { intros d a Hin. apply Hn. apply list_elem_of_fmap. by exists (k0, (d, a)). }
  pose proof (arrays_to_list_array_opt_ok a0 Hu) as Ha. destruct (arrays_to_list_array_opt a0) as [o|].
  - destruct Ha as (la & -> & Hla & Hne). cbn [mbind outcome_bind].
    set (col := {| ChunkComponents.list_array := la; ChunkComponents.descriptor := d0 |}).
    destruct (IH Hnd (ChunkComponents.insert acc col)) as (m & Hm & Hk'). exists m. split; [done|]. intros k.
    destruct (Hk' k) as [Hbuilt Hkept]. split.
    + intros d a [[= -> -> ->]|Hin]%elem_of_cons Hd; [|by apply Hbuilt]. exists col. split_and!; [|done|done].
      rewrite Hkept by (intros d a Hin; by apply Hnew in Hin). unfold ChunkComponents.insert. subst col. cbn. by rewrite Hk, lookup_insert_eq.
    + intros Hall. rewrite Hkept by (intros d a Hin; apply (Hall d a); by right). unfold ChunkComponents.insert. subst col. cbn.
      rewrite Hk, lookup_insert_ne; [done|]. intros ->. apply Hne, (Hall d0). left.
  - cbn [mbind outcome_bind]. destruct (IH Hnd acc) as (m & Hm & Hk'). exists m. split; [done|]. intros k.
    destruct (Hk' k) as [Hbuilt Hkept]. split.
    + intros d a [[= -> -> ->]|Hin]%elem_of_cons Hd; [done|by apply Hbuilt].
    + intros Hall. apply Hkept. intros d a Hin. apply (Hall d a). by right.
Qed.

Lemma build_components_ok (columns : gmap string (ComponentDescriptor * list (option Array))) :
  map_Forall (fun k '(desc, arrays) => cd_component desc = k /\ uniform arrays) columns ->
  exists m, PendingRow.build_components (map_to_list columns).*2 ∅ = Done m
    /\ forall k, match columns !! k with
       | Some (desc, arrays) => if decide (omap id arrays = []) then m !! k = None else built (m !! k) desc arrays
       | None => m !! k = None
       end.
Proof.
  intros Hc. destruct (build_components_list (map_to_list columns)) with (acc := ∅ : ChunkComponents.t) as (m & Hm & Hk).
  - apply NoDup_fst_map_to_list.
  - apply Forall_forall. intros [k [d a]] Hin%elem_of_map_to_list. exact (Hc k (d, a) Hin).
  - exists m. split; [done|]. intros k. destruct (Hk k) as [Hbuilt Hkept]. destruct (columns !! k) as [[d a]|] eqn:E.
    + case_decide as Hd.
      * rewrite Hkept, lookup_empty; [done|]. intros d' a' Hin%elem_of_map_to_list. congruence.
      * apply Hbuilt; [by apply elem_of_map_to_list|done].
    + rewrite Hkept, lookup_empty; [done|]. intros d' a' Hin%elem_of_map_to_list. congruence.
Qed.

(** ** One chunk *)

(** Columns that hold the rows [rs]. *)
Lemma assembled (c : Chunk.t) (rs : list Row) :
  Chunk.is_sorted c = Chunk.is_row_ids_sorted_uncached c -> Chunk.row_ids c = row_id <$> rs ->
  (forall k, match Chunk.timelines c !! k with
     | Some tc => tc_wf tc /\ Some <$> TimeColumn.times tc = (fun r => row_times r !! k) <$> rs
     | None => Forall (fun r => row_times r !! k = None) rs
     end) ->
  (forall k, match Chunk.components c !! k with
     | Some col => cd_component (ChunkComponents.descriptor col) = k
         /\ elems (ChunkComponents.list_array col) = (fun r => row_cells r !! k) <$> rs
     | None => Forall (fun r => row_cells r !! k = None) rs
     end) ->
  chunk_wf c /\ rows c = rs.
Proof.
  intros Hs Hids Ht Hc. assert (Chunk.num_rows c = length rs) as Hlen by (unfold Chunk.num_rows; by rewrite Hids, length_fmap).
  split.
  - split; [done|]. split.
    + intros k tc Hk. specialize (Ht k). rewrite Hk in Ht. destruct Ht as [Hw Htc]. split; [|done].
      apply (f_equal length) in Htc. rewrite !length_fmap in Htc. unfold TimeColumn.num_rows. by rewrite Hlen.
    + intros k col Hk. specialize (Hc k). rewrite Hk in Hc. destruct Hc as [Hd Hel]. split; [done|].
      by rewrite Hlen, <- length_elems, Hel, length_fmap.
  - apply list_eq. intros i. rewrite lookup_rows, Hids, list_lookup_fmap.
    destruct (rs !! i) as [r|] eqn:Hi; [|done]. cbn. f_equal. destruct r as [rid ts cs]. unfold row_at. cbn. f_equal; apply map_eq; intros k.
    + rewrite lookup_omap. specialize (Ht k). destruct (Chunk.timelines c !! k) as [tc|]; cbn.
      * destruct Ht as [_ Htc]. apply (f_equal (fun l => l !! i)) in Htc. rewrite !list_lookup_fmap, Hi in Htc. cbn in Htc.
        destruct (TimeColumn.times tc !! i); [by injection Htc as ->|done].
      * rewrite Forall_lookup in Ht. symmetry. exact (Ht i _ Hi).
    + rewrite lookup_omap. specialize (Hc k). destruct (Chunk.components c !! k) as [col|]; cbn.
      * destruct Hc as [_ Hel]. unfold cell_at. by rewrite Hel, list_lookup_fmap, Hi.
      * rewrite Forall_lookup in Hc. symmetry. exact (Hc i _ Hi).
Qed.

Lemma new_ok id path row_ids timelines components :
  very_strict = false -> let c := Chunk.Mk id path 0 true row_ids timelines components in
  chunk_wf c -> Chunk.new id path (Some true) row_ids timelines components = Done (Ok c).
Proof.
  intros Hv c Hwf.
  assert (exists r, Chunk.sanity_check c = Done r /\ r = Ok ()) as (r & Hs & ->);
    [|unfold Chunk.new; cbv zeta; cbn [default Datatypes.id]; fold c; by rewrite Hs].
  destruct debug_assertions eqn:Hd.
  - destruct (sanity_check_debug c Hd Hv (wf_typed c Hwf)) as (r & Hr & Hw). exists r. split; [done|]. apply Hw. split; [done|by left].
  - destruct (sanity_check_release c Hd Hv) as (r & Hr & Hw). exists r. split; [done|]. apply Hw.
    destruct Hwf as (_ & Ht & Hc). split; [|done]. eapply map_Forall_impl; [exact Ht|]. by intros ? ? [? _].
Qed.

Definition times_at (k : string) (rows : list PendingRow.t) : list Z :=
  (fun row => from_option TimeCell.as_i64 0 (PendingRow.timepoint row !! k)) <$> rows.

Definition cells_at (k : string) (rows : list PendingRow.t) : list (option Array) :=
  (fun row => array <$> PendingRow.get (PendingRow.components row) k) <$> rows.

(** A chunk of the rows [rs]. *)
Record made (path : EntityPath) (rs : list PendingRow.t) (c : Chunk.t) : Prop := {
  made_wf : chunk_wf c;
  made_path : Chunk.entity_path c = path;
  made_sorted : Chunk.is_sorted c = true;
  made_rows : rows c = row_of <$> rs;
  made_times k tc : Chunk.timelines c !! k = Some tc -> TimeColumn.times tc = times_at k rs;
  made_empty : Chunk.components c = ∅ <-> Forall (fun row => PendingRow.components row = []) rs;
}.

(** The rows of a group, on the timelines [D]. *)
Definition grouped (D : gset string) (group : list PendingRow.t) : Prop := forall r, r ∈ group ->
  row_ok r /\ dom (PendingRow.timepoint r) = D /\ forall s, s ∈ group -> fit r s.

Lemma cells_uniform D group k : grouped D group -> uniform (cells_at k group).
Proof.
  intros Hg a b Ha Hb. apply list_elem_of_fmap in Ha as (r & Ha & Hr). apply list_elem_of_fmap in Hb as (s & Hb & Hs).
  destruct (PendingRow.get (PendingRow.components r) k) as [x|] eqn:Ex; [|done].
  destruct (PendingRow.get (PendingRow.components s) k) as [y|] eqn:Ey; [|done]. injection Ha as ->. injection Hb as ->.
  destruct (Hg r Hr) as (_ & _ & Hfit). destruct (Hfit s Hs) as (_ & _ & Hf).
  by apply (Hf k x y); apply get_elem.
Qed.

Definition times_inv (D : gset string) (cur : list PendingRow.t) (m : gmap string PendingTimeColumn.t) : Prop :=
  forall k, match m !! k with
    | Some col => k ∈ D /\ column_ok col (times_at k cur)
    | None => cur = [] \/ k ∉ D
    end.

Definition columns_inv (all : gmap string (ComponentDescriptor * list (option Array))) (cur : list PendingRow.t)
    (m : gmap string (ComponentDescriptor * list (option Array))) : Prop :=
  forall k, m !! k = (fun '(desc, _) => (desc, cells_at k cur)) <$> all !! k.

(** [all] has the components of the rows, and no array yet. *)
Definition components_of (group : list PendingRow.t) (all : gmap string (ComponentDescriptor * list (option Array))) : Prop :=
  (forall k desc arrays, all !! k = Some (desc, arrays) -> cd_component desc = k /\ arrays = [])
  /\ forall r k x, r ∈ group -> (k, x) ∈ PendingRow.components r -> is_Some (all !! k).

Lemma cells_none k rows : omap id (cells_at k rows) = [] <->
  Forall (fun row => PendingRow.get (PendingRow.components row) k = None) rows.
Proof.
  rewrite omap_id_nil. unfold cells_at. rewrite Forall_fmap. apply Forall_iff. intros r. cbn. apply fmap_None.
Qed.

Lemma finish_ok fresh path D cur all pending : very_strict = false -> cur <> [] -> grouped D cur ->
  components_of cur all -> sorted_by RowId.le (PendingRow.row_id <$> cur) ->
  PendingRow.row_ids pending = PendingRow.row_id <$> cur -> times_inv D cur (PendingRow.timelines pending) ->
  columns_inv all cur (PendingRow.columns pending) ->
  exists c, PendingRow.finish fresh path pending = Done (Ok c) /\ made path cur c.
Proof.
  intros Hvs Hne Hg [Hall Hhas] Hsort Hids Ht Hc. unfold PendingRow.finish.
  destruct (build_components_ok (PendingRow.columns pending)) as (m & -> & Hm).
  { intros k [desc arrays] Hk. rewrite Hc in Hk. destruct (all !! k) as [[d a]|] eqn:E; [|done]. injection Hk as <- <-.
    split; [by destruct (Hall _ _ _ E)|by eapply cells_uniform]. }
  cbn [mbind outcome_bind].
  assert (forall k, match m !! k with
     | Some col => cd_component (ChunkComponents.descriptor col) = k /\ elems (ChunkComponents.list_array col) = cells_at k cur
     | None => Forall (fun row => PendingRow.get (PendingRow.components row) k = None) cur
     end) as Hcol.
  { intros k. specialize (Hm k). rewrite Hc in Hm. destruct (all !! k) as [[d a]|] eqn:E; cbn [fmap option_fmap option_map] in Hm.
    - case_decide as Hd.
      + rewrite Hm. by apply cells_none.
      + destruct Hm as (col & -> & <- & Hel). split; [by destruct (Hall _ _ _ E)|done].
    - rewrite Hm. apply Forall_forall. intros r Hr. destruct (PendingRow.get _ _) as [x|] eqn:Ex; [|done].
      apply get_elem in Ex. destruct (Hhas r k x Hr Ex) as [? ?]. congruence. }
  set (tls := PendingTimeColumn.finish <$> PendingRow.timelines pending).
  assert (forall k, match tls !! k with
     | Some tc => k ∈ D /\ tc_wf tc /\ TimeColumn.times tc = times_at k cur
     | None => k ∉ D
     end) as Htl.
  { intros k. subst tls. rewrite lookup_fmap. specialize (Ht k). destruct (PendingRow.timelines pending !! k) as [col|]; cbn.
    - destruct Ht as [HD Hok]. split; [done|]. by apply column_finish.
    - by destruct Ht. }
  rewrite Hids. set (c := Chunk.Mk (fresh (length (PendingRow.chunks pending))) path 0 true (PendingRow.row_id <$> cur) tls m).
  destruct (assembled c (row_of <$> cur)) as [Hwf Hrows].
  { cbn. symmetry. by apply windows_all_sorted; [apply _|]. }
  { cbn. by rewrite <- list_fmap_compose. }
  { intros k. cbn [Chunk.timelines c]. specialize (Htl k). destruct (tls !! k) as [tc|].
    - destruct Htl as (Hk & Hw & ->). split; [done|]. unfold times_at. rewrite <- !list_fmap_compose. apply list_fmap_ext. intros i r Hi.
      cbn. rewrite lookup_fmap. destruct (Hg r) as (_ & HD & _); [by eapply list_elem_of_lookup_2|].
      rewrite <- HD in Hk. apply elem_of_dom in Hk as [cell ->]. done.
    - apply Forall_fmap, Forall_forall. intros r Hr. cbn. rewrite lookup_fmap. destruct (Hg r Hr) as (_ & HD & _).
      apply fmap_None, not_elem_of_dom. by rewrite HD. }
  { intros k. cbn [Chunk.components c]. specialize (Hcol k). destruct (m !! k) as [col|].
    - destruct Hcol as [Hd ->]. split; [done|]. unfold cells_at. rewrite <- list_fmap_compose. apply list_fmap_ext. intros i r _.
      symmetry. apply lookup_cells.
    - apply Forall_fmap. eapply Forall_impl; [exact Hcol|]. intros r Hr. cbn. change (cells_of r) with (row_cells (row_of r)).
      by rewrite lookup_cells, Hr. }
  exists c. split; [by apply new_ok|]. split; [done..| |].
  - intros k tc Hk. cbn in Hk. specialize (Htl k). rewrite Hk in Htl. apply Htl.
  - cbn [Chunk.components c]. split.
    + intros Hm0. apply Forall_forall. intros r Hr. destruct (PendingRow.components r) as [|[k x] l] eqn:E; [done|].
      specialize (Hcol k). rewrite Hm0, lookup_empty, Forall_forall in Hcol. specialize (Hcol r Hr). rewrite E in Hcol.
      cbn in Hcol. by rewrite decide_True in Hcol.
    + intros Hnone. apply map_eq. intros k. rewrite lookup_empty. specialize (Hm k). rewrite Hc in Hm.
      destruct (all !! k) as [[d a]|]; [|done]. cbn [fmap option_fmap option_map] in Hm. rewrite decide_True in Hm; [done|].
      apply cells_none. eapply Forall_impl; [exact Hnone|]. intros r Hr. cbn in Hr. by rewrite Hr.
Qed.

End Building.

(** ** A group of rows *)

Section Groups.

Context `{Build} `{ArrowLaws} `{!Chunk.SizeBytes} `{!DataTypes} `{!DataTypesLaws} `{!BatchHashes}.
Context (Hvs : very_strict = false).
Implicit Types group cur : list PendingRow.t.

Lemma push_lookup l (m : gmap string PendingTimeColumn.t) k : NoDup l.*1 ->
  foldl (fun m '(timeline_name, cell) =>
      <[timeline_name := PendingTimeColumn.push (PendingRow.entry m timeline_name cell) (TimeCell.to_time_int cell)]> m) m l !! k
  = match (list_to_map l : gmap string TimeCell.t) !! k with
    | Some cell => Some (PendingTimeColumn.push (PendingRow.entry m k cell) (TimeCell.to_time_int cell))
    | None => m !! k
    end.
Proof.
  intros Hnd. exact (foldl_entry_lookup (fun k cell col => PendingTimeColumn.push
    (default (PendingTimeColumn.new {| tl_name := k; tl_typ := TimeCell.typ cell |}) col) (TimeCell.to_time_int cell)) l m k Hnd).
Qed.

Lemma times_at_snoc k cur r : times_at k (cur ++ [r]) = times_at k cur ++ [from_option TimeCell.as_i64 0 (PendingRow.timepoint r !! k)].
Proof. unfold times_at. by rewrite fmap_app. Qed.

Lemma push_times D cur r m : dom (PendingRow.timepoint r) = D -> times_inv D cur m ->
  times_inv D (cur ++ [r])
    (foldl (fun m '(timeline_name, cell) =>
        <[timeline_name := PendingTimeColumn.push (PendingRow.entry m timeline_name cell) (TimeCell.to_time_int cell)]> m)
      m (map_to_list (PendingRow.timepoint r))).
Proof.
  intros HD Hm k. rewrite push_lookup, list_to_map_to_list by apply NoDup_fst_map_to_list. specialize (Hm k).
  destruct (PendingRow.timepoint r !! k) as [cell|] eqn:E.
  - assert (k ∈ D) as Hk by (rewrite <- HD; by apply elem_of_dom). split; [done|]. rewrite times_at_snoc, E. cbn [from_option].
    destruct (temporal_cell cell) as [Hz <-]. apply column_push; [|exact Hz]. unfold PendingRow.entry.
    destruct (m !! k) as [col|]; [apply Hm|]. destruct Hm as [->|]; [|done]. apply column_new.
  - assert (k ∉ D) as Hk by (rewrite <- HD; by apply not_elem_of_dom). destruct (m !! k) as [col|]; [by destruct Hm|by right].
Qed.

Lemma push_columns all cur r m : columns_inv all cur m ->
  columns_inv all (cur ++ [r])
    (map_imap (fun component '(desc, arrays) =>
        Some (desc, arrays ++ [array <$> PendingRow.get (PendingRow.components r) component])) m).
Proof.
  intros Hm k. rewrite map_lookup_imap, Hm. destruct (all !! k) as [[d a]|]; [|done]. cbn.
  unfold cells_at. by rewrite fmap_app.
Qed.

(** The rows of a chunk are few enough, or in order up to the last. *)
Definition bounded (D : gset string) (max_rows : Z) (rs : list PendingRow.t) : Prop :=
  Z.of_nat (length rs) <= Z.max 1 max_rows
  \/ forall k, k ∈ D -> TimeColumn.times_sorted (times_at k (removelast rs)) = true.

Definition chunk_for (path : EntityPath) (D : gset string) (max_rows : Z) (rs : list PendingRow.t) (c : Chunk.t) : Prop :=
  rs <> [] /\ made path rs c /\ bounded D max_rows rs.

Section Group.

Context (path : EntityPath) (D : gset string) (max_rows : Z) (fresh : nat -> ChunkId.t) (group : list PendingRow.t).
Context (all : gmap string (ComponentDescriptor * list (option Array))).
Context (Hgroup : grouped D group) (Hall : components_of group all).
Context (Hsort : sorted_by RowId.le (PendingRow.row_id <$> group)).

(** What the loop has done with the rows [seen]: chunks of some, in order, and [cur] pending. *)
Record progress (seen cur : list PendingRow.t) (pending : PendingRow.Pending) : Prop := {
  progress_ids : PendingRow.row_ids pending = PendingRow.row_id <$> cur;
  progress_times : times_inv D cur (PendingRow.timelines pending);
  progress_columns : columns_inv all cur (PendingRow.columns pending);
  progress_bound : cur <> [] -> bounded D max_rows cur;
  progress_chunks : exists parts cs, PendingRow.chunks pending = Ok <$> cs
    /\ Forall2 (chunk_for path D max_rows) parts cs /\ mjoin parts ++ cur = seen;
}.

Lemma columns_start : columns_inv all [] all.
Proof.
  intros k. destruct (all !! k) as [[d a]|] eqn:E; [|done]. cbn. by destruct Hall as [Ha _]; destruct (Ha _ _ _ E) as [_ ->].
Qed.

Lemma progress_finish seen rest cur pending : group = seen ++ rest -> progress seen cur pending -> cur <> [] ->
  exists c, PendingRow.finish fresh path pending = Done (Ok c) /\ chunk_for path D max_rows cur c.
Proof.
  intros Hseen [Hids Ht Hc Hb (parts & cs & _ & _ & Hjoin)] Hne.
  assert (forall r, r ∈ cur -> r ∈ group) as Hin by (intros r Hr; rewrite Hseen, <- Hjoin; set_solver).
  destruct (finish_ok fresh path D cur all pending) as (c & Hf & Hmade); try done.
  - intros r Hr. destruct (Hgroup r (Hin r Hr)) as (Hok & HD & Hfit). split_and!; auto.
  - destruct Hall as [Ha Hh]. split; [done|]. intros r k x Hr. apply Hh. auto.
  - rewrite Hseen, <- Hjoin, !fmap_app in Hsort. apply sorted_app in Hsort as (Hs & _). by apply sorted_app in Hs as (_ & Hs & _).
  - exists c. split; [done|]. split_and!; auto.
Qed.

Lemma split_ok seen rest tp cur pending : group = seen ++ rest -> Forall (fun e => e.1 ∈ D) tp -> progress seen cur pending ->
  exists pending' cur', PendingRow.split_if_unsorted fresh path max_rows all tp pending = Done pending'
    /\ progress seen cur' pending'
    /\ (cur' = [] \/ cur' = cur /\ (max_rows <= Z.of_nat (length cur) ->
         forall k, k ∈ tp.*1 -> TimeColumn.times_sorted (times_at k cur) = true)).
Proof.
  intros Hseen Htp. revert cur pending. induction Htp as [|[k cell] tp Hk Htp IH]; intros cur pending Hp.
  { exists pending, cur. split; [done|]. split; [done|]. right. split; [done|]. by intros _ k ?%elem_of_nil. }
  cbn [PendingRow.split_if_unsorted fst] in *. set (col := PendingRow.entry _ _ _). set (pending1 := PendingRow.Build_Pending _ _ _ _).
  assert (column_ok col (times_at k cur)) as Hcol.
  { subst col. unfold PendingRow.entry. pose proof (progress_times _ _ _ Hp k) as Ht. destruct (PendingRow.timelines pending !! k) as [col|]; [apply Ht|].
    destruct Ht as [->|]; [|done]. apply column_new. }
  assert (progress seen cur pending1) as Hp1.
  { destruct Hp as [Hids Ht Hc Hb Hch]. split; try done. intros k'. cbn. destruct (decide (k' = k)) as [->|].
    - by rewrite lookup_insert_eq.
    - rewrite lookup_insert_ne by done. apply Ht. }
  cbn [PendingRow.row_ids pending1]. rewrite (progress_ids _ _ _ Hp), length_fmap.
  destruct (negb (bool_decide (PendingRow.row_id <$> cur = [])) && (max_rows <=? Z.of_nat (length cur))
    && negb (PendingTimeColumn.is_sorted col)) eqn:Esplit.
  - apply andb_true_iff in Esplit as [[Hne%negb_true_iff Hmax]%andb_true_iff Huns]. apply bool_decide_eq_false in Hne.
    assert (cur <> []) as Hcur by (by intros ->).
    destruct (progress_finish seen rest cur pending1 Hseen Hp1 Hcur) as (c & -> & Hch). cbn [mbind outcome_bind].
    set (pending2 := PendingRow.Build_Pending _ _ _ _).
    assert (progress seen [] pending2) as Hp2.
    { split; [done|by intros ?; left|apply columns_start|done|].
      destruct Hp1 as [_ _ _ _ (parts & cs & E & HF & Hj)]. exists (parts ++ [cur]), (cs ++ [c]). split_and!.
      - cbn. cbn in E. by rewrite E, fmap_app.
      - apply Forall2_app; [done|]. by constructor.
      - rewrite <- Hj, join_app, app_nil_r. f_equal. cbn. apply app_nil_r. }
    destruct (IH [] pending2 Hp2) as (pending' & cur' & Hrun & Hp' & Hc'). exists pending', cur'. split; [done|]. split; [done|].
    left. destruct Hc' as [|[-> _]]; done.
  - cbn [mbind outcome_bind]. destruct (IH cur pending1 Hp1) as (pending' & cur' & Hrun & Hp' & Hc'). exists pending', cur'.
    split; [done|]. split; [done|]. destruct Hc' as [|[-> Hs]]; [by left|right]. split; [done|]. intros Hmax k' [->|Hk']%elem_of_cons; [|by apply Hs].
    destruct (decide (cur = [])) as [->|Hne]; [done|].
    cbn [fst]. destruct Hcol as (_ & <- & _). apply andb_false_iff in Esplit as [Esplit|Hsorted%negb_false_iff]; [|done].
    rewrite (proj2 (Z.leb_le _ _) Hmax), andb_true_r in Esplit. apply negb_false_iff, bool_decide_eq_true, fmap_nil_inv in Esplit. done.
Qed.

Lemma push_ok seen cur r pending : dom (PendingRow.timepoint r) = D -> progress seen cur pending ->
  (cur = [] \/ (max_rows <= Z.of_nat (length cur) -> forall k, k ∈ D -> TimeColumn.times_sorted (times_at k cur) = true)) ->
  progress (seen ++ [r]) (cur ++ [r]) (PendingRow.push_row pending r).
Proof.
  intros HD [Hids Ht Hc Hb (parts & cs & E & HF & Hj)] Hbound. split.
  - cbn. by rewrite Hids, fmap_app.
  - by apply push_times.
  - by apply push_columns.
  - intros _. unfold bounded. rewrite length_app, removelast_last. cbn [length]. destruct Hbound as [->|Hbound]; [left; cbn; lia|].
    destruct (Z.le_gt_cases max_rows (Z.of_nat (length cur))) as [Hmax|]; [right; auto|left; lia].
  - exists parts, cs. split; [done|]. split; [done|]. by rewrite <- Hj, app_assoc.
Qed.

Lemma batch_ok rest : forall seen cur pending, group = seen ++ rest -> progress seen cur pending ->
  exists pending' cur', PendingRow.batch_rows fresh path max_rows all rest pending = Done pending'
    /\ progress group cur' pending' /\ (rest <> [] \/ cur <> [] -> cur' <> []).
Proof.
  induction rest as [|r rest IH]; intros seen cur pending Hseen Hp.
  { exists pending, cur. split; [done|]. split; [by rewrite Hseen, app_nil_r|by intros []]. }
  assert (dom (PendingRow.timepoint r) = D) as HD by (apply Hgroup; rewrite Hseen; set_solver).
  cbn [PendingRow.batch_rows].
  destruct (split_ok seen (r :: rest) (map_to_list (PendingRow.timepoint r)) cur pending Hseen) as (p1 & cur1 & -> & Hp1 & Hc1); [|done|].
  { apply Forall_forall. intros [k cell] Hin%elem_of_map_to_list. rewrite <- HD. by apply elem_of_dom_2 in Hin. }
  cbn [mbind outcome_bind].
  destruct (IH (seen ++ [r]) (cur1 ++ [r]) (PendingRow.push_row p1 r)) as (p2 & cur2 & -> & Hp2 & Hc2).
  - by rewrite <- app_assoc.
  - apply push_ok; [done|done|]. destruct Hc1 as [|[-> Hs]]; [by left|right]. intros Hmax k Hk. apply Hs; [done|].
    rewrite <- HD in Hk. apply elem_of_dom in Hk as [cell Hk]. apply list_elem_of_fmap. exists (k, cell). by rewrite elem_of_map_to_list.
  - exists p2, cur2. split; [done|]. split; [done|]. intros _. apply Hc2. right. by destruct cur1.
Qed.

End Group.

(** *** The whole group *)

Lemma collect_row (l : list (ComponentIdentifier * SerializedComponentBatch))
    (m : gmap string (ComponentDescriptor * list (option Array))) :
  Forall (fun '(k, batch) => cd_component (descriptor batch) = k) l ->
  (forall k desc arrays, m !! k = Some (desc, arrays) -> cd_component desc = k /\ arrays = []) ->
  let m' := foldl (fun m '(component, batch) =>
      match m !! component with Some _ => m | None => <[component := (descriptor batch, [])]> m end) m l in
  (forall k desc arrays, m' !! k = Some (desc, arrays) -> cd_component desc = k /\ arrays = [])
  /\ (forall k, is_Some (m !! k) -> is_Some (m' !! k)) /\ forall k x, (k, x) ∈ l -> is_Some (m' !! k).
Proof.
  intros Hl. revert m. induction Hl as [|[k0 x0] l Hk Hl IH]; intros m Hm; cbn [foldl].
  { split; [done|]. split; [done|]. by intros ?? ?%elem_of_nil. }
  destruct (m !! k0) as [old|] eqn:E.
  - destruct (IH m Hm) as (Hn & Hmono & Hin). split; [done|]. split; [done|].
    intros k x [[= -> ->]|Hx]%elem_of_cons; [apply Hmono; by eexists|by eapply Hin].
  - destruct (IH (<[k0 := (descriptor x0, [])]> m)) as (Hn & Hmono & Hin).
    { intros k d a. destruct (decide (k = k0)) as [->|]; [rewrite lookup_insert_eq; by intros [= <- <-]|].
      rewrite lookup_insert_ne by done. apply Hm. }
    split; [done|]. split.
    + intros k Hs. apply Hmono. destruct (decide (k = k0)) as [->|]; [by rewrite lookup_insert_eq|by rewrite lookup_insert_ne].
    + intros k x [[= -> ->]|Hx]%elem_of_cons; [apply Hmono; by rewrite lookup_insert_eq|by eapply Hin].
Qed.

Lemma collect_ok group : Forall row_ok group -> components_of group (PendingRow.collect_components group).
Proof.
  unfold PendingRow.collect_components, components_of.
  assert (forall m : gmap string (ComponentDescriptor * list (option Array)), Forall row_ok group ->
    (forall k desc arrays, m !! k = Some (desc, arrays) -> cd_component desc = k /\ arrays = []) ->
    let m' := foldl (fun m row => foldl (fun m '(component, batch) =>
        match m !! component with Some _ => m | None => <[component := (descriptor batch, [])]> m end)
      m (PendingRow.components row)) m group in
    (forall k desc arrays, m' !! k = Some (desc, arrays) -> cd_component desc = k /\ arrays = [])
    /\ (forall k, is_Some (m !! k) -> is_Some (m' !! k))
    /\ forall r k x, r ∈ group -> (k, x) ∈ PendingRow.components r -> is_Some (m' !! k)) as Hgen.
  { intros m Hok. revert m. induction Hok as [|r group [_ Hr] Hok IH]; intros m Hm; cbn [foldl].
    { split; [done|]. split; [done|]. by intros ??? ?%elem_of_nil. }
    destruct (collect_row (PendingRow.components r) m Hr Hm) as (Hn & Hmono & Hin).
    destruct (IH _ Hn) as (Hn' & Hmono' & Hin'). split; [done|]. split; [by auto|].
    intros r' k x [->|Hr']%elem_of_cons Hx; [by eapply Hmono', Hin|by eapply Hin']. }
  intros Hok. destruct (Hgen ∅ Hok) as (Hn & _ & Hin); [by intros ???; rewrite lookup_empty|]. done.
Qed.

Lemma group_ok path D max_rows fresh group : group <> [] -> grouped D group ->
  sorted_by RowId.le (PendingRow.row_id <$> group) ->
  exists parts cs, PendingRow.group_into_chunks fresh path max_rows group = Done (Ok <$> cs)
    /\ Forall2 (chunk_for path D max_rows) parts cs /\ mjoin parts = group.
Proof.
  intros Hne Hg Hs. unfold PendingRow.group_into_chunks. set (all := PendingRow.collect_components group).
  assert (components_of group all) as Hall by (apply collect_ok, Forall_forall; intros r Hr; by apply Hg).
  destruct (batch_ok path D max_rows fresh group all Hg Hall Hs group [] []
    (PendingRow.Build_Pending [] ∅ all [])) as (pending & cur & -> & Hp & Hcur); [done| |].
  { split; [done|by intros ?; left|by eapply columns_start|done|]. by exists [], []. }
  cbn [mbind outcome_bind].
  destruct (progress_finish path D max_rows fresh group all Hg Hall Hs group [] cur pending) as (c & -> & Hc); [by rewrite app_nil_r|done|auto|].
  cbn [mbind outcome_bind]. destruct Hp as [_ _ _ _ (parts & cs & -> & HF & Hj)].
  exists (parts ++ [cur]), (cs ++ [c]). split_and!.
  - by rewrite fmap_app.
  - apply Forall2_app; [done|]. by constructor.
  - rewrite <- Hj, join_app. f_equal. cbn. apply app_nil_r.
Qed.

End Groups.

(** ** Batches *)

Section Grouping.

Context `{ArrowOps}.
Implicit Types batch : list PendingRow.t.

Lemma group_by_snoc hash batch r : PendingRow.group_by hash (batch ++ [r])
  = <[hash r := default [] (PendingRow.group_by hash batch !! hash r) ++ [r]]> (PendingRow.group_by hash batch).
Proof. unfold PendingRow.group_by. by rewrite foldl_app. Qed.

(** A group has the rows with its hash, in their order. *)
Lemma group_by_lookup hash batch h : PendingRow.group_by hash batch !! h =
  if decide (filter (fun r => hash r = h) batch = []) then None else Some (filter (fun r => hash r = h) batch).
Proof.
  induction batch as [|r batch IH] using rev_ind; [done|]. rewrite group_by_snoc, filter_app, filter_cons, filter_nil.
  destruct (decide (hash r = h)) as [<-|Hne].
  - rewrite lookup_insert_eq, IH. rewrite (decide_False (P := _ ++ [r] = [])) by (by intros [_ ?]%app_nil). f_equal. f_equal.
    by case_decide as E; [rewrite E|].
  - by rewrite lookup_insert_ne, IH, app_nil_r.
Qed.

Definition all_rows (m : gmap Z (list PendingRow.t)) : list PendingRow.t := mjoin (map_to_list m).*2.

Lemma all_rows_insert m h g : all_rows (<[h := g]> m) ≡ₚ g ++ all_rows (delete h m).
Proof.
  unfold all_rows. rewrite <- (insert_delete_eq m), map_to_list_insert by apply lookup_delete_eq. done.
Qed.

Lemma all_rows_group hash batch : all_rows (PendingRow.group_by hash batch) ≡ₚ batch.
Proof.
  induction batch as [|r batch IH] using rev_ind; [done|]. rewrite group_by_snoc, all_rows_insert.
  set (m := PendingRow.group_by hash batch) in *. transitivity (all_rows m ++ [r]); [|by rewrite IH].
  destruct (m !! hash r) as [g|] eqn:E; cbn [default].
  - assert (all_rows m ≡ₚ g ++ all_rows (delete (hash r) m)) as -> by (rewrite <- all_rows_insert, insert_id; done).
    rewrite <- !app_assoc. apply Permutation_app_head, Permutation_app_comm.
  - rewrite delete_id by done. apply Permutation_app_comm.
Qed.

Lemma elem_of_group hash batch h g : (h, g) ∈ map_to_list (PendingRow.group_by hash batch) ->
  g <> [] /\ g = filter (fun r => hash r = h) batch.
Proof.
  intros Hin%elem_of_map_to_list. rewrite group_by_lookup in Hin. case_decide; [done|]. injection Hin as <-. done.
Qed.

End Grouping.

Section Batches.

Context `{Build} `{ArrowLaws} `{!Chunk.SizeBytes} `{!DataTypes} `{!DataTypesLaws} `{!BatchHashes}.
Implicit Types batch : list PendingRow.t.

(** What every chunk of a batch is. *)
Record batched (path : EntityPath) (max_rows : Z) (c : Chunk.t) : Prop := {
  batched_wf : chunk_wf c;
  batched_path : Chunk.entity_path c = path;
  batched_sorted : Chunk.is_sorted c = true;
  batched_rows : rows c <> [];
  batched_bound : Z.of_nat (Chunk.num_rows c) <= Z.max 1 max_rows
    \/ forall k tc, Chunk.timelines c !! k = Some tc -> TimeColumn.times_sorted (removelast (TimeColumn.times tc)) = true;
  batched_cells : (Chunk.components c = ∅ /\ Forall (fun s => row_cells s = ∅) (rows c))
    \/ (Chunk.components c <> ∅ /\ Forall (fun s => row_cells s <> ∅) (rows c));
}.

Definition covers path max_rows batch (results : list (result Chunk.t ChunkError)) : Prop := exists cs,
  results = Ok <$> cs /\ Forall (batched path max_rows) cs /\ (cs ≫= rows) ≡ₚ row_of <$> batch.

Lemma covers_perm path max_rows batch batch' results : batch ≡ₚ batch' ->
  covers path max_rows batch results -> covers path max_rows batch' results.
Proof. intros Hp (cs & Hr & Hf & Hc). exists cs. split; [done|]. split; [done|]. by rewrite Hc, Hp. Qed.

Lemma covers_join path max_rows batches results :
  Forall2 (covers path max_rows) batches results -> covers path max_rows (mjoin batches) (mjoin results).
Proof.
  induction 1 as [|batch res batches results (cs & -> & Hf & Hc) _ (ds & E & Hg & Hd)]; [by exists []|].
  exists (cs ++ ds). split_and!; [rewrite fmap_app; rewrite <- E; reflexivity|by apply Forall_app|].
  cbn. by rewrite bind_app, Hc, Hd, fmap_app.
Qed.

Lemma mapM_each {A B} (f : A -> outcome B) (P : A -> B -> Prop) l :
  (forall x, x ∈ l -> exists y, f x = Done y /\ P x y) -> exists ys, mapM f l = Done ys /\ Forall2 P l ys.
Proof.
  induction l as [|x l IH]; intros Hl; [by exists []|]. destruct (Hl x) as (y & Hy & HP); [by left|].
  destruct IH as (ys & Hys & HF); [intros z Hz; apply Hl; by right|]. exists (y :: ys). cbn. rewrite Hy. cbn. rewrite Hys. by split; [|constructor].
Qed.

Lemma times_removelast k rs : times_at k (removelast rs) = removelast (times_at k rs).
Proof. induction rs as [|r [|s rs] IH]; [done|done|]. change (times_at k (r :: removelast (s :: rs)) = removelast (times_at k (r :: s :: rs))). cbn in *. by rewrite IH. Qed.

Lemma made_batched path D max_rows group rs c : grouped D group -> (forall r, r ∈ rs -> r ∈ group) ->
  chunk_for path D max_rows rs c -> batched path max_rows c.
Proof.
  intros Hg Hin (Hne & [Hwf Hpath Hs Hrows Ht He] & Hb). split; [done|done|done| | |].
  - rewrite Hrows. by intros ?%fmap_nil_inv.
  - rewrite <- length_rows, Hrows, length_fmap. destruct Hb as [|Hb]; [by left|right]. intros k tc Hk.
    rewrite (Ht k tc Hk), <- times_removelast. destruct (decide (k ∈ D)) as [|Hn]; [by apply Hb|].
    destruct Hwf as (_ & Hw & _). destruct (Hw k tc Hk) as [Hlen _]. destruct rs as [|r rs]; [done|]. exfalso. apply Hn.
    destruct (Hg r) as (_ & <- & _); [apply Hin; left|]. apply elem_of_dom.
    assert (rows c !! 0%nat = Some (row_of r)) as H0' by by rewrite Hrows.
    rewrite lookup_rows in H0'. destruct (Chunk.row_ids c !! 0%nat) as [rid|] eqn:E; [|done]. injection H0' as _ Hrow _.
    apply (f_equal (lookup k)) in Hrow. cbn in Hrow. rewrite lookup_omap, lookup_fmap, Hk in Hrow. cbn in Hrow.
    rewrite (Ht k tc Hk) in Hrow. cbn in Hrow. by destruct (PendingRow.timepoint r !! k).
  - rewrite Hrows, !Forall_fmap. destruct rs as [|r rs]; [done|].
    destruct (PendingRow.components r) as [|x l] eqn:E.
    + left. assert (Forall (fun row => PendingRow.components row = []) (r :: rs)) as Hall.
      { apply Forall_forall. intros s Hs'. destruct (Hg r) as (_ & _ & Hfit); [apply Hin; left|].
        destruct (Hfit s (Hin s Hs')) as (_ & Hf & _). by apply Hf. }
      split; [by apply He|]. eapply Forall_impl; [exact Hall|]. intros s Hs'. by apply no_cells.
    + right. assert (Forall (fun row => PendingRow.components row <> []) (r :: rs)) as Hall.
      { apply Forall_forall. intros s Hs' Hc. destruct (Hg r) as (_ & _ & Hfit); [apply Hin; left|].
        destruct (Hfit s (Hin s Hs')) as (_ & Hf & _). apply Hf in Hc. congruence. }
      split; [|eapply Forall_impl; [exact Hall|]; intros s Hs' Hc; by apply Hs', no_cells].
      rewrite He. intros HF. apply Forall_inv in HF. apply Forall_inv in Hall. done.
Qed.

Lemma sorted_fmap {A B} (f : A -> B) (R : B -> B -> Prop) l :
  StronglySorted R (f <$> l) <-> StronglySorted (fun x y => R (f x) (f y)) l.
Proof.
  induction l as [|x l IH]; [split; constructor|]. cbn. split; intros Hs; apply StronglySorted_inv in Hs as [Hs Hf]; constructor.
  - by apply IH.
  - by rewrite Forall_fmap in Hf.
  - by apply IH.
  - by rewrite Forall_fmap.
Qed.

Lemma many_ok fresh path max_rows batch : very_strict = false -> Forall row_ok batch -> compatible batch ->
  exists results, PendingRow.many_into_chunks fresh path max_rows batch = Done results /\ covers path max_rows batch results.
Proof.
  intros Hvs Hok Hcomp. unfold PendingRow.many_into_chunks.
  set (le := fun a b : PendingRow.t => RowId.le (PendingRow.row_id a) (PendingRow.row_id b)). set (sorted := sort_by le batch).
  assert (TotalPreorder le) as Hle.
  { subst le. split; intros *; rewrite !RowId.le_key, !Z.leb_le; lia. }
  assert (sorted ≡ₚ batch) as Hperm by apply sort_by_perm.
  assert (StronglySorted (fun a b => le a b = true) sorted) as Hsort by (by apply sort_by_sorted).
  destruct (mapM_each (fun '(timeline_set, rows) =>
      chunks ← mapM (fun '(datatype_set, rows) =>
        PendingRow.group_into_chunks (fresh timeline_set datatype_set) path max_rows rows)
        (map_to_list (PendingRow.group_by PendingRow.datatype_hash rows));
      Done (mjoin chunks)) (fun e => covers path max_rows e.2)
    (map_to_list (PendingRow.group_by PendingRow.timeline_hash sorted))) as (ys & -> & HF).
  - intros [h1 g1] Hg1. destruct (elem_of_group _ _ _ _ Hg1) as [_ E1].
    destruct (mapM_each (fun '(datatype_set, rows) => PendingRow.group_into_chunks (fresh h1 datatype_set) path max_rows rows)
      (fun e => covers path max_rows e.2) (map_to_list (PendingRow.group_by PendingRow.datatype_hash g1))) as (zs & -> & HF).
    + intros [h2 g2] Hg2. destruct (elem_of_group _ _ _ _ Hg2) as [Hne E2].
      assert (forall r, r ∈ g2 -> r ∈ batch /\ PendingRow.timeline_hash r = h1 /\ PendingRow.datatype_hash r = h2) as Hin.
      { intros r Hr. rewrite E2, list_elem_of_filter, E1, list_elem_of_filter, Hperm in Hr. naive_solver. }
      destruct (proj2 (head_is_Some g2) Hne) as [r0 Hr0]. assert (r0 ∈ g2) as Hin0 by (destruct g2; [done|]; injection Hr0 as ->; left).
      rewrite Forall_forall in Hok.
      assert (grouped (dom (PendingRow.timepoint r0)) g2) as Hg.
      { intros r Hr. destruct (Hin r Hr) as (Hb & Hh1 & Hh2), (Hin r0 Hin0) as (Hb0 & Hh10 & Hh20). split_and!; [auto|apply Hcomp; congruence|].
        intros s Hs. destruct (Hin s Hs) as (Hbs & Hs1 & Hs2). apply Hcomp; congruence. }
      destruct (group_ok Hvs path (dom (PendingRow.timepoint r0)) max_rows (fresh h1 h2) g2 Hne Hg) as (parts & cs & -> & Hcs & Hj).
      { apply sorted_fmap. rewrite E2, E1. by do 2 apply sorted_filter. }
      exists (Ok <$> cs). split; [done|]. exists cs. split; [done|]. cbn [snd].
      assert (forall r, r ∈ mjoin parts -> r ∈ g2) as Hparts by (by rewrite Hj). rewrite <- Hj. clear -Hcs Hparts Hg.
      induction Hcs as [|rs c parts cs Hc Hcs IH]; [done|]. destruct IH as [IHb IHr].
      { intros r Hr. apply Hparts. cbn. apply elem_of_app. by right. }
      split.
      * constructor; [|done]. eapply made_batched; [exact Hg| |exact Hc]. intros r Hr. apply Hparts. cbn. apply elem_of_app. by left.
      * cbn. rewrite IHr, fmap_app. destruct Hc as (_ & [_ _ _ -> _ _] & _). done.
    + cbn [mbind outcome_bind snd]. exists (mjoin zs). split; [done|].
      eapply covers_perm; [apply (all_rows_group PendingRow.datatype_hash g1)|]. apply covers_join.
      unfold all_rows. by rewrite Forall2_fmap_l.
  - cbn [mbind outcome_bind]. exists (mjoin ys). split; [done|].
    apply (covers_perm _ _ (all_rows (PendingRow.group_by PendingRow.timeline_hash sorted))); [by rewrite all_rows_group|].
    apply covers_join. unfold all_rows. by rewrite Forall2_fmap_l.
Qed.

(** C9. Batching.  A batch of rows that fit together where their hashes agree becomes chunks of the
    entity, none of them refused, that hold exactly the rows of the batch, each once.  Each
    chunk is well formed, not empty, sorted by row id, on one set of timelines, and has either no
    column and only rows without cells, or only rows with some.  A chunk that is longer than the
    maximum for unsorted chunks is in order, on every timeline, up to its last row. *)
Theorem many_into_chunks_spec fresh path max_rows batch
  (Hstrict : very_strict = false) (Hok : Forall row_ok batch) (Hfit : compatible batch) :
  exists chunks, PendingRow.many_into_chunks fresh path max_rows batch = Done (Ok <$> chunks)
    /\ (chunks ≫= rows) ≡ₚ row_of <$> batch
    /\ Forall (batched path max_rows) chunks.
Proof. destruct (many_ok fresh path max_rows batch Hstrict Hok Hfit) as (? & -> & cs & -> & ? & ?). by exists cs. Qed.

(** A component whose arrays cannot be concatenated is dropped from the chunk, all of it. *)
Lemma mixed_types_dropped desc arrays acc : arr_concat (omap id arrays) = None -> omap id arrays <> [] ->
  PendingRow.build_components [(desc, arrays)] acc = Done acc.
Proof.
  intros Hc Hne. cbn. unfold arrays_to_list_array_opt, arrays_to_list_array. destruct (omap id arrays); [done|]. by rewrite Hc.
Qed.

End Batches.
