(* ===== verification/ChunkBuilder.v ===== *)
(** * Chunks built row by row

    [dl_chunk/src/builder.rs]: a chunk from rows of sparse cells, and a column of times from single
    times.  The wrappers that serialize archetypes and components and then call [with_row] are left
    out.

    The chunk that is built has exactly the rows it was given, in that order; it can be built if
    and only if all rows are on the same timelines. *)

From stdpp Require Import strings.
From S2P Require Import Prelude Ints TimeInt TimeRange Tuid Arrow Column Chunk PendingRow PendingRowSpec.

#[export] Instance descriptor_countable : Countable ComponentDescriptor.
Proof.
  apply (inj_countable' (fun d => (cd_archetype d, cd_component d, cd_component_type d))
    (fun '(a, c, t) => {| cd_archetype := a; cd_component := c; cd_component_type := t |})).
  by intros [].
Defined.

(** ** Columns of times *)

Module TimeColumnBuilder.

Record t := Mk { timeline : Timeline; times : list Z }.

Definition new (timeline : Timeline) : t := Mk timeline [].
Definition with_row (self : t) (time : NonMinI64.t) : t := Mk (timeline self) (times self ++ [NonMinI64.get time]).
Definition build (self : t) : TimeColumn.t := TimeColumn.new None (timeline self) (times self).

End TimeColumnBuilder.

(** ** Chunks *)

Module ChunkBuilder.

Record t `{ArrowOps} := Mk {
  id : ChunkId.t;
  entity_path : EntityPath;
  row_ids : list RowId.t;
  timelines : gmap string TimeColumnBuilder.t;
  components : gmap ComponentDescriptor (list (option Array));
}.
#[global] Arguments Mk {_} _ _ _ _ _.

Section Operations.

Context `{Build} `{ArrowOps} `{!Chunk.SizeBytes} `{!DataTypes}.
Implicit Types self : t.

Definition new (id : ChunkId.t) (entity_path : EntityPath) : t := Mk id entity_path [] ∅ ∅.

(** [arrays.extend(repeat_n(None, num_rows.saturating_sub(arrays.len())))]. *)
Definition align (num_rows : nat) (arrays : list (option Array)) : list (option Array) :=
  arrays ++ replicate (num_rows - length arrays) None.

Definition with_sparse_row self (row_id : RowId.t) (timepoint : TimePoint.t)
    (components : list (ComponentDescriptor * option Array)) : t :=
  let aligned :=
    foldl (fun m '(component_desc, _) =>
        <[component_desc := align (length (row_ids self)) (default [] (m !! component_desc))]> m)
      (ChunkBuilder.components self) components in
  let row_ids := row_ids self ++ [row_id] in
  let timelines :=
    foldl (fun m '(timeline, cell) =>
        <[timeline := TimeColumnBuilder.with_row
            (default (TimeColumnBuilder.new {| tl_name := timeline; tl_typ := TimeCell.typ cell |}) (m !! timeline))
            (TimeCell.value cell)]> m)
      (timelines self) (map_to_list timepoint) in
  let pushed :=
    foldl (fun m '(component_descr, array) => <[component_descr := default [] (m !! component_descr) ++ [array]]> m)
      aligned components in
  Mk (id self) (entity_path self) row_ids timelines (align (length row_ids) <$> pushed).

Definition with_row self (row_id : RowId.t) (timepoint : TimePoint.t) (components : list (ComponentDescriptor * Array)) : t :=
  with_sparse_row self row_id timepoint ((fun '(component_descr, array) => (component_descr, Some array)) <$> components).

Definition with_serialized_batches self (row_id : RowId.t) (timepoint : TimePoint.t)
    (component_batches : list SerializedComponentBatch) : t :=
  with_row self row_id timepoint ((fun batch => (descriptor batch, array batch)) <$> component_batches).

Definition with_serialized_batch self (row_id : RowId.t) (timepoint : TimePoint.t)
    (component_batch : SerializedComponentBatch) : t :=
  with_row self row_id timepoint [(descriptor component_batch, array component_batch)].

Definition with_sparse_serialized_batches self (row_id : RowId.t) (timepoint : TimePoint.t)
    (component_batches : list (ComponentDescriptor * option SerializedComponentBatch)) : t :=
  with_sparse_row self row_id timepoint
    ((fun '(component_desc, component_batch) => (component_desc, option_map array component_batch)) <$> (component_batches : list _)).

(** The columns are collected in the order of the map. *)
Definition build self : outcome (result Chunk.t ChunkError) :=
  components ← PendingRow.build_components (map_to_list (components self)) ∅;
  Chunk.new (id self) (entity_path self) None (row_ids self) (TimeColumnBuilder.build <$> timelines self) components.

Fixpoint collect (datatypes : gmap ComponentDescriptor Field) (columns : list (ComponentDescriptor * list (option Array)))
    (acc : ChunkComponents.t) : outcome ChunkComponents.t :=
  match columns with
  | [] => Done acc
  | (component_desc, arrays) :: columns =>
      acc ← (match (match datatypes !! component_desc with
                    | Some datatype => arrays_to_list_array datatype arrays
                    | None => arrays_to_list_array_opt arrays
                    end) with
             | None => Done acc
             | Some list_array =>
                 list_array ← list_array;
                 Done (ChunkComponents.insert acc
                   {| ChunkComponents.list_array := list_array; ChunkComponents.descriptor := component_desc |})
             end);
      collect datatypes columns acc
  end.

Definition build_with_datatypes self (datatypes : gmap ComponentDescriptor Field) : outcome (result Chunk.t ChunkError) :=
  components ← collect datatypes (map_to_list (components self)) ∅;
  Chunk.new (id self) (entity_path self) None (row_ids self) (TimeColumnBuilder.build <$> timelines self) components.

End Operations.

End ChunkBuilder.

(** ** The rows that are built *)

Record SparseRow `{ArrowOps} := Sparse {
  sparse_row_id : RowId.t;
  sparse_timepoint : TimePoint.t;
  sparse_components : list (ComponentDescriptor * option Array);
}.
#[global] Arguments Sparse {_} _ _ _.

Section Rows.

Context `{Build} `{ArrowLaws} `{!Chunk.SizeBytes} `{!DataTypes} `{!DataTypesLaws}.
Implicit Types r s : SparseRow.
Implicit Types rs : list SparseRow.

Definition with_rows (self : ChunkBuilder.t) rs : ChunkBuilder.t :=
  foldl (fun self r => ChunkBuilder.with_sparse_row self (sparse_row_id r) (sparse_timepoint r) (sparse_components r)) self rs.

Definition cells_of_sparse r : gmap string Array :=
  list_to_map (omap (fun '(desc, array) => pair (cd_component desc) <$> array) (sparse_components r)).

Definition sparse_row_of r : Row := {|
  row_id := sparse_row_id r;
  row_times := TimeCell.as_i64 <$> sparse_timepoint r;
  row_cells := cells_of_sparse r;
|}.

Definition cell_of (desc : ComponentDescriptor) r : option Array :=
  mjoin ((list_to_map (sparse_components r) : gmap ComponentDescriptor (option Array)) !! desc).

(** The rows have a component once, under one descriptor and with one data type. *)
Record described rs : Prop := {
  described_once r : r ∈ rs -> NoDup (sparse_components r).*1;
  described_alike r s desc desc' : r ∈ rs -> s ∈ rs -> desc ∈ (sparse_components r).*1 -> desc' ∈ (sparse_components s).*1 ->
    cd_component desc = cd_component desc' -> desc = desc';
  described_typed r s desc a b : r ∈ rs -> s ∈ rs -> (desc, Some a) ∈ sparse_components r -> (desc, Some b) ∈ sparse_components s ->
    array_field a = array_field b;
}.

Lemma described_snoc rs r : described (rs ++ [r]) -> described rs.
Proof.
  intros [Ho Ha Ht].
  split; [intros s Hs; apply Ho|intros r' s d d' Hr Hs; apply (Ha r' s)|intros r' s d a b Hr Hs; apply (Ht r' s)];
    rewrite elem_of_app; auto.
Qed.

Lemma cell_of_elem desc r a : NoDup (sparse_components r).*1 -> cell_of desc r = Some a <-> (desc, Some a) ∈ sparse_components r.
Proof.
  intros Hnd. unfold cell_of. rewrite (elem_of_list_to_map (M := gmap ComponentDescriptor)) by done.
  destruct (list_to_map _ !! desc) as [[b|]|]; cbn; naive_solver.
Qed.

Lemma cell_of_none desc r : desc ∉ (sparse_components r).*1 -> cell_of desc r = None.
Proof. intros Hd. unfold cell_of. by rewrite not_elem_of_list_to_map_1. Qed.

(** *** What the builder holds *)

Definition times_on (k : string) rs : list Z := omap (fun r => TimeCell.as_i64 <$> sparse_timepoint r !! k) rs.

Record holds (self0 : ChunkBuilder.t) rs (self : ChunkBuilder.t) : Prop := {
  holds_id : ChunkBuilder.id self = ChunkBuilder.id self0;
  holds_path : ChunkBuilder.entity_path self = ChunkBuilder.entity_path self0;
  holds_row_ids : ChunkBuilder.row_ids self = sparse_row_id <$> rs;
  holds_times k : times_on k rs = from_option TimeColumnBuilder.times [] (ChunkBuilder.timelines self !! k);
  holds_timeline k : is_Some (ChunkBuilder.timelines self !! k) -> times_on k rs <> [];
  holds_column desc arrays : ChunkBuilder.components self !! desc = Some arrays ->
    arrays = cell_of desc <$> rs /\ exists r, r ∈ rs /\ desc ∈ (sparse_components r).*1;
  holds_none desc : ChunkBuilder.components self !! desc = None -> Forall (fun r => desc ∉ (sparse_components r).*1) rs;
}.

Lemma align_done n arrays : (n <= length arrays)%nat -> ChunkBuilder.align n arrays = arrays.
Proof. intros Hn. unfold ChunkBuilder.align. replace (n - length arrays)%nat with 0%nat by lia. apply app_nil_r. Qed.

Lemma column_absent desc rs : Forall (fun r => desc ∉ (sparse_components r).*1) rs -> cell_of desc <$> rs = replicate (length rs) None.
Proof. induction 1 as [|r rs Hr _ IH]; [done|]. cbn. by rewrite IH, cell_of_none. Qed.

Lemma holds_snoc self0 rs self r : NoDup (sparse_components r).*1 -> holds self0 rs self ->
  holds self0 (rs ++ [r]) (ChunkBuilder.with_sparse_row self (sparse_row_id r) (sparse_timepoint r) (sparse_components r)).
Proof.
  intros Hnd [Hid Hpath Hids Ht Htl Hcol Hnone]. unfold ChunkBuilder.with_sparse_row. rewrite Hids.
  set (n := length rs). assert (length (sparse_row_id <$> rs) = n) as -> by apply length_fmap.
  assert (length ((sparse_row_id <$> rs) ++ [sparse_row_id r]) = S n) as -> by (rewrite length_app, length_fmap; cbn; lia).
  set (aligned := foldl _ (ChunkBuilder.components self) _). set (pushed := foldl _ aligned _). set (timelines := foldl _ _ _).
  assert (forall desc, match ChunkBuilder.components self !! desc with Some arrays => arrays = cell_of desc <$> rs | None => True end) as Hcol'.
  { intros desc. destruct (ChunkBuilder.components self !! desc) eqn:E; [|done]. by apply Hcol. }
  assert (forall desc, pushed !! desc = match (list_to_map (sparse_components r) : gmap ComponentDescriptor (option Array)) !! desc with
      | Some a => Some ((cell_of desc <$> rs) ++ [a]) | None => ChunkBuilder.components self !! desc end) as Hpushed.
  { intros desc. subst pushed.
    rewrite (foldl_entry_lookup (fun _ a arrays => default [] arrays ++ [a]) (sparse_components r) aligned desc Hnd). subst aligned.
    rewrite (foldl_entry_lookup (fun _ _ arrays => ChunkBuilder.align n (default [] arrays)) (sparse_components r) _ desc Hnd).
    destruct (list_to_map _ !! desc) as [a|] eqn:E; [|done]. f_equal. f_equal. cbn [default from_option id].
    specialize (Hcol' desc). destruct (ChunkBuilder.components self !! desc) as [arrays|] eqn:Ec; cbn.
    - subst arrays. apply align_done. by rewrite length_fmap.
    - rewrite column_absent by auto. unfold ChunkBuilder.align. cbn. by rewrite Nat.sub_0_r. }
  assert (forall k, timelines !! k = match sparse_timepoint r !! k with
      | Some cell => Some (TimeColumnBuilder.with_row
          (default (TimeColumnBuilder.new {| tl_name := k; tl_typ := TimeCell.typ cell |}) (ChunkBuilder.timelines self !! k)) (TimeCell.value cell))
      | None => ChunkBuilder.timelines self !! k end) as Htimes.
  { intros k. subst timelines. etransitivity; [exact (foldl_entry_lookup (fun k cell col => TimeColumnBuilder.with_row
      (default (TimeColumnBuilder.new {| tl_name := k; tl_typ := TimeCell.typ cell |}) col) (TimeCell.value cell))
      (map_to_list (sparse_timepoint r)) _ k (NoDup_fst_map_to_list _))|]. by rewrite list_to_map_to_list. }
  assert (forall k, times_on k (rs ++ [r]) = times_on k rs ++ option_list (TimeCell.as_i64 <$> sparse_timepoint r !! k)) as Hsnoc.
  { intros k. unfold times_on. rewrite omap_app. cbn. by destruct (sparse_timepoint r !! k). }
  split; cbn [ChunkBuilder.id ChunkBuilder.entity_path ChunkBuilder.row_ids ChunkBuilder.timelines ChunkBuilder.components].
  - done.
  - done.
  - by rewrite fmap_app.
  - intros k. rewrite Hsnoc, Htimes, Ht. destruct (sparse_timepoint r !! k) as [cell|]; cbn; [|apply app_nil_r].
    by destruct (ChunkBuilder.timelines self !! k).
  - intros k. rewrite Hsnoc, Htimes. destruct (sparse_timepoint r !! k) as [cell|]; cbn.
    + intros _ E. by apply app_nil in E as [_ ?].
    + rewrite app_nil_r. apply Htl.
  - intros desc arrays Hd. rewrite lookup_fmap, Hpushed in Hd. rewrite fmap_app. cbn. unfold cell_of at 2.
    destruct (list_to_map _ !! desc) as [a|] eqn:E; cbn in Hd |- *.
    + injection Hd as <-. split; [apply align_done; rewrite length_app, length_fmap; cbn; lia|].
      exists r. split; [rewrite elem_of_app; right; left|]. apply list_elem_of_fmap. exists (desc, a). split; [done|].
      by apply (elem_of_list_to_map (M := gmap ComponentDescriptor)).
    + destruct (ChunkBuilder.components self !! desc) as [arrays0|] eqn:Ec; [|done]. injection Hd as <-.
      destruct (Hcol desc arrays0 Ec) as (-> & s & Hs & Hin). split; [|exists s; rewrite elem_of_app; auto].
      unfold ChunkBuilder.align. rewrite length_fmap. by replace (S n - length rs)%nat with 1%nat by (subst n; lia).
  - intros desc Hd. rewrite lookup_fmap, Hpushed in Hd.
    destruct (list_to_map _ !! desc) as [a|] eqn:E; cbn in Hd; [done|]. apply Forall_app. split.
    + apply Hnone. by destruct (ChunkBuilder.components self !! desc).
    + apply Forall_singleton. by apply not_elem_of_list_to_map_2 in E.
Qed.

Lemma with_rows_holds id path rs : (forall r, r ∈ rs -> NoDup (sparse_components r).*1) ->
  holds (ChunkBuilder.new id path) rs (with_rows (ChunkBuilder.new id path) rs).
Proof.
  induction rs as [|r rs IH] using rev_ind; intros Hnd.
  - split; try done. intros k [x Hx]. done.
  - unfold with_rows. rewrite foldl_app. apply holds_snoc; [apply Hnd; rewrite elem_of_app; right; left|].
    apply IH. intros s Hs. apply Hnd. rewrite elem_of_app. by left.
Qed.

(** *** What is built *)

Lemma cells_elem r k a :
  (k, a) ∈ omap (fun '(desc, array) => pair (cd_component desc) <$> array) (sparse_components r)
  <-> exists desc, (desc, Some a) ∈ sparse_components r /\ cd_component desc = k.
Proof.
  rewrite list_elem_of_omap. split.
  - intros ([desc [b|]] & Hin & E); cbn in E; [|done]. injection E as <- <-. by exists desc.
  - intros (desc & Hin & <-). by exists (desc, Some a).
Qed.

Lemma cells_once r : NoDup (cd_component <$> (sparse_components r).*1) ->
  NoDup (omap (fun '(desc, array) => pair (cd_component desc) <$> array) (sparse_components r)).*1.
Proof.
  induction (sparse_components r) as [|[desc [a|]] l IH]; cbn; [constructor| |]; intros [Hn Hnd]%NoDup_cons; [|by apply IH].
  constructor; [|by apply IH]. intros ([k b] & Hk & ([desc' [b'|]] & Hin & E)%list_elem_of_omap)%list_elem_of_fmap; cbn in E; [|done].
  injection E as E <-. cbn in Hk. apply Hn. rewrite Hk, <- E. apply list_elem_of_fmap. exists desc'. split; [done|].
  apply list_elem_of_fmap. by exists (desc', Some b').
Qed.

Section Described.

Context (rs : list SparseRow) (Hd : described rs).

Lemma cells_lookup r desc : r ∈ rs -> (exists s, s ∈ rs /\ desc ∈ (sparse_components s).*1) ->
  cells_of_sparse r !! cd_component desc = cell_of desc r.
Proof.
  intros Hr (s & Hs & Hdesc). apply option_eq. intros a. unfold cells_of_sparse.
  pose proof (described_once rs Hd r Hr) as Hnd. rewrite cell_of_elem by done.
  rewrite <- (elem_of_list_to_map (M := gmap string)), cells_elem.
  - split; [|by exists desc]. intros (desc' & Hin & E).
    assert (desc' = desc) as <-; [|done]. apply (described_alike rs Hd r s); try done. apply list_elem_of_fmap. by exists (desc', Some a).
  - apply cells_once. apply NoDup_fmap_2_strong; [|done]. intros d d' Hd1 Hd2. by apply (described_alike rs Hd r r).
Qed.

Lemma cells_missing r k : r ∈ rs -> (forall desc, desc ∈ (sparse_components r).*1 -> cd_component desc <> k) ->
  cells_of_sparse r !! k = None.
Proof.
  intros Hr Hk. unfold cells_of_sparse. apply not_elem_of_list_to_map_1. intros ([k' a] & -> & (desc & Hin & E)%cells_elem)%list_elem_of_fmap.
  apply (Hk desc); [|done]. apply list_elem_of_fmap. by exists (desc, Some a).
Qed.

Lemma column_uniform desc : uniform (cell_of desc <$> rs).
Proof.
  intros a b (r & Ha & Hr)%list_elem_of_fmap (s & Hb & Hs)%list_elem_of_fmap. symmetry in Ha, Hb.
  apply cell_of_elem in Ha, Hb; [|by apply (described_once rs Hd)..]. by apply (described_typed rs Hd r s desc).
Qed.

(** The components of the chunk hold the cells of the rows. *)
Lemma collected self0 self : holds self0 rs self ->
  exists m, PendingRow.build_components (map_to_list (ChunkBuilder.components self)) ∅ = Done m
    /\ forall k, match m !! k with
       | Some col => cd_component (ChunkComponents.descriptor col) = k
           /\ elems (ChunkComponents.list_array col) = (fun r => cells_of_sparse r !! k) <$> rs
       | None => Forall (fun r => cells_of_sparse r !! k = None) rs
       end.
Proof.
  intros [_ _ _ _ _ Hcol Hnone].
  set (l := (fun x : ComponentDescriptor * list (option Array) => (cd_component x.1, x)) <$> map_to_list (ChunkBuilder.components self)).
  assert (forall k desc arrays, (k, (desc, arrays)) ∈ l <-> k = cd_component desc /\ ChunkBuilder.components self !! desc = Some arrays) as Hl.
  { intros k desc arrays. subst l. rewrite list_elem_of_fmap. setoid_rewrite <- elem_of_map_to_list. split.
    - intros ([d a] & [= -> -> ->] & Hin). done.
    - intros [-> Hin]. by exists (desc, arrays). }
  destruct (build_components_list l) with (acc := ∅ : ChunkComponents.t) as (m & Hm & Hk).
  - subst l. rewrite <- list_fmap_compose. apply NoDup_fmap_2_strong; [|apply NoDup_map_to_list].
    intros [d a] [d' a'] Hda%elem_of_map_to_list Hda'%elem_of_map_to_list E. cbn in E.
    destruct (Hcol _ _ Hda) as (_ & r & Hr & Hin), (Hcol _ _ Hda') as (_ & s & Hs & Hin').
    assert (d = d') as -> by (by apply (described_alike rs Hd r s)). congruence.
  - apply Forall_forall. intros [k [desc arrays]] [-> Hin]%Hl. split; [done|]. destruct (Hcol _ _ Hin) as (-> & _). apply column_uniform.
  - replace l.*2 with (map_to_list (ChunkBuilder.components self)) in Hm.
    2:{ subst l. rewrite <- list_fmap_compose. symmetry. apply list_fmap_id. }
    exists m. split; [done|]. intros k. destruct (Hk k) as [Hbuilt Hkept].
    assert (forall desc, (exists s, s ∈ rs /\ desc ∈ (sparse_components s).*1) ->
      cell_of desc <$> rs = (fun r => cells_of_sparse r !! cd_component desc) <$> rs) as Heq.
    { intros desc Hdesc. apply list_fmap_ext. intros i r Hi. symmetry. apply cells_lookup; [by eapply list_elem_of_lookup_2|done]. }
    destruct (decide (Exists (fun x => cd_component x.1 = k /\ omap id x.2 <> []) (map_to_list (ChunkBuilder.components self)))) as [Hx|Hx];
      rewrite Exists_exists in Hx.
    + destruct Hx as ([desc arrays] & Hin%elem_of_map_to_list & <- & Hne). cbn in *.
      destruct (Hbuilt desc arrays) as (col & -> & Hdesc & ->); [by apply Hl|done|]. rewrite Hdesc. split; [done|].
      destruct (Hcol _ _ Hin) as (-> & Hex). by apply Heq.
    + rewrite Hkept, lookup_empty.
      2:{ intros desc arrays [-> Hin]%Hl. destruct (decide (omap id arrays = [])); [done|]. destruct Hx. exists (desc, arrays).
          by rewrite elem_of_map_to_list. }
      apply Forall_forall. intros r Hr. destruct (decide (Exists (fun desc => cd_component desc = k) (sparse_components r).*1)) as [He|He].
      * apply Exists_exists in He as (desc & Hin & <-). rewrite cells_lookup by eauto.
        destruct (ChunkBuilder.components self !! desc) as [arrays|] eqn:Ec.
        -- destruct (Hcol _ _ Ec) as [-> _]. destruct (decide (omap id (cell_of desc <$> rs) = [])) as [E|E].
           ++ apply omap_id_nil in E. rewrite Forall_fmap, Forall_forall in E. by apply (E r).
           ++ destruct Hx. exists (desc, cell_of desc <$> rs). by rewrite elem_of_map_to_list.
        -- apply Hnone in Ec. rewrite Forall_forall in Ec. by destruct (Ec r Hr).
      * apply cells_missing; [done|]. intros desc Hin E. apply He, Exists_exists. by exists desc.
Qed.

End Described.

(** All rows are on the same timelines. *)
Definition aligned rs : Prop := forall r s, r ∈ rs -> s ∈ rs -> dom (sparse_timepoint r) = dom (sparse_timepoint s).

Lemma omap_shorter {A B} (f : A -> option B) l : (length (omap f l) <= length l)%nat.
Proof. induction l as [|x l IH]; cbn; [done|]. destruct (f x); cbn; lia. Qed.

Lemma omap_full {A B} (f : A -> option B) l : length (omap f l) = length l -> Forall (fun x => is_Some (f x)) l.
Proof.
  induction l as [|x l IH]; cbn; [done|]. destruct (f x) eqn:E; cbn.
  - intros [=]. constructor; [by exists b|auto].
  - intros Hl. pose proof (omap_shorter f l). lia.
Qed.

Lemma times_full k rs : Forall (fun r => is_Some (sparse_timepoint r !! k)) rs ->
  Some <$> times_on k rs = (fun r => (TimeCell.as_i64 <$> sparse_timepoint r) !! k) <$> rs.
Proof.
  induction 1 as [|r rs [cell Hr] _ IH]; [done|]. unfold times_on in *. cbn. rewrite lookup_fmap, Hr. cbn. by rewrite IH.
Qed.

(** A chunk is made of columns of the right length, or not at all. *)
Lemma new_lengths id path row_ids timelines components :
  very_strict = false -> map_Forall (fun _ => tc_wf) timelines ->
  map_Forall (fun k col => cd_component (ChunkComponents.descriptor col) = k
     /\ list_len (ChunkComponents.list_array col) = length row_ids) components ->
  exists c res, c = Chunk.Mk id path 0 (windows_all RowId.le row_ids) row_ids timelines components
    /\ Chunk.new id path None row_ids timelines components = Done res
    /\ ((res = Ok c /\ map_Forall (fun _ tc => TimeColumn.num_rows tc = length row_ids) timelines)
       \/ ((exists e, res = Err e) /\ ~ map_Forall (fun _ tc => TimeColumn.num_rows tc = length row_ids) timelines)).
Proof.
  intros Hv Htc Hcol. set (c := Chunk.Mk id path 0 (windows_all RowId.le row_ids) row_ids timelines components).
  assert (typed c) as Hty.
  { intros k tc Hk. destruct (Htc k tc Hk) as (_ & Hf & _). eapply Forall_impl; [exact Hf|]. intros z Hz. unfold temporal_i64 in Hz. int_lia. }
  assert (exists res, Chunk.sanity_check c = Done res
    /\ (res = Ok () <-> map_Forall (fun _ tc => TimeColumn.num_rows tc = length row_ids) timelines)) as (res & Hs & Hr).
  { destruct debug_assertions eqn:Hd.
    - destruct (sanity_check_debug c Hd Hv Hty) as (res & Hr & Hw). exists res. split; [done|]. rewrite Hw. split.
      + intros [(_ & Ht & _) _] k tc Hk. by apply (Ht k tc).
      + intros Hlen. split; [|by left]. split; [done|]. split; [|done]. intros k tc Hk. split; [by apply (Hlen k)|by apply (Htc k)].
    - destruct (sanity_check_release c Hd Hv) as (res & Hr & Hw). exists res. split; [done|]. rewrite Hw. split; [by intros [? _]|done]. }
  exists c. unfold Chunk.new. cbv zeta. cbn [default from_option]. change (Chunk.Mk id path 0 _ _ _ _) with c. rewrite Hs. cbn [mbind outcome_bind].
  destruct res as [[]|e]; eexists; (split; [done|]); (split; [done|]).
  - left. split; [done|by apply Hr].
  - right. split; [by exists e|]. intros Hlen%Hr. done.
Qed.

(** The times of the timelines, if all rows are on them. *)
Definition complete rs : Prop := forall k, times_on k rs = [] \/ Forall (fun r => is_Some (sparse_timepoint r !! k)) rs.

Lemma times_none k rs r : times_on k rs = [] -> r ∈ rs -> sparse_timepoint r !! k = None.
Proof.
  intros Hn Hr. destruct (sparse_timepoint r !! k) as [cell|] eqn:E; [|done].
  assert (TimeCell.as_i64 cell ∈ times_on k rs) as Hz; [|rewrite Hn in Hz; by apply elem_of_nil in Hz].
  apply list_elem_of_omap. exists r. by rewrite E.
Qed.

Lemma aligned_complete rs : aligned rs <-> complete rs.
Proof.
  split.
  - intros Ha k. destruct rs as [|r0 rs0]; [by left|]. destruct (sparse_timepoint r0 !! k) as [cell|] eqn:E.
    + right. apply Forall_forall. intros s Hs. rewrite <- elem_of_dom, (Ha s r0), elem_of_dom; [by exists cell|done|left].
    + left. unfold times_on. destruct (omap _ _) as [|z l] eqn:Eo; [done|]. exfalso.
      assert (z ∈ z :: l) as Hz by left. rewrite <- Eo in Hz. apply list_elem_of_omap in Hz as (s & Hs & Hz).
      assert (k ∈ dom (sparse_timepoint s)) as Hk by (apply elem_of_dom; by destruct (sparse_timepoint s !! k)).
      rewrite (Ha s r0), elem_of_dom, E in Hk; [by destruct Hk|done|left].
  - intros Hall r1 s Hr1 Hs. apply set_eq. intros k. rewrite !elem_of_dom. destruct (Hall k) as [Hn|Hf].
    + by rewrite !(times_none k rs).
    + rewrite Forall_forall in Hf. split; intros _; by apply Hf.
Qed.

Lemma built_times self0 rs self k : holds self0 rs self ->
  match (TimeColumnBuilder.build <$> ChunkBuilder.timelines self) !! k with
  | Some tc => tc_wf tc /\ TimeColumn.times tc = times_on k rs /\ times_on k rs <> []
  | None => times_on k rs = []
  end.
Proof.
  intros [_ _ _ Ht Htl _ _]. rewrite lookup_fmap. specialize (Ht k). specialize (Htl k).
  destruct (ChunkBuilder.timelines self !! k) as [col|]; cbn in *; [|done]. split; [|by split; [|apply Htl]].
  apply new_wf; [|done]. rewrite <- Ht. apply Forall_forall. intros z (r & _ & Hz)%list_elem_of_omap.
  destruct (sparse_timepoint r !! k) as [cell|]; [|done]. injection Hz as <-. apply temporal_cell.
Qed.

Section Complete.

Context (rs : list SparseRow) (tls : gmap string TimeColumn.t).
Context (Htimes : forall k, match tls !! k with
  | Some tc => tc_wf tc /\ TimeColumn.times tc = times_on k rs /\ times_on k rs <> []
  | None => times_on k rs = []
  end).

Lemma lengths_complete : map_Forall (fun _ tc => TimeColumn.num_rows tc = length rs) tls <-> complete rs.
Proof.
  split.
  - intros Hall k. specialize (Htimes k). destruct (tls !! k) as [tc|] eqn:Hk; [|by left]. right.
    specialize (Hall k tc Hk). cbn in Hall. unfold TimeColumn.num_rows in Hall. destruct Htimes as (_ & E & _). rewrite E in Hall.
    eapply Forall_impl; [exact (omap_full _ _ Hall)|]. intros s Hs%fmap_is_Some. exact Hs.
  - intros Hall k tc Hk. specialize (Htimes k). rewrite Hk in Htimes. destruct Htimes as (_ & E & Hne).
    destruct (Hall k) as [?|Hs]; [done|]. apply times_full, (f_equal length) in Hs. rewrite !length_fmap in Hs.
    unfold TimeColumn.num_rows. by rewrite E.
Qed.

Lemma columns_complete : complete rs -> forall k, match tls !! k with
  | Some tc => tc_wf tc /\ Some <$> TimeColumn.times tc = (fun r : Row => row_times r !! k) <$> (sparse_row_of <$> rs)
  | None => Forall (fun r : Row => row_times r !! k = None) (sparse_row_of <$> rs)
  end.
Proof.
  intros Hall k. specialize (Htimes k). destruct (tls !! k) as [tc|].
  - destruct Htimes as (Hw & -> & Hne). split; [done|]. rewrite <- list_fmap_compose. destruct (Hall k) as [?|Hs]; [done|]. by apply times_full.
  - rewrite Forall_fmap. apply Forall_forall. intros r Hin. cbn. by rewrite lookup_fmap, (times_none k rs).
Qed.

End Complete.

(** C10.  A chunk built from rows is made of just these rows, in this order, with the cells each of
    them has and no other; a cell that a row does not have is null.  It is well formed.  It can be
    built if and only if all rows are on the same timelines, otherwise building it is an error and
    never a misaligned column of times.  (A component has one descriptor and one data type, and a
    row has it at most once.) *)
Theorem builder_spec id path rs (Hstrict : very_strict = false) (Hrows : described rs) :
  exists res, ChunkBuilder.build (with_rows (ChunkBuilder.new id path) rs) = Done res
    /\ ((exists c, res = Ok c) <-> aligned rs)
    /\ forall c, res = Ok c -> chunk_wf c /\ Chunk.id c = id /\ Chunk.entity_path c = path /\ rows c = sparse_row_of <$> rs.
Proof.
  pose proof (with_rows_holds id path rs (described_once rs Hrows)) as Hh. set (self := with_rows _ rs) in *.
  unfold ChunkBuilder.build. destruct (collected rs Hrows _ _ Hh) as (m & -> & Hm). cbn [mbind outcome_bind].
  pose proof (fun k => built_times _ _ _ k Hh) as Htimes. destruct Hh as [-> -> -> _ _ _ _].
  cbn [ChunkBuilder.id ChunkBuilder.entity_path ChunkBuilder.new]. set (tls := TimeColumnBuilder.build <$> ChunkBuilder.timelines self) in *.
  assert (length (sparse_row_id <$> rs) = length rs) as Hlen by apply length_fmap.
  destruct (new_lengths id path (sparse_row_id <$> rs) tls m Hstrict) as (c & res & Hc & -> & Hr).
  { intros k tc Hk. specialize (Htimes k). rewrite Hk in Htimes. apply Htimes. }
  { intros k col Hk. specialize (Hm k). rewrite Hk in Hm. destruct Hm as [Hd Hel]. split; [done|]. by rewrite Hlen, <- length_elems, Hel, length_fmap. }
  rewrite Hlen, (lengths_complete rs tls Htimes), <- aligned_complete in Hr. exists res. split; [done|]. split.
  - destruct Hr as [[-> Hl]|[[e ->] Hl]]; [split; [done|by exists c]|split; [by intros [? ?]|done]].
  - intros c' ->. destruct Hr as [[[= ->] Hl%aligned_complete]|[[e ?] _]]; [|done].
    destruct (assembled c (sparse_row_of <$> rs)) as [Hwf Hrs]; subst c; [done|by cbn; rewrite <- list_fmap_compose| | |by split_and!].
    + by apply columns_complete.
    + intros k. cbn [Chunk.components]. specialize (Hm k). destruct (m !! k) as [col|].
      * destruct Hm as [Hd ->]. split; [done|]. by rewrite <- list_fmap_compose.
      * by rewrite Forall_fmap.
Qed.

(** Without data types [build_with_datatypes] is [build]. *)
Lemma collect_empty columns acc : ChunkBuilder.collect ∅ columns acc = PendingRow.build_components columns acc.
Proof.
  revert acc. induction columns as [|[desc arrays] columns IH]; intros acc; [done|]. cbn [ChunkBuilder.collect PendingRow.build_components].
  rewrite lookup_empty. destruct (arrays_to_list_array_opt arrays) as [[l|]|]; cbn; [apply IH|done|apply IH].
Qed.

End Rows.
