(* ===== verification/Batcher.v ===== *)
(** * The batcher of logged rows

    The lower half of [dl_chunk/src/batcher.rs]: the thread that accumulates rows per entity and
    flushes them as chunks ([batching_thread]), as a function from the events it takes from its
    channels, in the order it takes them, to what it sends.

    [select!] chooses between the commands and the ticks: any interleaving is a list of [Event]s.
    Sending cannot fail while the receivers live.  The callbacks for tests ([BatcherHooks]) and
    [Accumulator::latest], which nothing reads, are left out; sizes in memory are a parameter. *)

From stdpp Require Import strings.
From S2P Require Import Prelude Ints TimeInt TimeRange Tuid Arrow Column Chunk PendingRow.

(** [total_size_bytes] of a row. *)
Class RowSize `{ArrowOps} := row_size_bytes : PendingRow.t -> Z.

(** ** Configuration *)

Module ChunkBatcherConfig.

(** Durations in nanoseconds. *)
Record t := Mk {
  flush_tick : Z;
  flush_num_bytes : Z;
  flush_num_rows : Z;
  chunk_max_rows_if_unsorted : Z;
  max_bytes_in_flight : Z;
}.

(** [Duration::MAX]. *)
Definition DURATION_MAX : Z := u64_max * 1000000000 + 999999999.

Definition DEFAULT : t := Mk (200 * 1000000) (2 * 1024 * 1024) u64_max 8192 (100 * 1024 * 1024).
Definition LOW_LATENCY : t :=
  Mk (8 * 1000000) (flush_num_bytes DEFAULT) (flush_num_rows DEFAULT) (chunk_max_rows_if_unsorted DEFAULT)
    (max_bytes_in_flight DEFAULT).
Definition ALWAYS_TEST_ONLY : t := Mk DURATION_MAX 0 0 256 (max_bytes_in_flight DEFAULT).
Definition NEVER : t := Mk DURATION_MAX u64_max u64_max 256 (max_bytes_in_flight DEFAULT).

Definition always_flushes (self : t) : bool := (flush_num_rows self =? 0) || (flush_num_bytes self =? 0).

End ChunkBatcherConfig.

(** ** The thread *)

Module Batcher.

Record Accumulator `{ArrowOps} := Acc {
  acc_entity_path : EntityPath;
  pending_rows : list PendingRow.t;
  pending_num_bytes : Z;
}.
#[global] Arguments Acc {_} _ _ _.

Inductive Command `{ArrowOps} :=
| AppendChunk (chunk : Chunk.t)
| AppendRow (entity_path : EntityPath) (row : PendingRow.t)
| Flush (on_done : nat)
| UpdateConfig (config : ChunkBatcherConfig.t)
| Shutdown.

(** A command, or the end of the channel; or a tick. *)
Inductive Event `{ArrowOps} := Recv (cmd : option Command) | Tick.

(** What is sent: a chunk, or the acknowledgement of a flush. *)
Inductive Output `{ArrowOps} := Sent (chunk : Chunk.t) | FlushDone (on_done : nat).

Record State `{ArrowOps} := Mk {
  config : ChunkBatcherConfig.t;
  accs : gmap EntityPath Accumulator;
  skip_next_tick : bool;
}.
#[global] Arguments Mk {_} _ _ _.

(** The ids drawn in one turn of the loop, as [many_into_chunks] draws them for an entity. *)
Definition Draws : Type := EntityPath -> Z -> Z -> nat -> ChunkId.t.

Section Operations.

Context `{Build} `{ArrowOps} `{!Chunk.SizeBytes} `{!DataTypes} `{!BatchHashes} `{!RowSize}.

Definition new_accumulator (entity_path : EntityPath) : Accumulator := Acc entity_path [] 0.
Definition reset (self : Accumulator) : Accumulator := Acc (acc_entity_path self) [] 0.

(** The size is a [u64]. *)
Definition do_push_row (acc : Accumulator) (row : PendingRow.t) : outcome Accumulator :=
  pending_num_bytes ← arith_u64 debug_assertions (pending_num_bytes acc + row_size_bytes row);
  Done (Acc (acc_entity_path acc) (pending_rows acc ++ [row]) pending_num_bytes).

(** A chunk without components is dropped, with a warning. *)
Definition send_chunk (chunk : Chunk.t) : list Output :=
  if negb (bool_decide (Chunk.components chunk = ∅)) then [Sent chunk] else [].

Definition do_flush_all (fresh : Draws) (acc : Accumulator) (chunk_max_rows_if_unsorted : Z)
    : outcome (Accumulator * list Output) :=
  let rows := pending_rows acc in
  let acc := Acc (acc_entity_path acc) [] (pending_num_bytes acc) in
  if bool_decide (rows = []) then Done (acc, []) else
  chunks ← PendingRow.many_into_chunks (fresh (acc_entity_path acc)) (acc_entity_path acc) chunk_max_rows_if_unsorted rows;
  Done (reset acc, chunks ≫= fun chunk => match chunk with Ok chunk => send_chunk chunk | Err _ => [] end).

(** [for acc in accs.values_mut() { do_flush_all(acc, ..) }]. *)
Fixpoint flush_each (fresh : Draws) (chunk_max_rows_if_unsorted : Z) (l : list (EntityPath * Accumulator))
    : outcome (list (EntityPath * Accumulator) * list Output) :=
  match l with
  | [] => Done ([], [])
  | (entity_path, acc) :: l =>
      '(acc, sent) ← do_flush_all fresh acc chunk_max_rows_if_unsorted;
      '(l, sent') ← flush_each fresh chunk_max_rows_if_unsorted l;
      Done ((entity_path, acc) :: l, sent ++ sent')
  end.

Definition flush_accs (fresh : Draws) (self : State) : outcome (gmap EntityPath Accumulator * list Output) :=
  '(l, sent) ← flush_each fresh (ChunkBatcherConfig.chunk_max_rows_if_unsorted (config self)) (map_to_list (accs self));
  Done (list_to_map l, sent).

Definition append_row (fresh : Draws) (self : State) (entity_path : EntityPath) (row : PendingRow.t)
    : outcome (State * list Output) :=
  let max_rows := ChunkBatcherConfig.chunk_max_rows_if_unsorted (config self) in
  acc ← do_push_row (default (new_accumulator entity_path) (accs self !! entity_path)) row;
  if ChunkBatcherConfig.flush_num_rows (config self) <=? Z.of_nat (length (pending_rows acc)) then
    '(acc, sent) ← do_flush_all fresh acc max_rows;
    Done (Mk (config self) (<[entity_path := acc]> (accs self)) true, sent)
  else if ChunkBatcherConfig.flush_num_bytes (config self) <=? pending_num_bytes acc then
    '(acc, sent) ← do_flush_all fresh acc max_rows;
    Done (Mk (config self) (<[entity_path := acc]> (accs self)) true, sent)
  else Done (Mk (config self) (<[entity_path := acc]> (accs self)) (skip_next_tick self), []).

(** One turn of the loop; [None] is [break]. *)
Definition step (fresh : Draws) (self : State) (event : Event) : outcome (option State * list Output) :=
  match event with
  | Recv None => Done (None, [])
  | Recv (Some (AppendChunk chunk)) => Done (Some self, send_chunk chunk)
  | Recv (Some (AppendRow entity_path row)) =>
      '(self, sent) ← append_row fresh self entity_path row;
      Done (Some self, sent)
  | Recv (Some (Flush on_done)) =>
      '(accs, sent) ← flush_accs fresh self;
      Done (Some (Mk (config self) accs true), sent ++ [FlushDone on_done])
  | Recv (Some (UpdateConfig new_config)) => Done (Some (Mk new_config (accs self) (skip_next_tick self)), [])
  | Recv (Some Shutdown) => Done (None, [])
  | Tick =>
      if skip_next_tick self then Done (Some (Mk (config self) (accs self) false), [])
      else
        '(accs, sent) ← flush_accs fresh self;
        Done (Some (Mk (config self) accs (skip_next_tick self)), sent)
  end.

(** The loop, and the flush after it; [fresh] by the number of events to come. *)
Fixpoint run (fresh : nat -> Draws) (self : State) (events : list Event) : outcome (option State * list Output) :=
  match events with
  | [] => Done (Some self, [])
  | event :: events =>
      '(next, sent) ← step (fresh (length events)) self event;
      match next with
      | None =>
          '(_, sent') ← flush_accs (fresh (length events)) self;
          Done (None, sent ++ sent')
      | Some self =>
          '(next, sent') ← run fresh self events;
          Done (next, sent ++ sent')
      end
  end.

(** [batching_thread]. *)
Definition batching_thread (fresh : nat -> Draws) (config : ChunkBatcherConfig.t) (events : list Event)
    : outcome (option State * list Output) := run fresh (Mk config ∅ false) events.

End Operations.

End Batcher.
