(* ===== verification/BatcherSpec.v ===== *)
(** * What the batcher sends

    Nothing that was logged is lost or sent twice: at any moment the rows appended for an entity are
    those sent in its chunks and those still pending; a flush leaves none pending.  Ticks do the
    same, except the first after a flush for another reason, of any entity. *)

From stdpp Require Import strings.
From S2P Require Import Prelude Ints TimeInt TimeRange Tuid Arrow Column Chunk StoreStats PendingRow PendingRowSpec Batcher.

Section Filters.

Context {A : Type} (P : A -> Prop) `{!forall x, Decision (P x)}.

Lemma filter_keeps l : Forall P l -> filter P l = l.
Proof. induction 1 as [|x l Hx _ IH]; [done|]. by rewrite filter_cons, decide_True, IH. Qed.

Lemma filter_drops l : Forall (fun x => ~ P x) l -> filter P l = [].
Proof. induction 1 as [|x l Hx _ IH]; [done|]. by rewrite filter_cons, decide_False, IH. Qed.

End Filters.

Section Accounting.

Import Batcher.
Context `{Build} `{ArrowLaws} `{!Chunk.SizeBytes} `{!DataTypes} `{!DataTypesLaws} `{!BatchHashes} `{!RowSize}.
Implicit Types p q : EntityPath.
Implicit Types events : list Event.

(** ** What goes in and what comes out *)

(** The rows appended for an entity. *)
Definition appended p events : list PendingRow.t :=
  events ≫= fun e => match e with Recv (Some (AppendRow q row)) => if decide (q = p) then [row] else [] | _ => [] end.

(** A row without components is not sent, nor is a chunk. *)
Definition shown_row (row : PendingRow.t) : list Row :=
  match PendingRow.components row with [] => [] | _ => [row_of row] end.
Definition chunk_rows p (c : Chunk.t) : list Row :=
  if bool_decide (Chunk.components c = ∅) then [] else if decide (Chunk.entity_path c = p) then rows c else [].

Definition logged_by p (e : Event) : list Row :=
  match e with
  | Recv (Some (AppendChunk c)) => chunk_rows p c
  | Recv (Some (AppendRow q row)) => if decide (q = p) then shown_row row else []
  | _ => []
  end.
Definition logged p events : list Row := events ≫= logged_by p.

Definition sent_rows p (sent : list Output) : list Row :=
  sent ≫= fun o => match o with Sent c => chunk_rows p c | FlushDone _ => [] end.

Definition acc_rows (acc : Accumulator) : list Row := pending_rows acc ≫= shown_row.
Definition pending_of p (st : State) : list Row := from_option acc_rows [] (accs st !! p).

(** The events that the loop takes. *)
Definition stops (e : Event) : bool := match e with Recv None | Recv (Some Shutdown) => true | _ => false end.
Fixpoint taken events : list Event :=
  match events with
  | [] => []
  | e :: events => e :: (if stops e then [] else taken events)
  end.

Definition event_bytes (e : Event) : Z := match e with Recv (Some (AppendRow _ row)) => row_size_bytes row | _ => 0 end.
Definition total_bytes events : Z := foldr Z.add 0 (event_bytes <$> events).

(** A chunk that is sent is one that was appended, or one of a batch. *)
Definition good_output events (o : Output) : Prop :=
  match o with
  | Sent c => Recv (Some (AppendChunk c)) ∈ events \/ exists max_rows, batched (Chunk.entity_path c) max_rows c
  | FlushDone _ => True
  end.

Lemma sent_rows_app p sent sent' : sent_rows p (sent ++ sent') = sent_rows p sent ++ sent_rows p sent'.
Proof. apply bind_app. Qed.

Lemma sent_chunk p c : sent_rows p (send_chunk c) = chunk_rows p c.
Proof.
  unfold send_chunk, sent_rows, chunk_rows. case_bool_decide as E; [done|]. cbn. rewrite app_nil_r. by rewrite bool_decide_false.
Qed.

#[local] Instance keep_dec (s : Row) : Decision (row_cells s <> ∅).
Proof. apply _. Defined.

Lemma shown_filter batch : filter (fun s => row_cells s <> ∅) (row_of <$> batch) = batch ≫= shown_row.
Proof.
  assert (forall r, shown_row r = if decide (row_cells (row_of r) <> ∅) then [row_of r] else []) as Hr.
  { intros r. pose proof (no_cells r) as Hn. unfold shown_row.
    case_decide as Hd; destruct (PendingRow.components r) eqn:E; try done; naive_solver. }
  induction batch as [|r batch IH]; [done|]. rewrite fmap_cons, filter_cons, IH. cbn [mbind list_bind].
  rewrite (Hr r). by case_decide.
Qed.

Lemma sent_filter p max_rows cs : Forall (batched p max_rows) cs ->
  sent_rows p (cs ≫= send_chunk) = filter (fun s => row_cells s <> ∅) (cs ≫= rows).
Proof.
  induction 1 as [|c cs [_ Hp _ _ _ Hc] _ IH]; [done|]. cbn [mbind list_bind]. rewrite sent_rows_app, filter_app, IH, sent_chunk. f_equal.
  unfold chunk_rows. rewrite decide_True by done. destruct Hc as [[-> Hall]|[Hne Hall]].
  - rewrite bool_decide_true by done. symmetry. apply filter_drops. eapply Forall_impl; [exact Hall|]. by intros s -> [].
  - rewrite bool_decide_false by done. symmetry. by apply filter_keeps.
Qed.

Lemma sent_other p q max_rows cs : p <> q -> Forall (batched p max_rows) cs -> sent_rows q (cs ≫= send_chunk) = [].
Proof.
  intros Hne. induction 1 as [|c cs [_ Hp _ _ _ _] _ IH]; [done|]. cbn [mbind list_bind]. rewrite sent_rows_app, IH, sent_chunk, app_nil_r.
  unfold chunk_rows. rewrite decide_False by congruence. by case_bool_decide.
Qed.

(** ** Flushing *)

Section Flushing.

(** The rows that the events append, by entity. *)
Context (Hvs : very_strict = false) (batch : EntityPath -> list PendingRow.t).
Context (Hok : forall p, Forall row_ok (batch p)) (Hfit : forall p, compatible (batch p)).

Definition acc_ok (used : Z) p (acc : Accumulator) : Prop :=
  acc_entity_path acc = p /\ (forall r, r ∈ pending_rows acc -> r ∈ batch p) /\ 0 <= pending_num_bytes acc <= used.

Definition state_ok (used : Z) (st : State) : Prop := map_Forall (acc_ok used) (accs st).

Lemma state_ok_initial config b : state_ok 0 (Mk config ∅ b).
Proof. apply map_Forall_empty. Qed.

Definition is_batched (o : Output) : Prop :=
  match o with Sent c => exists max_rows, batched (Chunk.entity_path c) max_rows c | FlushDone _ => True end.

Lemma flush_ok fresh used p acc max_rows : acc_ok used p acc ->
  exists acc' sent, do_flush_all fresh acc max_rows = Done (acc', sent)
    /\ acc_ok used p acc' /\ pending_rows acc' = []
    /\ (forall q, sent_rows q sent ≡ₚ if decide (p = q) then acc_rows acc else []) /\ Forall is_batched sent.
Proof.
  intros (<- & Hin & Hb). unfold do_flush_all, acc_rows. case_bool_decide as E.
  { eexists _, []. split; [done|]. split; [split; [done|split; [by intros r ?%elem_of_nil|cbn; lia]]|]. split; [done|]. split; [|done].
    intros q. rewrite E. by case_decide. }
  cbn [acc_entity_path].
  destruct (many_ok (fresh (acc_entity_path acc)) (acc_entity_path acc) max_rows (pending_rows acc) Hvs)
    as (results & -> & cs & -> & Hcs & Hrows).
  { apply Forall_forall. intros r Hr. specialize (Hok (acc_entity_path acc)). rewrite Forall_forall in Hok. auto. }
  { intros r s Hr Hs. apply (Hfit (acc_entity_path acc)); auto. }
  cbn [mbind outcome_bind]. rewrite list_fmap_bind. change (_ ∘ Ok) with send_chunk. eexists _, _. split; [done|].
  split; [split; [done|split; [by intros r ?%elem_of_nil|cbn; lia]]|]. split; [done|]. split.
  - intros q. case_decide as Hq; [subst q|by erewrite sent_other].
    erewrite sent_filter by done. by rewrite Hrows, shown_filter.
  - apply Forall_forall. intros o (c & Ho & Hc)%list_elem_of_bind. unfold send_chunk in Ho. case_bool_decide; cbn in Ho; [by apply elem_of_nil in Ho|].
    apply list_elem_of_singleton in Ho as ->. rewrite Forall_forall in Hcs. specialize (Hcs c Hc). exists max_rows. by rewrite (batched_path _ _ _ Hcs).
Qed.

Definition pending_in q (l : list (EntityPath * Accumulator)) : list Row :=
  l ≫= fun '(p, acc) => if decide (p = q) then acc_rows acc else [].

Lemma pending_in_map q (m : gmap EntityPath Accumulator) : pending_in q (map_to_list m) ≡ₚ from_option acc_rows [] (m !! q).
Proof.
  assert (forall l : list (EntityPath * Accumulator), q ∉ l.*1 -> pending_in q l = []) as Hnone.
  { induction l as [|[p acc] l IH]; [done|]. intros [Hne Hl]%not_elem_of_cons. cbn in *. rewrite decide_False by congruence. by apply IH. }
  destruct (m !! q) as [acc|] eqn:E.
  - unfold pending_in. rewrite <- (map_to_list_delete m q acc E). cbn. rewrite decide_True by done.
    change (acc_rows acc ++ pending_in q (map_to_list (delete q m)) ≡ₚ acc_rows acc).
    rewrite Hnone, app_nil_r; [done|]. intros ([p x] & -> & Hx)%list_elem_of_fmap. apply elem_of_map_to_list in Hx. by rewrite lookup_delete_eq in Hx.
  - cbn. rewrite Hnone; [done|]. intros ([p x] & -> & Hx)%list_elem_of_fmap. apply elem_of_map_to_list in Hx. cbn in E. congruence.
Qed.

Lemma flush_each_ok fresh used max_rows l : Forall (fun '(p, acc) => acc_ok used p acc) l ->
  exists l' sent, flush_each fresh max_rows l = Done (l', sent) /\ l'.*1 = l.*1
    /\ Forall (fun '(p, acc) => acc_ok used p acc /\ pending_rows acc = []) l'
    /\ (forall q, sent_rows q sent ≡ₚ pending_in q l) /\ Forall is_batched sent.
Proof.
  induction 1 as [|[p acc] l Hacc _ IH]; [by exists [], []|]. cbn [flush_each].
  destruct (flush_ok fresh used p acc max_rows Hacc) as (acc' & sent & -> & Hacc' & He & Hs & Hg). cbn [mbind outcome_bind].
  destruct IH as (l' & sent' & -> & Hk & Hl' & Hs' & Hg'). cbn [mbind outcome_bind]. eexists _, _. split; [done|].
  split; [cbn; by rewrite Hk|]. split; [by constructor|]. split; [|by apply Forall_app].
  intros q. by rewrite sent_rows_app, Hs, Hs'.
Qed.

Lemma flush_accs_ok fresh used st : state_ok used st ->
  exists m sent, flush_accs fresh st = Done (m, sent) /\ map_Forall (acc_ok used) m
    /\ (forall p acc, m !! p = Some acc -> pending_rows acc = [])
    /\ (forall q, sent_rows q sent ≡ₚ pending_of q st) /\ Forall is_batched sent.
Proof.
  intros Hst. unfold flush_accs.
  destruct (flush_each_ok fresh used (ChunkBatcherConfig.chunk_max_rows_if_unsorted (config st)) (map_to_list (accs st)))
    as (l' & sent & -> & Hk & Hl' & Hs & Hg).
  { apply Forall_forall. intros [p acc] Hin%elem_of_map_to_list. by apply Hst. }
  cbn [mbind outcome_bind]. eexists _, _. split; [done|].
  assert (forall p acc, (list_to_map l' : gmap EntityPath Accumulator) !! p = Some acc -> acc_ok used p acc /\ pending_rows acc = []) as Hm.
  { intros p acc Hp%elem_of_list_to_map_2. rewrite Forall_forall in Hl'. by apply (Hl' (p, acc)). }
  split; [intros p acc Hp; by apply Hm|]. split; [intros p acc Hp; by eapply Hm|]. split; [|done].
  intros q. by rewrite Hs, pending_in_map.
Qed.

(** ** One event *)

Lemma state_ok_mono used used' st : used <= used' -> state_ok used st -> state_ok used' st.
Proof. intros Hu Hst p acc Hp. destruct (Hst p acc Hp) as (? & ? & ?). split; [done|]. split; [done|lia]. Qed.

Lemma pending_insert p q acc st b : pending_of q (Mk (config st) (<[p := acc]> (accs st)) b)
  = if decide (p = q) then acc_rows acc else pending_of q st.
Proof. unfold pending_of. cbn. case_decide as E; [subst; by rewrite lookup_insert_eq|by rewrite lookup_insert_ne]. Qed.

Lemma nothing_pending q (m : gmap EntityPath Accumulator) c b :
  (forall p acc, m !! p = Some acc -> pending_rows acc = []) -> pending_of q (Mk c m b) = [].
Proof. intros Hm. unfold pending_of. cbn. destruct (m !! q) as [acc|] eqn:E; [|done]. cbn. unfold acc_rows. by rewrite (Hm q acc E). Qed.

Lemma batched_good events sent : Forall is_batched sent -> Forall (good_output events) sent.
Proof. intros Hs. eapply Forall_impl; [exact Hs|]. intros [c|n]; [by right|done]. Qed.

Lemma append_ok fresh used st p row : state_ok used st -> 0 <= used -> row ∈ batch p ->
  0 <= row_size_bytes row -> used + row_size_bytes row <= u64_max ->
  exists st' sent, append_row fresh st p row = Done (st', sent) /\ Forall is_batched sent
    /\ state_ok (used + row_size_bytes row) st'
    /\ forall q, sent_rows q sent ++ pending_of q st' ≡ₚ pending_of q st ++ if decide (p = q) then shown_row row else [].
Proof.
  intros Hst Hu Hrow Hsize Hmax. unfold append_row. set (acc := default _ _). set (used' := used + row_size_bytes row).
  assert (acc_ok used p acc) as Hacc.
  { subst acc. destruct (accs st !! p) as [acc|] eqn:E; [by apply Hst|]. split; [done|]. split; [by intros r ?%elem_of_nil|cbn; lia]. }
  assert (pending_of p st = acc_rows acc) as Hpend by (subst acc; unfold pending_of; by destruct (accs st !! p)).
  unfold do_push_row. rewrite arith_u64_done by (destruct Hacc as (_ & _ & ?); int_lia). cbn [mbind outcome_bind].
  set (acc1 := Acc _ _ _).
  assert (acc_ok used' p acc1) as Hacc1.
  { destruct Hacc as (Hp & Hin & Hb). split; [done|]. split; [|cbn; lia].
    intros r [Hr| ->%list_elem_of_singleton]%elem_of_app; [by apply Hin|done]. }
  assert (acc_rows acc1 = acc_rows acc ++ shown_row row) as Hrows1 by (unfold acc_rows; cbn [pending_rows acc1]; rewrite bind_app; cbn; by rewrite app_nil_r).
  assert (state_ok used' st) as Hst' by (eapply state_ok_mono; [|done]; lia).
  assert (forall acc2 sent b, acc_ok used' p acc2 -> (forall q, sent_rows q sent ++ (if decide (p = q) then acc_rows acc2 else [])
      ≡ₚ if decide (p = q) then acc_rows acc1 else []) ->
    state_ok used' (Mk (config st) (<[p := acc2]> (accs st)) b)
    /\ forall q, sent_rows q sent ++ pending_of q (Mk (config st) (<[p := acc2]> (accs st)) b)
         ≡ₚ pending_of q st ++ if decide (p = q) then shown_row row else []) as Hinsert.
  { intros acc2 sent b Hacc2 Hq. split; [by apply map_Forall_insert_2|]. intros q. specialize (Hq q). rewrite pending_insert.
    case_decide as E; [subst q; by rewrite Hq, Hrows1, Hpend|].
    rewrite !app_nil_r in *. symmetry in Hq. apply Permutation_nil in Hq. by rewrite Hq. }
  destruct (flush_ok fresh used' p acc1 (ChunkBatcherConfig.chunk_max_rows_if_unsorted (config st)) Hacc1)
    as (acc2 & sent & Hrun & Hacc2 & He2 & Hs2 & Hg2).
  assert (forall q, sent_rows q sent ++ (if decide (p = q) then acc_rows acc2 else []) ≡ₚ if decide (p = q) then acc_rows acc1 else []) as Hflush.
  { intros q. rewrite Hs2. unfold acc_rows at 2. rewrite He2. case_decide; by rewrite app_nil_r. }
  assert (forall q, sent_rows q [] ++ (if decide (p = q) then acc_rows acc1 else []) ≡ₚ if decide (p = q) then acc_rows acc1 else []) as Hkeep by done.
  case_match; [|case_match]; [rewrite Hrun; cbn [mbind outcome_bind]; eexists _, sent; split; [done|]; split; [done|by apply Hinsert]..|].
  eexists _, []. split; [done|]. split; [done|]. by apply Hinsert.
Qed.

Lemma step_ok fresh used st e : state_ok used st -> 0 <= used ->
  (forall p r, e = Recv (Some (AppendRow p r)) -> r ∈ batch p) -> 0 <= event_bytes e -> used + event_bytes e <= u64_max ->
  exists next sent, step fresh st e = Done (next, sent) /\ Forall (good_output [e]) sent
    /\ if stops e then next = None /\ sent = []
       else exists st', next = Some st' /\ state_ok (used + event_bytes e) st'
         /\ forall q, sent_rows q sent ++ pending_of q st' ≡ₚ pending_of q st ++ logged_by q e.
Proof.
  intros Hst Hu Hrow Hsize Hmax. assert (state_ok (used + event_bytes e) st) as Hst' by (eapply state_ok_mono; [|done]; lia).
  destruct e as [[[c|p row|n|cfg|]|]|]; cbn [step stops event_bytes logged_by] in *.
  - eexists _, _. split; [done|]. split.
    { unfold send_chunk. case_bool_decide; cbn; [done|]. constructor; [left; left|done]. }
    eexists. split; [done|]. split; [done|]. intros q. rewrite sent_chunk. apply Permutation_app_comm.
  - destruct (append_ok fresh used st p row) as (st' & sent & -> & Hg & Hst1 & Hq); [done|done|by apply Hrow|done|done|].
    cbn [mbind outcome_bind]. eexists _, _. split; [done|]. split; [by apply batched_good|]. by exists st'.
  - destruct (flush_accs_ok fresh _ st Hst') as (m & sent & -> & Hm & He & Hs & Hg). cbn [mbind outcome_bind].
    eexists _, _. split; [done|]. split; [apply Forall_app; split; [by apply batched_good|by repeat constructor]|].
    eexists. split; [done|]. split; [done|]. intros q. rewrite sent_rows_app, Hs, nothing_pending by done. cbn. by rewrite !app_nil_r.
  - eexists _, _. split; [done|]. split; [done|]. eexists. split; [done|]. split; [done|]. intros q. by rewrite app_nil_r.
  - by eexists _, _.
  - by eexists _, _.
  - destruct (skip_next_tick st).
    + eexists _, _. split; [done|]. split; [done|]. eexists. split; [done|]. split; [done|]. intros q. by rewrite app_nil_r.
    + destruct (flush_accs_ok fresh _ st Hst') as (m & sent & -> & Hm & He & Hs & Hg). cbn [mbind outcome_bind].
      eexists _, _. split; [done|]. split; [by apply batched_good|].
      eexists. split; [done|]. split; [done|]. intros q. by rewrite Hs, nothing_pending, !app_nil_r by done.
Qed.

(** ** Many events *)

Lemma appended_in p r events : Recv (Some (AppendRow p r)) ∈ events -> r ∈ appended p events.
Proof.
  intros Hin. apply list_elem_of_bind. exists (Recv (Some (AppendRow p r))). split; [|done]. rewrite decide_True by done. left.
Qed.

Lemma good_mono events events' sent : (forall e, e ∈ events -> e ∈ events') -> Forall (good_output events) sent -> Forall (good_output events') sent.
Proof. intros Hsub Hs. eapply Forall_impl; [exact Hs|]. intros [c|n]; cbn; [|done]. intros [Hc|Hc]; [left; auto|by right]. Qed.

Definition admitted events : Prop :=
  (forall p r, Recv (Some (AppendRow p r)) ∈ events -> r ∈ batch p) /\ Forall (fun e => 0 <= event_bytes e) events.

Lemma admitted_cons e events : admitted (e :: events) ->
  (forall p r, e = Recv (Some (AppendRow p r)) -> r ∈ batch p) /\ 0 <= event_bytes e /\ admitted events.
Proof.
  intros [Hin [Hb Hf]%Forall_cons]. split; [intros p r ->; apply Hin; left|]. split; [done|]. split; [|done]. intros p r Hr. apply Hin. by right.
Qed.

Lemma total_bytes_nonneg events : Forall (fun e => 0 <= event_bytes e) events -> 0 <= total_bytes events.
Proof. unfold total_bytes. induction 1; cbn in *; lia. Qed.

Lemma run_ok fresh events : forall used st, state_ok used st -> 0 <= used -> admitted events ->
  used + total_bytes events <= u64_max ->
  exists next sent, run fresh st events = Done (next, sent) /\ Forall (good_output events) sent
    /\ (next = None <-> existsb stops events = true)
    /\ forall q, sent_rows q sent ++ from_option (pending_of q) [] next ≡ₚ pending_of q st ++ logged q (taken events).
Proof.
  induction events as [|e events IH]; intros used st Hst Hu Hadm Hmax.
  { exists (Some st), []. split; [done|]. split; [done|]. split; [done|]. intros q. by rewrite app_nil_r. }
  apply admitted_cons in Hadm as (Hrow & Hsize & Hadm). unfold total_bytes in Hmax. cbn [fmap list_fmap foldr] in Hmax. fold (total_bytes events) in Hmax.
  pose proof (total_bytes_nonneg events (proj2 Hadm)). cbn [run existsb taken].
  destruct (step_ok (fresh (length events)) used st e Hst Hu Hrow Hsize ltac:(lia)) as (next & sent & -> & Hg & Hnext). cbn [mbind outcome_bind].
  destruct (stops e) eqn:Es.
  - destruct Hnext as [-> ->]. destruct (flush_accs_ok (fresh (length events)) used st Hst) as (m & sent & -> & _ & _ & Hs & Hg').
    cbn [mbind outcome_bind]. eexists _, _. split; [done|]. split; [by apply batched_good|]. split; [done|].
    intros q. cbn [app from_option]. rewrite app_nil_r, Hs. unfold logged. cbn [mbind list_bind].
    assert (logged_by q e = []) as -> by (by destruct e as [[[]|]|]). by rewrite !app_nil_r.
  - destruct Hnext as (st' & -> & Hst' & Hq). destruct (IH _ st' Hst' ltac:(lia) Hadm ltac:(lia)) as (next & sent' & -> & Hg' & Hn & Hq').
    cbn [mbind outcome_bind]. eexists _, _. split; [done|]. split; [|split; [done|]].
    + apply Forall_app. split; [eapply good_mono; [|exact Hg]|eapply good_mono; [|exact Hg']]; intros x Hx; [apply list_elem_of_singleton in Hx as ->; left|by right].
    + intros q. rewrite sent_rows_app, <- app_assoc, Hq'. unfold logged. cbn [mbind list_bind]. by rewrite !app_assoc, Hq.
Qed.

(** Endings after which nothing is pending. *)
Inductive flushing : list Event -> list Output -> Prop :=
| flushing_command n : flushing [Recv (Some (Flush n))] [FlushDone n]
| flushing_ticks : flushing [Tick; Tick] [].

Lemma run_cons fresh st e events : run fresh st (e :: events) =
  '(next, sent) ← step (fresh (length events)) st e;
  match next with
  | None => '(_, sent') ← flush_accs (fresh (length events)) st; Done (None, sent ++ sent')
  | Some st => '(next, sent') ← run fresh st events; Done (next, sent ++ sent')
  end.
Proof. done. Qed.

Lemma flushing_ok fresh ending last used st : flushing ending last -> state_ok used st ->
  exists st' sent, run fresh st ending = Done (Some st', sent ++ last) /\ forall q, sent_rows q sent ≡ₚ pending_of q st /\ pending_of q st' = [].
Proof.
  intros Hend Hst. destruct Hend as [n|].
  - rewrite run_cons. cbn [step].
    destruct (flush_accs_ok (fresh (length (@nil Event))) used st Hst) as (m & sent & -> & Hm & He & Hs & Hg). cbn [mbind outcome_bind run].
    eexists _, sent. split; [by rewrite app_nil_r|]. intros q. split; [done|by apply nothing_pending].
  - assert (forall st, state_ok used st -> skip_next_tick st = false -> exists st' sent,
      run fresh st [Tick] = Done (Some st', sent) /\ forall q, sent_rows q sent ≡ₚ pending_of q st /\ pending_of q st' = []) as Hone.
    { clear st Hst. intros st Hst Hskip. rewrite run_cons. cbn [step]. rewrite Hskip.
      destruct (flush_accs_ok (fresh (length (@nil Event))) used st Hst) as (m & sent & -> & Hm & He & Hs & Hg). cbn [mbind outcome_bind run].
      eexists _, (sent ++ []). split; [done|]. intros q. rewrite app_nil_r. split; [done|by apply nothing_pending]. }
    rewrite run_cons. cbn [step]. destruct (skip_next_tick st) eqn:Hskip.
    + destruct (Hone (Mk (config st) (accs st) false) Hst eq_refl) as (st' & sent & Hrun & Hq). cbn [mbind outcome_bind].
      rewrite Hrun. cbn [mbind outcome_bind]. eexists _, sent. split; [by rewrite app_nil_r|exact Hq].
    + destruct (flush_accs_ok (fresh (length [@Tick _])) used st Hst) as (m & sent & -> & Hm & He & Hs & Hg). cbn [mbind outcome_bind].
      destruct (Hone (Mk (config st) m false) Hm eq_refl) as (st' & sent' & Hrun & Hq). rewrite Hrun. cbn [mbind outcome_bind].
      eexists _, (sent ++ sent'). split; [by rewrite app_nil_r|]. intros q. destruct (Hq q) as [Hq1 Hq2].
      split; [|done]. rewrite sent_rows_app, Hs, Hq1, nothing_pending by done. by rewrite app_nil_r.
Qed.

Lemma run_flushing fresh ending last events : flushing ending last -> Forall (fun e => stops e = false) events ->
  forall used st, state_ok used st -> 0 <= used -> admitted events -> used + total_bytes events <= u64_max ->
  exists st' sent, run fresh st (events ++ ending) = Done (Some st', sent ++ last)
    /\ forall q, sent_rows q sent ≡ₚ pending_of q st ++ logged q events /\ pending_of q st' = [].
Proof.
  intros Hend. induction 1 as [|e events Hstop _ IH]; intros used st Hst Hu Hadm Hmax.
  { cbn [app]. destruct (flushing_ok fresh ending last used st Hend Hst) as (st' & sent & -> & Hq). exists st', sent. split; [done|].
    intros q. by rewrite app_nil_r. }
  apply admitted_cons in Hadm as (Hrow & Hsize & Hadm). unfold total_bytes in Hmax. cbn [fmap list_fmap foldr] in Hmax. fold (total_bytes events) in Hmax.
  pose proof (total_bytes_nonneg events (proj2 Hadm)). cbn [app run].
  destruct (step_ok (fresh (length (events ++ ending))) used st e Hst Hu Hrow Hsize ltac:(lia)) as (next & sent & -> & _ & Hnext).
  rewrite Hstop in Hnext. destruct Hnext as (st1 & -> & Hst1 & Hq1). cbn [mbind outcome_bind].
  destruct (IH _ st1 Hst1 ltac:(lia) Hadm ltac:(lia)) as (st' & sent' & -> & Hq'). cbn [mbind outcome_bind].
  exists st', (sent ++ sent'). split; [by rewrite app_assoc|]. intros q. destruct (Hq' q) as [Hs Hp]. split; [|done].
  rewrite sent_rows_app, Hs. unfold logged. cbn [mbind list_bind]. by rewrite !app_assoc, Hq1.
Qed.

End Flushing.

(** ** The thread *)

Lemma admitted_appended events : Forall (fun e => 0 <= event_bytes e) events -> admitted (fun p => appended p events) events.
Proof. intros Hb. split; [|done]. intros p r Hr. by apply appended_in. Qed.

(** C8.  Nothing that is given to the batcher is lost, and nothing is sent twice.  Whatever the
    configurations, whatever the order in which rows, chunks, flushes, ticks, new configurations and
    the shutdown arrive, the thread does not panic; the rows sent for an entity and those still
    pending for it are the rows that were logged for it, rows of appended chunks included, up to
    their order and save for rows without components; after the shutdown, or the end of the
    channel, none is pending.  Each chunk sent is one that was appended, or a well-formed chunk of
    a batch.  (The sizes of the rows add up to a [u64], the rows can be batched, and the hashes
    tell apart what they should.) *)
Theorem batcher_spec (config : ChunkBatcherConfig.t) fresh events
  (Hstrict : very_strict = false) (Hok : forall p, Forall row_ok (appended p events)) (Hfit : forall p, compatible (appended p events))
  (Hsizes : Forall (fun e => 0 <= event_bytes e) events) (Hmax : total_bytes events <= u64_max) :
  exists next sent, batching_thread fresh config events = Done (next, sent)
    /\ (forall p, sent_rows p sent ++ from_option (pending_of p) [] next ≡ₚ logged p (taken events))
    /\ (next = None <-> existsb stops events = true)
    /\ Forall (good_output events) sent.
Proof.
  destruct (run_ok Hstrict _ Hok Hfit fresh events 0 (Mk config ∅ false)) as (next & sent & Hrun & Hg & Hn & Hq);
    [apply state_ok_initial|done|by apply admitted_appended|done|].
  by exists next, sent.
Qed.

(** C18.  A flush, and two ticks in a row, send all that was logged, nothing stays pending.  The
    flush is acknowledged, and only after all of it was sent. *)
Theorem batcher_flush_spec (config : ChunkBatcherConfig.t) fresh events ending last
  (Hstrict : very_strict = false) (Hok : forall p, Forall row_ok (appended p events)) (Hfit : forall p, compatible (appended p events))
  (Hsizes : Forall (fun e => 0 <= event_bytes e) events) (Hmax : total_bytes events <= u64_max)
  (Hstops : Forall (fun e => stops e = false) events) (Hend : flushing ending last) :
  exists st sent, batching_thread fresh config (events ++ ending) = Done (Some st, sent ++ last)
    /\ forall p, sent_rows p sent ≡ₚ logged p events /\ pending_of p st = [].
Proof.
  destruct (run_flushing Hstrict _ Hok Hfit fresh ending last events Hend Hstops 0 (Mk config ∅ false)) as (st & sent & Hrun & Hq);
    [apply state_ok_initial|done|by apply admitted_appended|done|].
  by exists st, sent.
Qed.

(** ** Entities that log little *)

Lemma compatible_one row : row_ok row -> compatible [row].
Proof.
  intros [Hnd _] r s ->%list_elem_of_singleton ->%list_elem_of_singleton _. split; [done|]. intros _. split; [done|]. split; [done|].
  intros k b c Hb Hc. assert (b = c) as ->; [|done].
  apply (elem_of_list_to_map_1 (M := gmap string) _ _ _ Hnd) in Hb. apply (elem_of_list_to_map_1 (M := gmap string) _ _ _ Hnd) in Hc. congruence.
Qed.

Section Starvation.

Context (Hstrict : very_strict = false) (cfg : ChunkBatcherConfig.t) (quiet loud : EntityPath) (row big : PendingRow.t).
Context (Hne : quiet <> loud) (Hbig : row_ok big).
Context (Hsmall : 0 <= row_size_bytes row < ChunkBatcherConfig.flush_num_bytes cfg).
Context (Hlarge : ChunkBatcherConfig.flush_num_bytes cfg <= row_size_bytes big <= u64_max).

(** The quiet row waits, and the accumulator of the loud entity is empty. *)
Definition waiting (st : State) : Prop :=
  config st = cfg /\ skip_next_tick st = false
  /\ accs st !! quiet = Some (Acc quiet [row] (row_size_bytes row))
  /\ default (new_accumulator loud) (accs st !! loud) = new_accumulator loud.

Lemma one_round fresh st events : waiting st -> exists st' sent', waiting st' /\ sent_rows quiet sent' = []
  /\ run fresh st (Recv (Some (AppendRow loud big)) :: Tick :: events)
     = '(next, sent) ← run fresh st' events; Done (next, sent' ++ sent).
Proof.
  intros (Hcfg & Hskip & Hq & Hl). rewrite run_cons. cbn [step]. unfold append_row. rewrite Hl, Hcfg.
  unfold do_push_row. cbn [new_accumulator pending_num_bytes pending_rows acc_entity_path app].
  rewrite arith_u64_done by int_lia. cbn [mbind outcome_bind pending_num_bytes pending_rows acc_entity_path length].
  replace (0 + row_size_bytes big) with (row_size_bytes big) by lia.
  set (acc := Acc loud [big] _). set (max_rows := ChunkBatcherConfig.chunk_max_rows_if_unsorted cfg).
  assert (exists sent, do_flush_all (fresh (S (length events))) acc max_rows = Done (new_accumulator loud, sent)
    /\ sent_rows quiet sent = []) as (sent & Hrun & Hsent).
  { unfold do_flush_all. cbn [pending_rows acc acc_entity_path]. rewrite bool_decide_false by done.
    destruct (many_ok (fresh (S (length events)) loud) loud max_rows [big] Hstrict) as (results & -> & cs & -> & Hcs & _);
      [by constructor|by apply compatible_one|].
    cbn [mbind outcome_bind]. rewrite list_fmap_bind. eexists. split; [done|]. change (_ ∘ Ok) with send_chunk.
    by eapply sent_other. }
  exists (Mk cfg (<[loud := new_accumulator loud]> (accs st)) false), sent.
  split; [|split; [done|]].
  { split; [done|]. split; [done|]. cbn [accs]. rewrite lookup_insert_ne by congruence. split; [done|]. by rewrite lookup_insert_eq. }
  rewrite Hrun. cbn [mbind outcome_bind].
  assert (ChunkBatcherConfig.flush_num_bytes cfg <=? row_size_bytes big = true) as -> by lia.
  destruct (_ <=? Z.of_nat 1); cbn [mbind outcome_bind]; rewrite run_cons; cbn [step skip_next_tick mbind outcome_bind config accs];
    by destruct (run fresh _ events) as [[next sent']|].
Qed.

Lemma rounds fresh n : forall st, waiting st -> exists st' sent,
  run fresh st (mjoin (replicate n [Recv (Some (AppendRow loud big)); Tick])) = Done (Some st', sent)
  /\ waiting st' /\ sent_rows quiet sent = [].
Proof.
  induction n as [|n IH]; intros st Hst; [by exists st, []|].
  destruct (one_round fresh st (mjoin (replicate n [Recv (Some (AppendRow loud big)); Tick])) Hst) as (st1 & sent1 & Hst1 & Hs1 & Hrun).
  change (mjoin (replicate (S n) _)) with (Recv (Some (AppendRow loud big)) :: Tick :: mjoin (replicate n [Recv (Some (AppendRow loud big)); Tick])).
  rewrite Hrun.
  destruct (IH st1 Hst1) as (st' & sent & -> & Hst' & Hs). cbn [mbind outcome_bind]. exists st', (sent1 ++ sent). split; [done|].
  split; [done|]. by rewrite sent_rows_app, Hs1, Hs.
Qed.

(** C36.  A busy entity can keep the rows of the others pending for as long as it likes.  A row that
    is below the limits of size and number waits for a tick; but a flush for size of any entity
    skips the next tick for all of them.  However many ticks there are, if between each two of them
    another entity logs a row that is large, the row is never sent. *)
Theorem quiet_entity_starves (Hrows : 1 < ChunkBatcherConfig.flush_num_rows cfg) fresh n :
  exists st sent, batching_thread fresh cfg
      (Recv (Some (AppendRow quiet row)) :: mjoin (replicate n [Recv (Some (AppendRow loud big)); Tick])) = Done (Some st, sent)
    /\ sent_rows quiet sent = [] /\ pending_of quiet st = shown_row row.
Proof.
  unfold batching_thread. rewrite run_cons. cbn [step]. unfold append_row. cbn [accs config skip_next_tick]. rewrite lookup_empty. cbn [default from_option].
  unfold do_push_row. cbn [new_accumulator pending_num_bytes pending_rows acc_entity_path app].
  rewrite arith_u64_done by int_lia. cbn [mbind outcome_bind pending_num_bytes pending_rows acc_entity_path length].
  replace (0 + row_size_bytes row) with (row_size_bytes row) by lia.
  rewrite (proj2 (Z.leb_gt _ _)) by lia. rewrite (proj2 (Z.leb_gt _ _)) by lia. cbn [mbind outcome_bind].
  edestruct (rounds fresh n) as (st & sent & -> & (_ & _ & Hq & _) & Hs).
  { split; [done|]. split; [done|]. cbn [accs]. rewrite lookup_insert_eq, lookup_insert_ne by done. by rewrite lookup_empty. }
  cbn [mbind outcome_bind]. exists st, ([] ++ sent). split; [done|]. split; [done|].
  unfold pending_of. rewrite Hq. cbn. unfold acc_rows. cbn. apply app_nil_r.
Qed.

End Starvation.

End Accounting.
