(* ===== verification/Examples.v ===== *)
(** * The theorems at work

    Concrete chunks over the reference Arrow instance, in a debug build, and each theorem on
    chunks applied to them with its hypotheses discharged by computation. *)

From stdpp Require Import strings.
From S2P Require Import Prelude Ints TimeInt TimeRange Tuid Deque Arrow ArrowRef Column Chunk ChunkSlice.
From S2P Require Import ChunkSort ChunkMerge ChunkQuery ChunkIndex ChunkStore.

(** Sizes are of no interest here. *)
#[export] Instance ref_size : Chunk.SizeBytes :=
  { heap_size_bytes_inner _ := 100; stack_size_bytes := 8 }.

Definition descriptor_of (k : string) : ComponentDescriptor :=
  {| cd_archetype := None; cd_component := k; cd_component_type := None |}.

Definition column_of (k : string) (entries : list (option (list Z))) : ChunkComponents.column :=
  {| ChunkComponents.list_array := ref_of_rows 0 entries : @ListArray ref_ops;
     ChunkComponents.descriptor := descriptor_of k |}.

Definition times_of (k : string) (times : list Z) : TimeColumn.t :=
  TimeColumn.new None {| tl_name := k; tl_typ := Sequence |} times.

(** A chunk of entity [path]; the sortedness of the row ids is computed. *)
Definition chunk_of (cid : Z) (path : list string) (row_ids : list Z) (timelines : list (string * list Z))
    (components : list (string * list (option (list Z)))) : Chunk.t :=
  let row_ids := RowId.from_u128 <$> row_ids in
  Chunk.Mk (ChunkId.from_u128 cid) path 0 (windows_all RowId.le row_ids) row_ids
    (list_to_map ((fun '(k, times) => (k, times_of k times)) <$> timelines))
    (list_to_map ((fun '(k, entries) => (k, column_of k entries)) <$> components)).

(** A sorted chunk with one timeline in order and one out of order, and sparse columns. *)
Definition ex_chunk : Chunk.t :=
  chunk_of 1 ["a"] [1; 2; 3] [("frame", [10; 20; 20]); ("log", [3; 1; 2])]
    [("pos", [Some [1]; None; Some [2; 3]]); ("color", [None; Some [7]; None])].

(** Rows out of order. *)
Definition ex_unsorted : Chunk.t :=
  chunk_of 2 ["a"] [6; 4; 5] [("frame", [12; 30; 11]); ("log", [5; 4; 6])]
    [("pos", [Some [4]; Some [5]; None])].

Definition ex_static : Chunk.t :=
  chunk_of 3 ["a"] [8; 7] [] [("pos", [Some [6]; Some [7]])].

Definition new_id : ChunkId.t := ChunkId.from_u128 100.
Definition new_id2 : ChunkId.t := ChunkId.from_u128 200.
Definition fresh (i : nat) : ChunkId.t := ChunkId.from_u128 (300 + Z.of_nat i).

(** The default configuration. *)
Lemma lenient : @very_strict debug_build = false.
Proof. reflexivity. Qed.

(** The chunks are well formed because they pass the code's own check. *)
Definition typed_check (c : Chunk.t) : bool :=
  forallb (fun '(_, tc) => forallb (fun z => (i64_min <=? z) && (z <=? i64_max)) (TimeColumn.times tc))
    (map_to_list (Chunk.timelines c)).

Lemma wf_by_check c : typed_check c = true ->
  Chunk.sanity_check c = Done (Ok ()) -> chunk_wf c.
Proof.
  intros Hty Hs. destruct (sanity_check_debug c) as (r & Hr & Hw); [done|done| |].
  - unfold typed. apply map_to_list_Forall. unfold typed_check in Hty. rewrite forallb_forall in Hty.
    apply Forall_forall. intros [k tc] Hin%list_elem_of_In. specialize (Hty _ Hin). simpl in Hty.
    rewrite forallb_forall in Hty. apply Forall_forall. intros z Hz%list_elem_of_In. specialize (Hty z Hz).
    unfold is_i64. lia.
  - apply Hw. congruence.
Qed.

Lemma ex_chunk_wf : chunk_wf ex_chunk.
Proof. apply wf_by_check; vm_compute; reflexivity. Qed.
Lemma ex_unsorted_wf : chunk_wf ex_unsorted.
Proof. apply wf_by_check; vm_compute; reflexivity. Qed.
Lemma ex_static_wf : chunk_wf ex_static.
Proof. apply wf_by_check; vm_compute; reflexivity. Qed.

(** The size of a chunk is measured to 100, whatever the order of its rows. *)
Lemma ex_sturdy (c : Chunk.t) : (Chunk.heap_size_bytes c =? 0) || (Chunk.heap_size_bytes c =? 100) = true -> sturdy c.
Proof.
  rewrite orb_true_iff, !Z.eqb_eq. intros [Hh|Hh] _; [left; exact Hh|right].
  split; [rewrite Hh|intros c' _]; reflexivity.
Qed.

(** A chunk with its size cached, as the store keeps it. *)
Definition ex_measured : Chunk.t := snd (Chunk.heap_size_bytes_cached ex_unsorted).

Lemma ex_measured_wf : chunk_wf ex_measured.
Proof. apply wf_by_check; vm_compute; reflexivity. Qed.

Lemma ex_measured_sturdy : Chunk.heap_size_bytes ex_measured = 100 /\ sturdy ex_measured.
Proof. split; [|apply ex_sturdy]; vm_compute; reflexivity. Qed.

(** ** Chunks *)

Lemma sanity_check_spec_witness :
  exists r, Chunk.sanity_check ex_chunk = Done r /\ (r = Ok () <-> chunk_wf ex_chunk /\ heap_cache_ok ex_chunk).
Proof.
  destruct (sanity_check_spec ex_chunk) as (r & Hr & Hw & _); [done| |].
  - by apply wf_typed, ex_chunk_wf.
  - exists r. split; [done|by apply Hw].
Defined.

Lemma cell_spec_witness :
  Chunk.row_ids ex_chunk !! 2%nat = Some (RowId.from_u128 3)
  /\ Chunk.cell ex_chunk (RowId.from_u128 3) "pos" = Some [2; 3].
Proof.
  pose proof (cell_spec ex_chunk (RowId.from_u128 3) "pos" _ ex_chunk_wf eq_refl) as Hc.
  replace (Chunk.row_index_of ex_chunk (RowId.from_u128 3)) with (Some 2%nat) in Hc by (vm_compute; reflexivity).
  destruct Hc as [Hr Hc]. split; [exact Hr|]. rewrite Hc. vm_compute. reflexivity.
Defined.

Lemma row_id_range_per_component_swapped_witness :
  Chunk.row_id_range_per_component ex_chunk !! "pos" = Some (RowId.from_u128 3, RowId.from_u128 1).
Proof.
  rewrite (row_id_range_per_component_swapped ex_chunk "pos" _ eq_refl). vm_compute. reflexivity.
Defined.

Lemma time_range_per_component_spec_witness :
  exists r, TimeColumn.time_range_per_component (times_of "log" [3; 1; 2]) (Chunk.components ex_chunk) !! "color" = Some r
    /\ tight r [1].
Proof.
  destruct (time_range_per_component_spec (times_of "log" [3; 1; 2]) (Chunk.components ex_chunk) "color"
    (column_of "color" [None; Some [7]; None])) as (r & Hr & Ht & _).
  - apply new_wf; [repeat constructor; unfold temporal_i64; int_lia|done].
  - done.
  - vm_compute. reflexivity.
  - vm_compute. reflexivity.
  - exists r. split; [exact Hr|]. apply Ht. discriminate.
Defined.

(** ** Slicing and filtering *)

Lemma row_sliced_spec_witness :
  let c' := ChunkSlice.row_sliced_impl new_id ex_chunk 1 7 true in
  chunk_wf c' /\ rows c' = take 7 (drop 1 (rows ex_chunk)) /\ Chunk.id c' = new_id /\ same_shape ex_chunk c'.
Proof. exact (row_sliced_spec new_id ex_chunk 1 7 true ex_chunk_wf). Defined.

Lemma filtered_spec_witness :
  exists c', ChunkSlice.filtered new_id ex_chunk [true; false; true] = Done (Some c') /\ chunk_wf c'
    /\ rows c' = mask [true; false; true] (rows ex_chunk).
Proof.
  destruct (filtered_spec new_id ex_chunk [true; false; true] lenient ex_chunk_wf) as ([c'|] & Hr & Hn & Hs).
  - destruct (Hs c' eq_refl) as (Hw & Hrows & _). exists c'. split_and!; assumption.
  - exfalso. apply (proj1 Hn eq_refl). vm_compute. reflexivity.
Defined.

Lemma densified_spec_witness :
  exists c' changed, ChunkSlice.densified new_id ex_chunk "color" = Done (c', changed)
    /\ chunk_wf c' /\ rows c' = filter (has_cell "color") (rows ex_chunk).
Proof.
  destruct (densified_spec new_id ex_chunk "color" lenient ex_chunk_wf) as (c' & changed & Hd & Hw & _ & Hr).
  assert (Chunk.components ex_chunk !! "color" = Some (column_of "color" [None; Some [7]; None])) as Hk
    by (vm_compute; reflexivity).
  rewrite Hk in Hr. destruct Hr as [Hr _]. exists c', changed. split_and!; assumption.
Defined.

(** One time column in order, so that gathering in increasing order keeps the flags right. *)
Definition ex_sorted : Chunk.t :=
  chunk_of 1 ["a"] [1; 2; 3] [("frame", [10; 20; 20])] [("pos", [Some [1]; None; Some [2; 3]])].

Lemma ex_sorted_wf : chunk_wf ex_sorted.
Proof. apply wf_by_check; vm_compute; reflexivity. Qed.

Lemma taken_spec_witness :
  exists c', ChunkSlice.taken new_id ex_sorted [0; 2] = Done c' /\ length (rows c') = 2%nat /\ chunk_wf c'.
Proof.
  destruct (gather_from_range (rows ex_sorted) [0; 2]) as [rs Hg].
  { rewrite length_rows. replace (Chunk.num_rows ex_sorted) with 3%nat by (vm_compute; reflexivity).
    repeat constructor; lia. }
  destruct (proj2 (taken_spec new_id ex_sorted [0; 2] rs lenient ex_sorted_wf Hg)) as (c' & Hc & Hr & Hw);
    [vm_compute; reflexivity|vm_compute; reflexivity|repeat constructor; lia|].
  exists c'. split_and!; [exact Hc| |exact Hw]. rewrite Hr.
  pose proof (pick_length _ _ _ (pick_gather _ _ _ Hg)) as Hl. exact Hl.
Defined.

Lemma projections_spec_witness :
  exists c', ChunkSlice.timeline_sliced new_id ex_chunk "frame" = Done c' /\ chunk_wf c'
    /\ rows c' = keep_times (fun k => k = "frame") <$> rows ex_chunk.
Proof.
  exact (proj1 (projections_spec new_id ex_chunk "frame" ["pos"] ["color"] {["frame"]} lenient ex_chunk_wf)).
Defined.

Lemma deduped_latest_on_index_spec_witness :
  exists c', ChunkSlice.deduped_latest_on_index (H := release_build) new_id ex_chunk "frame" = Done c'
    /\ rows c' = dedup_latest (time_of "frame") (rows ex_chunk).
Proof. exact (deduped_latest_on_index_spec (H := release_build) new_id ex_chunk "frame" eq_refl ex_chunk_wf). Defined.

Lemma split_chunk_if_needed_spec_witness :
  mjoin (rows <$> ChunkSplit.split_chunk_if_needed fresh ex_chunk
    {| chunk_max_bytes := 0; chunk_max_rows := 2; chunk_max_rows_if_unsorted := 1 |}) = rows ex_chunk.
Proof.
  exact (proj1 (ChunkSplit.split_chunk_if_needed_spec fresh ex_chunk
    {| chunk_max_bytes := 0; chunk_max_rows := 2; chunk_max_rows_if_unsorted := 1 |} ex_chunk_wf)).
Defined.

(** ** Sorting *)

Lemma sort_by_row_ids_spec_witness :
  exists c', ChunkSort.sort_by_row_ids_if_needed new_id ex_unsorted = Done c' /\ chunk_wf c'
    /\ Chunk.is_sorted c' = true /\ rows c' = sort_by row_le (rows ex_unsorted).
Proof.
  destruct (sort_by_row_ids_spec new_id ex_unsorted lenient (ex_sturdy ex_unsorted eq_refl) ex_unsorted_wf)
    as (c' & Hc & Hw & Hs & _ & Hr & _). exists c'. split_and!; assumption.
Defined.

Lemma sorted_by_timeline_spec_witness :
  exists c', ChunkSort.sorted_by_timeline_if_unsorted new_id ex_unsorted "frame" = Done c' /\ chunk_wf c'
    /\ rows c' = sort_by (time_row_le "frame") (rows ex_unsorted).
Proof.
  destruct (sorted_by_timeline_spec new_id ex_unsorted "frame" lenient (ex_sturdy ex_unsorted eq_refl) ex_unsorted_wf)
    as (c' & Hc & Hw & _ & Hs).
  assert (Chunk.timelines ex_unsorted !! "frame" = Some (times_of "frame" [12; 30; 11])) as Hk
    by (vm_compute; reflexivity).
  rewrite Hk in Hs. destruct Hs as (_ & _ & Hs). destruct Hs as [_ Hs]; [vm_compute; reflexivity|].
  exists c'. split_and!; assumption.
Defined.

Lemma from_auto_row_ids_spec_witness :
  exists c, ChunkSort.from_auto_row_ids new_id new_id2 ["a"] (Chunk.timelines ex_unsorted)
      (Chunk.components ex_unsorted) = Done (Ok c)
    /\ chunk_wf c /\ Chunk.row_ids c = Chunk.auto_row_ids (Chunk.id c) 3.
Proof.
  destruct (from_auto_row_ids_spec new_id new_id2 ["a"] (Chunk.timelines ex_unsorted)
    (Chunk.components ex_unsorted)) as (c & Hc & Hw & _ & Hids & _).
  - reflexivity.
  - destruct ex_unsorted_wf as (_ & Ht & Hc). split; intros k x Hk; [exact (Ht k x Hk)|exact (Hc k x Hk)].
  - vm_compute. discriminate.
  - vm_compute. discriminate.
  - exists c. split_and!; [exact Hc|exact Hw|exact Hids].
Defined.

(** ** Merging *)

Lemma ex_pads : pads_well ex_chunk ex_unsorted /\ pads_well ex_unsorted ex_chunk.
Proof.
  split; intros k col Hl Hr; unfold Chunk.components, ex_chunk, ex_unsorted, chunk_of in Hl, Hr; simpl in Hl, Hr;
    rewrite lookup_insert_None in Hr.
  - destruct Hr as [Hr Hne]. rewrite lookup_insert_ne, lookup_insert_Some in Hl by done.
    destruct Hl as [[<- <-]|[_ Hl]]; [|by rewrite lookup_empty in Hl].
    intros i Hi. change (i <= 3)%nat in Hi. do 4 (destruct i as [|i]; [vm_compute; reflexivity|]). lia.
  - destruct Hr as [_ Hne]. rewrite lookup_insert_ne in Hl by (intros <-; naive_solver).
    by rewrite lookup_empty in Hl.
Qed.

Lemma ex_mergeable : mergeable ex_chunk ex_unsorted.
Proof. apply concatenable_mergeable; [exact ex_chunk_wf|vm_compute; reflexivity]. Qed.

Lemma concatenated_unsorted_spec_witness :
  exists c, ChunkMerge.concatenated_unsorted new_id ex_chunk ex_unsorted = Done (Ok c) /\ chunk_wf c
    /\ rows c = rows ex_chunk ++ rows ex_unsorted.
Proof.
  destruct (concatenated_unsorted_spec new_id ex_chunk ex_unsorted ex_chunk_wf ex_unsorted_wf
    (proj1 ex_pads) (proj2 ex_pads)) as (o & Ho & Hm & Hc).
  destruct o as [c|e]; [|exfalso; pose proof (proj2 Hm ex_mergeable); discriminate].
  destruct (Hc c eq_refl) as (Hw & _ & Hr). exists c. split_and!; assumption.
Defined.

Lemma concat_and_sort_spec_witness :
  exists c, ChunkMerge.concat_and_sort new_id new_id2 ex_chunk ex_unsorted = Done (Ok c) /\ chunk_wf c
    /\ Chunk.is_sorted c = true /\ rows c ≡ₚ rows ex_chunk ++ rows ex_unsorted.
Proof.
  destruct (concat_and_sort_spec new_id new_id2 ex_chunk ex_unsorted lenient ex_chunk_wf ex_unsorted_wf
    (ex_sturdy ex_chunk eq_refl) (ex_sturdy ex_unsorted eq_refl) (proj1 ex_pads) (proj2 ex_pads)) as (o & Ho & Hm & Hc).
  destruct o as [c|e]; [|exfalso; pose proof (proj2 Hm ex_mergeable); discriminate].
  destruct (Hc c eq_refl) as (Hw & Hs & _ & _ & Hr). exists c. split_and!; assumption.
Defined.

Lemma overlaps_spec_witness :
  ChunkMerge.overlaps_on_row_id ex_chunk ex_unsorted = ChunkMerge.overlaps_on_row_id ex_unsorted ex_chunk
  /\ ChunkMerge.overlaps_on_time ex_chunk ex_unsorted = ChunkMerge.overlaps_on_time ex_unsorted ex_chunk.
Proof. exact (proj2 (proj2 (overlaps_spec ex_chunk ex_unsorted ex_chunk_wf ex_unsorted_wf))). Defined.

(** ** Queries *)

Lemma not_zero (c : Chunk.t) : bool_decide (RowId.ZERO ∈ Chunk.row_ids c) = false -> RowId.ZERO ∉ Chunk.row_ids c.
Proof. apply bool_decide_eq_false. Qed.

Lemma latest_at_temporal_spec_witness :
  exists o, ChunkQuery.latest_at new_id ex_unsorted
      (LatestAtQuery.Mk (Some "frame") (TimeInt.new_temporal 20)) "pos" = Done (Some o)
    /\ exists r, rows (UnitChunk.chunk o) = [r] /\ has_cell "pos" r.
Proof.
  assert (Chunk.timelines ex_unsorted !! "frame" = Some (times_of "frame" [12; 30; 11])) as Hk
    by (vm_compute; reflexivity).
  assert (TimeInt.new_temporal 20 <> TimeInt.STATIC) as Ha by (intros E; discriminate (f_equal TimeInt.as_i64 E)).
  destruct (latest_at_temporal_spec new_id ex_unsorted "frame" (TimeInt.new_temporal 20) "pos" _ ex_unsorted_wf
    (not_zero ex_unsorted ltac:(vm_compute; reflexivity)) Ha Hk) as (o & Ho & Hs).
  destruct o as [u|].
  - destruct Hs as (r & Hr & _ & _ & _ & Hcell & _). exists u. split; [exact Ho|]. exists r. split; assumption.
  - exfalso. destruct (lookup_lt_is_Some_2 (rows ex_unsorted) 0) as [r Hr].
    { rewrite length_rows. vm_compute. lia. }
    apply (Hs r); [by apply list_elem_of_lookup_2 in Hr|]. split.
    + apply (valid_has_cell ex_unsorted "pos" (column_of "pos" [Some [4]; Some [5]; None]) 0 r);
        [exact ex_unsorted_wf|vm_compute; reflexivity|exact Hr|vm_compute; reflexivity].
    + pose proof (lookup_times ex_unsorted "frame" _ 0 r ex_unsorted_wf Hk Hr) as Ht.
      assert (time_of "frame" r = 12) as -> by (vm_compute in Ht |- *; congruence).
      vm_compute. discriminate.
Defined.

Lemma latest_at_static_spec_witness :
  exists o, ChunkQuery.latest_at new_id ex_static LatestAtQuery.new_static "pos" = Done o.
Proof.
  destruct (latest_at_static_spec new_id ex_static LatestAtQuery.new_static "pos" ex_static_wf
    (not_zero ex_static ltac:(vm_compute; reflexivity))) as (o & Ho & _); [vm_compute; reflexivity|].
  exists o. exact Ho.
Defined.

Definition ex_query : RangeQuery.t :=
  RangeQuery.new "frame" (AbsoluteTimeRange.new (Ok (TimeInt.new_temporal 11)) (Ok (TimeInt.new_temporal 20))).

Lemma range_temporal_spec_witness :
  exists c' sorted, ChunkQuery.range fresh ex_measured ex_query "pos" = Done c' /\ chunk_wf c'
    /\ in_query_range ex_query sorted (rows c').
Proof.
  assert (Chunk.timelines ex_measured !! "frame" = Some (times_of "frame" [12; 30; 11])) as Hk
    by (vm_compute; reflexivity).
  destruct (range_temporal_spec fresh ex_measured ex_query "pos" _ lenient ex_measured_wf (proj2 ex_measured_sturdy)
    ltac:(vm_compute; discriminate) Hk) as (c' & sorted & Hc & Hw & _ & _ & _ & Hq).
  exists c', sorted. split_and!; assumption.
Defined.

Lemma range_without_timeline_spec_witness :
  exists c', ChunkQuery.range fresh ex_static ex_query "pos" = Done c' /\ chunk_wf c'.
Proof.
  destruct (range_without_timeline_spec fresh ex_static ex_query "pos" lenient ex_static_wf (ex_sturdy ex_static eq_refl)
    (not_zero ex_static ltac:(vm_compute; reflexivity))) as (c' & Hc & Hw & _); [vm_compute; reflexivity|].
  exists c'. split; assumption.
Defined.


(** ** The index and the store *)

Definition ex_index : list (ChunkId.t * AbsoluteTimeRange.t) :=
  [(ChunkId.from_u128 1, AbsoluteTimeRange.new (Ok (TimeInt.new_temporal 10)) (Ok (TimeInt.new_temporal 20)));
   (ChunkId.from_u128 2, AbsoluteTimeRange.new (Ok (TimeInt.new_temporal 15)) (Ok (TimeInt.new_temporal 18)))].

Lemma index_latest_at_spec_witness :
  exists found, ChunkIdSetPerTime.latest_at (TimeInt.new_temporal 17) (insert_all ex_index) = Some found
    /\ ChunkId.from_u128 1 ∈ found /\ ChunkId.from_u128 2 ∈ found.
Proof.
  pose proof (index_latest_at_spec (insert_all ex_index) ex_index (TimeInt.new_temporal 17)
    (represents_insert_all ex_index) ltac:(vm_compute; discriminate)) as Hs.
  destruct (ChunkIdSetPerTime.latest_at _ _) as [found|].
  - destruct Hs as (upper & (id & r & Hin & Hu) & _ & _ & _ & Hc). exists found. split; [reflexivity|].
    assert (TimeInt.as_i64 upper <= 18) as Hup.
    { apply elem_of_cons in Hin as [E|Hin].
      - injection E as -> ->. rewrite <- Hu. vm_compute. discriminate.
      - apply list_elem_of_singleton in Hin. injection Hin as -> ->. rewrite <- Hu. vm_compute. discriminate. }
    split.
    + apply (Hc _ _ ltac:(left)); [vm_compute; discriminate|]. etransitivity; [exact Hup|]. vm_compute. discriminate.
    + apply (Hc _ _ ltac:(right; left)); [vm_compute; discriminate|].
      etransitivity; [exact Hup|]. vm_compute. discriminate.
  - exfalso. specialize (Hs _ _ ltac:(left)). vm_compute in Hs. discriminate.
Defined.

Lemma index_range_spec_witness :
  ChunkId.from_u128 1 ∈ ChunkIdSetPerTime.range
    (AbsoluteTimeRange.new (Ok (TimeInt.new_temporal 19)) (Ok (TimeInt.new_temporal 30))) false [insert_all ex_index].
Proof.
  destruct (index_range_spec (AbsoluteTimeRange.new (Ok (TimeInt.new_temporal 19)) (Ok (TimeInt.new_temporal 30)))
    false [insert_all ex_index] [ex_index]) as [_ Hc].
  - constructor; [apply represents_insert_all|constructor].
  - eapply Hc.
    + constructor; [vm_compute; discriminate|constructor].
    + left.
    + left.
    + intros E. discriminate (f_equal TimeInt.as_i64 E).
    + vm_compute. discriminate.
    + vm_compute. discriminate.
Defined.

Definition ex_later : Chunk.t :=
  chunk_of 5 ["a"] [4; 5] [("frame", [15; 30])] [("pos", [Some [4]; None])].

Lemma ex_later_wf : chunk_wf ex_later.
Proof. apply wf_by_check; vm_compute; reflexivity. Qed.

Definition empty_store : ChunkStore.t := ChunkStore.new ChunkStoreConfig.DEFAULT.

(** A store that a chunk was added to. *)
Definition add_to (st : ChunkStore.t) (c : Chunk.t) : ChunkStore.t :=
  ChunkStore.insert_physical (ChunkStore.index_temporal st c) c.

Lemma index_temporal_spec_witness : indexes (add_to empty_store ex_chunk) [ex_chunk].
Proof. apply (index_temporal_spec empty_store [] ex_chunk (indexes_empty _)). intros c' []%elem_of_nil. Defined.

Definition ex_store : ChunkStore.t := add_to (add_to empty_store ex_chunk) ex_later.

Lemma ex_store_indexes : indexes ex_store [ex_later; ex_chunk].
Proof.
  apply indexes_temporal.
  - apply indexes_temporal; [exact (indexes_empty _)|]. intros c' []%elem_of_nil.
  - intros c' Hin%list_elem_of_singleton E. rewrite Hin in E.
    discriminate (f_equal (fun id => Tuid.inc (ChunkId.as_tuid id)) E).
Qed.

Lemma ex_store_stored : Forall stored_chunk [ex_later; ex_chunk].
Proof.
  assert (forall c, chunk_wf c -> bool_decide (Chunk.num_rows c = 0%nat) = false -> Chunk.is_sorted c = true ->
    bool_decide (RowId.ZERO ∈ Chunk.row_ids c) = false -> stored_chunk c) as Hstored.
  { intros c Hw Hn Hs Hz. split; [exact Hw|split; [|split; [exact Hs|by apply not_zero]]].
    by apply bool_decide_eq_false in Hn. }
  constructor; [|constructor; [|constructor]]; apply Hstored;
    (exact ex_later_wf || exact ex_chunk_wf || (vm_compute; reflexivity)).
Qed.

(** The row of [ex_later] is the latest at 19, and that of [ex_chunk] at 20 later still. *)
Lemma store_latest_at_spec_witness :
  exists results st',
    ChunkStore.latest_at_relevant_chunks ex_store Report
      (LatestAtQuery.Mk (Some "frame") (TimeInt.new_temporal 25)) ["a"] "pos" = Done (results, st')
    /\ NoDup (Chunk.id <$> ChunkStore.chunks results).
Proof.
  destruct (store_latest_at_spec ex_store [ex_later; ex_chunk] Report ["a"] "frame" "pos" (TimeInt.new_temporal 25)
    new_id ex_store_indexes) as (results & st' & Hr & _ & Hnd & _).
  - apply (bool_decide_eq_true _). vm_compute. reflexivity.
  - exact ex_store_stored.
  - vm_compute. reflexivity.
  - intros E. discriminate (f_equal TimeInt.as_i64 E).
  - vm_compute. discriminate.
  - exists results, st'. split; [exact Hr|exact Hnd].
Defined.

(** ** Deques *)

#[local] Instance Z_leb_preorder : TotalPreorder Z.leb.
Proof. split; intros *; rewrite !Z.leb_le; lia. Qed.

Lemma deque_sorting_spec_witness : Deque.sort Z.leb [3; 1] [2] ≡ₚ [3; 1; 2] /\ sorted_by Z.leb (Deque.sort Z.leb [3; 1] [2]).
Proof. exact (conj (proj1 (proj2 (deque_sorting_spec Z.leb [3; 1] [2]))) (proj1 (proj2 (proj2 (deque_sorting_spec Z.leb [3; 1] [2]))))). Defined.
