(* ===== verification/StoreExamples.v ===== *)
(** * The theorems on the store at work

    A store in a debug build that chunks are logged to, collected from and queried, with the
    hypotheses of each theorem discharged by computation. *)

From stdpp Require Import strings.
From S2P Require Import Prelude Ints TimeInt TimeRange Tuid Arrow ArrowRef Column Chunk ChunkSlice.
From S2P Require Import ChunkSort ChunkMerge ChunkQuery ChunkIndex Lineage StoreStats ChunkStore StoreGc StoreWrites.
From S2P Require Import StoreInvariant StoreGcSpec StoreInsertion StoreStatic StoreSplits StoreJournal StoreQueries Examples.

#[export] Instance ref_order : HashOrder := fun l => l.
#[export] Instance ref_order_laws : HashOrderLaws := fun l => reflexivity l.
#[export] Instance ref_size_laws : SizeLaws.
Proof. intros c. split; cbv; discriminate. Qed.

(** ** Ids *)

Definition num (id : ChunkId.t) : Z := Tuid.as_u128 (ChunkId.as_tuid id).
Definition id_of (n : Z) : ChunkId.t := ChunkId.from_u128 n.

Lemma num_id_of n : 0 <= n <= 100000 -> num (id_of n) = n.
Proof. intros Hn. apply Tuid.as_u128_from_u128. int_lia. Qed.

(** The ids that an insertion draws, from [base] on. *)
Definition draw_num (base : Z) (d : Draw) : Z :=
  match d with
  | SplitDraw round position piece => base + Z.of_nat round * 100 + Z.of_nat position * 10 + Z.of_nat piece
  | CompactDraw => base + 1000
  | SortDraw => base + 1001
  | PieceDraw _ _ => base + 1002
  end.
Definition draws (base : Z) (d : Draw) : ChunkId.t := id_of (draw_num base d).

Lemma draw_bounds base x d : 0 <= base <= 10000 -> (Chunk.num_rows x <= 9)%nat -> within x d ->
  base <= draw_num base d <= base + 1001.
Proof. destruct d; simpl; lia. Qed.

Lemma distinct_draws_base base x : 0 <= base <= 10000 -> (Chunk.num_rows x <= 9)%nat ->
  0 <= num (Chunk.id x) < base -> Chunk.id x = id_of (num (Chunk.id x)) -> distinct_draws (draws base) x.
Proof.
  intros Hb Hn Hx Hid. split.
  - intros d d' Hw Hw' E%(f_equal num). unfold draws in E.
    pose proof (draw_bounds base x d Hb Hn Hw). pose proof (draw_bounds base x d' Hb Hn Hw').
    rewrite !num_id_of in E by lia.
    destruct d as [r p j| | |], d' as [r' p' j'| | |]; simpl in *; try done; try lia.
    f_equal; lia.
  - intros d Hw E%(f_equal num). pose proof (draw_bounds base x d Hb Hn Hw). unfold draws in E. rewrite num_id_of in E by lia. lia.
Qed.

(** ** Ids that a store does not mention *)

Definition below_all (n : Z) (ids : list ChunkId.t) : bool := forallb (fun id => num id <? n) ids.
Definition mentions_below (n : Z) (st : ChunkStore.t) : bool :=
  forallb (fun '(id, l) => (num id <? n) && below_all n (Lineage.iter_referenced_chunks (lineage l))
      && below_all n (siblings_of (lineage l))) (map_to_list (chunks_lineage (ChunkStore.lineages st)))
  && forallb (fun '(_, per_component) => below_all n (map_to_list (per_component : gmap string ChunkId.t)).*2)
       (map_to_list (ChunkStore.static_chunk_ids_per_entity st)).

Lemma below_all_elem n ids id : below_all n ids = true -> id ∈ ids -> num id < n.
Proof.
  unfold below_all. rewrite forallb_forall. intros Hall Hin%list_elem_of_In. specialize (Hall id Hin). lia.
Qed.

Lemma unheard_above n st id : mentions_below n st = true -> n <= num id -> unheard st id.
Proof.
  unfold mentions_below. rewrite andb_true_iff, !forallb_forall. intros [Hl Hs] Hn.
  assert (forall i l, chunks_lineage (ChunkStore.lineages st) !! i = Some l -> num i < n
    /\ below_all n (Lineage.iter_referenced_chunks (lineage l)) = true /\ below_all n (siblings_of (lineage l)) = true) as Hall.
  { intros i l Hi%elem_of_map_to_list%list_elem_of_In%Hl. rewrite !andb_true_iff in Hi. destruct Hi as [[? ?] ?].
    split_and!; [lia|done..]. }
  split.
  - destruct (chunks_lineage (ChunkStore.lineages st) !! id) eqn:E; [|done]. apply Hall in E as [? _]. lia.
  - intros i l Hi. destruct (Hall i l Hi) as (_ & Hr & Hk).
    split; intros Hin; [pose proof (below_all_elem _ _ _ Hr Hin)|pose proof (below_all_elem _ _ _ Hk Hin)]; lia.
  - intros path per_component component Hp Hc.
    specialize (Hs (path, per_component) (proj1 (list_elem_of_In _ _) (proj2 (elem_of_map_to_list _ _ _) Hp))). simpl in Hs.
    pose proof (below_all_elem n _ id Hs) as Hlt.
    assert (id ∈ (map_to_list per_component).*2) as Hin.
    { apply list_elem_of_fmap. exists (component, id). split; [done|]. by apply elem_of_map_to_list. }
    specialize (Hlt Hin). lia.
Qed.

(** ** Logging two chunks *)

Lemma storable_by_check c : chunk_wf c -> bool_decide (Chunk.num_rows c = 0%nat) = false -> Chunk.heap_size_bytes c = 0 ->
  Chunk.is_sorted c = true -> bool_decide (RowId.ZERO ∈ Chunk.row_ids c) = false -> storable c.
Proof.
  intros Hw Hn%bool_decide_eq_false Hh Hs Hz%bool_decide_eq_false. split; try done. by apply sized_uncached.
Qed.

Lemma ex_chunk_storable : storable ex_chunk.
Proof. apply storable_by_check; (exact ex_chunk_wf || (vm_compute; reflexivity)). Qed.
Lemma ex_later_storable : storable ex_later.
Proof. apply storable_by_check; (exact ex_later_wf || (vm_compute; reflexivity)). Qed.

(** The configuration splits chunks of more than two rows. *)
Definition splitting_config : ChunkStoreConfig.t := {|
  ChunkStoreConfig.enable_changelog := true;
  ChunkStoreConfig.chunk_max_bytes := 100000;
  ChunkStoreConfig.chunk_max_rows := 2;
  ChunkStoreConfig.chunk_max_rows_if_unsorted := 2;
|}.

Definition logged_to (st : ChunkStore.t) (base : Z) (x : Chunk.t) : ChunkStore.t * list ChunkStoreDiff :=
  match StoreWrites.insert_chunk st (draws base) x with
  | Done (st', Ok diffs) => (st', diffs)
  | _ => (st, [])
  end.

Lemma logged_run st base x :
  match StoreWrites.insert_chunk st (draws base) x with Done (_, Ok _) => true | _ => false end = true ->
  StoreWrites.insert_chunk st (draws base) x = Done (fst (logged_to st base x), Ok (snd (logged_to st base x))).
Proof. unfold logged_to. by destruct (StoreWrites.insert_chunk st (draws base) x) as [[st' [diffs|]]|]. Qed.

Definition store0 : ChunkStore.t := ChunkStore.new splitting_config.
Definition store1 : ChunkStore.t := fst (logged_to store0 100 ex_chunk).
Definition store2 : ChunkStore.t := fst (logged_to store1 2000 ex_later).

Lemma store1_run : StoreWrites.insert_chunk store0 (draws 100) ex_chunk = Done (store1, Ok (snd (logged_to store0 100 ex_chunk))).
Proof. apply logged_run. vm_compute. reflexivity. Qed.
Lemma store2_run : StoreWrites.insert_chunk store1 (draws 2000) ex_later = Done (store2, Ok (snd (logged_to store1 2000 ex_later))).
Proof. apply logged_run. vm_compute. reflexivity. Qed.

(** The first chunk was split. *)
Lemma store1_split : size (ChunkStore.physical_chunks_per_chunk_id store1) = 2%nat.
Proof. vm_compute. reflexivity. Qed.

Lemma not_compacted st x : forallb (fun '(_, c) => negb (ChunkMerge.concatenable x c))
    (map_to_list (ChunkStore.physical_chunks_per_chunk_id st)) = true -> compacts st x.
Proof.
  rewrite forallb_forall. intros Hall id c Hc%elem_of_map_to_list%list_elem_of_In%Hall Hcat. by rewrite Hcat in Hc.
Qed.

Lemma ex_chunk_new : new_chunk store0 ex_chunk.
Proof.
  split; [exact ex_chunk_storable|apply (bool_decide_eq_false _); vm_compute; reflexivity| |apply not_compacted; vm_compute; reflexivity|vm_compute; reflexivity].
  apply (unheard_above 1); [vm_compute; reflexivity|vm_compute; discriminate].
Qed.
Lemma ex_later_new : new_chunk store1 ex_later.
Proof.
  split; [exact ex_later_storable|apply (bool_decide_eq_false _); vm_compute; reflexivity| |apply not_compacted; vm_compute; reflexivity|vm_compute; reflexivity].
  split.
  - vm_compute. reflexivity.
  - intros i l Hi.
    assert (forallb (fun '(_, l) => forallb (fun id => negb (bool_decide (id = Chunk.id ex_later)))
      (Lineage.iter_referenced_chunks (lineage l) ++ siblings_of (lineage l))) (map_to_list (chunks_lineage (ChunkStore.lineages store1))) = true)
      as Hall by (vm_compute; reflexivity).
    rewrite forallb_forall in Hall. specialize (Hall _ (proj1 (list_elem_of_In _ _) (proj2 (elem_of_map_to_list _ _ _) Hi))).
    simpl in Hall. rewrite forallb_app, andb_true_iff, !forallb_forall in Hall. destruct Hall as [Hr Hs].
    split; intros Hin%list_elem_of_In; [apply Hr in Hin|apply Hs in Hin]; by rewrite bool_decide_true in Hin.
  - intros path per_component component Hp. exfalso.
    replace (ChunkStore.static_chunk_ids_per_entity store1) with (∅ : gmap EntityPath (gmap string ChunkId.t)) in Hp
      by (vm_compute; reflexivity). by rewrite lookup_empty in Hp.
Qed.

Lemma draws_new_base base st x : 0 <= base <= 10000 -> bool_decide (Chunk.num_rows x <= 9)%nat = true ->
  (0 <=? num (Chunk.id x)) && (num (Chunk.id x) <? base) = true -> bool_decide (Chunk.id x = id_of (num (Chunk.id x))) = true ->
  mentions_below base st = true -> draws_new st x (draws base).
Proof.
  intros Hb Hn%bool_decide_eq_true Hx Hid%bool_decide_eq_true Hm. split; [apply distinct_draws_base; [lia|done|lia|done]|].
  intros d Hw. apply (unheard_above base); [done|]. pose proof (draw_bounds base x d Hb Hn Hw).
  unfold draws. rewrite num_id_of; lia.
Qed.

Lemma ex_draws1 : draws_new store0 ex_chunk (draws 100).
Proof. apply draws_new_base; [lia|vm_compute; reflexivity..]. Qed.
Lemma ex_draws2 : draws_new store1 ex_later (draws 2000).
Proof. apply draws_new_base; [lia|vm_compute; reflexivity..]. Qed.

Lemma ex_journal : journal splitting_config [ex_later; ex_chunk] store2.
Proof.
  apply (journal_insert _ [ex_chunk] store1 ex_later (draws 2000) store2 (snd (logged_to store1 2000 ex_later)));
    [|exact ex_later_new|exact ex_draws2|exact store2_run].
  exact (journal_insert _ [] store0 ex_chunk (draws 100) store1 (snd (logged_to store0 100 ex_chunk))
    (journal_nothing _) ex_chunk_new ex_draws1 store1_run).
Qed.

(** ** Querying what was logged *)

#[local] Instance eligible_dec timeline component a s : Decision (eligible timeline component a s).
Proof. unfold eligible. apply _. Defined.

Lemma journal_spec_witness :
  exists cs, store_ok store2 cs [] /\ forall path, temporal_rows path store2 ≡ₚ [ex_later; ex_chunk] ≫= new_rows path.
Proof.
  destruct (journal_spec lenient splitting_config [ex_later; ex_chunk] store2 ex_journal) as (cs & Hok & _ & Hrows).
  exists cs. split; [exact Hok|exact Hrows].
Defined.

(** The latest position at frame 25 is found. *)
Lemma journal_latest_at_spec_witness :
  exists results st' c u r, ChunkStore.latest_at_relevant_chunks store2 Report
      (LatestAtQuery.Mk (Some "frame") (TimeInt.new_temporal 25)) ["a"] "pos" = Done (results, st')
    /\ c ∈ ChunkStore.chunks results
    /\ ChunkQuery.latest_at new_id c (LatestAtQuery.Mk (Some "frame") (TimeInt.new_temporal 25)) "pos" = Done (Some u)
    /\ rows (UnitChunk.chunk u) = [r] /\ has_cell "pos" r.
Proof.
  destruct (journal_latest_at_spec lenient splitting_config [ex_later; ex_chunk] store2 Report ["a"] "frame" "pos"
    (TimeInt.new_temporal 25) new_id ex_journal) as (results & st' & Hrun & _ & Hres).
  - vm_compute. reflexivity.
  - intros E. discriminate (f_equal TimeInt.as_i64 E).
  - vm_compute. discriminate.
  - destruct Hres as [Hnone|(c & u & r & Hc & Hq & Hu & _ & (_ & Hcell & _) & _)].
    + exfalso.
      assert (existsb (fun s => bool_decide (eligible "frame" "pos" (TimeInt.as_i64 (TimeInt.new_temporal 25)) s))
        (journal_rows ["a"] [ex_later; ex_chunk]) = true) as He by (vm_compute; reflexivity).
      apply existsb_exists in He as (s & Hs%list_elem_of_In & He%bool_decide_eq_true). exact (Hnone s Hs He).
    + exists results, st', c, u, r. split_and!; assumption.
Defined.

Lemma sturdy_by_check st :
  forallb (fun '(_, c) => (Chunk.heap_size_bytes c =? 0) || (Chunk.heap_size_bytes c =? 100))
    (map_to_list (ChunkStore.physical_chunks_per_chunk_id st)) = true -> sturdy_store st.
Proof.
  rewrite forallb_forall. intros Hall id c Hc%elem_of_map_to_list%list_elem_of_In.
  exact (ex_sturdy c (Hall _ Hc)).
Qed.

Lemma store2_sturdy : sturdy_store store2.
Proof. apply sturdy_by_check. vm_compute. reflexivity. Qed.

Definition ex_range : RangeQuery.t :=
  RangeQuery.new "frame" (AbsoluteTimeRange.new (Ok (TimeInt.new_temporal 5)) (Ok (TimeInt.new_temporal 25))).

Lemma journal_range_spec_witness :
  exists results st' answered, ChunkStore.range_relevant_chunks store2 Report ex_range ["a"] "pos" = Done (results, st')
    /\ answered ≫= rows ≡ₚ project ex_range "pos" <$> filter (queried ex_range "pos") (journal_rows ["a"] [ex_later; ex_chunk]).
Proof.
  destruct (journal_range_spec lenient splitting_config [ex_later; ex_chunk] store2 Report ["a"] ex_range "pos" (fun id _ => id)
    ex_journal store2_sturdy) as (results & st' & answered & Hrun & _ & _ & _ & Hrows).
  - vm_compute. reflexivity.
  - vm_compute. discriminate.
  - reflexivity.
  - vm_compute. discriminate.
  - exists results, st', answered. split; [exact Hrun|exact Hrows].
Defined.

Lemma journal_next_prev_spec_witness :
  match ChunkStore.next_time_on_timeline store2 "frame" (TimeInt.new_temporal 10) with
  | Some n => logged_time "frame" [ex_later; ex_chunk] (TimeInt.as_i64 n)
  | None => False
  end.
Proof.
  assert (bool_decide (is_Some (ChunkStore.next_time_on_timeline store2 "frame" (TimeInt.new_temporal 10))) = true) as E
    by (vm_compute; reflexivity).
  destruct (journal_next_prev_spec lenient splitting_config [ex_later; ex_chunk] store2 "frame" (TimeInt.new_temporal 10) ex_journal)
    as [Hn _].
  revert Hn E. generalize (ChunkStore.next_time_on_timeline store2 "frame" (TimeInt.new_temporal 10)).
  intros [n|] Hn E; [exact (proj1 Hn)|discriminate E].
Defined.

Lemma ex_reached : reachable splitting_config store2.
Proof.
  eapply rtc_l; [exact (Insert store0 ex_chunk _ _ _ ex_chunk_new ex_draws1 store1_run)|].
  eapply rtc_l; [exact (Insert store1 ex_later _ _ _ ex_later_new ex_draws2 store2_run)|]. reflexivity.
Qed.

Lemma reachable_spec_witness : exists cs, store_ok store2 cs [].
Proof. destruct (reachable_spec lenient splitting_config store2 ex_reached) as (cs & Hok & _). exists cs. exact Hok. Defined.

(** ** Insertions *)

Lemma insert_chunk_spec_witness :
  exists cs', store_ok store1 cs' [] /\ forall path, temporal_rows path store1 ≡ₚ new_rows path ex_chunk ++ temporal_rows path store0.
Proof.
  pose proof (insert_chunk_spec (draws 100) lenient store0 [] ex_chunk (new_store_ok _) (map_Forall_empty _)
    (new_insertable store0 [] ex_chunk (new_store_ok _) ex_chunk_new)
    (fun d Hw => unheard_fresh store0 [] _ (new_store_ok _) (proj2 ex_draws1 d Hw)) (proj1 ex_draws1)) as Hs.
  rewrite store1_run in Hs. destruct Hs as (cs' & diffs & _ & Hok & _ & _ & Hrows & _).
  exists cs'. split; [exact Hok|exact Hrows].
Defined.

Lemma insert_chunk_refused_spec_witness :
  StoreWrites.insert_chunk store0 (draws 100) ex_unsorted = Done (store0, Err UnsortedChunk).
Proof.
  apply (proj2 (insert_chunk_refused_spec (draws 100) store0 ex_unsorted)); [vm_compute; reflexivity..| |vm_compute; reflexivity|vm_compute; reflexivity].
  apply (bool_decide_eq_false _). vm_compute. reflexivity.
Defined.

Lemma split_recursively_spec_witness :
  exists pieces, StoreWrites.split_recursively store0 (draws 100) ex_chunk = Done pieces
    /\ mjoin (rows <$> pieces) = rows ex_chunk.
Proof.
  destruct (split_recursively_spec (draws 100) store0 ex_chunk ex_chunk_wf ltac:(vm_compute; discriminate) (proj1 ex_draws1)
    (fun d _ => lookup_empty _) eq_refl) as (pieces & Hrun & Hrows & _).
  exists pieces. split; [exact Hrun|exact Hrows].
Defined.

(** ** Collections *)

Lemma store2_ok : exists cs, store_ok store2 cs [] /\ indexes store2 cs.
Proof.
  destruct (journal_ok lenient splitting_config [ex_later; ex_chunk] store2 ex_journal) as (cs & Hok & _ & Hphys & _).
  exists cs. split; [exact Hok|]. split; [apply Hok|exact Hphys].
Qed.

Lemma find_temporal_chunks_furthest_from_spec_witness :
  StoreGc.find_temporal_chunks_furthest_from store2 "frame" (TimeInt.new_temporal 10)
    = StoreGc.find_temporal_chunks_furthest_from_slow store2 "frame" (TimeInt.new_temporal 10).
Proof.
  apply find_temporal_chunks_furthest_from_spec.
  destruct (reachable_ok lenient splitting_config store2 ex_reached) as (_ & _ & Hwf).
  eapply map_Forall_impl; [exact Hwf|]. intros id c (? & ? & _). assumption.
Defined.

Definition never (n : nat) : bool := false.

Lemma store2_bounds options : fraction_ok (target options) = true -> gc_bounds store2 options.
Proof. intros Hf. unfold gc_bounds, sums_fit, all_stats, is_u64. rewrite Hf. vm_compute. intuition discriminate. Qed.

Lemma gc_spec_witness :
  exists st' cs' dels freed, StoreGc.gc store2 gc_everything never never = Done (st', dels, freed) /\ store_ok st' cs' [].
Proof.
  destruct store2_ok as (cs & Hok & _).
  destruct (gc_spec store2 cs gc_everything never never Hok (store2_bounds gc_everything eq_refl)) as (st' & cs' & dels & Hrun & Hok' & _).
  exists st', cs', dels. eexists. split; [exact Hrun|exact Hok'].
Defined.

Lemma gc_everything_spec_witness :
  exists st' dels freed, StoreGc.gc store2 gc_everything never never = Done (st', dels, freed)
    /\ forall id c, ChunkStore.physical_chunks_per_chunk_id st' !! id = Some c -> Chunk.is_static c = true.
Proof.
  destruct store2_ok as (cs & Hok & _).
  exact (gc_everything_spec store2 cs never Hok (store2_bounds gc_everything eq_refl) (fun _ => eq_refl)).
Defined.

Lemma gc_find_candidates_spec_witness :
  exists marked, StoreGc.gc_find_candidates store2 gc_everything 150 never = Done marked
    /\ forall c, c ∈ marked -> collectable store2 c.
Proof.
  destruct store2_ok as (cs & Hok & _).
  destruct (gc_find_candidates_spec store2 cs gc_everything 150 never Hok ltac:(vm_compute; discriminate)) as (marked & Hrun & Hm & _).
  exists marked. split; [exact Hrun|]. intros c Hc. exact (proj1 (Hm c Hc)).
Defined.

Lemma remove_chunks_deep_spec_witness :
  exists (c : Chunk.t) (cs : list Chunk.t) st' cs' dels, c ∈ cs /\ StoreGc.remove_chunks_deep store2 [c] ExplicitDrop = Done (st', dels) /\ store_ok st' cs' []
    /\ c ∉ cs'.
Proof.
  destruct store2_ok as (cs & Hok & Hix). destruct cs as [|c cs].
  - exfalso. destruct Hok. assert (exists id c, ChunkStore.physical_chunks_per_chunk_id store2 !! id = Some c
      /\ Chunk.is_static c = false) as (id & c & Hc & Hs).
    { exists (Chunk.id ex_later), (default ex_later (ChunkStore.physical_chunks_per_chunk_id store2 !! Chunk.id ex_later)).
      assert (bool_decide (is_Some (ChunkStore.physical_chunks_per_chunk_id store2 !! Chunk.id ex_later)) = true) as Hb
        by (vm_compute; reflexivity). apply bool_decide_eq_true in Hb as [c Hc].
      assert (from_option Chunk.is_static true (ChunkStore.physical_chunks_per_chunk_id store2 !! Chunk.id ex_later) = false) as Hs
        by (vm_compute; reflexivity). rewrite Hc in Hs |- *. split; [reflexivity|exact Hs]. }
    exact (not_elem_of_nil c (ok_temporal id c Hc Hs)).
  - destruct (remove_chunks_deep_spec store2 (c :: cs) [c] ExplicitDrop Hok) as (st' & cs' & dels & Hrun & Hok' & _ & _ & Hcs & _).
    + intros c' Hc'. apply list_elem_of_singleton in Hc' as ->. left.
    + exists c, (c :: cs), st', cs', dels. split_and!; [left|exact Hrun|exact Hok'|].
      intros Hin. apply (proj2 (proj1 (Hcs c) Hin)). left.
Defined.

(** ** Lineage *)

Notation lineage1 := (chunks_lineage (ChunkStore.lineages store1)).
Definition piece1 : ChunkId.t := draws 100 (SplitDraw 0 0 0).

Lemma store1_lineages : lineages_ok (dom (ChunkStore.physical_chunks_per_chunk_id store1)) lineage1.
Proof.
  assert (journal splitting_config [ex_chunk] store1) as Hj
    by exact (journal_insert _ [] store0 ex_chunk (draws 100) store1 (snd (logged_to store0 100 ex_chunk))
         (journal_nothing _) ex_chunk_new ex_draws1 store1_run).
  destruct (journal_ok lenient _ _ _ Hj) as (cs & Hok & _). apply Hok.
Qed.

Lemma piece1_physical : piece1 ∈ dom (ChunkStore.physical_chunks_per_chunk_id store1).
Proof. apply (bool_decide_eq_true _). vm_compute. reflexivity. Qed.

Lemma drop_lineage_reference_spec_witness :
  exists ctx', Lineage.drop_lineage_reference (ChunkStore.lineages store1) piece1 = Some ctx'
    /\ counted (dom (ChunkStore.physical_chunks_per_chunk_id store1) ∖ {[piece1]}) (chunks_lineage ctx') [].
Proof.
  destruct (drop_lineage_reference_spec (dom (ChunkStore.physical_chunks_per_chunk_id store1) ∖ {[piece1]})
    (ChunkStore.lineages store1) piece1) as (ctx' & Hrun & Hc & _).
  - apply counted_leave; [exact piece1_physical|apply store1_lineages].
  - apply store1_lineages.
  - eapply ok_tidy, store1_lineages.
  - exists ctx'. split; [exact Hrun|exact Hc].
Defined.

Lemma insert_lineage_if_missing_spec_witness :
  exists m', Lineage.insert_lineage_if_missing lineage1 (id_of 5) Volatile = Done m'
    /\ counted (dom (ChunkStore.physical_chunks_per_chunk_id store1)) m' [].
Proof.
  destruct store1_lineages as [Hc Hf _ Hfl Hk _]. pose proof (new_unheard _ _ ex_later_new) as [Hl Hr _].
  destruct (insert_lineage_if_missing_spec (dom (ChunkStore.physical_chunks_per_chunk_id store1)) lineage1 (id_of 5) Volatile
    Hc Hfl Hf) as [_ Hins].
  destruct Hins as (m' & Hrun & Hc' & _).
  - split_and!; [exact Hl| |intros i l Hi; exact (proj1 (Hr i l Hi))].
    apply (bool_decide_eq_false _). vm_compute. reflexivity.
  - apply not_elem_of_nil.
  - split; [apply not_elem_of_nil|]. intros s ls Hs [Hin|Hin]; [exact (False_ind _ (not_elem_of_nil s Hin))|].
    exact (False_ind _ (proj2 (Hr s ls Hs) Hin)).
  - intros i l Hi. pose proof (count_bound _ lineage1 i l Hc Hi) as Hb.
    replace (Lineage.total Lineage.num_references lineage1) with 2%nat in Hb by (vm_compute; reflexivity). simpl. lia.
  - vm_compute. reflexivity.
  - exists m'. split; [exact Hrun|exact Hc'].
Defined.

(** The pieces come after the chunk that was split. *)
Definition rank1 (id : ChunkId.t) : nat := if decide (id = Chunk.id ex_chunk) then 0 else 1.

Lemma lineage1_ranked : ranked lineage1 rank1.
Proof.
  assert (forallb (fun '(id, l) => forallb (fun p => Nat.ltb (rank1 p) (rank1 id)) (Lineage.iter_referenced_chunks (lineage l)))
    (map_to_list lineage1) = true) as Hall by (vm_compute; reflexivity).
  intros id l p Hl Hp. rewrite forallb_forall in Hall.
  specialize (Hall _ (proj1 (list_elem_of_In _ _) (proj2 (elem_of_map_to_list _ _ _) Hl))). simpl in Hall.
  rewrite forallb_forall in Hall. apply list_elem_of_In in Hp. specialize (Hall p Hp). by apply Nat.ltb_lt in Hall.
Qed.

Lemma find_roots_spec_witness : Lineage.find_root_chunks lineage1 piece1 = Some [Chunk.id ex_chunk]
  /\ ancestor lineage1 piece1 (Chunk.id ex_chunk).
Proof.
  destruct (find_roots_spec lineage1 rank1 piece1 lineage1_ranked) as (roots & mroots & Hrun & _ & Hin & _); [apply store1_lineages|].
  assert (Lineage.find_root_chunks lineage1 piece1 = Some [Chunk.id ex_chunk]) as E by (vm_compute; reflexivity).
  split; [exact E|]. rewrite E in Hrun. injection Hrun as <-. exact (proj1 (proj1 (Hin _) ltac:(left))).
Defined.

Definition unmixed_check (m : gmap ChunkId.t TrackedDirectChunkLineage) : bool :=
  forallb (fun '(_, l) => forallb (fun p => match lineage l, lineage <$> m !! p with
    | CompactedFrom _, Some (SplitFrom _ _) | SplitFrom _ _, Some (CompactedFrom _) | SplitFrom _ _, Some (SplitFrom _ _) => false
    | _, _ => true end) (Lineage.iter_referenced_chunks (lineage l))) (map_to_list m).

Lemma unmixed_by_check m : unmixed_check m = true -> unmixed m.
Proof.
  intros Hall. unfold unmixed_check in Hall.
  intros id l p lp Hl Hp Hlp. rewrite forallb_forall in Hall.
  specialize (Hall _ (proj1 (list_elem_of_In _ _) (proj2 (elem_of_map_to_list _ _ _) Hl))). simpl in Hall.
  rewrite forallb_forall in Hall. apply list_elem_of_In in Hp. specialize (Hall p Hp). rewrite Hlp in Hall. simpl in Hall.
  by destruct (lineage l), (lineage lp).
Qed.

Lemma lineage1_unmixed : unmixed lineage1.
Proof. apply unmixed_by_check. vm_compute. reflexivity. Qed.

Lemma descends_from_spec_witness : Lineage.descends_from_a_split lineage1 piece1 = Some (Done true).
Proof.
  rewrite (proj1 (descends_from_spec lineage1 rank1 piece1 lineage1_ranked lineage1_unmixed)). vm_compute. reflexivity.
Defined.
