(* ===== verification/QueryCacheExamples.v ===== *)
(** * Queries through the caches of the logged chunks

    The two chunks of [StoreExamples] with caches that hear of them: a query fills a cache, and
    the theorems on the caches hold of the state after it. *)

From stdpp Require Import strings relations.
From S2P Require Import Prelude Ints TimeInt TimeRange Tuid Arrow ArrowRef Column Chunk ChunkSlice.
From S2P Require Import ChunkSort ChunkMerge ChunkQuery ChunkIndex Lineage StoreStats ChunkStore StoreGc StoreWrites.
From S2P Require Import StoreFrame StoreInvariant StoreGcSpec StoreInsertion StoreStatic StoreSplits StoreJournal.
From S2P Require Import StoreQueries QueryCache QueryCacheSpec RangeCacheSpec QueryCacheJournal QueryCacheAnswers Examples StoreExamples.

(** No array is that of a clear, and the caches are of no size. *)
#[local] Instance no_clears : ClearCodec := fun _ => None.
#[local] Instance no_size : QueryCache.TotalSize := fun _ => 0.

(** ** The states *)

Definition told (self : QueryCache.t) (diffs : list ChunkStoreDiff) : QueryCache.t :=
  match QueryCache.on_events self (physical_events (QueryCache.store_id self) diffs) with
  | Done self' => self'
  | Panic => self
  end.

Lemma told_run self diffs :
  QueryCache.on_events self (physical_events (QueryCache.store_id self) diffs) = Done (told self diffs).
Proof.
  destruct (proj1 (on_events_takes self (physical_events (QueryCache.store_id self) diffs))) as [self' E];
    [|unfold told; by rewrite E].
  apply Forall_forall. by intros e (d & -> & _)%list_elem_of_fmap.
Qed.

Definition caches0 : QueryCache.t := QueryCache.new "recording".
Definition caches1 : QueryCache.t := told caches0 (snd (logged_to store0 100 ex_chunk)).
Definition caches2 : QueryCache.t := told caches1 (snd (logged_to store1 2000 ex_later)).

Definition ex_fresh (key : QueryCacheKey) (i : nat) : ChunkId.t := id_of (5000 + Z.of_nat i).
Definition ex_query (at_ : Z) : LatestAtQuery.t := LatestAtQuery.Mk (Some "frame"%string) (TimeInt.new_temporal at_).
Definition ex_latest_at (at_ : Z) (self : QueryCache.t) (st : ChunkStore.t)
    : outcome (QueryCache.t * ChunkStore.t * LatestAtResults.t) :=
  QueryCache.latest_at ex_fresh self st Report (ex_query at_) ["a"] ["pos"].

(** A query at frame 25 fills the cache. *)
Definition queried3 : ChunkStore.t * QueryCache.t :=
  match ex_latest_at 25 caches2 store2 with
  | Done (self, st, _) => (st, self)
  | Panic => (store2, caches2)
  end.
Definition store3 : ChunkStore.t := fst queried3.
Definition caches3 : QueryCache.t := snd queried3.

Lemma query3_run : match ex_latest_at 25 caches2 store2 with Done _ => true | Panic => false end = true ->
  exists results, ex_latest_at 25 caches2 store2 = Done (caches3, store3, results).
Proof. unfold caches3, store3, queried3. destruct (ex_latest_at 25 caches2 store2) as [[[self st] results]|]; [by exists results|done]. Qed.

Lemma query3_step : exists results, QueryCache.latest_at ex_fresh caches2 store2 Report (ex_query 25) ["a"] ["pos"] = Done (caches3, store3, results).
Proof. apply query3_run. vm_compute. reflexivity. Qed.

Lemma caches3_filled : (fun cache => size (LatestAtCache.per_query_time cache))
    <$> QueryCache.latest_at_per_cache_key caches3 !! Key ["a"] (Some "frame") "pos" = Some 2%nat.
Proof. vm_compute. reflexivity. Qed.

(** *** They can be queried *)

Lemma store3_sturdy : sturdy_store store3.
Proof. apply sturdy_by_check. vm_compute. reflexivity. Qed.

Definition short_check st path component : bool :=
  from_option ChunkIdSetPerTime.max_interval_length 0 (ChunkStore.component_index st path (Some "frame"%string) component) <=? i64_max.

Lemma short_by_check st : short_check st ["a"] "pos" && short_check st ["a"] clear_component && short_check st [] clear_component = true ->
  short_query st (Some "frame"%string) ["a"] ["pos"].
Proof.
  unfold short_check. rewrite !andb_true_iff, !Z.leb_le. intros [[H1 H2] H3].
  split; repeat constructor; intros name [= <-]; assumption.
Qed.

Lemma short2 : short_query store2 (Some "frame"%string) ["a"] ["pos"].
Proof. apply short_by_check. vm_compute. reflexivity. Qed.
Lemma short3 : short_query store3 (Some "frame"%string) ["a"] ["pos"].
Proof. apply short_by_check. vm_compute. reflexivity. Qed.

Lemma ex_cached : cached_reachable false splitting_config "recording" store3 caches3.
Proof.
  destruct query3_step as [results Hq].
  eapply rtc_l; [exact (CachedInsert false store0 caches0 ex_chunk _ _ _ caches1 ex_chunk_new ex_draws1 store1_run (told_run caches0 _))|].
  eapply rtc_l; [exact (CachedInsert false store1 caches1 ex_later _ _ _ caches2 ex_later_new ex_draws2 store2_run (told_run caches1 _))|].
  eapply rtc_l; [exact (CachedQuery false store2 caches2 store3 caches3 store2_sturdy (LatestAtStep store2 caches2 ex_fresh Report
    (ex_query 25) ["a"] ["pos"] store3 caches3 results short2 Hq))|].
  reflexivity.
Qed.

Lemma no_static3 path component : ChunkStore.static_chunk_id store3 path component = None.
Proof.
  unfold ChunkStore.static_chunk_id.
  replace (ChunkStore.static_chunk_ids_per_entity store3) with (∅ : gmap EntityPath (gmap string ChunkId.t)) by (vm_compute; reflexivity).
  by rewrite lookup_empty.
Qed.

(** ** The theorems *)

(** A second query, at frame 22, is answered right. *)
Lemma cached_latest_at_spec_witness :
  exists self' st' results, ex_latest_at 22 caches3 store3 = Done (self', st', results)
    /\ match LatestAtResults.components results !! "pos"%string with
       | Some u => exists r, rows (UnitChunk.chunk u) = [r] /\ best store3 ["a"] "frame" "pos" 22 r
       | None => False
       end.
Proof.
  destruct (cached_latest_at_spec lenient splitting_config "recording" store3 caches3 ex_fresh Report ["a"] "frame"
    (TimeInt.new_temporal 22) ["pos"] ex_cached store3_sturdy short3) as (self' & st' & results & cl & Hrun & _ & _ & _ & Hans).
  - apply Forall_singleton, no_static3.
  - intros e _. apply no_static3.
  - specialize (Hans "pos"%string ltac:(left)). exists self', st', results. split; [exact Hrun|].
    assert (match ex_latest_at 22 caches3 store3 with
      | Done (_, _, results) => bool_decide (is_Some (LatestAtResults.components results !! "pos"%string))
      | Panic => false
      end = true) as E by (vm_compute; reflexivity).
    unfold ex_latest_at, ex_query in E. rewrite Hrun in E. revert Hans E. cbv zeta.
    destruct (LatestAtResults.components results !! "pos"%string) as [u|]; [|intros _ E; discriminate E].
    intros (r & Hu & Hb & _) _. exists r. split; [exact Hu|exact Hb].
Defined.

Lemma cached_range_spec_witness :
  exists self' st' results, QueryCache.range (fun _ _ _ => id_of 5000) caches3 store3 Report ex_range ["a"] ["pos"] = Done (self', st', results)
    /\ default [] (RangeResults.components results !! "pos"%string) ≫= rows
         ≡ₚ project ex_range "pos" <$> filter (queried ex_range "pos") (temporal_rows ["a"] store3).
Proof.
  destruct (cached_range_spec lenient false splitting_config "recording" store3 caches3 (fun _ _ _ => id_of 5000) Report ["a"] ex_range ["pos"]
    ex_cached store3_sturdy) as (self' & st' & results & Hrun & _ & Hans).
  - repeat constructor. exact (Forall_inv (proj1 short3) "frame"%string eq_refl).
  - vm_compute. discriminate.
  - reflexivity.
  - apply Forall_singleton, no_static3.
  - exists self', st', results. split; [exact Hrun|]. exact (proj1 (Hans "pos"%string ltac:(left))).
Defined.

Definition ex_key : QueryCacheKey := Key ["a"] (Some "frame"%string) "pos"%string.
Definition ex_events : list ChunkStoreEvent := physical_events "recording" (snd (logged_to store1 2000 ex_later)).

Definition tells (notices : list Notice) (key : QueryCacheKey) (time : Z) : bool :=
  existsb (fun notice => match notice with
                         | LatestAtNotice key' time' => bool_decide (key' = key) && (TimeInt.as_i64 time' <=? time)
                         | _ => false
                         end) notices.

Lemma tells_notice notices key time : tells notices key time = true ->
  exists time', LatestAtNotice key time' ∈ notices /\ TimeInt.as_i64 time' <= time.
Proof.
  unfold tells. intros ([|key' time'|] & Hin & Hn)%existsb_exists; try done.
  apply andb_true_iff in Hn as [->%bool_decide_eq_true Hle%Z.leb_le]. exists time'. by split; [apply list_elem_of_In|].
Qed.

Lemma caches3_has : is_Some (QueryCache.latest_at_per_cache_key caches3 !! ex_key).
Proof. apply (bool_decide_unpack (is_Some _)). vm_compute. exact I. Qed.

Lemma ex_events_tell : tells (notices_of ex_events) ex_key 20 = true.
Proof. vm_compute. reflexivity. Qed.

(** The events of the second chunk, told to the caches that a query has filled: the cache of the
    positions has to drop what is at or after a time that is at most 20. *)
Lemma on_events_spec_witness :
  exists self' cache p, QueryCache.on_events caches3 ex_events = Done self'
    /\ QueryCache.latest_at_per_cache_key self' !! ex_key = Some cache
    /\ p ∈ LatestAtCache.pending_invalidations cache /\ TimeInt.as_i64 p <= 20.
Proof.
  destruct (on_events_spec caches3 ex_events) as [Htakes Hevents].
  destruct (proj1 Htakes) as [self' Hrun]; [apply Forall_forall; by intros e (d & -> & _)%list_elem_of_fmap|].
  destruct (Hevents self' Hrun) as (Hgrown & Hlatest & _). pose proof (grown_latest _ _ Hgrown ex_key) as Hf.
  destruct caches3_has as [cache Hc].
  rewrite Hc in Hf. destruct (QueryCache.latest_at_per_cache_key self' !! ex_key) as [cache'|] eqn:E; [|inversion Hf].
  destruct (tells_notice _ _ _ ex_events_tell) as (time & Hn & Ht). destruct (Hlatest _ _ _ Hn E) as (p & Hp & Hle).
  exists self', cache', p. split; [exact Hrun|]. split; [exact E|]. split; [exact Hp|]. lia.
Defined.
