(* ===== verification/BatcherExamples.v ===== *)
(** * Rows on their way to a chunk

    Built chunks, a batch of rows and a run of the batcher, over the reference arrays, with the theorems on
    batching applied to them. *)

From stdpp Require Import strings.
From S2P Require Import Prelude Ints TimeInt TimeRange Tuid Arrow ArrowRef Column Chunk.
From S2P Require Import PendingRow PendingRowSpec ChunkBuilder Batcher BatcherSpec Examples.

(** All arrays have the one data type, the hashes do not collide, maps keep the order of insertion,
    and a row is as large as its arrays. *)
#[export] Instance ref_data_types : @DataTypes ref_ops := fun _ => 0%nat.
#[export] Instance ref_data_types_laws : DataTypesLaws.
Proof. done. Qed.
#[export] Instance ref_hashes : @BatchHashes ref_ops :=
  { timeline_set_hash l := Z.pos (encode l); datatype_set_hash l := Z.pos (encode (l : list nat)) }.
#[export] Instance ref_int_map : IntMapOrder := fun l => l.
#[export] Instance ref_int_map_laws : IntMapOrderLaws := fun l => reflexivity l.
#[export] Instance ref_row_size : @RowSize ref_ops := fun row =>
  foldr (fun '(_, batch) n => Z.of_nat (length (array batch : list Z)) + n) 16 (PendingRow.components row).

Lemma ref_compatible batch : compatible batch.
Proof.
  apply compatible_intro; [..|done].
  - intros l l' [= E]. by apply encode_inj in E.
  - intros l l' [= E]. by apply encode_inj in E.
Qed.

(** ** A batch *)

Definition ex_row (row_id : Z) (times : list (string * Z)) (cells : list (string * list Z)) : PendingRow.t :=
  PendingRow.from_iter (RowId.from_u128 row_id)
    (list_to_map ((fun '(k, z) => (k, TimeCell.from_sequence (NonMinI64.new z))) <$> times))
    ((fun '(k, a) => Batch (a : @Array ref_ops) (descriptor_of k)) <$> cells).

(** Logged out of order, on different timelines, and with different components. *)
Definition ex_batch : list PendingRow.t :=
  [ ex_row 5 [("frame", 1)] [("pos", [1; 2])];
    ex_row 3 [("frame", 0)] [("pos", [3])];
    ex_row 4 [("frame", 2); ("log", 7)] [("pos", [4]); ("color", [5])];
    ex_row 6 [] [("pos", [6])];
    ex_row 7 [("frame", 3)] [] ].

Lemma ex_row_ok row_id times cells : row_ok (ex_row row_id times cells).
Proof. apply from_iter_ok. Qed.

Lemma ex_batch_ok : Forall row_ok ex_batch.
Proof. repeat (constructor; [apply ex_row_ok|]). constructor. Qed.

Definition ex_many (chunk_max_rows_if_unsorted : Z) (batch : list PendingRow.t) : list (option (list Z)) :=
  match PendingRow.many_into_chunks (fun _ _ _ => new_id) ["a"] chunk_max_rows_if_unsorted batch with
  | Done results =>
      (fun r => match r with Ok c => Some (Tuid.as_u128 ∘ RowId.as_tuid <$> Chunk.row_ids c) | Err _ => None end) <$> results
  | Panic => []
  end.

Example ex_batch_chunks : ex_many 8 ex_batch = [Some [4]; Some [3; 5]; Some [7]; Some [6]].
Proof. vm_compute. reflexivity. Qed.

(** A chunk with more rows than allowed where unsorted, of which the last is out of order. *)
Example ex_one_too_many :
  ex_many 2 [ex_row 1 [("frame", 1)] [("pos", [1])]; ex_row 2 [("frame", 2)] [("pos", [1])]; ex_row 3 [("frame", 3)] [("pos", [1])];
    ex_row 4 [("frame", 0)] [("pos", [1])]; ex_row 5 [("frame", 4)] [("pos", [1])]] = [Some [1; 2; 3; 4]; Some [5]].
Proof. vm_compute. reflexivity. Qed.

Lemma many_into_chunks_spec_witness :
  exists chunks, PendingRow.many_into_chunks (fun _ _ _ => new_id) ["a"] 8 ex_batch = Done (Ok <$> chunks)
    /\ (chunks ≫= rows) ≡ₚ row_of <$> ex_batch /\ Forall (batched ["a"] 8) chunks.
Proof. exact (many_into_chunks_spec (fun _ _ _ => new_id) ["a"] 8 ex_batch lenient ex_batch_ok (ref_compatible ex_batch)). Defined.

(** ** A chunk built row by row *)

Definition ex_sparse (row_id : Z) (times : list (string * Z)) (cells : list (string * option (list Z))) : SparseRow :=
  Sparse (RowId.from_u128 row_id)
    (list_to_map ((fun '(k, z) => (k, TimeCell.from_sequence (NonMinI64.new z))) <$> times))
    ((fun '(k, a) => (descriptor_of k, a : option (@Array ref_ops))) <$> cells).

Definition ex_sparse_rows : list SparseRow :=
  [ ex_sparse 2 [("frame", 5)] [("pos", Some [1; 2]); ("color", None)];
    ex_sparse 1 [("frame", 4)] [("label", Some [3])];
    ex_sparse 3 [("frame", 6)] [("label", None); ("pos", Some [])] ].

Lemma ex_described : described ex_sparse_rows.
Proof.
  assert (forall r desc, r ∈ ex_sparse_rows -> desc ∈ (sparse_components r).*1 -> desc = descriptor_of (cd_component desc)) as Hd.
  { intros r desc Hr Hdesc. unfold ex_sparse_rows in Hr. rewrite !elem_of_cons, elem_of_nil in Hr.
    destruct Hr as [->|[->|[->|[]]]]; cbn in Hdesc; rewrite ?elem_of_cons, ?elem_of_nil in Hdesc;
      by repeat destruct Hdesc as [->|Hdesc]. }
  split; [|intros r s d d' Hr Hs Hd1 Hd2 E; rewrite (Hd r d Hr Hd1), (Hd s d' Hs Hd2); by rewrite E|done].
  intros r Hr. apply (bool_decide_unpack _). unfold ex_sparse_rows in Hr. rewrite !elem_of_cons, elem_of_nil in Hr.
  by destruct Hr as [->|[->|[->|[]]]].
Qed.

Lemma builder_spec_witness :
  exists c, ChunkBuilder.build (with_rows (ChunkBuilder.new new_id ["a"]) ex_sparse_rows) = Done (Ok c)
    /\ chunk_wf c /\ rows c = sparse_row_of <$> ex_sparse_rows.
Proof.
  destruct (builder_spec new_id ["a"] ex_sparse_rows lenient ex_described) as (res & Hrun & Hok & Hrows).
  destruct (proj2 Hok) as [c ->].
  - intros r s Hr Hs. assert (forall r, r ∈ ex_sparse_rows -> dom (sparse_timepoint r) = {["frame"]}) as Hdom; [|by rewrite !Hdom].
    clear. intros r Hr. unfold ex_sparse_rows in Hr. rewrite !elem_of_cons, elem_of_nil in Hr.
    destruct Hr as [->|[->|[->|[]]]]; vm_compute; reflexivity.
  - exists c. destruct (Hrows c eq_refl) as (Hwf & _ & _ & Hr). split; [exact Hrun|]. split; [exact Hwf|exact Hr].
Defined.

(** A component that is given twice in one row is not an error: its second value goes to the next row. *)
Example doubled_component_moves :
  match ChunkBuilder.build (with_rows (ChunkBuilder.new new_id ["a"])
    [ex_sparse 1 [] [("pos", Some [1]); ("pos", Some [2])]; ex_sparse 2 [] []]) with
  | Done (Ok c) => Chunk.cell c (RowId.from_u128 2) "pos" = Some [2]
  | _ => False
  end.
Proof. vm_compute. reflexivity. Qed.

(** ** A run *)

Import Batcher.

Definition ex_draws (n : nat) : Draws := fun _ _ _ i => ChunkId.from_u128 (1000 * Z.of_nat n + Z.of_nat i).

(** A flush at two rows of an entity, or at a hundred bytes. *)
Definition ex_config : ChunkBatcherConfig.t := ChunkBatcherConfig.Mk 1000 100 2 8 1000.

Definition ex_events : list Event :=
  [ Recv (Some (AppendRow ["a"] (ex_row 2 [("frame", 1)] [("pos", [1; 2])])));
    Recv (Some (AppendRow ["b"] (ex_row 1 [("frame", 1)] [("pos", [3])])));
    Recv (Some (AppendRow ["a"] (ex_row 3 [("frame", 0)] [("pos", [3])])));
    Tick;
    Recv (Some (AppendChunk ex_chunk));
    Recv (Some (UpdateConfig ChunkBatcherConfig.DEFAULT));
    Recv (Some (AppendRow ["a"] (ex_row 4 [] [("pos", [3])]))) ].

Definition ex_events_ending : list Event := ex_events ++ [Recv (Some Shutdown); Tick].

Lemma ex_appended_ok p : Forall row_ok (appended p ex_events).
Proof. cbn. repeat case_decide; cbn; repeat (constructor; [apply ex_row_ok|]); constructor. Qed.

Lemma ex_appended_ending p : appended p ex_events_ending = appended p ex_events.
Proof. unfold appended, ex_events_ending. rewrite bind_app. cbn. by rewrite app_nil_r. Qed.

Lemma ex_sizes : Forall (fun e => 0 <= event_bytes e) ex_events_ending.
Proof. repeat constructor; vm_compute; discriminate. Qed.

Lemma batcher_spec_witness :
  exists sent, batching_thread ex_draws ex_config ex_events_ending = Done (None, sent)
    /\ length sent = 4%nat /\ sent_rows ["a"] sent ≡ₚ logged ["a"] ex_events.
Proof.
  destruct (batcher_spec ex_config ex_draws ex_events_ending) as (next & sent & Hrun & Hrows & Hnext & _).
  - exact lenient.
  - intros p. rewrite ex_appended_ending. apply ex_appended_ok.
  - intros p. apply ref_compatible.
  - exact ex_sizes.
  - vm_compute. discriminate.
  - assert (next = None) as -> by (by apply Hnext). exists sent. split; [exact Hrun|]. split; [|].
    + assert (match batching_thread ex_draws ex_config ex_events_ending with Done (_, sent) => length sent | Panic => 0%nat end = 4%nat) as Hl
        by (vm_compute; reflexivity).
      by rewrite Hrun in Hl.
    + specialize (Hrows ["a"]). cbn [from_option] in Hrows. rewrite app_nil_r in Hrows. exact Hrows.
Defined.

Lemma batcher_flush_spec_witness :
  exists st sent, batching_thread ex_draws ex_config (ex_events ++ [Recv (Some (Flush 0%nat))]) = Done (Some st, sent ++ [FlushDone 0%nat])
    /\ sent_rows ["a"] sent ≡ₚ logged ["a"] ex_events /\ pending_of ["b"] st = [].
Proof.
  destruct (batcher_flush_spec ex_config ex_draws ex_events [Recv (Some (Flush 0%nat))] [FlushDone 0%nat] lenient ex_appended_ok
    (fun p => ref_compatible _)) as (st & sent & Hrun & Hq).
  - repeat constructor; vm_compute; discriminate.
  - vm_compute. discriminate.
  - by repeat constructor.
  - constructor.
  - exists st, sent. split; [exact Hrun|]. split; [apply Hq|apply Hq].
Defined.

Lemma quiet_entity_starves_witness :
  exists st sent, batching_thread ex_draws (ChunkBatcherConfig.Mk 1000 18 10 8 1000)
      (Recv (Some (AppendRow ["b"] (ex_row 1 [] [("pos", [3])])))
       :: mjoin (replicate 100 [Recv (Some (AppendRow ["a"] (ex_row 2 [] [("pos", [1; 2])]))); Tick])) = Done (Some st, sent)
    /\ sent_rows ["b"] sent = [] /\ pending_of ["b"] st = [row_of (ex_row 1 [] [("pos", [3])])].
Proof.
  apply (quiet_entity_starves lenient (ChunkBatcherConfig.Mk 1000 18 10 8 1000) ["b"] ["a"]
    (ex_row 1 [] [("pos", [3])]) (ex_row 2 [] [("pos", [1; 2])])).
  - done.
  - apply ex_row_ok.
  - split; vm_compute; [discriminate|reflexivity].
  - split; vm_compute; discriminate.
  - reflexivity.
Defined.
