(* ===== verification/DlrExamples.v ===== *)
(** * The log format on concrete bytes

    Messages that are their own encoding, and runs of the encoder and the decoder on them, with
    the theorems on the log format applied to them. *)

From stdpp Require Import strings.
From S2P Require Import Prelude Ints Tuid Text CrateVersion DlrFrames DlrDecoder DlrDecoderSpec DlrStream DlrEncoder DlrEncoderSpec DlrReader DlrReaderSpec.

(** A message is its bytes, and the manifests of a footer are its bytes. *)
Definition Toy : Type := list Z.
#[export] Instance toy_message : ProstMessage Toy := {
  prost_encode m := m;
  prost_decode data := Some data;
}.
#[export] Instance toy_message_laws : ProstLaws Toy.
Proof. done. Qed.

#[export] Instance toy_protos : Protos := {
  SetStoreInfoProto := Toy;
  ArrowMsgProto := Toy;
  BlueprintActivationCommandProto := Toy;
  RrdManifestProto := Z;
  RrdFooterProto := Toy;
  rrd_footer_manifests m := m;
}.
#[export] Instance toy_protos_laws : ProtosLaws.
Proof. split; apply toy_message_laws. Qed.

#[export] Instance toy_version : LocalVersion := CrateVersion.new 0 24 0.
#[export] Instance toy_xxh32 : Xxh32 := fun l seed => foldr Z.add seed l mod 2 ^ 32.
#[export] Instance toy_xxh32_laws : Xxh32Laws.
Proof. intros l seed. apply Z.mod_pos_bound. lia. Qed.

(** A log message is an Arrow message; the footer counts the bytes of the payloads. *)
#[export] Instance toy_application : Application := {
  LogMsg := Toy;
  to_transport m _ := Ok (Msg.ArrowMsg (m : ArrowMsgProto));
  byte_size_uncompressed _ := 0;
  RrdFooter := Toy;
  rrd_footer_to_transport footer := Ok footer;
  FooterState := Toy;
  footer_state_default := [];
  footer_state_append footer _ span _ := (footer ++ [Span.len span], Ok tt);
  footer_state_finish footer := Ok footer;
}.

Definition toy_arrow (m : Toy) : Msg.t := Msg.ArrowMsg (H := toy_protos) m.

(** ** Files *)

Definition toy_log1 : list (result LogMsg Z) := [Ok ([7; 8] : Toy); Ok ([] : Toy); Ok ([9] : Toy)].
Definition toy_log2 : list (result LogMsg Z) := [Ok ([4; 5; 6] : Toy)].
Definition toy_log3 : list (result LogMsg Z) := [].
Definition toy_logs := [toy_log1; toy_log2; toy_log3].

Definition toy_file (log : list (result LogMsg Z)) : list Z :=
  match Encoder.encode log with Done (Ok file) => file | _ => [] end.
Definition toy_files : list (list Z) := toy_file <$> toy_logs.

(** Pieces of [n] bytes. *)
Fixpoint pieces (fuel n : nat) (bytes : list Z) : list ReaderEvent :=
  match fuel, bytes with
  | O, _ | _, [] => []
  | S fuel, _ => Data (take n bytes) :: Interrupted :: pieces fuel n (drop n bytes)
  end.

Definition decoded `{Protos} (reader : list ReaderEvent) :=
  match DecoderIterator.collect true (DecoderIterator.decode_lazy (B := ByteChunkBuffer.t) reader) with
  | Done (Some (it, items)) =>
      Some (items, Decoder.state (DecoderIterator.decoder it), Decoder.dlr_manifests (DecoderIterator.decoder it), DecoderIterator.num_bytes_processed it)
  | _ => None
  end.

Definition toy_reader : list ReaderEvent := pieces 400 7 (concat toy_files).

Example toy_decoded :
  decoded toy_reader
  = Some ([Ok (toy_arrow [7; 8]); Ok (toy_arrow []); Ok (toy_arrow [9]); Ok (toy_arrow [4; 5; 6])],
          WaitingForStreamHeader, [2; 0; 1; 3], Z.of_nat (length (concat toy_files))).
Proof. vm_compute. reflexivity. Qed.

Lemma toy_clean fuel n bytes : n <> 0%nat -> clean (pieces fuel n bytes).
Proof.
  intros Hn. revert bytes. induction fuel as [|fuel IH]; intros [|b bytes]; try by constructor. destruct n; [done|]. repeat constructor. apply IH.
Qed.

Lemma decoder_chunking_witness :
  match DecoderIterator.collect true (DecoderIterator.decode_lazy (B := ByteChunkBuffer.t) (pieces 400 7 (concat toy_files))),
        DecoderIterator.collect true (DecoderIterator.decode_lazy (B := ByteChunkBuffer.t) (pieces 400 1 (concat toy_files))) with
  | Panic, Panic => True
  | Done (Some (it1, items1)), Done (Some (it2, items2)) =>
      items1 = items2
      /\ Decoder.dlr_manifests (DecoderIterator.decoder it1) = Decoder.dlr_manifests (DecoderIterator.decoder it2)
      /\ Decoder.state (DecoderIterator.decoder it1) = Decoder.state (DecoderIterator.decoder it2)
  | _, _ => False
  end.
Proof.
  apply (decoder_chunking true (pieces 400 7 (concat toy_files)) (pieces 400 1 (concat toy_files))); [by apply toy_clean..|].
  vm_compute. reflexivity.
Defined.

(** A stream with a footer, a stream without one, and a stream without anything. *)
Definition toy_stream (messages : list Toy) (footer : option Toy) : Stream :=
  MkStream (CrateVersion.new 0 23 1) EncodingOptions.PROTOBUF_UNCOMPRESSED (Msg.SetStoreInfo (H := toy_protos) <$> messages) footer.
Definition toy_streams : list Stream := [toy_stream [[1]; [2; 3]] (Some [42]); toy_stream [[4]] None; toy_stream [[5]] (Some []); toy_stream [] None].

Lemma toy_streams_ok : Forall stream_ok toy_streams.
Proof.
  repeat (constructor; [split; [by eexists|split; [repeat (constructor; [cbn; unfold is_u8; lia|]); constructor|by vm_compute]]|]). constructor.
Qed.

Lemma concatenated_streams_spec_witness :
  exists it, DecoderIterator.collect true (DecoderIterator.decode_lazy (B := ByteChunkBuffer.t) (pieces 400 5 (toy_streams ≫= stream_bytes)))
      = Done (Some (it, Ok <$> (toy_streams ≫= stream_messages)))
    /\ Decoder.dlr_manifests (DecoderIterator.decoder it) = (toy_streams ≫= (fun stream => footer_manifests (stream_footer stream)))
    /\ between (Decoder.state (DecoderIterator.decoder it)).
Proof.
  apply (concatenated_streams_spec true toy_streams (pieces 400 5 (toy_streams ≫= stream_bytes))); [apply toy_streams_ok|by apply toy_clean|].
  vm_compute. reflexivity.
Defined.

Lemma encode_decode_roundtrip_witness :
  exists it transports,
    DecoderIterator.collect true (DecoderIterator.decode_lazy (B := ByteChunkBuffer.t) toy_reader) = Done (Some (it, Ok <$> transports))
    /\ Forall2 (transports_to EncodingOptions.PROTOBUF_COMPRESSED) (concat toy_logs) transports.
Proof.
  apply (encode_decode_roundtrip true toy_logs toy_files toy_reader).
  - repeat (constructor; [vm_compute; reflexivity|]). constructor.
  - split; [repeat (constructor; [cbn; unfold is_u8; lia|]); constructor|discriminate].
  - repeat (constructor; [by vm_compute|]). constructor.
  - by apply toy_clean.
  - vm_compute. reflexivity.
Defined.

(** The reader is not ready before each of its pieces. *)
Definition toy_polls : list PollEvent := pieces 400 7 (concat toy_files) ≫= (fun event => [Pending; Ready event]).

Example toy_awaited :
  match DecoderStream.collect true (DecoderStream.new (B := ByteChunkBuffer.t) toy_polls) with
  | Done (Some (self, items)) => Some (items, Decoder.dlr_manifests (DecoderStream.decoder self))
  | _ => None
  end = Some ([Ok (toy_arrow [7; 8]); Ok (toy_arrow []); Ok (toy_arrow [9]); Ok (toy_arrow [4; 5; 6])], [2; 0; 1; 3]).
Proof. vm_compute. reflexivity. Qed.

Lemma toy_polls_clean : clean (without_pending toy_polls).
Proof. assert (without_pending toy_polls = toy_reader) as -> by (vm_compute; reflexivity). by apply toy_clean. Qed.

Lemma stream_spec_witness :
  fueled_rel (fun r r' => r.2 = r'.2 /\ Decoder.dlr_manifests (DecoderStream.decoder r.1) = Decoder.dlr_manifests (DecoderIterator.decoder r'.1))
    (DecoderStream.collect true (DecoderStream.new (B := ByteChunkBuffer.t) toy_polls))
    (DecoderIterator.collect true (DecoderIterator.decode_lazy (B := ByteChunkBuffer.t) (without_pending toy_polls))).
Proof. exact (proj2 (proj2 (stream_spec true toy_polls)) toy_polls_clean). Defined.

Definition toy_encoder : Encoder.t :=
  Encoder.Mk Protobuf LZ4 (Some (header_bytes LOCAL EncodingOptions.PROTOBUF_COMPRESSED)) 12 (Some []) false.

Example toy_encoder_new : Encoder.local = Done (Ok toy_encoder).
Proof. reflexivity. Qed.

Lemma encoder_span_spec_witness :
  exists self' span, Encoder.append_transport_without_footer toy_encoder (toy_arrow [7; 8]) = (self', Ok (span, 0))
    /\ writing [] LOCAL EncodingOptions.PROTOBUF_COMPRESSED [toy_arrow [7; 8]] self'
    /\ Encoder.footer_state self' = None
    /\ forall rest, take (Z.to_nat (Span.len span)) (drop (Z.to_nat (Span.start span))
         (header_bytes LOCAL EncodingOptions.PROTOBUF_COMPRESSED ++ messages_bytes [toy_arrow [7; 8]] ++ rest)) = [7; 8].
Proof. apply (encoder_span_spec [] LOCAL EncodingOptions.PROTOBUF_COMPRESSED [] toy_encoder (toy_arrow [7; 8])). by split. Defined.

(** ** Bytes that the decoder does not take well *)

Definition toy_message_bytes (kind : MessageKind) (len : Z) (payload : list Z) : list Z :=
  MessageHeader.to_dlr_bytes (MessageHeader.Mk kind len) ++ payload.
Definition toy_header : list Z := header_bytes LOCAL EncodingOptions.PROTOBUF_UNCOMPRESSED.

(** A message that announces [2 ^ 63] bytes: the buffer for them cannot be made, and the decoder
    panics before any of them has come. *)
Example announced_length : decoded [Data (toy_header ++ toy_message_bytes ArrowMsg (2 ^ 63) [])] = None.
Proof. vm_compute. reflexivity. Qed.

(** A stream of a writer before footers, whose end has no payload, and another stream after it:
    the first bytes of the second are read as a footer, and its messages are lost. *)
Example legacy_end :
  decoded [Data (toy_header ++ toy_message_bytes ArrowMsg 1 [7] ++ toy_message_bytes End 0 []
                 ++ toy_header ++ toy_message_bytes ArrowMsg 1 [8] ++ toy_message_bytes ArrowMsg 1 [9])]
  = Some ([Ok (toy_arrow [7])], Aborted, [], 77).
Proof. vm_compute. reflexivity. Qed.

(** The payload of an end that is not a footer: the decoder still expects a payload of that end, and
    takes every following piece of that length, of the next stream as well, for another one. *)
Definition picky_message : ProstMessage Toy := {| prost_encode m := m; prost_decode data := None |}.
Definition picky_protos : Protos := {|
  SetStoreInfoProto := Toy;
  ArrowMsgProto := Toy;
  BlueprintActivationCommandProto := Toy;
  RrdManifestProto := Z;
  RrdFooterProto := Toy;
  rrd_footer_manifests m := m;
  set_store_info_message := toy_message;
  arrow_msg_message := toy_message;
  blueprint_activation_command_message := toy_message;
  rrd_footer_message := picky_message;
|}.

Example undecodable_footer :
  decoded (H := picky_protos)
    [Data (toy_header ++ toy_message_bytes End 14 (replicate 14 1) ++ toy_header ++ toy_message_bytes ArrowMsg 0 [])]
  = Some ([Err (Codec ProtobufDecode); Err (Codec ProtobufDecode); Err (Codec ProtobufDecode)],
          WaitingForMessagePayload (MessageHeader.Mk End 14), [], 70).
Proof. vm_compute. reflexivity. Qed.

(** A footer that announces two entries: the decoder panics, after the whole stream was read. *)
Example two_footers :
  decoded [Data (toy_header ++ toy_message_bytes ArrowMsg 1 [7] ++ toy_message_bytes End 0 []
                 ++ replicate 20 0 ++ lit "RRF2FOOT" ++ [2; 0; 0; 0])] = None.
Proof. vm_compute. reflexivity. Qed.

(** ** Readers by positions *)

Definition toy_footed : Stream := toy_stream [[1]; [2; 3]] (Some [42]).

Lemma read_footer_spec_witness :
  FooterReader.read_dlr_footer_payload true (stream_bytes toy_footed) = Done (Ok (Some [42]))
  /\ FooterReader.read_dlr_footer_payload true (stream_bytes (toy_stream [[4]; [5]; [6]] None) ++ stream_bytes toy_footed)
     = Done (Err (CrcMismatch (StreamFooter.compute_crc [42]) (StreamFooter.compute_crc [82]))).
Proof.
  destruct (read_footer_spec (R := list Z) true (stream_bytes toy_footed) toy_footed [42] eq_refl) as [Hone _].
  destruct (read_footer_spec (R := list Z) true (stream_bytes (toy_stream [[4]; [5]; [6]] None) ++ [] ++ stream_bytes toy_footed) toy_footed [42] eq_refl)
    as [_ Hmany].
  split; [apply Hone, bytes_hold; by vm_compute|].
  apply (Hmany (toy_stream [[4]; [5]; [6]] None) []); [apply bytes_hold; by vm_compute|by vm_compute].
Defined.

(** Messages that announce a store, or activate a blueprint; the application of a store is its
    parity. *)
#[export] Instance toy_metadata : Metadata := {
  StoreId := Z;
  store_id_le := Z.leb;
  ApplicationId := Z;
  application_id id := id mod 2;
  announcement m :=
    match m with
    | Msg.SetStoreInfo [id] => Announces id
    | Msg.BlueprintActivationCommand [make_default; id] => Activates (make_default =? 1) id
    | _ => OtherMessage
    end;
  Footer := Toy;
  footer_to_application footer := Ok footer;
  footer_store_ids footer := footer;
}.
#[export] Instance toy_store_ids : StoreIdOrder.
Proof. split; [split; cbn; intros *; rewrite ?Z.leb_le; lia|cbn; intros *; rewrite !Z.leb_le; lia]. Qed.

Definition toy_frames : list (MessageKind * list Z) :=
  [(SetStoreInfo, [7]); (ArrowMsg, [1; 2; 3]); (BlueprintActivationCommand, [1; 7]); (SetStoreInfo, [5]);
   (BlueprintActivationCommand, [1; 8]); (BlueprintActivationCommand, [1; 5]); (BlueprintActivationCommand, [0; 7]); (SetStoreInfo, [7])].
Definition toy_legacy : list Z := toy_header ++ (toy_frames ≫= frame_bytes) ++ [1; 0; 0].

Lemma legacy_metadata_spec_witness :
  exists metadata, RrdMetadata.enumerate_legacy_metadata true 9 toy_legacy = returns (Ok metadata)
    /\ RrdMetadata.store_ids metadata = [5; 7]
    /\ (RrdMetadata.default_blueprint_by_app_id metadata !! 1) = Some 5 /\ (RrdMetadata.default_blueprint_by_app_id metadata !! 0) = None.
Proof.
  destruct (legacy_metadata_spec true toy_legacy LOCAL EncodingOptions.PROTOBUF_UNCOMPRESSED LOCAL toy_frames [1; 0; 0] 9) as [Hresult _].
  - apply bytes_hold. by vm_compute.
  - reflexivity.
  - repeat (constructor; [done|]). constructor.
  - left. cbn. lia.
  - cbn. lia.
  - eexists. split; [exact Hresult|]. split; [vm_compute; reflexivity|]. split; [vm_compute; reflexivity|]. vm_compute; reflexivity.
Defined.

Definition toy_looping : list Z := toy_header ++ toy_message_bytes ArrowMsg (2 ^ 64 - 16) [].

Lemma legacy_scan_termination_witness :
  RrdMetadata.enumerate_legacy_metadata true 20 toy_legacy <> Done None
  /\ forall fuel, RrdMetadata.enumerate_legacy_metadata false fuel toy_looping = Done None.
Proof.
  assert (holds toy_legacy toy_legacy) as Hlegacy by (apply bytes_hold; by vm_compute).
  assert (holds toy_looping toy_looping) as Hlooping by (apply bytes_hold; by vm_compute).
  destruct (legacy_scan_termination toy_legacy toy_legacy Hlegacy) as [Hends _].
  destruct (legacy_scan_termination toy_looping toy_looping Hlooping) as [_ Hloops].
  split.
  - apply Hends; [|by vm_compute]. apply (bool_decide_unpack (Forall is_u8 toy_legacy)). by vm_compute.
  - intros fuel. apply (Hloops LOCAL EncodingOptions.PROTOBUF_UNCOMPRESSED LOCAL []); [by vm_compute|reflexivity].
Defined.

(** Three chunks, the second far from the others; a chunk is its bytes if it has some. *)
Definition toy_chunk (data : list Z) : result (list Z) CodecError :=
  match data with [] => Err ProtobufDecode | _ => Ok data end.
Definition toy_bytes : list Z := [10; 11; 12; 13] ++ replicate 70000 0 ++ [20; 21].
Definition toy_id : Z -> ChunkId.t := ChunkId.from_u128.
Definition toy_manifest : RrdManifest := MkManifest [toy_id 1; toy_id 2; toy_id 3] [2; 70004; 0] [2; 2; 2].

Lemma read_chunks_spec_witness :
  ChunkReader.read_chunks true toy_chunk toy_bytes toy_manifest [toy_id 1; toy_id 2; toy_id 3] = Done (Ok [[10; 11]; [12; 13]; [20; 21]])
  /\ ChunkReader.read_chunks true toy_chunk toy_bytes toy_manifest [toy_id 1; toy_id 4; toy_id 5] = Done (Err (ChunkNotInManifest (toy_id 4))).
Proof.
  assert (holds toy_bytes toy_bytes) as Hbytes by (apply bytes_hold; by vm_compute).
  assert (Forall (fun e => 0 <= Span.start e.2 /\ 0 <= Span.len e.2 /\ end_of e.2 <= Z.of_nat (length toy_bytes)) (rows toy_manifest)) as Hrows
    by (repeat (constructor; [by vm_compute|]); constructor).
  rewrite (read_chunks_spec true toy_chunk toy_bytes toy_bytes toy_manifest [toy_id 1; toy_id 2; toy_id 3] Hbytes (conj eq_refl eq_refl) Hrows).
  rewrite (read_chunks_spec true toy_chunk toy_bytes toy_bytes toy_manifest [toy_id 1; toy_id 4; toy_id 5] Hbytes (conj eq_refl eq_refl) Hrows).
  by vm_compute.
Defined.
